(* ===== verification/_CoqProject ===== *)
-Q . S2P
Prelude.v
Decimal.v
Utf8.v
Source.v
Lexer.v
LexerFacts.v
Diagnostic.v
DiagnosticFacts.v
Ast.v
Parser.v
SyntaxTree.v
ParserLogic.v
ParserParts.v
ParserExpr.v
ParserCommand.v
ParserStatement.v
ParserFacts.v
Formatter.v
FormatterFacts.v
Status.v
Job.v
Order.v
Compare.v
Security.v
SecurityFacts.v
Path.v
Authority.v
AuthorityFacts.v
Glob.v
GlobFacts.v
Value.v
ValueFacts.v
Float.v
FloatFacts.v
Operation.v
OperationFacts.v
Scope.v
ScopeFacts.v
Stream.v
StreamFacts.v
Structured.v
StructuredFacts.v
Lifetime.v
LifetimeFacts.v
Convert.v
ConvertFacts.v
Types.v
TypesFacts.v
Catalog.v
CatalogFacts.v
Evaluation.v
Strings.v
StringsFacts.v
Records.v
RecordsFacts.v
Lists.v
ListsFacts.v
Data.v
DataFacts.v
Environment.v
Command.v
CommandFacts.v
Carrier.v
Resolve.v
Plan.v
PlanFacts.v
Builtin.v
BuiltinFacts.v
WorkflowText.v
WorkflowTextFacts.v
Lsp.v
LspFacts.v
