(* ===== verification/Prelude.v ===== *)
(** * OPAAL, verified

    OPAAL is a typed language for automation with structured pipelines; this
    repository holds its syntax crate, its runtime, the command-line client,
    a language server and the platform adapters.  This library models, in Rocq,
    the parts of that code whose behaviour is decided by the program itself,
    and proves what makes them correct.  Definitions keep the names of the Rust
    items they translate; a method that takes [&mut self] returns the value it
    leaves behind.

    ** The program and the files

    - Text.  [opaal-syntax/src/source.rs] (spans, line index, positions) is
      [Source]; [opaal-syntax/src/lexer.rs] is [Lexer], its theorems are in
      [LexerFacts].  [Utf8] holds what both use of Rust's [str],
      [Decimal] the numbers that components write and read.
    - Diagnostics.  [opaal-syntax/src/diagnostic.rs] (labels, rendering) and
      [classification.rs] (is the input complete, unfinished or invalid) are
      [Diagnostic] / [DiagnosticFacts].
    - Parser.  [opaal-syntax/src/ast.rs] is [Ast], [parser.rs] is [Parser]: one
      function for each function of the code, in a state and error monad, the
      recursion open ([Rec]) and closed by [parser].  [SyntaxTree] is the
      specification side (trees of ranges, operator levels, kept tokens);
      [ParserLogic] a weakest-precondition calculus with its automation,
      [ParserParts], [ParserExpr], [ParserCommand] and [ParserStatement] what
      each function promises, [ParserFacts] the theorems about a source.
    - Formatter.  [opaal-syntax/src/formatter.rs] is [Formatter] (the layout a
      script asks for, then the rewriting of its tokens) / [FormatterFacts].
    - Values.  [opaal-runtime/src/value.rs] is [Status] (durations, signals,
      statuses) and [Value] (value families, equality, records, tables, ranges,
      and the value types of [module.rs]); theorems in [ValueFacts].
    - Scopes.  [opaal-runtime/src/scope.rs] is [Scope], theorems in
      [ScopeFacts].
    - Streams and codecs.  [stream.rs] is [Stream] / [StreamFacts]; [convert.rs]
      is [Convert] / [ConvertFacts].  A decoder pulls chunks, an encoder pulls a
      value stream.
    - Jobs.  [job.rs] is [Job]: the lifecycle of a process group.
    - Globbing.  [glob.rs] is [Glob] / [GlobFacts], over [std::path] ([Path]).
    - Secrets.  [security.rs] is [Security] / [SecurityFacts].
    - The language server's framing ([opaal-lsp/src/transport.rs]) and document
      URIs ([opaal-lsp/src/uri.rs]) are [Lsp] / [LspFacts].
    - Operators.  [opaal-runtime/src/operation.rs] (arithmetic, comparison,
      membership, indexing, fields, conversions) is [Operation] /
      [OperationFacts], over the binary64 arithmetic of [Float] / [FloatFacts].
    - Structured commands.  [structured.rs] (drains, [lines], [select], [get],
      [sort]) is [Structured] / [StructuredFacts].
    - Types.  The operations of [module.rs] on value types (unification,
      instantiation, display, nominal declarations, the [Equal] and [Ordered]
      constraints) are [Types] / [TypesFacts].
    - The catalog.  The operation descriptors and tables of [seam.rs] and of
      [operation.rs] (validation, overload resolution, callbacks, execution,
      every table the runtime ships) are [Catalog] / [CatalogFacts].
    - Authority.  [authority.rs] with the request and scope types of
      [opaal-platform/src] is [Authority] / [AuthorityFacts].
    - Lifetimes.  [lifetime.rs] and the cancellation tokens of [eval.rs] are
      [Lifetime] / [LifetimeFacts]: a machine whose steps are the atomic
      operations threads interleave.
    - The evaluator's operations.  [Evaluation] is what they share of [eval.rs]:
      the resource budget, the polls of the cancellation token and the
      allocator, as a state and error monad, with a calculus of what a
      computation may spend ([runs], [returns]) and of its pure result
      ([computes], with the most it asks for in one charge).  On it,
      [eval/string_operations.rs] is [Strings] / [StringsFacts],
      [eval/record_operations.rs] is [Records] / [RecordsFacts],
      [eval/list_operations.rs] is [Lists] / [ListsFacts] (the body of a callback
      is the interface [Callables]), and [data.rs] with
      [eval/data_operations.rs] is [Data] / [DataFacts] (the TOML parser and the
      texts of serde_json are the interface [DataLibraries]).
    - Running commands.  [environment.rs] is [Environment] (bounded snapshots,
      deltas), [command.rs] is [Command] / [CommandFacts] (argument schemas and
      their validation, the namespace), [carrier.rs] is [Carrier], [resolve.rs]
      is [Resolve], [plan.rs] is [Plan] / [PlanFacts] (the expansion of words and
      the help catalog are the interface [Planner]) and [builtin.rs] is
      [Builtin] / [BuiltinFacts].
    - Persisted artifacts.  The texts of [workflow.rs] (timestamps and civil
      dates, native paths in base64url, digests, run ids) are [WorkflowText] /
      [WorkflowTextFacts].
    - [Order] holds what the code uses of [Ord] on byte strings, [sort_by] and
      ordered maps; [Compare] what it uses of [Ord], [BTreeSet],
      [binary_search] and stable [sort_by] in general, as an interface.

    How they interact: [Parser] reads the tokens of [Lexer] after [Diagnostic]
    has classified them, and reports through it; [Formatter]
    reads its scripts and their tokens; [Scope] checks values of [Value] against annotations;
    [Stream] checks items with the same [accepts]; [Convert] turns byte chunks
    into values and pulls [Stream]; [Structured] pulls [Stream] too, and sorts
    what it drained by the order of [Operation] through the stable sort of
    [Compare]; [Catalog] resolves a call with the unification of [Types],
    declares the [Authority] requests an operation needs and counts over
    [Stream]; the [Ordered] constraint of [Types] is what makes the order of
    [Operation] answer; a [Job] stores the [Status] of its members;
    [Glob] sorts paths with [Path] and [Order].  [Strings] validates UTF-8 for
    [Data] too, whose objects find repeated keys with the index sort of
    [Records]; [Plan] reads the pipelines of [Ast], resolves their heads with
    [Resolve] in the registry of [Command] and the [Environment], validates what
    [Builtin] then runs and checks edges with [Carrier]; [Lists] infers its types with [Catalog] and [Types] and sorts by
    the order of [Operation].

    ** Conventions

    A call returns [Ok], [Err] or [Panic] ([res], below): an index outside a
    slice, a failed [expect] or [assert!] is [Panic], so that its absence is a
    theorem.  Bytes are integers of [0, 256), strings are byte lists, machine
    integers are [Z] with the bounds the code relies on written out.  Closures
    the program is handed (stream producers, cancellation tokens, directory
    readers, a JSON escaper) are parameters: functions, or their answers call by
    call.

    ** What the theorems show

    - Source and lexer: spans and slices never leave character boundaries,
      positions convert back and forth in both encodings, lexing is total, its
      tokens tile the source, have the spelling of their kind and nest.
    - Parser: parsing returns on every source without a panic and its errors
      render; in a complete script the range of every node contains those of its
      parts (the pattern of a parameter that destructures without an annotation
      apart), operators bind by their levels and no token is lost.  Three places
      where the code departs from what it says are theorems too.
    - Formatter: formatting returns on every source; the text is the tokens of
      the script in order, with other blanks, commas added only before closing
      braces and every comment still ending its line.  Two sources whose
      formatted text is invalid are a theorem as well.
    - Secrets: redacted output shows no registered needle outside a marker, text
      redaction never fails, clean input is unchanged, a secret is consumed
      once.
    - Jobs: the published state is the aggregate of the members, refused calls
      change nothing, transitions follow the lifecycle, notices are exact.
    - Values and scopes: equality is an equivalence, annotation checking is
      sound, tables are rectangular, bindings keep their declared type (given what
      the caller of the one unchecked store promises), capsules
      and capsule deltas reproduce what a scope shows.
    - Streams and codecs: declared contracts are enforced, cleanup runs once,
      decoding does not depend on chunk boundaries and gives the exact error
      offset, encoding inverts it.
    - Operators: integer arithmetic is exact or refused, no operator panics on
      the operands the checker lets through (one pair apart, a finding), the
      orders are laws of a total order on comparable values.
    - Structured commands: a drain yields exactly the items before the first
      error, [lines] does not depend on chunk boundaries, [sort] is the stable
      permutation its keys ask for, [select] keeps exactly the fields named.
    - Types: without [Any], unification answers exactly the substitutions that
      make the types equal; an [Ordered] constraint admits only types whose values
      compare, an [Equal] one no type whose values hold a callable or a handle
      outside untyped records, tables and errors.
    - The catalog: resolution picks the one overload that applies or says why
      none does; the shipped tables pass their own validation.
    - Authority: a verdict is the declared decision, a context grants only what
      was requested and approved.
    - Lifetimes: under every interleaving a cleanup runs exactly once, and
      pollers agree on the reason of a cancellation.
    - Evaluator operations: each operation of [std::string], [std::record] and
      [std::list] computes its reference on whole texts, entries and items, or
      is stopped for a reason (a poll, the allocator, or a budget with no room
      for it, left full); a search is linear and spends a bounded budget; sorts
      are stable, and split and join round trip.
    - Data: the JSON decoder accepts exactly the documents of a grammar, with
      their values; what the encoder writes denotes the canonical value and is
      read back as it, floats as the library reads them.
    - Commands: a manifest becomes a registry exactly when it is valid, arguments
      are accepted exactly when they conform to their schema, a bare name never
      leaves the registry and [PATH] is searched exactly; a plan is what registry,
      probe and schemas say, preflight accepts exactly the plans that can run, and
      a planned standard built-in never fails over how many or what kind of
      arguments it has and keeps its contract with the session.
    - Artifacts: instants and their timestamps, byte strings and their base64url
      texts determine each other, and the civil dates are the Gregorian calendar.
    - Globbing: the match table decides the declarative meaning of a pattern,
      the walk ends and is exact, expansion is sorted and sound.
    - Language server: framing and URIs round trip; a frame is read exactly when
      the input starts with a block of the header grammar, and the one way to
      panic (an oversized declared length) is exact.

    ** Fuel

    Loops that are not structural take fuel, always a length computed from the
    input ([S (length input)] for scanners, a bound on the directory tree for
    the walk); the parser's loops and its recursion have one unit for each token
    and two more, because a recursive call follows a consumed token; [lines] has
    one unit for each chunk and three more; the [Equal] constraint one for each
    nominal declaration and one more, because a declaration is visited once; the
    loop over arguments their number; the loops of the JSON decoder have the
    length of the input, because each round consumes a byte, and its recursion
    the 64 levels the code allows.  The
    theorems include that this fuel suffices: running out is a [Panic].

    ** Not modelled

    Completion, module loading and checking (its type operations apart), the
    evaluator of statements and expressions, the decoding of Docker images, the
    help catalog, the execution of plans, sessions, workflow execution, the JSON
    artifacts and the journal of [workflow.rs], the command-line client, the language server's queries and
    the platform adapters; I/O, Display and Debug texts (except where a theorem
    needs one), concurrency primitives and third-party crates. *)

From Stdlib Require Export ZArith Lia.
From Stdlib Require Ascii String.
From stdpp Require Export base tactics numbers list option strings sets pretty.
From Stdlib Require Export Sorted.

Global Open Scope list_scope.
Global Open Scope nat_scope.

#[export] Set Default Goal Selector "!".

(** ** Results

    A call of the program ends in one of three ways: it returns [Ok], it
    returns an error value [Err], or it panics (a slice outside a character
    boundary, an [expect] on an error, an [assert!]).  Panics are values of
    the model, so that their absence is something to prove. *)
Inductive res (E A : Type) : Type :=
| Ok (a : A)
| Err (e : E)
| Panic.
Arguments Ok {E A} a.
Arguments Err {E A} e.
Arguments Panic {E A}.

Definition res_bind {E A B} (m : res E A) (k : A → res E B) : res E B :=
  match m with Ok a => k a | Err e => Err e | Panic => Panic end.

Definition res_map_err {E F A} (f : E → F) (m : res E A) : res F A :=
  match m with Ok a => Ok a | Err e => Err (f e) | Panic => Panic end.

(** [Result::expect] and [Option::expect]. *)
Definition expect {E F A} (m : res E A) : res F A :=
  match m with Ok a => Ok a | _ => Panic end.

Definition expect_some {E A} (m : option A) : res E A :=
  match m with Some a => Ok a | None => Panic end.

Definition is_ok {E A} (m : res E A) : bool :=
  match m with Ok _ => true | _ => false end.

Definition no_panic {E A} (m : res E A) : Prop := m ≠ Panic.

Declare Scope res_scope.
Delimit Scope res_scope with res.
Notation "'let*' x := m 'in' k" := (res_bind m (fun x => k))
  (at level 10, x name, m at level 100, k at level 200) : res_scope.
Notation "'let*' ' p := m 'in' k" := (res_bind m (fun p => k))
  (at level 10, p strict pattern, m at level 100, k at level 200) : res_scope.

Lemma res_bind_ok {E A B} (m : res E A) (k : A → res E B) b :
  res_bind m k = Ok b ↔ ∃ a, m = Ok a ∧ k a = Ok b.
Proof. destruct m; simpl; naive_solver. Qed.

Lemma res_bind_no_panic {E A B} (m : res E A) (k : A → res E B) :
  no_panic m → (∀ a, m = Ok a → no_panic (k a)) → no_panic (res_bind m k).
Proof. unfold no_panic. destruct m; naive_solver. Qed.

(** ** Bytes and strings

    A [u8] is an integer of [0, 256); a Rust [str], [OsStr] or byte slice is
    the list of its bytes.  [bs] writes a literal. *)
Abbreviation u8 := Z (only parsing).
Abbreviation str := (list Z) (only parsing).

Definition is_byte (b : u8) : Prop := (0 ≤ b < 256)%Z.
#[export] Instance is_byte_dec b : Decision (is_byte b).
Proof. unfold is_byte. apply _. Defined.

Definition ascii_byte (a : Ascii.ascii) : u8 := Z.of_N (Ascii.N_of_ascii a).
Fixpoint bs (s : String.string) : str :=
  match s with
  | String.EmptyString => []
  | String.String a s => ascii_byte a :: bs s
  end.
Arguments bs s%_string.

(** [Display] of an integer. *)
Definition show_int (z : Z) : str := bs (pretty z).

Definition str_eqb (a b : str) : bool := bool_decide (a = b).
Lemma str_eqb_eq a b : str_eqb a b = true ↔ a = b.
Proof. apply bool_decide_eq_true. Qed.

(** [slice::starts_with] on bytes. *)
Fixpoint starts_with (p s : str) : bool :=
  match p, s with
  | [], _ => true
  | _, [] => false
  | x :: p, y :: s => (x =? y)%Z && starts_with p s
  end.

Lemma starts_with_spec p s : starts_with p s = true ↔ ∃ r, s = p ++ r.
Proof.
  revert s. induction p as [|x p IH]; intros s; simpl.
  - split; [by exists s|done].
  - destruct s as [|y s]; [split; [done|by intros [r ?]]|].
    rewrite andb_true_iff, Z.eqb_eq, IH. split.
    + intros [-> [r ->]]. by exists r.
    + intros [r [= -> ->]]. eauto.
Qed.

Lemma starts_with_prefix p s : starts_with p s = true ↔ p `prefix_of` s.
Proof. apply starts_with_spec. Qed.

Lemma starts_with_length p s : starts_with p s = true → length p ≤ length s.
Proof. intros [r ->]%starts_with_spec. rewrite length_app. lia. Qed.

Lemma starts_with_lookup p s i x :
  starts_with p s = true → p !! i = Some x → s !! i = Some x.
Proof.
  intros [r ->]%starts_with_spec Hi. by apply lookup_app_l_Some.
Qed.

(** ** List operations of the standard library *)

(** [Vec::last], [Vec::pop] on a vector stored in order. *)
Fixpoint butlast {A} (l : list A) : list A :=
  match l with
  | [] | [_] => []
  | x :: l => x :: butlast l
  end.

Lemma butlast_snoc {A} (l : list A) x : butlast (l ++ [x]) = l.
Proof.
  induction l as [|y l IH]; [done|]. simpl. rewrite IH.
  by destruct l.
Qed.

Lemma mjoin_cons {A} (x : list A) l : mjoin (x :: l) = x ++ mjoin l.
Proof. done. Qed.

Lemma omap_step {A B} (f : A → option B) x l :
  omap f (x :: l) = match f x with Some y => y :: omap f l | None => omap f l end.
Proof. done. Qed.

(** The bytes [a .. b) of a list; the callers check the bounds. *)
Definition sub {A} (l : list A) (a b : nat) : list A := take (b - a) (drop a l).

Lemma length_sub {A} (l : list A) a b : b ≤ length l → length (sub l a b) = b - a.
Proof. intros. unfold sub. rewrite length_take, length_drop. lia. Qed.

Lemma sub_app {A} (l : list A) a b c :
  a ≤ b → b ≤ c → sub l a b ++ sub l b c = sub l a c.
Proof.
  intros Hab Hbc. unfold sub. replace (c - a) with ((b - a) + (c - b)) by lia.
  rewrite <- take_take_drop, drop_drop. by replace (a + (b - a)) with b by lia.
Qed.

Lemma sub_full {A} (l : list A) : sub l 0 (length l) = l.
Proof. unfold sub. rewrite drop_0, Nat.sub_0_r. apply firstn_all. Qed.

(** [partition_point]: the length of the prefix on which [f] holds. *)
Fixpoint partition_point {A} (f : A → bool) (l : list A) : nat :=
  match l with
  | [] => 0
  | x :: l => if f x then S (partition_point f l) else 0
  end.

Lemma partition_point_le {A} (f : A → bool) l : partition_point f l ≤ length l.
Proof. induction l; simpl; [lia|]. case_match; lia. Qed.

Lemma partition_point_before {A} (f : A → bool) l i x :
  i < partition_point f l → l !! i = Some x → f x = true.
Proof.
  revert i. induction l as [|y l IH]; intros i Hi Hx; [done|].
  simpl in Hi. destruct (f y) eqn:Hy; [|lia].
  destruct i; simplify_eq/=; [done|]. apply (IH i); [lia|done].
Qed.

Lemma partition_point_at {A} (f : A → bool) l x :
  l !! partition_point f l = Some x → f x = false.
Proof.
  induction l as [|y l IH]; [done|]. simpl. destruct (f y) eqn:Hy; simpl; [apply IH|].
  by intros [= <-].
Qed.

(** [PartialEq] of slices. *)
Definition list_eqb {A} (f : A → A → bool) : list A → list A → bool :=
  fix go l k :=
    match l, k with
    | [], [] => true
    | x :: l, y :: k => f x y && go l k
    | _, _ => false
    end.

Section ListEqb.
Context {A : Type} (f : A → A → bool).

Lemma list_eqb_spec l k :
  Forall (λ x, ∀ y, f x y = true ↔ x = y) l → list_eqb f l k = true ↔ l = k.
Proof.
  intros Hl. revert k. induction Hl as [|x l Hx _ IH]; intros [|y k]; simpl; try done.
  rewrite andb_true_iff, Hx, IH. naive_solver.
Qed.

Lemma list_eqb_refl l : Forall (λ x, f x x = true) l → list_eqb f l l = true.
Proof. induction 1 as [|x l Hx _ IH]; simpl; [done|]. by rewrite Hx. Qed.

Lemma list_eqb_sym l k :
  Forall (λ x, ∀ y, f x y = true → f y x = true) l → list_eqb f l k = true → list_eqb f k l = true.
Proof.
  intros Hl. revert k. induction Hl as [|x l Hx _ IH]; intros [|y k]; simpl; try done.
  rewrite !andb_true_iff. naive_solver.
Qed.

Lemma list_eqb_trans (Q : A → Prop) l k m :
  Forall (λ x, ∀ y z, Q y → Q z → f x y = true → f y z = true → f x z = true) l →
  Forall Q k → Forall Q m →
  list_eqb f l k = true → list_eqb f k m = true → list_eqb f l m = true.
Proof.
  intros Hl Hk Hm. revert k m Hk Hm.
  induction Hl as [|x l Hx _ IH]; intros [|y k] [|z m] Hk Hm; simpl; try done.
  apply Forall_cons_1 in Hk as [Hy Hk]. apply Forall_cons_1 in Hm as [Hz Hm].
  rewrite !andb_true_iff. intros [H1 H2] [H3 H4]. split; eauto.
Qed.
End ListEqb.

(** ** Automation *)

(** Turn the boolean comparisons of the code into propositions. *)
Ltac bool_to_prop :=
  repeat match goal with
  | H : (_ && _)%bool = true |- _ => apply andb_true_iff in H as [? ?]
  | H : (_ || _)%bool = false |- _ => apply orb_false_iff in H as [? ?]
  | H : negb _ = true |- _ => apply negb_true_iff in H
  | H : negb _ = false |- _ => apply negb_false_iff in H
  | H : (_ =? _)%Z = true |- _ => apply Z.eqb_eq in H
  | H : (_ =? _)%Z = false |- _ => apply Z.eqb_neq in H
  | H : (_ <=? _)%Z = true |- _ => apply Z.leb_le in H
  | H : (_ <=? _)%Z = false |- _ => apply Z.leb_gt in H
  | H : (_ <? _)%Z = true |- _ => apply Z.ltb_lt in H
  | H : (_ <? _)%Z = false |- _ => apply Z.ltb_ge in H
  | H : (_ =? _)%nat = true |- _ => apply Nat.eqb_eq in H
  | H : (_ =? _)%nat = false |- _ => apply Nat.eqb_neq in H
  | H : (_ <=? _)%nat = true |- _ => apply Nat.leb_le in H
  | H : (_ <=? _)%nat = false |- _ => apply Nat.leb_gt in H
  | H : (_ <? _)%nat = true |- _ => apply Nat.ltb_lt in H
  | H : (_ <? _)%nat = false |- _ => apply Nat.ltb_ge in H
  | H : str_eqb _ _ = true |- _ => apply str_eqb_eq in H
  end.

Create HintDb opaal.
#[export] Hint Resolve partition_point_le : opaal.
