(* ===== verification/Decimal.v ===== *)
(** * Decimal numbers

    [Display] of integers, the zero padding of [format!] and [str::parse], with
    the round trips the components that write and read numbers share. *)
From S2P Require Import Prelude.

Local Open Scope Z_scope.

Definition is_digit (b : u8) : bool := ((48 <=? b) && (b <=? 57))%Z.

Definition digits_value (s : str) : Z := foldl (λ acc b, acc * 10 + (b - 48))%Z 0%Z s.

(** [str::parse] of an unsigned integer. *)
Definition parse_unsigned (maximum : Z) (s : str) : option Z :=
  let digits := match s with 43%Z :: s => s | _ => s end in
  if bool_decide (digits = []) || negb (forallb is_digit digits) then None
  else
    let value := digits_value digits in
    if (maximum <? value)%Z then None else Some value.

(** [format!("{z:0width}")]. *)
Definition pad_zero (width : nat) (z : Z) : str := replicate (width - length (show_int z)) 48 ++ show_int z.

Notation add_digit := (λ acc b, acc * 10 + (b - 48)) (only parsing).

Lemma pretty_char_digit (d : N) :
  (d < 10)%N → ascii_byte (pretty_N_char d) = 48 + Z.of_N d.
Proof.
  intros Hd. destruct d as [|p]; [done|]. do 4 (destruct p as [p|p|]; try lia; try done).
Qed.

Lemma digits_value_cons b s acc :
  foldl add_digit acc (b :: s) = foldl add_digit (acc * 10 + (b - 48)) s.
Proof. done. Qed.

(** What a number reads like, digit by digit. *)
Lemma pretty_go_ind (P : N → str → str → Prop) :
  (∀ s, P 0%N s s) →
  (∀ x s r, (0 < x)%N → (∀ c, c = 48 + Z.of_N (x `mod` 10) → P (x `div` 10)%N (c :: s) r → P x s r)) →
  ∀ x s, P x (bs s) (bs (pretty_N_go x s)).
Proof.
  intros H0 Hstep x. induction (N.lt_wf_0 x) as [x _ IH]; intros s.
  destruct (decide (0 < x)%N) as [Hx|Hx]; [|by replace x with 0%N by lia].
  rewrite pretty_N_go_step by done.
  specialize (IH (x `div` 10)%N ltac:(by apply N.div_lt) (String.String (pretty_N_char (x `mod` 10)) s)).
  cbn [bs] in IH. eapply Hstep; [done| |exact IH]. apply pretty_char_digit. by apply N.mod_lt.
Qed.

Lemma pretty_go_value (x : N) (s : String.string) :
  foldl add_digit 0 (bs (pretty_N_go x s)) = foldl add_digit (Z.of_N x) (bs s).
Proof.
  apply (pretty_go_ind (λ x s r, foldl add_digit 0 r = foldl add_digit (Z.of_N x) s)); [done|].
  intros y l r Hy c -> ->. rewrite digits_value_cons. f_equal.
  rewrite N2Z.inj_div, N2Z.inj_mod. pose proof (Z.div_mod (Z.of_N y) (Z.of_N 10)). lia.
Qed.

Lemma pretty_go_digits (x : N) (s : String.string) :
  forallb is_digit (bs s) = true → forallb is_digit (bs (pretty_N_go x s)) = true.
Proof.
  apply (pretty_go_ind (λ _ s r, forallb is_digit s = true → forallb is_digit r = true)); [done|].
  intros y l r Hy c -> IH Hl. apply IH. cbn [forallb]. rewrite Hl, andb_true_r.
  assert (y `mod` 10 < 10)%N as Hm by (by apply N.mod_lt). revert Hm.
  generalize (y `mod` 10)%N. intros d Hd. unfold is_digit. lia.
Qed.

Lemma pretty_go_length (x : N) (s : String.string) (k : nat) :
  (x < 10 ^ N.of_nat k)%N → (length (bs (pretty_N_go x s)) ≤ k + length (bs s))%nat.
Proof.
  revert k. apply (pretty_go_ind (λ x s r, ∀ k, (x < 10 ^ N.of_nat k)%N → (length r ≤ k + length s)%nat)); [intros; lia|].
  intros y l r Hy c -> IH [|k] Hk; [simpl in Hk; lia|].
  specialize (IH k). cbn [length] in IH. enough (y `div` 10 < 10 ^ N.of_nat k)%N by (specialize (IH ltac:(done)); lia).
  apply N.Div0.div_lt_upper_bound. rewrite Nat2N.inj_succ, N.pow_succ_r' in Hk. lia.
Qed.

Lemma pretty_go_nonempty (x : N) (s : String.string) : s ≠ String.EmptyString → bs (pretty_N_go x s) ≠ [].
Proof.
  intros Hs. apply (pretty_go_ind (λ _ s r, s ≠ [] → r ≠ [])); [done| |by destruct s].
  intros y l r _ c _ IH _. by apply IH.
Qed.

Lemma show_int_pos (p : positive) : show_int (Z.pos p) = bs (pretty_N_go (N.pos p) String.EmptyString).
Proof. done. Qed.

(** What [Display] writes is read back by [parse]. *)
Lemma show_int_digits (z : Z) :
  0 ≤ z → show_int z ≠ [] ∧ forallb is_digit (show_int z) = true ∧ digits_value (show_int z) = z.
Proof.
  intros Hz. destruct z as [|p|p]; [done| |lia]. rewrite show_int_pos. split_and!.
  - rewrite pretty_N_go_step by lia. by apply pretty_go_nonempty.
  - by apply pretty_go_digits.
  - unfold digits_value. by rewrite pretty_go_value.
Qed.

Lemma show_int_length (z : Z) (k : nat) : 0 ≤ z < 10 ^ Z.of_nat k → (0 < k)%nat → (length (show_int z) ≤ k)%nat.
Proof.
  intros Hz Hk. destruct z as [|p|p]; [simpl; lia| |lia]. rewrite show_int_pos.
  etrans; [apply (pretty_go_length _ _ k)|simpl; lia]. apply N2Z.inj_lt. rewrite N2Z.inj_pow. simpl. rewrite nat_N_Z. lia.
Qed.

Lemma show_int_inj (x y : Z) : 0 ≤ x → 0 ≤ y → show_int x = show_int y → x = y.
Proof.
  intros Hx Hy E. destruct (show_int_digits x Hx) as (_ & _ & <-), (show_int_digits y Hy) as (_ & _ & <-). by rewrite E.
Qed.

(** ** Padding *)

Lemma digits_value_acc s acc : foldl add_digit acc s = acc * 10 ^ Z.of_nat (length s) + digits_value s.
Proof.
  unfold digits_value. revert acc. induction s as [|b s IH]; intros acc; [simpl; lia|].
  rewrite !digits_value_cons, (IH (acc * 10 + _)), (IH (0 * 10 + _)). cbn [length]. rewrite Nat2Z.inj_succ, Z.pow_succ_r by lia. lia.
Qed.

Lemma digits_value_app s1 s2 : digits_value (s1 ++ s2) = digits_value s1 * 10 ^ Z.of_nat (length s2) + digits_value s2.
Proof. unfold digits_value at 1. rewrite foldl_app. apply digits_value_acc. Qed.

Lemma digits_value_zeros n : digits_value (replicate n 48) = 0.
Proof. induction n as [|n IH]; [done|]. cbn [replicate]. unfold digits_value. rewrite digits_value_cons. exact IH. Qed.

Lemma digits_value_bound s : forallb is_digit s = true → 0 ≤ digits_value s < 10 ^ Z.of_nat (length s).
Proof.
  induction s as [|b s IH]; [done|]. cbn [forallb]. intros [Hb Hs]%andb_true_iff. specialize (IH Hs). unfold is_digit in Hb.
  change (b :: s) with ([b] ++ s). rewrite digits_value_app. cbn [app length]. rewrite Nat2Z.inj_succ, Z.pow_succ_r by lia.
  change (digits_value [b]) with (0 * 10 + (b - 48)). nia.
Qed.

Lemma digits_value_inj s1 s2 :
  forallb is_digit s1 = true → forallb is_digit s2 = true → length s1 = length s2 →
  digits_value s1 = digits_value s2 → s1 = s2.
Proof.
  revert s2. induction s1 as [|b s1 IH]; intros [|c s2] H1 H2 Hl Hv; try done.
  cbn [forallb] in H1, H2. apply andb_true_iff in H1 as [Hb H1], H2 as [Hc H2]. injection Hl as Hl.
  change (b :: s1) with ([b] ++ s1) in Hv. change (c :: s2) with ([c] ++ s2) in Hv. rewrite !digits_value_app, Hl in Hv.
  change (digits_value [b]) with (0 * 10 + (b - 48)) in Hv. change (digits_value [c]) with (0 * 10 + (c - 48)) in Hv.
  pose proof (digits_value_bound s1 H1) as B1. pose proof (digits_value_bound s2 H2) as B2. rewrite Hl in B1.
  assert (b = c) as -> by nia. f_equal. apply IH; [done..|lia].
Qed.

Lemma pad_zero_spec (width : nat) (z : Z) :
  0 ≤ z < 10 ^ Z.of_nat width → (0 < width)%nat →
  length (pad_zero width z) = width ∧ forallb is_digit (pad_zero width z) = true ∧ digits_value (pad_zero width z) = z.
Proof.
  intros Hz Hw. pose proof (show_int_length z width Hz Hw) as Hl. destruct (show_int_digits z ltac:(lia)) as (_ & Hd & Hv).
  unfold pad_zero. split_and!.
  - rewrite length_app, length_replicate. lia.
  - rewrite forallb_app, Hd, andb_true_r. apply forallb_forall. intros b Hb%list_elem_of_In. apply elem_of_replicate in Hb as [-> _]. done.
  - by rewrite digits_value_app, digits_value_zeros, Hv.
Qed.

(** A text of [width] digits is the padding of its value. *)
Lemma pad_zero_value s : s ≠ [] → forallb is_digit s = true → pad_zero (length s) (digits_value s) = s.
Proof.
  intros Hs Hd. pose proof (digits_value_bound s Hd) as Hb.
  destruct (pad_zero_spec (length s) (digits_value s) Hb) as (Hl & Hd' & Hv); [destruct s; [done|simpl; lia]|].
  by apply digits_value_inj.
Qed.

Lemma parse_unsigned_digits maximum s :
  s ≠ [] → forallb is_digit s = true → digits_value s ≤ maximum → parse_unsigned maximum s = Some (digits_value s).
Proof.
  intros Hs Hd Hm. unfold parse_unsigned.
  assert (match s with 43 :: s' => s' | _ => s end = s) as ->.
  { destruct s as [|b s]; [done|]. cbn [forallb] in Hd. apply andb_true_iff in Hd as [Hb _].
    destruct (Z.eq_dec b 43) as [->|Hne]; [done|]. destruct b as [|p|p]; [done| |done]. do 6 (destruct p as [p|p|]; try done). }
  rewrite Hd, bool_decide_eq_false_2 by done. cbn [orb negb]. rewrite (proj2 (Z.ltb_ge _ _)) by lia. done.
Qed.

Lemma parse_unsigned_bounds maximum s v : parse_unsigned maximum s = Some v → 0 ≤ v ≤ maximum.
Proof.
  unfold parse_unsigned. generalize (match s with 43 :: s' => s' | _ => s end). intros digits.
  destruct (bool_decide (digits = []) || negb (forallb is_digit digits)) eqn:Hd; [done|].
  apply orb_false_iff in Hd as [_ Hd]. apply negb_false_iff, digits_value_bound in Hd.
  destruct (Z.ltb_spec maximum (digits_value digits)); [done|]. intros [= <-]. lia.
Qed.
