(* ===== verification/Utf8.v ===== *)
(** * UTF-8 text

    What the program uses of Rust's [str], [char] and [std::str::from_utf8]:
    strict decoding, character boundaries, scalar iteration and the widths of
    a scalar in UTF-8 and UTF-16.  A [str] is a byte list satisfying [utf8]. *)
From S2P Require Import Prelude.

Local Open Scope Z_scope.

(** A Unicode scalar value: what a Rust [char] holds. *)
Definition is_scalar (c : Z) : bool :=
  ((0 <=? c) && (c <? 0xD800)) || ((0xDFFF <? c) && (c <=? 0x10FFFF)).

(** [char::len_utf8], [char::len_utf16]. *)
Definition len_utf8 (c : Z) : nat :=
  if c <? 0x80 then 1 else if c <? 0x800 then 2 else if c <? 0x10000 then 3 else 4.
Definition len_utf16 (c : Z) : nat := if c <? 0x10000 then 1 else 2.

(** [char::encode_utf8]. *)
Definition encode_char (c : Z) : str :=
  if c <? 0x80 then [c]
  else if c <? 0x800 then [0xC0 + c / 64; 0x80 + c mod 64]
  else if c <? 0x10000 then
    [0xE0 + c / 4096; 0x80 + (c / 64) mod 64; 0x80 + c mod 64]
  else
    [0xF0 + c / 262144; 0x80 + (c / 4096) mod 64;
     0x80 + (c / 64) mod 64; 0x80 + c mod 64].

Definition encode (cs : list Z) : str := mjoin (encode_char <$> cs).

(** A continuation byte, and the second bytes a lead byte admits (the table
    of well-formed sequences of the Unicode standard, which [from_utf8]
    implements: no overlong forms, no surrogates, nothing above U+10FFFF). *)
Definition is_cont (b : u8) : bool := (0x80 <=? b) && (b <=? 0xBF).
Definition second_ok (b0 b1 : u8) : bool :=
  if b0 =? 0xE0 then (0xA0 <=? b1) && (b1 <=? 0xBF)
  else if b0 =? 0xED then (0x80 <=? b1) && (b1 <=? 0x9F)
  else if b0 =? 0xF0 then (0x90 <=? b1) && (b1 <=? 0xBF)
  else if b0 =? 0xF4 then (0x80 <=? b1) && (b1 <=? 0x8F)
  else is_cont b1.

(** The width announced by a lead byte; 0 for a byte that leads nothing. *)
Definition lead_width (b : u8) : nat :=
  if (0 <=? b) && (b <? 0x80) then 1%nat
  else if (0xC2 <=? b) && (b <=? 0xDF) then 2%nat
  else if (0xE0 <=? b) && (b <=? 0xEF) then 3%nat
  else if (0xF0 <=? b) && (b <=? 0xF4) then 4%nat
  else 0%nat.

(** One step of the decoder: a scalar and its width, the end of the input,
    [n] bytes that begin no character, or an input that stops inside one. *)
Inductive char_step :=
| DChar (c : Z) (width : nat)
| DEnd
| DInvalid (error_len : nat)
| DIncomplete.

Definition decode_char (s : str) : char_step :=
  match s with
  | [] => DEnd
  | b0 :: r =>
    match lead_width b0 with
    | 1%nat => DChar b0 1
    | 2%nat =>
      match r with
      | [] => DIncomplete
      | b1 :: _ =>
        if is_cont b1 then DChar ((b0 - 0xC0) * 64 + (b1 - 0x80)) 2 else DInvalid 1
      end
    | 3%nat =>
      match r with
      | [] => DIncomplete
      | b1 :: r =>
        if second_ok b0 b1 then
          match r with
          | [] => DIncomplete
          | b2 :: _ =>
            if is_cont b2
            then DChar ((b0 - 0xE0) * 4096 + (b1 - 0x80) * 64 + (b2 - 0x80)) 3
            else DInvalid 2
          end
        else DInvalid 1
      end
    | 4%nat =>
      match r with
      | [] => DIncomplete
      | b1 :: r =>
        if second_ok b0 b1 then
          match r with
          | [] => DIncomplete
          | b2 :: r =>
            if is_cont b2 then
              match r with
              | [] => DIncomplete
              | b3 :: _ =>
                if is_cont b3
                then DChar ((b0 - 0xF0) * 262144 + (b1 - 0x80) * 4096
                            + (b2 - 0x80) * 64 + (b3 - 0x80)) 4
                else DInvalid 3
              end
            else DInvalid 2
          end
        else DInvalid 1
      end
    | _ => DInvalid 1
    end
  end.

(** Well-formed text. *)
Inductive utf8 : str → Prop :=
| utf8_nil : utf8 []
| utf8_char s c w : decode_char s = DChar c w → utf8 (drop w s) → utf8 s.

(** [str::from_utf8]: the scalars, or [valid_up_to] and [error_len]. *)
Inductive utf8_result :=
| Utf8Ok (cs : list Z)
| Utf8Error (valid_up_to : nat) (error_len : option nat).

Fixpoint from_utf8_fuel (fuel : nat) (s : str) : utf8_result :=
  match fuel with
  | O => Utf8Ok []
  | S fuel =>
    match decode_char s with
    | DEnd => Utf8Ok []
    | DInvalid n => Utf8Error 0 (Some n)
    | DIncomplete => Utf8Error 0 None
    | DChar c w =>
      match from_utf8_fuel fuel (drop w s) with
      | Utf8Ok cs => Utf8Ok (c :: cs)
      | Utf8Error v e => Utf8Error (w + v) e
      end
    end
  end.
Definition from_utf8 (s : str) : utf8_result := from_utf8_fuel (length s) s.

Definition utf8b (s : str) : bool :=
  match from_utf8 s with Utf8Ok _ => true | _ => false end.

(** [str::chars], on text the caller knows to be well formed. *)
Definition chars (s : str) : list Z :=
  match from_utf8 s with Utf8Ok cs => cs | Utf8Error _ _ => [] end.

(** [str::is_char_boundary]. *)
Definition is_char_boundary (s : str) (i : nat) : bool :=
  if (i =? 0)%nat then true
  else match s !! i with
       | None => (i =? length s)%nat
       | Some b => negb (is_cont b)
       end.

(** ** The decoder step *)

(** Case analysis on the comparisons of the code. *)
Ltac zcases :=
  repeat match goal with
  | |- context [if (?a <? ?b)%Z then _ else _] => destruct (Z.ltb_spec a b)
  | |- context [if (?a <=? ?b)%Z then _ else _] => destruct (Z.leb_spec a b)
  | |- context [if (?a =? ?b)%Z then _ else _] => destruct (Z.eqb_spec a b)
  end.

Ltac bool_lia :=
  unfold second_ok, is_cont in *;
  repeat match goal with
  | H : context [if (?a =? ?b)%Z then _ else _] |- _ => destruct (Z.eqb_spec a b)
  end; lia.

(** The four shapes a decoded character has. *)
Inductive char_shape (s : str) : Z → nat → Prop :=
| shape1 b0 r :
    s = b0 :: r → 0 ≤ b0 < 0x80 → char_shape s b0 1
| shape2 b0 b1 r :
    s = b0 :: b1 :: r → 0xC2 ≤ b0 ≤ 0xDF → is_cont b1 = true →
    char_shape s ((b0 - 0xC0) * 64 + (b1 - 0x80)) 2
| shape3 b0 b1 b2 r :
    s = b0 :: b1 :: b2 :: r → 0xE0 ≤ b0 ≤ 0xEF →
    second_ok b0 b1 = true → is_cont b2 = true →
    char_shape s ((b0 - 0xE0) * 4096 + (b1 - 0x80) * 64 + (b2 - 0x80)) 3
| shape4 b0 b1 b2 b3 r :
    s = b0 :: b1 :: b2 :: b3 :: r → 0xF0 ≤ b0 ≤ 0xF4 →
    second_ok b0 b1 = true → is_cont b2 = true → is_cont b3 = true →
    char_shape s ((b0 - 0xF0) * 262144 + (b1 - 0x80) * 4096
                  + (b2 - 0x80) * 64 + (b3 - 0x80)) 4.

Lemma lead_width_spec b :
  match lead_width b with
  | 1%nat => 0 ≤ b < 0x80
  | 2%nat => 0xC2 ≤ b ≤ 0xDF
  | 3%nat => 0xE0 ≤ b ≤ 0xEF
  | 4%nat => 0xF0 ≤ b ≤ 0xF4
  | 0%nat => b < 0 ∨ 0x80 ≤ b < 0xC2 ∨ 0xF4 < b
  | _ => False
  end.
Proof. unfold lead_width. repeat case_match; bool_to_prop; lia. Qed.

Lemma decode_char_shape s c w : decode_char s = DChar c w → char_shape s c w.
Proof.
  unfold decode_char. destruct s as [|b0 r]; [done|].
  pose proof (lead_width_spec b0) as Hl.
  destruct (lead_width b0) as [|[|[|[|[|]]]]]; try done; intros Hd;
    repeat case_match; simplify_eq/=; by econstructor.
Qed.

Lemma shape_decode_char s c w : char_shape s c w → decode_char s = DChar c w.
Proof.
  destruct 1 as [b0 r ->|b0 b1 r ->|b0 b1 b2 r ->|b0 b1 b2 b3 r ->]; unfold decode_char;
    pose proof (lead_width_spec b0) as Hl;
    destruct (lead_width b0) as [|[|[|[|[|]]]]]; try lia;
    repeat match goal with H : _ = true |- _ => rewrite H; clear H end; done.
Qed.

Lemma shape_width s c w : char_shape s c w → (1 ≤ w ≤ 4)%nat ∧ (w ≤ length s)%nat.
Proof. destruct 1; subst; simpl; lia. Qed.

Lemma shape_scalar s c w : char_shape s c w → is_scalar c = true ∧ len_utf8 c = w.
Proof. destruct 1; unfold is_scalar, len_utf8; split; zcases; bool_lia. Qed.

Lemma shape_head s c w :
  char_shape s c w → ∃ b, s !! 0%nat = Some b ∧ is_cont b = false ∧ 0 ≤ b < 256 ∧
    (b < 0x80 ↔ w = 1%nat).
Proof. destruct 1; subst; eexists; (split; [done|]); bool_lia. Qed.

Lemma shape_cont s c w i :
  char_shape s c w → (0 < i < w)%nat → ∃ b, s !! i = Some b ∧ is_cont b = true.
Proof.
  destruct 1; subst; intros Hi;
    destruct i as [|[|[|[|]]]]; try lia; eexists; (split; [done|]); bool_lia.
Qed.

Lemma shape_encode s c w : char_shape s c w → encode_char c = take w s.
Proof.
  destruct 1; subst; unfold encode_char; simpl.
  all: zcases; try bool_lia.
  all: repeat f_equal; bool_to_prop; unfold second_ok, is_cont in *;
    repeat match goal with
    | H : context [if (?a =? ?b)%Z then _ else _] |- _ => destruct (Z.eqb_spec a b)
    end; Z.div_mod_to_equations; lia.
Qed.

Lemma encode_char_shape c r :
  is_scalar c = true → char_shape (encode_char c ++ r) c (len_utf8 c).
Proof.
  unfold is_scalar, encode_char, len_utf8. intros Hc. zcases; simpl.
  - econstructor; [done|lia].
  - replace c with ((0xC0 + c / 64 - 0xC0) * 64 + (0x80 + c mod 64 - 0x80)) at 3
      by (Z.div_mod_to_equations; lia).
    econstructor; [done| |unfold is_cont]; Z.div_mod_to_equations; lia.
  - replace c with ((0xE0 + c / 4096 - 0xE0) * 4096 + (0x80 + (c / 64) mod 64 - 0x80) * 64
      + (0x80 + c mod 64 - 0x80)) at 4 by (Z.div_mod_to_equations; lia).
    econstructor; [done| |unfold second_ok; zcases|]; unfold is_cont;
      Z.div_mod_to_equations; lia.
  - replace c with ((0xF0 + c / 262144 - 0xF0) * 262144
      + (0x80 + (c / 4096) mod 64 - 0x80) * 4096 + (0x80 + (c / 64) mod 64 - 0x80) * 64
      + (0x80 + c mod 64 - 0x80)) at 5 by (Z.div_mod_to_equations; lia).
    econstructor; [done| |unfold second_ok; zcases| |]; unfold is_cont;
      Z.div_mod_to_equations; lia.
Qed.

Lemma decode_char_nil_inv s : decode_char s = DEnd ↔ s = [].
Proof.
  split; [|by intros ->]. unfold decode_char. destruct s as [|b0 r]; [done|].
  repeat case_match; done.
Qed.

(** ** Well-formed text and boundaries *)

Lemma utf8_inv s c w : utf8 s → decode_char s = DChar c w → utf8 (drop w s).
Proof. inversion 1 as [|s' c' w' Hd Hs]; subst; simpl; intros Hd'; congruence. Qed.

Lemma utf8_cons_inv b s : utf8 (b :: s) → ∃ c w, decode_char (b :: s) = DChar c w.
Proof. inversion 1; eauto. Qed.

Lemma boundary_0 s : is_char_boundary s 0 = true.
Proof. done. Qed.

Lemma boundary_end s : is_char_boundary s (length s) = true.
Proof.
  unfold is_char_boundary. case_match; [done|].
  rewrite lookup_ge_None_2 by lia. apply Nat.eqb_refl.
Qed.

Lemma boundary_le s i : is_char_boundary s i = true → (i ≤ length s)%nat.
Proof.
  unfold is_char_boundary. case_match; bool_to_prop; [lia|].
  destruct (s !! i) eqn:Hi; [apply lookup_lt_Some in Hi; lia|].
  intros ?%Nat.eqb_eq. lia.
Qed.

(** A boundary of the whole is a boundary of a suffix that starts at one. *)
Lemma boundary_drop s w i :
  (w ≤ i)%nat → is_char_boundary s i = true → is_char_boundary (drop w s) (i - w) = true.
Proof.
  intros Hw. pose proof (boundary_le s i) as Hle. unfold is_char_boundary.
  destruct (Nat.eqb_spec (i - w) 0); [done|].
  destruct (Nat.eqb_spec i 0); [lia|].
  rewrite lookup_drop. replace (w + (i - w))%nat with i by lia.
  destruct (s !! i) as [b|]; [done|].
  intros ?%Nat.eqb_eq. apply Nat.eqb_eq. rewrite length_drop. lia.
Qed.

Lemma utf8_ind_boundary s i :
  utf8 s → is_char_boundary s i = true → utf8 (drop i s) ∧ utf8 (take i s).
Proof.
  intros Hs. revert i. induction Hs as [|s c w Hd Hs IH]; intros i Hi.
  { rewrite drop_nil, take_nil. split; constructor. }
  destruct i as [|i]; [rewrite drop_0, take_0; split; [by econstructor|constructor]|].
  apply decode_char_shape in Hd as Hsh. pose proof (shape_width _ _ _ Hsh) as [Hw Hl].
  destruct (decide (S i < w)%nat) as [Hlt|Hge].
  { destruct (shape_cont _ _ _ (S i) Hsh) as (b & Hb & Hc); [lia|].
    unfold is_char_boundary in Hi. simpl in Hi. rewrite Hb, Hc in Hi. done. }
  destruct (IH (S i - w)%nat) as [H1 H2]; [apply boundary_drop; [lia|done]|].
  rewrite drop_drop in H1. replace (w + (S i - w))%nat with (S i) in H1 by lia.
  split; [done|].
  apply (utf8_char _ c w).
  - apply shape_decode_char. rewrite <- (take_drop (S i) s) in Hsh.
    inversion Hsh as [b0 r E|b0 b1 r E|b0 b1 b2 r E|b0 b1 b2 b3 r E]; subst;
      rewrite take_drop in E; subst s; simpl in Hl |- *;
      destruct i as [|[|[|i]]]; try lia; simpl; by econstructor.
  - by rewrite skipn_firstn_comm.
Qed.

Lemma utf8_drop s i : utf8 s → is_char_boundary s i = true → utf8 (drop i s).
Proof. intros. by eapply utf8_ind_boundary. Qed.
Lemma utf8_take s i : utf8 s → is_char_boundary s i = true → utf8 (take i s).
Proof. intros. by eapply utf8_ind_boundary. Qed.

Lemma utf8_app s1 s2 : utf8 s1 → utf8 s2 → utf8 (s1 ++ s2).
Proof.
  induction 1 as [|s c w Hd Hs IH]; [done|]. intros H2.
  apply decode_char_shape in Hd. pose proof (shape_width _ _ _ Hd) as [? ?].
  apply (utf8_char _ c w).
  - apply shape_decode_char. destruct Hd; subst; by econstructor.
  - rewrite drop_app_le by lia. auto.
Qed.

(** Every boundary before the end begins a character, and the next boundary
    is where that character stops. *)
Lemma boundary_step s i :
  utf8 s → is_char_boundary s i = true → (i < length s)%nat →
  ∃ c w, decode_char (drop i s) = DChar c w ∧ (1 ≤ w ≤ 4)%nat ∧
    (i + w ≤ length s)%nat ∧ is_char_boundary s (i + w) = true.
Proof.
  intros Hs Hi Hlt. pose proof (utf8_drop _ _ Hs Hi) as Hd.
  destruct (drop i s) as [|b r] eqn:E.
  { apply (f_equal length) in E. rewrite length_drop in E. simpl in E. lia. }
  destruct (utf8_cons_inv _ _ Hd) as (c & w & Hc). exists c, w.
  pose proof (shape_width _ _ _ (decode_char_shape _ _ _ Hc)) as [Hw Hl].
  rewrite <- E, length_drop in Hl. rewrite <- E in *. repeat split; try lia; [done|].
  pose proof (utf8_inv _ _ _ Hd Hc) as Hr. rewrite drop_drop in Hr.
  unfold is_char_boundary. destruct (Nat.eqb_spec (i + w) 0); [lia|].
  destruct (s !! (i + w)%nat) as [x|] eqn:Hx.
  - rewrite (drop_S _ _ _ Hx) in Hr. destruct (utf8_cons_inv _ _ Hr) as (c' & w' & Hc').
    destruct (shape_head _ _ _ (decode_char_shape _ _ _ Hc')) as (b' & Hb' & Hn & _).
    injection Hb' as ->. by rewrite Hn.
  - apply lookup_ge_None in Hx. apply Nat.eqb_eq. lia.
Qed.

(** An ASCII byte at a boundary is a whole character. *)
Lemma boundary_ascii s i b :
  utf8 s → is_char_boundary s i = true → s !! i = Some b → 0 ≤ b < 0x80 →
  is_char_boundary s (S i) = true.
Proof.
  intros Hs Hi Hb Hr. pose proof (lookup_lt_Some _ _ _ Hb) as Hl.
  destruct (boundary_step s i) as (c & w & Hd & _ & _ & Hw); try done.
  destruct (shape_head _ _ _ (decode_char_shape _ _ _ Hd)) as (b' & Hb' & _ & _ & Hiff).
  rewrite lookup_drop, Nat.add_0_r, Hb in Hb'. injection Hb' as <-.
  assert (w = 1%nat) as -> by (apply Hiff; lia).
  by rewrite Nat.add_1_r in Hw.
Qed.

Lemma boundary_ascii_prefix s i p :
  utf8 s → is_char_boundary s i = true → starts_with p (drop i s) = true →
  Forall (λ b, 0 ≤ b < 0x80) p → is_char_boundary s (i + length p) = true.
Proof.
  intros Hs Hi Hp Ha. revert i Hi Hp. induction Ha as [|b p Hb Ha IH]; intros i Hi Hp; simpl.
  { by rewrite Nat.add_0_r. }
  apply starts_with_spec in Hp as [r Hr].
  assert (s !! i = Some b) as Hx.
  { rewrite <- (Nat.add_0_r i), <- lookup_drop, Hr. done. }
  rewrite <- Nat.add_succ_comm. apply IH; [by eapply boundary_ascii|].
  apply starts_with_spec. exists r. rewrite (drop_S _ _ _ Hx) in Hr. by injection Hr as ->.
Qed.

(** A lead byte that [utf8] text carries is never a continuation byte, so a
    position whose byte is not one is a boundary. *)
Lemma boundary_lookup s i b :
  s !! i = Some b → is_cont b = false → is_char_boundary s i = true.
Proof. intros Hb Hc. unfold is_char_boundary. rewrite Hb, Hc. by case_match. Qed.

(** ** [from_utf8] *)

Lemma encode_cons c cs : encode (c :: cs) = encode_char c ++ encode cs.
Proof. done. Qed.

Lemma from_utf8_fuel_enough fuel s :
  (length s ≤ fuel)%nat → from_utf8_fuel fuel s = from_utf8 s.
Proof.
  unfold from_utf8. generalize (le_n (length s)).
  generalize (length s) at 2 4 as n. revert s fuel.
  assert (∀ m s n fuel, (length s ≤ m)%nat → (length s ≤ n)%nat → (length s ≤ fuel)%nat →
    from_utf8_fuel fuel s = from_utf8_fuel n s) as H.
  { induction m as [|m IH]; intros s n fuel Hm Hn Hf.
    { destruct s; [|simpl in *; lia]. by destruct n, fuel. }
    destruct s as [|b s]; [by destruct n, fuel|].
    destruct n as [|n], fuel as [|fuel]; [simpl in *; lia..|]. cbn [from_utf8_fuel].
    destruct (decode_char (b :: s)) as [c w| | |] eqn:Hd; try done.
    apply decode_char_shape, shape_width in Hd as [Hw Hl].
    rewrite (IH _ n fuel); [done|rewrite length_drop; simpl in *; lia..]. }
  intros s fuel n Hn Hf. by apply (H (length s)).
Qed.

Lemma from_utf8_step s c w :
  decode_char s = DChar c w →
  from_utf8 s = match from_utf8 (drop w s) with
                | Utf8Ok cs => Utf8Ok (c :: cs)
                | Utf8Error v e => Utf8Error (w + v) e
                end.
Proof.
  intros Hd. unfold from_utf8 at 1. destruct s as [|b s]; [done|].
  cbn [length from_utf8_fuel]. rewrite Hd.
  apply decode_char_shape, shape_width in Hd as [Hw Hl].
  rewrite from_utf8_fuel_enough; [done|]. rewrite length_drop. simpl in *. lia.
Qed.

(** Induction along the characters of any byte string. *)
Lemma decode_ind (P : str → Prop) :
  P [] → (∀ s c w, decode_char s = DChar c w → P (drop w s) → P s) →
  (∀ s n, decode_char s = DInvalid n → P s) → (∀ s, decode_char s = DIncomplete → P s) →
  ∀ s, P s.
Proof.
  intros H0 Hc Hi Hn s. induction s as [s IH] using (well_founded_induction
    (Wf_nat.well_founded_ltof _ (@length Z))). unfold Wf_nat.ltof in IH.
  destruct (decode_char s) as [c w| | |] eqn:Hd; [|by apply decode_char_nil_inv in Hd as ->|eauto..].
  eapply Hc; [done|]. apply IH.
  apply decode_char_shape, shape_width in Hd as [Hw Hl]. rewrite length_drop. lia.
Qed.

Lemma from_utf8_stop s :
  match decode_char s with
  | DChar _ _ => True
  | DEnd => from_utf8 s = Utf8Ok []
  | DInvalid n => from_utf8 s = Utf8Error 0 (Some n)
  | DIncomplete => from_utf8 s = Utf8Error 0 None
  end.
Proof.
  destruct s as [|b s]; [done|]. unfold from_utf8. cbn [length from_utf8_fuel].
  by destruct (decode_char (b :: s)).
Qed.

Lemma from_utf8_ok s cs :
  from_utf8 s = Utf8Ok cs → utf8 s ∧ Forall (λ c, is_scalar c = true) cs ∧ s = encode cs.
Proof.
  revert cs. induction s as [|s c w Hd IH|s n Hd|s Hd] using decode_ind; intros cs Hcs.
  - injection Hcs as <-. repeat constructor.
  - rewrite (from_utf8_step _ _ _ Hd) in Hcs.
    destruct (from_utf8 (drop w s)) as [cs'|]; [|done]. injection Hcs as <-.
    destruct (IH cs' eq_refl) as (Hu & Hf & He).
    apply decode_char_shape in Hd as Hsh. destruct (shape_scalar _ _ _ Hsh) as [Hsc _].
    repeat split; [by econstructor|by constructor|].
    rewrite encode_cons, <- He, (shape_encode _ _ _ Hsh).
    symmetry. apply take_drop.
  - pose proof (from_utf8_stop s) as Hst. rewrite Hd in Hst. congruence.
  - pose proof (from_utf8_stop s) as Hst. rewrite Hd in Hst. congruence.
Qed.

Lemma from_utf8_utf8 s : utf8 s → ∃ cs, from_utf8 s = Utf8Ok cs.
Proof.
  induction 1 as [|s c w Hd Hs [cs IH]]; [by exists []|].
  exists (c :: cs). by rewrite (from_utf8_step _ _ _ Hd), IH.
Qed.

Lemma utf8b_spec s : utf8b s = true ↔ utf8 s.
Proof.
  unfold utf8b. split; [|intros [cs ->]%from_utf8_utf8; done].
  destruct (from_utf8 s) as [cs|] eqn:E; [|done]. by destruct (from_utf8_ok _ _ E).
Qed.

#[export] Instance utf8_dec s : Decision (utf8 s).
Proof.
  refine (match utf8b s as b return utf8b s = b → _ with
          | true => λ H, left _ | false => λ H, right _ end eq_refl).
  - by apply utf8b_spec.
  - intros Hu%utf8b_spec. congruence.
Defined.

(** Decoding the encoding of scalars gives the scalars back. *)
Lemma from_utf8_encode cs :
  Forall (λ c, is_scalar c = true) cs → from_utf8 (encode cs) = Utf8Ok cs.
Proof.
  induction 1 as [|c cs Hc Hcs IH]; [done|].
  rewrite encode_cons. pose proof (encode_char_shape c (encode cs) Hc) as Hsh.
  pose proof (shape_encode _ _ _ Hsh) as He.
  pose proof (shape_width _ _ _ Hsh) as [_ Hl].
  rewrite (from_utf8_step _ _ _ (shape_decode_char _ _ _ Hsh)).
  rewrite drop_app_length'; [by rewrite IH|].
  apply (f_equal length) in He. rewrite length_take in He. lia.
Qed.

Lemma utf8_encode cs : Forall (λ c, is_scalar c = true) cs → utf8 (encode cs).
Proof. intros H%from_utf8_encode. by destruct (from_utf8_ok _ _ H). Qed.

Lemma chars_step s c w : decode_char s = DChar c w → utf8 s → chars s = c :: chars (drop w s).
Proof.
  intros Hd Hu. unfold chars. rewrite (from_utf8_step _ _ _ Hd).
  pose proof (utf8_inv _ _ _ Hu Hd) as Hr. apply from_utf8_utf8 in Hr as [cs ->]. done.
Qed.

Lemma encode_chars s : utf8 s → encode (chars s) = s.
Proof.
  intros [cs Hcs]%from_utf8_utf8. unfold chars. rewrite Hcs.
  by destruct (from_utf8_ok _ _ Hcs) as (_ & _ & <-).
Qed.

(** Where [from_utf8] stops: the prefix it accepted is text, and the rest
    begins with the reported fault. *)
Lemma from_utf8_error s v e :
  from_utf8 s = Utf8Error v e →
  (v ≤ length s)%nat ∧ utf8 (take v s) ∧
  decode_char (drop v s) = match e with Some n => DInvalid n | None => DIncomplete end.
Proof.
  revert v e. induction s as [|s c w Hd IH|s n Hd|s Hd] using decode_ind; intros v e Hr.
  - done.
  - rewrite (from_utf8_step _ _ _ Hd) in Hr.
    destruct (from_utf8 (drop w s)) as [cs'|v' e'] eqn:Hf; [done|]. injection Hr as <- <-.
    destruct (IH v' e' eq_refl) as (Hv & Hu & Hs).
    apply decode_char_shape in Hd as Hsh. pose proof (shape_width _ _ _ Hsh) as [Hw Hl].
    rewrite length_drop in Hv. rewrite drop_drop in Hs.
    repeat split; [lia| |done].
    rewrite <- take_take_drop. apply utf8_app; [|done].
    rewrite <- (shape_encode _ _ _ Hsh). destruct (shape_scalar _ _ _ Hsh) as [Hsc _].
    rewrite <- (app_nil_r (encode_char c)). change (utf8 (encode [c])).
    apply utf8_encode. by constructor.
  - pose proof (from_utf8_stop s) as Hst. rewrite Hd in Hst. rewrite Hst in Hr.
    injection Hr as <- <-. rewrite take_0, drop_0. repeat split; [lia|constructor|done].
  - pose proof (from_utf8_stop s) as Hst. rewrite Hd in Hst. rewrite Hst in Hr.
    injection Hr as <- <-. rewrite take_0, drop_0. repeat split; [lia|constructor|done].
Qed.

Lemma decode_invalid_len s n :
  decode_char s = DInvalid n → (1 ≤ n ≤ 3)%nat ∧ (n ≤ length s)%nat.
Proof.
  unfold decode_char. destruct s as [|b0 r]; [done|].
  intros H. repeat case_match; simplify_eq/=; lia.
Qed.

Lemma ascii_utf8 s : Forall (λ b, 0 ≤ b < 0x80) s → utf8 s.
Proof.
  induction 1 as [|b s Hb Hs IH]; [constructor|].
  apply (utf8_char _ b 1); [|done]. apply shape_decode_char. by econstructor.
Qed.

Lemma utf8_bytes s : utf8 s → Forall is_byte s.
Proof.
  induction 1 as [|s c w Hd Hs IH]; [constructor|].
  rewrite <- (take_drop w s). apply Forall_app. split; [|done].
  apply decode_char_shape in Hd. destruct Hd; subst; simpl; unfold is_byte;
    repeat constructor; bool_lia.
Qed.

#[export] Hint Resolve boundary_0 boundary_end utf8_drop utf8_take utf8_app ascii_utf8 : opaal.

(** ** Scalar sequences *)

Definition chars_len (cs : list Z) : nat := sum_list (len_utf8 <$> cs).
(** [str::encode_utf16().count()] of the text holding these scalars. *)
Definition utf16_len (cs : list Z) : nat := sum_list (len_utf16 <$> cs).

Lemma utf8_as_encode s :
  utf8 s → ∃ cs, Forall (λ c, is_scalar c = true) cs ∧ s = encode cs ∧ chars s = cs.
Proof.
  intros [cs Hcs]%from_utf8_utf8. exists cs. unfold chars. rewrite Hcs.
  by destruct (from_utf8_ok _ _ Hcs) as (_ & ? & ?).
Qed.

Lemma encode_app cs1 cs2 : encode (cs1 ++ cs2) = encode cs1 ++ encode cs2.
Proof. induction cs1; [done|]. simpl app. by rewrite !encode_cons, IHcs1, app_assoc. Qed.

Lemma chars_encode cs : Forall (λ c, is_scalar c = true) cs → chars (encode cs) = cs.
Proof. intros H. unfold chars. by rewrite from_utf8_encode. Qed.

Lemma chars_app s1 s2 : utf8 s1 → utf8 s2 → chars (s1 ++ s2) = chars s1 ++ chars s2.
Proof.
  intros (cs1 & H1 & -> & ->)%utf8_as_encode (cs2 & H2 & -> & ->)%utf8_as_encode.
  rewrite <- encode_app. apply chars_encode. by apply Forall_app.
Qed.

Lemma length_encode_char c : is_scalar c = true → length (encode_char c) = len_utf8 c.
Proof.
  intros Hc. pose proof (encode_char_shape c [] Hc) as Hsh. rewrite app_nil_r in Hsh.
  pose proof (shape_encode _ _ _ Hsh) as He. pose proof (shape_width _ _ _ Hsh) as [_ Hl].
  apply (f_equal length) in He. rewrite length_take in He. lia.
Qed.

Lemma length_encode cs :
  Forall (λ c, is_scalar c = true) cs → length (encode cs) = chars_len cs.
Proof.
  induction 1 as [|c cs Hc Hcs IH]; [done|].
  rewrite encode_cons, length_app, length_encode_char by done. unfold chars_len in *.
  cbn [fmap list_fmap sum_list_with]. rewrite IH. done.
Qed.

Lemma chars_len_chars s : utf8 s → chars_len (chars s) = length s.
Proof. intros (cs & H & -> & ->)%utf8_as_encode. by rewrite length_encode. Qed.

Lemma chars_scalar s : utf8 s → Forall (λ c, is_scalar c = true) (chars s).
Proof. by intros (cs & H & _ & ->)%utf8_as_encode. Qed.

Lemma utf16_len_app cs1 cs2 : utf16_len (cs1 ++ cs2) = (utf16_len cs1 + utf16_len cs2)%nat.
Proof. unfold utf16_len. by rewrite fmap_app, sum_list_with_app. Qed.

Lemma chars_len_app cs1 cs2 : chars_len (cs1 ++ cs2) = (chars_len cs1 + chars_len cs2)%nat.
Proof. unfold chars_len. by rewrite fmap_app, sum_list_with_app. Qed.

(** A prefix of the scalars ends at a boundary of the text. *)
Lemma boundary_encode cs1 cs2 :
  Forall (λ c, is_scalar c = true) (cs1 ++ cs2) →
  is_char_boundary (encode (cs1 ++ cs2)) (length (encode cs1)) = true.
Proof.
  intros [H1 H2]%Forall_app. rewrite encode_app. destruct cs2 as [|c cs2].
  { simpl. rewrite app_nil_r. apply boundary_end. }
  apply Forall_cons_1 in H2 as [Hc H2]. rewrite encode_cons.
  destruct (shape_head _ _ _ (encode_char_shape c (encode cs2) Hc)) as (b & Hb & Hn & _).
  apply (boundary_lookup _ _ b); [|done].
  rewrite lookup_app_r by lia. by rewrite Nat.sub_diag.
Qed.

Lemma boundary_chars_split s i :
  utf8 s → is_char_boundary s i = true →
  chars s = chars (take i s) ++ chars (drop i s) ∧ chars_len (chars (take i s)) = i.
Proof.
  intros Hs Hi. pose proof (utf8_take _ _ Hs Hi) as Ht. pose proof (utf8_drop _ _ Hs Hi) as Hd.
  split.
  - by rewrite <- chars_app, take_drop.
  - rewrite chars_len_chars by done. rewrite length_take. apply boundary_le in Hi. lia.
Qed.

(** Slices between boundaries of text are text. *)
Lemma boundary_take s n i :
  (i ≤ n)%nat → is_char_boundary s i = true → is_char_boundary (take n s) i = true.
Proof.
  intros Hin Hi. pose proof (boundary_le _ _ Hi). unfold is_char_boundary in *.
  case_match; [done|].
  destruct (decide (i = n)) as [->|].
  { rewrite lookup_ge_None_2 by (rewrite length_take; lia).
    apply Nat.eqb_eq. rewrite length_take. lia. }
  rewrite lookup_take by lia. case_decide; [|lia].
  destruct (s !! i); [done|]. apply Nat.eqb_eq in Hi. apply Nat.eqb_eq.
  rewrite length_take. lia.
Qed.

Lemma utf8_sub s a b :
  utf8 s → (a ≤ b)%nat → is_char_boundary s a = true → is_char_boundary s b = true →
  utf8 (sub s a b).
Proof.
  intros Hs Hab Ha Hb. unfold sub. rewrite firstn_skipn_comm.
  replace (a + (b - a))%nat with b by lia.
  apply utf8_drop; [by apply utf8_take|by apply boundary_take].
Qed.

(** Indexing a [str] by a byte range: a panic outside boundaries. *)
Definition str_slice {E} (s : str) (a b : nat) : res E str :=
  if (a <=? b)%nat && (b <=? length s)%nat && is_char_boundary s a && is_char_boundary s b
  then Ok (sub s a b) else Panic.

Lemma str_slice_ok {E} s a b :
  (a ≤ b)%nat → is_char_boundary s a = true → is_char_boundary s b = true →
  str_slice (E:=E) s a b = Ok (sub s a b).
Proof.
  intros Hab Ha Hb. unfold str_slice. rewrite Ha, Hb, (proj2 (Nat.leb_le _ _) Hab).
  by rewrite (proj2 (Nat.leb_le _ _) (boundary_le _ _ Hb)).
Qed.
