(* ===== verification/Source.v ===== *)
(** * Source files, spans and positions ([opaal-syntax/src/source.rs])

    A source file is UTF-8 text with an index of its lines.  Byte offsets are
    checked against the text before they become spans, and are converted to
    and from the zero-based line/character positions of an editor. *)
From S2P Require Import Prelude Utf8.

Local Open Scope res_scope.

(** ** Data *)

Definition SourceId : Type := Z.

Record Span := mkSpan { span_source_id : SourceId; span_start : nat; span_end : nat }.

Record LineColumn := mkLineColumn { lc_line : nat; lc_column : nat }.

Inductive PositionEncoding := PosUtf8 | PosUtf16.

Record TextPosition := mkTextPosition { tp_line : nat; tp_character : nat }.

Record TextRange := mkTextRange { tr_start : TextPosition; tr_end : TextPosition }.

Record Line := mkLine { line_start_at : nat; line_content_end_at : nat }.

Record LineIndex := mkLineIndex { lines : list Line }.

Inductive SpanError :=
| Reversed (start stop : nat)
| OutOfBounds (stop len : nat)
| NotCharBoundary (offset : nat)
| WrongSource (expected actual : SourceId).

Inductive PositionError :=
| ByteOutOfBounds (offset len : nat)
| NotUtf8Boundary (offset : nat)
| LineOutOfBounds (line line_count : nat)
| CharacterOutOfBounds (line character maximum : nat)
| InsideUtf16Scalar (line character : nat)
| InvalidSpan (error : SpanError).

#[export] Instance Span_eq_dec : EqDecision Span.
Proof. solve_decision. Defined.

(** ** Spans *)

(** [Span::cover]: asserts that both spans have one source. *)
Definition cover (self other : Span) : res unit Span :=
  if (span_source_id self =? span_source_id other)%Z then
    Ok (mkSpan (span_source_id self)
          (span_start self `min` span_start other) (span_end self `max` span_end other))
  else Panic.

Definition span_len (s : Span) : nat := span_end s - span_start s.
Definition span_is_empty (s : Span) : bool := span_start s =? span_end s.

Definition validate_offset (text : str) (offset : nat) : res SpanError unit :=
  if length text <? offset then Err (OutOfBounds offset (length text))
  else if negb (is_char_boundary text offset) then Err (NotCharBoundary offset)
  else Ok tt.

(** ** The line index *)

(** The loop of [LineIndex::new]: [rest] is the input from byte [newline] on. *)
Fixpoint line_loop (bytes rest : str) (newline : nat) (acc : list Line) (start : nat)
    : list Line * nat :=
  match rest with
  | [] => (acc, start)
  | byte :: rest =>
    if negb (byte =? 10)%Z then line_loop bytes rest (S newline) acc start
    else
      let content_end :=
        if (start <? newline) && bool_decide (bytes !! (newline - 1) = Some 13%Z)
        then newline - 1 else newline in
      line_loop bytes rest (S newline) (acc ++ [mkLine start content_end]) (S newline)
  end.

Definition LineIndex_new (text : str) : LineIndex :=
  let '(acc, start) := line_loop text text 0 [] 0 in
  mkLineIndex (acc ++ [mkLine start (length text)]).

Definition line_count (self : LineIndex) : nat := length (lines self).

(** The index of the line an offset falls in. *)
Definition line_at (self : LineIndex) (offset : nat) : nat :=
  partition_point (λ line, line_start_at line <=? offset) (lines self) - 1.

Definition LineIndex_location (self : LineIndex) (text : str) (offset : nat)
    : res SpanError LineColumn :=
  let* _ := validate_offset text offset in
  let line_index := line_at self offset in
  let* line := expect_some (lines self !! line_index) in
  let column_end := offset `min` line_content_end_at line in
  let* prefix := str_slice text (line_start_at line) column_end in
  Ok (mkLineColumn (line_index + 1) (length (chars prefix) + 1)).

Definition LineIndex_line (self : LineIndex) (one_based_line : nat) : option Line :=
  if one_based_line =? 0 then None else lines self !! (one_based_line - 1).

Definition LineIndex_text_position (self : LineIndex) (text : str) (offset : nat)
    (encoding : PositionEncoding) : res PositionError TextPosition :=
  if length text <? offset then Err (ByteOutOfBounds offset (length text))
  else if negb (is_char_boundary text offset) then Err (NotUtf8Boundary offset)
  else
    let line_index := line_at self offset in
    let* line := expect_some (lines self !! line_index) in
    let* prefix := str_slice text (line_start_at line) (offset `min` line_content_end_at line) in
    let character :=
      match encoding with
      | PosUtf8 => length prefix
      | PosUtf16 => utf16_len (chars prefix)
      end in
    Ok (mkTextPosition line_index character).

(** The loop over [char_indices] that finds a UTF-16 column. *)
Fixpoint utf16_loop (line : Line) (position : TextPosition) (cs : list Z)
    (byte code_units : nat) : res PositionError nat :=
  match cs with
  | [] =>
    if code_units =? tp_character position then Ok (line_content_end_at line)
    else Err (CharacterOutOfBounds (tp_line position) (tp_character position) code_units)
  | scalar :: cs =>
    if code_units =? tp_character position then Ok (line_start_at line + byte)
    else
      let next := code_units + len_utf16 scalar in
      if tp_character position <? next
      then Err (InsideUtf16Scalar (tp_line position) (tp_character position))
      else utf16_loop line position cs (byte + len_utf8 scalar) next
  end.

Definition LineIndex_byte_offset (self : LineIndex) (text : str) (position : TextPosition)
    (encoding : PositionEncoding) : res PositionError nat :=
  match lines self !! tp_line position with
  | None => Err (LineOutOfBounds (tp_line position) (length (lines self)))
  | Some line =>
    let* line_text := str_slice text (line_start_at line) (line_content_end_at line) in
    match encoding with
    | PosUtf8 =>
      if length line_text <? tp_character position
      then Err (CharacterOutOfBounds (tp_line position) (tp_character position)
                  (length line_text))
      else
        let offset := line_start_at line + tp_character position in
        if negb (is_char_boundary text offset) then Err (NotUtf8Boundary offset)
        else Ok offset
    | PosUtf16 => utf16_loop line position (chars line_text) 0 0
    end
  end.

(** ** Source files *)

Record SourceFile := mkSourceFile {
  source_id : SourceId;
  source_name : str;
  source_text : str;
  source_line_index : LineIndex
}.

Definition SourceFile_new (id : SourceId) (name text : str) : SourceFile :=
  mkSourceFile id name text (LineIndex_new text).

Definition SourceFile_from_bytes (id : SourceId) (name bytes : str)
    : res (nat * option nat) SourceFile :=
  match from_utf8 bytes with
  | Utf8Ok _ => Ok (SourceFile_new id name bytes)
  | Utf8Error valid_up_to error_len => Err (valid_up_to, error_len)
  end.

Definition source_len (self : SourceFile) : nat := length (source_text self).

Definition span (self : SourceFile) (start stop : nat) : res SpanError Span :=
  if stop <? start then Err (Reversed start stop)
  else if source_len self <? stop then Err (OutOfBounds stop (source_len self))
  else
    let* _ := validate_offset (source_text self) start in
    let* _ := validate_offset (source_text self) stop in
    Ok (mkSpan (source_id self) start stop).

Definition validate_span (self : SourceFile) (s : Span) : res SpanError unit :=
  if negb (span_source_id s =? source_id self)%Z
  then Err (WrongSource (source_id self) (span_source_id s))
  else if span_end s <? span_start s then Err (Reversed (span_start s) (span_end s))
  else if source_len self <? span_end s then Err (OutOfBounds (span_end s) (source_len self))
  else
    let* _ := validate_offset (source_text self) (span_start s) in
    validate_offset (source_text self) (span_end s).

Definition slice (self : SourceFile) (s : Span) : res SpanError str :=
  let* _ := validate_span self s in
  str_slice (source_text self) (span_start s) (span_end s).

Definition location (self : SourceFile) (offset : nat) : res SpanError LineColumn :=
  LineIndex_location (source_line_index self) (source_text self) offset.

Definition text_position (self : SourceFile) (offset : nat) (encoding : PositionEncoding)
    : res PositionError TextPosition :=
  LineIndex_text_position (source_line_index self) (source_text self) offset encoding.

Definition byte_offset (self : SourceFile) (position : TextPosition)
    (encoding : PositionEncoding) : res PositionError nat :=
  LineIndex_byte_offset (source_line_index self) (source_text self) position encoding.

Definition text_range (self : SourceFile) (s : Span) (encoding : PositionEncoding)
    : res PositionError TextRange :=
  let* _ := res_map_err InvalidSpan (validate_span self s) in
  let* start := text_position self (span_start s) encoding in
  let* stop := text_position self (span_end s) encoding in
  Ok (mkTextRange start stop).

Definition line_text (self : SourceFile) (one_based_line : nat) : res unit (option str) :=
  match LineIndex_line (source_line_index self) one_based_line with
  | None => Ok None
  | Some line =>
    let* text := str_slice (source_text self) (line_start_at line) (line_content_end_at line) in
    Ok (Some text)
  end.

Definition line_start (self : SourceFile) (one_based_line : nat) : option nat :=
  line_start_at <$> LineIndex_line (source_line_index self) one_based_line.

Definition line_content_end (self : SourceFile) (one_based_line : nat) : option nat :=
  line_content_end_at <$> LineIndex_line (source_line_index self) one_based_line.

(** ** Well-formed source files *)

Definition source_wf (f : SourceFile) : Prop :=
  utf8 (source_text f) ∧ source_line_index f = LineIndex_new (source_text f).

(** The lines of a text, as a specification: [tiles t s ls] says that [ls]
    cuts [t], from byte [s] to its end, into contents without a newline, each
    but the last followed by [\n], or by [\r\n] when a [\r] precedes it. *)
Definition no_newline (s : str) : Prop := Forall (λ b, b ≠ 10%Z) s.

Inductive tiles (t : str) : nat → list Line → Prop :=
| tiles_last s :
    s ≤ length t → no_newline (sub t s (length t)) → tiles t s [mkLine s (length t)]
| tiles_lf s e ls :
    s ≤ e → no_newline (sub t s e) → t !! e = Some 10%Z →
    (s < e → t !! (e - 1) ≠ Some 13%Z) →
    tiles t (S e) ls → tiles t s (mkLine s e :: ls)
| tiles_crlf s e ls :
    s ≤ e → no_newline (sub t s e) → t !! e = Some 13%Z → t !! S e = Some 10%Z →
    tiles t (S (S e)) ls → tiles t s (mkLine s e :: ls).

Lemma no_newline_snoc t s e b :
  s ≤ e → t !! e = Some b → b ≠ 10%Z → no_newline (sub t s e) → no_newline (sub t s (S e)).
Proof.
  intros Hse Hb Hn Hs. rewrite <- (sub_app t s e (S e)) by lia.
  apply Forall_app. split; [done|]. unfold sub. replace (S e - e) with 1 by lia.
  rewrite (drop_S _ _ _ Hb). simpl. rewrite take_0. by repeat constructor.
Qed.

Lemma no_newline_shrink t s e : s ≤ e → no_newline (sub t s e) → no_newline (sub t s (e - 1)).
Proof.
  intros Hse Hs. destruct (decide (s = e)) as [->|].
  { unfold sub. replace (e - 1 - e) with 0 by lia. constructor. }
  rewrite <- (sub_app t s (e - 1) e) in Hs by lia. by apply Forall_app in Hs as [? ?].
Qed.

Lemma line_loop_acc bytes rest n acc s :
  line_loop bytes rest n acc s =
  (acc ++ (line_loop bytes rest n [] s).1, (line_loop bytes rest n [] s).2).
Proof.
  revert n acc s. induction rest as [|b rest IH]; intros n acc s; simpl.
  { by rewrite app_nil_r. }
  destruct (b =? 10)%Z; simpl; [|apply IH].
  rewrite IH, (IH _ [_]). simpl. by rewrite <- app_assoc.
Qed.

Lemma line_loop_tiles t n s :
  s ≤ n → n ≤ length t → no_newline (sub t s n) →
  let '(ls, s') := line_loop t (drop n t) n [] s in
  tiles t s (ls ++ [mkLine s' (length t)]).
Proof.
  intros Hsn Hn. remember (drop n t) as rest eqn:Hr. revert n s Hsn Hn Hr.
  induction rest as [|b rest IH]; intros n s Hsn Hn Hr Hnl; cbn [line_loop].
  { symmetry in Hr. apply drop_nil_inv in Hr. assert (n = length t) as -> by lia.
    by constructor. }
  assert (t !! n = Some b) as Hb.
  { rewrite <- (Nat.add_0_r n), <- lookup_drop, <- Hr. done. }
  assert (rest = drop (S n) t) as Hr'.
  { rewrite (drop_S _ _ _ Hb) in Hr. by injection Hr. }
  pose proof (lookup_lt_Some _ _ _ Hb) as Hlt.
  destruct (Z.eqb_spec b 10) as [->|Hb10]; simpl negb; cbv iota.
  - rewrite line_loop_acc. specialize (IH (S n) (S n) ltac:(lia) ltac:(lia) Hr').
    destruct (line_loop t rest (S n) [] (S n)) as [ls s']. cbn [fst snd app].
    assert (tiles t (S n) (ls ++ [mkLine s' (length t)])) as Ht.
    { apply IH. unfold sub. rewrite Nat.sub_diag. constructor. }
    destruct (Nat.ltb_spec s n) as [Hlt'|]; cbn [andb].
    + case_bool_decide as Hcr.
      * apply tiles_crlf; [lia|by apply no_newline_shrink|done|..];
          by replace (S (n - 1)) with n by lia.
      * by apply tiles_lf.
    + apply tiles_lf; [done..|lia|done].
  - apply IH; [lia|lia|done|]. by eapply no_newline_snoc.
Qed.

Lemma LineIndex_new_tiles t : tiles t 0 (lines (LineIndex_new t)).
Proof.
  unfold LineIndex_new. pose proof (line_loop_tiles t 0 0) as H.
  rewrite drop_0 in H. destruct (line_loop t t 0 [] 0). apply H; [lia..|constructor].
Qed.

(** ** Which line an offset is on *)

Lemma tiles_start t s ls : tiles t s ls → ∃ e tl, ls = mkLine s e :: tl.
Proof. destruct 1; eauto. Qed.

Lemma tiles_starts_ge t s ls i l : tiles t s ls → ls !! i = Some l → s ≤ line_start_at l.
Proof.
  intros Ht. revert i. induction Ht; intros i Hi; destruct i; simplify_eq/=;
    try done; apply IHHt in Hi; lia.
Qed.

(** The line found for an offset starts at or before it, the next one after. *)
Lemma tiles_find t s ls o :
  tiles t s ls → s ≤ o →
  ∃ i l, partition_point (λ line, line_start_at line <=? o) ls = S i ∧ ls !! i = Some l ∧
    line_start_at l ≤ o ∧
    (∀ l', ls !! S i = Some l' → o < line_start_at l').
Proof.
  intros Ht. induction Ht as [s Hs Hnl|s e ls Hse Hnl Hlf Hcr Ht IH|s e ls Hse Hnl Hcr Hlf Ht IH];
    intros Hso; cbn [partition_point]; simpl (line_start_at _);
    rewrite (proj2 (Nat.leb_le s o) Hso).
  - exists 0, (mkLine s (length t)). by simpl.
  - destruct (decide (S e ≤ o)) as [Ho|Ho].
    + destruct (IH Ho) as (i & l & Hp & Hl & ? & ?). exists (S i), l. by rewrite Hp.
    + destruct (tiles_start _ _ _ Ht) as (e' & tl & ->).
      cbn [partition_point]. simpl (line_start_at _).
      rewrite (proj2 (Nat.leb_gt (S e) o)) by lia.
      exists 0, (mkLine s e). simpl. repeat split; [done|].
      intros l' [= <-]. simpl. lia.
  - destruct (decide (S (S e) ≤ o)) as [Ho|Ho].
    + destruct (IH Ho) as (i & l & Hp & Hl & ? & ?). exists (S i), l. by rewrite Hp.
    + destruct (tiles_start _ _ _ Ht) as (e' & tl & ->).
      cbn [partition_point]. simpl (line_start_at _).
      rewrite (proj2 (Nat.leb_gt (S (S e)) o)) by lia.
      exists 0, (mkLine s e). simpl. repeat split; [done|].
      intros l' [= <-]. simpl. lia.
Qed.

(** Conversely, an offset within the content of line [i] finds line [i]. *)
Lemma tiles_find_back t s ls i l o :
  tiles t s ls → ls !! i = Some l → line_start_at l ≤ o ≤ line_content_end_at l →
  partition_point (λ line, line_start_at line <=? o) ls = S i.
Proof.
  intros Ht. revert i. induction Ht as [s Hs Hnl|s e ls Hse Hnl Hlf Hcr Ht IH|
    s e ls Hse Hnl Hcr Hlf Ht IH]; intros i Hi Ho; cbn [partition_point];
    simpl (line_start_at _).
  - destruct i; simplify_eq/=. by rewrite (proj2 (Nat.leb_le _ _)) by lia.
  - destruct i as [|i]; simplify_eq/=.
    + destruct (tiles_start _ _ _ Ht) as (e' & tl & ->).
      cbn [partition_point]. simpl (line_start_at _).
      rewrite (proj2 (Nat.leb_le s o)) by lia.
      by rewrite (proj2 (Nat.leb_gt _ _)) by lia.
    + pose proof (tiles_starts_ge _ _ _ _ _ Ht Hi).
      rewrite (proj2 (Nat.leb_le s o)) by lia. by rewrite (IH _ Hi Ho).
  - destruct i as [|i]; simplify_eq/=.
    + destruct (tiles_start _ _ _ Ht) as (e' & tl & ->). cbn [partition_point].
      simpl (line_start_at _).
      rewrite (proj2 (Nat.leb_le s o)) by lia.
      by rewrite (proj2 (Nat.leb_gt _ _)) by lia.
    + pose proof (tiles_starts_ge _ _ _ _ _ Ht Hi).
      rewrite (proj2 (Nat.leb_le s o)) by lia. by rewrite (IH _ Hi Ho).
Qed.

(** Both ends of a line's content are character boundaries. *)
Lemma tiles_boundaries t s ls i l :
  utf8 t → tiles t s ls → is_char_boundary t s = true → ls !! i = Some l →
  line_start_at l ≤ line_content_end_at l ≤ length t ∧
  is_char_boundary t (line_start_at l) = true ∧
  is_char_boundary t (line_content_end_at l) = true.
Proof.
  intros Hu Ht. revert i. induction Ht as [s Hs Hnl|s e ls Hse Hnl Hlf Hcr Ht IH|
    s e ls Hse Hnl Hcr Hlf Ht IH]; intros i Hb Hi.
  - destruct i; simplify_eq/=. repeat split; [lia..|done|apply boundary_end].
  - assert (is_char_boundary t e = true) as He by by eapply boundary_lookup.
    pose proof (lookup_lt_Some _ _ _ Hlf).
    destruct i as [|i]; simplify_eq/=; [repeat split; [lia..|done|done]|].
    eapply IH; [|done]. by eapply boundary_ascii.
  - assert (is_char_boundary t e = true) as He by by eapply boundary_lookup.
    pose proof (lookup_lt_Some _ _ _ Hlf).
    destruct i as [|i]; simplify_eq/=; [repeat split; [lia..|done|done]|].
    eapply IH; [|done]. eapply boundary_ascii; [done| |done|lia].
    by eapply boundary_lookup.
Qed.

(** The content of a line begins where it says and stops at the first line
    terminator, so a text has one division into lines. *)
Lemma sub_lookup {A} (t : list A) s e i x :
  s ≤ i < e → t !! i = Some x → sub t s e !! (i - s) = Some x.
Proof.
  intros Hi Hx. unfold sub.
  rewrite lookup_take by lia. rewrite decide_True by lia. rewrite lookup_drop.
  by replace (s + (i - s)) with i by lia.
Qed.

Lemma no_newline_lookup t s e i :
  no_newline (sub t s e) → s ≤ i < e → t !! i ≠ Some 10%Z.
Proof.
  intros Hn Hi Hx.
  by destruct (Forall_lookup_1 _ _ _ _ Hn (sub_lookup _ _ _ _ _ Hi Hx)).
Qed.

(** The byte after a line's content where its newline stands, if any. *)
Lemma tiles_newline_at t s ls :
  tiles t s ls → s ≤ length t ∧
  ((ls = [mkLine s (length t)] ∧ no_newline (sub t s (length t))) ∨
   ∃ n tl, s ≤ n ∧ no_newline (sub t s n) ∧ t !! n = Some 10%Z ∧ tiles t (S n) tl ∧
     ls = mkLine s (if (s <? n) && bool_decide (t !! (n - 1) = Some 13%Z) then n - 1 else n) :: tl).
Proof.
  destruct 1 as [s Hs Hnl|s e tl Hse Hnl Hlf Hcr Ht|s e tl Hse Hnl Hcr Hlf Ht].
  - split; [done|]. by left.
  - pose proof (lookup_lt_Some _ _ _ Hlf). split; [lia|]. right. exists e, tl.
    repeat split; try done. f_equal. f_equal.
    destruct (Nat.ltb_spec s e); [|done]. by rewrite bool_decide_false by auto.
  - pose proof (lookup_lt_Some _ _ _ Hlf). split; [lia|]. right. exists (S e), tl.
    repeat split; try done; [lia|by eapply no_newline_snoc|].
    rewrite (proj2 (Nat.ltb_lt s (S e))) by lia. simpl. rewrite Nat.sub_0_r.
    by rewrite bool_decide_true.
Qed.

Lemma tiles_unique t s ls1 ls2 : tiles t s ls1 → tiles t s ls2 → ls1 = ls2.
Proof.
  intros H1. remember (length t - s) as n eqn:Hn.
  revert s ls1 ls2 Hn H1. induction (lt_wf n) as [n _ IH]. intros s ls1 ls2 Hn H1 H2.
  apply tiles_newline_at in H1 as [Hs [[-> Hn1]|(n1 & tl1 & Hle1 & Hn1 & Hl1 & Ht1 & ->)]];
    apply tiles_newline_at in H2 as [_ [[-> Hn2]|(n2 & tl2 & Hle2 & Hn2 & Hl2 & Ht2 & ->)]].
  - done.
  - pose proof (lookup_lt_Some _ _ _ Hl2).
    by destruct (no_newline_lookup _ _ _ n2 Hn1 ltac:(lia)).
  - pose proof (lookup_lt_Some _ _ _ Hl1).
    by destruct (no_newline_lookup _ _ _ n1 Hn2 ltac:(lia)).
  - assert (n1 = n2) as ->.
    { destruct (lt_eq_lt_dec n1 n2) as [[?|?]|?]; [|done|].
      - by destruct (no_newline_lookup _ _ _ n1 Hn2 ltac:(lia)).
      - by destruct (no_newline_lookup _ _ _ n2 Hn1 ltac:(lia)). }
    pose proof (lookup_lt_Some _ _ _ Hl2).
    f_equal. eapply (IH (length t - S n2)); [lia|done|done|done].
Qed.

(** ** The line of an offset in a well-formed file *)

Lemma validate_offset_spec t o :
  validate_offset t o =
    if length t <? o then Err (OutOfBounds o (length t))
    else if is_char_boundary t o then Ok tt else Err (NotCharBoundary o).
Proof. unfold validate_offset. by destruct (is_char_boundary t o). Qed.

Lemma validate_offset_ok t o : validate_offset t o = Ok tt ↔ is_char_boundary t o = true.
Proof.
  rewrite validate_offset_spec. split.
  - destruct (length t <? o); [done|]. by destruct (is_char_boundary t o).
  - intros Hb. rewrite Hb. by rewrite (proj2 (Nat.ltb_ge _ _) (boundary_le _ _ Hb)).
Qed.

(** What every conversion from an offset starts with. *)
Lemma line_at_spec t o :
  utf8 t → is_char_boundary t o = true →
  ∃ l, lines (LineIndex_new t) !! line_at (LineIndex_new t) o = Some l ∧
    line_start_at l ≤ o `min` line_content_end_at l ∧
    is_char_boundary t (line_start_at l) = true ∧
    is_char_boundary t (o `min` line_content_end_at l) = true ∧
    is_char_boundary t (line_content_end_at l) = true ∧
    (∀ l', lines (LineIndex_new t) !! S (line_at (LineIndex_new t) o) = Some l' →
           o < line_start_at l').
Proof.
  intros Hu Ho. pose proof (LineIndex_new_tiles t) as Ht.
  destruct (tiles_find _ _ _ o Ht (Nat.le_0_l o)) as (i & l & Hp & Hl & Hs & Hnext).
  unfold line_at. rewrite Hp. replace (S i - 1) with i by lia. exists l.
  destruct (tiles_boundaries _ _ _ _ _ Hu Ht (boundary_0 t) Hl) as (Hse & Hbs & Hbe).
  repeat split; try done; [lia|].
  destruct (Nat.min_spec o (line_content_end_at l)) as [[_ ->]|[_ ->]]; done.
Qed.

Lemma line_at_back t i l o :
  lines (LineIndex_new t) !! i = Some l → line_start_at l ≤ o ≤ line_content_end_at l →
  line_at (LineIndex_new t) o = i.
Proof.
  intros Hl Ho. unfold line_at.
  rewrite (tiles_find_back _ _ _ _ _ _ (LineIndex_new_tiles t) Hl Ho). lia.
Qed.

(** The character column of a byte offset inside its line. *)
Definition column (t : str) (s o : nat) (encoding : PositionEncoding) : nat :=
  match encoding with
  | PosUtf8 => o - s
  | PosUtf16 => utf16_len (chars (sub t s o))
  end.

Lemma text_position_line t o enc i l :
  utf8 t → is_char_boundary t o = true →
  lines (LineIndex_new t) !! i = Some l → line_at (LineIndex_new t) o = i →
  LineIndex_text_position (LineIndex_new t) t o enc =
  Ok (mkTextPosition i (column t (line_start_at l) (o `min` line_content_end_at l) enc)).
Proof.
  intros Hu Ho Hl Hi.
  destruct (line_at_spec _ _ Hu Ho) as (l' & Hl' & Hs & Hbs & Hbm & Hbe & Hn).
  rewrite Hi in Hl'. simplify_eq. pose proof (boundary_le _ _ Ho).
  unfold LineIndex_text_position. rewrite (proj2 (Nat.ltb_ge _ _)), Ho by lia.
  simpl negb. cbv iota. rewrite Hl. simpl expect_some. cbn [res_bind].
  rewrite str_slice_ok by done. cbn [res_bind]. do 2 f_equal.
  destruct enc; [|done]. simpl. apply length_sub. pose proof (boundary_le _ _ Hbm). lia.
Qed.

Lemma len_utf16_pos c : 1 ≤ len_utf16 c.
Proof. unfold len_utf16. case_match; lia. Qed.

Lemma utf16_len_cons c cs : utf16_len (c :: cs) = len_utf16 c + utf16_len cs.
Proof. done. Qed.
Lemma chars_len_cons c cs : chars_len (c :: cs) = len_utf8 c + chars_len cs.
Proof. done. Qed.

Lemma utf16_loop_hit line p cs1 cs2 byte cu :
  line_content_end_at line = line_start_at line + byte + chars_len (cs1 ++ cs2) →
  tp_character p = cu + utf16_len cs1 →
  utf16_loop line p (cs1 ++ cs2) byte cu = Ok (line_start_at line + byte + chars_len cs1).
Proof.
  revert byte cu. induction cs1 as [|c cs1 IH]; intros byte cu He Hp; simpl app in *.
  - change (utf16_len []) with 0 in Hp. change (chars_len []) with 0.
    rewrite Nat.add_0_r in *.
    destruct cs2 as [|c cs2]; cbn [utf16_loop]; rewrite (proj2 (Nat.eqb_eq _ _)) by lia.
    + change (chars_len []) with 0 in He. f_equal. lia.
    + done.
  - rewrite chars_len_cons in *. rewrite utf16_len_cons in Hp.
    pose proof (len_utf16_pos c). cbn [utf16_loop].
    rewrite (proj2 (Nat.eqb_neq _ _)) by lia. cbv zeta.
    rewrite (proj2 (Nat.ltb_ge _ _)) by lia.
    rewrite IH by lia. f_equal. lia.
Qed.

Lemma utf16_loop_inv line p cs byte cu :
  line_content_end_at line = line_start_at line + byte + chars_len cs → cu ≤ tp_character p →
  match utf16_loop line p cs byte cu with
  | Ok o => ∃ cs1 cs2, cs = cs1 ++ cs2 ∧ tp_character p = cu + utf16_len cs1 ∧
      o = line_start_at line + byte + chars_len cs1
  | Err (CharacterOutOfBounds n c m) =>
      n = tp_line p ∧ c = tp_character p ∧ m = cu + utf16_len cs ∧ m < c
  | Err (InsideUtf16Scalar n c) =>
      n = tp_line p ∧ c = tp_character p ∧
      ∃ cs1 x cs2, cs = cs1 ++ x :: cs2 ∧
        cu + utf16_len cs1 < c < cu + utf16_len cs1 + len_utf16 x
  | _ => False
  end.
Proof.
  revert byte cu. induction cs as [|x cs IH]; intros byte cu He Hcu; cbn [utf16_loop]; cbv zeta.
  - destruct (Nat.eqb_spec cu (tp_character p)).
    + exists [], []. repeat split; [|done]. change (utf16_len []) with 0. lia.
    + repeat split; change (utf16_len []) with 0; lia.
  - destruct (Nat.eqb_spec cu (tp_character p)).
    { exists [], (x :: cs). repeat split; change (utf16_len []) with 0;
        change (chars_len []) with 0; lia. }
    destruct (Nat.ltb_spec (tp_character p) (cu + len_utf16 x)).
    { repeat split. exists [], x, cs. repeat split; change (utf16_len []) with 0; lia. }
    rewrite chars_len_cons in He.
    specialize (IH (byte + len_utf8 x) (cu + len_utf16 x) ltac:(lia) ltac:(lia)).
    destruct (utf16_loop _ _ _ _ _) as [o|e|].
    + destruct IH as (cs1 & cs2 & -> & ? & ->). exists (x :: cs1), cs2.
      rewrite utf16_len_cons, chars_len_cons. repeat split; lia.
    + destruct e; try done.
      * rewrite utf16_len_cons. destruct IH as (? & ? & ? & ?). repeat split; lia.
      * destruct IH as (? & ? & cs1 & y & cs2 & -> & ?). repeat split; [done..|].
        exists (x :: cs1), y, cs2. rewrite utf16_len_cons. repeat split; lia.
    + done.
Qed.

Lemma byte_offset_line t p enc :
  utf8 t →
  match lines (LineIndex_new t) !! tp_line p with
  | None => LineIndex_byte_offset (LineIndex_new t) t p enc =
      Err (LineOutOfBounds (tp_line p) (line_count (LineIndex_new t)))
  | Some l =>
      line_start_at l ≤ line_content_end_at l ∧
      utf8 (sub t (line_start_at l) (line_content_end_at l)) ∧
      is_char_boundary t (line_start_at l) = true ∧
      is_char_boundary t (line_content_end_at l) = true
  end.
Proof.
  intros Hu. destruct (lines (LineIndex_new t) !! tp_line p) as [l|] eqn:Hl.
  - destruct (tiles_boundaries _ _ _ _ _ Hu (LineIndex_new_tiles t) (boundary_0 t) Hl)
      as (Hse & Hbs & Hbe). repeat split; try done; [lia|by apply utf8_sub; try lia].
  - unfold LineIndex_byte_offset. by rewrite Hl.
Qed.

(** The scalars of a line, split at a boundary of the line. *)
Lemma line_chars_split t a o b :
  utf8 t → a ≤ o → o ≤ b → is_char_boundary t a = true → is_char_boundary t o = true →
  is_char_boundary t b = true →
  chars (sub t a b) = chars (sub t a o) ++ chars (sub t o b) ∧
  chars_len (chars (sub t a o)) = o - a ∧ chars_len (chars (sub t a b)) = b - a.
Proof.
  intros Hu Hao Hob Ha Ho Hb.
  pose proof (utf8_sub _ _ _ Hu Hao Ha Ho). pose proof (utf8_sub _ _ _ Hu Hob Ho Hb).
  assert (utf8 (sub t a b)) by (apply utf8_sub; [done|lia|done..]).
  pose proof (boundary_le _ _ Hb). repeat split.
  - rewrite <- (sub_app t a o b) by lia. by apply chars_app.
  - rewrite chars_len_chars by done. apply length_sub. lia.
  - rewrite chars_len_chars by done. by apply length_sub.
Qed.

Lemma byte_offset_column t i l o enc :
  utf8 t → lines (LineIndex_new t) !! i = Some l → is_char_boundary t o = true →
  line_start_at l ≤ o ≤ line_content_end_at l →
  LineIndex_byte_offset (LineIndex_new t) t
    (mkTextPosition i (column t (line_start_at l) o enc)) enc = Ok o.
Proof.
  intros Hu Hl Ho Hr. pose proof (byte_offset_line t (mkTextPosition i 0) enc Hu) as Hb.
  simpl in Hb. rewrite Hl in Hb. destruct Hb as (Hse & Hus & Hbs & Hbe).
  pose proof (boundary_le _ _ Hbe).
  unfold LineIndex_byte_offset. cbn [tp_line tp_character]. rewrite Hl.
  rewrite str_slice_ok by done. cbn [res_bind]. destruct enc; simpl column.
  - rewrite length_sub by lia. rewrite (proj2 (Nat.ltb_ge _ _)) by lia.
    replace (line_start_at l + (o - line_start_at l)) with o by lia. by rewrite Ho.
  - destruct (line_chars_split t (line_start_at l) o (line_content_end_at l))
      as (Hc & Hl1 & Hl2); try done; [lia..|].
    rewrite Hc. rewrite utf16_loop_hit.
    + f_equal. lia.
    + rewrite <- Hc. lia.
    + done.
Qed.

Lemma byte_offset_inv t p enc o :
  utf8 t → LineIndex_byte_offset (LineIndex_new t) t p enc = Ok o →
  ∃ l, lines (LineIndex_new t) !! tp_line p = Some l ∧
    is_char_boundary t o = true ∧ line_start_at l ≤ o ≤ line_content_end_at l ∧
    tp_character p = column t (line_start_at l) o enc.
Proof.
  intros Hu Ho. pose proof (byte_offset_line t p enc Hu) as Hb.
  destruct (lines (LineIndex_new t) !! tp_line p) as [l|] eqn:Hl; [|congruence].
  destruct Hb as (Hse & Hus & Hbs & Hbe). exists l. split; [done|].
  pose proof (boundary_le _ _ Hbe). unfold LineIndex_byte_offset in Ho. rewrite Hl in Ho.
  rewrite str_slice_ok in Ho by done. cbn [res_bind] in Ho. destruct enc.
  - rewrite length_sub in Ho by lia.
    destruct (Nat.ltb_spec (line_content_end_at l - line_start_at l) (tp_character p)); [done|].
    cbv zeta in Ho. destruct (is_char_boundary t _) eqn:Hbo; [|done]. injection Ho as <-.
    simpl. repeat split; [done|lia..].
  - destruct (utf8_as_encode _ Hus) as (cs & Hcs & Henc & Hch).
    assert (line_content_end_at l = line_start_at l + 0 + chars_len cs) as He.
    { rewrite <- Hch, chars_len_chars, length_sub by (done || lia). lia. }
    rewrite Hch in Ho. pose proof (utf16_loop_inv l p cs 0 0 He (Nat.le_0_l _)) as Hi.
    rewrite Ho in Hi. destruct Hi as (cs1 & cs2 & -> & Hp & ->).
    rewrite chars_len_app in He. apply Forall_app in Hcs as Hcs'. destruct Hcs' as [Hc1 Hc2].
    assert (take (chars_len cs1) (sub t (line_start_at l) (line_content_end_at l)) = encode cs1)
      as Htk.
    { rewrite Henc, encode_app, <- length_encode by done. by rewrite take_app_length. }
    assert (sub t (line_start_at l) (line_start_at l + 0 + chars_len cs1) = encode cs1) as Hsub.
    { rewrite <- Htk. unfold sub. rewrite take_take. f_equal. lia. }
    assert (is_char_boundary (sub t (line_start_at l) (line_content_end_at l)) (chars_len cs1)
      = true) as Hbi.
    { rewrite Henc, <- length_encode by done. by apply boundary_encode. }
    repeat split; [|lia|lia|].
    + unfold is_char_boundary in Hbi |- *. destruct (Nat.eqb_spec (chars_len cs1) 0) as [E|].
      { rewrite E, !Nat.add_0_r. exact Hbs. }
      rewrite (proj2 (Nat.eqb_neq _ _)) by lia. unfold sub in Hbi.
      destruct (decide (chars_len cs2 = 0)) as [E|E].
      { replace (line_start_at l + 0 + chars_len cs1) with (line_content_end_at l) by lia.
        unfold is_char_boundary in Hbe. rewrite (proj2 (Nat.eqb_neq _ _)) in Hbe by lia. done. }
      rewrite lookup_take, decide_True, lookup_drop in Hbi by lia.
      rewrite Nat.add_0_r. destruct (t !! (line_start_at l + chars_len cs1)) eqn:Hx; [done|].
      apply lookup_ge_None in Hx. lia.
    + simpl. rewrite Hsub, chars_encode by done. lia.
Qed.

(** ** Theorems *)

Lemma SourceFile_new_wf id name text : utf8 text → source_wf (SourceFile_new id name text).
Proof. by split. Qed.

(** [LineIndex::new] computes the one division of a text into lines, with
    [\n] and [\r\n] as the only terminators. *)
Theorem line_index_unique (text : str) (ls : list Line) :
  tiles text 0 ls ↔ ls = lines (LineIndex_new text).
Proof.
  split; [|intros ->; apply LineIndex_new_tiles].
  intros H. by eapply tiles_unique, LineIndex_new_tiles.
Qed.

Lemma validate_offset_cases t o :
  match validate_offset t o with
  | Ok _ => is_char_boundary t o = true
  | Err (OutOfBounds x n) => x = o ∧ n = length t ∧ length t < o
  | Err (NotCharBoundary x) => x = o ∧ o ≤ length t ∧ is_char_boundary t o = false
  | _ => False
  end.
Proof.
  rewrite validate_offset_spec. destruct (Nat.ltb_spec (length t) o); [done|].
  by destruct (is_char_boundary t o) eqn:E.
Qed.

(** [SourceFile::span] accepts exactly the ranges that address the text, and
    the span it returns slices to the bytes of the range; each error names
    the violated condition. *)
Theorem span_slice (f : SourceFile) (a b : nat) :
  source_wf f →
  match span f a b with
  | Ok s => s = mkSpan (source_id f) a b ∧ a ≤ b ≤ source_len f ∧
      slice f s = Ok (sub (source_text f) a b) ∧ utf8 (sub (source_text f) a b)
  | Err (Reversed x y) => (x, y) = (a, b) ∧ b < a
  | Err (OutOfBounds x n) => x = b ∧ n = source_len f ∧ a ≤ b ∧ source_len f < b
  | Err (NotCharBoundary o) =>
      a ≤ b ≤ source_len f ∧ (o = a ∨ o = b) ∧ is_char_boundary (source_text f) o = false
  | Err (WrongSource _ _) | Panic => False
  end.
Proof.
  intros [Hu _]. unfold span. destruct (Nat.ltb_spec b a); [done|].
  destruct (Nat.ltb_spec (source_len f) b); [done|].
  pose proof (validate_offset_cases (source_text f) a) as Ha.
  pose proof (validate_offset_cases (source_text f) b) as Hb.
  unfold source_len in *.
  destruct (validate_offset (source_text f) a) as [[]|e|] eqn:Ea; cbn [res_bind].
  - destruct (validate_offset (source_text f) b) as [[]|e|] eqn:Eb; cbn [res_bind].
    + repeat split; try done; [|by apply utf8_sub].
      unfold slice, validate_span. simpl. rewrite Z.eqb_refl. simpl negb. cbv iota.
      unfold source_len. rewrite !(proj2 (Nat.ltb_ge _ _)), Ea by lia. cbn [res_bind].
      rewrite Eb. cbn [res_bind]. by apply str_slice_ok.
    + destruct e; try done; [lia|]. destruct Hb as (-> & ? & ?). auto with lia.
    + done.
  - destruct e; try done; [lia|]. destruct Ha as (-> & ? & ?). auto with lia.
  - done.
Qed.

(** [SourceFile::slice] never panics: on every span, of this source or
    another, it returns the bytes of the span or the error of
    [validate_span], and the bytes are text. *)
Theorem slice_total (f : SourceFile) (s : Span) :
  source_wf f →
  match validate_span f s with
  | Ok _ => slice f s = Ok (sub (source_text f) (span_start s) (span_end s)) ∧
      utf8 (sub (source_text f) (span_start s) (span_end s)) ∧ span_source_id s = source_id f
  | Err e => slice f s = Err e
  | Panic => False
  end.
Proof.
  intros [Hu _]. unfold slice. destruct (validate_span f s) as [[]|e|] eqn:Hv; cbn [res_bind].
  - unfold validate_span in Hv.
    destruct (Z.eqb_spec (span_source_id s) (source_id f)); simpl in Hv; [|done].
    destruct (Nat.ltb_spec (span_end s) (span_start s)); [done|].
    destruct (source_len f <? span_end s); [done|].
    apply res_bind_ok in Hv as ([] & Hs%validate_offset_ok & He%validate_offset_ok).
    repeat split; [by apply str_slice_ok|by apply utf8_sub|done].
  - done.
  - unfold validate_span in Hv. repeat case_match; try done.
    pose proof (validate_offset_cases (source_text f) (span_start s)).
    pose proof (validate_offset_cases (source_text f) (span_end s)).
    by destruct (validate_offset _ (span_start s)); simpl in Hv; [rewrite Hv in *|..].
Qed.

(** Converting a checked byte offset to an editor position and back gives the
    offset again, except that an offset inside a line terminator comes back
    as the end of its line; it holds for both encodings, and no conversion
    panics. *)
Theorem position_roundtrip (f : SourceFile) (o : nat) (enc : PositionEncoding) :
  source_wf f → is_char_boundary (source_text f) o = true →
  ∃ p l, text_position f o enc = Ok p ∧
    lines (source_line_index f) !! tp_line p = Some l ∧
    line_start_at l ≤ o ∧
    byte_offset f p enc = Ok (o `min` line_content_end_at l).
Proof.
  intros [Hu Hix] Ho. unfold text_position, byte_offset. rewrite Hix.
  destruct (line_at_spec _ _ Hu Ho) as (l & Hl & Hs & Hbs & Hbm & Hbe & Hn).
  eexists _, l. split; [by eapply text_position_line|]. split; [done|]. split; [lia|].
  apply byte_offset_column; [done..|lia].
Qed.

(** Every editor position that converts to an offset converts back to
    itself: [byte_offset] is injective and its results are boundaries. *)
Theorem offset_roundtrip (f : SourceFile) (p : TextPosition) (enc : PositionEncoding) (o : nat) :
  source_wf f → byte_offset f p enc = Ok o →
  is_char_boundary (source_text f) o = true ∧ text_position f o enc = Ok p.
Proof.
  intros [Hu Hix]. unfold text_position, byte_offset. rewrite Hix. intros Ho.
  destruct (byte_offset_inv _ _ _ _ Hu Ho) as (l & Hl & Hbo & Hr & Hp).
  split; [done|]. pose proof (line_at_back _ _ _ _ Hl Hr) as Hi.
  rewrite (text_position_line _ _ _ _ _ Hu Hbo Hl Hi).
  rewrite Nat.min_l by lia. destruct p as [i c]. simpl in *. by rewrite Hp.
Qed.

(** [byte_offset] never panics, and a position it refuses is outside the
    lines, beyond the end of its line, inside a scalar's UTF-8 bytes or
    between the two UTF-16 units of one scalar. *)
Theorem byte_offset_errors (f : SourceFile) (p : TextPosition) (enc : PositionEncoding) :
  source_wf f →
  match byte_offset f p enc with
  | Ok o => o ≤ source_len f
  | Err (LineOutOfBounds n c) => n = tp_line p ∧ c = line_count (source_line_index f) ∧ c ≤ n
  | Err (CharacterOutOfBounds n c m) =>
      n = tp_line p ∧ c = tp_character p ∧ m < c ∧
      ∃ l, lines (source_line_index f) !! n = Some l ∧
        m = column (source_text f) (line_start_at l) (line_content_end_at l) enc
  | Err (NotUtf8Boundary o) => enc = PosUtf8 ∧ is_char_boundary (source_text f) o = false
  | Err (InsideUtf16Scalar n c) => enc = PosUtf16 ∧ n = tp_line p ∧ c = tp_character p
  | _ => False
  end.
Proof.
  intros [Hu Hix]. unfold byte_offset. rewrite Hix. pose proof (byte_offset_line _ p enc Hu) as Hb.
  destruct (lines (LineIndex_new (source_text f)) !! tp_line p) as [l|] eqn:Hl.
  - destruct Hb as (Hse & Hus & Hbs & Hbe). pose proof (boundary_le _ _ Hbe).
    unfold LineIndex_byte_offset. rewrite Hl, str_slice_ok by done. cbn [res_bind].
    destruct enc.
    + rewrite length_sub by lia. destruct (Nat.ltb_spec (line_content_end_at l - line_start_at l)
        (tp_character p)); [eauto 10|].
      cbv zeta. destruct (is_char_boundary _ (_ + tp_character p)) eqn:E; simpl;
        [by apply boundary_le|done].
    + assert (line_content_end_at l = line_start_at l + 0 +
        chars_len (chars (sub (source_text f) (line_start_at l) (line_content_end_at l)))) as He.
      { rewrite chars_len_chars, length_sub by (done || lia). lia. }
      pose proof (utf16_loop_inv l p _ 0 0 He (Nat.le_0_l _)) as Hi.
      destruct (utf16_loop _ _ _ _ _) as [o|e|]; [|destruct e; try done|done].
      * destruct Hi as (cs1 & cs2 & Hc & _ & ->). rewrite Hc, chars_len_app in He.
        unfold source_len. lia.
      * destruct Hi as (-> & -> & -> & ?). eauto 10.
      * by destruct Hi as (-> & -> & _).
  - rewrite Hb. repeat split. by apply lookup_ge_None.
Qed.

(** [SourceFile::location] reports, for every boundary, the one-based line
    holding it and one more than the number of scalars before it there; it
    refuses everything else without a panic. *)
Theorem location_spec (f : SourceFile) (o : nat) :
  source_wf f →
  match location f o with
  | Ok lc => is_char_boundary (source_text f) o = true ∧
      ∃ l, line_start f (lc_line lc) = Some (line_start_at l) ∧
        line_content_end f (lc_line lc) = Some (line_content_end_at l) ∧
        line_start_at l ≤ o ∧
        (∀ s', line_start f (S (lc_line lc)) = Some s' → o < s') ∧
        lc_column lc =
          S (length (chars (sub (source_text f) (line_start_at l)
                              (o `min` line_content_end_at l))))
  | Err e => validate_offset (source_text f) o = Err e
  | Panic => False
  end.
Proof.
  intros [Hu Hix]. unfold location, LineIndex_location.
  pose proof (validate_offset_cases (source_text f) o) as Hv.
  destruct (validate_offset (source_text f) o) as [[]|e|]; cbn [res_bind]; [|done..].
  rewrite Hix. destruct (line_at_spec _ _ Hu Hv) as (l & Hl & Hs & Hbs & Hbm & Hbe & Hn).
  rewrite Hl. simpl expect_some. cbn [res_bind]. rewrite str_slice_ok by done. cbn [res_bind].
  split; [done|]. exists l. unfold line_start, line_content_end, LineIndex_line. rewrite Hix.
  cbn [lc_line lc_column]. rewrite !(proj2 (Nat.eqb_neq _ _)) by lia.
  rewrite Nat.add_sub, Hl. replace (S (line_at _ o + 1) - 1) with
    (S (line_at (LineIndex_new (source_text f)) o)) by lia.
  repeat split; [lia| |lia]. intros s' Hs'.
  destruct (lines (LineIndex_new (source_text f)) !! S _) as [l'|] eqn:Hl'; [|done].
  injection Hs' as <-. by apply Hn.
Qed.

(** ** Witnesses: a two-line file with a surrogate pair and a [\r\n] *)

Definition sample : SourceFile :=
  SourceFile_new 1%Z (bs "m.opaal") ([0x61; 0xF0; 0x9F; 0x98; 0x80; 13; 10; 0xC3; 0xA9; 0x62]%Z).

Lemma sample_wf : source_wf sample.
Proof. apply SourceFile_new_wf. apply utf8b_spec. vm_compute. done. Defined.

Lemma span_slice_witness :
  source_wf sample ∧ slice sample (mkSpan 1%Z 7 9) = Ok [0xC3; 0xA9]%Z.
Proof.
  split; [apply sample_wf|]. pose proof (span_slice sample 7 9 sample_wf) as H.
  vm_compute in H. apply H.
Defined.

Lemma slice_total_witness :
  source_wf sample ∧ slice sample (mkSpan 2%Z 0 1) = Err (WrongSource 1%Z 2%Z).
Proof. split; [apply sample_wf|]. apply (slice_total sample (mkSpan 2%Z 0 1) sample_wf). Defined.

Lemma position_roundtrip_witness :
  source_wf sample ∧ is_char_boundary (source_text sample) 6 = true ∧
  ∃ p l, text_position sample 6 PosUtf16 = Ok p ∧
    lines (source_line_index sample) !! tp_line p = Some l ∧ line_start_at l ≤ 6 ∧
    byte_offset sample p PosUtf16 = Ok (6 `min` line_content_end_at l).
Proof.
  split; [apply sample_wf|]. split; [done|].
  apply (position_roundtrip sample 6 PosUtf16 sample_wf). done.
Defined.

Lemma offset_roundtrip_witness :
  byte_offset sample (mkTextPosition 0 3) PosUtf16 = Ok 5 ∧
  text_position sample 5 PosUtf16 = Ok (mkTextPosition 0 3).
Proof.
  split; [vm_compute; done|].
  apply (offset_roundtrip sample (mkTextPosition 0 3) PosUtf16 5 sample_wf). vm_compute. done.
Defined.

Lemma byte_offset_errors_witness :
  source_wf sample ∧
  byte_offset sample (mkTextPosition 0 9) PosUtf16 = Err (CharacterOutOfBounds 0 9 3) ∧
  ∃ l, lines (source_line_index sample) !! 0 = Some l ∧
    3 = column (source_text sample) (line_start_at l) (line_content_end_at l) PosUtf16.
Proof.
  split; [apply sample_wf|]. split; [vm_compute; done|].
  pose proof (byte_offset_errors sample (mkTextPosition 0 9) PosUtf16 sample_wf) as H.
  replace (byte_offset sample (mkTextPosition 0 9) PosUtf16)
    with (@Err PositionError nat (CharacterOutOfBounds 0 9 3)) in H by (vm_compute; done).
  apply H.
Defined.

Lemma location_spec_witness :
  source_wf sample ∧ is_char_boundary (source_text sample) 9 = true.
Proof.
  split; [apply sample_wf|]. pose proof (location_spec sample 9 sample_wf) as H.
  replace (location sample 9) with (@Ok SpanError _ (mkLineColumn 2 2)) in H
    by (vm_compute; done).
  apply H.
Defined.
