(* ===== verification/Lexer.v ===== *)
(** * The lexer ([opaal-syntax/src/lexer.rs])

    A scanner over the bytes of a source file with a stack of contexts:
    ordinary source, the inside of a double-quoted string, and the inside of
    an interpolation of such a string.  Each step consumes at least one
    character and pushes one token. *)
From S2P Require Import Prelude Utf8 Source.

Local Open Scope res_scope.

(** ** Tokens *)

Inductive Keyword :=
| KAction | KBreak | KCatch | KContinue | KDef | KElse | KEnum | KExport | KFalse | KFor
| KIf | KImport | KIn | KLet | KMatch | KMut | KNull | KReturn | KTask | KThrow | KTrue
| KTry | KType | KUnset | KWhile.

Inductive NumberKind := Integer | Float.

Inductive Operator :=
| Semicolon | Pipe | PipeBoth | Background | And | Or | Append | Duplicate | Assign
| AddAssign | SubtractAssign | MultiplyAssign | DivideAssign | RemainderAssign
| Equal | NotEqual | Less | LessEqual | Greater | GreaterEqual
| Plus | Minus | Star | Slash | Percent | Bang | Range | RangeInclusive | Spread
| Arrow | MatchArrow | Dot | Comma | Colon | Caret.

Inductive Delimiter :=
| LeftParenthesis | RightParenthesis | LeftBrace | RightBrace | LeftBracket | RightBracket.

Inductive InvalidTokenKind :=
| Nul | LoneCarriageReturn | UnknownDoubleEscape | EmptyUnicodeEscape | UnicodeSurrogate
| UnicodeOutOfRange | MalformedUnicodeEscape | DollarSyntax | UnmatchedInterpolationBrace.

Inductive TokenKind :=
| Whitespace | Newline | LineContinuation | Comment | DocumentationComment | Identifier
| KeywordToken (k : Keyword) | Number (n : NumberKind) | WordText | BareEscape | SingleQuoted
| DoubleQuoteStart | DoubleText | DoubleEscape | EscapedBrace | DoubleQuoteEnd
| InterpolationStart | OperatorToken (o : Operator) | DelimiterToken (d : Delimiter)
| Invalid (i : InvalidTokenKind).

#[export] Instance Keyword_eq_dec : EqDecision Keyword.
Proof. solve_decision. Defined.
#[export] Instance NumberKind_eq_dec : EqDecision NumberKind.
Proof. solve_decision. Defined.
#[export] Instance Operator_eq_dec : EqDecision Operator.
Proof. solve_decision. Defined.
#[export] Instance Delimiter_eq_dec : EqDecision Delimiter.
Proof. solve_decision. Defined.
#[export] Instance InvalidTokenKind_eq_dec : EqDecision InvalidTokenKind.
Proof. solve_decision. Defined.
#[export] Instance TokenKind_eq_dec : EqDecision TokenKind.
Proof. solve_decision. Defined.

Record Token := mkToken { kind : TokenKind; token_span : Span }.

#[export] Instance Token_eq_dec : EqDecision Token.
Proof. solve_decision. Defined.

Definition token_text (t : Token) (source : SourceFile) : res SpanError str :=
  slice source (token_span t).

Definition is_adjacent_to (t next : Token) : bool :=
  (span_source_id (token_span t) =? span_source_id (token_span next))%Z &&
  (span_end (token_span t) =? span_start (token_span next)).

(** ** Character classes and spellings *)

Definition is_ascii_digit (b : u8) : bool := (48 <=? b)%Z && (b <=? 57)%Z.
Definition is_ascii_alphabetic (b : u8) : bool :=
  ((65 <=? b)%Z && (b <=? 90)%Z) || ((97 <=? b)%Z && (b <=? 122)%Z).
Definition is_ascii_hexdigit (b : u8) : bool :=
  is_ascii_digit b || ((65 <=? b)%Z && (b <=? 70)%Z) || ((97 <=? b)%Z && (b <=? 102)%Z).
Definition is_octal_digit (b : u8) : bool := (48 <=? b)%Z && (b <=? 55)%Z.
Definition is_binary_digit (b : u8) : bool := (48 <=? b)%Z && (b <=? 49)%Z.
Definition is_blank (b : u8) : bool := (b =? 32)%Z || (b =? 9)%Z.

Definition is_identifier_start (b : u8) : bool := is_ascii_alphabetic b || (b =? 95)%Z.
Definition is_identifier_continue (b : u8) : bool := is_identifier_start b || is_ascii_digit b.

Definition keywords : list (str * Keyword) :=
  [(bs "action", KAction); (bs "break", KBreak); (bs "catch", KCatch);
   (bs "continue", KContinue); (bs "def", KDef); (bs "else", KElse); (bs "enum", KEnum);
   (bs "export", KExport); (bs "false", KFalse); (bs "for", KFor); (bs "if", KIf);
   (bs "import", KImport); (bs "in", KIn); (bs "let", KLet); (bs "match", KMatch);
   (bs "mut", KMut); (bs "null", KNull); (bs "return", KReturn); (bs "task", KTask);
   (bs "throw", KThrow); (bs "true", KTrue); (bs "try", KTry); (bs "type", KType);
   (bs "unset", KUnset); (bs "while", KWhile)].

Definition keyword (text : str) : option Keyword :=
  snd <$> find (λ e, str_eqb (fst e) text) keywords.

Definition is_identifier (text : str) : bool :=
  match text with
  | [] => false
  | b :: _ =>
    is_identifier_start b && forallb is_identifier_continue text &&
    match keyword text with None => true | Some _ => false end
  end.

(** The operator table, in the order in which spellings are tried. *)
Definition OPERATORS : list (str * Operator) :=
  [(bs "...", Spread); (bs "..=", RangeInclusive); (bs "&&", And); (bs "||", Or);
   (bs "|&", PipeBoth); (bs ">>", Append); (bs ">&", Duplicate); (bs "->", Arrow);
   (bs "=>", MatchArrow); (bs "==", Equal); (bs "!=", NotEqual); (bs "<=", LessEqual);
   (bs ">=", GreaterEqual); (bs "+=", AddAssign); (bs "-=", SubtractAssign);
   (bs "*=", MultiplyAssign); (bs "/=", DivideAssign); (bs "%=", RemainderAssign);
   (bs "..", Range); (bs ";", Semicolon); (bs "|", Pipe); (bs "&", Background);
   (bs "<", Less); (bs ">", Greater); (bs "=", Assign); (bs "+", Plus); (bs "-", Minus);
   (bs "*", Star); (bs "/", Slash); (bs "%", Percent); (bs "!", Bang); (bs ".", Dot);
   (bs ",", Comma); (bs ":", Colon); (bs "^", Caret)].

Definition delimiter_of (b : u8) : option Delimiter :=
  if (b =? 40)%Z then Some LeftParenthesis else if (b =? 41)%Z then Some RightParenthesis
  else if (b =? 123)%Z then Some LeftBrace else if (b =? 125)%Z then Some RightBrace
  else if (b =? 91)%Z then Some LeftBracket else if (b =? 93)%Z then Some RightBracket
  else None.

(** The bytes that begin an operator or a delimiter. *)
Definition operator_or_delimiter_byte (b : u8) : bool :=
  bool_decide (b ∈ bs ";|&<>(){}[]=+-*/%!.,:^").

(** [u32::from_str_radix(_, 16)]. *)
Definition hex_value (b : u8) : option Z :=
  if is_ascii_digit b then Some (b - 48)%Z
  else if (65 <=? b)%Z && (b <=? 70)%Z then Some (b - 55)%Z
  else if (97 <=? b)%Z && (b <=? 102)%Z then Some (b - 87)%Z
  else None.

Fixpoint hex_digits (acc : Z) (s : str) : option Z :=
  match s with
  | [] => Some acc
  | b :: s =>
    match hex_value b with
    | None => None
    | Some d => let acc := (acc * 16 + d)%Z in
                if (acc <? 2 ^ 32)%Z then hex_digits acc s else None
    end
  end.

Definition u32_from_str_radix_16 (s : str) : option Z :=
  match s with
  | [] => None
  | [43%Z] | [45%Z] => None
  | b :: r => if (b =? 43)%Z then hex_digits 0 r else hex_digits 0 s
  end.

Definition strip_prefix (p s : str) : option str :=
  if starts_with p s then Some (drop (length p) s) else None.
Definition strip_suffix_byte (b : u8) (s : str) : option str :=
  if bool_decide (last s = Some b) then Some (butlast s) else None.

Definition unicode_escape_error (spelling : str) : option InvalidTokenKind :=
  match (body ← strip_prefix (bs "\u{") spelling; strip_suffix_byte 125 body) with
  | None => Some MalformedUnicodeEscape
  | Some hexadecimal =>
    if length hexadecimal =? 0 then Some EmptyUnicodeEscape
    else if 6 <? length hexadecimal then Some MalformedUnicodeEscape
    else match u32_from_str_radix_16 hexadecimal with
         | None => Some MalformedUnicodeEscape
         | Some value =>
           if (0x10FFFF <? value)%Z then Some UnicodeOutOfRange
           else if (0xD800 <=? value)%Z && (value <=? 0xDFFF)%Z then Some UnicodeSurrogate
           else None
         end
  end.

(** ** The scanner *)

Inductive Context := Normal | DoubleQuoted | Interpolation (nested : nat).

#[export] Instance Context_eq_dec : EqDecision Context.
Proof. solve_decision. Defined.

Record Lexer := mkLexer {
  lx_source : SourceFile;
  position : nat;
  tokens : list Token;
  contexts : list Context
}.

Definition Lexer_new (source : SourceFile) : Lexer := mkLexer source 0 [] [Normal].

(** Computations over the scanner that may panic; a loop that runs out of
    fuel is a panic of the model. *)
Definition Lx (A : Type) : Type := Lexer → res Empty_set (A * Lexer).
#[export] Instance Lx_ret : MRet Lx := λ A a s, Ok (a, s).
#[export] Instance Lx_bind : MBind Lx := λ A B k m s,
  let* ' (a, s) := m s in k a s.

Definition get_position : Lx nat := λ s, Ok (position s, s).
Definition set_position (p : nat) : Lx unit := λ s,
  Ok (tt, mkLexer (lx_source s) p (tokens s) (contexts s)).
Definition advance (n : nat) : Lx unit := λ s,
  Ok (tt, mkLexer (lx_source s) (position s + n) (tokens s) (contexts s)).
Definition push_context (c : Context) : Lx unit := λ s,
  Ok (tt, mkLexer (lx_source s) (position s) (tokens s) (contexts s ++ [c])).
Definition pop_context : Lx unit := λ s,
  Ok (tt, mkLexer (lx_source s) (position s) (tokens s) (butlast (contexts s))).

Definition lx_text (s : Lexer) : str := source_text (lx_source s).

Definition current_byte : Lx (option u8) := λ s, Ok (lx_text s !! position s, s).
Definition peek_byte (offset : nat) : Lx (option u8) := λ s,
  Ok (lx_text s !! (position s + offset), s).

Definition looking_at (spelling : str) : Lx bool := λ s,
  let* rest := str_slice (lx_text s) (position s) (length (lx_text s)) in
  Ok (starts_with spelling rest, s).

Definition at_end : Lx bool := λ s, Ok (negb (position s <? length (lx_text s)), s).

Definition advance_scalar : Lx unit := λ s,
  let* rest := str_slice (lx_text s) (position s) (length (lx_text s)) in
  let* character := expect_some (head (chars rest)) in
  Ok (tt, mkLexer (lx_source s) (position s + len_utf8 character) (tokens s) (contexts s)).

Definition push (k : TokenKind) (start : nat) : Lx unit := λ s,
  let* sp := expect (span (lx_source s) start (position s)) in
  Ok (tt, mkLexer (lx_source s) (position s) (tokens s ++ [mkToken k sp]) (contexts s)).

(** Short-circuit connectives over computations. *)
Definition orM (a b : Lx bool) : Lx bool := x ← a; if (x : bool) then mret true else b.
Definition andM (a b : Lx bool) : Lx bool := x ← a; if (x : bool) then b else mret false.
Definition notM (a : Lx bool) : Lx bool := x ← a; mret (negb x).
Infix "||M" := orM (at level 50, left associativity).
Infix "&&M" := andM (at level 40, left associativity).

Fixpoint loop (fuel : nat) (body : Lx bool) : Lx unit :=
  match fuel with
  | O => λ _, Panic
  | S fuel => continue ← body; if (continue : bool) then loop fuel body else mret tt
  end.

(** [while cond { body }], with fuel for every byte of the source. *)
Definition while (cond : Lx bool) (body : Lx unit) : Lx unit := λ s,
  loop (S (length (lx_text s))) (c ← cond; if (c : bool) then body;; mret true else mret false) s.

Definition byte_is (f : u8 → bool) : Lx bool :=
  b ← current_byte; mret (match b with Some b => f b | None => false end).

Definition is_lone_carriage_return : Lx bool :=
  looking_at [13%Z] &&M notM (looking_at [13%Z; 10%Z]).

(** The token kinds after which [#] begins a comment. *)
Definition opens_boundary (k : TokenKind) : bool :=
  match k with
  | Whitespace | Newline | InterpolationStart | DelimiterToken _ => true
  | OperatorToken o =>
    match o with
    | Semicolon | Pipe | PipeBoth | Background | And | Or | Less | Greater | Append
    | Duplicate => true
    | _ => false
    end
  | _ => false
  end.

Definition is_token_boundary : Lx bool := λ s,
  Ok ((position s =? 0) ||
      match last (tokens s) with Some t => opens_boundary (kind t) | None => false end, s).

(** ** One function per kind of token *)

Definition lex_invalid_source_character : Lx bool :=
  nul ← looking_at [0%Z];
  if (nul : bool) then
    start ← get_position; advance 1;; push (Invalid Nul) start;; mret true
  else
    cr ← is_lone_carriage_return;
    if (cr : bool) then
      start ← get_position; advance 1;; push (Invalid LoneCarriageReturn) start;; mret true
    else mret false.

Definition lex_horizontal_trivia : Lx bool :=
  blank ← byte_is is_blank;
  if (blank : bool) then
    start ← get_position;
    while (byte_is is_blank) (advance 1);;
    push Whitespace start;; mret true
  else mret false.

Definition lex_newline : Lx bool :=
  crlf ← looking_at [13%Z; 10%Z];
  if (crlf : bool) then start ← get_position; advance 2;; push Newline start;; mret true
  else
    lf ← looking_at [10%Z];
    if (lf : bool) then start ← get_position; advance 1;; push Newline start;; mret true
    else mret false.

Definition lex_bare_escape : Lx bool :=
  backslash ← looking_at [92%Z];
  if (backslash : bool) then
    start ← get_position;
    advance 1;;
    crlf ← looking_at [13%Z; 10%Z];
    if (crlf : bool) then advance 2;; push LineContinuation start;; mret true
    else
      lf ← looking_at [10%Z];
      if (lf : bool) then advance 1;; push LineContinuation start;; mret true
      else
        dollar ← looking_at (bs "$");
        consume ← notM at_end &&M notM (looking_at [0%Z]) &&M notM is_lone_carriage_return;
        (if (consume : bool) then advance_scalar else mret tt);;
        push (if (dollar : bool) then Invalid DollarSyntax else BareEscape) start;;
        mret true
  else mret false.

(** [starts_documentation_comment]: [##] at the start of its line, after
    blanks only. *)
Definition rfind_newline (s : str) : option nat :=
  fst <$> last (filter (λ p, p.2 = 10%Z) (imap pair s)).

Definition starts_documentation_comment (start : nat) : Lx bool := λ s,
  let* rest := str_slice (lx_text s) start (length (lx_text s)) in
  if negb (starts_with (bs "##") rest) then Ok (false, s)
  else
    let* before := str_slice (lx_text s) 0 start in
    let line_start := match rfind_newline before with Some n => n + 1 | None => 0 end in
    let* indent := str_slice (lx_text s) line_start start in
    Ok (forallb is_blank indent, s).

Definition lex_comment : Lx bool :=
  begins ← looking_at (bs "#") &&M is_token_boundary;
  if (begins : bool) then
    start ← get_position;
    while (notM at_end &&M notM (looking_at [10%Z]) &&M notM (looking_at [13%Z; 10%Z])
           &&M notM is_lone_carriage_return &&M notM (looking_at [0%Z]))
      advance_scalar;;
    doc ← starts_documentation_comment start;
    push (if (doc : bool) then DocumentationComment else Comment) start;;
    mret true
  else mret false.

(** The loop leaves with the closing quote consumed, or before a byte that is
    not source text. *)
Definition lex_single_quoted : Lx bool :=
  quote ← looking_at (bs "'");
  if (quote : bool) then
    start ← get_position;
    advance 1;;
    (λ s, loop (S (length (lx_text s)))
      (more ← notM at_end;
       if (more : bool) then
         closing ← looking_at (bs "'");
         if (closing : bool) then advance 1;; mret false
         else
           stop ← looking_at [0%Z] ||M is_lone_carriage_return;
           if (stop : bool) then mret false else advance_scalar;; mret true
       else mret false) s);;
    push SingleQuoted start;;
    mret true
  else mret false.

Definition lex_double_quote_start : Lx bool :=
  quote ← looking_at [34%Z];
  if (quote : bool) then
    start ← get_position;
    advance 1;; push DoubleQuoteStart start;; push_context DoubleQuoted;; mret true
  else mret false.

Definition lex_double_escape : Lx bool :=
  backslash ← looking_at [92%Z];
  if (backslash : bool) then
    start ← get_position;
    advance 1;;
    crlf ← looking_at [13%Z; 10%Z];
    if (crlf : bool) then advance 2;; push LineContinuation start;; mret true
    else
      lf ← looking_at [10%Z];
      if (lf : bool) then advance 1;; push LineContinuation start;; mret true
      else
        unicode ← looking_at (bs "u{");
        if (unicode : bool) then
          advance 2;;
          while (byte_is is_ascii_hexdigit) (advance 1);;
          closing ← looking_at (bs "}");
          (if (closing : bool) then advance 1 else mret tt);;
          stop ← get_position;
          spelling ← (λ s, let* t := str_slice (lx_text s) start stop in Ok (t, s));
          push (match unicode_escape_error spelling with
                | None => DoubleEscape
                | Some e => Invalid e
                end) start;;
          mret true
        else
          byte ← current_byte;
          k ← (match byte with
               | Some b =>
                 if bool_decide (b ∈ [92; 34; 110; 114; 116; 48]%Z)
                 then advance 1;; mret DoubleEscape
                 else advance_scalar;; mret (Invalid UnknownDoubleEscape)
               | None => mret (Invalid UnknownDoubleEscape)
               end);
          push k start;; mret true
  else mret false.

Definition lex_removed_dollar_syntax : Lx bool :=
  dollar ← looking_at (bs "$");
  if (dollar : bool) then
    start ← get_position; advance 1;; push (Invalid DollarSyntax) start;; mret true
  else mret false.

Definition lex_double_quoted_brace : Lx bool :=
  escaped ← looking_at (bs "{{") ||M looking_at (bs "}}");
  if (escaped : bool) then
    start ← get_position; advance 2;; push EscapedBrace start;; mret true
  else
    opening ← looking_at (bs "{");
    if (opening : bool) then
      start ← get_position;
      advance 1;; push InterpolationStart start;; push_context (Interpolation 0);; mret true
    else
      closing ← looking_at (bs "}");
      if (closing : bool) then
        start ← get_position;
        advance 1;; push (Invalid UnmatchedInterpolationBrace) start;; mret true
      else mret false.

Definition close_interpolation_if_needed : Lx bool := λ s,
  match last (contexts s), lx_text s !! position s with
  | Some (Interpolation 0), Some 125%Z =>
    (start ← get_position;
     advance 1;; push (DelimiterToken RightBrace) start;; pop_context;; mret true) s
  | _, _ => Ok (false, s)
  end.

(** [note_nested_interpolation], on the context at the top of the stack. *)
Definition note_nested (d : Delimiter) (c : Context) : Context :=
  match c, d with
  | Interpolation nested, LeftBrace => Interpolation (nested + 1)
  | Interpolation nested, RightBrace =>
    if 0 <? nested then Interpolation (nested - 1) else c
  | _, _ => c
  end.

Definition note_nested_interpolation (d : Delimiter) : Lx unit := λ s,
  match last (contexts s) with
  | None => Ok (tt, s)
  | Some c => Ok (tt, mkLexer (lx_source s) (position s) (tokens s)
                        (butlast (contexts s) ++ [note_nested d c]))
  end.

Definition find_operator (rest : str) : option (str * Operator) :=
  find (λ e, starts_with (fst e) rest) OPERATORS.

Definition lex_operator_or_delimiter : Lx bool :=
  closes ← close_interpolation_if_needed;
  if (closes : bool) then mret true
  else
    rest ← (λ s, let* t := str_slice (lx_text s) (position s) (length (lx_text s)) in Ok (t, s));
    match find_operator rest with
    | Some (spelling, operator) =>
      start ← get_position;
      advance (length spelling);; push (OperatorToken operator) start;; mret true
    | None =>
      byte ← current_byte;
      match (b ← byte; delimiter_of b) with
      | None => mret false
      | Some delimiter =>
        note_nested_interpolation delimiter;;
        start ← get_position;
        advance 1;; push (DelimiterToken delimiter) start;; mret true
      end
    end.

Definition lex_identifier : Lx bool :=
  begins ← byte_is is_identifier_start;
  if (begins : bool) then
    start ← get_position;
    advance 1;;
    while (byte_is is_identifier_continue) (advance 1);;
    stop ← get_position;
    text ← (λ s, let* t := str_slice (lx_text s) start stop in Ok (t, s));
    push (match keyword text with None => Identifier | Some k => KeywordToken k end) start;;
    mret true
  else mret false.

Definition consume_digits (accepts : u8 → bool) : Lx unit :=
  while (byte_is (λ b, accepts b || (b =? 95)%Z)) (advance 1).

Definition peek_is (offset : nat) (f : u8 → bool) : Lx bool :=
  b ← peek_byte offset; mret (match b with Some b => f b | None => false end).

Definition is_sign (b : u8) : bool := (b =? 43)%Z || (b =? 45)%Z.

Definition exponent_has_digits : Lx bool :=
  sign ← peek_is 1 is_sign;
  peek_is (if (sign : bool) then 2 else 1) is_ascii_digit.

Definition lex_radix (accepts : u8 → bool) (start : nat) : Lx bool :=
  advance 2;; consume_digits accepts;; push (Number Integer) start;; mret true.

Definition lex_number : Lx bool :=
  digit ← byte_is is_ascii_digit;
  if (digit : bool) then
    start ← get_position;
    hex ← looking_at (bs "0x") ||M looking_at (bs "0X");
    if (hex : bool) then lex_radix is_ascii_hexdigit start else
    octal ← looking_at (bs "0o") ||M looking_at (bs "0O");
    if (octal : bool) then lex_radix is_octal_digit start else
    binary ← looking_at (bs "0b") ||M looking_at (bs "0B");
    if (binary : bool) then lex_radix is_binary_digit start else
    consume_digits is_ascii_digit;;
    fraction ← byte_is (λ b, (b =? 46)%Z) &&M peek_is 1 is_ascii_digit;
    k ← (if (fraction : bool)
         then advance 1;; consume_digits is_ascii_digit;; mret Float else mret Integer);
    exponent ← byte_is (λ b, (b =? 101)%Z || (b =? 69)%Z) &&M exponent_has_digits;
    k ← (if (exponent : bool)
         then advance 1;;
              sign ← byte_is is_sign;
              (if (sign : bool) then advance 1 else mret tt);;
              consume_digits is_ascii_digit;; mret Float
         else mret k);
    push (Number k) start;;
    mret true
  else mret false.

Definition ends_word (b : u8) : bool :=
  bool_decide (b ∈ [32; 9; 10; 13; 92; 39; 34]%Z).

Definition lex_word_text : Lx unit :=
  start ← get_position;
  while (notM at_end &&M
         notM (byte_is ends_word ||M byte_is operator_or_delimiter_byte
               ||M (byte_is (λ b, (b =? 35)%Z) &&M is_token_boundary)
               ||M byte_is (λ b, (b =? 0)%Z)))
    advance_scalar;;
  here ← get_position;
  (if here =? start then advance_scalar else mret tt);;
  push WordText start.

Definition lex_normal : Lx unit :=
  done ← lex_invalid_source_character ||M lex_horizontal_trivia ||M lex_newline
    ||M lex_bare_escape ||M lex_comment ||M lex_single_quoted ||M lex_double_quote_start
    ||M lex_removed_dollar_syntax ||M lex_operator_or_delimiter ||M lex_identifier
    ||M lex_number;
  if (done : bool) then mret tt else lex_word_text.

Definition lex_double_quoted : Lx unit :=
  closing ← looking_at [34%Z];
  if (closing : bool) then
    start ← get_position; advance 1;; push DoubleQuoteEnd start;; pop_context
  else
    done ← lex_invalid_source_character ||M lex_double_escape ||M lex_double_quoted_brace;
    if (done : bool) then mret tt
    else
      start ← get_position;
      while (notM at_end &&M
             notM (looking_at [34%Z] ||M looking_at [92%Z] ||M looking_at (bs "{")
                   ||M looking_at (bs "}") ||M looking_at [0%Z]
                   ||M is_lone_carriage_return))
        advance_scalar;;
      push DoubleText start.

(** ** The driver *)

Definition lex_step : Lx unit := λ s,
  match default Normal (last (contexts s)) with
  | DoubleQuoted => lex_double_quoted s
  | Normal | Interpolation _ => lex_normal s
  end.

(** [run_with_control]; the [n]-th poll of the callback answers
    [is_cancelled n]. *)
Fixpoint run_with_control (fuel : nat) (is_cancelled : nat → bool) (polls : nat) (s : Lexer)
    : res Empty_set (option (list Token)) :=
  match fuel with
  | O => Panic
  | S fuel =>
    if position s <? length (lx_text s) then
      if is_cancelled polls then Ok None
      else
        let before := position s in
        let* ' (_, s) := lex_step s in
        if before <? position s then run_with_control fuel is_cancelled (S polls) s
        else Panic
    else Ok (if is_cancelled polls then None else Some (tokens s))
  end.

Definition lex_opaal_with_control (source : SourceFile) (is_cancelled : nat → bool)
    : res Empty_set (option (list Token)) :=
  run_with_control (S (source_len source)) is_cancelled 0 (Lexer_new source).

Definition lex_opaal (source : SourceFile) : res Empty_set (list Token) :=
  let* ts := lex_opaal_with_control source (λ _, false) in
  expect_some ts.
