(* ===== verification/LexerFacts.v ===== *)
(** * Correctness of the lexer

    A weakest-precondition calculus for the scanner's state-and-panic monad,
    the specification of each token function in it, and the theorems on the
    whole lexer: it never panics, its tokens tile the source, each token's
    text has the form its kind promises, and quotes and interpolations nest. *)
From S2P Require Import Prelude Utf8 Source Lexer.

Local Open Scope res_scope.

(** ** Specifications of tokens *)

Definition digits_of (f : u8 → bool) (s : str) : Prop :=
  Forall (λ b, f b = true ∨ b = 95%Z) s.

Definition decimal_ok (s : str) : Prop :=
  ∃ b r, s = b :: r ∧ is_ascii_digit b = true ∧ digits_of is_ascii_digit r.

Definition radix_ok (lower upper : string) (f : u8 → bool) (s : str) : Prop :=
  ∃ r, (s = bs lower ++ r ∨ s = bs upper ++ r) ∧ digits_of f r.

Definition integer_ok (s : str) : Prop :=
  decimal_ok s ∨ radix_ok "0x" "0X" is_ascii_hexdigit s ∨
  radix_ok "0o" "0O" is_octal_digit s ∨ radix_ok "0b" "0B" is_binary_digit s.

Definition fraction_ok (s : str) : Prop := ∃ r, s = 46%Z :: r ∧ decimal_ok r.
Definition exponent_ok (s : str) : Prop :=
  ∃ e sign r, s = e :: sign ++ r ∧ (e = 101%Z ∨ e = 69%Z) ∧
    (sign = [] ∨ sign = [43%Z] ∨ sign = [45%Z]) ∧ decimal_ok r.

(** A float has a fraction, an exponent, or both. *)
Definition float_ok (s : str) : Prop :=
  ∃ i f e, s = i ++ f ++ e ∧ decimal_ok i ∧ (f ≠ [] ∨ e ≠ []) ∧
    (f = [] ∨ fraction_ok f) ∧ (e = [] ∨ exponent_ok e).

(** [\u{h}] with one to six hexadecimal digits naming a scalar value. *)
Definition unicode_escape_ok (s : str) : Prop :=
  ∃ h c, s = bs "\u{" ++ h ++ bs "}" ∧ 1 ≤ length h ≤ 6 ∧
    Forall (λ b, is_ascii_hexdigit b = true) h ∧
    hex_digits 0 h = Some c ∧ is_scalar c = true.

Definition double_escape_ok (s : str) : Prop :=
  (∃ b, s = [92%Z; b] ∧ b ∈ [92; 34; 110; 114; 116; 48]%Z) ∨ unicode_escape_ok s.

(** What the text of a token of each kind looks like. *)
Definition token_wf (k : TokenKind) (s : str) : Prop :=
  match k with
  | Whitespace => Forall (λ b, is_blank b = true) s
  | Newline => s = [10%Z] ∨ s = [13%Z; 10%Z]
  | LineContinuation => s = [92; 10]%Z ∨ s = [92; 13; 10]%Z
  | Comment => (∃ r, s = bs "#" ++ r) ∧ Forall (λ b, b ≠ 10%Z ∧ b ≠ 0%Z) s
  | DocumentationComment => (∃ r, s = bs "##" ++ r) ∧ Forall (λ b, b ≠ 10%Z ∧ b ≠ 0%Z) s
  | Identifier => is_identifier s = true
  | KeywordToken k => keyword s = Some k
  | Number Integer => integer_ok s
  | Number Float => float_ok s
  | WordText => True
  | BareEscape => ∃ r, s = bs "\" ++ r
  | SingleQuoted => ∃ r, s = bs "'" ++ r
  | DoubleQuoteStart | DoubleQuoteEnd => s = [34%Z]
  | DoubleText => Forall (λ b, b ∉ [34; 92; 123; 125; 0]%Z) s
  | DoubleEscape => double_escape_ok s
  | EscapedBrace => s = bs "{{" ∨ s = bs "}}"
  | InterpolationStart => s = bs "{"
  | OperatorToken o => (s, o) ∈ OPERATORS
  | DelimiterToken d => ∃ b, s = [b] ∧ delimiter_of b = Some d
  | Invalid Nul => s = [0%Z]
  | Invalid LoneCarriageReturn => s = [13%Z]
  | Invalid DollarSyntax => s = bs "$" ∨ s = bs "\$"
  | Invalid UnmatchedInterpolationBrace => s = bs "}"
  | Invalid UnknownDoubleEscape => ∃ r, s = bs "\" ++ r
  | Invalid e => unicode_escape_error s = Some e
  end.

(** The nesting discipline, on token kinds alone: what each kind does to the
    stack of contexts, and [None] for a kind that has no place there. *)
Definition top (cs : list Context) : Context := default Normal (last cs).

Definition replay_step (cs : list Context) (k : TokenKind) : option (list Context) :=
  match top cs with
  | DoubleQuoted =>
    match k with
    | DoubleQuoteEnd => Some (butlast cs)
    | InterpolationStart => Some (cs ++ [Interpolation 0])
    | DoubleText | DoubleEscape | EscapedBrace | LineContinuation | Invalid _ => Some cs
    | _ => None
    end
  | c =>
    match k with
    | DoubleQuoteEnd | InterpolationStart | DoubleText | DoubleEscape | EscapedBrace => None
    | DoubleQuoteStart => Some (cs ++ [DoubleQuoted])
    | DelimiterToken LeftBrace =>
      match c with
      | Interpolation n => Some (butlast cs ++ [Interpolation (S n)])
      | _ => Some cs
      end
    | DelimiterToken RightBrace =>
      match c with
      | Interpolation 0 => Some (butlast cs)
      | Interpolation (S n) => Some (butlast cs ++ [Interpolation n])
      | _ => Some cs
      end
    | _ => Some cs
    end
  end.

Fixpoint replay (cs : list Context) (ks : list TokenKind) : option (list Context) :=
  match ks with
  | [] => Some cs
  | k :: ks => cs ← replay_step cs k; replay cs ks
  end.

Lemma replay_app cs ks1 ks2 : replay cs (ks1 ++ ks2) = cs' ← replay cs ks1; replay cs' ks2.
Proof.
  revert cs. induction ks1 as [|k ks1 IH]; intros cs; simpl; [done|].
  destruct (replay_step cs k); simpl; [apply IH|done].
Qed.

(** ** Weakest preconditions *)

Definition wp {A} (m : Lx A) (s : Lexer) (Q : A → Lexer → Prop) : Prop :=
  match m s with Ok (a, s') => Q a s' | _ => False end.

Lemma lx_ret {A} (a : A) s (Q : A → Lexer → Prop) : Q a s → wp (mret a) s Q.
Proof. done. Qed.

Lemma lx_bind {A B} (m : Lx A) (k : A → Lx B) s Q :
  wp m s (λ a s', wp (k a) s' Q) → wp (mbind k m) s Q.
Proof. unfold wp, mbind, Lx_bind. by destruct (m s) as [[a s']| |]. Qed.

Lemma lx_mono {A} (m : Lx A) s (Q1 Q2 : A → Lexer → Prop) :
  wp m s Q1 → (∀ a s', Q1 a s' → Q2 a s') → wp m s Q2.
Proof. unfold wp. destruct (m s) as [[a s']| |]; eauto. Qed.

(** Scanner states that differ from [s] in their position only. *)
Definition at_pos (s : Lexer) (p : nat) : Lexer :=
  mkLexer (lx_source s) p (tokens s) (contexts s).

Lemma at_pos_self s : at_pos s (position s) = s.
Proof. by destruct s. Qed.

Definition good (s : Lexer) (p : nat) : Prop :=
  utf8 (lx_text s) ∧ is_char_boundary (lx_text s) p = true.

Notation rest s p := (drop p (lx_text s)).

Section Primitives.
Context (s : Lexer).

Lemma slice_rest {E} p :
  good s p → str_slice (E:=E) (lx_text s) p (length (lx_text s)) = Ok (rest s p).
Proof.
  intros [Hu Hp]. pose proof (boundary_le _ _ Hp).
  rewrite str_slice_ok; [|done..|apply boundary_end].
  unfold sub. by rewrite take_ge by (rewrite length_drop; lia).
Qed.

Lemma wp_get_position p Q : Q p (at_pos s p) → wp get_position (at_pos s p) Q.
Proof. done. Qed.

Lemma lx_advance n p (Q : unit → Lexer → Prop) :
  Q tt (at_pos s (p + n)) → wp (advance n) (at_pos s p) Q.
Proof. done. Qed.

Lemma wp_current_byte p (Q : option u8 → Lexer → Prop) :
  Q (lx_text s !! p) (at_pos s p) → wp current_byte (at_pos s p) Q.
Proof. done. Qed.

Lemma wp_byte_is f p (Q : bool → Lexer → Prop) :
  Q (match lx_text s !! p with Some b => f b | None => false end) (at_pos s p) →
  wp (byte_is f) (at_pos s p) Q.
Proof. done. Qed.

Lemma wp_peek_is n f p (Q : bool → Lexer → Prop) :
  Q (match lx_text s !! (p + n) with Some b => f b | None => false end) (at_pos s p) →
  wp (peek_is n f) (at_pos s p) Q.
Proof. done. Qed.

Lemma wp_at_end p (Q : bool → Lexer → Prop) :
  Q (negb (p <? length (lx_text s))) (at_pos s p) → wp at_end (at_pos s p) Q.
Proof. done. Qed.

Lemma wp_looking_at sp p (Q : bool → Lexer → Prop) :
  good s p → Q (starts_with sp (rest s p)) (at_pos s p) → wp (looking_at sp) (at_pos s p) Q.
Proof.
  intros Hg. unfold wp, looking_at. simpl. change (lx_text (at_pos s p)) with (lx_text s).
  rewrite slice_rest by done. done.
Qed.

Lemma wp_is_token_boundary p (Q : bool → Lexer → Prop) :
  (∀ b, Q b (at_pos s p)) → wp is_token_boundary (at_pos s p) Q.
Proof. intros HQ. apply HQ. Qed.

Lemma wp_advance_scalar p (Q : unit → Lexer → Prop) :
  good s p → p < length (lx_text s) →
  (∀ c w, decode_char (rest s p) = DChar c w → 1 ≤ w ≤ 4 → good s (p + w) →
          Q tt (at_pos s (p + w))) →
  wp advance_scalar (at_pos s p) Q.
Proof.
  intros Hg Hlt HQ. destruct Hg as [Hu Hp].
  destruct (boundary_step _ _ Hu Hp Hlt) as (c & w & Hd & Hw & _ & Hb).
  unfold wp, advance_scalar. simpl. change (lx_text (at_pos s p)) with (lx_text s).
  rewrite slice_rest by done. simpl.
  rewrite (chars_step _ _ _ Hd (utf8_drop _ _ Hu Hp)). simpl.
  destruct (shape_scalar _ _ _ (decode_char_shape _ _ _ Hd)) as [_ ->].
  by eapply HQ.
Qed.

Definition pushed (k : TokenKind) (start p : nat) : Lexer :=
  mkLexer (lx_source s) p
    (tokens s ++ [mkToken k (mkSpan (source_id (lx_source s)) start p)]) (contexts s).

Lemma wp_push k start p (Q : unit → Lexer → Prop) :
  good s start → good s p → start ≤ p → Q tt (pushed k start p) →
  wp (push k start) (at_pos s p) Q.
Proof.
  intros [Hu Hs] [_ Hp] Hle HQ. pose proof (boundary_le _ _ Hp).
  unfold wp, push, span. simpl. unfold source_len. change (source_text (lx_source s))
    with (lx_text s). rewrite !(proj2 (Nat.ltb_ge _ _)) by lia.
  rewrite (proj2 (validate_offset_ok _ _) Hs). simpl.
  by rewrite (proj2 (validate_offset_ok _ _) Hp).
Qed.

(** A loop whose body moves forward, keeps [I] and stops in [P]. *)
Lemma lx_loop (I P : nat → Prop) (body : Lx bool) fuel p (Q : unit → Lexer → Prop) :
  (∀ p, I p → p ≤ length (lx_text s) ∧
    wp body (at_pos s p) (λ b s', ∃ p', s' = at_pos s p' ∧
      if b then p < p' ∧ I p' else P p')) →
  I p → length (lx_text s) - p < fuel → (∀ p', P p' → Q tt (at_pos s p')) →
  wp (loop fuel body) (at_pos s p) Q.
Proof.
  intros Hbody. revert p. induction fuel as [|fuel IH]; intros p HI Hf HQ; [lia|].
  cbn [loop]. apply lx_bind. destruct (Hbody p HI) as [Hle Hw].
  eapply lx_mono; [exact Hw|]. intros b s' (p' & -> & Hb). destruct b.
  - destruct Hb as [Hlt HI']. destruct (Hbody p' HI') as [Hle' _]. apply IH; [done|lia|done].
  - apply lx_ret, HQ, Hb.
Qed.
End Primitives.

Lemma wp_orM (a b : Lx bool) s Q :
  wp a s (λ x s', if x then Q true s' else wp b s' Q) → wp (a ||M b) s Q.
Proof. intros H. apply lx_bind. eapply lx_mono; [exact H|]. by intros [] s'. Qed.

Lemma wp_andM (a b : Lx bool) s Q :
  wp a s (λ x s', if x then wp b s' Q else Q false s') → wp (a &&M b) s Q.
Proof. intros H. apply lx_bind. eapply lx_mono; [exact H|]. by intros [] s'. Qed.

Lemma wp_notM (a : Lx bool) s (Q : bool → Lexer → Prop) :
  wp a s (λ x s', Q (negb x) s') → wp (notM a) s Q.
Proof. intros H. apply lx_bind. eapply lx_mono; [exact H|]. done. Qed.

(** ** Reading ahead *)

Definition ascii_text (sp : str) : bool := forallb (λ b, (0 <=? b)%Z && (b <? 128)%Z) sp.

Lemma ascii_text_Forall sp : ascii_text sp = true → Forall (λ b, (0 ≤ b < 0x80)%Z) sp.
Proof.
  induction sp as [|b sp IH]; simpl; intros H; constructor; bool_to_prop; [lia|auto].
Qed.

Lemma good_prefix s p sp n :
  good s p → starts_with sp (rest s p) = true → ascii_text sp = true → n = length sp →
  good s (p + n).
Proof.
  intros [Hu Hp] Hs Ha ->. split; [done|].
  by apply boundary_ascii_prefix, ascii_text_Forall.
Qed.

Lemma sub_prefix (t : str) p sp n :
  starts_with sp (drop p t) = true → n = length sp → sub t p (p + n) = sp.
Proof.
  intros [r Hr]%starts_with_spec ->. unfold sub.
  replace (p + length sp - p) with (length sp) by lia. rewrite Hr. by rewrite take_app_length.
Qed.

Lemma prefix_in_range (t : str) p b sp :
  starts_with (b :: sp) (drop p t) = true → t !! p = Some b ∧ p < length t.
Proof.
  intros [r Hr]%starts_with_spec.
  assert (t !! p = Some b) as Hb by (rewrite <- (Nat.add_0_r p), <- lookup_drop, Hr; done).
  split; [done|by eapply lookup_lt_Some].
Qed.

Lemma lookup_prefix (t : str) p b :
  t !! p = Some b → starts_with [b] (drop p t) = true.
Proof. intros Hb. rewrite (drop_S _ _ _ Hb). simpl. by rewrite Z.eqb_refl. Qed.

Lemma prefix1_false (t : str) p b :
  starts_with [b] (drop p t) = false → t !! p ≠ Some b.
Proof. intros H Hb. by rewrite lookup_prefix in H. Qed.

Lemma good_ascii s p b :
  good s p → lx_text s !! p = Some b → (0 ≤ b < 0x80)%Z → good s (p + 1).
Proof.
  intros [Hu Hp] Hb Ha. split; [done|]. rewrite Nat.add_1_r. by eapply boundary_ascii.
Qed.

Lemma sub_one (t : str) p b : t !! p = Some b → sub t p (p + 1) = [b].
Proof. intros Hb. by apply (sub_prefix t p [b] 1), eq_refl; apply lookup_prefix. Qed.

(** The bytes of one character: its first byte, then continuations. *)
Lemma char_bytes (R : u8 → Prop) (t : str) p c w :
  decode_char (drop p t) = DChar c w → (∀ b, t !! p = Some b → R b) →
  (∀ b, is_cont b = true → R b) → Forall R (sub t p (p + w)).
Proof.
  intros Hd%decode_char_shape H0 Hc. apply Forall_lookup_2. intros i x Hx. unfold sub in Hx.
  replace (p + w - p) with w in Hx by lia.
  apply lookup_take_Some in Hx as [Hx Hi]. destruct i as [|i].
  - apply H0. by rewrite lookup_drop, Nat.add_0_r in Hx.
  - destruct (shape_cont _ _ _ (S i) Hd) as (b & Hb & Hcb); [lia|].
    rewrite Hx in Hb. injection Hb as ->. auto.
Qed.

Lemma wp_while_bytes s f p (Q : unit → Lexer → Prop) :
  good s p → (∀ b, f b = true → (0 ≤ b < 0x80)%Z) →
  (∀ p', p ≤ p' → good s p' → Forall (λ b, f b = true) (sub (lx_text s) p p') →
     (∀ b, lx_text s !! p' = Some b → f b = false) → Q tt (at_pos s p')) →
  wp (while (byte_is f) (advance 1)) (at_pos s p) Q.
Proof.
  intros Hg Hf HQ.
  apply (lx_loop s (λ q, p ≤ q ∧ good s q ∧ Forall (λ b, f b = true) (sub (lx_text s) p q))
    (λ q, p ≤ q ∧ good s q ∧ Forall (λ b, f b = true) (sub (lx_text s) p q) ∧
          (∀ b, lx_text s !! q = Some b → f b = false))).
  - intros q (Hpq & Hgq & Hall). split; [by apply boundary_le; destruct Hgq|].
    apply lx_bind, wp_byte_is.
    destruct (lx_text s !! q) as [b|] eqn:Hb; [destruct (f b) eqn:Hfb|].
    + apply lx_bind, lx_advance, lx_ret. exists (q + 1).
      split_and!; [done|lia|lia|by eapply good_ascii; [|done|apply Hf]|].
      rewrite <- (sub_app _ p q) by lia. apply Forall_app. split; [done|].
      erewrite sub_one by done. by constructor.
    + apply lx_ret. exists q. split_and!; try done. intros b' Hb'. congruence.
    + apply lx_ret. exists q. split_and!; try done. intros b' Hb'. congruence.
  - split_and!; [lia|done|]. unfold sub. rewrite Nat.sub_diag. constructor.
  - change (lx_text (at_pos s p)) with (lx_text s). lia.
  - intros p' (? & ? & ? & ?). auto.
Qed.

(** A condition that only reads: its value at each position. *)
Definition reads (s : Lexer) (cond : Lx bool) (c : nat → bool) : Prop :=
  ∀ p (Q : bool → Lexer → Prop), good s p → Q (c p) (at_pos s p) → wp cond (at_pos s p) Q.

Lemma reads_looking_at s sp : reads s (looking_at sp) (λ p, starts_with sp (rest s p)).
Proof. intros p Q Hg HQ. by apply wp_looking_at. Qed.
Lemma reads_at_end s : reads s at_end (λ p, negb (p <? length (lx_text s))).
Proof. intros p Q Hg HQ. done. Qed.
Lemma reads_byte_is s f :
  reads s (byte_is f) (λ p, match lx_text s !! p with Some b => f b | None => false end).
Proof. intros p Q Hg HQ. done. Qed.
Lemma reads_notM s a c : reads s a c → reads s (notM a) (λ p, negb (c p)).
Proof. intros H p Q Hg HQ. by apply wp_notM, H. Qed.
Lemma reads_andM s a b c d : reads s a c → reads s b d → reads s (a &&M b) (λ p, c p && d p).
Proof.
  intros Ha Hb p Q Hg HQ. apply wp_andM, Ha; [done|]. destruct (c p); simpl in HQ; [|done].
  by apply Hb.
Qed.
Lemma reads_orM s a b c d : reads s a c → reads s b d → reads s (a ||M b) (λ p, c p || d p).
Proof.
  intros Ha Hb p Q Hg HQ. apply wp_orM, Ha; [done|]. destruct (c p); simpl in HQ; [done|].
  by apply Hb.
Qed.
Lemma reads_is_token_boundary s :
  reads s is_token_boundary (λ p, (p =? 0) ||
    match last (tokens s) with Some t => opens_boundary (kind t) | None => false end).
Proof. intros p Q Hg HQ. done. Qed.

Definition lone_cr (s : Lexer) (p : nat) : bool :=
  starts_with [13%Z] (rest s p) && negb (starts_with [13%Z; 10%Z] (rest s p)).
Lemma reads_lone_cr s : reads s is_lone_carriage_return (lone_cr s).
Proof. apply reads_andM; [|apply reads_notM]; apply reads_looking_at. Qed.

Create HintDb reads.
#[export] Hint Resolve reads_looking_at reads_at_end reads_byte_is reads_notM reads_andM
  reads_orM reads_is_token_boundary reads_lone_cr : reads.

(** One round of a scalar loop. *)
Lemma wp_while_scalars s cond c (R : u8 → Prop) p (Q : unit → Lexer → Prop) :
  good s p → reads s cond c →
  (∀ q, c q = true → q < length (lx_text s) ∧ (∀ b, lx_text s !! q = Some b → R b)) →
  (∀ b, is_cont b = true → R b) →
  (∀ p', p ≤ p' → good s p' → Forall R (sub (lx_text s) p p') → c p' = false →
     Q tt (at_pos s p')) →
  wp (while cond advance_scalar) (at_pos s p) Q.
Proof.
  intros Hg Hc Hcr Hcont HQ.
  apply (lx_loop s (λ q, p ≤ q ∧ good s q ∧ Forall R (sub (lx_text s) p q))
    (λ q, p ≤ q ∧ good s q ∧ Forall R (sub (lx_text s) p q) ∧ c q = false)).
  - intros q (Hpq & Hgq & Hall). split; [by apply boundary_le; destruct Hgq|].
    apply lx_bind, Hc; [done|]. destruct (c q) eqn:Hcq.
    + destruct (Hcr q Hcq) as [Hlt HR]. apply lx_bind, wp_advance_scalar; [done..|].
      intros x w Hd Hw Hg'. apply lx_ret. exists (q + w).
      split_and!; [done|lia|lia|done|].
      rewrite <- (sub_app _ p q) by lia. apply Forall_app. split; [done|].
      by eapply char_bytes.
    + apply lx_ret. exists q. by split_and!.
  - split_and!; [lia|done|]. unfold sub. rewrite Nat.sub_diag. constructor.
  - change (lx_text (at_pos s p)) with (lx_text s). lia.
  - intros p' (? & ? & ? & ?). auto.
Qed.

(** ** Specification of a token function

    On a good state before the end, with the inside of a string on top of the
    stack or not ([dq]), it either emits one well-formed token or leaves the
    state alone and tells [N] about the input. *)
Definition is_dq (c : Context) : bool :=
  match c with DoubleQuoted => true | _ => false end.

Definition emits (s : Lexer) (k : TokenKind) (p : nat) (cs : list Context) : Prop :=
  good s p ∧ position s < p ∧ token_wf k (sub (lx_text s) (position s) p) ∧
  replay_step (contexts s) k = Some cs.

Definition emitted (s s' : Lexer) : Prop :=
  ∃ k p cs, emits s k p cs ∧
    s' = mkLexer (lx_source s) p
           (tokens s ++ [mkToken k (mkSpan (source_id (lx_source s)) (position s) p)]) cs.

Definition ready (dq : bool) (s : Lexer) : Prop :=
  good s (position s) ∧ position s < length (lx_text s) ∧ is_dq (top (contexts s)) = dq.

Definition spec (dq : bool) (m : Lx bool) (N : str → Prop) : Prop :=
  ∀ s, ready dq s →
    wp m s (λ (b : bool) s', if b then emitted s s' else s' = s ∧ N (rest s (position s))).

Lemma spec_orM dq a b N1 N2 :
  spec dq a N1 → spec dq b N2 → spec dq (a ||M b) (λ r, N1 r ∧ N2 r).
Proof.
  intros Ha Hb s Hs. apply wp_orM. eapply lx_mono; [by apply Ha|].
  intros [] s'; [done|]. intros [-> HN1]. eapply lx_mono; [by apply Hb|].
  intros [] s'; [done|]. by intros [-> HN2].
Qed.

Lemma spec_weaken dq m (N1 N2 : str → Prop) :
  spec dq m N1 → (∀ r, N1 r → N2 r) → spec dq m N2.
Proof.
  intros H HN s Hs. eapply lx_mono; [by apply H|]. intros [] s'; [done|]. naive_solver.
Qed.

(** Kinds that leave the stack alone. *)
Definition plain_kind (k : TokenKind) : bool :=
  match k with
  | DoubleQuoteStart | DoubleQuoteEnd | InterpolationStart | DelimiterToken _ => false
  | _ => true
  end.
Definition string_kind (k : TokenKind) : bool :=
  match k with
  | DoubleText | DoubleEscape | EscapedBrace | LineContinuation | Invalid _ => true
  | _ => false
  end.
Definition source_kind (k : TokenKind) : bool :=
  match k with DoubleText | DoubleEscape | EscapedBrace => false | _ => true end.

Lemma replay_plain cs k :
  plain_kind k = true →
  (if is_dq (top cs) then string_kind k else source_kind k) = true →
  replay_step cs k = Some cs.
Proof. unfold replay_step. by destruct (top cs), k. Qed.

(** Ending a token function: push and answer [true]. *)
Lemma wp_push_plain dq s k p (Q : bool → Lexer → Prop) :
  ready dq s → (∀ s', emitted s s' → Q true s') → good s p → position s < p →
  plain_kind k = true → (if dq then string_kind k else source_kind k) = true →
  token_wf k (sub (lx_text s) (position s) p) →
  wp (push k (position s);; mret true) (at_pos s p) Q.
Proof.
  intros (Hg & _ & Hdq) HQ Hp Hlt Hk Hd Hwf. apply lx_bind, wp_push; [done|done|lia|].
  apply lx_ret, HQ. exists k, p, (contexts s). split; [|done].
  split_and!; [done|done|done|]. apply replay_plain; [done|by rewrite Hdq].
Qed.

(** The reading steps of a function, from [at_pos s p]. *)
Ltac wp_read :=
  match goal with
  | |- wp (mbind _ (push _ _)) _ _ => fail 1
  | |- wp (mbind _ _) _ _ => apply lx_bind
  | |- wp (mret _) _ _ => apply lx_ret
  | |- wp get_position _ _ => apply wp_get_position
  | |- wp (advance _) _ _ => apply lx_advance
  | |- wp current_byte _ _ => apply wp_current_byte
  | |- wp (byte_is _) _ _ => apply wp_byte_is
  | |- wp at_end _ _ => apply wp_at_end
  | |- wp is_lone_carriage_return _ _ => apply reads_lone_cr; [assumption|]
  | |- wp (looking_at _) _ _ => apply wp_looking_at; [assumption|]
  | |- wp (orM _ _) _ _ => apply wp_orM
  | |- wp (andM _ _) _ _ => apply wp_andM
  | |- wp (notM _) _ _ => apply wp_notM
  end.

Lemma sub_prefix2 (t : str) p sp1 sp2 n m :
  starts_with sp1 (drop p t) = true → starts_with sp2 (drop (p + n) t) = true →
  n = length sp1 → m = length sp2 → sub t p (p + n + m) = sp1 ++ sp2.
Proof.
  intros H1 H2 Hn Hm. rewrite <- (sub_app t p (p + n)) by lia.
  by rewrite (sub_prefix t p sp1), (sub_prefix t (p + n) sp2).
Qed.

Lemma sub_prefix_app (t : str) p sp n q :
  starts_with sp (drop p t) = true → n = length sp → p + n ≤ q →
  sub t p q = sp ++ sub t (p + n) q.
Proof.
  intros H1 Hn Hle. rewrite <- (sub_app t p (p + n)) by lia. by rewrite (sub_prefix t p sp).
Qed.

(** Enter a specification of a function at state [s]. *)
Tactic Notation "spec_start" ident(s) :=
  intros s Hs; pose proof Hs as (Hg & Hlt & Hdq);
  match goal with |- wp _ _ ?Q => rewrite <- (at_pos_self s) at 1 end.

(** Good positions reached by consuming a spelling that was seen. *)
Ltac good_next :=
  solve [ assumption | eapply good_prefix; [eassumption|eassumption|reflexivity|reflexivity] ].

Lemma spec_invalid_source_character dq :
  spec dq lex_invalid_source_character
    (λ r, starts_with [0%Z] r = false ∧
          starts_with [13%Z] r && negb (starts_with [13%Z; 10%Z] r) = false).
Proof.
  spec_start s.
  unfold lex_invalid_source_character. repeat wp_read.
  destruct (starts_with [0%Z] (rest s (position s))) eqn:Hnul.
  - repeat wp_read. apply (wp_push_plain dq); try done; [good_next|lia|by destruct dq|].
    by apply sub_prefix.
  - repeat wp_read. fold (lone_cr s (position s)).
    destruct (lone_cr s (position s)) eqn:Hcr.
    + apply andb_true_iff in Hcr as [Hcr _]. repeat wp_read.
      apply (wp_push_plain dq); try done; [good_next|lia|by destruct dq|]. by apply sub_prefix.
    + repeat wp_read. by rewrite at_pos_self.
Qed.

Lemma is_blank_ascii b : is_blank b = true → (0 ≤ b < 0x80)%Z.
Proof. unfold is_blank. lia. Qed.

Lemma spec_horizontal_trivia :
  spec false lex_horizontal_trivia (λ r, ∀ b r', r = b :: r' → is_blank b = false).
Proof.
  spec_start s.
  unfold lex_horizontal_trivia. repeat wp_read.
  destruct (lx_text s !! position s) as [b|] eqn:Hb; [destruct (is_blank b) eqn:Hbl|].
  - repeat wp_read. apply wp_while_bytes; [done|apply is_blank_ascii|].
    intros p Hle Hp Hall Hstop. apply (wp_push_plain false); try done.
    destruct (decide (p = position s)) as [->|]; [|lia].
    apply Hstop in Hb. congruence.
  - repeat wp_read. rewrite at_pos_self. split; [done|]. intros b' r' Hr.
    rewrite (drop_S _ _ _ Hb) in Hr. by injection Hr as <- _.
  - apply lookup_ge_None in Hb. lia.
Qed.

Lemma spec_newline :
  spec false lex_newline
    (λ r, starts_with [13%Z; 10%Z] r = false ∧ starts_with [10%Z] r = false).
Proof.
  spec_start s.
  unfold lex_newline. repeat wp_read.
  destruct (starts_with [13%Z; 10%Z] _) eqn:Hcrlf.
  { repeat wp_read. apply (wp_push_plain false); try done; [good_next|lia|].
    right. by apply sub_prefix. }
  repeat wp_read. destruct (starts_with [10%Z] _) eqn:Hlf.
  { repeat wp_read. apply (wp_push_plain false); try done; [good_next|lia|].
    left. by apply sub_prefix. }
  repeat wp_read. by rewrite at_pos_self.
Qed.

Lemma spec_removed_dollar_syntax :
  spec false lex_removed_dollar_syntax (λ r, starts_with (bs "$") r = false).
Proof.
  spec_start s. unfold lex_removed_dollar_syntax. repeat wp_read.
  destruct (starts_with (bs "$") _) eqn:Hd.
  - repeat wp_read. apply (wp_push_plain false); try done; [good_next|lia|].
    left. by apply sub_prefix.
  - repeat wp_read. by rewrite at_pos_self.
Qed.

(** What follows the backslash, in source: at most one character. *)
Lemma spec_bare_escape : spec false lex_bare_escape (λ r, starts_with [92%Z] r = false).
Proof.
  spec_start s. unfold lex_bare_escape. repeat wp_read.
  destruct (starts_with [92%Z] _) eqn:Hb; [|repeat wp_read; by rewrite at_pos_self].
  repeat wp_read. assert (good s (position s + 1)) as Hg1 by good_next.
  repeat wp_read. destruct (starts_with [13%Z; 10%Z] _) eqn:Hcrlf.
  { repeat wp_read. apply (wp_push_plain false); try done; [good_next|lia|].
    right. by apply (sub_prefix2 _ _ [92] [13; 10])%Z. }
  repeat wp_read. destruct (starts_with [10%Z] _) eqn:Hlf.
  { repeat wp_read. apply (wp_push_plain false); try done; [good_next|lia|].
    left. by apply (sub_prefix2 _ _ [92] [10])%Z. }
  wp_read. change (bs "$") with [36%Z]. wp_read. wp_read.
  set (consume := (_ &&M _) &&M _).
  assert (reads s consume (λ p, negb (negb (p <? length (lx_text s)))
    && negb (starts_with [0%Z] (rest s p)) && negb (lone_cr s p))) as Hc.
  { apply reads_andM; [apply reads_andM|]; apply reads_notM; auto with reads. }
  apply Hc; [done|]. clear Hc. set (p := position s + 1) in *.
  destruct (starts_with [36%Z] (rest s p)) eqn:Hd.
  - destruct (prefix_in_range _ _ _ _ Hd) as [Hx Hlt'].
    assert (∀ b sp, b ≠ 36%Z → starts_with (b :: sp) (rest s p) = false) as Hne.
    { intros b sp Hne. destruct (starts_with (b :: sp) _) eqn:E; [|done].
      apply prefix_in_range in E as [E _]. congruence. }
    unfold lone_cr. rewrite (proj2 (Nat.ltb_lt _ _) Hlt'), !Hne by done. cbn [negb andb].
    wp_read. apply wp_advance_scalar; [done..|]. intros c w Hdc Hw Hg2.
    apply decode_char_shape, shape_head in Hdc as (x & Hx0 & _ & _ & Hiff).
    rewrite lookup_drop, Nat.add_0_r, Hx in Hx0. injection Hx0 as <-.
    assert (w = 1) as -> by (apply Hiff; done).
    apply (wp_push_plain false); try done; [lia|].
    right. by apply (sub_prefix2 _ _ [92] [36])%Z.
  - assert (∀ q, p ≤ q → good s q →
      wp (push BareEscape (position s);; mret true) (at_pos s q)
        (λ b s', if b then emitted s s' else s' = s ∧ true = false)) as Hend.
    { intros q Hq Hgq. apply (wp_push_plain false); try done; [lia|].
      eexists. by apply (sub_prefix_app _ _ [92%Z] 1). }
    destruct (_ && _ && _) eqn:Hcons; wp_read.
    + bool_to_prop. apply wp_advance_scalar; [done|done|].
      intros c w _ Hw Hg2. apply Hend; [lia|done].
    + wp_read. by apply Hend.
Qed.

Lemma rfind_newline_lookup (t : str) n : rfind_newline t = Some n → t !! n = Some 10%Z.
Proof.
  unfold rfind_newline. intros ([i b] & Hl & ->)%fmap_Some. simpl.
  apply last_Some_elem_of, list_elem_of_filter in Hl as [Hb Hl]. simpl in Hb. subst b.
  apply list_elem_of_lookup in Hl as [j Hj]. rewrite list_lookup_imap in Hj.
  apply fmap_Some in Hj as (b & Hb & [= -> ->]). done.
Qed.

Lemma wp_starts_documentation_comment s start p (Q : bool → Lexer → Prop) :
  good s start →
  (∀ b : bool, (b = true → starts_with (bs "##") (rest s start) = true) → Q b (at_pos s p)) →
  wp (starts_documentation_comment start) (at_pos s p) Q.
Proof.
  intros Hg HQ. pose proof Hg as [Hu Hb]. unfold wp, starts_documentation_comment.
  change (lx_text (at_pos s p)) with (lx_text s). rewrite slice_rest by done. cbn [res_bind].
  destruct (starts_with (bs "##") _) eqn:Hd; cbn [negb]; [|by apply HQ].
  rewrite str_slice_ok by (done || lia). cbn [res_bind].
  rewrite str_slice_ok; [cbn [res_bind]; by apply HQ| | |done].
  - destruct (rfind_newline _) as [n|] eqn:Hn; [|lia].
    apply rfind_newline_lookup, lookup_lt_Some in Hn.
    rewrite length_sub in Hn by (by apply boundary_le). lia.
  - destruct (rfind_newline _) as [n|] eqn:Hn; [|done].
    apply rfind_newline_lookup in Hn. unfold sub in Hn.
    apply lookup_take_Some in Hn as [Hn _]. rewrite lookup_drop in Hn. simpl in Hn.
    rewrite Nat.add_1_r. eapply boundary_ascii; [done| |done|lia].
    by eapply boundary_lookup.
Qed.

(** A scanning condition holds on a byte that is none of the stops. *)
Lemma starts_with_other (t : str) q b c sp :
  t !! q = Some b → b ≠ c → starts_with (c :: sp) (drop q t) = false.
Proof.
  intros Hb Hne. rewrite (drop_S _ _ _ Hb). simpl. by rewrite (proj2 (Z.eqb_neq c b)).
Qed.

Lemma spec_comment : spec false lex_comment (λ _, True).
Proof.
  spec_start s. unfold lex_comment. change (bs "#") with [35%Z].
  wp_read. wp_read. wp_read.
  destruct (starts_with [35%Z] _) eqn:Hh; [|repeat wp_read; by rewrite at_pos_self].
  apply wp_is_token_boundary. intros []; [|repeat wp_read; by rewrite at_pos_self].
  do 3 wp_read. set (cond := _ &&M notM (looking_at [0%Z])).
  set (c := λ q, negb (negb (q <? length (lx_text s))) && negb (starts_with [10%Z] (rest s q))
      && negb (starts_with [13; 10]%Z (rest s q)) && negb (lone_cr s q)
      && negb (starts_with [0%Z] (rest s q))).
  assert (reads s cond c) as Hc.
  { unfold cond, c. repeat apply reads_andM; apply reads_notM; auto with reads. }
  assert (∀ q, lx_text s !! q = Some 35%Z → c q = true) as Hhash.
  { intros q Hq. unfold c, lone_cr. pose proof (lookup_lt_Some _ _ _ Hq).
    rewrite (proj2 (Nat.ltb_lt _ _)), !(starts_with_other _ _ _ _ _ Hq) by (done || lia). done. }
  apply (wp_while_scalars s cond c (λ b, b ≠ 10%Z ∧ b ≠ 0%Z)); [done..| | |].
  - intros q Hq. unfold c in Hq. bool_to_prop. split; [lia|]. intros b Hb.
    split; intros ->; [|by rewrite lookup_prefix in *].
    match goal with H : starts_with [10%Z] _ = false |- _ => by rewrite lookup_prefix in H end.
  - unfold is_cont. intros b. lia.
  - intros p Hle Hp Hall Hstop. apply lx_bind, wp_starts_documentation_comment; [done|].
    intros doc Hdoc. destruct (prefix_in_range _ _ _ _ Hh) as [Hx _].
    assert (position s < p).
    { destruct (decide (p = position s)) as [->|]; [|lia]. rewrite Hhash in Hstop; done. }
    apply (wp_push_plain false); try done; [by destruct doc..|].
    destruct doc; (split; [|done]).
    + specialize (Hdoc eq_refl). assert (position s + 2 ≤ p).
      { destruct (decide (p = position s + 1)) as [->|]; [|lia].
        rewrite Hhash in Hstop; [done|]. apply starts_with_spec in Hdoc as [r Hr].
        rewrite <- lookup_drop, Hr. done. }
      eexists. by apply (sub_prefix_app _ _ (bs "##") 2).
    + eexists. apply (sub_prefix_app _ _ [35%Z] 1); [done|done|lia].
Qed.

Lemma spec_single_quoted : spec false lex_single_quoted (λ _, True).
Proof.
  spec_start s. unfold lex_single_quoted. change (bs "'") with [39%Z].
  do 2 wp_read. destruct (starts_with [39%Z] _) eqn:Hq; [|repeat wp_read; by rewrite at_pos_self].
  repeat wp_read. assert (good s (position s + 1)) as Hg1 by good_next.
  apply (lx_loop s (λ p, position s + 1 ≤ p ∧ good s p) (λ p, position s + 1 ≤ p ∧ good s p)).
  - intros p [Hp Hgp]. split; [by apply boundary_le; destruct Hgp|].
    repeat wp_read. destruct (Nat.ltb_spec p (length (lx_text s))); cbn [negb]; cbv iota;
      [|repeat wp_read; by exists p].
    repeat wp_read. destruct (starts_with [39%Z] (rest s p)) eqn:Hend.
    { repeat wp_read. exists (p + 1). split_and!; [done|lia|good_next]. }
    wp_read. apply (reads_orM s _ _ _ _ (reads_looking_at s _) (reads_lone_cr s)); [done|].
    destruct (_ || _).
    { repeat wp_read. by exists p. }
    wp_read. apply wp_advance_scalar; [done..|]. intros c w _ Hw Hgw. repeat wp_read.
    exists (p + w). split_and!; [done|lia|lia|done].
  - done.
  - change (lx_text (at_pos s (position s + 1))) with (lx_text s). lia.
  - intros p [Hp Hgp]. apply (wp_push_plain false); try done; [lia|].
    eexists. by apply (sub_prefix_app _ _ [39%Z] 1).
Qed.

Lemma spec_double_quote_start : spec false lex_double_quote_start (λ _, True).
Proof.
  spec_start s. unfold lex_double_quote_start. repeat wp_read.
  destruct (starts_with [34%Z] _) eqn:Hq; [|repeat wp_read; by rewrite at_pos_self].
  repeat wp_read. apply lx_bind, wp_push; [done|good_next|lia|].
  apply lx_bind. exists DoubleQuoteStart, (position s + 1), (contexts s ++ [DoubleQuoted]).
  split; [|done]. split_and!; [good_next|lia|by apply sub_prefix|].
  unfold replay_step. by destruct (top (contexts s)).
Qed.

Lemma spec_double_quoted_brace :
  spec true lex_double_quoted_brace
    (λ r, starts_with [123%Z] r = false ∧ starts_with [125%Z] r = false).
Proof.
  spec_start s. unfold lex_double_quoted_brace.
  change (bs "{{") with [123; 123]%Z. change (bs "}}") with [125; 125]%Z.
  change (bs "{") with [123%Z]. change (bs "}") with [125%Z].
  do 3 wp_read. destruct (starts_with [123; 123]%Z _) eqn:H2.
  { repeat wp_read. apply (wp_push_plain true); try done; [good_next|lia|].
    left. by apply sub_prefix. }
  wp_read. destruct (starts_with [125; 125]%Z _) eqn:H3.
  { repeat wp_read. apply (wp_push_plain true); try done; [good_next|lia|].
    right. by apply sub_prefix. }
  repeat wp_read. destruct (starts_with [123%Z] _) eqn:H1.
  { repeat wp_read. apply lx_bind, wp_push; [done|good_next|lia|].
    apply lx_bind. exists InterpolationStart, (position s + 1), (contexts s ++ [Interpolation 0]).
    split; [|done]. split_and!; [good_next|lia|by apply sub_prefix|].
    unfold replay_step. by destruct (top (contexts s)). }
  repeat wp_read. destruct (starts_with [125%Z] _) eqn:H4; repeat wp_read.
  - apply (wp_push_plain true); try done; [good_next|lia|]. by apply sub_prefix.
  - by rewrite at_pos_self.
Qed.

(** ** Unicode escapes *)

Lemma hex_digits_nonneg s acc c : (0 ≤ acc)%Z → hex_digits acc s = Some c → (0 ≤ c)%Z.
Proof.
  revert acc. induction s as [|b s IH]; simpl; intros acc Ha Hc; [by injection Hc as <-|].
  unfold hex_value, is_ascii_digit in Hc. repeat case_match; simplify_eq; bool_to_prop;
    (eapply IH; [|done]); lia.
Qed.

Lemma hex_not_sign b : is_ascii_hexdigit b = true → b ≠ 43%Z ∧ b ≠ 45%Z ∧ b ≠ 125%Z.
Proof. unfold is_ascii_hexdigit, is_ascii_digit. lia. Qed.

Lemma radix_of_hexdigits h :
  h ≠ [] → Forall (λ b, is_ascii_hexdigit b = true) h →
  u32_from_str_radix_16 h = hex_digits 0 h.
Proof.
  intros Hne Hall. destruct h as [|b h]; [done|]. apply Forall_cons_1 in Hall as [Hb _].
  apply hex_not_sign in Hb as (H1 & H2 & _). unfold u32_from_str_radix_16.
  rewrite (proj2 (Z.eqb_neq _ _) H1).
  repeat case_match; simplify_eq; done.
Qed.

Lemma strip_unicode_prefix r : strip_prefix (bs "\u{") (bs "\u{" ++ r) = Some r.
Proof. done. Qed.

Lemma unicode_escape_closed h :
  Forall (λ b, is_ascii_hexdigit b = true) h →
  unicode_escape_error (bs "\u{" ++ h ++ [125%Z]) = None →
  unicode_escape_ok (bs "\u{" ++ h ++ [125%Z]).
Proof.
  intros Hall. unfold unicode_escape_error. rewrite strip_unicode_prefix. cbn [mbind option_bind].
  unfold strip_suffix_byte. rewrite last_snoc, bool_decide_true by done. rewrite butlast_snoc.
  destruct (Nat.eqb_spec (length h) 0) as [|Hne]; [done|].
  destruct (Nat.ltb_spec 6 (length h)); [done|].
  rewrite radix_of_hexdigits; [|by destruct h|done].
  destruct (hex_digits 0 h) as [c|] eqn:Hc; [|done].
  destruct (Z.ltb_spec 0x10FFFF c); [done|].
  destruct ((0xD800 <=? c)%Z && (c <=? 0xDFFF)%Z) eqn:Hs; [done|]. intros _.
  exists h, c. split_and!; try done; [lia|]. apply hex_digits_nonneg in Hc; [|done].
  unfold is_scalar. lia.
Qed.

Lemma unicode_escape_open h :
  Forall (λ b, is_ascii_hexdigit b = true) h →
  unicode_escape_error (bs "\u{" ++ h) = Some MalformedUnicodeEscape.
Proof.
  intros Hall. unfold unicode_escape_error. rewrite strip_unicode_prefix. cbn [mbind option_bind].
  unfold strip_suffix_byte. rewrite bool_decide_false; [done|]. intros Hl.
  apply last_Some in Hl as [h' ->]. apply Forall_app in Hall as [_ Hall].
  apply Forall_cons_1 in Hall as [Hb _]. by apply hex_not_sign in Hb as (_ & _ & ?).
Qed.

Lemma unicode_escape_error_kind s e :
  unicode_escape_error s = Some e → token_wf (Invalid e) s.
Proof.
  intros H. assert (e = MalformedUnicodeEscape ∨ e = EmptyUnicodeEscape ∨
    e = UnicodeOutOfRange ∨ e = UnicodeSurrogate) as He.
  { revert H. unfold unicode_escape_error. repeat case_match; intros; simplify_eq; auto. }
  by destruct He as [->|[->|[->| ->]]].
Qed.

Lemma is_ascii_hexdigit_ascii b : is_ascii_hexdigit b = true → (0 ≤ b < 0x80)%Z.
Proof. unfold is_ascii_hexdigit, is_ascii_digit. lia. Qed.

Lemma escape_text_wf h s :
  Forall (λ b, is_ascii_hexdigit b = true) h → (s = bs "\u{" ++ h ∨ s = bs "\u{" ++ h ++ [125%Z]) →
  token_wf (match unicode_escape_error s with None => DoubleEscape | Some e => Invalid e end) s.
Proof.
  intros Hall Hs. destruct (unicode_escape_error s) as [e|] eqn:He.
  - by apply (unicode_escape_error_kind s e).
  - destruct Hs as [->| ->]; [by rewrite unicode_escape_open in He|].
    right. by apply unicode_escape_closed.
Qed.

Lemma wp_unicode_escape s :
  ready true s → starts_with [92%Z] (rest s (position s)) = true →
  starts_with (bs "u{") (rest s (position s + 1)) = true →
  ∀ Q : bool → Lexer → Prop, (∀ s', emitted s s' → Q true s') →
  wp (advance 2;;
      while (byte_is is_ascii_hexdigit) (advance 1);;
      closing ← looking_at (bs "}");
      (if (closing : bool) then advance 1 else mret tt);;
      stop ← get_position;
      spelling ← (λ s', let* t := str_slice (lx_text s') (position s) stop in Ok (t, s'));
      push (match unicode_escape_error spelling with
            | None => DoubleEscape
            | Some e => Invalid e
            end) (position s);;
      mret true) (at_pos s (position s + 1)) Q.
Proof.
  intros Hs Hb Hu Q HQ. pose proof Hs as (Hg & _ & _).
  assert (good s (position s + 1)) as Hg1 by good_next.
  assert (good s (position s + 1 + 2)) as Hg3 by good_next.
  repeat wp_read. apply wp_while_bytes; [done|apply is_ascii_hexdigit_ascii|].
  intros p Hp Hgp Hall _. repeat wp_read. change (bs "}") with [125%Z].
  assert (∀ q, good s q → p ≤ q →
    (sub (lx_text s) (position s) q = bs "\u{" ++ sub (lx_text s) (position s + 1 + 2) p ∨
     sub (lx_text s) (position s) q = bs "\u{" ++ sub (lx_text s) (position s + 1 + 2) p ++ [125%Z]) →
    wp (stop ← get_position;
      spelling ← (λ s', let* t := str_slice (lx_text s') (position s) stop in Ok (t, s'));
      push (match unicode_escape_error spelling with
            | None => DoubleEscape
            | Some e => Invalid e
            end) (position s);;
      mret true) (at_pos s q) Q) as Hend.
  { intros q Hgq Hpq Htext. repeat wp_read. unfold wp at 1.
    change (lx_text (at_pos s q)) with (lx_text s).
    destruct Hg as [Hut Hbs]. destruct Hgq as [_ Hbq].
    rewrite str_slice_ok by (done || lia). cbn [res_bind].
    pose proof (escape_text_wf _ _ Hall Htext) as Hwf.
    apply (wp_push_plain true); try done; [lia|by destruct (unicode_escape_error _)..]. }
  assert (sub (lx_text s) (position s) p =
    bs "\u{" ++ sub (lx_text s) (position s + 1 + 2) p) as Hsub.
  { rewrite (sub_prefix_app _ _ [92%Z] 1), (sub_prefix_app _ (position s + 1) (bs "u{") 2);
      (done || lia). }
  destruct (starts_with [125%Z] (rest s p)) eqn:Hc; do 2 wp_read.
  - apply Hend; [good_next|lia|]. right. rewrite app_assoc, <- Hsub.
    rewrite <- (sub_app _ _ p) by lia. by rewrite (sub_prefix _ p [125%Z]).
  - apply Hend; [done|lia|]. by left.
Qed.

Lemma spec_double_escape : spec true lex_double_escape (λ r, starts_with [92%Z] r = false).
Proof.
  spec_start s. unfold lex_double_escape. do 2 wp_read.
  destruct (starts_with [92%Z] _) eqn:Hb; [|repeat wp_read; by rewrite at_pos_self].
  repeat wp_read. assert (good s (position s + 1)) as Hg1 by good_next.
  repeat wp_read. destruct (starts_with [13%Z; 10%Z] _) eqn:Hcrlf.
  { repeat wp_read. apply (wp_push_plain true); try done; [good_next|lia|].
    right. by apply (sub_prefix2 _ _ [92] [13; 10])%Z. }
  repeat wp_read. destruct (starts_with [10%Z] _) eqn:Hlf.
  { repeat wp_read. apply (wp_push_plain true); try done; [good_next|lia|].
    left. by apply (sub_prefix2 _ _ [92] [10])%Z. }
  do 2 wp_read. destruct (starts_with (bs "u{") _) eqn:Hu; [by apply wp_unicode_escape|].
  assert (∀ q, position s + 1 ≤ q → ∃ r, sub (lx_text s) (position s) q = bs "\" ++ r) as Hbs.
  { intros q Hq. eexists. by apply (sub_prefix_app _ _ [92%Z] 1). }
  repeat wp_read. destruct (lx_text s !! (position s + 1)) as [b|] eqn:Hx.
  - case_bool_decide as Hesc.
    + repeat wp_read. apply (wp_push_plain true); try done; [|lia|].
      * eapply good_ascii; [done|done|]. set_unfold in Hesc. lia.
      * left. exists b. split; [|done].
        apply (sub_prefix2 _ _ [92%Z] [b]); [done|by apply lookup_prefix|done|done].
    + wp_read. apply wp_advance_scalar; [done|by eapply lookup_lt_Some|].
      intros c w _ Hw Hgw. wp_read. apply (wp_push_plain true); try done; [lia|].
      apply Hbs. lia.
  - repeat wp_read. apply (wp_push_plain true); try done; [lia|]. apply Hbs. lia.
Qed.

(** ** Operators and delimiters *)

Lemma find_operator_some r sp o :
  find_operator r = Some (sp, o) →
  (sp, o) ∈ OPERATORS ∧ starts_with sp r = true ∧ ascii_text sp = true ∧ sp ≠ [].
Proof.
  unfold find_operator. intros H. apply find_some in H as [Hin Hs]. simpl in Hs.
  assert (forallb (λ e, ascii_text (fst e) && negb (str_eqb (fst e) [])) OPERATORS = true) as Hall
    by (vm_compute; done).
  rewrite forallb_forall in Hall. specialize (Hall _ Hin). simpl in Hall. bool_to_prop.
  split_and!; [by apply list_elem_of_In|done|done|]. intros ->. by rewrite (proj2 (str_eqb_eq _ _)) in *.
Qed.

Lemma delimiter_ascii b d : delimiter_of b = Some d → (0 ≤ b < 0x80)%Z.
Proof. unfold delimiter_of. intros. repeat case_match; bool_to_prop; simplify_eq; lia. Qed.

Lemma butlast_last (cs : list Context) c : last cs = Some c → butlast cs ++ [c] = cs.
Proof. intros [l ->]%last_Some. by rewrite butlast_snoc. Qed.

Lemma replay_delimiter cs d :
  is_dq (top cs) = false → (last cs = Some (Interpolation 0) → d ≠ RightBrace) →
  replay_step cs (DelimiterToken d) =
    Some (match last cs with None => cs | Some c => butlast cs ++ [note_nested d c] end).
Proof.
  unfold replay_step, top. destruct (last cs) as [c|] eqn:Hl; simpl.
  - intros Hdq H0. pose proof (butlast_last _ _ Hl) as He.
    destruct c as [| |n]; simpl in *; [by destruct d; rewrite He|done|].
    destruct d; simpl; rewrite ?He; try done; [by rewrite Nat.add_1_r|].
    destruct n as [|n]; [by destruct H0|]. simpl. by rewrite Nat.sub_0_r.
  - intros _ _. by destruct d.
Qed.

Lemma spec_close_interpolation :
  spec false close_interpolation_if_needed (λ _, True) ∧
  ∀ s, ready false s → last (contexts s) = Some (Interpolation 0) →
    lx_text s !! position s = Some 125%Z →
    wp close_interpolation_if_needed s (λ b _, b = true).
Proof.
  assert (∀ s, ready false s → last (contexts s) = Some (Interpolation 0) →
    lx_text s !! position s = Some 125%Z →
    wp close_interpolation_if_needed s (λ (b : bool) s', b = true ∧ emitted s s')) as Hclose.
  { intros s (Hg & Hlt & Hdq) Hl Hx. unfold wp.
    assert (close_interpolation_if_needed s = (start ← get_position;
      advance 1;; push (DelimiterToken RightBrace) start;; pop_context;; mret true) s) as ->.
    { unfold close_interpolation_if_needed. by rewrite Hl, Hx. }
    match goal with |- match ?m ?s with _ => _ end =>
      change (wp m s (λ (b : bool) s', b = true ∧ emitted s s')) end.
    assert (starts_with [125%Z] (rest s (position s)) = true) as Hs by by apply lookup_prefix.
    match goal with |- wp _ _ ?Q => rewrite <- (at_pos_self s) at 1 end.
    repeat wp_read. apply lx_bind, wp_push; [done|good_next|lia|].
    apply lx_bind. split; [done|].
    exists (DelimiterToken RightBrace), (position s + 1), (butlast (contexts s)).
    split; [|done]. split_and!; [good_next|lia| |].
    - exists 125%Z. split; [by apply sub_prefix|done].
    - unfold replay_step, top. by rewrite Hl. }
  split.
  - intros s Hs. unfold wp. destruct (last (contexts s)) as [[| |[|n]]|] eqn:Hl;
      try by (unfold close_interpolation_if_needed; rewrite Hl).
    destruct (lx_text s !! position s) as [b|] eqn:Hx;
      [|unfold close_interpolation_if_needed; by rewrite Hl, Hx].
    destruct (decide (b = 125%Z)) as [->|Hne].
    + specialize (Hclose s Hs Hl Hx). unfold wp in Hclose.
      destruct (close_interpolation_if_needed s) as [[[] s']| |]; naive_solver.
    + unfold close_interpolation_if_needed. rewrite Hl, Hx.
      repeat case_match; simplify_eq; done.
  - intros s Hs Hl Hx. eapply lx_mono; [by apply Hclose|]. by intros b s' [-> _].
Qed.

Lemma wp_and {A} (m : Lx A) s (Q1 Q2 : A → Lexer → Prop) :
  wp m s Q1 → wp m s Q2 → wp m s (λ a s', Q1 a s' ∧ Q2 a s').
Proof. unfold wp. by destruct (m s) as [[a s']| |]. Qed.

Lemma wp_close_interpolation s :
  ready false s →
  wp close_interpolation_if_needed s (λ (b : bool) s', if b then emitted s s' else
    s' = s ∧ (last (contexts s) = Some (Interpolation 0) → lx_text s !! position s ≠ Some 125%Z)).
Proof.
  intros Hs. destruct spec_close_interpolation as [H1 H2].
  destruct (decide (last (contexts s) = Some (Interpolation 0) ∧
                    lx_text s !! position s = Some 125%Z)) as [[Hl Hx]|Hn].
  - eapply lx_mono; [apply wp_and; [by apply H1|by apply H2]|]. intros b s' [Hb ->]. done.
  - eapply lx_mono; [by apply H1|]. intros [] s'; [done|]. intros [-> _]. split; [done|].
    intros Hl Hx. by apply Hn.
Qed.

Lemma delimiter_125 b : delimiter_of b = Some RightBrace → b = 125%Z.
Proof. unfold delimiter_of. intros. repeat case_match; bool_to_prop; simplify_eq. done. Qed.

Lemma spec_operator_or_delimiter : spec false lex_operator_or_delimiter (λ _, True).
Proof.
  intros s Hs. unfold lex_operator_or_delimiter. wp_read.
  eapply lx_mono; [by apply wp_close_interpolation|]. intros [] s0; [by intros; wp_read|].
  intros [-> Hclose]. pose proof Hs as (Hg & Hlt & Hdq).
  match goal with |- wp _ _ ?Q => rewrite <- (at_pos_self s) at 1 end.
  wp_read. unfold wp at 1. change (lx_text (at_pos s (position s))) with (lx_text s).
  change (position (at_pos s (position s))) with (position s).
  rewrite slice_rest by done. cbn [res_bind].
  destruct (find_operator (rest s (position s))) as [[sp o]|] eqn:Hop.
  - apply find_operator_some in Hop as (Hin & Hsp & Ha & Hne). repeat wp_read.
    assert (0 < length sp) by (destruct sp; simpl; [done|lia]).
    apply (wp_push_plain false); try done; [|lia|].
    + by eapply good_prefix.
    + simpl. by rewrite (sub_prefix _ _ sp).
  - repeat wp_read. destruct (lx_text s !! position s) as [b|] eqn:Hx; cbn [mbind option_bind];
      [|by repeat wp_read; rewrite at_pos_self].
    destruct (delimiter_of b) as [d|] eqn:Hd; [|by repeat wp_read; rewrite at_pos_self].
    wp_read. unfold wp at 1, note_nested_interpolation.
    change (contexts (at_pos s (position s))) with (contexts s).
    set (cs := match last (contexts s) with
               | None => contexts s | Some c => butlast (contexts s) ++ [note_nested d c] end).
    assert (∃ s1, s1 = mkLexer (lx_source s) (position s) (tokens s) cs) as [s1 Hs1] by eauto.
    assert (good s1 (position s1)) as Hg1 by by subst.
    assert (good s1 (position s1 + 1)) as Hg1'.
    { subst s1. simpl. eapply (good_ascii s); [done|done|by eapply delimiter_ascii]. }
    assert (wp (start ← get_position; advance 1;; push (DelimiterToken d) start;; mret true) s1
      (λ (b : bool) s', if b then emitted s s' else s' = s ∧ True)) as Hend.
    { match goal with |- wp _ _ ?Q => rewrite <- (at_pos_self s1) at 1 end.
      repeat wp_read. apply lx_bind, wp_push; [done|done|lia|]. apply lx_ret.
      exists (DelimiterToken d), (position s + 1), cs. split; [|by subst s1].
      split_and!; [by subst s1|lia| |].
      - exists b. split; [by apply sub_one|done].
      - apply replay_delimiter; [done|]. intros Hl ->. apply delimiter_125 in Hd as ->.
        by apply Hclose. }
    subst cs. destruct (last (contexts s)); subst s1; apply Hend.
Qed.

(** ** Identifiers and numbers *)

Lemma is_identifier_continue_ascii b : is_identifier_continue b = true → (0 ≤ b < 0x80)%Z.
Proof.
  unfold is_identifier_continue, is_identifier_start, is_ascii_alphabetic, is_ascii_digit. lia.
Qed.

Lemma Forall_forallb {A} (f : A → bool) l : Forall (λ x, f x = true) l → forallb f l = true.
Proof. induction 1; simpl; [done|]. by apply andb_true_iff. Qed.

Lemma spec_identifier : spec false lex_identifier (λ _, True).
Proof.
  spec_start s. unfold lex_identifier. repeat wp_read.
  destruct (lx_text s !! position s) as [b|] eqn:Hx; [|by repeat wp_read; rewrite at_pos_self].
  destruct (is_identifier_start b) eqn:Hb; [|by repeat wp_read; rewrite at_pos_self].
  assert (is_identifier_continue b = true) as Hbc by (unfold is_identifier_continue; by rewrite Hb).
  repeat wp_read. assert (good s (position s + 1)) as Hg1.
  { eapply good_ascii; [done..|by apply is_identifier_continue_ascii]. }
  apply wp_while_bytes; [done|apply is_identifier_continue_ascii|].
  intros p Hp Hgp Hall _. repeat wp_read. unfold wp at 1.
  change (lx_text (at_pos s p)) with (lx_text s).
  rewrite str_slice_ok by (lia || apply Hg || apply Hgp). cbn [res_bind].
  assert (sub (lx_text s) (position s) p = b :: sub (lx_text s) (position s + 1) p) as Hsub.
  { apply (sub_prefix_app _ _ [b] 1); [by apply lookup_prefix|done|lia]. }
  set (t := sub (lx_text s) (position s) p) in *.
  apply (wp_push_plain false); try done; [lia|by destruct (keyword t)..|].
  fold t. destruct (keyword t) as [k|] eqn:Hk; [done|]. simpl. rewrite Hsub in Hk |- *.
  unfold is_identifier. rewrite Hk, Hb, andb_true_r. cbn [forallb andb]. rewrite Hbc. simpl.
  by apply Forall_forallb.
Qed.

Lemma wp_consume_digits s f p (Q : unit → Lexer → Prop) :
  good s p → (∀ b, f b = true → (0 ≤ b < 0x80)%Z) →
  (∀ p', p ≤ p' → good s p' → digits_of f (sub (lx_text s) p p') →
     (∀ b, lx_text s !! p = Some b → f b = true →
        p < p' ∧ ∃ r, sub (lx_text s) p p' = b :: r ∧ digits_of f r) →
     Q tt (at_pos s p')) →
  wp (consume_digits f) (at_pos s p) Q.
Proof.
  intros Hg Hf HQ. apply wp_while_bytes; [done| |].
  { intros b [Hb|Hb]%orb_true_iff; [by apply Hf|bool_to_prop; lia]. }
  intros p' Hp Hgp Hall Hstop.
  assert (digits_of f (sub (lx_text s) p p')) as Hd.
  { eapply Forall_impl; [exact Hall|]. intros b [?|?]%orb_true_iff; bool_to_prop; auto. }
  apply HQ; [done..|]. intros b Hb Hfb. assert (p < p') as Hlt.
  { destruct (decide (p = p')) as [->|]; [|lia]. apply Hstop in Hb. by rewrite Hfb in Hb. }
  split; [done|]. eexists.
  rewrite (sub_prefix_app _ p [b] 1 p') in Hd |- * by (done || lia || by apply lookup_prefix).
  split; [done|]. by apply Forall_cons_1 in Hd as [_ ?].
Qed.

Lemma is_ascii_digit_ascii b : is_ascii_digit b = true → (0 ≤ b < 0x80)%Z.
Proof. unfold is_ascii_digit. lia. Qed.

(** The radix forms. *)
Lemma wp_lex_radix s f lower upper (Q : bool → Lexer → Prop) :
  ready false s → (∀ s', emitted s s' → Q true s') →
  (∀ b, f b = true → (0 ≤ b < 0x80)%Z) →
  starts_with (bs lower) (rest s (position s)) || starts_with (bs upper) (rest s (position s)) = true →
  ascii_text (bs lower) = true → ascii_text (bs upper) = true →
  2 = length (bs lower) → 2 = length (bs upper) →
  (∀ t, radix_ok lower upper f t → integer_ok t) →
  wp (lex_radix f (position s)) (at_pos s (position s)) Q.
Proof.
  intros Hs HQ Hf Hp Ha1 Ha2 Hl1 Hl2 Hint. pose proof Hs as (Hg & _ & _).
  unfold lex_radix. repeat wp_read.
  assert (good s (position s + 2)) as Hg2.
  { apply orb_true_iff in Hp as [Hp|Hp]; by eapply good_prefix. }
  apply wp_consume_digits; [done..|]. intros p Hle Hgp Hd _.
  apply (wp_push_plain false); try done; [lia|]. apply Hint.
  eexists. split; [|exact Hd]. apply orb_true_iff in Hp as [Hp|Hp]; [left|right];
    by apply sub_prefix_app.
Qed.

(** The exponent of a decimal literal. *)
Lemma wp_exponent s p k (Q : NumberKind → Lexer → Prop) :
  good s p →
  (∀ q, p < q → good s q → exponent_ok (sub (lx_text s) p q) → Q Float (at_pos s q)) →
  Q k (at_pos s p) →
  wp (exponent ← byte_is (λ b, (b =? 101)%Z || (b =? 69)%Z) &&M exponent_has_digits;
      if (exponent : bool)
      then advance 1;;
           sign ← byte_is is_sign;
           (if (sign : bool) then advance 1 else mret tt);;
           consume_digits is_ascii_digit;; mret Float
      else mret k) (at_pos s p) Q.
Proof.
  intros Hg Hexp Hk. repeat wp_read.
  destruct (lx_text s !! p) as [e|] eqn:He; [|by wp_read].
  destruct ((e =? 101)%Z || (e =? 69)%Z) eqn:Hee; [|by wp_read].
  unfold exponent_has_digits. wp_read. apply wp_peek_is.
  set (sign := match lx_text s !! (p + 1) with Some b => is_sign b | None => false end).
  apply wp_peek_is.
  destruct (lx_text s !! (p + if sign then 2 else 1)) as [d|] eqn:Hd; [|by wp_read].
  destruct (is_ascii_digit d) eqn:Hdd; [|by wp_read].
  assert (e = 101%Z ∨ e = 69%Z) as Hecase by lia.
  assert (good s (p + 1)) as Hg1 by (eapply good_ascii; [done..|lia]).
  repeat wp_read. fold sign.
  assert (∃ sg, sub (lx_text s) (p + 1) (p + if sign then 2 else 1) = sg ∧
    (sg = [] ∨ sg = [43%Z] ∨ sg = [45%Z]) ∧ good s (p + if sign then 2 else 1)) as
    (sg & Hsg & Hsgc & Hg2).
  { destruct sign eqn:Hsign.
    - unfold sign in Hsign. destruct (lx_text s !! (p + 1)) as [b|] eqn:Hb; [|done].
      assert (b = 43%Z ∨ b = 45%Z) as Hbc by (unfold is_sign in Hsign; lia).
      exists [b]. replace (p + 2) with (p + 1 + 1) by lia. split_and!; [by apply sub_one| |].
      + destruct Hbc as [->| ->]; auto.
      + eapply good_ascii; [done..|lia].
    - exists []. split_and!; [|by left|done]. unfold sub. by rewrite Nat.sub_diag. }
  assert (wp (consume_digits is_ascii_digit;; mret Float)
    (at_pos s (p + if sign then 2 else 1)) Q) as Hend.
  { wp_read. apply wp_consume_digits; [done|apply is_ascii_digit_ascii|].
    intros q Hq Hgq Hdq Hne. destruct (Hne d Hd Hdd) as (Hlt & r & Hr & Hdr).
    wp_read. apply Hexp; [lia|done|]. exists e, sg, (d :: r). split_and!; [|done|done|].
    - rewrite (sub_prefix_app _ p [e] 1 q); [|by apply lookup_prefix|done|lia].
      simpl. f_equal. rewrite <- Hsg, <- Hr. symmetry. apply sub_app; [|done].
      destruct sign; lia.
    - by exists d, r. }
  destruct sign; wp_read; [by rewrite <- Nat.add_assoc|done].
Qed.

(** The fraction of a decimal literal. *)
Lemma wp_fraction s p (Q : NumberKind → Lexer → Prop) :
  good s p →
  (∀ q, p < q → good s q → fraction_ok (sub (lx_text s) p q) → Q Float (at_pos s q)) →
  Q Integer (at_pos s p) →
  wp (fraction ← byte_is (λ b, (b =? 46)%Z) &&M peek_is 1 is_ascii_digit;
      if (fraction : bool)
      then advance 1;; consume_digits is_ascii_digit;; mret Float else mret Integer)
    (at_pos s p) Q.
Proof.
  intros Hg HF HI. repeat wp_read.
  destruct (lx_text s !! p) as [e|] eqn:He; [|by wp_read].
  destruct (Z.eqb_spec e 46) as [->|]; [|by wp_read]. apply wp_peek_is.
  destruct (lx_text s !! (p + 1)) as [d|] eqn:Hd; [|by wp_read].
  destruct (is_ascii_digit d) eqn:Hdd; [|by wp_read]. repeat wp_read.
  assert (good s (p + 1)) as Hg1 by (eapply good_ascii; [done..|lia]).
  apply wp_consume_digits; [done|apply is_ascii_digit_ascii|]. intros q Hq Hgq _ Hne.
  destruct (Hne d Hd Hdd) as (Hlt & r & Hr & Hdr). wp_read. apply HF; [lia|done|].
  exists (d :: r). split; [|by exists d, r]. rewrite <- Hr.
  apply (sub_prefix_app _ p [46%Z] 1 q); [by apply lookup_prefix|done|lia].
Qed.

Lemma bind_assoc_wp {A B C} (m : Lx A) (k : A → Lx B) (h : B → Lx C) s Q :
  wp (mbind h (mbind k m)) s Q → wp (x ← m; y ← k x; h y) s Q.
Proof.
  unfold wp, mbind, Lx_bind. by destruct (m s) as [[a s']| |].
Qed.

Lemma spec_number : spec false lex_number (λ _, True).
Proof.
  spec_start s. unfold lex_number. repeat wp_read.
  destruct (lx_text s !! position s) as [b|] eqn:Hx; [|by repeat wp_read; rewrite at_pos_self].
  destruct (is_ascii_digit b) eqn:Hb; [|by repeat wp_read; rewrite at_pos_self].
  do 2 wp_read.
  wp_read. apply (reads_orM s _ _ _ _ (reads_looking_at s _) (reads_looking_at s _)); [done|].
  destruct (starts_with (bs "0x") _ || _) eqn:Hhex.
  { by eapply (wp_lex_radix s _ "0x" "0X"); try done; [apply is_ascii_hexdigit_ascii|
      intros; right; left]. }
  wp_read. apply (reads_orM s _ _ _ _ (reads_looking_at s _) (reads_looking_at s _)); [done|].
  destruct (starts_with (bs "0o") _ || _) eqn:Hoct.
  { eapply (wp_lex_radix s _ "0o" "0O"); try done; [unfold is_octal_digit; lia|].
    intros; right; right; by left. }
  wp_read. apply (reads_orM s _ _ _ _ (reads_looking_at s _) (reads_looking_at s _)); [done|].
  destruct (starts_with (bs "0b") _ || _) eqn:Hbin.
  { eapply (wp_lex_radix s _ "0b" "0B"); try done; [unfold is_binary_digit; lia|].
    intros; right; right; by right. }
  wp_read. apply wp_consume_digits; [done|apply is_ascii_digit_ascii|].
  intros p1 Hp1 Hg1 _ Hne. destruct (Hne b Hx Hb) as (Hlt1 & r & Hr & Hdr).
  assert (decimal_ok (sub (lx_text s) (position s) p1)) as Hint by by exists b, r.
  (* the end of the literal, after a fraction ending at [p2] *)
  assert (∀ k p2, p1 ≤ p2 → good s p2 →
    (k = Integer ∧ p2 = p1 ∨ k = Float ∧ fraction_ok (sub (lx_text s) p1 p2)) →
    wp (k ← (exponent ← byte_is (λ b, (b =? 101)%Z || (b =? 69)%Z) &&M exponent_has_digits;
             if (exponent : bool)
             then advance 1;;
                  sign ← byte_is is_sign;
                  (if (sign : bool) then advance 1 else mret tt);;
                  consume_digits is_ascii_digit;; mret Float
             else mret k);
        push (Number k) (position s);; mret true) (at_pos s p2)
      (λ (b : bool) s', if b then emitted s s' else s' = s ∧ True)) as Hend.
  { intros k p2 Hp2 Hg2 Hk.
    assert (∀ q, sub (lx_text s) (position s) q =
      sub (lx_text s) (position s) p1 ++ sub (lx_text s) p1 p2 ++ sub (lx_text s) p2 q ∨
      q < p2) as Hsplit.
    { intros q. destruct (decide (p2 ≤ q)); [left|right; lia]. by rewrite !sub_app by lia. }
    apply lx_bind, wp_exponent; [done| |].
    - intros q Hq Hgq He. apply (wp_push_plain false); try done; [lia|].
      destruct (Hsplit q) as [Hs'|]; [|lia]. eexists _, _, _. split_and!; [exact Hs'|done| |..].
      + right. by destruct He as (? & ? & ? & -> & _).
      + destruct Hk as [[_ ->]|[_ Hf]]; [left; unfold sub; by rewrite Nat.sub_diag|by right].
      + by right.
    - apply (wp_push_plain false); try done; [lia|].
      destruct Hk as [[-> ->]|[-> Hf]]; [by left|].
      destruct (Hsplit p2) as [Hs'|]; [|lia]. exists (sub (lx_text s) (position s) p1),
        (sub (lx_text s) p1 p2), []. split_and!; [|done| |by right|by left].
      + rewrite Hs'. do 2 f_equal. unfold sub. by rewrite Nat.sub_diag.
      + left. by destruct Hf as (? & -> & _). }
  apply bind_assoc_wp, lx_bind, wp_fraction; [done| |].
  - intros q Hq Hgq Hf. apply bind_assoc_wp, Hend; [lia|done|by right].
  - apply bind_assoc_wp, Hend; [lia|done|by left].
Qed.

(** ** Text *)

Lemma wp_push_last dq s k p (Q : unit → Lexer → Prop) :
  ready dq s → (∀ s', emitted s s' → Q tt s') → good s p → position s < p →
  plain_kind k = true → (if dq then string_kind k else source_kind k) = true →
  token_wf k (sub (lx_text s) (position s) p) →
  wp (push k (position s)) (at_pos s p) Q.
Proof.
  intros (Hg & _ & Hdq) HQ Hp Hlt Hk Hd Hwf. apply wp_push; [done|done|lia|].
  apply HQ. exists k, p, (contexts s). split; [|done].
  split_and!; [done|done|done|]. apply replay_plain; [done|by rewrite Hdq].
Qed.

Lemma wp_word_text s :
  ready false s → wp lex_word_text s (λ _ s', emitted s s').
Proof.
  intros Hs. pose proof Hs as (Hg & Hlt & Hdq).
  match goal with |- wp _ _ ?Q => rewrite <- (at_pos_self s) at 1 end.
  unfold lex_word_text. do 3 wp_read.
  eapply (wp_while_scalars s _ _ (λ _, True)); [done|auto 10 with reads|..].
  - intros q Hq. cbv beta in Hq. bool_to_prop. by split.
  - done.
  - intros p Hp Hgp _ _. do 3 wp_read. destruct (Nat.eqb_spec p (position s)) as [->|Hne].
    + apply wp_advance_scalar; [done..|]. intros c w _ Hw Hgw.
      apply (wp_push_last false); try done. lia.
    + wp_read. apply (wp_push_last false); try done. lia.
Qed.

Lemma wp_double_quoted s :
  ready true s → wp lex_double_quoted s (λ _ s', emitted s s').
Proof.
  intros Hs. pose proof Hs as (Hg & Hlt & Hdq).
  match goal with |- wp _ _ ?Q => rewrite <- (at_pos_self s) at 1 end.
  unfold lex_double_quoted. do 2 wp_read. destruct (starts_with [34%Z] _) eqn:Hquote.
  { repeat wp_read. apply lx_bind, wp_push; [done|good_next|lia|].
    exists DoubleQuoteEnd, (position s + 1), (butlast (contexts s)). split; [|done].
    split_and!; [good_next|lia|by apply sub_prefix|].
    unfold replay_step. by destruct (top (contexts s)). }
  wp_read. rewrite at_pos_self.
  eapply lx_mono; [by apply (spec_orM true _ _ _ _
    (spec_orM true _ _ _ _ (spec_invalid_source_character true) spec_double_escape)
    spec_double_quoted_brace)|].
  intros [] s'; [intros He; wp_read; done|]. intros (-> & ((Hnul & Hcr) & Hbs) & Hob & Hcb).
  match goal with |- wp _ _ ?Q => rewrite <- (at_pos_self s) at 1 end.
  change (bs "{") with [123%Z]. change (bs "}") with [125%Z]. do 3 wp_read.
  eapply (wp_while_scalars s _ _ (λ b, b ∉ [34; 92; 123; 125; 0]%Z)); [done|auto 10 with reads|..].
  - intros q Hq. cbv beta in Hq. bool_to_prop. split; [done|]. intros b Hb Hin.
    assert (∀ x, starts_with [x] (rest s q) = false → b ≠ x) as Hx.
    { intros x Hfx ->. by apply prefix1_false in Hfx. }
    assert (b ≠ 34 ∧ b ≠ 92 ∧ b ≠ 123 ∧ b ≠ 125 ∧ b ≠ 0)%Z by (split_and!; by apply Hx).
    set_unfold in Hin. lia.
  - unfold is_cont. intros b Hb Hin. set_unfold in Hin. lia.
  - intros p Hp Hgp Hall Hstop. apply (wp_push_last true); try done.
    destruct (decide (p = position s)) as [->|]; [|lia]. cbv beta in Hstop.
    unfold lone_cr in Hstop.
    rewrite (proj2 (Nat.ltb_lt _ _) Hlt), Hquote, Hbs, Hob, Hcb, Hnul, Hcr in Hstop. done.
Qed.

Create HintDb lexspec.
#[export] Hint Resolve spec_orM spec_invalid_source_character spec_horizontal_trivia
  spec_newline spec_bare_escape spec_comment spec_single_quoted spec_double_quote_start
  spec_removed_dollar_syntax spec_operator_or_delimiter spec_identifier spec_number : lexspec.

Lemma wp_normal s : ready false s → wp lex_normal s (λ _ s', emitted s s').
Proof.
  intros Hs. unfold lex_normal. wp_read.
  match goal with |- wp ?chain _ _ =>
    assert (spec false chain (λ _, True)) as Hchain
      by (eapply spec_weaken; [eauto 20 with lexspec|done]) end.
  eapply lx_mono; [by apply Hchain|].
  intros [] s'; [intros He; wp_read; done|]. intros [-> _]. by apply wp_word_text.
Qed.

Lemma wp_step s :
  good s (position s) → position s < length (lx_text s) →
  wp lex_step s (λ _ s', emitted s s').
Proof.
  intros Hg Hlt. unfold wp, lex_step. fold (top (contexts s)).
  destruct (top (contexts s)) eqn:Ht.
  - apply wp_normal. split_and!; [done..|by rewrite Ht].
  - apply wp_double_quoted. split_and!; [done..|by rewrite Ht].
  - apply wp_normal. split_and!; [done..|by rewrite Ht].
Qed.

(** ** The token stream *)

(** [tiling f a ts b]: the tokens are consecutive nonempty spans of [f] from
    byte [a] to byte [b], each with the text its kind promises. *)
Fixpoint tiling (f : SourceFile) (a : nat) (ts : list Token) (b : nat) : Prop :=
  match ts with
  | [] => a = b
  | t :: ts =>
    let e := span_end (token_span t) in
    token_span t = mkSpan (source_id f) a e ∧ a < e ∧
    is_char_boundary (source_text f) e = true ∧
    token_wf (kind t) (sub (source_text f) a e) ∧ tiling f e ts b
  end.

Lemma tiling_snoc f a ts b k e :
  tiling f a ts b → b < e → is_char_boundary (source_text f) e = true →
  token_wf k (sub (source_text f) b e) →
  tiling f a (ts ++ [mkToken k (mkSpan (source_id f) b e)]) e.
Proof.
  revert a. induction ts as [|t ts IH]; intros a; simpl.
  - intros ->. intros. by split_and!.
  - intros (? & ? & ? & ? & ?) ???. split_and!; auto.
Qed.

Lemma tiling_le f a ts b : tiling f a ts b → a ≤ b.
Proof.
  revert a. induction ts as [|t ts IH]; simpl; intros a; [lia|].
  intros (_ & ? & _ & _ & ?%IH). lia.
Qed.

(** What holds of the scanner between steps. *)
Definition lexed (f : SourceFile) (s : Lexer) : Prop :=
  lx_source s = f ∧ is_char_boundary (source_text f) (position s) = true ∧
  tiling f 0 (tokens s) (position s) ∧
  replay [Normal] (kind <$> tokens s) = Some (contexts s).

Lemma lexed_start f : lexed f (Lexer_new f).
Proof. done. Qed.

Lemma lexed_step f s s' : lexed f s → emitted s s' → lexed f s' ∧ position s < position s'.
Proof.
  intros (<- & Hb & Ht & Hr) (k & p & cs & ((Hu & Hbp) & Hlt & Hwf & Hcs) & ->).
  split; [|done]. split_and!; [done|done|by apply tiling_snoc|].
  simpl. rewrite fmap_app, replay_app, Hr. simpl. by rewrite Hcs.
Qed.

Lemma run_total f c fuel polls s :
  utf8 (source_text f) → lexed f s → length (lx_text s) - position s < fuel →
  (∃ ts cs, run_with_control fuel c polls s = Ok (Some ts) ∧
     tiling f 0 ts (source_len f) ∧ replay [Normal] (kind <$> ts) = Some cs) ∨
  (∃ n, polls ≤ n ∧ c n = true ∧ run_with_control fuel c polls s = Ok None).
Proof.
  intros Hu. revert polls s. induction fuel as [|fuel IH]; intros polls s Hl Hf; [lia|].
  cbn [run_with_control]. pose proof Hl as (Hsrc & Hb & Ht & Hr).
  assert (lx_text s = source_text f) as Htext by (unfold lx_text; by rewrite Hsrc).
  destruct (Nat.ltb_spec (position s) (length (lx_text s))) as [Hlt|Hge].
  - destruct (c polls) eqn:Hc; [right; by exists polls|]. cbv zeta.
    pose proof (wp_step s) as Hs. unfold good in Hs. rewrite Htext in Hs, Hlt.
    specialize (Hs (conj Hu Hb) Hlt). unfold wp in Hs.
    destruct (lex_step s) as [[[] s']| |]; [|done..]. cbn [res_bind].
    destruct (lexed_step _ _ _ Hl Hs) as [Hl' Hlt'].
    rewrite (proj2 (Nat.ltb_lt _ _) Hlt').
    destruct (IH (S polls) s' Hl') as [(ts & cs & H)|(n & Hn & H)].
    + destruct Hl' as (Hsrc' & _). unfold lx_text. rewrite Hsrc'.
      rewrite Htext in Hf. lia.
    + left. eauto.
    + right. exists n. split; [lia|done].
  - assert (position s = source_len f) as Hp.
    { apply boundary_le in Hb. unfold source_len. rewrite Htext in Hge. lia. }
    destruct (c polls) eqn:Hc; [right; by exists polls|].
    left. exists (tokens s), (contexts s). by rewrite <- Hp.
Qed.

(** ** Theorems *)

Lemma lex_total f :
  utf8 (source_text f) →
  ∃ ts cs, lex_opaal f = Ok ts ∧ tiling f 0 ts (source_len f) ∧
    replay [Normal] (kind <$> ts) = Some cs.
Proof.
  intros Hu. unfold lex_opaal, lex_opaal_with_control.
  destruct (run_total f (λ _, false) (S (source_len f)) 0 (Lexer_new f) Hu (lexed_start f))
    as [(ts & cs & Hrun & Ht)|(n & _ & Hn & _)]; [|exists ts, cs; by rewrite Hrun|done].
  unfold lx_text, source_len. simpl. lia.
Qed.

Lemma slice_bounds f a e :
  source_wf f → is_char_boundary (source_text f) a = true →
  is_char_boundary (source_text f) e = true → a ≤ e →
  slice f (mkSpan (source_id f) a e) = Ok (sub (source_text f) a e).
Proof.
  intros Hf Ha He Hle. pose proof (slice_total f (mkSpan (source_id f) a e) Hf) as H.
  assert (validate_span f (mkSpan (source_id f) a e) = Ok tt) as Hv; [|rewrite Hv in H; apply H].
  unfold validate_span, source_len. simpl. rewrite Z.eqb_refl. simpl.
  pose proof (boundary_le _ _ He). rewrite !(proj2 (Nat.ltb_ge _ _)) by lia.
  rewrite (proj2 (validate_offset_ok _ _) Ha). simpl. by apply validate_offset_ok.
Qed.

Lemma tiling_texts f a ts b :
  source_wf f → is_char_boundary (source_text f) a = true → tiling f a ts b →
  ∃ xs, Forall2 (λ t x, token_text t f = Ok x ∧ token_wf (kind t) x ∧ x ≠ []) ts xs ∧
    mjoin xs = sub (source_text f) a b.
Proof.
  intros Hf. revert a. induction ts as [|t ts IH]; intros a Ha; simpl.
  - intros ->. exists []. split; [constructor|]. unfold sub. by rewrite Nat.sub_diag.
  - intros (Hs & Hlt & Hb & Hwf & Ht). destruct (IH _ Hb Ht) as (xs & Hxs & Hj).
    exists (sub (source_text f) a (span_end (token_span t)) :: xs). split.
    + constructor; [|done]. split_and!; [|done|].
      * unfold token_text. rewrite Hs. apply slice_bounds; [done..|simpl; lia].
      * intros Hnil%(f_equal length). rewrite length_sub in Hnil by by apply boundary_le.
        cbn in Hnil. lia.
    + simpl. rewrite Hj. apply sub_app; [lia|by eapply tiling_le].
Qed.

Lemma tiling_adjacent f a ts b i t u :
  tiling f a ts b → ts !! i = Some t → ts !! S i = Some u → is_adjacent_to t u = true.
Proof.
  revert a i. induction ts as [|v ts IH]; intros a i; [done|].
  intros (Hs & _ & _ & _ & Ht) Hi Hsi. destruct i as [|i]; [|by eapply IH].
  simpl in *. injection Hi as ->. destruct ts as [|w ts]; [done|]. injection Hsi as ->.
  destruct Ht as (Hu & _). unfold is_adjacent_to. rewrite Hs, Hu. simpl.
  by rewrite Z.eqb_refl, Nat.eqb_refl.
Qed.

(** C31: [lex_opaal] returns on every source text, without a panic; its tokens are
    nonempty, adjacent, and their texts concatenate to the source. *)
Theorem lex_lossless (f : SourceFile) :
  source_wf f →
  ∃ ts xs, lex_opaal f = Ok ts ∧
    Forall2 (λ t x, token_text t f = Ok x ∧ x ≠ []) ts xs ∧ mjoin xs = source_text f ∧
    (∀ i t u, ts !! i = Some t → ts !! S i = Some u → is_adjacent_to t u = true).
Proof.
  intros Hf. destruct (lex_total f) as (ts & cs & Hl & Ht & _); [apply Hf|].
  destruct (tiling_texts f 0 ts _ Hf eq_refl Ht) as (xs & Hxs & Hj).
  exists ts, xs. split_and!; [done| | |intros; by eapply tiling_adjacent].
  - eapply Forall2_impl; [exact Hxs|]. naive_solver.
  - rewrite Hj. apply sub_full.
Qed.

(** Each token's text has the form its kind promises. *)
Theorem lex_token_texts (f : SourceFile) (ts : list Token) :
  source_wf f → lex_opaal f = Ok ts →
  Forall (λ t, ∃ x, token_text t f = Ok x ∧ token_wf (kind t) x) ts.
Proof.
  intros Hf Hl. destruct (lex_total f) as (ts' & cs & Hl' & Ht & _); [apply Hf|].
  rewrite Hl in Hl'. injection Hl' as <-.
  destruct (tiling_texts f 0 ts _ Hf eq_refl Ht) as (xs & Hxs & _).
  clear Hl Ht. induction Hxs as [|t x ts xs Hx _ IH]; constructor; naive_solver.
Qed.

(** Quotes, interpolations and the braces inside them nest: replaying the
    token kinds never meets a kind out of place. *)
Theorem lex_nesting (f : SourceFile) (ts : list Token) :
  source_wf f → lex_opaal f = Ok ts → is_Some (replay [Normal] (kind <$> ts)).
Proof.
  intros Hf Hl. destruct (lex_total f) as (ts' & cs & Hl' & _ & Hr); [apply Hf|].
  rewrite Hl in Hl'. injection Hl' as <-. by exists cs.
Qed.

Lemma run_cancelled f c fuel polls s :
  utf8 (source_text f) → lexed f s → length (lx_text s) - position s < fuel →
  ∃ more, run_with_control fuel (λ _, false) polls s = Ok (Some (tokens s ++ more)) ∧
    run_with_control fuel c polls s =
      Ok (if existsb c (seq polls (S (length more))) then None else Some (tokens s ++ more)).
Proof.
  intros Hu. revert polls s. induction fuel as [|fuel IH]; intros polls s Hl Hf; [lia|].
  cbn [run_with_control]. pose proof Hl as (Hsrc & Hb & Ht & Hr).
  destruct (Nat.ltb_spec (position s) (length (lx_text s))) as [Hlt|Hge].
  - assert (wp lex_step s (λ _ s', emitted s s')) as Hs.
    { apply wp_step; [|done]. unfold good, lx_text. by rewrite Hsrc. }
    unfold wp in Hs. cbv zeta. destruct (lex_step s) as [[[] s']| |]; [|done..].
    cbn [res_bind]. destruct (lexed_step _ _ _ Hl Hs) as [Hl' Hlt'].
    rewrite (proj2 (Nat.ltb_lt _ _) Hlt').
    destruct (IH (S polls) s' Hl') as (more & H1 & H2).
    { destruct Hl' as (Hsrc' & _). unfold lx_text in *. rewrite Hsrc'. rewrite Hsrc in Hf, Hlt. lia. }
    destruct Hs as (k & p & cs & _ & ->). cbn [tokens] in *. rewrite <- app_assoc in H1, H2.
    eexists. split; [exact H1|]. rewrite H2. cbn [length seq existsb app].
    by destruct (c polls).
  - exists []. rewrite app_nil_r. split; [done|]. simpl. by destruct (c polls).
Qed.

(** Cancellation is polled before each token and once at the end, and it is
    the only thing a callback changes: the result is [None] exactly when one
    of those polls answers [true], and the tokens of [lex_opaal] otherwise. *)
Theorem lex_cancellation (f : SourceFile) (is_cancelled : nat → bool) :
  source_wf f →
  ∃ ts, lex_opaal f = Ok ts ∧
    lex_opaal_with_control f is_cancelled =
      Ok (if existsb is_cancelled (seq 0 (S (length ts))) then None else Some ts).
Proof.
  intros [Hu _].
  destruct (run_cancelled f is_cancelled (S (source_len f)) 0 (Lexer_new f) Hu (lexed_start f))
    as (more & H1 & H2); [unfold lx_text, source_len; simpl; lia|].
  exists more. unfold lex_opaal, lex_opaal_with_control. by rewrite H1, H2.
Qed.

Lemma operators_sorted :
  StronglySorted (λ e1 e2 : str * Operator, length e2.1 ≤ length e1.1) OPERATORS.
Proof. repeat constructor. Qed.

(** The table of operators is tried longest spelling first: the operator
    found is the longest one the input begins with. *)
Theorem find_operator_longest (r sp : str) (o : Operator) :
  find_operator r = Some (sp, o) →
  starts_with sp r = true ∧ (sp, o) ∈ OPERATORS ∧
  ∀ sp' o', (sp', o') ∈ OPERATORS → starts_with sp' r = true → length sp' ≤ length sp.
Proof.
  intros H. pose proof (find_operator_some _ _ _ H) as (Hin & Hs & _).
  split_and!; [done..|]. intros sp' o' Hin' Hs'.
  pose proof operators_sorted as Hsorted. unfold find_operator in H. clear Hin.
  revert H Hin'.
  induction Hsorted as [|e ops _ IH Hall]; intros Hf Hin'; [done|]. cbn [find] in Hf.
  destruct (starts_with e.1 r) eqn:He.
  - injection Hf as ->. apply elem_of_cons in Hin' as [[= -> ->]|Hin']; [done|].
    rewrite List.Forall_forall in Hall. by apply (Hall (sp', o')), list_elem_of_In.
  - apply elem_of_cons in Hin' as [<-|Hin']; [simpl in He; congruence|]. by apply IH.
Qed.

(** A name lexes to one token: identifier or keyword. *)
Definition name_like (text : str) : bool :=
  match text with
  | [] => false
  | b :: _ => is_identifier_start b && forallb is_identifier_continue text
  end.

Lemma forallb_stop (f : u8 → bool) t p :
  forallb f t = true → p ≤ length t → (∀ b, t !! p = Some b → f b = false) → p = length t.
Proof.
  intros Hall Hp Hstop. destruct (t !! p) as [b|] eqn:Hb.
  - specialize (Hstop b eq_refl). rewrite forallb_forall in Hall.
    apply list_elem_of_lookup_2, list_elem_of_In, Hall in Hb. congruence.
  - apply lookup_ge_None in Hb. lia.
Qed.

Lemma operator_heads sp o :
  (sp, o) ∈ OPERATORS →
  match sp with c :: _ => negb (is_identifier_start c) = true | [] => True end.
Proof.
  intros Hin%list_elem_of_In.
  assert (forallb (λ e, match fst e with c :: _ => negb (is_identifier_start c) | [] => true end)
    OPERATORS = true) as Hall by (vm_compute; done).
  rewrite forallb_forall in Hall. specialize (Hall _ Hin). by destruct sp.
Qed.

Lemma identifier_not_delimiter b : is_identifier_start b = true → delimiter_of b = None.
Proof.
  unfold is_identifier_start, is_ascii_alphabetic, delimiter_of. intros Hb.
  repeat case_match; bool_to_prop; subst; done.
Qed.

Lemma wp_name_step s (Q : unit → Lexer → Prop) :
  good s (position s) → position s = 0 → contexts s = [Normal] → name_like (lx_text s) = true →
  Q tt (mkLexer (lx_source s) (length (lx_text s))
    (tokens s ++ [mkToken (match keyword (lx_text s) with
                           | None => Identifier | Some k => KeywordToken k end)
                    (mkSpan (source_id (lx_source s)) 0 (length (lx_text s)))]) (contexts s)) →
  wp lex_step s Q.
Proof.
  intros Hg Hp Hcs Hname HQ.
  assert (lex_step s = lex_normal s) as Hstep by (unfold lex_step; by rewrite Hcs).
  unfold wp. rewrite Hstep. clear Hstep. change (wp lex_normal s Q).
  rewrite Hp in Hg. rewrite <- (at_pos_self s), Hp. unfold name_like in Hname.
  destruct (lx_text s) as [|b t] eqn:Htext; [done|].
  apply andb_true_iff in Hname as [Hb Hall].
  assert (lx_text s !! 0 = Some b) as Hx by by rewrite Htext.
  assert (∀ c sp, negb (is_identifier_start c) = true →
    starts_with (c :: sp) (rest s 0) = false) as Hno.
  { intros c sp Hc. rewrite Htext. simpl. destruct (Z.eqb_spec c b) as [->|]; [|done].
    by rewrite Hb in Hc. }
  assert (∀ f : u8 → bool, (∀ x, is_identifier_start x = true → f x = false) →
    match lx_text s !! 0 with Some b => f b | None => false end = false) as Hbyte.
  { intros f Hf. rewrite Hx. by apply Hf. }
  assert (find_operator (rest s 0) = None) as Hop.
  { destruct (find_operator _) as [[sp o]|] eqn:E; [|done].
    apply find_operator_some in E as (Hin & Hs & _ & Hne). destruct sp as [|c sp]; [done|].
    rewrite Hno in Hs; [done|]. by apply (operator_heads (c :: sp) o) in Hin. }
  assert (delimiter_of b = None) as Hdel by by apply identifier_not_delimiter.
  unfold lex_normal, lex_invalid_source_character, lex_horizontal_trivia, lex_newline,
    lex_bare_escape, lex_comment, lex_single_quoted, lex_double_quote_start,
    lex_removed_dollar_syntax.
  change (bs "#") with [35%Z]. change (bs "'") with [39%Z]. change (bs "$") with [36%Z].
  repeat (wp_read; unfold lone_cr; rewrite ?Hno, ?Hbyte by
    (done || (unfold is_identifier_start, is_ascii_alphabetic, is_blank; lia)); cbn [andb negb]; cbv iota).
  unfold lex_operator_or_delimiter. wp_read. unfold wp at 1, close_interpolation_if_needed.
  change (contexts (at_pos s 0)) with (contexts s). rewrite Hcs. cbn [last].
  wp_read. unfold wp at 1. change (lx_text (at_pos s 0)) with (lx_text s).
  change (position (at_pos s 0)) with 0. rewrite slice_rest by done. cbn [res_bind].
  rewrite Hop. repeat wp_read. rewrite Hx. cbn [mbind option_bind]. rewrite Hdel. wp_read.
  unfold lex_identifier. repeat wp_read. rewrite Hx, Hb. repeat wp_read.
  assert (is_identifier_continue b = true) as Hbc by (unfold is_identifier_continue; by rewrite Hb).
  apply wp_while_bytes;
    [eapply good_ascii; [done..|by apply is_identifier_continue_ascii]
    |apply is_identifier_continue_ascii|].
  intros p Hp' Hgp _ Hstop. rewrite <- Htext in *.
  apply (forallb_stop _ _ _ Hall) in Hstop as ->; [|apply boundary_le, Hgp].
  repeat wp_read. unfold wp at 1. change (lx_text (at_pos s (length (lx_text s)))) with (lx_text s).
  rewrite str_slice_ok by (lia || apply Hg || apply Hgp). cbn [res_bind]. rewrite sub_full.
  apply lx_bind, wp_push; [done|done|lia|]. wp_read. wp_read. exact HQ.
Qed.

(** A text of identifier bytes is one token: a keyword or an identifier. *)
Lemma lex_name id name text :
  name_like text = true →
  lex_opaal (SourceFile_new id name text) =
  Ok [mkToken (match keyword text with None => Identifier | Some k => KeywordToken k end)
        (mkSpan id 0 (length text))].
Proof.
  intros Hn. assert (utf8 text) as Hu.
  { apply ascii_utf8. unfold name_like in Hn. destruct text as [|b t]; [done|].
    apply andb_true_iff in Hn as [_ Hall]. apply Forall_forall. intros x Hx.
    rewrite forallb_forall in Hall.
    apply is_identifier_continue_ascii, Hall. by apply list_elem_of_In. }
  assert (0 < length text) as Hpos by (destruct text; simpl; [done|lia]).
  set (f := SourceFile_new id name text).
  unfold lex_opaal, lex_opaal_with_control. change (source_len f) with (length text).
  cbn [run_with_control].
  change (lx_text (Lexer_new f)) with text. change (position (Lexer_new f)) with 0.
  rewrite (proj2 (Nat.ltb_lt _ _) Hpos). cbv zeta iota.
  pose proof (wp_name_step (Lexer_new f) (λ _ s', s' = mkLexer f (length text)
    [mkToken (match keyword text with None => Identifier | Some k => KeywordToken k end)
        (mkSpan id 0 (length text))] [Normal])) as Hs.
  specialize (Hs (conj Hu eq_refl) eq_refl eq_refl Hn eq_refl). unfold wp in Hs.
  destruct (lex_step (Lexer_new f)) as [[[] s']| |]; [|done..]. subst s'. cbn [res_bind position].
  rewrite (proj2 (Nat.ltb_lt _ _) Hpos).
  destruct (length text) as [|n] eqn:Hl; [lia|]. cbn [run_with_control position].
  unfold lx_text. simpl source_text. cbn [lx_source]. rewrite Hl, Nat.ltb_irrefl. done.
Qed.

(** [is_identifier] accepts exactly the texts that lex to one identifier, so
    a name the tools accept is read back as that name. *)
Theorem is_identifier_lexes (id : SourceId) (name text : str) :
  utf8 text →
  is_identifier text = true ↔
  lex_opaal (SourceFile_new id name text) =
    Ok [mkToken Identifier (mkSpan id 0 (length text))].
Proof.
  intros Hu. split.
  - unfold is_identifier. intros Hi. rewrite lex_name.
    + destruct text; [done|]. bool_to_prop. by destruct (keyword _).
    + destruct text; [done|]. by apply andb_true_iff in Hi as [? _].
  - intros Hl. pose proof (SourceFile_new_wf id name text Hu) as Hf.
    destruct (lex_total (SourceFile_new id name text) Hu) as (ts & cs & Hl' & Ht & _). rewrite Hl in Hl'.
    injection Hl' as <-. destruct Ht as (_ & _ & _ & Hwf & _). simpl in Hwf.
    by rewrite sub_full in Hwf.
Qed.

(** ** Witnesses: a definition with an interpolated string and a comment *)

Definition sample_source : SourceFile :=
  SourceFile_new 7%Z (bs "s.opaal")
    (bs "let x = " ++ [34%Z] ++ bs "a{f(1.5)}" ++ [34; 10]%Z ++ bs "## done" ++ [195; 169]%Z).

Definition sample_tokens : list Token :=
  match lex_opaal sample_source with Ok ts => ts | _ => [] end.

Lemma sample_source_wf : source_wf sample_source.
Proof. apply SourceFile_new_wf, utf8b_spec. vm_compute. done. Defined.

Lemma sample_lexes : lex_opaal sample_source = Ok sample_tokens.
Proof. vm_compute. done. Defined.

Lemma lex_lossless_witness :
  source_wf sample_source ∧
  ∃ ts xs, lex_opaal sample_source = Ok ts ∧
    Forall2 (λ t x, token_text t sample_source = Ok x ∧ x ≠ []) ts xs ∧
    mjoin xs = source_text sample_source ∧
    (∀ i t u, ts !! i = Some t → ts !! S i = Some u → is_adjacent_to t u = true).
Proof. split; [apply sample_source_wf|]. apply (lex_lossless sample_source sample_source_wf). Defined.

Lemma lex_token_texts_witness :
  length sample_tokens = 17 ∧
  Forall (λ t, ∃ x, token_text t sample_source = Ok x ∧ token_wf (kind t) x) sample_tokens.
Proof.
  split; [vm_compute; done|].
  apply (lex_token_texts sample_source sample_tokens sample_source_wf sample_lexes).
Defined.

Lemma lex_nesting_witness : is_Some (replay [Normal] (kind <$> sample_tokens)).
Proof. apply (lex_nesting sample_source sample_tokens sample_source_wf sample_lexes). Defined.

Lemma lex_cancellation_witness :
  source_wf sample_source ∧
  ∃ ts, lex_opaal sample_source = Ok ts ∧
    lex_opaal_with_control sample_source (λ n, n =? 4) =
      Ok (if existsb (λ n, n =? 4) (seq 0 (S (length ts))) then None else Some ts).
Proof.
  split; [apply sample_source_wf|].
  apply (lex_cancellation sample_source (λ n, n =? 4) sample_source_wf).
Defined.

Lemma find_operator_longest_witness :
  find_operator (bs "..=5") = Some (bs "..=", RangeInclusive) ∧
  ∀ sp' o', (sp', o') ∈ OPERATORS → starts_with sp' (bs "..=5") = true → length sp' ≤ 3.
Proof.
  split; [done|]. apply (find_operator_longest (bs "..=5") (bs "..=") RangeInclusive). done.
Defined.

Lemma is_identifier_lexes_witness :
  is_identifier (bs "_tail9") = true ∧
  lex_opaal (SourceFile_new 1%Z (bs "n") (bs "_tail9")) =
    Ok [mkToken Identifier (mkSpan 1%Z 0 6)].
Proof.
  split; [done|]. apply (is_identifier_lexes 1%Z (bs "n") (bs "_tail9")); [|done].
  apply utf8b_spec. done.
Defined.
