(* ===== verification/Diagnostic.v ===== *)
(** * Diagnostics and structural classification

    [opaal-syntax/src/diagnostic.rs] (structured diagnostics and their plain
    text rendering) and [opaal-syntax/src/classification.rs] (whether a token
    stream is complete, needs more input or is invalid, before parsing). *)
From S2P Require Import Prelude Utf8 Source Lexer.

Local Open Scope res_scope.

(** ** Diagnostics *)

Inductive Severity := SeverityError | SeverityWarning | SeverityNote.

Inductive LabelStyle := Primary | Secondary.

#[export] Instance LabelStyle_eq_dec : EqDecision LabelStyle.
Proof. solve_decision. Defined.

Record Label := mkLabel { label_style : LabelStyle; label_span : Span; label_message : str }.

Record Diagnostic := mkDiagnostic {
  severity : Severity;
  diagnostic_code : str;
  diagnostic_message : str;
  labels : list Label;
  notes : list str
}.

Definition Diagnostic_new (severity : Severity) (code message : str) : Diagnostic :=
  mkDiagnostic severity code message [] [].

Definition with_label (style : LabelStyle) (d : Diagnostic) (s : Span) (message : str) : Diagnostic :=
  mkDiagnostic (severity d) (diagnostic_code d) (diagnostic_message d)
    (labels d ++ [mkLabel style s message]) (notes d).
Definition with_primary := with_label Primary.
Definition with_secondary := with_label Secondary.

Definition with_note (d : Diagnostic) (note : str) : Diagnostic :=
  mkDiagnostic (severity d) (diagnostic_code d) (diagnostic_message d) (labels d) (notes d ++ [note]).

Inductive RenderError :=
| MissingPrimaryLabel
| MissingSource (id : SourceId)
| InvalidSpanError (e : SpanError).

(** [Display for Severity]. *)
Definition severity_text (s : Severity) : str :=
  match s with
  | SeverityError => bs "error"
  | SeverityWarning => bs "warning"
  | SeverityNote => bs "note"
  end.

Definition show_nat (n : nat) : str := show_int (Z.of_nat n).

Definition decimal_width (n : nat) : nat := length (show_nat n).

(** [{:>width$}]: pad on the left with spaces. *)
Definition pad_left (width : nat) (s : str) : str := replicate (width - length s) 32%Z ++ s.

Definition marker_prefix (text : str) : str :=
  (λ character, if (character =? 9)%Z then 9%Z else 32%Z) <$> chars text.

Definition newline : str := [10%Z].

Definition render_label (source : SourceFile) (label : Label) (gutter_width : nat)
    : res RenderError str :=
  let s := label_span label in
  let* location := res_map_err InvalidSpanError (location source (span_start s)) in
  let line_number := lc_line location in
  let* line_text := (let* t := expect (line_text source line_number) in expect_some t) in
  let* line_start := expect_some (line_start source line_number) in
  let* line_end := expect_some (line_content_end source line_number) in
  let* before := str_slice (source_text source) line_start (span_start s `min` line_end) in
  let prefix := marker_prefix before in
  let marked_end := span_end s `min` line_end in
  let* marker_count :=
    (if span_is_empty s || (marked_end <=? span_start s) then Ok 1
     else let* marked := str_slice (source_text source) (span_start s) marked_end in
          Ok (length (chars marked) `max` 1)) in
  let marker := match label_style label with Primary => 94%Z | Secondary => 45%Z end in
  let annotation := match label_message label with [] => [] | m => 32%Z :: m end in
  Ok (pad_left gutter_width (show_nat line_number) ++ bs " | " ++ line_text ++ newline ++
      pad_left gutter_width [] ++ bs " | " ++ prefix ++ replicate marker_count marker ++
      annotation ++ newline).

Definition source_for_span (sources : list SourceFile) (s : Span) : res RenderError SourceFile :=
  match find (λ source, (source_id source =? span_source_id s)%Z) sources with
  | Some source => Ok source
  | None => Err (MissingSource (span_source_id s))
  end.

(** The source identities in order of first appearance, the primary first. *)
Definition add_source (order : list SourceId) (l : Label) : list SourceId :=
  if existsb (Z.eqb (span_source_id (label_span l))) order then order
  else order ++ [span_source_id (label_span l)].

Fixpoint validate_labels (source : SourceFile) (ls : list Label) : res RenderError unit :=
  match ls with
  | [] => Ok tt
  | l :: ls =>
    let* _ := res_map_err InvalidSpanError (validate_span source (label_span l)) in
    validate_labels source ls
  end.

Fixpoint label_lines (source : SourceFile) (ls : list Label) : res RenderError (list nat) :=
  match ls with
  | [] => Ok []
  | l :: ls =>
    let* at_ := res_map_err InvalidSpanError (location source (span_start (label_span l))) in
    let* rest := label_lines source ls in
    Ok (lc_line at_ :: rest)
  end.

(** [max().unwrap_or(1)] of the widths. *)
Definition gutter (lines : list nat) : nat :=
  match decimal_width <$> lines with [] => 1 | w :: ws => foldl max w ws end.

Fixpoint render_labels (source : SourceFile) (width : nat) (ls : list Label) : res RenderError str :=
  match ls with
  | [] => Ok []
  | l :: ls =>
    let* text := render_label source l width in
    let* rest := render_labels source width ls in
    Ok (text ++ rest)
  end.

Definition at_position (source : SourceFile) (l : LineColumn) : str :=
  source_name source ++ bs ":" ++ show_nat (lc_line l) ++ bs ":" ++ show_nat (lc_column l).

Definition render_group (sources : list SourceFile) (ls : list Label) (first : bool) (id : SourceId)
    : res RenderError str :=
  match find (λ source, (source_id source =? id)%Z) sources with
  | None => Err (MissingSource id)
  | Some source =>
    let source_labels := filter (λ l, span_source_id (label_span l) = id) ls in
    let* _ := validate_labels source source_labels in
    let* lines := label_lines source source_labels in
    let* header :=
      (if first then Ok []
       else
         let* l := expect_some (head source_labels) in
         let* at_ := res_map_err InvalidSpanError (location source (span_start (label_span l))) in
         Ok (bs " ::: " ++ at_position source at_ ++ newline ++ bs "  |" ++ newline)) in
    let* body := render_labels source (gutter lines) source_labels in
    Ok (header ++ body)
  end.

Fixpoint render_groups (sources : list SourceFile) (ls : list Label) (first : bool)
    (order : list SourceId) : res RenderError str :=
  match order with
  | [] => Ok []
  | id :: order =>
    let* text := render_group sources ls first id in
    let* rest := render_groups sources ls false order in
    Ok (text ++ rest)
  end.

Definition is_primary (l : Label) : bool := bool_decide (label_style l = Primary).

Definition render_diagnostic_sources (sources : list SourceFile) (d : Diagnostic)
    : res RenderError str :=
  match find is_primary (labels d) with
  | None => Err MissingPrimaryLabel
  | Some primary =>
    let* primary_source := source_for_span sources (label_span primary) in
    let* _ := res_map_err InvalidSpanError (validate_span primary_source (label_span primary)) in
    let* primary_location :=
      res_map_err InvalidSpanError (location primary_source (span_start (label_span primary))) in
    let order := foldl add_source [span_source_id (label_span primary)] (labels d) in
    let* groups := render_groups sources (labels d) true order in
    Ok (severity_text (severity d) ++ bs "[" ++ diagnostic_code d ++ bs "]: " ++
        diagnostic_message d ++ newline ++
        bs " --> " ++ at_position primary_source primary_location ++ newline ++
        bs "  |" ++ newline ++ groups ++
        mjoin ((λ note, bs "  = note: " ++ note ++ newline) <$> notes d))
  end.

Definition render_diagnostic (source : SourceFile) (d : Diagnostic) : res RenderError str :=
  render_diagnostic_sources [source] d.

(** ** Classification *)

Inductive IncompleteReason :=
| UnmatchedSingleQuote | UnmatchedDoubleQuote | TrailingBackslash | UnmatchedInterpolation
| PipelineStage | RedirectionTarget | FunctionBlock | ClosureBody | CallReason | Parenthesis
| Bracket | Brace | ExpressionReason | TypeReferenceReason | ConditionalOperand.

#[export] Instance IncompleteReason_eq_dec : EqDecision IncompleteReason.
Proof. solve_decision. Defined.

Record IncompleteInput := mkIncomplete { incomplete_reason : IncompleteReason; incomplete_span : Span }.

Inductive SyntaxClassification :=
| ClassifiedComplete
| ClassifiedIncomplete (i : IncompleteInput)
| ClassifiedInvalid (d : Diagnostic).

Inductive FrameKind :=
| FrameDoubleQuote
| FrameInterpolation
| FrameParenthesis (call : bool)
| FrameBracket
| FrameBrace (closure function : bool).

Record Frame := mkFrame { frame_kind : FrameKind; frame_span : Span }.

Definition invalid_token_diagnostic (t : Token) (k : InvalidTokenKind) : Diagnostic :=
  let message :=
    match k with
    | Nul => bs "NUL byte is not valid source"
    | LoneCarriageReturn => bs "lone carriage return is not a valid line ending"
    | UnknownDoubleEscape => bs "unknown double-quoted escape"
    | EmptyUnicodeEscape => bs "Unicode escape requires hexadecimal digits"
    | UnicodeSurrogate => bs "Unicode escape cannot encode a surrogate"
    | UnicodeOutOfRange => bs "Unicode escape exceeds the scalar range"
    | MalformedUnicodeEscape => bs "malformed Unicode escape"
    | DollarSyntax =>
        bs "dollar syntax is unsupported; use a bare name or `{expression}` interpolation"
    | UnmatchedInterpolationBrace =>
        bs "unmatched interpolation brace; use `}}` for a literal brace"
    end in
  with_primary (Diagnostic_new SeverityError (bs "OP0001") message) (token_span t) message.

Definition unexpected_closer (s : Span) : SyntaxClassification :=
  let message := bs "unexpected closing delimiter" in
  ClassifiedInvalid (with_primary (Diagnostic_new SeverityError (bs "OP0002") message) s message).

Definition incomplete (reason : IncompleteReason) (s : Span) : SyntaxClassification :=
  ClassifiedIncomplete (mkIncomplete reason s).

(** The frames are a stack, innermost first. *)
Definition pop_where (frames : list Frame) (matches : FrameKind → bool) : option (list Frame) :=
  match frames with
  | frame :: frames => if matches (frame_kind frame) then Some frames else None
  | [] => None
  end.

Definition is_statement_break (k : TokenKind) : bool :=
  match k with Newline | OperatorToken Semicolon => true | _ => false end.

Fixpoint take_while {A} (f : A → bool) (l : list A) : list A :=
  match l with
  | x :: l => if f x then x :: take_while f l else []
  | [] => []
  end.

Definition statement_contains_keyword (tokens : list Token) (before : nat) (k : Keyword) : bool :=
  existsb (λ t, bool_decide (kind t = KeywordToken k))
    (take_while (λ t, negb (is_statement_break (kind t))) (reverse (take before tokens))).

Definition can_end_callee (k : TokenKind) : bool :=
  match k with
  | Identifier | DelimiterToken RightParenthesis | DelimiterToken RightBracket => true
  | _ => false
  end.

Definition is_significant (k : TokenKind) : bool :=
  match k with
  | Whitespace | Newline | Comment | DocumentationComment => false
  | _ => true
  end.

Definition frame_reason (k : FrameKind) : IncompleteReason :=
  match k with
  | FrameDoubleQuote => UnmatchedDoubleQuote
  | FrameInterpolation => UnmatchedInterpolation
  | FrameParenthesis true => CallReason
  | FrameParenthesis false => Parenthesis
  | FrameBracket => Bracket
  | FrameBrace true _ => ClosureBody
  | FrameBrace _ true => FunctionBlock
  | FrameBrace _ _ => Brace
  end.

Definition opens_closure (tokens : list Token) (index : nat) (t : Token) : bool :=
  match tokens !! S index with
  | Some next =>
    is_adjacent_to t next &&
    match kind next with OperatorToken Pipe | OperatorToken Or => true | _ => false end
  | None => false
  end.

(** Either the frames after the delimiter or the classification it forces. *)
Definition classify_delimiter (tokens : list Token) (index : nat) (t : Token) (d : Delimiter)
    (previous_significant : option Token) (frames : list Frame)
    : SyntaxClassification + list Frame :=
  let close matches :=
    match pop_where frames matches with
    | Some frames => inr frames
    | None => inl (unexpected_closer (token_span t))
    end in
  match d with
  | LeftParenthesis =>
      let call := match previous_significant with
                  | Some p => can_end_callee (kind p)
                  | None => false
                  end in
      inr (mkFrame (FrameParenthesis call) (token_span t) :: frames)
  | LeftBracket => inr (mkFrame FrameBracket (token_span t) :: frames)
  | LeftBrace =>
      inr (mkFrame (FrameBrace (opens_closure tokens index t)
                      (statement_contains_keyword tokens index KDef)) (token_span t) :: frames)
  | RightParenthesis => close (λ k, match k with FrameParenthesis _ => true | _ => false end)
  | RightBracket => close (λ k, match k with FrameBracket => true | _ => false end)
  | RightBrace =>
      close (λ k, match k with FrameBrace _ _ | FrameInterpolation => true | _ => false end)
  end.

Definition trailing_requirement (source : SourceFile) (t : Token)
    : res SpanError (option IncompleteReason) :=
  match kind t with
  | BareEscape =>
      let* text := token_text t source in
      Ok (if str_eqb text [92%Z] then Some TrailingBackslash else None)
  | LineContinuation =>
      Ok (if span_end (token_span t) =? source_len source then Some TrailingBackslash else None)
  | OperatorToken Pipe | OperatorToken PipeBoth => Ok (Some PipelineStage)
  | OperatorToken Less | OperatorToken Greater | OperatorToken Append | OperatorToken Duplicate =>
      Ok (Some RedirectionTarget)
  | _ => Ok None
  end.

(** The first pass: every span is the source's and no token is invalid. *)
Fixpoint check_tokens (source : SourceFile) (ts : list Token)
    : res SpanError (option SyntaxClassification) :=
  match ts with
  | [] => Ok None
  | t :: ts =>
    let* _ := token_text t source in
    match kind t with
    | Invalid k => Ok (Some (ClassifiedInvalid (invalid_token_diagnostic t k)))
    | _ => check_tokens source ts
    end
  end.

(** The second pass; [ts] are the tokens from [index] on. *)
Fixpoint frame_loop (source : SourceFile) (tokens : list Token) (ts : list Token) (index : nat)
    (previous_significant : option Token) (frames : list Frame)
    : res SpanError (SyntaxClassification + (option Token * list Frame)) :=
  match ts with
  | [] => Ok (inr (previous_significant, frames))
  | t :: ts =>
    let next frames :=
      frame_loop source tokens ts (S index)
        (if is_significant (kind t) then Some t else previous_significant) frames in
    match kind t with
    | SingleQuoted =>
      let* text := token_text t source in
      if (length text <? 2) || negb (bool_decide (last text = Some 39%Z))
      then Ok (inl (incomplete UnmatchedSingleQuote (token_span t)))
      else next frames
    | DoubleQuoteStart => next (mkFrame FrameDoubleQuote (token_span t) :: frames)
    | DoubleQuoteEnd =>
      match pop_where frames (λ k, match k with FrameDoubleQuote => true | _ => false end) with
      | Some frames => next frames
      | None => Ok (inl (unexpected_closer (token_span t)))
      end
    | InterpolationStart => next (mkFrame FrameInterpolation (token_span t) :: frames)
    | DelimiterToken d =>
      match classify_delimiter tokens index t d previous_significant frames with
      | inl classification => Ok (inl classification)
      | inr frames => next frames
      end
    | _ => next frames
    end
  end.

Definition classify_opaal_tokens (source : SourceFile) (tokens : list Token)
    : res SpanError SyntaxClassification :=
  let* invalid := check_tokens source tokens in
  match invalid with
  | Some classification => Ok classification
  | None =>
    let* walked := frame_loop source tokens tokens 0 None [] in
    match walked with
    | inl classification => Ok classification
    | inr (_, frame :: _) => Ok (incomplete (frame_reason (frame_kind frame)) (frame_span frame))
    | inr (None, []) => Ok ClassifiedComplete
    | inr (Some t, []) =>
      let* reason := trailing_requirement source t in
      Ok match reason with
         | Some reason => incomplete reason (token_span t)
         | None => ClassifiedComplete
         end
    end
  end.
