(* ===== verification/DiagnosticFacts.v ===== *)
(** * Facts about diagnostics and classification

    A diagnostic whose labels are ranges of the source renders; classifying
    the tokens of a source never fails, reports ranges of the source, and a
    complete classification means that quotes are closed. *)
From S2P Require Import Prelude Utf8 Source Lexer LexerFacts Diagnostic.

Local Open Scope res_scope.

(** ** Rendering *)

Section Render.
Context (f : SourceFile) (Hf : source_wf f).

Definition in_source (s : Span) : Prop := validate_span f s = Ok tt.

Lemma validate_span_ok s :
  validate_span f s = Ok tt ↔
  span_source_id s = source_id f ∧ span_start s ≤ span_end s ∧
  is_char_boundary (source_text f) (span_start s) = true ∧
  is_char_boundary (source_text f) (span_end s) = true.
Proof.
  unfold validate_span. destruct (Z.eqb_spec (span_source_id s) (source_id f)) as [->|]; simpl.
  2: { split; [done|]. by intros (? & _). }
  destruct (Nat.ltb_spec (span_end s) (span_start s)); [split; [done|lia]|].
  destruct (Nat.ltb_spec (source_len f) (span_end s)) as [Hlt|].
  { split; [done|]. intros (_ & _ & _ & He%boundary_le). unfold source_len in Hlt. lia. }
  split.
  - intros Hv. destruct (validate_offset _ (span_start s)) as [[] | |] eqn:Hs; try done.
    apply validate_offset_ok in Hs, Hv. done.
  - intros (_ & _ & Hs%validate_offset_ok & He%validate_offset_ok). by rewrite Hs.
Qed.

(** The line of an offset, found again by its number. *)
Lemma location_line o :
  is_char_boundary (source_text f) o = true →
  ∃ l n c, location f o = Ok (mkLineColumn (n + 1) c) ∧
    LineIndex_line (source_line_index f) (n + 1) = Some l ∧
    line_start_at l ≤ o `min` line_content_end_at l ∧
    is_char_boundary (source_text f) (line_start_at l) = true ∧
    is_char_boundary (source_text f) (o `min` line_content_end_at l) = true ∧
    is_char_boundary (source_text f) (line_content_end_at l) = true.
Proof.
  intros Ho. destruct Hf as [Hu Hi].
  destruct (line_at_spec _ _ Hu Ho) as (l & Hl & Hs & Hb1 & Hb2 & Hb3 & _).
  exists l, (line_at (LineIndex_new (source_text f)) o). eexists. split_and!; try done.
  - unfold location, LineIndex_location. rewrite Hi, (proj2 (validate_offset_ok _ _) Ho).
    cbn [res_bind]. rewrite Hl. cbn [expect_some res_bind].
    by rewrite str_slice_ok.
  - unfold LineIndex_line. rewrite Hi, (proj2 (Nat.eqb_neq _ _)) by lia.
    by rewrite Nat.add_sub.
Qed.

Lemma render_label_ok l w :
  in_source (label_span l) → ∃ text, render_label f l w = Ok text.
Proof.
  intros (_ & Hle & Hs & He)%validate_span_ok.
  destruct (location_line _ Hs) as (line & n & c & Hloc & Hline & Hstart & Hb1 & Hb2 & Hb3).
  unfold render_label. rewrite Hloc. cbn [res_map_err res_bind lc_line].
  unfold line_text, line_start, line_content_end. rewrite Hline.
  rewrite str_slice_ok by (done || lia). cbn [fmap option_fmap option_map res_bind expect expect_some].
  rewrite str_slice_ok by done. cbn [res_bind].
  destruct (span_is_empty _ || _) eqn:Hempty; cbn [res_bind]; [by eexists|].
  apply orb_false_iff in Hempty as [_ Hlt%Nat.leb_gt].
  rewrite str_slice_ok; [by eexists|lia|done|].
  destruct (Nat.min_spec (span_end (label_span l)) (line_content_end_at line)) as [[_ ->]|[_ ->]]; done.
Qed.

Lemma validate_labels_ok ls :
  Forall (λ l, in_source (label_span l)) ls → validate_labels f ls = Ok tt.
Proof. induction 1 as [|l ls Hl _ IH]; [done|]. cbn. by rewrite Hl. Qed.

Lemma label_lines_ok ls :
  Forall (λ l, in_source (label_span l)) ls → ∃ lines, label_lines f ls = Ok lines.
Proof.
  induction 1 as [|l ls (_ & _ & Hs & _)%validate_span_ok _ (lines & IH)]; [by eexists|]. cbn.
  destruct (location_line _ Hs) as (line & n & c & -> & _). cbn. rewrite IH. by eexists.
Qed.

Lemma render_labels_ok ls w :
  Forall (λ l, in_source (label_span l)) ls → ∃ text, render_labels f w ls = Ok text.
Proof.
  induction 1 as [|l ls Hl _ (text & IH)]; [by eexists|]. cbn.
  destruct (render_label_ok l w Hl) as [t ->]. cbn. rewrite IH. by eexists.
Qed.

Lemma source_order id ls :
  Forall (λ l, span_source_id (label_span l) = id) ls → foldl add_source [id] ls = [id].
Proof.
  induction 1 as [|l ls Hl _ IH]; [done|]. cbn. unfold add_source at 2. cbn.
  by rewrite Hl, Z.eqb_refl.
Qed.

(** A diagnostic with a primary label, all of whose labels are ranges of the
    source, renders. *)
Lemma render_ok d :
  existsb is_primary (labels d) = true →
  Forall (λ l, in_source (label_span l)) (labels d) →
  ∃ text, render_diagnostic f d = Ok text.
Proof.
  intros Hp Hl. unfold render_diagnostic, render_diagnostic_sources.
  destruct (find is_primary (labels d)) as [p|] eqn:Hfind.
  2: { apply existsb_exists in Hp as (x & Hx & Hpx). by rewrite (find_none _ _ Hfind _ Hx) in Hpx. }
  apply find_some in Hfind as [Hin _]. apply list_elem_of_In in Hin.
  assert (in_source (label_span p)) as Hps by by rewrite list.Forall_forall in Hl; apply Hl.
  pose proof Hps as Hps'. apply validate_span_ok in Hps' as (Hid & _ & Hs & _).
  unfold source_for_span. cbn. rewrite Hid, Z.eqb_refl. cbn. rewrite Hps. cbn.
  destruct (location_line _ Hs) as (line & n & c & -> & _). cbn.
  rewrite source_order.
  2: { eapply Forall_impl; [exact Hl|]. by intros l (? & _)%validate_span_ok. }
  cbn. unfold render_group. cbn. rewrite Z.eqb_refl.
  assert (Forall (λ l, in_source (label_span l))
    (filter (λ l, span_source_id (label_span l) = source_id f) (labels d))) as Hfl
    by (rewrite list.Forall_forall in *; intros l [_ ?]%list_elem_of_filter; by apply Hl).
  rewrite validate_labels_ok by done. cbn.
  destruct (label_lines_ok _ Hfl) as [lines ->]. cbn.
  destruct (render_labels_ok _ (gutter lines) Hfl) as [text ->]. by eexists.
Qed.
End Render.

(** ** Classification *)

Section Classify.
Context (f : SourceFile).

(** A diagnostic that renders: a primary label, and ranges of the source. *)
Definition reported (d : Diagnostic) : Prop :=
  existsb is_primary (labels d) = true ∧ Forall (λ l, in_source f (label_span l)) (labels d).

Definition well_lexed (t : Token) : Prop :=
  in_source f (token_span t) ∧ ∃ x, token_text t f = Ok x ∧ token_wf (kind t) x.

Definition quotes_closed (t : Token) : Prop :=
  ∀ x, kind t = SingleQuoted → token_text t f = Ok x →
    2 ≤ length x ∧ head x = Some 39%Z ∧ last x = Some 39%Z.

(** What a classification other than a complete one reports. *)
Definition classified_at (c : SyntaxClassification) : Prop :=
  match c with
  | ClassifiedComplete => False
  | ClassifiedIncomplete i => in_source f (incomplete_span i)
  | ClassifiedInvalid d => reported d
  end.

Lemma reported_primary severity code message i text :
  in_source f i → reported (with_primary (Diagnostic_new severity code message) i text).
Proof. intros Hi. split; [done|by constructor]. Qed.

Lemma classified_closer i : in_source f i → classified_at (unexpected_closer i).
Proof. intros. by apply reported_primary. Qed.

Lemma check_tokens_ok ts :
  Forall well_lexed ts →
  ∃ o, check_tokens f ts = Ok o ∧ match o with Some c => classified_at c | None => True end.
Proof.
  induction 1 as [|t ts (Hs & x & Hx & _) _ (o & Ho & Hc)]; [by exists None|].
  cbn. rewrite Hx. cbn. destruct (kind t); try by exists o.
  eexists. split; [done|]. by apply reported_primary.
Qed.

Lemma pop_where_ok frames matches frames' :
  Forall (λ fr, in_source f (frame_span fr)) frames → pop_where frames matches = Some frames' →
  Forall (λ fr, in_source f (frame_span fr)) frames'.
Proof.
  intros Hf. destruct Hf as [|fr frames Hfr Hf]; cbn; [done|]. destruct (matches _); [|done].
  by intros [= <-].
Qed.

Lemma classify_delimiter_ok tokens index t d previous frames :
  in_source f (token_span t) → Forall (λ fr, in_source f (frame_span fr)) frames →
  match classify_delimiter tokens index t d previous frames with
  | inl c => classified_at c
  | inr frames => Forall (λ fr, in_source f (frame_span fr)) frames
  end.
Proof.
  intros Ht Hf. destruct d; cbn; try (by constructor);
    (destruct (pop_where _ _) eqn:Hp; [by eapply pop_where_ok|by apply classified_closer]).
Qed.

Definition walked (ts : list Token)
    (r : SyntaxClassification + (option Token * list Frame)) : Prop :=
  match r with
  | inl c => classified_at c
  | inr (previous, frames) =>
      Forall quotes_closed ts ∧ (∀ t, previous = Some t → well_lexed t) ∧
      Forall (λ fr, in_source f (frame_span fr)) frames
  end.

Lemma frame_loop_ok tokens ts index previous frames :
  Forall well_lexed ts → (∀ t, previous = Some t → well_lexed t) →
  Forall (λ fr, in_source f (frame_span fr)) frames →
  ∃ r, frame_loop f tokens ts index previous frames = Ok r ∧ walked ts r.
Proof.
  intros Hts. revert index previous frames.
  induction Hts as [|t ts Ht Hts IH]; intros index previous frames Hp Hf; [by exists (inr (previous, frames))|].
  pose proof Ht as (Hs & x & Hx & Hwf). cbn [frame_loop].
  set (previous' := if is_significant (kind t) then Some t else previous).
  assert (∀ u, previous' = Some u → well_lexed u) as Hp'.
  { unfold previous'. destruct (is_significant _); [by intros u [= <-]|done]. }
  assert (∀ frames, quotes_closed t → Forall (λ fr, in_source f (frame_span fr)) frames →
    ∃ r, frame_loop f tokens ts (S index) previous' frames = Ok r ∧ walked (t :: ts) r) as Hnext.
  { intros fs Hq Hfs. destruct (IH (S index) previous' fs Hp' Hfs) as (r & Hr & Hw).
    exists r. split; [done|]. destruct r as [c|[p fs']]; [done|].
    destruct Hw as (? & ? & ?). by split; [constructor|]. }
  assert (kind t ≠ SingleQuoted → quotes_closed t) as Hother by (by intros Hk y Hk').
  destruct (kind t) eqn:Hk; try (apply Hnext; [by apply Hother|done]).
  - rewrite Hx. cbn [res_bind]. destruct (_ || _) eqn:Hq; [eexists; by split|].
    apply orb_false_iff in Hq as [Hlen%Nat.ltb_ge Hlast%negb_false_iff].
    apply bool_decide_eq_true in Hlast. apply Hnext; [|done].
    intros y _ Hy. rewrite Hx in Hy. injection Hy as <-.
    destruct Hwf as [r ->]. by split_and!.
  - apply Hnext; [by apply Hother|by constructor].
  - destruct (pop_where _ _) eqn:Hpop.
    + apply Hnext; [by apply Hother|by eapply pop_where_ok].
    + eexists. split; [done|]. by apply classified_closer.
  - apply Hnext; [by apply Hother|by constructor].
  - pose proof (classify_delimiter_ok tokens index t d previous frames Hs Hf) as Hd.
    destruct (classify_delimiter _ _ _ _ _ _) as [c|fs]; [eexists; by split|].
    apply Hnext; [by apply Hother|done].
Qed.

Lemma trailing_requirement_ok t :
  well_lexed t → ∃ o, trailing_requirement f t = Ok o.
Proof.
  intros (_ & x & Hx & _). unfold trailing_requirement.
  destruct (kind t) as [| | | | | | | | | | | | | | | | |o| |]; try (by eexists);
    [by rewrite Hx; eexists|destruct o; by eexists].
Qed.

(** Classifying lexed tokens succeeds, and reports ranges of the source. *)
Lemma classify_ok ts :
  Forall well_lexed ts →
  ∃ c, classify_opaal_tokens f ts = Ok c ∧
    match c with ClassifiedComplete => Forall quotes_closed ts | _ => classified_at c end.
Proof.
  intros Hts. unfold classify_opaal_tokens.
  destruct (check_tokens_ok ts Hts) as (o & -> & Ho). cbn.
  destruct o as [c|]; [exists c; split; [done|]; by destruct c|].
  destruct (frame_loop_ok ts ts 0 None [] Hts) as (r & -> & Hr); [done|constructor|]. cbn.
  destruct r as [c|[previous frames]]; [exists c; split; [done|]; by destruct c|].
  destruct Hr as (Hq & Hp & Hf). destruct frames as [|fr frames].
  2: { apply Forall_inv in Hf. destruct previous; eexists; by split. }
  destruct previous as [t|]; [|by eexists].
  destruct (trailing_requirement_ok t) as [o ->]; [by apply Hp|]. cbn.
  destruct o; [|by eexists]. eexists. split; [done|]. by destruct (Hp t eq_refl).
Qed.

Lemma tiling_well_lexed a ts b :
  source_wf f → is_char_boundary (source_text f) a = true → tiling f a ts b →
  Forall well_lexed ts.
Proof.
  intros Hf Ha Ht. destruct (tiling_texts f a ts b Hf Ha Ht) as (xs & Hxs & _).
  clear Ht. induction Hxs as [|t x ts xs (Hx & Hwf & _) _ IH]; constructor; [|done].
  split; [|by exists x]. unfold token_text, slice in Hx. unfold in_source.
  destruct (validate_span f (token_span t)) as [[]| |]; done.
Qed.
End Classify.
