(* ===== verification/Ast.v ===== *)
(** * The syntax tree ([opaal-syntax/src/ast.rs])

    Every node is paired with the source range it was read from; identifiers
    keep only their range.  Boxes are transparent.  The expression types are
    mutually recursive through commands, words and closures; statements are
    built on top of them. *)
From S2P Require Import Prelude Utf8 Source Lexer.

Local Open Scope res_scope.

Record AstNode (T : Type) := node { node_kind : T; node_span : Span }.
Arguments node {T} _ _.
Arguments node_kind {T} _.
Arguments node_span {T} _.

(** An identifier or a descriptor is its range. *)
Definition Identifier : Type := Span.
Definition IoNumber : Type := Span.

Record NameReference := mkNameReference { reference_name : Identifier; reference_span : Span }.

Record QualifiedName := mkQualifiedName { segments : list Identifier; qualified_span : Span }.

Inductive TypeReference := mkTypeReference {
  type_name : Identifier;
  type_arguments : list TypeReference;
  type_span : Span
}.

Inductive UnaryOperator := UNot | UPositive | UNegative.

Inductive BinaryOperator :=
| BMultiply | BDivide | BRemainder | BAdd | BSubtract | BRange | BRangeInclusive
| BLess | BLessEqual | BGreater | BGreaterEqual | BIn | BEqual | BNotEqual.

Inductive ConditionalOperator := CondOr.
Inductive AndOperator := CondAnd.
Inductive PipeOperator := Stdout | StdoutAndStderr.
Inductive CommandHeadKind := Bare | ForcedExternal.
Inductive OutputMode := Truncate | AppendMode.

(** ** Expressions, patterns, commands *)

Inductive ExpressionKind : Type :=
| ELiteral (l : Literal)
| EName (n : NameReference)
| EQualified (q : QualifiedName)
| EList (items : list ListItem)
| ERecord (entries : list RecordEntry)
| ENominalRecord (name : QualifiedName) (fields : list NominalRecordFieldExpression)
| EClosure (c : Closure)
| EGroupedJob (chain : ConditionalChain)
| ECall (callee : AstNode ExpressionKind) (type_args : list TypeReference)
    (arguments : list (AstNode ExpressionKind))
| EIndex (target index : AstNode ExpressionKind)
| EMember (target : AstNode ExpressionKind) (member : Identifier)
| EUnary (operator : AstNode UnaryOperator) (operand : AstNode ExpressionKind)
| EBinary (left : AstNode ExpressionKind) (operator : AstNode BinaryOperator)
    (right : AstNode ExpressionKind)
with ListItem : Type :=
| LElement (e : AstNode ExpressionKind)
| LSpread (marker : Span) (operand : AstNode ExpressionKind)
with RecordEntry : Type := mkRecordEntry (key : RecordKey) (value : AstNode ExpressionKind) (s : Span)
with RecordKey : Type :=
| RIdentifier (i : Identifier)
| RSingleQuoted (s : Span)
| RDoubleQuoted (w : AstNode WordPartKind)
with NominalRecordFieldExpression : Type :=
  mkNominalField (name : Identifier) (value : AstNode ExpressionKind) (s : Span)
with Closure : Type :=
  mkClosure (parameters : list Param) (result_type : option TypeReference)
    (body : ConditionalChain) (s : Span)
with Param : Type :=
  mkParameter (pattern : Pattern) (name : Identifier) (annotation : option TypeReference) (s : Span)
with Literal : Type := mkLiteral (k : LiteralKind) (s : Span)
with LiteralKind : Type :=
| LitNull | LitBoolean (b : bool) | LitInteger | LitFloat | LitSingleQuoted
| LitDoubleQuoted (parts : list (AstNode WordPartKind))
with WordPartKind : Type :=
| WBare | WBareEscape | WSingleQuoted
| WDoubleQuoted (parts : list (AstNode WordPartKind))
| WDoubleText | WDoubleEscape | WEscapedBrace
| WInterpolation (e : AstNode ExpressionKind)
with Pattern : Type :=
| PWildcard (s : Span)
| PLiteral (l : Literal)
| PBinding (i : Identifier)
| PList (elements : list Pattern) (rest : option Identifier) (s : Span)
| PNominalRecord (name : QualifiedName) (fields : list PatternField) (s : Span)
| PVariant (constructor : QualifiedName) (payload : list Pattern) (s : Span)
with PatternField : Type := mkPatternField (name : Identifier) (pattern : Pattern) (s : Span)
with ConditionalChain : Type :=
  mkChain (or_terms : list AndChain) (operators : list (AstNode ConditionalOperator)) (s : Span)
with AndChain : Type :=
  mkAndChain (and_terms : list Pipeline) (operators : list (AstNode AndOperator)) (s : Span)
with Pipeline : Type :=
  mkPipeline (stages : list (AstNode StageKind)) (operators : list (AstNode PipeOperator)) (s : Span)
with StageKind : Type :=
| SCommand (head : CommandHead) (items : list (AstNode CommandItemKind))
| SExpression (e : AstNode ExpressionKind)
with CommandHead : Type := mkHead (k : CommandHeadKind) (w : Word) (s : Span)
with CommandItemKind : Type :=
| IWord (w : Word)
| ISpread (e : AstNode ExpressionKind)
| IClosure (c : Closure)
| IRedirection (r : AstNode RedirectionKind)
with Word : Type := mkWord (parts : list (AstNode WordPartKind)) (s : Span)
with RedirectionKind : Type :=
| RInput (descriptor : option IoNumber) (operator_span : Span) (target : Word)
| RFile (descriptor : option IoNumber) (mode : OutputMode) (operator_span : Span) (target : Word)
| RDuplicate (descriptor : IoNumber) (operator_span : Span) (target : IoNumber)
| RClose (descriptor : IoNumber) (operator_span target_span : Span).

Notation Expression := (AstNode ExpressionKind).
Notation WordPart := (AstNode WordPartKind).
Notation Stage := (AstNode StageKind).
Notation CommandItem := (AstNode CommandItemKind).
Notation Redirection := (AstNode RedirectionKind).

Definition literal_span (l : Literal) : Span := let 'mkLiteral _ s := l in s.
Definition closure_span (c : Closure) : Span := let 'mkClosure _ _ _ s := c in s.
Definition chain_span (c : ConditionalChain) : Span := let 'mkChain _ _ s := c in s.
Definition and_chain_span (c : AndChain) : Span := let 'mkAndChain _ _ s := c in s.
Definition pipeline_span (p : Pipeline) : Span := let 'mkPipeline _ _ s := p in s.
Definition word_span (w : Word) : Span := let 'mkWord _ s := w in s.
Definition head_span (h : CommandHead) : Span := let 'mkHead _ _ s := h in s.

(** ** Statements *)

Inductive TypeConstraint := EqualConstraint | OrderedConstraint.

#[export] Instance TypeConstraint_eq_dec : EqDecision TypeConstraint.
Proof. solve_decision. Defined.

Record TypeParameter := mkTypeParameter {
  parameter_name : Identifier;
  constraints : list TypeConstraint;
  parameter_span : Span
}.

Record DocumentationBlock := mkDocumentation { documentation_lines : list Span }.

Inductive ModuleImportSource :=
| LocalModule (path : Span)
| StandardModule (namespace module : Identifier) (s : Span)
| ProjectModule (namespace module : Identifier) (s : Span).

Definition import_source_span (m : ModuleImportSource) : Span :=
  match m with LocalModule s | StandardModule _ _ s | ProjectModule _ _ s => s end.

Record ModuleMemberSelector := mkMember { member : Identifier; member_local : Identifier; member_span : Span }.

Inductive ModuleImportEntry :=
| ImportAlias (source : ModuleImportSource) (alias : Identifier)
| ImportMembers (source : ModuleImportSource) (members : list ModuleMemberSelector) (s : Span).

(** [ModuleImportEntry::end]. *)
Definition import_entry_end (e : ModuleImportEntry) : nat :=
  match e with
  | ImportAlias source alias => span_end (import_source_span source) `max` span_end alias
  | ImportMembers _ _ s => span_end s
  end.

Inductive ModuleExportSelector :=
| ExportName (i : Identifier)
| ExportPrefix (prefix : Identifier) (marker : Span).

Record NominalTypeField := mkTypeField {
  field_name : Identifier;
  field_type : TypeReference;
  field_span : Span
}.

Record VariantDeclaration := mkVariant {
  variant_name : Identifier;
  variant_payload : list TypeReference;
  variant_span : Span
}.

Record CapabilityName := mkCapability {
  capability_family : Identifier;
  capability_operation : Identifier;
  capability_span : Span
}.

Inductive StaticEffectArgument := EffectLiteral (l : Literal) | EffectQualified (q : QualifiedName).

Record EffectRequest := mkEffectRequest {
  capability : CapabilityName;
  effect_arguments : list StaticEffectArgument;
  effect_span : Span
}.

Inductive ControlTransfer := Break | Continue | Return (value : option Expression).

Inductive EnvironmentStatement :=
| EnvExport (name : Identifier) (value : Expression)
| EnvUnset (name : Identifier).

Inductive StatementKind : Type :=
| ModuleImport (source : ModuleImportSource) (alias : Identifier)
| ModuleMemberImport (source : ModuleImportSource) (members : list ModuleMemberSelector) (s : Span)
| ModuleImportGroup (entries : list ModuleImportEntry)
| ModuleExport (names : list ModuleExportSelector)
| NominalType (name : Identifier) (type_parameters : list TypeParameter) (fields : list NominalTypeField)
| VariantType (name : Identifier) (type_parameters : list TypeParameter)
    (variants : list VariantDeclaration)
| Declaration (mutable : bool) (pattern : Pattern) (name : Identifier)
    (annotation : option TypeReference) (value : Expression)
| Assignment (target : NameReference) (value : Expression)
| IndexedAssignment (target : NameReference) (index : Expression) (brackets operator : Span)
    (value : Expression)
| Environment (e : EnvironmentStatement)
| Function (documentation : option DocumentationBlock) (name : Identifier)
    (type_parameters : list TypeParameter) (parameters : list Param)
    (return_type : option TypeReference) (body : Block)
| Action (documentation : option DocumentationBlock) (name : Identifier)
    (type_parameters : list TypeParameter) (parameters : list Param)
    (return_type : TypeReference) (effects : list EffectRequest) (effects_span : Span) (body : Block)
| Task (documentation : option DocumentationBlock) (name : Identifier) (action : QualifiedName)
| If (i : IfStatement)
| While (condition : ConditionalChain) (body : Block)
| For (binding : Identifier) (iterable : Expression) (body : Block)
| Match (value : Expression) (arms : list MatchArm)
| Try (try_block : Block) (catch_binding : Identifier) (catch_block : Block)
| Throw (e : Expression)
| Control (t : ControlTransfer)
| JobStatement (chain : ConditionalChain) (background_span : option Span)
with Block : Type := mkBlock (statements : list (AstNode StatementKind)) (s : Span)
with IfStatement : Type :=
  mkIf (condition : ConditionalChain) (then_block : Block) (else_branch : option ElseBranch)
with ElseBranch : Type := ElseBlock (b : Block) | ElseIf (i : AstNode IfStatement)
with MatchArm : Type := mkArm (pattern : Pattern) (guard : option Expression) (body : Block) (s : Span).

Notation Statement := (AstNode StatementKind).

Definition block_span (b : Block) : Span := let 'mkBlock _ s := b in s.

(** [ModuleImportEntry::statement_kind]. *)
Definition import_statement_kind (e : ModuleImportEntry) : StatementKind :=
  match e with
  | ImportAlias source alias => ModuleImport source alias
  | ImportMembers source members s => ModuleMemberImport source members s
  end.

Record Script := mkScript { script_statements : list Statement; script_span : Span }.

(** ** Parts of patterns *)

Definition pattern_span (p : Pattern) : Span :=
  match p with
  | PWildcard s => s
  | PLiteral l => literal_span l
  | PBinding i => i
  | PList _ _ s | PNominalRecord _ _ s | PVariant _ _ s => s
  end.

(** [Iterator::find_map]. *)
Definition find_map {A B} (f : A → option B) : list A → option B :=
  fix go l := match l with [] => None | x :: l => match f x with Some y => Some y | None => go l end end.

Fixpoint pattern_primary_binding (p : Pattern) : option Identifier :=
  match p with
  | PBinding i => Some i
  | PList elements rest _ =>
    match find_map pattern_primary_binding elements with
    | Some i => Some i
    | None => rest
    end
  | PNominalRecord _ fields _ =>
      find_map (λ field, let 'mkPatternField _ p _ := field in pattern_primary_binding p) fields
  | PVariant _ payload _ => find_map pattern_primary_binding payload
  | PWildcard _ | PLiteral _ => None
  end.

(** ** Imports of a script *)

Definition module_imports (k : StatementKind) : list ModuleImportEntry :=
  match k with
  | ModuleImport source alias => [ImportAlias source alias]
  | ModuleMemberImport source members s => [ImportMembers source members s]
  | ModuleImportGroup entries => entries
  | _ => []
  end.

Definition script_module_imports (s : Script) : list ModuleImportEntry :=
  mjoin ((λ st : Statement, module_imports (node_kind st)) <$> script_statements s).

Definition import_entry_source (e : ModuleImportEntry) : ModuleImportSource :=
  match e with ImportAlias source _ | ImportMembers source _ _ => source end.

(** [Script::semantic_statements]: a group becomes one statement per entry. *)
Fixpoint entry_statements (source : SourceFile) (es : list ModuleImportEntry)
    : res Empty_set (list Statement) :=
  match es with
  | [] => Ok []
  | e :: es =>
    let* s := expect (span source (span_start (import_source_span (import_entry_source e)))
                        (import_entry_end e)) in
    let* rest := entry_statements source es in
    Ok (node (import_statement_kind e) s :: rest)
  end.

Fixpoint semantic_statements (source : SourceFile) (ss : list Statement)
    : res Empty_set (list Statement) :=
  match ss with
  | [] => Ok []
  | st :: ss =>
    let* units :=
      match node_kind st with
      | ModuleImportGroup entries => entry_statements source entries
      | _ => Ok [st]
      end in
    let* rest := semantic_statements source ss in
    Ok (units ++ rest)
  end.
