(* ===== verification/Parser.v ===== *)
(** * The parser ([opaal-syntax/src/parser.rs])

    Recursive descent over the token vector.  The source, the tokens and the
    cancellation predicate are an environment ([Env]); what the parser changes
    is [PState].  The recursion between the functions is open: a function
    calls the recursive entry points through [Rec], and [parser] ties the
    knot with fuel, one unit for each call that follows a consumed token.
    Loops run with fuel for every token of the source; running out of fuel is
    a panic of the model. *)
From S2P Require Import Prelude Utf8 Source Lexer Diagnostic Ast.

Local Open Scope res_scope.

Inductive ParseOutcome :=
| OutcomeComplete (s : Script)
| OutcomeIncomplete (i : IncompleteInput)
| OutcomeInvalid (ds : list Diagnostic).

Inductive ControlledParseOutcome :=
| Parsed (o : ParseOutcome)
| ControlledCancelled.

Inductive ParseError :=
| ErrIncomplete (i : IncompleteInput)
| ErrInvalid (d : Diagnostic)
| ErrInvalidMany (ds : list Diagnostic)
| ErrCancelled.

(** [struct Parser]: the fields that do not change. *)
Class Env := mkEnv {
  source : SourceFile;
  tokens : list Token;
  is_cancelled : nat → bool
}.

(** The fields that do; [polls] counts the calls of the predicate. *)
Record PState := mkPState {
  position : nat;
  bracket_ends : list nat;
  continuation_depth : nat;
  control_condition_depth : nat;
  block_header_depth : option nat;
  value_chain_depth : nat;
  diagnostics : list Diagnostic;
  interpolation_spans : list Span;
  polls : nat
}.

Definition with_position (p : nat) (s : PState) : PState :=
  mkPState p (bracket_ends s) (continuation_depth s) (control_condition_depth s)
    (block_header_depth s) (value_chain_depth s) (diagnostics s) (interpolation_spans s) (polls s).
Definition with_bracket_ends (b : list nat) (s : PState) : PState :=
  mkPState (position s) b (continuation_depth s) (control_condition_depth s)
    (block_header_depth s) (value_chain_depth s) (diagnostics s) (interpolation_spans s) (polls s).
Definition with_continuation (d : nat) (s : PState) : PState :=
  mkPState (position s) (bracket_ends s) d (control_condition_depth s)
    (block_header_depth s) (value_chain_depth s) (diagnostics s) (interpolation_spans s) (polls s).
Definition with_condition (d : nat) (s : PState) : PState :=
  mkPState (position s) (bracket_ends s) (continuation_depth s) d
    (block_header_depth s) (value_chain_depth s) (diagnostics s) (interpolation_spans s) (polls s).
Definition with_block_header (d : option nat) (s : PState) : PState :=
  mkPState (position s) (bracket_ends s) (continuation_depth s) (control_condition_depth s)
    d (value_chain_depth s) (diagnostics s) (interpolation_spans s) (polls s).
Definition with_value_chain (d : nat) (s : PState) : PState :=
  mkPState (position s) (bracket_ends s) (continuation_depth s) (control_condition_depth s)
    (block_header_depth s) d (diagnostics s) (interpolation_spans s) (polls s).
Definition with_diagnostic (d : Diagnostic) (s : PState) : PState :=
  mkPState (position s) (bracket_ends s) (continuation_depth s) (control_condition_depth s)
    (block_header_depth s) (value_chain_depth s) (diagnostics s ++ [d]) (interpolation_spans s)
    (polls s).
Definition with_interpolation (i : Span) (s : PState) : PState :=
  mkPState (position s) (bracket_ends s) (continuation_depth s) (control_condition_depth s)
    (block_header_depth s) (value_chain_depth s) (diagnostics s) (interpolation_spans s ++ [i])
    (polls s).
Definition with_poll (s : PState) : PState :=
  mkPState (position s) (bracket_ends s) (continuation_depth s) (control_condition_depth s)
    (block_header_depth s) (value_chain_depth s) (diagnostics s) (interpolation_spans s)
    (S (polls s)).

(** ** Computations *)

Definition M (A : Type) : Type := PState → res ParseError A * PState.

#[export] Instance M_ret : MRet M := λ A a s, (Ok a, s).
#[export] Instance M_bind : MBind M := λ A B k m s,
  match m s with
  | (Ok a, s) => k a s
  | (Err e, s) => (Err e, s)
  | (Panic, s) => (Panic, s)
  end.

Definition gets {A} (f : PState → A) : M A := λ s, (Ok (f s), s).
Definition modify (f : PState → PState) : M unit := λ s, (Ok tt, f s).
Definition fail {A} (e : ParseError) : M A := λ s, (Err e, s).
Definition panic {A} : M A := λ s, (Panic, s).

(** Run [m], and give its result, an error included, to [k]. *)
Definition try_bind {A B} (m : M A) (k : ParseError + A → M B) : M B := λ s,
  match m s with
  | (Ok a, s) => k (inr a) s
  | (Err e, s) => k (inl e) s
  | (Panic, s) => (Panic, s)
  end.

(** [Option::expect]. *)
Definition expect_current {A} (o : option A) : M A :=
  match o with Some a => mret a | None => panic end.

(** A loop whose body continues with [inl] and leaves with [inr]. *)
Fixpoint loop {X R} (n : nat) (body : X → M (X + R)) (x : X) : M R :=
  match n with
  | O => panic
  | S n => y ← body x; match y with inl x => loop n body x | inr r => mret r end
  end.

(** ** Token kinds *)

Definition is_inline (k : TokenKind) : bool :=
  match k with
  | Whitespace | Comment | DocumentationComment | LineContinuation => true
  | _ => false
  end.
Definition is_layout (k : TokenKind) : bool :=
  match k with Newline => true | _ => is_inline k end.
Definition is_separator (k : TokenKind) : bool :=
  match k with Newline | OperatorToken Semicolon => true | _ => is_inline k end.

Definition is_bare_word_token (k : TokenKind) : bool :=
  match k with
  | Lexer.Identifier | KeywordToken _ | Number _ | WordText => true
  | OperatorToken o =>
    match o with
    | Assign | AddAssign | SubtractAssign | MultiplyAssign | DivideAssign | RemainderAssign
    | Equal | NotEqual | Plus | Minus | Star | Slash | Percent | Bang | Range | RangeInclusive
    | Arrow | MatchArrow | Dot | Comma | Colon | Caret => true
    | _ => false
    end
  | _ => false
  end.

Definition can_start_word (k : TokenKind) : bool :=
  match k with
  | Lexer.Identifier | KeywordToken _ | Number _ | WordText | BareEscape | SingleQuoted
  | DoubleQuoteStart | InterpolationStart => true
  | _ => is_bare_word_token k
  end.

Definition is_assignment_operator (k : TokenKind) : bool :=
  match k with
  | OperatorToken (Assign | AddAssign | SubtractAssign | MultiplyAssign | DivideAssign
                  | RemainderAssign) => true
  | _ => false
  end.

Definition is_redirection_operator (k : TokenKind) : bool :=
  match k with OperatorToken (Less | Greater | Append | Duplicate) => true | _ => false end.

(** What ends a command; [at_expression_end] adds its own. *)
Definition ends_command (k : option TokenKind) : bool :=
  match k with
  | None | Some Newline => true
  | Some (OperatorToken (Semicolon | Pipe | PipeBoth | Lexer.And | Or | Background)) => true
  | Some (DelimiterToken (RightParenthesis | RightBrace | RightBracket)) => true
  | _ => false
  end.
Definition ends_expression (k : option TokenKind) : bool :=
  match k with
  | Some (OperatorToken (Comma | MatchArrow)) | Some (DelimiterToken LeftBrace) => true
  | _ => ends_command k
  end.

(** The kinds after a name that make a value stage of it. *)
Definition ends_value_name (k : TokenKind) : bool :=
  match k with
  | Newline => true
  | OperatorToken (Semicolon | Pipe | PipeBoth | Lexer.And | Or | Background) => true
  | DelimiterToken (RightParenthesis | RightBracket | RightBrace) => true
  | _ => false
  end.
Definition continues_expression (k : TokenKind) : bool :=
  match k with
  | DelimiterToken (LeftParenthesis | LeftBracket) => true
  | OperatorToken (Colon | Dot | Equal | NotEqual | Less | LessEqual | Greater | GreaterEqual
                  | Plus | Minus | Star | Slash | Percent | Range | RangeInclusive) => true
  | _ => false
  end.

Definition kind_is (k : TokenKind) (t : option Token) : bool :=
  match t with Some t => bool_decide (kind t = k) | None => false end.

(** ** The recursive entry points *)

Class Rec := mkRec {
  rec_statement_list : option Delimiter → M (list Statement);
  rec_if_node : M (AstNode IfStatement);
  rec_conditional_chain : M ConditionalChain;
  rec_expression : M Expression;
  rec_unary : M Expression;
  rec_pattern : M Pattern;
  rec_type_reference : M TypeReference
}.

Section Parser.
Context `{Env}.

(** ** Looking at the input *)

Definition fuel : nat := S (S (length tokens)).

Definition iterate {X R} (body : X → M (X + R)) (x : X) : M R := loop fuel body x.

Definition poll : M bool := λ s, (Ok (is_cancelled (polls s)), with_poll s).

Definition check_cancelled : M unit :=
  c ← poll; if (c : bool) then fail ErrCancelled else mret tt.

Definition current_at (s : PState) : option Token := tokens !! position s.
Definition current : M (option Token) := gets current_at.
Definition current_kind : M (option TokenKind) := gets (λ s, kind <$> current_at s).
Definition peek (n : nat) : M (option Token) := gets (λ s, tokens !! (position s + n)).
Definition advance (n : nat) : M unit := modify (λ s, with_position (position s + n) s).
Definition is_end : M bool := gets (λ s, length tokens <=? position s).

Definition take_token : M (option Token) :=
  t ← current;
  match t with Some t => advance 1;; mret (Some t) | None => mret None end.

Definition mk_span (a b : nat) : M Span := λ s, (expect (span source a b), s).

(** [source.slice(span).ok()]. *)
Definition text_at (i : Span) : M (option str) := λ s,
  match slice source i with
  | Ok t => (Ok (Some t), s)
  | Err _ => (Ok None, s)
  | Panic => (Panic, s)
  end.
Definition text_is (i : Span) (w : str) : M bool :=
  t ← text_at i; mret (bool_decide (t = Some w)).

(** ** Errors *)

Definition invalid_at {A} (i : Span) (message : str) : M A :=
  fail (ErrInvalid (with_primary (Diagnostic_new SeverityError (bs "OP1000") message) i message)).
Definition incomplete_at {A} (reason : IncompleteReason) (i : Span) : M A :=
  fail (ErrIncomplete (mkIncomplete reason i)).

(** The span of the current token, or the end of the source. *)
Definition here : M Span :=
  t ← current;
  match t with Some t => mret (token_span t) | None => mk_span (source_len source) (source_len source) end.

Definition invalid_here {A} (message : str) : M A := i ← here; invalid_at i message.
Definition incomplete_here {A} (reason : IncompleteReason) : M A := i ← here; incomplete_at reason i.

Definition expected {A} (message : str) (reason : IncompleteReason) : M A :=
  e ← is_end; if (e : bool) then incomplete_here reason else invalid_here message.

(** [self.diagnostics.push] of the diagnostic that [invalid_here] makes. *)
Definition push_diagnostic (d : Diagnostic) : M unit := modify (with_diagnostic d).
Definition report_here (message : str) : M unit :=
  try_bind (invalid_here (A:=unit) message) (λ r,
    match r with inl (ErrInvalid d) => push_diagnostic d | _ => panic end).

Definition current_span : M Span :=
  t ← current;
  match t with Some t => mret (token_span t) | None => incomplete_here ExpressionReason end.

Definition previous_end : M nat :=
  gets (λ s, match tokens !! (position s - 1) with Some t => span_end (token_span t) | None => 0 end).

(** ** Taking tokens *)

Definition at_kind (k : TokenKind) : M bool := c ← current_kind; mret (bool_decide (c = Some k)).
Definition at_delimiter (d : option Delimiter) : M bool :=
  match d with Some d => at_kind (DelimiterToken d) | None => mret false end.
Definition at_keyword (k : Keyword) : M bool := at_kind (KeywordToken k).
Definition at_statement_separator : M bool :=
  c ← current_kind;
  mret (match c with Some Newline | Some (OperatorToken Semicolon) => true | _ => false end).

Definition take_if (k : TokenKind) : M (option Token) :=
  c ← at_kind k; if (c : bool) then take_token else mret None.
Definition take_operator (o : Operator) : M (option Token) := take_if (OperatorToken o).
Definition take_delimiter (d : Delimiter) : M (option Token) := take_if (DelimiterToken d).
Definition take_keyword (k : Keyword) : M (option Token) := take_if (KeywordToken k).

Definition expect_taken (taken : M (option Token)) (message : str) : M Token :=
  t ← taken; match t with Some t => mret t | None => expected message ExpressionReason end.
Definition expect_operator (o : Operator) (message : str) : M Token :=
  expect_taken (take_operator o) message.
Definition expect_delimiter (d : Delimiter) (message : str) : M Token :=
  expect_taken (take_delimiter d) message.
Definition expect_keyword (k : Keyword) (message : str) : M Token :=
  expect_taken (take_keyword k) message.

(** Whether the current token is the identifier [spelling]. *)
Definition at_contextual (spelling : str) : M bool :=
  t ← current;
  match t with
  | Some t =>
    if bool_decide (kind t = Lexer.Identifier) then text_is (token_span t) spelling else mret false
  | None => mret false
  end.
Definition expect_contextual_identifier (spelling message : str) : M Token :=
  c ← at_contextual spelling;
  if (c : bool) then t ← take_token; expect_current t
  else expected message ExpressionReason.

(** [self.take().expect(..)]. *)
Definition take_current : M Token := t ← take_token; expect_current t.

(** ** Skipping *)

Definition skip_while (f : TokenKind → bool) : M unit :=
  iterate (λ _ : unit,
    k ← current_kind;
    match k with
    | Some k =>
      if f k then c ← poll; if (c : bool) then mret (inr tt) else advance 1;; mret (inl tt)
      else mret (inr tt)
    | None => mret (inr tt)
    end) tt.

(** A newline is inline while a bracket is open. *)
Definition inline_here (depth : nat) (k : TokenKind) : bool :=
  is_inline k || ((0 <? depth) && bool_decide (k = Newline)).
Definition skip_inline : M unit :=
  depth ← gets continuation_depth; skip_while (inline_here depth).
Definition skip_layout : M unit := skip_while is_layout.
Definition skip_separators : M unit := skip_while is_separator.

(** The lines of a documentation comment and the newlines since. *)
Definition documentation_step (k : TokenKind) (i : Span) (x : list Span * nat)
    : option (list Span * nat) :=
  let '(lines, newlines) := x in
  match k with
  | DocumentationComment =>
      Some ((if negb (length lines =? 0) && negb (newlines =? 1) then [] else lines) ++ [i], 0)
  | Newline =>
      if length lines =? 0 then Some (lines, newlines)
      else if 1 <? S newlines then Some ([], 0) else Some (lines, S newlines)
  | Whitespace => Some (lines, newlines)
  | Comment | LineContinuation | OperatorToken Semicolon => Some ([], 0)
  | _ => None
  end.

Definition skip_separators_with_documentation : M (option DocumentationBlock) :=
  x ← iterate (λ x : list Span * nat,
    t ← current;
    match t with
    | None => mret (inr x)
    | Some t =>
      c ← poll;
      if (c : bool) then mret (inr x)
      else match documentation_step (kind t) (token_span t) x with
           | Some y => advance 1;; mret (inl y)
           | None => mret (inr x)
           end
    end) ([], 0);
  let '(lines, newlines) := (x : list Span * nat) in
  mret (if negb (length lines =? 0) && (newlines =? 1) then Some (mkDocumentation lines) else None).

(** Error recovery: to the end of the statement, brackets balanced. *)
Definition synchronize (closing : option Delimiter) : M unit :=
  iterate (λ delimiters : list Delimiter,
    t ← current;
    match t with
    | None => mret (inr tt)
    | Some t =>
      c ← poll;
      if (c : bool) then mret (inr tt)
      else
        let step :=
          advance 1;;
          mret (inl (match kind t with
                     | DelimiterToken ((LeftParenthesis | LeftBracket | LeftBrace) as d) =>
                         d :: delimiters
                     | DelimiterToken _ => tail delimiters
                     | _ => delimiters
                     end)) in
        match delimiters with
        | _ :: _ => step
        | [] =>
          if match closing with Some d => bool_decide (kind t = DelimiterToken d) | None => false end
          then mret (inr tt)
          else match kind t with
               | Newline | OperatorToken (Semicolon | Background) => advance 1;; mret (inr tt)
               | _ => step
               end
        end
    end) [].

(** ** Looking ahead *)

Fixpoint first_position (skip : TokenKind → bool) (ts : list Token) (i : nat) : option nat :=
  match ts with
  | [] => None
  | t :: ts => if skip (kind t) then first_position skip ts (S i) else Some i
  end.
Definition next_position (skip : TokenKind → bool) (i : nat) : option nat :=
  first_position skip (drop i tokens) i.
Definition next_non_inline_position : nat → option nat := next_position is_inline.
Definition next_non_layout_position : nat → option nat := next_position is_layout.
Definition next_non_inline (i : nat) : option Token :=
  j ← next_non_inline_position i; tokens !! j.

Definition name_is_assignment_at (s : PState) : bool :=
  match next_non_inline (position s + 1) with
  | Some t => is_assignment_operator (kind t)
  | None => false
  end.
Definition name_is_assignment : M bool := gets name_is_assignment_at.

Definition name_is_indexed_assignment : M bool := λ s,
  match next_non_inline_position (position s + 1) with
  | None => (Ok false, s)
  | Some open =>
    match bracket_ends s !! open with
    | None => (Panic, s)
    | Some close =>
        (Ok ((open <? close) && kind_is (OperatorToken Assign) (next_non_inline (close + 1))), s)
    end
  end.

Definition bracket_is_followed_by_call : M bool := λ s,
  match bracket_ends s !! position s with
  | None => (Panic, s)
  | Some close =>
    (Ok ((position s <? close) &&
         match next_position (inline_here (continuation_depth s)) (close + 1) with
         | Some j => kind_is (DelimiterToken LeftParenthesis) (tokens !! j)
         | None => false
         end), s)
  end.

Definition at_shorthand_end : M bool :=
  gets (λ s,
    match (j ← next_non_layout_position (position s); tokens !! j) with
    | Some t => match kind t with
                | OperatorToken Comma | DelimiterToken RightBrace => true
                | _ => false
                end
    | None => false
    end).

(** The identifier, its next token and the position of that token. *)
Definition starts_expression_name (s : PState) : bool :=
  let next_at := next_non_inline_position (position s + 1) in
  let next := (j ← next_at; tokens !! j) in
  let next_is f := match next with Some t => f (kind t) | None => false end in
  if (0 <? value_chain_depth s) && match next with Some t => ends_value_name (kind t) | None => true end
  then true
  else if (0 <? control_condition_depth s) && kind_is (DelimiterToken LeftBrace) next
  then true
  else if match next_at, next, current_at s with
          | Some j, Some t, Some here =>
              bool_decide (kind t = OperatorToken Minus) && negb (is_adjacent_to here t) &&
              match tokens !! S j with
              | Some second => bool_decide (kind second = OperatorToken Minus) && is_adjacent_to t second
              | None => false
              end
          | _, _, _ => false
          end
  then false
  else next_is continues_expression ||
       (kind_is (OperatorToken Colon) next &&
        kind_is (OperatorToken Colon) (next_non_inline (position s + 2))).

Definition starts_expression_stage : M bool :=
  gets (λ s,
    match kind <$> current_at s with
    | Some Lexer.Identifier => starts_expression_name s
    | Some (Number _ | SingleQuoted | DoubleQuoteStart | KeywordToken (KNull | KTrue | KFalse)
           | DelimiterToken (LeftParenthesis | LeftBracket | LeftBrace)
           | OperatorToken (Bang | Plus | Minus)) => true
    | _ => false
    end).

(** The current token, when the next one is adjacent and satisfies [f]. *)
Definition pair_at (k : TokenKind) (f : TokenKind → bool) (s : PState) : bool :=
  match current_at s, tokens !! S (position s) with
  | Some t, Some next => bool_decide (kind t = k) && is_adjacent_to t next && f (kind next)
  | _, _ => false
  end.

Definition starts_forced_command : M bool := gets (pair_at (OperatorToken Caret) can_start_word).
Definition closure_marker (k : TokenKind) : bool :=
  match k with OperatorToken (Pipe | Or) => true | _ => false end.
Definition starts_closure_at : PState → bool := pair_at (DelimiterToken LeftBrace) closure_marker.
Definition starts_closure : M bool := gets starts_closure_at.
Definition io_number_at : PState → bool := pair_at (Number Integer) is_redirection_operator.
Definition io_number_before_redirection : M bool := gets io_number_at.

Definition starts_redirection : M bool :=
  gets (λ s, match kind <$> current_at s with
             | Some k => is_redirection_operator k || io_number_at s
             | None => false
             end).

Definition at_command_end : M bool :=
  gets (λ s, negb (starts_closure_at s) && ends_command (kind <$> current_at s)).
Definition at_expression_end : M bool := gets (λ s, ends_expression (kind <$> current_at s)).

Definition starts_nominal_record : M bool :=
  gets (λ s,
    kind_is (DelimiterToken LeftBrace) (current_at s) &&
    match next_non_layout_position (position s + 1) with
    | None => false
    | Some first =>
      match kind <$> tokens !! first with
      | Some (DelimiterToken RightBrace) => true
      | Some Lexer.Identifier =>
        match (j ← next_non_layout_position (S first); t ← tokens !! j; Some (j, t)) with
        | None => false
        | Some (j, colon) =>
            (bool_decide (kind colon = OperatorToken Colon) &&
             negb match tokens !! S j with
                  | Some second =>
                      bool_decide (kind second = OperatorToken Colon) && is_adjacent_to colon second
                  | None => false
                  end) ||
            (negb (bool_decide (block_header_depth s = Some (continuation_depth s))) &&
             match kind colon with
             | OperatorToken Comma | DelimiterToken RightBrace => true
             | _ => false
             end)
        end
      | _ => false
      end
    end).

(** ** Lists *)

(** [while !at(closing) { item; if no comma break }]; a trailing comma is
    accepted.  The loop of the code tests the closer again after the comma
    where it says so: the test of the next turn is the same. *)
Definition comma_separated {A} (closing : M bool) (item : M A) : M (list A) :=
  iterate (λ items : list A,
    c ← closing;
    if (c : bool) then mret (inr items)
    else
      i ← item;
      skip_layout;;
      comma ← take_operator Comma;
      match comma with
      | None => mret (inr (items ++ [i]))
      | Some _ => skip_layout;; mret (inl (items ++ [i]))
      end) [].

(** The same, with an item before the first test. *)
Definition comma_separated1 {A} (closing : M bool) (item : M A) : M (list A) :=
  iterate (λ items : list A,
    i ← item;
    skip_layout;;
    comma ← take_operator Comma;
    match comma with
    | None => mret (inr (items ++ [i]))
    | Some _ =>
      skip_layout;;
      c ← closing;
      if (c : bool) then mret (inr (items ++ [i])) else mret (inl (items ++ [i]))
    end) [].

(** [self.continuation_depth += 1], [-= 1]. *)
Definition open_continuation : M unit :=
  modify (λ s, with_continuation (S (continuation_depth s)) s).
Definition close_continuation : M unit := λ s,
  match continuation_depth s with
  | O => (Panic, s)
  | S d => (Ok tt, with_continuation d s)
  end.

(** [m] between [+= 1] and [-= 1], the latter also when [m] fails. *)
Definition restoring {A} (m : M A) (after : M unit) : M A :=
  try_bind m (λ r, after;; match r with inl e => fail e | inr a => mret a end).

(** ** Names and types *)

Definition parse_identifier : M Identifier :=
  t ← take_token;
  match t with
  | Some t =>
    if bool_decide (kind t = Lexer.Identifier) then mret (token_span t)
    else invalid_at (token_span t) (bs "expected an identifier")
  | None => incomplete_here ExpressionReason
  end.

Definition parse_name_reference : M NameReference :=
  name ← parse_identifier; mret (mkNameReference name name).

(** Two colons, or the position as it was. *)
Definition take_path_separator : M bool :=
  checkpoint ← gets position;
  skip_inline;;
  one ← take_operator Colon;
  two ← match one with Some _ => take_operator Colon | None => mret None end;
  match (two : option Token) with
  | None => modify (with_position checkpoint);; mret false
  | Some _ => skip_inline;; mret true
  end.

Definition parse_qualified_name : M QualifiedName :=
  first ← parse_identifier;
  '(segments, stop) ← iterate (λ x : list Identifier * nat,
    let '(segments, stop) := x in
    separator ← take_path_separator;
    if (separator : bool) then
      segment ← parse_identifier;
      mret (inl (segments ++ [segment], span_end segment))
    else mret (inr (segments, stop))) ([first], span_end first);
  i ← mk_span (span_start first) stop;
  mret (mkQualifiedName segments i).

Context `{Rec}.

Definition parse_type_reference : M TypeReference :=
  e ← is_end;
  if (e : bool) then incomplete_here TypeReferenceReason
  else
    qualified ← parse_qualified_name;
    name ← expect_current (last (segments qualified));
    skip_inline;;
    open ← take_delimiter LeftBracket;
    '(arguments, stop) ← match (open : option Token) with
      | None => mret ([], span_end name)
      | Some _ =>
        skip_layout;;
        arguments ← comma_separated1 (at_delimiter (Some RightBracket)) rec_type_reference;
        close ← expect_delimiter RightBracket (bs "type arguments are not closed");
        mret (arguments, span_end (token_span close))
      end;
    i ← mk_span (span_start (qualified_span qualified)) stop;
    mret (mkTypeReference name arguments i).

Definition parse_constraints (name : Identifier) : M (list TypeConstraint * nat) :=
  iterate (λ constraints : list TypeConstraint,
    skip_inline;;
    constraint ← parse_identifier;
    text ← text_at constraint;
    value ← (if bool_decide (text = Some (bs "Equal")) then mret EqualConstraint
             else if bool_decide (text = Some (bs "Ordered")) then mret OrderedConstraint
             else invalid_at constraint (bs "generic constraints are `Equal` or `Ordered`"));
    if bool_decide (value ∈ constraints)
    then invalid_at constraint (bs "generic constraint cannot be repeated")
    else
      skip_inline;;
      plus ← take_operator Plus;
      match (plus : option Token) with
      | None => mret (inr (constraints ++ [value], span_end constraint))
      | Some _ => mret (inl (constraints ++ [value]))
      end) [].

Definition parse_type_parameter : M TypeParameter :=
  name ← parse_identifier;
  skip_inline;;
  colon ← take_operator Colon;
  '(constraints, stop) ← match (colon : option Token) with
    | None => mret ([], span_end name)
    | Some _ => parse_constraints name
    end;
  i ← mk_span (span_start name) stop;
  mret (mkTypeParameter name constraints i).

Definition parse_type_parameters : M (list TypeParameter) :=
  skip_inline;;
  open ← take_delimiter LeftBracket;
  match (open : option Token) with
  | None => mret []
  | Some _ =>
    skip_layout;;
    c ← at_delimiter (Some RightBracket);
    if (c : bool) then invalid_here (bs "generic parameter list cannot be empty")
    else
      parameters ← comma_separated (at_delimiter (Some RightBracket)) parse_type_parameter;
      expect_delimiter RightBracket (bs "generic parameter list is not closed");;
      mret parameters
  end.

(** ** Quoted text and literals *)

Definition parse_interpolation : M WordPart :=
  open ← take_current;
  open_continuation;;
  skip_layout;;
  expression ← rec_expression;
  skip_layout;;
  close ← expect_delimiter RightBrace (bs "interpolation is not closed");
  close_continuation;;
  i ← mk_span (span_start (token_span open)) (span_end (token_span close));
  modify (with_interpolation i);;
  mret (node (WInterpolation expression) i).

Definition parse_double_quoted : M WordPart :=
  check_cancelled;;
  open ← take_current;
  parts ← iterate (λ parts : list WordPart,
    c ← at_kind DoubleQuoteEnd;
    if (c : bool) then mret (inr parts)
    else
      check_cancelled;;
      t ← current;
      match t with
      | None => incomplete_at UnmatchedDoubleQuote (token_span open)
      | Some t =>
        part ← match kind t with
          | DoubleText => advance 1;; mret (node WDoubleText (token_span t))
          | DoubleEscape | LineContinuation => advance 1;; mret (node WDoubleEscape (token_span t))
          | EscapedBrace => advance 1;; mret (node WEscapedBrace (token_span t))
          | InterpolationStart => parse_interpolation
          | _ => invalid_here (bs "invalid double-quoted word part")
          end;
        mret (inl (parts ++ [part]))
      end) [];
  close ← take_current;
  i ← mk_span (span_start (token_span open)) (span_end (token_span close));
  mret (node (WDoubleQuoted parts) i).

Definition parse_literal : M Literal :=
  t ← current;
  match t with
  | None => incomplete_here ExpressionReason
  | Some t =>
    let simple k := advance 1;; mret (mkLiteral k (token_span t)) in
    match kind t with
    | KeywordToken KNull => simple LitNull
    | KeywordToken KTrue => simple (LitBoolean true)
    | KeywordToken KFalse => simple (LitBoolean false)
    | Number Integer => simple LitInteger
    | Number Float => simple LitFloat
    | SingleQuoted => simple LitSingleQuoted
    | DoubleQuoteStart =>
      part ← parse_double_quoted;
      match node_kind part with
      | WDoubleQuoted parts => mret (mkLiteral (LitDoubleQuoted parts) (node_span part))
      | _ => panic
      end
    | _ => invalid_here (bs "expected a literal")
    end
  end.

(** ** Patterns *)

Definition starts_literal (k : TokenKind) : bool :=
  match k with
  | KeywordToken (KNull | KTrue | KFalse) | Number _ | SingleQuoted | DoubleQuoteStart => true
  | _ => false
  end.

Definition parse_pattern_field : M PatternField :=
  check_cancelled;;
  field ← parse_identifier;
  skip_inline;;
  shorthand ← at_shorthand_end;
  pattern ← (if (shorthand : bool) then
               underscore ← text_is field (bs "_");
               mret (if (underscore : bool) then PWildcard field else PBinding field)
             else
               expect_operator Colon (bs "record pattern field requires `:`");;
               skip_layout;;
               rec_pattern);
  i ← mk_span (span_start field) (span_end (pattern_span pattern));
  mret (mkPatternField field pattern i).

Definition parse_list_pattern : M Pattern :=
  open ← take_current;
  skip_layout;;
  '(elements, rest) ← iterate (λ x : list Pattern * option Identifier,
    let '(elements, rest) := x in
    c ← at_delimiter (Some RightBracket);
    if (c : bool) then mret (inr (elements, rest))
    else
      spread ← take_operator Spread;
      match (spread : option Token) with
      | Some _ =>
        match rest with
        | Some _ => invalid_here (bs "list pattern has more than one rest binding")
        | None =>
          rest ← parse_identifier;
          skip_layout;;
          c ← at_delimiter (Some RightBracket);
          if (c : bool) then mret (inr (elements, Some rest))
          else invalid_here (bs "list rest binding must be last")
        end
      | None =>
        element ← rec_pattern;
        skip_layout;;
        comma ← take_operator Comma;
        match (comma : option Token) with
        | None => mret (inr (elements ++ [element], rest))
        | Some _ => skip_layout;; mret (inl (elements ++ [element], rest))
        end
      end) ([], None);
  close ← expect_delimiter RightBracket (bs "list pattern is not closed");
  i ← mk_span (span_start (token_span open)) (span_end (token_span close));
  mret (PList elements rest i).

(** What follows the name of a pattern. *)
Definition parse_pattern_tail (name : QualifiedName) : M Pattern :=
  brace ← take_delimiter LeftBrace;
  match (brace : option Token) with
  | Some _ =>
    skip_layout;;
    fields ← comma_separated (at_delimiter (Some RightBrace)) parse_pattern_field;
    close ← expect_delimiter RightBrace (bs "record pattern is not closed");
    i ← mk_span (span_start (qualified_span name)) (span_end (token_span close));
    mret (PNominalRecord name fields i)
  | None =>
    parenthesis ← take_delimiter LeftParenthesis;
    match (parenthesis : option Token) with
    | Some _ =>
      skip_layout;;
      payload ← comma_separated (at_delimiter (Some RightParenthesis)) rec_pattern;
      close ← expect_delimiter RightParenthesis (bs "variant pattern is not closed");
      i ← mk_span (span_start (qualified_span name)) (span_end (token_span close));
      mret (PVariant name payload i)
    | None =>
      match segments name with
      | [segment] => mret (PBinding segment)
      | [] => panic
      | _ => mret (PVariant name [] (qualified_span name))
      end
    end
  end.

(** The pattern that begins with a name. *)
Definition parse_named_pattern : M Pattern :=
  name ← parse_qualified_name;
  skip_inline;;
  wildcard ← match segments name with
    | [segment] => text_is segment (bs "_")
    | _ => mret false
    end;
  if (wildcard : bool) then mret (PWildcard (qualified_span name))
  else parse_pattern_tail name.

Definition parse_pattern : M Pattern :=
  k ← current_kind;
  match k with
  | Some Lexer.Identifier => parse_named_pattern
  | Some (DelimiterToken LeftBracket) => parse_list_pattern
  | Some k => if starts_literal k then l ← parse_literal; mret (PLiteral l)
              else invalid_here (bs "expected a match pattern")
  | None => incomplete_here ExpressionReason
  end.

(** ** Closures *)

(** One parameter of a function, an action or a closure. *)
Definition parse_parameter : M Param :=
  start ← current_span;
  pattern ← parse_pattern;
  name ← match pattern_primary_binding pattern with
    | Some name => mret name
    | None => invalid_at (pattern_span pattern) (bs "parameter pattern must bind a name")
    end;
  skip_inline;;
  colon ← take_operator Colon;
  annotation ← match (colon : option Token) with
    | Some _ => skip_layout;; t ← parse_type_reference; mret (Some t)
    | None => mret None
    end;
  let stop := match annotation with Some t => span_end (type_span t) | None => span_end name end in
  i ← mk_span (span_start start) stop;
  mret (mkParameter pattern name annotation i).

Definition parse_parameters (closing : Delimiter) : M (list Param) :=
  skip_layout;;
  comma_separated (at_delimiter (Some closing)) parse_parameter.

Definition parse_closure_parameters : M (list Param) :=
  skip_layout;;
  comma_separated (at_kind (OperatorToken Pipe)) parse_parameter.

Definition parse_value_chain : M ConditionalChain :=
  modify (λ s, with_value_chain (S (value_chain_depth s)) s);;
  restoring rec_conditional_chain (λ s,
    match value_chain_depth s with
    | O => (Panic, s)
    | S d => (Ok tt, with_value_chain d s)
    end).

Definition parse_closure : M Closure :=
  open ← expect_delimiter LeftBrace (bs "expected a closure");
  marker ← take_current;
  open_continuation;;
  parameters ← (if bool_decide (kind marker = OperatorToken Or) then mret []
                else
                  parameters ← parse_closure_parameters;
                  expect_operator Pipe (bs "closure parameters require a closing `|`");;
                  mret parameters);
  skip_layout;;
  arrow ← take_operator Arrow;
  result_type ← match (arrow : option Token) with
    | Some _ => skip_layout;; t ← parse_type_reference; mret (Some t)
    | None => mret None
    end;
  skip_layout;;
  body ← parse_value_chain;
  skip_layout;;
  close ← expect_delimiter RightBrace (bs "closure body is not closed");
  close_continuation;;
  i ← mk_span (span_start (token_span open)) (span_end (token_span close));
  mret (mkClosure parameters result_type body i).

(** ** Expressions *)

Definition binary (left : Expression) (operator : BinaryOperator) (operator_span : Span)
    (right : Expression) : M Expression :=
  i ← mk_span (span_start (node_span left)) (span_end (node_span right));
  mret (node (EBinary left (node operator operator_span) right) i).

Definition parse_record_field_value (name : Identifier) (message : str) : M Expression :=
  check_cancelled;;
  shorthand ← at_shorthand_end;
  if (shorthand : bool) then mret (node (EName (mkNameReference name name)) name)
  else
    expect_operator Colon message;;
    skip_layout;;
    rec_expression.

Definition parse_list_item : M ListItem :=
  marker ← take_operator Spread;
  operand ← rec_expression;
  mret match marker with
       | Some marker => LSpread (token_span marker) operand
       | None => LElement operand
       end.

Definition parse_list : M Expression :=
  open ← take_current;
  open_continuation;;
  skip_layout;;
  values ← comma_separated (at_delimiter (Some RightBracket)) parse_list_item;
  close ← expect_delimiter RightBracket (bs "list is not closed");
  close_continuation;;
  i ← mk_span (span_start (token_span open)) (span_end (token_span close));
  mret (node (EList values) i).

Definition parse_record_key : M RecordKey :=
  k ← current_kind;
  match k with
  | Some Lexer.Identifier => i ← parse_identifier; mret (RIdentifier i)
  | Some SingleQuoted => t ← take_current; mret (RSingleQuoted (token_span t))
  | Some DoubleQuoteStart => w ← parse_double_quoted; mret (RDoubleQuoted w)
  | Some _ => invalid_here (bs "expected a record key")
  | None => incomplete_here ExpressionReason
  end.

Definition parse_record_entry : M RecordEntry :=
  start ← current_span;
  key ← parse_record_key;
  skip_inline;;
  value ← match key with
    | RIdentifier name => parse_record_field_value name (bs "record entry requires `:`")
    | _ =>
      expect_operator Colon (bs "record entry requires `:`");;
      skip_layout;;
      rec_expression
    end;
  i ← mk_span (span_start start) (span_end (node_span value));
  mret (mkRecordEntry key value i).

Definition parse_record : M Expression :=
  open ← take_current;
  open_continuation;;
  skip_layout;;
  entries ← comma_separated (at_delimiter (Some RightBrace)) parse_record_entry;
  close ← expect_delimiter RightBrace (bs "record is not closed");
  close_continuation;;
  i ← mk_span (span_start (token_span open)) (span_end (token_span close));
  mret (node (ERecord entries) i).

Definition parse_grouped_job : M Expression :=
  open ← take_current;
  open_continuation;;
  skip_layout;;
  compound ← gets (λ s,
    match next_non_inline (position s + 1) with
    | Some t =>
      if kind_is Lexer.Identifier (current_at s) && name_is_assignment_at s &&
         negb (bool_decide (kind t = OperatorToken Assign))
      then Some t else None
    | None => None
    end);
  match compound with
  | Some t => invalid_at (token_span t) (bs "compound assignment requires a statement")
  | None =>
    chain ← rec_conditional_chain;
    skip_layout;;
    background ← at_kind (OperatorToken Background);
    if (background : bool)
    then invalid_here (bs "backgrounding is forbidden inside a grouped job")
    else
      close ← expect_delimiter RightParenthesis (bs "grouped job is not closed");
      close_continuation;;
      i ← mk_span (span_start (token_span open)) (span_end (token_span close));
      mret (node (EGroupedJob chain) i)
  end.

Definition parse_primary : M Expression :=
  check_cancelled;;
  skip_inline;;
  k ← current_kind;
  match k with
  | None => incomplete_here ExpressionReason
  | Some k =>
    if starts_literal k then
      literal ← parse_literal; mret (node (ELiteral literal) (literal_span literal))
    else
      match k with
      | Lexer.Identifier =>
        name ← parse_name_reference; mret (node (EName name) (reference_span name))
      | DelimiterToken LeftBracket => parse_list
      | DelimiterToken LeftBrace =>
        c ← starts_closure;
        if (c : bool) then
          closure ← parse_closure; mret (node (EClosure closure) (closure_span closure))
        else parse_record
      | DelimiterToken LeftParenthesis => parse_grouped_job
      | _ => invalid_here (bs "expected an expression")
      end
  end.

(** The qualified name that a name expression spells. *)
Definition expression_name (e : Expression) : option QualifiedName :=
  match node_kind e with
  | EName n => Some (mkQualifiedName [reference_name n] (reference_span n))
  | EQualified q => Some q
  | _ => None
  end.

(** [expression :: segment]; [None] when the second colon is missing. *)
Definition parse_qualified_postfix (name : QualifiedName) : M (option Expression) :=
  checkpoint ← gets position;
  advance 1;;
  two ← take_operator Colon;
  match (two : option Token) with
  | None => modify (with_position checkpoint);; mret None
  | Some _ =>
    skip_inline;;
    segment ← parse_identifier;
    first ← expect_current (head (segments name));
    i ← mk_span (span_start first) (span_end segment);
    mret (Some (node (EQualified (mkQualifiedName (segments name ++ [segment]) i)) i))
  end.

Definition parse_nominal_field : M NominalRecordFieldExpression :=
  field ← parse_identifier;
  skip_inline;;
  value ← parse_record_field_value field (bs "nominal field requires `:`");
  i ← mk_span (span_start field) (span_end (node_span value));
  mret (mkNominalField field value i).

Definition parse_nominal_postfix (name : QualifiedName) : M Expression :=
  advance 1;;
  open_continuation;;
  skip_layout;;
  fields ← comma_separated (at_delimiter (Some RightBrace)) parse_nominal_field;
  close ← expect_delimiter RightBrace (bs "nominal record construction is not closed");
  close_continuation;;
  i ← mk_span (span_start (qualified_span name)) (span_end (token_span close));
  mret (node (ENominalRecord name fields) i).

(** The arguments of a call, from the opening parenthesis. *)
Definition parse_call_postfix (callee : Expression) (type_arguments : list TypeReference)
    : M Expression :=
  advance 1;;
  open_continuation;;
  skip_layout;;
  arguments ← comma_separated (at_delimiter (Some RightParenthesis)) rec_expression;
  close ← expect_delimiter RightParenthesis (bs "call is not closed");
  close_continuation;;
  i ← mk_span (span_start (node_span callee)) (span_end (token_span close));
  mret (node (ECall callee type_arguments arguments) i).

Definition parse_index_postfix (target : Expression) : M Expression :=
  advance 1;;
  open_continuation;;
  skip_layout;;
  index ← rec_expression;
  skip_layout;;
  close ← expect_delimiter RightBracket (bs "index is not closed");
  close_continuation;;
  i ← mk_span (span_start (node_span target)) (span_end (token_span close));
  mret (node (EIndex target index) i).

(** Type arguments; a call follows them. *)
Definition parse_type_argument_postfix (expression : Expression) : M Expression :=
  advance 1;;
  open_continuation;;
  skip_layout;;
  type_arguments ← comma_separated (at_delimiter (Some RightBracket)) rec_type_reference;
  expect_delimiter RightBracket (bs "explicit type arguments are not closed");;
  close_continuation;;
  skip_inline;;
  c ← at_delimiter (Some LeftParenthesis);
  if (c : bool) then parse_call_postfix expression type_arguments
  else parse_index_postfix expression.

Definition parse_bracket_postfix (expression : Expression) : M Expression :=
  can_have_type_arguments ←
    match expression_name expression with
    | Some _ => bracket_is_followed_by_call
    | None => mret false
    end;
  if (can_have_type_arguments : bool) then parse_type_argument_postfix expression
  else parse_index_postfix expression.

Definition parse_member_postfix (target : Expression) : M Expression :=
  advance 1;;
  skip_inline;;
  member ← parse_identifier;
  i ← mk_span (span_start (node_span target)) (span_end member);
  mret (node (EMember target member) i).

(** One turn of the loop of [parse_postfix]; [None] leaves it. *)
Definition postfix_step (expression : Expression) : M (option Expression) :=
  check_cancelled;;
  skip_inline;;
  k ← current_kind;
  match k, expression_name expression with
  | Some (OperatorToken Colon), Some name => parse_qualified_postfix name
  | Some (DelimiterToken LeftBrace), Some name =>
    c ← starts_nominal_record;
    if (c : bool) then e ← parse_nominal_postfix name; mret (Some e) else mret None
  | Some (DelimiterToken LeftParenthesis), _ =>
    e ← parse_call_postfix expression []; mret (Some e)
  | Some (DelimiterToken LeftBracket), _ =>
    e ← parse_bracket_postfix expression; mret (Some e)
  | Some (OperatorToken Dot), _ => e ← parse_member_postfix expression; mret (Some e)
  | _, _ => mret None
  end.

Definition parse_postfix : M Expression :=
  check_cancelled;;
  expression ← parse_primary;
  iterate (λ expression : Expression,
    e ← postfix_step expression;
    mret match e with Some e => inl e | None => inr expression end) expression.

Definition unary_operator (k : option TokenKind) : option UnaryOperator :=
  match k with
  | Some (OperatorToken Bang) => Some UNot
  | Some (OperatorToken Plus) => Some UPositive
  | Some (OperatorToken Minus) => Some UNegative
  | _ => None
  end.

Definition parse_unary : M Expression :=
  check_cancelled;;
  k ← current_kind;
  match unary_operator k with
  | None => parse_postfix
  | Some operator =>
    t ← take_current;
    skip_layout;;
    operand ← rec_unary;
    i ← mk_span (span_start (token_span t)) (span_end (node_span operand));
    mret (node (EUnary (node operator (token_span t)) operand) i)
  end.

(** A left-associative level. *)
Definition left_associative (operator_of : option TokenKind → option BinaryOperator)
    (operand : M Expression) : M Expression :=
  expression ← operand;
  iterate (λ expression : Expression,
    check_cancelled;;
    skip_inline;;
    k ← current_kind;
    match operator_of k with
    | None => mret (inr expression)
    | Some operator =>
      t ← take_current;
      skip_layout;;
      right ← operand;
      e ← binary expression operator (token_span t) right;
      mret (inl e)
    end) expression.

(** A level whose operators do not associate. *)
Definition non_associative (operator_of : option TokenKind → option BinaryOperator)
    (message : str) (operand : M Expression) : M Expression :=
  left ← operand;
  skip_inline;;
  k ← current_kind;
  match operator_of k with
  | None => mret left
  | Some operator =>
    t ← take_current;
    skip_layout;;
    right ← operand;
    e ← binary left operator (token_span t) right;
    skip_inline;;
    k ← current_kind;
    match operator_of k with
    | Some _ => invalid_here message
    | None => mret e
    end
  end.

Definition multiplicative_operator (k : option TokenKind) : option BinaryOperator :=
  match k with
  | Some (OperatorToken Star) => Some BMultiply
  | Some (OperatorToken Slash) => Some BDivide
  | Some (OperatorToken Percent) => Some BRemainder
  | _ => None
  end.
Definition additive_operator (k : option TokenKind) : option BinaryOperator :=
  match k with
  | Some (OperatorToken Plus) => Some BAdd
  | Some (OperatorToken Minus) => Some BSubtract
  | _ => None
  end.
Definition range_operator (k : option TokenKind) : option BinaryOperator :=
  match k with
  | Some (OperatorToken Range) => Some BRange
  | Some (OperatorToken RangeInclusive) => Some BRangeInclusive
  | _ => None
  end.
Definition comparison_operator (k : option TokenKind) : option BinaryOperator :=
  match k with
  | Some (OperatorToken Less) => Some BLess
  | Some (OperatorToken LessEqual) => Some BLessEqual
  | Some (OperatorToken Greater) => Some BGreater
  | Some (OperatorToken GreaterEqual) => Some BGreaterEqual
  | Some (KeywordToken KIn) => Some BIn
  | _ => None
  end.
Definition equality_operator (k : option TokenKind) : option BinaryOperator :=
  match k with
  | Some (OperatorToken Equal) => Some BEqual
  | Some (OperatorToken NotEqual) => Some BNotEqual
  | _ => None
  end.

Definition parse_multiplicative : M Expression :=
  left_associative multiplicative_operator parse_unary.
Definition parse_additive : M Expression :=
  left_associative additive_operator parse_multiplicative.
Definition parse_range : M Expression :=
  non_associative range_operator (bs "range operators are non-associative") parse_additive.
Definition parse_comparison : M Expression :=
  non_associative comparison_operator (bs "comparison operators are non-associative") parse_range.
Definition parse_equality : M Expression :=
  non_associative equality_operator (bs "equality operators are non-associative") parse_comparison.

Definition parse_expression : M Expression := check_cancelled;; parse_equality.

(** ** Words and commands *)

(** The bare tokens that follow without a gap; their end. *)
Definition bare_run (stop : nat) : M nat :=
  iterate (λ stop : nat,
    t ← current;
    match t with
    | None => mret (inr stop)
    | Some next =>
      if (span_start (token_span next) =? stop) && is_bare_word_token (kind next) then
        check_cancelled;;
        advance 1;;
        mret (inl (span_end (token_span next)))
      else mret (inr stop)
    end) stop.

Definition is_brace (k : TokenKind) : bool :=
  match k with DelimiterToken (LeftBrace | RightBrace) => true | _ => false end.

Definition parse_bare_part (t : Token) : M (option WordPart) :=
  if is_bare_word_token (kind t) then
    advance 1;;
    stop ← bare_run (span_end (token_span t));
    i ← mk_span (span_start (token_span t)) stop;
    mret (Some (node WBare i))
  else mret None.

(** The part that the current token [t] begins. *)
Definition parse_token_part (t : Token) : M (option WordPart) :=
  match kind t with
  | BareEscape => advance 1;; mret (Some (node WBareEscape (token_span t)))
  | SingleQuoted => advance 1;; mret (Some (node WSingleQuoted (token_span t)))
  | DoubleQuoteStart => w ← parse_double_quoted; mret (Some w)
  | InterpolationStart | DelimiterToken LeftBrace => w ← parse_interpolation; mret (Some w)
  | EscapedBrace => advance 1;; mret (Some (node WEscapedBrace (token_span t)))
  | _ => parse_bare_part t
  end.

Definition parse_word_part : M (option WordPart) :=
  check_cancelled;;
  t ← current;
  match t with
  | None => mret None
  | Some t =>
    next ← peek 1;
    let doubled :=
      match next with
      | Some next =>
          is_brace (kind t) && bool_decide (kind next = kind t) && is_adjacent_to t next
      | None => false
      end in
    match doubled, next with
    | true, Some next =>
      advance 2;;
      i ← mk_span (span_start (token_span t)) (span_end (token_span next));
      mret (Some (node WEscapedBrace i))
    | _, _ => parse_token_part t
    end
  end.

Definition parse_word : M Word :=
  check_cancelled;;
  start ← current_span;
  '(parts, stop) ← iterate (λ x : list WordPart * nat,
    let '(parts, stop) := x in
    check_cancelled;;
    t ← current;
    if negb (length parts =? 0) &&
       match t with Some t => negb (span_start (token_span t) =? stop) | None => false end
    then mret (inr x)
    else
      part ← parse_word_part;
      match part with
      | None => mret (inr x)
      | Some part => mret (inl (parts ++ [part], span_end (node_span part)))
      end) ([], span_start start);
  if length (parts : list WordPart) =? 0 then invalid_here (bs "expected a command word")
  else i ← mk_span (span_start start) stop; mret (mkWord parts i).

Definition parse_redirection_target (operator : Span) : M Word :=
  e ← is_end;
  c ← at_command_end;
  if e || c then incomplete_at RedirectionTarget operator else parse_word.

Definition parse_redirection_kind (descriptor : option IoNumber) (operator : Token)
    : M RedirectionKind :=
  let operator_span := token_span operator in
  match kind operator with
  | OperatorToken Less =>
    skip_inline;;
    target ← parse_redirection_target operator_span;
    mret (RInput descriptor operator_span target)
  | OperatorToken ((Greater | Append) as o) =>
    let mode := match o with Append => AppendMode | _ => Truncate end in
    skip_inline;;
    target ← parse_redirection_target operator_span;
    mret (RFile descriptor mode operator_span target)
  | OperatorToken Duplicate =>
    match descriptor with
    | None =>
        invalid_at operator_span (bs "descriptor duplication requires a source descriptor")
    | Some descriptor =>
      skip_inline;;
      k ← current_kind;
      match k with
      | Some (Number Integer) =>
          t ← take_current; mret (RDuplicate descriptor operator_span (token_span t))
      | Some (OperatorToken Minus) =>
          t ← take_current; mret (RClose descriptor operator_span (token_span t))
      | Some _ =>
          invalid_here (bs "descriptor duplication requires a decimal descriptor or `-`")
      | None => incomplete_at RedirectionTarget operator_span
      end
    end
  | _ => invalid_at operator_span (bs "expected a redirection operator")
  end.

Definition redirection_end (r : RedirectionKind) : nat :=
  match r with
  | RInput _ _ target | RFile _ _ _ target => span_end (word_span target)
  | RDuplicate _ _ target => span_end target
  | RClose _ _ target_span => span_end target_span
  end.

(** From the operator on. *)
Definition parse_redirection_after (start : Span) (descriptor : option IoNumber) : M CommandItem :=
  operator ← take_token;
  match (operator : option Token) with
  | None => incomplete_here RedirectionTarget
  | Some operator =>
    r ← parse_redirection_kind descriptor operator;
    i ← mk_span (span_start start) (redirection_end r);
    mret (node (IRedirection (node r i)) i)
  end.

Definition parse_redirection_item : M CommandItem :=
  start ← current_span;
  io ← io_number_before_redirection;
  descriptor ← (if (io : bool) then t ← take_current; mret (Some (token_span t)) else mret None);
  parse_redirection_after start descriptor.

Definition parse_spread_item : M CommandItem :=
  spread ← take_current;
  open ← current;
  match (open : option Token) with
  | None => incomplete_at ExpressionReason (token_span spread)
  | Some open =>
    if negb (bool_decide (kind open = DelimiterToken LeftBrace)) ||
       negb (span_end (token_span spread) =? span_start (token_span open))
    then invalid_at (token_span spread) (bs "spread requires an adjacent `{expression}`")
    else
      interpolation ← parse_interpolation;
      i ← mk_span (span_start (token_span spread)) (span_end (node_span interpolation));
      match node_kind interpolation with
      | WInterpolation expression => mret (node (ISpread expression) i)
      | _ => panic
      end
  end.

Definition parse_command_item : M CommandItem :=
  redirection ← starts_redirection;
  if (redirection : bool) then parse_redirection_item
  else
    spread ← at_kind (OperatorToken Spread);
    if (spread : bool) then parse_spread_item
    else
      c ← starts_closure;
      if (c : bool) then
        closure ← parse_closure; mret (node (IClosure closure) (closure_span closure))
      else
        word ← parse_word; mret (node (IWord word) (word_span word)).

Definition parse_command_stage : M Stage :=
  forced ← starts_forced_command;
  marker ← (if (forced : bool) then t ← take_current; mret (Some t) else mret None);
  word ← parse_word;
  match (marker : option Token) with
  | Some marker =>
    if span_end (token_span marker) =? span_start (word_span word) then mret tt
    else invalid_at (token_span marker) (bs "`^` must be adjacent to a command name")
  | None => mret tt
  end;;
  let head_start :=
    match marker with
    | Some marker => span_start (token_span marker)
    | None => span_start (word_span word)
    end in
  previous ← previous_end;
  head_at ← mk_span head_start previous;
  let head := mkHead (if (forced : bool) then ForcedExternal else Bare) word head_at in
  '(items, stop) ← iterate (λ x : list CommandItem * nat,
    let '(items, stop) := x in
    skip_inline;;
    e ← at_command_end;
    if (e : bool) then mret (inr x)
    else
      item ← parse_command_item;
      mret (inl (items ++ [item], span_end (node_span item)))) ([], span_end head_at);
  i ← mk_span (span_start head_at) stop;
  mret (node (SCommand head items) i).

Definition is_reserved (k : option TokenKind) : bool :=
  match k with
  | Some (KeywordToken (KNull | KTrue | KFalse)) => false
  | Some (KeywordToken _) => true
  | _ => false
  end.

Definition parse_stage : M Stage :=
  skip_inline;;
  k ← current_kind;
  match k with
  | Some (OperatorToken (Pipe | PipeBoth)) =>
      invalid_here (bs "pipeline operator cannot begin a stage")
  | _ =>
    if is_reserved k
    then invalid_here (bs "reserved words cannot start a command stage without `^`")
    else
      forced ← starts_forced_command;
      if bool_decide (k = Some (OperatorToken Caret)) && negb forced then
        next ← peek 1;
        match (next : option Token) with
        | None => incomplete_here ExpressionReason
        | Some _ => invalid_here (bs "`^` must be adjacent to a command name")
        end
      else
        e ← starts_expression_stage;
        if forced || negb e then parse_command_stage
        else
          expression ← parse_expression;
          mret (node (SExpression expression) (node_span expression))
  end.

(** ** Chains *)

(** The terms of a chain: the first, then one after each operator. *)
Definition parse_chain {A O} (term : M A) (span_of : A → Span)
    (operator_of : option TokenKind → option O) (missing : IncompleteReason)
    : M (list A * list (AstNode O) * Span) :=
  check_cancelled;;
  first ← term;
  '(terms, operators, stop) ← iterate (λ x : list A * list (AstNode O) * nat,
    let '(terms, operators, stop) := x in
    check_cancelled;;
    skip_inline;;
    k ← current_kind;
    match operator_of k with
    | None => mret (inr x)
    | Some o =>
      operator ← take_current;
      skip_layout;;
      e ← is_end;
      if (e : bool) then incomplete_at missing (token_span operator)
      else
        term ← term;
        mret (inl (terms ++ [term], operators ++ [node o (token_span operator)],
                   span_end (span_of term)))
    end) ([first], [], span_end (span_of first));
  i ← mk_span (span_start (span_of first)) stop;
  mret (terms, operators, i).

Definition pipe_operator (k : option TokenKind) : option PipeOperator :=
  match k with
  | Some (OperatorToken Pipe) => Some Stdout
  | Some (OperatorToken PipeBoth) => Some StdoutAndStderr
  | _ => None
  end.
Definition and_operator (k : option TokenKind) : option AndOperator :=
  match k with Some (OperatorToken Lexer.And) => Some CondAnd | _ => None end.
Definition or_operator (k : option TokenKind) : option ConditionalOperator :=
  match k with Some (OperatorToken Or) => Some CondOr | _ => None end.

Definition parse_pipeline : M Pipeline :=
  '(stages, operators, i) ← parse_chain parse_stage node_span pipe_operator PipelineStage;
  mret (mkPipeline stages operators i).
Definition parse_and_chain : M AndChain :=
  '(terms, operators, i) ← parse_chain parse_pipeline pipeline_span and_operator ConditionalOperand;
  mret (mkAndChain terms operators i).
Definition parse_conditional_chain : M ConditionalChain :=
  '(terms, operators, i) ← parse_chain parse_and_chain and_chain_span or_operator ConditionalOperand;
  mret (mkChain terms operators i).

(** [block_header_depth.replace(continuation_depth)] around [m]. *)
Definition in_block_header {A} (m : M A) : M A :=
  previous ← gets block_header_depth;
  modify (λ s, with_block_header (Some (continuation_depth s)) s);;
  restoring m (modify (with_block_header previous)).

Definition parse_control_condition : M ConditionalChain :=
  modify (λ s, with_condition (S (control_condition_depth s)) s);;
  restoring (in_block_header parse_conditional_chain) (λ s,
    match control_condition_depth s with
    | O => (Panic, s)
    | S d => (Ok tt, with_condition d s)
    end).

Definition parse_block_header_expression : M Expression := in_block_header parse_expression.

Definition parse_block : M Block :=
  open ← expect_delimiter LeftBrace (bs "expected a block");
  statements ← rec_statement_list (Some RightBrace);
  close ← expect_delimiter RightBrace (bs "block is not closed");
  i ← mk_span (span_start (token_span open)) (span_end (token_span close));
  mret (mkBlock statements i).

(** ** Imports and exports *)

(** The component of a path after its last slash. *)
Definition last_component (s : str) : str :=
  match last (filter (λ p, p.2 = 47%Z) (imap pair s)) with
  | Some (i, _) => drop (S i) s
  | None => s
  end.

Definition strip_suffix (suffix s : str) : option str :=
  if (length suffix <=? length s) && str_eqb (drop (length s - length suffix) s) suffix
  then Some (take (length s - length suffix) s) else None.

Definition project_modules : list str :=
  [bs "context"; bs "tools"; bs "endpoints"; bs "secrets"; bs "targets"].

Definition parse_import_source : M ModuleImportSource :=
  k ← current_kind;
  match k with
  | Some SingleQuoted =>
    t ← take_current;
    if span_len (token_span t) =? 2
    then invalid_at (token_span t) (bs "module import path cannot be empty")
    else mret (LocalModule (token_span t))
  | Some Lexer.Identifier =>
    namespace ← parse_identifier;
    text ← text_at namespace;
    if negb (bool_decide (text = Some (bs "std"))) && negb (bool_decide (text = Some (bs "project")))
    then invalid_at namespace
           (bs "opaal module imports require a local path, `std::name`, or `project::name`")
    else
      expect_operator Colon (bs "qualified module requires `::`");;
      expect_operator Colon (bs "qualified module requires `::`");;
      module ← parse_identifier;
      i ← mk_span (span_start namespace) (span_end module);
      if bool_decide (text = Some (bs "project")) then
        module_text ← text_at module;
        if match module_text with Some t => existsb (str_eqb t) project_modules | None => false end
        then mret (ProjectModule namespace module i)
        else invalid_at module
               (bs "project module must be `context`, `tools`, `endpoints`, `secrets`, or `targets`")
      else mret (StandardModule namespace module i)
  | _ => expected (bs "opaal import requires a local path or qualified standard module")
           ExpressionReason
  end.

(** The members of a selector; the closing brace ends it, after a comma too. *)
Definition parse_module_member : M ModuleMemberSelector :=
  check_cancelled;;
  member ← parse_identifier;
  skip_layout;;
  renamed ← at_contextual (bs "as");
  local ← (if (renamed : bool) then take_token;; skip_layout;; parse_identifier else mret member);
  i ← mk_span (span_start member) (span_end local);
  mret (mkMember member local i).

(** [loop { item; skip; if closed return; expect comma; skip; if closed return }] *)
Definition until_brace {A} (item : M A) (message : str) : M (list A * Token) :=
  iterate (λ items : list A,
    i ← item;
    skip_layout;;
    close ← take_delimiter RightBrace;
    match (close : option Token) with
    | Some close => mret (inr (items ++ [i], close))
    | None =>
      expect_operator Comma message;;
      skip_layout;;
      close ← take_delimiter RightBrace;
      match (close : option Token) with
      | Some close => mret (inr (items ++ [i], close))
      | None => mret (inl (items ++ [i]))
      end
    end) [].

Definition parse_module_members (from : ModuleImportSource) (open : Span) : M ModuleImportEntry :=
  skip_layout;;
  '(members, close) ← until_brace parse_module_member (bs "member selectors require `,`");
  i ← mk_span (span_start open) (span_end (token_span close));
  mret (ImportMembers from members i).

(** The name of a local module: the stem of its path's last component. *)
Definition local_module_name (path : Span) : M Identifier :=
  literal ← (λ s, (expect (slice source path), s));
  body ← (λ s, (str_slice literal 1 (length literal - 1), s));
  let component := last_component body in
  let stem := default component (strip_suffix (bs ".opaal") component) in
  let start := span_end path - 1 - length component in
  i ← mk_span start (start + length stem);
  if is_identifier stem then mret i
  else invalid_at i (bs "local module name requires an explicit `as alias`").

Definition parse_module_import_entry : M ModuleImportEntry :=
  check_cancelled;;
  from ← parse_import_source;
  skip_inline;;
  colon ← take_operator Colon;
  match (colon : option Token) with
  | Some _ =>
    expect_operator Colon (bs "member selector requires `::`");;
    skip_inline;;
    open ← expect_delimiter LeftBrace (bs "member selector requires `{`");
    open_continuation;;
    restoring (parse_module_members from (token_span open)) close_continuation
  | None =>
    renamed ← at_contextual (bs "as");
    alias ← (if (renamed : bool) then take_token;; skip_inline;; parse_identifier
             else match from with
                  | StandardModule _ module _ | ProjectModule _ module _ => mret module
                  | LocalModule path => local_module_name path
                  end);
    mret (ImportAlias from alias)
  end.

Definition parse_module_import_group (start : Span) : M Statement :=
  skip_layout;;
  '(entries, close) ← until_brace parse_module_import_entry
                        (bs "import entries require `,`");
  i ← mk_span (span_start start) (span_end (token_span close));
  mret (node (ModuleImportGroup entries) i).

Definition parse_module_import : M Statement :=
  start ← take_current;
  skip_inline;;
  open ← take_delimiter LeftBrace;
  match (open : option Token) with
  | Some _ =>
    open_continuation;;
    restoring (parse_module_import_group (token_span start)) close_continuation
  | None =>
    entry ← parse_module_import_entry;
    i ← mk_span (span_start (token_span start)) (import_entry_end entry);
    mret (node (import_statement_kind entry) i)
  end.

(** A loop that skips blanks only, then an optional star. *)
Definition parse_module_export_name : M ModuleExportSelector :=
  name ← parse_identifier;
  skip_while (λ k, bool_decide (k = Whitespace));;
  star ← take_operator Star;
  mret match star with
       | Some star => ExportPrefix name (token_span star)
       | None => ExportName name
       end.

Definition parse_module_name_list (empty_message : str) : M (list ModuleExportSelector * Token) :=
  expect_delimiter LeftBrace (bs "module name list requires `{`");;
  skip_layout;;
  e ← at_delimiter (Some RightBrace);
  if (e : bool) then invalid_here empty_message
  else
    names ← comma_separated1 (at_delimiter (Some RightBrace)) parse_module_export_name;
    close ← expect_delimiter RightBrace (bs "module name list is not closed");
    mret (names, close).

Definition parse_export (top_level : bool) : M Statement :=
  start ← take_current;
  skip_inline;;
  list ← at_delimiter (Some LeftBrace);
  if (list : bool) then
    if negb top_level then invalid_here (bs "module exports are allowed only at module top level")
    else
      '(names, close) ← parse_module_name_list (bs "module export list cannot be empty");
      i ← mk_span (span_start (token_span start)) (span_end (token_span close));
      mret (node (ModuleExport names) i)
  else
    name ← parse_identifier;
    skip_inline;;
    expect_operator Assign (bs "export requires `=`");;
    skip_layout;;
    value ← parse_expression;
    i ← mk_span (span_start (token_span start)) (span_end (node_span value));
    mret (node (Environment (EnvExport name value)) i).

Definition parse_unset : M Statement :=
  start ← take_current;
  skip_inline;;
  name ← parse_identifier;
  i ← mk_span (span_start (token_span start)) (span_end name);
  mret (node (Environment (EnvUnset name)) i).

(** ** Type declarations *)

Definition parse_type_field : M NominalTypeField :=
  name ← parse_identifier;
  skip_inline;;
  expect_operator Colon (bs "nominal field requires `:`");;
  skip_inline;;
  value_type ← parse_type_reference;
  i ← mk_span (span_start name) (span_end (type_span value_type));
  mret (mkTypeField name value_type i).

Definition parse_nominal_type (top_level : bool) : M Statement :=
  if negb top_level then invalid_here (bs "nominal types are allowed only at module top level")
  else
    start ← take_current;
    skip_inline;;
    name ← parse_identifier;
    type_parameters ← parse_type_parameters;
    skip_inline;;
    expect_operator Assign (bs "type declaration requires `=`");;
    skip_layout;;
    expect_delimiter LeftBrace (bs "nominal record declaration requires `{`");;
    skip_layout;;
    fields ← comma_separated (at_delimiter (Some RightBrace)) parse_type_field;
    close ← expect_delimiter RightBrace (bs "nominal record declaration is not closed");
    i ← mk_span (span_start (token_span start)) (span_end (token_span close));
    mret (node (NominalType name type_parameters fields) i).

Definition parse_variant : M VariantDeclaration :=
  name ← parse_identifier;
  skip_inline;;
  open ← take_delimiter LeftParenthesis;
  '(payload, stop) ← match (open : option Token) with
    | None => mret ([], span_end name)
    | Some _ =>
      skip_layout;;
      payload ← comma_separated (at_delimiter (Some RightParenthesis)) parse_type_reference;
      close ← expect_delimiter RightParenthesis (bs "variant payload is not closed");
      mret (payload, span_end (token_span close))
    end;
  i ← mk_span (span_start name) stop;
  mret (mkVariant name payload i).

Definition parse_variant_type (top_level : bool) : M Statement :=
  if negb top_level then invalid_here (bs "variant types are allowed only at module top level")
  else
    start ← take_current;
    skip_inline;;
    name ← parse_identifier;
    type_parameters ← parse_type_parameters;
    skip_layout;;
    expect_delimiter LeftBrace (bs "variant declaration requires `{`");;
    skip_layout;;
    variants ← comma_separated (at_delimiter (Some RightBrace)) parse_variant;
    if length (variants : list VariantDeclaration) =? 0
    then invalid_here (bs "variant declaration cannot be empty")
    else
      close ← expect_delimiter RightBrace (bs "variant declaration is not closed");
      i ← mk_span (span_start (token_span start)) (span_end (token_span close));
      mret (node (VariantType name type_parameters variants) i).

(** ** Declarations and assignments *)

Definition parse_declaration (mutable : bool) : M Statement :=
  start ← take_current;
  skip_inline;;
  pattern ← parse_pattern;
  name ← match pattern_primary_binding pattern with
    | Some name => mret name
    | None => invalid_at (pattern_span pattern) (bs "declaration pattern must bind a name")
    end;
  skip_inline;;
  colon ← take_operator Colon;
  annotation ← match (colon : option Token) with
    | Some _ => skip_inline;; t ← parse_type_reference; mret (Some t)
    | None => mret None
    end;
  skip_inline;;
  expect_operator Assign (bs "declaration requires `=`");;
  skip_layout;;
  value ← parse_expression;
  i ← mk_span (span_start (token_span start)) (span_end (node_span value));
  mret (node (Declaration mutable pattern name annotation value) i).

(** The operator a compound assignment applies; [None] when the token is not
    an assignment operator. *)
Definition assignment_operator (k : TokenKind) : option (option BinaryOperator) :=
  match k with
  | OperatorToken Assign => Some None
  | OperatorToken AddAssign => Some (Some BAdd)
  | OperatorToken SubtractAssign => Some (Some BSubtract)
  | OperatorToken MultiplyAssign => Some (Some BMultiply)
  | OperatorToken DivideAssign => Some (Some BDivide)
  | OperatorToken RemainderAssign => Some (Some BRemainder)
  | _ => None
  end.

Definition parse_assignment : M Statement :=
  target ← parse_name_reference;
  skip_inline;;
  t ← take_current;
  operator ← match assignment_operator (kind t) with
    | Some operator => mret operator
    | None => panic
    end;
  skip_layout;;
  value ← parse_expression;
  value ← match (operator : option BinaryOperator) with
    | Some operator =>
        binary (node (EName target) (reference_span target)) operator (token_span t) value
    | None => mret value
    end;
  i ← mk_span (span_start (reference_span target)) (span_end (node_span value));
  mret (node (Assignment target value) i).

Definition parse_indexed_assignment : M Statement :=
  target ← parse_name_reference;
  skip_inline;;
  open ← expect_delimiter LeftBracket (bs "index requires `[` ");
  open_continuation;;
  skip_layout;;
  index ← parse_expression;
  skip_layout;;
  close ← expect_delimiter RightBracket (bs "index is not closed");
  close_continuation;;
  skip_inline;;
  operator ← expect_operator Assign (bs "indexed assignment requires `=`");
  skip_layout;;
  value ← parse_expression;
  i ← mk_span (span_start (reference_span target)) (span_end (node_span value));
  brackets ← mk_span (span_start (token_span open)) (span_end (token_span close));
  mret (node (IndexedAssignment target index brackets (token_span operator) value) i).

(** ** Functions, actions, tasks *)

Definition parse_function (documentation : option DocumentationBlock) : M Statement :=
  start ← take_current;
  skip_inline;;
  name ← parse_identifier;
  type_parameters ← parse_type_parameters;
  skip_inline;;
  expect_delimiter LeftParenthesis (bs "function requires parameters");;
  parameters ← parse_parameters RightParenthesis;
  expect_delimiter RightParenthesis (bs "function parameters are not closed");;
  skip_inline;;
  arrow ← take_operator Arrow;
  return_type ← match (arrow : option Token) with
    | Some _ => skip_layout;; t ← parse_type_reference; mret (Some t)
    | None => mret None
    end;
  skip_layout;;
  body ← parse_block;
  i ← mk_span (span_start (token_span start)) (span_end (block_span body));
  mret (node (Function documentation name type_parameters parameters return_type body) i).

Definition parse_effect_argument : M StaticEffectArgument :=
  k ← current_kind;
  match k with
  | Some Lexer.Identifier => q ← parse_qualified_name; mret (EffectQualified q)
  | Some k =>
    if starts_literal k then l ← parse_literal; mret (EffectLiteral l)
    else invalid_here (bs "effect arguments must be literals or qualified project identities")
  | None => invalid_here (bs "effect arguments must be literals or qualified project identities")
  end.

Definition parse_effect_request : M EffectRequest :=
  family ← parse_identifier;
  expect_operator Dot (bs "capability requires `family.operation`");;
  operation ← parse_identifier;
  capability_at ← mk_span (span_start family) (span_end operation);
  skip_inline;;
  open ← take_delimiter LeftParenthesis;
  '(arguments, stop) ← match (open : option Token) with
    | None => mret ([], span_end capability_at)
    | Some _ =>
      skip_layout;;
      arguments ← comma_separated (at_delimiter (Some RightParenthesis)) parse_effect_argument;
      close ← expect_delimiter RightParenthesis (bs "effect arguments are not closed");
      skip_inline;;
      mret (arguments, span_end (token_span close))
    end;
  i ← mk_span (span_start family) stop;
  mret (mkEffectRequest (mkCapability family operation capability_at) arguments i).

Definition parse_effect_block : M (list EffectRequest * Span) :=
  left ← expect_delimiter LeftBrace (bs "effects block requires `{`");
  skip_layout;;
  requests ← iterate (λ requests : list EffectRequest,
    c ← at_delimiter (Some RightBrace);
    if (c : bool) then mret (inr requests)
    else
      request ← parse_effect_request;
      skip_layout;;
      c ← at_delimiter (Some RightBrace);
      if (c : bool) then mret (inr (requests ++ [request]))
      else
        expect_operator Comma (bs "effect requests require `,` instead of `;`");;
        skip_layout;;
        mret (inl (requests ++ [request]))) [];
  right ← expect_delimiter RightBrace (bs "effects block is not closed");
  i ← mk_span (span_start (token_span left)) (span_end (token_span right));
  mret (requests, i).

Definition parse_action (top_level : bool) (documentation : option DocumentationBlock)
    : M Statement :=
  if negb top_level then invalid_here (bs "actions are allowed only at module top level")
  else
    start ← take_current;
    skip_inline;;
    name ← parse_identifier;
    type_parameters ← parse_type_parameters;
    skip_inline;;
    expect_delimiter LeftParenthesis (bs "action requires parameters");;
    parameters ← parse_parameters RightParenthesis;
    expect_delimiter RightParenthesis (bs "action parameters are not closed");;
    skip_inline;;
    expect_operator Arrow (bs "action requires an explicit result type");;
    skip_layout;;
    return_type ← parse_type_reference;
    skip_layout;;
    open ← expect_delimiter LeftBrace
      (bs "action requires `{` before its `effects {}` prologue; move effects inside the action block");
    skip_layout;;
    effects_keyword ← expect_contextual_identifier (bs "effects")
      (bs "action requires a first `effects {}` prologue");
    skip_layout;;
    '(effects, effects_block_at) ← parse_effect_block;
    effects_at ← mk_span (span_start (token_span effects_keyword)) (span_end effects_block_at);
    statements ← rec_statement_list (Some RightBrace);
    close ← expect_delimiter RightBrace (bs "action block is not closed");
    body_at ← mk_span (span_start (token_span open)) (span_end (token_span close));
    let body := mkBlock statements body_at in
    i ← mk_span (span_start (token_span start)) (span_end body_at);
    mret (node (Action documentation name type_parameters parameters return_type effects
                  effects_at body) i).

Definition parse_task (top_level : bool) (documentation : option DocumentationBlock)
    : M Statement :=
  if negb top_level then invalid_here (bs "tasks are allowed only at module top level")
  else
    start ← take_current;
    skip_inline;;
    name ← parse_identifier;
    skip_inline;;
    expect_operator Assign (bs "task requires `=`");;
    skip_layout;;
    action ← parse_qualified_name;
    i ← mk_span (span_start (token_span start)) (span_end (qualified_span action));
    mret (node (Task documentation name action) i).

(** ** Control flow *)

Definition parse_try : M Statement :=
  start ← take_current;
  skip_inline;;
  try_block ← parse_block;
  skip_inline;;
  expect_keyword KCatch (bs "try statement requires `catch`");;
  skip_inline;;
  catch_binding ← parse_identifier;
  skip_inline;;
  catch_block ← parse_block;
  i ← mk_span (span_start (token_span start)) (span_end (block_span catch_block));
  mret (node (Try try_block catch_binding catch_block) i).

Definition parse_throw : M Statement :=
  start ← take_current;
  skip_layout;;
  expression ← parse_expression;
  i ← mk_span (span_start (token_span start)) (span_end (node_span expression));
  mret (node (Throw expression) i).

Definition parse_if_node : M (AstNode IfStatement) :=
  start ← take_current;
  skip_inline;;
  condition ← parse_control_condition;
  skip_inline;;
  then_block ← parse_block;
  skip_inline;;
  else_keyword ← take_keyword KElse;
  '(else_branch, stop) ← match (else_keyword : option Token) with
    | None => mret (None, span_end (block_span then_block))
    | Some _ =>
      skip_inline;;
      nested ← at_keyword KIf;
      if (nested : bool) then
        nested ← rec_if_node;
        mret (Some (ElseIf nested), span_end (node_span nested))
      else
        block ← parse_block;
        mret (Some (ElseBlock block), span_end (block_span block))
    end;
  i ← mk_span (span_start (token_span start)) stop;
  mret (node (mkIf condition then_block else_branch) i).

Definition parse_while : M Statement :=
  start ← take_current;
  skip_inline;;
  condition ← parse_control_condition;
  skip_inline;;
  body ← parse_block;
  i ← mk_span (span_start (token_span start)) (span_end (block_span body));
  mret (node (While condition body) i).

Definition parse_for : M Statement :=
  start ← take_current;
  skip_inline;;
  binding ← parse_identifier;
  skip_inline;;
  expect_keyword KIn (bs "for binding requires `in`");;
  skip_layout;;
  iterable ← parse_block_header_expression;
  skip_inline;;
  body ← parse_block;
  i ← mk_span (span_start (token_span start)) (span_end (block_span body));
  mret (node (For binding iterable body) i).

Definition parse_match_arm : M MatchArm :=
  start ← current_span;
  pattern ← parse_pattern;
  skip_inline;;
  if_keyword ← take_keyword KIf;
  guard ← match (if_keyword : option Token) with
    | Some _ => skip_inline;; e ← parse_expression; mret (Some e)
    | None => mret None
    end;
  skip_inline;;
  expect_operator MatchArrow (bs "match arm requires `=>`");;
  skip_layout;;
  body ← parse_block;
  i ← mk_span (span_start start) (span_end (block_span body));
  mret (mkArm pattern guard body i).

(** One turn of the loop of [parse_match] over its arms. *)
Definition match_arms_step (arms : list MatchArm) : M (list MatchArm + list MatchArm) :=
  c ← at_delimiter (Some RightBrace);
  if (c : bool) then mret (inr arms)
  else
    try_bind parse_match_arm (λ r,
      match r with
      | inl (ErrInvalid d) =>
        push_diagnostic d;;
        synchronize (Some RightBrace);;
        skip_separators;;
        mret (inl arms)
      | inl e => fail e
      | inr arm =>
        let arms := arms ++ [arm] in
        skip_inline;;
        c ← at_delimiter (Some RightBrace);
        if (c : bool) then mret (inr arms)
        else
          separator ← at_statement_separator;
          if (separator : bool) then skip_separators;; mret (inl arms)
          else
            report_here (bs "match arms require a separator");;
            synchronize (Some RightBrace);;
            skip_separators;;
            mret (inl arms)
      end).

Definition parse_match : M Statement :=
  start ← take_current;
  skip_inline;;
  value ← parse_block_header_expression;
  skip_inline;;
  expect_delimiter LeftBrace (bs "match requires an arm block");;
  skip_separators;;
  arms ← iterate match_arms_step [];
  close ← expect_delimiter RightBrace (bs "match block is not closed");
  i ← mk_span (span_start (token_span start)) (span_end (token_span close));
  mret (node (Match value arms) i).

Definition parse_control (transfer : ControlTransfer) : M Statement :=
  t ← take_current;
  mret (node (Control transfer) (token_span t)).

Definition parse_return : M Statement :=
  start ← take_current;
  skip_inline;;
  e ← at_expression_end;
  value ← (if (e : bool) then mret None else e ← parse_expression; mret (Some e));
  let stop :=
    match (value : option Expression) with
    | Some e => span_end (node_span e)
    | None => span_end (token_span start)
    end in
  i ← mk_span (span_start (token_span start)) stop;
  mret (node (Control (Return value)) i).

Definition parse_job_statement : M Statement :=
  chain ← parse_conditional_chain;
  skip_inline;;
  background ← take_operator Background;
  let background_at := token_span <$> (background : option Token) in
  let stop := match background_at with Some b => span_end b | None => span_end (chain_span chain) end in
  i ← mk_span (span_start (chain_span chain)) stop;
  mret (node (JobStatement chain background_at) i).

(** ** Statements *)

(** [effects] before a block, outside an action's prologue. *)
Definition misplaced_effects : M bool :=
  effects ← at_contextual (bs "effects");
  if (effects : bool) then
    saved ← gets position;
    advance 1;;
    skip_layout;;
    block ← at_delimiter (Some LeftBrace);
    modify (with_position saved);;
    mret block
  else mret false.

Definition parse_statement (top_level : bool) (documentation : option DocumentationBlock)
    : M Statement :=
  check_cancelled;;
  skip_inline;;
  misplaced ← misplaced_effects;
  if (misplaced : bool)
  then invalid_here (bs "effects block is allowed only as the first action prologue")
  else
    k ← current_kind;
    match k with
    | Some (KeywordToken KImport) =>
        if top_level then parse_module_import
        else invalid_here (bs "imports are allowed only at module top level")
    | Some (KeywordToken KLet) => parse_declaration false
    | Some (KeywordToken KMut) => parse_declaration true
    | Some (KeywordToken KExport) => parse_export top_level
    | Some (KeywordToken KUnset) => parse_unset
    | Some (KeywordToken KDef) => parse_function documentation
    | Some (KeywordToken KAction) => parse_action top_level documentation
    | Some (KeywordToken KTask) => parse_task top_level documentation
    | Some (KeywordToken KType) => parse_nominal_type top_level
    | Some (KeywordToken KEnum) => parse_variant_type top_level
    | Some (KeywordToken KIf) =>
        n ← parse_if_node; mret (node (If (node_kind n)) (node_span n))
    | Some (KeywordToken KWhile) => parse_while
    | Some (KeywordToken KFor) => parse_for
    | Some (KeywordToken KMatch) => parse_match
    | Some (KeywordToken KTry) => parse_try
    | Some (KeywordToken KThrow) => parse_throw
    | Some (KeywordToken KBreak) => parse_control Break
    | Some (KeywordToken KContinue) => parse_control Continue
    | Some (KeywordToken KReturn) => parse_return
    | Some (KeywordToken KElse) => invalid_here (bs "else requires a preceding if statement")
    | Some (KeywordToken KCatch) => invalid_here (bs "catch requires a preceding try statement")
    | Some Lexer.Identifier =>
      assignment ← name_is_assignment;
      if (assignment : bool) then parse_assignment
      else
        indexed ← name_is_indexed_assignment;
        if (indexed : bool) then parse_indexed_assignment else parse_job_statement
    | Some _ => parse_job_statement
    | None => incomplete_here ExpressionReason
    end.

Definition is_backgrounded (s : Statement) : bool :=
  match node_kind s with JobStatement _ (Some _) => true | _ => false end.

(** One turn of the loop of [parse_statement_list]: the statements so far and
    the documentation before the next. *)
Definition statement_list_step (closing : option Delimiter)
    (x : list Statement * option DocumentationBlock)
    : M ((list Statement * option DocumentationBlock) + list Statement) :=
  let '(statements, documentation) := x in
  let next statements := d ← skip_separators_with_documentation; mret (inl (statements, d)) in
  let recover statements message :=
    report_here message;; synchronize closing;; next statements in
  e ← is_end;
  c ← at_delimiter closing;
  if e || c then mret (inr statements)
  else
    check_cancelled;;
    try_bind (parse_statement (bool_decide (closing = None)) documentation) (λ r,
      match r with
      | inl (ErrInvalid d) => push_diagnostic d;; synchronize closing;; next statements
      | inl e => fail e
      | inr statement =>
        let statements := statements ++ [statement] in
        skip_inline;;
        if is_backgrounded statement then next statements
        else
          c ← at_delimiter closing;
          e ← is_end;
          if c || e then mret (inr statements)
          else
            background ← at_kind (OperatorToken Background);
            if (background : bool)
            then recover statements (bs "background marker can terminate only a job statement")
            else
              separator ← at_statement_separator;
              if (separator : bool) then next statements
              else recover statements (bs "expected a statement boundary")
      end).

Definition parse_statement_list (closing : option Delimiter) : M (list Statement) :=
  check_cancelled;;
  documentation ← skip_separators_with_documentation;
  iterate (statement_list_step closing) ([], documentation).
End Parser.

(** ** The knot *)

Definition no_rec : Rec :=
  mkRec (λ _, panic) panic panic panic panic panic panic.

Fixpoint parser `{Env} (n : nat) : Rec :=
  match n with
  | O => no_rec
  | S n =>
    let r := parser n in
    mkRec parse_statement_list parse_if_node parse_conditional_chain parse_expression parse_unary
      parse_pattern parse_type_reference
  end.

(** [Parser::new]. *)
Definition initial_state `{Env} (polled : nat) : PState :=
  mkPState 0 (replicate (length tokens) 0) 0 0 None 0 [] [] polled.

(** The delimiter census: the end of each bracket, at its start. *)
Fixpoint census `{Env} (ts : list Token) (index : nat) (brackets : list nat) : M unit :=
  match ts with
  | [] => mret tt
  | t :: ts =>
    check_cancelled;;
    match kind t with
    | DelimiterToken LeftBracket => census ts (S index) (index :: brackets)
    | DelimiterToken RightBracket =>
      match brackets with
      | open :: brackets =>
        modify (λ s, with_bracket_ends (<[open := index]> (bracket_ends s)) s);;
        census ts (S index) brackets
      | [] => census ts (S index) brackets
      end
    | _ => census ts (S index) brackets
    end
  end.

Definition parse_script `{Env} : M Script :=
  let r := parser fuel in
  check_cancelled;;
  census tokens 0 [];;
  statements ← parse_statement_list None;
  skip_separators;;
  e ← is_end;
  (if (e : bool) then mret tt else report_here (bs "unexpected syntax after statement"));;
  ds ← gets diagnostics;
  match ds with
  | [] => i ← mk_span 0 (source_len source); mret (mkScript statements i)
  | _ => fail (ErrInvalidMany ds)
  end.

(** [parse_tokens], after [polled] calls of the predicate; with the
    interpolation spans. *)
Definition parse_tokens `{Env} (polled : nat)
    : res Empty_set (ControlledParseOutcome * list Span) :=
  if is_cancelled polled then Ok (ControlledCancelled, [])
  else
    let* classification := expect (classify_opaal_tokens source tokens) in
    if is_cancelled (S polled) then Ok (ControlledCancelled, [])
    else
      match classification with
      | ClassifiedIncomplete i => Ok (Parsed (OutcomeIncomplete i), [])
      | ClassifiedInvalid d => Ok (Parsed (OutcomeInvalid [d]), [])
      | ClassifiedComplete =>
        let '(parsed, s) := parse_script (initial_state (S (S polled))) in
        let spans := interpolation_spans s in
        match parsed with
        | Panic => Panic
        | Ok _ | Err _ =>
          if is_cancelled (polls s) then Ok (ControlledCancelled, spans)
          else
            Ok (match parsed with
                | Ok script => Parsed (OutcomeComplete script)
                | Err (ErrIncomplete i) => Parsed (OutcomeIncomplete i)
                | Err (ErrInvalid d) => Parsed (OutcomeInvalid [d])
                | Err (ErrInvalidMany ds) => Parsed (OutcomeInvalid ds)
                | Err ErrCancelled | Panic => ControlledCancelled
                end, spans)
        end
      end.

(** The lexer polls once before each token and once at the end. *)
Definition parse_controlled (source : SourceFile) (is_cancelled : nat → bool)
    : res Empty_set (ControlledParseOutcome * list Span) :=
  let* lexed := lex_opaal_with_control source is_cancelled in
  match lexed with
  | None => Ok (ControlledCancelled, [])
  | Some ts => let E := mkEnv source ts is_cancelled in parse_tokens (S (length ts))
  end.

Definition parse_opaal_with_control (source : SourceFile) (is_cancelled : nat → bool)
    : res Empty_set ControlledParseOutcome :=
  let* ' (o, _) := parse_controlled source is_cancelled in Ok o.

Definition parse_opaal (source : SourceFile) : res Empty_set ParseOutcome :=
  let* o := parse_opaal_with_control source (λ _, false) in
  match o with Parsed o => Ok o | ControlledCancelled => Panic end.

Definition parse_opaal_with_interpolation_spans (source : SourceFile)
    : res Empty_set (ParseOutcome * list Span) :=
  let* ' (o, spans) := parse_controlled source (λ _, false) in
  match o with Parsed o => Ok (o, spans) | ControlledCancelled => Panic end.
