(* ===== verification/SyntaxTree.v ===== *)
(** * Syntax as a tree of source ranges

    The specification side of the parser: every node of the syntax tree with
    its range, what it is, and the nodes it is made of.  [nested], [levels_ok]
    and [block_covered] state what the ranges, the operators and the statement
    lists of parsed source promise. *)
From S2P Require Import Prelude Utf8 Source Lexer Ast Parser.

(** What a node is: an expression, a block with the ranges of its statements
    (and of its effects clause, in an action),
    a list in braces with where its entries end (and where what precedes it
    ends), a declaration with a signature, a part of a token, or anything else. *)
Inductive tree_label :=
| PlainNode
| TokenPart
| ExpressionNode (k : ExpressionKind)
| BlockNode (statements : list Span)
| SignatureNode
| BracedNode (after : nat) (ends : list nat).

Inductive syntax_tree := Tree (s : Span) (label : tree_label) (children : list syntax_tree).

Definition root (t : syntax_tree) : Span := let 'Tree s _ _ := t in s.
Definition leaf (s : Span) : syntax_tree := Tree s PlainNode [].
Definition plain (s : Span) (children : list syntax_tree) : syntax_tree := Tree s PlainNode children.

Definition name_tree (n : NameReference) : syntax_tree :=
  plain (reference_span n) [leaf (reference_name n)].
Definition qualified_tree (q : QualifiedName) : syntax_tree :=
  plain (qualified_span q) (List.map leaf (segments q)).
Definition optional {A} (f : A → syntax_tree) (o : option A) : list syntax_tree :=
  match o with Some a => [f a] | None => [] end.

Fixpoint type_tree (t : TypeReference) : syntax_tree :=
  plain (type_span t) (leaf (type_name t) :: List.map type_tree (type_arguments t)).

(** A parameter that destructures without an annotation ends with the name it
    binds, which may be inside its pattern: such a pattern is put beside its
    parameter, every other one inside. *)
Definition destructures_bare (pattern : Pattern) (annotation : option TypeReference) : bool :=
  match annotation, pattern with
  | Some _, _ | None, PBinding _ => false
  | None, _ => true
  end.

Fixpoint expression_children (k : ExpressionKind) : list syntax_tree :=
  let expr (e : Expression) :=
    Tree (node_span e) (ExpressionNode (node_kind e)) (expression_children (node_kind e)) in
  match k with
  | ELiteral l => [literal_tree l]
  | EName n => [name_tree n]
  | EQualified q => [qualified_tree q]
  | EList items => List.map item_tree items
  | ERecord entries => List.map entry_tree entries
  | ENominalRecord name fields => qualified_tree name :: List.map field_tree fields
  | EClosure c => [closure_tree c]
  | EGroupedJob chain => [chain_tree chain]
  | ECall callee type_args arguments =>
      expr callee :: List.map type_tree type_args ++ List.map expr arguments
  | EIndex target index => [expr target; expr index]
  | EMember target member => [expr target; leaf member]
  | EUnary operator operand => [leaf (node_span operator); expr operand]
  | EBinary l operator r => [expr l; leaf (node_span operator); expr r]
  end
with item_tree (i : ListItem) : syntax_tree :=
  let expr (e : Expression) :=
    Tree (node_span e) (ExpressionNode (node_kind e)) (expression_children (node_kind e)) in
  match i with
  | LElement e => expr e
  | LSpread marker e =>
      plain (mkSpan (span_source_id marker) (span_start marker) (span_end (node_span e)))
        [leaf marker; expr e]
  end
with entry_tree (r : RecordEntry) : syntax_tree :=
  match r with
  | mkRecordEntry key e s =>
      plain s [key_tree key;
               Tree (node_span e) (ExpressionNode (node_kind e)) (expression_children (node_kind e))]
  end
with key_tree (k : RecordKey) : syntax_tree :=
  match k with
  | RIdentifier i => leaf i
  | RSingleQuoted s => leaf s
  | RDoubleQuoted w => plain (node_span w) (part_children (node_kind w))
  end
with field_tree (f : NominalRecordFieldExpression) : syntax_tree :=
  match f with
  | mkNominalField name e s =>
      plain s [leaf name;
               Tree (node_span e) (ExpressionNode (node_kind e)) (expression_children (node_kind e))]
  end
with closure_tree (c : Closure) : syntax_tree :=
  match c with
  | mkClosure parameters result_type body s =>
      plain s (List.concat (List.map parameter_trees parameters) ++
               optional type_tree result_type ++ [chain_tree body])
  end
with parameter_trees (p : Param) : list syntax_tree :=
  match p with
  | mkParameter pattern name annotation s =>
      let named := leaf name :: optional type_tree annotation in
      if destructures_bare pattern annotation then [plain s named; pattern_tree pattern]
      else [plain s (named ++ [pattern_tree pattern])]
  end
with literal_tree (l : Literal) : syntax_tree :=
  match l with
  | mkLiteral (LitDoubleQuoted parts) s =>
      plain s (List.map (λ w : WordPart, plain (node_span w) (part_children (node_kind w))) parts)
  | mkLiteral _ s => leaf s
  end
with part_children (w : WordPartKind) : list syntax_tree :=
  match w with
  | WDoubleQuoted parts =>
      List.map (λ w : WordPart, plain (node_span w) (part_children (node_kind w))) parts
  | WInterpolation e =>
      [Tree (node_span e) (ExpressionNode (node_kind e)) (expression_children (node_kind e))]
  | _ => []
  end
with pattern_tree (p : Pattern) : syntax_tree :=
  match p with
  | PWildcard s => leaf s
  | PLiteral l => literal_tree l
  | PBinding i => leaf i
  | PList elements rest s => plain s (List.map pattern_tree elements ++ optional leaf rest)
  | PNominalRecord name fields s =>
      plain s (qualified_tree name :: List.map pattern_field_tree fields)
  | PVariant ctor payload s => plain s (qualified_tree ctor :: List.map pattern_tree payload)
  end
with pattern_field_tree (f : PatternField) : syntax_tree :=
  match f with mkPatternField name pattern s => plain s [leaf name; pattern_tree pattern] end
with chain_tree (c : ConditionalChain) : syntax_tree :=
  match c with
  | mkChain terms operators s =>
      plain s (List.map and_chain_tree terms ++
               List.map (λ o : AstNode ConditionalOperator, leaf (node_span o)) operators)
  end
with and_chain_tree (c : AndChain) : syntax_tree :=
  match c with
  | mkAndChain terms operators s =>
      plain s (List.map pipeline_tree terms ++
               List.map (λ o : AstNode AndOperator, leaf (node_span o)) operators)
  end
with pipeline_tree (p : Pipeline) : syntax_tree :=
  match p with
  | mkPipeline stages operators s =>
      plain s (List.map (λ g : Stage, plain (node_span g) (stage_children (node_kind g))) stages ++
               List.map (λ o : AstNode PipeOperator, leaf (node_span o)) operators)
  end
with stage_children (g : StageKind) : list syntax_tree :=
  match g with
  | SCommand head items =>
      head_tree head ::
      List.map (λ i : CommandItem, plain (node_span i) (command_item_children (node_kind i))) items
  | SExpression e =>
      [Tree (node_span e) (ExpressionNode (node_kind e)) (expression_children (node_kind e))]
  end
with head_tree (h : CommandHead) : syntax_tree :=
  match h with mkHead _ w s => plain s [word_tree w] end
with command_item_children (i : CommandItemKind) : list syntax_tree :=
  match i with
  | IWord w => [word_tree w]
  | ISpread e =>
      [Tree (node_span e) (ExpressionNode (node_kind e)) (expression_children (node_kind e))]
  | IClosure c => [closure_tree c]
  | IRedirection r => [plain (node_span r) (redirection_children (node_kind r))]
  end
with word_tree (w : Word) : syntax_tree :=
  match w with
  | mkWord parts s =>
      plain s (List.map (λ w : WordPart, plain (node_span w) (part_children (node_kind w))) parts)
  end
with redirection_children (r : RedirectionKind) : list syntax_tree :=
  match r with
  | RInput descriptor operator target => optional leaf descriptor ++ [leaf operator; word_tree target]
  | RFile descriptor _ operator target => optional leaf descriptor ++ [leaf operator; word_tree target]
  | RDuplicate descriptor operator target => [leaf descriptor; leaf operator; leaf target]
  | RClose descriptor operator target => [leaf descriptor; leaf operator; leaf target]
  end.

Definition expr_tree (e : Expression) : syntax_tree :=
  Tree (node_span e) (ExpressionNode (node_kind e)) (expression_children (node_kind e)).
Definition part_tree (w : WordPart) : syntax_tree :=
  plain (node_span w) (part_children (node_kind w)).
Definition stage_tree (g : Stage) : syntax_tree :=
  plain (node_span g) (stage_children (node_kind g)).
Definition item_node_tree (i : CommandItem) : syntax_tree :=
  plain (node_span i) (command_item_children (node_kind i)).
Definition redirection_tree (r : Redirection) : syntax_tree :=
  plain (node_span r) (redirection_children (node_kind r)).

(** ** Statements *)

Definition import_source_tree (m : ModuleImportSource) : syntax_tree :=
  match m with
  | LocalModule path => leaf path
  | StandardModule namespace module s | ProjectModule namespace module s =>
      plain s [leaf namespace; leaf module]
  end.
Definition member_tree (m : ModuleMemberSelector) : syntax_tree :=
  plain (member_span m) [leaf (member m); leaf (member_local m)].
(** Without an [as], the name of a local module is a part of its path's token. *)
Definition alias_tree (m : ModuleImportSource) (alias : Identifier) : syntax_tree :=
  match m with
  | LocalModule path =>
      if span_start alias <? span_end path then Tree alias TokenPart [] else leaf alias
  | _ => leaf alias
  end.
Definition members_tree (from : ModuleImportSource) (members : list ModuleMemberSelector) (s : Span)
    : syntax_tree :=
  Tree s (BracedNode (span_end (import_source_span from))
            (List.map (λ m, span_end (member_span m)) members))
    (List.map member_tree members).
Definition import_entry_trees (e : ModuleImportEntry) : list syntax_tree :=
  match e with
  | ImportAlias from alias => [import_source_tree from; alias_tree from alias]
  | ImportMembers from members s => [import_source_tree from; members_tree from members s]
  end.
Definition export_trees (e : ModuleExportSelector) : list syntax_tree :=
  match e with ExportName i => [leaf i] | ExportPrefix i marker => [leaf i; leaf marker] end.
Definition type_parameter_tree (p : TypeParameter) : syntax_tree :=
  plain (parameter_span p) [leaf (parameter_name p)].
Definition type_field_tree (f : NominalTypeField) : syntax_tree :=
  plain (field_span f) [leaf (field_name f); type_tree (field_type f)].
Definition variant_tree (v : VariantDeclaration) : syntax_tree :=
  plain (variant_span v) (leaf (variant_name v) :: List.map type_tree (variant_payload v)).
Definition effect_argument_tree (a : StaticEffectArgument) : syntax_tree :=
  match a with EffectLiteral l => literal_tree l | EffectQualified q => qualified_tree q end.
Definition capability_tree (c : CapabilityName) : syntax_tree :=
  plain (capability_span c) [leaf (capability_family c); leaf (capability_operation c)].
Definition effect_tree (r : EffectRequest) : syntax_tree :=
  plain (effect_span r)
    (capability_tree (capability r) :: List.map effect_argument_tree (effect_arguments r)).
Definition effects_tree (effects : list EffectRequest) (s : Span) : syntax_tree :=
  Tree s (BracedNode 0 (List.map (λ r, span_end (effect_span r)) effects))
    (List.map effect_tree effects).

(** The value of [target op= value] is [target op value], whatever the levels
    of the operators of [value]: a node, but no expression as written. *)
Definition assigned_tree (target : NameReference) (value : Expression) : syntax_tree :=
  match node_kind value with
  | EBinary l operator r =>
    if bool_decide (node_span l = reference_span target)
    then plain (node_span value) [expr_tree l; leaf (node_span operator); expr_tree r]
    else expr_tree value
  | _ => expr_tree value
  end.

Definition statement_label (k : StatementKind) : tree_label :=
  match k with
  | ModuleImportGroup entries => BracedNode 0 (List.map import_entry_end entries)
  | Function _ _ _ _ _ _ | Action _ _ _ _ _ _ _ _ => SignatureNode
  | _ => PlainNode
  end.

(** The block of an action also holds its effects clause: no statement, but
    all that may stand beside the statements. *)
Fixpoint statement_children (k : StatementKind) : list syntax_tree :=
  let stmt (s : Statement) :=
    Tree (node_span s) (statement_label (node_kind s)) (statement_children (node_kind s)) in
  let statements b := let 'mkBlock ss _ := b in List.map stmt ss in
  let statement_spans b := let 'mkBlock ss _ := b in List.map node_span ss in
  match k with
  | ModuleImport from alias => [import_source_tree from; alias_tree from alias]
  | ModuleMemberImport from members s =>
      [import_source_tree from; members_tree from members s]
  | ModuleImportGroup entries => List.concat (List.map import_entry_trees entries)
  | ModuleExport names => List.concat (List.map export_trees names)
  | NominalType name parameters fields =>
      leaf name :: List.map type_parameter_tree parameters ++ List.map type_field_tree fields
  | VariantType name parameters variants =>
      leaf name :: List.map type_parameter_tree parameters ++ List.map variant_tree variants
  | Declaration _ pattern name annotation value =>
      pattern_tree pattern :: leaf name :: optional type_tree annotation ++ [expr_tree value]
  | Assignment target value => [name_tree target; assigned_tree target value]
  | IndexedAssignment target index brackets operator value =>
      [name_tree target; plain brackets [expr_tree index]; leaf operator; expr_tree value]
  | Environment (EnvExport name value) => [leaf name; expr_tree value]
  | Environment (EnvUnset name) => [leaf name]
  | Function _ name type_parameters parameters return_type body =>
      leaf name :: List.map type_parameter_tree type_parameters ++ List.concat (List.map parameter_trees parameters) ++
      optional type_tree return_type ++ [block_tree body]
  | Action _ name type_parameters parameters return_type effects effects_span body =>
      leaf name :: List.map type_parameter_tree type_parameters ++ List.concat (List.map parameter_trees parameters) ++
      [type_tree return_type; effects_tree effects effects_span;
       Tree (block_span body) (BlockNode (effects_span :: statement_spans body))
         (statements body)]
  | Task _ name action => [leaf name; qualified_tree action]
  | If i => if_children i
  | While condition body => [chain_tree condition; block_tree body]
  | For binding iterable body => [leaf binding; expr_tree iterable; block_tree body]
  | Match value arms => expr_tree value :: List.map arm_tree arms
  | Try try_block binding catch_block => [block_tree try_block; leaf binding; block_tree catch_block]
  | Throw e => [expr_tree e]
  | Control (Return value) => optional expr_tree value
  | Control _ => []
  | JobStatement chain background => chain_tree chain :: optional leaf background
  end
with block_tree (b : Block) : syntax_tree :=
  match b with
  | mkBlock statements s =>
      Tree s (BlockNode (List.map node_span statements))
        (List.map (λ st : Statement, Tree (node_span st) (statement_label (node_kind st))
                                       (statement_children (node_kind st))) statements)
  end
with if_children (i : IfStatement) : list syntax_tree :=
  match i with
  | mkIf condition then_block else_branch =>
      [chain_tree condition; block_tree then_block] ++
      match else_branch with
      | None => []
      | Some (ElseBlock b) => [block_tree b]
      | Some (ElseIf n) => [plain (node_span n) (if_children (node_kind n))]
      end
  end
with arm_tree (a : MatchArm) : syntax_tree :=
  match a with
  | mkArm pattern guard body s =>
      plain s (pattern_tree pattern :: optional expr_tree guard ++ [block_tree body])
  end.

Definition statement_tree (s : Statement) : syntax_tree :=
  Tree (node_span s) (statement_label (node_kind s)) (statement_children (node_kind s)).
Definition if_tree (n : AstNode IfStatement) : syntax_tree :=
  plain (node_span n) (if_children (node_kind n)).
Definition script_tree (s : Script) : syntax_tree :=
  plain (script_span s) (List.map statement_tree (script_statements s)).

(** ** What parsed source promises *)

(** The binding strength of an expression's outermost operator: 0 for an
    operand. *)
Definition binary_level (o : BinaryOperator) : nat :=
  match o with
  | BMultiply | BDivide | BRemainder => 2
  | BAdd | BSubtract => 3
  | BRange | BRangeInclusive => 4
  | BLess | BLessEqual | BGreater | BGreaterEqual | BIn => 5
  | BEqual | BNotEqual => 6
  end.
Definition level (k : ExpressionKind) : nat :=
  match k with
  | EUnary _ _ => 1
  | EBinary _ o _ => binary_level (node_kind o)
  | _ => 0
  end.
Definition expr_level (e : Expression) : nat := level (node_kind e).

(** Products and sums associate to the left, the other operators not at all. *)
Definition associates (o : BinaryOperator) : bool := binary_level o <=? 3.

Definition levels_ok (k : ExpressionKind) : Prop :=
  match k with
  | EBinary l o r =>
      expr_level r < binary_level (node_kind o) ∧
      (if associates (node_kind o) then expr_level l ≤ binary_level (node_kind o)
       else expr_level l < binary_level (node_kind o))
  | EUnary _ operand => expr_level operand ≤ 1
  | ECall e _ _ | EIndex e _ | EMember e _ => expr_level e = 0
  | _ => True
  end.

Definition within (s : Span) (lo hi : nat) : Prop := lo ≤ span_start s ∧ span_end s ≤ hi.

(** A token is a separator or part of a statement. *)
Definition token_covered (statements : list Span) (t : Token) : Prop :=
  is_separator (kind t) = true ∨
  Exists (λ s, within (token_span t) (span_start s) (span_end s)) statements.

(** Every token strictly between the braces of a block. *)
Definition block_covered (tokens : list Token) (s : Span) (statements : list Span) : Prop :=
  Forall (λ t, within (token_span t) (S (span_start s)) (span_end s - 1) →
               token_covered statements t) tokens.

(** [nested f P t]: every range is the source's, contains those of its parts,
    and every label satisfies [P]. *)
Inductive nested (f : SourceFile) (P : Span → tree_label → Prop) : syntax_tree → Prop :=
| Nested s l cs :
    validate_span f s = Ok tt → P s l →
    Forall (λ t, within (root t) (span_start s) (span_end s)) cs →
    Forall (nested f P) cs →
    nested f P (Tree s l cs).

Definition label_levels (l : tree_label) : Prop :=
  match l with ExpressionNode k => levels_ok k | _ => True end.
Definition label_covered (tokens : list Token) (s : Span) (l : tree_label) : Prop :=
  match l with BlockNode statements => block_covered tokens s statements | _ => True end.

(** ** The range of a tree *)

Lemma root_literal l : root (literal_tree l) = literal_span l.
Proof. by destruct l as [[] ]. Qed.
Lemma root_pattern p : root (pattern_tree p) = pattern_span p.
Proof. destruct p; simpl; [done|apply root_literal|done..]. Qed.
Lemma root_closure c : root (closure_tree c) = closure_span c.
Proof. by destruct c. Qed.
Lemma root_chain c : root (chain_tree c) = chain_span c.
Proof. by destruct c. Qed.
Lemma root_and_chain c : root (and_chain_tree c) = and_chain_span c.
Proof. by destruct c. Qed.
Lemma root_pipeline p : root (pipeline_tree p) = pipeline_span p.
Proof. by destruct p. Qed.
Lemma root_word w : root (word_tree w) = word_span w.
Proof. by destruct w. Qed.
Lemma root_head h : root (head_tree h) = head_span h.
Proof. by destruct h. Qed.
Lemma root_block b : root (block_tree b) = block_span b.
Proof. by destruct b. Qed.
Lemma root_type t : root (type_tree t) = type_span t.
Proof. by destruct t. Qed.
Lemma root_source m : root (import_source_tree m) = import_source_span m.
Proof. by destruct m. Qed.

Create HintDb roots.
#[export] Hint Rewrite root_literal root_pattern root_closure root_chain root_and_chain
  root_pipeline root_word root_head root_block root_type root_source : roots.
