(* ===== verification/ParserLogic.v ===== *)
(** * Reasoning about the parser

    A weakest-precondition calculus for the parser's computations over a
    lexed source that is never cancelled: token boundaries, the frame that
    every operation keeps ([reach]), trees whose ranges are token boundaries
    ([inner], [exact]), and the specifications of the token operations. *)
From S2P Require Import Prelude Utf8 Source Lexer LexerFacts Diagnostic Ast Parser SyntaxTree.

Local Open Scope res_scope.

(** The environment [parse_opaal] runs in. *)
Class Lexed `{E : Env} : Prop := mkLexed {
  never_cancelled : ∀ n, is_cancelled n = false;
  lexed_wf : source_wf source;
  lexed_tiles : tiling source 0 tokens (source_len source);
  lexed_quotes : ∀ t x, t ∈ tokens → kind t = SingleQuoted → token_text t source = Ok x →
    2 ≤ length x ∧ head x = Some 39%Z ∧ last x = Some 39%Z
}.

(** ** Token boundaries *)

Section Boundaries.
Context `{E : Env} `{L : !Lexed}.

(** Where the [i]-th token starts; the end of the source after the last. *)
Definition B (i : nat) : nat :=
  match tokens !! i with Some t => span_start (token_span t) | None => source_len source end.
Definition spn (i j : nat) : Span := mkSpan (source_id source) (B i) (B j).

Definition tok (i : nat) (t : Token) : Prop :=
  tokens !! i = Some t ∧ token_span t = spn i (S i) ∧ i < length tokens.

Lemma tiling_lookup f a ts b i t :
  tiling f a ts b → ts !! i = Some t →
  let start k := match ts !! k with Some t => span_start (token_span t) | None => b end in
  token_span t = mkSpan (source_id f) (start i) (start (S i)) ∧ start i < start (S i) ∧
  (a ≤ start i) ∧ is_char_boundary (source_text f) (start (S i)) = true.
Proof.
  revert a i. induction ts as [|u ts IH]; intros a i; [done|].
  intros (Hs & Hlt & Hb & _ & Ht) Hi. simpl. destruct i as [|i]; simpl in *.
  - injection Hi as ->.
    assert (match ts !! 0 with Some t0 => span_start (token_span t0) | None => b end
            = span_end (token_span t)) as ->.
    { destruct ts as [|v ts]; simpl in *; [done|]. destruct Ht as (-> & _). done. }
    rewrite Hs. simpl. done.
  - destruct (IH _ i Ht Hi) as (H1 & H2 & H3 & H4). split_and!; [done..|lia|done].
Qed.

Lemma tok_lookup i t : tokens !! i = Some t → tok i t.
Proof.
  intros Hi. destruct (tiling_lookup _ _ _ _ _ _ lexed_tiles Hi) as (H & _).
  split_and!; [done|exact H|by eapply lookup_lt_Some].
Qed.

Lemma B_end i : length tokens ≤ i → B i = source_len source.
Proof. intros. unfold B. by rewrite lookup_ge_None_2. Qed.

Lemma B_step i : i < length tokens → B i < B (S i).
Proof.
  intros [t Ht]%lookup_lt_is_Some_2.
  by destruct (tiling_lookup _ _ _ _ _ _ lexed_tiles Ht) as (_ & ? & _).
Qed.

Lemma B_mono i j : i ≤ j → B i ≤ B j.
Proof.
  induction 1 as [|j _ IH]; [done|]. destruct (decide (j < length tokens)).
  - pose proof (B_step j). lia.
  - rewrite (B_end j), (B_end (S j)) in * by lia. done.
Qed.

Lemma B_lt i j : i < j → i < length tokens → B i < B j.
Proof. intros. pose proof (B_step i). pose proof (B_mono (S i) j). lia. Qed.

Lemma B_0 : B 0 = 0.
Proof.
  pose proof lexed_tiles as Ht. unfold B. destruct tokens as [|t ts]; simpl in *; [done|].
  by destruct Ht as (-> & _).
Qed.

Lemma B_boundary i : is_char_boundary (source_text source) (B i) = true.
Proof.
  induction i as [|i IH]; [by rewrite B_0|].
  destruct (decide (i < length tokens)) as [[t Ht]%lookup_lt_is_Some_2|].
  - by destruct (tiling_lookup _ _ _ _ _ _ lexed_tiles Ht) as (_ & _ & _ & ?).
  - rewrite B_end in * by lia. done.
Qed.

Lemma B_le i : B i ≤ source_len source.
Proof. apply boundary_le, B_boundary. Qed.

Lemma span_ok f a b :
  a ≤ b → is_char_boundary (source_text f) a = true → is_char_boundary (source_text f) b = true →
  span f a b = Ok (mkSpan (source_id f) a b).
Proof.
  intros Hab Ha Hb. pose proof (boundary_le _ _ Hb). unfold span.
  rewrite (proj2 (Nat.ltb_ge _ _)) by lia.
  rewrite (proj2 (Nat.ltb_ge _ _)) by (unfold source_len; lia).
  by rewrite (proj2 (validate_offset_ok _ _) Ha), (proj2 (validate_offset_ok _ _) Hb).
Qed.

Lemma validate_ok f a b :
  a ≤ b → is_char_boundary (source_text f) a = true → is_char_boundary (source_text f) b = true →
  validate_span f (mkSpan (source_id f) a b) = Ok tt.
Proof.
  intros Hab Ha Hb. pose proof (boundary_le _ _ Hb). unfold validate_span. simpl.
  rewrite Z.eqb_refl. simpl.
  rewrite (proj2 (Nat.ltb_ge _ _)) by lia.
  rewrite (proj2 (Nat.ltb_ge _ _)) by (unfold source_len; lia).
  rewrite (proj2 (validate_offset_ok _ _) Ha). cbn [res_bind]. by apply validate_offset_ok.
Qed.

Lemma spn_valid i j : i ≤ j → validate_span source (spn i j) = Ok tt.
Proof. intros. apply validate_ok; auto using B_mono, B_boundary. Qed.

Lemma spn_join a i j k l : a = spn i j → a = spn k l → a = spn i l.
Proof. intros -> [= H1 H2]. unfold spn. by rewrite H2. Qed.

(** ** Results *)

(** A range of the source's text. *)
Definition spot_ok (i : Span) : Prop := validate_span source i = Ok tt.

(** A diagnostic of the parser: one primary label on a range of the source. *)
Definition diag_ok (d : Diagnostic) : Prop :=
  ∃ i message, spot_ok i ∧
    d = with_primary (Diagnostic_new SeverityError (bs "OP1000") message) i message.

Definition err_ok (e : ParseError) : Prop :=
  match e with
  | ErrIncomplete i => spot_ok (incomplete_span i)
  | ErrInvalid d => diag_ok d
  | ErrInvalidMany _ | ErrCancelled => False
  end.

(** [skipped a b]: only separators between two positions. *)
Definition skipped (a b : nat) : Prop :=
  a ≤ b ∧ ∀ k t, a ≤ k < b → tokens !! k = Some t → is_separator (kind t) = true.

Lemma skipped_refl a : skipped a a.
Proof. split; [done|]. intros. lia. Qed.
Lemma skipped_trans a b c : skipped a b → skipped b c → skipped a c.
Proof.
  intros [? H1] [? H2]. split; [lia|]. intros k t Hk.
  destruct (decide (k < b)); [apply H1|apply H2]; lia.
Qed.

(** Every token from [lo] to before [hi] is a separator or in a statement. *)
Definition covered (statements : list Span) (lo hi : nat) : Prop :=
  ∀ k t, lo ≤ k < hi → tokens !! k = Some t → token_covered statements t.

(** [laid a b]: only layout between two positions. *)
Definition laid (a b : nat) : Prop :=
  a ≤ b ∧ ∀ k t, a ≤ k < b → tokens !! k = Some t → is_layout (kind t) = true.

(** A position right after a token that is no layout. *)
Definition solid (b : nat) : Prop :=
  ∃ p t, b = S p ∧ tokens !! p = Some t ∧ is_layout (kind t) = false.

Lemma solid_token p t b : tokens !! p = Some t → is_layout (kind t) = false → b = S p → solid b.
Proof. intros. by exists p, t. Qed.

(** The ends of the entries of a list from [lo] to its closing token [hi]:
    each is followed by a comma, but for the last, which may be. *)
Inductive entries (hi : nat) : nat → list nat → Prop :=
| EntriesNone lo : lo ≤ hi → entries hi lo []
| EntriesLast lo b : lo ≤ b → solid b → laid b hi → entries hi lo [B b]
| EntriesMore lo b c t ends :
    lo ≤ b → solid b → laid b c → tokens !! c = Some t → kind t = OperatorToken Comma →
    entries hi (S c) ends → entries hi lo (B b :: ends).

Definition brace_at (d : Delimiter) (i : nat) : Prop :=
  ∃ t, tokens !! i = Some t ∧ kind t = DelimiterToken d.

Lemma laid_refl a : laid a a.
Proof. split; [done|]. intros. lia. Qed.
Lemma laid_trans a b c : laid a b → laid b c → laid a c.
Proof.
  intros [? H1] [? H2]. split; [lia|]. intros k t Hk.
  destruct (decide (k < b)); [apply H1|apply H2]; lia.
Qed.

Lemma entries_lower hi lo lo' ends : entries hi lo ends → lo' ≤ lo → entries hi lo' ends.
Proof. destruct 1; intros; econstructor; eauto; lia. Qed.

Lemma entries_le hi lo ends : entries hi lo ends → lo ≤ hi.
Proof. induction 1 as [|lo b ? ? [? _]|lo b c t ends ? ? [? _]]; lia. Qed.

(** Entries read so far, from [lo]; the next one starts at [p] or later. *)
Definition leads (lo p : nat) (ends : list nat) : Prop :=
  ∀ hi rest, entries hi p rest → entries hi lo (ends ++ rest).

Lemma leads_refl lo p : lo ≤ p → leads lo p [].
Proof. intros ? hi rest H. by eapply entries_lower. Qed.
Lemma leads_comma lo p ends b c t p' :
  leads lo p ends → p ≤ b → solid b → laid b c → tokens !! c = Some t → kind t = OperatorToken Comma →
  c < p' → leads lo p' (ends ++ [B b]).
Proof.
  intros Hl ??????? rest Hr. rewrite <- app_assoc. apply Hl. cbn.
  apply (EntriesMore _ p b c t); try done. eapply entries_lower; [exact Hr|lia].
Qed.
Lemma leads_end lo p ends b hi :
  leads lo p ends → p ≤ b → solid b → laid b hi → entries hi lo (ends ++ [B b]).
Proof. intros Hl ???. apply Hl. by constructor. Qed.
Lemma leads_none lo p ends hi : leads lo p ends → p ≤ hi → entries hi lo ends.
Proof. intros Hl ?. rewrite <- (app_nil_r ends). apply Hl. by constructor. Qed.

(** A list in braces. *)
Definition braced (i j : nat) (ends : list nat) : Prop :=
  ∃ open, i ≤ open ∧ open < j ∧ brace_at LeftBrace open ∧ brace_at RightBrace (j - 1) ∧
    entries (j - 1) (S open) ends.

Lemma braced_intro i open k t ends :
  i ≤ open → open < k → brace_at LeftBrace open → tokens !! k = Some t →
  kind t = DelimiterToken RightBrace → entries k (S open) ends → braced i (S k) ends.
Proof.
  intros. exists open. rewrite Nat.sub_1_r. cbn. split_and!; try done; [lia|by exists t].
Qed.

Lemma braced_solid i j ends : braced i j ends → solid j.
Proof.
  intros (o & ? & ? & _ & (t & Ht & Hk) & _).
  apply (solid_token (j - 1) t); [done|by rewrite Hk|lia].
Qed.

Definition label_ok (i j d : nat) (l : tree_label) : Prop :=
  match l with
  | PlainNode | TokenPart => True
  | ExpressionNode k => levels_ok k
  | BlockNode statements => i < j ∧ (d = 0 → covered statements (S i) (j - 1))
  | SignatureNode => solid (S i)
  | BracedNode after ends => after ≤ B i ∧ braced i j ends
  end.

(** A tree whose ranges are token boundaries within [lo, hi]; its blocks are
    covered when no diagnostic was recorded ([d] of them were), and a part of
    a token is a range of the text within the token's. *)
Inductive inner (lo hi d : nat) : syntax_tree → Prop :=
| Inner i j l cs :
    lo ≤ i → i ≤ j → j ≤ hi → label_ok i j d l → Forall (inner i j d) cs →
    inner lo hi d (Tree (spn i j) l cs)
| InnerPart k s :
    lo ≤ k → k < hi → spot_ok s → within s (B k) (B (S k)) → inner lo hi d (Tree s TokenPart []).

Lemma inner_tree lo hi d s i j l cs :
  s = spn i j → lo ≤ i → i ≤ j → j ≤ hi → label_ok i j d l → Forall (inner i j d) cs →
  inner lo hi d (Tree s l cs).
Proof. intros ->. by apply Inner. Qed.

Fixpoint inner_mono lo hi d t lo' hi' d' (H : inner lo hi d t) {struct H} :
  lo' ≤ lo → hi ≤ hi' → d ≤ d' → inner lo' hi' d' t.
Proof.
  destruct H as [i j l cs Hi Hij Hj Hl Hcs|k s Hlo' Hhi' Hs Hw]; intros Hlo Hhi Hd;
    [|apply (InnerPart _ _ _ k); [lia|lia|done|done]].
  apply Inner; [lia..| |].
  - destruct l; try done. destruct Hl as [? Hl]. split; [done|]. intros ->. apply Hl. lia.
  - induction Hcs as [|t cs Ht Hcs IH]; constructor; [|exact IH].
    exact (inner_mono _ _ _ _ i j d' Ht (le_n _) (le_n _) Hd).
Qed.

(** Such a tree with nothing but separators around it. *)
Definition exact (lo hi d : nat) (t : syntax_tree) : Prop :=
  ∃ i j, lo ≤ i ∧ i < j ∧ j ≤ hi ∧ j ≤ length tokens ∧ skipped lo i ∧ skipped j hi ∧
    root t = spn i j ∧ inner i j d t.

Lemma exact_inner lo hi d t : exact lo hi d t → inner lo hi d t.
Proof. intros (i & j & ? & ? & ? & _ & ? & ? & _ & H). by eapply inner_mono. Qed.

Lemma inner_leaf lo hi d i j : lo ≤ i → i ≤ j → j ≤ hi → inner lo hi d (leaf (spn i j)).
Proof. intros. by apply Inner. Qed.

Lemma Forall_inner_mono lo hi d ts lo' hi' d' :
  Forall (inner lo hi d) ts → lo' ≤ lo → hi ≤ hi' → d ≤ d' → Forall (inner lo' hi' d') ts.
Proof. intros H ???. eapply Forall_impl; [exact H|]. intros. by eapply inner_mono. Qed.

(** ** The frame *)

Definition nd (s : PState) : nat := length (diagnostics s).

Definition inv (s : PState) : Prop :=
  Forall diag_ok (diagnostics s) ∧ length (bracket_ends s) = length tokens ∧
  Forall (λ i, spot_ok i ∧ span_start i < span_end i) (interpolation_spans s).

(** What every operation keeps: the invariant, and that positions, open
    brackets and diagnostics only grow. *)
Record reach (s s' : PState) : Prop := mkReach {
  reach_inv : inv s';
  reach_pos : position s ≤ position s';
  reach_cont : continuation_depth s ≤ continuation_depth s';
  reach_cond : control_condition_depth s = control_condition_depth s';
  reach_chain : value_chain_depth s = value_chain_depth s';
  reach_nd : nd s ≤ nd s'
}.

Lemma reach_refl s : inv s → reach s s.
Proof. by constructor. Qed.
Lemma reach_trans s1 s2 s3 : reach s1 s2 → reach s2 s3 → reach s1 s3.
Proof. intros [] []. constructor; [done|lia..|congruence|congruence|lia]. Qed.

(** ** Weakest preconditions *)

Definition wp {A} (m : M A) (s : PState) (Q : A → PState → Prop) (X : ParseError → PState → Prop)
    : Prop :=
  match m s with
  | (Ok a, s') => Q a s'
  | (Err e, s') => X e s'
  | (Panic, _) => False
  end.

Definition failed (s : PState) (e : ParseError) (s' : PState) : Prop := reach s s' ∧ err_ok e.

Lemma failed_trans s1 s2 e s3 : reach s1 s2 → failed s2 e s3 → failed s1 e s3.
Proof. intros ? []. split; [by eapply reach_trans|done]. Qed.

Lemma wp_mono {A} (m : M A) s (Q1 Q2 : A → PState → Prop) (X1 X2 : ParseError → PState → Prop) :
  wp m s Q1 X1 → (∀ a s', Q1 a s' → Q2 a s') → (∀ e s', X1 e s' → X2 e s') → wp m s Q2 X2.
Proof. unfold wp. destruct (m s) as [[] ]; naive_solver. Qed.

Lemma wp_ret {A} (a : A) s (Q : A → PState → Prop) X : Q a s → wp (mret a) s Q X.
Proof. done. Qed.
Lemma wp_bind {A B'} (m : M A) (k : A → M B') s Q X :
  wp m s (λ a s', wp (k a) s' Q X) X → wp (m ≫= k) s Q X.
Proof. unfold wp, mbind, M_bind. by destruct (m s) as [[] ]. Qed.
Lemma wp_try {A B'} (m : M A) (k : ParseError + A → M B') s Q X :
  wp m s (λ a s', wp (k (inr a)) s' Q X) (λ e s', wp (k (inl e)) s' Q X) → wp (try_bind m k) s Q X.
Proof. unfold wp, try_bind. by destruct (m s) as [[] ]. Qed.
Lemma wp_gets {A} (f : PState → A) s (Q : A → PState → Prop) X : Q (f s) s → wp (gets f) s Q X.
Proof. done. Qed.
Lemma wp_reads {A} (f : PState → A) s (Q : A → PState → Prop) X :
  (∀ a, f s = a → Q a s) → wp (gets f) s Q X.
Proof. intros HQ. by apply HQ. Qed.
Lemma wp_modify f s (Q : unit → PState → Prop) X : Q tt (f s) → wp (modify f) s Q X.
Proof. done. Qed.
Lemma wp_fail {A} e s (Q : A → PState → Prop) (X : ParseError → PState → Prop) :
  X e s → wp (fail e) s Q X.
Proof. done. Qed.
Lemma wp_poll s (Q : bool → PState → Prop) X : Q false (with_poll s) → wp poll s Q X.
Proof. unfold wp, poll. by rewrite never_cancelled. Qed.
Lemma wp_mk_span i j s (Q : Span → PState → Prop) X :
  i ≤ j → Q (spn i j) s → wp (mk_span (B i) (B j)) s Q X.
Proof. intros. unfold wp, mk_span. by rewrite span_ok; auto using B_mono, B_boundary. Qed.

(** A loop whose measure decreases; the usual measure is what is left of the
    tokens. *)
Lemma wp_loop {T R} (I : T → PState → Prop) (μ : T → PState → nat) n body x s
    (Q : R → PState → Prop) X :
  I x s → μ x s < n →
  (∀ x s, I x s →
     wp (body x) s (λ y s', match y with inl x' => I x' s' ∧ μ x' s' < μ x s | inr r => Q r s' end) X) →
  wp (loop n body x) s Q X.
Proof.
  intros HI Hn Hbody. revert x s HI Hn. induction n as [|n IH]; intros x s HI Hn; [lia|].
  simpl. apply wp_bind. eapply wp_mono; [by apply Hbody| |done].
  intros [x'|r] s'; [|done]. intros [??]. apply IH; [done|lia].
Qed.

Lemma wp_iterate {T R} (I : T → PState → Prop) body x s (Q : R → PState → Prop) X :
  I x s →
  (∀ x s, I x s →
     wp (body x) s
       (λ y s', match y with
                | inl x' => I x' s' ∧ position s < position s' ∧ position s < length tokens
                | inr r => Q r s'
                end) X) →
  wp (iterate body x) s Q X.
Proof.
  intros HI Hbody. apply (wp_loop I (λ _ s, length tokens - position s)); [done|unfold fuel; lia|].
  intros y t Hy. eapply wp_mono; [by apply Hbody| |done]. intros [x'|r] s'; [|done]. intros (? & ? & ?).
  split; [done|lia].
Qed.

(** A specification: from states that satisfy [P], an operation keeps the
    frame and ends in [Q], or fails with a well-formed error. *)
Class SpecOf {A} (m : M A) (P : PState → Prop) (Q : PState → A → PState → Prop) : Prop :=
  spec_of : ∀ s, inv s → P s → wp m s (λ a s', reach s s' ∧ Q s a s') (failed s).

Lemma wp_spec {A} (m : M A) P Q `{!SpecOf m P Q} s0 s (Q' : A → PState → Prop) :
  reach s0 s → P s → (∀ a s', reach s s' → reach s0 s' → Q s a s' → Q' a s') →
  wp m s Q' (failed s0).
Proof.
  intros Hr HP HQ. eapply wp_mono; [apply (spec_of s); [apply Hr|done]| |].
  - intros a s' [? ?]. apply HQ; [done|by eapply reach_trans|done].
  - intros e s'. by apply failed_trans.
Qed.

Lemma wp_spec_try {A} (m : M A) P Q `{!SpecOf m P Q} s0 s (Q' : A → PState → Prop)
    (X' : ParseError → PState → Prop) :
  reach s0 s → P s → (∀ a s', reach s s' → reach s0 s' → Q s a s' → Q' a s') →
  (∀ e s', reach s s' → reach s0 s' → err_ok e → X' e s') → wp m s Q' X'.
Proof.
  intros Hr HP HQ HX. eapply wp_mono; [apply (spec_of s); [apply Hr|done]| |].
  - intros a s' [? ?]. apply HQ; [done|by eapply reach_trans|done].
  - intros e s' [? ?]. apply HX; [done|by eapply reach_trans|done].
Qed.
End Boundaries.

(** ** The token operations *)

Section Tokens.
Context `{E : Env} `{L : !Lexed}.

Definition any (s : PState) : Prop := True.
Definition kind_at (s : PState) : option TokenKind := kind <$> current_at s.
Definition at_token (s : PState) : Prop := is_Some (tokens !! position s).
Definition at_token_kind (k : TokenKind) (s : PState) : Prop := kind_at s = Some k.

(** One token taken. *)
Definition took (s : PState) (t : Token) (s' : PState) : Prop :=
  tok (position s) t ∧ position s' = S (position s) ∧ nd s' = nd s.

Lemma kind_at_tok s k : kind_at s = Some k → ∃ t, tok (position s) t ∧ kind t = k.
Proof.
  unfold kind_at, current_at. destruct (tokens !! position s) as [t|] eqn:Ht; simpl; [|done].
  intros [= <-]. exists t. split; [by apply tok_lookup|done].
Qed.
Lemma kind_at_is_token s k : kind_at s = Some k → at_token s.
Proof. intros (t & (? & _) & _)%kind_at_tok. by exists t. Qed.

Lemma spot_tok i t : tok i t → spot_ok (token_span t).
Proof. intros (_ & -> & _). apply spn_valid. lia. Qed.
Lemma spot_spn i j : i ≤ j → spot_ok (spn i j).
Proof. apply spn_valid. Qed.
Lemma spot_end : spot_ok (mkSpan (source_id source) (source_len source) (source_len source)).
Proof. apply validate_ok; [done|apply boundary_end..]. Qed.

Lemma reach_position s p : inv s → position s ≤ p → reach s (with_position p s).
Proof. intros. by constructor. Qed.
Lemma reach_poll s : inv s → reach s (with_poll s).
Proof. intros. by constructor. Qed.
Lemma reach_opened s : inv s → reach s (with_continuation (S (continuation_depth s)) s).
Proof. intros. constructor; simpl; auto with lia. Qed.

Lemma wp_here s (Q : Span → PState → Prop) X :
  (∀ i, spot_ok i → Q i s) → wp here s Q X.
Proof.
  intros HQ. apply wp_bind, wp_gets. unfold current_at.
  destruct (tokens !! position s) as [t|] eqn:Ht.
  - apply HQ. eapply spot_tok, tok_lookup, Ht.
  - rewrite <- (B_end _ (le_n _)). apply wp_mk_span; [done|]. apply HQ. by apply spot_spn.
Qed.

Lemma wp_invalid_at {A} i message s (Q : A → PState → Prop) (X : ParseError → PState → Prop) :
  spot_ok i → (∀ e, err_ok e → X e s) → wp (invalid_at i message) s Q X.
Proof. intros Hi HX. apply wp_fail, HX. exists i, message. by split. Qed.
Lemma wp_incomplete_at {A} reason i s (Q : A → PState → Prop) (X : ParseError → PState → Prop) :
  spot_ok i → (∀ e, err_ok e → X e s) → wp (incomplete_at reason i) s Q X.
Proof. intros Hi HX. by apply wp_fail, HX. Qed.
Lemma wp_invalid_here {A} message s (Q : A → PState → Prop) (X : ParseError → PState → Prop) :
  (∀ e, err_ok e → X e s) → wp (invalid_here message) s Q X.
Proof. intros HX. apply wp_bind, wp_here. intros i Hi. by apply wp_invalid_at. Qed.
Lemma wp_incomplete_here {A} reason s (Q : A → PState → Prop) (X : ParseError → PState → Prop) :
  (∀ e, err_ok e → X e s) → wp (incomplete_here reason) s Q X.
Proof. intros HX. apply wp_bind, wp_here. intros i Hi. by apply wp_incomplete_at. Qed.
Lemma wp_expected {A} message reason s (Q : A → PState → Prop) (X : ParseError → PState → Prop) :
  (∀ e, err_ok e → X e s) → wp (expected message reason) s Q X.
Proof.
  intros HX. apply wp_bind, wp_gets. case_match; [by apply wp_incomplete_here|by apply wp_invalid_here].
Qed.

Lemma wp_report_here message s (Q : unit → PState → Prop) X :
  (∀ d, diag_ok d → Q tt (with_diagnostic d s)) → wp (report_here message) s Q X.
Proof.
  intros HQ. apply wp_try, wp_bind, wp_here. intros i Hi. apply wp_fail.
  apply HQ. by exists i, message.
Qed.
Lemma reach_diagnostic d s : inv s → diag_ok d → reach s (with_diagnostic d s).
Proof.
  intros (H1 & H2 & H3) Hd. constructor; simpl; try done.
  - split; [|done]. by apply Forall_app_2; [|constructor].
  - unfold nd. simpl. rewrite length_app. lia.
Qed.
Lemma reach_interpolation i s :
  inv s → spot_ok i → span_start i < span_end i → reach s (with_interpolation i s).
Proof.
  intros (H1 & H2 & H3) Hi Hlt. constructor; simpl; try done.
  split_and!; [done..|]. simpl. by apply Forall_app_2; [|constructor].
Qed.

Lemma wp_check_cancelled s (Q : unit → PState → Prop) X :
  Q tt (with_poll s) → wp check_cancelled s Q X.
Proof. intros HQ. by apply wp_bind, wp_poll, wp_ret. Qed.

Lemma wp_take_token s (Q : option Token → PState → Prop) X :
  (∀ t, tok (position s) t → Q (Some t) (with_position (position s + 1) s)) →
  (length tokens ≤ position s → Q None s) → wp take_token s Q X.
Proof.
  intros H1 H2. apply wp_bind, wp_gets. unfold current_at.
  destruct (tokens !! position s) as [t|] eqn:Ht.
  - apply wp_bind, wp_modify, wp_ret, H1. by apply tok_lookup.
  - apply wp_ret, H2. by apply lookup_ge_None_1.
Qed.

#[export] Instance spec_take_current : SpecOf take_current at_token took.
Proof.
  intros s Hs [t Ht]. apply wp_bind, wp_take_token.
  - intros t' Ht'. apply wp_ret. split; [apply reach_position; [done|lia]|].
    split; [done|]. split; [simpl; lia|done].
  - apply lookup_lt_Some in Ht. lia.
Qed.

Lemma wp_at_kind k s (Q : bool → PState → Prop) X :
  Q (bool_decide (kind_at s = Some k)) s → wp (at_kind k) s Q X.
Proof. intros. by apply wp_bind, wp_gets, wp_ret. Qed.

Lemma wp_take_if k s (Q : option Token → PState → Prop) X :
  (∀ t, tok (position s) t → kind t = k → Q (Some t) (with_position (position s + 1) s)) →
  (kind_at s ≠ Some k → Q None s) → wp (take_if k) s Q X.
Proof.
  intros H1 H2. apply wp_bind, wp_at_kind. case_bool_decide as Hk; [|by apply wp_ret, H2].
  apply wp_take_token.
  - intros t Ht. apply H1; [done|]. destruct Ht as (Ht & _).
    unfold kind_at, current_at in Hk. rewrite Ht in Hk. by injection Hk.
  - intros Hge. unfold kind_at, current_at in Hk. by rewrite lookup_ge_None_2 in Hk.
Qed.

Definition took_kind (k : TokenKind) (s : PState) (t : Token) (s' : PState) : Prop :=
  took s t s' ∧ kind t = k.

Lemma spec_expect_taken k message : SpecOf (expect_taken (take_if k) message) any (took_kind k).
Proof.
  intros s Hs _. apply wp_bind, wp_take_if.
  - intros t Ht Hk. apply wp_ret. split; [apply reach_position; [done|lia]|].
    split; [split; [done|split; [simpl; lia|done]]|done].
  - intros _. apply wp_expected. intros e He. split; [by apply reach_refl|done].
Qed.
#[export] Instance spec_expect_operator o message :
  SpecOf (expect_operator o message) any (took_kind (OperatorToken o)).
Proof. apply spec_expect_taken. Qed.
#[export] Instance spec_expect_delimiter d message :
  SpecOf (expect_delimiter d message) any (took_kind (DelimiterToken d)).
Proof. apply spec_expect_taken. Qed.
#[export] Instance spec_expect_keyword k message :
  SpecOf (expect_keyword k message) any (took_kind (KeywordToken k)).
Proof. apply spec_expect_taken. Qed.

Lemma tok_text i t : tok i t → ∃ x, slice source (token_span t) = Ok x.
Proof.
  intros (_ & -> & _). eexists. apply slice_bounds; auto using B_mono, B_boundary, lexed_wf.
Qed.
Lemma spn_text i j : i ≤ j → ∃ x, slice source (spn i j) = Ok x.
Proof. intros. eexists. apply slice_bounds; auto using B_mono, B_boundary, lexed_wf. Qed.

Lemma wp_text_at i j s (Q : option str → PState → Prop) X :
  i ≤ j → (∀ x, slice source (spn i j) = Ok x → Q (Some x) s) → wp (text_at (spn i j)) s Q X.
Proof.
  intros Hij HQ. destruct (spn_text i j Hij) as [x Hx]. unfold wp, text_at. rewrite Hx. by apply HQ.
Qed.
Lemma wp_text_is i j w s (Q : bool → PState → Prop) X :
  i ≤ j → (∀ b, Q b s) → wp (text_is (spn i j) w) s Q X.
Proof. intros Hij HQ. apply wp_bind, wp_text_at; [done|]. intros x _. apply wp_ret, HQ. Qed.

Lemma wp_at_contextual w s (Q : bool → PState → Prop) X :
  (∀ b, (b = true → at_token_kind Lexer.Identifier s) → Q b s) → wp (at_contextual w) s Q X.
Proof.
  intros HQ. apply wp_bind, wp_gets. unfold at_token_kind, kind_at in *.
  destruct (current_at s) as [t|] eqn:Ht; simpl in *; [|by apply HQ].
  case_bool_decide as Hk; [|by apply HQ].
  destruct (tok_lookup _ _ Ht) as (_ & -> & _). apply wp_text_is; [lia|].
  intros b. apply HQ. intros _. by rewrite Hk.
Qed.

Definition took_some (s : PState) (t : Token) (s' : PState) : Prop := took s t s'.
#[export] Instance spec_expect_contextual w message :
  SpecOf (expect_contextual_identifier w message) any took_some.
Proof.
  intros s Hs _. apply wp_bind, wp_at_contextual. intros [] Hb.
  - apply wp_bind, wp_take_token.
    + intros t Ht. apply wp_ret. split; [apply reach_position; [done|lia]|].
      split; [done|split; [simpl; lia|done]].
    + intros Hge. destruct (kind_at_is_token _ _ (Hb eq_refl)) as [? H%lookup_lt_Some]. lia.
  - apply wp_expected. intros e He. split; [by apply reach_refl|done].
Qed.

(** ** Skipping *)

(** [f] holds of exactly the tokens from [a] to before [b]. *)
Definition run (f : TokenKind → bool) (a b : nat) : Prop :=
  a ≤ b ∧ (∀ k t, a ≤ k < b → tokens !! k = Some t → f (kind t) = true) ∧
  (∀ t, tokens !! b = Some t → f (kind t) = false).

(** The states [skip_while] passes through. *)
Definition skips (s s' : PState) : Prop :=
  reach s s' ∧ continuation_depth s' = continuation_depth s ∧ nd s' = nd s.

Lemma skips_advance s s' :
  skips s s' → skips s (with_position (position s' + 1) (with_poll s')).
Proof.
  intros ([] & ? & ?). split_and!; [|done..]. constructor; simpl; auto with lia.
Qed.

Lemma wp_skip_while f s (Q : unit → PState → Prop) X :
  inv s → (∀ s', skips s s' → run f (position s) (position s') → Q tt s') →
  wp (skip_while f) s Q X.
Proof.
  intros Hs HQ. apply (wp_iterate (λ _ s', skips s s' ∧ position s ≤ position s' ∧
      ∀ k t, position s ≤ k < position s' → tokens !! k = Some t → f (kind t) = true)).
  { split; [split_and!; [by apply reach_refl|done..]|]. split; [done|]. intros. lia. }
  intros [] s1 (H1 & H2 & H3). apply wp_bind, wp_gets. unfold current_at.
  destruct (tokens !! position s1) as [t|] eqn:Ht; simpl.
  - destruct (f (kind t)) eqn:Hf.
    + apply wp_bind, wp_poll. apply wp_bind, wp_modify, wp_ret.
      split; [split; [by apply (skips_advance s s1)|split]|split].
      * simpl. lia.
      * simpl. intros k u Hk Hu. destruct (decide (k = position s1)) as [->|].
        -- by rewrite Ht in Hu; injection Hu as <-.
        -- apply (H3 k); [lia|done].
      * simpl. lia.
      * by eapply lookup_lt_Some.
    + apply wp_ret, HQ; [done|]. split_and!; [done..|]. intros u Hu. congruence.
  - apply wp_ret, HQ; [done|]. split_and!; [done..|]. intros u Hu. congruence.
Qed.

Lemma run_skipped f a b : (∀ k, f k = true → is_separator k = true) → run f a b → skipped a b.
Proof. intros Hf (? & H & _). split; [done|]. intros. eapply Hf, H; eauto. Qed.

Definition blank (s : PState) (_ : unit) (s' : PState) : Prop :=
  skipped (position s) (position s') ∧ nd s' = nd s.

Lemma spec_skip_while f : (∀ k, f k = true → is_separator k = true) → SpecOf (skip_while f) any blank.
Proof.
  intros Hf s Hs _. apply wp_skip_while; [done|]. intros s' (? & ? & ?) Hr.
  split; [done|]. split; [|done]. by eapply run_skipped.
Qed.

Lemma inline_separator k : is_inline k = true → is_separator k = true.
Proof. by destruct k. Qed.
Lemma layout_separator k : is_layout k = true → is_separator k = true.
Proof. by destruct k. Qed.

Definition cleared (s : PState) (u : unit) (s' : PState) : Prop :=
  blank s u s' ∧ laid (position s) (position s').

Lemma spec_skip_layout_while f :
  (∀ k, f k = true → is_layout k = true) → SpecOf (skip_while f) any cleared.
Proof.
  intros Hf s Hs _. apply wp_skip_while; [done|]. intros s' (? & ? & ?) (? & Hall & ?).
  split; [done|]. split; [split; [|done]|]; (split; [done|]); intros k t Hk Ht.
  - by eapply layout_separator, Hf, Hall.
  - by eapply Hf, Hall.
Qed.

#[export] Instance spec_skip_inline : SpecOf skip_inline any cleared.
Proof.
  intros s Hs _. apply wp_bind, wp_gets. apply spec_skip_layout_while; [|done|done].
  intros k [Hk|[_ Hk]%andb_true_iff]%orb_true_iff; [by destruct k|].
  by apply bool_decide_eq_true in Hk as ->.
Qed.
#[export] Instance spec_skip_layout : SpecOf skip_layout any cleared.
Proof. by apply spec_skip_layout_while. Qed.
#[export] Instance spec_skip_separators : SpecOf skip_separators any blank.
Proof. by apply spec_skip_while. Qed.

#[export] Instance spec_skip_documentation :
  SpecOf skip_separators_with_documentation any
    (λ s _ s', skipped (position s) (position s') ∧ nd s' = nd s).
Proof.
  intros s Hs _.
  apply wp_bind, (wp_iterate (λ _ s', reach s s' ∧ skipped (position s) (position s') ∧ nd s' = nd s)).
  { split_and!; [by apply reach_refl|apply skipped_refl|done]. }
  intros [lines newlines] s1 (H1 & H2 & H3). apply wp_bind, wp_gets. unfold current_at.
  destruct (tokens !! position s1) as [t|] eqn:Ht; [|by apply wp_ret, wp_ret].
  apply wp_bind, wp_poll. destruct (documentation_step _ _ _) as [y|] eqn:Hd.
  - apply wp_bind, wp_modify, wp_ret. split; [|split; [simpl; lia|by eapply lookup_lt_Some]].
    assert (is_separator (kind t) = true) as Hk by (by destruct (kind t) as [| | | | | | | | | | | | | | | | |[]| |]).
    split_and!.
    + destruct H1. constructor; simpl; auto with lia.
    + eapply skipped_trans; [exact H2|]. split; [simpl; lia|]. simpl. intros k u Hu Hl.
      replace k with (position s1) in Hl by lia. by rewrite Ht in Hl; injection Hl as <-.
    + done.
  - apply wp_ret, wp_ret. simpl. split_and!; [|done..]. destruct H1. constructor; simpl; auto with lia.
Qed.

(** ** Recovery *)

Definition at_end_or (closing : option Delimiter) (s : PState) : Prop :=
  length tokens ≤ position s ∨ ∃ d, closing = Some d ∧ kind_at s = Some (DelimiterToken d).

#[export] Instance spec_synchronize closing :
  SpecOf (synchronize closing) any
    (λ s _ s', nd s' = nd s ∧ (position s < position s' ∨ at_end_or closing s')).
Proof.
  intros s Hs _.
  apply (wp_iterate (λ ds s', reach s s' ∧ nd s' = nd s ∧
           (position s < position s' ∨ (ds = [] ∧ position s' = position s)))).
  { split_and!; [by apply reach_refl|done|by right]. }
  intros ds s1 (H1 & H2 & H3). apply wp_bind, wp_gets. unfold current_at.
  destruct (tokens !! position s1) as [t|] eqn:Ht.
  2: { apply wp_ret. split_and!; [done..|]. right. left. by apply lookup_ge_None_1. }
  pose proof (lookup_lt_Some _ _ _ Ht) as Hlt.
  assert (reach s (with_poll s1)) as Hp by (destruct H1; constructor; simpl; auto with lia).
  assert (reach s (with_position (position s1 + 1) (with_poll s1))) as Ha
    by (destruct H1; constructor; simpl; auto with lia).
  apply wp_bind, wp_poll. destruct ds as [|d ds].
  - destruct (match closing with Some d => _ | None => false end) eqn:Hc.
    + apply wp_ret. split_and!; [done..|]. right. right. destruct closing as [d|]; [|done].
      exists d. split; [done|]. apply bool_decide_eq_true in Hc. unfold kind_at, current_at.
      simpl. by rewrite Ht, <- Hc.
    + destruct H1. destruct (kind t) as [| | | | | | | | | | | | | | | | |[]| |];
        apply wp_bind, wp_modify, wp_ret; split_and!; try done; simpl; try lia; left; simpl; lia.
  - destruct H1. apply wp_bind, wp_modify, wp_ret.
    split_and!; try done; simpl; try lia; left; simpl; lia.
Qed.
End Tokens.

(** ** What the operations promise *)

Section Promises.
Context `{E : Env} `{L : !Lexed}.

(** The result spans exactly the tokens consumed. *)
Definition tight {A} (tree : A → syntax_tree) (s : PState) (a : A) (s' : PState) : Prop :=
  position s < position s' ∧ position s' ≤ length tokens ∧
  root (tree a) = spn (position s) (position s') ∧
  inner (position s) (position s') (nd s') (tree a).

(** It spans them but for separators around it. *)
Definition loose {A} (tree : A → syntax_tree) (s : PState) (a : A) (s' : PState) : Prop :=
  exact (position s) (position s') (nd s') (tree a).

(** It is made of parts among the tokens consumed, and some were. *)
Definition consumed (s s' : PState) : Prop :=
  position s < position s' ∧ position s < length tokens.
Definition parts {A} (trees : A → list syntax_tree) (s : PState) (a : A) (s' : PState) : Prop :=
  Forall (inner (position s) (position s') (nd s')) (trees a).

(** An entry's end, with nothing but layout after it. *)
Definition ended (s : PState) (e : nat) (s' : PState) : Prop :=
  ∃ b, e = B b ∧ position s ≤ b ∧ solid b ∧ laid b (position s').

Definition identified (s : PState) (i : Identifier) (s' : PState) : Prop :=
  i = spn (position s) (S (position s)) ∧ position s' = S (position s) ∧
  position s < length tokens.

(** What the recursion has left: every entry after one more token. *)
Definition room (n : nat) (s : PState) : Prop := length tokens - position s ≤ n.
Definition deep (n : nat) (s : PState) : Prop := length tokens - position s < n.

Lemma tight_loose {A} (tree : A → syntax_tree) s a s' : tight tree s a s' → loose tree s a s'.
Proof.
  intros (? & ? & ? & ?). exists (position s), (position s').
  split_and!; auto using skipped_refl.
Qed.

(** ** Rules with the frame *)

Lemma wp_take k s0 s (Q : option Token → PState → Prop) :
  reach s0 s →
  (∀ t s', reach s s' → reach s0 s' → took_kind k s t s' → Q (Some t) s') →
  (kind_at s ≠ Some k → Q None s) → wp (take_if k) s Q (failed s0).
Proof.
  intros Hr H1 H2. apply wp_take_if; [|done]. intros t Ht Hk.
  assert (reach s (with_position (position s + 1) s)) as Hs
    by (apply reach_position; [apply Hr|lia]).
  apply H1; [done|by eapply reach_trans|]. split; [|done]. split; [done|]. split; [simpl; lia|done].
Qed.

Lemma wp_take_any s0 s (Q : option Token → PState → Prop) :
  reach s0 s →
  (∀ t s', reach s s' → reach s0 s' → took s t s' → Q (Some t) s') →
  (length tokens ≤ position s → Q None s) → wp take_token s Q (failed s0).
Proof.
  intros Hr H1 H2. apply wp_take_token; [|done]. intros t Ht.
  assert (reach s (with_position (position s + 1) s)) as Hs
    by (apply reach_position; [apply Hr|lia]).
  apply H1; [done|by eapply reach_trans|]. split; [done|]. split; [simpl; lia|done].
Qed.

Lemma wp_advance s0 s n (Q : unit → PState → Prop) :
  reach s0 s →
  (∀ s', reach s s' → reach s0 s' → position s' = position s + n → nd s' = nd s → Q tt s') →
  wp (advance n) s Q (failed s0).
Proof.
  intros Hr HQ. assert (reach s (with_position (position s + n) s)) as Hs
    by (apply reach_position; [apply Hr|lia]).
  apply wp_modify, HQ; [done|by eapply reach_trans|done|done].
Qed.

Lemma wp_check s0 s (Q : unit → PState → Prop) :
  reach s0 s →
  (∀ s', reach s s' → reach s0 s' → position s' = position s → nd s' = nd s →
    kind_at s' = kind_at s → continuation_depth s' = continuation_depth s → Q tt s') →
  wp check_cancelled s Q (failed s0).
Proof.
  intros Hr HQ. assert (reach s (with_poll s)) as Hs by (apply reach_poll, Hr).
  apply wp_check_cancelled, HQ; try done. by eapply reach_trans.
Qed.

Lemma wp_open s0 s (Q : unit → PState → Prop) :
  reach s0 s →
  (∀ s', reach s s' → reach s0 s' → position s' = position s → nd s' = nd s →
    kind_at s' = kind_at s → continuation_depth s' = S (continuation_depth s) → Q tt s') →
  wp open_continuation s Q (failed s0).
Proof.
  intros Hr HQ. assert (reach s (with_continuation (S (continuation_depth s)) s)) as Hs
    by (apply reach_opened, Hr).
  apply wp_modify, HQ; try done. by eapply reach_trans.
Qed.

Lemma wp_close s0 s1 s2 s (Q : unit → PState → Prop) :
  reach s0 s1 → continuation_depth s2 = S (continuation_depth s1) → reach s1 s2 → reach s2 s →
  (∀ s', reach s1 s' → reach s0 s' → position s' = position s → nd s' = nd s → Q tt s') →
  wp close_continuation s Q (failed s0).
Proof.
  intros H0 Hd H12 H2 HQ. unfold wp, close_continuation.
  destruct (continuation_depth s) as [|d] eqn:Hs; [pose proof (reach_cont _ _ H2); lia|].
  assert (reach s1 (with_continuation d s)) as H1s.
  { destruct H12 as [_ ? ? ? ? ?], H2 as [Hi ? ? ? ? ?].
    constructor; simpl; [exact Hi|lia|lia|congruence|congruence|unfold nd in *; simpl; lia]. }
  apply HQ; [done|by eapply reach_trans|done|done].
Qed.

Lemma wp_back s0 s p (Q : unit → PState → Prop) X :
  reach s0 s → position s0 ≤ p →
  (∀ s', reach s0 s' → position s' = p → nd s' = nd s → Q tt s') →
  wp (modify (with_position p)) s Q X.
Proof.
  intros [] Hp HQ. apply wp_modify, HQ; [|done..]. by constructor.
Qed.

Lemma wp_identifier s0 s (Q : Identifier → PState → Prop) :
  reach s0 s →
  (∀ s', reach s s' → reach s0 s' → position s < length tokens → position s' = S (position s) →
    nd s' = nd s → solid (S (position s)) → Q (spn (position s) (S (position s))) s') →
  wp parse_identifier s Q (failed s0).
Proof.
  intros Hr HQ. apply wp_bind, wp_take_token.
  - intros t (Ht & Hs & Hlt). assert (reach s (with_position (position s + 1) s)) as Hs'
      by (apply reach_position; [apply Hr|lia]).
    case_bool_decide as Hk.
    + apply wp_ret. rewrite Hs. apply HQ; [done|by eapply reach_trans|done|simpl; lia|done|].
      eapply solid_token; [exact Ht|by rewrite Hk|done].
    + apply wp_invalid_at; [rewrite Hs; apply spot_spn; lia|].
      intros e He. split; [by eapply reach_trans|done].
  - intros _. apply wp_incomplete_here. intros e He. by split.
Qed.

Lemma wp_current_span s0 s (Q : Span → PState → Prop) :
  reach s0 s → (position s < length tokens → Q (spn (position s) (S (position s))) s) →
  wp current_span s Q (failed s0).
Proof.
  intros Hr HQ. apply wp_bind, wp_gets. unfold current_at.
  destruct (tokens !! position s) as [t|] eqn:Ht.
  - apply wp_ret. destruct (tok_lookup _ _ Ht) as (_ & -> & ?). by apply HQ.
  - apply wp_incomplete_here. intros e He. by split.
Qed.

Lemma wp_interpolation s0 s i (Q : unit → PState → Prop) :
  reach s0 s → spot_ok i → span_start i < span_end i →
  (∀ s', reach s s' → reach s0 s' → position s' = position s → nd s' = nd s → Q tt s') →
  wp (modify (with_interpolation i)) s Q (failed s0).
Proof.
  intros Hr Hi Hlt HQ. assert (reach s (with_interpolation i s)) as Hs
    by (apply reach_interpolation; [apply Hr|done..]).
  apply wp_modify, HQ; try done. by eapply reach_trans.
Qed.

Lemma wp_push_diagnostic s0 s d (Q : unit → PState → Prop) :
  reach s0 s → diag_ok d →
  (∀ s', reach s s' → reach s0 s' → position s' = position s → nd s' = S (nd s) → Q tt s') →
  wp (push_diagnostic d) s Q (failed s0).
Proof.
  intros Hr Hi HQ. assert (reach s (with_diagnostic d s)) as Hs
    by (apply reach_diagnostic; [apply Hr|done]).
  apply wp_modify, HQ; [done|by eapply reach_trans|done|].
  unfold nd. simpl. rewrite length_app. simpl. lia.
Qed.

Lemma wp_report s0 s message (Q : unit → PState → Prop) :
  reach s0 s →
  (∀ s', reach s s' → reach s0 s' → position s' = position s → nd s' = S (nd s) → Q tt s') →
  wp (report_here message) s Q (failed s0).
Proof.
  intros Hr HQ. apply wp_report_here. intros d Hd.
  assert (reach s (with_diagnostic d s)) as Hs by (apply reach_diagnostic; [apply Hr|done]).
  apply HQ; [done|by eapply reach_trans|done|]. unfold nd. simpl. rewrite length_app. simpl. lia.
Qed.

Lemma wp_current_kind s (Q : option TokenKind → PState → Prop) X :
  Q (kind_at s) s → wp current_kind s Q X.
Proof. done. Qed.

Lemma wp_current s (Q : option Token → PState → Prop) X :
  (∀ t, tok (position s) t → kind_at s = Some (kind t) → Q (Some t) s) →
  (length tokens ≤ position s → kind_at s = None → Q None s) → wp current s Q X.
Proof.
  intros H1 H2. apply wp_gets. unfold kind_at, current_at in *.
  destruct (tokens !! position s) as [t|] eqn:Ht.
  - apply H1; [by apply tok_lookup|done].
  - apply H2; [by apply lookup_ge_None_1|done].
Qed.

(** A loop that keeps the frame. *)
Lemma wp_repeat {T R} (I : T → PState → Prop) body x s0 s (Q : R → PState → Prop) :
  reach s0 s → I x s →
  (∀ x s', reach s s' → reach s0 s' → I x s' →
     wp (body x) s'
       (λ y s'', match y with
                 | inl x' => reach s' s'' ∧ I x' s'' ∧ consumed s' s''
                 | inr r => Q r s''
                 end) (failed s0)) →
  wp (iterate body x) s Q (failed s0).
Proof.
  intros Hr HI Hbody. apply (wp_iterate (λ x s', reach s s' ∧ I x s')).
  { split; [apply reach_refl, Hr|done]. }
  intros y s1 [H1 Hy]. eapply wp_mono; [apply Hbody; [done|by eapply reach_trans|done]| |done].
  intros [x'|r] s2; [|done]. intros (? & ? & [??]). split_and!; try done. by eapply reach_trans.
Qed.

Lemma wp_restoring {A} (m : M A) (after : M unit) s (Q : A → PState → Prop)
    (X : ParseError → PState → Prop) :
  wp m s (λ a s', wp after s' (λ _ s'', Q a s'') (λ _ _, False))
         (λ e s', wp after s' (λ _ s'', X e s'') (λ _ _, False)) →
  wp (restoring m after) s Q X.
Proof.
  intros H. apply wp_try. eapply wp_mono; [exact H| |].
  - intros a s' Ha. apply wp_bind. eapply wp_mono; [exact Ha|done|done].
  - intros e s' He. apply wp_bind. eapply wp_mono; [exact He|done|done].
Qed.
End Promises.

(** ** Automation *)

Ltac span_facts :=
  repeat match goal with
  | H : root ?t = spn _ _ |- _ =>
      first [progress autorewrite with roots in H
            |progress cbn [root leaf plain expr_tree part_tree stage_tree item_node_tree
                redirection_tree statement_tree members_tree effects_tree if_tree name_tree
                qualified_tree] in H]
  end.

(** Take apart what a step promised. *)
Ltac unpack :=
  repeat match goal with
  | H : took_kind _ _ _ _ |- _ => destruct H
  | H : took _ _ _ |- _ => destruct H
  | H : tok _ _ |- _ => destruct H as (? & ? & ?)
  | H : identified _ _ _ |- _ => destruct H as (? & ? & ?)
  | H : blank _ _ _ |- _ => destruct H
  | H : cleared _ _ _ |- _ => destruct H
  | H : skipped ?a ?b |- _ =>
      lazymatch goal with K : a ≤ b |- _ => fail | _ => pose proof (proj1 H) end
  | H : tight _ _ _ _ |- _ => destruct H as (? & ? & ? & ?)
  | H : loose _ _ _ _ |- _ => destruct H as (? & ? & ? & ? & ? & ? & ? & ? & ? & ?)
  | H : consumed _ _ |- _ => destruct H
  | H : parts _ _ _ _ |- _ => unfold parts in H; cbv beta in H
  | H : Forall _ [_] |- _ => apply Forall_inv in H
  | H : _ ∧ _ |- _ => destruct H
  | H : ∃ _, _ |- _ => destruct H
  end; span_facts.

(** The frame along the steps between two states. *)
Ltac reach_tac :=
  first [assumption
        | match goal with
          | H : reach ?a ?b |- reach ?a ?c => apply (reach_trans a b c H); reach_tac
          end].

(** Open the proof of a specification. *)
Ltac start s :=
  let Hs := fresh "Hs" in let H0 := fresh "H0" in
  intros s Hs; pose proof (reach_refl s Hs) as H0; intro; unpack.

(** The positions and diagnostics of a frame, for [lia]. *)
Ltac frame H := pose proof (reach_pos _ _ H); pose proof (reach_nd _ _ H).

Ltac fail_here := let e := fresh "e" in let He := fresh in
  intros e He; split; [first [assumption|by apply reach_refl]|exact He].

Ltac arith := unfold room, deep, consumed, nd, parts in *; simpl in *; lia.

Ltac side :=
  lazymatch goal with
  | |- any _ => exact I
  | |- room _ _ => arith
  | |- deep _ _ => arith
  | |- at_token_kind _ _ => unfold at_token_kind in *; congruence
  | |- at_token ?s =>
      first [assumption
            | match goal with H : at_token ?s', K : position s = position ?s' |- _ =>
                unfold at_token; rewrite K; exact H end
            | match goal with H : tokens !! _ = Some ?t |- _ => exists t; congruence end
            | match goal with H : kind_at _ = Some ?k |- _ =>
                apply (kind_at_is_token _ k); congruence end
            | match goal with H : at_token_kind ?k _ |- _ =>
                apply (kind_at_is_token _ k); unfold at_token_kind in H; congruence end]
  | |- _ ∧ _ => split; side
  | |- tok _ _ => split; [assumption|split; assumption]
  | |- _ = true => congruence
  | |- @eq nat _ _ => lia
  | |- _ < _ => first [lia|arith]
  | |- _ ≤ _ => first [lia|arith]
  | |- _ => idtac
  end.

(** The ranges of the goal as token boundaries. *)
Ltac ranges :=
  repeat match goal with
  | H : ?x = spn _ _ |- context [?x] => rewrite H
  | H : ?x = B _ |- context [?x] => rewrite H
  end; cbn [span_start span_end spn].

Ltac done_step Hr H0 HQ := frame Hr; unpack.

Ltac step :=
  lazymatch goal with
  | |- wp (mbind _ _) _ _ _ => apply wp_bind; step
  | |- wp (mret _) _ _ _ => apply wp_ret; cbv beta iota
  | |- wp (expect_current (Some _)) _ _ _ => apply wp_ret; cbv beta iota
  | |- wp (let '(_, _) := ?x in _) _ _ _ => destruct x
  | |- wp (gets _) _ _ _ => apply wp_gets; cbv beta iota
  | |- wp current _ _ _ =>
      apply wp_current; [let t := fresh "t" in intros t ? ?; unpack|intros ? ?]; cbv beta iota
  | |- wp current_kind _ _ _ => apply wp_current_kind; cbv beta iota
  | |- wp is_end _ _ _ => apply wp_gets; cbv beta iota
  | |- wp (invalid_here _) _ _ _ => apply wp_invalid_here; try fail_here
  | |- wp (incomplete_here _) _ _ _ => apply wp_incomplete_here; try fail_here
  | |- wp (expected _ _) _ _ _ => apply wp_expected; try fail_here
  | |- wp (invalid_at _ _) _ _ _ =>
      apply wp_invalid_at; [ranges; try (apply spot_spn; lia)|try fail_here]
  | |- wp (incomplete_at _ _) _ _ _ =>
      apply wp_incomplete_at; [ranges; try (apply spot_spn; lia)|try fail_here]
  | |- wp (mk_span _ _) _ _ _ => ranges; apply wp_mk_span; [try lia|cbv beta iota]
  | |- wp at_shorthand_end _ _ _ => step_read
  | |- wp starts_closure _ _ _ => step_read
  | |- wp starts_forced_command _ _ _ => step_read
  | |- wp io_number_before_redirection _ _ _ => step_read
  | |- wp starts_redirection _ _ _ => step_read
  | |- wp at_command_end _ _ _ => step_read
  | |- wp at_expression_end _ _ _ => step_read
  | |- wp starts_expression_stage _ _ _ => step_read
  | |- wp starts_nominal_record _ _ _ => step_read
  | |- wp name_is_assignment _ _ _ => step_read
  | |- wp at_statement_separator _ _ _ => apply wp_bind, wp_gets, wp_ret; cbv beta
  | |- wp (at_kind _) _ _ _ => apply wp_at_kind; cbv beta iota
  | |- wp (at_keyword _) _ _ _ => apply wp_at_kind; cbv beta iota
  | |- wp (at_delimiter (Some _)) _ _ _ => apply wp_at_kind; cbv beta iota
  | |- wp (text_is _ _) _ _ _ =>
      ranges; apply wp_text_is; [lia|let b := fresh "b" in intros b]
  | |- wp (text_at _) _ _ _ =>
      ranges; apply wp_text_at; [lia|let x := fresh "x" in intros x ?; cbv beta iota]
  | |- wp check_cancelled _ _ _ => eapply wp_check; [eassumption|step_frame]
  | |- wp (advance _) _ _ _ => eapply wp_advance; [eassumption|step_frame]
  | |- wp open_continuation _ _ _ => eapply wp_open; [eassumption|step_frame]
  | |- wp close_continuation ?s _ (failed ?s0) =>
      match goal with
      | H : continuation_depth ?s2 = S (continuation_depth ?s1) |- _ =>
          eapply (wp_close s0 s1 s2 s); [reach_tac|exact H|reach_tac|reach_tac|step_frame]
      end
  | |- wp (modify (with_interpolation _)) _ _ _ =>
      eapply wp_interpolation; [eassumption|apply spot_spn; lia|apply B_lt; lia|step_frame]
  | |- wp (push_diagnostic _) _ _ _ => eapply wp_push_diagnostic; [eassumption|assumption|step_frame]
  | |- wp (report_here _) _ _ _ => eapply wp_report; [eassumption|step_frame]
  | |- wp parse_identifier _ _ _ => eapply wp_identifier; [eassumption|step_frame]
  | |- wp current_span _ _ _ =>
      eapply wp_current_span; [eassumption|intro; cbv beta iota]
  | |- wp (take_operator _) _ _ _ => step_take
  | |- wp (take_delimiter _) _ _ _ => step_take
  | |- wp (take_keyword _) _ _ _ => step_take
  | |- wp take_token _ _ _ =>
      eapply wp_take_any; [eassumption| |];
      [let t := fresh "t" in intros t; step_frame|intro; cbv beta iota]
  | |- wp (if bool_decide ?P then _ else _) _ _ _ => case_bool_decide
  | |- wp (if ?b then _ else _) _ _ _ => let Hb := fresh "Hb" in destruct b eqn:Hb; unpack
  | |- wp _ _ _ _ =>
      eapply wp_spec; [typeclasses eauto|eassumption|cbv beta; side|let a := fresh "a" in intros a; step_frame]
  end
with step_read :=
  apply wp_reads; let b := fresh "b" in let Hb := fresh "Hb" in intros b Hb; cbv beta iota
with step_take :=
  eapply wp_take; [eassumption| |];
  [let t := fresh "t" in intros t; step_frame|intro; cbv beta iota]
with step_frame :=
  let s := fresh "s" in let Hr := fresh "Hr" in let H0 := fresh "H0" in
  intros s Hr H0; frame Hr; repeat (let K := fresh in intro K; cbv beta in K); unpack; cbv beta iota.

(** A step by a given specification. *)
Ltac step_by H :=
  eapply (@wp_spec _ _ _ _ _ H);
  [eassumption|cbv beta; side|let a := fresh "a" in intros a; step_frame].
