(* ===== verification/ParserParts.v ===== *)
(** * Names, types, quoted text, patterns and closures

    What the parser's functions for the smaller pieces of syntax promise,
    given that the recursive entry points keep theirs ([RecOk]). *)
From S2P Require Import Prelude Utf8 Source Lexer LexerFacts Diagnostic Ast Parser SyntaxTree.
From S2P Require Import ParserLogic.

#[export] Typeclasses Opaque take_path_separator parse_name_reference parse_qualified_name parse_type_reference
  parse_constraints parse_type_parameter parse_type_parameters parse_interpolation
  parse_double_quoted parse_literal parse_pattern_field parse_list_pattern parse_named_pattern
  parse_pattern parse_parameter parse_parameters parse_closure_parameters parse_value_chain
  parse_closure comma_separated comma_separated1 take_current expect_operator expect_delimiter
  expect_keyword expect_contextual_identifier skip_inline skip_layout skip_separators
  skip_separators_with_documentation synchronize.

(** ** Building trees *)

Section Trees.
Context `{E : Env} `{L : !Lexed}.

Lemma inner_map_snoc {A} (f : A → syntax_tree) l x lo hi d lo' hi' d' lo2 hi2 d2 :
  Forall (inner lo hi d) (List.map f l) → inner lo' hi' d' (f x) →
  lo2 ≤ lo → hi ≤ hi2 → d ≤ d2 → lo2 ≤ lo' → hi' ≤ hi2 → d' ≤ d2 →
  Forall (inner lo2 hi2 d2) (List.map f (l ++ [x])).
Proof.
  intros Hl Hx ??????. rewrite map_app. apply Forall_app_2.
  - by eapply Forall_inner_mono.
  - constructor; [by eapply inner_mono|constructor].
Qed.

Lemma concat_single {A B'} (f : A → B') l : List.concat (List.map (λ a, [f a]) l) = List.map f l.
Proof. induction l; simpl; [done|]. by f_equal. Qed.

(** ** Lists of items *)

Lemma wp_comma_trees {A} k (item : M A) (trees : A → list syntax_tree) s0 s
    (Q : list A → PState → Prop) :
  reach s0 s →
  (∀ s1, reach s s1 → reach s0 s1 →
     wp item s1 (λ a s2, reach s1 s2 ∧ consumed s1 s2 ∧ parts trees s1 a s2) (failed s0)) →
  (∀ l s', reach s s' → reach s0 s' →
     Forall (inner (position s) (position s') (nd s')) (List.concat (List.map trees l)) → Q l s') →
  wp (comma_separated (at_kind k) item) s Q (failed s0).
Proof.
  intros Hr Hitem HQ. apply (wp_repeat (λ l s', Forall (inner (position s) (position s') (nd s'))
    (List.concat (List.map trees l))) _ _ s0 s); [done|constructor|].
  intros l s1 H1 H01 Hl. apply wp_bind, wp_at_kind. case_bool_decide.
  { apply wp_ret. by apply HQ. }
  apply wp_bind. eapply wp_mono; [by apply Hitem| |done]. intros a s2 (H2 & [Hc1 Hc2] & Ha).
  assert (reach s0 s2) as H02 by reach_tac.
  assert (∀ s3, reach s2 s3 → Forall (inner (position s) (position s3) (nd s3))
     (List.concat (List.map trees (l ++ [a])))) as Hla.
  { intros s3 H3. frame H1. frame H2. frame H3. rewrite map_app, concat_app. simpl.
    rewrite app_nil_r. apply Forall_app_2; (eapply Forall_inner_mono; [eassumption|lia..]). }
  step. step.
  - step. unfold consumed. split; [reach_tac|].
    split; [apply Hla; reach_tac|split; lia].
  - apply HQ; [reach_tac|done|by apply Hla].
Qed.

Lemma wp_comma {A} k (item : M A) (tree : A → syntax_tree) s0 s (Q : list A → PState → Prop) :
  reach s0 s →
  (∀ s1, reach s s1 → reach s0 s1 →
     wp item s1 (λ a s2, reach s1 s2 ∧ consumed s1 s2 ∧ parts (λ a, [tree a]) s1 a s2) (failed s0)) →
  (∀ l s', reach s s' → reach s0 s' →
     Forall (inner (position s) (position s') (nd s')) (List.map tree l) → Q l s') →
  wp (comma_separated (at_kind k) item) s Q (failed s0).
Proof.
  intros Hr Hitem HQ. eapply wp_comma_trees; [done|exact Hitem|].
  intros l s' ???. apply HQ; [done..|]. by rewrite <- concat_single.
Qed.

Lemma wp_comma1_trees {A} k (item : M A) (trees : A → list syntax_tree) s0 s
    (Q : list A → PState → Prop) :
  reach s0 s →
  (∀ s1, reach s s1 → reach s0 s1 →
     wp item s1 (λ a s2, reach s1 s2 ∧ consumed s1 s2 ∧ parts trees s1 a s2) (failed s0)) →
  (∀ l s', reach s s' → reach s0 s' →
     Forall (inner (position s) (position s') (nd s')) (List.concat (List.map trees l)) → Q l s') →
  wp (comma_separated1 (at_kind k) item) s Q (failed s0).
Proof.
  intros Hr Hitem HQ. apply (wp_repeat (λ l s', Forall (inner (position s) (position s') (nd s'))
    (List.concat (List.map trees l))) _ _ s0 s); [done|constructor|].
  intros l s1 H1 H01 Hl.
  apply wp_bind. eapply wp_mono; [by apply Hitem| |done]. intros a s2 (H2 & [Hc1 Hc2] & Ha).
  assert (reach s0 s2) as H02 by reach_tac.
  assert (∀ s3, reach s2 s3 → Forall (inner (position s) (position s3) (nd s3))
     (List.concat (List.map trees (l ++ [a])))) as Hla.
  { intros s3 H3. frame H1. frame H2. frame H3. rewrite map_app, concat_app. simpl.
    rewrite app_nil_r. apply Forall_app_2; (eapply Forall_inner_mono; [eassumption|lia..]). }
  step. step.
  - step. step. case_bool_decide.
    + apply HQ; [reach_tac|done|].
      apply Hla; reach_tac.
    + unfold consumed. split; [reach_tac|].
      split; [apply Hla; reach_tac|split; lia].
  - apply HQ; [reach_tac|done|by apply Hla].
Qed.

Lemma wp_comma1 {A} k (item : M A) (tree : A → syntax_tree) s0 s (Q : list A → PState → Prop) :
  reach s0 s →
  (∀ s1, reach s s1 → reach s0 s1 →
     wp item s1 (λ a s2, reach s1 s2 ∧ consumed s1 s2 ∧ parts (λ a, [tree a]) s1 a s2) (failed s0)) →
  (∀ l s', reach s s' → reach s0 s' →
     Forall (inner (position s) (position s') (nd s')) (List.map tree l) → Q l s') →
  wp (comma_separated1 (at_kind k) item) s Q (failed s0).
Proof.
  intros Hr Hitem HQ. eapply wp_comma1_trees; [done|exact Hitem|].
  intros l s' ???. apply HQ; [done..|]. by rewrite <- concat_single.
Qed.
End Trees.

(** ** The recursive entry points *)

(** What a statement list leaves: its statements, and that no token is lost
    unless a diagnostic was recorded. *)
Section Entries.
Context `{E : Env} `{L : !Lexed}.

Definition listed (s : PState) (l : list Statement) (s' : PState) : Prop :=
  Forall (inner (position s) (position s') (nd s')) (List.map statement_tree l) ∧
  (nd s' = 0 → covered (List.map node_span l) (position s) (position s')).

Definition operand (s : PState) (e : Expression) (s' : PState) : Prop :=
  loose expr_tree s e s' ∧ expr_level e ≤ 1.

Class RecOk (n : nat) (R : Rec) : Prop := mkRecOk {
  rec_statement_list_ok closing :
    SpecOf (rec_statement_list closing) (deep n) listed;
  rec_if_node_ok :
    SpecOf rec_if_node (λ s, deep n s ∧ at_token_kind (KeywordToken KIf) s) (loose if_tree);
  rec_conditional_chain_ok : SpecOf rec_conditional_chain (deep n) (loose chain_tree);
  rec_expression_ok : SpecOf rec_expression (deep n) (loose expr_tree);
  rec_unary_ok : SpecOf rec_unary (deep n) operand;
  rec_pattern_ok : SpecOf rec_pattern (deep n) (loose pattern_tree);
  rec_type_reference_ok : SpecOf rec_type_reference (deep n) (loose type_tree)
}.
End Entries.
#[export] Existing Instances rec_statement_list_ok rec_if_node_ok rec_conditional_chain_ok
  rec_expression_ok rec_unary_ok rec_pattern_ok rec_type_reference_ok.

(** The range of the tree at hand. *)
Ltac root_is :=
  try done; cbn; autorewrite with roots; ranges; try (first [reflexivity|f_equal; lia]).

(** Build a tree whose parts are in the context. *)
Ltac inside :=
  match goal with
  | |- inner _ _ _ _ => eapply inner_mono; [eassumption|lia|lia|lia]
  | |- inner _ _ _ _ => eapply inner_mono; [eapply exact_inner; eassumption|lia|lia|lia]
  | |- inner _ _ _ (leaf _) => ranges; apply inner_leaf; lia
  | |- inner _ _ _ _ =>
      eapply inner_tree; [cbn; autorewrite with roots; ranges; reflexivity|lia|lia|lia|try first [exact I|assumption]|cbn; insides]
  end
with insides :=
  lazymatch goal with
  | |- Forall _ [] => constructor
  | |- Forall _ (List.map _ []) => constructor
  | |- Forall _ (List.map _ (_ :: _)) => cbn [List.map]; insides
  | |- Forall _ (List.map _ (_ ++ _)) => rewrite map_app; insides
  | |- Forall _ (_ :: _) =>
      first [eapply Forall_inner_mono; [eassumption|lia|lia|lia]
            |apply Forall_cons_2; [try inside|insides]]
  | |- Forall _ (_ ++ _) => apply Forall_app_2; insides
  | |- Forall _ _ => try (eapply Forall_inner_mono; [eassumption|lia|lia|lia])
  | |- _ => idtac
  end.

(** Separators from one position to another, along the steps. *)
Ltac skipping n :=
  first [assumption
        | match goal with |- skipped ?a ?b => replace b with a by lia; apply skipped_refl end
        | lazymatch n with
          | S ?n =>
            match goal with
            | H : skipped ?a ?b |- skipped ?c ?d =>
                replace c with a by lia; apply (skipped_trans a b d H); skipping n
            end
          end].

(** Layout from one position to another, along the steps. *)
Ltac laying n :=
  first [assumption
        | match goal with |- laid ?a ?b => replace b with a by lia; apply laid_refl end
        | lazymatch n with
          | S ?n =>
            match goal with
            | H : laid ?a ?b |- laid ?c ?d =>
                replace c with a by lia; apply (laid_trans a b d H); laying n
            end
          end].
Ltac solidity :=
  first [assumption
        | match goal with
          | H : tokens !! ?p = Some ?t, K : kind ?t = _ |- solid ?b =>
              apply (solid_token p t b H); [rewrite K; reflexivity|congruence || lia]
          | H : position ?x = S _ |- solid (position ?x) => rewrite H; assumption
          end].
Ltac ending :=
  eexists; split; [cbn; ranges; reflexivity|]; split; [lia|]; split; [solidity|laying 4].

(** One more tree in a list. *)
Ltac snoc Hl := eapply inner_map_snoc; [exact Hl|eassumption|lia..].

(** The result spans the tokens from [i] to [j]. *)
Ltac spanning i j :=
  exists i, j; split; [lia|split; [lia|split; [lia|split; [lia|
    split; [skipping 4|split; [skipping 4|split; [root_is|try inside]]]]]]].

Ltac promise :=
  lazymatch goal with
  | |- reach _ _ ∧ _ => split; [reach_tac|promise]
  | |- tight _ _ _ _ => split; [lia|split; [lia|split; [root_is|try inside]]]
  | |- parts _ _ _ _ => unfold parts; cbv beta; insides
  | |- consumed _ _ => split; lia
  | |- identified _ _ _ => split; [reflexivity|split; lia]
  | |- ex _ => try (eexists; reflexivity)
  | |- _ ∧ _ => split; promise
  | |- _ => idtac
  end.

Section Names.
Context `{E : Env} `{L : !Lexed}.

#[export] Instance spec_name_reference :
  SpecOf parse_name_reference any (λ s n s', identified s (reference_name n) s' ∧
    reference_span n = spn (position s) (S (position s))).
Proof.
  unfold parse_name_reference. start s. repeat step. promise. done.
Qed.

(** A qualified name, with its last segment ending it. *)
Definition qualified (s : PState) (q : QualifiedName) (s' : PState) : Prop :=
  tight qualified_tree s q s' ∧ nd s' = nd s ∧
  (∃ a, position s ≤ a ∧ a < position s' ∧ last (segments q) = Some (spn a (position s'))) ∧
  (∃ b, position s < b ∧ b ≤ position s' ∧ head (segments q) = Some (spn (position s) b)).

#[export] Instance spec_path_separator :
  SpecOf take_path_separator any (λ s b s',
    nd s' = nd s ∧ if b then consumed s s' else position s' = position s).
Proof.
  unfold take_path_separator. start s.
  assert (∀ sk, reach s sk → nd sk = nd s →
    wp (modify (with_position (position s));; mret false) sk
      (λ b s', reach s s' ∧ nd s' = nd s ∧ if b then consumed s s' else position s' = position s)
      (failed s)) as Hback.
  { intros sk Hk Hn. apply wp_bind. eapply (wp_back s); [done|done|].
    intros s' ? ? ?. apply wp_ret. split_and!; congruence || done. }
  step. step. step.
  - step.
    + repeat step. split_and!; try done; try lia. split; lia.
    + apply Hback; [reach_tac|lia].
  - step. apply Hback; [reach_tac|lia].
Qed.

#[export] Instance spec_qualified_name : SpecOf parse_qualified_name any qualified.
Proof.
  unfold parse_qualified_name. start s. step.
  apply wp_bind, (wp_repeat (λ x s', let '(l, stop) := x in
    stop = B (position s') ∧ position s' ≤ length tokens ∧ position s < position s' ∧ nd s' = nd s ∧
    Forall (inner (position s) (position s') 0) (List.map leaf l) ∧
    (∃ a, position s ≤ a ∧ a < position s' ∧ last l = Some (spn a (position s'))) ∧
    (∃ b, position s < b ∧ b ≤ position s' ∧ head l = Some (spn (position s) b))) _ _ s s0).
  { reach_tac. }
  { match goal with H : position s0 = _ |- _ => rewrite H end.
    split_and!; try done; try lia; [insides| |].
    - exists (position s). split_and!; [lia..|done].
    - exists (S (position s)). split_and!; [lia..|done]. }
  intros [l stop] s1 Hr1 Hr2 (-> & ? & ? & ? & Hl & (a & ? & ? & Ha) & (b & ? & ? & Hb)).
  frame Hr1. frame Hr2. step. step.
  - step. apply wp_ret. split; [reach_tac|]. split; [|split; lia].
    match goal with H : position ?x = S (position ?y) |- context [position ?x] => rewrite H end.
    split_and!; try done; try lia.
    + eapply (inner_map_snoc _ _ _ _ _ _ (position s) _ 0); [exact Hl|apply inner_leaf; reflexivity || lia|lia..].
    + eexists. split_and!; [| |by rewrite last_snoc]; lia.
    + exists b. split_and!; [lia..|]. by destruct l.
  - apply wp_ret. step. apply wp_ret. split; [reach_tac|].
    match goal with H : position ?x = position s1 |- _ => unfold qualified, tight; rewrite H end.
    split_and!; try done; try lia.
    + apply Inner; [lia..|exact I|]. insides.
    + by exists a.
    + by exists b.
Qed.
End Names.

(** ** Types, quoted text and literals *)

(** An item given by its promise. *)
Ltac item := let s := fresh "s" in let Hr := fresh "Hr" in let H0 := fresh "H0" in
  intros s Hr H0; frame Hr.
Ltac listing := let l := fresh "l" in let s := fresh "s" in let Hr := fresh "Hr" in
  let H0 := fresh "H0" in let Hl := fresh "Hl" in
  intros l s Hr H0 Hl; frame Hr; cbv beta iota.
(** Any further step inside a comma-separated list of [tree]s. *)
Ltac binds := repeat lazymatch goal with |- wp (mbind _ _) _ _ _ => apply wp_bind end.
Ltac comma tree := binds; eapply (wp_comma _ _ tree); [eassumption|item|listing].
Ltac comma1 tree := binds; eapply (wp_comma1 _ _ tree); [eassumption|item|listing].

Section Types.
Context `{E : Env} `{L : !Lexed} `{R : Rec} (n : nat) `{Hrec : !RecOk n R}.

#[export] Instance spec_type_reference : SpecOf parse_type_reference (room n) (loose type_tree).
Proof.
  unfold parse_type_reference. start s. step. step; [step|]. step.
  match goal with H : qualified _ _ _ |- _ =>
    destruct H as (? & ? & (x & ? & ? & ->) & (b & ? & ? & ?)) end.
  unpack. step. step. step.
  - step. comma1 type_tree.
    { step. promise. }
    step. step. step. apply wp_ret. split; [reach_tac|]. spanning (position s) (position s5).
  - step. step. apply wp_ret. split; [reach_tac|]. spanning (position s) (position s0).
Qed.

#[export] Instance spec_constraints name :
  SpecOf (parse_constraints name) any (λ s x s',
    nd s' = nd s ∧ ∃ j, position s < j ∧ j ≤ position s' ∧ x.2 = B j).
Proof.
  unfold parse_constraints. start s.
  apply (wp_repeat (λ _ s', nd s' = nd s) _ _ s s); [done..|].
  intros l s1 Hr1 _ Hn. frame Hr1. repeat step.
  all: try (split; [reach_tac|split; [lia|first [split; lia|exists (S (position s0)); split_and!; [lia..|done]]]]).
Qed.

#[export] Instance spec_type_parameter :
  SpecOf parse_type_parameter any (λ s p s',
    consumed s s' ∧ parts (λ p, [type_parameter_tree p]) s p s').
Proof.
  unfold parse_type_parameter. start s. step. step. step.
  - step. destruct a0 as [cs stop]. cbn in *. step. apply wp_ret. promise.
  - step. step. apply wp_ret. promise.
Qed.
#[export] Instance spec_type_parameters :
  SpecOf parse_type_parameters any (parts (List.map type_parameter_tree)).
Proof.
  unfold parse_type_parameters. start s. step. step.
  - step. step. case_bool_decide; [step|]. comma type_parameter_tree.
    { step. promise. }
    step. step. promise.
  - step. promise.
Qed.

(** [at_token_kind] moves along operations that leave the position alone. *)
#[export] Instance spec_interpolation :
  SpecOf parse_interpolation (λ s, room n s ∧ at_token s) (λ s w s',
    tight part_tree s w s' ∧ ∃ e, node_kind w = WInterpolation e).
Proof.
  unfold parse_interpolation. start s. repeat step. promise.
Qed.

#[export] Instance spec_double_quoted :
  SpecOf parse_double_quoted (λ s, room n s ∧ at_token s) (λ s w s',
    tight part_tree s w s' ∧ ∃ parts, node_kind w = WDoubleQuoted parts).
Proof.
  unfold parse_double_quoted. start s. step. step.
  apply wp_bind, (wp_repeat (λ l s', position s1 ≤ position s' ∧ position s' ≤ length tokens ∧
    Forall (inner (position s1) (position s') (nd s')) (List.map part_tree l)) _ _ s s1);
    [reach_tac|split_and!; [lia|lia|constructor]|].
  intros l s2 Hr2 Hr02 (? & ? & Hl). frame Hr2. step. case_bool_decide as Hk.
  - apply wp_ret. step. step. step. promise.
  - step. step; [|step].
    assert (∀ w s4, reach s3 s4 → position s3 < position s4 → position s4 ≤ length tokens →
        inner (position s3) (position s4) (nd s4) (part_tree w) → reach s s4 →
        reach s2 s4 ∧ (position s1 ≤ position s4 ∧ position s4 ≤ length tokens ∧
          Forall (inner (position s1) (position s4) (nd s4)) (List.map part_tree (l ++ [w]))) ∧
        consumed s2 s4) as Hnext.
    { intros w s4 Hr4 ? ? Hw ?. frame Hr4. split; [reach_tac|]. split; [|split; lia].
      split_and!; [lia|lia|]. eapply inner_map_snoc; [exact Hl|exact Hw|lia..]. }
    apply wp_bind. destruct (kind t) eqn:Hkt; try (step; fail).
    all: step; repeat apply wp_ret; apply Hnext; [reach_tac|lia|lia|inside|assumption].
Qed.

#[export] Instance spec_literal :
  SpecOf parse_literal (room n) (tight literal_tree).
Proof.
  unfold parse_literal. start s. step; [|step].
  destruct (kind t) as [| | | | | |k|k| | | | | | | | | | | |] eqn:Hkt; try (step; fail);
    [destruct k; try (step; fail)|destruct k| |].
  all: try (step; apply wp_ret; promise).
  step. destruct (node_kind a) as [| | |parts| | | |] eqn:Ha; try done.
  apply wp_ret. split; [reach_tac|].
  assert (literal_tree (mkLiteral (LitDoubleQuoted parts) (node_span a)) = part_tree a) as Ht
    by (unfold part_tree; by rewrite Ha).
  unfold tight. rewrite Ht. by split_and!.
Qed.

(** ** Patterns *)

#[export] Instance spec_pattern_field :
  SpecOf parse_pattern_field (room n) (λ s f s',
    consumed s s' ∧ parts (λ f, [pattern_field_tree f]) s f s').
Proof.
  unfold parse_pattern_field. start s. step. step. step. step. step.
  - step. apply wp_ret. destruct b0; cbn; step; step; promise.
  - repeat step. promise.
Qed.

#[export] Instance spec_list_pattern :
  SpecOf parse_list_pattern (λ s, room n s ∧ at_token s) (tight pattern_tree).
Proof.
  unfold parse_list_pattern. start s. step. step.
  apply wp_bind, (wp_repeat (λ x s', let '(l, rest) := x in
    position s1 ≤ position s' ∧ rest = None ∧
    Forall (inner (position s1) (position s') (nd s')) (List.map pattern_tree l)) _ _ s s1);
    [reach_tac|split_and!; [lia|done|constructor]|].
  intros [l rest] s2 Hr2 Hr02 (? & -> & Hl). frame Hr2. step. case_bool_decide as Hk.
  { apply wp_ret. step. step. step. promise. }
  step.
  - step. step. step. case_bool_decide.
    + apply wp_ret. step. step. step. promise.
    + step.
  - step. step. step.
    + step. apply wp_ret. split; [reach_tac|]. split; [|split; lia].
      split_and!; [lia|done|]. snoc Hl.
    + apply wp_ret. step. step. step. promise.
Qed.

(** The name's segments start and end it. *)
Ltac qualified_name Hhead Hlast :=
  match goal with H : qualified _ _ _ |- _ =>
    let x := fresh "x" in let y := fresh "y" in
    destruct H as (? & ? & (x & ? & ? & Hlast) & (y & ? & ? & Hhead)) end; unpack.

Lemma wp_pattern_tail s sn s1 name :
  room n s → reach s sn → qualified s name sn → reach s s1 → reach sn s1 →
  skipped (position sn) (position s1) →
  wp (parse_pattern_tail name) s1 (λ p s', reach s s' ∧ loose pattern_tree s p s') (failed s).
Proof.
  intros Hroom Hrn Hname Hr1 Hn1 Hskip. frame Hn1. frame Hr1. qualified_name Hhead Hlast.
  unfold parse_pattern_tail. step.
  - step. comma pattern_field_tree; [step; promise|].
    step. step. apply wp_ret. split; [reach_tac|]. spanning (position s) (S (position s3)).
  - step.
    + step. comma pattern_tree; [step; promise|].
      step. step. apply wp_ret. split; [reach_tac|]. spanning (position s) (S (position s3)).
    + destruct (segments name) as [|segment [|? ?]] eqn:Hseg; [done| |].
      * injection Hhead as Hhead. injection Hlast as Hlast.
        pose proof (spn_join _ _ _ _ _ Hhead Hlast) as Hs. clear Hhead Hlast.
        apply wp_ret. split; [reach_tac|]. spanning (position s) (position sn).
      * apply wp_ret. split; [reach_tac|]. spanning (position s) (position sn).
Qed.

#[export] Instance spec_named_pattern :
  SpecOf parse_named_pattern (room n) (loose pattern_tree).
Proof.
  unfold parse_named_pattern. start s. step.
  match goal with H : qualified _ _ _ |- _ => pose proof H as Hname end.
  qualified_name Hhead Hlast. step.
  assert (∀ w, wp (if (w : bool) then mret (PWildcard (qualified_span a)) else parse_pattern_tail a)
    s1 (λ p s', reach s s' ∧ loose pattern_tree s p s') (failed s)) as Hrest.
  { intros w. step; [apply wp_ret; split; [reach_tac|]; spanning (position s) (position s0)|].
    by apply (wp_pattern_tail s s0 s1). }
  apply wp_bind. destruct (segments a) as [|segment [|? ?]]; [done| |exact (Hrest false)].
  injection Hhead as ->. apply wp_text_is; [lia|exact Hrest].
Qed.

#[export] Instance spec_parse_pattern : SpecOf parse_pattern (room n) (loose pattern_tree).
Proof.
  unfold parse_pattern. start s. step. destruct (kind_at s) as [k|] eqn:Hk; [|step].
  assert (wp (if starts_literal k then l ← parse_literal; mret (PLiteral l)
              else invalid_here (bs "expected a match pattern")) s
    (λ p s', reach s s' ∧ loose pattern_tree s p s') (failed s)) as Hlit.
  { step; [|step]. step. apply wp_ret. split; [reach_tac|].
    spanning (position s) (position s0). }
  destruct k; try exact Hlit; [by apply spec_named_pattern|]. destruct d; try exact Hlit. step.
  split; [reach_tac|]. spanning (position s) (position s0).
Qed.
End Types.

(** ** What a pattern binds *)

Section PatternInduction.
Context (P : Pattern → Prop).
Context (Hwild : ∀ s, P (PWildcard s)) (Hlit : ∀ l, P (PLiteral l)) (Hbind : ∀ i, P (PBinding i)).
Context (Hlist : ∀ es r s, Forall P es → P (PList es r s)).
Context (Hrecord : ∀ q fs s,
  Forall (λ f, let 'mkPatternField _ p _ := f in P p) fs → P (PNominalRecord q fs s)).
Context (Hvariant : ∀ q ps s, Forall P ps → P (PVariant q ps s)).

Fixpoint pattern_nested_ind (p : Pattern) : P p :=
  let all := fix all (l : list Pattern) : Forall P l :=
    match l with [] => Forall_nil_2 _ | p :: l => Forall_cons_2 _ _ _ (pattern_nested_ind p) (all l) end in
  match p with
  | PWildcard s => Hwild s
  | PLiteral l => Hlit l
  | PBinding i => Hbind i
  | PList es r s => Hlist es r s (all es)
  | PNominalRecord q fs s =>
      Hrecord q fs s
        ((fix go (l : list PatternField) : Forall (λ f, let 'mkPatternField _ p _ := f in P p) l :=
          match l with
          | [] => Forall_nil_2 _
          | f :: l =>
              Forall_cons_2 _ f l
                (match f return (let 'mkPatternField _ p _ := f in P p) with
                 | mkPatternField _ p _ => pattern_nested_ind p
                 end) (go l)
          end) fs)
  | PVariant q ps s => Hvariant q ps s (all ps)
  end.
End PatternInduction.

Lemma find_map_Some {A B'} (f : A → option B') l y :
  find_map f l = Some y → ∃ x, x ∈ l ∧ f x = Some y.
Proof.
  induction l as [|x l IH]; simpl; [done|]. destruct (f x) eqn:Hx.
  - intros [= ->]. exists x. split; [by left|done].
  - intros (z & ? & ?)%IH. exists z. split; [by right|done].
Qed.

Section Bindings.
Context `{E : Env} `{L : !Lexed}.

Lemma inner_parts lo hi d s l cs :
  inner lo hi d (Tree s l cs) → l ≠ TokenPart →
  ∃ i j, lo ≤ i ∧ i ≤ j ∧ j ≤ hi ∧ s = spn i j ∧ Forall (inner i j d) cs.
Proof. inversion 1; subst; [eauto 10|done]. Qed.

Lemma Forall_map_in {A} (f : A → syntax_tree) (P : syntax_tree → Prop) l x :
  Forall P (List.map f l) → x ∈ l → P (f x).
Proof.
  rewrite Forall_map, list.Forall_forall. auto.
Qed.

Lemma primary_binding_inner p lo hi d i :
  inner lo hi d (pattern_tree p) → pattern_primary_binding p = Some i →
  ∃ a b, lo ≤ a ∧ a ≤ b ∧ b ≤ hi ∧ i = spn a b.
Proof.
  revert p lo hi d i.
  assert (∀ lo hi d lo' hi' (i : Identifier), lo ≤ lo' → hi' ≤ hi →
    (∃ a b, lo' ≤ a ∧ a ≤ b ∧ b ≤ hi' ∧ i = spn a b) →
    (d : nat) = d → ∃ a b, lo ≤ a ∧ a ≤ b ∧ b ≤ hi ∧ i = spn a b) as Hwiden.
  { intros lo hi d lo' hi' i ?? (a & b & ? & ? & ? & ->) _. exists a, b. split_and!; lia || done. }
  induction p as [s|l|i|es r s IH|q fs s IH|q ps s IH] using pattern_nested_ind;
    intros lo hi d k Hin; simpl; try done.
  - intros [= <-]. apply inner_parts in Hin as (a & b & ? & ? & ? & -> & _); [|done]. eauto 10.
  - apply inner_parts in Hin as (a & b & ? & ? & ? & _ & Hcs); [|done]. apply Forall_app in Hcs as [Hes Hr].
    destruct (find_map _ es) as [k'|] eqn:Hf.
    + intros [= ->]. apply find_map_Some in Hf as (x & Hx & Hk).
      apply (Hwiden lo hi d a b); [done..| |done].
      rewrite list.Forall_forall in IH. eapply IH; [done| |done]. by eapply Forall_map_in in Hes.
    + intros ->. simpl in Hr. apply Forall_inv in Hr.
      apply (Hwiden lo hi d a b); [done..| |done].
      apply inner_parts in Hr as (a' & b' & ? & ? & ? & -> & _); [|done]. eauto 10.
  - apply inner_parts in Hin as (a & b & ? & ? & ? & _ & Hcs); [|done]. apply Forall_inv_tail in Hcs.
    intros (x & Hx & Hk)%find_map_Some. apply (Hwiden lo hi d a b); [done..| |done].
    rewrite list.Forall_forall in IH. specialize (IH _ Hx). destruct x as [nm p s'].
    eapply Forall_map_in in Hcs; [|exact Hx]. simpl in Hcs.
    apply inner_parts in Hcs as (a' & b' & ? & ? & ? & _ & Hp); [|done].
    apply (Hwiden a b d a' b'); [done..| |done].
    eapply IH; [|done]. apply Forall_inv_tail, Forall_inv in Hp. exact Hp.
  - apply inner_parts in Hin as (a & b & ? & ? & ? & _ & Hcs); [|done]. apply Forall_inv_tail in Hcs.
    intros (x & Hx & Hk)%find_map_Some. apply (Hwiden lo hi d a b); [done..| |done].
    rewrite list.Forall_forall in IH. eapply IH; [done| |done]. by eapply Forall_map_in in Hcs.
Qed.

End Bindings.

(** ** Parameters and closures *)

Section Closures.
Context `{E : Env} `{L : !Lexed} `{R : Rec} (n : nat) `{Hrec : !RecOk n R}.

#[export] Instance spec_parameter : SpecOf parse_parameter (room n) (λ s p s',
  consumed s s' ∧ parts parameter_trees s p s').
Proof.
  unfold parse_parameter. start s. step. step. apply wp_bind.
  destruct (pattern_primary_binding a) as [name|] eqn:Hname.
  2: { step. }
  match goal with H : inner _ _ _ (pattern_tree a) |- _ =>
    destruct (primary_binding_inner _ _ _ _ _ H Hname) as (u & v & ? & ? & ? & ->) end.
  apply wp_ret. step. step.
  - repeat step. promise. cbn. insides.
  - repeat step. promise. destruct a; cbn in Hname |- *; simplify_eq; insides.
Qed.

Lemma spec_parameter_list k :
  SpecOf (skip_layout;; comma_separated (at_kind k) parse_parameter) (room n)
    (parts (λ ps, List.concat (List.map parameter_trees ps))).
Proof.
  start s. step. eapply (wp_comma_trees _ _ parameter_trees); [eassumption|item; step; promise|listing].
  split; [reach_tac|]. by eapply Forall_inner_mono.
Qed.
#[export] Instance spec_parameters d :
  SpecOf (parse_parameters d) (room n) (parts (λ ps, List.concat (List.map parameter_trees ps))).
Proof. apply spec_parameter_list. Qed.
#[export] Instance spec_closure_parameters :
  SpecOf parse_closure_parameters (room n) (parts (λ ps, List.concat (List.map parameter_trees ps))).
Proof. apply spec_parameter_list. Qed.

#[export] Instance spec_value_chain : SpecOf parse_value_chain (deep n) (loose chain_tree).
Proof.
  unfold parse_value_chain. start s. apply wp_bind, wp_modify, wp_restoring.
  assert (∀ s', reach (with_value_chain (S (value_chain_depth s)) s) s' →
    wp (λ s, match value_chain_depth s with
             | O => (Panic, s)
             | S d => (Ok tt, with_value_chain d s)
             end) s' (λ _ s'', reach s s'' ∧ position s'' = position s' ∧ nd s'' = nd s')
      (λ _ _, False)) as Hback.
  { intros s' []. unfold wp. destruct (value_chain_depth s') as [|d] eqn:Hd; simpl in *; [lia|].
    split_and!; [|done..]. constructor; simpl; try done. lia. }
  eapply wp_mono; [apply rec_conditional_chain_ok; [done|done]| |].
  - intros c s' [Hr Hc]. eapply wp_mono; [by apply Hback| |done].
    intros _ s'' (? & Hp & Hn). split; [done|]. unfold loose in *. by rewrite Hp, Hn.
  - intros e s' [Hr He]. eapply wp_mono; [by apply Hback| |done].
    intros _ s'' (? & _). by split.
Qed.

Lemma pair_at_tok k f s :
  pair_at k f s = true →
  at_token_kind k s ∧ is_Some (tokens !! S (position s)).
Proof.
  unfold pair_at, at_token_kind, kind_at. destruct (current_at s) as [t|]; [|done].
  destruct (tokens !! S (position s)); [|done]. intros [[Hk _]%andb_true_iff _]%andb_true_iff.
  apply bool_decide_eq_true in Hk as <-. by split.
Qed.

#[export] Instance spec_closure :
  SpecOf parse_closure (λ s, room n s ∧ starts_closure_at s = true) (tight closure_tree).
Proof.
  unfold parse_closure. start s.
  match goal with H : starts_closure_at s = true |- _ => destruct (pair_at_tok _ _ _ H) as [_ Hnext] end.
  step. apply wp_bind. eapply wp_spec; [apply _|eassumption| |].
  { unfold at_token. match goal with H : position s0 = _ |- _ => by rewrite H end. }
  intros t s1 Hr1 Hr2 Ht. frame Hr1. unpack. repeat step. all: promise.
Qed.
End Closures.
