(* ===== verification/ParserExpr.v ===== *)
(** * Expressions, commands and chains

    What the parser's functions for expressions and job chains promise, given
    that the recursive entry points keep theirs. *)
From S2P Require Import Prelude Utf8 Source Lexer LexerFacts Diagnostic Ast Parser SyntaxTree.
From S2P Require Import ParserLogic ParserParts.

#[export] Typeclasses Opaque binary parse_record_field_value parse_list_item parse_list
  parse_record_key parse_record_entry parse_record parse_grouped_job parse_primary
  parse_qualified_postfix parse_nominal_field parse_nominal_postfix parse_call_postfix
  parse_index_postfix parse_bracket_postfix parse_member_postfix postfix_step parse_postfix
  parse_unary left_associative non_associative parse_multiplicative parse_additive parse_range
  parse_comparison parse_equality parse_expression bare_run parse_word_part parse_word
  parse_redirection_target parse_redirection_kind parse_redirection_item parse_spread_item
  parse_command_item parse_command_stage parse_stage parse_chain parse_pipeline parse_and_chain
  parse_conditional_chain.

Section Primary.
Context `{E : Env} `{L : !Lexed} `{R : Rec} (n : nat) `{Hrec : !RecOk n R}.

(** An expression somewhere between two positions. *)
Notation placed lo e s' :=
  (∃ i j, lo ≤ i ∧ i < j ∧ j ≤ position s' ∧ node_span e = spn i j ∧
    inner i j (nd s') (expr_tree e)) (only parsing).

#[export] Instance spec_record_field_value a b message :
  SpecOf (parse_record_field_value (spn a b) message) (λ s, deep n s ∧ a < b ∧ b ≤ position s)
    (λ s e s', placed a e s').
Proof.
  unfold parse_record_field_value. start s. step. step. step.
  - step. split; [reach_tac|]. exists a, b. split_and!; try done; try lia.
    inside.
  - repeat step. split; [reach_tac|]. eexists _, _. split_and!; [| | |eassumption|]; try lia. inside.
Qed.

#[export] Instance spec_list_item : SpecOf parse_list_item (deep n) (λ s i s',
  consumed s s' ∧ parts (λ i, [item_tree i]) s i s').
Proof.
  unfold parse_list_item. start s. step.
  - repeat step. promise.
  - repeat step. promise.
Qed.

(** A closed operand: an expression with no operator outside. *)
Definition bracketed (s : PState) (e : Expression) (s' : PState) : Prop :=
  tight expr_tree s e s' ∧ expr_level e = 0 ∧ expression_name e = None.

#[export] Instance spec_list : SpecOf parse_list (λ s, room n s ∧ at_token s) bracketed.
Proof.
  unfold parse_list. start s. step. step. step. comma item_tree; [step; promise|].
  repeat step. unfold bracketed. promise; done.
Qed.

#[export] Instance spec_record_key : SpecOf parse_record_key (room n) (λ s k s',
  tight key_tree s k s' ∧ ∀ i, k = RIdentifier i → i = spn (position s) (S (position s))).
Proof.
  unfold parse_record_key. start s. step. destruct (kind_at s) as [k|] eqn:Hk; [|step].
  destruct k; try (step; fail).
  - repeat step. promise. by intros i [= ->].
  - repeat step. promise. done.
  - repeat step. promise; done.
Qed.

#[export] Instance spec_record_entry : SpecOf parse_record_entry (room n) (λ s r s',
  consumed s s' ∧ parts (λ r, [entry_tree r]) s r s').
Proof.
  unfold parse_record_entry. start s. step. step. step. destruct a as [i|i|w].
  - match goal with H : ∀ i, _ → _ |- _ => rewrite (H _ eq_refl) in * end.
    repeat step. promise.
  - repeat step. promise.
  - repeat step. promise.
Qed.

#[export] Instance spec_record : SpecOf parse_record (λ s, room n s ∧ at_token s) bracketed.
Proof.
  unfold parse_record. start s. step. step. step. comma entry_tree; [step; promise|].
  repeat step. unfold bracketed. promise; done.
Qed.

#[export] Instance spec_grouped_job :
  SpecOf parse_grouped_job (λ s, room n s ∧ at_token s) bracketed.
Proof.
  unfold parse_grouped_job. start s. step. step. step. apply wp_bind, wp_reads.
  intros [t|] Hc; cbv beta iota.
  - destruct (next_non_inline (position s2 + 1)) as [u|] eqn:Hu; [|done].
    destruct (_ && _); [|done]. injection Hc as ->.
    unfold next_non_inline in Hu. apply bind_Some in Hu as (j & _ & Hj).
    apply tok_lookup in Hj. apply wp_invalid_at; [by eapply spot_tok|fail_here].
  - repeat step. unfold bracketed. promise; done.
Qed.

(** An operand from [i] to [j]: no operator outside, and if it is a name, one
    that starts at [i]. *)
Definition shaped (i j : nat) (e : Expression) : Prop :=
  expr_level e = 0 ∧
  ∀ q, expression_name e = Some q →
    qualified_span q = spn i j ∧ ∃ b, i < b ∧ b ≤ j ∧ head (segments q) = Some (spn i b).

Definition carried (i j : nat) (e : Expression) (s : PState) : Prop :=
  i < j ∧ j ≤ position s ∧ j ≤ length tokens ∧ node_span e = spn i j ∧
  inner i j (nd s) (expr_tree e) ∧ shaped i j e.

Definition primary (s : PState) (e : Expression) (s' : PState) : Prop :=
  ∃ i j, position s ≤ i ∧ skipped (position s) i ∧ skipped j (position s') ∧ carried i j e s'.

Lemma primary_loose s e s' : primary s e s' → loose expr_tree s e s' ∧ expr_level e = 0.
Proof.
  intros (i & j & ? & ? & ? & ? & ? & ? & ? & ? & Hs). split; [|apply Hs].
  exists i, j. by split_and!.
Qed.

Lemma bracketed_primary s s1 e s' :
  skipped (position s) (position s1) → bracketed s1 e s' → primary s e s'.
Proof.
  intros Hs ((? & ? & ? & ?) & ? & Hn). pose proof (proj1 Hs).
  exists (position s1), (position s'). split; [done|]. split; [done|]. split; [apply skipped_refl|].
  split_and!; try done. split; [done|]. by rewrite Hn.
Qed.

#[export] Instance spec_primary : SpecOf parse_primary (room n) primary.
Proof.
  unfold parse_primary. start s. step. step. step. destruct (kind_at s1) as [k|] eqn:Hk; [|step].
  assert (skipped (position s) (position s1)) as Hskip by skipping 4.
  step.
  - repeat step. split; [reach_tac|]. apply (bracketed_primary s s1); [done|].
    unfold bracketed. promise; done.
  - destruct k; try (step; fail).
    + repeat step. split; [reach_tac|]. exists (position s1), (position s2).
      split; [lia|]. split; [done|]. split; [apply skipped_refl|].
      split; [lia|]. split; [lia|]. split; [lia|]. split; [root_is|]. split; [inside|].
      split; [done|]. intros q [= <-]. split; [root_is|]. exists (position s2).
      split_and!; [lia..|]. cbn. f_equal. root_is.
    + destruct d; try (step; fail).
      * step. split; [reach_tac|]. by apply (bracketed_primary s s1).
      * step. step.
        -- repeat step. split; [reach_tac|]. apply (bracketed_primary s s1); [done|].
           unfold bracketed. promise; done.
        -- step. split; [reach_tac|]. by apply (bracketed_primary s s1).
      * step. split; [reach_tac|]. by apply (bracketed_primary s s1).
Qed.
End Primary.

(** ** Postfix operators *)

Section Postfix.
Context `{E : Env} `{L : !Lexed} `{R : Rec} (n : nat) `{Hrec : !RecOk n R}.

(** A longer operand from the same start, ending where the parser stands. *)
Definition grown (i : nat) (s : PState) (e : Expression) (s' : PState) : Prop :=
  carried i (position s') e s' ∧ consumed s s'.

Lemma carried_mono i j e s s' : carried i j e s → reach s s' → carried i j e s'.
Proof.
  intros (? & ? & ? & ? & Hi & ?) Hr. frame Hr. split_and!; try done; [lia|].
  by eapply inner_mono.
Qed.

Lemma named_tree i j d e q :
  inner i j d (expr_tree e) → expression_name e = Some q → inner i j d (qualified_tree q).
Proof.
  intros Hi Hq. apply inner_parts in Hi as (a & b & ? & ? & ? & _ & Hc); [|done].
  destruct e as [[] sp]; try done;
    injection Hq as <-; apply Forall_inv in Hc; (eapply inner_mono; [exact Hc|lia|lia|lia]).
Qed.

Ltac carry := match goal with H : carried _ _ _ _ |- _ => destruct H as (? & ? & ? & ? & ? & ? & ?) end.

(** Finish with an expression that is not a name. *)
Ltac growing :=
  split; [reach_tac|split; [|split; lia]];
  split; [lia|split; [lia|split; [lia|split; [root_is|split; [try inside|split; [done|done]]]]]].

Lemma spec_call_postfix i j e targs :
  SpecOf (parse_call_postfix e targs)
    (λ s, room n s ∧ position s < length tokens ∧ carried i j e s ∧
      Forall (inner i (position s) (nd s)) (List.map type_tree targs)) (grown i).
Proof.
  unfold parse_call_postfix. start s. carry. step. step. step.
  comma expr_tree; [step; promise|]. repeat step. growing.
Qed.

Lemma spec_index_postfix i j e :
  SpecOf (parse_index_postfix e)
    (λ s, length tokens - S (position s) < n ∧ carried i j e s) (grown i).
Proof.
  unfold parse_index_postfix. start s. carry. repeat step. growing.
Qed.

Lemma spec_member_postfix i j e :
  SpecOf (parse_member_postfix e)
    (λ s, position s < length tokens ∧ carried i j e s) (grown i).
Proof.
  unfold parse_member_postfix. start s. carry. repeat step. growing.
Qed.
#[export] Instance spec_nominal_field : SpecOf parse_nominal_field (room n) (λ s f s',
  consumed s s' ∧ parts (λ f, [field_tree f]) s f s').
Proof. unfold parse_nominal_field. start s. repeat step. promise. Qed.

Lemma spec_nominal_postfix i j q e :
  SpecOf (parse_nominal_postfix q)
    (λ s, room n s ∧ position s < length tokens ∧ carried i j e s ∧ expression_name e = Some q)
    (grown i).
Proof.
  unfold parse_nominal_postfix. start s. carry.
  match goal with
  | Hq : ∀ q, expression_name e = Some q → _, Hn : expression_name e = Some q,
    Hi : inner i j _ _ |- _ =>
      destruct (Hq q Hn) as (? & _); pose proof (named_tree _ _ _ _ _ Hi Hn)
  end.
  step. step. step.
  comma field_tree; [step; promise|]. repeat step. growing.
Qed.

Lemma wp_bracket_is_followed_by_call s (Q : bool → PState → Prop) X :
  inv s → position s < length tokens → (∀ b, Q b s) → wp bracket_is_followed_by_call s Q X.
Proof.
  intros (_ & Hb & _) Hp HQ. unfold wp, bracket_is_followed_by_call.
  destruct (bracket_ends s !! position s) as [close|] eqn:Hc; [apply HQ|].
  apply lookup_ge_None_1 in Hc. lia.
Qed.

Lemma grown_back i s s1 e s' :
  position s ≤ position s1 → position s < length tokens → grown i s1 e s' → grown i s e s'.
Proof. intros ? ? [? [? ?]]. split; [done|]. split; lia. Qed.

Lemma spec_type_argument_postfix i j e :
  SpecOf (parse_type_argument_postfix e)
    (λ s, room n s ∧ position s < length tokens ∧ carried i j e s) (grown i).
Proof.
  unfold parse_type_argument_postfix. start s.
  match goal with H : carried i j e s |- _ => rename H into Hc end.
  step. step. step. comma type_tree; [step; promise|]. step. step. step. step.
  pose proof (carried_mono _ _ _ _ s6 Hc ltac:(reach_tac)) as Hc'.
  pose proof Hc as Hc0. destruct Hc0 as (? & ? & _).
  match goal with |- wp (if bool_decide ?P then _ else _) _ _ _ => destruct (decide P) as [Hk|Hk] end;
    [rewrite bool_decide_true by done|rewrite bool_decide_false by done].
  - destruct (kind_at_tok _ _ Hk) as (t & (? & ? & ?) & _).
    step_by (spec_call_postfix i j e l); try done; [insides|].
    split; [reach_tac|]. by apply (grown_back i s s6); [lia| |].
  - step_by (spec_index_postfix i j e); [done|].
    split; [reach_tac|]. by apply (grown_back i s s6); [lia| |].
Qed.

Lemma spec_bracket_postfix i j e :
  SpecOf (parse_bracket_postfix e)
    (λ s, room n s ∧ position s < length tokens ∧ carried i j e s) (grown i).
Proof.
  unfold parse_bracket_postfix. start s.
  assert (∀ c, wp (if (c : bool) then parse_type_argument_postfix e else parse_index_postfix e) s
    (λ e' s', reach s s' ∧ grown i s e' s') (failed s)) as Hrest.
  { intros []; [by apply (spec_type_argument_postfix i j e)|].
    apply (spec_index_postfix i j e); [done|]. split; [arith|done]. }
  apply wp_bind. destruct (expression_name e); [|exact (Hrest false)].
  apply wp_bracket_is_followed_by_call; [done|done|exact Hrest].
Qed.

Lemma spec_qualified_postfix i j q e :
  SpecOf (parse_qualified_postfix q)
    (λ s, position s < length tokens ∧ carried i j e s ∧ expression_name e = Some q)
    (λ s o s', match o with
      | Some e' => grown i s e' s'
      | None => position s' = position s
      end).
Proof.
  unfold parse_qualified_postfix. start s.
  match goal with H : carried i j e s |- _ => rename H into Hc end.
  pose proof Hc as Hc0. carry.
  match goal with
  | Hq : ∀ q, expression_name e = Some q → _, Hn : expression_name e = Some q,
    Hi : inner i j _ _ |- _ =>
      destruct (Hq q Hn) as (Hqs & b & ? & ? & Hhead);
      pose proof (named_tree _ _ _ _ _ Hi Hn) as Hqt
  end.
  step. step. step.
  - step. step. rewrite Hhead. step. step. step. promise.
    apply inner_parts in Hqt as (u & v & ? & ? & ? & _ & Hsegs); [|done].
    assert (position s3 = S (position s2)) as Hp by lia.
    split; [rewrite Hp|split; lia].
    split; [lia|split; [lia|split; [lia|split; [done|split; [inside|]]]]].
    split; [done|]. intros q' [= <-]. split; [done|]. exists b. split_and!; [lia..|].
      simpl. by destruct (segments q).
  - apply wp_bind. eapply (wp_back s); [reach_tac|done|]. intros sk Hrk Hp Hn. step. done.
Qed.

(** One turn of the loop. *)
Lemma wp_postfix_step s e s1 :
  room n s → reach s s1 → primary s e s1 →
  wp (postfix_step e) s1 (λ o s2, reach s s2 ∧ reach s1 s2 ∧
    match o with Some e' => primary s e' s2 ∧ consumed s1 s2 | None => primary s e s2 end)
    (failed s).
Proof.
  intros Hroom Hr (i & j & Hi & Hsi & Hsj & Hc). frame Hr. unfold postfix_step.
  step. step.
  pose proof (carried_mono _ _ _ _ s2 Hc ltac:(reach_tac)) as Hc2.
  assert (skipped j (position s2)) as Hsj2 by skipping 4.
  assert (primary s e s2) as Hstop by by exists i, j.
  assert (∀ e' s3, reach s s3 → reach s2 s3 → grown i s2 e' s3 →
    reach s s3 ∧ reach s1 s3 ∧ primary s e' s3 ∧ consumed s1 s3) as Hgrow.
  { intros e' s3 ? Hr3 [Hg [? ?]]. split; [done|]. split; [reach_tac|]. split; [|split; lia].
    exists i, (position s3). split; [done|]. split; [done|]. split; [apply skipped_refl|done]. }
  assert (wp (mret None) s2 (λ o s3, reach s s3 ∧ reach s1 s3 ∧
    match o with Some e' => primary s e' s3 ∧ consumed s1 s3 | None => primary s e s3 end)
    (failed s)) as Hnone by (apply wp_ret; split_and!; [done|reach_tac|done]).
  step. destruct (kind_at s2) as [k|] eqn:Hk; [|exact Hnone].
  destruct (kind_at_tok _ _ Hk) as (t & (? & ? & ?) & _).
  assert (room n s2) by arith.
  destruct k as [| | | | | | | | | | | | | | | | |o|d|]; try exact Hnone.
  - destruct o; try exact Hnone.
    + apply wp_bind. step_by (spec_member_postfix i j e); [done|].
      apply wp_ret, Hgrow; [done|reach_tac|done].
    + destruct (expression_name e) as [q|] eqn:Hq; [|exact Hnone].
      step_by (spec_qualified_postfix i j q e); [done|done|].
      match goal with o : option Expression |- _ => destruct o as [e'|] end.
      * by apply Hgrow.
      * split; [done|]. split; [reach_tac|]. exists i, j. split; [done|]. split; [done|].
        split; [skipping 4|]. by eapply carried_mono.
  - destruct d; try exact Hnone.
    + apply wp_bind. step_by (spec_call_postfix i j e []); [done|constructor|].
      apply wp_ret, Hgrow; [done|reach_tac|done].
    + destruct (expression_name e) as [q|] eqn:Hq; [|exact Hnone]. step. step; [|exact Hnone].
      apply wp_bind. step_by (spec_nominal_postfix i j q e); [done|done|].
      apply wp_ret, Hgrow; [done|reach_tac|done].
    + apply wp_bind. step_by (spec_bracket_postfix i j e); [done|].
      apply wp_ret, Hgrow; [done|reach_tac|done].
Qed.

#[export] Instance spec_postfix : SpecOf parse_postfix (room n) primary.
Proof.
  unfold parse_postfix. start s. step.
  apply wp_bind. eapply wp_spec; [apply _|eassumption|cbv beta; side|].
  intros e s1 Hr1 Hrs1 Hp. frame Hr1.
  apply (wp_repeat (λ e s', primary s e s') _ _ s s1); [done| |].
  { match goal with K : position s0 = position s |- _ =>
      destruct Hp as (i & j & Hp); rewrite K in Hp; by exists i, j end. }
  intros e' s2 Hr2 Hrs2 He'. apply wp_bind. eapply wp_mono; [by apply (wp_postfix_step s e' s2)| |done].
  intros [e''|] s3 (? & ? & Ho); apply wp_ret; [|by split].
  destruct Ho. by split_and!.
Qed.

(** ** Operators *)

#[export] Instance spec_unary : SpecOf parse_unary (room n) operand.
Proof.
  unfold parse_unary. start s. step. step. destruct (unary_operator _) as [o|] eqn:Ho.
  - assert (at_token s0).
    { destruct (kind_at s0) as [k|] eqn:Hk; [|done]. by eapply kind_at_is_token. }
    step. step. step. unfold operand in *. unpack. step. step. split; [reach_tac|].
    split; [|done]. spanning (position s0) x0.
  - step. match goal with H : primary _ _ _ |- _ => apply primary_loose in H as [Hl Hlevel] end.
    split; [reach_tac|]. unfold operand, loose in *.
    match goal with K : position s0 = position s |- _ => rewrite K in Hl end. split; [done|lia].
Qed.

(** The levels: an expression whose outermost operator binds no less than
    [m]. *)
Definition graded (m : nat) (s : PState) (e : Expression) (s' : PState) : Prop :=
  loose expr_tree s e s' ∧ expr_level e ≤ m.

Lemma wp_binary s0 s i j k l left o sp right d m (Q : Expression → PState → Prop) :
  node_span left = spn i j → sp = spn k (S k) → node_span right = spn l m →
  i < j → j ≤ k → k < l → l < m → m ≤ position s →
  inner i j d (expr_tree left) → inner l m (nd s) (expr_tree right) → d ≤ nd s →
  levels_ok (EBinary left (node o sp) right) →
  (∀ e, node_span e = spn i m → inner i m (nd s) (expr_tree e) → expr_level e = binary_level o →
    Q e s) →
  wp (binary left o sp right) s Q (failed s0).
Proof.
  intros Hl -> Hr ????????? HQ. unfold binary. step. step. apply HQ; [done| |done]. inside.
Qed.

Lemma spec_left_associative m ops operand_m :
  (∀ k o, ops k = Some o → is_Some k ∧ binary_level o = m ∧ associates o = true) → 0 < m →
  SpecOf operand_m (room n) (graded (m - 1)) →
  SpecOf (left_associative ops operand_m) (room n) (graded m).
Proof.
  intros Hops Hm Hspec. unfold left_associative. start s. apply wp_bind. step_by Hspec.
  unfold graded in *. unpack.
  apply (wp_repeat (λ e s', loose expr_tree s e s' ∧ expr_level e ≤ m) _ _ s s0);
    [done|split; [spanning x x0|lia]|].
  intros e s1 Hr1 Hrs1 [He Hle]. unpack. frame Hr1. frame Hrs1.
  step. step. step. destruct (ops _) as [o|] eqn:Ho.
  2: { step. split; [reach_tac|]. split; [spanning x1 x2|done]. }
  destruct (Hops _ _ Ho) as ([k Hk] & Hlev & Hass).
  step. step. apply wp_bind. step_by Hspec. unfold graded in *. unpack. apply wp_bind.
  eapply (wp_binary s); [eassumption..|lia|lia|lia|lia|lia|eassumption|eassumption|lia| |].
  { cbn. rewrite Hass. lia. }
  intros e' He' Hi' Hl'. step. split; [reach_tac|]. split; [|split; lia].
  split; [|lia]. match type of He' with _ = spn ?i ?j => spanning i j end.
Qed.

Lemma spec_non_associative m ops message operand_m :
  (∀ k o, ops k = Some o → is_Some k ∧ binary_level o = m ∧ associates o = false) → 0 < m →
  SpecOf operand_m (room n) (graded (m - 1)) →
  SpecOf (non_associative ops message operand_m) (room n) (graded m).
Proof.
  intros Hops Hm Hspec. unfold non_associative. start s. apply wp_bind. step_by Hspec.
  unfold graded in *. unpack. step. step. destruct (ops _) as [o|] eqn:Ho.
  2: { step. split; [reach_tac|]. split; [spanning x x0|lia]. }
  destruct (Hops _ _ Ho) as ([k Hk] & Hlev & Hass).
  step. step. apply wp_bind. step_by Hspec. unfold graded in *. unpack. apply wp_bind.
  eapply (wp_binary s); [eassumption..|lia|lia|lia|lia|lia|eassumption|eassumption|lia| |].
  { cbn. rewrite Hass. lia. }
  intros e' He' Hi' Hl'. step. step. 
  match goal with |- wp (match ?x with _ => _ end) _ _ _ => destruct x end; [step|].
  step. split; [reach_tac|].
  split; [|lia]. match type of He' with _ = spn ?i ?j => spanning i j end.
Qed.

#[export] Instance spec_multiplicative : SpecOf parse_multiplicative (room n) (graded 2).
Proof.
  apply spec_left_associative; [|lia|exact spec_unary].
  by intros [[| | | | | | | | | | | | | | | | |[]| |]|] o [= <-].
Qed.
#[export] Instance spec_additive : SpecOf parse_additive (room n) (graded 3).
Proof.
  apply spec_left_associative; [|lia|exact spec_multiplicative].
  by intros [[| | | | | | | | | | | | | | | | |[]| |]|] o [= <-].
Qed.
#[export] Instance spec_range : SpecOf parse_range (room n) (graded 4).
Proof.
  apply spec_non_associative; [|lia|exact spec_additive].
  by intros [[| | | | | | | | | | | | | | | | |[]| |]|] o [= <-].
Qed.
#[export] Instance spec_comparison : SpecOf parse_comparison (room n) (graded 5).
Proof.
  apply spec_non_associative; [|lia|exact spec_range].
  by intros [[| | | | | |[]| | | | | | | | | | |[]| |]|] o [= <-].
Qed.
#[export] Instance spec_equality : SpecOf parse_equality (room n) (graded 6).
Proof.
  apply spec_non_associative; [|lia|exact spec_comparison].
  by intros [[| | | | | | | | | | | | | | | | |[]| |]|] o [= <-].
Qed.

#[export] Instance spec_expression : SpecOf parse_expression (room n) (loose expr_tree).
Proof.
  unfold parse_expression. start s. step. step. unfold graded in *. unpack.
  split; [reach_tac|]. spanning x x0.
Qed.
End Postfix.
