(* ===== verification/ParserCommand.v ===== *)
(** * Words, commands and chains

    What the parser's functions for commands and job chains promise. *)
From S2P Require Import Prelude Utf8 Source Lexer LexerFacts Diagnostic Ast Parser SyntaxTree.
From S2P Require Import ParserLogic ParserParts ParserExpr.

#[export] Typeclasses Opaque parse_bare_part parse_token_part.

Section Words.
Context `{E : Env} `{L : !Lexed} `{R : Rec} (n : nat) `{Hrec : !RecOk n R}.

Lemma spec_bare_run p :
  SpecOf (bare_run (B p)) (λ s, position s = p ∧ p ≤ length tokens)
    (λ s r s', r = B (position s') ∧ position s' ≤ length tokens ∧ nd s' = nd s).
Proof.
  unfold bare_run. start s.
  apply (wp_repeat (λ r s', r = B (position s') ∧ position s' ≤ length tokens ∧ nd s' = nd s)
           _ _ s s); [done|by subst|].
  intros r s1 Hr1 _ (-> & ? & ?). frame Hr1. step.
  - step.
    + repeat step. split; [reach_tac|]. split; [|split; lia]. split_and!; [|lia|lia].
      ranges. f_equal. lia.
    + step. split; [reach_tac|]. split_and!; [done|lia|lia].
  - step. split; [reach_tac|]. split_and!; [done|lia|lia].
Qed.

(** A part, or nothing consumed. *)
Definition maybe_part (s : PState) (o : option WordPart) (s' : PState) : Prop :=
  match o with
  | Some w => tight part_tree s w s'
  | None => position s' = position s ∧ nd s' = nd s
  end.

Lemma spec_bare_part t : SpecOf (parse_bare_part t) (λ s, tok (position s) t) maybe_part.
Proof.
  unfold parse_bare_part. start s. step; [|step; split; [reach_tac|by split]]. step. ranges.
  apply wp_bind. step_by (spec_bare_run (S (position s))). step. step.
  unfold maybe_part. promise.
Qed.

Lemma spec_token_part t :
  SpecOf (parse_token_part t) (λ s, room n s ∧ tok (position s) t) maybe_part.
Proof.
  unfold parse_token_part. start s.
  assert (wp (parse_bare_part t) s (λ o s', reach s s' ∧ maybe_part s o s') (failed s)) as Hbare
    by by apply spec_bare_part.
  destruct (kind t) as [| | | | | | | | | | | | | | | | | |d|] eqn:Hk; try exact Hbare.
  6: destruct d; try exact Hbare.
  all: repeat step; unfold maybe_part; promise.
Qed.

#[export] Instance spec_word_part : SpecOf parse_word_part (room n) maybe_part.
Proof.
  unfold parse_word_part. start s. step. step; [|step; split; [reach_tac|by split]].
  apply wp_bind, wp_reads. intros next Hnext.
  destruct (match next with Some _ => _ | None => false end) eqn:Hd; [destruct next as [u|]; [|done]|].
  - rewrite Nat.add_1_r in Hnext. destruct (tok_lookup _ _ Hnext) as (_ & ? & ?).
    repeat step. unfold maybe_part. promise.
  - step_by (spec_token_part t). split; [reach_tac|].
    assert (position s0 = position s) as Hp by lia. assert (nd s0 = nd s) as Hn by lia.
    unfold maybe_part, tight in *. by rewrite <- Hp, <- Hn.
Qed.

#[export] Instance spec_word : SpecOf parse_word (room n) (tight word_tree).
Proof.
  unfold parse_word. start s. step. step. apply wp_bind, (wp_repeat (λ x s', let '(l, stop) := x in
    stop = B (position s') ∧ position s' ≤ length tokens ∧
    Forall (inner (position s0) (position s') (nd s')) (List.map part_tree l) ∧
    (l ≠ [] → position s0 < position s')) _ _ s s0).
  { reach_tac. }
  { split; [done|]. split_and!; [lia|constructor|done]. }
  intros [l stop] s1 Hr1 Hrs1 (Hstop & ? & Hl & Hne). frame Hr1. frame Hrs1. step.
  assert (∀ s', reach s s' → position s' = position s1 → nd s1 ≤ nd s' →
    wp (if length l =? 0 then invalid_here (bs "expected a command word")
        else i ← mk_span (span_start (spn (position s0) (S (position s0)))) stop;
             mret (mkWord l i)) s' (λ w s', reach s s' ∧ tight word_tree s w s') (failed s)) as Hleave.
  { intros s' Hs' Hp Hn. destruct l as [|w l]; cbn [length Nat.eqb]; [step|].
    assert (position s0 < position s1) by by apply Hne. step. step. promise. }
  apply wp_bind, wp_reads. intros t _.
  match goal with |- wp (if ?b then _ else _) _ _ _ => destruct b end;
    [step; apply Hleave; [reach_tac|lia|lia]|].
  step. unfold maybe_part in *. match goal with o : option WordPart |- _ => destruct o end; unpack.
  - step. split; [reach_tac|]. split; [|split; lia]. split_and!; [ranges; f_equal; lia|lia|snoc Hl|lia].
  - step. apply Hleave; [reach_tac|lia|lia].
Qed.

(** ** Redirections *)

Lemma wp_redirection_target s0 s a b (Q : Word → PState → Prop) :
  reach s0 s → room n s → a ≤ b →
  (∀ w s', reach s s' → reach s0 s' → tight word_tree s w s' → Q w s') →
  wp (parse_redirection_target (spn a b)) s Q (failed s0).
Proof.
  intros Hr Hroom Hab HQ. unfold parse_redirection_target. step. step.
  match goal with |- wp (if ?b then _ else _) _ _ _ => destruct b end; [step|].
  eapply wp_spec; [apply _|eassumption|done|]. intros w s' ???. by apply HQ.
Qed.

Lemma wp_redirection_kind s0 s i k descriptor operator :
  reach s0 s → room n s → token_span operator = spn k (S k) → i ≤ k → S k ≤ position s →
  position s ≤ length tokens →
  (∀ d, descriptor = Some d → d = spn i (S i) ∧ S i ≤ k) →
  wp (parse_redirection_kind descriptor operator) s (λ r s', reach s s' ∧ reach s0 s' ∧
    position s' ≤ length tokens ∧ redirection_end r = B (position s') ∧
    Forall (inner i (position s') (nd s')) (redirection_children r)) (failed s0).
Proof.
  intros Hr Hroom Hop Hik Hk Hlen Hd. unfold parse_redirection_kind. rewrite Hop.
  assert (∀ lo hi d, lo ≤ i → S k ≤ hi → Forall (inner lo hi d) (optional leaf descriptor)) as Hopt.
  { intros lo hi d ??. destruct descriptor as [sp|]; [|constructor].
    destruct (Hd sp) as [-> ?]; [done|]. cbn; insides. }
  assert (∀ mk : Word → RedirectionKind,
    (∀ w, redirection_end (mk w) = span_end (word_span w)) →
    (∀ w, redirection_children (mk w) = optional leaf descriptor ++ [leaf (spn k (S k)); word_tree w]) →
    wp (skip_inline;; target ← parse_redirection_target (spn k (S k)); mret (mk target)) s
      (λ r s', reach s s' ∧ reach s0 s' ∧ position s' ≤ length tokens ∧
        redirection_end r = B (position s') ∧
        Forall (inner i (position s') (nd s')) (redirection_children r)) (failed s0)) as Htarget.
  { intros mk Hend Hch. step. apply wp_bind.
    eapply (wp_redirection_target s0); [done|arith|lia|].
    intros w s3 Hr3 Hrs3 Hw. frame Hr3. unpack. step. rewrite Hend, Hch.
    split; [reach_tac|]. split; [reach_tac|]. split; [lia|]. split; [by ranges|].
    apply Forall_app_2; [apply Hopt; lia|insides]. }
  destruct (kind operator) as [| | | | | | | | | | | | | | | | |o|d|]; try (step; fail).
  destruct o; try (step; fail); try (by apply Htarget).
  destruct descriptor as [sp|]; [|step]. destruct (Hd sp) as [-> ?]; [done|]. step. step.
  destruct (kind_at _) as [[| | | | | | |m| | | | | | | | | |o| |]|] eqn:Hkind; try (step; fail).
  - destruct m; [|step]. step. step. split; [reach_tac|]. split; [reach_tac|].
    cbn [redirection_end redirection_children]. ranges.
    split; [lia|]. split; [f_equal; lia|]. insides.
  - destruct o; try (step; fail). step. step. split; [reach_tac|]. split; [reach_tac|].
    cbn [redirection_end redirection_children]. ranges.
    split; [lia|]. split; [f_equal; lia|]. insides.
Qed.

Lemma wp_redirection_after s descriptor s1 :
  room n s → reach s s1 → position s < length tokens →
  (∀ d, descriptor = Some d → d = spn (position s) (S (position s)) ∧ S (position s) ≤ position s1) →
  wp (parse_redirection_after (spn (position s) (S (position s))) descriptor) s1
    (λ c s', reach s s' ∧ tight item_node_tree s c s') (failed s).
Proof.
  intros Hroom Hr1 Hlen Hd. frame Hr1. unfold parse_redirection_after. step; [|step].
  apply wp_bind. eapply wp_mono;
    [apply (wp_redirection_kind s s0 (position s) (position s1)); try done; try arith| |done].
  intros r s2 (Hr2 & ? & ? & Hend & Hch). frame Hr2. step. step. promise.
Qed.

#[export] Instance spec_redirection_item :
  SpecOf parse_redirection_item (room n) (tight item_node_tree).
Proof.
  unfold parse_redirection_item. start s. step. step. step.
  - destruct (pair_at_tok _ _ _ Hb) as [Hk _].
    step. step. apply wp_redirection_after; [done|reach_tac|done|].
    intros d [= <-]. split; [done|lia].
  - step. by apply wp_redirection_after.
Qed.

#[export] Instance spec_spread_item :
  SpecOf parse_spread_item (λ s, room n s ∧ at_token s) (tight item_node_tree).
Proof.
  unfold parse_spread_item. start s. step. step; [|step]. step; [step|].
  step. step. destruct (node_kind a0) eqn:Hk; try congruence. step.
  match goal with H : inner _ _ _ (part_tree a0) |- _ =>
    unfold part_tree in H; rewrite Hk in H; apply inner_parts in H as (? & ? & ? & ? & ? & _ & ?); [|done] end.
  promise.
Qed.

Lemma starts_redirection_token s :
  (match kind <$> current_at s with
   | Some k => is_redirection_operator k || io_number_at s
   | None => false
   end) = true → at_token s.
Proof.
  unfold current_at, at_token. destruct (tokens !! position s); [by eexists|done].
Qed.

#[export] Instance spec_command_item :
  SpecOf parse_command_item (room n) (tight item_node_tree).
Proof.
  unfold parse_command_item. start s. step. step; [step; by split|].
  step. step; [|step; step].
  - step. by split.
  - step. step. promise.
  - step. step. promise.
Qed.

(** ** Stages *)

Lemma wp_previous_end s (Q : nat → PState → Prop) X :
  0 < position s → position s ≤ length tokens → Q (B (position s)) s → wp previous_end s Q X.
Proof.
  intros H0 Hle HQ. apply wp_gets.
  destruct (lookup_lt_is_Some_2 tokens (position s - 1)) as [t Ht]; [lia|]. rewrite Ht.
  destruct (tok_lookup _ _ Ht) as (_ & -> & _). cbn.
  by replace (S (position s - 1)) with (position s) by lia.
Qed.

(** Items, ending before the separators that precede the position. *)
Lemma wp_command_items s0 s (Q : list CommandItem * nat → PState → Prop) :
  reach s0 s → room n s → position s ≤ length tokens →
  (∀ items j s', reach s s' → reach s0 s' → position s ≤ j → j ≤ length tokens →
    skipped j (position s') →
    Forall (inner (position s) j (nd s')) (List.map item_node_tree items) → Q (items, B j) s') →
  wp (iterate (λ x : list CommandItem * nat,
    let '(items, stop) := x in
    skip_inline;;
    e ← at_command_end;
    if (e : bool) then mret (inr x)
    else
      item ← parse_command_item;
      mret (inl (items ++ [item], span_end (node_span item)))) ([], B (position s)))
    s Q (failed s0).
Proof.
  intros Hr Hroom Hle HQ. apply (wp_repeat (λ x s', let '(items, stop) := x in
    ∃ j, stop = B j ∧ position s ≤ j ∧ j ≤ length tokens ∧ skipped j (position s') ∧
      Forall (inner (position s) j (nd s')) (List.map item_node_tree items)) _ _ s0 s); [done| |].
  { exists (position s). split_and!; [done..|apply skipped_refl|constructor]. }
  intros [items stop] s1 Hr1 Hrs1 (j & -> & ? & ? & Hj & Hl). frame Hr1.
  step. step. step.
  - step. apply HQ; [reach_tac|done|done|done|skipping 4|].
    by eapply Forall_inner_mono; [exact Hl|lia..].
  - step. step. split; [reach_tac|]. split; [|split; lia].
    exists (position s3). split_and!; [by ranges|lia|lia|skipping 2|].
    snoc Hl.
Qed.

#[export] Instance spec_command_stage :
  SpecOf parse_command_stage (room n) (loose stage_tree).
Proof.
  unfold parse_command_stage. start s. step. apply wp_bind.
  match goal with |- wp _ _ ?Q _ => set (rest := Q) end.
  assert (∀ marker s1, reach s s1 →
    match marker with
    | Some t => token_span t = spn (position s) (S (position s)) ∧ position s1 = S (position s)
    | None => position s1 = position s
    end → rest marker s1) as Hrest.
  { intros marker s1 Hr1 Hm. frame Hr1. unfold rest. step.
    assert (match marker with
      | Some marker => span_start (token_span marker)
      | None => span_start (word_span a)
      end = B (position s)) as Hstart.
    { destruct marker; unpack; ranges; f_equal; lia. }
    apply wp_bind. eapply (wp_mono _ _ (λ _ s', s' = s0) _ (failed s)); [| |done].
    { destruct marker; unpack; [|by apply wp_ret]. step; [by apply wp_ret|].
      step. }
    intros _ s2 ->. apply wp_bind. apply wp_previous_end; [lia|done|].
    rewrite Hstart. step. apply wp_bind. apply (wp_command_items s); [done|arith|done|].
    intros items j s3 Hr3 Hrs3 ? ? ? ?. frame Hr3. unpack. step. step.
    split; [reach_tac|]. spanning (position s) j. }
  destruct b.
  - destruct (pair_at_tok _ _ _ Hb) as [Hk _]. step. step. apply Hrest; [done|by split].
  - step. by apply Hrest.
Qed.

#[export] Instance spec_stage : SpecOf parse_stage (room n) (loose stage_tree).
Proof.
  unfold parse_stage. start s. step. step.
  assert (wp (if is_reserved (kind_at s0)
    then invalid_here (bs "reserved words cannot start a command stage without `^`")
    else
      forced ← starts_forced_command;
      if bool_decide (kind_at s0 = Some (OperatorToken Caret)) && negb forced then
        next ← peek 1;
        match (next : option Token) with
        | None => incomplete_here ExpressionReason
        | Some _ => invalid_here (bs "`^` must be adjacent to a command name")
        end
      else
        e ← starts_expression_stage;
        if forced || negb e then parse_command_stage
        else
          expression ← parse_expression;
          mret (node (SExpression expression) (node_span expression))) s0
    (λ g s', reach s s' ∧ loose stage_tree s g s') (failed s)) as Hrest.
  { step; [step|]. step. step.
    - apply wp_bind, wp_reads. intros [] _; step.
    - step. step.
      + step. split; [reach_tac|]. spanning x x0.
      + step. step. split; [reach_tac|]. spanning x x0. }
  destruct (kind_at s0) as [[]|]; try exact Hrest. destruct o; try exact Hrest; step.
Qed.

(** ** Chains *)

Section Chain.
Context {A O : Type} (term : M A) (tree : A → syntax_tree) (span_of : A → Span).
Context (operator_of : option TokenKind → option O) (missing : IncompleteReason).
Context (Hspan : ∀ a, root (tree a) = span_of a) (Hop : operator_of None = None).
Context `{!SpecOf term (room n) (loose tree)}.

(** A chain's range, with its terms and operators in it. *)
Definition chained (s : PState) (x : list A * list (AstNode O) * Span) (s' : PState) : Prop :=
  ∃ i j, position s ≤ i ∧ i < j ∧ j ≤ position s' ∧ j ≤ length tokens ∧
    skipped (position s) i ∧ skipped j (position s') ∧ x.2 = spn i j ∧
    Forall (inner i j (nd s')) (List.map tree x.1.1) ∧
    Forall (inner i j (nd s')) (List.map (λ o, leaf (node_span o)) x.1.2).

Lemma spec_chain :
  SpecOf (parse_chain term span_of operator_of missing) (room n) chained.
Proof.
  unfold parse_chain. start s. step. step. rewrite Hspan in *.
  apply wp_bind, (wp_repeat (λ (z : list A * list (AstNode O) * nat) s', let '(terms, operators, stop) := z in
    ∃ j, stop = B j ∧ x0 ≤ j ∧ j ≤ position s' ∧ j ≤ length tokens ∧ skipped j (position s') ∧
      Forall (inner x j (nd s')) (List.map tree terms) ∧
      Forall (inner x j (nd s')) (List.map (λ o, leaf (node_span o)) operators)) _ _ s s1).
  { done. }
  { exists x0. ranges. split_and!; try done; try lia. constructor; [done|constructor]. }
  intros [[terms operators] stop] s2 Hr2 Hrs2 (j & -> & ? & ? & ? & ? & Ht & Ho).
  frame Hr2. step. step. step. destruct (operator_of (kind_at s4)) as [o|] eqn:Hk.
  - assert (at_token s4).
    { destruct (kind_at s4) eqn:Hk4; [by eapply kind_at_is_token|congruence]. }
    step. step. step. step; [step|]. step. rewrite Hspan in *. step.
    split; [reach_tac|]. split; [|split; lia].
    match goal with H : span_of ?t = spn ?i ?k |- _ => exists k; rewrite H end.
    split_and!; [done|lia|lia|lia|skipping 4|snoc Ht|].
    eapply inner_map_snoc; [exact Ho|cbn; ranges; apply (inner_leaf (position s4) (S (position s4)) 0); lia|lia..].
  - step. step. step. promise. exists x, j. ranges.
    split_and!; [lia..|skipping 4|skipping 4|done| |]; (eapply Forall_inner_mono; [eassumption|lia..]).
Qed.
End Chain.

Ltac chain H := apply wp_bind; step_by H;
  match goal with a : _ * _ * _ |- _ => destruct a as [[? ?] ?] end;
  match goal with H : chained _ _ _ _ |- _ => destruct H as (? & ? & H); cbn in H end;
  unpack; step; split; [reach_tac|].

#[export] Instance spec_pipeline : SpecOf parse_pipeline (room n) (loose pipeline_tree).
Proof.
  unfold parse_pipeline. start s.
  chain (spec_chain parse_stage stage_tree node_span pipe_operator PipelineStage
           (λ _, eq_refl) eq_refl).
  spanning x x0.
Qed.
#[export] Instance spec_and_chain : SpecOf parse_and_chain (room n) (loose and_chain_tree).
Proof.
  unfold parse_and_chain. start s.
  chain (spec_chain parse_pipeline pipeline_tree pipeline_span and_operator ConditionalOperand
           root_pipeline eq_refl).
  spanning x x0.
Qed.
#[export] Instance spec_conditional_chain :
  SpecOf parse_conditional_chain (room n) (loose chain_tree).
Proof.
  unfold parse_conditional_chain. start s.
  chain (spec_chain parse_and_chain and_chain_tree and_chain_span or_operator ConditionalOperand
           root_and_chain eq_refl).
  spanning x x0.
Qed.
End Words.
