(* ===== verification/ParserStatement.v ===== *)
(** * Blocks, declarations and statements

    What the parser's functions for statements promise, and the knot: every
    entry point keeps its promise at any depth. *)
From S2P Require Import Prelude Utf8 Source Lexer LexerFacts Diagnostic Ast Parser SyntaxTree.
From S2P Require Import ParserLogic ParserParts ParserExpr ParserCommand.

#[export] Typeclasses Opaque parse_conditional_chain parse_control_condition
  parse_block_header_expression parse_block parse_import_source parse_module_member
  parse_module_members local_module_name parse_module_import_entry parse_module_import_group
  parse_module_export_name parse_module_name_list parse_type_field parse_variant
  parse_effect_argument parse_effect_request parse_effect_block parse_match_arm parse_match
  parse_if_node parse_statement misplaced_effects parse_module_import parse_export parse_unset
  parse_nominal_type parse_variant_type parse_declaration parse_assignment
  parse_indexed_assignment parse_function parse_action parse_task parse_try parse_throw
  parse_while parse_for parse_control parse_return parse_job_statement.

Section Blocks.
Context `{E : Env} `{L : !Lexed} `{R : Rec} (n : nat) `{Hrec : !RecOk n R}.

(** Moving a promise to a state that differs only in what it does not see. *)
Lemma loose_moved {A} (tree : A → syntax_tree) s1 s2 a s1' s2' :
  loose tree s1 a s1' → position s2 = position s1 → position s2' = position s1' →
  nd s2' = nd s1' → loose tree s2 a s2'.
Proof. unfold loose. by intros ? -> -> ->. Qed.

Lemma reach_header s d : inv s → reach s (with_block_header d s).
Proof. intros. by constructor. Qed.

Lemma spec_in_block_header {A} (m : M A) tree :
  SpecOf m (room n) (loose tree) → SpecOf (in_block_header m) (room n) (loose tree).
Proof.
  intros Hm. unfold in_block_header. start s. step. apply wp_bind, wp_modify, wp_restoring.
  assert (∀ s', reach (with_block_header (Some (continuation_depth s)) s) s' →
    reach s (with_block_header (block_header_depth s) s')) as Hback by (intros s' []; by constructor).
  eapply wp_mono; [apply Hm; [done|done]| |].
  - intros a s' [Hr Ha]. apply wp_modify. split; [by apply Hback|].
    by eapply loose_moved.
  - intros e s' [Hr He]. apply wp_modify. split; [by apply Hback|done].
Qed.

#[export] Instance spec_control_condition :
  SpecOf parse_control_condition (room n) (loose chain_tree).
Proof.
  unfold parse_control_condition. start s. apply wp_bind, wp_modify, wp_restoring.
  assert (∀ s', reach (with_condition (S (control_condition_depth s)) s) s' →
    wp (λ s, match control_condition_depth s with
             | O => (Panic, s)
             | S d => (Ok tt, with_condition d s)
             end) s' (λ _ s'', reach s s'' ∧ position s'' = position s' ∧ nd s'' = nd s')
      (λ _ _, False)) as Hback.
  { intros s' []. unfold wp. destruct (control_condition_depth s') as [|d] eqn:Hd; simpl in *; [lia|].
    split_and!; [|done..]. constructor; simpl; try done. lia. }
  eapply wp_mono; [apply (spec_in_block_header _ chain_tree _); [done|done]| |].
  - intros c s' [Hr Hc]. eapply wp_mono; [by apply Hback| |done].
    intros _ s'' (? & Hp & Hn). split; [done|]. by eapply loose_moved.
  - intros e s' [Hr He]. eapply wp_mono; [by apply Hback| |done].
    intros _ s'' (? & _). by split.
Qed.

#[export] Instance spec_block_header_expression :
  SpecOf parse_block_header_expression (room n) (loose expr_tree).
Proof. apply spec_in_block_header, _. Qed.

#[export] Instance spec_block : SpecOf parse_block (room n) (tight block_tree).
Proof.
  unfold parse_block. start s. step. step.
  match goal with H : listed _ _ _ |- _ => destruct H as [? Hcov] end.
  step. step. step. promise.
  cbn. split; [lia|]. intros Hd k u Hk Hu. apply (Hcov ltac:(lia) k u); [|done]. lia.
Qed.
End Blocks.

(** ** Imports *)

(** The name of a local module is cut at slashes, dots and quotes, which are
    whole characters. *)
Lemma last_component_spec s :
  ∃ k, last_component s = drop k s ∧ k ≤ length s ∧ (k = 0 ∨ s !! (k - 1) = Some 47%Z).
Proof.
  unfold last_component. destruct (last _) as [[i b]|] eqn:Hl; [|by exists 0; split_and!; [|lia|left]].
  apply last_Some_elem_of, list_elem_of_filter in Hl as [Hb Hi].
  apply list_elem_of_lookup_1 in Hi as [j Hj]. rewrite list_lookup_imap in Hj.
  destruct (s !! j) as [c|] eqn:Hc; [|done]. simpl in Hj, Hb. injection Hj as <- <-. subst.
  exists (S j). split; [done|]. apply lookup_lt_Some in Hc as ?. split; [lia|]. right.
  by rewrite Nat.sub_1_r.
Qed.

Lemma strip_suffix_spec suffix s r :
  strip_suffix suffix s = Some r →
  length suffix ≤ length s ∧ r = take (length s - length suffix) s ∧
  drop (length s - length suffix) s = suffix.
Proof.
  unfold strip_suffix. destruct (_ && _) eqn:H; [|done]. intros [= <-].
  apply andb_true_iff in H as [?%Nat.leb_le ?%str_eqb_eq]. done.
Qed.

Lemma boundary_sub s a b i :
  a ≤ i → i ≤ b → is_char_boundary s i = true →
  is_char_boundary (sub s a b) (i - a) = true.
Proof.
  intros. unfold sub. apply boundary_take; [lia|]. by apply boundary_drop.
Qed.

Lemma sub_lookup_inv {A} (l : list A) a b i c : sub l a b !! i = Some c → i < b - a ∧ l !! (a + i) = Some c.
Proof.
  unfold sub. intros H. rewrite lookup_take in H. case_decide; [|done]. by rewrite lookup_drop in H.
Qed.

(** A quoted text within [t]: its quotes are characters of their own. *)
Lemma quotes_bounds t a b :
  utf8 t → a + 2 ≤ b → is_char_boundary t a = true → b ≤ length t →
  head (sub t a b) = Some 39%Z → last (sub t a b) = Some 39%Z →
  is_char_boundary t (S a) = true ∧ is_char_boundary t (b - 1) = true.
Proof.
  intros Hu Hab Ha Hb Hhead Hlast. split.
  - rewrite head_lookup in Hhead. apply sub_lookup_inv in Hhead as [_ Hhead].
    rewrite Nat.add_0_r in Hhead. eapply boundary_ascii; [done..|lia].
  - rewrite last_lookup, length_sub in Hlast by lia. apply sub_lookup_inv in Hlast as [_ Hlast].
    replace (a + pred (b - a)) with (b - 1) in Hlast by lia. by eapply boundary_lookup.
Qed.

(** The name's bounds within a body that runs from [a] to [b]. *)
Lemma stem_bounds t a b :
  utf8 t → a ≤ b → is_char_boundary t a = true → is_char_boundary t b = true →
  let component := last_component (sub t a b) in
  let stem := default component (strip_suffix (bs ".opaal") component) in
  let start := b - length component in
  a ≤ start ∧ start + length stem ≤ b ∧
  is_char_boundary t start = true ∧ is_char_boundary t (start + length stem) = true.
Proof.
  intros Hu Hab Ha Hb. pose proof (boundary_le _ _ Hb).
  destruct (last_component_spec (sub t a b)) as (k & -> & Hk & Hk0). cbv zeta.
  rewrite length_sub in Hk by lia. rewrite !length_drop, !length_sub by lia.
  replace (b - (b - a - k)) with (a + k) by lia.
  assert (is_char_boundary t (a + k) = true) as Hstart.
  { destruct Hk0 as [->|Hk0]; [by rewrite Nat.add_0_r|].
    apply sub_lookup_inv in Hk0 as [? Hk0]. destruct k as [|k]; [by rewrite Nat.add_0_r|].
    rewrite Nat.sub_1_r in Hk0. rewrite <- Nat.add_succ_comm.
    eapply (boundary_ascii _ (a + k)); [done| |exact Hk0|lia]. by eapply boundary_lookup. }
  split; [lia|]. destruct (strip_suffix _ _) as [stem|] eqn:Hs; unfold default; cbn [from_option id]; unfold id.
  - apply strip_suffix_spec in Hs as (Hl & -> & Hd). rewrite length_drop, length_sub in * by lia.
    rewrite length_take, length_drop, length_sub, Nat.min_l by lia.
    split; [lia|]. split; [done|]. rewrite drop_drop in Hd.
    assert (head (bs ".opaal") = Some 46%Z) as Hhead by done.
    rewrite <- Hd, head_lookup, lookup_drop, Nat.add_0_r in Hhead.
    apply sub_lookup_inv in Hhead as [_ Hhead]. rewrite Nat.add_assoc in Hhead.
    by eapply boundary_lookup.
  - rewrite length_drop, length_sub by lia. split; [lia|]. split; [done|].
    by replace (a + k + (b - a - k)) with b by lia.
Qed.

Lemma sub_sub {A} (l : list A) a b c d : d ≤ b - a → sub (sub l a b) c d = sub l (a + c) (a + d).
Proof.
  intros. unfold sub. rewrite skipn_firstn_comm, take_take, drop_drop. f_equal. lia.
Qed.

Lemma local_name_bounds t a b x :
  utf8 t → a ≤ b → is_char_boundary t a = true → is_char_boundary t b = true → x = sub t a b →
  2 ≤ length x → head x = Some 39%Z → last x = Some 39%Z →
  (∀ X, str_slice (E:=X) x 1 (length x - 1) = Ok (sub x 1 (length x - 1))) ∧
  let component := last_component (sub x 1 (length x - 1)) in
  let stem := default component (strip_suffix (bs ".opaal") component) in
  let start := b - 1 - length component in
  a ≤ start ∧ start + length stem ≤ b ∧
  is_char_boundary t start = true ∧ is_char_boundary t (start + length stem) = true.
Proof.
  intros Hu Hab Ha Hb -> Hlen Hhead Hlast.
  pose proof (boundary_le _ _ Hb). rewrite length_sub in * by lia.
  destruct (quotes_bounds t a b) as [Ha1 Hb1]; try done; [lia|]. split.
  { intros X. apply str_slice_ok; [lia| |].
    - replace 1 with (S a - a) by lia. apply boundary_sub; [lia|lia|done].
    - replace (b - a - 1) with (b - 1 - a) by lia. apply boundary_sub; [lia|lia|done]. }
  rewrite sub_sub by lia. replace (a + 1) with (S a) by lia.
  replace (a + (b - a - 1)) with (b - 1) by lia. cbv zeta.
  destruct (stem_bounds t (S a) (b - 1)) as (? & ? & ? & ?); try done; [lia|].
  split_and!; done || lia.
Qed.

Section Imports.
Context `{E : Env} `{L : !Lexed}.

(** The source of an import: a quoted token, or two names. *)
Definition imported (s : PState) (m : ModuleImportSource) (s' : PState) : Prop :=
  tight import_source_tree s m s' ∧ nd s' = nd s ∧ solid (position s') ∧
  match m with
  | LocalModule path =>
      ∃ t, tok (position s) t ∧ kind t = SingleQuoted ∧ path = token_span t ∧
        position s' = S (position s)
  | StandardModule _ module _ | ProjectModule _ module _ =>
      ∃ a b, position s ≤ a ∧ a ≤ b ∧ b ≤ position s' ∧ module = spn a b
  end.

#[export] Instance spec_import_source : SpecOf parse_import_source any imported.
Proof.
  unfold parse_import_source. start s. step. destruct (kind_at s) as [k|] eqn:Hk; [|step].
  destruct (kind_at_tok _ _ Hk) as (t & Ht & Hkt).
  destruct k; try (step; fail).
  - step. step. step; [step|]. repeat step.
    all: split; [reach_tac|]; split; [promise|]; split; [lia|].
    all: split; [solidity|].
    all: eexists _, _; split_and!; [| | |reflexivity]; lia.
  - step. step; [step|]. step. split; [reach_tac|]. split; [promise|].
    split; [lia|]. split; [solidity|]. eexists. split_and!; try done; side; congruence.
Qed.

(** A range of the text within one of the tokens consumed. *)
Definition token_part (lo hi : nat) (i : Span) : Prop :=
  ∃ k, lo ≤ k ∧ k < hi ∧ within i (B k) (B (S k)) ∧ span_start i < B (S k) ∧ spot_ok i.

Lemma wp_local_module_name s k t (Q : Identifier → PState → Prop) (X : ParseError → PState → Prop) :
  tok k t → kind t = SingleQuoted →
  (∀ i, token_part k (S k) i → Q i s) → (∀ e, err_ok e → X e s) →
  wp (local_module_name (token_span t)) s Q X.
Proof.
  intros (Ht & Hs & Hk) Hkind HQ HX.
  pose proof (slice_bounds source (B k) (B (S k)) lexed_wf (B_boundary k) (B_boundary (S k))
    (B_mono k (S k) ltac:(lia))) as Hslice.
  change (mkSpan (source_id source) (B k) (B (S k))) with (spn k (S k)) in Hslice.
  destruct (lexed_quotes t _ (list_elem_of_lookup_2 _ _ _ Ht) Hkind
    ltac:(unfold token_text; rewrite Hs; exact Hslice)) as (Hlen & Hhead & Hlast).
  destruct (local_name_bounds (source_text source) (B k) (B (S k)) _ (proj1 lexed_wf)
    (B_mono k (S k) ltac:(lia)) (B_boundary k) (B_boundary (S k)) eq_refl Hlen Hhead Hlast)
    as (Hbody & Hlo & Hhi & Hb1 & Hb2).
  unfold local_module_name. rewrite Hs. apply wp_bind. unfold wp at 1. rewrite Hslice. cbn [expect].
  apply wp_bind. unfold wp at 1. rewrite Hbody. cbv zeta in *. cbn [span_end spn].
  set (component := last_component _) in *.
  set (stem := default component _) in *.
  apply wp_bind. unfold wp at 1, mk_span. rewrite span_ok by (done || lia). cbn [expect].
  assert (spot_ok (mkSpan (source_id source) (B (S k) - 1 - length component)
    (B (S k) - 1 - length component + length stem))) as Hspot by (apply validate_ok; done || lia).
  destruct (is_identifier stem) eqn:Hid.
  - apply wp_ret, HQ. exists k. split; [lia|]. split; [lia|]. split; [by split|].
    split; [|done]. destruct stem; [done|]. simpl in *. lia.
  - apply wp_invalid_at; [done|exact HX].
Qed.

(** [m] with a bracket open, closed again whether or not [m] fails. *)
Lemma wp_closing {A} (m : M A) s0 s s1 (Q Q' : A → PState → Prop) :
  reach s0 s → reach s s1 → continuation_depth s1 = S (continuation_depth s) →
  wp m s1 (λ a s2, reach s1 s2 ∧ Q' a s2) (failed s1) →
  (∀ a s2 s3, Q' a s2 → reach s s3 → reach s0 s3 → position s3 = position s2 → nd s3 = nd s2 →
    Q a s3) →
  wp (restoring m close_continuation) s1 Q (failed s0).
Proof.
  intros Hr H1 Hd1 Hm HQ. apply wp_restoring.
  assert (∀ s2, reach s1 s2 → wp close_continuation s2
    (λ _ s3, reach s s3 ∧ position s3 = position s2 ∧ nd s3 = nd s2) (λ _ _, False)) as Hclose.
  { destruct H1. intros s2 []. unfold wp, close_continuation. simpl in *.
    destruct (continuation_depth s2) as [|d] eqn:Hd; [lia|].
    split_and!; [|done..]. constructor; simpl; try done; unfold nd in *; simpl; first [lia|congruence]. }
  eapply wp_mono; [exact Hm| |].
  - intros a s2 [Hr2 Ha]. eapply wp_mono; [by apply Hclose| |done].
    intros _ s3 (? & ? & ?). eapply HQ; try done. by eapply reach_trans.
  - intros e s2 [Hr2 He]. eapply wp_mono; [by apply Hclose| |done].
    intros _ s3 (? & _). split; [by eapply reach_trans|done].
Qed.

Lemma wp_until_brace {A} (item : M A) message (trees : A → list syntax_tree) (stop : A → nat) s0 s
    (Q : list A * Token → PState → Prop) :
  reach s0 s →
  (∀ s1, reach s s1 → reach s0 s1 →
     wp item s1 (λ a s2, reach s1 s2 ∧ consumed s1 s2 ∧ parts trees s1 a s2 ∧
       ended s1 (stop a) s2) (failed s0)) →
  (∀ l t k s', reach s s' → reach s0 s' → tok k t → position s < k → position s' = S k →
     kind t = DelimiterToken RightBrace → entries k (position s) (List.map stop l) →
     Forall (inner (position s) k (nd s')) (List.concat (List.map trees l)) → Q (l, t) s') →
  wp (until_brace item message) s Q (failed s0).
Proof.
  intros Hr Hitem HQ. apply (wp_repeat (λ l s', Forall (inner (position s) (position s') (nd s'))
    (List.concat (List.map trees l)) ∧ leads (position s) (position s') (List.map stop l)) _ _ s0 s);
    [done|by split; [constructor|apply leads_refl]|].
  intros l s1 H1 H01 [Hl Hleads].
  apply wp_bind. eapply wp_mono; [by apply Hitem| |done].
  intros a s2 (H2 & [Hc1 Hc2] & Ha & b & Hb & Hsb & Hsolid & Hlaid).
  assert (reach s0 s2) as H02 by reach_tac.
  assert (∀ k s3, reach s2 s3 → position s2 ≤ k → Forall (inner (position s) k (nd s3))
     (List.concat (List.map trees (l ++ [a])))) as Hla.
  { intros k s3 H3 ?. frame H1. frame H2. frame H3. rewrite map_app, concat_app. simpl.
    rewrite app_nil_r. apply Forall_app_2; (eapply Forall_inner_mono; [eassumption|lia..]). }
  frame H1. step. assert (laid b (position s3)) as Hlaid3 by by eapply laid_trans.
  assert (List.map stop (l ++ [a]) = List.map stop l ++ [B b]) as Hends
    by by rewrite map_app; cbn; rewrite Hb.
  step.
  - step. eapply HQ; [reach_tac|done|by apply tok_lookup|lia|lia|done| |].
    + rewrite Hends. by eapply leads_end.
    + apply Hla; [reach_tac|lia].
  - step. step.
    assert (leads (position s) (position s5) (List.map stop (l ++ [a])))
      by (rewrite Hends; eapply leads_comma; [exact Hleads|done|done|exact Hlaid3|done|done|lia]).
    step.
    + step. eapply HQ; [reach_tac|done|by apply tok_lookup|lia|lia|done| |].
      * eapply leads_none; [done|lia].
      * apply Hla; [reach_tac|lia].
    + step. unfold consumed. split; [reach_tac|]. split; [|split; lia].
      split; [apply Hla; [reach_tac|lia]|done].
Qed.

#[export] Instance spec_module_member :
  SpecOf parse_module_member any (λ s m s', consumed s s' ∧ parts (λ m, [member_tree m]) s m s' ∧
    ended s (span_end (member_span m)) s').
Proof.
  unfold parse_module_member. start s. step. step. step.
  apply wp_bind, wp_at_contextual. intros [] Hb; apply wp_bind.
  - apply wp_bind, wp_take_any; [done| |].
    + intros t. step_frame. repeat step. promise. ending.
    + intros ?. repeat step. promise. ending.
  - repeat step. promise. ending.
Qed.

(** Members, from the brace at [k] on. *)
Lemma wp_module_members s s0 from k :
  reach s s0 → k < position s0 → position s0 ≤ length tokens → brace_at LeftBrace k →
  wp (parse_module_members from (spn k (S k))) s0 (λ e s', reach s0 s' ∧
    position s0 < position s' ∧ position s' ≤ length tokens ∧
    ∃ ms, e = ImportMembers from ms (spn k (position s')) ∧
      braced k (position s') (List.map (λ m, span_end (member_span m)) ms) ∧
      Forall (inner k (position s') (nd s')) (List.map member_tree ms)) (failed s0).
Proof.
  intros Hr Hk Hlen Hopen. pose proof (reach_refl s0 (reach_inv _ _ Hr)) as Hs0.
  unfold parse_module_members. step.
  apply wp_bind. eapply (wp_until_brace _ _ (λ m, [member_tree m]) (λ m, span_end (member_span m))); [done| |].
  - item. step. promise. done.
  - intros l t k' s2 Hr2 Hs2 Ht ? Hp Hkt Hends Hl. frame Hr2. unpack. rewrite concat_single in Hl.
    step. step. split; [reach_tac|]. split; [lia|]. split; [lia|].
    exists l. rewrite Hp. split; [done|]. split; [|by eapply Forall_inner_mono; [exact Hl|lia..]].
    by apply (braced_intro k k k' t); [lia|lia|done|done|done|eapply entries_lower; [exact Hends|lia]].
Qed.

(** An import entry, ending before the separators that precede the position. *)
Definition entered (s : PState) (e : ModuleImportEntry) (s' : PState) : Prop :=
  ∃ j, position s < j ∧ j ≤ position s' ∧ j ≤ length tokens ∧ skipped j (position s') ∧
    solid j ∧ laid j (position s') ∧ import_entry_end e = B j ∧ Forall (inner (position s) j (nd s')) (import_entry_trees e).

Lemma alias_inner s m s' lo hi d alias a b :
  imported s m s' → alias = spn a b → position s' ≤ a → a ≤ b → lo ≤ a → b ≤ hi →
  inner lo hi d (alias_tree m alias).
Proof.
  intros (_ & _ & _ & Hm) -> ????. destruct m as [path| |]; unfold alias_tree; [|by apply inner_leaf..].
  destruct Hm as (t & (_ & Ht & _) & _ & -> & Hp). rewrite Ht.
  cbn [span_start span_end spn].
  pose proof (B_mono (S (position s)) a ltac:(lia)). rewrite (proj2 (Nat.ltb_ge _ _)) by lia.
  by apply inner_leaf.
Qed.

#[export] Instance spec_module_import_entry : SpecOf parse_module_import_entry any entered.
Proof.
  unfold parse_module_import_entry. start s. step. step. step.
  match goal with H : imported _ ?m _ |- _ => pose proof H as Hm; destruct H as (? & ? & Hfirm & Hcase) end.
  unpack. step.
  - repeat step. ranges. eapply (wp_closing _ s s6); [done|done|done| |].
    + apply (wp_module_members s); [reach_tac|lia|lia|by eexists].
    + cbv beta. intros e s8 s9 (? & ? & ms & -> & Hbr & Hms) Hr9 Hrs9 Hp Hn. frame Hr9.
      split; [done|]. exists (position s9). rewrite <- Hp, <- Hn in *.
      split_and!; [lia..|apply skipped_refl|by eapply braced_solid|apply laid_refl|done|].
      cbn. insides. cbn. ranges. split; [|done]. apply B_mono. lia.
  - apply wp_bind, wp_at_contextual. intros as_ Has. apply wp_bind. destruct as_.
    + apply wp_bind. apply wp_take_any; [done|intros t; step_frame|intros ?].
      * step. step. step. split; [reach_tac|]. exists (position s5).
        assert (inner (position s) (position s5) (nd s5)
          (alias_tree a (spn (position s4) (S (position s4))))).
        { eapply (alias_inner s0 a s1); [exact Hm|reflexivity|lia..]. }
        split_and!; [lia..|skipping 4|solidity|laying 4| |cbn; insides].
        cbn. ranges. cbn.
        match goal with K : position ?x = S (position ?y) |- _ = B (position ?x) => rewrite K end.
        apply Nat.max_r, B_mono. lia.
      * destruct (kind_at_is_token _ _ (Has eq_refl)) as [? Hlt%lookup_lt_Some]. lia.
    + assert (∀ alias, span_end alias ≤ B (position s1) →
        inner (position s) (position s1) (nd s2) (alias_tree a alias) →
        reach s s2 ∧ entered s (ImportAlias a alias) s2) as Hdone.
      { intros alias Hend Halias. split; [done|]. exists (position s1).
        split_and!; [lia..|skipping 4|solidity|laying 4| |cbn; insides]. cbn. ranges. by apply Nat.max_l. }
      destruct a as [path|namespace module sp|namespace module sp].
      * destruct Hcase as (t & Ht & Hkt & -> & Hp1).
        apply (wp_local_module_name s2 _ t _ _ Ht Hkt).
        -- intros i (k & ? & ? & [? ?] & ? & ?). assert (k = position s0) as -> by lia.
           step. apply Hdone; [by rewrite Hp1|].
           destruct Ht as (_ & Ht & _). unfold alias_tree. rewrite Ht. cbn [span_end spn].
           rewrite (proj2 (Nat.ltb_lt _ _)) by done.
           apply (InnerPart _ _ _ (position s0)); [lia|lia|done|by split].
        -- intros e He. by split.
      * destruct Hcase as (u & v & ? & ? & ? & ->). step. step.
        apply Hdone; [apply B_mono; lia|by apply inner_leaf; lia].
      * destruct Hcase as (u & v & ? & ? & ? & ->). step. step.
        apply Hdone; [apply B_mono; lia|by apply inner_leaf; lia].
Qed.

Lemma import_kind_trees e :
  statement_children (import_statement_kind e) = import_entry_trees e.
Proof. by destruct e. Qed.

(** The trees of a statement's parts lie between its ends. *)
Lemma loose_statement s s' i j k :
  reach s s' → position s ≤ i → i < j → j ≤ position s' → j ≤ length tokens →
  skipped (position s) i → skipped j (position s') →
  label_ok i j (nd s') (statement_label k) → Forall (inner i j (nd s')) (statement_children k) →
  reach s s' ∧ loose statement_tree s (node k (spn i j)) s'.
Proof.
  intros Hr ???????. split; [done|]. exists i, j. split_and!; try done.
  apply Inner; [lia..|done|done].
Qed.

Lemma wp_module_import_group s s0 i :
  reach s s0 → i < position s0 → brace_at LeftBrace (position s0 - 1) →
  wp (parse_module_import_group (spn i (S i))) s0 (λ st s', reach s0 s' ∧
    position s0 < position s' ∧ position s' ≤ length tokens ∧
    ∃ k, st = node k (spn i (position s')) ∧
      label_ok i (position s') (nd s') (statement_label k) ∧
      Forall (inner i (position s') (nd s')) (statement_children k)) (failed s0).
Proof.
  intros Hr Hi Hopen. pose proof (reach_refl s0 (reach_inv _ _ Hr)) as Hs0.
  unfold parse_module_import_group. step.
  apply wp_bind. eapply (wp_until_brace _ _ import_entry_trees import_entry_end); [done| |].
  - item. step. match goal with H : entered _ _ _ |- _ => destruct H as (j & ? & ? & ? & ? & ? & ? & ? & ?) end.
    split; [reach_tac|]. split; [split; lia|]. split; [|exists j; split_and!; done || lia].
    unfold parts. by eapply Forall_inner_mono; [eassumption|lia..].
  - intros l t k' s2 Hr2 Hs2 Ht ? Hp Hkt Hends Hl. frame Hr2. unpack. step. step.
    split; [reach_tac|]. split; [lia|]. split; [lia|].
    eexists. rewrite Hp. split; [done|]. split; [|by eapply Forall_inner_mono; [exact Hl|lia..]].
    cbn. split; [lia|]. eapply braced_intro; [|idtac|exact Hopen|done|done|]; [lia..|].
    eapply entries_lower; [exact Hends|lia].
Qed.

#[export] Instance spec_module_import :
  SpecOf parse_module_import at_token (loose statement_tree).
Proof.
  unfold parse_module_import. start s. step. step. step.
  - step. ranges. eapply (wp_closing _ s s2 s3); [done|done|done| |].
    + apply (wp_module_import_group s); [done|lia|].
      match goal with K : position s3 = position s2, K' : position s2 = S _ |- _ => rewrite K, K' end.
      rewrite Nat.sub_1_r. by eexists.
    + cbv beta. intros st s4 s5 (? & ? & k & -> & Hl & Hk) Hr5 Hrs5 Hp Hn. rewrite <- Hp, <- Hn in *.
      apply loose_statement; [done|lia|lia|lia|lia|skipping 1|skipping 1|done|done].
  - step. match goal with H : entered _ _ _ |- _ => destruct H as (j & ? & ? & ? & ? & ? & ? & ? & ?) end.
    step. step. apply loose_statement; [reach_tac|lia|lia|lia|lia|skipping 4|skipping 4| |].
    { match goal with |- context [import_statement_kind ?e] => by destruct e end. }
    rewrite import_kind_trees. by eapply Forall_inner_mono; [eassumption|lia..].
Qed.
End Imports.

(** End a statement whose parts are in the context. *)
Ltac statement :=
  ranges; apply loose_statement;
  [reach_tac|lia|lia|lia|lia|skipping 4|skipping 4|try first [exact I|assumption]|cbn; insides].

(** ** Exports and types *)

Section Declarations.
Context `{E : Env} `{L : !Lexed} `{R : Rec} (n : nat) `{Hrec : !RecOk n R}.

#[export] Instance spec_skip_whitespace :
  SpecOf (skip_while (λ k, bool_decide (k = Whitespace))) any blank.
Proof. apply spec_skip_while. by intros k ->%bool_decide_eq_true. Qed.

#[export] Instance spec_export_name :
  SpecOf parse_module_export_name any (λ s e s', consumed s s' ∧ parts export_trees s e s').
Proof.
  unfold parse_module_export_name. start s. step. step. step; step; promise; cbn; insides.
Qed.

#[export] Instance spec_name_list message :
  SpecOf (parse_module_name_list message) any (λ s x s',
    ∃ k, tok k x.2 ∧ position s < k ∧ position s' = S k ∧
      Forall (inner (position s) k (nd s')) (List.concat (List.map export_trees x.1))).
Proof.
  unfold parse_module_name_list. start s. step. step. step. case_bool_decide; [step|].
  apply wp_bind. eapply (wp_comma1_trees _ _ export_trees); [done|item; by step|listing].
  step. step. split; [reach_tac|]. exists (position s2). split; [by apply tok_lookup|].
  split; [lia|]. split; [lia|]. insides.
Qed.

#[export] Instance spec_export top_level :
  SpecOf (parse_export top_level) (λ s, room n s ∧ at_token s) (loose statement_tree).
Proof.
  unfold parse_export. start s. step. step. step. case_bool_decide.
  - step; [step|]. step. destruct a1 as [names close]. cbn in *. step. step.
    statement.
  - repeat step. statement.
Qed.

#[export] Instance spec_unset : SpecOf parse_unset at_token (loose statement_tree).
Proof. unfold parse_unset. start s. repeat step. statement. Qed.

#[export] Instance spec_type_field : SpecOf parse_type_field (room n) (λ s f s',
  consumed s s' ∧ parts (λ f, [type_field_tree f]) s f s').
Proof. unfold parse_type_field. start s. repeat step. promise. Qed.

#[export] Instance spec_nominal_type top_level :
  SpecOf (parse_nominal_type top_level) (λ s, room n s ∧ at_token s) (loose statement_tree).
Proof.
  unfold parse_nominal_type. start s. step; [step|]. do 9 step.
  comma type_field_tree; [step; promise|]. repeat step. statement.
Qed.

#[export] Instance spec_variant : SpecOf parse_variant (room n) (λ s v s',
  consumed s s' ∧ parts (λ v, [variant_tree v]) s v s').
Proof.
  unfold parse_variant. start s. step. step. step.
  - step. comma type_tree; [step; promise|]. repeat step. promise.
  - repeat step. promise.
Qed.

#[export] Instance spec_variant_type top_level :
  SpecOf (parse_variant_type top_level) (λ s, room n s ∧ at_token s) (loose statement_tree).
Proof.
  unfold parse_variant_type. start s. step; [step|]. do 7 step.
  comma variant_tree; [step; promise|]. step; [step|]. repeat step.
  statement.
Qed.

(** ** Declarations and assignments *)

#[export] Instance spec_declaration mutable :
  SpecOf (parse_declaration mutable) (λ s, room n s ∧ at_token s) (loose statement_tree).
Proof.
  unfold parse_declaration. start s. step. step. step. apply wp_bind.
  destruct (pattern_primary_binding _) as [name|] eqn:Hname.
  2: { step. }
  match goal with H : inner _ _ _ (pattern_tree _) |- _ =>
    destruct (primary_binding_inner _ _ _ _ _ H Hname) as (u & v & ? & ? & ? & ->) end.
  step. step. step.
  - step. step. step. step. step. step. repeat step. statement.
  - repeat step. statement.
Qed.

Lemma first_position_spec skip ts i j :
  first_position skip ts i = Some j →
  ∃ u, ts = take (j - i) ts ++ u ∧ i ≤ j ∧ Forall (λ t, skip (kind t) = true) (take (j - i) ts) ∧
    ∃ t, head u = Some t ∧ skip (kind t) = false.
Proof.
  revert i. induction ts as [|t ts IH]; intros i; simpl; [done|].
  destruct (skip (kind t)) eqn:Ht.
  - intros (u & Hu & ? & ? & ?)%IH. exists u. replace (j - i) with (S (j - S i)) by lia.
    simpl. split; [by f_equal|]. split; [lia|]. split; [by constructor|done].
  - intros [= ->]. exists (t :: ts). rewrite Nat.sub_diag. simpl. split_and!; [done..|].
    by exists t.
Qed.

(** What lies before the position found, and what is there. *)
Lemma next_position_spec skip i j :
  next_position skip i = Some j →
  i ≤ j ∧ (∀ k t, i ≤ k < j → tokens !! k = Some t → skip (kind t) = true) ∧
  ∃ t, tokens !! j = Some t ∧ skip (kind t) = false.
Proof.
  intros (u & Hu & Hij & Hall & t & Ht & Hs)%first_position_spec. split; [done|]. split.
  - intros k v Hk Hv. rewrite Forall_lookup in Hall. apply (Hall (k - i)).
    rewrite lookup_take by lia. rewrite decide_True by lia. rewrite lookup_drop.
    by replace (i + (k - i)) with k by lia.
  - exists t. split; [|done]. replace j with (i + (j - i)) by lia. rewrite <- lookup_drop, Hu.
    assert (length (take (j - i) (drop i tokens)) = j - i) as Hl.
    { destruct u as [|v u]; [done|]. apply (f_equal length) in Hu.
      rewrite length_app in Hu. simpl in Hu. rewrite length_take in *. lia. }
    rewrite lookup_app_r by lia. rewrite Hl, Nat.sub_diag. by rewrite <- head_lookup.
Qed.

(** Skipping stops at a token that is not skipped. *)
Lemma run_reaches f p q j :
  run f p q → p ≤ j → (∀ k t, p ≤ k < j → tokens !! k = Some t → f (kind t) = true) →
  (∃ t, tokens !! j = Some t ∧ f (kind t) = false) → q = j.
Proof.
  intros (Hpq & Hall & Hstop) Hpj Hbefore (t & Ht & Hf).
  destruct (lt_eq_lt_dec q j) as [[Hlt|]|Hgt]; [|done|].
  - assert (is_Some (tokens !! q)) as [u Hu].
    { apply lookup_lt_is_Some. apply lookup_lt_Some in Ht. lia. }
    pose proof (Hbefore q u ltac:(lia) Hu). pose proof (Hstop u Hu). congruence.
  - pose proof (Hall j t ltac:(lia) Ht). congruence.
Qed.

Lemma inline_here_inline d k : is_inline k = true → inline_here d k = true.
Proof. unfold inline_here. by intros ->. Qed.

Lemma inline_here_separator d k : inline_here d k = true → is_separator k = true.
Proof.
  intros [Hk|[_ ->%bool_decide_eq_true]%andb_true_iff]%orb_true_iff; [by apply inline_separator|done].
Qed.
Lemma assignment_not_inline d k : is_assignment_operator k = true → inline_here d k = false.
Proof.
  destruct k; try done. unfold inline_here. intros _. simpl. by rewrite andb_false_r.
Qed.

Lemma assigned_inner i j d target value :
  inner i j d (expr_tree value) → inner i j d (assigned_tree target value).
Proof.
  intros H. unfold assigned_tree. destruct (node_kind value) eqn:Hk; try done. case_bool_decide; [|done].
  apply inner_parts in H as (a & b & ? & ? & ? & Hs & H); [|done]. cbn in Hs. rewrite Hs, Hk in *.
  by eapply inner_tree.
Qed.

#[export] Instance spec_assignment :
  SpecOf parse_assignment (λ s, room n s ∧ name_is_assignment_at s = true) (loose statement_tree).
Proof.
  unfold parse_assignment. start s. step.
  match goal with H : name_is_assignment_at s = true |- _ => unfold name_is_assignment_at in H; rename H into Ha end.
  unfold next_non_inline, next_non_inline_position in Ha.
  destruct (next_position is_inline (position s + 1)) as [j|] eqn:Hj; [|done]. simpl in Ha.
  apply next_position_spec in Hj as (Hlo & Hbefore & t & Ht & _). rewrite Ht in Ha.
  apply wp_bind, wp_bind, wp_gets, wp_skip_while; [apply Hr|].
  intros s1 (Hr1 & Hc1 & Hn1) Hrun. frame Hr1.
  assert (reach s s1) as Hrs1 by reach_tac.
  assert (position s1 = j) as <-.
  { eapply run_reaches; [exact Hrun|lia| |].
    - intros k u Hk Hu. apply inline_here_inline, (Hbefore k); [lia|done].
    - exists t. split; [done|]. by apply assignment_not_inline. }
  apply run_skipped in Hrun; [|by apply inline_here_separator].
  unpack. assert (at_token s1) by by exists t.
  step. rename a0 into u. assert (u = t) as -> by congruence.
  assert (∃ o, assignment_operator (kind t) = Some o) as [o Ho].
  { destruct (kind t); try done. destruct o; try done; by eexists. }
  rewrite Ho. step. step. step. apply wp_bind.
  destruct o as [o|].
  - unfold binary. step. step. step. step. statement.
    unfold assigned_tree. cbn. rewrite bool_decide_true by (by ranges). insides.
    apply (inner_tree _ _ _ _ (position s) x0); [done|lia..|exact I|unfold expr_tree at 1; cbn; insides].
  - step. step. step. statement. apply assigned_inner. by inside.
Qed.

#[export] Instance spec_indexed_assignment :
  SpecOf parse_indexed_assignment (room n) (loose statement_tree).
Proof. unfold parse_indexed_assignment. start s. repeat step. statement. Qed.

(** ** Functions, actions and tasks *)

Lemma keyword_solid s k : kind_at s = Some (KeywordToken k) → solid (S (position s)).
Proof.
  intros (t & (Ht & _) & Hk)%kind_at_tok. by eapply solid_token; [exact Ht|rewrite Hk|].
Qed.

#[export] Instance spec_function documentation :
  SpecOf (parse_function documentation)
    (λ s, room n s ∧ at_token s ∧ kind_at s = Some (KeywordToken KDef)) (loose statement_tree).
Proof.
  unfold parse_function. start s. assert (solid (S (position s))) by by eapply keyword_solid.
  repeat step. all: statement.
Qed.

#[export] Instance spec_effect_argument : SpecOf parse_effect_argument (room n) (λ s a s',
  consumed s s' ∧ parts (λ a, [effect_argument_tree a]) s a s').
Proof.
  unfold parse_effect_argument. start s. step.
  assert (∀ k, wp (if starts_literal k then l ← parse_literal; mret (EffectLiteral l)
    else invalid_here (bs "effect arguments must be literals or qualified project identities")) s
    (λ a s', reach s s' ∧ consumed s s' ∧ parts (λ a, [effect_argument_tree a]) s a s')
    (failed s)) as Hlit.
  { intros k. step; [|step]. step. step. promise. }
  destruct (kind_at s) as [[]|]; try apply Hlit; [|step].
  step. match goal with H : qualified _ _ _ |- _ => destruct H as (? & ? & _) end. unpack.
  step. promise.
Qed.

Definition effect_end (r : EffectRequest) : nat := span_end (effect_span r).

#[export] Instance spec_effect_request : SpecOf parse_effect_request (room n) (λ s r s',
  consumed s s' ∧ parts (λ r, [effect_tree r]) s r s' ∧ ended s (effect_end r) s').
Proof.
  unfold parse_effect_request. start s. do 5 step. step.
  - step. comma effect_argument_tree; [step; promise|]. repeat step. promise. ending.
  - repeat step. promise. ending.
Qed.

Lemma closed_requests s s1 s' p ends t :
  tok p t → kind t = DelimiterToken RightBrace → brace_at LeftBrace (position s) →
  position s < position s1 → position s1 ≤ p → position s' = S p → entries p (position s1) ends →
  braced (position s) (position s') ends.
Proof.
  intros (? & _) ? Hopen ?? -> He. eapply braced_intro; [|idtac|exact Hopen|done|done|]; [lia..|].
  eapply entries_lower; [exact He|lia].
Qed.

#[export] Instance spec_effect_block : SpecOf parse_effect_block (room n) (λ s x s',
  position s < position s' ∧ position s' ≤ length tokens ∧ x.2 = spn (position s) (position s') ∧
  braced (position s) (position s') (List.map effect_end x.1) ∧
  Forall (inner (position s) (position s') (nd s')) (List.map effect_tree x.1)).
Proof.
  unfold parse_effect_block. start s. step. step.
  assert (brace_at LeftBrace (position s)) as Hopen by by eexists.
  apply wp_bind, (wp_repeat (λ l s', Forall (inner (position s1) (position s') (nd s'))
    (List.map effect_tree l) ∧ leads (position s1) (position s') (List.map effect_end l)) _ _ s s1);
    [done|by split; [constructor|apply leads_refl]|].
  intros l s2 Hr2 Hrs2 [Hl Hleads]. frame Hr2. step. case_bool_decide.
  - step. step. step. step. split; [reach_tac|]. split; [lia|]. split; [lia|].
    split; [root_is|]. split; [|insides].
    eapply (closed_requests s s1 s3 (position s2)); [by apply tok_lookup|done|done|lia|lia|lia|].
    eapply leads_none; [exact Hleads|lia].
  - step. match goal with H : ended _ _ _ |- _ => destruct H as (b & Hb & ? & ? & Hlaid) end. step.
    assert (laid b (position s4)) by by eapply laid_trans.
    assert (List.map effect_end (l ++ [a1]) = List.map effect_end l ++ [B b]) as Hends
      by by rewrite map_app; cbn; rewrite Hb.
    step. case_bool_decide.
    + step. step. step. step. split; [reach_tac|]. split; [lia|]. split; [lia|].
      split; [root_is|]. split; [|cbn [fst]; insides].
      eapply (closed_requests s s1 s5 (position s4)); [by apply tok_lookup|done|done|lia|lia|lia|].
      cbn [fst]. rewrite Hends. by eapply leads_end; [exact Hleads|lia|done|].
    + step. step. step. split; [reach_tac|]. split; [|split; lia]. split; [insides|].
      rewrite Hends. eapply leads_comma; [exact Hleads|lia|done|done|done|done|lia].
Qed.

Lemma braced_outer i i' j ends : braced i j ends → i' ≤ i → braced i' j ends.
Proof. intros (o & ? & ?) ?. exists o. split; [lia|done]. Qed.

(** A clause before a statement list, with only separators in front. *)
Lemma covered_prologue ss lo i j hi :
  skipped lo i → i ≤ j → covered ss j hi → covered (spn i j :: ss) lo hi.
Proof.
  intros [_ Hi] Hij Hc k t Hk Ht. destruct (decide (k < i)); [left; apply (Hi k); [lia|done]|].
  destruct (decide (j ≤ k)).
  - destruct (Hc k t ltac:(lia) Ht) as [?|?]; [by left|right; by right].
  - right. left. destruct (tok_lookup _ _ Ht) as (_ & -> & _). split; apply B_mono; lia.
Qed.

#[export] Instance spec_action top_level documentation :
  SpecOf (parse_action top_level documentation)
    (λ s, room n s ∧ at_token s ∧ kind_at s = Some (KeywordToken KAction)) (loose statement_tree).
Proof.
  unfold parse_action. start s. assert (solid (S (position s))) by by eapply keyword_solid.
  step; [step|]. repeat step.
  unfold took_some in *. unpack. cbn [fst snd] in *. repeat step.
  match goal with H : listed _ _ _ |- _ => destruct H as [? Hlisted] end. statement.
  - split; [lia|]. by eapply braced_outer; [eassumption|lia].
  - split; [lia|]. intros Hn. rewrite Nat.sub_1_r. cbn. apply covered_prologue; [|lia|apply Hlisted; lia].
    match goal with K : position s13 = S _ |- _ => by rewrite <- K end.
Qed.

#[export] Instance spec_task top_level documentation :
  SpecOf (parse_task top_level documentation) at_token (loose statement_tree).
Proof.
  unfold parse_task. start s. step; [step|]. repeat step.
  match goal with H : qualified _ _ _ |- _ => destruct H as (? & ? & _) end. unpack.
  repeat step. statement.
Qed.

(** ** Control flow *)

#[export] Instance spec_try : SpecOf parse_try (λ s, room n s ∧ at_token s) (loose statement_tree).
Proof. unfold parse_try. start s. repeat step. statement. Qed.
#[export] Instance spec_throw :
  SpecOf parse_throw (λ s, room n s ∧ at_token s) (loose statement_tree).
Proof. unfold parse_throw. start s. repeat step. statement. Qed.
#[export] Instance spec_while :
  SpecOf parse_while (λ s, room n s ∧ at_token s) (loose statement_tree).
Proof. unfold parse_while. start s. repeat step. statement. Qed.
#[export] Instance spec_for : SpecOf parse_for (λ s, room n s ∧ at_token s) (loose statement_tree).
Proof. unfold parse_for. start s. repeat step. statement. Qed.
#[export] Instance spec_control transfer :
  SpecOf (parse_control transfer)
    (λ s, at_token s ∧ statement_children (Control transfer) = []) (loose statement_tree).
Proof. unfold parse_control. start s. repeat step. statement. cbn in *. match goal with H : _ = [] |- _ => by rewrite H end. Qed.

#[export] Instance spec_return :
  SpecOf parse_return (λ s, room n s ∧ at_token s) (loose statement_tree).
Proof. unfold parse_return. start s. repeat step. all: statement. Qed.

#[export] Instance spec_job_statement :
  SpecOf parse_job_statement (room n) (loose statement_tree).
Proof.
  unfold parse_job_statement. start s. step. step. step; cbn [fmap option_fmap option_map]; repeat step.
  all: statement.
Qed.

#[export] Instance spec_if_node :
  SpecOf parse_if_node (λ s, room n s ∧ at_token s) (loose if_tree).
Proof.
  unfold parse_if_node. start s. do 8 step.
  - step. step; repeat step.
    + split; [reach_tac|]. spanning (position s) x2.
    + split; [reach_tac|]. spanning (position s) (position s8).
  - repeat step. split; [reach_tac|]. spanning (position s) (position s4).
Qed.

#[export] Instance spec_match_arm : SpecOf parse_match_arm (room n) (λ s a s',
  consumed s s' ∧ parts (λ a, [arm_tree a]) s a s').
Proof. unfold parse_match_arm. start s. repeat step. all: promise. Qed.

(** Recovery makes progress from a token that is not the closing one. *)
Lemma synchronized closing s s1 s2 :
  position s < length tokens →
  (∀ d, closing = Some d → kind_at s ≠ Some (DelimiterToken d)) →
  position s ≤ position s1 → position s1 ≤ position s2 →
  position s1 < position s2 ∨ at_end_or closing s2 → position s < position s2.
Proof.
  intros ? Hc ?? [?|[?|(d & Hd & Hk)]]; [lia|lia|].
  destruct (decide (position s2 = position s)) as [Heq|]; [|lia].
  destruct (Hc d Hd). unfold kind_at, current_at in *. by rewrite <- Heq.
Qed.

Lemma wp_match_arm_end s (Q : MatchArm → PState → Prop) (X : ParseError → PState → Prop) :
  length tokens ≤ position s → (∀ i, spot_ok (incomplete_span i) → X (ErrIncomplete i) s) →
  wp parse_match_arm s Q X.
Proof.
  intros Hend HX. unfold parse_match_arm. apply wp_bind.
  apply wp_bind, wp_gets. unfold current_at. rewrite lookup_ge_None_2 by done.
  apply wp_bind, wp_here. intros i Hi. by apply wp_fail, HX.
Qed.

Definition arms_ok (s : PState) (l : list MatchArm) (s' : PState) : Prop :=
  Forall (inner (position s) (position s') (nd s')) (List.map arm_tree l).

Lemma wp_match_arms_step s0 s l s1 :
  reach s s1 → reach s0 s1 → room n s → arms_ok s l s1 →
  wp (match_arms_step l) s1 (λ y s2, match y with
    | inl l' => reach s1 s2 ∧ arms_ok s l' s2 ∧ consumed s1 s2
    | inr l' => reach s1 s2 ∧ arms_ok s l' s2
    end) (failed s0).
Proof.
  intros Hr1 Hrs1 Hroom Hl. unfold match_arms_step, arms_ok in *. frame Hr1.
  step. case_bool_decide; [step; split; [by apply reach_refl, Hr1|done]|].
  apply wp_try. destruct (decide (position s1 < length tokens)) as [Hlt|Hge].
  2: { apply wp_match_arm_end; [lia|]. intros i Hi. apply wp_fail. by split. }
  eapply wp_spec_try; [apply _|done|arith| |].
  - intros arm s2 Hr2 Hrs2 [[? ?] Harm]. frame Hr2. unpack.
    assert (∀ s', reach s2 s' → Forall (inner (position s) (position s') (nd s'))
      (List.map arm_tree (l ++ [arm]))) as Hsnoc.
    { intros s' Hr'. frame Hr'. eapply inner_map_snoc; [exact Hl|exact Harm|lia..]. }
    step. step. case_bool_decide.
    { step. split; [reach_tac|]. apply Hsnoc. reach_tac. }
    step. match goal with |- wp (if ?b then _ else _) _ _ _ => destruct b end.
    + step. step. split; [reach_tac|]. split; [apply Hsnoc; reach_tac|]. split; lia.
    + repeat step. split; [reach_tac|]. split; [apply Hsnoc; reach_tac|]. split; lia.
  - intros e s2 Hr2 Hrs2 He. frame Hr2. destruct e; try by apply wp_fail.
    step. step. step. step. split; [reach_tac|].
    split; [by eapply Forall_inner_mono; [exact Hl|lia..]|].
    split; [|done]. enough (position s1 < position s4) by lia.
    eapply (synchronized (Some RightBrace) s1 s3); [done| |lia|lia|done].
    by intros ? [= <-].
Qed.

#[export] Instance spec_match :
  SpecOf parse_match (λ s, room n s ∧ at_token s) (loose statement_tree).
Proof.
  unfold parse_match. start s. do 6 step.
  apply wp_bind, (wp_iterate (λ l s', reach s5 s' ∧ reach s s' ∧ arms_ok s5 l s')).
  { split; [apply reach_refl; by match goal with H : reach _ s5 |- _ => destruct H end|].
    split; [done|constructor]. }
  intros l s6 (Hr6 & Hrs6 & Hl). frame Hr6.
  eapply wp_mono; [apply (wp_match_arms_step s s5 l s6); [done|done|arith|done]| |done].
  intros [l'|l'] s7.
  - intros (Hr7 & Hl' & [? ?]). split; [|done]. split; [reach_tac|]. split; [reach_tac|done].
  - intros (Hr7 & Hl'). assert (reach s s7) as Hrs7 by reach_tac. frame Hr7. unfold arms_ok in *.
    repeat step. statement.
Qed.

(** ** Statements *)

#[export] Instance spec_misplaced_effects :
  SpecOf misplaced_effects any (λ s _ s', position s' = position s ∧ nd s' = nd s).
Proof.
  unfold misplaced_effects. start s. apply wp_bind, wp_at_contextual. intros [] _; [|by step].
  step. step. step. step. apply wp_bind. eapply (wp_back s); [reach_tac|done|].
  intros s3 ? ? ?. step. split; [done|]. split; lia.
Qed.

Lemma loose_lead {A} (tree : A → syntax_tree) s s1 a s' :
  skipped (position s) (position s1) → loose tree s1 a s' → loose tree s a s'.
Proof.
  intros Hs (i & j & ? & ? & ? & ? & ? & ? & ? & ?). pose proof (proj1 Hs).
  exists i, j. split_and!; try done; [lia|by eapply skipped_trans].
Qed.

Lemma wp_indexed_assignment s (Q : bool → PState → Prop) X :
  inv s → (∀ b, Q b s) → wp name_is_indexed_assignment s Q X.
Proof.
  intros (_ & Hb & _) HQ. unfold wp, name_is_indexed_assignment.
  destruct (next_non_inline_position _) as [open|] eqn:Ho; [|apply HQ].
  apply next_position_spec in Ho as (_ & _ & t & Ht%lookup_lt_Some & _).
  destruct (bracket_ends s !! open) eqn:Hc; [apply HQ|].
  apply lookup_ge_None_1 in Hc. lia.
Qed.

#[export] Instance spec_if_statement :
  SpecOf (n ← parse_if_node; mret (node (If (node_kind n)) (node_span n)))
    (λ s, room n s ∧ at_token s) (loose statement_tree).
Proof.
  start s. step. step. split; [reach_tac|]. exists x, x0. split_and!; try done; try lia.
Qed.

(** The statement that a keyword or any other token begins. *)
#[export] Instance spec_statement top_level documentation :
  SpecOf (parse_statement top_level documentation) (room n) (loose statement_tree).
Proof.
  unfold parse_statement. start s. step. step. step. step; [step|]. step.
  assert (skipped (position s) (position s2)) as Hskip by skipping 3.
  assert (room n s2) as Hroom2 by arith.
  assert (inv s2) as Hs2 by by destruct Hr1.
  assert (∀ (m : M Statement) P `{!SpecOf m P (loose statement_tree)}, P s2 →
    wp m s2 (λ st s', reach s s' ∧ loose statement_tree s st s') (failed s)) as Hby.
  { intros m P Hm HP. eapply wp_spec; [exact Hm|done|exact HP|].
    intros st s' ???. split; [done|]. by eapply loose_lead. }
  assert (at_token s2 ∨ kind_at s2 = None) as [Htok|Hnone]
    by (destruct (kind_at s2) eqn:Hk; [left; by eapply kind_at_is_token|by right]).
  2: { rewrite Hnone. step. }
  destruct (kind_at s2) as [[| | | | | |[]| | | | | | | | | | | | |]|] eqn:Hk;
    try (step; fail); try (destruct top_level; [|step; fail]); try (eapply Hby; [apply _|done]).
  step. step; [eapply Hby; [apply _|done]|].
  apply wp_bind, wp_indexed_assignment; [done|]. intros []; (eapply Hby; [apply _|done]).
Qed.

(** ** Statement lists *)

Lemma covered_skipped l lo p q : covered l lo p → skipped p q → covered l lo q.
Proof.
  intros Hc [_ Hs] k t Hk Ht. destruct (decide (k < p)).
  - apply (Hc k); [lia|done].
  - left. apply (Hs k); [lia|done].
Qed.

Lemma listed_skip s l s1 s2 :
  listed s l s1 → reach s1 s2 → skipped (position s1) (position s2) → listed s l s2.
Proof.
  intros [Hl Hc] Hr Hs. frame Hr. split.
  - by eapply Forall_inner_mono; [exact Hl|lia..].
  - intros Hn. eapply covered_skipped; [apply Hc; lia|done].
Qed.

Lemma listed_fail s l s1 s2 :
  listed s l s1 → reach s1 s2 → 0 < nd s2 → listed s l s2.
Proof.
  intros [Hl Hc] Hr Hn. frame Hr. split; [|lia]. by eapply Forall_inner_mono; [exact Hl|lia..].
Qed.

(** A statement more. *)
Lemma listed_snoc s l s1 st s2 :
  reach s s1 → listed s l s1 → reach s1 s2 → loose statement_tree s1 st s2 →
  listed s (l ++ [st]) s2.
Proof.
  intros Hr1 [Hl Hc] Hr2 (i & j & ? & ? & ? & ? & Hi & Hj & Hroot & Hst). frame Hr1. frame Hr2. split.
  - eapply inner_map_snoc; [exact Hl|exact Hst|lia..].
  - intros Hn k t Hk Ht. rewrite map_app. unfold token_covered.
    destruct (decide (k < position s1)).
    { destruct (Hc ltac:(lia) k t ltac:(lia) Ht) as [?|Hex]; [by left|right].
      apply Exists_app. by left. }
    destruct (decide (k < i)); [left; apply (proj2 Hi k); [lia|done]|].
    destruct (decide (j ≤ k)); [left; apply (proj2 Hj k); [lia|done]|].
    right. apply Exists_app. right. constructor. cbn in Hroot. rewrite Hroot.
    destruct (tok_lookup _ _ Ht) as (_ & -> & _). split; apply B_mono; lia.
Qed.

Lemma wp_at_delimiter closing s (Q : bool → PState → Prop) X :
  (∀ b : bool, (b = false → ∀ d, closing = Some d → kind_at s ≠ Some (DelimiterToken d)) → Q b s) →
  wp (at_delimiter closing) s Q X.
Proof.
  intros HQ. destruct closing as [d|]; [|by apply wp_ret, HQ].
  apply wp_at_kind, HQ. by intros Hb%bool_decide_eq_false ? [= <-].
Qed.

(** A turn that goes on. *)
Definition went_on (s s1 : PState) (y : list Statement * option DocumentationBlock) (s2 : PState) : Prop :=
  reach s1 s2 ∧ listed s y.1 s2 ∧ consumed s1 s2.

Lemma wp_next_statement s0 s s1 s2 l (Q : _ → PState → Prop) :
  reach s0 s1 → reach s1 s2 → listed s l s2 → consumed s1 s2 →
  (∀ y s3, went_on s s1 y s3 → Q (inl y : _ + list Statement) s3) →
  wp (d ← skip_separators_with_documentation; mret (inl (l, d))) s2 Q (failed s0).
Proof.
  intros Hr01 Hr2 Hl [? ?] HQ. assert (reach s0 s2) by reach_tac. step. step. apply HQ.
  split; [reach_tac|]. split; [|split; [lia|done]]. cbn. by eapply listed_skip.
Qed.

Lemma wp_recover_statement s0 s s1 s2 closing l (Q : _ → PState → Prop) :
  reach s0 s1 → reach s1 s2 → listed s l s2 → 0 < nd s2 → position s1 < length tokens →
  (∀ d, closing = Some d → kind_at s1 ≠ Some (DelimiterToken d)) →
  (∀ y s3, went_on s s1 y s3 → Q (inl y : _ + list Statement) s3) →
  wp (synchronize closing;; d ← skip_separators_with_documentation; mret (inl (l, d))) s2 Q
    (failed s0).
Proof.
  intros Hr01 Hr2 Hl Hn Hlt Hc HQ. assert (reach s0 s2) by reach_tac. frame Hr2. step.
  eapply (wp_next_statement s0 s s1); [done|reach_tac|by eapply listed_fail; [| |lia]| |done].
  split; [|done]. by eapply (synchronized closing s1 s2).
Qed.

Lemma wp_statement_list_step s0 s closing l doc s1 :
  reach s s1 → reach s0 s1 → room n s → listed s l s1 →
  wp (statement_list_step closing (l, doc)) s1 (λ y s2, match y with
    | inl y => went_on s s1 y s2
    | inr l' => reach s1 s2 ∧ listed s l' s2
    end) (failed s0).
Proof.
  intros Hr1 Hrs1 Hroom Hl. unfold statement_list_step. frame Hr1.
  assert (reach s1 s1) as Hself by (apply reach_refl, Hr1).
  step. apply wp_bind, wp_at_delimiter. intros c Hc.
  destruct (_ || c) eqn:Hstop; [by step|].
  apply orb_false_iff in Hstop as [Hlt%Nat.leb_gt ->]. specialize (Hc eq_refl).
  step. assert (∀ d, closing = Some d → kind_at s2 ≠ Some (DelimiterToken d)) as Hc2
    by (match goal with K : kind_at s2 = kind_at s1 |- _ => by rewrite K end).
  apply wp_try. eapply wp_spec_try; [apply _|done|arith| |].
  - intros st s3 Hr3 Hrs3 Hst. frame Hr3.
    assert (listed s (l ++ [st]) s3) as Hsnoc.
    { apply (listed_snoc s l s2); [reach_tac| |done|done].
      apply (listed_skip _ _ s1); [done|done|]. skipping 1. }
    assert (position s2 < position s3) by (destruct Hst as (? & ? & ?); lia).
    step. assert (listed s (l ++ [st]) s4) as Hl4 by by apply (listed_skip _ _ s3).
    assert (consumed s1 s4) by (split; lia).
    destruct (is_backgrounded st); [apply (wp_next_statement s0 s s1); done || reach_tac|].
    apply wp_bind, wp_at_delimiter. intros c _. step.
    destruct (c || _); [step; split; [reach_tac|done]|]. step. case_bool_decide.
    { step. apply (wp_recover_statement s0 s s1); try done; try lia; [reach_tac|].
      by apply (listed_fail _ _ s4); [| |lia]. }
    step. match goal with |- wp (if ?b then _ else _) _ _ _ => destruct b end;
      [apply (wp_next_statement s0 s s1); done || reach_tac|].
    step. apply (wp_recover_statement s0 s s1); try done; try lia; [reach_tac|].
    by apply (listed_fail _ _ s4); [| |lia].
  - intros e s3 Hr3 Hrs3 He. frame Hr3. destruct e; try by apply wp_fail.
    step. apply (wp_recover_statement s0 s s1); try done; try lia; [reach_tac|].
    by apply (listed_fail _ _ s1); [|reach_tac|lia].
Qed.

#[export] Instance spec_statement_list closing :
  SpecOf (parse_statement_list closing) (room n) listed.
Proof.
  unfold parse_statement_list. start s. step. step.
  apply (wp_iterate (λ x s', reach s s' ∧ listed s x.1 s')).
  { split; [done|]. split; [constructor|]. intros _ k t Hk Ht. left.
    match goal with H : skipped _ (position s1) |- _ => apply (proj2 H k); [lia|done] end. }
  intros [l doc] s2 [Hr2 Hl].
  eapply wp_mono; [by apply (wp_statement_list_step s s)| |done].
  intros [y|l'] s3.
  - intros (Hr3 & Hy & [? ?]). split; [|done]. split; [reach_tac|done].
  - intros (Hr3 & ?). split; [reach_tac|done].
Qed.
End Declarations.

(** ** The knot *)

#[export] Typeclasses Opaque parse_statement_list parse_expression parse_unary.

Section Knot.
Context `{E : Env} `{L : !Lexed}.

(** Entries are called after a token was consumed, so one unit of fuel is
    enough for each token that is left. *)
Lemma RecOk_no_rec : RecOk 0 no_rec.
Proof.
  split; intros; intros s _ Hs; unfold deep in *; lia || (destruct Hs; lia).
Qed.

Lemma deep_room n s : deep (S n) s → room n s.
Proof. unfold deep, room. lia. Qed.

Lemma SpecOf_weaken {A} (m : M A) P P' Q :
  SpecOf m P Q → (∀ s, P' s → P s) → SpecOf m P' Q.
Proof. intros H HP s Hs Hp. by apply H; [|apply HP]. Qed.

Lemma parser_ok n : RecOk n (parser n).
Proof.
  induction n as [|n IH]; [exact RecOk_no_rec|].
  split; cbn [parser rec_statement_list rec_if_node rec_conditional_chain rec_expression rec_unary
    rec_pattern rec_type_reference].
  2: { apply (SpecOf_weaken _ _ _ _ (spec_if_node n)). intros s [? Hk].
       split; [by apply deep_room|by eapply kind_at_is_token]. }
  all: intros; eapply SpecOf_weaken; [apply _|apply deep_room].
Qed.

(** ** The whole script *)

(** The census keeps one entry for each token. *)
#[export] Instance spec_census ts index brackets :
  SpecOf (census ts index brackets) any (λ s _ s', position s' = position s ∧ nd s' = nd s).
Proof.
  revert index brackets. induction ts as [|t ts IH]; intros index brackets; cbn [census]; start s.
  { by step. }
  assert (∀ s1 index brackets, reach s s1 → position s1 = position s → nd s1 = nd s →
    wp (census ts index brackets) s1 (λ _ s', reach s s' ∧ position s' = position s ∧ nd s' = nd s)
      (failed s)) as Hrest.
  { intros s1 i b Hr1 Hp Hn. eapply wp_spec; [apply IH|done|done|].
    intros _ s2 ?? [? ?]. split; [done|]. split; congruence. }
  step. destruct (kind t) as [| | | | | | | | | | | | | | | | | |d|]; try by apply Hrest.
  destruct d; try by apply Hrest. destruct brackets as [|open brackets]; [by apply Hrest|].
  apply wp_bind, wp_modify. apply Hrest; [|done|done].
  destruct Hr as [(? & Hb & ?) ? ? ? ? ?]. constructor; try done.
  split; [done|]. split; [|done]. cbn. by rewrite length_insert.
Qed.

(** The errors a script ends with: the diagnostics of recovery too. *)
Definition script_err_ok (e : ParseError) : Prop :=
  err_ok e ∨ ∃ ds, e = ErrInvalidMany ds ∧ ds ≠ [] ∧ Forall diag_ok ds.
Definition script_failed (s : PState) (e : ParseError) (s' : PState) : Prop :=
  reach s s' ∧ script_err_ok e.

(** A complete script loses no token. *)
Definition script_ok (sc : Script) : Prop :=
  script_span sc = mkSpan (source_id source) 0 (source_len source) ∧
  (∃ hi, Forall (inner 0 hi 0) (List.map statement_tree (script_statements sc))) ∧
  covered (List.map node_span (script_statements sc)) 0 (length tokens).

Lemma wp_script_end s s1 statements :
  reach s s1 → position s = 0 → nd s = 0 → listed s statements s1 →
  wp (skip_separators;;
      e ← is_end;
      (if (e : bool) then mret tt else report_here (bs "unexpected syntax after statement"));;
      ds ← gets diagnostics;
      match ds with
      | [] => i ← mk_span 0 (source_len source); mret (mkScript statements i)
      | _ => fail (ErrInvalidMany ds)
      end) s1 (λ sc s', reach s s' ∧ script_ok sc) (script_failed s).
Proof.
  intros Hr1 Hp Hn Hl.
  apply wp_bind. eapply wp_spec_try; [exact spec_skip_separators|exact Hr1|done| |].
  2: { intros e s2 ? Hr2 He. split; [done|by left]. }
  intros _ s2 Hr2 Hrs2 [Hskip _]. pose proof (listed_skip _ _ _ _ Hl Hr2 Hskip) as Hl2.
  apply wp_bind, wp_gets. apply wp_bind.
  destruct (Nat.leb_spec (length tokens) (position s2)) as [Hend|Hend].
  - apply wp_ret, wp_bind, wp_gets. destruct (diagnostics s2) as [|d ds] eqn:Hds.
    + apply wp_bind. unfold wp, mk_span. rewrite span_ok; [|lia|done|apply boundary_end].
      split; [done|]. split; [done|]. destruct Hl2 as [Hin Hcov].
      assert (nd s2 = 0) as Hn2 by by unfold nd; rewrite Hds. rewrite Hp, Hn2 in *. split; cbn.
      * eexists. exact Hin.
      * intros k t Hk. apply Hcov; [done|lia].
    + apply wp_fail. split; [done|]. right. eexists. split; [done|]. split; [done|].
      rewrite <- Hds. apply Hrs2.
  - apply wp_report_here. intros d Hd. apply wp_bind, wp_gets.
    assert (reach s2 (with_diagnostic d s2)) as Hd2 by (apply reach_diagnostic; [apply Hr2|done]).
    destruct (diagnostics (with_diagnostic d s2)) as [|d' ds] eqn:Hds.
    { apply (f_equal length) in Hds. cbn in Hds. rewrite length_app in Hds. cbn in Hds. lia. }
    apply wp_fail. split; [reach_tac|]. right. eexists. split; [done|]. split; [done|].
    rewrite <- Hds. apply Hd2.
Qed.

Lemma parse_script_ok polled :
  wp parse_script (initial_state polled)
    (λ sc s', reach (initial_state polled) s' ∧ script_ok sc) (script_failed (initial_state polled)).
Proof.
  unfold parse_script. pose proof (parser_ok fuel) as Hrec. set (s := initial_state polled).
  assert (inv s) as Hs by (split_and!; cbn; [constructor|apply length_replicate|constructor]).
  assert (∀ e s', failed s e s' → script_failed s e s') as Hfail
    by (intros e s' [? ?]; split; [done|by left]).
  apply wp_bind, wp_check_cancelled.
  assert (reach s (with_poll s)) as Hr0 by by apply reach_poll.
  apply wp_bind. eapply wp_spec_try; [apply (spec_census tokens 0 [])|exact Hr0|done| |].
  2: { intros e s' ???. by apply Hfail. }
  intros _ s1 _ Hr1 [Hp Hn]. cbn in Hp.
  apply wp_bind. eapply wp_spec_try; [apply _|exact Hr1|unfold room, fuel; lia| |].
  2: { intros e s' ???. by apply Hfail. }
  intros statements s2 _ Hr2 Hl. apply (wp_script_end s); [done|done|done|].
  unfold listed in *. by rewrite Hp in Hl.
Qed.
End Knot.
