(* ===== verification/ParserFacts.v ===== *)
(** * Facts about parsed source

    Parsing returns on every source, its errors render, and a complete script
    is a tree of ranges of the source in which operators bind by their levels
    and no token is lost. *)
From S2P Require Import Prelude Utf8 Source Lexer LexerFacts Diagnostic DiagnosticFacts Ast.
From S2P Require Import Parser SyntaxTree ParserLogic ParserStatement.

Local Open Scope res_scope.

(** ** From token ranges to the source *)

Section Trees.
Context `{E : Env} `{L : !Lexed}.

Lemma B_lt_inv i j : B i < B j → i < j.
Proof. intros. destruct (decide (j ≤ i)) as [Hle%B_mono|]; lia. Qed.

Lemma spn_within i j i' j' : i ≤ i' → j' ≤ j → within (spn i' j') (B i) (B j).
Proof. intros. split; apply B_mono; lia. Qed.

Lemma inner_within lo hi d t : inner lo hi d t → within (root t) (B lo) (B hi).
Proof.
  destruct 1 as [i j l cs|k s Hlo Hhi _ [Hs He]]; cbn; [by apply spn_within|].
  pose proof (B_mono lo k). pose proof (B_mono (S k) hi). split; lia.
Qed.

(** What every node of a complete script satisfies. *)
Definition node_ok (s : Span) (l : tree_label) : Prop :=
  label_levels l ∧ label_covered tokens s l.

Lemma covered_block i j statements :
  covered statements (S i) (j - 1) → block_covered tokens (spn i j) statements.
Proof.
  intros Hc. apply Forall_lookup. intros k t Ht [Hlo Hhi].
  destruct (tok_lookup _ _ Ht) as (_ & Hs & Hk). rewrite Hs in Hlo, Hhi. cbn in Hlo, Hhi.
  pose proof (B_step k Hk). apply (Hc k); [|done].
  assert (i < k) by (apply B_lt_inv; lia). assert (S k < j) by (apply B_lt_inv; lia). lia.
Qed.

Fixpoint inner_nested lo hi t (H : inner lo hi 0 t) {struct H} : nested source node_ok t.
Proof.
  destruct H as [i j l cs Hi Hij Hj Hl Hcs|k s Hlo Hhi Hs Hw].
  - constructor.
    + by apply spn_valid.
    + destruct l as [| |k|statements| |]; try done. split; [done|]. cbn. by apply covered_block, Hl.
    + eapply Forall_impl; [exact Hcs|]. intros t. apply inner_within.
    + induction Hcs as [|t cs Ht Hcs IH]; constructor; [exact (inner_nested _ _ _ Ht)|exact IH].
  - by constructor.
Qed.
End Trees.

(** A predicate on nodes may be weakened. *)
Fixpoint nested_impl f (P Q : Span → tree_label → Prop) t
    (HPQ : ∀ s l, P s l → Q s l) (H : nested f P t) {struct H} : nested f Q t.
Proof.
  destruct H as [s l cs Hs Hl Hw Hcs]. constructor; [done|by apply HPQ|done|].
  induction Hcs as [|t cs Ht Hcs IH]; constructor; [by eapply nested_impl|apply IH].
  by inversion Hw.
Qed.

(** ** The outcomes *)

Definition outcome_ok (f : SourceFile) (ts : list Token) (o : ParseOutcome) : Prop :=
  match o with
  | OutcomeComplete s =>
      nested f (λ s l, label_levels l ∧ label_covered ts s l) (script_tree s) ∧
      Forall (token_covered (List.map node_span (script_statements s))) ts
  | OutcomeIncomplete i => in_source f (incomplete_span i)
  | OutcomeInvalid ds => ds ≠ [] ∧ Forall (reported f) ds
  end.

Section Script.
Context `{E : Env} `{L : !Lexed}.

Lemma script_outcome sc : script_ok sc → outcome_ok source tokens (OutcomeComplete sc).
Proof.
  intros (Hspan & (hi & Hin) & Hcov). split.
  - constructor.
    + rewrite Hspan. by apply validate_ok; [lia| |apply boundary_end].
    + done.
    + rewrite Hspan. eapply Forall_impl; [exact Hin|]. intros t [_ He]%inner_within.
      split; cbn; [lia|]. pose proof (B_le hi). lia.
    + eapply Forall_impl; [exact Hin|]. intros t. apply inner_nested.
  - apply Forall_lookup. intros k t Ht. apply (Hcov k); [|done].
    apply lookup_lt_Some in Ht. lia.
Qed.

Lemma diag_reported d : diag_ok d → reported source d.
Proof. intros (i & m & Hi & ->). by apply reported_primary. Qed.

Lemma script_errors e :
  script_err_ok e →
  match e with
  | ErrIncomplete i => outcome_ok source tokens (OutcomeIncomplete i)
  | ErrInvalid d => outcome_ok source tokens (OutcomeInvalid [d])
  | ErrInvalidMany ds => outcome_ok source tokens (OutcomeInvalid ds)
  | ErrCancelled => False
  end.
Proof.
  intros [He|(ds & -> & Hne & Hds)].
  - destruct e; try done. split; [done|]. constructor; [by apply diag_reported|constructor].
  - split; [done|]. eapply Forall_impl; [exact Hds|]. apply diag_reported.
Qed.
End Script.

(** ** Any source *)

Definition uncontrolled : nat → bool := λ _, false.

Lemma lexed_env f ts :
  source_wf f → tiling f 0 ts (source_len f) → Forall (quotes_closed f) ts →
  Lexed (E:=mkEnv f ts uncontrolled).
Proof.
  intros Hf Ht Hq. constructor; [done|done|done|].
  intros t x Hin Hk Hx. rewrite list.Forall_forall in Hq. by apply (Hq t Hin).
Qed.

Lemma lex_uncontrolled f ts :
  lex_opaal f = Ok ts → lex_opaal_with_control f uncontrolled = Ok (Some ts).
Proof.
  unfold lex_opaal. change (λ _ : nat, false) with uncontrolled.
  destruct (lex_opaal_with_control f uncontrolled) as [[ts'|]| |]; cbn; try done. by intros [= ->].
Qed.

(** The ranges of interpolations. *)
Definition interpolations_ok (f : SourceFile) (spans : list Span) : Prop :=
  Forall (λ i, in_source f i ∧ span_start i < span_end i) spans.

(** A complete script is one of lexed tokens. *)
Definition complete_ok `{E : Env} (o : ParseOutcome) : Prop :=
  ∀ sc, o = OutcomeComplete sc → Lexed ∧ script_ok sc.

(** Parsing the tokens of a source, when it is lexed. *)
Lemma parse_tokens_ok `{E : Env} polled :
  is_cancelled = uncontrolled → source_wf source → tiling source 0 tokens (source_len source) →
  ∃ o spans, parse_tokens polled = Ok (Parsed o, spans) ∧ outcome_ok source tokens o ∧
    interpolations_ok source spans ∧ complete_ok o.
Proof.
  intros Hnever Hf Ht. pose proof (tiling_well_lexed source 0 tokens _ Hf eq_refl Ht) as Hts.
  destruct (classify_ok source tokens Hts) as (c & Hc & Hcok).
  unfold parse_tokens. rewrite Hnever, Hc. cbn [uncontrolled expect res_bind].
  destruct c as [|i|d].
  2: { exists (OutcomeIncomplete i), []. split_and!; [done|done|constructor|done]. }
  2: { exists (OutcomeInvalid [d]), []. split_and!; [done|split; [done|by constructor]|constructor|done]. }
  assert (Lexed) as L.
  { constructor; [by intros; rewrite Hnever|done|done|].
    intros t x Hin Hk Hx. rewrite list.Forall_forall in Hcok. by apply (Hcok t Hin). }
  pose proof (parse_script_ok (S (S polled))) as Hwp. unfold wp in Hwp.
  destruct (parse_script _) as [[sc|e|] s'] eqn:Hrun.
  - destruct Hwp as [[(_ & _ & Hspans) _ _ _ _ _] Hsc].
    exists (OutcomeComplete sc), (interpolation_spans s').
    split_and!; [done|by apply script_outcome|done|]. intros ? [= <-]. by split.
  - destruct Hwp as [[(_ & _ & Hspans) _ _ _ _ _] He%script_errors].
    destruct e as [i|d|ds|]; [| | |done]; eexists _, _; (split_and!; [done|done|done|by intros]).
  - done.
Qed.

(** Parsing a source returns an outcome about the source, and the ranges of
    its interpolations. *)
Lemma parse_ok f :
  source_wf f →
  ∃ ts o spans, lex_opaal f = Ok ts ∧ parse_controlled f uncontrolled = Ok (Parsed o, spans) ∧
    outcome_ok f ts o ∧ interpolations_ok f spans ∧ complete_ok (E:=mkEnv f ts uncontrolled) o.
Proof.
  intros Hf. destruct (lex_total f) as (ts & cs & Hl & Ht & _); [apply Hf|].
  destruct (parse_tokens_ok (E:=mkEnv f ts uncontrolled) (S (length ts)) eq_refl Hf Ht)
    as (o & spans & Hp & Ho & Hs).
  exists ts, o, spans. split; [done|]. split; [|done]. unfold parse_controlled.
  rewrite (lex_uncontrolled f ts Hl). exact Hp.
Qed.

Lemma parse_opaal_ok f :
  source_wf f → ∃ ts o, lex_opaal f = Ok ts ∧ parse_opaal f = Ok o ∧ outcome_ok f ts o.
Proof.
  intros Hf. destruct (parse_ok f Hf) as (ts & o & spans & Hl & Hp & Ho & _).
  exists ts, o. split_and!; try done. unfold parse_opaal, parse_opaal_with_control.
  change (λ _ : nat, false) with uncontrolled. by rewrite Hp.
Qed.

(** ** Theorems *)

(** C1: [parse_opaal] returns on every source text, without a panic; input that
    is incomplete names a range of the source, and invalid input comes with at
    least one diagnostic, every one of which renders. *)
Theorem parse_opaal_total (f : SourceFile) :
  source_wf f →
  ∃ o, parse_opaal f = Ok o ∧
    match o with
    | OutcomeComplete _ => True
    | OutcomeIncomplete i => validate_span f (incomplete_span i) = Ok tt
    | OutcomeInvalid ds => ds ≠ [] ∧ Forall (λ d, ∃ text, render_diagnostic f d = Ok text) ds
    end.
Proof.
  intros Hf. destruct (parse_opaal_ok f Hf) as (ts & o & _ & Hp & Ho). exists o. split; [done|].
  destruct o as [s|i|ds]; [done|done|]. destruct Ho as [Hne Hds]. split; [done|].
  eapply Forall_impl; [exact Hds|]. intros d [Hprimary Hlabels]. by apply render_ok.
Qed.

(** C3: In a complete script every node's range is one of the source and
    contains the ranges of its parts, the pattern of a parameter that
    destructures without an annotation apart: such a parameter ends with the
    name it binds, and its pattern is checked beside it. *)
Theorem parsed_ranges_nest (f : SourceFile) (s : Script) :
  source_wf f → parse_opaal f = Ok (OutcomeComplete s) → nested f (λ _ _, True) (script_tree s).
Proof.
  intros Hf Hp. destruct (parse_opaal_ok f Hf) as (ts & o & _ & Hp' & Ho).
  rewrite Hp in Hp'. injection Hp' as <-. destruct Ho as [Hn _].
  by eapply nested_impl; [|exact Hn].
Qed.

(** C4: Operators bind by their levels: products and sums associate to the left,
    ranges, comparisons and equalities do not associate, and the operands of
    prefix and postfix operators bind tighter. *)
Theorem parsed_operators_bind (f : SourceFile) (s : Script) :
  source_wf f → parse_opaal f = Ok (OutcomeComplete s) →
  nested f (λ _ l, label_levels l) (script_tree s).
Proof.
  intros Hf Hp. destruct (parse_opaal_ok f Hf) as (ts & o & _ & Hp' & Ho).
  rewrite Hp in Hp'. injection Hp' as <-. destruct Ho as [Hn _].
  eapply nested_impl; [|exact Hn]. by intros ?? [].
Qed.

(** C2: A complete script loses no token.  Each token of the script is a
    separator or within a statement of the script; each token between the
    braces of a block is a separator or within a statement of the block, or,
    in the block of an action, within its effects clause. *)
Theorem parsed_tokens_kept (f : SourceFile) (ts : list Token) (s : Script) :
  source_wf f → lex_opaal f = Ok ts → parse_opaal f = Ok (OutcomeComplete s) →
  Forall (token_covered (List.map node_span (script_statements s))) ts ∧
  nested f (label_covered ts) (script_tree s).
Proof.
  intros Hf Hl Hp. destruct (parse_opaal_ok f Hf) as (ts' & o & Hl' & Hp' & Ho).
  rewrite Hp in Hp'. rewrite Hl in Hl'. injection Hp' as <-. injection Hl' as <-.
  destruct Ho as [Hn Hc]. split; [done|]. eapply nested_impl; [|exact Hn]. by intros ?? [].
Qed.

(** ** Witnesses *)

Definition script_file (text : str) : SourceFile := SourceFile_new 1%Z (bs "sample") text.

Definition sample_file : SourceFile :=
  script_file (bs "let x = 1 + 2 * -y" ++ newline ++ bs "if x == 3 { ls --all {x} | wc; z = x }" ++ newline).

Definition complete_script (f : SourceFile) : Script :=
  match parse_opaal f with
  | Ok (OutcomeComplete s) => s
  | _ => mkScript [] (mkSpan 0%Z 0 0)
  end.

Lemma script_file_wf text : utf8 text → source_wf (script_file text).
Proof. apply SourceFile_new_wf. Qed.

Lemma sample_file_wf : source_wf sample_file.
Proof. apply script_file_wf, utf8b_spec. by vm_compute. Qed.

Lemma sample_file_parses : parse_opaal sample_file = Ok (OutcomeComplete (complete_script sample_file)).
Proof. by vm_compute. Qed.

Lemma parse_opaal_total_witness :
  source_wf sample_file ∧ ∃ o, parse_opaal sample_file = Ok o.
Proof.
  split; [apply sample_file_wf|].
  destruct (parse_opaal_total sample_file sample_file_wf) as (o & Ho & _). by exists o.
Defined.

Lemma parsed_ranges_nest_witness :
  nested sample_file (λ _ _, True) (script_tree (complete_script sample_file)).
Proof. apply (parsed_ranges_nest _ _ sample_file_wf sample_file_parses). Defined.

Lemma parsed_operators_bind_witness :
  nested sample_file (λ _ l, label_levels l) (script_tree (complete_script sample_file)).
Proof. apply (parsed_operators_bind _ _ sample_file_wf sample_file_parses). Defined.

Lemma parsed_tokens_kept_witness :
  ∃ ts, lex_opaal sample_file = Ok ts ∧
    nested sample_file (label_covered ts) (script_tree (complete_script sample_file)).
Proof.
  eexists. split; [by vm_compute|].
  apply (parsed_tokens_kept sample_file _ (complete_script sample_file) sample_file_wf);
    [by vm_compute|apply sample_file_parses].
Defined.

(** ** Where the code departs from what it says *)

(** Once the predicate is true, skipping leaves the blank in place, and the
    token after an assignment's target is no operator: the parser panics. *)
Lemma cancelled_assignment_panics :
  parse_opaal_with_control (script_file (bs "x = 1")) (λ n, 18 <=? n) = Panic.
Proof. by vm_compute. Qed.

(** An error inside brackets leaves them open for the rest of the parse, so that
    a newline no longer ends a statement: the correct second and third lines
    are reported too. *)
Definition broken_bracket : SourceFile :=
  script_file (bs "x = (a +" ++ newline ++ bs ")" ++ newline ++ bs "y = 1" ++ newline ++ bs "z = 2").

Definition reported_at (o : res Empty_set ParseOutcome) : list (nat * str) :=
  match o with
  | Ok (OutcomeInvalid ds) =>
      (λ d, (match labels d with l :: _ => span_start (label_span l) | [] => 0 end,
             diagnostic_message d)) <$> ds
  | _ => []
  end.

Lemma brackets_stay_open :
  parse_opaal (script_file (bs "y = 1" ++ newline ++ bs "z = 2")) =
    Ok (OutcomeComplete (complete_script (script_file (bs "y = 1" ++ newline ++ bs "z = 2")))) ∧
  reported_at (parse_opaal broken_bracket) =
    [(9, bs "expected an expression"); (17, bs "expected a statement boundary")].
Proof. split; by vm_compute. Qed.

(** A parameter that destructures without an annotation ends with the name it
    binds, before its own pattern does. *)
Definition destructuring : SourceFile := script_file (bs "def f(Point { x, y }) { x }").

Definition first_parameter (s : Script) : option (Span * Span) :=
  match script_statements s with
  | st :: _ =>
    match node_kind st with
    | Function _ _ _ (mkParameter pattern _ _ i :: _) _ _ => Some (i, pattern_span pattern)
    | _ => None
    end
  | [] => None
  end.

Lemma parameter_ends_inside_pattern :
  first_parameter (complete_script destructuring) = Some (mkSpan 1%Z 6 15, mkSpan 1%Z 6 20).
Proof. by vm_compute. Qed.
