(* ===== verification/Formatter.v ===== *)
(** * The formatter

    [opaal-syntax/src/formatter.rs]: where a script's statements ask for
    breaks, spaces and commas, and the rewriting of its tokens. *)
From stdpp Require Import gmap.
From S2P Require Import Prelude Source Lexer Diagnostic Ast Parser.

Local Open Scope res_scope.

Inductive FormatOutcome :=
| FormatComplete (text : str)
| FormatIncomplete (i : IncompleteInput)
| FormatInvalid (ds : list Diagnostic).

Inductive OpenDelimiter := IndentingBrace | InterpolationBrace | Parenthesis | Bracket.

#[export] Instance OpenDelimiter_eq_dec : EqDecision OpenDelimiter.
Proof. solve_decision. Defined.

(** ** The layout

    The ten sets of [FormatLayout], by name. *)
Inductive LayoutSet :=
| CommaAfter | NewlineBefore | NewlineAfter | SpaceBefore | SpaceAfter | NoSpaceBefore
| NoSpaceAfter | InterpolationOpen | InterpolationClose | SuppressSourceNewline.

#[export] Instance LayoutSet_eq_dec : EqDecision LayoutSet.
Proof. solve_decision. Defined.

Definition FormatLayout : Type := LayoutSet → gset nat.
Definition empty_layout : FormatLayout := λ _, ∅.
Definition put (x : LayoutSet) (p : nat) (L : FormatLayout) : FormatLayout :=
  λ y, if decide (y = x) then {[p]} ∪ L y else L y.
Definition has (L : FormatLayout) (x : LayoutSet) (p : nat) : bool := bool_decide (p ∈ L x).

Abbreviation laying := (res Empty_set FormatLayout) (only parsing).

(** [for a in l { ... }] on the layout. *)
Definition each {A S} (f : A → S → res Empty_set S) : list A → S → res Empty_set S :=
  fix go l s := match l with [] => Ok s | a :: l => let* s := f a s in go l s end.

Definition starts (t : Token) : nat := span_start (token_span t).
Definition ends (t : Token) : nat := span_end (token_span t).

(** [end - 1]. *)
Definition pred_offset (n : nat) : res Empty_set nat :=
  match n with O => Panic | S n => Ok n end.

Definition tokens_in (tokens : list Token) (start stop : nat) : res Empty_set (list Token) :=
  let first := partition_point (λ t, starts t <? start) tokens in
  let last := partition_point (λ t, ends t <=? stop) tokens in
  if last <? first then Panic else Ok (sub tokens first last).

Definition is_gap (k : TokenKind) : bool :=
  match k with Whitespace | Newline => true | _ => false end.
Definition is_trivia (k : TokenKind) : bool :=
  match k with
  | Whitespace | Newline | Comment | DocumentationComment | LineContinuation => true
  | _ => false
  end.
Definition is_comment (k : TokenKind) : bool :=
  match k with Comment | DocumentationComment => true | _ => false end.

(** [iter.find(f)] on an iterator that goes on after what it finds. *)
Fixpoint find_next (f : Token → bool) (l : list Token) : option (Token * list Token) :=
  match l with
  | [] => None
  | t :: l => if f t then Some (t, l) else find_next f l
  end.

Definition follows (stop : nat) (t : Token) : bool := (stop <=? starts t) && negb (is_trivia (kind t)).

(** An entry of a list that ends at [stop], with the token after it. *)
Definition separate (stop : nat) (next : Token) (L : FormatLayout) : FormatLayout :=
  if bool_decide (kind next = OperatorToken Comma)
  then put NewlineAfter (ends next) (put NoSpaceBefore (starts next) L)
  else put NewlineAfter stop (put CommaAfter stop L).

Definition spread_step (t : Token) (L : FormatLayout) : FormatLayout :=
  if bool_decide (kind t = OperatorToken Spread) then put NoSpaceAfter (ends t) L else L.

Definition commas_step (t : Token) (L : FormatLayout) : FormatLayout :=
  if bool_decide (kind t = OperatorToken Comma) then put NoSpaceBefore (starts t) L else L.

(** ** Signatures *)

Fixpoint spacing_from (previous : option Token) (tokens : list Token) (signature_end : option nat)
    (L : FormatLayout) : FormatLayout :=
  match tokens with
  | [] => L
  | t :: next =>
    let before_end := match signature_end with None => true | Some e => ends t <=? e end in
    let is_colon o := bool_decide (kind <$> o = Some (OperatorToken Colon)) in
    let L :=
      match kind t with
      | OperatorToken Arrow => put SpaceAfter (ends t) (put SpaceBefore (starts t) L)
      | OperatorToken Colon =>
        if negb (is_colon previous) && negb (is_colon (head next))
        then put SpaceAfter (ends t) (put NoSpaceBefore (starts t) L) else L
      | OperatorToken Comma => put SpaceAfter (ends t) L
      | DelimiterToken LeftParenthesis =>
        if before_end then
          let L := put NoSpaceAfter (ends t) L in
          match find_next (λ t, negb (is_gap (kind t))) next with
          | Some (found, _) => put NoSpaceBefore (starts found) L
          | None => L
          end
        else L
      | DelimiterToken RightParenthesis =>
        if before_end then put NoSpaceBefore (starts t) L else L
      | _ => L
      end in
    spacing_from (Some t) next signature_end L
  end.

(** [spacing]; [usize::MAX] is no bound. *)
Definition spacing : list Token → option nat → FormatLayout → FormatLayout := spacing_from None.

Definition signature (tokens : list Token) (L : FormatLayout) : FormatLayout :=
  let solid := List.filter (λ t, negb (is_gap (kind t))) tokens in
  let compact_length := sum_list (List.map (λ t, span_len (token_span t) + 1) solid) in
  let plain t := match kind t with
                 | Comment | DocumentationComment | LineContinuation => false
                 | _ => true
                 end in
  let L :=
    if (compact_length <=? 100) && forallb plain tokens then
      let signature_end := match last solid with Some t => ends t | None => 0 end in
      List.fold_left (λ L t,
        if bool_decide (kind t = Newline) && (ends t <=? signature_end)
        then put SuppressSourceNewline (starts t) L else L) tokens L
    else L in
  spacing tokens None L.

Definition declaration_body (body : Block) (L : FormatLayout) : laying :=
  let s := block_span body in
  let* close := pred_offset (span_end s) in
  Ok (put NewlineAfter (span_end s) (put NewlineAfter (span_start s + 1)
       (put NewlineBefore close (put NewlineBefore (span_start s) L)))).

(** ** Imports and effects *)

Definition member_import (from : ModuleImportSource) (members : list ModuleMemberSelector) (s : Span)
    (tokens : list Token) (L : FormatLayout) : laying :=
  let* found := tokens_in tokens (span_start s) (span_end s) in
  let multiline := existsb (λ t, bool_decide (kind t = Newline) || is_comment (kind t)) found in
  let L := put NoSpaceBefore (span_start s) L in
  let* between := tokens_in tokens (span_end (import_source_span from)) (span_start s) in
  let L := List.fold_left (λ L t, put NoSpaceAfter (ends t) (put NoSpaceBefore (starts t) L)) between L in
  let* close := pred_offset (span_end s) in
  if multiline then
    let L := put NewlineBefore close (put NewlineAfter (span_start s + 1) L) in
    each (λ m L,
      let L := put NewlineBefore (span_start (member m)) L in
      let* ' (next, _) := expect_some (find_next (follows (span_end (member_span m))) found) in
      Ok (separate (span_end (member_span m)) next L)) members L
  else
    let L := put NoSpaceBefore close (put NoSpaceAfter (span_start s + 1) L) in
    Ok (List.fold_left (λ L t,
      if bool_decide (kind t = OperatorToken Comma)
      then put SpaceAfter (ends t) (put NoSpaceBefore (starts t) L) else L) found L).

(** The entries of a list, each with the next token of [remaining]. *)
Definition separate_step (stop : nat) (state : list Token * FormatLayout)
    : res Empty_set (list Token * FormatLayout) :=
  let '(remaining, L) := state in
  let* ' (next, remaining) := expect_some (find_next (follows stop) remaining) in
  Ok (remaining, separate stop next L).

Definition action_layout (at_ : Span) (effects : list EffectRequest) (effects_span : Span)
    (body : Block) (tokens : list Token) (L : FormatLayout) : laying :=
  let* signature_tokens := tokens_in tokens (span_start at_) (span_start (block_span body)) in
  let L := signature signature_tokens L in
  let* close := pred_offset (span_end effects_span) in
  let L := put NewlineAfter (span_end effects_span)
             (put NewlineBefore close (put NewlineBefore (span_start effects_span) L)) in
  let* L := declaration_body body L in
  let* effect_tokens := tokens_in tokens (span_start effects_span) (span_end effects_span) in
  let* ' (_, L) := each (λ r, separate_step (span_end (effect_span r))) effects (effect_tokens, L) in
  let L := spacing effect_tokens (Some (span_start effects_span)) L in
  Ok (List.fold_left (λ L t,
    if bool_decide (kind t = DelimiterToken LeftBrace)
    then put NewlineAfter (ends t) (put SpaceBefore (starts t) L) else L) effect_tokens L).

Definition group_layout (at_ : Span) (entries : list ModuleImportEntry) (tokens : list Token)
    (L : FormatLayout) : laying :=
  let* group_tokens := tokens_in tokens (span_start at_) (span_end at_) in
  let* ' (open, _) := expect_some
    (find_next (λ t, bool_decide (kind t = DelimiterToken LeftBrace)) group_tokens) in
  let L := put NewlineAfter (ends open) (put SpaceBefore (starts open) L) in
  let* close := pred_offset (span_end at_) in
  let L := put NewlineBefore close L in
  let* ' (_, L) := each (λ entry '(remaining, L),
    let L := put NewlineBefore (span_start (import_source_span (import_entry_source entry))) L in
    separate_step (import_entry_end entry) (remaining, L)) entries (group_tokens, L) in
  Ok L.

Definition import_layout (tokens : list Token) (e : ModuleImportEntry) (L : FormatLayout) : laying :=
  match e with
  | ImportMembers from members s => member_import from members s tokens L
  | ImportAlias _ _ => Ok L
  end.

(** ** Statements *)

Definition is_compound_assignment (k : TokenKind) : bool :=
  match k with
  | OperatorToken (AddAssign | SubtractAssign | MultiplyAssign | DivideAssign | RemainderAssign) =>
      true
  | _ => false
  end.

(** Spaces around the tokens that [f] picks. *)
Definition spaced (f : TokenKind → bool) (tokens : list Token) (L : FormatLayout) : FormatLayout :=
  List.fold_left (λ L t,
    if f (kind t) then put SpaceAfter (ends t) (put SpaceBefore (starts t) L) else L) tokens L.

(** The arms of [statements] that have no block. *)
Definition leaf_layout (tokens : list Token) (k : StatementKind) (at_ : Span) (L : FormatLayout)
    : laying :=
  match k with
  | ModuleExport names =>
    let* found := tokens_in tokens (span_start at_) (span_end at_) in
    let L := List.fold_left (λ L t, commas_step t L) found L in
    Ok (List.fold_left (λ L e,
      match e with
      | ExportPrefix _ marker => put NoSpaceBefore (span_start marker) L
      | ExportName _ => L
      end) names L)
  | ModuleImportGroup entries => group_layout at_ entries tokens L
  | Task _ _ _ =>
    let* found := tokens_in tokens (span_start at_) (span_end at_) in
    Ok (spaced (λ k, bool_decide (k = OperatorToken Assign)) found L)
  | IndexedAssignment _ _ brackets operator _ =>
    Ok (put SpaceAfter (span_end operator) (put SpaceBefore (span_start operator)
         (put NoSpaceBefore (span_start brackets) L)))
  | Assignment _ value =>
    match node_kind value with
    | EBinary _ operator _ =>
      let* found := tokens_in tokens (span_start (node_span operator)) (span_end (node_span operator)) in
      Ok (spaced is_compound_assignment found L)
    | _ => Ok L
    end
  | _ => Ok L
  end.

Fixpoint statement_layout (tokens : list Token) (k : StatementKind) (at_ : Span) (L : FormatLayout)
    {struct k} : laying :=
  let statements (b : Block) (L : FormatLayout) :=
    let 'mkBlock ss _ := b in
    each (λ st : Statement, statement_layout tokens (node_kind st) (node_span st)) ss L in
  let* L := each (import_layout tokens) (module_imports k) L in
  match k with
  | Function _ _ _ _ _ body =>
    let* found := tokens_in tokens (span_start at_) (span_start (block_span body)) in
    let L := signature found L in
    let* L := declaration_body body L in
    statements body L
  | Action _ _ _ _ _ effects effects_span body =>
    let* L := action_layout at_ effects effects_span body tokens L in
    statements body L
  | If i => if_layout tokens i L
  | While _ body | For _ _ body => statements body L
  | Match _ arms => each (λ a L, let 'mkArm _ _ body _ := a in statements body L) arms L
  | Try try_block _ catch_block =>
    let* L := statements try_block L in
    statements catch_block L
  | _ => leaf_layout tokens k at_ L
  end
with if_layout (tokens : list Token) (i : IfStatement) (L : FormatLayout) {struct i} : laying :=
  let statements (b : Block) (L : FormatLayout) :=
    let 'mkBlock ss _ := b in
    each (λ st : Statement, statement_layout tokens (node_kind st) (node_span st)) ss L in
  let 'mkIf _ then_block else_branch := i in
  let* L := statements then_block L in
  match else_branch with
  | None => Ok L
  | Some (ElseBlock b) => statements b L
  | Some (ElseIf n) => if_layout tokens (node_kind n) L
  end.

Definition statements_layout (tokens : list Token) : list Statement → FormatLayout → laying :=
  each (λ st : Statement, statement_layout tokens (node_kind st) (node_span st)).

Definition interpolation_step (s : Span) (L : FormatLayout) : laying :=
  let* close := pred_offset (span_end s) in
  Ok (put NoSpaceBefore close (put NoSpaceAfter (span_start s + 1)
       (put InterpolationClose close (put InterpolationOpen (span_start s) L)))).

Definition layout_for_script (script : Script) (tokens : list Token) (interpolations : list Span)
    : laying :=
  let* L := each interpolation_step interpolations empty_layout in
  let L := List.fold_left (λ L t, spread_step t L) tokens L in
  statements_layout tokens (script_statements script) L.

(** ** Tokens *)

Record FormatState := mkFormatState {
  output : str;
  open_delimiters : list OpenDelimiter;
  indent : nat;
  at_line_start : bool;
  pending_space : bool;
  suppress_source_newline : bool;
  previous_syntax_token_end : option nat;
  pending_break : bool
}.

Definition format_start : FormatState := mkFormatState [] [] 0 true false false None false.

Definition opening_delimiter (k : TokenKind) (start : nat) (L : FormatLayout) : option OpenDelimiter :=
  match k with
  | DelimiterToken LeftBrace =>
      if has L InterpolationOpen start then Some InterpolationBrace else Some IndentingBrace
  | InterpolationStart => Some InterpolationBrace
  | DelimiterToken LeftParenthesis => Some Parenthesis
  | DelimiterToken LeftBracket => Some Bracket
  | _ => None
  end.

(** A vector's last element first. *)
Definition pop_expected (open : list OpenDelimiter) (expected : OpenDelimiter) : list OpenDelimiter :=
  match open with
  | actual :: rest => if decide (actual = expected) then rest else actual :: rest
  | [] => []
  end.

Definition closes_indenting_brace (k : TokenKind) (start : nat) (L : FormatLayout)
    (open : list OpenDelimiter) : bool * list OpenDelimiter :=
  let close expected :=
    match open with
    | actual :: rest =>
      if decide (actual = expected) then (bool_decide (expected = IndentingBrace), rest)
      else (false, actual :: rest)
    | [] => (false, [])
    end in
  match k with
  | DelimiterToken RightBrace =>
      close (if has L InterpolationClose start then InterpolationBrace else IndentingBrace)
  | DelimiterToken RightParenthesis => (false, pop_expected open Parenthesis)
  | DelimiterToken RightBracket => (false, pop_expected open Bracket)
  | _ => (false, open)
  end.

Fixpoint indentation (n : nat) : str :=
  match n with O => [] | S n => bs "    " ++ indentation n end.

(** What [write_prefix] appends; afterwards the line is begun and no space is
    pending. *)
Definition prefix (indent : nat) (at_line_start pending_space : bool) : str :=
  if at_line_start then indentation indent else if pending_space then bs " " else [].

Definition after_no_space (L : FormatLayout) (s : FormatState) : bool :=
  match previous_syntax_token_end s with
  | Some e => has L NoSpaceAfter e
  | None => false
  end.

(** A blank of the source: a space, unless one would begin the line or follow
    a token that takes none. *)
Definition source_space (L : FormatLayout) (s : FormatState) : FormatState :=
  mkFormatState (output s) (open_delimiters s) (indent s) (at_line_start s)
    (if negb (at_line_start s) && negb (after_no_space L s) then true else pending_space s)
    (suppress_source_newline s) (previous_syntax_token_end s) (pending_break s).

Definition newline_step (t : Token) (L : FormatLayout) (s : FormatState) : FormatState :=
  if has L SuppressSourceNewline (starts t) then source_space L s
  else
    mkFormatState (if suppress_source_newline s then output s else output s ++ newline)
      (open_delimiters s) (indent s) true false false (previous_syntax_token_end s) (pending_break s).

Definition continuation_step (t : Token) (text : str) (s : FormatState) : FormatState :=
  mkFormatState (output s ++ prefix (indent s) (at_line_start s) (pending_space s) ++ text)
    (open_delimiters s) (indent s) true false (suppress_source_newline s) (Some (ends t))
    (pending_break s).

Definition trailing_comment (rest : list Token) : bool :=
  match find_next (λ t, negb (bool_decide (kind t = Whitespace))) rest with
  | Some (next, _) => is_comment (kind next)
  | None => false
  end.

Definition syntax_step (t : Token) (text : str) (rest : list Token) (L : FormatLayout)
    (s : FormatState) : FormatState :=
  let '(closes, open) := closes_indenting_brace (kind t) (starts t) L (open_delimiters s) in
  let indent := if closes then indent s - 1 else indent s in
  let breaks := has L NewlineBefore (starts t) && negb (at_line_start s) in
  let output := if breaks then output s ++ newline else output s in
  let line_start := if breaks then true else at_line_start s in
  let space := if breaks then false else pending_space s in
  let space :=
    if has L NoSpaceBefore (starts t) then false
    else if has L SpaceBefore (starts t) && negb line_start then true else space in
  let output := output ++ prefix indent line_start space ++ text in
  let output := if has L CommaAfter (ends t) then output ++ bs "," else output in
  let opened := opening_delimiter (kind t) (starts t) L in
  let open := match opened with Some d => d :: open | None => open end in
  let indent := match opened with Some IndentingBrace => indent + 1 | _ => indent end in
  let space := has L SpaceAfter (ends t) in
  let space := if has L NoSpaceAfter (ends t) then false else space in
  let break := pending_break s || has L NewlineAfter (ends t) in
  if break && negb (trailing_comment rest)
  then mkFormatState (output ++ newline) open indent true false true (Some (ends t)) false
  else mkFormatState output open indent false space false (Some (ends t)) break.

Definition format_step (source : SourceFile) (L : FormatLayout) (t : Token) (rest : list Token)
    (s : FormatState) : res Empty_set FormatState :=
  match kind t with
  | Whitespace => Ok (source_space L s)
  | Newline => Ok (newline_step t L s)
  | LineContinuation =>
    let* text := expect (token_text t source) in
    Ok (continuation_step t text s)
  | _ =>
    let* text := expect (token_text t source) in
    Ok (syntax_step t text rest L s)
  end.

Fixpoint format_loop (source : SourceFile) (L : FormatLayout) (tokens : list Token) (s : FormatState)
    : res Empty_set FormatState :=
  match tokens with
  | [] => Ok s
  | t :: rest => let* s := format_step source L t rest s in format_loop source L rest s
  end.

Definition end_line (text : str) : str :=
  match last text with
  | None => text
  | Some b => if (b =? 10)%Z then text else text ++ newline
  end.

Definition format_tokens (source : SourceFile) (tokens : list Token) (L : FormatLayout)
    : res Empty_set str :=
  let* s := format_loop source L tokens format_start in
  Ok (end_line (output s)).

Definition format_source_opaal (source : SourceFile) : res Empty_set FormatOutcome :=
  let* ' (outcome, interpolations) := parse_opaal_with_interpolation_spans source in
  match outcome with
  | OutcomeComplete script =>
    let* tokens := lex_opaal source in
    let* L := layout_for_script script tokens interpolations in
    let* text := format_tokens source tokens L in
    Ok (FormatComplete text)
  | OutcomeIncomplete i => Ok (FormatIncomplete i)
  | OutcomeInvalid ds => Ok (FormatInvalid ds)
  end.
