(* ===== verification/FormatterFacts.v ===== *)
(** * Facts about the formatter

    Formatting returns on every source with the parser's outcome; the text is
    the script's tokens in order with other blanks between them, and commas
    only before closing braces. *)
From stdpp Require Import gmap.
From S2P Require Import Prelude Utf8 Source Lexer LexerFacts Diagnostic Ast Parser SyntaxTree.
From S2P Require Import ParserLogic ParserParts ParserStatement ParserFacts Formatter.

Local Open Scope res_scope.

(** ** Sets and lists *)

Lemma elem_put x y p q (L : FormatLayout) : q ∈ put x p L y → (y = x ∧ q = p) ∨ q ∈ L y.
Proof. unfold put. destruct (decide (y = x)); set_solver. Qed.

Lemma partition_point_count {A} (f : A → bool) l n :
  (∀ k x, l !! k = Some x → f x = true ↔ k < n) → partition_point f l = n `min` length l.
Proof.
  revert n. induction l as [|x l IH]; intros n Hf; simpl; [lia|].
  pose proof (Hf 0 x eq_refl) as H0. destruct (f x).
  - rewrite (IH (pred n)); [lia|]. intros k y Hy. rewrite (Hf (S k) y Hy). lia.
  - destruct n; [done|]. assert (false = true) by (apply H0; lia). done.
Qed.

Lemma sub_min {A} (l : list A) i j : sub l (i `min` length l) (j `min` length l) = sub l i j.
Proof.
  unfold sub. destruct (decide (i ≤ length l)).
  - rewrite (Nat.min_l i) by done. destruct (decide (j ≤ length l)); [by rewrite Nat.min_l by done|].
    rewrite Nat.min_r, !take_ge by (rewrite ?length_drop; lia). done.
  - rewrite !(drop_ge l) by lia. by rewrite !take_nil.
Qed.

Lemma sub_cons {A} (l : list A) i j x :
  l !! i = Some x → i < j → sub l i j = x :: sub l (S i) j.
Proof.
  intros Hx Hij. unfold sub. rewrite (drop_S _ _ _ Hx). replace (j - i) with (S (j - S i)) by lia.
  done.
Qed.

Lemma sub_lookup_iff {A} (l : list A) i j k x :
  sub l i j !! k = Some x ↔ l !! (i + k) = Some x ∧ i + k < j.
Proof.
  unfold sub. rewrite lookup_take, lookup_drop. case_decide; split; [intros|intros []|done|intros []];
    try done; [split; [done|lia]|lia].
Qed.

(** [find] from [p] on, when there is something to find at [c]. *)
Lemma find_next_sub f ts p j c t :
  p ≤ c → c < j → ts !! c = Some t → f t = true →
  ∃ k u, find_next f (sub ts p j) = Some (u, sub ts (S k) j) ∧ p ≤ k ∧ k ≤ c ∧ ts !! k = Some u ∧
    f u = true.
Proof.
  remember (c - p) as n eqn:Hn. revert p Hn.
  induction n as [|n IH]; intros p Hn Hpc Hcj Ht Hf.
  - replace p with c by lia. rewrite (sub_cons _ _ _ _ Ht) by lia. simpl. rewrite Hf.
    exists c, t. split_and!; done || lia.
  - assert (is_Some (ts !! p)) as [v Hv].
    { apply lookup_lt_is_Some. apply lookup_lt_Some in Ht. lia. }
    rewrite (sub_cons _ _ _ _ Hv) by lia. simpl. destruct (f v) eqn:Hfv.
    + exists p, v. split_and!; done || lia.
    + destruct (IH (S p)) as (k & u & ? & ? & ? & ? & ?); [lia|lia|done|done|done|].
      exists k, u. split_and!; done || lia.
Qed.

(** ** What the layout asks for *)

Section Layout.
Context `{E : Env} `{L : !Lexed}.

(** After [b] there is only layout before a closing brace, and before it a
    token that is no layout. *)
Definition closing (b : nat) : Prop := solid b ∧ ∃ hi, laid b hi ∧ brace_at RightBrace hi.

(** The token before the [S k]-th is no comment. *)
Definition joins (k : nat) : Prop :=
  S k < length tokens ∧ ∀ t, tokens !! k = Some t → is_comment (kind t) = false.

(** Commas only before closing braces, and no line that ends with a comment is
    joined with the next. *)
Definition layout_ok (Y : FormatLayout) : Prop :=
  (∀ p, p ∈ Y CommaAfter → ∃ b, p = B b ∧ closing b) ∧
  (∀ p, p ∈ Y SuppressSourceNewline → ∃ k, p = B (S k) ∧ joins k).

Lemma layout_empty : layout_ok empty_layout.
Proof. by split; intros p ?%not_elem_of_empty. Qed.

Lemma layout_put x p Y :
  x ≠ CommaAfter → x ≠ SuppressSourceNewline → layout_ok Y → layout_ok (put x p Y).
Proof. intros ?? [Hc Hs]. by split; intros q [[<- _]|Hq]%elem_put; auto. Qed.

Lemma layout_comma b Y : closing b → layout_ok Y → layout_ok (put CommaAfter (B b) Y).
Proof. intros ? [Hc Hs]. split; intros q [[? ->]|Hq]%elem_put; eauto; done. Qed.

Lemma layout_suppress k Y : joins k → layout_ok Y → layout_ok (put SuppressSourceNewline (B (S k)) Y).
Proof. intros ? [Hc Hs]. split; intros q [[? ->]|Hq]%elem_put; eauto; done. Qed.

Lemma layout_fold {A} (f : FormatLayout → A → FormatLayout) l Y :
  (∀ Y x, x ∈ l → layout_ok Y → layout_ok (f Y x)) → layout_ok Y →
  layout_ok (List.fold_left f l Y).
Proof.
  revert Y. induction l as [|x l IH]; intros Y Hf HY; simpl; [done|].
  apply IH; [|apply Hf; [by left|done]]. intros. apply Hf; [by right|done].
Qed.

(** A computation of the layout succeeds and keeps it so. *)
Definition lays {S} (ok : S → Prop) (m : res Empty_set S) : Prop := ∃ s, m = Ok s ∧ ok s.

Lemma lays_ok {S} (ok : S → Prop) s : ok s → lays ok (Ok s).
Proof. by exists s. Qed.
Lemma lays_bind {S T} (m : res Empty_set S) (k : S → res Empty_set T) P Q :
  lays P m → (∀ s, P s → lays Q (k s)) → lays Q (res_bind m k).
Proof. intros (s & -> & Hs) Hk. by apply Hk. Qed.

Lemma lays_each {A S} (f : A → S → res Empty_set S) (P : S → Prop) l s :
  (∀ a s, a ∈ l → P s → lays P (f a s)) → P s → lays P (each f l s).
Proof.
  revert s. induction l as [|a l IH]; intros s Hf Hs; simpl; [by apply lays_ok|].
  eapply lays_bind; [apply Hf; [by left|exact Hs]|]. intros s' Hs'. apply IH; [|done].
  intros. apply Hf; [by right|done].
Qed.

Lemma lays_pred n : 0 < n → lays (λ _, True) (pred_offset n).
Proof. destruct n; [lia|]. intros _. by apply lays_ok. Qed.

(** The tokens of a range of tokens. *)
Lemma B_lt_iff i j : i < length tokens → B i < B j ↔ i < j.
Proof.
  intros Hi. split; [|intros; by apply B_lt].
  intros. destruct (decide (j ≤ i)) as [Hle%B_mono|]; lia.
Qed.

Lemma tokens_in_spn i j : i ≤ j → tokens_in tokens (B i) (B j) = Ok (sub tokens i j).
Proof.
  intros Hij. unfold tokens_in. cbv zeta.
  rewrite (partition_point_count (λ t, starts t <? B i) tokens i),
    (partition_point_count (λ t, ends t <=? B j) tokens j).
  - rewrite sub_min. by rewrite (proj2 (Nat.ltb_ge _ _)) by lia.
  - intros k t Ht. destruct (tok_lookup _ _ Ht) as (_ & Hs & Hk). unfold ends. rewrite Hs.
    cbn. rewrite Nat.leb_le. destruct (decide (k < j)) as [?|?]; split; try done; intros.
    + by apply B_mono.
    + pose proof (B_step k Hk). pose proof (B_mono j k ltac:(lia)). lia.
  - intros k t Ht. destruct (tok_lookup _ _ Ht) as (_ & Hs & Hk). unfold starts. rewrite Hs.
    cbn [span_start spn]. rewrite Nat.ltb_lt. by apply B_lt_iff.
Qed.
End Layout.

(** The insertions that need no reason. *)
Ltac lay :=
  repeat match goal with
  | |- layout_ok (put _ _ _) => apply layout_put; [done|done|]
  | |- layout_ok (if _ then _ else _) => case_match
  | |- layout_ok (match _ with _ => _ end) => case_match
  | |- layout_ok (List.fold_left _ _ _) => apply layout_fold; [intros ????|]
  | |- _ => assumption
  end.

Section Pieces.
Context `{E : Env} `{L : !Lexed}.

Lemma layout_spacing prev ts e Y : layout_ok Y → layout_ok (spacing_from prev ts e Y).
Proof.
  revert prev Y. induction ts as [|t ts IH]; intros prev Y HY; simpl; [done|]. apply IH. lay.
Qed.

Lemma solid_lt i : solid (S i) → i < length tokens.
Proof. intros (p & t & [= ->] & Ht & _). by eapply lookup_lt_Some. Qed.

(** A newline within a signature follows one of its tokens. *)
Lemma signature_joins i j t :
  solid (S i) → j ≤ length tokens →
  forallb (λ t, match kind t with Comment | DocumentationComment | LineContinuation => false
                | _ => true end) (sub tokens i j) = true →
  t ∈ sub tokens i j → kind t = Newline → ∃ k, starts t = B (S k) ∧ joins k.
Proof.
  intros (i' & u & [= <-] & Hu & Hku) Hj Hall [n Hn]%list_elem_of_lookup_1 Hk.
  rewrite forallb_forall in Hall. destruct n as [|n].
  { apply sub_lookup_iff in Hn as [Ht _]. rewrite Nat.add_0_r in Ht.
    rewrite Hu in Ht. injection Ht as ->. by rewrite Hk in Hku. }
  pose proof Hn as Hn'. apply sub_lookup_iff in Hn as [Ht Hlt].
  exists (i + n). rewrite Nat.add_succ_r in Ht. destruct (tok_lookup _ _ Ht) as (_ & Hs & _).
  unfold starts. rewrite Hs. split; [done|]. split; [lia|]. intros v Hv.
  assert (sub tokens i j !! n = Some v) as Hin by (apply sub_lookup_iff; split; [done|lia]).
  specialize (Hall v). rewrite <- list_elem_of_In in Hall.
  specialize (Hall (list_elem_of_lookup_2 _ _ _ Hin)). by destruct (kind v).
Qed.

Lemma layout_signature i j Y :
  solid (S i) → layout_ok Y → layout_ok (signature (sub tokens i j) Y).
Proof.
  intros Hi HY. rewrite <- sub_min, (Nat.min_l i) by (apply solid_lt in Hi; lia).
  pose proof (Nat.le_min_r j (length tokens)) as Hj. set (j' := j `min` length tokens) in *.
  unfold signature. cbv zeta. apply layout_spacing.
  destruct (_ && _) eqn:Hc; [|done]. apply andb_true_iff in Hc as [_ Hc].
  apply layout_fold; [|done]. intros Z t Hin HZ. case_bool_decide as Hk; [|done].
  cbn [andb]. case_match; [|done].
  destruct (signature_joins i j' t Hi Hj Hc Hin Hk) as (k & -> & ?). by apply layout_suppress.
Qed.

Lemma lays_body i j statements Y :
  0 < B j → layout_ok Y →
  lays layout_ok (declaration_body (mkBlock statements (spn i j)) Y).
Proof.
  intros Hj HY. unfold declaration_body. cbn [block_span].
  eapply lays_bind; [by apply lays_pred|].
  intros close _. apply lays_ok. lay.
Qed.

(** ** Lists in braces *)

Lemma follows_at b k u :
  tokens !! k = Some u → follows (B b) u = true ↔ b ≤ k ∧ is_layout (kind u) = false.
Proof.
  intros Hu. destruct (tok_lookup _ _ Hu) as (_ & Hs & Hk). unfold follows, starts. rewrite Hs.
  cbn [span_start spn]. rewrite andb_true_iff, Nat.leb_le, negb_true_iff.
  assert (is_trivia (kind u) = is_layout (kind u)) as -> by by destruct (kind u).
  split; intros [Hb ?]; (split; [|done]).
  - destruct (decide (b ≤ k)); [done|]. pose proof (B_lt k b). lia.
  - by apply B_mono.
Qed.

Lemma laid_stop b c k u :
  laid b c → b ≤ k → k ≤ c → tokens !! k = Some u → is_layout (kind u) = false → k = c.
Proof.
  intros [_ Hl] Hb Hk Hu Hn. destruct (decide (k = c)); [done|].
  rewrite (Hl k u) in Hn; [done|lia|done].
Qed.

(** The token after an entry is its comma or the closing brace. *)
Lemma lays_entry b c t p j Y :
  solid b → laid b c → tokens !! c = Some t → p ≤ b → c < j →
  kind t = OperatorToken Comma ∨ kind t = DelimiterToken RightBrace → layout_ok Y →
  ∃ next, find_next (follows (B b)) (sub tokens p j) = Some (next, sub tokens (S c) j) ∧
    layout_ok (separate (B b) next Y).
Proof.
  intros Hsolid Hlaid Ht Hpb Hcj Hk HY.
  assert (is_layout (kind t) = false) as Hnl by by destruct Hk as [-> | ->].
  destruct (find_next_sub (follows (B b)) tokens p j c t) as (k & u & Hf & ? & ? & Hu & Hfu);
    [destruct Hlaid; lia|done|done|by apply (proj2 (follows_at b c t Ht)); destruct Hlaid|].
  apply (follows_at b k u Hu) in Hfu as [Hbk Hlu].
  pose proof (laid_stop b c k u Hlaid Hbk ltac:(done) Hu Hlu) as ->.
  rewrite Ht in Hu. injection Hu as <-. exists t. split; [done|]. unfold separate.
  case_bool_decide as Hc; [lay|]. apply layout_put; [done|done|]. apply layout_comma; [|done].
  split; [done|]. exists c. split; [done|]. exists t. split; [done|]. by destruct Hk.
Qed.

(** Entries one after the other, each from where the last one's search ended. *)
Lemma lays_separate {A} (stop : A → nat) (before : A → FormatLayout → FormatLayout) hi j t l :
  (∀ a Y, layout_ok Y → layout_ok (before a Y)) → hi < j → tokens !! hi = Some t →
  kind t = DelimiterToken RightBrace →
  ∀ lo p Y, entries hi lo (List.map stop l) → p ≤ lo → layout_ok Y →
    lays (λ x, layout_ok x.2)
      (each (λ a '(remaining, Y), separate_step (stop a) (remaining, before a Y)) l
         (sub tokens p j, Y)).
Proof.
  intros Hbefore Hj Ht Hk. induction l as [|a l IH]; intros lo p Y He Hp HY; simpl.
  { by apply lays_ok. }
  assert (∀ b c u, B b = stop a → lo ≤ b → solid b → laid b c → tokens !! c = Some u →
    kind u = OperatorToken Comma ∨ kind u = DelimiterToken RightBrace → c < j →
    (∀ Y, layout_ok Y → lays (λ x, layout_ok x.2)
      (each (λ a '(remaining, Y), separate_step (stop a) (remaining, before a Y)) l
         (sub tokens (S c) j, Y))) →
    lays (λ x, layout_ok x.2)
      (let* s := let* ' (next, remaining) :=
                   expect_some (find_next (follows (stop a)) (sub tokens p j)) in
                 Ok (remaining, separate (stop a) next (before a Y)) in
       each (λ a '(remaining, Y), separate_step (stop a) (remaining, before a Y)) l s)) as Hstep.
  { intros b c u <- ??? Hu Hku ? Hrest.
    destruct (lays_entry b c u p j (before a Y)) as (next & -> & Hn); [done|done|done|lia|lia|done|auto|].
    cbn. by apply Hrest. }
  inversion He as [|? b ? Hs Hl|? b c u ? ? Hs Hl Hu Hku Hrest]; subst.
  - match goal with H : B b = _ |- _ => rewrite H end. apply (Hstep b hi t); auto. destruct l; [|done]. intros. by apply lays_ok.
  - pose proof (entries_le _ _ _ Hrest). match goal with H : B b = _ |- _ => rewrite H end. apply (Hstep b c u); auto; [lia|].
    intros. by apply (IH (S c)).
Qed.

Lemma entries_elem hi lo stops e t :
  entries hi lo stops → e ∈ stops → tokens !! hi = Some t → kind t = DelimiterToken RightBrace →
  ∃ b c u, e = B b ∧ lo ≤ b ∧ c ≤ hi ∧ solid b ∧ laid b c ∧ tokens !! c = Some u ∧
    (kind u = OperatorToken Comma ∨ kind u = DelimiterToken RightBrace).
Proof.
  intros He. revert e. induction He as [|lo b|lo b c u stops ? ? ? ? ? Hr IH]; intros e Hin Ht Hk.
  - by apply not_elem_of_nil in Hin.
  - apply list_elem_of_singleton in Hin as ->. exists b, hi, t. split_and!; auto.
  - pose proof (entries_le _ _ _ Hr). apply elem_of_cons in Hin as [->|Hin].
    + exists b, c, u. split_and!; auto. lia.
    + destruct (IH e Hin Ht Hk) as (b' & c' & u' & ? & ? & ? & ? & ? & ? & ?).
      exists b', c', u'. split_and!; auto.
      match goal with H : laid b c |- _ => destruct H end. lia.
Qed.

Lemma inner_source lo hi d m :
  inner lo hi d (import_source_tree m) →
  ∃ a b, import_source_span m = spn a b ∧ lo ≤ a ∧ a ≤ b ∧ b ≤ hi.
Proof.
  intros H. assert (∃ cs, import_source_tree m = Tree (import_source_span m) PlainNode cs) as [cs Hm]
    by (destruct m; by eexists).
  rewrite Hm in H. apply inner_parts in H as (a & b & ? & ? & ? & ? & _); [|done]. by exists a, b.
Qed.

Lemma inner_tree_inv lo hi d s l cs :
  inner lo hi d (Tree s l cs) → l ≠ TokenPart →
  ∃ i j, lo ≤ i ∧ i ≤ j ∧ j ≤ hi ∧ s = spn i j ∧ label_ok i j d l ∧ Forall (inner i j d) cs.
Proof. inversion 1; subst; [|done]. intros _. by exists i, j. Qed.

Lemma lays_members lo hi d from members s Y :
  inner lo hi d (import_source_tree from) → inner lo hi d (members_tree from members s) →
  layout_ok Y → lays layout_ok (member_import from members s tokens Y).
Proof.
  intros (a & b & Hfrom & ? & ? & ?)%inner_source Hs HY.
  apply inner_tree_inv in Hs as (i & j & ? & ? & ? & -> & [Hafter Hbr] & _); [|done].
  destruct Hbr as (open & ? & ? & _ & (t & Ht & Hkt) & He).
  pose proof (lookup_lt_Some _ _ _ Ht). assert (b ≤ i) as Hbi.
  { rewrite Hfrom in Hafter. cbn in Hafter. destruct (decide (b ≤ i)); [done|].
    pose proof (B_lt i b). lia. }
  unfold member_import. cbn [span_start span_end spn]. rewrite tokens_in_spn by done.
  cbn [res_bind]. rewrite Hfrom. cbn [span_end spn]. rewrite tokens_in_spn by done. cbn [res_bind].
  eapply lays_bind; [apply lays_pred; pose proof (B_lt i j); lia|]. intros close _.
  case_match; [|apply lays_ok; lay].
  apply lays_each; [|lay]. intros m Z Hm HZ.
  destruct (entries_elem _ _ _ (span_end (member_span m)) t He) as (b' & c & u & Hb & ? & ? & ? & ? & ? & ?);
    [by apply (list_elem_of_fmap_2 (λ m, span_end (member_span m)))|done|done|].
  destruct (lays_entry b' c u i j (put NewlineBefore (span_start (member m)) Z)) as (next & Hf & Hn);
    [done|done|done|lia|lia|done|lay|].
  rewrite Hb, Hf. cbn. by apply lays_ok.
Qed.

Lemma lays_import lo hi d e Y :
  Forall (inner lo hi d) (import_entry_trees e) → layout_ok Y →
  lays layout_ok (import_layout tokens e Y).
Proof.
  destruct e as [from alias|from members s]; intros He HY; [by apply lays_ok|].
  inversion He as [|? ? Hfrom Hm]; subst. apply Forall_inv in Hm. by eapply lays_members.
Qed.

Lemma lays_group i j d entries Y :
  label_ok i j d (statement_label (ModuleImportGroup entries)) → layout_ok Y →
  lays layout_ok (group_layout (spn i j) entries tokens Y).
Proof.
  intros [_ (open & ? & ? & (u & Hu & Hku) & (t & Ht & Hkt) & He)] HY. unfold group_layout.
  cbn [span_start span_end spn]. rewrite tokens_in_spn by lia. cbn [res_bind].
  destruct (find_next_sub (λ t, bool_decide (kind t = DelimiterToken LeftBrace)) tokens i j open u)
    as (k & v & -> & _); [done|done|done|by apply bool_decide_eq_true|]. cbn [expect_some res_bind].
  pose proof (lookup_lt_Some _ _ _ Ht).
  eapply lays_bind; [apply lays_pred; pose proof (B_lt i j); lia|]. intros close _.
  eapply lays_bind; [eapply (lays_separate import_entry_end
    (λ e, put NewlineBefore (span_start (import_source_span (import_entry_source e)))));
    [intros; lay|idtac|exact Ht|exact Hkt|exact He|idtac|lay]; lia|].
  intros [rest Z] HZ. by apply lays_ok.
Qed.

Lemma braced_bounds i j stops : braced i j stops → i < j ∧ i < length tokens ∧ j ≤ length tokens.
Proof.
  intros (o & ? & ? & _ & (t & Ht & _) & _). apply lookup_lt_Some in Ht. lia.
Qed.

Lemma lays_action i j d effects es statements s clauses cs Y :
  solid (S i) → inner i j d (effects_tree effects es) →
  inner i j d (Tree s (BlockNode clauses) cs) → layout_ok Y →
  lays layout_ok (action_layout (spn i j) effects es (mkBlock statements s) tokens Y).
Proof.
  intros Hi Hes Hs HY.
  apply inner_tree_inv in Hs as (k & l & ? & ? & ? & -> & [Hkl _] & _); [|done].
  apply inner_tree_inv in Hes as (a & b & ? & ? & ? & -> & [_ Hbr] & _); [|done].
  pose proof (braced_bounds _ _ _ Hbr) as (? & ? & ?).
  destruct Hbr as (open & ? & ? & _ & (t & Ht & Hkt) & He).
  unfold action_layout. cbn [span_start span_end spn block_span]. rewrite !tokens_in_spn by lia.
  cbn [res_bind].
  eapply lays_bind; [apply lays_pred; pose proof (B_lt a b); lia|]. intros close _.
  apply solid_lt in Hi as Hlt.
  eapply lays_bind; [apply lays_body; [pose proof (B_lt i l); lia|]|].
  { pose proof (layout_signature i k Y Hi HY). lay. }
  intros Z HZ. eapply lays_bind;
    [eapply (lays_separate (λ r, span_end (effect_span r)) (λ _ Y, Y));
       [done|idtac|exact Ht|exact Hkt|exact He|idtac|done]; lia|].
  intros [rest Z'] HZ'. apply lays_ok. apply layout_fold; [intros ????; lay|].
  by apply layout_spacing.
Qed.

Lemma lays_leaf i j d k Y :
  i ≤ j → label_ok i j d (statement_label k) → Forall (inner i j d) (statement_children k) →
  layout_ok Y → lays layout_ok (leaf_layout tokens k (spn i j) Y).
Proof.
  intros Hij Hl Hc HY.
  destruct k as [| |entries|names| | | |target value| | | | | | | | | | | | |]; try by apply lays_ok.
  - by eapply lays_group.
  - cbn. rewrite tokens_in_spn by done. apply lays_ok. repeat (apply layout_fold; [intros ????; unfold commas_step; lay|]).
    done.
  - cbn. destruct (node_kind value) as [| | | | | | | | | | | |l o r] eqn:Hv; try by apply lays_ok.
    cbn in Hc. unfold assigned_tree in Hc. rewrite Hv in Hc.
    assert (∃ i' j', node_span o = spn i' j' ∧ i' ≤ j') as (i' & j' & -> & ?).
    { apply Forall_inv_tail, Forall_inv in Hc.
      assert (∃ label, label ≠ TokenPart ∧
        inner i j d (Tree (node_span value) label [expr_tree l; leaf (node_span o); expr_tree r]))
        as (label & ? & Hb).
      { case_bool_decide; [by exists PlainNode|]. exists (ExpressionNode (EBinary l o r)). split; [done|].
        unfold expr_tree in Hc at 1. rewrite Hv in Hc. exact Hc. }
      apply inner_parts in Hb as (? & ? & ? & ? & ? & _ & Hb); [|done].
      apply Forall_inv_tail, Forall_inv, inner_parts in Hb as (i' & j' & ? & ? & ? & ? & _); [eauto|done]. }
    cbn [span_start span_end spn]. rewrite tokens_in_spn by done. apply lays_ok.
    apply layout_fold; [intros ????; lay|done].
  - cbn. rewrite tokens_in_spn by done. apply lays_ok. apply layout_fold; [intros ????; lay|done].
Qed.

Definition block_statements (b : Block) : list Statement := let 'mkBlock ss _ := b in ss.

(** What a kind's nodes need of its statement. *)
Definition laid_out (i j : nat) (k : StatementKind) (Y : FormatLayout) : Prop :=
  i ≤ j → label_ok i j 0 (statement_label k) → Forall (inner i j 0) (statement_children k) →
  layout_ok Y → lays layout_ok (statement_layout tokens k (spn i j) Y).

Lemma lays_statements lo hi l Y :
  Forall (λ st : Statement, ∀ i j Y, laid_out i j (node_kind st) Y) l →
  Forall (inner lo hi 0) (List.map statement_tree l) → layout_ok Y →
  lays layout_ok (statements_layout tokens l Y).
Proof.
  intros Hl Hin HY. apply lays_each; [|done]. intros st Z Hst HZ.
  rewrite list.Forall_forall in Hl. specialize (Hl st Hst).
  eapply Forall_map_in in Hin; [|exact Hst].
  assert (statement_label (node_kind st) ≠ TokenPart) as Hlabel by by destruct (node_kind st).
  apply inner_tree_inv in Hin as (i & j & ? & ? & ? & Hs & ? & ?); [|done].
  rewrite Hs. by apply Hl.
Qed.

Lemma lays_imports i j k Y :
  Forall (inner i j 0) (statement_children k) → layout_ok Y →
  lays layout_ok (each (import_layout tokens) (module_imports k) Y).
Proof.
  intros Hk HY.
  assert (∀ l, Forall (λ e, Forall (inner i j 0) (import_entry_trees e)) l →
    lays layout_ok (each (import_layout tokens) l Y)) as Hl.
  { intros l Hl. apply lays_each; [|done]. intros e Z He HZ.
    rewrite list.Forall_forall in Hl. by eapply lays_import; [apply Hl|]. }
  destruct k; cbn [module_imports]; try (by apply lays_ok); apply Hl.
  - constructor; [exact Hk|constructor].
  - apply Forall_map. by apply Forall_concat.
Qed.

Lemma lays_block lo hi body Y :
  Forall (λ st : Statement, ∀ i j Y, laid_out i j (node_kind st) Y) (block_statements body) →
  inner lo hi 0 (block_tree body) → layout_ok Y →
  lays layout_ok (statements_layout tokens (block_statements body) Y).
Proof.
  destruct body as [ss s]. intros Hss Hb HY.
  apply inner_tree_inv in Hb as (i & j & ? & ? & ? & _ & _ & Hb); [|done].
  by eapply lays_statements.
Qed.

(** A block's statements, given the proof for each kind. *)
Ltac its_statements lays ss :=
  clear - lays; induction ss as [|[? ?] ss IH];
  [constructor|constructor; [exact (lays _)|exact IH]].
Ltac a_block lays body H :=
  destruct body as [ss s];
  eapply (lays_block _ _ (mkBlock ss s)); [cbn [block_statements]|exact H|try done];
  its_statements lays ss.

Fixpoint lays_statement k {struct k} : ∀ i j Y, laid_out i j k Y
with lays_if n {struct n} : ∀ lo hi Y,
  Forall (inner lo hi 0) (if_children n) → layout_ok Y → lays layout_ok (if_layout tokens n Y).
Proof.
  - intros i j Y Hij Hl Hc HY. pose proof (lays_leaf i j 0 k) as Hleaf.
    destruct k as [| | | | | | | | | |doc name tps ps ret body
      |doc name tps ps ret effects es body| |n|c body|x e body|e arms|tb x cb| | |];
      cbn [statement_layout]; (eapply lays_bind; [by eapply lays_imports|]); intros Z HZ;
      try (by apply Hleaf); clear Hleaf HY Y.
    + apply Forall_inv_tail, Forall_app in Hc as [_ Hc].
      apply Forall_app in Hc as [_ Hc]. apply Forall_app in Hc as [_ Hc].
      apply Forall_inv in Hc. pose proof Hc as Hspan.
      destruct body as [ss s]. apply inner_tree_inv in Hspan as (a & b & ? & ? & ? & -> & Hb & _); [|done].
      cbn [block_span span_start span_end spn]. rewrite tokens_in_spn by done. cbn [res_bind].
      destruct Hb as [Hab _]. cbn in Hl. apply solid_lt in Hl as Hlt.
      eapply lays_bind; [apply lays_body; [pose proof (B_lt i b); lia|by apply layout_signature]|].
      intros Y HY. eapply (lays_block _ _ (mkBlock ss (spn a b))); [cbn [block_statements]|exact Hc|done].
      its_statements lays_statement ss.
    + apply Forall_inv_tail, Forall_app in Hc as [_ Hc]. apply Forall_app in Hc as [_ Hc].
      inversion Hc as [|? ? _ Hc']; subst. clear Hc.
      inversion Hc' as [|? ? Hes Hb]; subst. apply Forall_inv in Hb.
      destruct body as [ss s]. eapply lays_bind; [by eapply lays_action|]. intros Y HY.
      apply inner_tree_inv in Hb as (a & b & ? & ? & ? & _ & _ & Hb); [|done].
      eapply (lays_statements a b ss); [|exact Hb|done].
      its_statements lays_statement ss.
    + by apply (lays_if n i j).
    + apply Forall_inv_tail, Forall_inv in Hc. a_block lays_statement body Hc.
    + apply Forall_inv_tail, Forall_inv_tail, Forall_inv in Hc. a_block lays_statement body Hc.
    + apply Forall_inv_tail in Hc. revert Z HZ. induction arms as [|[p g body sp] arms IH]; intros Z HZ.
      { by apply lays_ok. }
      apply Forall_cons_1 in Hc as [Ha Hc]. cbn [each]. eapply lays_bind.
      * apply inner_parts in Ha as (a & b & _ & _ & _ & _ & Ha); [|done].
        apply Forall_inv_tail, Forall_app in Ha as [_ Ha]. apply Forall_inv in Ha.
        a_block lays_statement body Ha.
      * intros Y HY. by apply IH.
    + eapply lays_bind; [apply Forall_inv in Hc; a_block lays_statement tb Hc|].
      intros Y HY. apply Forall_inv_tail, Forall_inv_tail, Forall_inv in Hc.
      a_block lays_statement cb Hc.
  - destruct n as [c then_block else_branch]. intros lo hi Y Hc HY. cbn [if_layout].
    cbn [if_children app] in Hc. apply Forall_inv_tail in Hc.
    eapply lays_bind; [apply Forall_inv in Hc; a_block lays_statement then_block Hc|].
    intros Z HZ. apply Forall_inv_tail in Hc. destruct else_branch as [[body|n]|].
    + apply Forall_inv in Hc. a_block lays_statement body Hc.
    + apply Forall_inv, inner_parts in Hc as (a & b & _ & _ & _ & _ & Hc); [|done].
      destruct n as [n s]. by apply (lays_if n a b).
    + by apply lays_ok.
Qed.
End Pieces.

(** ** The text

    [printed f ts out]: [out] is the tokens [ts] in order without their blanks;
    before each come line breaks and spaces, after it a comma if a closing brace
    follows, and the line break that ends a comment is kept. *)
Definition closes (ts : list Token) : Prop :=
  ∃ u rest, find_next (λ t, negb (is_trivia (kind t))) ts = Some (u, rest) ∧
    kind u = DelimiterToken RightBrace.
Definition ends_line (ts : list Token) : Prop :=
  match ts with u :: _ => kind u = Newline | [] => True end.

Inductive printed (f : SourceFile) : list Token → str → Prop :=
| PrintedEnd n : printed f [] (replicate n 10%Z)
| PrintedBlank t ts out : is_gap (kind t) = true → printed f ts out → printed f (t :: ts) out
| PrintedToken t ts x breaks spaces comma out :
    is_gap (kind t) = false → token_text t f = Ok x →
    comma = [] ∨ (comma = bs "," ∧ is_comment (kind t) = false ∧ closes ts) →
    (is_comment (kind t) = true → ends_line ts → out = [] ∨ head out = Some 10%Z) →
    printed f ts out →
    printed f (t :: ts) (replicate breaks 10%Z ++ replicate spaces 32%Z ++ x ++ comma ++ out).

Lemma printed_break f ts out : printed f ts out → printed f ts (newline ++ out).
Proof.
  induction 1 as [n|t ts out Ht _ IH|t ts x b m comma out Ht Hx Hc Hl Hp _].
  - apply (PrintedEnd f (S n)).
  - by constructor.
  - by apply (PrintedToken f t ts x (S b) m comma out).
Qed.

Lemma printed_end f ts out : printed f ts out → printed f ts (out ++ newline).
Proof.
  induction 1 as [n|t ts out Ht _ IH|t ts x b m comma out Ht Hx Hc Hl Hp IH].
  - replace (replicate n 10%Z ++ newline) with (replicate (n + 1) 10%Z);
      [constructor|by rewrite replicate_add].
  - by constructor.
  - rewrite <- !app_assoc. apply PrintedToken; try done.
    intros Hk He. right. destruct (Hl Hk He) as [-> | Hh]; [done|]. by destruct out.
Qed.

Lemma end_line_cases text :
  (end_line text = text ∧ (text = [] ∨ last text = Some 10%Z)) ∨ end_line text = text ++ newline.
Proof.
  unfold end_line. destruct (last text) as [b|] eqn:Hb.
  - destruct (Z.eqb_spec b 10) as [->|]; [left; auto|by right].
  - left. split; [done|]. left. by apply last_None.
Qed.

Lemma prefix_spaces n line space : ∃ m, prefix n line space = replicate m 32%Z.
Proof.
  unfold prefix. destruct line; [|destruct space; [by exists 1|by exists 0]].
  induction n as [|n [m IH]]; [by exists 0|]. exists (4 + m). cbn [indentation]. by rewrite IH.
Qed.

(** ** Formatting a script *)

Section Script.
Context `{E : Env} `{L : !Lexed}.

Lemma lays_script sc spans :
  script_ok sc → interpolations_ok source spans →
  lays layout_ok (layout_for_script sc tokens spans).
Proof.
  intros (_ & (hi & Hin) & _) Hspans. unfold layout_for_script. eapply lays_bind.
  - apply (lays_each _ layout_ok); [|apply layout_empty]. intros i Y Hi HY.
    unfold interpolations_ok in Hspans. rewrite list.Forall_forall in Hspans.
    destruct (Hspans i Hi) as [_ Hlt]. eapply lays_bind; [apply lays_pred; lia|].
    intros close _. apply lays_ok. lay.
  - intros Y HY. eapply (lays_statements 0 hi); [|exact Hin|].
    + apply list.Forall_forall. intros st _ i j Z. apply lays_statement.
    + apply layout_fold; [|done]. intros Z t _ HZ. unfold spread_step. lay.
Qed.
End Script.

Section Text.
Context `{E : Env} `{L : !Lexed} (Y : FormatLayout) (HY : layout_ok Y).

Lemma B_inj a b : b < length tokens → B a = B b → a = b.
Proof.
  intros Hb Hab. destruct (lt_eq_lt_dec a b) as [[Hlt|]|Hlt]; [|done|].
  - pose proof (B_lt a b). lia.
  - pose proof (B_lt b a). lia.
Qed.

Lemma tok_ends k t : tok k t → starts t = B k ∧ ends t = B (S k).
Proof. intros (_ & Hs & _). unfold starts, ends. by rewrite Hs. Qed.

Lemma comma_closes k t :
  tok k t → has Y CommaAfter (ends t) = true →
  is_comment (kind t) = false ∧ closes (drop (S k) tokens).
Proof.
  intros Ht Hc. destruct (tok_ends k t Ht) as [_ He]. rewrite He in Hc.
  apply bool_decide_eq_true, HY in Hc as (b & Hb & (p & v & -> & Hv & Hkv) & hi & Hlaid & u & Hu & Hku).
  pose proof (lookup_lt_Some _ _ _ Hu). pose proof (proj1 Hlaid).
  apply B_inj in Hb as [= ->]; [|lia]. destruct Ht as (Ht & _). rewrite Ht in Hv. injection Hv as <-.
  split; [by destruct (kind t)|].
  destruct (find_next_sub (λ t, negb (is_trivia (kind t))) tokens (S p) (length tokens) hi u)
    as (k & w & Hf & ? & ? & Hw & Hkw); [done|done|done|by rewrite Hku|].
  assert (sub tokens (S p) (length tokens) = drop (S p) tokens) as Hsub.
  { unfold sub. apply take_ge. by rewrite length_drop. }
  rewrite Hsub in Hf. exists w, (sub tokens (S k) (length tokens)). split; [done|].
  apply negb_true_iff in Hkw.
  assert (is_layout (kind w) = false) as Hlw by by destruct (kind w).
  pose proof (laid_stop _ _ k w Hlaid ltac:(done) ltac:(done) Hw Hlw) as ->. congruence.
Qed.

Lemma newline_kept k t u :
  tok (S k) t → tokens !! k = Some u → is_comment (kind u) = true →
  has Y SuppressSourceNewline (starts t) = false.
Proof.
  intros Ht Hu Hk. destruct (tok_ends _ t Ht) as [Hs _]. rewrite Hs.
  apply bool_decide_eq_false. intros (k' & HB & Hlt & Hj)%HY.
  apply B_inj in HB as [= ->]; [|done]. by rewrite (Hj u Hu) in Hk.
Qed.

(** A comment was the last token before position [k]. *)
Definition after_comment (k : nat) : Prop :=
  ∃ k' u, k = S k' ∧ tokens !! k' = Some u ∧ is_comment (kind u) = true.

(** What the rest of the tokens adds to a text. *)
Definition adds (k : nat) (s : FormatState) (out : str) : Prop :=
  printed source (drop k tokens) out ∧
  (after_comment k → suppress_source_newline s = false → ends_line (drop k tokens) →
   out = [] ∨ head out = Some 10%Z).

Lemma format_syntax k t x s out :
  tok k t → is_gap (kind t) = false → kind t ≠ LineContinuation → token_text t source = Ok x →
  (∀ s', s' = syntax_step t x (drop (S k) tokens) Y s → adds (S k) s' out) →
  ∃ out', output (syntax_step t x (drop (S k) tokens) Y s) ++ out = output s ++ out' ∧
    printed source (drop k tokens) out'.
Proof.
  intros Ht Hg Hlc Hx Hout. specialize (Hout _ eq_refl). destruct Hout as [Hp Hc].
  pose proof Ht as (Hl & _). rewrite (drop_S _ _ _ Hl). revert Hc. unfold syntax_step.
  destruct (closes_indenting_brace _ _ _ _) as [cl open]. cbv zeta.
  set (breaks := has Y NewlineBefore (starts t) && _).
  set (line := if breaks then true else _). set (space := if has Y NoSpaceBefore _ then _ else _).
  destruct (prefix_spaces (if cl then indent s - 1 else indent s) line space) as [m ->].
  set (comma := if has Y CommaAfter (ends t) then bs "," else []).
  assert (comma = [] ∨ (comma = bs "," ∧ is_comment (kind t) = false ∧ closes (drop (S k) tokens)))
    as Hcomma.
  { unfold comma. destruct (has Y CommaAfter (ends t)) eqn:Hca; [right|by left].
    split; [done|by apply comma_closes]. }
  assert (∀ o, (if has Y CommaAfter (ends t) then o ++ bs "," else o) = o ++ comma) as ->
    by (intros o; unfold comma; case_match; by rewrite ?app_nil_r).
  assert ((if breaks then output s ++ newline else output s)
    = output s ++ replicate (if breaks then 1 else 0) 10%Z) as -> by (case_match; by rewrite ?app_nil_r).
  destruct (_ && negb (trailing_comment _)); cbn [output suppress_source_newline]; intros Hc.
  - exists (replicate (if breaks then 1 else 0) 10%Z ++ replicate m 32%Z ++ x ++ comma ++ (newline ++ out)).
    split; [by rewrite <- !app_assoc|]. apply PrintedToken; try done; [by right|].
    by apply printed_break.
  - exists (replicate (if breaks then 1 else 0) 10%Z ++ replicate m 32%Z ++ x ++ comma ++ out).
    split; [by rewrite <- !app_assoc|]. apply PrintedToken; try done.
    intros Hk He. apply Hc; [|done|done]. by exists k, t.
Qed.

Lemma adds_blank k t s out :
  tokens !! k = Some t → kind t = Whitespace → printed source (drop (S k) tokens) out → adds k s out.
Proof.
  intros Ht Hk Hp. unfold adds. rewrite (drop_S _ _ _ Ht). split; [constructor; [by rewrite Hk|done]|].
  cbn. by rewrite Hk.
Qed.

Lemma adds_newline k t s s' out :
  tok k t → kind t = Newline → s' = newline_step t Y s → printed source (drop (S k) tokens) out →
  ∃ out', output s' ++ out = output s ++ out' ∧ adds k s out'.
Proof.
  intros Ht Hk -> Hp. pose proof Ht as (Hl & _). unfold adds. rewrite (drop_S _ _ _ Hl).
  assert (∀ o, printed source (drop (S k) tokens) o → printed source (t :: drop (S k) tokens) o)
    as Hb by (intros; constructor; [by rewrite Hk|done]).
  unfold newline_step. destruct (has Y SuppressSourceNewline (starts t)) eqn:Hsup.
  - exists out. split; [done|]. split; [by apply Hb|]. intros (k' & u & -> & Hu & Hku).
    by rewrite (newline_kept k' t u) in Hsup.
  - cbn [output]. destruct (suppress_source_newline s).
    + exists out. split; [done|]. split; [by apply Hb|done].
    + exists (newline ++ out). split; [by rewrite <- app_assoc|].
      split; [by apply Hb, printed_break|by right].
Qed.

Lemma adds_continuation k t x s out :
  tok k t → kind t = LineContinuation → token_text t source = Ok x →
  printed source (drop (S k) tokens) out →
  ∃ out', output (continuation_step t x s) ++ out = output s ++ out' ∧ adds k s out'.
Proof.
  intros Ht Hk Hx Hp. pose proof Ht as (Hl & _). unfold adds. rewrite (drop_S _ _ _ Hl). cbn.
  destruct (prefix_spaces (indent s) (at_line_start s) (pending_space s)) as [m ->].
  exists (replicate 0 10%Z ++ replicate m 32%Z ++ x ++ [] ++ out).
  split; [by rewrite <- !app_assoc|]. split; [|by rewrite Hk].
  apply PrintedToken; try done; [by rewrite Hk|by left|by rewrite Hk].
Qed.

Lemma format_loop_ok k s :
  ∃ s' out, format_loop source Y (drop k tokens) s = Ok s' ∧ output s' = output s ++ out ∧
    adds k s out.
Proof.
  remember (length tokens - k) as n eqn:Hn. revert k s Hn.
  induction n as [|n IH]; intros k s Hn.
  { unfold adds. rewrite drop_ge by lia. exists s, []. split; [done|]. split; [by rewrite app_nil_r|].
    split; [apply (PrintedEnd _ 0)|by left]. }
  assert (is_Some (tokens !! k)) as [t Hl] by (apply lookup_lt_is_Some; lia).
  pose proof (tok_lookup _ _ Hl) as Ht. destruct (tok_text k t Ht) as [x Hx].
  fold (token_text t source) in Hx. rewrite (drop_S _ _ _ Hl). cbn [format_loop].
  assert (∀ s1, ∃ s' out, format_loop source Y (drop (S k) tokens) s1 = Ok s' ∧
    output s' = output s1 ++ out ∧ adds (S k) s1 out) as Hrest by (intros; apply IH; lia).
  unfold format_step. rewrite Hx. cbn [expect res_bind].
  assert (kind t = Whitespace ∨ kind t = Newline ∨ kind t = LineContinuation ∨
    (is_gap (kind t) = false ∧ kind t ≠ LineContinuation)) as [Hk|[Hk|[Hk|[Hg Hlc]]]]
    by (destruct (kind t); auto).
  - rewrite Hk. cbn [res_bind]. destruct (Hrest (source_space Y s)) as (s' & out & -> & Ho & Ha).
    exists s', out. split; [done|]. split; [done|]. eapply adds_blank; [done..|apply Ha].
  - rewrite Hk. cbn [res_bind]. destruct (Hrest (newline_step t Y s)) as (s' & out & -> & Ho & Ha).
    destruct (adds_newline k t s _ out Ht Hk eq_refl (proj1 Ha)) as (out' & Ho' & Ha').
    exists s', out'. split; [done|]. split; [congruence|done].
  - rewrite Hk. cbn [res_bind]. destruct (Hrest (continuation_step t x s)) as (s' & out & -> & Ho & Ha).
    destruct (adds_continuation k t x s out Ht Hk Hx (proj1 Ha)) as (out' & Ho' & Ha').
    exists s', out'. split; [done|]. split; [congruence|done].
  - set (s1 := syntax_step t x (drop (S k) tokens) Y s).
    destruct (Hrest s1) as (s' & out & Hloop & Ho & Ha).
    destruct (format_syntax k t x s out Ht Hg Hlc Hx) as (out' & Ho' & Hp'); [by intros ? ->|].
    exists s', out'. split; [|split; [by rewrite Ho|]].
    + fold s1. by destruct (kind t).
    + split; [done|]. unfold adds. rewrite (drop_S _ _ _ Hl). cbn. intros _ _ Hk. by rewrite Hk in Hg.
Qed.

Lemma format_tokens_ok :
  ∃ text, format_tokens source tokens Y = Ok text ∧ printed source tokens text ∧
    (text = [] ∨ last text = Some 10%Z).
Proof.
  destruct (format_loop_ok 0 format_start) as (s' & out & Hl & Ho & Hp & _).
  rewrite drop_0 in Hl, Hp. unfold format_tokens. rewrite Hl. cbn [res_bind].
  cbn in Ho. rewrite Ho. eexists. split; [done|].
  destruct (end_line_cases out) as [[-> Hend]| ->]; [by split|].
  split; [by apply printed_end|]. right. apply last_snoc.
Qed.
End Text.

Lemma format_ok f :
  source_wf f →
  ∃ o text, parse_opaal f = Ok o ∧
    format_source_opaal f = Ok (match o with
                                | OutcomeComplete _ => FormatComplete text
                                | OutcomeIncomplete i => FormatIncomplete i
                                | OutcomeInvalid ds => FormatInvalid ds
                                end) ∧
    ∀ sc ts, o = OutcomeComplete sc → lex_opaal f = Ok ts →
      printed f ts text ∧ (text = [] ∨ last text = Some 10%Z).
Proof.
  intros Hf. destruct (parse_ok f Hf) as (ts & o & spans & Hl & Hp & Ho & Hspans & Hcomplete).
  assert (parse_opaal f = Ok o) as Hparse.
  { unfold parse_opaal, parse_opaal_with_control. change (λ _ : nat, false) with uncontrolled.
    by rewrite Hp. }
  exists o. unfold format_source_opaal, parse_opaal_with_interpolation_spans.
  change (λ _ : nat, false) with uncontrolled. rewrite Hp. cbn [res_bind].
  destruct o as [sc|i|ds]; [|by exists []..].
  destruct (Hcomplete sc eq_refl) as [L Hsc].
  destruct (lays_script (E:=mkEnv f ts uncontrolled) sc spans Hsc Hspans) as (Y & HY & Hok).
  destruct (format_tokens_ok (E:=mkEnv f ts uncontrolled) Y Hok) as (text & Htext & Hprinted).
  exists text. split; [done|]. rewrite Hl. cbn [res_bind source tokens] in *.
  rewrite HY. cbn [res_bind]. rewrite Htext. split; [done|]. intros sc' ts' _ [= <-]. done.
Qed.

(** ** Theorems *)

(** C6: Formatting returns on every source text, with a text when parsing
    completes and with the parser's outcome when it does not. *)
Theorem format_total (f : SourceFile) :
  source_wf f →
  ∃ o, parse_opaal f = Ok o ∧
    match o with
    | OutcomeComplete _ => ∃ text, format_source_opaal f = Ok (FormatComplete text)
    | OutcomeIncomplete i => format_source_opaal f = Ok (FormatIncomplete i)
    | OutcomeInvalid ds => format_source_opaal f = Ok (FormatInvalid ds)
    end.
Proof.
  intros Hf. destruct (format_ok f Hf) as (o & text & Hp & Hfmt & _). exists o. split; [done|].
  destruct o; [by exists text|done..].
Qed.

(** C5: A formatted text is the source's tokens in order: only blanks between
    them differ, commas are added only before a closing brace, the line break
    after a comment stays, and the text ends with its last line. *)
Theorem format_keeps_tokens (f : SourceFile) (ts : list Token) (text : str) :
  source_wf f → lex_opaal f = Ok ts → format_source_opaal f = Ok (FormatComplete text) →
  printed f ts text ∧ (text = [] ∨ last text = Some 10%Z).
Proof.
  intros Hf Hl Hfmt. destruct (format_ok f Hf) as (o & text' & Hp & Hfmt' & Hok).
  rewrite Hfmt in Hfmt'. destruct o as [sc| |]; [|done..]. injection Hfmt' as <-. by apply (Hok sc).
Qed.

(** ** Witnesses *)

Definition rough_file : SourceFile :=
  script_file (bs "import {std::math # last" ++ newline ++ bs "}" ++ newline ++
    bs "def f ( x :Int ) {  x+1 } # end").
Definition smooth_text : str :=
  bs "import {" ++ newline ++ bs "    std::math, # last" ++ newline ++ bs "}" ++ newline ++
  bs "def f (x: Int)" ++ newline ++ bs "{" ++ newline ++ bs "    x+1" ++ newline ++ bs "} # end" ++
  newline.

Lemma rough_file_wf : source_wf rough_file.
Proof. apply script_file_wf, utf8b_spec. by vm_compute. Qed.

Lemma rough_file_formats : format_source_opaal rough_file = Ok (FormatComplete smooth_text).
Proof. by vm_compute. Qed.

Lemma format_total_witness :
  source_wf rough_file ∧ ∃ o, parse_opaal rough_file = Ok o.
Proof.
  split; [apply rough_file_wf|].
  destruct (format_total rough_file rough_file_wf) as (o & Ho & _). by exists o.
Defined.

Lemma format_keeps_tokens_witness :
  ∃ ts, lex_opaal rough_file = Ok ts ∧ printed rough_file ts smooth_text.
Proof.
  eexists. split; [by vm_compute|].
  apply (format_keeps_tokens rough_file _ smooth_text rough_file_wf);
    [by vm_compute|apply rough_file_formats].
Defined.

(** ** Where the code departs from what it says *)

(** A comment after a spread, or between the name and the list of an import in
    a group, is joined to the token before it, where [#] begins no comment: the
    formatted source is invalid. *)
Definition spread_comment : SourceFile :=
  script_file (bs "let x = [ ... # c" ++ newline ++ bs "a ]").
Definition import_comment : SourceFile :=
  script_file (bs "import { std::math # c" ++ newline ++ bs "::{a} }").

Definition formatted (f : SourceFile) : str :=
  match format_source_opaal f with Ok (FormatComplete text) => text | _ => [] end.

Lemma formatted_comments_glued :
  formatted spread_comment = bs "let x = [ ...# c" ++ newline ++ bs "a ]" ++ newline ∧
  reported_at (parse_opaal (script_file (formatted spread_comment))) =
    [(13, bs "expected an expression"); (19, bs "expected a statement boundary")] ∧
  formatted import_comment =
    bs "import {" ++ newline ++ bs "    std::math# c" ++ newline ++ bs "    ::{a}," ++ newline ++
    bs "}" ++ newline ∧
  reported_at (parse_opaal (script_file (formatted import_comment))) =
    [(22, bs "import entries require `,`"); (37, bs "expected a command word")].
Proof. split_and!; vm_compute; done. Qed.
