(* ===== verification/Status.v ===== *)
(** * Statuses ([opaal-runtime/src/value.rs])

    Durations, signals and the completion statuses of stages and pipelines. *)
From S2P Require Import Prelude.

(** A signed count of nanoseconds ([i128]). *)
Definition Duration : Type := Z.

Record Signal := mkSignal { signal_number : option Z; signal_name : option str }.

#[export] Instance Signal_eq_dec : EqDecision Signal.
Proof. solve_decision. Defined.

(** [Signal::new]: at least one identity field. *)
Definition Signal_new (number : option Z) (name : option str) : res unit Signal :=
  match number, name with
  | None, None => Err tt
  | _, _ => Ok (mkSignal number name)
  end.

Inductive Status := mkStatus {
  code : option Z;
  signal : option Signal;
  stages : list Status;
  duration : Duration
}.

Inductive InvalidStatus :=
| NegativeDuration
| EmptyAggregate
| SelectedStageOutOfBounds (selected stages : nat)
| NestedAggregate.

Local Open Scope res_scope.

Definition validate_status_duration (d : Duration) : res InvalidStatus unit :=
  if (d <? 0)%Z then Err NegativeDuration else Ok tt.

Definition Status_exit (c : Z) (d : Duration) : res InvalidStatus Status :=
  let* _ := validate_status_duration d in
  Ok (mkStatus (Some c) None [] d).

Definition Status_signaled (s : Signal) (d : Duration) : res InvalidStatus Status :=
  let* _ := validate_status_duration d in
  Ok (mkStatus None (Some s) [] d).

Definition is_leaf (s : Status) : bool := match stages s with [] => true | _ => false end.

Definition Status_aggregate (ss : list Status) (selected_stage : nat) (d : Duration)
    : res InvalidStatus Status :=
  let* _ := validate_status_duration d in
  if length ss =? 0 then Err EmptyAggregate
  else match ss !! selected_stage with
  | None => Err (SelectedStageOutOfBounds selected_stage (length ss))
  | Some selected =>
    if existsb (λ stage, negb (is_leaf stage)) ss then Err NestedAggregate
    else Ok (mkStatus (code selected) (signal selected) ss d)
  end.

Definition Status_is_ok (s : Status) : bool := bool_decide (code s = Some 0%Z).

(** [PartialEq], derived. *)
Fixpoint Status_eqb (a b : Status) : bool :=
  bool_decide (code a = code b) && bool_decide (signal a = signal b) &&
  list_eqb Status_eqb (stages a) (stages b) &&
  (duration a =? duration b)%Z.

(** ** Well-formed statuses *)

(** A signal value of the program has an identity. *)
Definition signal_wf (s : Signal) : Prop := signal_number s ≠ None ∨ signal_name s ≠ None.

(** Exactly one completion field. *)
Definition completion_wf (c : option Z) (s : option Signal) : Prop :=
  match c, s with
  | Some _, None => True
  | None, Some s => signal_wf s
  | _, _ => False
  end.

Definition leaf_wf (s : Status) : Prop :=
  completion_wf (code s) (signal s) ∧ (0 ≤ duration s)%Z ∧ stages s = [].

(** A leaf, or a nonempty aggregate of leaves that reports one of them. *)
Definition status_wf (s : Status) : Prop :=
  leaf_wf s ∨
  ((0 ≤ duration s)%Z ∧ Forall leaf_wf (stages s) ∧
   ∃ selected, selected ∈ stages s ∧ code s = code selected ∧ signal s = signal selected).

(** [Display for Status]; the [unreachable!] arms are panics. *)
Definition Status_display (s : Status) : res Empty_set str :=
  match code s, signal s with
  | Some c, None => Ok (if (c =? 0)%Z then bs "success" else bs "exit " ++ show_int c)
  | None, Some sg =>
    match signal_name sg, signal_number sg with
    | Some name, Some number =>
      Ok (bs "signal " ++ name ++ bs " (" ++ show_int number ++ bs ")")
    | Some name, None => Ok (bs "signal " ++ name)
    | None, Some number => Ok (bs "signal " ++ show_int number)
    | None, None => Panic
    end
  | _, _ => Panic
  end.

Lemma Signal_new_wf number name s : Signal_new number name = Ok s → signal_wf s.
Proof.
  unfold Signal_new, signal_wf. destruct number, name; intros [= <-]; simpl; auto.
Qed.

Lemma status_wf_completion s : status_wf s → completion_wf (code s) (signal s).
Proof.
  intros [(? & _)|(_ & Hall & x & Hx & -> & ->)]; [done|].
  rewrite list.Forall_forall in Hall. by apply Hall in Hx as (? & _).
Qed.

Lemma existsb_false_Forall {A} (f : A → bool) l :
  existsb f l = false ↔ Forall (λ x, f x = false) l.
Proof.
  induction l as [|x l IH]; simpl; [by split|].
  rewrite orb_false_iff, IH, list.Forall_cons. done.
Qed.

Lemma is_leaf_spec s : is_leaf s = true ↔ stages s = [].
Proof. unfold is_leaf. by destruct (stages s). Qed.

(** [Status::aggregate] accepts exactly a nonempty list of leaves, an index
    of one of them and a nonnegative duration, and reports that stage. *)
Theorem aggregate_spec (ss : list Status) (i : nat) (d : Duration) (s : Status) :
  Status_aggregate ss i d = Ok s ↔
  (0 ≤ d)%Z ∧ Forall (λ x, stages x = []) ss ∧
  ∃ x, ss !! i = Some x ∧ s = mkStatus (code x) (signal x) ss d.
Proof.
  unfold Status_aggregate, validate_status_duration.
  destruct (Z.ltb_spec d 0); simpl; [split; [done|lia]|].
  destruct (Nat.eqb_spec (length ss) 0) as [Hl|Hl].
  { split; [done|]. intros (_ & _ & x & Hx & _). apply lookup_lt_Some in Hx. lia. }
  destruct (ss !! i) as [x|] eqn:Hx; [|split; [done|by intros (_ & _ & ? & ? & _)]].
  destruct (existsb _ ss) eqn:He.
  - split; [done|]. intros (_ & Hall & _). exfalso. revert He.
    rewrite (proj2 (existsb_false_Forall _ _)); [done|].
    eapply list.Forall_impl; [exact Hall|]. intros y Hy. simpl.
    by rewrite (proj2 (is_leaf_spec y) Hy).
  - apply existsb_false_Forall in He. split.
    + intros [= <-]. split_and!; [done| |by exists x].
      eapply list.Forall_impl; [exact He|]. intros y Hy. simpl in Hy.
      by apply is_leaf_spec, negb_false_iff.
    + intros (_ & _ & y & [= <-] & ->). done.
Qed.

(** Every status the constructors return is well formed, so its display
    never reaches an [unreachable!]. *)
Theorem constructed_status_displays (s : Status) :
  (∃ c d, Status_exit c d = Ok s) ∨
  (∃ sg d, signal_wf sg ∧ Status_signaled sg d = Ok s) ∨
  (∃ ss i d, Forall status_wf ss ∧ Status_aggregate ss i d = Ok s) →
  status_wf s ∧ Status_display s ≠ Panic.
Proof.
  intros Hs. assert (status_wf s) as Hwf.
  { unfold Status_exit, Status_signaled, validate_status_duration in Hs.
    destruct Hs as [(c & d & Hs)|[(sg & d & Hsg & Hs)|(ss & i & d & Hss & Hs)]].
    - destruct (Z.ltb_spec d 0); [done|]. injection Hs as <-. by left.
    - destruct (Z.ltb_spec d 0); [done|]. injection Hs as <-. by left.
    - apply aggregate_spec in Hs as (Hd & Hleaf & x & Hx & ->). right. simpl.
      split_and!; [done| |exists x; by apply list_elem_of_lookup_2 in Hx].
      rewrite list.Forall_forall in *. intros y Hy.
      destruct (Hss y Hy) as [|(_ & _ & z & Hz & _)]; [done|].
      rewrite (Hleaf y Hy) in Hz. by apply not_elem_of_nil in Hz. }
  split; [done|]. apply status_wf_completion in Hwf. unfold Status_display.
  destruct (code s), (signal s) as [[[] []]|]; try done. simpl in Hwf.
  destruct Hwf; done.
Qed.

Lemma aggregate_spec_witness :
  Status_aggregate [mkStatus (Some 0%Z) None [] 5%Z; mkStatus (Some 3%Z) None [] 9%Z] 1 14%Z =
    Ok (mkStatus (Some 3%Z) None
         [mkStatus (Some 0%Z) None [] 5%Z; mkStatus (Some 3%Z) None [] 9%Z] 14%Z).
Proof.
  apply aggregate_spec. split_and!; [lia|by repeat constructor|].
  by exists (mkStatus (Some 3%Z) None [] 9%Z).
Defined.

Lemma constructed_status_displays_witness :
  Status_exit 2%Z 10%Z = Ok (mkStatus (Some 2%Z) None [] 10%Z) ∧
  status_wf (mkStatus (Some 2%Z) None [] 10%Z).
Proof.
  split; [done|]. apply constructed_status_displays. left. by exists 2%Z, 10%Z.
Defined.
