(* ===== verification/Job.v ===== *)
(** * Job lifecycle ([opaal-runtime/src/job.rs])

    The pure state machine of one shell job: children are registered behind a
    startup barrier, their observations are folded into one aggregate state,
    and completion stays addressable until it is acknowledged.  Every method
    takes the job by mutable reference, so it is a function from a job to a
    result and the job it leaves behind, also on an error. *)
From stdpp Require Import gmap.
From S2P Require Import Prelude Status.

(** ** Data *)

Definition JobId : Type := Z.
Definition ProcessId : Type := Z.

(** [JobId::new] and [ProcessId::new]: nonzero [u64] identities. *)
Definition nonzero_id (value : Z) : option Z :=
  if (value =? 0)%Z then None else Some value.

Inductive JobPlacement := InForeground | InBackground.

Inductive JobState :=
| Planned | Starting | Foreground | Background
| Stopped (resume : JobPlacement)
| Completed | Notified | Reaped.

Inductive JobMemberState :=
| MemberRunning
| MemberStopped (sig : Z)
| MemberCompleted (status : Status).

Inductive JobTransitionError :=
| InvalidState (operation : str) (state : JobState)
| NoMembers
| DuplicateProcess (process : ProcessId)
| UnknownProcess (process : ProcessId)
| ProcessAlreadyCompleted (process : ProcessId)
| NoPendingNotice.

#[export] Instance JobPlacement_eq_dec : EqDecision JobPlacement.
Proof. solve_decision. Defined.
#[export] Instance JobState_eq_dec : EqDecision JobState.
Proof. solve_decision. Defined.

Record Job := mkJob {
  job_id : JobId;
  job_state : JobState;
  placement : option JobPlacement;
  members : gmap ProcessId JobMemberState;
  notice_pending : bool
}.

Definition Job_new (id : JobId) : Job := mkJob id Planned None ∅ false.

(** [From<JobPlacement> for JobState]. *)
Definition placed (p : JobPlacement) : JobState :=
  match p with InForeground => Foreground | InBackground => Background end.

Definition is_completed (m : JobMemberState) : bool :=
  match m with MemberCompleted _ => true | _ => false end.
Definition is_stopped (m : JobMemberState) : bool :=
  match m with MemberStopped _ => true | _ => false end.
Definition is_stopped_state (s : JobState) : bool :=
  match s with Stopped _ => true | _ => false end.

(** [values().all(f)] on the member map. *)
Definition all_members (f : JobMemberState → bool) (m : gmap ProcessId JobMemberState) : bool :=
  forallb f (map_to_list m).*2.

(** ** Methods as state transformers *)

Definition Op : Type := Job → res JobTransitionError unit * Job.

Definition fail (e : JobTransitionError) : Op := λ j, (Err e, j).
Definition seq_op (a b : Op) : Op := λ j,
  match a j with
  | (Ok _, j) => b j
  | other => other
  end.
Infix ">>>" := seq_op (at level 55, right associativity).
Definition modify (f : Job → Job) : Op := λ j, (Ok tt, f j).

Definition with_state (s : JobState) (j : Job) : Job :=
  mkJob (job_id j) s (placement j) (members j) (notice_pending j).
Definition with_placement (p : option JobPlacement) (j : Job) : Job :=
  mkJob (job_id j) (job_state j) p (members j) (notice_pending j).
Definition with_members (m : gmap ProcessId JobMemberState) (j : Job) : Job :=
  mkJob (job_id j) (job_state j) (placement j) m (notice_pending j).
Definition with_notice (b : bool) (j : Job) : Job :=
  mkJob (job_id j) (job_state j) (placement j) (members j) b.

Definition require_state (operation : str) (accepted : list JobState) : Op := λ j,
  if bool_decide (job_state j ∈ accepted) then (Ok tt, j)
  else (Err (InvalidState operation (job_state j)), j).

Definition require_observable (operation : str) : Op := λ j,
  match job_state j with
  | Starting | Foreground | Background | Stopped _ => (Ok tt, j)
  | s => (Err (InvalidState operation s), j)
  end.

(** [reconcile]: fold the members into the aggregate state. *)
Definition reconcile : Op := λ j,
  if bool_decide (job_state j = Starting) then (Ok tt, j)
  else if all_members is_completed (members j) then
    let j := if bool_decide (job_state j = Completed) then j else with_notice true j in
    (Ok tt, with_state Completed j)
  else if all_members (λ m, is_stopped m || is_completed m) (members j) then
    match placement j with
    | None => (Panic, j)
    | Some resume =>
      let j := if is_stopped_state (job_state j) then j else with_notice true j in
      (Ok tt, with_state (Stopped resume) j)
    end
  else
    match placement j with
    | None => (Panic, j)
    | Some p => (Ok tt, with_state (placed p) j)
    end.

Definition begin_starting : Op :=
  require_state (bs "begin startup") [Planned] >>> modify (with_state Starting).

Definition add_process (process : ProcessId) : Op :=
  require_state (bs "register a process") [Starting] >>> λ j,
  match members j !! process with
  | Some _ => (Err (DuplicateProcess process), j)
  | None => (Ok tt, with_members (<[process := MemberRunning]> (members j)) j)
  end.

Definition finish_starting (p : JobPlacement) : Op :=
  require_state (bs "finish startup") [Starting] >>> λ j,
  if size (members j) =? 0 then (Err NoMembers, j)
  else (modify (λ j, with_state (placed p) (with_placement (Some p) j)) >>> reconcile) j.

(** The member lookup and update shared by the three observations. *)
Definition observe (operation : str) (process : ProcessId) (m : JobMemberState) : Op :=
  require_observable operation >>> λ j,
  match members j !! process with
  | None => (Err (UnknownProcess process), j)
  | Some old =>
    if is_completed old then (Err (ProcessAlreadyCompleted process), j)
    else (Ok tt, with_members (<[process := m]> (members j)) j)
  end.

Definition observe_stopped (process : ProcessId) (sig : Z) : Op :=
  observe (bs "observe a stopped process") process (MemberStopped sig) >>> reconcile.

Definition observe_continued (process : ProcessId) : Op :=
  observe (bs "observe a continued process") process MemberRunning >>>
  modify (λ j, match job_state j with
               | Stopped resume => with_placement (Some resume) j
               | _ => j
               end) >>>
  modify (with_notice false) >>> reconcile.

Definition observe_completed (process : ProcessId) (status : Status) : Op :=
  observe (bs "observe a completed process") process (MemberCompleted status) >>> reconcile.

Definition move_to (p : JobPlacement) : Op :=
  require_state (bs "change placement") [Foreground; Background] >>>
  modify (λ j, with_state (placed p) (with_placement (Some p) j)).

Definition resume_member (m : JobMemberState) : JobMemberState :=
  if is_stopped m then MemberRunning else m.

Definition continue_in (p : JobPlacement) : Op := λ j,
  if is_stopped_state (job_state j) then
    (Ok tt, with_notice false (with_state (placed p) (with_placement (Some p)
              (with_members (resume_member <$> members j) j))))
  else (Err (InvalidState (bs "continue") (job_state j)), j).

Definition acknowledge_stopped_notice : Op := λ j,
  if is_stopped_state (job_state j) then
    if notice_pending j then (Ok tt, with_notice false j) else (Err NoPendingNotice, j)
  else (Err (InvalidState (bs "acknowledge a stopped notice") (job_state j)), j).

Definition mark_notified : Op :=
  require_state (bs "mark notified") [Completed] >>>
  modify (λ j, with_notice false (with_state Notified j)).

Definition mark_reaped : Op :=
  require_state (bs "mark reaped") [Notified] >>> modify (with_state Reaped).

Definition abort_starting_after_cleanup : Op :=
  require_state (bs "abort startup") [Starting] >>>
  modify (λ j, with_members ∅ (with_state Reaped j)).

(** The calls a coordinator makes, as one transition relation. *)
Inductive Call :=
| BeginStarting | AddProcess (p : ProcessId) | FinishStarting (p : JobPlacement)
| ObserveStopped (p : ProcessId) (sig : Z) | ObserveContinued (p : ProcessId)
| ObserveCompleted (p : ProcessId) (s : Status) | MoveTo (p : JobPlacement)
| ContinueIn (p : JobPlacement) | AcknowledgeStoppedNotice | MarkNotified | MarkReaped
| AbortStarting.

Definition run_call (c : Call) : Op :=
  match c with
  | BeginStarting => begin_starting
  | AddProcess p => add_process p
  | FinishStarting p => finish_starting p
  | ObserveStopped p sig => observe_stopped p sig
  | ObserveContinued p => observe_continued p
  | ObserveCompleted p s => observe_completed p s
  | MoveTo p => move_to p
  | ContinueIn p => continue_in p
  | AcknowledgeStoppedNotice => acknowledge_stopped_notice
  | MarkNotified => mark_notified
  | MarkReaped => mark_reaped
  | AbortStarting => abort_starting_after_cleanup
  end.

Inductive reachable (id : JobId) : Job → Prop :=
| reach_new : reachable id (Job_new id)
| reach_call j c : reachable id j → reachable id (run_call c j).2.

Definition run_calls (cs : list Call) (j : Job) : Job := foldl (λ j c, (run_call c j).2) j cs.

(** ** The aggregate state as a specification *)

Definition running (m : JobMemberState) : Prop := m = MemberRunning.
Definition some_member (P : JobMemberState → Prop) (m : gmap ProcessId JobMemberState) : Prop :=
  ∃ p v, m !! p = Some v ∧ P v.
Definition every_member (P : JobMemberState → Prop) (m : gmap ProcessId JobMemberState) : Prop :=
  ∀ p v, m !! p = Some v → P v.

(** The state a published job reports for its members. *)
Definition aggregate (p : JobPlacement) (m : gmap ProcessId JobMemberState) : JobState :=
  if all_members is_completed m then Completed
  else if all_members (λ v, is_stopped v || is_completed v) m then Stopped p
  else placed p.

Lemma all_members_spec f m : all_members f m = true ↔ every_member (λ v, f v = true) m.
Proof.
  unfold all_members. rewrite forallb_forall. split.
  - intros H p v Hv. apply H, list_elem_of_In, list_elem_of_fmap.
    exists (p, v). split; [done|]. by apply elem_of_map_to_list.
  - intros H v Hv%list_elem_of_In. apply list_elem_of_fmap in Hv as ([p w] & -> & Hw).
    apply elem_of_map_to_list in Hw. by eapply H.
Qed.

Lemma all_members_false f m :
  all_members f m = false → some_member (λ v, f v = false) m.
Proof.
  unfold all_members. intros H. apply not_true_iff_false in H.
  assert (¬ Forall (λ v, f v = true) (map_to_list m).*2) as Hn.
  { intros Hall. apply H. apply forallb_forall. intros v Hv.
    rewrite List.Forall_forall in Hall. auto. }
  apply not_Forall_Exists in Hn; [|apply _]. apply list.Exists_exists in Hn as (v & Hv & Hf).
  apply list_elem_of_fmap in Hv as ([p w] & -> & Hw). apply elem_of_map_to_list in Hw.
  exists p, w. split; [done|]. by apply not_true_iff_false.
Qed.

(** What holds of every job a coordinator can reach. *)
Definition job_wf (j : Job) : Prop :=
  match job_state j with
  | Planned => members j = ∅ ∧ placement j = None ∧ notice_pending j = false
  | Starting => placement j = None ∧ notice_pending j = false
  | Foreground =>
      placement j = Some InForeground ∧ some_member running (members j) ∧ notice_pending j = false
  | Background =>
      placement j = Some InBackground ∧ some_member running (members j) ∧ notice_pending j = false
  | Stopped resume =>
      placement j = Some resume ∧
      every_member (λ v, is_stopped v || is_completed v = true) (members j) ∧
      some_member (λ v, is_stopped v = true) (members j)
  | Completed =>
      placement j ≠ None ∧ members j ≠ ∅ ∧
      every_member (λ v, is_completed v = true) (members j) ∧ notice_pending j = true
  | Notified =>
      placement j ≠ None ∧ members j ≠ ∅ ∧
      every_member (λ v, is_completed v = true) (members j) ∧ notice_pending j = false
  | Reaped => notice_pending j = false
  end.

(** A result that is not a panic and leaves a well-formed job. *)
Definition keeps_wf (r : res JobTransitionError unit * Job) : Prop := r.1 ≠ Panic ∧ job_wf r.2.

(** [reconcile] on a published job sets the aggregate state and raises the
    notice on entering [Stopped] or [Completed]. *)
Lemma reconcile_published j p :
  placement j = Some p → job_state j ≠ Starting →
  ∃ b, reconcile j = (Ok tt, with_state (aggregate p (members j)) (with_notice b j)) ∧
    b = match aggregate p (members j) with
        | Completed => notice_pending j || negb (bool_decide (job_state j = Completed))
        | Stopped _ => notice_pending j || negb (is_stopped_state (job_state j))
        | _ => notice_pending j
        end.
Proof.
  intros Hp Hs. unfold reconcile, aggregate. rewrite bool_decide_false by done. rewrite Hp.
  destruct (all_members is_completed (members j)).
  - eexists. split; [|reflexivity]. case_bool_decide; simpl;
      rewrite ?orb_false_r, ?orb_true_r; by destruct j.
  - destruct (all_members _ (members j)).
    + eexists. split; [|reflexivity]. destruct (is_stopped_state (job_state j)); simpl;
        rewrite ?orb_false_r, ?orb_true_r; by destruct j.
    + exists (notice_pending j). by destruct j, p.
Qed.

Lemma aggregate_wf j p b :
  placement j = Some p → members j ≠ ∅ →
  b = match aggregate p (members j) with
      | Completed => true
      | Stopped _ => b
      | _ => false
      end →
  job_wf (with_state (aggregate p (members j)) (with_notice b j)).
Proof.
  intros Hp Hne. unfold aggregate.
  destruct (all_members is_completed (members j)) eqn:Hc.
  - intros ->. split_and!; [simpl; congruence|done|by apply all_members_spec|done].
  - destruct (all_members (λ v, is_stopped v || is_completed v) (members j)) eqn:Hs; intros Hb.
    + apply all_members_spec in Hs. apply all_members_false in Hc as (q & v & Hv & Hf).
      split_and!; [done|done|]. exists q, v. split; [done|].
      specialize (Hs q v Hv). simpl in Hs. by rewrite Hf, orb_false_r in Hs.
    + apply all_members_false in Hs as (q & v & Hv & Hf).
      assert (some_member running (members j)) as Hr.
      { exists q, v. split; [done|]. by destruct v. }
      destruct p; simpl in Hb; subst b; hnf; by split_and!.
Qed.

Lemma some_member_nonempty P m : some_member P m → m ≠ ∅.
Proof. intros (p & v & Hv & _) ->. by rewrite lookup_empty in Hv. Qed.

Lemma every_member_insert P m p v :
  every_member P m → P v → every_member P (<[p:=v]> m).
Proof.
  intros Hm Hv q w. rewrite lookup_insert. case_decide; [by intros [= <-]|apply Hm].
Qed.

Lemma wf_members_nonempty j :
  job_wf j → match job_state j with Planned | Starting | Reaped => True | _ => members j ≠ ∅ end.
Proof.
  unfold job_wf. destruct (job_state j); try done; intros H; decompose [and] H;
    eauto using some_member_nonempty.
Qed.

(** ** Inverting a call *)

Lemma require_state_cases op acc j :
  (job_state j ∈ acc ∧ require_state op acc j = (Ok tt, j)) ∨
  (job_state j ∉ acc ∧ require_state op acc j = (Err (InvalidState op (job_state j)), j)).
Proof. unfold require_state. case_bool_decide; auto. Qed.

(** A guarded operation: either the guard refuses, or the rest runs. *)
Lemma guarded_cases op acc k j (P : res JobTransitionError unit * Job → Prop) :
  (job_state j ∉ acc → P (Err (InvalidState op (job_state j)), j)) →
  (job_state j ∈ acc → P (k j)) →
  P ((require_state op acc >>> k) j).
Proof.
  intros Hno Hyes. unfold seq_op.
  destruct (require_state_cases op acc j) as [[Hin ->]|[Hin ->]]; auto.
Qed.

Definition observable (s : JobState) : Prop :=
  match s with Starting | Foreground | Background | Stopped _ => True | _ => False end.

Lemma observe_cases op p m k j (P : res JobTransitionError unit * Job → Prop) :
  (∀ e, P (Err e, j)) →
  (∀ old, observable (job_state j) → members j !! p = Some old → is_completed old = false →
     P (k (with_members (<[p:=m]> (members j)) j))) →
  P ((observe op p m >>> k) j).
Proof.
  intros Herr Hok. unfold observe, seq_op, require_observable.
  destruct (job_state j) eqn:Hs; try apply Herr;
    (destruct (members j !! p) as [old|] eqn:Hm; [|apply Herr]);
    (destruct (is_completed old) eqn:Hc; [apply Herr|]); eapply Hok; eauto; simpl; done.
Qed.

(** After an observation on a published job, folding the members succeeds. *)
Lemma reconcile_observed j p v :
  job_wf j → observable (job_state j) →
  (job_state j ≠ Starting → notice_pending j = true →
     is_stopped v || is_completed v = true) →
  keeps_wf (reconcile (with_members (<[p:=v]> (members j)) j)).
Proof.
  intros Hwf Hobs Hnote.
  destruct (decide (job_state j = Starting)) as [Hst|Hst].
  { unfold reconcile. rewrite bool_decide_true by done. split; [done|].
    revert Hwf. unfold job_wf. simpl. by rewrite Hst. }
  assert (∃ pl, placement j = Some pl) as [pl Hpl].
  { unfold job_wf in Hwf. destruct (job_state j); try done; destruct Hwf as [Hp _]; eauto. }
  destruct (reconcile_published (with_members (<[p:=v]> (members j)) j) pl) as (b & -> & Hb);
    [done|done|].
  split; [done|]. apply (aggregate_wf (with_members _ j)); [done|apply insert_non_empty|].
  simpl in *. subst b. unfold aggregate.
  destruct (all_members is_completed _) eqn:Hac.
  - destruct (job_state j); try done; by rewrite orb_true_r.
  - destruct (all_members (λ v, is_stopped v || is_completed v) _) eqn:Has; [done|].
    unfold job_wf in Hwf. destruct (job_state j); try done.
    { by destruct pl, Hwf as (_ & _ & ->). } { by destruct pl, Hwf as (_ & _ & ->). }
    destruct (notice_pending j); [|by destruct pl].
    exfalso. apply not_true_iff_false in Has. apply Has, all_members_spec.
    apply every_member_insert; [apply Hwf|by apply Hnote].
Qed.

Ltac guard_cases := apply (guarded_cases _ _ _ _ keeps_wf); intros Hst; [by split|set_unfold in Hst].

Lemma run_call_keeps_wf c j : job_wf j → keeps_wf (run_call c j).
Proof.
  intros Hwf. destruct c; simpl.
  - guard_cases. split; [done|]. destruct Hst as [Hst|[]]. revert Hwf. unfold job_wf. simpl.
    rewrite Hst. tauto.
  - guard_cases. destruct Hst as [Hst|[]]. destruct (members j !! p); [by split|]. split; [done|].
    revert Hwf. unfold job_wf. simpl. by rewrite Hst.
  - guard_cases. destruct Hst as [Hst|[]]. destruct (size (members j) =? 0) eqn:Hsz; [by split|].
    apply Nat.eqb_neq in Hsz.
    unfold seq_op, modify.
    destruct (reconcile_published (with_state (placed p) (with_placement (Some p) j)) p)
      as (b & -> & Hb); [done|by destruct p|].
    split; [done|]. apply (aggregate_wf (with_state (placed p) (with_placement (Some p) j)));
      [done|intros He; simpl in He; by rewrite He in Hsz|].
    subst b. simpl. assert (notice_pending j = false) as ->.
    { revert Hwf. unfold job_wf. rewrite Hst. tauto. }
    unfold aggregate. repeat case_match; try done; by destruct p.
  - apply (observe_cases _ _ _ _ _ keeps_wf); [by split|]. intros. by apply reconcile_observed.
  - apply (observe_cases _ _ _ _ _ keeps_wf); [by split|]. intros old Hobs Hm Hc.
    assert (job_wf (with_notice false j)) as Hwf'.
    { revert Hwf Hobs. unfold job_wf, observable. simpl. destruct (job_state j); tauto. }
    unfold seq_op, modify. simpl.
    pose proof (reconcile_observed (with_notice false j) p MemberRunning Hwf' Hobs) as H.
    simpl in H. revert Hwf. unfold job_wf.
    destruct (job_state j) eqn:Hs; simpl; rewrite ?Hs; intros Hwf; try by apply H.
    destruct Hwf as [Hpl _]. rewrite <- Hpl. destruct j; by apply H.
  - apply (observe_cases _ _ _ _ _ keeps_wf); [by split|]. intros. by apply reconcile_observed.
  - guard_cases. split; [done|]. revert Hwf. unfold job_wf. simpl.
    destruct Hst as [->|[->|[]]]; destruct p; simpl; tauto.
  - unfold continue_in. destruct (job_state j) eqn:Hs; simpl; try by split.
    split; [done|]. revert Hwf. unfold job_wf. simpl. rewrite Hs.
    intros (_ & _ & (q & v & Hv & Hstop)).
    assert (some_member running (resume_member <$> members j)).
    { exists q, (resume_member v). rewrite lookup_fmap, Hv. split; [done|].
      unfold resume_member. by rewrite Hstop. }
    by destruct p.
  - unfold acknowledge_stopped_notice. destruct (job_state j) eqn:Hs; simpl; try by split.
    destruct (notice_pending j); [|by split]. split; [done|].
    revert Hwf. unfold job_wf. simpl. by rewrite Hs.
  - guard_cases. split; [done|]. destruct Hst as [Hst|[]]. revert Hwf. unfold job_wf. simpl.
    rewrite Hst. tauto.
  - guard_cases. split; [done|]. destruct Hst as [Hst|[]]. revert Hwf. unfold job_wf. simpl.
    rewrite Hst. tauto.
  - guard_cases. split; [done|]. destruct Hst as [Hst|[]]. revert Hwf. unfold job_wf. simpl.
    rewrite Hst. tauto.
Qed.

Lemma reconcile_no_err j e : (reconcile j).1 ≠ Err e.
Proof.
  unfold reconcile. repeat (case_bool_decide || case_match); simpl; congruence.
Qed.

Lemma reachable_job_wf id j : reachable id j → job_wf j.
Proof.
  induction 1 as [|j c _ IH]; [done|]. by apply run_call_keeps_wf.
Qed.

Lemma wf_aggregate j pl :
  job_wf j → placement j = Some pl → job_state j ∉ [Notified; Reaped] →
  job_state j = aggregate pl (members j).
Proof.
  intros Hwf Hpl Hst. unfold job_wf in Hwf. unfold aggregate.
  assert (∀ f, some_member (λ v, f v = false) (members j) → all_members f (members j) = false) as Hno.
  { intros f (q & v & Hv & Hf). apply not_true_iff_false. intros Hall%all_members_spec.
    specialize (Hall q v Hv). simpl in Hall. congruence. }
  assert (∀ P Q : JobMemberState → Prop, (∀ v, P v → Q v) →
    some_member P (members j) → some_member Q (members j)) as Hmono.
  { intros P Q HPQ (q & v & Hv & Hp). exists q, v. auto. }
  assert (some_member running (members j) → placed pl = aggregate pl (members j)) as Hrun.
  { intros Hr. unfold aggregate.
    rewrite !Hno; [done|eapply Hmono, Hr; by intros ? ->|eapply Hmono, Hr; by intros ? ->]. }
  destruct (job_state j) eqn:Hs; set_unfold in Hst; try (by destruct_and! Hwf; congruence);
    try (by exfalso; tauto).
  - destruct Hwf as (Hp & Hr & _). rewrite Hpl in Hp. injection Hp as ->. by apply Hrun.
  - destruct Hwf as (Hp & Hr & _). rewrite Hpl in Hp. injection Hp as ->. by apply Hrun.
  - destruct Hwf as (Hp & Hall & Hsome). rewrite Hpl in Hp. injection Hp as ->.
    rewrite Hno; [|eapply Hmono, Hsome; by intros []].
    apply all_members_spec in Hall. by rewrite Hall.
  - destruct Hwf as (_ & _ & Hall & _). apply all_members_spec in Hall. by rewrite Hall.
Qed.

(** The edges of the lifecycle. *)
Definition live (s : JobState) : Prop :=
  match s with Foreground | Background | Stopped _ => True | _ => False end.

Inductive lifecycle : JobState → JobState → Prop :=
| edge_begin : lifecycle Planned Starting
| edge_abort : lifecycle Starting Reaped
| edge_publish s : live s ∨ s = Completed → lifecycle Starting s
| edge_live s s' : live s → live s' → lifecycle s s'
| edge_complete s : live s → lifecycle s Completed
| edge_notify : lifecycle Completed Notified
| edge_reap : lifecycle Notified Reaped.

Lemma aggregate_live p m : live (aggregate p m) ∨ aggregate p m = Completed.
Proof. unfold aggregate. repeat case_match; auto; destruct p; simpl; auto. Qed.

Lemma placed_live p : live (placed p).
Proof. by destruct p. Qed.

(** Folding the members moves along an edge and leaves the members alone. *)
Lemma reconcile_moves j :
  live (job_state j) ∨ job_state j = Starting →
  ((reconcile j).2 = j ∨ lifecycle (job_state j) (job_state (reconcile j).2)) ∧
  members (reconcile j).2 = members j.
Proof.
  intros Hs.
  destruct (decide (job_state j = Starting)) as [Hst|Hst].
  { unfold reconcile. rewrite bool_decide_true by done. auto. }
  destruct Hs as [Hs|]; [|done].
  unfold reconcile. rewrite bool_decide_false by done.
  repeat (case_bool_decide || case_match); simpl; split; auto; right;
    first [by apply edge_complete | apply edge_live; [done|done || apply placed_live]].
Qed.

(** ** Theorems *)

(** C33: from any reachable job no call panics (the [expect]s on the retained
    placement hold), the identity is stable, and a published job that was not
    acknowledged yet reports exactly the aggregate of its members under its
    placement, which is retained from publication on. *)
Theorem job_state_is_aggregate id j :
  reachable id j →
  (∀ c, (run_call c j).1 ≠ Panic) ∧
  (∀ pl, placement j = Some pl → job_state j ∉ [Notified; Reaped] →
     job_state j = aggregate pl (members j)) ∧
  (job_state j ∉ [Planned; Starting; Reaped] → placement j ≠ None ∧ members j ≠ ∅).
Proof.
  intros Hr%reachable_job_wf. split_and!.
  - intros c. by apply run_call_keeps_wf.
  - intros pl Hpl Hs. by apply wf_aggregate.
  - intros Hs. set_unfold in Hs. pose proof (wf_members_nonempty j Hr) as Hne.
    unfold job_wf in Hr. destruct (job_state j) eqn:Hst; try tauto;
      destruct_and! Hr; split; congruence || done.
Qed.

(** A refused call leaves the job exactly as it was. *)
Theorem refused_call_changes_nothing c j e :
  (run_call c j).1 = Err e → (run_call c j).2 = j.
Proof.
  set (P := λ r : res JobTransitionError unit * Job, r.1 = Err e → r.2 = j).
  assert (∀ j', P (reconcile j')) as Hrec.
  { intros j' H. by destruct (reconcile_no_err j' e). }
  destruct c; simpl.
  all: try by (apply (guarded_cases _ _ _ _ P); [done|by intros _ ?]).
  all: try by (apply (observe_cases _ _ _ _ _ P); [done|intros; apply Hrec]).
  - apply (guarded_cases _ _ _ _ P); [done|]. intros _. by destruct (members j !! p).
  - apply (guarded_cases _ _ _ _ P); [done|]. intros _.
    destruct (size (members j) =? 0); [done|]. apply Hrec.
  - unfold continue_in. by destruct (is_stopped_state (job_state j)).
  - unfold acknowledge_stopped_notice.
    by destruct (is_stopped_state (job_state j)), (notice_pending j).
Qed.

Lemma observable_cases s : observable s → live s ∨ s = Starting.
Proof. destruct s; simpl; auto. Qed.

(** What one call does to the state and to the members that are final. *)
Definition moves (j j' : Job) : Prop :=
  (job_state j' = job_state j ∨ lifecycle (job_state j) (job_state j')) ∧
  (∀ p s, members j !! p = Some (MemberCompleted s) →
     members j' !! p = Some (MemberCompleted s) ∨
     job_state j = Starting ∧ job_state j' = Reaped ∧ members j' = ∅).

Lemma observed_moves j j1 p v old :
  observable (job_state j) → members j !! p = Some old → is_completed old = false →
  job_state j1 = job_state j → members j1 = <[p:=v]> (members j) →
  moves j (reconcile j1).2.
Proof.
  intros Hobs Hm Hc Hs1 Hm1. destruct (reconcile_moves j1) as [Hmv Hmem].
  { rewrite Hs1. by apply observable_cases. }
  split.
  - destruct Hmv as [->|Hmv]; [by left|]. right. by rewrite <- Hs1.
  - intros q s Hq. left. rewrite Hmem, Hm1, lookup_insert_ne; [done|].
    intros ->. rewrite Hm in Hq. by injection Hq as ->.
Qed.

Lemma moves_same_members j j' :
  members j' = members j →
  job_state j' = job_state j ∨ lifecycle (job_state j) (job_state j') → moves j j'.
Proof. intros Hm Hs. split; [done|]. rewrite Hm. auto. Qed.

Ltac guard_moves :=
  apply (guarded_cases _ _ _ _ (λ r, moves _ r.2)); intros Hst;
  [apply moves_same_members; [done|by left]|set_unfold in Hst].

Ltac observe_moves :=
  apply (observe_cases _ _ _ _ _ (λ r, moves _ r.2)); intros;
  [apply moves_same_members; [done|by left]|].

(** C34: every call either keeps the job's state or follows one lifecycle edge
    ([Planned] - [Starting] - running or stopped - [Completed] - [Notified] -
    [Reaped]), and the final status of a completed member is never revised; it
    only disappears when an aborted startup clears the whole job. *)
Theorem calls_follow_lifecycle c j : moves j (run_call c j).2.
Proof.
  destruct c; simpl.
  - guard_moves. destruct Hst as [Hst|[]]. apply moves_same_members; [done|].
    right. rewrite Hst. apply edge_begin.
  - guard_moves. destruct (members j !! p) as [old|] eqn:Hm.
    { by apply moves_same_members; [|left]. }
    split; [by left|]. intros q s Hq. left. simpl. rewrite lookup_insert_ne; [done|congruence].
  - guard_moves. destruct Hst as [Hst|[]].
    destruct (size (members j) =? 0); [by apply moves_same_members; [|left]|].
    unfold seq_op, modify.
    destruct (reconcile_published (with_state (placed p) (with_placement (Some p) j)) p)
      as (b & -> & _); [done|by destruct p|].
    apply moves_same_members; [done|]. right. rewrite Hst. apply edge_publish, aggregate_live.
  - observe_moves. by eapply observed_moves.
  - observe_moves. unfold seq_op, modify.
    eapply (observed_moves _ _ p MemberRunning); eauto; simpl; by case_match.
  - observe_moves. by eapply observed_moves.
  - guard_moves. apply moves_same_members; [done|]. right. apply edge_live; [|apply placed_live].
    by destruct Hst as [->|[->|[]]].
  - unfold continue_in. destruct (job_state j) eqn:Hs; simpl;
      try (apply moves_same_members; [done|by left]).
    split; [right; rewrite Hs; apply edge_live; [done|apply placed_live]|].
    intros q s Hq. left. simpl. by rewrite lookup_fmap, Hq.
  - unfold acknowledge_stopped_notice.
    apply moves_same_members; by repeat case_match; try left.
  - guard_moves. destruct Hst as [Hst|[]]. apply moves_same_members; [done|].
    right. rewrite Hst. apply edge_notify.
  - guard_moves. destruct Hst as [Hst|[]]. apply moves_same_members; [done|].
    right. rewrite Hst. apply edge_reap.
  - guard_moves. destruct Hst as [Hst|[]]. split; [right; rewrite Hst; apply edge_abort|auto].
Qed.

(** The notice after an accepted call that leaves the job stopped. *)
Definition stop_notice (resume : JobPlacement) (j : Job) (acknowledged : bool)
    (r : res JobTransitionError unit * Job) : Prop :=
  r.1 = Ok tt → job_state r.2 = Stopped resume →
  notice_pending r.2 =
    if is_stopped_state (job_state j) then notice_pending j && negb acknowledged else true.

Lemma stop_notice_reconcile resume j j1 :
  is_stopped_state (job_state j1) = is_stopped_state (job_state j) →
  notice_pending j1 = notice_pending j →
  stop_notice resume j false (reconcile j1).
Proof.
  unfold stop_notice. intros <- Hn. unfold reconcile. case_bool_decide as Hst.
  { simpl. congruence. }
  rewrite andb_true_r. repeat case_match; simpl; try done; intros _ Hs; try done; by destruct j0.
Qed.

(** A job with a running member is not stopped. *)
Lemma reconcile_running j p resume :
  members j !! p = Some MemberRunning →
  (reconcile j).1 = Ok tt → job_state (reconcile j).2 ≠ Stopped resume.
Proof.
  intros Hm. unfold reconcile.
  destruct (decide (job_state j = Starting)) as [Hst|Hst];
    [rewrite bool_decide_eq_true_2 by done; simpl; by rewrite Hst|
     rewrite bool_decide_eq_false_2 by done].
  destruct (all_members is_completed (members j)); [done|].
  destruct (all_members _ (members j)) eqn:Ha.
  - rewrite all_members_spec in Ha. by specialize (Ha _ _ Hm).
  - destruct (placement j) as [[]|]; done.
Qed.

Definition is_acknowledgement (c : Call) : bool :=
  match c with AcknowledgeStoppedNotice => true | _ => false end.

(** For a reachable job, an accepted call leaves a notice pending exactly
    as announced: entering [Completed], or [Stopped] from any other state,
    raises it; while the job stays stopped it keeps its notice until that is
    acknowledged and is given no new one; in every other state nothing is
    pending. *)
Theorem notices_on_entry id c j :
  reachable id j → (run_call c j).1 = Ok tt →
  let j' := (run_call c j).2 in
  notice_pending j' =
    match job_state j' with
    | Completed => true
    | Stopped _ =>
        if is_stopped_state (job_state j) then notice_pending j && negb (is_acknowledgement c)
        else true
    | _ => false
    end.
Proof.
  intros Hr Hok j'. pose proof (reachable_job_wf id j Hr) as Hwf.
  assert (job_wf j') as Hwf' by (by apply run_call_keeps_wf).
  unfold job_wf in Hwf'. destruct (job_state j') eqn:Hs'; try tauto. clear Hwf'.
  subst j'. revert Hok Hs'. destruct c; simpl.
  all: try by (apply (guarded_cases _ _ _ _ (stop_notice resume j false)); [by unfold stop_notice|];
    unfold modify, stop_notice; intros; simpl in *; try destruct p).
  all: try by (apply (observe_cases _ _ _ _ _ (stop_notice resume j false)); [by unfold stop_notice|];
    intros; by apply stop_notice_reconcile).
  - apply (guarded_cases _ _ _ _ (stop_notice resume j false)); [by unfold stop_notice|]. intros Hst.
    set_unfold in Hst. destruct Hst as [Hst|[]].
    destruct (members j !! p); unfold stop_notice; simpl; congruence.
  - apply (guarded_cases _ _ _ _ (stop_notice resume j false)); [by unfold stop_notice|]. intros Hst.
    set_unfold in Hst. destruct Hst as [Hst|[]].
    destruct (size (members j) =? 0); [unfold stop_notice; simpl; congruence|].
    apply stop_notice_reconcile; simpl; [rewrite Hst; by destruct p|done].
  - apply (observe_cases _ _ _ _ _ (stop_notice resume j false)); [by unfold stop_notice|].
    intros old Hobs Hm Hc Hok Hs. exfalso. unfold seq_op, modify in Hok, Hs.
    apply (reconcile_running _ p resume) in Hok; [done|].
    cbn [members with_notice job_state with_members].
    destruct (job_state j); apply lookup_insert_eq.
  - unfold continue_in. case_match; [by destruct p|done].
  - unfold acknowledge_stopped_notice. repeat case_match; simpl; rewrite ?andb_false_r; done.
Qed.

(** [Display for JobTransitionError], with the derived [Debug] of the state. *)
Definition show_placement (p : JobPlacement) : str :=
  match p with InForeground => bs "Foreground" | InBackground => bs "Background" end.

Definition show_state (s : JobState) : str :=
  match s with
  | Planned => bs "Planned" | Starting => bs "Starting"
  | Foreground => bs "Foreground" | Background => bs "Background"
  | Stopped resume => bs "Stopped { resume: " ++ show_placement resume ++ bs " }"
  | Completed => bs "Completed" | Notified => bs "Notified" | Reaped => bs "Reaped"
  end.

Definition JobTransitionError_display (e : JobTransitionError) : str :=
  match e with
  | InvalidState operation state =>
      bs "cannot " ++ operation ++ bs " while job is " ++ show_state state
  | NoMembers => bs "cannot start a process-backed job with no members"
  | DuplicateProcess p => bs "process " ++ show_int p ++ bs " is already in the job"
  | UnknownProcess p => bs "process " ++ show_int p ++ bs " is not in the job"
  | ProcessAlreadyCompleted p => bs "process " ++ show_int p ++ bs " has already completed"
  | NoPendingNotice => bs "the job has no pending notice"
  end.

(** ** Witnesses *)

Local Open Scope Z_scope.

Definition exited (c : Z) : Status := mkStatus (Some c) None [] 5.

Definition two_member_job : Job :=
  run_calls [BeginStarting; AddProcess 7; AddProcess 9; ObserveCompleted 9 (exited 3);
             FinishStarting InBackground] (Job_new 1).

Lemma run_calls_reachable id cs j : reachable id j → reachable id (run_calls cs j).
Proof.
  revert j. induction cs as [|c cs IH]; intros j Hj; [done|]. apply IH. by constructor.
Qed.

Lemma two_member_job_reachable : reachable 1 two_member_job.
Proof. apply run_calls_reachable. constructor. Qed.

Lemma job_state_is_aggregate_witness :
  job_state (run_call (ObserveStopped 7 19) two_member_job).2 = Stopped InBackground ∧
  job_state two_member_job = aggregate InBackground (members two_member_job).
Proof.
  split; [by vm_compute|].
  destruct (job_state_is_aggregate 1 two_member_job two_member_job_reachable) as (_ & H & _).
  apply H; [by vm_compute|]. intros Hin. vm_compute in Hin. set_unfold in Hin.
  by destruct Hin as [?|[?|[]]].
Defined.

Lemma refused_call_changes_nothing_witness :
  (run_call (ObserveStopped 9 19) two_member_job).2 = two_member_job ∧
  JobTransitionError_display (ProcessAlreadyCompleted 9) = bs "process 9 has already completed".
Proof.
  split; [|by vm_compute].
  apply (refused_call_changes_nothing _ _ (ProcessAlreadyCompleted 9)). by vm_compute.
Defined.

Lemma notices_on_entry_witness :
  notice_pending (run_call (ObserveCompleted 7 (exited 0)) two_member_job).2 = true.
Proof.
  apply (notices_on_entry 1 (ObserveCompleted 7 (exited 0)) two_member_job
           two_member_job_reachable). by vm_compute.
Defined.
