(* ===== verification/Order.v ===== *)
(** * Orders and sorting

    The comparison of byte strings ([Ord] of [str], [String] and [OsStr]),
    stable sorting by a comparison ([slice::sort_by]) and [Vec::dedup], shared
    by the components that keep ordered collections. *)
From stdpp Require Export sorting.
From S2P Require Import Prelude.

(** ** Byte strings compare lexicographically *)

Fixpoint bytes_compare (a b : str) : comparison :=
  match a, b with
  | [], [] => Eq
  | [], _ => Lt
  | _, [] => Gt
  | x :: a, y :: b =>
    match Z.compare x y with
    | Eq => bytes_compare a b
    | c => c
    end
  end.

Lemma bytes_compare_eq a b : bytes_compare a b = Eq ↔ a = b.
Proof.
  revert b. induction a as [|x a IH]; intros [|y b]; simpl; try done.
  destruct (Z.compare_spec x y) as [->|?|?]; [rewrite IH; naive_solver|..];
    split; try done; intros [= -> _]; lia.
Qed.

Lemma bytes_compare_refl a : bytes_compare a a = Eq.
Proof. by apply bytes_compare_eq. Qed.

Lemma bytes_compare_antisym a b : bytes_compare b a = CompOpp (bytes_compare a b).
Proof.
  revert b. induction a as [|x a IH]; intros [|y b]; simpl; try done.
  rewrite (Z.compare_antisym x y). destruct (Z.compare x y); simpl; auto.
Qed.

Lemma bytes_compare_lt_trans a b c :
  bytes_compare a b = Lt → bytes_compare b c = Lt → bytes_compare a c = Lt.
Proof.
  revert b c. induction a as [|x a IH]; intros [|y b] [|z c]; simpl; try done.
  destruct (Z.compare_spec x y) as [->|?|?], (Z.compare_spec y z) as [->|?|?]; try done;
    intros; try (rewrite (proj2 (Z.compare_lt_iff _ _)) by lia; done).
  eauto.
Qed.

Definition bytes_le (a b : str) : bool :=
  match bytes_compare a b with Gt => false | _ => true end.
Definition bytes_lt (a b : str) : bool :=
  match bytes_compare a b with Lt => true | _ => false end.

Lemma bytes_le_cases a b : bytes_le a b = true ↔ a = b ∨ bytes_compare a b = Lt.
Proof.
  unfold bytes_le. destruct (bytes_compare a b) eqn:E.
  - apply bytes_compare_eq in E. naive_solver.
  - naive_solver.
  - split; [done|]. intros [->|?]; [|done]. by rewrite bytes_compare_refl in E.
Qed.

Lemma bytes_le_total a b : bytes_le a b = true ∨ bytes_le b a = true.
Proof.
  unfold bytes_le. rewrite (bytes_compare_antisym a b).
  destruct (bytes_compare a b); simpl; auto.
Qed.

Lemma bytes_le_trans a b c : bytes_le a b = true → bytes_le b c = true → bytes_le a c = true.
Proof.
  rewrite !bytes_le_cases. intros [->|H1] [->|H2]; eauto using bytes_compare_lt_trans.
Qed.

Lemma bytes_le_antisym a b : bytes_le a b = true → bytes_le b a = true → a = b.
Proof.
  rewrite !bytes_le_cases. intros [->|H1] [H2|H2]; try done.
  rewrite bytes_compare_antisym, H1 in H2. done.
Qed.

(** ** Stable sorting by a boolean order *)

Section Sorting.
Context {A : Type} (le : A → A → bool).

Definition leP (x y : A) : Prop := le x y = true.

#[local] Instance leP_dec : RelDecision leP.
Proof. intros x y. unfold leP. apply _. Defined.

Definition sort_by (l : list A) : list A := merge_sort leP l.

Lemma sort_by_perm l : sort_by l ≡ₚ l.
Proof. apply merge_sort_Permutation. Qed.

Lemma sort_by_elem l x : x ∈ sort_by l ↔ x ∈ l.
Proof. by rewrite sort_by_perm. Qed.

Lemma sort_by_sorted l :
  (∀ x y, le x y = true ∨ le y x = true) →
  (∀ x y z, le x y = true → le y z = true → le x z = true) →
  StronglySorted leP (sort_by l).
Proof.
  intros Htot Htrans. apply StronglySorted_merge_sort.
  - intros x y z. apply Htrans.
  - intros x y. apply Htot.
Qed.

End Sorting.

(** ** Ordered maps from byte strings ([BTreeMap<String, V>])

    The sorted list of the entries. *)
Section OrderedMap.
Context {V : Type}.

Fixpoint map_insert (k : str) (v : V) (m : list (str * V)) : list (str * V) :=
  match m with
  | [] => [(k, v)]
  | (k', v') :: m' =>
    match bytes_compare k k' with
    | Lt => (k, v) :: m
    | Eq => (k, v) :: m'
    | Gt => (k', v') :: map_insert k v m'
    end
  end.

Fixpoint map_get (m : list (str * V)) (k : str) : option V :=
  match m with
  | [] => None
  | (k', v) :: m => if str_eqb k' k then Some v else map_get m k
  end.

Definition keys_sorted (m : list (str * V)) : Prop :=
  StronglySorted (λ k k', bytes_compare k k' = Lt) m.*1.

Lemma map_get_None m k : map_get m k = None ↔ k ∉ m.*1.
Proof.
  induction m as [|[k' v] m IH]; simpl; [split; [intros _; apply not_elem_of_nil|done]|].
  destruct (str_eqb k' k) eqn:E.
  - apply str_eqb_eq in E as ->. split; [done|]. intros Hn. destruct Hn. left.
  - rewrite IH, not_elem_of_cons. split; [|tauto]. intros Hm. split; [|done].
    intros ->. by rewrite (proj2 (str_eqb_eq k' k')) in E.
Qed.

Lemma map_get_Some m k v : keys_sorted m → map_get m k = Some v ↔ (k, v) ∈ m.
Proof.
  unfold keys_sorted. induction m as [|[k' v'] m IH]; intros Hs; simpl.
  { split; [done|]. by intros ?%not_elem_of_nil. }
  apply StronglySorted_inv in Hs as [Hs Hall]. rewrite list.Forall_forall in Hall.
  rewrite elem_of_cons. destruct (str_eqb k' k) eqn:E.
  - apply str_eqb_eq in E as ->. split; [intros [= ->]; by left|].
    intros [[= ->]|Hin]; [done|]. apply (list_elem_of_fmap_2 fst) in Hin. apply Hall in Hin.
    simpl in Hin. by rewrite bytes_compare_refl in Hin.
  - rewrite IH by done. split; [by right|]. intros [[= -> ->]|]; [|done].
    by rewrite (proj2 (str_eqb_eq k' k')) in E.
Qed.

Lemma map_insert_keys k v m x : x ∈ (map_insert k v m).*1 ↔ x = k ∨ x ∈ m.*1.
Proof.
  induction m as [|[k' v'] m IH]; simpl; [rewrite elem_of_cons, elem_of_nil; tauto|].
  destruct (bytes_compare k k') eqn:E; simpl; rewrite ?elem_of_cons.
  - apply bytes_compare_eq in E as ->. tauto.
  - tauto.
  - rewrite IH. tauto.
Qed.

Lemma map_insert_sorted k v m : keys_sorted m → keys_sorted (map_insert k v m).
Proof.
  unfold keys_sorted. induction m as [|[k' v'] m IH]; simpl; intros Hs; [by repeat constructor|].
  apply StronglySorted_inv in Hs as [Hs Hall].
  destruct (bytes_compare k k') eqn:E; simpl.
  - apply bytes_compare_eq in E as ->. by constructor.
  - constructor; [by constructor|]. constructor; [done|]. eapply Forall_impl; [exact Hall|].
    intros x Hx. by eapply bytes_compare_lt_trans.
  - constructor; [by apply IH|]. rewrite list.Forall_forall in *. intros x Hx.
    apply map_insert_keys in Hx as [->|Hx]; [|by apply Hall].
    by rewrite bytes_compare_antisym, E.
Qed.

Lemma map_get_insert k v m x :
  map_get (map_insert k v m) x = if str_eqb k x then Some v else map_get m x.
Proof.
  induction m as [|[k' v'] m IH]; simpl; [done|].
  destruct (bytes_compare k k') eqn:E; simpl.
  - apply bytes_compare_eq in E as ->. by destruct (str_eqb k' x).
  - done.
  - rewrite IH. destruct (str_eqb k' x) eqn:E1, (str_eqb k x) eqn:E2; try done.
    apply str_eqb_eq in E1 as <-. apply str_eqb_eq in E2 as ->. by rewrite bytes_compare_refl in E.
Qed.
End OrderedMap.
