(* ===== verification/Compare.v ===== *)
(** * Comparisons ([std::cmp::Ord])

    What a lawful comparison promises, as an interface: the types the program
    orders discharge it, and ordered sets ([BTreeSet]), [binary_search_by] and
    [slice::sort_by] are correct for every instance.  The stable sort is known
    by its documentation only; it asks its comparator and answers a list
    ([plan]), so that a comparator with an effect sees the calls it gets. *)
From S2P Require Import Prelude Order.

(** ** The laws *)

(** A total preorder given by its three-way comparison. *)
Class TotalPreorder {A} (cmp : A → A → comparison) : Prop := {
  cmp_antisym a b : cmp b a = CompOpp (cmp a b);
  cmp_eq_l a b c : cmp a b = Eq → cmp a c = cmp b c;
  cmp_lt_trans a b c : cmp a b = Lt → cmp b c = Lt → cmp a c = Lt
}.
Arguments cmp_antisym {A} cmp {_} a b.
Arguments cmp_eq_l {A} cmp {_} a b c _.
Arguments cmp_lt_trans {A} cmp {_} a b c _ _.

Section Laws.
Context {A : Type} (cmp : A → A → comparison) `{!TotalPreorder cmp}.

Lemma cmp_refl a : cmp a a = Eq.
Proof. pose proof (cmp_antisym cmp a a) as H. by destruct (cmp a a). Qed.

Lemma cmp_eq_sym a b : cmp a b = Eq → cmp b a = Eq.
Proof. rewrite (cmp_antisym cmp a b). by intros ->. Qed.

Lemma cmp_eq_r a b c : cmp a b = Eq → cmp c a = cmp c b.
Proof. intros H. by rewrite (cmp_antisym cmp a c), (cmp_antisym cmp b c), (cmp_eq_l cmp a b c H). Qed.

Lemma cmp_gt a b : cmp a b = Gt ↔ cmp b a = Lt.
Proof. rewrite (cmp_antisym cmp a b). by destruct (cmp a b). Qed.

Definition cmp_le (a b : A) : bool := match cmp a b with Gt => false | _ => true end.

Lemma cmp_le_total a b : cmp_le a b = true ∨ cmp_le b a = true.
Proof. unfold cmp_le. rewrite (cmp_antisym cmp a b). destruct (cmp a b); simpl; auto. Qed.

Lemma cmp_le_trans a b c : cmp_le a b = true → cmp_le b c = true → cmp_le a c = true.
Proof.
  unfold cmp_le. destruct (cmp a b) eqn:E1; [by rewrite (cmp_eq_l cmp a b c E1)| |done].
  destruct (cmp b c) eqn:E2; [|by rewrite (cmp_lt_trans cmp a b c E1 E2)|done].
  by rewrite <- (cmp_eq_r b c a E2), E1.
Qed.
End Laws.

#[export] Instance Z_compare_order : TotalPreorder Z.compare.
Proof.
  split; intros a b; [apply Z.compare_antisym| |].
  - intros c ->%Z.compare_eq. done.
  - intros c. rewrite !Z.compare_lt_iff. lia.
Qed.

#[export] Instance Nat_compare_order : TotalPreorder Nat.compare.
Proof.
  split; intros a b; [apply Nat.compare_antisym| |].
  - intros c ->%Nat.compare_eq. done.
  - intros c. rewrite !Nat.compare_lt_iff. lia.
Qed.

#[export] Instance bytes_compare_order : TotalPreorder bytes_compare.
Proof.
  split; intros a b; [apply bytes_compare_antisym| |].
  - intros c ->%bytes_compare_eq. done.
  - intros c. apply bytes_compare_lt_trans.
Qed.

(** *** By a key, by two criteria, by the elements in turn *)

#[export] Instance cmp_on_order {A B} (f : A → B) (cmp : B → B → comparison)
    `{!TotalPreorder cmp} : TotalPreorder (λ x y, cmp (f x) (f y)).
Proof.
  split; intros a b; [apply (cmp_antisym cmp)|intros c; apply (cmp_eq_l cmp)|intros c; apply (cmp_lt_trans cmp)].
Qed.

(** [Ordering::then]. *)
Definition then_cmp (c d : comparison) : comparison := match c with Eq => d | _ => c end.

#[export] Instance then_order {A} (cmp cmp' : A → A → comparison)
    `{!TotalPreorder cmp, !TotalPreorder cmp'} :
  TotalPreorder (λ x y, then_cmp (cmp x y) (cmp' x y)).
Proof.
  split; intros a b.
  - rewrite (cmp_antisym cmp a b), (cmp_antisym cmp' a b). by destruct (cmp a b).
  - intros c. destruct (cmp a b) eqn:E; try done. simpl. intros E'.
    by rewrite (cmp_eq_l cmp a b c E), (cmp_eq_l cmp' a b c E').
  - intros c. destruct (cmp a b) eqn:E1; simpl; [|intros _|done].
    + rewrite (cmp_eq_l cmp a b c E1). destruct (cmp b c) eqn:E2; try done. simpl.
      apply (cmp_lt_trans cmp').
    + destruct (cmp b c) eqn:E2; simpl; [|by rewrite (cmp_lt_trans cmp a b c E1 E2)|done].
      by rewrite <- (cmp_eq_r cmp b c a E2), E1.
Qed.

(** [Ord] of slices. *)
Fixpoint slice_compare {A} (cmp : A → A → comparison) (l k : list A) : comparison :=
  match l, k with
  | [], [] => Eq
  | [], _ => Lt
  | _, [] => Gt
  | x :: l, y :: k => then_cmp (cmp x y) (slice_compare cmp l k)
  end.

#[export] Instance slice_compare_order {A} (cmp : A → A → comparison)
    `{!TotalPreorder cmp} : TotalPreorder (slice_compare cmp).
Proof.
  split; intros l; induction l as [|x l IH]; intros [|y k]; simpl; try done.
  - rewrite (cmp_antisym cmp x y), (IH k). by destruct (cmp x y).
  - intros m. destruct (cmp x y) eqn:E; try done. simpl. intros E'.
    destruct m as [|z m]; [done|]. by rewrite (cmp_eq_l cmp x y z E), (IH k m E').
  - by intros [|z m].
  - intros [|z m]; [by destruct (cmp x y)|].
    destruct (cmp x y) eqn:E1; simpl; intros H1 H2; [|clear H1|done].
    + rewrite (cmp_eq_l cmp x y z E1). destruct (cmp y z); simpl in *; [|done..].
      by apply (IH k m).
    + destruct (cmp y z) eqn:E2; simpl in *; [|by rewrite (cmp_lt_trans cmp x y z E1 E2)|done].
      by rewrite <- (cmp_eq_r cmp y z x E2), E1.
Qed.

Lemma slice_compare_eq {A} (cmp : A → A → comparison) l k :
  slice_compare cmp l k = Eq ↔ Forall2 (λ x y, cmp x y = Eq) l k.
Proof.
  revert k. induction l as [|x l IH]; intros [|y k]; simpl.
  - split; [constructor|done].
  - split; [done|by inversion 1].
  - split; [done|by inversion 1].
  - rewrite Forall2_cons, <- IH. destruct (cmp x y); simpl; naive_solver.
Qed.

(** ** Ordered sets ([BTreeSet::insert], [collect], [contains]) *)

Section Sets.
Context {A : Type} (cmp : A → A → comparison).

Fixpoint btree_insert (x : A) (s : list A) : list A :=
  match s with
  | [] => [x]
  | y :: s' =>
    match cmp x y with
    | Lt => x :: s
    | Eq => s
    | Gt => y :: btree_insert x s'
    end
  end.

Definition btree_collect (l : list A) : list A := foldl (λ s x, btree_insert x s) [] l.

Definition btree_contains (s : list A) (x : A) : bool :=
  existsb (λ y, match cmp x y with Eq => true | _ => false end) s.

Context `{!TotalPreorder cmp}.

Definition strictly_sorted (s : list A) : Prop := StronglySorted (λ x y, cmp x y = Lt) s.

Lemma btree_insert_elem x s y :
  y ∈ btree_insert x s → y = x ∨ y ∈ s.
Proof.
  induction s as [|z s IH]; simpl; [intros ->%list_elem_of_singleton; by left|].
  destruct (cmp x z); rewrite ?elem_of_cons; naive_solver.
Qed.

Lemma btree_insert_sorted x s : strictly_sorted s → strictly_sorted (btree_insert x s).
Proof.
  unfold strictly_sorted. induction s as [|z s IH]; simpl; intros Hs; [by repeat constructor|].
  apply StronglySorted_inv in Hs as [Hs Hall]. destruct (cmp x z) eqn:E; [by constructor| |].
  - constructor; [by constructor|]. constructor; [done|]. eapply Forall_impl; [exact Hall|].
    intros y Hy. by apply (cmp_lt_trans cmp x z y).
  - constructor; [by apply IH|]. rewrite list.Forall_forall in *. intros y Hy.
    apply btree_insert_elem in Hy as [->|Hy]; [by apply cmp_gt|by apply Hall].
Qed.

Lemma btree_insert_contains x s y :
  btree_contains (btree_insert x s) y = true ↔ cmp y x = Eq ∨ btree_contains s y = true.
Proof.
  induction s as [|z s IH]; simpl; [rewrite orb_false_r; by destruct (cmp y x); naive_solver|].
  destruct (cmp x z) eqn:E; simpl; rewrite ?orb_true_iff.
  - rewrite <- (cmp_eq_r cmp x z y E). destruct (cmp y x); naive_solver.
  - destruct (cmp y x); naive_solver.
  - rewrite IH. naive_solver.
Qed.

Lemma btree_contains_spec s x : btree_contains s x = true ↔ ∃ y, y ∈ s ∧ cmp x y = Eq.
Proof.
  unfold btree_contains. rewrite existsb_exists. setoid_rewrite <- list_elem_of_In.
  split; intros (y & ? & H); exists y; (split; [done|]); by destruct (cmp x y).
Qed.

Lemma btree_collect_spec l :
  strictly_sorted (btree_collect l) ∧
  ∀ x, btree_contains (btree_collect l) x = true ↔ ∃ y, y ∈ l ∧ cmp x y = Eq.
Proof.
  unfold btree_collect.
  assert (∀ s, strictly_sorted s →
    strictly_sorted (foldl (λ s x, btree_insert x s) s l) ∧
    ∀ x, btree_contains (foldl (λ s x, btree_insert x s) s l) x = true ↔
      btree_contains s x = true ∨ ∃ y, y ∈ l ∧ cmp x y = Eq) as H.
  { induction l as [|z l IH]; intros s Hs; simpl.
    { split; [done|]. intros x. split; [by left|]. intros [|(y & []%not_elem_of_nil & _)]; done. }
    destruct (IH (btree_insert z s) (btree_insert_sorted z s Hs)) as [H1 H2].
    split; [done|]. intros x. rewrite H2, btree_insert_contains.
    setoid_rewrite elem_of_cons. naive_solver. }
  destruct (H [] (SSorted_nil _)) as [H1 H2]. split; [done|]. intros x. rewrite H2. simpl. naive_solver.
Qed.
End Sets.

(** ** [slice::binary_search_by] *)

Section Search.
Context {A : Type}.

(** The halving loop; [f] compares an element with what is looked for. *)
Fixpoint halve (fuel : nat) (f : A → comparison) (l : list A) (base size : nat) : nat :=
  match fuel with
  | 0 => base
  | S fuel =>
    if 1 <? size then
      let half := size / 2 in
      let mid := base + half in
      let base := match f <$> l !! mid with Some Gt => base | _ => mid end in
      halve fuel f l base (size - half)
    else base
  end.

Definition binary_search_by (l : list A) (f : A → comparison) : nat + nat :=
  match l with
  | [] => inr 0
  | _ =>
    let base := halve (length l) f l 0 (length l) in
    match f <$> l !! base with
    | Some Eq => inl base
    | Some Lt => inr (base + 1)
    | _ => inr base
    end
  end.

(** The slice is ordered as the search expects: [Lt], then [Eq], then [Gt]. *)
Definition comparison_rank (c : comparison) : nat := match c with Lt => 0 | Eq => 1 | Gt => 2 end.
Definition searchable (f : A → comparison) (l : list A) : Prop :=
  ∀ i j x y, i ≤ j → l !! i = Some x → l !! j = Some y →
    comparison_rank (f x) ≤ comparison_rank (f y).

Lemma halve_range fuel f l base size :
  size ≤ fuel → 0 < size → base ≤ halve fuel f l base size < base + size.
Proof.
  revert base size. induction fuel as [|fuel IH]; intros base size Hf Hs; cbn [halve]; [lia|].
  destruct (1 <? size) eqn:E; bool_to_prop; [|lia].
  assert (1 ≤ size / 2 ∧ size / 2 < size) as [H1 H2].
  { split; [apply Nat.div_le_lower_bound; lia|apply Nat.div_lt; lia]. }
  destruct (f <$> l !! (base + size / 2)) as [[]|];
    match goal with |- context [halve fuel f l ?b ?s] => destruct (IH b s); lia end.
Qed.

(** The last position not above, when there is one within the range. *)
Lemma halve_finds fuel f l base size i x :
  searchable f l → size ≤ fuel → base ≤ i < base + size → base + size ≤ length l →
  l !! i = Some x → f x = Eq →
  f <$> l !! (halve fuel f l base size) = Some Eq.
Proof.
  intros Hl. revert base size i x.
  induction fuel as [|fuel IH]; intros base size i x Hf Hi Hb Hx He;
    cbn [halve]; [lia|].
  destruct (1 <? size) eqn:E; bool_to_prop.
  2: { assert (i = base) as <- by lia. by rewrite Hx; simpl; rewrite He. }
  pose proof (Nat.Div0.mul_div_le size 2).
  assert (1 ≤ size / 2 ∧ size / 2 < size) as [H1 H2].
  { split; [apply Nat.div_le_lower_bound; lia|apply Nat.div_lt; lia]. }
  destruct (lookup_lt_is_Some_2 l (base + size / 2)) as [y Hy]; [lia|].
  rewrite Hy. cbn [fmap option_fmap option_map]. destruct (f y) eqn:Ey.
  - apply (IH (base + size / 2) (size - size / 2) (base + size / 2) y); auto; lia.
  - apply (IH _ _ i x); auto; [lia| |lia].
    destruct (decide (base + size / 2 ≤ i)) as [Hm|Hm]; [lia|].
    exfalso. specialize (Hl i (base + size / 2) x y ltac:(lia) Hx Hy). rewrite He, Ey in Hl. simpl in Hl.
    lia.
  - apply (IH _ _ i x); auto; [lia| |lia].
    destruct (decide (base + size / 2 ≤ i)) as [Hm|Hm]; [|lia].
    exfalso. specialize (Hl (base + size / 2) i y x ltac:(lia) Hy Hx). rewrite He, Ey in Hl. simpl in Hl.
    lia.
Qed.

Lemma binary_search_by_spec l f :
  searchable f l →
  match binary_search_by l f with
  | inl i => ∃ x, l !! i = Some x ∧ f x = Eq
  | inr _ => ∀ x, x ∈ l → f x ≠ Eq
  end.
Proof.
  intros Hl. destruct l as [|x0 l0] eqn:El; [by intros x ?%not_elem_of_nil|]. rewrite <- El in *.
  assert (0 < length l) as Hlen by (subst; simpl; lia).
  assert (binary_search_by l f =
    match f <$> l !! halve (length l) f l 0 (length l) with
    | Some Eq => inl (halve (length l) f l 0 (length l))
    | Some Lt => inr (halve (length l) f l 0 (length l) + 1)
    | _ => inr (halve (length l) f l 0 (length l))
    end) as -> by by subst.
  pose proof (halve_range (length l) f l 0 (length l) ltac:(lia) Hlen) as Hr.
  destruct (lookup_lt_is_Some_2 l (halve (length l) f l 0 (length l))) as [x Hx]; [lia|].
  assert (f x ≠ Eq → ∀ y, y ∈ l → f y ≠ Eq) as Hno.
  { intros Hn y [i Hi]%list_elem_of_lookup Hy. apply lookup_lt_Some in Hi as Hi'.
    pose proof (halve_finds (length l) f l 0 (length l) i y Hl ltac:(lia) ltac:(lia) ltac:(lia) Hi Hy)
      as H. rewrite Hx in H. simpl in H. congruence. }
  rewrite Hx. simpl. destruct (f x) eqn:E; [by exists x|by apply Hno..].
Qed.
End Search.

(** ** [slice::sort_by]

    A comparison sort asks for comparisons and then answers the sorted slice;
    with answers no total preorder gives it may also crash. *)
Section Plans.
Context {A : Type}.

Inductive plan :=
| Answer (sorted : list A)
| Crash
| Ask (x y : A) (k : comparison → plan).

Fixpoint run_plan {S} (cmp : A → A → S → comparison * S) (p : plan) (s : S) : option (list A) * S :=
  match p with
  | Answer sorted => (Some sorted, s)
  | Crash => (None, s)
  | Ask x y k => let '(c, s) := cmp x y s in run_plan cmp (k c) s
  end.

Definition run_pure (cmp : A → A → comparison) (p : plan) : option (list A) :=
  (run_plan (λ x y s, (cmp x y, s)) p tt).1.

(** Every comparison asked for is between elements of [P]. *)
Fixpoint asks_within (P : A → Prop) (p : plan) : Prop :=
  match p with
  | Ask x y k => P x ∧ P y ∧ ∀ c, asks_within P (k c)
  | _ => True
  end.

(** A total preorder among the elements of a list. *)
Definition preorder_among (cmp : A → A → comparison) (l : list A) : Prop :=
  (∀ a b, a ∈ l → b ∈ l → cmp b a = CompOpp (cmp a b)) ∧
  (∀ a b c, a ∈ l → b ∈ l → c ∈ l → cmp a b ≠ Gt → cmp b c ≠ Gt → cmp a c ≠ Gt).

(** Ascending, the same elements, equal ones in the same order. *)
Definition stably_sorted (cmp : A → A → comparison) (l sorted : list A) : Prop :=
  sorted ≡ₚ l ∧ StronglySorted (λ a b, cmp a b ≠ Gt) sorted ∧
  ∀ z, z ∈ l → filter (λ y, cmp z y = Eq) sorted = filter (λ y, cmp z y = Eq) l.

(** What the comparator saw, when it answers like a pure comparison. *)
Lemma run_plan_pure {S} (cmp : A → A → S → comparison * S) (c : A → A → comparison)
    (P : A → Prop) (I : S → Prop) (p : plan) s :
  asks_within P p → I s →
  (∀ x y s, P x → P y → I s → (cmp x y s).1 = c x y ∧ I (cmp x y s).2) →
  (run_plan cmp p s).1 = run_pure c p ∧ I (run_plan cmp p s).2.
Proof.
  intros Hp Hs Hcmp. revert s Hs. induction p as [sorted| |x y k IH]; intros s Hs; simpl; [done..|].
  destruct Hp as (Hx & Hy & Hk). destruct (Hcmp x y s Hx Hy Hs) as [H1 H2].
  destruct (cmp x y s) as [c' s']. simpl in *. subst c'. by apply IH.
Qed.

(** An invariant of the comparator's state holds at the end. *)
Lemma run_plan_invariant {S} (cmp : A → A → S → comparison * S) (P : A → Prop) (I : S → Prop)
    (p : plan) s :
  asks_within P p → I s → (∀ x y s, P x → P y → I s → I (cmp x y s).2) →
  I (run_plan cmp p s).2.
Proof.
  intros Hp Hs Hcmp. revert s Hs. induction p as [sorted| |x y k IH]; intros s Hs; simpl; [done..|].
  destruct Hp as (Hx & Hy & Hk). specialize (Hcmp x y s Hx Hy Hs).
  destruct (cmp x y s) as [c s']. by apply IH.
Qed.
End Plans.

Arguments plan : clear implicits.

(** The documented behaviour of the standard library's stable sort. *)
Class StableSort (sorting : ∀ {A}, list A → plan A) : Prop := {
  sorting_asks {A} (l : list A) : asks_within (λ x, x ∈ l) (sorting l);
  sorting_permutes {A} {S} (cmp : A → A → S → comparison * S) (l k : list A) s :
    (run_plan cmp (sorting l) s).1 = Some k → k ≡ₚ l;
  sorting_stable {A} (cmp : A → A → comparison) (l : list A) :
    preorder_among cmp l → ∃ k, run_pure cmp (sorting l) = Some k ∧ stably_sorted cmp l k
}.

(** *** Insertion sort, from the tail of the sorted prefix

    What the library does with short slices.  The prefix is kept reversed. *)
Section Insertion.
Context {A : Type}.

Fixpoint insert_tail (x : A) (prefix : list A) (k : list A → plan A) : plan A :=
  match prefix with
  | [] => k [x]
  | p :: ps =>
    Ask x p (λ c,
      match c with
      | Lt => insert_tail x ps (λ t, k (p :: t))
      | _ => k (x :: prefix)
      end)
  end.

Fixpoint insertion_loop (prefix l : list A) : plan A :=
  match l with
  | [] => Answer (reverse prefix)
  | x :: l => insert_tail x prefix (λ prefix, insertion_loop prefix l)
  end.

Definition insertion_sort (l : list A) : plan A := insertion_loop [] l.

Lemma insert_tail_asks P x prefix k :
  P x → Forall P prefix →
  (∀ t, Forall P t → asks_within P (k t)) → asks_within P (insert_tail x prefix k).
Proof.
  intros Hx Hp. revert k. induction Hp as [|p ps Hp Hps IH]; intros k Hk; simpl; [apply Hk; auto|].
  split_and!; [done..|]. intros [].
  - apply Hk. auto.
  - apply IH. intros t Ht. apply Hk. auto.
  - apply Hk. auto.
Qed.

Lemma insertion_loop_asks P prefix l :
  Forall P prefix → Forall P l → asks_within P (insertion_loop prefix l).
Proof.
  intros Hp Hl. revert prefix Hp. induction Hl as [|x l Hx Hl IH]; intros prefix Hp; simpl; [done|].
  by apply insert_tail_asks.
Qed.

(** Every run of the insertion passes on a prefix with the new element. *)
Lemma insert_tail_run {S} (cmp : A → A → S → comparison * S) x prefix k s :
  ∃ t s', t ≡ₚ x :: prefix ∧ run_plan cmp (insert_tail x prefix k) s = run_plan cmp (k t) s'.
Proof.
  revert k s. induction prefix as [|p ps IH]; intros k s; simpl; [by exists [x], s|].
  destruct (cmp x p s) as [[] s1]; [by exists (x :: p :: ps), s1| |by exists (x :: p :: ps), s1].
  destruct (IH (λ t, k (p :: t)) s1) as (t & s2 & Ht & ->).
  exists (p :: t), s2. split; [|done]. rewrite Ht. by rewrite (Permutation_swap p x).
Qed.

Lemma insertion_loop_run {S} (cmp : A → A → S → comparison * S) prefix l s :
  ∃ t, (run_plan cmp (insertion_loop prefix l) s).1 = Some t ∧ t ≡ₚ prefix ++ l.
Proof.
  revert prefix s. induction l as [|x l IH]; intros prefix s; simpl.
  { exists (reverse prefix). split; [done|]. by rewrite app_nil_r, reverse_Permutation. }
  destruct (insert_tail_run cmp x prefix (λ prefix, insertion_loop prefix l) s) as (t & s' & Ht & ->).
  destruct (IH t s') as (u & -> & Hu). exists u. split; [done|]. rewrite Hu, Ht. simpl.
  apply Permutation_middle.
Qed.

Context (cmp : A → A → comparison) (l : list A) (Hcmp : preorder_among cmp l).

Definition descending (prefix : list A) : Prop := StronglySorted (λ a b, cmp b a ≠ Gt) prefix.

Lemma insert_tail_pure x prefix k :
  x ∈ l → Forall (λ y, y ∈ l) prefix → descending prefix →
  ∃ t, run_pure cmp (insert_tail x prefix k) = run_pure cmp (k t) ∧
    t ≡ₚ x :: prefix ∧ descending t ∧
    ∀ z, z ∈ l → filter (λ y, cmp z y = Eq) t = filter (λ y, cmp z y = Eq) (x :: prefix).
Proof.
  destruct Hcmp as [Hanti Htrans]. intros Hx. unfold descending.
  revert k. induction prefix as [|p ps IH]; intros k Hl Hs.
  { exists [x]. split_and!; [done..|by repeat constructor|done]. }
  apply Forall_cons in Hl as [Hp Hps]. apply StronglySorted_inv in Hs as [Hs Hall].
  assert (cmp x p ≠ Lt → StronglySorted (λ a b, cmp b a ≠ Gt) (x :: p :: ps)) as Hplace.
  { intros Hn. assert (cmp p x ≠ Gt) as Hpx by (rewrite (Hanti x p) by done; by destruct (cmp x p)).
    constructor; [by constructor|]. constructor; [done|].
    rewrite list.Forall_forall in *. intros y Hy. apply (Htrans y p x); auto. }
  unfold run_pure. cbn [insert_tail run_plan]. destruct (cmp x p) eqn:E.
  1,3: exists (x :: p :: ps); split_and!; [done..|by apply Hplace|done].
  destruct (IH (λ t, k (p :: t)) Hps Hs) as (t & Hrun & Hperm & Hsorted & Hstable).
  exists (p :: t). split_and!; [done| | |].
  - rewrite Hperm. apply Permutation_swap.
  - constructor; [done|]. rewrite Hperm. constructor; [by rewrite E|done].
  - intros z Hz. specialize (Hstable z Hz). rewrite !filter_cons in *. rewrite Hstable.
    destruct (decide (cmp z p = Eq)) as [Hzp|]; [|done].
    destruct (decide (cmp z x = Eq)) as [Hzx|]; [|done]. exfalso.
    assert (cmp p x ≠ Gt) as Hpx.
    { apply (Htrans p z x); try done; [|by rewrite Hzx]. by rewrite (Hanti z p), Hzp. }
    apply Hpx. by rewrite (Hanti x p), E.
Qed.

Lemma insertion_loop_stable prefix done_ rest :
  l = done_ ++ rest → prefix ≡ₚ done_ → descending prefix →
  (∀ z, z ∈ l → filter (λ y, cmp z y = Eq) prefix = filter (λ y, cmp z y = Eq) (reverse done_)) →
  ∃ k, run_pure cmp (insertion_loop prefix rest) = Some k ∧ stably_sorted cmp l k.
Proof.
  revert prefix done_. induction rest as [|x rest IH]; intros prefix done_ Hl Hperm Hs Hst; simpl.
  - rewrite app_nil_r in Hl. exists (reverse prefix). split; [done|]. split_and!.
    + by rewrite reverse_Permutation, Hl.
    + clear - Hs. induction Hs as [|p ps Hs IH Hall]; [constructor|]. rewrite reverse_cons.
      apply StronglySorted_app_2; [|done|by repeat constructor].
      intros a b Ha ->%list_elem_of_singleton.
      rewrite elem_of_reverse in Ha. rewrite list.Forall_forall in Hall. exact (Hall a Ha).
    + intros z Hz. apply (inj reverse). rewrite <- !filter_reverse, reverse_involutive.
      rewrite Hst by done. by rewrite <- Hl.
  - assert (x ∈ l) as Hx by (rewrite Hl; set_solver).
    destruct (insert_tail_pure x prefix (λ prefix, insertion_loop prefix rest) Hx)
      as (t & -> & Ht & Hts & Htst); [|done|].
    { rewrite Hperm, Hl. apply list.Forall_forall. set_solver. }
    apply (IH t (done_ ++ [x])).
    + by rewrite <- app_assoc.
    + rewrite Ht, Hperm. by rewrite Permutation_app_comm.
    + done.
    + intros z Hz. rewrite reverse_snoc, Htst by done. rewrite !filter_cons. by rewrite Hst.
Qed.
End Insertion.

#[export] Instance insertion_sort_stable : StableSort (@insertion_sort).
Proof.
  split.
  - intros A l. apply insertion_loop_asks; [done|]. by apply list.Forall_forall.
  - intros A S cmp l k s H. destruct (insertion_loop_run cmp [] l s) as (t & Ht & Hp).
    unfold insertion_sort in H. rewrite Ht in H. by simplify_eq.
  - intros A cmp l Hcmp. apply (insertion_loop_stable cmp l Hcmp [] []); [done|done|constructor|done].
Qed.
