(* ===== verification/Security.v ===== *)
(** * Secrets and redaction ([opaal-runtime/src/security.rs])

    The store of explicitly injected secrets, the encodings under which a
    payload must not leave the program, and the redaction of byte strings and
    of text.  Zeroing the memory of a dropped secret has no value to model. *)
From stdpp Require Import gmap.
From S2P Require Import Prelude Utf8 Order.

Local Open Scope res_scope.

(** ** Data *)

Definition REDACTED : str := bs "[redacted]".
Definition MAX_SECRETS : nat := 8.
Definition MAX_SECRET_BYTES : Z := 65536.

Definition SecretId : Type := str.

Inductive SecretError :=
| EmptyId | EmptyPayload
| PayloadTooLarge (size max : Z)
| TooManySecrets (max : nat)
| DuplicateId (id : SecretId).

Definition SecretId_new (value : str) : res SecretError SecretId :=
  if bool_decide (value = []) then Err EmptyId else Ok value.

Record Secret := mkSecret { secret_id : SecretId; payload : str }.

Definition Secret_new (id : SecretId) (bytes : str) : res SecretError Secret :=
  if bool_decide (bytes = []) then Err EmptyPayload
  else if (MAX_SECRET_BYTES <? Z.of_nat (length bytes))%Z
  then Err (PayloadTooLarge (Z.of_nat (length bytes)) MAX_SECRET_BYTES)
  else Ok (mkSecret id bytes).

(** [SecretNeedles] is the vector itself. *)
Record SecretStore := mkStore {
  secrets : gmap SecretId Secret;
  seen_ids : gset SecretId;
  redaction_needles : list str
}.

Definition SecretStore_new : SecretStore := mkStore ∅ ∅ [].

(** ** Encodings *)

(** [table[index]]: a panic out of range. *)
Definition index {E} (table : str) (i : Z) : res E u8 :=
  expect_some (if (i <? 0)%Z then None else table !! Z.to_nat i).

(** The digits of one nibble pair, [prefix] first. *)
Fixpoint encode_nibbles {E} (prefix digits bytes : str) : res E str :=
  match bytes with
  | [] => Ok []
  | byte :: bytes =>
    let* high := index digits (Z.shiftr byte 4) in
    let* low := index digits (Z.land byte 15) in
    let* encoded := encode_nibbles prefix digits bytes in
    Ok (prefix ++ high :: low :: encoded)
  end.

Definition encode_hex {E} (bytes : str) : res E str :=
  encode_nibbles [] (bs "0123456789abcdef") bytes.

Definition encode_percent {E} (bytes : str) : res E str :=
  encode_nibbles (bs "%") (bs "0123456789ABCDEF") bytes.

Definition base64_alphabet (url_safe : bool) : str :=
  bs "ABCDEFGHIJKLMNOPQRSTUVWXYZabcdefghijklmnopqrstuvwxyz0123456789" ++
  if url_safe then bs "-_" else bs "+/".

(** One chunk of at most three bytes. *)
Definition encode_chunk {E} (url_safe : bool) (first : u8) (second third : option u8)
    : res E str :=
  let alphabet := base64_alphabet url_safe in
  let s := default 0%Z second in
  let t := default 0%Z third in
  let padding : str := if url_safe then [] else bs "=" in
  let* c0 := index alphabet (Z.shiftr first 2) in
  let* c1 := index alphabet (Z.lor (Z.shiftl (Z.land first 3) 4) (Z.shiftr s 4)) in
  let* c2 := match second with
             | Some _ =>
               let* c := index alphabet (Z.lor (Z.shiftl (Z.land s 15) 2) (Z.shiftr t 6)) in
               Ok [c]
             | None => Ok padding
             end in
  let* c3 := match third with
             | Some _ => let* c := index alphabet (Z.land t 63) in Ok [c]
             | None => Ok padding
             end in
  Ok (c0 :: c1 :: c2 ++ c3).

(** [bytes.chunks(3)]. *)
Fixpoint encode_base64 {E} (bytes : str) (url_safe : bool) : res E str :=
  match bytes with
  | [] => Ok []
  | [a] => encode_chunk url_safe a None None
  | [a; b] => encode_chunk url_safe a (Some b) None
  | a :: b :: c :: bytes =>
    let* chunk := encode_chunk url_safe a (Some b) (Some c) in
    let* encoded := encode_base64 bytes url_safe in
    Ok (chunk ++ encoded)
  end.

Definition make_ascii_uppercase (s : str) : str :=
  (λ b, if (97 <=? b)%Z && (b <=? 122)%Z then b - 32 else b)%Z <$> s.
Definition make_ascii_lowercase (s : str) : str :=
  (λ b, if (65 <=? b)%Z && (b <=? 90)%Z then b + 32 else b)%Z <$> s.

(** Popping every trailing ['=']. *)
Fixpoint strip_padding (s : str) : str :=
  match s with
  | [] => []
  | b :: s =>
    match strip_padding s with
    | [] => if (b =? 61)%Z then [] else [b]
    | s => b :: s
    end
  end.

Section Needles.
(** [serde_json::to_vec] of a string. *)
Context (json_to_vec : str → str).

(** [quoted[1..quoted.len() - 1]]. *)
Definition unquote {E} (quoted : str) : res E str :=
  if length quoted <? 2 then Panic else Ok (sub quoted 1 (length quoted - 1)).

Definition needle_variants {E} (bytes : str) : res E (list str) :=
  let* hex := encode_hex bytes in
  let* standard_base64 := encode_base64 bytes false in
  let* url_base64 := encode_base64 bytes true in
  let padded_url_base64 :=
    url_base64 ++ replicate ((4 - length url_base64 `mod` 4) `mod` 4) 61%Z in
  let* percent := encode_percent bytes in
  let variants :=
    [bytes; hex; make_ascii_uppercase hex; standard_base64; strip_padding standard_base64;
     url_base64; padded_url_base64; percent; make_ascii_lowercase percent] in
  if utf8b bytes then
    let* quoted := unquote (json_to_vec bytes) in
    Ok (variants ++ [quoted])
  else Ok variants.

(** ** Redaction *)

(** Longest first, then by content. *)
Definition longest_first (a b : str) : bool :=
  (length b <? length a) || ((length a =? length b) && bytes_le a b).

Definition sort_longest_first (needles : list str) : list str :=
  sort_by longest_first needles.

(** [(earliest..=latest).any(..)]. *)
Definition contained_in_replacement (input : str) (start stop : nat) : bool :=
  let earliest := start - (length REDACTED - 1) in
  let latest := start `min` (length input - length REDACTED) in
  existsb (λ marker_start,
    starts_with REDACTED (drop marker_start input) &&
    (stop <=? marker_start + length REDACTED))
    (seq earliest (S latest - earliest)).

(** [input.windows(n)] panics on an empty window. *)
Fixpoint contains_unredacted_needle {E} (input : str) (needles : list str) : res E bool :=
  match needles with
  | [] => Ok false
  | needle :: needles =>
    if length needle =? 0 then Panic
    else if existsb (λ start,
        str_eqb (sub input start (start + length needle)) needle &&
        negb (contained_in_replacement input start (start + length needle)))
      (seq 0 (S (length input) - length needle))
    then Ok true
    else contains_unredacted_needle input needles
  end.

(** The scanning loop of [replace_needles]; running out of fuel stands for an
    iteration that never ends. *)
Fixpoint replace_loop {E} (fuel : nat) (input : str) (needles : list str)
    (offset : nat) (output : str) : res E str :=
  match fuel with
  | O => Panic
  | S fuel =>
    match input !! offset with
    | None => Ok output
    | Some byte =>
      let rest := drop offset input in
      let matching_needle := find (λ needle, starts_with needle rest) needles in
      if starts_with REDACTED rest &&
         match matching_needle with
         | None => true
         | Some needle => length needle <=? length REDACTED
         end
      then replace_loop fuel input needles (offset + length REDACTED) (output ++ REDACTED)
      else match matching_needle with
      | Some needle =>
        replace_loop fuel input needles (offset + length needle) (output ++ REDACTED)
      | None => replace_loop fuel input needles (S offset) (output ++ [byte])
      end
    end
  end.

Definition replace_needles {E} (input : str) (needles : list str) : res E str :=
  let* output := replace_loop (S (length input)) input needles 0 [] in
  let* unredacted := contains_unredacted_needle output needles in
  Ok (if (unredacted : bool) then REDACTED else output).

(** ** The store *)

Definition insert (store : SecretStore) (secret : Secret) : res SecretError SecretStore :=
  if bool_decide (secret_id secret ∈ seen_ids store) then Err (DuplicateId (secret_id secret))
  else if size (seen_ids store) =? MAX_SECRETS then Err (TooManySecrets MAX_SECRETS)
  else
    let* variants := needle_variants (payload secret) in
    Ok (mkStore (<[secret_id secret := secret]> (secrets store))
                ({[secret_id secret]} ∪ seen_ids store)
                (sort_longest_first (redaction_needles store ++ variants))).

Definition contains (store : SecretStore) (id : SecretId) : bool :=
  bool_decide (is_Some (secrets store !! id)).

(** The keys in the order of the map. *)
Definition ids (store : SecretStore) : list SecretId :=
  sort_by bytes_le (map_to_list (secrets store)).*1.

(** The callback runs on the payload after the secret left the store. *)
Definition consume_with {T E} (store : SecretStore) (id : SecretId) (sink : str → res E T)
    : res E (option T) * SecretStore :=
  match secrets store !! id with
  | None => (Ok None, store)
  | Some secret =>
    (let* t := sink (payload secret) in Ok (Some t),
     mkStore (delete id (secrets store)) (seen_ids store) (redaction_needles store))
  end.

Definition redact_bytes {E} (store : SecretStore) (input : str) : res E str :=
  replace_needles input (redaction_needles store).

Definition redact_text {E} (store : SecretStore) (input : str) : res E str :=
  let needles := sort_longest_first (filter (λ n, utf8b n = true) (redaction_needles store)) in
  let* output := replace_needles input needles in
  if utf8b output then Ok output else Panic.

End Needles.
