(* ===== verification/SecurityFacts.v ===== *)
(** * Correctness of redaction

    What the store registers for every secret, that a redacted output leaks
    no registered representation, that text redaction keeps UTF-8 (so its
    [expect] holds), and that the encodings decode back. *)
From stdpp Require Import gmap.
From S2P Require Import Prelude Utf8 Order Security.

Local Open Scope res_scope.

(** ** What a redacted output promises *)

(** [needle] stands at [i]. *)
Definition occurs_at (needle input : str) (i : nat) : Prop :=
  sub input i (i + length needle) = needle.

(** The bytes [i .. j) are part of a replacement marker. *)
Definition inside_marker (input : str) (i j : nat) : Prop :=
  ∃ m, m ≤ i ∧ j ≤ m + length REDACTED ∧ starts_with REDACTED (drop m input) = true.

Definition redacted (out : str) (needles : list str) : Prop :=
  ∀ needle, needle ∈ needles → ∀ i, occurs_at needle out i →
    inside_marker out i (i + length needle).

Definition nonempty_needles (needles : list str) : Prop := Forall (λ n, n ≠ []) needles.

Lemma length_REDACTED : length REDACTED = 10.
Proof. done. Qed.

Lemma starts_with_sub p s i :
  starts_with p (drop i s) = true ↔ sub s i (i + length p) = p.
Proof.
  rewrite starts_with_spec. unfold sub. replace (i + length p - i) with (length p) by lia.
  split.
  - intros [r ->]. apply take_app_length.
  - intros Hs. exists (drop (length p) (drop i s)). by rewrite <- Hs at 1; rewrite take_drop.
Qed.

Lemma occurs_at_bound needle input i :
  needle ≠ [] → occurs_at needle input i → i + length needle ≤ length input.
Proof.
  unfold occurs_at, sub. intros Hne H. apply (f_equal length) in H.
  rewrite length_take, length_drop in H. destruct needle; [done|]. simpl in *. lia.
Qed.

Lemma contained_in_replacement_spec input i j :
  i < j → contained_in_replacement input i j = true ↔ inside_marker input i j.
Proof.
  intros Hij. unfold contained_in_replacement. rewrite existsb_exists, length_REDACTED.
  split.
  - intros (m & [Hlo Hhi]%in_seq & [Hs Hj%Nat.leb_le]%andb_true_iff).
    exists m. rewrite length_REDACTED. split_and!; [lia|lia|done].
  - intros (m & Hm & Hj & Hs). rewrite length_REDACTED in Hj. exists m. split.
    + apply in_seq. apply starts_with_length in Hs as Hl.
      rewrite length_drop, length_REDACTED in Hl. lia.
    + rewrite Hs. by apply Nat.leb_le.
Qed.

Lemma contains_unredacted_spec {E} input needles :
  nonempty_needles needles →
  ∃ b, contains_unredacted_needle (E:=E) input needles = Ok b ∧
    (b = false ↔ redacted input needles).
Proof.
  induction 1 as [|needle needles Hne Hall (b & IH & Hb)]; simpl.
  { exists false. split; [done|]. split; [|done]. intros _ n Hn. by apply not_elem_of_nil in Hn. }
  destruct needle as [|x needle]; [done|]. set (n := x :: needle) in *.
  destruct (length n =? 0) eqn:Hz; [done|]. clear Hz.
  match goal with |- context [existsb ?f ?l] => destruct (existsb f l) eqn:Hex end.
  - exists true. split; [done|]. split; [done|]. intros Hr. exfalso.
    apply existsb_exists in Hex as (i & _ & [Hs Hc]%andb_true_iff).
    apply str_eqb_eq in Hs. apply negb_true_iff in Hc.
    assert (inside_marker input i (i + length n)) as Hin by (apply (Hr n); [left|done]).
    apply contained_in_replacement_spec in Hin; [congruence|simpl; lia].
  - exists b. split; [done|]. rewrite Hb. split.
    + intros Hr m [->|Hm]%elem_of_cons i Hi; [|by apply Hr].
      pose proof (occurs_at_bound _ _ _ Hne Hi) as Hbound.
      apply contained_in_replacement_spec; [simpl; lia|].
      destruct (contained_in_replacement input i (i + length n)) eqn:Hc; [done|].
      enough (false = true) by done. rewrite <- Hex. apply existsb_exists. exists i. split.
      * apply in_seq. simpl in *. lia.
      * rewrite Hc, andb_true_r. by apply str_eqb_eq.
    + intros Hr m Hm. apply Hr. by right.
Qed.

Lemma redacted_marker needles : nonempty_needles needles → redacted REDACTED needles.
Proof.
  intros Hne n Hn i Hi. unfold nonempty_needles in Hne. rewrite list.Forall_forall in Hne.
  apply occurs_at_bound in Hi; [|by apply Hne]. exists 0. split_and!; [lia|lia|done].
Qed.

(** ** The scan *)

Lemma find_needle needles s n :
  find (λ needle, starts_with needle s) needles = Some n →
  n ∈ needles ∧ starts_with n s = true.
Proof. intros [H1 H2]%find_some. by rewrite list_elem_of_In. Qed.

(** Each iteration moves forward, so the loop ends; an invariant of the output
    and the rest of the input that copying a byte, copying a marker and
    replacing a needle keep holds at the end. *)
Lemma replace_loop_ind {E} (input : str) (needles : list str) (I : nat → str → Prop) :
  nonempty_needles needles →
  (∀ o out b, input !! o = Some b → I o out → I (S o) (out ++ [b])) →
  (∀ o out n, n = REDACTED ∨ n ∈ needles → starts_with n (drop o input) = true →
     I o out → I (o + length n) (out ++ REDACTED)) →
  ∀ fuel o out, length input - o < fuel → o ≤ length input → I o out →
  ∃ res, replace_loop (E:=E) fuel input needles o out = Ok res ∧ I (length input) res.
Proof.
  intros Hne Hbyte Hmark. unfold nonempty_needles in Hne. rewrite list.Forall_forall in Hne.
  induction fuel as [|fuel IH]; intros o out Hf Ho HI; [lia|]. cbn [replace_loop].
  destruct (input !! o) as [b|] eqn:Hb.
  2: { apply lookup_ge_None in Hb. exists out. split; [done|]. by replace (length input) with o by lia. }
  apply lookup_lt_Some in Hb as Hlt.
  assert (∀ n, n = REDACTED ∨ n ∈ needles → starts_with n (drop o input) = true →
    ∃ res, replace_loop (E:=E) fuel input needles (o + length n) (out ++ REDACTED) = Ok res ∧
      I (length input) res) as Hstep.
  { intros n Hn Hs. assert (0 < length n).
    { destruct Hn as [->|Hn]; [simpl; lia|]. apply Hne in Hn. destruct n; [done|simpl; lia]. }
    apply starts_with_length in Hs as Hl. rewrite length_drop in Hl.
    apply IH; [lia|lia|]. by apply Hmark. }
  set (found := find _ needles).
  destruct (starts_with REDACTED (drop o input) &&
    match found with None => true | Some needle => length needle <=? length REDACTED end) eqn:Hr.
  - apply andb_true_iff in Hr as [Hr _]. apply Hstep; [by left|done].
  - destruct found as [n|] eqn:Hn.
    + apply find_needle in Hn as [Hn Hs]. apply Hstep; [by right|done].
    + apply IH; [lia|lia|]. by apply Hbyte.
Qed.

Lemma replace_needles_total {E} input needles :
  nonempty_needles needles →
  ∃ out, replace_needles (E:=E) input needles = Ok out ∧ redacted out needles.
Proof.
  intros Hne. unfold replace_needles.
  destruct (replace_loop_ind (E:=E) input needles (λ _ _, True) Hne) with
    (fuel := S (length input)) (o := 0) (out := @nil Z) as (out & -> & _); [done..|lia|lia|done|].
  simpl. destruct (contains_unredacted_spec (E:=E) out needles Hne) as (b & -> & Hb). simpl.
  destruct b; [exists REDACTED|exists out]; (split; [done|]); [by apply redacted_marker|tauto].
Qed.

Lemma utf8_split_at a n r : utf8 (a ++ n ++ r) → utf8 n → n ≠ [] → utf8 a ∧ utf8 r.
Proof.
  intros H Hn Hne. destruct n as [|b n]; [done|].
  destruct (utf8_cons_inv _ _ Hn) as (c & w & Hd).
  apply decode_char_shape, shape_head in Hd as (b' & Hb & Hc & _). injection Hb as <-.
  assert (is_char_boundary (a ++ (b :: n) ++ r) (length a) = true) as Ha.
  { eapply boundary_lookup; [|exact Hc]. by rewrite lookup_app_r, Nat.sub_diag by lia. }
  destruct (utf8_ind_boundary _ _ H Ha) as [Hd Ht].
  rewrite drop_app_length in Hd. rewrite take_app_length in Ht. split; [done|].
  clear H Ha Ht. revert Hn Hd. generalize (b :: n). intros s Hs.
  induction Hs as [|s c' w' Hd' Hs' IH]; [done|]. intros Hu. apply IH.
  apply decode_char_shape in Hd'. pose proof (shape_width _ _ _ Hd') as [_ Hw].
  assert (decode_char (s ++ r) = DChar c' w') as Hd2.
  { apply shape_decode_char. destruct Hd'; subst; simpl; by econstructor. }
  rewrite <- drop_app_le by lia. by eapply utf8_inv.
Qed.

Lemma REDACTED_utf8 : utf8 REDACTED.
Proof. by apply utf8b_spec. Qed.

Lemma replace_needles_utf8 {E} input needles out :
  nonempty_needles needles → Forall utf8 needles → utf8 input →
  replace_needles (E:=E) input needles = Ok out → utf8 out.
Proof.
  intros Hne Hu Hin. unfold replace_needles.
  destruct (replace_loop_ind (E:=E) input needles (λ o out, utf8 (out ++ drop o input)) Hne) with
    (fuel := S (length input)) (o := 0) (out := @nil Z) as (out' & -> & Hout).
  - intros o w b Hb HI. rewrite <- app_assoc. simpl. by rewrite <- drop_S with (1 := Hb).
  - intros o w n Hn Hs HI. apply starts_with_spec in Hs as [r Hr].
    rewrite Hr in HI. rewrite <- drop_drop, Hr, drop_app_length.
    rewrite <- app_assoc. assert (utf8 n ∧ n ≠ []) as [Hn1 Hn2].
    { destruct Hn as [->|Hn]; [split; [apply REDACTED_utf8|done]|].
      unfold nonempty_needles in Hne. rewrite list.Forall_forall in Hne, Hu. auto. }
    destruct (utf8_split_at _ _ _ HI Hn1 Hn2) as [H1 H2].
    apply utf8_app; [done|]. apply utf8_app; [apply REDACTED_utf8|done].
  - lia.
  - lia.
  - done.
  - rewrite drop_all, app_nil_r in Hout. simpl.
    destruct (contains_unredacted_spec (E:=E) out' needles Hne) as (b & -> & _). simpl.
    intros [= <-]. destruct b; [apply REDACTED_utf8|done].
Qed.

(** A needle-free input passes unchanged. *)
Lemma replace_needles_id {E} input needles :
  nonempty_needles needles →
  (∀ n, n ∈ needles → ∀ i, ¬ occurs_at n input i) →
  replace_needles (E:=E) input needles = Ok input.
Proof.
  intros Hne Hfree. unfold replace_needles.
  destruct (replace_loop_ind (E:=E) input needles (λ o out, out = take o input) Hne) with
    (fuel := S (length input)) (o := 0) (out := @nil Z) as (out & -> & ->).
  - intros o w b Hb ->. by rewrite (take_S_r _ _ _ Hb).
  - intros o w n Hn Hs ->. rewrite starts_with_sub in Hs. destruct Hn as [->|Hn].
    + unfold sub in Hs. rewrite Nat.add_comm, Nat.add_sub in Hs.
      rewrite <- take_take_drop. by rewrite Hs.
    + by destruct (Hfree n Hn o).
  - lia.
  - lia.
  - by rewrite take_0.
  - rewrite firstn_all. simpl.
    destruct (contains_unredacted_spec (E:=E) input needles Hne) as (b & -> & Hb). simpl.
    destruct b; [|done]. exfalso. assert (true = false) by (apply Hb; intros n Hn i Hi;
      by destruct (Hfree n Hn i)). done.
Qed.

(** ** Encodings *)

(** Reference decoders. *)
Definition digit_value (table : str) (c : u8) : option Z :=
  Z.of_nat ∘ fst <$> list_find (λ x, x = c) table.

Fixpoint decode_nibbles (prefix digits : str) (fuel : nat) (s : str) : option str :=
  match fuel, s with
  | _, [] => Some []
  | O, _ => None
  | S fuel, _ =>
    if starts_with prefix s then
      match drop (length prefix) s with
      | h :: l :: s =>
        h ← digit_value digits h; l ← digit_value digits l;
        rest ← decode_nibbles prefix digits fuel s; Some (16 * h + l :: rest)%Z
      | _ => None
      end
    else None
  end.

(** Groups of four characters, the last one possibly short; no padding. *)
Fixpoint decode_base64 (url_safe : bool) (s : str) : option str :=
  let value := digit_value (base64_alphabet url_safe) in
  match s with
  | [] => Some []
  | [c0; c1] => i0 ← value c0; i1 ← value c1; Some [4 * i0 + i1 / 16]%Z
  | [c0; c1; c2] =>
    i0 ← value c0; i1 ← value c1; i2 ← value c2;
    Some [4 * i0 + i1 / 16; 16 * (i1 mod 16) + i2 / 4]%Z
  | c0 :: c1 :: c2 :: c3 :: s =>
    i0 ← value c0; i1 ← value c1; i2 ← value c2; i3 ← value c3;
    rest ← decode_base64 url_safe s;
    Some (4 * i0 + i1 / 16 :: 16 * (i1 mod 16) + i2 / 4 :: 64 * (i2 mod 4) + i3 :: rest)%Z
  | _ => None
  end.

Lemma index_ok {E} table i :
  (0 ≤ i < Z.of_nat (length table))%Z → NoDup table →
  ∃ c, index (E:=E) table i = Ok c ∧ digit_value table c = Some i ∧ c ∈ table.
Proof.
  intros Hi Hnd. destruct (lookup_lt_is_Some_2 table (Z.to_nat i)) as [c Hc]; [lia|].
  exists c. unfold index. rewrite (proj2 (Z.ltb_ge i 0)), Hc by lia. split; [done|].
  split; [|by eapply list_elem_of_lookup_2]. unfold digit_value.
  assert (list_find (λ x, x = c) table = Some (Z.to_nat i, c)) as ->.
  { apply list_find_Some. split_and!; [done|done|]. intros j y Hj Hlt ->.
    pose proof (NoDup_lookup _ _ _ _ Hnd Hj Hc). lia. }
  simpl. f_equal. lia.
Qed.

Lemma byte_range_high b : is_byte b → (0 ≤ Z.shiftr b 4 < 16)%Z.
Proof. unfold is_byte. rewrite Z.shiftr_div_pow2 by lia. intros. change (2^4)%Z with 16%Z.
  Z.to_euclidean_division_equations; lia. Qed.

Lemma land_15 b : Z.land b 15 = (b mod 16)%Z.
Proof. change 15%Z with (Z.ones 4). by rewrite Z.land_ones by lia. Qed.

Lemma nibble_split b : is_byte b → (16 * Z.shiftr b 4 + Z.land b 15)%Z = b.
Proof.
  intros _. rewrite land_15, Z.shiftr_div_pow2 by lia. change (2^4)%Z with 16%Z.
  Z.to_euclidean_division_equations; lia.
Qed.

Lemma encode_nibbles_decode {E} prefix digits bytes :
  length digits = 16 → NoDup digits → Forall is_byte bytes →
  ∃ s, encode_nibbles (E:=E) prefix digits bytes = Ok s ∧
    length s = (length prefix + 2) * length bytes ∧
    ∀ fuel, length bytes ≤ fuel → decode_nibbles prefix digits fuel s = Some bytes.
Proof.
  intros Hlen Hnd. induction 1 as [|b bytes Hb Hbytes (s & Hs & Hl & IH)]; simpl.
  { exists []. split_and!; [done|simpl; lia|]. by intros []. }
  pose proof (byte_range_high b Hb) as Hh.
  destruct (index_ok (E:=E) digits (Z.shiftr b 4)) as (h & -> & Hhv & _); [lia|done|].
  destruct (index_ok (E:=E) digits (Z.land b 15)) as (l & -> & Hlv & _).
  { rewrite land_15, Hlen. apply Z.mod_pos_bound. lia. } { done. }
  simpl. rewrite Hs. simpl. eexists. split; [done|]. split.
  { rewrite length_app. simpl. lia. }
  intros [|fuel] Hf; [lia|]. cbn [decode_nibbles].
  destruct (prefix ++ h :: l :: s) as [|x r] eqn:Hp; [by destruct prefix|]. rewrite <- Hp.
  rewrite (proj2 (starts_with_spec prefix _)) by eauto. rewrite drop_app_length.
  rewrite Hhv. simpl. rewrite Hlv. simpl. rewrite IH by lia. simpl. by rewrite nibble_split.
Qed.

(** The bits of a high part and of a low part do not meet. *)
Lemma lor_shiftl x n y :
  (0 ≤ n → 0 ≤ y < 2 ^ n → Z.lor (Z.shiftl x n) y = x * 2 ^ n + y)%Z.
Proof.
  intros Hn Hy. rewrite <- Z.shiftl_mul_pow2 by lia.
  assert (Z.land (Z.shiftl x n) y = 0)%Z as Hl.
  { apply Z.bits_inj'. intros i Hi. rewrite Z.land_spec, Z.bits_0.
    destruct (Z.lt_ge_cases i n).
    - by rewrite Z.shiftl_spec_low.
    - rewrite <- (Z.mod_small y (2 ^ n)) by lia.
      rewrite Z.mod_pow2_bits_high by lia. apply andb_false_r. }
  by rewrite <- Z.lxor_lor, <- Z.add_nocarry_lxor.
Qed.

Lemma land_low b n : (0 ≤ n)%Z → Z.land b (Z.ones n) = (b mod 2 ^ n)%Z.
Proof. intros. by apply Z.land_ones. Qed.

(** The three sextets that mix two bytes, as arithmetic. *)
Lemma sextets a b c :
  is_byte a → is_byte b → is_byte c →
  (Z.shiftr a 2 = a / 4 ∧
   Z.lor (Z.shiftl (Z.land a 3) 4) (Z.shiftr b 4) = 16 * (a mod 4) + b / 16 ∧
   Z.lor (Z.shiftl (Z.land b 15) 2) (Z.shiftr c 6) = 4 * (b mod 16) + c / 64 ∧
   Z.land c 63 = c mod 64)%Z.
Proof.
  unfold is_byte. intros Ha Hb Hc.
  change 3%Z with (Z.ones 2); change 15%Z with (Z.ones 4); change 63%Z with (Z.ones 6).
  rewrite !land_low, !Z.shiftr_div_pow2 by lia.
  change (2 ^ 2)%Z with 4%Z; change (2 ^ 4)%Z with 16%Z; change (2 ^ 6)%Z with 64%Z.
  rewrite !lor_shiftl; [change (2 ^ 2)%Z with 4%Z; change (2 ^ 4)%Z with 16%Z|..];
    [split_and!; lia|lia| |lia|];
    Z.to_euclidean_division_equations; lia.
Qed.

Lemma alphabet_ok url : length (base64_alphabet url) = 64 ∧ NoDup (base64_alphabet url) ∧
  61%Z ∉ base64_alphabet url.
Proof.
  destruct url; split_and!; try reflexivity; apply (bool_decide_unpack _); vm_compute; exact I.
Qed.

(** A [Forall] over a literal list whose elements are known. *)
Ltac forall_known :=
  repeat (apply Forall_cons_2; [assumption|]); apply Forall_nil_2.

Section Base64.
Context {E : Type} (url : bool).

Notation alphabet := (base64_alphabet url).

Lemma sextet i :
  (0 ≤ i < 64)%Z →
  ∃ c, index (E:=E) alphabet i = Ok c ∧ digit_value alphabet c = Some i ∧ c ∈ alphabet.
Proof.
  intros Hi. destruct (alphabet_ok url) as (Hl & Hnd & _). apply index_ok; [by rewrite Hl|done].
Qed.

(** A chunk is the sextets of its bytes, then padding. *)
Definition padding (n : nat) : str := if url then [] else replicate n 61%Z.

Lemma encode_chunk_decode (a : u8) (b c : option u8) :
  is_byte a → from_option is_byte True b → from_option is_byte True c → (b = None → c = None) →
  ∃ s n, encode_chunk (E:=E) url a b c = Ok (s ++ padding n) ∧
    Forall (λ x, x ∈ alphabet) s ∧ length s + n = 4 ∧
    length s = 2 + length (option_list b) + length (option_list c) ∧
    ∀ r tail, decode_base64 url r = Some tail → (r = [] ∨ is_Some c) →
      decode_base64 url (s ++ r) = Some (a :: option_list b ++ option_list c ++ tail).
Proof.
  intros Ha Hb Hc Hbc. unfold encode_chunk.
  assert (is_byte (default 0%Z b) ∧ is_byte (default 0%Z c)) as [Hb' Hc'].
  { by destruct b, c. }
  destruct (sextets a _ _ Ha Hb' Hc') as (-> & -> & -> & ->).
  set (b0 := default 0%Z b) in *. set (c0 := default 0%Z c) in *.
  assert (0 ≤ a < 256 ∧ 0 ≤ b0 < 256 ∧ 0 ≤ c0 < 256)%Z as (Ra & Rb & Rc) by done.
  destruct (sextet (a / 4)) as (x0 & -> & Hv0 & Hx0);
    [Z.to_euclidean_division_equations; lia|].
  destruct (sextet (16 * (a mod 4) + b0 / 16)) as (x1 & -> & Hv1 & Hx1);
    [Z.to_euclidean_division_equations; lia|].
  destruct (sextet (4 * (b0 mod 16) + c0 / 64)) as (x2 & -> & Hv2 & Hx2);
    [Z.to_euclidean_division_equations; lia|].
  destruct (sextet (c0 mod 64)) as (x3 & -> & Hv3 & Hx3);
    [Z.to_euclidean_division_equations; lia|].
  assert (4 * (a / 4) + (16 * (a mod 4) + b0 / 16) / 16 = a)%Z as E0
    by (Z.to_euclidean_division_equations; lia).
  assert (16 * ((16 * (a mod 4) + b0 / 16) mod 16) + (4 * (b0 mod 16) + c0 / 64) / 4 = b0)%Z as E1
    by (Z.to_euclidean_division_equations; lia).
  assert (64 * ((4 * (b0 mod 16) + c0 / 64) mod 4) + c0 mod 64 = c0)%Z as E2
    by (Z.to_euclidean_division_equations; lia).
  destruct b as [b|]; [destruct c as [c|]|rewrite Hbc by done; simpl]; simpl in b0, c0.
  - exists [x0; x1; x2; x3], 0. simpl. split_and!; [by unfold padding; destruct url|by forall_known|done|done|].
    intros r tail Hr _. rewrite Hv0, Hv1, Hv2, Hv3. simpl. rewrite Hr. cbn. by rewrite E0, E1, E2.
  - exists [x0; x1; x2], 1. simpl. split_and!; [by unfold padding; destruct url|by forall_known|done|done|].
    intros r tail Hr [->|[? ?]]; [|done]. injection Hr as <-. simpl.
    rewrite Hv0, Hv1, Hv2. simpl. by rewrite E0, E1.
  - exists [x0; x1], 2. simpl. split_and!; [by unfold padding; destruct url|by forall_known|done|done|].
    intros r tail Hr [->|[? ?]]; [|done]. injection Hr as <-. simpl.
    rewrite Hv0, Hv1. simpl. by rewrite E0.
Qed.
End Base64.

Lemma chunks_ind (P : str → Prop) :
  P [] → (∀ a, P [a]) → (∀ a b, P [a; b]) →
  (∀ a b c l, P l → P (a :: b :: c :: l)) → ∀ l, P l.
Proof.
  intros H0 H1 H2 H3 l. remember (length l) as n eqn:Hn.
  revert l Hn. induction n as [n IH] using lt_wf_ind; intros [|a [|b [|c l]]] ->; auto.
  apply H3. eapply IH; [|done]. simpl. lia.
Qed.

Lemma encode_base64_decode {E} url bytes :
  Forall is_byte bytes →
  ∃ s n, encode_base64 (E:=E) bytes url = Ok (s ++ padding url n) ∧
    Forall (λ x, x ∈ base64_alphabet url) s ∧ n ≤ 2 ∧ (length s + n) `mod` 4 = 0 ∧
    length bytes ≤ length s ∧ decode_base64 url s = Some bytes.
Proof.
  induction bytes as [|a|a b|a b c bytes IH] using chunks_ind; intros Hb.
  - exists [], 0. by split_and!; try (by destruct url); try lia.
  - apply Forall_cons_1 in Hb as [Ha _].
    destruct (encode_chunk_decode (E:=E) url a None None) as (s & n & He & Hs & Hl & Hls & Hd);
      [done..|]. simpl in Hls.
    exists s, n. split_and!; [done|done|lia|by rewrite Hl|simpl; lia|].
    rewrite <- (app_nil_r s). by apply (Hd [] []); [|left].
  - apply Forall_cons_1 in Hb as [Ha Hb]. apply Forall_cons_1 in Hb as [Hb _].
    destruct (encode_chunk_decode (E:=E) url a (Some b) None) as (s & n & He & Hs & Hl & Hls & Hd);
      [done..|]. simpl in Hls.
    exists s, n. split_and!; [done|done|lia|by rewrite Hl|simpl; lia|].
    rewrite <- (app_nil_r s). by apply (Hd [] []); [|left].
  - apply Forall_cons_1 in Hb as [Ha Hb]. apply Forall_cons_1 in Hb as [Hb Hb'].
    apply Forall_cons_1 in Hb' as [Hc Hbytes].
    destruct (IH Hbytes) as (s & n & He & Hs & Hn & Hl & Hle & Hd).
    destruct (encode_chunk_decode (E:=E) url a (Some b) (Some c)) as (t & m & Het & Ht & Hlt & Hls & Hdt);
      [done..|]. simpl in Hls. assert (m = 0) as -> by lia.
    exists (t ++ s), n. cbn [encode_base64]. rewrite Het, He. cbn [res_bind].
    split_and!.
    + by destruct url; simpl; rewrite ?app_nil_r, <- ?app_assoc.
    + by apply Forall_app.
    + done.
    + rewrite length_app. replace (length t + length s + n) with ((length s + n) + 1 * 4) by lia.
      by rewrite Nat.Div0.mod_add.
    + rewrite length_app. simpl. lia.
    + apply Hdt; eauto.
Qed.

Lemma strip_padding_replicate n : strip_padding (replicate n 61%Z) = [].
Proof. induction n as [|n IH]; [done|]. simpl. by rewrite IH. Qed.

Lemma strip_padding_app s n : 61%Z ∉ s → strip_padding (s ++ replicate n 61%Z) = s.
Proof.
  induction s as [|x s IH]; intros Hs; [apply strip_padding_replicate|].
  apply not_elem_of_cons in Hs as [Hx Hs]. simpl. rewrite IH by done.
  destruct s; [|done]. by rewrite (proj2 (Z.eqb_neq x 61)).
Qed.

Lemma index_fmap {E} (f : u8 → u8) table i :
  index (E:=E) (f <$> table) i =
    match index (E:=E) table i with Ok c => Ok (f c) | Err e => Err e | Panic => Panic end.
Proof.
  unfold index. destruct (i <? 0)%Z; [done|]. rewrite list_lookup_fmap.
  by destruct (table !! _).
Qed.

Lemma encode_nibbles_fmap {E} (f : u8 → u8) prefix digits bytes s :
  encode_nibbles (E:=E) prefix digits bytes = Ok s →
  encode_nibbles (E:=E) (f <$> prefix) (f <$> digits) bytes = Ok (f <$> s).
Proof.
  revert s. induction bytes as [|b bytes IH]; simpl; intros s; [by intros [= <-]|].
  rewrite !index_fmap. destruct (index digits _) as [h| |]; [|done..]. simpl.
  destruct (index digits _) as [l| |]; [|done..]. simpl.
  destruct (encode_nibbles prefix digits bytes) as [r| |]; [|done..]. simpl.
  rewrite (IH r) by done. simpl. intros [= <-]. by rewrite fmap_app.
Qed.

(** ** The registered representations *)

Definition lower_digits : str := bs "0123456789abcdef".
Definition upper_digits : str := bs "0123456789ABCDEF".

Section Store.
Context (json_to_vec : str → str).

(** A serialized string stands between quotes, and text is not serialized to
    nothing. *)
Definition json_string_literal : Prop :=
  ∀ t, utf8 t → ∃ body, json_to_vec t = [34%Z] ++ body ++ [34%Z] ∧ (t ≠ [] → body ≠ []).

(** [vs] holds the payload and what each encoding makes of it, the base64
    forms with and without padding. *)
Definition covers (p : str) (vs : list str) : Prop :=
  p ∈ vs ∧
  (∀ digits, digits ∈ [lower_digits; upper_digits] →
    (∃ s, s ∈ vs ∧ decode_nibbles [] digits (length p) s = Some p) ∧
    (∃ s, s ∈ vs ∧ decode_nibbles (bs "%") digits (length p) s = Some p)) ∧
  (∀ url, ∃ s n, n ≤ 2 ∧ (length s + n) `mod` 4 = 0 ∧ decode_base64 url s = Some p ∧
    s ∈ vs ∧ s ++ replicate n 61%Z ∈ vs) ∧
  (utf8 p → ∃ body, json_to_vec p = [34%Z] ++ body ++ [34%Z] ∧ body ∈ vs).

Lemma covers_mono p vs ws : (∀ v, v ∈ vs → v ∈ ws) → covers p vs → covers p ws.
Proof.
  intros Hsub (Hp & Hd & Hb & Hj). split_and!; [auto| | |].
  - intros digits [(s & Hs & ?) (t & Ht & ?)]%Hd. split; eauto.
  - intros url. destruct (Hb url) as (s & n & ? & ? & ? & ? & ?). exists s, n. auto 10.
  - intros (body & ? & ?)%Hj. eauto.
Qed.

Lemma padding_needed n l : n ≤ 2 → (l + n) `mod` 4 = 0 → (4 - l `mod` 4) `mod` 4 = n.
Proof.
  intros Hn Hm. assert (∃ k, l + n = 4 * k) as [k Hk].
  { exists ((l + n) / 4). pose proof (Nat.div_mod (l + n) 4). lia. }
  assert (l `mod` 4 = (4 - n) `mod` 4) as ->.
  { destruct n as [|[|[|]]]; [..|lia].
    - replace l with (0 + k * 4) by lia. by rewrite Nat.Div0.mod_add.
    - replace l with (3 + (k - 1) * 4) by lia. by rewrite Nat.Div0.mod_add.
    - replace l with (2 + (k - 1) * 4) by lia. by rewrite Nat.Div0.mod_add. }
  by destruct n as [|[|[|]]]; [..|lia].
Qed.

Lemma unquote_literal {E} body : unquote (E:=E) ([34%Z] ++ body ++ [34%Z]) = Ok body.
Proof.
  unfold unquote. rewrite !length_app. simpl length. rewrite (proj2 (Nat.ltb_ge _ _)) by lia.
  f_equal. unfold sub. simpl. replace (length body + 1 - 0 - 1) with (length body) by lia.
  apply take_app_length.
Qed.

Lemma digits_ok digits :
  digits ∈ [lower_digits; upper_digits] → length digits = 16 ∧ NoDup digits.
Proof.
  intros [->|[->|[]%not_elem_of_nil]%elem_of_cons]%elem_of_cons; split; try done;
    apply (bool_decide_unpack _); vm_compute; exact I.
Qed.

Lemma digits_lower : lower_digits ∈ [lower_digits; upper_digits].
Proof. left. Qed.
Lemma digits_upper : upper_digits ∈ [lower_digits; upper_digits].
Proof. right. left. Qed.

Hypothesis Hjson : json_string_literal.

Lemma needle_variants_cover {E} p :
  p ≠ [] → Forall is_byte p →
  ∃ vs, needle_variants (E:=E) json_to_vec p = Ok vs ∧ nonempty_needles vs ∧ covers p vs.
Proof.
  intros Hne Hp. unfold needle_variants, encode_hex, encode_percent.
  assert (0 < length p) as Hlen by (destruct p; [done|simpl; lia]).
  destruct (digits_ok _ digits_lower) as [Hl Hnl]. destruct (digits_ok _ digits_upper) as [Hu Hnu].
  destruct (encode_nibbles_decode (E:=E) [] lower_digits p Hl Hnl Hp) as (hl & Ehl & Lhl & Dhl).
  destruct (encode_nibbles_decode (E:=E) [] upper_digits p Hu Hnu Hp) as (hu & Ehu & Lhu & Dhu).
  destruct (encode_nibbles_decode (E:=E) (bs "%") lower_digits p Hl Hnl Hp) as (pl & Epl & Lpl & Dpl).
  destruct (encode_nibbles_decode (E:=E) (bs "%") upper_digits p Hu Hnu Hp) as (pu & Epu & Lpu & Dpu).
  destruct (encode_base64_decode (E:=E) false p Hp) as (s1 & n1 & E1 & A1 & N1 & M1 & L1 & D1).
  destruct (encode_base64_decode (E:=E) true p Hp) as (s2 & n2 & E2 & A2 & N2 & M2 & L2 & D2).
  fold lower_digits upper_digits. rewrite Ehl, E1, E2, Epu. cbn [res_bind padding].
  rewrite app_nil_r, (padding_needed _ _ N2 M2).
  rewrite strip_padding_app by (intros H; rewrite list.Forall_forall in A1;
    apply A1 in H; by apply (alphabet_ok false)).
  assert (make_ascii_uppercase hl = hu) as ->.
  { pose proof (encode_nibbles_fmap _ _ _ _ _ Ehl : _ = Ok (make_ascii_uppercase hl)) as H.
    change (encode_nibbles (E:=E) [] upper_digits p = Ok (make_ascii_uppercase hl)) in H.
    congruence. }
  assert (make_ascii_lowercase pu = pl) as ->.
  { pose proof (encode_nibbles_fmap _ _ _ _ _ Epu : _ = Ok (make_ascii_lowercase pu)) as H.
    change (encode_nibbles (E:=E) (bs "%") lower_digits p = Ok (make_ascii_lowercase pu)) in H.
    congruence. }
  set (vs := [p; hl; hu; _; s1; s2; _; pu; pl]).
  assert (nonempty_needles vs) as Hvs.
  { assert (∀ s : str, 0 < length s → s ≠ []) as Hpos by (intros [|]; simpl; [lia|done]).
    unfold nonempty_needles, vs.
    repeat (apply Forall_cons_2; [apply Hpos; rewrite ?length_app; simpl in *; nia|]).
    apply Forall_nil_2. }
  assert (∀ ws, (∀ v, v ∈ vs → v ∈ ws) →
    (utf8 p → ∃ body, json_to_vec p = [34%Z] ++ body ++ [34%Z] ∧ body ∈ ws) → covers p ws) as Hcov.
  { intros ws Hsub Hj. subst vs. split_and!; [apply Hsub; set_solver| | |done].
    - intros digits [->|[->|[]%not_elem_of_nil]%elem_of_cons]%elem_of_cons; split;
        [exists hl|exists pl|exists hu|exists pu]; (split; [apply Hsub; set_solver|]);
        [apply Dhl|apply Dpl|apply Dhu|apply Dpu]; done.
    - intros [|].
      + exists s2, n2. split_and!; [done..|apply Hsub; set_solver|apply Hsub; set_solver].
      + exists s1, n1. split_and!; [done..|apply Hsub; set_solver|apply Hsub; set_solver]. }
  destruct (utf8b p) eqn:Hutf.
  - apply utf8b_spec in Hutf. destruct (Hjson p Hutf) as (body & Hjq & Hbody).
    rewrite Hjq, unquote_literal. cbn [res_bind]. eexists. split; [done|]. split.
    + apply Forall_app. split; [done|]. apply Forall_cons_2; [by apply Hbody|apply Forall_nil_2].
    + apply Hcov; [intros v Hv; apply elem_of_app; by left|].
      intros _. exists body. split; [done|]. apply elem_of_app. right. left.
  - exists vs. split_and!; [done|done|]. apply Hcov; [done|].
    intros Hu'%utf8b_spec. congruence.
Qed.

(** ** The store *)

(** The stores an embedder can build, with the secrets injected so far. *)
Inductive injected : list Secret → SecretStore → Prop :=
| injected_new : injected [] SecretStore_new
| injected_insert h st st' id bytes s :
    injected h st → Forall is_byte bytes → Secret_new id bytes = Ok s →
    insert json_to_vec st s = Ok st' → injected (s :: h) st'
| injected_consume h st {T E} id (sink : str → res E T) :
    injected h st → injected h (consume_with st id sink).2.

Definition store_wf (h : list Secret) (st : SecretStore) : Prop :=
  NoDup (secret_id <$> h) ∧ seen_ids st = list_to_set (secret_id <$> h) ∧
  length h ≤ MAX_SECRETS ∧
  (∀ id s, secrets st !! id = Some s → s ∈ h ∧ secret_id s = id) ∧
  nonempty_needles (redaction_needles st) ∧
  ∀ s, s ∈ h → covers (payload s) (redaction_needles st).

Lemma Secret_new_spec id bytes s :
  Secret_new id bytes = Ok s → s = mkSecret id bytes ∧ bytes ≠ [].
Proof.
  unfold Secret_new. case_bool_decide; [done|]. case_match; [done|]. by intros [= <-].
Qed.

Lemma sort_nonempty needles :
  nonempty_needles needles → nonempty_needles (sort_longest_first needles).
Proof.
  unfold nonempty_needles. rewrite !list.Forall_forall. intros H n Hn.
  apply H. by apply sort_by_elem in Hn.
Qed.

Lemma injected_wf h st : injected h st → store_wf h st.
Proof.
  induction 1 as [|h st st' id bytes s _ IH Hb Hs Hi|h st T E id sink _ IH].
  - split_and!; simpl; try done; [constructor|lia|constructor|]. intros s []%not_elem_of_nil.
  - destruct IH as (Hnd & Hseen & Hlen & Hsec & Hne & Hcov).
    apply Secret_new_spec in Hs as [-> Hbytes]. unfold insert in Hi. simpl in Hi.
    case_bool_decide as Hid; [done|]. destruct (size (seen_ids st) =? MAX_SECRETS) eqn:Hsz; [done|].
    destruct (needle_variants_cover (E:=SecretError) bytes Hbytes Hb) as (vs & Hvs & Hvne & Hvc).
    rewrite Hvs in Hi. injection Hi as <-. apply Nat.eqb_neq in Hsz.
    rewrite Hseen, size_list_to_set, length_fmap in Hsz by done.
    rewrite Hseen, elem_of_list_to_set in Hid.
    split_and!; simpl.
    + by constructor.
    + by rewrite Hseen.
    + unfold MAX_SECRETS in *. lia.
    + intros id' s. rewrite lookup_insert. case_decide as Hc.
      * intros [= <-]. split; [left|done].
      * intros [? ?]%Hsec. split; [by right|done].
    + apply sort_nonempty, Forall_app. done.
    + intros s [->|Hs]%elem_of_cons.
      * eapply covers_mono, Hvc. intros v Hv. apply sort_by_elem, elem_of_app. by right.
      * eapply covers_mono, Hcov, Hs. intros v Hv. apply sort_by_elem, elem_of_app. by left.
  - destruct IH as (Hnd & Hseen & Hlen & Hsec & Hne & Hcov). unfold consume_with.
    destruct (secrets st !! id) as [s|] eqn:Hs; [|done]. split_and!; simpl; try done.
    intros id' s' [_ Hl]%lookup_delete_Some. auto.
Qed.

(** C32: byte redaction is total on every store, and what it returns shows a
    registered representation only inside its own markers; the payload of
    every secret ever injected, its hexadecimal, percent and base64 encodings
    and its JSON form are registered, also after the secret was consumed. *)
Theorem redact_bytes_hides h st input :
  injected h st →
  (∃ out, redact_bytes (E:=Empty_set) st input = Ok out ∧ redacted out (redaction_needles st)) ∧
  ∀ s, s ∈ h → covers (payload s) (redaction_needles st).
Proof.
  intros (_ & _ & _ & _ & Hne & Hcov)%injected_wf. split; [|done]. by apply replace_needles_total.
Qed.

Lemma text_needles_wf needles :
  nonempty_needles needles →
  let ns := sort_longest_first (filter (λ n, utf8b n = true) needles) in
  nonempty_needles ns ∧ Forall utf8 ns ∧
  ∀ n, n ∈ ns ↔ n ∈ needles ∧ utf8 n.
Proof.
  intros Hne ns.
  assert (∀ n, n ∈ ns ↔ n ∈ needles ∧ utf8 n) as Hns.
  { intros n. unfold ns, sort_longest_first. rewrite sort_by_elem, list_elem_of_filter, utf8b_spec.
    tauto. }
  unfold nonempty_needles in *. rewrite !list.Forall_forall in *.
  split_and!; [|by intros n [_ ?]%Hns|done]. intros n [Hn _]%Hns. auto.
Qed.

(** Text redaction returns text, which is what [replace_needles] makes of it. *)
Lemma redact_text_total h st input :
  injected h st → utf8 input →
  ∃ out, redact_text (E:=Empty_set) st input = Ok out ∧ utf8 out ∧
    redacted out (sort_longest_first (filter (λ n, utf8b n = true) (redaction_needles st))).
Proof.
  intros (_ & _ & _ & _ & Hne & _)%injected_wf Hin.
  destruct (text_needles_wf _ Hne) as (Hne' & Hu & _). unfold redact_text.
  destruct (replace_needles_total (E:=Empty_set) input _ Hne') as (out & Hout & Hr).
  pose proof (replace_needles_utf8 _ _ _ Hne' Hu Hin Hout) as Ho.
  exists out. rewrite Hout. simpl. by rewrite (proj2 (utf8b_spec out) Ho).
Qed.

(** Redacting text never fails its [expect]: the result is UTF-8, and every
    textual needle in it stands inside a marker. *)
Theorem redact_text_hides h st input :
  injected h st → utf8 input →
  ∃ out, redact_text (E:=Empty_set) st input = Ok out ∧ utf8 out ∧
    ∀ n, n ∈ redaction_needles st → utf8 n →
      ∀ i, occurs_at n out i → inside_marker out i (i + length n).
Proof.
  intros Hinj Hin. destruct (redact_text_total h st input Hinj Hin) as (out & Hout & Ho & Hr).
  destruct (injected_wf h st Hinj) as (_ & _ & _ & _ & Hne & _).
  destruct (text_needles_wf _ Hne) as (_ & _ & Hns).
  exists out. split_and!; [done|done|]. intros n Hn Hnu. apply Hr, Hns. done.
Qed.

(** Redaction does not disturb what it need not: input in which no needle
    occurs comes back unchanged, as bytes and as text. *)
Theorem redaction_preserves_clean_input h st input :
  injected h st → (∀ n, n ∈ redaction_needles st → ∀ i, ¬ occurs_at n input i) →
  redact_bytes (E:=Empty_set) st input = Ok input ∧
  (utf8 input → redact_text (E:=Empty_set) st input = Ok input).
Proof.
  intros (_ & _ & _ & _ & Hne & _)%injected_wf Hfree.
  destruct (text_needles_wf _ Hne) as (Hne' & _ & Hns). split.
  - by apply replace_needles_id.
  - intros Hu%utf8b_spec. unfold redact_text. rewrite replace_needles_id; [|done|].
    + simpl. by rewrite Hu.
    + intros n [Hn _]%Hns. auto.
Qed.

(** What [insert] answers on each branch: a known identity is refused even
    after its secret was consumed, a ninth identity is refused, and otherwise
    the secret becomes available without disturbing the others. *)
Theorem insert_spec h st s :
  injected h st → Forall is_byte (payload s) → payload s ≠ [] →
  if bool_decide (secret_id s ∈ secret_id <$> h) then
    insert json_to_vec st s = Err (DuplicateId (secret_id s))
  else if length h =? MAX_SECRETS then insert json_to_vec st s = Err (TooManySecrets MAX_SECRETS)
  else ∃ st', insert json_to_vec st s = Ok st' ∧
    ∀ id, secrets st' !! id = if bool_decide (id = secret_id s) then Some s else secrets st !! id.
Proof.
  intros (Hnd & Hseen & _)%injected_wf Hb Hne. unfold insert.
  rewrite Hseen, size_list_to_set, length_fmap by done.
  destruct (decide (secret_id s ∈ secret_id <$> h)) as [Hin|Hin].
  - rewrite bool_decide_true by done. rewrite bool_decide_true by (by apply elem_of_list_to_set).
    done.
  - rewrite bool_decide_false by done.
    rewrite (bool_decide_false (_ ∈ list_to_set _)) by (by rewrite elem_of_list_to_set).
    destruct (length h =? MAX_SECRETS); [done|].
    destruct (needle_variants_cover (E:=SecretError) (payload s) Hne Hb) as (vs & -> & _).
    eexists. split; [done|]. intros id. simpl. rewrite lookup_insert.
    destruct (decide (secret_id s = id)) as [<-|Hd].
    + by rewrite bool_decide_true.
    + by rewrite bool_decide_false by congruence.
Qed.

(** A secret is handed to a sink at most once: afterwards the store does not
    contain it, a second consumption answers [None] without calling its sink,
    and the identity cannot be injected again, while its representations stay
    registered. *)
Theorem secret_consumed_once {T E T' E'} h st id s (sink : str → res E T) (sink' : str → res E' T') :
  injected h st → secrets st !! id = Some s →
  let r := consume_with st id sink in
  r.1 = (let* t := sink (payload s) in Ok (Some t)) ∧ contains r.2 id = false ∧
  consume_with r.2 id sink' = (Ok None, r.2) ∧
  (∀ s', secret_id s' = id → insert json_to_vec r.2 s' = Err (DuplicateId id)) ∧
  redaction_needles r.2 = redaction_needles st.
Proof.
  intros (Hnd & Hseen & _ & Hsec & _)%injected_wf Hs. destruct (Hsec _ _ Hs) as [Hin Hid].
  unfold consume_with, contains. rewrite Hs. simpl. rewrite lookup_delete_eq.
  split_and!; try done. intros s' <-. unfold insert. simpl.
  rewrite bool_decide_true; [done|]. rewrite Hseen, <- Hid. apply elem_of_list_to_set.
  by apply list_elem_of_fmap_2.
Qed.
End Store.

(** ** Witnesses *)

(** A serializer that escapes quotes and backslashes. *)
Definition quote_json (t : str) : str :=
  [34%Z] ++ mjoin ((λ b, if (b =? 34)%Z || (b =? 92)%Z then [92; b]%Z else [b]) <$> t) ++ [34%Z].

Lemma quote_json_literal : json_string_literal quote_json.
Proof.
  intros t _. eexists. split; [done|]. destruct t as [|b t]; [done|]. intros _. simpl.
  by case_match.
Qed.

Definition sample_secret : Secret := mkSecret (bs "token") (bs "hunter2").

Definition sample_store : SecretStore :=
  match insert quote_json SecretStore_new sample_secret with Ok st => st | _ => SecretStore_new end.

Lemma sample_injected : injected quote_json [sample_secret] sample_store.
Proof.
  eapply (injected_insert _ _ SecretStore_new _ (bs "token") (bs "hunter2")).
  - constructor.
  - repeat (apply Forall_cons_2; [unfold is_byte; vm_compute; split; congruence|]).
    apply Forall_nil_2.
  - by vm_compute.
  - by vm_compute.
Qed.

Lemma redact_bytes_hides_witness :
  redact_bytes (E:=Empty_set) sample_store (bs "pw=hunter2&hex=68756E74657232") =
    Ok (bs "pw=[redacted]&hex=[redacted]") ∧
  ∃ out, redact_bytes (E:=Empty_set) sample_store (bs "pw=hunter2") = Ok out ∧
    redacted out (redaction_needles sample_store).
Proof.
  split; [by vm_compute|].
  exact (proj1 (redact_bytes_hides quote_json quote_json_literal [sample_secret] sample_store
    (bs "pw=hunter2") sample_injected)).
Defined.

Lemma redact_text_hides_witness :
  ∃ out, redact_text (E:=Empty_set) sample_store (bs "aHVudGVyMg== it is") = Ok out ∧ utf8 out ∧
    ∀ n, n ∈ redaction_needles sample_store → utf8 n →
      ∀ i, occurs_at n out i → inside_marker out i (i + length n).
Proof.
  apply (redact_text_hides quote_json quote_json_literal [sample_secret]);
    [apply sample_injected|apply utf8b_spec; by vm_compute].
Defined.

Lemma redaction_preserves_clean_input_witness :
  redact_bytes (E:=Empty_set) sample_store (bs "plain") = Ok (bs "plain").
Proof.
  apply (redaction_preserves_clean_input quote_json quote_json_literal [sample_secret]).
  - apply sample_injected.
  - assert (forallb (λ n, 5 <? length n) (redaction_needles sample_store) = true) as Hlong
      by (vm_compute; reflexivity).
    intros n Hn i Hi. rewrite forallb_forall in Hlong. apply list_elem_of_In, Hlong in Hn.
    apply Nat.ltb_lt in Hn. apply occurs_at_bound in Hi; [|by destruct n; simpl in Hn; [lia|]].
    change (length (bs "plain")) with 5 in Hi. lia.
Defined.

Lemma insert_spec_witness :
  insert quote_json sample_store sample_secret = Err (DuplicateId (bs "token")).
Proof.
  assert (Forall is_byte (payload sample_secret)) as Hb.
  { apply (bool_decide_unpack _). vm_compute. exact I. }
  assert (payload sample_secret ≠ []) as Hne by done.
  exact (insert_spec quote_json quote_json_literal [sample_secret] sample_store sample_secret
    sample_injected Hb Hne).
Defined.

Lemma secret_consumed_once_witness :
  contains (consume_with (E:=Empty_set) sample_store (bs "token") (λ p, Ok (length p))).2
    (bs "token") = false.
Proof.
  apply (secret_consumed_once quote_json quote_json_literal [sample_secret] sample_store
    (bs "token") sample_secret (λ p, Ok (length p)) (λ p, Ok (E:=Empty_set) p)).
  - apply sample_injected.
  - by vm_compute.
Defined.
