(* ===== verification/Path.v ===== *)
(** * Paths ([std::path] on Unix)

    A path is the list of its bytes; its meaning is its sequence of
    components.  Ordering and equality of paths, and so the ordered set of
    paths, compare components. *)
From S2P Require Import Prelude Order.

Inductive Component :=
| RootDir | CurDir | ParentDir
| Normal (name : str).

#[export] Instance Component_eq_dec : EqDecision Component.
Proof. solve_decision. Defined.

Definition SLASH : u8 := 47%Z.
Definition dot : str := bs ".".
Definition dotdot : str := bs "..".

(** The pieces between slashes. *)
Fixpoint split_slash (p : str) : list str :=
  match p with
  | [] => [[]]
  | b :: p =>
    if (b =? SLASH)%Z then [] :: split_slash p
    else match split_slash p with
         | piece :: pieces => (b :: piece) :: pieces
         | [] => [[b]]
         end
  end.

Definition is_absolute (p : str) : bool :=
  match p with b :: _ => (b =? SLASH)%Z | [] => false end.

(** Empty pieces and [.] vanish, except a leading [.] of a relative path. *)
Definition component_of (piece : str) : option Component :=
  if bool_decide (piece = []) then None
  else if bool_decide (piece = dot) then None
  else if bool_decide (piece = dotdot) then Some ParentDir
  else Some (Normal piece).

Definition components (p : str) : list Component :=
  let pieces := split_slash p in
  let body := omap component_of pieces in
  if is_absolute p then RootDir :: body
  else if bool_decide (head pieces = Some dot) then CurDir :: body
  else body.

(** [PathBuf::push]. *)
Definition push (p name : str) : str :=
  if is_absolute name then name
  else if bool_decide (last p = None ∨ last p = Some SLASH) then p ++ name
  else p ++ [SLASH] ++ name.

(** [Ord for Component]: declaration order, then the bytes of the name. *)
Definition component_rank (c : Component) : Z :=
  match c with RootDir => 1 | CurDir => 2 | ParentDir => 3 | Normal _ => 4 end.

Definition component_key (c : Component) : str :=
  component_rank c :: match c with Normal name => name | _ => [] end.

Definition component_compare (c d : Component) : comparison :=
  bytes_compare (component_key c) (component_key d).

Fixpoint components_compare (cs ds : list Component) : comparison :=
  match cs, ds with
  | [], [] => Eq
  | [], _ => Lt
  | _, [] => Gt
  | c :: cs, d :: ds =>
    match component_compare c d with Eq => components_compare cs ds | r => r end
  end.

Definition path_compare (p q : str) : comparison :=
  components_compare (components p) (components q).
Definition path_le (p q : str) : bool :=
  match path_compare p q with Gt => false | _ => true end.
Definition path_eqb (p q : str) : bool :=
  match path_compare p q with Eq => true | _ => false end.

(** [BTreeSet<PathBuf>::insert] on the sorted list of the elements: whether
    the path was new, and the set after. *)
Fixpoint set_insert (p : str) (s : list str) : bool * list str :=
  match s with
  | [] => (true, [p])
  | q :: s' =>
    match path_compare p q with
    | Lt => (true, p :: s)
    | Eq => (false, s)
    | Gt => let '(new, s') := set_insert p s' in (new, q :: s')
    end
  end.

(** [Vec::dedup] on paths: an element equal to its predecessor is dropped. *)
Fixpoint dedup_after (prev : str) (l : list str) : list str :=
  match l with
  | [] => []
  | p :: l => if path_eqb p prev then dedup_after prev l else p :: dedup_after p l
  end.
Definition dedup (l : list str) : list str :=
  match l with [] => [] | p :: l => p :: dedup_after p l end.

(** ** Facts *)

Lemma component_key_inj c d : component_key c = component_key d → c = d.
Proof. unfold component_key. destruct c, d; simpl; intros [=]; congruence. Qed.

Lemma component_compare_eq c d : component_compare c d = Eq ↔ c = d.
Proof.
  unfold component_compare. rewrite bytes_compare_eq. split; [apply component_key_inj|congruence].
Qed.

Lemma components_compare_eq cs ds : components_compare cs ds = Eq ↔ cs = ds.
Proof.
  revert ds. induction cs as [|c cs IH]; intros [|d ds]; simpl; try done.
  destruct (component_compare c d) eqn:E.
  - apply component_compare_eq in E as ->. rewrite IH. naive_solver.
  - split; [done|]. intros [= -> _]. by rewrite (proj2 (component_compare_eq d d)) in E.
  - split; [done|]. intros [= -> _]. by rewrite (proj2 (component_compare_eq d d)) in E.
Qed.

Lemma components_compare_antisym cs ds :
  components_compare ds cs = CompOpp (components_compare cs ds).
Proof.
  revert ds. induction cs as [|c cs IH]; intros [|d ds]; simpl; try done.
  unfold component_compare. rewrite (bytes_compare_antisym (component_key c)).
  destruct (bytes_compare (component_key c) (component_key d)); simpl; auto.
Qed.

Lemma components_compare_lt_trans cs ds es :
  components_compare cs ds = Lt → components_compare ds es = Lt → components_compare cs es = Lt.
Proof.
  revert ds es. induction cs as [|c cs IH]; intros [|d ds] [|e es]; simpl; try done.
  destruct (component_compare c d) eqn:E1; [|destruct (component_compare d e) eqn:E2|]; try done.
  - apply component_compare_eq in E1 as ->. destruct (component_compare d e); eauto.
  - apply component_compare_eq in E2 as ->. by rewrite E1.
  - unfold component_compare in *. by rewrite (bytes_compare_lt_trans _ _ _ E1 E2).
Qed.

Definition path_lt (p q : str) : Prop := path_compare p q = Lt.

Lemma path_lt_trans p q r : path_lt p q → path_lt q r → path_lt p r.
Proof. apply components_compare_lt_trans. Qed.

Lemma path_compare_eq p q : path_compare p q = Eq ↔ components p = components q.
Proof. apply components_compare_eq. Qed.

Lemma path_lt_irrefl p : ¬ path_lt p p.
Proof. unfold path_lt. by rewrite (proj2 (path_compare_eq p p)). Qed.

Lemma path_le_cases p q : path_le p q = true ↔ components p = components q ∨ path_lt p q.
Proof.
  unfold path_le, path_lt. rewrite <- path_compare_eq. destruct (path_compare p q); naive_solver.
Qed.

Lemma path_le_total p q : path_le p q = true ∨ path_le q p = true.
Proof.
  unfold path_le, path_compare. rewrite (components_compare_antisym (components p)).
  destruct (components_compare (components p) (components q)); simpl; auto.
Qed.

Lemma path_le_trans p q r : path_le p q = true → path_le q r = true → path_le p r = true.
Proof.
  rewrite !path_le_cases. intros [H1|H1] [H2|H2].
  - left. congruence.
  - right. unfold path_lt, path_compare in *. by rewrite H1.
  - right. unfold path_lt, path_compare in *. by rewrite <- H2.
  - right. by eapply path_lt_trans.
Qed.

(** *** Pushing one component *)

Lemma split_slash_ne p : split_slash p ≠ [].
Proof. destruct p as [|b p]; simpl; repeat case_match; done. Qed.

Lemma split_slash_app p q : split_slash (p ++ SLASH :: q) = split_slash p ++ split_slash q.
Proof.
  induction p as [|b p IH]; simpl; [done|]. rewrite IH.
  destruct (b =? SLASH)%Z; [done|].
  pose proof (split_slash_ne p). by destruct (split_slash p).
Qed.

Lemma split_slash_piece p : SLASH ∉ p → split_slash p = [p].
Proof.
  induction p as [|b p IH]; intros Hp; [done|]. apply not_elem_of_cons in Hp as [Hb Hp].
  simpl. rewrite (proj2 (Z.eqb_neq b SLASH)) by done. by rewrite IH.
Qed.

(** A single piece of a path that names one component. *)
Definition one_component (name : str) (c : Component) : Prop :=
  SLASH ∉ name ∧ component_of name = Some c.

Lemma is_absolute_app p q : p ≠ [] → is_absolute (p ++ q) = is_absolute p.
Proof. by destruct p. Qed.

Lemma components_snoc p name c :
  p ≠ [] → one_component name c →
  components (p ++ SLASH :: name) = components p ++ [c].
Proof.
  intros Hp [Hs Hc]. unfold components.
  rewrite split_slash_app, (split_slash_piece name), omap_app, is_absolute_app by done.
  assert (omap component_of [name] = [c]) as -> by (simpl; by rewrite Hc).
  pose proof (split_slash_ne p). destruct (split_slash p) as [|piece pieces]; [done|]. simpl.
  destruct (is_absolute p); [done|]. by case_bool_decide.
Qed.

Lemma components_trailing p :
  components (p ++ [SLASH]) = if bool_decide (p = []) then [RootDir] else components p.
Proof.
  case_bool_decide as Hp; [by subst|]. unfold components.
  rewrite split_slash_app, omap_app, is_absolute_app by done. simpl.
  rewrite app_nil_r. pose proof (split_slash_ne p).
  by destruct (split_slash p).
Qed.

Lemma components_push p name c :
  one_component name c → components (push p name) = components p ++ [c].
Proof.
  intros [Hs Hc]. unfold push.
  destruct (is_absolute name) eqn:Ha.
  { destruct name as [|b name]; [done|]. simpl in Ha. apply Z.eqb_eq in Ha as ->. set_solver. }
  case_bool_decide as Hl.
  - destruct Hl as [Hl|Hl].
    + apply last_None in Hl as ->. simpl. unfold components. rewrite Ha, split_slash_piece by done.
      simpl. rewrite Hc. case_bool_decide as Hd; [|done]. injection Hd as ->. by vm_compute in Hc.
    + apply last_Some in Hl as [p' ->]. rewrite <- app_assoc. simpl.
      rewrite components_trailing. case_bool_decide as Hp.
      * subst p'. simpl. unfold components. simpl. rewrite split_slash_piece by done. simpl.
        by rewrite Hc.
      * by apply components_snoc.
  - apply components_snoc; [|done]. intros ->. apply Hl. by left.
Qed.

Definition proper_name (name : str) : Prop :=
  name ≠ [] ∧ SLASH ∉ name ∧ name ≠ dot ∧ name ≠ dotdot.

Lemma proper_component name : proper_name name → one_component name (Normal name).
Proof.
  intros (Hne & Hs & Hd & Hdd). split; [done|]. unfold component_of.
  by rewrite !bool_decide_false by done.
Qed.

Lemma dotdot_component : one_component dotdot ParentDir.
Proof. split; [|done]. apply (bool_decide_unpack _). vm_compute. exact I. Qed.

(** *** The ordered set *)

Definition path_sorted (s : list str) : Prop := StronglySorted path_lt s.

(** Membership up to path equality. *)
Definition path_in (p : str) (s : list str) : Prop :=
  ∃ q, q ∈ s ∧ components q = components p.

Lemma path_lt_components p p' q :
  components p = components p' → path_lt p q → path_lt p' q.
Proof. unfold path_lt, path_compare. by intros ->. Qed.

Lemma set_insert_spec p s :
  path_sorted s →
  path_sorted (set_insert p s).2 ∧
  (∀ q, q ∈ (set_insert p s).2 → q = p ∨ q ∈ s) ∧
  (∀ q, q ∈ s → q ∈ (set_insert p s).2) ∧
  ((set_insert p s).1 = false ↔ path_in p s) ∧ path_in p (set_insert p s).2 ∧
  ((set_insert p s).1 = false → (set_insert p s).2 = s) ∧
  ((set_insert p s).1 = true → p ∈ (set_insert p s).2).
Proof.
  unfold path_sorted. induction 1 as [|q s Hs IH Hall]; simpl.
  { split_and!; try set_solver. by repeat constructor. }
  destruct (path_compare p q) eqn:E; simpl.
  - apply path_compare_eq in E.
    assert (path_in p (q :: s)) as Hin by (exists q; split; [left|done]).
    split_and!; try done; [by constructor|auto].
  - assert (Forall (path_lt p) (q :: s)) as Hp.
    { apply Forall_cons_2; [done|]. eapply Forall_impl; [exact Hall|].
      intros r Hr. by eapply path_lt_trans. }
    split_and!; try done.
    + by constructor; [constructor|].
    + intros r [->|Hr]%elem_of_cons; auto.
    + intros r Hr. by right.
    + split; [done|]. intros (r & Hr & Hc). rewrite list.Forall_forall in Hp.
      apply Hp in Hr. destruct (path_lt_irrefl r). by eapply path_lt_components.
    + exists p. split; [left|done].
    + intros _. left.
  - destruct IH as (IHs & IH1 & IH2 & IH3 & IH4 & IH5 & IH6).
    destruct (set_insert p s) as [new s'] eqn:Hi. simpl in *.
    assert (path_lt q p) as Hqp.
    { unfold path_lt, path_compare in *. by rewrite components_compare_antisym, E. }
    rewrite list.Forall_forall in Hall. split_and!.
    + constructor; [done|]. apply list.Forall_forall. intros r [->|Hr]%IH1; auto.
    + intros r [->|Hr]%elem_of_cons; [right; left|]. apply IH1 in Hr as [|]; [by left|right; by right].
    + intros r [->|Hr]%elem_of_cons; [left|right; auto].
    + rewrite IH3. split; intros (r & Hr & Hc).
      * exists r. split; [by right|done].
      * apply elem_of_cons in Hr as [->|Hr]; [|by exists r].
        by rewrite (proj2 (path_compare_eq p q)) in E.
    + destruct IH4 as (r & Hr & Hc). exists r. split; [by right|done].
    + intros Hn. by rewrite IH5.
    + intros Hn. right. auto.
Qed.

Lemma set_insert_length p s :
  length (set_insert p s).2 = if (set_insert p s).1 then S (length s) else length s.
Proof.
  induction s as [|q s IH]; simpl; [done|]. destruct (path_compare p q); simpl; try done.
  destruct (set_insert p s) as [[] s']; simpl in *; lia.
Qed.

Lemma path_sorted_NoDup s : path_sorted s → List.NoDup s.
Proof.
  induction 1 as [|p s Hs IH Hall]; constructor; [|done].
  intros Hp%list_elem_of_In. rewrite list.Forall_forall in Hall.
  destruct (path_lt_irrefl p). auto.
Qed.

(** *** Sorting and deduplicating *)

Lemma dedup_after_spec prev l :
  StronglySorted (leP path_le) (prev :: l) →
  path_sorted (prev :: dedup_after prev l) ∧
  (∀ q, q ∈ dedup_after prev l → q ∈ l) ∧
  (∀ q, q ∈ l → path_in q (prev :: dedup_after prev l)).
Proof.
  revert prev. induction l as [|p l IH]; intros prev Hs; simpl.
  { split_and!; [by repeat constructor|done|]. intros q []%not_elem_of_nil. }
  apply StronglySorted_inv in Hs as [Hs Hall]. apply Forall_cons_1 in Hall as [Hle Hall].
  unfold path_eqb. destruct (path_compare p prev) eqn:E.
  - apply path_compare_eq in E. apply StronglySorted_inv in Hs as [Hs _].
    destruct (IH prev) as (H1 & H2 & H3); [by constructor|]. split_and!; [done|intros q Hq; right; auto|].
    intros q [->|Hq]%elem_of_cons; [exists prev; split; [left|done]|auto].
  - unfold leP in Hle. apply path_le_cases in Hle as [Hc|Hlt].
    + by rewrite (proj2 (path_compare_eq p prev)) in E.
    + destruct (path_lt_irrefl prev). by eapply path_lt_trans.
  - destruct (IH p) as (H1 & H2 & H3); [done|].
    assert (path_lt prev p) as Hlt.
    { unfold path_lt, path_compare in *. by rewrite components_compare_antisym, E. }
    split_and!.
    + constructor; [done|]. apply StronglySorted_inv in H1 as [_ H1].
      constructor; [done|]. eapply Forall_impl; [exact H1|].
      intros q Hq. by eapply path_lt_trans.
    + intros q [->|Hq]%elem_of_cons; [left|right; auto].
    + intros q [->|Hq]%elem_of_cons; [exists p; split; [right; left|done]|].
      destruct (H3 q Hq) as (r & Hr & ?). exists r. split; [by right|done].
Qed.

Lemma sort_dedup_spec l :
  let r := dedup (sort_by path_le l) in
  path_sorted r ∧ (∀ q, q ∈ r → q ∈ l) ∧ (∀ q, q ∈ l → path_in q r).
Proof.
  pose proof (sort_by_sorted path_le l path_le_total path_le_trans) as Hs.
  pose proof (sort_by_elem path_le l) as Hel.
  destruct (sort_by path_le l) as [|p s]; simpl.
  { split_and!; [by constructor|intros q []%not_elem_of_nil|]. intros q []%Hel%not_elem_of_nil. }
  destruct (dedup_after_spec p s Hs) as (H1 & H2 & H3). split_and!; [done| |].
  - intros q [->|Hq]%elem_of_cons; apply Hel; [left|right; auto].
  - intros q [->|Hq]%Hel%elem_of_cons; [exists p; split; [left|done]|auto].
Qed.
