(* ===== verification/Authority.v ===== *)
(** * Authority ([opaal-runtime/src/authority.rs], the authority types of
    [opaal-platform/src/lib.rs])

    Capability requests, the rules of an evaluation and the verdict on a
    request.  Requests are ordered as [#[derive(Ord)]] orders them; a platform
    is its answer to an enforcement query. *)
From S2P Require Import Prelude Order Compare Path.

Local Open Scope res_scope.

Definition MAX_AUTHORITY_RULES : nat := 256.

(** ** The platform's side *)

Inductive AuthorityEffect :=
| FilesystemRead | FilesystemWrite | ProcessRun | NetworkHttp | SecretReveal | ClockWall
| ClockMonotonic | EntropySystem | StdinRead | StdoutWrite | StderrWrite.

#[export] Instance AuthorityEffect_eq_dec : EqDecision AuthorityEffect.
Proof. solve_decision. Defined.

Definition ALL : list AuthorityEffect :=
  [FilesystemRead; FilesystemWrite; ProcessRun; NetworkHttp; SecretReveal; ClockWall;
   ClockMonotonic; EntropySystem; StdinRead; StdoutWrite; StderrWrite].

Definition effect_index (e : AuthorityEffect) : Z :=
  match e with
  | FilesystemRead => 0 | FilesystemWrite => 1 | ProcessRun => 2 | NetworkHttp => 3
  | SecretReveal => 4 | ClockWall => 5 | ClockMonotonic => 6 | EntropySystem => 7
  | StdinRead => 8 | StdoutWrite => 9 | StderrWrite => 10
  end%Z.

Inductive AuthorityScope :=
| ScopeProjectPath (path : str)
| ScopeTool (tool : str)
| ScopeEndpoint (endpoint method : str)
| ScopeSecretSink (secret endpoint header : str)
| ScopeEvaluation.

Record AuthorityQuery := mkQuery { query_effect : AuthorityEffect; query_scope : AuthorityScope }.

Inductive AuthorityEnforcement := Enforced | Unenforced | EnforcementUnsupported | EnforcementUnknown.

(** [Platform::authority_enforcement]. *)
Definition Platform : Type := AuthorityQuery → AuthorityEnforcement.

(** ** Requests *)

(** Nonzero. *)
Definition EvaluationContextId : Type := Z.
Definition EvaluationContextId_new (value : Z) : option EvaluationContextId :=
  if (value =? 0)%Z then None else Some value.

Inductive CapabilityScope :=
| ProjectPath (path : str)
| Tool (tool : str)
| Endpoint (endpoint method : str)
| SecretSink (secret endpoint header : str)
| Evaluation.

Inductive CapabilityRequestError := EmptyPath | EmptyIdentity | InvalidMethod | InvalidHeader.

Record CapabilityRequest := mkRequest { effect : AuthorityEffect; scope : CapabilityScope }.

Definition nonempty (value : str) : res CapabilityRequestError str :=
  match value with [] => Err EmptyIdentity | _ => Ok value end.

Definition project_path (effect : AuthorityEffect) (path : str)
    : res CapabilityRequestError CapabilityRequest :=
  if path_eqb path [] then Err EmptyPath else Ok (mkRequest effect (ProjectPath path)).

Definition filesystem_read (path : str) := project_path FilesystemRead path.
Definition filesystem_write (path : str) := project_path FilesystemWrite path.

Definition process_run (tool : str) : res CapabilityRequestError CapabilityRequest :=
  let* tool := nonempty tool in
  Ok (mkRequest ProcessRun (Tool tool)).

Definition is_ascii_uppercase (b : u8) : bool := (65 <=? b)%Z && (b <=? 90)%Z.
Definition is_ascii_lowercase (b : u8) : bool := (97 <=? b)%Z && (b <=? 122)%Z.
Definition is_empty {A} (l : list A) : bool := match l with [] => true | _ => false end.

Definition network_http (endpoint method : str) : res CapabilityRequestError CapabilityRequest :=
  let* endpoint := nonempty endpoint in
  if is_empty method || negb (forallb (λ b, is_ascii_uppercase b || (b =? 45)%Z) method)
  then Err InvalidMethod
  else Ok (mkRequest NetworkHttp (Endpoint endpoint method)).

Definition secret_reveal (secret endpoint header : str)
    : res CapabilityRequestError CapabilityRequest :=
  let* secret := nonempty secret in
  let* endpoint := nonempty endpoint in
  if is_empty header || negb (forallb (λ b, is_ascii_lowercase b || (b =? 45)%Z) header)
  then Err InvalidHeader
  else Ok (mkRequest SecretReveal (SecretSink secret endpoint header)).

Definition clock_wall : CapabilityRequest := mkRequest ClockWall Evaluation.
Definition clock_monotonic : CapabilityRequest := mkRequest ClockMonotonic Evaluation.
Definition entropy_system : CapabilityRequest := mkRequest EntropySystem Evaluation.
Definition stdin_read : CapabilityRequest := mkRequest StdinRead Evaluation.
Definition stdout_write : CapabilityRequest := mkRequest StdoutWrite Evaluation.
Definition stderr_write : CapabilityRequest := mkRequest StderrWrite Evaluation.

Definition standard_host (capability : str) : option CapabilityRequest :=
  if str_eqb capability (bs "entropy.system") then Some entropy_system
  else if str_eqb capability (bs "stdin.read") then Some stdin_read
  else if str_eqb capability (bs "stdout.write") then Some stdout_write
  else if str_eqb capability (bs "stderr.write") then Some stderr_write
  else None.

Definition platform_query (self : CapabilityRequest) : AuthorityQuery :=
  mkQuery (effect self)
    (match scope self with
     | ProjectPath path => ScopeProjectPath path
     | Tool tool => ScopeTool tool
     | Endpoint endpoint method => ScopeEndpoint endpoint method
     | SecretSink secret endpoint header => ScopeSecretSink secret endpoint header
     | Evaluation => ScopeEvaluation
     end).

(** *** Their order *)

Definition scope_index (s : CapabilityScope) : Z :=
  match s with
  | ProjectPath _ => 0 | Tool _ => 1 | Endpoint _ _ => 2 | SecretSink _ _ _ => 3 | Evaluation => 4
  end%Z.

Definition scope_compare (a b : CapabilityScope) : comparison :=
  match a, b with
  | ProjectPath p, ProjectPath q => path_compare p q
  | Tool t, Tool u => bytes_compare t u
  | Endpoint e m, Endpoint f n => then_cmp (bytes_compare e f) (bytes_compare m n)
  | SecretSink s e h, SecretSink t f k =>
      then_cmp (bytes_compare s t) (then_cmp (bytes_compare e f) (bytes_compare h k))
  | _, _ => Z.compare (scope_index a) (scope_index b)
  end.

Definition request_compare (a b : CapabilityRequest) : comparison :=
  then_cmp (Z.compare (effect_index (effect a)) (effect_index (effect b)))
    (scope_compare (scope a) (scope b)).

(** [PartialEq]. *)
Definition scope_eqb (a b : CapabilityScope) : bool :=
  match a, b with
  | ProjectPath p, ProjectPath q => path_eqb p q
  | Tool t, Tool u => str_eqb t u
  | Endpoint e m, Endpoint f n => str_eqb e f && str_eqb m n
  | SecretSink s e h, SecretSink t f k => str_eqb s t && str_eqb e f && str_eqb h k
  | Evaluation, Evaluation => true
  | _, _ => false
  end.

Definition request_eqb (a b : CapabilityRequest) : bool :=
  bool_decide (effect a = effect b) && scope_eqb (scope a) (scope b).

(** ** Sets of requests *)

Definition EffectSet : Type := list CapabilityRequest.
Definition EffectSet_new (requests : list CapabilityRequest) : EffectSet :=
  btree_collect request_compare requests.
Definition EffectSet_default : EffectSet := [].
Definition EffectSet_is_empty (self : EffectSet) : bool := is_empty self.
Definition EffectSet_contains (self : EffectSet) (request : CapabilityRequest) : bool :=
  btree_contains request_compare self request.

(** ** Rules and verdicts *)

Inductive RequiredEnforcement := RequireEnforced | AcknowledgeUnenforced.

#[export] Instance RequiredEnforcement_eq_dec : EqDecision RequiredEnforcement.
Proof. solve_decision. Defined.

Record AuthorityRule := mkRule {
  request : CapabilityRequest;
  required : option RequiredEnforcement
}.

Definition deny (request : CapabilityRequest) : AuthorityRule := mkRule request None.
Definition grant (request : CapabilityRequest) (required : RequiredEnforcement) : AuthorityRule :=
  mkRule request (Some required).

Inductive AuthorityVerdict :=
| Denied | VerdictUnknown | VerdictUnsupported | GrantedEnforced | GrantedUnenforced.

Definition is_executable (v : AuthorityVerdict) : bool :=
  match v with GrantedEnforced | GrantedUnenforced => true | _ => false end.

Inductive AuthorityContextError :=
| TooManyRules (count max : nat)
| DuplicateRule (request : CapabilityRequest)
| InvalidUnenforcedAcknowledgement (request : CapabilityRequest).

Record AuthorityContext := mkContext {
  evaluation : EvaluationContextId;
  rules : list AuthorityRule
}.

(** The first rule that acknowledges an effect other than a process run. *)
Definition invalid_acknowledgement (rule : AuthorityRule) : bool :=
  bool_decide (required rule = Some AcknowledgeUnenforced) &&
  bool_decide (effect (request rule) ≠ ProcessRun).

Fixpoint check_duplicates (rules : list AuthorityRule) : res AuthorityContextError unit :=
  match rules with
  | rule :: (next :: _) as tail =>
    if request_eqb (request rule) (request next) then Err (DuplicateRule (request rule))
    else check_duplicates tail
  | _ => Ok tt
  end.

Definition AuthorityContext_new (evaluation : EvaluationContextId) (rules : list AuthorityRule)
    : res AuthorityContextError AuthorityContext :=
  if MAX_AUTHORITY_RULES <? length rules then
    Err (TooManyRules (length rules) MAX_AUTHORITY_RULES)
  else
    match List.find invalid_acknowledgement rules with
    | Some rule => Err (InvalidUnenforcedAcknowledgement (request rule))
    | None =>
      let rules := sort_by (λ l r, cmp_le request_compare (request l) (request r)) rules in
      let* _ := check_duplicates rules in
      Ok (mkContext evaluation rules)
    end.

Definition AuthorityContext_empty (evaluation : EvaluationContextId) : AuthorityContext :=
  mkContext evaluation [].

(** The platform is asked about a granted request only. *)
Definition verdict {E} (self : AuthorityContext) (req : CapabilityRequest) (platform : Platform)
    : res E AuthorityVerdict :=
  match binary_search_by (rules self) (λ rule, request_compare (request rule) req) with
  | inr _ => Ok Denied
  | inl index =>
    let* rule := expect_some (rules self !! index) in
    match required rule with
    | None => Ok Denied
    | Some required =>
      Ok (match platform (platform_query req), required with
          | Enforced, _ => GrantedEnforced
          | Unenforced, AcknowledgeUnenforced => GrantedUnenforced
          | Unenforced, RequireEnforced | EnforcementUnsupported, _ => VerdictUnsupported
          | EnforcementUnknown, _ => VerdictUnknown
          end)
    end
  end.
