(* ===== verification/AuthorityFacts.v ===== *)
(** * Properties of authority: requests are totally ordered, a context holds at
    most one rule for a request, a verdict is the rule's *)
From S2P Require Import Prelude Order Compare Path Authority.

(** ** The order of requests *)

Definition scope_key (s : CapabilityScope) : list str :=
  match s with
  | ProjectPath p => component_key <$> components p
  | Tool t => [t]
  | Endpoint e m => [e; m]
  | SecretSink s e h => [s; e; h]
  | Evaluation => []
  end.

Lemma path_compare_slice p q :
  path_compare p q =
  slice_compare bytes_compare (component_key <$> components p) (component_key <$> components q).
Proof.
  unfold path_compare. generalize (components q). induction (components p) as [|c cs IH];
    intros [|d ds]; [done..|]. rewrite !fmap_cons. cbn [components_compare slice_compare].
  rewrite (IH ds). unfold component_compare.
  by destruct (bytes_compare (component_key c) (component_key d)).
Qed.

Lemma then_cmp_Eq c : then_cmp c Eq = c.
Proof. by destruct c. Qed.

Lemma scope_compare_key a b :
  scope_compare a b =
  then_cmp (Z.compare (scope_index a) (scope_index b))
    (slice_compare bytes_compare (scope_key a) (scope_key b)).
Proof.
  destruct a, b; simpl; rewrite ?then_cmp_Eq; try done. apply path_compare_slice.
Qed.

#[export] Instance scope_compare_order : TotalPreorder scope_compare.
Proof.
  assert (TotalPreorder (λ a b, then_cmp (Z.compare (scope_index a) (scope_index b))
    (slice_compare bytes_compare (scope_key a) (scope_key b)))) as H.
  { apply (then_order (λ a b, Z.compare (scope_index a) (scope_index b))); apply _. }
  split; intros a b.
  - rewrite !scope_compare_key. apply (cmp_antisym _ (TotalPreorder := H)).
  - intros c. rewrite !scope_compare_key. apply (cmp_eq_l _ (TotalPreorder := H)).
  - intros c. rewrite !scope_compare_key. apply (cmp_lt_trans _ (TotalPreorder := H)).
Qed.

#[export] Instance request_compare_order : TotalPreorder request_compare.
Proof.
  apply (then_order (λ a b, Z.compare (effect_index (effect a)) (effect_index (effect b)))
    (λ a b, scope_compare (scope a) (scope b))).
Qed.

Lemma effect_index_inj e f : effect_index e = effect_index f → e = f.
Proof. by destruct e, f. Qed.

Lemma scope_compare_eq a b : scope_compare a b = Eq ↔ scope_eqb a b = true.
Proof.
  destruct a, b; simpl; try done; unfold str_eqb; rewrite ?andb_true_iff, ?bool_decide_eq_true.
  - unfold path_eqb. by destruct (path_compare _ _).
  - apply bytes_compare_eq.
  - rewrite <- !bytes_compare_eq. repeat (destruct (bytes_compare _ _); simpl); naive_solver.
  - rewrite <- !bytes_compare_eq. repeat (destruct (bytes_compare _ _); simpl); naive_solver.
Qed.

Lemma request_compare_eq a b : request_compare a b = Eq ↔ request_eqb a b = true.
Proof.
  unfold request_compare, request_eqb. rewrite andb_true_iff, bool_decide_eq_true, <- scope_compare_eq.
  destruct (Z.compare_spec (effect_index (effect a)) (effect_index (effect b))) as [H|H|H]; simpl.
  - apply effect_index_inj in H. naive_solver.
  - split; [done|]. intros [Heq _]. rewrite Heq in H. lia.
  - split; [done|]. intros [Heq _]. rewrite Heq in H. lia.
Qed.

(** ** Rules in order *)

Definition rule_compare (l r : AuthorityRule) : comparison := request_compare (request l) (request r).

#[local] Instance rule_compare_order : TotalPreorder rule_compare.
Proof. apply (cmp_on_order request request_compare). Qed.

Lemma rule_compare_eq l r : rule_compare l r = Eq ↔ request_eqb (request l) (request r) = true.
Proof. apply request_compare_eq. Qed.

Definition sorted_rules (rules : list AuthorityRule) : list AuthorityRule :=
  sort_by (λ l r, cmp_le request_compare (request l) (request r)) rules.

Lemma sorted_rules_perm rules : sorted_rules rules ≡ₚ rules.
Proof. apply sort_by_perm. Qed.

Lemma sorted_rules_sorted rules : StronglySorted (λ l r, rule_compare l r ≠ Gt) (sorted_rules rules).
Proof.
  assert (StronglySorted (leP (cmp_le rule_compare)) (sorted_rules rules)) as H.
  { apply sort_by_sorted; [apply (cmp_le_total rule_compare)|apply (cmp_le_trans rule_compare)]. }
  induction H as [|l rs H IH Hall]; constructor; [done|]. eapply Forall_impl; [exact Hall|].
  unfold leP, cmp_le. intros r. by destruct (rule_compare l r).
Qed.

(** *** Requests as keys *)

Definition request_key (r : CapabilityRequest) : Z * Z * list str :=
  (effect_index (effect r), scope_index (scope r), scope_key (scope r)).

Lemma slice_bytes_eq l k : slice_compare bytes_compare l k = Eq ↔ l = k.
Proof.
  rewrite slice_compare_eq. split; [|intros ->; apply Forall2_same_length_lookup_2; [done|]].
  - induction 1 as [|x y l k H _ IH]; [done|]. apply bytes_compare_eq in H. congruence.
  - intros i x y Hx Hy. rewrite bytes_compare_eq. congruence.
Qed.

Lemma request_eqb_key a b : request_eqb a b = true ↔ request_key a = request_key b.
Proof.
  rewrite <- request_compare_eq. unfold request_compare, request_key. rewrite scope_compare_key.
  destruct (Z.compare_spec (effect_index (effect a)) (effect_index (effect b))) as [->|H|H];
    [|rewrite !pair_equal_spec; split; [done|lia]..].
  destruct (Z.compare_spec (scope_index (scope a)) (scope_index (scope b))) as [->|H|H]; simpl;
    [rewrite slice_bytes_eq, !pair_equal_spec; naive_solver|rewrite !pair_equal_spec; split; [done|lia]..].
Qed.

Definition rule_key (r : AuthorityRule) : Z * Z * list str := request_key (request r).

Lemma rule_compare_key l r : rule_compare l r = Eq ↔ rule_key l = rule_key r.
Proof. rewrite rule_compare_eq. apply request_eqb_key. Qed.

Lemma strictly_sorted_keys rules :
  StronglySorted (λ l r, rule_compare l r ≠ Gt) rules →
  strictly_sorted rule_compare rules ↔ NoDup (rule_key <$> rules).
Proof.
  unfold strictly_sorted. induction 1 as [|l rules Hs IH Hall]; simpl; [by split; constructor|].
  rewrite NoDup_cons, StronglySorted_cons, IH, list.Forall_forall, list_elem_of_fmap.
  rewrite list.Forall_forall in Hall. split.
  - intros [H1 H2]. split; [|done]. intros (r & Hk & Hr). apply H1 in Hr.
    apply rule_compare_key in Hk. by rewrite Hk in Hr.
  - intros [H1 H2]. split; [|done]. intros r Hr. specialize (Hall r Hr).
    destruct (rule_compare l r) eqn:E; [|done|done]. apply rule_compare_key in E.
    destruct H1. by exists r.
Qed.

Lemma check_duplicates_sorted rules :
  StronglySorted (λ l r, rule_compare l r ≠ Gt) rules →
  match check_duplicates rules with
  | Ok _ => strictly_sorted rule_compare rules
  | Err e => ∃ i l r, rules !! i = Some l ∧ rules !! S i = Some r ∧
      e = DuplicateRule (request l) ∧ rule_compare l r = Eq ∧
      ¬ strictly_sorted rule_compare rules
  | Panic => False
  end.
Proof.
  unfold strictly_sorted.
  induction rules as [|l [|r rules] IH]; intros Hs; [constructor|by repeat constructor|].
  apply StronglySorted_inv in Hs as [Hs Hall]. specialize (IH Hs).
  change (check_duplicates (l :: r :: rules)) with
    (if request_eqb (request l) (request r) then Err (DuplicateRule (request l))
     else check_duplicates (r :: rules)).
  destruct (request_eqb (request l) (request r)) eqn:E.
  { apply rule_compare_eq in E.
    exists 0, l, r. split_and!; [done..|]. intros [_ H]%StronglySorted_inv.
    apply Forall_cons in H as [H _]. by rewrite E in H. }
  destruct (check_duplicates (r :: rules)) as [u|e|]; [| |done].
  - constructor; [done|]. apply StronglySorted_inv in IH as [_ IH].
    assert (rule_compare l r = Lt) as Hlr.
    { apply Forall_cons in Hall as [Hall _]. destruct (rule_compare l r) eqn:E'; [|done|done].
      apply rule_compare_eq in E'. congruence. }
    constructor; [done|]. eapply Forall_impl; [exact IH|]. intros x Hx.
    by apply (cmp_lt_trans rule_compare l r x).
  - destruct IH as (i & l' & r' & ? & ? & ? & ? & Hn). exists (S i), l', r'.
    split_and!; [done..|]. by intros [? _]%StronglySorted_inv.
Qed.

(** ** What a context promises *)

(** The rules a context accepts. *)
Definition acceptable (rules : list AuthorityRule) : Prop :=
  length rules ≤ MAX_AUTHORITY_RULES ∧
  (∀ r, r ∈ rules → required r = Some AcknowledgeUnenforced → effect (request r) = ProcessRun) ∧
  NoDup (rule_key <$> rules).

(** The rule that names a request, wherever it is declared. *)
Definition rule_for (rules : list AuthorityRule) (req : CapabilityRequest) : option AuthorityRule :=
  List.find (λ rule, request_eqb (request rule) req) rules.

(** The verdict the rule of a request stands for. *)
Definition declared_verdict (rules : list AuthorityRule) (req : CapabilityRequest)
    (platform : Platform) : AuthorityVerdict :=
  match rule_for rules req with
  | Some (mkRule _ (Some required)) =>
    match platform (platform_query req) with
    | Enforced => GrantedEnforced
    | Unenforced =>
      if bool_decide (required = AcknowledgeUnenforced) then GrantedUnenforced else VerdictUnsupported
    | EnforcementUnsupported => VerdictUnsupported
    | EnforcementUnknown => VerdictUnknown
    end
  | _ => Denied
  end.

Lemma find_spec {A} (f : A → bool) l :
  match List.find f l with
  | Some x => x ∈ l ∧ f x = true
  | None => ∀ x, x ∈ l → f x = false
  end.
Proof.
  destruct (List.find f l) as [x|] eqn:E.
  - apply find_some in E. by rewrite list_elem_of_In.
  - intros x Hx. apply list_elem_of_In in Hx. by apply (find_none f l).
Qed.

Lemma invalid_acknowledgement_spec r :
  invalid_acknowledgement r = true ↔
  required r = Some AcknowledgeUnenforced ∧ effect (request r) ≠ ProcessRun.
Proof. unfold invalid_acknowledgement. by rewrite andb_true_iff, !bool_decide_eq_true. Qed.

Lemma AuthorityContext_new_spec ev rules :
  match AuthorityContext_new ev rules with
  | Ok ctx => acceptable rules ∧ ctx = mkContext ev (sorted_rules rules)
  | Err (TooManyRules count max) => count = length rules ∧ max = MAX_AUTHORITY_RULES ∧ max < count
  | Err (InvalidUnenforcedAcknowledgement req) =>
      ∃ r, r ∈ rules ∧ request r = req ∧
        required r = Some AcknowledgeUnenforced ∧ effect req ≠ ProcessRun
  | Err (DuplicateRule req) =>
      ¬ NoDup (rule_key <$> rules) ∧
      ∃ i j r r', i ≠ j ∧ rules !! i = Some r ∧ rules !! j = Some r' ∧ request r = req ∧
        request_eqb (request r') req = true
  | Panic => False
  end.
Proof.
  unfold AuthorityContext_new. destruct (_ <? _) eqn:Hlen; bool_to_prop; [done|].
  pose proof (find_spec invalid_acknowledgement rules) as Hf.
  destruct (List.find invalid_acknowledgement rules) as [r|].
  { destruct Hf as [Hr Hv]. apply invalid_acknowledgement_spec in Hv as [? ?]. by exists r. }
  fold (sorted_rules rules). pose proof (sorted_rules_sorted rules) as Hs.
  pose proof (strictly_sorted_keys _ Hs) as Hk.
  pose proof (check_duplicates_sorted _ Hs) as Hd.
  assert (NoDup (rule_key <$> sorted_rules rules) ↔ NoDup (rule_key <$> rules)) as Hp
    by (by rewrite (sorted_rules_perm rules)).
  rewrite Hp in Hk.
  destruct (check_duplicates (sorted_rules rules)) as [u|e|]; simpl; [| |done].
  - split; [|done]. split_and!; [done| |by apply Hk].
    intros r Hr Ha. destruct (decide (effect (request r) = ProcessRun)) as [|Hn]; [done|].
    specialize (Hf r Hr). by rewrite (proj2 (invalid_acknowledgement_spec r)) in Hf.
  - destruct Hd as (i & l & r & Hl & Hr & -> & Heq & Hn). split; [by rewrite <- Hk|].
    destruct (proj1 (Permutation_inj _ _) (sorted_rules_perm rules)) as (_ & f & Hf' & Hlook).
    rewrite Hlook in Hl, Hr. exists (f i), (f (S i)), l, r. split_and!; [|done..|].
    + intros ?%(inj f). lia.
    + apply rule_compare_key in Heq. by apply request_eqb_key.
Qed.

Lemma searchable_sorted rules req :
  strictly_sorted rule_compare rules →
  searchable (λ rule, request_compare (request rule) req) rules.
Proof.
  intros Hs i j x y Hij Hx Hy. destruct (decide (i = j)) as [->|Hne]; [by simplify_eq|].
  assert (rule_compare x y = Lt) as Hxy.
  { revert i j Hij Hne Hx Hy. induction Hs as [|z rs Hs IH Hall]; intros i j Hij Hne Hx Hy; [done|].
    rewrite list.Forall_forall in Hall. destruct j as [|j]; [lia|]. simpl in Hy.
    destruct i as [|i]; simplify_eq/=; [by apply Hall, list_elem_of_lookup_2 with j|].
    apply (IH i j); auto; lia. }
  unfold rule_compare in Hxy.
  destruct (request_compare (request y) req) eqn:E.
  - by rewrite <- (cmp_eq_r request_compare _ _ (request x) E), Hxy; simpl; lia.
  - by rewrite (cmp_lt_trans request_compare _ _ _ Hxy E).
  - by destruct (request_compare (request x) req); simpl; lia.
Qed.

(** The rule found by position is the declared one. *)
Lemma rule_for_unique rules k req rule :
  NoDup (rule_key <$> rules) → k ≡ₚ rules → rule ∈ k → request_compare (request rule) req = Eq →
  rule_for rules req = Some rule.
Proof.
  intros Hn Hk Hr Heq. rewrite Hk in Hr. apply request_compare_eq in Heq as Hb.
  unfold rule_for. pose proof (find_spec (λ rule, request_eqb (request rule) req) rules) as Hf.
  destruct (List.find _ rules) as [r|]; [|by rewrite (Hf rule Hr) in Hb].
  destruct Hf as [Hr' Hb']. f_equal. apply request_eqb_key in Hb, Hb'.
  apply list_elem_of_lookup in Hr as [i Hi]. apply list_elem_of_lookup in Hr' as [j Hj].
  assert (i = j) as ->; [|congruence].
  apply (NoDup_lookup (rule_key <$> rules) i j (rule_key rule) Hn); rewrite list_lookup_fmap.
  - by rewrite Hi.
  - rewrite Hj. simpl. unfold rule_key. congruence.
Qed.

Lemma verdict_declared {E} ev rules ctx req platform :
  AuthorityContext_new ev rules = Ok ctx →
  verdict (E := E) ctx req platform = Ok (declared_verdict rules req platform).
Proof.
  intros Hctx. pose proof (AuthorityContext_new_spec ev rules) as H. rewrite Hctx in H.
  destruct H as [(_ & _ & Hn) ->]. unfold verdict. simpl.
  assert (strictly_sorted rule_compare (sorted_rules rules)) as Hs.
  { apply strictly_sorted_keys; [apply sorted_rules_sorted|]. by rewrite (sorted_rules_perm rules). }
  pose proof (binary_search_by_spec _ _ (searchable_sorted _ req Hs)) as Hb.
  destruct (binary_search_by _ _) as [i|i]; unfold declared_verdict.
  - destruct Hb as (rule & Hi & Heq). rewrite Hi. simpl.
    rewrite (rule_for_unique rules (sorted_rules rules) req rule Hn (sorted_rules_perm rules)
      (list_elem_of_lookup_2 _ _ _ Hi) Heq).
    destruct rule as [q [rq|]]; [|done]. simpl. by destruct (platform _), rq.
  - unfold rule_for. pose proof (find_spec (λ rule, request_eqb (request rule) req) rules) as Hf.
    destruct (List.find _ rules) as [r|]; [|done]. destruct Hf as [Hr Hq].
    exfalso. apply (Hb r); [by rewrite (sorted_rules_perm rules)|by apply request_compare_eq].
Qed.

(** ** Theorems *)

(** C9: authority fails closed and is exact: in a context built from rules given
    in any order, the verdict on a request never panics and is that of the one
    rule declared for that very request; it permits the call only if that rule
    is a grant and the platform enforces it, or leaves it unenforced where the
    rule acknowledges this of a process run. *)
Theorem verdict_exact (ev : EvaluationContextId) (rules : list AuthorityRule)
    (ctx : AuthorityContext) (req : CapabilityRequest) (platform : Platform) (E : Type) :
  AuthorityContext_new ev rules = Ok ctx →
  verdict (E := E) ctx req platform = Ok (declared_verdict rules req platform) ∧
  (is_executable (declared_verdict rules req platform) = true →
    ∃ rule granted, rule ∈ rules ∧ request_eqb (request rule) req = true ∧
      required rule = Some granted ∧
      (platform (platform_query req) = Enforced ∨
       platform (platform_query req) = Unenforced ∧ granted = AcknowledgeUnenforced ∧
       effect req = ProcessRun)).
Proof.
  intros Hctx. split; [by apply verdict_declared with ev|].
  pose proof (AuthorityContext_new_spec ev rules) as H. rewrite Hctx in H.
  destruct H as [(_ & Hack & _) _]. unfold declared_verdict, rule_for.
  pose proof (find_spec (λ rule, request_eqb (request rule) req) rules) as Hf.
  destruct (List.find _ rules) as [rule|]; [|done]. destruct Hf as [Hr Hq].
  destruct rule as [q [granted|]] eqn:Erule; [|done]. intros He.
  exists (mkRule q (Some granted)), granted. split_and!; [done..|].
  destruct (platform _) eqn:Ep; [by left| |done..]. right.
  case_bool_decide; [|done]. subst granted. split_and!; [done..|].
  apply request_eqb_key in Hq. unfold request_key in Hq. simpl in Hq. simplify_eq.
  specialize (Hack _ Hr eq_refl). simpl in Hack. apply effect_index_inj. by rewrite <- Hack.
Qed.

(** A context is built exactly from at most 256 rules, acknowledging an
    unenforced boundary for process runs only, no two of them for the same
    request; otherwise the error names the count, a rule with the invalid
    acknowledgement, or a repeated request; building never panics and keeps
    every rule. *)
Theorem context_checked (ev : EvaluationContextId) (rules : list AuthorityRule) :
  match AuthorityContext_new ev rules with
  | Ok ctx => acceptable rules ∧ evaluation ctx = ev ∧ Authority.rules ctx ≡ₚ rules
  | Err e =>
      ¬ acceptable rules ∧
      match e with
      | TooManyRules count max => count = length rules ∧ max = MAX_AUTHORITY_RULES
      | InvalidUnenforcedAcknowledgement req =>
          ∃ r, r ∈ rules ∧ request r = req ∧ required r = Some AcknowledgeUnenforced ∧
            effect req ≠ ProcessRun
      | DuplicateRule req =>
          ∃ i j r r', i ≠ j ∧ rules !! i = Some r ∧ rules !! j = Some r' ∧ request r = req ∧
            request_eqb (request r') req = true
      end
  | Panic => False
  end.
Proof.
  pose proof (AuthorityContext_new_spec ev rules) as H.
  destruct (AuthorityContext_new ev rules) as [ctx|[count max|req|req]|]; [| | | |done].
  - destruct H as [Ha ->]. split_and!; [done..|]. apply sorted_rules_perm.
  - destruct H as (-> & -> & H). split; [intros (? & _); lia|done].
  - destruct H as [Hn H]. split; [by intros (_ & _ & ?)|done].
  - split; [|done]. destruct H as (r & Hr & <- & Hack & Hne). intros (_ & H & _). by apply Hne, H.
Qed.

(** A set of effects holds exactly the requests it was built from, each
    once, in the total order of requests; it is empty, and so grants nothing,
    only when built from none. *)
Theorem effect_set_exact (requests : list CapabilityRequest) :
  strictly_sorted request_compare (EffectSet_new requests) ∧
  (∀ r, EffectSet_contains (EffectSet_new requests) r = true ↔
    ∃ r', r' ∈ requests ∧ request_eqb r r' = true) ∧
  (EffectSet_is_empty (EffectSet_new requests) = true ↔ requests = []).
Proof.
  destruct (btree_collect_spec request_compare requests) as [Hs Hc]. fold (EffectSet_new requests) in *.
  split_and!; [done| |].
  - intros r. unfold EffectSet_contains. rewrite Hc. by setoid_rewrite request_compare_eq.
  - split; [|by intros ->]. destruct requests as [|r requests]; [done|]. intros He.
    assert (btree_contains request_compare (EffectSet_new (r :: requests)) r = true) as H.
    { apply Hc. exists r. split; [left|apply (cmp_refl request_compare)]. }
    by destruct (EffectSet_new (r :: requests)).
Qed.

(** ** Witnesses *)

Definition sample_rules : list AuthorityRule :=
  [grant (mkRequest ProcessRun (Tool (bs "git"))) AcknowledgeUnenforced;
   deny (mkRequest NetworkHttp (Endpoint (bs "api") (bs "GET")));
   grant (mkRequest FilesystemRead (ProjectPath (bs "src/./lib"))) RequireEnforced].

Definition sample_context : AuthorityContext :=
  match AuthorityContext_new 7%Z sample_rules with Ok ctx => ctx | _ => AuthorityContext_empty 7%Z end.

(** A platform that contains file access but no child process. *)
Definition sample_platform (q : AuthorityQuery) : AuthorityEnforcement :=
  match query_effect q with ProcessRun => Unenforced | FilesystemRead => Enforced | _ => EnforcementUnknown end.

Lemma verdict_exact_witness :
  verdict (E := Empty_set) sample_context (mkRequest FilesystemRead (ProjectPath (bs "src/lib/"))) sample_platform
    = Ok GrantedEnforced ∧
  verdict (E := Empty_set) sample_context (mkRequest ProcessRun (Tool (bs "git"))) sample_platform
    = Ok GrantedUnenforced ∧
  verdict (E := Empty_set) sample_context (mkRequest ProcessRun (Tool (bs "gi"))) sample_platform
    = Ok Denied.
Proof.
  pose proof (λ req, verdict_exact 7%Z sample_rules sample_context req sample_platform Empty_set
    ltac:(vm_compute; reflexivity)) as H.
  split_and!.
  - rewrite (proj1 (H _)). vm_compute. reflexivity.
  - rewrite (proj1 (H _)). vm_compute. reflexivity.
  - rewrite (proj1 (H _)). vm_compute. reflexivity.
Defined.
