(* ===== verification/Glob.v ===== *)
(** * Filesystem globbing ([opaal-runtime/src/glob.rs])

    Parsing of glob patterns over native path units, matching of one component
    by the table of reachable pattern positions, matching of whole paths, and
    the traversal of a directory tree.  The directory reader of the host is a
    parameter: a function from a path to its entries, one fixed tree for the
    whole expansion. *)
From S2P Require Import Prelude Utf8 Order Path.

Local Open Scope res_scope.

(** ** Native characters *)

Inductive NativeChar := Unicode (c : Z) | Invalid (byte : u8).

#[export] Instance NativeChar_eq_dec : EqDecision NativeChar.
Proof. solve_decision. Defined.

Definition native_order (c : NativeChar) : Z :=
  match c with Unicode c => c | Invalid byte => 0x110000 + byte end.

(** Each round consumes a valid prefix and at least one invalid byte. *)
Fixpoint native_chars_loop (fuel : nat) (bytes : str) : res Empty_set (list NativeChar) :=
  match fuel with
  | O => Panic
  | S fuel =>
    if bool_decide (bytes = []) then Ok []
    else match from_utf8 bytes with
    | Utf8Ok cs => Ok (Unicode <$> cs)
    | Utf8Error valid error_len =>
      match from_utf8 (take valid bytes) with
      | Utf8Error _ _ => Panic
      | Utf8Ok cs =>
        let rest := drop valid bytes in
        let invalid := default 1 error_len `min` length rest in
        let* more := native_chars_loop fuel (drop invalid rest) in
        Ok ((Unicode <$> cs) ++ (Invalid <$> take invalid rest) ++ more)
      end
    end
  end.

Definition native_chars (value : str) : list NativeChar :=
  match native_chars_loop (S (length value)) value with Ok cs => cs | _ => [] end.

Definition uni (s : String.string) : NativeChar :=
  match bs s with [b] => Unicode b | _ => Invalid 0 end.
Arguments uni s%_string.

(** ** Data *)

Record CharacterClass := mkClass {
  negated : bool;
  ranges : list (NativeChar * NativeChar)
}.

Inductive PatternAtom :=
| Literal (c : NativeChar)
| AnyOne
| AnyMany
| Class (c : CharacterClass).

#[export] Instance CharacterClass_eq_dec : EqDecision CharacterClass.
Proof. solve_decision. Defined.
#[export] Instance PatternAtom_eq_dec : EqDecision PatternAtom.
Proof. solve_decision. Defined.

Record ComponentPattern := mkPattern {
  atoms : list PatternAtom;
  explicit_hidden : bool
}.

Inductive PatternSegment :=
| Parent
| Recursive_
| Comp (pattern : ComponentPattern).

Record GlobPattern := mkGlob {
  initial : str;
  segments : list PatternSegment;
  empty_pattern : bool
}.

(** A [GlobPatternError] is its message. *)
Definition GlobPatternError : Type := str.

(** ** Parsing *)

(** The items of a class up to its [']'], from [index]: each character with
    whether it was escaped, and the index after the bracket. *)
Fixpoint class_items (fuel : nat) (pattern : list NativeChar) (index : nat)
    (items : list (NativeChar * bool)) : res GlobPatternError (list (NativeChar * bool) * nat) :=
  match fuel with
  | O => Panic
  | S fuel =>
    match pattern !! index with
    | None => Err (bs "a character class is missing `]`")
    | Some c =>
      if bool_decide (c = uni "]") then Ok (items, S index)
      else if bool_decide (c = uni "\") then
        match pattern !! S index with
        | None => Err (bs "a character-class escape has no following character")
        | Some c => class_items fuel pattern (S (S index)) (items ++ [(c, true)])
        end
      else class_items fuel pattern (S index) (items ++ [(c, false)])
    end
  end.

(** The ranges the items denote. *)
Fixpoint class_ranges (items : list (NativeChar * bool))
    : res GlobPatternError (list (NativeChar * NativeChar)) :=
  match items with
  | [] => Ok []
  | (start, _) :: ((dash :: (stop, _) :: items) as rest) =>
    if bool_decide (dash = (uni "-", false)) then
      if (native_order stop <? native_order start)%Z
      then Err (bs "a character-class range cannot descend")
      else let* ranges := class_ranges items in Ok ((start, stop) :: ranges)
    else let* ranges := class_ranges rest in Ok ((start, start) :: ranges)
  | (start, _) :: rest =>
    let* ranges := class_ranges rest in Ok ((start, start) :: ranges)
  end.

Definition CharacterClass_parse (pattern : list NativeChar) (index : nat)
    : res GlobPatternError (CharacterClass * nat) :=
  let negated := bool_decide (pattern !! index = Some (uni "!") ∨ pattern !! index = Some (uni "^")) in
  let index := if negated then S index else index in
  let* ' (items, index) := class_items (S (length pattern)) pattern index [] in
  if length items =? 0 then Err (bs "a character class cannot be empty")
  else
    let* ranges := class_ranges items in
    Ok (mkClass negated ranges, index).

Definition is_any_many (a : PatternAtom) : bool :=
  match a with AnyMany => true | _ => false end.

Fixpoint parse_atoms (fuel : nat) (cs : list NativeChar) (index : nat) (atoms : list PatternAtom)
    : res GlobPatternError (list PatternAtom) :=
  match fuel with
  | O => Panic
  | S fuel =>
    match cs !! index with
    | None => Ok atoms
    | Some c =>
      if bool_decide (c = uni "\") then
        match cs !! S index with
        | None => Err (bs "a trailing escape has no pattern character")
        | Some c => parse_atoms fuel cs (S (S index)) (atoms ++ [Literal c])
        end
      else if bool_decide (c = uni "*") then
        parse_atoms fuel cs (S index)
          (match last atoms with Some AnyMany => atoms | _ => atoms ++ [AnyMany] end)
      else if bool_decide (c = uni "?") then parse_atoms fuel cs (S index) (atoms ++ [AnyOne])
      else if bool_decide (c = uni "[") then
        let* ' (class, next) := CharacterClass_parse cs (S index) in
        parse_atoms fuel cs next (atoms ++ [Class class])
      else parse_atoms fuel cs (S index) (atoms ++ [Literal c])
    end
  end.

Definition hidden_atom (a : option PatternAtom) : bool :=
  match a with Some (Literal c) => bool_decide (c = uni ".") | _ => false end.

Definition ComponentPattern_parse (cs : list NativeChar) : res GlobPatternError ComponentPattern :=
  let* atoms := parse_atoms (S (length cs)) cs 0 [] in
  Ok (mkPattern atoms (hidden_atom (head atoms))).

Definition PatternSegment_parse (component : str) : res GlobPatternError PatternSegment :=
  let cs := native_chars component in
  if bool_decide (cs = [uni "*"; uni "*"]) then Ok Recursive_
  else let* p := ComponentPattern_parse cs in Ok (Comp p).

(** The loop over the components of the pattern. *)
Fixpoint parse_components (cs : list Component) (init : str) (segs : list PatternSegment)
    (saw_curdir : bool) : res GlobPatternError (str * list PatternSegment * bool) :=
  match cs with
  | [] => Ok (init, segs, saw_curdir)
  | RootDir :: cs => parse_components cs (push init [SLASH]) segs saw_curdir
  | CurDir :: cs => parse_components cs init segs true
  | ParentDir :: cs => parse_components cs init (segs ++ [Parent]) saw_curdir
  | Normal name :: cs =>
    let* s := PatternSegment_parse name in parse_components cs init (segs ++ [s]) saw_curdir
  end.

Definition GlobPattern_parse (pattern : str) : res GlobPatternError GlobPattern :=
  if bool_decide (pattern = []) then Ok (mkGlob [] [] true)
  else if bool_decide (0%Z ∈ pattern) then Err (bs "patterns cannot contain NUL")
  else
    let* ' (init, segs, saw_curdir) := parse_components (components pattern) [] [] false in
    let init := if saw_curdir && bool_decide (init = []) && (length segs =? 0)
                then push init dot else init in
    Ok (mkGlob init segs false).

(** ** Matching *)

Definition CharacterClass_matches (class : CharacterClass) (c : NativeChar) : bool :=
  let value := native_order c in
  let contained := existsb (λ r, (native_order r.1 <=? value)%Z && (value <=? native_order r.2)%Z)
                     (ranges class) in
  negb (Bool.eqb contained (negated class)).

(** Whether an atom that consumes one character accepts it. *)
Definition atom_accepts (a : PatternAtom) (c : NativeChar) : bool :=
  match a with
  | Literal expected => bool_decide (c = expected)
  | AnyOne => true
  | Class class => CharacterClass_matches class c
  | AnyMany => false
  end.

(** One row of the table: [next[i]] from [current[i]] and [next[i-1]] for
    [AnyMany], from [current[i-1]] for the other atoms. *)
Fixpoint many_row (previous : bool) (current : list bool) : list bool :=
  match current with
  | [] => []
  | b :: current => (b || previous) :: many_row (b || previous) current
  end.

Fixpoint one_row (accepts : NativeChar → bool) (current : list bool) (cs : list NativeChar)
    : list bool :=
  match current, cs with
  | b :: current, c :: cs => (b && accepts c) :: one_row accepts current cs
  | _, _ => []
  end.

Definition next_row (cs : list NativeChar) (current : list bool) (a : PatternAtom) : list bool :=
  match a with
  | AnyMany => many_row false current
  | _ => false :: one_row (atom_accepts a) current cs
  end.

Definition starts_with_dot (name : str) : bool :=
  bool_decide (head (native_chars name) = Some (uni ".")).

Definition is_dot_entry (name : str) : bool :=
  bool_decide (name = dot) || bool_decide (name = dotdot).

Definition ComponentPattern_matches (p : ComponentPattern) (name : str) : bool :=
  if starts_with_dot name && negb (explicit_hidden p) then false
  else
    let cs := native_chars name in
    let current := true :: replicate (length cs) false in
    default false (last (foldl (next_row cs) current (atoms p))).

Fixpoint match_segments (pattern : list PatternSegment) (candidate : list str) : bool :=
  match pattern with
  | [] => bool_decide (candidate = [])
  | Parent :: rest =>
    match candidate with
    | name :: candidate => bool_decide (name = dotdot) && match_segments rest candidate
    | [] => false
    end
  | Recursive_ :: rest =>
    (fix recursive (candidate : list str) : bool :=
      match_segments rest candidate ||
      match candidate with
      | name :: candidate => negb (starts_with_dot name) && recursive candidate
      | [] => false
      end) candidate
  | Comp component :: rest =>
    match candidate with
    | name :: candidate => ComponentPattern_matches component name && match_segments rest candidate
    | [] => false
    end
  end.

Definition segment_name (c : Component) : option str :=
  match c with
  | Normal value => Some value
  | ParentDir => Some dotdot
  | CurDir | RootDir => None
  end.

Definition candidate_segments (candidate : str) : list str :=
  omap segment_name (components candidate).

Definition GlobPattern_matches (p : GlobPattern) (candidate : str) : bool :=
  if empty_pattern p then bool_decide (candidate = [])
  else if negb (Bool.eqb (is_absolute (initial p)) (is_absolute candidate)) then false
  else match_segments (segments p) (candidate_segments candidate).

Definition glob_pattern_matches (pattern candidate : str) : res GlobPatternError bool :=
  let* p := GlobPattern_parse pattern in Ok (GlobPattern_matches p candidate).

(** ** Traversal *)

Inductive DirectoryEntryKind := EntryFile | EntryDirectory | EntrySymlink | EntryOther.

#[export] Instance DirectoryEntryKind_eq_dec : EqDecision DirectoryEntryKind.
Proof. solve_decision. Defined.

Record DirectoryEntry := mkEntry {
  entry_name : str;
  entry_kind : DirectoryEntryKind;
  entry_size : option Z
}.

Definition is_directory (e : DirectoryEntry) : bool :=
  bool_decide (entry_kind e = EntryDirectory).

Section Expand.
Context {E : Type} (read_directory : str → res E (list DirectoryEntry)).

(** Reading a path, the empty one as the working directory, in name order. *)
Definition read_sorted (directory : str) : res E (list DirectoryEntry) :=
  let* entries := read_directory (if bool_decide (directory = []) then dot else directory) in
  Ok (sort_by (λ l r, bytes_le (entry_name l) (entry_name r)) entries).

Definition child_directories (directory : str) (entries : list DirectoryEntry) : list str :=
  (λ e, push directory (entry_name e)) <$>
    filter (λ e, is_directory e && negb (is_dot_entry (entry_name e))
                 && negb (starts_with_dot (entry_name e)) = true) entries.

(** [pending] is the stack, its top first.  Out of fuel stands for a walk that
    does not end. *)
Fixpoint collect_loop (fuel : nat) (pending directories : list str) : res E (list str) :=
  match fuel with
  | O => Panic
  | S fuel =>
    match pending with
    | [] => Ok directories
    | directory :: pending =>
      let '(new, directories) := set_insert directory directories in
      if negb new then collect_loop fuel pending directories
      else
        let* entries := read_sorted directory in
        collect_loop fuel (child_directories directory entries ++ pending) directories
    end
  end.

Definition collect_recursive_directories (fuel : nat) (root : str) (directories : list str)
    : res E (list str) := collect_loop fuel [root] directories.

(** [for path in paths { .. }?] accumulating results. *)
Fixpoint try_fold {A B} (f : B → A → res E B) (acc : B) (l : list A) : res E B :=
  match l with
  | [] => Ok acc
  | x :: l => let* acc := f acc x in try_fold f acc l
  end.

Definition component_children (pattern : ComponentPattern) (final_segment : bool)
    (directory : str) : res E (list str) :=
  let* entries := read_sorted directory in
  Ok ((λ e, push directory (entry_name e)) <$>
      filter (λ e, negb (is_dot_entry (entry_name e)) &&
                   ComponentPattern_matches pattern (entry_name e) &&
                   (final_segment || is_directory e) = true) entries).

Definition expand_segment (fuel : nat) (segment : PatternSegment) (final_segment : bool)
    (paths : list str) : res E (list str) :=
  match segment with
  | Parent => Ok ((λ path, push path dotdot) <$> paths)
  | Recursive_ =>
    try_fold (λ directories path, collect_recursive_directories fuel path directories) [] paths
  | Comp pattern =>
    try_fold (λ matched directory,
      let* children := component_children pattern final_segment directory in
      Ok (matched ++ children)) [] paths
  end.

Fixpoint expand_segments (fuel : nat) (segs : list PatternSegment) (paths : list str)
    : res E (list str) :=
  match segs with
  | [] => Ok paths
  | segment :: segs =>
    let* paths := expand_segment fuel segment (bool_decide (segs = [])) paths in
    expand_segments fuel segs paths
  end.

Definition expand (fuel : nat) (p : GlobPattern) : res E (list str) :=
  if empty_pattern p then Ok []
  else
    let* paths := expand_segments fuel (segments p) [initial p] in
    Ok (dedup (sort_by path_le paths)).

End Expand.
