(* ===== verification/GlobFacts.v ===== *)
(** * Correctness of globbing

    Native characters lose nothing, the table of [ComponentPattern::matches]
    decides the declarative meaning of a component pattern, printing a
    component pattern and parsing it gives it back, the recursive walk of a
    finite tree ends with exactly the directories below its root, and what a
    pattern expands to is sorted, without duplicates, and matches it. *)
From S2P Require Import Prelude Utf8 Order Path Glob.

Local Open Scope res_scope.

(** ** Native characters *)

Definition native_bytes (c : NativeChar) : str :=
  match c with Unicode c => encode_char c | Invalid b => [b] end.

Definition to_bytes (cs : list NativeChar) : str := mjoin (native_bytes <$> cs).

Lemma to_bytes_app cs ds : to_bytes (cs ++ ds) = to_bytes cs ++ to_bytes ds.
Proof. unfold to_bytes. by rewrite fmap_app, join_app. Qed.

Lemma to_bytes_unicode cs : to_bytes (Unicode <$> cs) = encode cs.
Proof. unfold to_bytes, encode. f_equal. rewrite <- list_fmap_compose. done. Qed.

Lemma to_bytes_invalid bs : to_bytes (Invalid <$> bs) = bs.
Proof.
  unfold to_bytes. induction bs as [|b bs IH]; [done|]. rewrite !fmap_cons. simpl. f_equal. exact IH.
Qed.

Lemma native_chars_loop_total fuel bytes :
  length bytes < fuel → ∃ cs, native_chars_loop fuel bytes = Ok cs ∧ to_bytes cs = bytes.
Proof.
  revert bytes. induction fuel as [|fuel IH]; intros bytes Hf; [lia|]. cbn [native_chars_loop].
  case_bool_decide as He; [subst; by exists []|].
  destruct (from_utf8 bytes) as [cs|v e] eqn:Hu.
  { apply from_utf8_ok in Hu as (_ & _ & ->). eexists. split; [done|]. apply to_bytes_unicode. }
  apply from_utf8_error in Hu as (Hv & Ht & Hd).
  destruct (from_utf8_utf8 _ Ht) as [cs Hcs]. rewrite Hcs.
  apply from_utf8_ok in Hcs as (_ & _ & Hcs).
  set (rest := drop v bytes) in *. set (n := default 1 e `min` length rest).
  assert (0 < n) as Hn.
  { unfold n. destruct e as [k|]; simpl.
    - apply decode_invalid_len in Hd. lia.
    - destruct rest; [done|simpl; lia]. }
  assert (length rest = length bytes - v) as Hl by (unfold rest; by rewrite length_drop).
  destruct (IH (drop n rest)) as (more & Hm & Hmb).
  { rewrite length_drop. unfold n in *. destruct bytes; [done|]. simpl in *. lia. }
  rewrite Hm. simpl. eexists. split; [done|].
  rewrite !to_bytes_app, to_bytes_unicode, to_bytes_invalid, Hmb, <- Hcs, take_drop.
  unfold rest. by rewrite take_drop.
Qed.

Lemma native_chars_bytes s : to_bytes (native_chars s) = s.
Proof.
  unfold native_chars. destruct (native_chars_loop_total (S (length s)) s) as (cs & -> & H); [lia|done].
Qed.

(** ** The meaning of a component pattern *)

Inductive atoms_match : list PatternAtom → list NativeChar → Prop :=
| match_nil : atoms_match [] []
| match_one a ps c cs :
    atom_accepts a c = true → atoms_match ps cs → atoms_match (a :: ps) (c :: cs)
| match_many_stop ps cs : atoms_match ps cs → atoms_match (AnyMany :: ps) cs
| match_many_more ps c cs :
    atoms_match (AnyMany :: ps) cs → atoms_match (AnyMany :: ps) (c :: cs).

Lemma atoms_match_app ps qs cs ds :
  atoms_match ps cs → atoms_match qs ds → atoms_match (ps ++ qs) (cs ++ ds).
Proof. induction 1; simpl; auto using atoms_match. Qed.

Lemma atoms_match_split ps qs s :
  atoms_match (ps ++ qs) s → ∃ cs ds, s = cs ++ ds ∧ atoms_match ps cs ∧ atoms_match qs ds.
Proof.
  remember (ps ++ qs) as r eqn:Hr. intros H. revert ps Hr.
  induction H as [|a r c cs Ha Hm IH|r cs Hm IH|r c cs Hm IH]; intros ps Hr.
  - symmetry in Hr. apply app_eq_nil in Hr as [-> ->]. exists [], []. auto using atoms_match.
  - destruct ps as [|a' ps]; simpl in Hr.
    + subst qs. exists [], (c :: cs). auto using atoms_match.
    + injection Hr as <- ->. destruct (IH ps eq_refl) as (xs & ys & -> & ? & ?).
      exists (c :: xs), ys. auto using atoms_match.
  - destruct ps as [|a' ps]; simpl in Hr.
    + subst qs. exists [], cs. auto using atoms_match.
    + injection Hr as <- ->. destruct (IH ps eq_refl) as (xs & ys & -> & ? & ?).
      exists xs, ys. auto using atoms_match.
  - destruct (IH ps Hr) as (xs & ys & -> & Hx & Hy). destruct ps as [|a' ps]; simpl in Hr.
    + inversion Hx; subst. exists [], (c :: ys). auto using atoms_match.
    + injection Hr as <- ->. exists (c :: xs), ys. auto using atoms_match.
Qed.

Lemma atoms_match_many cs : atoms_match [AnyMany] cs.
Proof. induction cs; auto using atoms_match. Qed.

Lemma atoms_match_snoc_many ps s :
  atoms_match (ps ++ [AnyMany]) s ↔ ∃ i, i ≤ length s ∧ atoms_match ps (take i s).
Proof.
  split.
  - intros (cs & ds & -> & Hc & _)%atoms_match_split. exists (length cs).
    rewrite length_app, take_app_length. split; [lia|done].
  - intros (i & Hi & Hm). rewrite <- (take_drop i s).
    apply atoms_match_app; [done|apply atoms_match_many].
Qed.

Lemma atoms_match_snoc_one ps a s :
  a ≠ AnyMany →
  atoms_match (ps ++ [a]) s ↔
    ∃ s' c, s = s' ++ [c] ∧ atoms_match ps s' ∧ atom_accepts a c = true.
Proof.
  intros Ha. split.
  - intros (cs & ds & -> & Hc & Hd)%atoms_match_split.
    inversion Hd as [|a' ps' c cs' Hacc Hn| |]; subst; try done. inversion Hn; subst. eauto.
  - intros (s' & c & -> & Hm & Hacc). apply atoms_match_app; [done|]. auto using atoms_match.
Qed.

(** ** The table *)

(** Row [i] of the table after the atoms [ps] were read. *)
Definition row_for (ps : list PatternAtom) (cs : list NativeChar) (row : list bool) : Prop :=
  length row = S (length cs) ∧
  ∀ i b, row !! i = Some b → (b = true ↔ atoms_match ps (take i cs)).

Lemma many_row_lookup prev row i b :
  many_row prev row !! i = Some b →
  is_Some (row !! i) ∧ (b = true ↔ prev = true ∨ ∃ j, j ≤ i ∧ row !! j = Some true).
Proof.
  revert prev i. induction row as [|x row IH]; intros prev i; simpl; [done|].
  destruct i as [|i]; simpl.
  - intros [= <-]. split; [by eexists|]. rewrite orb_true_iff. split.
    + intros [->|]; [right; exists 0|]; auto.
    + intros [|(j & Hj & Hr)]; [auto|]. replace j with 0 in Hr by lia. naive_solver.
  - intros [Hs Hb]%IH. split; [done|]. rewrite Hb, orb_true_iff. split.
    + intros [[->|]|(j & Hj & Hr)]; [right; exists 0; split; [lia|done]|auto|].
      right. exists (S j). split; [lia|done].
    + intros [|([|j] & Hj & Hr)]; [auto|left; naive_solver|]. right. exists j. split; [lia|done].
Qed.

Lemma many_row_length prev row : length (many_row prev row) = length row.
Proof. revert prev. induction row; simpl; auto. Qed.

Lemma one_row_length f row cs : length row = S (length cs) → length (one_row f row cs) = length cs.
Proof.
  revert cs. induction row as [|b row IH]; intros [|c cs]; simpl; try done. intros [= H].
  by rewrite IH.
Qed.

Lemma one_row_lookup f row cs i b :
  one_row f row cs !! i = Some b →
  ∃ x c, row !! i = Some x ∧ cs !! i = Some c ∧ b = x && f c.
Proof.
  revert cs i. induction row as [|x row IH]; intros [|c cs] i; simpl; try done.
  destruct i as [|i]; simpl; [|apply IH]. intros [= <-]. eauto.
Qed.

Lemma next_row_spec ps cs row a :
  row_for ps cs row → row_for (ps ++ [a]) cs (next_row cs row a).
Proof.
  intros [Hlen Hrow].
  assert (a ≠ AnyMany → next_row cs row a = false :: one_row (atom_accepts a) row cs) as Hone.
  { by destruct a. }
  destruct (decide (a = AnyMany)) as [->|Ha].
  - split; [simpl; by rewrite many_row_length|]. intros i b Hb. simpl in Hb.
    apply many_row_lookup in Hb as [[y Hy] Hb]. apply lookup_lt_Some in Hy as Hi.
    rewrite Hb, atoms_match_snoc_many, length_take. split.
    + intros [|(j & Hj & Hr)]; [done|]. exists j. split; [lia|].
      rewrite take_take, Nat.min_l by lia. by apply (Hrow j true).
    + intros (j & Hj & Hm). right. rewrite take_take, Nat.min_l in Hm by lia.
      exists j. split; [lia|]. destruct (lookup_lt_is_Some_2 row j) as [x Hx]; [lia|].
      rewrite Hx. f_equal. by apply (Hrow j x).
  - rewrite Hone by done. split; [simpl; by rewrite one_row_length|].
    intros [|i] b Hb; simpl in Hb.
    + injection Hb as <-. split; [done|]. rewrite take_0.
      intros (s & c & Hs & _)%atoms_match_snoc_one; [|done]. by destruct s.
    + apply one_row_lookup in Hb as (x & c & Hx & Hc & ->).
      rewrite (take_S_r _ _ _ Hc), atoms_match_snoc_one, andb_true_iff, (Hrow _ _ Hx) by done.
      split; [naive_solver|]. intros (s & c' & [Hs ?]%app_inj_tail & ? & ?). by subst.
Qed.

Lemma table_spec qs ps cs row :
  row_for ps cs row → row_for (ps ++ qs) cs (foldl (next_row cs) row qs).
Proof.
  revert ps row. induction qs as [|a qs IH]; intros ps row Hr; simpl; [by rewrite app_nil_r|].
  replace (ps ++ a :: qs) with ((ps ++ [a]) ++ qs) by by rewrite <- app_assoc.
  by apply IH, next_row_spec.
Qed.

Lemma first_row cs : row_for [] cs (true :: replicate (length cs) false).
Proof.
  split; [simpl; by rewrite length_replicate|]. intros [|i] b Hb; simpl in Hb.
  - injection Hb as <-. rewrite take_0. split; auto using atoms_match.
  - apply lookup_replicate in Hb as [-> Hi]. split; [done|]. intros H.
    inversion H as [Hn| | |]. destruct cs; [simpl in Hi; lia|done].
Qed.

Lemma table_decides ps cs :
  default false (last (foldl (next_row cs) (true :: replicate (length cs) false) ps)) = true ↔
  atoms_match ps cs.
Proof.
  destruct (table_spec ps [] cs _ (first_row cs)) as [Hlen Hrow].
  set (row := foldl _ _ _) in *. rewrite last_lookup, Hlen. simpl.
  destruct (lookup_lt_is_Some_2 row (length cs)) as [b Hb]; [lia|].
  rewrite Hb. simpl. rewrite (Hrow _ _ Hb), firstn_all. done.
Qed.

(** ** Parsing *)

Definition range_wf (r : NativeChar * NativeChar) : Prop :=
  (native_order r.1 ≤ native_order r.2)%Z.

Definition atom_wf (a : PatternAtom) : Prop :=
  match a with
  | Class class => ranges class ≠ [] ∧ Forall range_wf (ranges class)
  | _ => True
  end.

(** No two adjacent [AnyMany]. *)
Fixpoint no_double (prev : option PatternAtom) (ps : list PatternAtom) : Prop :=
  match ps with
  | [] => True
  | a :: ps => (a = AnyMany → prev ≠ Some AnyMany) ∧ no_double (Some a) ps
  end.

Definition atoms_wf (ps : list PatternAtom) : Prop := Forall atom_wf ps ∧ no_double None ps.

Lemma no_double_snoc prev ps a :
  no_double prev (ps ++ [a]) ↔
  no_double prev ps ∧ (a = AnyMany → (match last ps with Some b => Some b | None => prev end) ≠ Some AnyMany).
Proof.
  revert prev. induction ps as [|b ps IH]; intros prev; simpl; [tauto|].
  rewrite IH. destruct ps as [|c ps]; simpl; [tauto|].
  destruct (last (c :: ps)) eqn:Hl; [tauto|]. by apply last_None in Hl.
Qed.

Lemma class_items_total fuel pattern index items :
  length pattern - index < fuel → index ≤ length pattern →
  match class_items fuel pattern index items with
  | Ok (_, next) => index < next ≤ length pattern
  | Err _ => True
  | Panic => False
  end.
Proof.
  revert index items. induction fuel as [|fuel IH]; intros index items Hf Hi; [lia|].
  cbn [class_items]. destruct (pattern !! index) as [c|] eqn:Hc; [|done].
  apply lookup_lt_Some in Hc as Hlt. case_bool_decide; [lia|].
  case_bool_decide.
  - destruct (pattern !! S index) as [c'|] eqn:Hc'; [|done].
    apply lookup_lt_Some in Hc' as Hlt'. specialize (IH (S (S index)) (items ++ [(c', true)])).
    case_match; [|done|apply IH; lia]. case_match. lia.
  - specialize (IH (S index) (items ++ [(c, false)])).
    case_match; [|done|apply IH; lia]. case_match. lia.
Qed.

Lemma class_ranges_one a ea : class_ranges [(a, ea)] = Ok [(a, a)].
Proof. done. Qed.

Lemma class_ranges_two a ea d ed : class_ranges [(a, ea); (d, ed)] = Ok [(a, a); (d, d)].
Proof. done. Qed.

Lemma class_ranges_three a ea dash b eb items :
  class_ranges ((a, ea) :: dash :: (b, eb) :: items) =
  if bool_decide (dash = (uni "-", false)) then
    if (native_order b <? native_order a)%Z
    then Err (bs "a character-class range cannot descend")
    else let* ranges := class_ranges items in Ok ((a, b) :: ranges)
  else let* ranges := class_ranges (dash :: (b, eb) :: items) in Ok ((a, a) :: ranges).
Proof. done. Qed.

Lemma range_wf_refl a : range_wf (a, a).
Proof. unfold range_wf. simpl. lia. Qed.

Lemma class_ranges_wf items :
  match class_ranges items with
  | Ok rs => Forall range_wf rs ∧ (items ≠ [] → rs ≠ [])
  | Err _ => True
  | Panic => False
  end.
Proof.
  remember (length items) as n eqn:Hn. revert items Hn.
  induction n as [n IH] using lt_wf_ind; intros items ->.
  destruct items as [|[a ea] [|dash [|[b eb] items]]].
  - done.
  - rewrite class_ranges_one. split; [repeat constructor; apply range_wf_refl|done].
  - destruct dash as [d ed]. rewrite class_ranges_two.
    split; [repeat constructor; apply range_wf_refl|done].
  - rewrite class_ranges_three. case_bool_decide.
    + destruct (native_order b <? native_order a)%Z eqn:Hlt; [done|]. apply Z.ltb_ge in Hlt.
      specialize (IH (length items) ltac:(simpl; lia) items eq_refl).
      destruct (class_ranges items); simpl; [|done|done]. destruct IH as [IH _].
      split; [by constructor|done].
    + specialize (IH (length (dash :: (b, eb) :: items)) ltac:(simpl; lia) _ eq_refl).
      destruct (class_ranges (dash :: (b, eb) :: items)); simpl; [|done|done].
      destruct IH as [IH _]. split; [|done]. constructor; [apply range_wf_refl|done].
Qed.

Lemma CharacterClass_parse_total pattern index :
  index ≤ length pattern →
  match CharacterClass_parse pattern index with
  | Ok (class, next) => index < next ≤ length pattern ∧ atom_wf (Class class)
  | Err _ => True
  | Panic => False
  end.
Proof.
  intros Hi. unfold CharacterClass_parse. set (neg := bool_decide _).
  set (start := if neg then S index else index).
  assert (index ≤ start ≤ length pattern) as Hs.
  { unfold start, neg. case_bool_decide as Hn; [|lia].
    destruct (pattern !! index) eqn:Hc; [|naive_solver]. apply lookup_lt_Some in Hc. lia. }
  pose proof (class_items_total (S (length pattern)) pattern start [] ltac:(lia) ltac:(lia)) as Ht.
  destruct (class_items _ _ _ _) as [[items next]| |]; simpl; [|done|done].
  destruct (length items =? 0) eqn:Hz; [done|]. apply Nat.eqb_neq in Hz.
  pose proof (class_ranges_wf items) as Hr.
  destruct (class_ranges items); simpl; [|done|done].
  destruct Hr as [Hr Hne]. split; [lia|]. split; [|done]. apply Hne. by intros ->.
Qed.

Lemma parse_atoms_total fuel cs index acc :
  length cs - index < fuel → index ≤ length cs → atoms_wf acc →
  match parse_atoms fuel cs index acc with
  | Ok ps => atoms_wf ps
  | Err _ => True
  | Panic => False
  end.
Proof.
  revert index acc. induction fuel as [|fuel IH]; intros index acc Hf Hi Hacc; [lia|].
  assert (∀ a, atom_wf a → a ≠ AnyMany → atoms_wf (acc ++ [a])) as Hpush.
  { intros a Ha Hm. destruct Hacc as [H1 H2]. split; [by apply Forall_app; split; [|constructor]|].
    apply no_double_snoc. split; [done|]. by intros ->. }
  cbn [parse_atoms]. destruct (cs !! index) as [c|] eqn:Hc; [|done].
  apply lookup_lt_Some in Hc as Hlt. case_bool_decide.
  { destruct (cs !! S index) as [c'|] eqn:Hc'; [|done]. apply lookup_lt_Some in Hc'.
    apply IH; [lia|lia|by apply Hpush]. }
  case_bool_decide.
  { apply IH; [lia|lia|]. destruct (last acc) as [b|] eqn:Hl.
    - destruct (decide (b = AnyMany)) as [->|Hb]; [done|].
      assert (atoms_wf (acc ++ [AnyMany])) as Hok; [|by destruct b].
      destruct Hacc as [H1 H2]. split; [by apply Forall_app; split; [|constructor]|].
      apply no_double_snoc. split; [done|]. rewrite Hl. intros _ [= ?]. done.
    - apply last_None in Hl as ->. split; [by repeat constructor|done]. }
  case_bool_decide; [apply IH; [lia|lia|by apply Hpush]|].
  case_bool_decide; [|apply IH; [lia|lia|by apply Hpush]].
  pose proof (CharacterClass_parse_total cs (S index) ltac:(lia)) as Hp.
  destruct (CharacterClass_parse cs (S index)) as [[class next]| |]; simpl; [|done|done].
  destruct Hp as [Hn Hw]. apply IH; [lia|lia|by apply Hpush].
Qed.

(** *** Printing *)

Definition escape (c : NativeChar) : list NativeChar := [uni "\"; c].

Definition print_range (r : NativeChar * NativeChar) : list NativeChar :=
  if bool_decide (r.1 = r.2) then escape r.1 else escape r.1 ++ [uni "-"] ++ escape r.2.

Definition print_atom (a : PatternAtom) : list NativeChar :=
  match a with
  | Literal c => escape c
  | AnyOne => [uni "?"]
  | AnyMany => [uni "*"]
  | Class class =>
      [uni "["] ++ (if negated class then [uni "!"] else []) ++
      mjoin (print_range <$> ranges class) ++ [uni "]"]
  end.

Definition print_atoms (ps : list PatternAtom) : list NativeChar := mjoin (print_atom <$> ps).

(** The items a printed range is read as. *)
Definition range_items (r : NativeChar * NativeChar) : list (NativeChar * bool) :=
  if bool_decide (r.1 = r.2) then [(r.1, true)] else [(r.1, true); (uni "-", false); (r.2, true)].

Lemma lookup_middle {A} (pre : list A) x post i :
  i = length pre → (pre ++ x :: post) !! i = Some x.
Proof. intros ->. by rewrite lookup_app_r, Nat.sub_diag by lia. Qed.

(** Reading one escaped item, one plain item. *)
Lemma class_items_escape fuel pre c post items :
  class_items (S fuel) (pre ++ escape c ++ post) (length pre) items =
  class_items fuel (pre ++ escape c ++ post) (length pre + 2) (items ++ [(c, true)]).
Proof.
  cbn [class_items]. simpl (escape c ++ post). rewrite lookup_middle by done.
  rewrite bool_decide_false by done. rewrite bool_decide_true by done.
  change (pre ++ uni "\" :: c :: post) with (pre ++ [uni "\"] ++ c :: post).
  rewrite app_assoc, lookup_middle by (rewrite length_app; simpl; lia).
  rewrite <- app_assoc. simpl. by rewrite (Nat.add_comm _ 2).
Qed.

Lemma class_items_dash fuel pre post items :
  class_items (S fuel) (pre ++ uni "-" :: post) (length pre) items =
  class_items fuel (pre ++ uni "-" :: post) (length pre + 1) (items ++ [(uni "-", false)]).
Proof.
  cbn [class_items]. rewrite lookup_middle by done.
  rewrite !bool_decide_false by done. by rewrite (Nat.add_comm _ 1).
Qed.

Lemma class_items_range fuel pre r post items :
  length (print_range r) ≤ fuel →
  ∃ fuel', fuel - length (print_range r) ≤ fuel' ∧
  class_items fuel (pre ++ print_range r ++ post) (length pre) items =
  class_items fuel' (pre ++ print_range r ++ post) (length pre + length (print_range r))
    (items ++ range_items r).
Proof.
  intros Hf. destruct r as [a b]. unfold range_items. simpl fst. simpl snd.
  revert Hf. unfold print_range. simpl fst. simpl snd. case_bool_decide as Hab; intros Hf.
  - exists (fuel - 1). simpl in Hf |- *. split; [lia|]. replace fuel with (S (fuel - 1)) at 1 by lia.
    apply class_items_escape.
  - exists (fuel - 3). rewrite !length_app in Hf |- *. simpl in Hf. split; [simpl; lia|]. replace fuel with (S (S (S (fuel - 3)))) at 1 by lia.
    rewrite <- !app_assoc, class_items_escape.
    set (text := pre ++ escape a ++ [uni "-"] ++ escape b ++ post).
    assert (text = (pre ++ escape a) ++ uni "-" :: (escape b ++ post)) as E1
      by (unfold text; by rewrite <- app_assoc).
    assert (text = (pre ++ escape a ++ [uni "-"]) ++ escape b ++ post) as E2
      by (unfold text; by rewrite <- !app_assoc).
    replace (length pre + 2) with (length (pre ++ escape a)) by (rewrite length_app; done).
    rewrite E1, class_items_dash, <- E1.
    replace (length (pre ++ escape a) + 1) with (length (pre ++ escape a ++ [uni "-"]))
      by (rewrite !length_app; simpl; lia).
    rewrite E2, class_items_escape, <- E2. rewrite <- !app_assoc. f_equal.
    rewrite !length_app. simpl. lia.
Qed.

Lemma length_print_range r : 2 ≤ length (print_range r).
Proof. unfold print_range. case_bool_decide; simpl; lia. Qed.

Lemma class_items_ranges rs fuel pre post items :
  length (mjoin (print_range <$> rs)) < fuel →
  class_items fuel (pre ++ mjoin (print_range <$> rs) ++ uni "]" :: post) (length pre) items =
  Ok (items ++ mjoin (range_items <$> rs), length pre + length (mjoin (print_range <$> rs)) + 1).
Proof.
  revert fuel pre items. induction rs as [|r rs IH]; intros fuel pre items Hf.
  - destruct fuel as [|fuel]; [lia|]. cbn [class_items]. simpl.
    rewrite lookup_middle, bool_decide_true by done. rewrite app_nil_r. do 2 f_equal. lia.
  - rewrite fmap_cons, mjoin_cons in Hf |- *. rewrite length_app in Hf.
    rewrite <- app_assoc.
    destruct (class_items_range fuel pre r (mjoin (print_range <$> rs) ++ uni "]" :: post) items)
      as (fuel' & Hf' & ->); [lia|].
    rewrite app_assoc, <- length_app, IH by lia.
    rewrite fmap_cons, mjoin_cons. rewrite <- app_assoc, !length_app.
    do 2 f_equal. lia.
Qed.

Lemma class_ranges_items rs :
  Forall range_wf rs → class_ranges (mjoin (range_items <$> rs)) = Ok rs.
Proof.
  induction 1 as [|[a b] rs Hr Hrs IH]; [done|]. rewrite fmap_cons, mjoin_cons.
  unfold range_wf in Hr. unfold range_items at 1. simpl in Hr. simpl fst. simpl snd.
  case_bool_decide as Hab.
  - subst b. destruct (mjoin (range_items <$> rs)) as [|[c ec] [|[d ed] items]] eqn:Hi.
    + simpl in IH |- *. by injection IH as <-.
    + simpl. rewrite class_ranges_one in IH. by injection IH as <-.
    + simpl app. rewrite class_ranges_three, bool_decide_false.
      * by rewrite IH.
      * destruct rs as [|[e f] rs]; [done|]. rewrite fmap_cons, mjoin_cons in Hi.
        unfold range_items at 1 in Hi. case_bool_decide; naive_solver.
  - simpl app. rewrite class_ranges_three, bool_decide_true by done.
    rewrite (proj2 (Z.ltb_ge _ _)) by done. by rewrite IH.
Qed.

Lemma CharacterClass_parse_print pre class post :
  atom_wf (Class class) →
  CharacterClass_parse (pre ++ print_atom (Class class) ++ post) (S (length pre)) =
  Ok (class, length pre + length (print_atom (Class class))).
Proof.
  destruct class as [neg rs]. intros [Hne Hrs]. simpl in Hne, Hrs. cbn [print_atom negated ranges].
  set (mark := if neg then [uni "!"] else []). set (body := mjoin (print_range <$> rs)).
  assert (pre ++ ([uni "["] ++ mark ++ body ++ [uni "]"]) ++ post =
          (pre ++ uni "[" :: mark) ++ body ++ uni "]" :: post) as ->.
  { simpl. by rewrite <- !app_assoc. }
  unfold CharacterClass_parse.
  assert (∃ r body', body = uni "\" :: r :: body') as (r & body' & Hbody).
  { unfold body. destruct rs as [|r rs]; [done|]. rewrite fmap_cons, mjoin_cons.
    unfold print_range. case_bool_decide; simpl; eauto. }
  set (text := (pre ++ uni "[" :: mark) ++ body ++ uni "]" :: post).
  assert (bool_decide (text !! S (length pre) = Some (uni "!") ∨
                       text !! S (length pre) = Some (uni "^")) = neg) as ->.
  { assert (text = (pre ++ [uni "["]) ++ mark ++ body ++ uni "]" :: post) as ->
      by (unfold text; rewrite <- !app_assoc; simpl; by rewrite <- ?app_assoc).
    unfold mark. destruct neg; simpl.
    - rewrite lookup_middle by (rewrite length_app; simpl; lia). by apply bool_decide_true; left.
    - rewrite Hbody. simpl. rewrite lookup_middle by (rewrite length_app; simpl; lia).
      apply bool_decide_false. by intros [[=]|[=]]. }
  replace (if neg then S (S (length pre)) else S (length pre)) with (length (pre ++ uni "[" :: mark))
    by (rewrite length_app; unfold mark; destruct neg; simpl; lia).
  unfold text. unfold body at 2. rewrite class_items_ranges.
  2: { unfold text. fold body. rewrite !length_app. lia. }
  simpl. fold body.
  assert (mjoin (range_items <$> rs) ≠ []) as Hitems.
  { destruct rs as [|r' rs]; [done|]. rewrite fmap_cons, mjoin_cons. unfold range_items.
    by case_bool_decide. }
  destruct (length (mjoin (range_items <$> rs)) =? 0) eqn:Hz.
  { apply Nat.eqb_eq in Hz. by apply length_zero_iff_nil in Hz. }
  rewrite class_ranges_items by done. simpl. do 2 f_equal.
  repeat (rewrite length_app || simpl). lia.
Qed.

Lemma print_atoms_snoc ps a : print_atoms (ps ++ [a]) = print_atoms ps ++ print_atom a.
Proof. unfold print_atoms. rewrite fmap_app, join_app. simpl. by rewrite app_nil_r. Qed.

Lemma length_print_atom a : 0 < length (print_atom a).
Proof. destruct a; simpl; lia. Qed.

(** Reading the atoms [qs] after [ps] were read. *)
Lemma parse_atoms_print qs ps fuel :
  length (print_atoms qs) < fuel → Forall atom_wf qs → no_double (last ps) qs →
  parse_atoms fuel (print_atoms (ps ++ qs)) (length (print_atoms ps)) ps = Ok (ps ++ qs).
Proof.
  revert ps fuel. induction qs as [|a qs IH]; intros ps fuel Hf Hwf Hnd.
  { destruct fuel as [|fuel]; [simpl in Hf; lia|]. cbn [parse_atoms]. rewrite app_nil_r.
    by rewrite lookup_ge_None_2 by lia. }
  destruct fuel as [|fuel]; [lia|]. apply Forall_cons_1 in Hwf as [Ha Hqs].
  destruct Hnd as [Hna Hnd].
  assert (length (print_atoms qs) < fuel) as Hf'.
  { unfold print_atoms in *. rewrite fmap_cons, mjoin_cons, length_app in Hf.
    pose proof (length_print_atom a). lia. }
  specialize (IH (ps ++ [a]) fuel Hf' Hqs). rewrite last_snoc in IH. specialize (IH Hnd).
  rewrite <- app_assoc, print_atoms_snoc, length_app in IH. simpl in IH.
  set (text := print_atoms (ps ++ a :: qs)) in *.
  assert (text = print_atoms ps ++ print_atom a ++ print_atoms qs) as Htext.
  { unfold text, print_atoms. by rewrite fmap_app, fmap_cons, join_app, mjoin_cons. }
  cbn [parse_atoms].
  assert (∀ c rest, print_atom a = c :: rest → text !! length (print_atoms ps) = Some c) as Hhead.
  { intros c rest Hc. rewrite Htext, Hc. simpl. by apply lookup_middle. }
  destruct a as [c| | |class]; cbn [print_atom] in *.
  - rewrite (Hhead _ _ eq_refl), bool_decide_true by done.
    assert (text !! S (length (print_atoms ps)) = Some c) as ->.
    { rewrite Htext. simpl.
      change (print_atoms ps ++ uni "\" :: c :: print_atoms qs)
        with (print_atoms ps ++ [uni "\"] ++ c :: print_atoms qs).
      rewrite app_assoc. apply lookup_middle. rewrite length_app. simpl. lia. }
    simpl in IH. by rewrite (Nat.add_comm _ 2) in IH.
  - rewrite (Hhead _ _ eq_refl), !bool_decide_false, bool_decide_true by done.
    simpl in IH. by rewrite (Nat.add_comm _ 1) in IH.
  - rewrite (Hhead _ _ eq_refl), bool_decide_false, bool_decide_true by done.
    simpl in IH. rewrite (Nat.add_comm _ 1) in IH.
    destruct (last ps) as [[]|]; try done. by destruct Hna.
  - rewrite (Hhead _ _ eq_refl), !bool_decide_false, bool_decide_true by done.
    pose proof (CharacterClass_parse_print (print_atoms ps) class (print_atoms qs) Ha) as Hc.
    cbn [print_atom] in Hc. rewrite <- Htext in Hc. rewrite Hc. cbn [res_bind]. done.
Qed.

(** ** Matching of paths *)

Inductive segs_match : list PatternSegment → list str → Prop :=
| segs_nil : segs_match [] []
| segs_parent ps ns : segs_match ps ns → segs_match (Parent :: ps) (dotdot :: ns)
| segs_rec_stop ps ns : segs_match ps ns → segs_match (Recursive_ :: ps) ns
| segs_rec_more ps n ns :
    starts_with_dot n = false → segs_match (Recursive_ :: ps) ns →
    segs_match (Recursive_ :: ps) (n :: ns)
| segs_comp p ps n ns :
    ComponentPattern_matches p n = true → segs_match ps ns → segs_match (Comp p :: ps) (n :: ns).

Lemma match_segments_spec ps ns : match_segments ps ns = true ↔ segs_match ps ns.
Proof.
  revert ns. induction ps as [|[| |p] ps IH]; intros ns.
  - simpl. rewrite bool_decide_eq_true. split; [intros ->; constructor|by inversion 1].
  - destruct ns as [|n ns]; simpl; [by split; [|inversion 1]|].
    rewrite andb_true_iff, bool_decide_eq_true, IH. split.
    + intros [-> ?]. by constructor.
    + by inversion 1.
  - induction ns as [|n ns IHn].
    + simpl. rewrite orb_false_r, IH. split; [by constructor|]. by inversion 1.
    + change (match_segments (Recursive_ :: ps) (n :: ns))
        with (match_segments ps (n :: ns) ||
              (negb (starts_with_dot n) && match_segments (Recursive_ :: ps) ns)).
      rewrite orb_true_iff, andb_true_iff, negb_true_iff, IH, IHn. split.
      * intros [?|[? ?]]; [by apply segs_rec_stop|by apply segs_rec_more].
      * inversion 1; subst; auto.
  - destruct ns as [|n ns]; simpl; [by split; [|inversion 1]|].
    rewrite andb_true_iff, IH. split; [intros [? ?]; by constructor|by inversion 1].
Qed.

Lemma segs_match_app ps qs ns ms :
  segs_match ps ns → segs_match qs ms → segs_match (ps ++ qs) (ns ++ ms).
Proof. induction 1; simpl; auto using segs_match. Qed.

Lemma segs_match_rec ns :
  Forall (λ n, starts_with_dot n = false) ns → segs_match [Recursive_] ns.
Proof. induction 1; auto using segs_match. Qed.

(** ** The walk *)

(** Where a pattern starts: nowhere, at the root or at [.]. *)
Definition initial_path (init : str) : Prop := init = [] ∨ init = [SLASH] ∨ init = dot.

Definition name_component (n : str) : Component :=
  if bool_decide (n = dotdot) then ParentDir else Normal n.

(** [path] is [init] followed by the names [ns]. *)
Definition path_names (init path : str) (ns : list str) : Prop :=
  components path = components init ++ (name_component <$> ns) ∧
  is_absolute path = is_absolute init.

Lemma is_absolute_components p : is_absolute p = bool_decide (head (components p) = Some RootDir).
Proof.
  unfold components. destruct (is_absolute p) eqn:Ha; [done|].
  destruct (bool_decide (head (split_slash p) = Some dot)); [done|].
  assert (∀ l, head (omap component_of l) ≠ Some RootDir) as Ho.
  { induction l as [|x l IH]; [done|]. simpl.
    destruct (component_of x) as [c|] eqn:Hc; [|done]. simpl. intros [= ->].
    unfold component_of in Hc. by repeat case_bool_decide. }
  by rewrite bool_decide_false.
Qed.

Lemma path_names_push init path ns name c :
  path_names init path ns → one_component name c → name_component name = c →
  initial_path init → path_names init (push path name) (ns ++ [name]).
Proof.
  intros [Hc Ha] Hn Hname Hi. split.
  - rewrite (components_push _ _ _ Hn), Hc, fmap_app, <- app_assoc. simpl. by rewrite Hname.
  - rewrite !is_absolute_components, (components_push _ _ _ Hn), Hc.
    assert (∀ n, name_component n ≠ RootDir) as Hroot
      by (intros n; unfold name_component; by case_bool_decide).
    assert (head ((name_component <$> ns) ++ [c]) ≠ Some RootDir) as Hhead.
    { destruct ns as [|n ns]; simpl; intros [= Hr]; [|by eapply Hroot].
      subst c. by eapply Hroot. }
    destruct Hi as [->|[->| ->]]; try done. simpl. by rewrite bool_decide_false.
Qed.

Lemma path_names_candidate init path ns :
  initial_path init → path_names init path ns →
  candidate_segments path = ns ∧ is_absolute init = is_absolute path.
Proof.
  intros Hi [Hc Ha]. split; [|done]. unfold candidate_segments. rewrite Hc, omap_app.
  assert (omap segment_name (components init) = []) as -> by by destruct Hi as [->|[->| ->]].
  clear. induction ns as [|n ns IH]; [done|]. rewrite fmap_cons. cbn [app] in *.
  rewrite omap_step. unfold name_component at 1.
  case_bool_decide; cbn [segment_name]; by rewrite IH; subst.
Qed.

Section Walk.
Context {E : Type} (read_directory : str → res E (list DirectoryEntry)).

(** A directory lists bare names. *)
Definition bare_names : Prop :=
  ∀ d es e, read_directory d = Ok es → e ∈ es → entry_name e ≠ [] ∧ SLASH ∉ entry_name e.

(** A path is read by what it names. *)
Definition reads_components : Prop :=
  ∀ p q, components p = components q → read_directory p = read_directory q.

Lemma read_sorted_elem d es e :
  read_sorted read_directory d = Ok es → e ∈ es →
  ∃ es', read_directory (if bool_decide (d = []) then dot else d) = Ok es' ∧ e ∈ es'.
Proof.
  unfold read_sorted. intros (es' & Hr & [= <-])%res_bind_ok He.
  exists es'. split; [done|]. by apply sort_by_elem in He.
Qed.

Lemma entry_component e d es :
  bare_names → read_sorted read_directory d = Ok es → e ∈ es →
  is_dot_entry (entry_name e) = false →
  proper_name (entry_name e) ∧ name_component (entry_name e) = Normal (entry_name e).
Proof.
  intros Hbare Hr He Hd. destruct (read_sorted_elem _ _ _ Hr He) as (es' & Hr' & He').
  destruct (Hbare _ _ _ Hr' He') as [Hne Hs]. unfold is_dot_entry in Hd.
  apply orb_false_iff in Hd as [H1%bool_decide_eq_false H2%bool_decide_eq_false].
  split; [done|]. unfold name_component. by rewrite bool_decide_false.
Qed.

(** [child] is a directory of [d] that the recursive walk enters. *)
Definition walk_child (d child : str) : Prop :=
  ∃ es, read_sorted read_directory d = Ok es ∧ child ∈ child_directories d es.

Inductive below (root : str) : str → Prop :=
| below_root : below root root
| below_child d child : below root d → walk_child d child → below root child.

Lemma child_directories_elem d es child :
  child ∈ child_directories d es ↔
  ∃ e, child = push d (entry_name e) ∧ e ∈ es ∧ is_directory e = true ∧
    is_dot_entry (entry_name e) = false ∧ starts_with_dot (entry_name e) = false.
Proof.
  unfold child_directories. rewrite list_elem_of_fmap. split.
  - intros (e & -> & [Hf He]%list_elem_of_filter). exists e. bool_to_prop. done.
  - intros (e & -> & He & H1 & H2 & H3). exists e. split; [done|]. apply list_elem_of_filter.
    by rewrite H1, H2, H3.
Qed.

(** Every directory the walk adds lies below a pending one. *)
Lemma collect_loop_sound fuel pending dirs out :
  path_sorted dirs → collect_loop read_directory fuel pending dirs = Ok out →
  path_sorted out ∧
  ∀ q, q ∈ out → q ∈ dirs ∨ ∃ root, root ∈ pending ∧ below root q.
Proof.
  revert pending dirs. induction fuel as [|fuel IH]; intros pending dirs Hs Hc; [done|].
  cbn [collect_loop] in Hc. destruct pending as [|d pending].
  { injection Hc as <-. auto. }
  destruct (set_insert_spec d dirs Hs) as (Hs' & Hfrom & _).
  destruct (set_insert d dirs) as [new dirs'] eqn:Hi. simpl in *. destruct new; simpl in Hc.
  - apply res_bind_ok in Hc as (es & Hr & Hc). destruct (IH _ _ Hs' Hc) as [H1 H2].
    split; [done|]. intros q [Hq|(root & Hroot & Hb)]%H2.
    + apply Hfrom in Hq as [->|Hq]; [|by left]. right. exists d. split; [left|constructor].
    + right. apply elem_of_app in Hroot as [Hroot|Hroot].
      * exists d. split; [left|]. clear -Hb Hroot Hr.
        induction Hb as [|q child Hb IH Hw]; [|by eapply below_child].
        eapply below_child; [constructor|]. by exists es.
      * exists root. split; [by right|done].
  - destruct (IH _ _ Hs' Hc) as [H1 H2]. split; [done|].
    intros q [Hq|(root & Hroot & Hb)]%H2.
    + apply Hfrom in Hq as [->|Hq]; [|by left]. right. exists d. split; [left|constructor].
    + right. exists root. split; [by right|done].
Qed.

(** *** The walk of a finite tree *)

Lemma components_nil p : components p = [] → p = [].
Proof.
  destruct p as [|b p]; [done|]. unfold components. simpl.
  destruct (b =? SLASH)%Z eqn:Hb; [done|].
  destruct (split_slash p) as [|piece pieces] eqn:Hp; [by destruct (split_slash_ne p)|].
  simpl head. case_bool_decide as Hd; [done|]. rewrite omap_step. unfold component_of at 1.
  rewrite bool_decide_false by done. rewrite bool_decide_false by (intros He; by rewrite He in Hd).
  by case_bool_decide.
Qed.

Lemma read_sorted_components p q :
  reads_components → components p = components q →
  read_sorted read_directory p = read_sorted read_directory q.
Proof.
  intros Hr Hc. unfold read_sorted. destruct (decide (p = [])) as [->|Hp].
  { by rewrite (components_nil q) by done. }
  rewrite bool_decide_false by done.
  assert (q ≠ []) as Hq by (intros ->; by apply Hp, components_nil).
  rewrite bool_decide_false by done. by rewrite (Hr p q).
Qed.

Lemma walk_child_components d d' child :
  bare_names → reads_components → components d = components d' → walk_child d child →
  ∃ child', walk_child d' child' ∧ components child' = components child.
Proof.
  intros Hbare Hreads Hc (es & Hr & Hin). apply child_directories_elem in Hin
    as (e & -> & He & Hdir & Hdot & Hhid).
  destruct (entry_component e d es Hbare Hr He Hdot) as [Hp _].
  exists (push d' (entry_name e)). split.
  - exists es. split; [by rewrite <- (read_sorted_components d d')|].
    apply child_directories_elem. by exists e.
  - by rewrite !(components_push _ _ _ (proper_component _ Hp)), Hc.
Qed.

(** Every child of a visited directory is visited or pending. *)
Definition walk_closed (pending dirs : list str) : Prop :=
  ∀ q child, q ∈ dirs → walk_child q child → path_in child (dirs ++ pending).

Lemma path_in_mono p s t :
  (∀ q, q ∈ s → path_in q t) → path_in p s → path_in p t.
Proof.
  intros Hsub (q & Hq & Hc). destruct (Hsub q Hq) as (r & Hr & Hrc).
  exists r. split; [done|congruence].
Qed.

Lemma path_in_elem p s : p ∈ s → path_in p s.
Proof. intros Hp. by exists p. Qed.

Lemma below_step d root c :
  walk_child d root → below root c → below d c.
Proof.
  intros Hw. induction 1 as [|q child Hb IH Hq]; [|by eapply below_child].
  eapply below_child; [constructor|done].
Qed.

Lemma collect_loop_complete (L pending dirs : list str) :
  (∀ d, read_directory d ≠ Panic) → path_sorted dirs → walk_closed pending dirs →
  (∀ q, q ∈ dirs → q ∈ L) →
  (∀ root d, root ∈ pending → below root d → d ∈ L) →
  ∃ fuel0 r, (∀ fuel, fuel0 ≤ fuel → collect_loop read_directory fuel pending dirs = r) ∧
    match r with
    | Ok out => walk_closed [] out ∧ (∀ q, q ∈ pending ++ dirs → path_in q out)
    | Err e => ∃ root d, root ∈ pending ∧ below root d ∧ read_sorted read_directory d = Err e
    | Panic => False
    end.
Proof.
  intros Hnp. remember (length L - length dirs) as n eqn:Hn. revert pending dirs Hn.
  induction n as [n IHn] using lt_wf_ind. intros pending.
  induction pending as [|d pending IHp]; intros dirs Hn Hs Hclosed HL Hpend.
  { exists 1, (Ok dirs). split; [|split; [done|intros q Hq; by apply path_in_elem]].
    intros [|fuel] Hf; [lia|]. done. }
  destruct (set_insert_spec d dirs Hs) as (Hs' & Hfrom & Hkeep & Hnew & Hin & Hsame & Hadd).
  pose proof (set_insert_length d dirs) as Hlen.
  destruct (set_insert d dirs) as [new dirs'] eqn:Hi. simpl in *.
  pose proof (Hpend d d (list_elem_of_here _ _) (below_root d)) as HdL.
  destruct new.
  - destruct (read_sorted read_directory d) as [es|e|] eqn:Hr.
    2: { exists 1, (Err e). split.
      - intros [|fuel] Hf; [lia|]. cbn [collect_loop]. rewrite Hi. cbn [negb]. by rewrite Hr.
      - exists d, d. split_and!; [left|constructor|done]. }
    2: { unfold read_sorted in Hr.
      match type of Hr with res_bind ?m _ = _ => destruct m eqn:Hm; try done end.
      by destruct (Hnp _ Hm). }
    specialize (Hadd eq_refl).
    assert (∀ q, q ∈ dirs' → q ∈ L) as HL' by (intros q [->|Hq]%Hfrom; auto).
    assert (length dirs' ≤ length L) as Hle.
    { apply NoDup_incl_length; [by apply path_sorted_NoDup|].
      intros q Hq%list_elem_of_In. by apply list_elem_of_In, HL'. }
    destruct (IHn (length L - length dirs') ltac:(lia)
      (child_directories d es ++ pending) dirs' eq_refl) as (f0 & r & Hf & Hres).
    + done.
    + intros q child [->|Hq]%Hfrom Hw.
      * destruct Hw as (es' & Hr' & Hch). rewrite Hr in Hr'. injection Hr' as <-.
        apply path_in_elem. rewrite !elem_of_app. auto.
      * eapply path_in_mono; [|exact (Hclosed q child Hq Hw)].
        intros r [Hr'|[->|Hr']%elem_of_cons]%elem_of_app; apply path_in_elem;
          rewrite !elem_of_app; auto.
    + done.
    + intros root c [Hroot|Hroot]%elem_of_app Hb; [|apply (Hpend root); [by right|done]].
      apply (Hpend d); [left|]. by eapply below_step; [exists es|].
    + exists (S f0), r. split.
      * intros [|fuel] Hfuel; [lia|]. cbn [collect_loop]. rewrite Hi. cbn [negb]. rewrite Hr.
        cbn [res_bind]. apply Hf. lia.
      * destruct r as [out|e|]; [|destruct Hres as (root & c & [Hroot|Hroot]%elem_of_app & Hb & He)|done].
        2: { exists d, c. split_and!; [left|by eapply below_step; [exists es|]|done]. }
        2: { exists root, c. split_and!; [by right|done|done]. }
        destruct Hres as [Hc Ho]. split; [done|].
        intros q [->|Hq]%elem_of_cons; [apply Ho, elem_of_app; auto|].
        apply Ho. rewrite !elem_of_app. apply elem_of_app in Hq as [Hq|Hq]; auto.
  - specialize (Hsame eq_refl). subst dirs'.
    destruct (IHp dirs Hn Hs) as (f0 & r & Hf & Hres).
    + intros q child Hq Hw. eapply path_in_mono; [|exact (Hclosed q child Hq Hw)].
      intros r [Hr'|[->|Hr']%elem_of_cons]%elem_of_app.
      * apply path_in_elem, elem_of_app. auto.
      * eapply path_in_mono; [|exact Hin]. intros q' Hq'. apply path_in_elem, elem_of_app. auto.
      * apply path_in_elem, elem_of_app. auto.
    + done.
    + intros root c Hroot. apply Hpend. by right.
    + exists (S f0), r. split.
      * intros [|fuel] Hfuel; [lia|]. cbn [collect_loop]. rewrite Hi. cbn [negb]. apply Hf. lia.
      * destruct r as [out|e|]; [|destruct Hres as (root & c & Hroot & ?)|done].
        2: { exists root, c. split; [by right|done]. }
        destruct Hres as [Hc Ho]. split; [done|]. intros q [->|Hq]%elem_of_cons; [|by apply Ho].
        eapply path_in_mono; [|exact Hin]. intros q' Hq'. apply Ho, elem_of_app. auto.
Qed.

End Walk.

(** ** Expansion *)

Section Expansion.
Context {E : Type} (read_directory : str → res E (list DirectoryEntry)).
Hypothesis Hbare : bare_names read_directory.
Context (init : str) (Hinit : initial_path init).

(** [path] continues [init] by names the segments [done] match. *)
Definition reached (done : list PatternSegment) (path : str) : Prop :=
  ∃ ns, path_names init path ns ∧ segs_match done ns.

Lemma reached_init : reached [] init.
Proof. exists []. split; [|constructor]. split; [by rewrite app_nil_r|done]. Qed.

Lemma reached_push dn path name c segs :
  reached dn path → one_component name c → name_component name = c →
  segs_match segs [name] → reached (dn ++ segs) (push path name).
Proof.
  intros (ns & Hp & Hm) Hn Hname Hs. exists (ns ++ [name]).
  split; [by eapply path_names_push|]. by apply segs_match_app.
Qed.

Lemma reached_below dn root path :
  reached dn root → below read_directory root path → reached (dn ++ [Recursive_]) path.
Proof.
  intros (ns & Hp & Hm) Hb.
  assert (∃ ms, path_names init path (ns ++ ms) ∧ Forall (λ n, starts_with_dot n = false) ms)
    as (ms & Hpath & Hms).
  { induction Hb as [|d child Hb (ms & IH & Hms) (es & Hr & Hch)].
    - exists []. by rewrite app_nil_r.
    - apply child_directories_elem in Hch as (e & -> & He & _ & Hdot & Hhid).
      destruct (entry_component read_directory e d es Hbare Hr He Hdot) as [Hpn Hnc].
      exists (ms ++ [entry_name e]). rewrite app_assoc. split.
      + eapply path_names_push; [done|by apply proper_component|done|done].
      + apply Forall_app. split; [done|]. by constructor. }
  exists (ns ++ ms). split; [done|]. apply segs_match_app; [done|]. by apply segs_match_rec.
Qed.

Lemma try_fold_ind {A B} (f : B → A → res E B) (I : B → Prop) l acc out :
  (∀ b x b', x ∈ l → I b → f b x = Ok b' → I b') → I acc → try_fold f acc l = Ok out → I out.
Proof.
  revert acc. induction l as [|x l IH]; intros acc Hf Ha; simpl; [by intros [= <-]|].
  intros (b & Hb & Hr)%res_bind_ok. eapply IH; [|eapply Hf; [left|exact Ha|exact Hb]|exact Hr].
  intros b0 y b' Hy. apply Hf. by right.
Qed.

Lemma expand_segment_reached fuel seg final paths out dn :
  Forall (reached dn) paths → expand_segment read_directory fuel seg final paths = Ok out →
  Forall (reached (dn ++ [seg])) out.
Proof.
  rewrite !list.Forall_forall. intros Hp. destruct seg as [| |p]; cbn [expand_segment].
  - intros [= <-] q (r & -> & Hr)%list_elem_of_fmap.
    eapply reached_push; [by apply Hp|apply dotdot_component|done|repeat constructor].
  - intros H q Hq.
    assert (path_sorted out ∧ ∀ q, q ∈ out → reached (dn ++ [Recursive_]) q) as [_ Hout];
      [|by apply Hout].
    revert H. apply (try_fold_ind _ (λ b, path_sorted b ∧ ∀ q, q ∈ b → reached (dn ++ [Recursive_]) q)).
    + intros b x b' Hx [Hs Hb] Hc. destruct (collect_loop_sound _ _ _ _ _ Hs Hc) as [Hs' Hfrom].
      split; [done|]. intros r [Hr|(root & Hroot & Hbelow)]%Hfrom; [by apply Hb|].
      apply elem_of_cons in Hroot as [->|[]%not_elem_of_nil].
      eapply reached_below; [by apply Hp|done].
    + split; [constructor|]. by intros r []%not_elem_of_nil.
  - apply (try_fold_ind _ (λ b, ∀ q, q ∈ b → reached (dn ++ [Comp p]) q)).
    + intros b d b' Hd Hb (children & Hc & [= <-])%res_bind_ok q [Hq|Hq]%elem_of_app; [by apply Hb|].
      apply res_bind_ok in Hc as (es & Hr & [= <-]). apply list_elem_of_fmap in Hq as (e & -> & He).
      apply list_elem_of_filter in He as [Hf He].
      apply andb_true_iff in Hf as [[Hdot Hmatch]%andb_true_iff _]. apply negb_true_iff in Hdot.
      destruct (entry_component read_directory e d es Hbare Hr He Hdot) as [Hpn Hnc].
      eapply reached_push; [by apply Hp|by apply proper_component|done|].
      by repeat constructor.
    + by intros q []%not_elem_of_nil.
Qed.

Lemma expand_segments_reached fuel segs paths out dn :
  Forall (reached dn) paths → expand_segments read_directory fuel segs paths = Ok out →
  Forall (reached (dn ++ segs)) out.
Proof.
  revert paths dn. induction segs as [|seg segs IH]; intros paths dn Hp; simpl.
  { intros [= <-]. by rewrite app_nil_r. }
  intros (ps & Hs & He)%res_bind_ok. replace (dn ++ seg :: segs) with ((dn ++ [seg]) ++ segs)
    by by rewrite <- app_assoc.
  eapply IH; [|exact He]. by eapply expand_segment_reached.
Qed.
End Expansion.

Lemma parse_components_init cs init segs saw out :
  (init = [] ∨ init = [SLASH]) → parse_components cs init segs saw = Ok out →
  out.1.1 = [] ∨ out.1.1 = [SLASH].
Proof.
  revert init segs saw. induction cs as [|c cs IH]; intros init segs saw Hi; simpl.
  { by intros [= <-]. }
  destruct c; try by apply IH.
  - apply IH. by right.
  - intros (s & _ & H)%res_bind_ok. by eapply IH.
Qed.

Lemma GlobPattern_parse_init pattern p :
  GlobPattern_parse pattern = Ok p → initial_path (initial p).
Proof.
  unfold GlobPattern_parse. case_bool_decide; [intros [= <-]; by left|]. case_bool_decide; [done|].
  intros ([[init segs] saw] & Hp & [= <-])%res_bind_ok.
  apply parse_components_init in Hp; [|by left]. simpl in *. unfold initial_path.
  destruct Hp as [->| ->].
  - destruct (saw && _ && _); simpl; [right; right; done|auto].
  - rewrite andb_false_r. simpl. auto.
Qed.

Lemma PatternSegment_parse_total component : PatternSegment_parse component ≠ Panic.
Proof.
  unfold PatternSegment_parse, ComponentPattern_parse. case_bool_decide; [done|].
  set (cs := native_chars component).
  assert (atoms_wf []) as Hnil by done.
  pose proof (parse_atoms_total (S (length cs)) cs 0 [] ltac:(lia) ltac:(lia) Hnil).
  by destruct (parse_atoms _ _ _ _).
Qed.

Lemma parse_components_total cs init segs saw : parse_components cs init segs saw ≠ Panic.
Proof.
  revert init segs saw. induction cs as [|[| | |name] cs IH]; intros init segs saw; simpl; try done.
  pose proof (PatternSegment_parse_total name).
  by destruct (PatternSegment_parse name); simpl.
Qed.

(** ** Theorems *)

(** The table of [ComponentPattern::matches] decides the declarative meaning
    of a component pattern on the native characters of the name, which lose
    none of its bytes, valid UTF-8 or not; a leading dot has to be written out. *)
Theorem component_matches_spec (p : ComponentPattern) (name : str) :
  to_bytes (native_chars name) = name ∧
  (ComponentPattern_matches p name = true ↔
    (head (native_chars name) = Some (uni ".") → explicit_hidden p = true) ∧
    atoms_match (atoms p) (native_chars name)).
Proof.
  split; [apply native_chars_bytes|]. unfold ComponentPattern_matches, starts_with_dot.
  case_bool_decide as Hd; simpl.
  - destruct (explicit_hidden p); simpl; [rewrite table_decides; tauto|naive_solver].
  - rewrite table_decides. tauto.
Qed.

(** Parsing a component pattern never panics or runs over the end of the
    pattern, what it accepts is well formed (ranges ascend, classes are not
    empty, no adjacent [*]), and printing with every literal escaped is a right
    inverse: every well-formed pattern is parsed back from its text. *)
Theorem component_pattern_roundtrip :
  (∀ cs, match ComponentPattern_parse cs with
         | Ok p => atoms_wf (atoms p) ∧ ComponentPattern_parse (print_atoms (atoms p)) = Ok p
         | Err _ => True
         | Panic => False
         end) ∧
  (∀ ps, atoms_wf ps → ∃ p, ComponentPattern_parse (print_atoms ps) = Ok p ∧ atoms p = ps).
Proof.
  assert (∀ ps, atoms_wf ps → ComponentPattern_parse (print_atoms ps) =
    Ok (mkPattern ps (hidden_atom (head ps)))) as Hback.
  { intros ps [Hwf Hnd]. unfold ComponentPattern_parse.
    pose proof (parse_atoms_print ps [] (S (length (print_atoms ps))) ltac:(lia) Hwf Hnd) as Hp.
    simpl app in Hp. change (length (print_atoms [])) with 0 in Hp. by rewrite Hp. }
  split; [|intros ps Hps; eexists; split; [by apply Hback|done]].
  intros cs. unfold ComponentPattern_parse at 1. assert (atoms_wf []) as Hnil by done.
  pose proof (parse_atoms_total (S (length cs)) cs 0 [] ltac:(lia) ltac:(lia) Hnil) as Ht.
  destruct (parse_atoms _ _ _ _) as [ps| |]; simpl; [|done|done].
  split; [done|]. by apply Hback.
Qed.

(** A tree in which every walk is finite, read without panics. *)
Definition finite_tree {E} (read_directory : str → res E (list DirectoryEntry)) : Prop :=
  (∀ d, read_directory d ≠ Panic) ∧
  ∀ root, ∃ L : list str, ∀ d, below read_directory root d → d ∈ L.

Lemma try_fold_terminates {A B E} (f : nat → B → A → res E B) (I : B → Prop) l acc :
  (∀ b x, I b → ∃ fuel0 r, (∀ fuel, fuel0 ≤ fuel → f fuel b x = r) ∧
     match r with Ok b' => I b' | Err _ => True | Panic => False end) →
  I acc →
  ∃ fuel0 r, (∀ fuel, fuel0 ≤ fuel → try_fold (f fuel) acc l = r) ∧
    match r with Ok b' => I b' | Err _ => True | Panic => False end.
Proof.
  intros Hf. revert acc. induction l as [|x l IH]; intros acc Ha.
  { exists 0, (Ok acc). split; [by intros|done]. }
  destruct (Hf acc x Ha) as (f1 & r1 & Hf1 & Hr1). destruct r1 as [b|e|]; [|exists f1, (Err e)|done].
  - destruct (IH b Hr1) as (f2 & r & Hf2 & Hr). exists (f1 `max` f2), r.
    split; [|done]. intros fuel Hfuel. simpl. rewrite Hf1 by lia. simpl. apply Hf2. lia.
  - split; [|done]. intros fuel Hfuel. simpl. by rewrite Hf1.
Qed.

(** A set of directories a finished walk can leave. *)
Definition walked {E} (read_directory : str → res E (list DirectoryEntry)) (dirs : list str) : Prop :=
  path_sorted dirs ∧ walk_closed read_directory [] dirs.

Lemma collect_total {E} (read_directory : str → res E (list DirectoryEntry)) root dirs :
  finite_tree read_directory → walked read_directory dirs →
  ∃ fuel0 r,
    (∀ fuel, fuel0 ≤ fuel → collect_recursive_directories read_directory fuel root dirs = r) ∧
    match r with
    | Ok out => walked read_directory out ∧ path_in root out
    | Err e => ∃ d, below read_directory root d ∧ read_sorted read_directory d = Err e
    | Panic => False
    end.
Proof.
  intros [Hnp Hfin] [Hs Hclosed]. destruct (Hfin root) as [L HL].
  destruct (collect_loop_complete read_directory (L ++ dirs) [root] dirs Hnp Hs)
    as (fuel0 & r & Hf & Hr).
  - intros q child Hq Hw. eapply path_in_mono; [|exact (Hclosed q child Hq Hw)].
    intros c Hc. rewrite app_nil_r in Hc. apply path_in_elem, elem_of_app. by left.
  - intros q Hq. apply elem_of_app. by right.
  - intros c d [->|[]%not_elem_of_nil]%elem_of_cons Hb. apply elem_of_app. left. auto.
  - exists fuel0, r. split; [done|]. destruct r as [out|e|]; [|destruct Hr as (c & d & Hc & ?)|done].
    + destruct Hr as [Hc Hin]. split; [split; [|done]|apply Hin; left].
      eapply collect_loop_sound; [exact Hs|]. by apply (Hf fuel0).
    + apply elem_of_cons in Hc as [->|[]%not_elem_of_nil]. by exists d.
Qed.

Lemma read_sorted_total {E} (read_directory : str → res E (list DirectoryEntry)) d :
  (∀ d, read_directory d ≠ Panic) → read_sorted read_directory d ≠ Panic.
Proof.
  intros Hnp. unfold read_sorted.
  match goal with |- res_bind ?m _ ≠ _ => destruct m eqn:Hm; try done end. by destruct (Hnp _ Hm).
Qed.

Lemma expand_segments_total {E} (read_directory : str → res E (list DirectoryEntry)) segs paths :
  finite_tree read_directory →
  ∃ fuel0 r, (∀ fuel, fuel0 ≤ fuel → expand_segments read_directory fuel segs paths = r) ∧ r ≠ Panic.
Proof.
  intros Hfin. revert paths. induction segs as [|seg segs IH]; intros paths.
  { exists 0, (Ok paths). split; [by intros|done]. }
  set (final := bool_decide (segs = [])).
  assert (∃ fuel0 r, (∀ fuel, fuel0 ≤ fuel → expand_segment read_directory fuel seg final paths = r) ∧
    r ≠ Panic) as (f1 & r1 & Hf1 & Hr1).
  { destruct seg as [| |p].
    - exists 0, (Ok ((λ path, push path dotdot) <$> paths)). by split.
    - destruct (try_fold_terminates
        (λ fuel directories path, collect_recursive_directories read_directory fuel path directories)
        (walked read_directory) paths []) as (f0 & r & Hf & Hr).
      + intros b x Hb. destruct (collect_total read_directory x b Hfin Hb) as (f0 & r & Hf & Hr).
        exists f0, r. split; [done|]. destruct r; [apply Hr|done|done].
      + split; [constructor|]. by intros q child []%not_elem_of_nil.
      + exists f0, r. split; [done|]. by destruct r.
    - destruct (try_fold_terminates
        (λ _ matched directory,
          let* children := component_children read_directory p final directory in
          Ok (matched ++ children))
        (λ _, True) paths []) as (f0 & r & Hf & Hr).
      + intros b x _. exists 0. eexists. split; [by intros|].
        unfold component_children. destruct Hfin as [Hnp _].
        pose proof (read_sorted_total read_directory x Hnp).
        by destruct (read_sorted read_directory x).
      + done.
      + exists f0, r. split; [done|]. by destruct r. }
  destruct r1 as [ps|e|]; [|exists f1, (Err e)|done].
  - destruct (IH ps) as (f2 & r & Hf2 & Hr). exists (f1 `max` f2), r. split; [|done].
    intros fuel Hfuel. cbn [expand_segments]. fold final. rewrite Hf1 by lia. apply Hf2. lia.
  - split; [|done]. intros fuel Hfuel. cbn [expand_segments]. fold final. by rewrite Hf1.
Qed.

(** On a tree in which every walk is finite the recursive walk from a root
    ends.  Its result is a sorted list without duplicates that holds exactly
    the directories reachable through children that are neither hidden nor
    links, or the error one of those directories is read with. *)
Theorem recursive_walk_exact {E} (read_directory : str → res E (list DirectoryEntry)) (root : str) :
  bare_names read_directory → reads_components read_directory → finite_tree read_directory →
  ∃ fuel0 r,
    (∀ fuel, fuel0 ≤ fuel → collect_recursive_directories read_directory fuel root [] = r) ∧
    match r with
    | Ok out => path_sorted out ∧ (∀ q, q ∈ out → below read_directory root q) ∧
        (∀ q, below read_directory root q → path_in q out)
    | Err e => ∃ d, below read_directory root d ∧ read_sorted read_directory d = Err e
    | Panic => False
    end.
Proof.
  intros Hbare Hreads Hfin.
  destruct (collect_total read_directory root [] Hfin) as (fuel0 & r & Hf & Hr).
  { split; [constructor|]. by intros q child []%not_elem_of_nil. }
  exists fuel0, r. split; [done|]. destruct r as [out|e|]; [|done|done].
  destruct Hr as [[Hs Hclosed] Hroot]. split; [done|]. split.
  - destruct (collect_loop_sound read_directory fuel0 [root] [] out) as [_ Hfrom];
      [constructor|by apply Hf|].
    intros q [[]%not_elem_of_nil|(c & Hc & Hb)]%Hfrom.
    by apply elem_of_cons in Hc as [->|[]%not_elem_of_nil].
  - induction 1 as [|d child Hb (d' & Hd' & Hc) Hw]; [done|].
    destruct (walk_child_components _ d d' child Hbare Hreads (eq_sym Hc) Hw)
      as (child' & Hw' & Hcc).
    destruct (Hclosed d' child' Hd' Hw') as (c & Hcin & Hcc'). rewrite app_nil_r in Hcin.
    exists c. split; [done|congruence].
Qed.

(** C37: parsing a pattern never panics, expanding it ends on a tree in which
    every walk is finite, and what it expands to is in path order, without
    duplicates, and matched by the same pattern through
    [glob_pattern_matches]. *)
Theorem expand_matches {E} (read_directory : str → res E (list DirectoryEntry)) (pattern : str) :
  bare_names read_directory → finite_tree read_directory →
  match GlobPattern_parse pattern with
  | Panic => False
  | Err _ => True
  | Ok p => ∃ fuel0 r, (∀ fuel, fuel0 ≤ fuel → expand read_directory fuel p = r) ∧
      match r with
      | Ok out => path_sorted out ∧ ∀ q, q ∈ out → glob_pattern_matches pattern q = Ok true
      | Err _ => True
      | Panic => False
      end
  end.
Proof.
  intros Hbare Hfin.
  assert (GlobPattern_parse pattern ≠ Panic) as Hnp.
  { unfold GlobPattern_parse. repeat case_bool_decide; try done.
    pose proof (parse_components_total (components pattern) [] [] false).
    by destruct (parse_components _ _ _ _) as [[[]]| |]. }
  unfold glob_pattern_matches.
  destruct (GlobPattern_parse pattern) as [p|e|] eqn:Hp; [|done|done].
  pose proof (GlobPattern_parse_init _ _ Hp) as Hi. unfold expand, GlobPattern_matches. simpl.
  destruct (empty_pattern p).
  { exists 0, (Ok []). split; [by intros|]. split; [constructor|]. by intros q []%not_elem_of_nil. }
  destruct (expand_segments_total read_directory (segments p) [initial p] Hfin)
    as (fuel0 & r & Hf & Hr).
  eexists fuel0, (let* paths := r in Ok (dedup (sort_by path_le paths))).
  split; [intros fuel Hfuel; by rewrite Hf|]. destruct r as [paths|e|]; [|done|done]. simpl.
  destruct (sort_dedup_spec paths) as (Hs & Hsub & _). split; [done|].
  intros q Hq%Hsub.
  assert (Forall (reached (initial p) []) [initial p]) as Hstart
    by (constructor; [apply reached_init|constructor]).
  pose proof (expand_segments_reached read_directory Hbare (initial p) Hi fuel0 _ _ _ [] Hstart
    (Hf fuel0 (le_n _))) as Hreach.
  rewrite list.Forall_forall in Hreach. destruct (Hreach q Hq) as (ns & Hpn & Hm).
  destruct (path_names_candidate _ _ _ Hi Hpn) as [-> ->].
  rewrite eqb_reflx. simpl. f_equal. by apply match_segments_spec.
Qed.

(** ** Witnesses *)

Definition src_entries : list DirectoryEntry :=
  [mkEntry (bs "main.rs") EntryFile (Some 3%Z)].

Definition cwd_entries : list DirectoryEntry :=
  [mkEntry (bs "src") EntryDirectory None; mkEntry (bs "a.rs") EntryFile (Some 1%Z);
   mkEntry (bs ".git") EntryDirectory None; mkEntry (bs "link") EntrySymlink None].

(** A working directory with one visible directory. *)
Definition sample_tree (path : str) : res unit (list DirectoryEntry) :=
  match filter (λ c, c ≠ CurDir) (components path) with
  | [] => Ok cwd_entries
  | [Normal name] => if str_eqb name (bs "src") then Ok src_entries else Err tt
  | _ => Err tt
  end.

Lemma sample_tree_cases path es :
  sample_tree path = Ok es →
  es = cwd_entries ∧ filter (λ c, c ≠ CurDir) (components path) = [] ∨ es = src_entries.
Proof.
  unfold sample_tree. destruct (filter _ _) as [|[| | |name] [|]]; try done.
  - intros [= <-]. by left.
  - case_match; [|done]. intros [= <-]. by right.
Qed.

Lemma sample_bare : bare_names sample_tree.
Proof.
  intros d es e Hr He. apply sample_tree_cases in Hr as [[-> _]| ->].
  all: repeat (apply elem_of_cons in He as [->|He]; [split; [done|];
    apply (bool_decide_unpack _); vm_compute; exact I|]); by apply not_elem_of_nil in He.
Qed.

Lemma sample_reads : reads_components sample_tree.
Proof. intros p q Hc. unfold sample_tree. by rewrite Hc. Qed.

Lemma sample_child d child :
  walk_child sample_tree d child →
  child = push d (bs "src") ∧
  filter (λ c, c ≠ CurDir) (components (if bool_decide (d = []) then dot else d)) = [].
Proof.
  intros (es & Hr & Hc). apply child_directories_elem in Hc as (e & -> & He & Hdir & Hdot & Hhid).
  destruct (read_sorted_elem _ _ _ _ Hr He) as (es' & Hr' & He').
  apply sample_tree_cases in Hr' as [[-> Hf]| ->].
  - split; [|done].
    repeat (apply elem_of_cons in He' as [->|He']; [try (by vm_compute in Hdir); try (by vm_compute in Hhid)|]).
    by apply not_elem_of_nil in He'.
  - apply elem_of_cons in He' as [->|[]%not_elem_of_nil]. by vm_compute in Hdir.
Qed.

Lemma sample_finite : finite_tree sample_tree.
Proof.
  split; [intros d; unfold sample_tree; by repeat case_match|].
  intros root. exists [root; push root (bs "src")].
  induction 1 as [|d child Hb IH Hw]; [left|]. apply sample_child in Hw as [-> Hf].
  apply elem_of_cons in IH as [->|[->|[]%not_elem_of_nil]%elem_of_cons]; [right; left|].
  exfalso.
  assert (one_component (bs "src") (Normal (bs "src"))) as Hone.
  { apply proper_component. split_and!; try done.
    apply (bool_decide_unpack _). vm_compute. exact I. }
  pose proof (components_push root _ _ Hone) as Hcp. case_bool_decide as Hnil.
  - rewrite Hnil in Hcp. by destruct (components root).
  - rewrite Hcp, filter_app in Hf. apply app_eq_nil in Hf as [_ Hf]. by vm_compute in Hf.
Qed.

Lemma recursive_walk_exact_witness :
  collect_recursive_directories sample_tree 9 [] [] = Ok [[]; bs "src"] ∧
  ∃ fuel0 r, (∀ fuel, fuel0 ≤ fuel →
    collect_recursive_directories sample_tree fuel [] [] = r) ∧
    match r with
    | Ok out => path_sorted out ∧ (∀ q, q ∈ out → below sample_tree [] q) ∧
        (∀ q, below sample_tree [] q → path_in q out)
    | Err e => ∃ d, below sample_tree [] d ∧ read_sorted sample_tree d = Err e
    | Panic => False
    end.
Proof.
  split; [by vm_compute|].
  exact (recursive_walk_exact sample_tree [] sample_bare sample_reads sample_finite).
Defined.

Lemma expand_matches_witness :
  (let* p := res_map_err (λ _, tt) (GlobPattern_parse (bs "**/*.rs")) in expand sample_tree 9 p) =
    Ok [bs "a.rs"; bs "src/main.rs"] ∧
  match GlobPattern_parse (bs "**/*.rs") with
  | Panic => False
  | Err _ => True
  | Ok p => ∃ fuel0 r, (∀ fuel, fuel0 ≤ fuel → expand sample_tree fuel p = r) ∧
      match r with
      | Ok out => path_sorted out ∧ ∀ q, q ∈ out → glob_pattern_matches (bs "**/*.rs") q = Ok true
      | Err _ => True
      | Panic => False
      end
  end.
Proof.
  split; [by vm_compute|]. exact (expand_matches sample_tree (bs "**/*.rs") sample_bare sample_finite).
Defined.

Lemma component_pattern_roundtrip_witness :
  ComponentPattern_parse (Unicode <$> bs "a*[x-z]") =
    Ok (mkPattern [Literal (uni "a"); AnyMany; Class (mkClass false [(uni "x", uni "z")])] false) ∧
  ∃ p, ComponentPattern_parse (print_atoms [AnyMany; Literal (uni "*")]) = Ok p ∧
    atoms p = [AnyMany; Literal (uni "*")].
Proof.
  split; [by vm_compute|]. apply (proj2 component_pattern_roundtrip).
  split; [by repeat constructor|]. split; [done|]. by split.
Defined.
