(* ===== verification/Value.v ===== *)
(** * Runtime values ([opaal-runtime/src/value.rs], the types of module.rs)

    The closed set of value families, their equality, records, tables and
    ranges, and the value types of annotations.  The runtime error a value may
    carry is a parameter of the type: any type with an equality. *)
From S2P Require Import Prelude Path Status.

(** ** Finite floats *)

(** The fields of an [f64] given by its bits. *)
Definition f64_negative (bits : Z) : bool := Z.testbit bits 63.
Definition f64_exponent (bits : Z) : Z := Z.land (Z.shiftr bits 52) 2047.
Definition f64_fraction (bits : Z) : Z := Z.land bits (2 ^ 52 - 1)%Z.

(** [FiniteFloat] is the bits of a finite number, [+0] for both zeros. *)
Definition FiniteFloat : Type := Z.

Definition FiniteFloat_new (bits : Z) : res unit FiniteFloat :=
  if (f64_exponent bits =? 2047)%Z then Err tt
  else if (f64_exponent bits =? 0)%Z && (f64_fraction bits =? 0)%Z then Ok 0%Z
  else Ok bits.

(** The magnitude is [f64_mantissa * 2 ^ f64_scale]. *)
Definition f64_mantissa (bits : Z) : Z :=
  if (f64_exponent bits =? 0)%Z then f64_fraction bits else (f64_fraction bits + 2 ^ 52)%Z.
Definition f64_scale (bits : Z) : Z :=
  if (f64_exponent bits =? 0)%Z then (-1074)%Z else (f64_exponent bits - 1075)%Z.

(** The integer a float denotes, when [fract] is zero. *)
Definition f64_to_integer (bits : Z) : option Z :=
  let m := if f64_negative bits then (- f64_mantissa bits)%Z else f64_mantissa bits in
  if (0 <=? f64_scale bits)%Z then Some (m * 2 ^ f64_scale bits)%Z
  else if (m mod 2 ^ (- f64_scale bits) =? 0)%Z then Some (m / 2 ^ (- f64_scale bits))%Z
  else None.

(** [as i128] saturates. *)
Definition as_i128 (z : Z) : Z := Z.max (- 2 ^ 127)%Z (Z.min (2 ^ 127 - 1)%Z z).

Definition int_float_equal (integer : Z) (float : FiniteFloat) : bool :=
  match f64_to_integer float with
  | Some v => (as_i128 v =? integer)%Z
  | None => false
  end.

(** ** Ranges *)

Record Range := mkRange { range_start : Z; range_end : Z; inclusive_end : bool }.

Definition Range_contains (r : Range) (value : Z) : bool :=
  (range_start r <=? value)%Z &&
  (if inclusive_end r then value <=? range_end r else value <? range_end r)%Z.

Definition Range_is_empty (r : Range) : bool :=
  (if inclusive_end r then range_end r <? range_start r else range_end r <=? range_start r)%Z.

Definition Range_eqb (a b : Range) : bool :=
  (range_start a =? range_start b)%Z && (range_end a =? range_end b)%Z &&
  Bool.eqb (inclusive_end a) (inclusive_end b).

(** ** Nominal identities and value types *)

Inductive ModuleOrigin := Local | Standard (namespace module : str).

Record ModuleId := mkModuleId { module_path : str; module_origin : ModuleOrigin }.

Record NominalTypeId := mkNominal { nominal_module : ModuleId; nominal_name : str }.

Definition ModuleOrigin_eqb (a b : ModuleOrigin) : bool :=
  match a, b with
  | Local, Local => true
  | Standard n m, Standard n' m' => str_eqb n n' && str_eqb m m'
  | _, _ => false
  end.

(** Module paths compare as paths. *)
Definition ModuleId_eqb (a b : ModuleId) : bool :=
  path_eqb (module_path a) (module_path b) && ModuleOrigin_eqb (module_origin a) (module_origin b).

Definition NominalTypeId_eqb (a b : NominalTypeId) : bool :=
  ModuleId_eqb (nominal_module a) (nominal_module b) && str_eqb (nominal_name a) (nominal_name b).

Inductive ValueType :=
| TAny | TNull | TBool | TInt | TFloat | TString | TBytes | TPath | TDuration | TByteSize
| TList (element : ValueType)
| TRecord | TTable | TRange | TStatus | TError | TFunction | TClosure
| TTypeParameter (name : str)
| TNominal (id : NominalTypeId) (arguments : list ValueType).

Fixpoint ValueType_eqb (a b : ValueType) : bool :=
  match a, b with
  | TAny, TAny | TNull, TNull | TBool, TBool | TInt, TInt | TFloat, TFloat | TString, TString
  | TBytes, TBytes | TPath, TPath | TDuration, TDuration | TByteSize, TByteSize
  | TRecord, TRecord | TTable, TTable | TRange, TRange | TStatus, TStatus | TError, TError
  | TFunction, TFunction | TClosure, TClosure => true
  | TList a, TList b => ValueType_eqb a b
  | TTypeParameter a, TTypeParameter b => str_eqb a b
  | TNominal i xs, TNominal j ys => NominalTypeId_eqb i j && list_eqb ValueType_eqb xs ys
  | _, _ => false
  end.

(** [ValueType::accepts_type]. *)
Fixpoint accepts_type (self actual : ValueType) : bool :=
  match self, actual with
  | TAny, _ => true
  | TList expected, TList actual => accepts_type expected actual
  | _, _ => ValueType_eqb self actual
  end.

(** [substitute_type]; the substitution is a finite map by name. *)
Fixpoint substitute_type (value_type : ValueType) (substitutions : str → option ValueType)
    : ValueType :=
  match value_type with
  | TTypeParameter name => default value_type (substitutions name)
  | TList element => TList (substitute_type element substitutions)
  | TNominal id arguments =>
      TNominal id ((λ argument, substitute_type argument substitutions) <$> arguments)
  | _ => value_type
  end.

(** ** Values *)

(** A callable is an allocation with a family. *)
Record CallableRef := mkCallable { callable_address : Z; callable_family : str }.

Section Values.
Context {RuntimeError : Type} (error_eqb : RuntimeError → RuntimeError → bool).

Inductive Value :=
| VNull
| VBool (b : bool)
| VInt (i : Z)
| VFloat (f : FiniteFloat)
| VString (s : str)
| VBytes (b : str)
| VPath (p : str)
| VDuration (d : Duration)
| VByteSize (bytes : Z)
| VList (items : list Value)
| VRecord (entries : list (str * Value))
| VNominalRecord (id : NominalTypeId) (arguments : list ValueType) (fields : list (str * Value))
| VVariant (id : NominalTypeId) (arguments : list ValueType) (constructor : str)
    (payload : list Value)
| VTable (columns : list str) (rows : list (list Value))
| VRange (r : Range)
| VStatus (s : Status)
| VError (e : RuntimeError)
| VCallable (c : CallableRef).

Definition family_name (v : Value) : str :=
  match v with
  | VNull => bs "null"
  | VBool _ => bs "bool"
  | VInt _ => bs "int"
  | VFloat _ => bs "float"
  | VString _ => bs "string"
  | VBytes _ => bs "bytes"
  | VPath _ => bs "path"
  | VDuration _ => bs "duration"
  | VByteSize _ => bs "byte size"
  | VList _ => bs "list"
  | VRecord _ => bs "record"
  | VNominalRecord _ _ _ => bs "nominal record"
  | VVariant _ _ _ _ => bs "variant"
  | VTable _ _ => bs "table"
  | VRange _ => bs "range"
  | VStatus _ => bs "status"
  | VError _ => bs "error"
  | VCallable c => callable_family c
  end.

(** [PartialEq for Value]. *)
Fixpoint value_eqb (v w : Value) : bool :=
  match v, w with
  | VNull, VNull => true
  | VBool a, VBool b => Bool.eqb a b
  | VInt a, VInt b => (a =? b)%Z
  | VFloat a, VFloat b => (a =? b)%Z
  | VInt i, VFloat f | VFloat f, VInt i => int_float_equal i f
  | VString a, VString b => str_eqb a b
  | VBytes a, VBytes b => str_eqb a b
  | VPath a, VPath b => str_eqb a b
  | VDuration a, VDuration b => (a =? b)%Z
  | VByteSize a, VByteSize b => (a =? b)%Z
  | VList a, VList b => list_eqb value_eqb a b
  | VRecord a, VRecord b =>
      list_eqb (λ x y, str_eqb x.1 y.1 && value_eqb x.2 y.2) a b
  | VNominalRecord i xs a, VNominalRecord j ys b =>
      NominalTypeId_eqb i j && list_eqb ValueType_eqb xs ys &&
      list_eqb (λ x y, str_eqb x.1 y.1 && value_eqb x.2 y.2) a b
  | VVariant i xs c a, VVariant j ys d b =>
      NominalTypeId_eqb i j && list_eqb ValueType_eqb xs ys && str_eqb c d &&
      list_eqb value_eqb a b
  | VTable cs a, VTable ds b => list_eqb str_eqb cs ds && list_eqb (list_eqb value_eqb) a b
  | VRange a, VRange b => Range_eqb a b
  | VStatus a, VStatus b => Status_eqb a b
  | VError a, VError b => error_eqb a b
  | VCallable a, VCallable b => (callable_address a =? callable_address b)%Z
  | _, _ => false
  end.

Definition nominal_runtime_type_matches (id : NominalTypeId) (arguments : list ValueType)
    (runtime_id : NominalTypeId) (runtime_arguments : list ValueType) : bool :=
  NominalTypeId_eqb id runtime_id && list_eqb ValueType_eqb arguments runtime_arguments.

(** [ValueType::accepts]. *)
Fixpoint accepts (self : ValueType) (value : Value) : bool :=
  match self, value with
  | TAny, _ => true
  | TNull, VNull => true
  | TBool, VBool _ => true
  | TInt, VInt _ => true
  | TFloat, VFloat _ => true
  | TString, VString _ => true
  | TBytes, VBytes _ => true
  | TPath, VPath _ => true
  | TDuration, VDuration _ => true
  | TByteSize, VByteSize _ => true
  | TList element_type, VList values => forallb (accepts element_type) values
  | TRecord, VRecord _ => true
  | TTable, VTable _ _ => true
  | TRange, VRange _ => true
  | TStatus, VStatus _ => true
  | TError, VError _ => true
  | TFunction, VCallable c => str_eqb (callable_family c) (bs "function")
  | TClosure, VCallable c => str_eqb (callable_family c) (bs "closure")
  | TTypeParameter _, _ => true
  | TNominal id arguments, VNominalRecord id' arguments' _ =>
      nominal_runtime_type_matches id arguments id' arguments'
  | TNominal id arguments, VVariant id' arguments' _ _ =>
      nominal_runtime_type_matches id arguments id' arguments'
  | _, _ => false
  end.

(** ** Records *)

Record DuplicateRecordKey := mkDuplicateKey { duplicate_key : str; duplicate_index : nat }.

Fixpoint Record_new_loop (index : nat) (checked entries : list (str * Value))
    : res DuplicateRecordKey (list (str * Value)) :=
  match entries with
  | [] => Ok checked
  | (key, value) :: entries =>
    if existsb (λ e, str_eqb e.1 key) checked then Err (mkDuplicateKey key index)
    else Record_new_loop (S index) (checked ++ [(key, value)]) entries
  end.

Definition Record_new (entries : list (str * Value)) : res DuplicateRecordKey (list (str * Value)) :=
  Record_new_loop 0 [] entries.

(** [find_map] over the entries. *)
Fixpoint Record_get (entries : list (str * Value)) (key : str) : option Value :=
  match entries with
  | [] => None
  | (candidate, value) :: entries =>
    if str_eqb candidate key then Some value else Record_get entries key
  end.

(** ** Tables *)

Record Table := mkTable { columns : list str; rows : list (list Value) }.

Inductive TableError :=
| DuplicateColumn (column : str) (index : nat)
| RowWidth (row expected actual : nat).

Fixpoint check_columns (index : nat) (checked cols : list str) : res TableError (list str) :=
  match cols with
  | [] => Ok checked
  | column :: cols =>
    if existsb (λ existing, str_eqb existing column) checked
    then Err (DuplicateColumn column index)
    else check_columns (S index) (checked ++ [column]) cols
  end.

Fixpoint check_rows (row width : nat) (rs : list (list Value)) : res TableError (list (list Value)) :=
  match rs with
  | [] => Ok []
  | cells :: rs =>
    if negb (length cells =? width) then Err (RowWidth row width (length cells))
    else res_bind (check_rows (S row) width rs) (λ shaped, Ok (cells :: shaped))
  end.

Definition Table_new (cols : list str) (rs : list (list Value)) : res TableError Table :=
  res_bind (check_columns 0 [] cols) (λ checked,
  res_bind (check_rows 0 (length checked) rs) (λ shaped, Ok (mkTable checked shaped))).

(** The union of the keys in first-seen order. *)
Definition add_column (cols : list str) (key : str) : list str :=
  if existsb (λ existing, str_eqb existing key) cols then cols else cols ++ [key].

Definition union_columns (records : list (list (str * Value))) : list str :=
  foldl (λ cols record, foldl add_column cols record.*1) [] records.

Definition Table_from_records (records : list (list (str * Value))) : Table :=
  let cols := union_columns records in
  mkTable cols
    ((λ record, (λ column, default VNull (Record_get record column)) <$> cols) <$> records).

Fixpoint position_of {A} (f : A → bool) (l : list A) : option nat :=
  match l with
  | [] => None
  | x :: l => if f x then Some 0 else S <$> position_of f l
  end.

Definition column_index (t : Table) (column : str) : option nat :=
  position_of (λ candidate, str_eqb candidate column) (columns t).

(** Indexing the cells out of range would panic. *)
Definition Table_get {E} (t : Table) (row : nat) (column : str) : res E (option Value) :=
  match column_index t column with
  | None => Ok None
  | Some index =>
    match rows t !! row with
    | None => Ok None
    | Some cells =>
      match cells !! index with
      | Some v => Ok (Some v)
      | None => Panic
      end
    end
  end.

End Values.

Arguments Value : clear implicits.
Arguments Table : clear implicits.
