(* ===== verification/ValueFacts.v ===== *)
(** * Properties of runtime values

    Equality of values is an equivalence, although an integer equals the
    float that denotes it and module paths compare by components; tables are
    rectangular; and the static check [accepts_type] is sound for the dynamic
    check [accepts]. *)
From S2P Require Import Prelude Path Status Value.

Local Open Scope res_scope.

(** ** Floats *)

Local Open Scope Z_scope.

(** The bits of a float the constructor returns. *)
Definition float_wf (bits : FiniteFloat) : Prop :=
  0 ≤ bits < 2 ^ 64 ∧ f64_exponent bits ≠ 2047 ∧
  (f64_exponent bits = 0 → f64_fraction bits = 0 → bits = 0).

Lemma FiniteFloat_new_wf bits f :
  0 ≤ bits < 2 ^ 64 → FiniteFloat_new bits = Ok f → float_wf f.
Proof.
  intros Hb. unfold FiniteFloat_new. destruct (f64_exponent bits =? 2047) eqn:E; [done|].
  destruct ((f64_exponent bits =? 0) && (f64_fraction bits =? 0)) eqn:Ez; intros [= <-].
  - split; [lia|split; [done|done]].
  - apply Z.eqb_neq in E. split; [lia|split; [done|]]. intros He Hf.
    by rewrite He, Hf in Ez.
Qed.

Lemma f64_exponent_div bits : f64_exponent bits = (bits / 2 ^ 52) mod 2 ^ 11.
Proof.
  unfold f64_exponent. change 2047 with (Z.ones 11). rewrite Z.land_ones by lia.
  by rewrite Z.shiftr_div_pow2 by lia.
Qed.

Lemma f64_fraction_mod bits : f64_fraction bits = bits mod 2 ^ 52.
Proof.
  unfold f64_fraction. change (2 ^ 52 - 1) with (Z.ones 52). by rewrite Z.land_ones by lia.
Qed.

Lemma f64_fields bits :
  0 ≤ bits < 2 ^ 64 →
  bits = 2 ^ 63 * (if f64_negative bits then 1 else 0) + 2 ^ 52 * f64_exponent bits + f64_fraction bits
  ∧ 0 ≤ f64_exponent bits < 2 ^ 11 ∧ 0 ≤ f64_fraction bits < 2 ^ 52.
Proof.
  intros Hb. rewrite f64_exponent_div, f64_fraction_mod.
  assert ((if f64_negative bits then 1 else 0) = bits / 2 ^ 63) as ->.
  { unfold f64_negative. pose proof (Z.testbit_spec' bits 63 ltac:(lia)) as Hs. unfold Z.b2z in Hs.
    assert (0 ≤ bits / 2 ^ 63 < 2) by (Z.to_euclidean_division_equations; lia).
    destruct (Z.testbit bits 63); rewrite Z.mod_small in Hs by lia; lia. }
  change (2 ^ 63) with (2 ^ 52 * 2 ^ 11). rewrite <- Z.div_div by lia.
  pose proof (Z.div_mod (bits / 2 ^ 52) (2 ^ 11) ltac:(lia)).
  pose proof (Z.div_mod bits (2 ^ 52) ltac:(lia)).
  pose proof (Z.mod_pos_bound (bits / 2 ^ 52) (2 ^ 11) ltac:(lia)).
  pose proof (Z.mod_pos_bound bits (2 ^ 52) ltac:(lia)).
  split_and!; nia.
Qed.

(** Every float is a multiple of [2 ^ -1074]; this is the multiple. *)
Definition scaled (bits : Z) : Z :=
  (if f64_negative bits then -1 else 1) * f64_mantissa bits * 2 ^ (f64_scale bits + 1074).

Lemma scale_nonneg bits : 0 ≤ bits < 2 ^ 64 → 0 ≤ f64_scale bits + 1074.
Proof.
  intros Hb. destruct (f64_fields bits Hb) as (_ & He & _). unfold f64_scale.
  destruct (Z.eqb_spec (f64_exponent bits) 0); lia.
Qed.

Lemma f64_to_integer_scaled bits v :
  0 ≤ bits < 2 ^ 64 → f64_to_integer bits = Some v → scaled bits = v * 2 ^ 1074.
Proof.
  intros Hb. pose proof (scale_nonneg bits Hb) as Hs. unfold f64_to_integer, scaled.
  set (s := f64_scale bits) in *. set (m := f64_mantissa bits).
  set (sm := if f64_negative bits then - m else m).
  replace ((if f64_negative bits then -1 else 1) * m) with sm
    by (unfold sm; destruct (f64_negative bits); lia).
  destruct (Z.leb_spec 0 s).
  - intros [= <-]. rewrite <- Z.mul_assoc, <- Z.pow_add_r by lia. done.
  - destruct (Z.eqb_spec (sm mod 2 ^ (- s)) 0) as [Hm|]; [|done]. intros [= <-].
    assert (0 < 2 ^ (- s)) as Hpos by (apply Z.pow_pos_nonneg; lia).
    pose proof (Z.div_mod sm (2 ^ (- s)) ltac:(lia)) as Hd. rewrite Hm in Hd.
    replace 1074 with (- s + (s + 1074)) at 2 by lia. rewrite (Z.pow_add_r 2 (- s)) by lia.
    rewrite Z.mul_assoc. f_equal. lia.
Qed.

(** The mantissa and the scale determine the exponent and the fraction. *)
Lemma magnitude_le a b :
  0 ≤ a < 2 ^ 64 → 0 ≤ b < 2 ^ 64 → f64_scale a ≤ f64_scale b →
  f64_mantissa a * 2 ^ (f64_scale a + 1074) = f64_mantissa b * 2 ^ (f64_scale b + 1074) →
  f64_exponent a = f64_exponent b ∧ f64_fraction a = f64_fraction b.
Proof.
  intros Ha Hb Hle Heq. pose proof (scale_nonneg a Ha) as Hsa.
  destruct (f64_fields a Ha) as (_ & Hea & Hfa). destruct (f64_fields b Hb) as (_ & Heb & Hfb).
  replace (f64_scale b + 1074) with ((f64_scale b - f64_scale a) + (f64_scale a + 1074)) in Heq by lia.
  rewrite (Z.pow_add_r 2 (f64_scale b - f64_scale a)) in Heq by lia. rewrite Z.mul_assoc in Heq.
  apply Z.mul_reg_r in Heq; [|apply Z.pow_nonzero; lia].
  destruct (Z.eq_dec (f64_scale a) (f64_scale b)) as [Hs|Hs].
  - rewrite Hs, Z.sub_diag, Z.mul_1_r in Heq. unfold f64_mantissa, f64_scale in *.
    destruct (Z.eqb_spec (f64_exponent a) 0), (Z.eqb_spec (f64_exponent b) 0); lia.
  - exfalso. assert (2 * f64_mantissa b ≤ f64_mantissa a) as Hbig.
    { rewrite Heq. rewrite (Z.mul_comm 2). apply Z.mul_le_mono_nonneg_l.
      - unfold f64_mantissa. destruct (f64_exponent b =? 0); lia.
      - change 2 with (2 ^ 1) at 1. apply Z.pow_le_mono_r; lia. }
    unfold f64_mantissa, f64_scale in *.
    destruct (Z.eqb_spec (f64_exponent a) 0), (Z.eqb_spec (f64_exponent b) 0); lia.
Qed.

Lemma scaled_inj a b : float_wf a → float_wf b → scaled a = scaled b → a = b.
Proof.
  intros (Ha & _ & Hza) (Hb & _ & Hzb) Heq.
  destruct (f64_fields a Ha) as (Ea & Hea & Hfa). destruct (f64_fields b Hb) as (Eb & Heb & Hfb).
  pose proof (scale_nonneg a Ha) as Hsa. pose proof (scale_nonneg b Hb) as Hsb.
  assert (∀ x, 0 ≤ f64_exponent x → 0 ≤ f64_fraction x →
    0 ≤ f64_mantissa x ∧ (f64_mantissa x = 0 → f64_exponent x = 0 ∧ f64_fraction x = 0)) as Hmant.
  { intros x Hex Hfx. unfold f64_mantissa. destruct (Z.eqb_spec (f64_exponent x) 0); lia. }
  destruct (Hmant a) as [Hma Hma0]; [lia|lia|]. destruct (Hmant b) as [Hmb Hmb0]; [lia|lia|].
  unfold scaled in Heq.
  pose proof (Z.pow_pos_nonneg 2 (f64_scale a + 1074) ltac:(lia) Hsa) as Hpa.
  pose proof (Z.pow_pos_nonneg 2 (f64_scale b + 1074) ltac:(lia) Hsb) as Hpb.
  set (pa := 2 ^ (f64_scale a + 1074)) in *. set (pb := 2 ^ (f64_scale b + 1074)) in *.
  assert (f64_mantissa a * pa = f64_mantissa b * pb) as Hmag
    by (destruct (f64_negative a), (f64_negative b); nia).
  destruct (Z.eq_dec (f64_mantissa a) 0) as [Hz|Hnz].
  - assert (f64_mantissa b = 0) as Hz' by nia.
    destruct (Hma0 Hz) as [? ?], (Hmb0 Hz') as [? ?].
    by rewrite (Hza ltac:(done) ltac:(done)), (Hzb ltac:(done) ltac:(done)).
  - assert (f64_exponent a = f64_exponent b ∧ f64_fraction a = f64_fraction b) as [He Hf].
    { destruct (Z.le_ge_cases (f64_scale a) (f64_scale b)); [by apply magnitude_le|].
      destruct (magnitude_le b a); auto. }
    assert (f64_negative a = f64_negative b) as Hneg
      by (destruct (f64_negative a), (f64_negative b); [done|nia|nia|done]).
    rewrite Ea, Eb. by rewrite He, Hf, Hneg.
Qed.

Definition int_wf (i : Z) : Prop := - 2 ^ 63 ≤ i < 2 ^ 63.

(** No saturation hides in a comparison with an [i64]. *)
Lemma int_float_equal_scaled i f :
  0 ≤ f < 2 ^ 64 → int_wf i → int_float_equal i f = true → scaled f = i * 2 ^ 1074.
Proof.
  intros Hf Hi. unfold int_float_equal. destruct (f64_to_integer f) as [v|] eqn:Hv; [|done].
  rewrite Z.eqb_eq. intros Heq. rewrite (f64_to_integer_scaled f v Hf Hv). f_equal.
  unfold as_i128, int_wf in *. lia.
Qed.
Local Close Scope Z_scope.

(** ** Induction through the nested sequences *)

Section Forall_map.
Context {A : Type} (P : A → Prop) (f : ∀ x, P x).
Fixpoint Forall_all (l : list A) : Forall P l :=
  match l with
  | [] => Forall_nil_2 P
  | x :: l => Forall_cons_2 P x l (f x) (Forall_all l)
  end.
End Forall_map.

Fixpoint Status_nested_ind (P : Status → Prop)
    (step : ∀ c s ss d, Forall P ss → P (mkStatus c s ss d)) (s : Status) : P s :=
  match s with
  | mkStatus c sg ss d => step c sg ss d (Forall_all P (Status_nested_ind P step) ss)
  end.

Lemma Status_eqb_eq a b : Status_eqb a b = true ↔ a = b.
Proof.
  revert b. induction a as [c s ss d IH] using Status_nested_ind.
  intros [c' s' ss' d']. cbn [Status_eqb code signal stages duration].
  rewrite !andb_true_iff, !bool_decide_eq_true, (list_eqb_spec _ ss ss' IH), Z.eqb_eq.
  naive_solver.
Qed.

Fixpoint ValueType_nested_ind (P : ValueType → Prop)
    (leaf : ∀ t, match t with TList _ | TNominal _ _ => False | _ => True end → P t)
    (plist : ∀ t, P t → P (TList t))
    (pnominal : ∀ id ts, Forall P ts → P (TNominal id ts)) (t : ValueType) : P t :=
  match t with
  | TList t => plist t (ValueType_nested_ind P leaf plist pnominal t)
  | TNominal id ts => pnominal id ts (Forall_all P (ValueType_nested_ind P leaf plist pnominal) ts)
  | t => leaf t I
  end.

Section Facts.
Context {RuntimeError : Type} (error_eqb : RuntimeError → RuntimeError → bool).

Notation Value := (Value RuntimeError).
Notation value_eqb := (value_eqb error_eqb).

Definition composite (v : Value) : Prop :=
  match v with
  | VList _ | VRecord _ | VNominalRecord _ _ _ | VVariant _ _ _ _ | VTable _ _ => True
  | _ => False
  end.

Lemma Value_nested_ind (P : Value → Prop)
    (leaf : ∀ v, ¬ composite v → P v)
    (plist : ∀ l, Forall P l → P (VList l))
    (precord : ∀ es, Forall (λ e, P e.2) es → P (VRecord es))
    (pnominal : ∀ id ts es, Forall (λ e, P e.2) es → P (VNominalRecord id ts es))
    (pvariant : ∀ id ts c l, Forall P l → P (VVariant id ts c l))
    (ptable : ∀ cs rs, Forall (Forall P) rs → P (VTable cs rs)) :
  ∀ v, P v.
Proof.
  fix IH 1. intros v.
  destruct v as [| | | | | | | | |l|es|id ts es|id ts c l|cs rs| | | |];
    try (apply leaf; exact id).
  - apply plist. exact (Forall_all P IH l).
  - apply precord. exact (Forall_all (λ e, P e.2) (λ e, match e with (_, v) => IH v end) es).
  - apply pnominal. exact (Forall_all (λ e, P e.2) (λ e, match e with (_, v) => IH v end) es).
  - apply pvariant. exact (Forall_all P IH l).
  - apply ptable. exact (Forall_all (Forall P) (Forall_all P IH) rs).
Qed.

(** ** The equality of the parts *)

Definition equivalence_on {A} (Q : A → Prop) (f : A → A → bool) : Prop :=
  (∀ x, f x x = true) ∧ (∀ x y, f x y = true → f y x = true) ∧
  (∀ x y z, Q x → Q y → Q z → f x y = true → f y z = true → f x z = true).

Lemma path_eqb_components p q : path_eqb p q = true ↔ components p = components q.
Proof. unfold path_eqb. rewrite <- path_compare_eq. by destruct (path_compare p q). Qed.

Lemma ModuleOrigin_eqb_eq a b : ModuleOrigin_eqb a b = true ↔ a = b.
Proof.
  destruct a, b; simpl; try done. rewrite andb_true_iff, !str_eqb_eq. naive_solver.
Qed.

(** What a nominal identity denotes. *)
Definition nominal_key (id : NominalTypeId) : list Component * ModuleOrigin * str :=
  (components (module_path (nominal_module id)), module_origin (nominal_module id), nominal_name id).

Lemma NominalTypeId_eqb_key a b : NominalTypeId_eqb a b = true ↔ nominal_key a = nominal_key b.
Proof.
  unfold NominalTypeId_eqb, ModuleId_eqb, nominal_key.
  rewrite !andb_true_iff, path_eqb_components, ModuleOrigin_eqb_eq, str_eqb_eq.
  split; [intros [[? ?] ?]; congruence|intros [=]; auto].
Qed.

Lemma ValueType_eqb_refl t : ValueType_eqb t t = true.
Proof.
  induction t as [t Ht|t IH|id ts IH] using ValueType_nested_ind; simpl.
  - destruct t; try done. by apply str_eqb_eq.
  - done.
  - rewrite andb_true_iff, NominalTypeId_eqb_key. split; [done|]. by apply list_eqb_refl.
Qed.

Lemma ValueType_eqb_sym t u : ValueType_eqb t u = true → ValueType_eqb u t = true.
Proof.
  revert u. induction t as [t Ht|t IH|id ts IH] using ValueType_nested_ind; intros u.
  - destruct t, u; simpl; try done. rewrite !str_eqb_eq. done.
  - destruct u; simpl; try done. apply IH.
  - destruct u; simpl; try done. rewrite !andb_true_iff, !NominalTypeId_eqb_key.
    intros [Hi Hl]. split; [done|]. by apply list_eqb_sym.
Qed.

Lemma ValueType_eqb_trans t u v :
  ValueType_eqb t u = true → ValueType_eqb u v = true → ValueType_eqb t v = true.
Proof.
  revert u v. induction t as [t Ht|t IH|id ts IH] using ValueType_nested_ind; intros u v.
  - destruct t, u; simpl; try done; destruct v; simpl; try done. rewrite !str_eqb_eq. congruence.
  - destruct u, v; simpl; try done. apply IH.
  - destruct u, v; simpl; try done. rewrite !andb_true_iff, !NominalTypeId_eqb_key.
    intros [Hi Hl] [Hj Hm]. split; [congruence|].
    eapply (list_eqb_trans _ (λ _, True)); [|by apply Forall_true..|exact Hl|exact Hm].
    eapply Forall_impl; [exact IH|]. eauto.
Qed.

Lemma Range_eqb_eq a b : Range_eqb a b = true ↔ a = b.
Proof.
  unfold Range_eqb. destruct a, b; simpl. rewrite !andb_true_iff, !Z.eqb_eq, eqb_true_iff.
  naive_solver.
Qed.

(** ** Equality of values *)

(** [Forall] as a structural recursion, for nested definitions. *)
Definition list_all {A} (P : A → Prop) : list A → Prop :=
  fix all l := match l with [] => True | x :: l => P x ∧ all l end.

Lemma list_all_Forall {A} (P : A → Prop) l : list_all P l ↔ Forall P l.
Proof.
  induction l as [|x l IH]; simpl; [done|]. by rewrite IH, list.Forall_cons.
Qed.

(** Integers fit an [i64], floats are those the constructor returns. *)
Fixpoint value_wf (v : Value) : Prop :=
  match v with
  | VInt i => int_wf i
  | VFloat f => float_wf f
  | VList l => list_all value_wf l
  | VRecord es => list_all (λ e, value_wf e.2) es
  | VNominalRecord _ _ es => list_all (λ e, value_wf e.2) es
  | VVariant _ _ _ l => list_all value_wf l
  | VTable _ rs => list_all (list_all value_wf) rs
  | _ => True
  end.

(** The comparisons of the fields of a record. *)
Definition entry_eqb (a b : str * Value) : bool := str_eqb a.1 b.1 && value_eqb a.2 b.2.

Hypothesis error_equivalence : equivalence_on (λ _, True) error_eqb.

Lemma value_eqb_refl v : value_eqb v v = true.
Proof.
  destruct error_equivalence as [Herr _].
  induction v as [v Hv|l IH|es IH|id ts es IH|id ts c l IH|cs rs IH] using Value_nested_ind.
  - destruct v; try (exfalso; by apply Hv); simpl; try done;
      try apply eqb_reflx; try apply Z.eqb_refl; try by apply str_eqb_eq.
    + by apply Range_eqb_eq.
    + by apply Status_eqb_eq.
  - by apply list_eqb_refl.
  - apply list_eqb_refl. eapply Forall_impl; [exact IH|]. intros [k x] Hx.
    apply andb_true_iff. split; [by apply str_eqb_eq|exact Hx].
  - simpl. rewrite !andb_true_iff, NominalTypeId_eqb_key. split_and!; [done| |].
    + apply list_eqb_refl, Forall_true, ValueType_eqb_refl.
    + apply list_eqb_refl. eapply Forall_impl; [exact IH|]. intros [k x] Hx.
      apply andb_true_iff. split; [by apply str_eqb_eq|exact Hx].
  - simpl. rewrite !andb_true_iff, NominalTypeId_eqb_key, str_eqb_eq. split_and!; [done| |done|].
    + apply list_eqb_refl, Forall_true, ValueType_eqb_refl.
    + by apply list_eqb_refl.
  - simpl. rewrite andb_true_iff. split.
    + apply list_eqb_refl, Forall_true. intros x. by apply str_eqb_eq.
    + apply list_eqb_refl. eapply Forall_impl; [exact IH|]. intros row Hrow.
      by apply list_eqb_refl.
Qed.

Lemma strs_eqb_eq cs ds : list_eqb str_eqb cs ds = true ↔ cs = ds.
Proof. apply list_eqb_spec, Forall_true. intros x y. apply str_eqb_eq. Qed.

Lemma types_eqb_sym ts us : list_eqb ValueType_eqb ts us = true → list_eqb ValueType_eqb us ts = true.
Proof. apply list_eqb_sym, Forall_true. intros x y. apply ValueType_eqb_sym. Qed.

Lemma types_eqb_trans ts us vs :
  list_eqb ValueType_eqb ts us = true → list_eqb ValueType_eqb us vs = true →
  list_eqb ValueType_eqb ts vs = true.
Proof.
  apply (list_eqb_trans _ (λ _, True)); try by apply Forall_true.
  apply Forall_true. intros x y z _ _. apply ValueType_eqb_trans.
Qed.

Lemma entries_sym es fs :
  Forall (λ e, ∀ w, value_eqb e.2 w = true → value_eqb w e.2 = true) es →
  list_eqb entry_eqb es fs = true → list_eqb entry_eqb fs es = true.
Proof.
  intros H. apply list_eqb_sym. eapply Forall_impl; [exact H|]. intros e He f. unfold entry_eqb.
  rewrite !andb_true_iff, !str_eqb_eq. intros [-> Hf]. auto.
Qed.

Lemma value_eqb_sym v w : value_eqb v w = true → value_eqb w v = true.
Proof.
  destruct error_equivalence as (_ & Herr & _). revert w.
  induction v as [v Hv|l IH|es IH|id ts es IH|id ts c l IH|cs rs IH] using Value_nested_ind; intros w.
  - destruct v; try (exfalso; by apply Hv); destruct w; simpl; try done;
      rewrite ?eqb_true_iff, ?Z.eqb_eq, ?str_eqb_eq, ?Range_eqb_eq, ?Status_eqb_eq; auto; congruence.
  - destruct w; simpl; try done. by apply list_eqb_sym.
  - destruct w; simpl; try done. by apply entries_sym.
  - destruct w; simpl; try done. rewrite !andb_true_iff, !NominalTypeId_eqb_key.
    intros [[Hi Ht] He]. split_and!; [done|by apply types_eqb_sym|by apply entries_sym].
  - destruct w; simpl; try done. rewrite !andb_true_iff, !NominalTypeId_eqb_key, !str_eqb_eq.
    intros [[[Hi Ht] Hc] He]. split_and!; [done|by apply types_eqb_sym|done|by apply list_eqb_sym].
  - destruct w; simpl; try done. rewrite !andb_true_iff, !strs_eqb_eq.
    intros [-> He]. split; [done|]. eapply list_eqb_sym; [|exact He].
    eapply Forall_impl; [exact IH|]. intros row Hrow row'. by apply list_eqb_sym.
Qed.

(** The conclusion of transitivity at one value. *)
Definition transitive_at (v : Value) : Prop :=
  value_wf v → ∀ w x, value_wf w → value_wf x →
  value_eqb v w = true → value_eqb w x = true → value_eqb v x = true.

Lemma values_trans l k m :
  Forall transitive_at l → list_all value_wf l → list_all value_wf k → list_all value_wf m →
  list_eqb value_eqb l k = true → list_eqb value_eqb k m = true → list_eqb value_eqb l m = true.
Proof.
  rewrite !list_all_Forall. intros Ht Hl Hk Hm. apply (list_eqb_trans _ value_wf); [|done..].
  rewrite list.Forall_forall in *. intros x Hx y z Hy Hz. by apply Ht; [|apply Hl|..].
Qed.

Lemma entries_trans l k m :
  Forall (λ e, transitive_at e.2) l → list_all (λ e, value_wf e.2) l →
  list_all (λ e, value_wf e.2) k → list_all (λ e, value_wf e.2) m →
  list_eqb entry_eqb l k = true → list_eqb entry_eqb k m = true → list_eqb entry_eqb l m = true.
Proof.
  rewrite !list_all_Forall. intros Ht Hl Hk Hm.
  apply (list_eqb_trans _ (λ e, value_wf e.2)); [|done..].
  rewrite list.Forall_forall in *. intros x Hx y z Hy Hz. unfold entry_eqb.
  rewrite !andb_true_iff, !str_eqb_eq. intros [-> H1] [-> H2]. split; [done|].
  exact (Ht x Hx (Hl x Hx) _ _ Hy Hz H1 H2).
Qed.

Lemma value_eqb_trans v : transitive_at v.
Proof.
  destruct error_equivalence as (_ & _ & Herr). unfold transitive_at.
  induction v as [v Hv|l IH|es IH|id ts es IH|id ts c l IH|cs rs IH] using Value_nested_ind;
    intros Wv w x Ww Wx.
  - destruct v; try (exfalso; by apply Hv); destruct w; simpl in *; try done; destruct x; simpl in *;
      try done; rewrite ?eqb_true_iff, ?Z.eqb_eq, ?str_eqb_eq, ?Range_eqb_eq, ?Status_eqb_eq;
      try congruence; try by eauto.
    + intros H1 H2. apply int_float_equal_scaled in H1; [|apply Ww|done].
      apply int_float_equal_scaled in H2; [|apply Ww|done]. lia.
    + intros H1 H2. apply int_float_equal_scaled in H1; [|apply Wv|done].
      apply int_float_equal_scaled in H2; [|apply Wx|done]. apply scaled_inj; [done..|congruence].
  - destruct w; simpl; try done; destruct x; simpl; try done. by apply values_trans.
  - destruct w; simpl; try done; destruct x; simpl; try done. by apply entries_trans.
  - destruct w; simpl; try done; destruct x; simpl; try done.
    rewrite !andb_true_iff, !NominalTypeId_eqb_key. intros [[Hi Ht] He] [[Hi' Ht'] He'].
    split_and!; [congruence|exact (types_eqb_trans _ _ _ Ht Ht')|exact (entries_trans _ _ _ IH Wv Ww Wx He He')].
  - destruct w; simpl; try done; destruct x; simpl; try done.
    rewrite !andb_true_iff, !NominalTypeId_eqb_key, !str_eqb_eq.
    intros [[[Hi Ht] Hc] He] [[[Hi' Ht'] Hc'] He'].
    split_and!; [congruence|exact (types_eqb_trans _ _ _ Ht Ht')|congruence|exact (values_trans _ _ _ IH Wv Ww Wx He He')].
  - destruct w; simpl; try done; destruct x; simpl; try done.
    rewrite !andb_true_iff, !strs_eqb_eq. intros [-> He] [-> He']. split; [done|].
    simpl in Wv, Ww, Wx. rewrite list_all_Forall in Wv, Ww, Wx.
    eapply (list_eqb_trans _ (list_all value_wf)); [|exact Ww|exact Wx|exact He|exact He'].
    rewrite list.Forall_forall in *. intros row Hrow y z Hy Hz.
    apply values_trans; [|by apply Wv|done|done]. rewrite list.Forall_forall. intros a Ha.
    specialize (IH row Hrow). rewrite list.Forall_forall in IH. exact (IH a Ha).
Qed.

(** ** Annotations *)

Lemma nominal_matches_congr id ts id' ts' rid rts :
  NominalTypeId_eqb id id' = true → list_eqb ValueType_eqb ts ts' = true →
  nominal_runtime_type_matches id' ts' rid rts = true →
  nominal_runtime_type_matches id ts rid rts = true.
Proof.
  unfold nominal_runtime_type_matches. rewrite !andb_true_iff, !NominalTypeId_eqb_key.
  intros Hi Ht [Hi' Ht']. split; [congruence|exact (types_eqb_trans _ _ _ Ht Ht')].
Qed.

Lemma accepts_congr t u (v : Value) :
  ValueType_eqb t u = true → accepts u v = true → accepts t v = true.
Proof.
  revert u v. induction t as [t Ht|t IH|id ts _] using ValueType_nested_ind; intros u v.
  - destruct t, u; try done; simpl; try done; by destruct v.
  - destruct u; try done. simpl. destruct v; try done. rewrite !forallb_forall. eauto.
  - destruct u; try done. simpl. rewrite andb_true_iff. intros [Hi Hl].
    destruct v; try done; by apply nominal_matches_congr.
Qed.

(** ** Tables *)

Definition table_wf (t : Table RuntimeError) : Prop :=
  NoDup (columns t) ∧ Forall (λ cells, length cells = length (columns t)) (rows t).

Lemma check_columns_spec index checked cols :
  length checked = index → NoDup checked →
  match check_columns index checked cols with
  | Ok out => out = checked ++ cols ∧ NoDup out
  | Err (DuplicateColumn c i) => index ≤ i ∧ cols !! (i - index) = Some c ∧
      c ∈ checked ++ take (i - index) cols ∧ NoDup (checked ++ take (i - index) cols)
  | _ => False
  end.
Proof.
  revert index checked. induction cols as [|c cols IH]; intros index checked Hl Hnd; simpl.
  { by rewrite app_nil_r. }
  destruct (existsb _ checked) eqn:He.
  - apply existsb_exists in He as (x & Hx & ->%str_eqb_eq). apply list_elem_of_In in Hx.
    rewrite Nat.sub_diag. simpl. rewrite app_nil_r. auto.
  - assert (c ∉ checked) as Hc.
    { intros Hc. apply not_true_iff_false in He. apply He, existsb_exists. exists c.
      split; [by apply list_elem_of_In|by apply str_eqb_eq]. }
    specialize (IH (S index) (checked ++ [c])). rewrite length_app in IH. simpl in IH.
    specialize (IH ltac:(lia)).
    assert (NoDup (checked ++ [c])) as Hnd'.
    { apply NoDup_app. split_and!; [done| |apply NoDup_singleton].
      intros x Hx ->%list_elem_of_singleton. done. }
    specialize (IH Hnd'). destruct (check_columns _ _ _) as [out|[d i|]|]; try done.
    + rewrite <- app_assoc in IH. done.
    + destruct IH as (Hi & Hl' & Hin & Hnd2). replace (i - index) with (S (i - S index)) by lia.
      simpl. rewrite <- app_assoc in Hin, Hnd2. simpl in Hin, Hnd2. split_and!; [lia|done|done|done].
Qed.

Lemma check_rows_spec row width (rs : list (list Value)) :
  match check_rows row width rs with
  | Ok out => out = rs ∧ Forall (λ cells, length cells = width) rs
  | Err (RowWidth r e a) => row ≤ r ∧ e = width ∧ a ≠ width ∧
      (∃ cells, rs !! (r - row) = Some cells ∧ length cells = a) ∧
      Forall (λ cells, length cells = width) (take (r - row) rs)
  | _ => False
  end.
Proof.
  revert row. induction rs as [|cells rs IH]; intros row; simpl; [done|].
  destruct (length cells =? width) eqn:Hw; simpl.
  - apply Nat.eqb_eq in Hw. specialize (IH (S row)).
    destruct (check_rows _ _ _) as [out|[|r e a]|]; simpl; try done.
    + destruct IH as [-> IH]. split; [done|]. by constructor.
    + destruct IH as (Hr & He & Ha & Hc & Hall). replace (r - row) with (S (r - S row)) by lia.
      simpl. split_and!; [lia|done|done|done|by constructor].
  - apply Nat.eqb_neq in Hw. rewrite Nat.sub_diag. simpl. split_and!; eauto.
Qed.

Lemma add_column_spec cols key :
  NoDup cols → NoDup (add_column cols key) ∧ ∀ c, c ∈ add_column cols key ↔ c ∈ cols ∨ c = key.
Proof.
  intros Hnd. unfold add_column. destruct (existsb _ cols) eqn:He.
  - apply existsb_exists in He as (x & Hx & ->%str_eqb_eq). apply list_elem_of_In in Hx.
    split; [done|]. intros c. split; [by left|]. by intros [| ->].
  - split.
    + apply NoDup_app. split_and!; [done| |apply NoDup_singleton].
      intros c Hc ->%list_elem_of_singleton. apply not_true_iff_false in He. apply He.
      apply existsb_exists. exists key. split; [by apply list_elem_of_In|by apply str_eqb_eq].
    + intros c. by rewrite elem_of_app, list_elem_of_singleton.
Qed.

Lemma add_columns_spec keys cols :
  NoDup cols →
  NoDup (foldl add_column cols keys) ∧
  ∀ c, c ∈ foldl add_column cols keys ↔ c ∈ cols ∨ c ∈ keys.
Proof.
  revert cols. induction keys as [|k keys IH]; intros cols Hnd; simpl.
  { split; [done|]. intros c. rewrite elem_of_nil. tauto. }
  destruct (add_column_spec cols k Hnd) as [Hnd' Hin]. destruct (IH _ Hnd') as [H1 H2].
  split; [done|]. intros c. rewrite H2, Hin, elem_of_cons. tauto.
Qed.

Lemma union_columns_spec (records : list (list (str * Value))) :
  NoDup (union_columns records) ∧
  ∀ c, c ∈ union_columns records ↔ ∃ r, r ∈ records ∧ c ∈ r.*1.
Proof.
  unfold union_columns.
  assert (∀ cols : list str, NoDup cols →
    NoDup (foldl (λ cols record, foldl add_column cols record.*1) cols records) ∧
    ∀ c, c ∈ foldl (λ cols record, foldl add_column cols record.*1) cols records ↔
      c ∈ cols ∨ ∃ r, r ∈ records ∧ c ∈ r.*1) as H.
  { induction records as [|r records IH]; intros cols Hnd; simpl.
    - split; [done|]. intros c. split; [by left|]. intros [|(r & Hr & _)]; [done|].
      by apply not_elem_of_nil in Hr.
    - destruct (add_columns_spec r.*1 cols Hnd) as [Hnd' Hin]. destruct (IH _ Hnd') as [H1 H2].
      split; [done|]. intros c. rewrite H2, Hin. setoid_rewrite elem_of_cons. naive_solver. }
  destruct (H [] ltac:(constructor)) as [H1 H2]. split; [done|]. intros c. rewrite H2, elem_of_nil.
  tauto.
Qed.

Lemma position_of_spec (column : str) cols :
  match position_of (λ candidate, str_eqb candidate column) cols with
  | Some i => cols !! i = Some column
  | None => column ∉ cols
  end.
Proof.
  induction cols as [|c cols IH]; simpl; [apply not_elem_of_nil|].
  destruct (str_eqb c column) eqn:E; [by apply str_eqb_eq in E as ->|].
  assert (c ≠ column) as Hc by (intros ->; by rewrite (proj2 (str_eqb_eq column column)) in E).
  destruct (position_of _ cols); simpl; [done|]. rewrite not_elem_of_cons. auto.
Qed.

Lemma Table_get_spec {E} (t : Table RuntimeError) row column :
  table_wf t →
  ∃ v, Table_get (E:=E) t row column = Ok v ∧
    (is_Some v ↔ column ∈ columns t ∧ row < length (rows t)) ∧
    ∀ i cells, columns t !! i = Some column → rows t !! row = Some cells → v = cells !! i.
Proof.
  intros [Hnd Hw]. unfold Table_get, column_index.
  pose proof (position_of_spec column (columns t)) as Hp.
  destruct (position_of _ _) as [i|].
  - destruct (rows t !! row) as [cells|] eqn:Hr.
    + rewrite list.Forall_forall in Hw. apply list_elem_of_lookup_2 in Hr as Hin.
      specialize (Hw cells Hin). apply lookup_lt_Some in Hp as Hi.
      destruct (lookup_lt_is_Some_2 cells i) as [v Hv]; [lia|]. rewrite Hv.
      exists (Some v). split_and!; [done| |].
      * split; [|by eexists]. intros _. split; [by eapply list_elem_of_lookup_2|].
        by apply lookup_lt_Some in Hr.
      * intros j cs Hj [= <-]. by rewrite (NoDup_lookup _ _ _ _ Hnd Hj Hp), Hv.
    + exists None. split_and!; [done| |done]. apply lookup_ge_None in Hr. split; [by intros []|lia].
  - exists None. split_and!; [done| |].
    + split; [by intros []|]. by intros [? _].
    + intros j cs Hj. by apply list_elem_of_lookup_2 in Hj.
Qed.

End Facts.

(** ** Theorems *)

(** Equality of values is an equivalence relation, as the program claims by
    implementing [Eq]: also across the comparison of an integer with the float
    that denotes it, where transitivity rests on floats being finite with one
    zero and on integers fitting an [i64]. *)
Theorem value_equality {RuntimeError} (error_eqb : RuntimeError → RuntimeError → bool) :
  equivalence_on (λ _, True) error_eqb → equivalence_on value_wf (value_eqb error_eqb).
Proof.
  intros He. split_and!.
  - by apply value_eqb_refl.
  - by apply value_eqb_sym.
  - intros v w x Wv Ww Wx H1 H2. exact (value_eqb_trans error_eqb He v Wv w x Ww Wx H1 H2).
Qed.

(** The static check between annotations is sound for the dynamic one: a
    value of a type that [expected] accepts as a type is accepted by [expected]. *)
Theorem accepts_type_sound {RuntimeError} (expected actual : ValueType) (v : Value RuntimeError) :
  accepts_type expected actual = true → accepts actual v = true → accepts expected v = true.
Proof.
  revert actual v. induction expected as [t Ht|t IH|id ts _] using ValueType_nested_ind; intros u v.
  - intros H Hv. destruct t; try done; by eapply accepts_congr.
  - destruct u; try done. simpl. destruct v; try done. rewrite !forallb_forall. eauto.
  - apply accepts_congr.
Qed.

(** A table is rectangular with unique columns by construction.
    [Table::new] accepts exactly such input and otherwise reports the first
    repeated column or the first row of the wrong width; [from_records] always
    gives one, with exactly the keys of the records as columns and [null] for
    an absent field; and [Table::get] never indexes out of a row. *)
Theorem tables_are_rectangular {RuntimeError} :
  (∀ cols (rs : list (list (Value RuntimeError))),
    match Table_new cols rs with
    | Ok t => t = mkTable cols rs ∧ table_wf t
    | Err (DuplicateColumn c i) =>
        cols !! i = Some c ∧ c ∈ take i cols ∧ NoDup (take i cols)
    | Err (RowWidth r e a) =>
        NoDup cols ∧ e = length cols ∧ a ≠ e ∧
        (∃ cells, rs !! r = Some cells ∧ length cells = a) ∧
        Forall (λ cells, length cells = e) (take r rs)
    | Panic => False
    end) ∧
  (∀ records : list (list (str * Value RuntimeError)),
    let t := Table_from_records records in
    table_wf t ∧ (∀ c, c ∈ columns t ↔ ∃ r, r ∈ records ∧ c ∈ r.*1) ∧
    ∀ row r c, records !! row = Some r → c ∈ columns t →
      Table_get (E:=Empty_set) t row c = Ok (Some (default VNull (Record_get r c)))) ∧
  (∀ (t : Table RuntimeError) row c, table_wf t →
    ∃ v, Table_get (E:=Empty_set) t row c = Ok v ∧
      (is_Some v ↔ c ∈ columns t ∧ row < length (rows t))).
Proof.
  split_and!.
  - intros cols rs. unfold Table_new.
    pose proof (check_columns_spec 0 [] cols eq_refl (NoDup_nil_2 (A:=str))) as Hc.
    destruct (check_columns 0 [] cols) as [out|[c i|]|]; simpl; try done.
    + destruct Hc as [-> Hnd]. simpl in Hnd. pose proof (check_rows_spec 0 (length cols) rs) as Hr.
      simpl. destruct (check_rows 0 (length cols) rs) as [shaped|[|r e a]|]; simpl; try done.
      * destruct Hr as [-> Hall]. done.
      * rewrite Nat.sub_0_r in Hr. destruct Hr as (_ & -> & Ha & He & Hall). done.
    + rewrite Nat.sub_0_r in Hc. tauto.
  - intros records t. destruct (union_columns_spec records) as [Hnd Hin].
    assert (table_wf t) as Hwf.
    { split; [done|]. apply list.Forall_forall. intros cells Hcells.
      apply list_elem_of_fmap in Hcells as (r & -> & _). by rewrite length_fmap. }
    split_and!; [done|done|]. intros row r c Hr Hc.
    destruct (Table_get_spec (E:=Empty_set) t row c Hwf) as (v & -> & _ & Hv).
    apply list_elem_of_lookup in Hc as Hi. destruct Hi as [i Hi]. do 2 f_equal.
    rewrite (Hv i ((λ column, default VNull (Record_get r column)) <$> columns t) Hi).
    + by rewrite list_lookup_fmap, Hi.
    + unfold t, Table_from_records. simpl. by rewrite list_lookup_fmap, Hr.
  - intros t row c Hwf. destruct (Table_get_spec (E:=Empty_set) t row c Hwf) as (v & Hg & Hs & _).
    exists v. done.
Qed.

(** ** Witnesses *)

Definition unit_eqb (a b : unit) : bool := true.

Lemma unit_equivalence : equivalence_on (λ _, True) unit_eqb.
Proof. split_and!; done. Qed.

(** The bits of [1.0]. *)
Definition one_float : FiniteFloat := 0x3FF0000000000000%Z.

Lemma value_equality_witness :
  value_eqb unit_eqb (VList [VInt 1; VString (bs "a")]) (VList [VFloat one_float; VString (bs "a")]) = true ∧
  equivalence_on value_wf (value_eqb unit_eqb).
Proof. split; [by vm_compute|]. apply (value_equality unit_eqb unit_equivalence). Defined.

Lemma accepts_type_sound_witness :
  accepts (TList TAny) (VList [VInt 1 : Value unit]) = true.
Proof. apply (accepts_type_sound (TList TAny) (TList TInt)); by vm_compute. Defined.

Definition sample_records : list (list (str * Value unit)) :=
  [[(bs "name", VString (bs "x"))]; [(bs "size", VInt 3)]].

Lemma tables_are_rectangular_witness :
  Table_get (E:=Empty_set) (Table_from_records sample_records) 0 (bs "size") = Ok (Some VNull).
Proof.
  destruct (tables_are_rectangular (RuntimeError:=unit)) as (_ & H & _).
  destruct (H sample_records) as (_ & _ & Hget).
  apply (Hget 0 [(bs "name", VString (bs "x"))] (bs "size")); [done|].
  apply (bool_decide_unpack _). vm_compute. exact I.
Defined.
