(* ===== verification/Float.v ===== *)
(** * Binary64 arithmetic

    The operations of [f64] the runtime uses, on the standard library's
    specification of IEEE 754 arithmetic, and the conversions to and from the
    bits a [FiniteFloat] holds. *)
From Stdlib Require Export SpecFloat.
From S2P Require Import Prelude Path Status Value.

Local Open Scope Z_scope.

Abbreviation f64 := spec_float (only parsing).

Definition PREC : Z := 53.
Definition EMAX : Z := 1024.

(** ** Bits *)

Definition f64_from_bits (bits : Z) : f64 :=
  if f64_exponent bits =? 2047 then
    if f64_fraction bits =? 0 then S754_infinity (f64_negative bits) else S754_nan
  else
    match f64_mantissa bits with
    | Zpos m => S754_finite (f64_negative bits) m (f64_scale bits)
    | _ => S754_zero (f64_negative bits)
    end.

Definition sign_bit (s : bool) : Z := if s then 2 ^ 63 else 0.

Definition f64_to_bits (x : f64) : Z :=
  match x with
  | S754_zero s => sign_bit s
  | S754_infinity s => sign_bit s + 2047 * 2 ^ 52
  | S754_nan => 2047 * 2 ^ 52 + 2 ^ 51
  | S754_finite s m e =>
    if Z.pos m <? 2 ^ 52 then sign_bit s + Z.pos m
    else sign_bit s + (e + 1075) * 2 ^ 52 + (Z.pos m - 2 ^ 52)
  end.

(** ** Arithmetic *)

Definition f64_add : f64 → f64 → f64 := SFadd PREC EMAX.
Definition f64_sub : f64 → f64 → f64 := SFsub PREC EMAX.
Definition f64_mul : f64 → f64 → f64 := SFmul PREC EMAX.
Definition f64_div : f64 → f64 → f64 := SFdiv PREC EMAX.
Definition f64_sqrt : f64 → f64 := SFsqrt PREC EMAX.
Definition f64_neg : f64 → f64 := SFopp.
Definition f64_abs : f64 → f64 := SFabs.

(** [integer as f64]: nearest, ties to even. *)
Definition f64_of_int (i : Z) : f64 := binary_normalize PREC EMAX i 0 false.

Definition f64_lt (a b : f64) : bool := SFltb a b.
Definition f64_le (a b : f64) : bool := SFleb a b.
Definition f64_eq (a b : f64) : bool := SFeqb a b.

(** [partial_cmp]. *)
Definition f64_partial_cmp (a b : f64) : option comparison := SFcompare a b.

(** ** Integral parts *)

(** Toward zero: the bits of the mantissa below the point are cleared. *)
Definition f64_trunc (x : f64) : f64 :=
  match x with
  | S754_finite s m e =>
    if 0 <=? e then x
    else
      match Z.pos m / 2 ^ (- e) * 2 ^ (- e) with
      | Zpos m => S754_finite s m e
      | _ => S754_zero s
      end
  | _ => x
  end.

(** The other directions round the magnitude to an integer [k]. *)
Definition f64_integral (k : bool → Z → Z → Z) (x : f64) : f64 :=
  match x with
  | S754_finite s m e =>
    if 0 <=? e then x
    else
      let i := k s (Z.pos m) (2 ^ (- e)) in
      binary_normalize PREC EMAX (if s then - i else i) 0 s
  | _ => x
  end.

Definition round_up (m unit : Z) : Z := - (- m / unit).

Definition f64_floor : f64 → f64 := f64_integral (λ s m u, if s then round_up m u else m / u).
Definition f64_ceil : f64 → f64 := f64_integral (λ s m u, if s then m / u else round_up m u).
(** Halves away from zero. *)
Definition f64_round : f64 → f64 := f64_integral (λ _ m u, (2 * m + u) / (2 * u)).

(** The integer an integral float denotes. *)
Definition f64_integer (x : f64) : Z :=
  match x with
  | S754_finite s m e =>
    let i := if 0 <=? e then Z.pos m * 2 ^ e else Z.pos m / 2 ^ (- e) in
    if s then - i else i
  | _ => 0
  end.

(** [as i128], [as i64]: saturating, [0] for NaN. *)
Definition saturate (width : Z) (z : Z) : Z :=
  Z.max (- 2 ^ (width - 1)) (Z.min (2 ^ (width - 1) - 1) z).

Definition f64_as_int (width : Z) (x : f64) : Z :=
  match x with
  | S754_infinity s => if s then - 2 ^ (width - 1) else 2 ^ (width - 1) - 1
  | _ => saturate width (f64_integer (f64_trunc x))
  end.

Definition f64_zero : f64 := S754_zero false.
(** [9_223_372_036_854_775_808.0]. *)
Definition TWO_POW_63 : f64 := S754_finite false (2 ^ 52)%positive 11.

Example two_pow_63 : f64_of_int (2 ^ 63) = TWO_POW_63.
Proof. vm_compute. reflexivity. Qed.
Example two_and_a_half : f64_from_bits 0x4004000000000000 = S754_finite false (5 * 2 ^ 50)%positive (-51).
Proof. vm_compute. reflexivity. Qed.
Example rounding : f64_to_bits <$> [f64_floor (f64_from_bits 0xBFE0000000000000);
    f64_ceil (f64_from_bits 0xBFE0000000000000); f64_round (f64_from_bits 0xBFE0000000000000);
    f64_trunc (f64_from_bits 0x4004000000000000); f64_of_int (2 ^ 53 + 1)] =
  [0xBFF0000000000000; 0x8000000000000000; 0xBFF0000000000000; 0x4000000000000000;
   0x4340000000000000].
Proof. vm_compute. reflexivity. Qed.
