(* ===== verification/FloatFacts.v ===== *)
(** * Properties of binary64: comparison, truncation and fractional parts are
    exact *)
From S2P Require Import Prelude Path Status Value ValueFacts Float.

Local Open Scope Z_scope.

(** ** What a float denotes, in units of [2 ^ -1074] *)

Definition f64_scaled (x : f64) : Z :=
  match x with
  | S754_finite s m e => (if s then -1 else 1) * Z.pos m * 2 ^ (e + 1074)
  | _ => 0
  end.

Definition canonical (x : f64) : Prop :=
  match x with
  | S754_finite _ m e => -1074 ≤ e ≤ 971 ∧ Z.pos m < 2 ^ 53 ∧ (e = -1074 ∨ 2 ^ 52 ≤ Z.pos m)
  | S754_zero _ => True
  | _ => False
  end.

Lemma from_bits_canonical bits : float_wf bits → canonical (f64_from_bits bits).
Proof.
  intros (Hb & He & _). destruct (f64_fields bits Hb) as (_ & Hexp & Hf).
  unfold f64_from_bits. rewrite (proj2 (Z.eqb_neq _ _) He).
  destruct (f64_mantissa bits) as [|m|m] eqn:Em; simpl; [done| |done].
  unfold f64_mantissa, f64_scale in *. destruct (Z.eqb_spec (f64_exponent bits) 0); lia.
Qed.

Lemma from_bits_scaled bits : float_wf bits → f64_scaled (f64_from_bits bits) = scaled bits.
Proof.
  intros (Hb & He & _). destruct (f64_fields bits Hb) as (_ & Hexp & Hf).
  unfold f64_from_bits, scaled. rewrite (proj2 (Z.eqb_neq _ _) He).
  destruct (f64_mantissa bits) as [|m|m] eqn:Em; simpl; [lia|done|].
  unfold f64_mantissa in *. destruct (Z.eqb_spec (f64_exponent bits) 0); lia.
Qed.

(** A larger exponent means a larger magnitude. *)
Lemma magnitude_lt m1 e1 m2 e2 :
  canonical (S754_finite false m1 e1) → canonical (S754_finite false m2 e2) → e1 < e2 →
  Z.pos m1 * 2 ^ (e1 + 1074) < Z.pos m2 * 2 ^ (e2 + 1074).
Proof.
  simpl. intros (H1 & H2 & _) (H3 & _ & [?|H4]) He; [lia|].
  apply Z.lt_le_trans with (2 ^ 53 * 2 ^ (e1 + 1074)).
  - apply Z.mul_lt_mono_pos_r; [apply Z.pow_pos_nonneg; lia|done].
  - rewrite <- Z.pow_add_r by lia. apply Z.le_trans with (2 ^ 52 * 2 ^ (e2 + 1074)).
    + rewrite <- Z.pow_add_r by lia. apply Z.pow_le_mono_r; lia.
    + apply Z.mul_le_mono_nonneg_r; [apply Z.pow_nonneg; lia|done].
Qed.

Lemma compare_magnitude m1 e1 m2 e2 :
  canonical (S754_finite false m1 e1) → canonical (S754_finite false m2 e2) →
  Z.compare (Z.pos m1 * 2 ^ (e1 + 1074)) (Z.pos m2 * 2 ^ (e2 + 1074)) =
  match Z.compare e1 e2 with Lt => Lt | Gt => Gt | Eq => Pos.compare_cont Eq m1 m2 end.
Proof.
  intros H1 H2. destruct (Z.compare_spec e1 e2) as [->|He|He].
  - change (Pos.compare_cont Eq m1 m2) with (Z.pos m1 ?= Z.pos m2).
    symmetry. apply Zmult_compare_compat_r, Z.lt_gt, Z.pow_pos_nonneg; simpl in *; lia.
  - apply Z.compare_lt_iff. by apply magnitude_lt.
  - apply Z.compare_gt_iff. by apply magnitude_lt.
Qed.

Lemma magnitude_pos m e : canonical (S754_finite false m e) → 0 < Z.pos m * 2 ^ (e + 1074).
Proof. intros H. simpl in H. apply Z.mul_pos_pos; [lia|]. apply Z.pow_pos_nonneg; lia. Qed.

Lemma compare_canonical x y :
  canonical x → canonical y → f64_partial_cmp x y = Some (Z.compare (f64_scaled x) (f64_scaled y)).
Proof.
  intros Hx Hy. unfold f64_partial_cmp, f64_scaled.
  destruct x as [s1|s1| |s1 m1 e1], y as [s2|s2| |s2 m2 e2]; try done; unfold SFcompare; f_equal.
  - pose proof (magnitude_pos m2 e2 Hy). symmetry. destruct s2;
      [apply Z.compare_gt_iff|apply Z.compare_lt_iff]; lia.
  - pose proof (magnitude_pos m1 e1 Hx). symmetry. destruct s1;
      [apply Z.compare_lt_iff|apply Z.compare_gt_iff]; lia.
  - pose proof (magnitude_pos m1 e1 Hx). pose proof (magnitude_pos m2 e2 Hy).
    pose proof (compare_magnitude m1 e1 m2 e2 Hx Hy) as Hc.
    rewrite <- !Z.mul_assoc. destruct s1, s2; symmetry.
    + change (-1) with (- (1)). rewrite !Z.mul_opp_l, !Z.mul_1_l, Z.compare_opp, Z.compare_antisym, Hc.
      by destruct (e1 ?= e2).
    + apply Z.compare_lt_iff. lia.
    + apply Z.compare_gt_iff. lia.
    + by rewrite !Z.mul_1_l, Hc.
Qed.

(** ** Exact truncation *)

(** The units below the point of a float with exponent [e]. *)
Lemma scaled_point m e :
  -1074 ≤ e → e < 0 → Z.pos m * 2 ^ (e + 1074) / 2 ^ 1074 = Z.pos m / 2 ^ (- e).
Proof.
  intros H1 H2. replace (2 ^ 1074) with (2 ^ (- e) * 2 ^ (e + 1074))
    by (rewrite <- Z.pow_add_r by lia; f_equal; lia).
  apply Z.div_mul_cancel_r; apply Z.pow_nonzero; lia.
Qed.

Definition float_trunc (x : f64) : Z := Z.quot (f64_scaled x) (2 ^ 1074).

Lemma quot_signed (s : bool) a b : 0 ≤ a → 0 < b → Z.quot ((if s then -1 else 1) * a) b = (if s then -1 else 1) * (a / b).
Proof.
  intros Ha Hb. destruct s.
  - replace (-1 * a) with (- a) by lia. rewrite Z.quot_opp_l, Z.quot_div_nonneg by lia. ring.
  - by rewrite !Z.mul_1_l, Z.quot_div_nonneg.
Qed.

Lemma trunc_spec x :
  canonical x →
  canonical (f64_trunc x) ∧ f64_scaled (f64_trunc x) = float_trunc x * 2 ^ 1074 ∧
  f64_integer (f64_trunc x) = float_trunc x.
Proof.
  unfold float_trunc. intros Hx. destruct x as [s|s| |s m e]; try done.
  destruct Hx as (He & Hm & Hn). change (f64_scaled (S754_finite s m e)) with
    ((if s then -1 else 1) * Z.pos m * 2 ^ (e + 1074)). unfold f64_trunc.
  rewrite <- !Z.mul_assoc.
  assert (0 < 2 ^ (e + 1074)) as Hp by (apply Z.pow_pos_nonneg; lia).
  rewrite quot_signed by lia. destruct (Z.leb_spec 0 e) as [H0|H0].
  - assert (Z.pos m * 2 ^ (e + 1074) / 2 ^ 1074 = Z.pos m * 2 ^ e) as ->.
    { rewrite (Z.pow_add_r 2 e 1074), Z.mul_assoc by lia. apply Z.div_mul. apply Z.pow_nonzero; lia. }
    split_and!; [done| |].
    + simpl. rewrite (Z.pow_add_r 2 e 1074) by lia. lia.
    + simpl. rewrite (proj2 (Z.leb_le 0 e)) by done. destruct s; lia.
  - rewrite scaled_point by lia. assert (0 < 2 ^ (- e)) as Hu by (apply Z.pow_pos_nonneg; lia).
    pose proof (Z.div_pos (Z.pos m) (2 ^ (- e)) ltac:(lia) Hu) as Hq.
    pose proof (Z.mul_div_le (Z.pos m) (2 ^ (- e)) Hu) as Hle.
    assert (2 ^ (- e) * 2 ^ (e + 1074) = 2 ^ 1074) as Hpow
      by (rewrite <- Z.pow_add_r by lia; f_equal; lia).
    set (q := Z.pos m / 2 ^ (- e)) in *.
    destruct (q * 2 ^ (- e)) as [|m'|m'] eqn:Em; [| |lia].
    + assert (q = 0) as -> by nia. simpl. split_and!; destruct s; done.
    + assert (f64_integer (S754_finite s m' e) = (if s then -1 else 1) * q) as Hi.
      { unfold f64_integer. rewrite (proj2 (Z.leb_gt 0 e)), <- Em, Z.div_mul by lia. destruct s; lia. }
      split_and!; [|simpl; rewrite <- Hpow, <- Em; destruct s; lia|done].
      split_and!; [lia|lia|lia|]. destruct Hn as [|Hn]; [by left|right]. rewrite <- Em.
      assert (- e ≤ 52) as H52.
      { destruct (Z.le_gt_cases (- e) 52) as [|Hgt]; [done|]. exfalso.
        assert (2 ^ 53 ≤ 2 ^ (- e)) by (apply Z.pow_le_mono_r; lia).
        assert (q = 0) by (apply Z.div_small; lia). lia. }
      assert (2 ^ (52 + e) ≤ q) as Hq52.
      { apply Z.div_le_lower_bound; [done|]. rewrite <- Z.pow_add_r by lia.
        replace (- e + (52 + e)) with 52 by lia. done. }
      replace 52 with ((52 + e) + - e) at 1 by lia. rewrite Z.pow_add_r by lia.
      apply Z.mul_le_mono_nonneg_r; lia.
Qed.

(** ** Rounding leaves a short mantissa alone *)

Lemma digits2_pos_size m : Z.pos (digits2_pos m) = Z.log2 (Z.pos m) + 1.
Proof.
  induction m as [m IH|m IH|]; simpl digits2_pos; [| |done]; rewrite Pos2Z.inj_succ, IH.
  - rewrite Pos2Z.inj_xI. rewrite Z.log2_succ_double by lia. lia.
  - rewrite Pos2Z.inj_xO. rewrite Z.log2_double by lia. lia.
Qed.

Lemma digits2_pos_shift m d : Z.pos (digits2_pos (Pos.iter xO m d)) = Z.pos (digits2_pos m) + Z.pos d.
Proof.
  revert m. induction d as [|d IH] using Pos.peano_ind; intros m; [simpl; lia|].
  rewrite Pos.iter_succ. simpl digits2_pos. rewrite Pos2Z.inj_succ, IH. lia.
Qed.

Lemma round_exact s m e :
  Z.pos m < 2 ^ 53 → -1074 ≤ e ≤ 971 →
  ∃ m' e', binary_round PREC EMAX s m e = S754_finite s m' e'.
Proof.
  intros Hm He.
  assert (Z.pos (digits2_pos m) ≤ 53) as Hd.
  { rewrite digits2_pos_size. assert (Z.log2 (Z.pos m) < 53) by (apply Z.log2_lt_pow2; lia). lia. }
  unfold binary_round. set (f := fexp PREC EMAX (Z.pos (digits2_pos m) + e)).
  assert (f = Z.max (Z.pos (digits2_pos m) + e - 53) (-1074)) as Hf by done.
  destruct (shl_align m e f) as [mz ez] eqn:Ea.
  assert (Z.pos (digits2_pos mz) + ez = Z.pos (digits2_pos m) + e ∧ ez = f) as [Hdig ->].
  { unfold shl_align in Ea. destruct (f - e) as [|d|d] eqn:Ed; simplify_eq; [split; lia|lia|].
    rewrite digits2_pos_shift. lia. }
  assert (fexp PREC EMAX (Zdigits2 (Z.pos mz) + f) = f) as Hfix
    by (change (Zdigits2 (Z.pos mz)) with (Z.pos (digits2_pos mz)); by rewrite Hdig).
  assert (shr_fexp PREC EMAX (Z.pos mz) f loc_Exact = (Build_shr_record (Z.pos mz) false false, f)) as Hshr.
  { unfold shr_fexp. rewrite Hfix, Z.sub_diag. done. }
  unfold binary_round_aux. rewrite Hshr. cbn [shr_m loc_of_shr_record round_nearest_even].
  rewrite Hshr. cbn [shr_m].
  change (EMAX - PREC) with 971. rewrite (proj2 (Z.leb_le f 971)) by lia. eauto.
Qed.

Lemma normalize_sign z e szero :
  z ≠ 0 → Z.abs z < 2 ^ 53 → -1074 ≤ e ≤ 971 →
  f64_partial_cmp (binary_normalize PREC EMAX z e szero) f64_zero = Some (Z.compare z 0).
Proof.
  intros Hz Hm He. destruct z as [|m|m]; [done|..]; unfold binary_normalize.
  - destruct (round_exact false m e) as (m' & e' & ->); [lia|done|]. done.
  - destruct (round_exact true m e) as (m' & e' & ->); [lia|done|]. done.
Qed.

(** The fractional part has the sign of the difference. *)
Lemma fraction_sign x :
  canonical x →
  f64_partial_cmp (f64_sub x (f64_trunc x)) f64_zero =
    Some (Z.compare (f64_scaled x) (float_trunc x * 2 ^ 1074)).
Proof.
  intros Hx. destruct (trunc_spec x Hx) as (Hc & Ht & _). rewrite <- Ht. clear Ht.
  destruct x as [s|s| |s m e]; try done.
  { by destruct s. }
  destruct Hx as (He & Hm & Hn). unfold f64_trunc in *.
  assert (0 < 2 ^ (e + 1074)) as Hp by (apply Z.pow_pos_nonneg; lia).
  assert (∀ m', canonical (S754_finite s m' e) → Z.pos m' ≤ Z.pos m →
    f64_partial_cmp (f64_sub (S754_finite s m e) (S754_finite s m' e)) f64_zero =
    Some (Z.compare (f64_scaled (S754_finite s m e)) (f64_scaled (S754_finite s m' e)))) as Hsub.
  { intros m' Hc' Hle. unfold f64_sub, SFsub. rewrite Z.min_id.
    assert (∀ k, shl_align k e e = (k, e)) as Hal by (intros k; unfold shl_align; by rewrite Z.sub_diag).
    rewrite !Hal. cbn [fst].
    assert (Z.sub (cond_Zopp s (Z.pos m)) (cond_Zopp s (Z.pos m')) =
      (if s then -1 else 1) * (Z.pos m - Z.pos m')) as -> by (unfold cond_Zopp; destruct s; lia).
    unfold f64_scaled. rewrite <- !Z.mul_assoc.
    destruct (Z.eq_dec (Z.pos m) (Z.pos m')) as [Heq|Hne].
    - by rewrite Heq, Z.sub_diag, Z.mul_0_r, Z.compare_refl.
    - rewrite normalize_sign; [|destruct s; lia..]. f_equal.
      destruct s.
      + trans Lt; [apply Z.compare_lt_iff; lia|symmetry; apply Z.compare_lt_iff; nia].
      + trans Gt; [apply Z.compare_gt_iff; lia|symmetry; apply Z.compare_gt_iff; nia]. }
  destruct (Z.leb_spec 0 e) as [H0|H0]; [by apply Hsub|].
  assert (0 < 2 ^ (- e)) as Hu by (apply Z.pow_pos_nonneg; lia).
  pose proof (Z.mul_div_le (Z.pos m) (2 ^ (- e)) Hu) as Hle.
  pose proof (Z.div_pos (Z.pos m) (2 ^ (- e)) ltac:(lia) Hu) as Hq.
  destruct (Z.pos m / 2 ^ (- e) * 2 ^ (- e)) as [|m'|m'] eqn:Em; [|apply Hsub; [done|lia]|lia].
  unfold f64_scaled. rewrite <- Z.mul_assoc. destruct s.
  - trans (Some Lt); [done|f_equal]. symmetry. apply Z.compare_lt_iff. nia.
  - trans (Some Gt); [done|f_equal]. symmetry. apply Z.compare_gt_iff. nia.
Qed.
