(* ===== verification/Operation.v ===== *)
(** * Operators on values ([opaal-runtime/src/operation.rs], first part)

    Arithmetic, comparison, membership, indexing and conversion of [Value]s.
    [i64] is [Z] within its range: what would leave it is an error of the
    operation, or where Rust itself stops ([%] of the least integer by minus
    one) a panic. *)
From S2P Require Import Prelude Utf8 Source Path Order Status Value Float.

Local Open Scope res_scope.
Local Open Scope Z_scope.

(** ** Machine integers *)

Definition I64_MIN : Z := - 2 ^ 63.
Definition I64_MAX : Z := 2 ^ 63 - 1.
Definition in_i64 (z : Z) : bool := (I64_MIN <=? z) && (z <=? I64_MAX).
Definition checked (z : Z) : option Z := if in_i64 z then Some z else None.

Definition checked_add (a b : Z) : option Z := checked (a + b).
Definition checked_sub (a b : Z) : option Z := checked (a - b).
Definition checked_mul (a b : Z) : option Z := checked (a * b).
Definition checked_neg (a : Z) : option Z := checked (- a).
Definition checked_abs (a : Z) : option Z := checked (Z.abs a).
Definition checked_div (a b : Z) : option Z := if b =? 0 then None else checked (Z.quot a b).

(** The operator [%] panics on a zero divisor and on overflow of the quotient. *)
Definition i64_rem {E} (a b : Z) : res E Z :=
  if (b =? 0) || negb (in_i64 (Z.quot a b)) then Panic else Ok (Z.rem a b).

(** ** Errors *)

Inductive OperationError :=
| InvalidArgument (operation message : str)
| UnsupportedOperands (operator : str) (operands : list str)
| HostContextRequired (operation : str)
| IntegerOverflow (operator : str)
| NonFiniteFloat
| DivisionByZero (operator : str)
| IndexOutOfRange (index : Z) (len : nat)
| NegativeIndex (index : Z)
| MissingKey (key : str)
| MissingField (name : str)
| ConversionOutOfRange (value : f64)
| NoMatchingOverload (operation input : str)
| LengthOverflow (operation : str)
| GenericArity (operation : str) (expected actual : nat).

Definition ok_or {E A} (o : option A) (e : E) : res E A :=
  match o with Some a => Ok a | None => Err e end.

(** ** What member access reads of a runtime error

    The accessors of [RuntimeError], [ErrorLabel] and [CallFrame]; a frame's
    callee has a name unless it is a closure. *)
Class ErrorView (RuntimeError : Type) := {
  error_category : RuntimeError → str;
  error_message : RuntimeError → str;
  error_source : RuntimeError → option str;
  error_span : RuntimeError → Span;
  error_labels : RuntimeError → list (str * Span * str);
  error_frames : RuntimeError → list (str * Span * option str);
  error_cause : RuntimeError → option RuntimeError;
  error_status : RuntimeError → option Status
}.

Section Operations.
Context {RuntimeError : Type} `{!ErrorView RuntimeError}.
Context (error_eqb : RuntimeError → RuntimeError → bool).

Notation Value := (Value RuntimeError).
Notation result A := (res OperationError A).

Definition unsupported (operator : str) (operands : list Value) : OperationError :=
  UnsupportedOperands operator (family_name <$> operands).

(** ** Arithmetic *)

Inductive Numeric := Ints (a b : Z) | Floats (a b : f64).

Definition numeric_pair (operator : str) (left right : Value) : result Numeric :=
  match left, right with
  | VInt a, VInt b => Ok (Ints a b)
  | VInt a, VFloat b => Ok (Floats (f64_of_int a) (f64_from_bits b))
  | VFloat a, VInt b => Ok (Floats (f64_from_bits a) (f64_of_int b))
  | VFloat a, VFloat b => Ok (Floats (f64_from_bits a) (f64_from_bits b))
  | _, _ => Err (unsupported operator [left; right])
  end.

Definition float_value (value : f64) : result Value :=
  match FiniteFloat_new (f64_to_bits value) with
  | Ok f => Ok (VFloat f)
  | _ => Err NonFiniteFloat
  end.

Definition int_value (operator : str) (value : option Z) : result Value :=
  ok_or (VInt <$> value) (IntegerOverflow operator).

Definition add (left right : Value) : result Value :=
  let* pair := numeric_pair (bs "+") left right in
  match pair with
  | Ints a b => int_value (bs "+") (checked_add a b)
  | Floats a b => float_value (f64_add a b)
  end.

Definition subtract (left right : Value) : result Value :=
  let* pair := numeric_pair (bs "-") left right in
  match pair with
  | Ints a b => int_value (bs "-") (checked_sub a b)
  | Floats a b => float_value (f64_sub a b)
  end.

Definition multiply (left right : Value) : result Value :=
  let* pair := numeric_pair (bs "*") left right in
  match pair with
  | Ints a b => int_value (bs "*") (checked_mul a b)
  | Floats a b => float_value (f64_mul a b)
  end.

Definition floored_div (a b : Z) : result Z :=
  if b =? 0 then Err (DivisionByZero (bs "/"))
  else
    let* quotient := ok_or (checked_div a b) (IntegerOverflow (bs "/")) in
    let* remainder := i64_rem a b in
    if negb (remainder =? 0) && negb (Bool.eqb (remainder <? 0) (b <? 0))
    then ok_or (checked_sub quotient 1) (IntegerOverflow (bs "/"))
    else Ok quotient.

(** [remainder + b] is the wrapping or checked addition of the build; out of
    range it is a panic here. *)
Definition floored_rem (a b : Z) : result Z :=
  if b =? 0 then Err (DivisionByZero (bs "%"))
  else
    let* remainder := i64_rem a b in
    if negb (remainder =? 0) && negb (Bool.eqb (remainder <? 0) (b <? 0))
    then expect_some (checked_add remainder b)
    else Ok remainder.

Definition divide (left right : Value) : result Value :=
  let* pair := numeric_pair (bs "/") left right in
  match pair with
  | Ints a b => let* q := floored_div a b in Ok (VInt q)
  | Floats a b =>
    if f64_eq b f64_zero then Err (DivisionByZero (bs "/"))
    else float_value (f64_div a b)
  end.

Definition remainder (left right : Value) : result Value :=
  let* pair := numeric_pair (bs "%") left right in
  match pair with
  | Ints a b => let* r := floored_rem a b in Ok (VInt r)
  | Floats a b =>
    if f64_eq b f64_zero then Err (DivisionByZero (bs "%"))
    else float_value (f64_sub a (f64_mul b (f64_floor (f64_div a b))))
  end.

Definition negate (value : Value) : result Value :=
  match value with
  | VInt a => int_value (bs "-") (checked_neg a)
  | VFloat a => float_value (f64_neg (f64_from_bits a))
  | _ => Err (unsupported (bs "-") [value])
  end.

Definition plus (value : Value) : result Value :=
  match value with
  | VInt _ | VFloat _ => Ok value
  | _ => Err (unsupported (bs "+") [value])
  end.

(** ** Comparison *)

Definition compare_int_float (integer : Z) (float : f64) : comparison :=
  if f64_le TWO_POW_63 float then Lt
  else if f64_lt float (f64_neg TWO_POW_63) then Gt
  else
    let truncated := f64_trunc float in
    let floor_int := f64_as_int 128 truncated in
    match Z.compare integer floor_int with
    | Eq =>
      let fraction := f64_sub float truncated in
      if f64_lt f64_zero fraction then Lt
      else if f64_lt fraction f64_zero then Gt
      else Eq
    | other => other
    end.

(** The first pair that differs decides, then the lengths. *)
Definition order_pairs (order : Value → Value → result comparison)
    : list Value → list Value → result (option comparison) :=
  fix go lefts rights :=
    match lefts, rights with
    | a :: lefts, b :: rights =>
      let* c := order a b in
      match c with
      | Eq => go lefts rights
      | other => Ok (Some other)
      end
    | _, _ => Ok None
    end.

Definition order_lists (order : Value → Value → result comparison) (left right : list Value)
    : result comparison :=
  let* decided := order_pairs order left right in
  match decided with
  | Some c => Ok c
  | None => Ok (Nat.compare (length left) (length right))
  end.

Fixpoint order (left right : Value) : result comparison :=
  match left, right with
  | VInt a, VInt b => Ok (Z.compare a b)
  | VInt a, VFloat b => Ok (compare_int_float a (f64_from_bits b))
  | VFloat a, VInt b => Ok (CompOpp (compare_int_float b (f64_from_bits a)))
  | VFloat a, VFloat b => expect_some (f64_partial_cmp (f64_from_bits a) (f64_from_bits b))
  | VString a, VString b => Ok (bytes_compare a b)
  | VBytes a, VBytes b => Ok (bytes_compare a b)
  | VPath a, VPath b => Ok (bytes_compare a b)
  | VDuration a, VDuration b => Ok (Z.compare a b)
  | VByteSize a, VByteSize b => Ok (Z.compare a b)
  | VList a, VList b => order_lists order a b
  | _, _ => Err (unsupported (bs "<") [left; right])
  end.

Definition comparison_eqb (a b : comparison) : bool :=
  match a, b with Lt, Lt | Eq, Eq | Gt, Gt => true | _, _ => false end.

Definition less (left right : Value) : result Value :=
  let* ordering := order left right in Ok (VBool (comparison_eqb ordering Lt)).
Definition less_equal (left right : Value) : result Value :=
  let* ordering := order left right in Ok (VBool (negb (comparison_eqb ordering Gt))).
Definition greater (left right : Value) : result Value :=
  let* ordering := order left right in Ok (VBool (comparison_eqb ordering Gt)).
Definition greater_equal (left right : Value) : result Value :=
  let* ordering := order left right in Ok (VBool (negb (comparison_eqb ordering Lt))).

Definition equal (left right : Value) : Value := VBool (value_eqb error_eqb left right).
Definition not_equal (left right : Value) : Value := VBool (negb (value_eqb error_eqb left right)).

(** ** Membership, indexing, fields *)

(** [str::contains]. *)
Fixpoint str_contains (text pattern : str) : bool :=
  starts_with pattern text ||
  match text with [] => false | _ :: text => str_contains text pattern end.

Definition member (element container : Value) : result Value :=
  match container, element with
  | VRange range, VInt value => Ok (VBool (Range_contains range value))
  | VList items, _ => Ok (VBool (existsb (λ item, value_eqb error_eqb item element) items))
  | VString text, VString substring => Ok (VBool (str_contains text substring))
  | VRecord entries, VString key => Ok (VBool (bool_decide (is_Some (Record_get entries key))))
  | _, _ => Err (unsupported (bs "in") [element; container])
  end.

Definition checked_position (index : Z) (len : nat) : result nat :=
  if index <? 0 then Err (NegativeIndex index)
  else if (Z.of_nat len <=? index) then Err (IndexOutOfRange index len)
  else Ok (Z.to_nat index).

Definition index (target index : Value) : result Value :=
  match target, index with
  | VList items, VInt position =>
    let* position := checked_position position (length items) in
    expect_some (items !! position)
  | VString text, VInt position =>
    let* position := checked_position position (length (chars text)) in
    let* character := expect_some (chars text !! position) in
    Ok (VString (encode_char character))
  | VRecord entries, VString key => ok_or (Record_get entries key) (MissingKey key)
  | _, _ => Err (unsupported (bs "[]") [target; index])
  end.

(** [Record::new(fields).expect(..)]. *)
Definition record_of (fields : list (str * Value)) : result Value :=
  let* entries := expect (Record_new fields) in Ok (VRecord entries).

Definition position_value (offset : nat) : Value :=
  VInt (if Z.of_nat offset <=? I64_MAX then Z.of_nat offset else I64_MAX).

Definition source_span_fields (source : str) (span : Span) : list (str * Value) :=
  [(bs "name", VString source);
   (bs "start", position_value (span_start span));
   (bs "end", position_value (span_end span))].

Definition source_span_value (source : str) (span : Span) : result Value :=
  record_of (source_span_fields source span).

Fixpoint map_ok {A} (f : A → result Value) (l : list A) : result (list Value) :=
  match l with
  | [] => Ok []
  | x :: l => let* v := f x in let* vs := map_ok f l in Ok (v :: vs)
  end.

Definition or_null {A} (f : A → Value) (o : option A) : Value :=
  match o with Some a => f a | None => VNull end.

Definition error_field (error : RuntimeError) (name : str) : result Value :=
  if str_eqb name (bs "category") then Ok (VString (error_category error))
  else if str_eqb name (bs "message") then Ok (VString (error_message error))
  else if str_eqb name (bs "source") then
    match error_source error with
    | Some source => source_span_value source (error_span error)
    | None => Ok VNull
    end
  else if str_eqb name (bs "labels") then
    let* labels := map_ok (λ '(source, span, message),
      record_of (source_span_fields source span ++ [(bs "message", VString message)]))
      (error_labels error) in
    Ok (VList labels)
  else if str_eqb name (bs "frames") then
    let* frames := map_ok (λ '(source, call_site, callee),
      record_of (source_span_fields source call_site ++
        [(bs "callee", VString (default (bs "<closure>") callee))]))
      (error_frames error) in
    Ok (VList frames)
  else if str_eqb name (bs "cause") then Ok (or_null VError (error_cause error))
  else if str_eqb name (bs "status") then Ok (or_null VStatus (error_status error))
  else Err (MissingField name).

Definition status_field (status : Status) (name : str) : result Value :=
  if str_eqb name (bs "code") then Ok (or_null VInt (code status))
  else if str_eqb name (bs "signal") then
    match signal status with
    | Some signal =>
      record_of [(bs "number", or_null VInt (signal_number signal));
                 (bs "name", or_null VString (signal_name signal))]
    | None => Ok VNull
    end
  else if str_eqb name (bs "ok") then Ok (VBool (Status_is_ok status))
  else if str_eqb name (bs "stages") then Ok (VList (VStatus <$> stages status))
  else if str_eqb name (bs "duration") then Ok (VDuration (duration status))
  else Err (MissingField name).

Definition field (target : Value) (name : str) : result Value :=
  match target with
  | VRecord entries | VNominalRecord _ _ entries =>
      ok_or (Record_get entries name) (MissingField name)
  | VStatus status => status_field status name
  | VError error => error_field error name
  | _ => Err (unsupported (bs ".") [target])
  end.

(** ** Ranges and conversions *)

Definition range (start stop : Value) (inclusive_end : bool) : result Value :=
  match start, stop with
  | VInt start, VInt stop => Ok (VRange (mkRange start stop inclusive_end))
  | _, _ => Err (unsupported (bs "..") [start; stop])
  end.

Definition to_int (value : Value) : result Value :=
  match value with
  | VInt integer => Ok (VInt integer)
  | VFloat float =>
    let truncated := f64_trunc (f64_from_bits float) in
    if f64_le (f64_neg TWO_POW_63) truncated && f64_lt truncated TWO_POW_63
    then Ok (VInt (f64_as_int 64 truncated))
    else Err (ConversionOutOfRange (f64_from_bits float))
  | _ => Err (unsupported (bs "int") [value])
  end.

Definition to_float (value : Value) : result Value :=
  match value with
  | VInt integer =>
    let* f := expect (FiniteFloat_new (f64_to_bits (f64_of_int integer))) in Ok (VFloat f)
  | VFloat float => Ok (VFloat float)
  | _ => Err (unsupported (bs "float") [value])
  end.
End Operations.
