(* ===== verification/OperationFacts.v ===== *)
(** * Properties of operators: integer arithmetic is exact or refused, values are
    ordered by what they denote *)
From S2P Require Import Prelude Utf8 Source Path Order Compare Status Value ValueFacts.
From S2P Require Import Float FloatFacts Operation.

Local Open Scope Z_scope.

(** ** Integers *)

Lemma in_i64_spec z : in_i64 z = true ↔ int_wf z.
Proof.
  unfold in_i64, int_wf, I64_MIN, I64_MAX. rewrite andb_true_iff, !Z.leb_le. lia.
Qed.

Lemma quot_in_range a b :
  int_wf a → int_wf b → b ≠ 0 → in_i64 (Z.quot a b) = negb ((a =? I64_MIN) && (b =? -1)).
Proof.
  unfold int_wf. intros Ha Hb Hz.
  destruct (Z.eqb_spec a I64_MIN) as [->|Hne]; simpl.
  - destruct (Z.eqb_spec b (-1)) as [->|Hb1]; [done|]. apply in_i64_spec. unfold int_wf.
    unfold I64_MIN. Z.to_euclidean_division_equations. nia.
  - apply in_i64_spec. unfold int_wf, I64_MIN in *. Z.to_euclidean_division_equations. nia.
Qed.

(** Truncation corrected by the sign of the remainder is the floor. *)
Lemma floor_correction a b :
  b ≠ 0 →
  let c := negb (Z.rem a b =? 0) && negb (Bool.eqb (Z.rem a b <? 0) (b <? 0)) in
  a / b = Z.quot a b - (if c then 1 else 0) ∧ a mod b = Z.rem a b + (if c then b else 0).
Proof.
  intros Hb c.
  pose proof (Z.quot_rem a b Hb) as Hq.
  assert (0 ≤ Z.rem a b < Z.abs b ∨ - Z.abs b < Z.rem a b ≤ 0) as Hr
    by (Z.to_euclidean_division_equations; lia).
  assert (a mod b = Z.rem a b + (if c then b else 0)) as Hm.
  { symmetry. apply (Z.mod_unique a b (Z.quot a b - (if c then 1 else 0))); subst c.
    - destruct (Z.eqb_spec (Z.rem a b) 0), (Z.ltb_spec (Z.rem a b) 0), (Z.ltb_spec b 0); simpl; lia.
    - destruct (negb _ && negb _); lia. }
  split; [|done]. pose proof (Z.div_mod a b Hb). destruct c; nia.
Qed.

Lemma floored_div_spec a b :
  int_wf a → int_wf b →
  floored_div a b =
    if b =? 0 then Err (DivisionByZero (bs "/"))
    else if in_i64 (a / b) then Ok (a / b) else Err (IntegerOverflow (bs "/")).
Proof.
  intros Ha Hb. unfold floored_div, checked_div, i64_rem.
  destruct (Z.eqb_spec b 0) as [|Hz]; [done|]. simpl.
  pose proof (quot_in_range a b Ha Hb Hz) as Hq. destruct (floor_correction a b Hz) as [Hd _].
  unfold checked at 1. rewrite Hq. destruct ((a =? I64_MIN) && (b =? -1)) eqn:Hmin; simpl.
  - bool_to_prop. subst. reflexivity.
  - destruct (negb (Z.rem a b =? 0) && _); rewrite Hd.
    + unfold checked_sub, checked. by destruct (in_i64 (Z.quot a b - 1)).
    + by rewrite Z.sub_0_r, Hq.
Qed.

Lemma floored_rem_spec a b :
  int_wf a → int_wf b →
  floored_rem a b =
    if b =? 0 then Err (DivisionByZero (bs "%"))
    else if (a =? I64_MIN) && (b =? -1) then Panic
    else Ok (a mod b).
Proof.
  intros Ha Hb. unfold floored_rem, i64_rem.
  destruct (Z.eqb_spec b 0) as [|Hz]; [done|]. simpl.
  rewrite (quot_in_range a b Ha Hb Hz), negb_involutive. destruct (floor_correction a b Hz) as [_ Hm].
  destruct ((a =? I64_MIN) && (b =? -1)); [done|]. simpl.
  destruct (negb (Z.rem a b =? 0) && _); rewrite Hm, ?Z.add_0_r; [|done].
  unfold checked_add, checked. rewrite <- Hm, (proj2 (in_i64_spec _)); [done|].
  unfold int_wf in *. Z.to_euclidean_division_equations. lia.
Qed.

(** ** Numbers, in units of [2 ^ -1074] *)

Definition int_units (i : Z) : Z := i * 2 ^ 1074.

Definition numeric_units {R} (v : Value R) : option Z :=
  match v with
  | VInt i => Some (int_units i)
  | VFloat f => Some (scaled f)
  | _ => None
  end.

Lemma f64_le_spec x y : canonical x → canonical y → f64_le x y = (f64_scaled x <=? f64_scaled y).
Proof.
  intros Hx Hy. unfold f64_le, SFleb. change (SFcompare x y) with (f64_partial_cmp x y).
  rewrite compare_canonical by done. unfold Z.leb. by destruct (_ ?= _).
Qed.

Lemma f64_lt_spec x y : canonical x → canonical y → f64_lt x y = (f64_scaled x <? f64_scaled y).
Proof.
  intros Hx Hy. unfold f64_lt, SFltb. change (SFcompare x y) with (f64_partial_cmp x y).
  rewrite compare_canonical by done. unfold Z.ltb. by destruct (_ ?= _).
Qed.

Lemma fraction_lt x :
  canonical x →
  f64_lt (f64_sub x (f64_trunc x)) f64_zero = (f64_scaled x <? float_trunc x * 2 ^ 1074) ∧
  f64_lt f64_zero (f64_sub x (f64_trunc x)) = (float_trunc x * 2 ^ 1074 <? f64_scaled x).
Proof.
  intros Hx. pose proof (fraction_sign x Hx) as H. unfold f64_partial_cmp in H.
  unfold f64_lt, SFltb. rewrite H. split; [unfold Z.ltb; by destruct (_ ?= _)|].
  unfold Z.ltb. rewrite Z.compare_antisym.
  destruct (f64_sub x (f64_trunc x)) as [[]|[]| |[] m e]; simpl in *;
    destruct (f64_scaled x ?= _); simplify_eq; done.
Qed.

(** Truncation and its magnitude. *)
Lemma float_trunc_bounds x :
  Z.abs (float_trunc x * 2 ^ 1074) ≤ Z.abs (f64_scaled x) ∧
  Z.abs (f64_scaled x - float_trunc x * 2 ^ 1074) < 2 ^ 1074 ∧
  (0 ≤ f64_scaled x → float_trunc x * 2 ^ 1074 ≤ f64_scaled x) ∧
  (f64_scaled x ≤ 0 → f64_scaled x ≤ float_trunc x * 2 ^ 1074).
Proof.
  unfold float_trunc. generalize (f64_scaled x). intros z.
  assert (0 < 2 ^ 1074) as Hp by (apply Z.pow_pos_nonneg; lia). revert Hp.
  generalize (2 ^ 1074). intros u Hu. pose proof (Z.quot_rem z u ltac:(lia)) as Hq.
  rewrite (Z.mul_comm (Z.quot z u)). destruct (Z.le_ge_cases 0 z) as [Hz|Hz].
  - pose proof (Z.rem_bound_pos z u Hz Hu). pose proof (Z.quot_pos z u Hz Hu).
    assert (0 ≤ u * Z.quot z u) by nia. lia.
  - pose proof (Z.rem_bound_pos (- z) u ltac:(lia) Hu) as Hr.
    rewrite Z.rem_opp_l in Hr by lia.
    pose proof (Z.quot_pos (- z) u ltac:(lia) Hu) as Hp. rewrite Z.quot_opp_l in Hp by lia.
    assert (u * Z.quot z u ≤ 0) by nia. lia.
Qed.

Lemma two_pow_63_scaled :
  (canonical TWO_POW_63 ∧ f64_scaled TWO_POW_63 = 2 ^ 63 * 2 ^ 1074) ∧
  canonical (f64_neg TWO_POW_63) ∧ f64_scaled (f64_neg TWO_POW_63) = - 2 ^ 63 * 2 ^ 1074.
Proof.
  split; (split; [split_and!; [done..|by right]|by vm_compute]).
Qed.

Lemma as_int_trunc w x :
  canonical x → f64_as_int w (f64_trunc x) = saturate w (float_trunc x).
Proof.
  intros Hx. destruct (trunc_spec x Hx) as (Hct & Hst & _). unfold f64_as_int.
  destruct (trunc_spec _ Hct) as (_ & _ & Hi').
  unfold float_trunc at 1 in Hi'.
  rewrite Hst, Z.quot_mul in Hi' by (apply Z.pow_nonzero; lia).
  rewrite Hi'. clear - Hct. by destruct (f64_trunc x).
Qed.

(** Truncation toward [i64], where it fits. *)
Lemma trunc_in_i64 x :
  canonical x →
  f64_le (f64_neg TWO_POW_63) (f64_trunc x) && f64_lt (f64_trunc x) TWO_POW_63 = in_i64 (float_trunc x) ∧
  (in_i64 (float_trunc x) = true → f64_as_int 64 (f64_trunc x) = float_trunc x).
Proof.
  intros Hx. destruct two_pow_63_scaled as [[H1 H2] [H3 H4]].
  destruct (trunc_spec x Hx) as (Hct & Hst & _).
  rewrite f64_le_spec, f64_lt_spec, Hst, H2, H4, as_int_trunc by done.
  assert (0 < 2 ^ 1074) as Hp by (apply Z.pow_pos_nonneg; lia).
  revert Hp. generalize (float_trunc x) (2 ^ 1074). intros t u Hu.
  unfold in_i64, I64_MIN, I64_MAX. split.
  - f_equal; apply eq_true_iff_eq; rewrite ?Z.leb_le, ?Z.ltb_lt; nia.
  - rewrite andb_true_iff, !Z.leb_le. intros.
    change (saturate 64 t) with (Z.max (- 2 ^ 63) (Z.min (2 ^ 63 - 1) t)). lia.
Qed.

Lemma compare_int_float_exact i x :
  int_wf i → canonical x → compare_int_float i x = Z.compare (int_units i) (f64_scaled x).
Proof.
  intros Hi Hx. unfold compare_int_float, int_units.
  destruct two_pow_63_scaled as [[Hc63 H63] [Hn63 Hm63]].
  rewrite f64_le_spec, f64_lt_spec, H63, Hm63 by done.
  destruct (trunc_spec x Hx) as (Hct & Hst & Hti). destruct (fraction_lt x Hx) as [Hf1 Hf2].
  pose proof (float_trunc_bounds x) as (Hb1 & Hb2 & Hb3 & Hb4).
  assert (0 < 2 ^ 1074) as Hp by (apply Z.pow_pos_nonneg; lia).
  unfold int_wf in Hi. rewrite Hf1, Hf2. clear Hf1 Hf2.
  rewrite (as_int_trunc 128 x Hx).
  clear Hct Hst Hti Hx H63 Hm63 Hc63 Hn63.
  revert Hb1 Hb2 Hb3 Hb4 Hp. generalize (float_trunc x) (f64_scaled x) (2 ^ 1074). intros t z u.
  intros. change (saturate 128 t) with (Z.max (- 2 ^ 127) (Z.min (2 ^ 127 - 1) t)).
  destruct (Z.leb_spec (2 ^ 63 * u) z); [symmetry; apply Z.compare_lt_iff; nia|].
  destruct (Z.ltb_spec z (- 2 ^ 63 * u)); [symmetry; apply Z.compare_gt_iff; nia|].
  assert (- 2 ^ 63 - 1 ≤ t ≤ 2 ^ 63) as Ht by nia.
  rewrite Z.min_r, Z.max_r by lia.
  destruct (Z.compare_spec i t) as [->|Hit|Hit].
  - destruct (Z.ltb_spec (t * u) z); [symmetry; by apply Z.compare_lt_iff|].
    destruct (Z.ltb_spec z (t * u)); [symmetry; by apply Z.compare_gt_iff|].
    symmetry. apply Z.compare_eq_iff. lia.
  - symmetry. apply Z.compare_lt_iff. nia.
  - symmetry. apply Z.compare_gt_iff. nia.
Qed.

Lemma int_units_compare i j : Z.compare (int_units i) (int_units j) = Z.compare i j.
Proof.
  unfold int_units. symmetry. apply Zmult_compare_compat_r, Z.lt_gt, Z.pow_pos_nonneg; lia.
Qed.

(** The converse of [f64_to_integer_scaled]. *)
Lemma scaled_to_integer bits i :
  0 ≤ bits < 2 ^ 64 → scaled bits = int_units i → f64_to_integer bits = Some i.
Proof.
  intros Hb. pose proof (scale_nonneg bits Hb) as Hs. unfold f64_to_integer, scaled, int_units.
  set (s := f64_scale bits) in *. set (m := f64_mantissa bits).
  set (sm := if f64_negative bits then - m else m).
  replace ((if f64_negative bits then -1 else 1) * m) with sm
    by (unfold sm; destruct (f64_negative bits); lia).
  destruct (Z.leb_spec 0 s) as [H0|H0]; intros Heq.
  - rewrite Z.pow_add_r, Z.mul_assoc in Heq by lia. apply Z.mul_reg_r in Heq; [congruence|].
    apply Z.pow_nonzero; lia.
  - assert (0 < 2 ^ (- s)) as Hpos by (apply Z.pow_pos_nonneg; lia).
    replace 1074 with (- s + (s + 1074)) in Heq at 2 by lia.
    rewrite (Z.pow_add_r 2 (- s)), Z.mul_assoc in Heq by lia.
    apply Z.mul_reg_r in Heq; [|apply Z.pow_nonzero; lia].
    rewrite Heq, Z.mod_mul, Z.div_mul by lia. done.
Qed.

Lemma int_float_units i f :
  int_wf i → float_wf f → int_float_equal i f = true ↔ scaled f = int_units i.
Proof.
  intros Hi (Hf & _). split; [by apply int_float_equal_scaled|].
  intros H. unfold int_float_equal. rewrite (scaled_to_integer f i Hf H).
  apply Z.eqb_eq. unfold as_i128, int_wf in *. lia.
Qed.
Local Close Scope Z_scope.

(** ** The order of values *)

#[local] Opaque int_units scaled.

Section Order.
Context {RuntimeError : Type} `{!ErrorView RuntimeError}.
Context (error_eqb : RuntimeError → RuntimeError → bool).

Notation Value := (Value RuntimeError).
Notation order := (order (RuntimeError := RuntimeError)).
Notation value_wf := (value_wf (RuntimeError := RuntimeError)).

Lemma order_numeric (a b : Value) x y :
  value_wf a → value_wf b → numeric_units a = Some x → numeric_units b = Some y →
  order a b = Ok (Z.compare x y).
Proof.
  intros Ha Hb Hx Hy.
  destruct a as [| |i|f| | | | | | | | | | | | | |]; cbn [numeric_units] in Hx; try discriminate Hx;
    destruct b as [| |j|g| | | | | | | | | | | | | |]; cbn [numeric_units] in Hy;
    try discriminate Hy; injection Hx as <-; injection Hy as <-; cbn [Operation.order].
  - rewrite int_units_compare. reflexivity.
  - rewrite compare_int_float_exact; [|exact Ha|exact (from_bits_canonical _ Hb)].
    rewrite (from_bits_scaled _ Hb). reflexivity.
  - rewrite compare_int_float_exact; [|exact Hb|exact (from_bits_canonical _ Ha)].
    rewrite (from_bits_scaled _ Ha), <- Z.compare_antisym. reflexivity.
  - rewrite compare_canonical; [|exact (from_bits_canonical _ Ha)|exact (from_bits_canonical _ Hb)].
    rewrite (from_bits_scaled _ Ha), (from_bits_scaled _ Hb). reflexivity.
Qed.

Lemma order_lists_cons x y (l k : list Value) :
  order_lists order (x :: l) (y :: k) =
  res_bind (order x y) (λ c, match c with Eq => order_lists order l k | _ => Ok c end).
Proof.
  unfold order_lists. simpl. destruct (order x y) as [[]| |]; simpl; done.
Qed.

Lemma order_lists_nil (k : list Value) :
  order_lists order [] k = Ok (Nat.compare 0 (length k)) ∧
  order_lists order k [] = Ok (Nat.compare (length k) 0).
Proof. by destruct k. Qed.

(** The ordered leaves: the domain of a value and its place there. *)
Definition leaf_key (v : Value) : option (nat * (Z + str)) :=
  match v with
  | VInt _ | VFloat _ => (λ u, (0, inl u)) <$> numeric_units v
  | VString s => Some (1, inr s)
  | VBytes s => Some (2, inr s)
  | VPath s => Some (3, inr s)
  | VDuration d => Some (4, inl d)
  | VByteSize n => Some (5, inl n)
  | _ => None
  end.

Definition key_order (a b : nat * (Z + str)) : option comparison :=
  if a.1 =? b.1 then
    match a.2, b.2 with
    | inl x, inl y => Some (Z.compare x y)
    | inr x, inr y => Some (bytes_compare x y)
    | _, _ => None
    end
  else None.

Definition leaf_order (a b : Value) : option comparison :=
  x ← leaf_key a; y ← leaf_key b; key_order x y.

(** Two values are compared as lists, as leaves, or not at all. *)
Lemma order_cases a b :
  value_wf a → value_wf b →
  (∃ l k, a = VList l ∧ b = VList k ∧ order a b = order_lists order l k) ∨
  match leaf_order a b with
  | Some c => order a b = Ok c
  | None => order a b = Err (unsupported (bs "<") [a; b])
  end.
Proof.
  intros Ha Hb. destruct a, b;
    first
      [ left; eexists _, _; split_and!; [reflexivity|reflexivity|reflexivity]
      | right; exact (order_numeric _ _ _ _ Ha Hb eq_refl eq_refl)
      | right; reflexivity ].
Qed.

Lemma key_order_antisym a b c : key_order a b = Some c → key_order b a = Some (CompOpp c).
Proof.
  unfold key_order. rewrite (Nat.eqb_sym b.1 a.1). destruct (a.1 =? b.1); [|done].
  destruct a.2, b.2; intros [= <-]; f_equal;
    [apply (cmp_antisym Z.compare)|apply (cmp_antisym bytes_compare)].
Qed.

Lemma key_order_trans a b c x y :
  key_order a b = Some x → key_order b c = Some y → x ≠ Gt → y ≠ Gt →
  key_order a c = Some (then_cmp x y).
Proof.
  assert (∀ {A} (cmp : A → A → comparison) `{!TotalPreorder cmp} p q r,
    cmp p q ≠ Gt → cmp q r ≠ Gt → cmp p r = then_cmp (cmp p q) (cmp q r)) as Hcmp.
  { intros A cmp ? p q r H1 H2. destruct (cmp p q) eqn:E1; simpl; [|destruct (cmp q r) eqn:E2|done].
    - by apply cmp_eq_l.
    - by rewrite <- (cmp_eq_r cmp q r p E2).
    - by apply (cmp_lt_trans cmp p q r).
    - done. }
  unfold key_order. destruct (Nat.eqb_spec a.1 b.1) as [->|]; [|done].
  destruct (b.1 =? c.1); [|done].
  destruct a.2, b.2, c.2; intros [= <-] [= <-] H1 H2; f_equal;
    [by apply (Hcmp _ Z.compare _)|by apply (Hcmp _ bytes_compare _)].
Qed.

Lemma leaf_order_bind a b c :
  leaf_order a b = Some c ↔ ∃ x y, leaf_key a = Some x ∧ leaf_key b = Some y ∧ key_order x y = Some c.
Proof.
  unfold leaf_order. destruct (leaf_key a) as [x|], (leaf_key b) as [y|]; simpl; naive_solver.
Qed.

(** An order that is [Ok] compares two lists or two leaves. *)
Inductive ordered : Value → Value → comparison → Prop :=
| ordered_leaf a b c : leaf_order a b = Some c → ordered a b c
| ordered_list l k c : order_lists order l k = Ok c → ordered (VList l) (VList k) c.

Lemma order_ordered a b c : value_wf a → value_wf b → order a b = Ok c ↔ ordered a b c.
Proof.
  intros Ha Hb. destruct (order_cases a b Ha Hb) as [(l & k & -> & -> & Ho)|Ho].
  - rewrite Ho. split; [by constructor|]. by inversion 1.
  - destruct (leaf_order a b) as [c'|] eqn:E; rewrite Ho.
    + split; [intros [= <-]; by constructor|].
      inversion 1 as [? ? ? E'|]; subst; [congruence|discriminate E].
    + split; [done|]. inversion 1 as [? ? ? E'|l k ? Hl]; subst; [congruence|].
      change (order (VList l) (VList k)) with (order_lists order l k) in Ho. congruence.
Qed.

(** *** The laws, through lists *)

Definition antisymmetric_at (a : Value) : Prop :=
  ∀ b c, value_wf a → value_wf b → order a b = Ok c → order b a = Ok (CompOpp c).

Definition transitive_at (a : Value) : Prop :=
  ∀ b c x y, value_wf a → value_wf b → value_wf c →
    order a b = Ok x → order b c = Ok y → x ≠ Gt → y ≠ Gt → order a c = Ok (then_cmp x y).

Definition decides_equality_at (a : Value) : Prop :=
  ∀ b c, value_wf a → value_wf b → order a b = Ok c → value_eqb error_eqb a b = true ↔ c = Eq.

Lemma order_lists_cons_ok x y l k c :
  order_lists order (x :: l) (y :: k) = Ok c →
  ∃ d, order x y = Ok d ∧ (d = Eq ∧ order_lists order l k = Ok c ∨ d ≠ Eq ∧ c = d).
Proof.
  rewrite order_lists_cons, res_bind_ok. intros (d & Hd & Hc). exists d. split; [done|].
  destruct d; [by left|right; naive_solver..].
Qed.

Lemma order_lists_antisym l k c :
  Forall antisymmetric_at l → Forall value_wf l → Forall value_wf k →
  order_lists order l k = Ok c → order_lists order k l = Ok (CompOpp c).
Proof.
  intros IH Hl. revert k c. induction IH as [|x l Hx _ IH]; intros k c Hk.
  { destruct (order_lists_nil k) as [-> ->]. intros [= <-]. f_equal. apply (cmp_antisym Nat.compare). }
  apply Forall_cons in Hl as [Hwx Hwl]. destruct k as [|y k].
  { intros [= <-]. done. }
  apply Forall_cons in Hk as [Hwy Hwk].
  intros (d & Hd & Hcase)%order_lists_cons_ok. rewrite order_lists_cons, (Hx y d) by done.
  destruct Hcase as [[-> Hc]|[Hne ->]]; simpl; [by apply IH|by destruct d].
Qed.

Lemma order_lists_trans l k m x y :
  Forall transitive_at l → Forall value_wf l → Forall value_wf k → Forall value_wf m →
  order_lists order l k = Ok x → order_lists order k m = Ok y → x ≠ Gt → y ≠ Gt →
  order_lists order l m = Ok (then_cmp x y).
Proof.
  intros IH Hl. revert k m x y. induction IH as [|a l Ha _ IH]; intros k m x y Hk Hm.
  { destruct k as [|b k], m as [|c m]; intros [= <-] H2; try (by injection H2 as <-); done. }
  apply Forall_cons in Hl as [Hwa Hwl]. destruct k as [|b k].
  { intros [= <-]. done. }
  apply Forall_cons in Hk as [Hwb Hwk]. destruct m as [|c m].
  { intros _ [= <-]. done. }
  apply Forall_cons in Hm as [Hwc Hwm].
  intros (d & Hd & Hcase)%order_lists_cons_ok (e & He & Hcase')%order_lists_cons_ok Hx Hy.
  rewrite order_lists_cons.
  assert (d ≠ Gt ∧ e ≠ Gt) as [Hd' He'] by (split; naive_solver).
  rewrite (Ha b c d e) by done. simpl.
  destruct Hcase as [[-> H1]|[Hne ->]], Hcase' as [[-> H2]|[Hne' ->]]; simpl.
  - by apply (IH Hwl k m).
  - by destruct e, x.
  - by destruct d.
  - by destruct d, e.
Qed.

Lemma order_lists_equality l k c :
  Forall decides_equality_at l → Forall value_wf l → Forall value_wf k →
  order_lists order l k = Ok c → list_eqb (value_eqb error_eqb) l k = true ↔ c = Eq.
Proof.
  intros IH Hl. revert k c. induction IH as [|x l Hx _ IH]; intros k c Hk.
  { by destruct k; intros [= <-]. }
  apply Forall_cons in Hl as [Hwx Hwl]. destruct k as [|y k]; [by intros [= <-]|].
  apply Forall_cons in Hk as [Hwy Hwk]. intros (d & Hd & Hcase)%order_lists_cons_ok.
  simpl. rewrite andb_true_iff, (Hx y d) by done.
  destruct Hcase as [[-> Hc]|[Hne ->]]; [|tauto]. rewrite (IH Hwl k c) by done. tauto.
Qed.

(** Leaves are equal when their places are. *)
Lemma leaf_equality a b c :
  value_wf a → value_wf b → leaf_order a b = Some c → value_eqb error_eqb a b = true ↔ c = Eq.
Proof.
  intros Ha Hb (x & y & Hx & Hy & Hc)%leaf_order_bind.
  assert (∀ p q : Z, (p =? q)%Z = true ↔ Z.compare p q = Eq) as HZ
    by (intros p q; by rewrite Z.eqb_eq, Z.compare_eq_iff).
  assert (∀ p q : str, str_eqb p q = true ↔ bytes_compare p q = Eq) as HB
    by (intros p q; by rewrite str_eqb_eq, bytes_compare_eq).
  assert (∀ i f, int_wf i → float_wf f →
    int_float_equal i f = true ↔ Z.compare (int_units i) (scaled f) = Eq) as HIF.
  { intros i f Hi Hf. rewrite int_float_units, Z.compare_eq_iff by done. naive_solver. }
  destruct a; try discriminate Hx; destruct b; try discriminate Hy;
    injection Hx as <-; injection Hy as <-; unfold key_order in Hc; simpl in Hc;
    try discriminate Hc; injection Hc as <-; cbn [value_eqb]; try apply HZ; try apply HB.
  - by rewrite int_units_compare.
  - by apply HIF.
  - rewrite HIF by done. rewrite !Z.compare_eq_iff. naive_solver.
  - rewrite Z.eqb_eq, Z.compare_eq_iff. split; [congruence|]. by apply scaled_inj.
Qed.
Lemma list_wf l : value_wf (VList l) ↔ Forall value_wf l.
Proof. apply list_all_Forall. Qed.

(** What is ordered with a list is a list, and with anything else a leaf. *)
Lemma order_list_inv l b c :
  value_wf (VList l) → value_wf b → order (VList l) b = Ok c →
  ∃ k, b = VList k ∧ order_lists order l k = Ok c.
Proof.
  intros Hl Hb Ho. apply order_ordered in Ho; [|done..].
  inversion Ho as [? ? ? H|? k ? H]; subst; [discriminate H|by exists k].
Qed.

Lemma order_leaf_inv a b c :
  (∀ l, a ≠ VList l) → value_wf a → value_wf b → order a b = Ok c → leaf_order a b = Some c.
Proof.
  intros Hn Ha Hb Ho. apply order_ordered in Ho; [|done..].
  inversion Ho; subst; [done|]. by destruct (Hn l).
Qed.

Lemma leaf_not_list a b c : leaf_order a b = Some c → ∀ l, b ≠ VList l.
Proof. intros (x & y & _ & Hy & _)%leaf_order_bind l ->. discriminate Hy. Qed.

Lemma order_of_leaf a b c : value_wf a → value_wf b → leaf_order a b = Some c → order a b = Ok c.
Proof. intros Ha Hb H. apply order_ordered; [done..|by constructor]. Qed.

(** What is not a composite value is not a list, and neither is another composite. *)
Ltac not_a_list :=
  let l := fresh in intros l; first
    [discriminate | let H := fresh in intros H; subst; match goal with H : ¬ composite _ |- _ => by destruct H end].

Lemma order_antisym a : antisymmetric_at a.
Proof.
  induction a as [v Hv|l IH|es _|i t es _|t m k r _|cs rs _] using Value_nested_ind; intros b c Ha Hb Ho.
  2: { destruct (order_list_inv l b c Ha Hb Ho) as (k & -> & Hlk).
    apply (order_lists_antisym l k c); [done|by apply list_wf|by apply list_wf|done]. }
  all: apply order_leaf_inv in Ho; [|by not_a_list|done..];
    apply order_of_leaf; [done..|]; apply leaf_order_bind in Ho as (x & y & Hx & Hy & Hc);
    apply leaf_order_bind; exists y, x; split_and!; [done..|by apply key_order_antisym].
Qed.

Lemma order_trans a : transitive_at a.
Proof.
  induction a as [v Hv|l IH|es0 _|i0 t0 es0 _|i0 t0 k0 r0 _|cs0 rs0 _] using Value_nested_ind; intros b c x y Ha Hb Hc H1 H2 Hx Hy.
  2: { destruct (order_list_inv l b x Ha Hb H1) as (k & -> & Hlk).
    destruct (order_list_inv k c y Hb Hc H2) as (m & -> & Hkm).
    apply (order_lists_trans l k m x y); try done; by apply list_wf. }
  all: apply order_leaf_inv in H1; [|by not_a_list|done..];
    apply order_leaf_inv in H2; [|by eapply leaf_not_list|done..];
    apply order_of_leaf; [done..|];
    apply leaf_order_bind in H1 as (p & q & Hp & Hq & Hpq);
    apply leaf_order_bind in H2 as (q' & r & Hq' & Hr & Hqr);
    assert (q' = q) as -> by congruence;
    apply leaf_order_bind; exists p, r; split_and!; [done..|by apply (key_order_trans p q r)].
Qed.

Lemma order_equality a : decides_equality_at a.
Proof.
  induction a as [v Hv|l IH|es0 _|i0 t0 es0 _|i0 t0 k0 r0 _|cs0 rs0 _] using Value_nested_ind; intros b c Ha Hb Ho.
  2: { destruct (order_list_inv l b c Ha Hb Ho) as (k & -> & Hlk).
    apply (order_lists_equality l k c); [done|by apply list_wf|by apply list_wf|done]. }
  all: apply leaf_equality; [done..|]; apply order_leaf_inv; [by not_a_list|done..].
Qed.

Lemma order_no_panic a : ∀ b, value_wf a → value_wf b → order a b ≠ Panic.
Proof.
  assert (∀ v b, (∀ l, v ≠ VList l) → value_wf v → value_wf b → order v b ≠ Panic) as Hleaf.
  { intros v b Hn Hv Hb. destruct (order_cases v b Hv Hb) as [(l & k & -> & _)|Ho]; [by destruct (Hn l)|].
    destruct (leaf_order v b); by rewrite Ho. }
  induction a as [v Hv|l IH|es _|i t es _|t m k r _|cs rs _] using Value_nested_ind; intros b Ha Hb; try (by apply Hleaf).
  { apply Hleaf; [by intros ? ->; destruct Hv|done..]. }
  destruct (order_cases _ b Ha Hb) as [(l' & k & [= <-] & -> & ->)|Ho].
  - apply list_wf in Ha, Hb. clear - IH Ha Hb. revert k Hb.
    induction IH as [|x l Hx _ IH]; intros k Hk.
    { destruct (order_lists_nil k) as [-> _]. done. }
    apply Forall_cons in Ha as [Hwx Hwl]. destruct k as [|y k]; [done|].
    apply Forall_cons in Hk as [Hwy Hwk]. rewrite order_lists_cons.
    apply res_bind_no_panic; [by apply Hx|]. intros [] _; [by apply IH|done..].
  - destruct (leaf_order _ b); by rewrite Ho.
Qed.
End Order.

(** ** Panics *)

Section Panics.
Context {RuntimeError : Type} `{!ErrorView RuntimeError}.
Context (error_eqb : RuntimeError → RuntimeError → bool).

Notation Value := (Value RuntimeError).

Lemma to_int_float f :
  float_wf f →
  to_int (VFloat f : Value) =
    if in_i64 (float_trunc (f64_from_bits f)) then Ok (VInt (float_trunc (f64_from_bits f)))
    else Err (ConversionOutOfRange (f64_from_bits f)).
Proof.
  intros Hf%from_bits_canonical. cbn [to_int]. destruct (trunc_in_i64 _ Hf) as [-> Ht].
  destruct (in_i64 _); [by rewrite Ht|done].
Qed.
Lemma int_value_no_panic op (o : option Z) : no_panic (int_value op o : res OperationError Value).
Proof. by destruct o. Qed.

Lemma float_value_no_panic x : no_panic (float_value x : res OperationError Value).
Proof. unfold no_panic, float_value. by destruct (FiniteFloat_new _). Qed.

Lemma numeric_pair_ok op (a b : Value) p :
  numeric_pair op a b = Ok p → value_wf a → value_wf b →
  match p with Ints x y => int_wf x ∧ int_wf y ∧ a = VInt x ∧ b = VInt y | Floats _ _ => True end.
Proof. destruct a, b; intros [= <-] Ha Hb; done. Qed.

Lemma numeric_pair_no_panic op (a b : Value) : no_panic (numeric_pair op a b).
Proof. by destruct a, b. Qed.

Hint Resolve int_value_no_panic float_value_no_panic numeric_pair_no_panic : no_panic.

Lemma floored_div_no_panic a b : int_wf a → int_wf b → no_panic (floored_div a b).
Proof.
  intros Ha Hb. rewrite (floored_div_spec a b Ha Hb).
  destruct (_ =? _)%Z; [done|]. by destruct (in_i64 _).
Qed.

Lemma Record_new_loop_nodup index (checked entries : list (str * Value)) :
  NoDup (checked.*1 ++ entries.*1) → Record_new_loop index checked entries = Ok (checked ++ entries).
Proof.
  revert index checked. induction entries as [|[k v] es IH]; intros index checked Hnd; simpl.
  { by rewrite app_nil_r. }
  destruct (existsb _ _) eqn:Hex.
  - apply existsb_exists in Hex as ([k' v'] & Hin & Heq%str_eqb_eq). simpl in Heq. subst k'.
    apply NoDup_app in Hnd as (_ & Hdis & _). exfalso. apply (Hdis k); [|simpl; left].
    apply list_elem_of_fmap. exists (k, v'). split; [done|by apply list_elem_of_In].
  - rewrite IH, <- app_assoc; [done|]. by rewrite fmap_app, <- app_assoc.
Qed.

(** Entries with distinct keys are a record. *)
Lemma Record_new_nodup (entries : list (str * Value)) :
  NoDup entries.*1 → Record_new entries = Ok entries.
Proof. intros H. by apply (Record_new_loop_nodup 0 []). Qed.

Lemma record_of_no_panic (fields : list (str * Value)) :
  NoDup fields.*1 → no_panic (record_of fields).
Proof. intros H. unfold record_of. by rewrite Record_new_nodup. Qed.

Lemma map_ok_no_panic {A} (f : A → res OperationError Value) l :
  (∀ x, no_panic (f x)) → no_panic (map_ok f l).
Proof.
  intros Hf. induction l as [|x l IH]; [done|]. simpl.
  apply res_bind_no_panic; [apply Hf|]. intros v _. by apply res_bind_no_panic.
Qed.

Ltac distinct_keys := apply record_of_no_panic; by apply (bool_decide_unpack _).

Lemma error_field_no_panic error name : no_panic (error_field error name : res OperationError Value).
Proof.
  unfold error_field.
  repeat (match goal with |- no_panic (if ?b then _ else _) => destruct b end); try done.
  - destruct (error_source error); [|done]. distinct_keys.
  - apply res_bind_no_panic; [|done]. apply map_ok_no_panic. intros [[s sp] m]. distinct_keys.
  - apply res_bind_no_panic; [|done]. apply map_ok_no_panic. intros [[s sp] m]. distinct_keys.
Qed.

Lemma field_no_panic (target : Value) name : no_panic (field target name).
Proof.
  destruct target; try done; simpl.
  - by destruct (Record_get _ _).
  - by destruct (Record_get _ _).
  - unfold status_field.
    repeat (match goal with |- no_panic (if ?b then _ else _) => destruct b end); try done.
    destruct (signal _); [distinct_keys|done].
  - apply error_field_no_panic.
Qed.

Lemma checked_position_ok index len p :
  checked_position index len = Ok p → p < len ∧ index = Z.of_nat p.
Proof.
  unfold checked_position. destruct (Z.ltb_spec index 0); [done|].
  destruct (Z.leb_spec (Z.of_nat len) index); [done|]. intros [= <-]. lia.
Qed.

Lemma index_no_panic (target i : Value) : no_panic (index target i).
Proof.
  destruct target, i; try done; cbn [index].
  - apply res_bind_no_panic; [unfold checked_position; by repeat case_match|].
    intros p [Hp _]%checked_position_ok.
    apply res_bind_no_panic; [|done].
    destruct (lookup_lt_is_Some_2 _ _ Hp) as [? ->]. done.
  - apply res_bind_no_panic; [unfold checked_position; by repeat case_match|].
    intros p [Hp _]%checked_position_ok. destruct (lookup_lt_is_Some_2 _ _ Hp) as [? ->]. done.
  - by destruct (Record_get _ _).
Qed.
Lemma arithmetic_no_panic op op' (a b : Value) ints floats :
  no_panic (res_bind (numeric_pair op a b) (λ p,
    match p with
    | Ints x y => int_value op' (ints x y)
    | Floats x y => float_value (floats x y)
    end) : res OperationError Value).
Proof. apply res_bind_no_panic; [auto with no_panic|]. intros [x y|x y] _; auto with no_panic. Qed.

Lemma negate_no_panic (a : Value) : no_panic (negate a).
Proof. destruct a; try done; cbn [negate]; auto with no_panic. Qed.

Lemma to_int_no_panic (a : Value) : no_panic (to_int a).
Proof. destruct a; try done. cbn [to_int]. by destruct (_ && _). Qed.

Lemma divide_no_panic (a b : Value) : value_wf a → value_wf b → no_panic (divide a b).
Proof.
  intros Ha Hb. apply res_bind_no_panic; [auto with no_panic|]. intros [x y|x y] Hp.
  - destruct (numeric_pair_ok _ a b _ Hp Ha Hb) as (Hx & Hy & _).
    apply res_bind_no_panic; [by apply floored_div_no_panic|done].
  - destruct (f64_eq _ _); [done|auto with no_panic].
Qed.

(** [%] panics on the least integer and minus one, and nowhere else. *)
Lemma remainder_panic (a b : Value) :
  value_wf a → value_wf b → remainder a b = Panic ↔ a = VInt I64_MIN ∧ b = VInt (-1)%Z.
Proof.
  intros Ha Hb. unfold remainder. destruct (numeric_pair (bs "%") a b) as [[x y|x y]|e|] eqn:Hp.
  - destruct (numeric_pair_ok _ a b _ Hp Ha Hb) as (Hx & Hy & -> & ->). cbn [res_bind].
    rewrite (floored_rem_spec x y Hx Hy).
    destruct (Z.eqb_spec y 0) as [->|]; [naive_solver|].
    destruct (Z.eqb_spec x I64_MIN), (Z.eqb_spec y (-1)); subst; simpl; naive_solver.
  - split; [|by intros [-> ->]]. simpl. destruct (f64_eq _ _); [done|].
    intros H. by destruct (float_value_no_panic _ H).
  - split; [done|by intros [-> ->]].
  - by destruct (numeric_pair_no_panic _ _ _ Hp).
Qed.

Lemma ordering_no_panic (f : comparison → Value) (a b : Value) :
  value_wf a → value_wf b → no_panic (res_bind (order a b) (λ c, Ok (f c))).
Proof. intros Ha Hb. apply res_bind_no_panic; [by apply order_no_panic|done]. Qed.

(** C30: The operators never panic on values of the language, errors included —
    with one exception, the remainder of the least integer by minus one. *)
Theorem operators_never_panic (a b : Value) (name : str) (inclusive : bool) :
  value_wf a → value_wf b →
  Forall no_panic
    [add a b; subtract a b; multiply a b; divide a b; negate a; plus a; less a b; less_equal a b;
     greater a b; greater_equal a b; member error_eqb a b; index a b; field a name;
     range a b inclusive; to_int a] ∧
  (remainder a b = Panic ↔ a = VInt I64_MIN ∧ b = VInt (-1)%Z).
Proof.
  intros Ha Hb. split; [|by apply remainder_panic].
  repeat apply Forall_cons_2; [..|apply Forall_nil_2].
  - apply arithmetic_no_panic.
  - apply arithmetic_no_panic.
  - apply arithmetic_no_panic.
  - by apply divide_no_panic.
  - apply negate_no_panic.
  - by destruct a.
  - by apply (ordering_no_panic (λ o, VBool (comparison_eqb o Lt))).
  - by apply (ordering_no_panic (λ o, VBool (negb (comparison_eqb o Gt)))).
  - by apply (ordering_no_panic (λ o, VBool (comparison_eqb o Gt))).
  - by apply (ordering_no_panic (λ o, VBool (negb (comparison_eqb o Lt)))).
  - by destruct b, a.
  - apply index_no_panic.
  - apply field_no_panic.
  - by destruct a, b.
  - apply to_int_no_panic.
Qed.

(** C29: Integer arithmetic is exact or refused: sums, differences, products and
    negations are the integers they denote or an overflow, [/] is the floor of
    the quotient and [%] the remainder with the sign of the divisor, and a
    zero divisor is its own error. *)
Theorem integer_arithmetic_exact (a b : Z) :
  int_wf a → int_wf b →
  let within op z := if in_i64 z then Ok (VInt z) else Err (IntegerOverflow (bs op)) in
  let x : Value := VInt a in
  let y : Value := VInt b in
  add x y = within "+" (a + b)%Z ∧
  subtract x y = within "-" (a - b)%Z ∧
  multiply x y = within "*" (a * b)%Z ∧
  negate x = within "-" (- a)%Z ∧
  divide x y =
    (if (b =? 0)%Z then Err (DivisionByZero (bs "/")) else within "/" (a / b)%Z) ∧
  (¬ (a = I64_MIN ∧ b = -1)%Z →
   remainder x y =
    if (b =? 0)%Z then Err (DivisionByZero (bs "%")) else Ok (VInt (a mod b)%Z)).
Proof.
  intros Ha Hb within x y. subst within x y. unfold add, subtract, multiply, negate, divide, remainder.
  cbn [numeric_pair res_bind]. unfold int_value, checked_add, checked_sub, checked_mul, checked_neg, checked.
  rewrite (floored_div_spec a b Ha Hb), (floored_rem_spec a b Ha Hb).
  split_and!; try by destruct (in_i64 _).
  - destruct (_ =? _)%Z; [done|]. by destruct (in_i64 _).
  - intros Hne. destruct (b =? 0)%Z; [done|].
    destruct ((a =? I64_MIN)%Z && (b =? -1)%Z) eqn:E; [|done]. bool_to_prop. tauto.
Qed.

(** The order of values.  Numbers, mixed or not, are compared by the exact
    numbers they denote, never through a lossy conversion; reversed operands
    give the reversed order; two values are equal exactly when neither orders
    first; and the order is transitive wherever it is defined, through lists of
    any depth. *)
Theorem order_laws (a b c : Value) :
  value_wf a → value_wf b → value_wf c →
  (∀ x y, numeric_units a = Some x → numeric_units b = Some y → order a b = Ok (Z.compare x y)) ∧
  (∀ o, order a b = Ok o →
    order b a = Ok (CompOpp o) ∧ (value_eqb error_eqb a b = true ↔ o = Eq)) ∧
  (∀ x y, order a b = Ok x → order b c = Ok y → x ≠ Gt → y ≠ Gt → order a c = Ok (then_cmp x y)).
Proof.
  intros Ha Hb Hc. split_and!.
  - intros x y. by apply order_numeric.
  - intros o Ho. split; [by apply order_antisym|by apply order_equality].
  - intros x y. by apply order_trans.
Qed.

(** The conversion to an integer truncates exactly: the integer part of the
    number the float denotes, or an error when it is not an [i64]. *)
Theorem to_int_exact (f : FiniteFloat) :
  float_wf f →
  to_int (VFloat f : Value) =
    let t := Z.quot (scaled f) (2 ^ 1074) in
    if in_i64 t then Ok (VInt t) else Err (ConversionOutOfRange (f64_from_bits f)).
Proof. intros Hf. rewrite to_int_float by done. unfold float_trunc. by rewrite from_bits_scaled. Qed.
End Panics.

(** ** Instances *)

(** An error that is only its message. *)
Definition message_view : ErrorView str := {|
  error_category _ := bs "Runtime"; error_message e := e; error_source _ := None;
  error_span _ := mkSpan 0%Z 0 0; error_labels _ := []; error_frames _ := [];
  error_cause _ := None; error_status _ := None
|}.

Lemma operators_never_panic_witness :
  Forall no_panic (index (RuntimeError := str) (VString (bs "ab")) (VInt 2%Z) :: nil) ∧
  remainder (RuntimeError := str) (VInt I64_MIN) (VInt (-1)%Z) = Panic.
Proof.
  split.
  - pose proof (operators_never_panic (ErrorView0 := message_view) str_eqb
      (VString (bs "ab")) (VInt 2%Z) [] false I ltac:(unfold value_wf, int_wf; lia)) as [H _].
    repeat (apply Forall_cons in H as [? H]). by repeat constructor.
  - pose proof (operators_never_panic (ErrorView0 := message_view) str_eqb
      (VInt I64_MIN) (VInt (-1)%Z) [] false
      ltac:(unfold value_wf, int_wf, I64_MIN; lia) ltac:(unfold value_wf, int_wf; lia)) as [_ H].
    by apply H.
Defined.

Lemma integer_arithmetic_exact_witness :
  divide (RuntimeError := str) (VInt (-7)%Z) (VInt 2%Z) = Ok (VInt (-4)%Z) ∧
  remainder (RuntimeError := str) (VInt (-7)%Z) (VInt 2%Z) = Ok (VInt 1%Z).
Proof.
  destruct (integer_arithmetic_exact (RuntimeError := str) (-7) 2
    ltac:(unfold int_wf; lia) ltac:(unfold int_wf; lia)) as (_ & _ & _ & _ & Hd & Hr).
  split; [exact Hd|exact (Hr ltac:(lia))].
Defined.

(** [2^53 + 1] is above the float [2^53], which it would round to. *)
Lemma order_laws_witness :
  order (RuntimeError := str)
    (VList [VInt 0x20000000000001%Z]) (VList [VFloat 0x4340000000000000%Z]) = Ok Gt ∧
  order (RuntimeError := str)
    (VList [VFloat 0x4340000000000000%Z]) (VList [VInt 0x20000000000001%Z]) = Ok Lt.
Proof.
  assert (order (RuntimeError := str)
    (VList [VInt 0x20000000000001%Z]) (VList [VFloat 0x4340000000000000%Z]) = Ok Gt) as H
    by (vm_compute; reflexivity).
  split; [exact H|].
  destruct (order_laws (RuntimeError := str) str_eqb
    (VList [VInt 0x20000000000001%Z]) (VList [VFloat 0x4340000000000000%Z]) VNull
    ltac:(split; [unfold value_wf, int_wf; lia|exact I])
    ltac:(split; [split_and!; [lia|lia|by vm_compute|by vm_compute]|exact I]) I) as (_ & Ho & _).
  exact (proj1 (Ho Gt H)).
Defined.

(** [-2.5] truncates to [-2]. *)
Lemma to_int_exact_witness :
  to_int (RuntimeError := str) (VFloat 0xC004000000000000%Z) = Ok (VInt (-2)%Z).
Proof.
  rewrite (to_int_exact (RuntimeError := str) 0xC004000000000000%Z
    ltac:(split_and!; [lia|lia|by vm_compute|by vm_compute])).
  vm_compute. reflexivity.
Defined.
