(* ===== verification/Scope.v ===== *)
(** * Lexical scopes ([opaal-runtime/src/scope.rs])

    A stack of frames of named bindings, the root frame first.  A method that
    takes the stack by mutable reference returns the stack it leaves behind,
    also when it fails. *)
From S2P Require Import Prelude Order Value.

Local Open Scope res_scope.

Inductive BindingMutability := Immutable | Mutable.

#[export] Instance BindingMutability_eq_dec : EqDecision BindingMutability.
Proof. solve_decision. Defined.

Section Scopes.
Context {RuntimeError : Type} (error_eqb : RuntimeError → RuntimeError → bool).

Notation Value := (Value RuntimeError).

Record Binding := mkBinding {
  mutability : BindingMutability;
  value_type : option ValueType;
  value : Value
}.

Record CapsuleBinding := mkCapsule { capsule_name : str; capsule_binding : Binding }.

Definition ScopeFrame : Type := list (str * Binding).

(** The frames, innermost last. *)
Record ScopeStack := mkScope { frames : list ScopeFrame }.

Inductive ScopeError :=
| DuplicateBinding (name : str)
| ReservedBinding (name : str)
| UnknownBinding (name : str)
| ImmutableBinding (name : str)
| TypeMismatch (expected : ValueType) (actual : str)
| CannotPopRoot.

Definition ScopeStack_new : ScopeStack := mkScope [[]].

Definition depth (self : ScopeStack) : nat := length (frames self).

Definition freeze (b : Binding) : Binding := mkBinding Immutable (value_type b) (value b).

Definition captured_snapshot (self : ScopeStack) : ScopeStack :=
  mkScope ((λ frame : ScopeFrame, (λ e, (e.1, freeze e.2)) <$> frame) <$> frames self).

Definition push_frame (self : ScopeStack) : ScopeStack := mkScope (frames self ++ [[]]).

Definition pop_frame (self : ScopeStack) : res ScopeError unit * ScopeStack :=
  if length (frames self) =? 1 then (Err CannotPopRoot, self)
  else (Ok tt, mkScope (butlast (frames self))).

(** The first binding of a name in one frame. *)
Fixpoint frame_find (frame : ScopeFrame) (name : str) : option Binding :=
  match frame with
  | [] => None
  | (candidate, b) :: frame => if str_eqb candidate name then Some b else frame_find frame name
  end.

Definition find_binding (self : ScopeStack) (name : str) : option Binding :=
  foldr (λ frame found, match found with Some b => Some b | None => frame_find frame name end)
    None (frames self).

(** Whether an annotation admits a value. *)
Definition admits (t : option ValueType) (v : Value) : bool :=
  match t with Some expected => accepts expected v | None => true end.

Definition mismatch (t : option ValueType) (v : Value) : ScopeError :=
  TypeMismatch (default TAny t) (family_name v).

Definition declare_typed (self : ScopeStack) (name : str) (m : BindingMutability) (v : Value)
    (t : option ValueType) : res ScopeError unit * ScopeStack :=
  match last (frames self) with
  | None => (Panic, self)
  | Some current =>
    if existsb (λ e, str_eqb e.1 name) current then (Err (DuplicateBinding name), self)
    else if negb (admits t v) then (Err (mismatch t v), self)
    else (Ok tt, mkScope (butlast (frames self) ++ [current ++ [(name, mkBinding m t v)]]))
  end.

Definition declare (self : ScopeStack) (name : str) (m : BindingMutability) (v : Value)
    : res ScopeError unit * ScopeStack := declare_typed self name m v None.

Definition get (self : ScopeStack) (name : str) : option Value := value <$> find_binding self name.

Definition declared_type (self : ScopeStack) (name : str) : option ValueType :=
  find_binding self name ≫= value_type.

Definition mutability_of (self : ScopeStack) (name : str) : option BindingMutability :=
  mutability <$> find_binding self name.

Definition values (self : ScopeStack) : list Value :=
  mjoin ((λ frame : ScopeFrame, (λ e, value e.2) <$> frame) <$> frames self).

(** Replace the first binding of a name in a frame. *)
Fixpoint frame_set (frame : ScopeFrame) (name : str) (b : Binding) : ScopeFrame :=
  match frame with
  | [] => []
  | (candidate, b') :: frame =>
    if str_eqb candidate name then (candidate, b) :: frame
    else (candidate, b') :: frame_set frame name b
  end.

Fixpoint frame_remove (frame : ScopeFrame) (name : str) : ScopeFrame :=
  match frame with
  | [] => []
  | (candidate, b) :: frame =>
    if str_eqb candidate name then frame else (candidate, b) :: frame_remove frame name
  end.

(** Walk the frames from the innermost one to the first that binds [name] and
    let [f] decide there. *)
Fixpoint at_innermost {A} (name : str) (f : ScopeFrame → Binding → A * ScopeFrame)
    (fs : list ScopeFrame) : option A * list ScopeFrame :=
  match fs with
  | [] => (None, [])
  | frame :: fs =>
    match at_innermost name f fs with
    | (Some a, fs) => (Some a, frame :: fs)
    | (None, fs) =>
      match frame_find frame name with
      | Some b => let '(a, frame) := f frame b in (Some a, frame :: fs)
      | None => (None, frame :: fs)
      end
    end
  end.

Definition assign (self : ScopeStack) (name : str) (v : Value) : res ScopeError unit * ScopeStack :=
  match at_innermost name (λ frame b,
    if bool_decide (mutability b = Immutable) then (Err (ImmutableBinding name), frame)
    else if negb (admits (value_type b) v) then (Err (mismatch (value_type b) v), frame)
    else (Ok tt, frame_set frame name (mkBinding (mutability b) (value_type b) v))) (frames self)
  with
  | (Some r, fs) => (r, mkScope fs)
  | (None, fs) => (Err (UnknownBinding name), mkScope fs)
  end.

Definition assign_prevalidated_list (self : ScopeStack) (name : str) (items : list Value)
    : res ScopeError unit * ScopeStack :=
  match at_innermost name (λ frame b,
    if bool_decide (mutability b = Immutable) then (Err (ImmutableBinding name), frame)
    else (Ok tt, frame_set frame name (mkBinding (mutability b) (value_type b) (VList items))))
    (frames self)
  with
  | (Some r, fs) => (r, mkScope fs)
  | (None, fs) => (Err (UnknownBinding name), mkScope fs)
  end.

Definition remove (self : ScopeStack) (name : str) : option Value * ScopeStack :=
  let '(v, fs) := at_innermost name (λ frame b, (value b, frame_remove frame name)) (frames self) in
  (v, mkScope fs).

(** ** Visible bindings and capsules *)

(** Inner frames override outer ones; the result is in name order. *)
Definition visible (self : ScopeStack) : list (str * Binding) :=
  foldl (λ m frame, foldl (λ m e, map_insert e.1 e.2 m) m frame) [] (frames self).

Definition visible_bindings (self : ScopeStack) : list (str * Value) :=
  (λ e, (e.1, value e.2)) <$> visible self.

Definition capsule_bindings (self : ScopeStack) : list CapsuleBinding :=
  (λ e, mkCapsule e.1 e.2) <$> visible self.

Fixpoint declare_all (self : ScopeStack) (bindings : list CapsuleBinding) : res ScopeError ScopeStack :=
  match bindings with
  | [] => Ok self
  | c :: bindings =>
    let b := capsule_binding c in
    match declare_typed self (capsule_name c) (mutability b) (value b) (value_type b) with
    | (Ok _, self) => declare_all self bindings
    | (Err e, _) => Err e
    | (Panic, _) => Panic
    end
  end.

Definition from_capsule_bindings (bindings : list CapsuleBinding) : res ScopeError ScopeStack :=
  declare_all ScopeStack_new bindings.

(** [PartialEq] of optional types and of bindings, derived. *)
Definition type_eqb (a b : option ValueType) : bool :=
  match a, b with
  | None, None => true
  | Some a, Some b => ValueType_eqb a b
  | _, _ => false
  end.

Definition binding_eqb (a b : Binding) : bool :=
  bool_decide (mutability a = mutability b) && type_eqb (value_type a) (value_type b) &&
  value_eqb error_eqb (value a) (value b).

Definition found_eqb (a b : option Binding) : bool :=
  match a, b with
  | None, None => true
  | Some a, Some b => binding_eqb a b
  | _, _ => false
  end.

(** The two collected maps and the union of their keys, in order. *)
Definition changed_names (base updated : list (str * Binding)) : list str :=
  (foldl (λ m k, map_insert k tt m) [] (base.*1 ++ updated.*1)).*1.

Definition apply_name (base updated : list (str * Binding)) (self : ScopeStack) (name : str)
    : res ScopeError unit * ScopeStack :=
  let base_binding := map_get base name in
  let updated_binding := map_get updated name in
  if found_eqb base_binding updated_binding then (Ok tt, self)
  else
    let replace (_ : unit) :=
      let self := (remove self name).2 in
      match updated_binding with
      | Some b => declare_typed self name (mutability b) (value b) (value_type b)
      | None => (Ok tt, self)
      end in
    match base_binding, updated_binding with
    | Some b, Some u =>
      if bool_decide (mutability b = mutability u) && type_eqb (value_type b) (value_type u)
      then assign self name (value u)
      else replace tt
    | _, _ => replace tt
    end.

Fixpoint apply_names (base updated : list (str * Binding)) (names : list str) (self : ScopeStack)
    : res ScopeError unit * ScopeStack :=
  match names with
  | [] => (Ok tt, self)
  | name :: names =>
    match apply_name base updated self name with
    | (Ok _, self) => apply_names base updated names self
    | other => other
    end
  end.

(** The capsule bindings are collected again under their names, which changes
    nothing: they are in name order already. *)
Definition apply_capsule_delta (self base updated : ScopeStack) : res ScopeError unit * ScopeStack :=
  apply_names (visible base) (visible updated) (changed_names (visible base) (visible updated)) self.

End Scopes.

Arguments Binding : clear implicits.
Arguments CapsuleBinding : clear implicits.
Arguments ScopeStack : clear implicits.
Arguments ScopeFrame : clear implicits.
