(* ===== verification/ScopeFacts.v ===== *)
(** * Correctness of lexical scopes

    Lookup after each operation, the typing invariant every operation keeps,
    and the two ways a scope crosses a capsule boundary: as a whole and as a
    delta. *)
From S2P Require Import Prelude Order Value ValueFacts Scope.

Local Open Scope res_scope.

Section Facts.
Context {RuntimeError : Type} (error_eqb : RuntimeError → RuntimeError → bool).

Notation Value := (Value RuntimeError).
Notation Binding := (Binding RuntimeError).
Notation ScopeStack := (ScopeStack RuntimeError).
Notation ScopeFrame := (ScopeFrame RuntimeError).
Notation find_in fs name := (find_binding (mkScope fs) name).

(** ** Frames *)

Lemma find_in_app (pre : list ScopeFrame) fs name :
  find_in (pre ++ fs) name =
  match find_in fs name with Some b => Some b | None => find_in pre name end.
Proof.
  unfold find_binding. simpl. induction pre as [|f pre IH]; simpl; [by case_match|].
  rewrite IH. by destruct (foldr _ None fs).
Qed.

Lemma find_in_one (f : ScopeFrame) name : find_in [f] name = frame_find f name.
Proof. done. Qed.

Lemma find_in_cons (f : ScopeFrame) fs name :
  find_in (f :: fs) name =
  match find_in fs name with Some b => Some b | None => frame_find f name end.
Proof. done. Qed.

Lemma frame_find_None (f : ScopeFrame) name : frame_find f name = None ↔ name ∉ f.*1.
Proof. exact (map_get_None f name). Qed.

Lemma frame_find_elem (f : ScopeFrame) name b : frame_find f name = Some b → (name, b) ∈ f.
Proof.
  induction f as [|[c b'] f IH]; simpl; [done|]. destruct (str_eqb c name) eqn:E.
  - apply str_eqb_eq in E as ->. intros [= ->]. left.
  - intros H. right. auto.
Qed.

Lemma frame_find_snoc (f : ScopeFrame) name b n :
  frame_find f name = None →
  frame_find (f ++ [(name, b)]) n = if str_eqb name n then Some b else frame_find f n.
Proof.
  intros Hn. induction f as [|[c b'] f IH]; simpl; [done|]. simpl in Hn.
  destruct (str_eqb c name) eqn:E; [done|]. rewrite IH by done.
  destruct (str_eqb c n) eqn:E1; [|done]. destruct (str_eqb name n) eqn:E2; [|done].
  apply str_eqb_eq in E1, E2. subst. by rewrite (proj2 (str_eqb_eq n n)) in E.
Qed.

Lemma frame_find_set (f : ScopeFrame) name b n :
  name ∈ f.*1 → frame_find (frame_set f name b) n = if str_eqb name n then Some b else frame_find f n.
Proof.
  induction f as [|[c b'] f IH]; simpl; [by intros ?%not_elem_of_nil|].
  destruct (str_eqb c name) eqn:E; simpl.
  - apply str_eqb_eq in E as ->. intros _. by destruct (str_eqb name n).
  - intros [->|Hin]%elem_of_cons; [by rewrite (proj2 (str_eqb_eq c c)) in E|].
    rewrite IH by done. destruct (str_eqb c n) eqn:E1; [|done].
    destruct (str_eqb name n) eqn:E2; [|done]. apply str_eqb_eq in E1, E2. subst.
    by rewrite (proj2 (str_eqb_eq n n)) in E.
Qed.

Lemma frame_set_names (f : ScopeFrame) name b : (frame_set f name b).*1 = f.*1.
Proof.
  induction f as [|[c b'] f IH]; [done|]. cbn [frame_set].
  destruct (str_eqb c name); rewrite !fmap_cons; [done|]. by rewrite IH.
Qed.

Lemma frame_remove_sub (f : ScopeFrame) name : sublist (frame_remove f name) f.
Proof.
  induction f as [|[c b'] f IH]; simpl; [done|]. destruct (str_eqb c name).
  - by apply sublist_cons.
  - by apply sublist_skip.
Qed.

Lemma frame_remove_names (f : ScopeFrame) name : sublist (frame_remove f name).*1 f.*1.
Proof.
  induction f as [|[c b'] f IH]; [done|]. cbn [frame_remove]. destruct (str_eqb c name).
  - by apply sublist_cons.
  - by apply sublist_skip.
Qed.

Lemma frame_find_remove (f : ScopeFrame) name n :
  NoDup f.*1 →
  frame_find (frame_remove f name) n = if str_eqb name n then None else frame_find f n.
Proof.
  induction f as [|[c b'] f IH]; simpl; [by destruct (str_eqb name n)|].
  intros [Hc Hnd]%NoDup_cons. destruct (str_eqb c name) eqn:E; simpl.
  - apply str_eqb_eq in E as ->. destruct (str_eqb name n) eqn:E1; [|done].
    apply str_eqb_eq in E1 as <-. by apply frame_find_None.
  - rewrite IH by done. destruct (str_eqb c n) eqn:E1; [|done].
    destruct (str_eqb name n) eqn:E2; [|done]. apply str_eqb_eq in E1, E2. subst.
    by rewrite (proj2 (str_eqb_eq n n)) in E.
Qed.

(** The innermost frame that binds a name, and what surrounds it. *)
Lemma at_innermost_spec {A} name (f : ScopeFrame → Binding → A * ScopeFrame) fs :
  match find_in fs name with
  | None => at_innermost name f fs = (None, fs)
  | Some b => ∃ pre frame post,
      fs = pre ++ frame :: post ∧ frame_find frame name = Some b ∧ find_in post name = None ∧
      at_innermost name f fs = (Some (f frame b).1, pre ++ (f frame b).2 :: post)
  end.
Proof.
  induction fs as [|fr fs IH]; simpl; [done|]. rewrite find_in_cons.
  destruct (find_in fs name) as [b|] eqn:Hf.
  - destruct IH as (pre & frame & post & -> & Hb & Hp & ->).
    exists (fr :: pre), frame, post. done.
  - rewrite IH. destruct (frame_find fr name) as [b|] eqn:Hfr; [|done].
    exists [], fr, fs. split_and!; [done|done|done|]. by destruct (f fr b).
Qed.

Lemma at_innermost_ext {A} name (f g : ScopeFrame → Binding → A * ScopeFrame) fs b :
  find_in fs name = Some b → (∀ frame, f frame b = g frame b) →
  at_innermost name f fs = at_innermost name g fs.
Proof.
  intros Hb Hfg. induction fs as [|fr fs IH]; [done|]. simpl. rewrite find_in_cons in Hb.
  destruct (find_in fs name) as [b'|] eqn:Hf.
  - injection Hb as ->. rewrite (IH eq_refl). pose proof (at_innermost_spec name g fs) as H. rewrite Hf in H.
    by destruct H as (pre & frame & post & _ & _ & _ & ->).
  - pose proof (at_innermost_spec name f fs) as H1. pose proof (at_innermost_spec name g fs) as H2.
    rewrite Hf in H1, H2. rewrite H1, H2, Hb. by rewrite Hfg.
Qed.

(** ** Well-formed stacks *)

Definition conforms (b : Binding) : Prop := admits (value_type b) (value b) = true.

Definition frame_wf (f : ScopeFrame) : Prop := NoDup f.*1 ∧ Forall (λ e, conforms e.2) f.

Definition scope_wf (s : ScopeStack) : Prop := frames s ≠ [] ∧ Forall frame_wf (frames s).

Lemma scope_wf_find s name b : scope_wf s → find_binding s name = Some b → conforms b.
Proof.
  intros [_ Hall]. destruct s as [fs]. simpl in Hall. induction Hall as [|f fs [_ Hf] _ IH]; [done|].
  rewrite find_in_cons. destruct (find_in fs name) as [b'|]; [exact IH|].
  intros Hb%frame_find_elem. rewrite list.Forall_forall in Hf. exact (Hf _ Hb).
Qed.

Lemma frames_wf_middle pre f post :
  Forall frame_wf (pre ++ f :: post) ↔ Forall frame_wf pre ∧ frame_wf f ∧ Forall frame_wf post.
Proof. by rewrite Forall_app, list.Forall_cons. Qed.

Lemma frame_wf_set (f : ScopeFrame) name b : frame_wf f → conforms b → frame_wf (frame_set f name b).
Proof.
  intros [Hnd Hall] Hb. split; [by rewrite frame_set_names|]. clear Hnd.
  induction Hall as [|[c b'] f Hc Hall IH]; simpl; [constructor|].
  destruct (str_eqb c name); by constructor.
Qed.

Lemma frame_wf_remove (f : ScopeFrame) name : frame_wf f → frame_wf (frame_remove f name).
Proof.
  intros [Hnd Hall]. split.
  - eapply sublist_NoDup; [exact Hnd|apply frame_remove_names].
  - rewrite list.Forall_forall in *. intros e He. apply Hall.
    eapply elem_of_sublist; [exact He|apply frame_remove_sub].
Qed.

(** ** The operations *)

Lemma last_frame (s : ScopeStack) :
  scope_wf s → ∃ pre cur, frames s = pre ++ [cur] ∧ last (frames s) = Some cur ∧
    butlast (frames s) = pre ∧ Forall frame_wf pre ∧ frame_wf cur.
Proof.
  intros [Hne Hall]. destruct (exists_last Hne) as (pre & cur & Hf). exists pre, cur.
  rewrite Hf in *. rewrite last_snoc, butlast_snoc.
  apply Forall_app in Hall as [H1 H2]. apply Forall_cons_1 in H2 as [H2 _]. done.
Qed.

Lemma declare_typed_cases (s : ScopeStack) name m v t :
  scope_wf s →
  match declare_typed s name m v t with
  | (Ok _, s') =>
      frame_find (default [] (last (frames s))) name = None ∧ admits t v = true ∧ scope_wf s' ∧
      length (frames s') = length (frames s) ∧
      ∀ n, find_binding s' n = if str_eqb name n then Some (mkBinding m t v) else find_binding s n
  | (Err e, s') => s' = s ∧
      (e = DuplicateBinding name ∧ is_Some (frame_find (default [] (last (frames s))) name) ∨
       e = mismatch t v ∧ admits t v = false ∧
       frame_find (default [] (last (frames s))) name = None)
  | (Panic, _) => False
  end.
Proof.
  intros Hwf. destruct (last_frame s Hwf) as (pre & cur & Hf & Hl & Hb & Hpre & Hcur).
  destruct s as [fs]. simpl in *. unfold declare_typed. simpl. rewrite Hl, Hb. simpl.
  destruct (existsb _ cur) eqn:He.
  - split; [done|]. left. split; [done|]. destruct (frame_find cur name) eqn:Hn; [by eexists|].
    apply frame_find_None in Hn. apply existsb_exists in He as (e & Hin & He).
    apply str_eqb_eq in He as <-. destruct Hn. apply list_elem_of_In in Hin. by apply list_elem_of_fmap_2.
  - assert (frame_find cur name = None) as Hn.
    { apply frame_find_None. intros Hin. apply list_elem_of_fmap in Hin as (e & -> & Hin).
      apply not_true_iff_false in He. apply He, existsb_exists. exists e.
      split; [by apply list_elem_of_In|by apply str_eqb_eq]. }
    destruct (admits t v) eqn:Ha; simpl; [|by split; [|right]].
    assert (∀ n, find_in (pre ++ [cur ++ [(name, mkBinding m t v)]]) n =
      if str_eqb name n then Some (mkBinding m t v) else find_in fs n) as Hfind.
    { intros n. rewrite Hf, !find_in_app, !find_in_one, frame_find_snoc by done.
      by destruct (str_eqb name n). }
    split_and!; [done|done| | |done].
    + split; [by destruct pre|]. simpl. apply Forall_app. split; [done|]. constructor; [|constructor].
      destruct Hcur as [Hnd Hall]. split.
      * rewrite fmap_app. simpl. apply NoDup_app. apply frame_find_None in Hn.
        split_and!; [done| |apply NoDup_singleton]. by intros x Hx ->%list_elem_of_singleton.
      * apply Forall_app. split; [done|]. by constructor.
    + by rewrite Hf, !length_app.
Qed.

(** Replacing what the innermost frame that binds [name] holds. *)
Lemma innermost_replaced pre frame frame' post name (b : option Binding) n :
  find_in post name = None →
  (∀ n, frame_find frame' n = if str_eqb name n then b else frame_find frame n) →
  is_Some b →
  find_in (pre ++ frame' :: post) n = if str_eqb name n then b else find_in (pre ++ frame :: post) n.
Proof.
  intros Hpost Hf [b' ->]. rewrite !find_in_app, !find_in_cons, Hf.
  destruct (str_eqb name n) eqn:E; [|done]. apply str_eqb_eq in E as <-. by rewrite Hpost.
Qed.

Lemma assign_cases (s : ScopeStack) name v :
  scope_wf s →
  match find_binding s name with
  | None => assign s name v = (Err (UnknownBinding name), s)
  | Some b =>
    if bool_decide (mutability b = Immutable) then assign s name v = (Err (ImmutableBinding name), s)
    else if negb (admits (value_type b) v) then assign s name v = (Err (mismatch (value_type b) v), s)
    else ∃ s', assign s name v = (Ok tt, s') ∧ scope_wf s' ∧
      length (frames s') = length (frames s) ∧
      ∀ n, find_binding s' n =
        if str_eqb name n then Some (mkBinding Mutable (value_type b) v) else find_binding s n
  end.
Proof.
  intros Hwf. destruct s as [fs]. unfold assign. simpl frames.
  match goal with |- context [at_innermost name ?f fs] =>
    pose proof (at_innermost_spec name f fs) as Hat; set (g := f) in * end.
  destruct (find_in fs name) as [b|]; [|by rewrite Hat].
  destruct Hat as (pre & frame & post & -> & Hb & Hpost & ->). subst g. cbv beta.
  case_bool_decide as Hm; [done|]. destruct (admits (value_type b) v) eqn:Ha; simpl; [|done].
  assert (mutability b = Mutable) as Hmut by by destruct (mutability b).
  rewrite Hmut. eexists. split; [done|].
  assert (name ∈ frame.*1) as Hin.
  { apply frame_find_elem in Hb. by apply (list_elem_of_fmap_2 fst) in Hb. }
  destruct Hwf as [Hne Hall]. simpl in Hall. apply frames_wf_middle in Hall as (H1 & H2 & H3).
  split_and!.
  - split; [by destruct pre|]. simpl. apply frames_wf_middle. split_and!; [done| |done].
    by apply frame_wf_set.
  - simpl. by rewrite !length_app.
  - intros n. apply innermost_replaced; [done| |by eexists]. intros n'. by apply frame_find_set.
Qed.

(** The caller of [assign_prevalidated_list] replaces one slot of the list the
    binding holds, by a value it has checked against the declared element
    type. *)
Definition prevalidated (s : ScopeStack) name (items : list Value) : Prop :=
  ∃ old slot replacement, get s name = Some (VList old) ∧ items = <[slot := replacement]> old ∧
    match declared_type s name with
    | Some (TList element) => accepts element replacement = true
    | _ => True
    end.

Lemma accepts_replaced t (old : list Value) slot v :
  accepts t (VList old) = true → match t with TList element => accepts element v = true | _ => True end →
  accepts t (VList (<[slot := v]> old)) = true.
Proof.
  intros Hold Hv. destruct t; try done. cbn [accepts] in *. rewrite !forallb_forall in *.
  intros x [i Hx]%list_elem_of_In%list_elem_of_lookup.
  apply list_lookup_insert_Some in Hx as [(_ & <- & _)|[_ Hx]]; [done|].
  apply Hold, list_elem_of_In. by eapply list_elem_of_lookup_2.
Qed.

Lemma assign_prevalidated_list_cases (s : ScopeStack) name items :
  scope_wf s → prevalidated s name items →
  ∃ b, find_binding s name = Some b ∧
    if bool_decide (mutability b = Immutable)
    then assign_prevalidated_list s name items = (Err (ImmutableBinding name), s)
    else ∃ s', assign_prevalidated_list s name items = (Ok tt, s') ∧ scope_wf s'.
Proof.
  intros Hwf (old & slot & v & Hget & -> & Hv). unfold get, declared_type in *.
  destruct (find_binding s name) as [b|] eqn:Hb; [|done]. injection Hget as Hold. exists b. split; [done|].
  pose proof (assign_cases s name (VList (<[slot := v]> old)) Hwf) as H. rewrite Hb in H.
  assert (admits (value_type b) (VList (<[slot := v]> old)) = true) as Ha.
  { pose proof (scope_wf_find _ _ _ Hwf Hb) as Hc. unfold conforms, admits in *.
    destruct b as [m [t|] w]; [|done]. simpl in *. subst w. by apply accepts_replaced. }
  unfold assign, assign_prevalidated_list in *.
  match goal with |- context [at_innermost name ?f _] => set (g := f) end.
  match type of H with context [at_innermost name ?f _] => set (h := f) in H end.
  assert (at_innermost name g (frames s) = at_innermost name h (frames s)) as ->.
  { apply (at_innermost_ext name g h _ b); [by destruct s|]. intros frame. subst g h. cbv beta. by rewrite Ha. }
  case_bool_decide; [done|]. rewrite Ha in H. simpl in H. destruct H as (s' & ? & ? & _). by exists s'.
Qed.

Lemma remove_cases (s : ScopeStack) name :
  scope_wf s →
  (remove s name).1 = get s name ∧ scope_wf (remove s name).2 ∧
  length (frames (remove s name).2) = length (frames s) ∧
  (∀ n, n ≠ name → find_binding (remove s name).2 n = find_binding s n) ∧
  (length (frames s) = 1 → find_binding (remove s name).2 name = None).
Proof.
  intros Hwf. destruct s as [fs]. unfold remove, get. simpl frames.
  match goal with |- context [at_innermost name ?f fs] =>
    pose proof (at_innermost_spec name f fs) as Hat; set (g := f) in * end.
  destruct (find_in fs name) as [b|] eqn:Hfind; [|by rewrite Hat].
  destruct Hat as (pre & frame & post & -> & Hb & Hpost & ->). subst g. simpl.
  destruct Hwf as [Hne Hall]. simpl in Hall. apply frames_wf_middle in Hall as (H1 & H2 & H3).
  assert (∀ n, frame_find (frame_remove frame name) n =
    if str_eqb name n then None else frame_find frame n) as Hrm.
  { intros n. apply frame_find_remove, H2. }
  split_and!; [done| | | |].
  - split; [by destruct pre|]. simpl. apply frames_wf_middle. split_and!; [done| |done].
    by apply frame_wf_remove.
  - by rewrite !length_app.
  - intros n Hn. rewrite !find_in_app, !find_in_cons, Hrm.
    destruct (str_eqb name n) eqn:E; [|done]. apply str_eqb_eq in E. congruence.
  - rewrite length_app. simpl. intros Hlen.
    assert (pre = [] ∧ post = []) as [-> ->].
    { destruct pre, post; simpl in Hlen; try lia. done. }
    simpl. rewrite find_in_one, Hrm. by rewrite (proj2 (str_eqb_eq name name)).
Qed.

(** ** Visible bindings *)

Lemma insert_frame_spec (f : ScopeFrame) m n :
  NoDup f.*1 → keys_sorted m →
  let m' := foldl (λ m e, map_insert e.1 e.2 m) m f in
  keys_sorted m' ∧ map_get m' n = match frame_find f n with Some b => Some b | None => map_get m n end.
Proof.
  revert m. induction f as [|[c b] f IH]; intros m Hnd Hs; simpl; [done|].
  apply NoDup_cons in Hnd as [Hc Hnd].
  destruct (IH (map_insert c b m) Hnd (map_insert_sorted c b m Hs)) as [H1 H2].
  split; [done|]. rewrite H2, map_get_insert. destruct (str_eqb c n) eqn:E; [|done].
  apply str_eqb_eq in E as ->. by rewrite (proj2 (frame_find_None f n)).
Qed.

Lemma visible_spec (s : ScopeStack) :
  scope_wf s → keys_sorted (visible s) ∧ ∀ n, map_get (visible s) n = find_binding s n.
Proof.
  intros [_ Hall]. destruct s as [fs]. unfold visible. simpl in *.
  assert (∀ m, keys_sorted m →
    let m' := foldl (λ m frame, foldl (λ m e, map_insert e.1 e.2 m) m frame) m fs in
    keys_sorted m' ∧ ∀ n, map_get m' n = match find_in fs n with Some b => Some b | None => map_get m n end)
    as H.
  { induction Hall as [|f fs [Hnd _] _ IH]; intros m Hm; simpl; [done|].
    destruct (IH _ (proj1 (insert_frame_spec f m [] Hnd Hm))) as [H1 H2]. split; [done|].
    intros n. rewrite H2, find_in_cons. destruct (find_in fs n); [done|].
    apply (insert_frame_spec f m n Hnd Hm). }
  destruct (H [] ltac:(constructor)) as [H1 H2]. split; [done|]. intros n. rewrite H2.
  by destruct (find_in fs n).
Qed.

Lemma visible_conforms (s : ScopeStack) e : scope_wf s → e ∈ visible s → conforms e.2.
Proof.
  intros Hwf He. destruct (visible_spec s Hwf) as [Hs Hg]. destruct e as [n b].
  apply (map_get_Some _ n b Hs) in He. rewrite Hg in He. by eapply scope_wf_find.
Qed.

Lemma keys_sorted_NoDup {V} (m : list (str * V)) : keys_sorted m → NoDup m.*1.
Proof.
  unfold keys_sorted. induction m.*1 as [|k ks IH]; intros Hs; [constructor|].
  apply StronglySorted_inv in Hs as [Hs Hall]. rewrite list.Forall_forall in Hall.
  constructor; [|auto]. intros Hk%Hall. by rewrite bytes_compare_refl in Hk.
Qed.

(** ** Rebuilding a scope from its capsule *)

Lemma ScopeStack_new_wf : scope_wf (ScopeStack_new (RuntimeError:=RuntimeError)).
Proof. split; [done|]. constructor; [|constructor]. split; [constructor|constructor]. Qed.

Lemma declare_all_spec (es : list (str * Binding)) (s : ScopeStack) :
  scope_wf s → length (frames s) = 1 → NoDup es.*1 → Forall (λ e, conforms e.2) es →
  (∀ n, n ∈ es.*1 → find_binding s n = None) →
  ∃ s', declare_all s ((λ e, mkCapsule e.1 e.2) <$> es) = Ok s' ∧ scope_wf s' ∧
    length (frames s') = 1 ∧
    ∀ n, find_binding s' n = match map_get es n with Some b => Some b | None => find_binding s n end.
Proof.
  revert s. induction es as [|[k [m t v]] es IH]; intros s Hwf Hlen Hnd Hall Hfresh.
  { exists s. done. }
  rewrite fmap_cons. cbn [declare_all capsule_name capsule_binding mutability value value_type fst snd].
  apply NoDup_cons in Hnd as [Hk Hnd]. apply Forall_cons_1 in Hall as [Hc Hall].
  pose proof (declare_typed_cases s k m v t Hwf) as Hd.
  assert (frame_find (default [] (last (frames s))) k = None) as Hnone.
  { specialize (Hfresh k (list_elem_of_here _ _)). destruct s as [[|f [|]]]; try done. }
  destruct (declare_typed s k m v t) as [[[]|e|] s']; [| |done].
  - destruct Hd as (_ & _ & Hwf' & Hlen' & Hfind).
    destruct (IH s' Hwf' ltac:(lia) Hnd Hall) as (s2 & Hs2 & Hwf2 & Hlen2 & Hfind2).
    { intros n Hn. rewrite Hfind. destruct (str_eqb k n) eqn:E.
      - apply str_eqb_eq in E as ->. done.
      - apply Hfresh. by right. }
    exists s2. split_and!; [done..|]. intros n. rewrite Hfind2, Hfind. simpl.
    destruct (str_eqb k n) eqn:E; [|done]. apply str_eqb_eq in E as ->.
    by rewrite (proj2 (map_get_None es n)).
  - destruct Hd as [_ [[_ [? Hs]]|(_ & Ha & _)]]; [by rewrite Hnone in Hs|].
    unfold conforms in Hc. simpl in Hc. congruence.
Qed.

(** ** Applying a delta *)

Hypothesis error_equivalence : equivalence_on (λ _, True) error_eqb.

Lemma type_eqb_refl t : type_eqb t t = true.
Proof. destruct t; [apply ValueType_eqb_refl|done]. Qed.

Lemma found_eqb_refl b : found_eqb error_eqb b b = true.
Proof.
  destruct b as [b|]; [|done]. simpl. unfold binding_eqb.
  by rewrite bool_decide_true, type_eqb_refl, value_eqb_refl.
Qed.

Lemma admits_congr t u (v : Value) : type_eqb t u = true → admits u v = true → admits t v = true.
Proof. destruct t, u; simpl; try done. apply accepts_congr. Qed.

(** What the delta asks of a name both scopes bind to different values under
    one declaration: the program assigns it, so it has to be mutable. *)
Definition assignable (b u : option Binding) : Prop :=
  match b, u with
  | Some b, Some u =>
      mutability b = mutability u → type_eqb (value_type b) (value_type u) = true →
      binding_eqb error_eqb b u = false → mutability b = Mutable
  | _, _ => True
  end.

Lemma apply_name_spec (self : ScopeStack) base updated name :
  scope_wf self → length (frames self) = 1 →
  find_binding self name = map_get base name →
  (∀ b, map_get updated name = Some b → conforms b) →
  assignable (map_get base name) (map_get updated name) →
  ∃ self', apply_name error_eqb base updated self name = (Ok tt, self') ∧ scope_wf self' ∧
    length (frames self') = 1 ∧ found_eqb error_eqb (find_binding self' name) (map_get updated name) = true ∧
    ∀ n, n ≠ name → find_binding self' n = find_binding self n.
Proof.
  intros Hwf Hlen Hbase Hconf Hass. unfold apply_name.
  destruct (found_eqb error_eqb (map_get base name) (map_get updated name)) eqn:Heq.
  { exists self. rewrite Hbase. done. }
  destruct (remove_cases self name Hwf) as (_ & Hwf' & Hlen' & Hother & Hnone).
  specialize (Hnone Hlen). set (self1 := (remove self name).2) in *.
  assert (∃ self', match map_get updated name with
      | Some b => declare_typed self1 name (mutability b) (value b) (value_type b)
      | None => (Ok tt, self1)
      end = (Ok tt, self') ∧ scope_wf self' ∧ length (frames self') = 1 ∧
    found_eqb error_eqb (find_binding self' name) (map_get updated name) = true ∧
    ∀ n, n ≠ name → find_binding self' n = find_binding self n) as Hreplace.
  { destruct (map_get updated name) as [u|] eqn:Hu.
    - pose proof (declare_typed_cases self1 name (mutability u) (value u) (value_type u) Hwf') as Hd.
      destruct (declare_typed _ _ _ _ _) as [[[]|e|] s']; [| |done].
      + destruct Hd as (_ & _ & Hwf2 & Hlen2 & Hfind). exists s'.
        split_and!; [done|done|lia| |].
        * rewrite Hfind, (proj2 (str_eqb_eq name name)) by done. destruct u. apply (found_eqb_refl (Some _)).
        * intros n Hn. rewrite Hfind, <- Hother by done. destruct (str_eqb name n) eqn:E; [|done].
          apply str_eqb_eq in E. congruence.
      + exfalso. destruct Hd as [_ [[_ [? Hs]]|(_ & Ha & _)]].
        * assert (frame_find (default [] (last (frames self1))) name = None) as Hf; [|by rewrite Hf in Hs].
          rewrite Hlen in Hlen'. destruct self1 as [[|f [|]]]; try done.
        * pose proof (Hconf u eq_refl) as Hc. unfold conforms in Hc. congruence.
    - exists self1. split_and!; [done|done|lia|by rewrite Hnone|done]. }
  destruct (map_get base name) as [b|] eqn:Hb; [|done].
  destruct (map_get updated name) as [u|] eqn:Hu; [|done].
  destruct (bool_decide (mutability b = mutability u)) eqn:Hm; [|done].
  destruct (type_eqb (value_type b) (value_type u)) eqn:Ht; [|done]. simpl.
  apply bool_decide_eq_true in Hm. simpl in Hass. pose proof (Hass Hm Ht Heq) as Hmut.
  pose proof (assign_cases self name (value u) Hwf) as Ha. rewrite Hbase in Ha.
  rewrite bool_decide_false in Ha by congruence.
  rewrite (admits_congr _ _ _ Ht (Hconf u eq_refl)) in Ha. simpl in Ha.
  destruct Ha as (s' & -> & Hwf2 & Hlen2 & Hfind). exists s'. split_and!; [done|done|lia| |].
  - rewrite Hfind, (proj2 (str_eqb_eq name name)) by done. simpl. unfold binding_eqb. simpl.
    rewrite Ht, value_eqb_refl by done. rewrite bool_decide_true; [done|congruence].
  - intros n Hn. rewrite Hfind. destruct (str_eqb name n) eqn:E; [|done].
    apply str_eqb_eq in E. congruence.
Qed.

Lemma apply_names_spec names (self : ScopeStack) base updated :
  scope_wf self → length (frames self) = 1 → NoDup names →
  (∀ n, n ∈ names → find_binding self n = map_get base n) →
  (∀ n b, map_get updated n = Some b → conforms b) →
  (∀ n, n ∈ names → assignable (map_get base n) (map_get updated n)) →
  ∃ self', apply_names error_eqb base updated names self = (Ok tt, self') ∧ scope_wf self' ∧
    length (frames self') = 1 ∧
    (∀ n, n ∈ names → found_eqb error_eqb (find_binding self' n) (map_get updated n) = true) ∧
    ∀ n, n ∉ names → find_binding self' n = find_binding self n.
Proof.
  revert self. induction names as [|name names IH]; intros self Hwf Hlen Hnd Hbase Hconf Hass.
  { exists self. split_and!; try done. by intros n []%not_elem_of_nil. }
  apply NoDup_cons in Hnd as [Hname Hnd].
  destruct (apply_name_spec self base updated name Hwf Hlen (Hbase _ (list_elem_of_here _ _))
    (Hconf name) (Hass _ (list_elem_of_here _ _))) as (s1 & Hs1 & Hwf1 & Hlen1 & Heq1 & Ho1).
  destruct (IH s1 Hwf1 Hlen1 Hnd) as (s2 & Hs2 & Hwf2 & Hlen2 & Heq2 & Ho2).
  - intros n Hn. rewrite Ho1; [apply Hbase; by right|]. by intros ->.
  - done.
  - intros n Hn. apply Hass. by right.
  - exists s2. cbn [apply_names]. rewrite Hs1. split_and!; [done|done|done| |].
    + intros n [->|Hn]%elem_of_cons; [by rewrite Ho2|auto].
    + intros n [H1 H2]%not_elem_of_cons. by rewrite Ho2, Ho1.
Qed.

Lemma changed_names_spec (base updated : list (str * Binding)) :
  NoDup (changed_names base updated) ∧
  ∀ n, n ∈ changed_names base updated ↔ n ∈ base.*1 ∨ n ∈ updated.*1.
Proof.
  unfold changed_names.
  assert (∀ ks (m : list (str * unit)), keys_sorted m →
    keys_sorted (foldl (λ m k, map_insert k tt m) m ks) ∧
    ∀ n, n ∈ (foldl (λ m k, map_insert k tt m) m ks).*1 ↔ n ∈ m.*1 ∨ n ∈ ks) as H.
  { induction ks as [|k ks IH]; intros m Hm; simpl.
    - split; [done|]. intros n. rewrite elem_of_nil. tauto.
    - destruct (IH (map_insert k tt m) (map_insert_sorted k tt m Hm)) as [H1 H2].
      split; [done|]. intros n. rewrite H2, map_insert_keys, elem_of_cons. tauto. }
  destruct (H (base.*1 ++ updated.*1) [] ltac:(constructor)) as [H1 H2].
  split; [by apply keys_sorted_NoDup|]. intros n. rewrite H2, elem_of_app.
  rewrite elem_of_nil. tauto.
Qed.
End Facts.

(** ** Sequences of operations *)

Section Theorems.
Context {RuntimeError : Type} (error_eqb : RuntimeError → RuntimeError → bool).

Notation Value := (Value RuntimeError).
Notation Binding := (Binding RuntimeError).
Notation ScopeStack := (ScopeStack RuntimeError).

Inductive ScopeOp :=
| OpPush | OpPop
| OpDeclare (name : str) (m : BindingMutability) (v : Value) (t : option ValueType)
| OpAssign (name : str) (v : Value)
| OpAssignPrevalidatedList (name : str) (items : list Value)
| OpRemove (name : str)
| OpCapture.

Definition run_op (s : ScopeStack) (op : ScopeOp) : res (ScopeError) unit * ScopeStack :=
  match op with
  | OpPush => (Ok tt, push_frame s)
  | OpPop => pop_frame s
  | OpDeclare name m v t => declare_typed s name m v t
  | OpAssign name v => assign s name v
  | OpAssignPrevalidatedList name items => assign_prevalidated_list s name items
  | OpRemove name => (Ok tt, (remove s name).2)
  | OpCapture => (Ok tt, captured_snapshot s)
  end.

Definition run_ops (ops : list ScopeOp) : ScopeStack :=
  foldl (λ s op, (run_op s op).2) ScopeStack_new ops.

(** What callers promise of an operation, and of each one of a sequence where it
    is applied. *)
Definition op_promised (s : ScopeStack) (op : ScopeOp) : Prop :=
  match op with
  | OpAssignPrevalidatedList name items => prevalidated s name items
  | _ => True
  end.

Fixpoint promised_from (s : ScopeStack) (ops : list ScopeOp) : Prop :=
  match ops with
  | [] => True
  | op :: ops => op_promised s op ∧ promised_from (run_op s op).2 ops
  end.

Definition promised (ops : list ScopeOp) : Prop := promised_from ScopeStack_new ops.

Lemma freeze_frame_wf (f : ScopeFrame RuntimeError) :
  frame_wf f → frame_wf ((λ e, (e.1, freeze e.2)) <$> f).
Proof.
  intros [Hnd Hall]. split.
  - rewrite <- list_fmap_compose. exact Hnd.
  - apply Forall_fmap. exact Hall.
Qed.

Lemma run_op_wf (s : ScopeStack) op :
  scope_wf s → op_promised s op → (run_op s op).1 ≠ Panic ∧ scope_wf (run_op s op).2.
Proof.
  intros Hwf Hop. destruct op as [| |name m v t|name v|name items|name|]; simpl.
  - split; [done|]. destruct Hwf as [Hne Hall]. split; simpl; [by destruct (frames s)|].
    apply Forall_app. split; [done|]. constructor; [|constructor]. split; constructor.
  - unfold pop_frame. destruct (length (frames s) =? 1) eqn:Hlen; [by split|].
    apply Nat.eqb_neq in Hlen.
    destruct (last_frame s Hwf) as (pre & cur & Hf & _ & Hb & Hpre & _). simpl. rewrite Hb.
    split; [done|]. split; [|done]. simpl. intros ->. by rewrite Hf in Hlen.
  - pose proof (declare_typed_cases s name m v t Hwf) as Hd.
    destruct (declare_typed s name m v t) as [[[]|e|] s']; [by split; [|apply Hd]| |done].
    destruct Hd as [-> _]. by split.
  - pose proof (assign_cases s name v Hwf) as Ha.
    destruct (find_binding s name) as [b|]; [|by rewrite Ha].
    case_bool_decide; [by rewrite Ha|]. destruct (admits (value_type b) v); simpl in Ha.
    + destruct Ha as (s' & -> & Hwf' & _). by split.
    + by rewrite Ha.
  - destruct (assign_prevalidated_list_cases s name items Hwf Hop) as (b & _ & H).
    case_bool_decide; [by rewrite H|]. by destruct H as (s' & -> & ?).
  - split; [done|]. by apply remove_cases.
  - split; [done|]. destruct Hwf as [Hne Hall]. split; simpl.
    + by destruct (frames s).
    + apply Forall_fmap. eapply Forall_impl; [exact Hall|]. intros f. apply freeze_frame_wf.
Qed.

Lemma run_ops_wf ops : promised ops → scope_wf (run_ops ops).
Proof.
  unfold run_ops, promised. assert (∀ s : ScopeStack, scope_wf s → promised_from s ops →
    scope_wf (foldl (λ s op, (run_op s op).2) s ops)) as H; [|apply H, ScopeStack_new_wf].
  induction ops as [|op ops IH]; intros s Hs Hops; [done|]. destruct Hops as [Hop Hops]. simpl.
  apply IH; [by apply run_op_wf|done].
Qed.

(** C36: after any sequence of operations on a fresh scope the next one does not
    panic (the root frame is never lost), no frame binds a name twice, and
    every visible binding that declares a type holds a value of that type.  The
    one operation that stores without a check is applied as its caller does:
    with one slot of the held list replaced by a value of the declared element
    type. *)
Theorem scope_typing_invariant (ops : list ScopeOp) :
  promised ops →
  (∀ op, op_promised (run_ops ops) op → (run_op (run_ops ops) op).1 ≠ Panic) ∧
  Forall (λ f, NoDup f.*1) (frames (run_ops ops)) ∧
  ∀ name t v, declared_type (run_ops ops) name = Some t → get (run_ops ops) name = Some v →
    accepts t v = true.
Proof.
  intros Hops. pose proof (run_ops_wf ops Hops) as Hwf. split_and!.
  - intros op Hop. by apply run_op_wf.
  - destruct Hwf as [_ Hall]. eapply Forall_impl; [exact Hall|]. by intros f [Hnd _].
  - intros name t v. unfold declared_type, get.
    destruct (find_binding (run_ops ops) name) as [b|] eqn:Hb; [|done]. simpl.
    intros Ht [= <-]. pose proof (scope_wf_find _ _ _ Hwf Hb) as Hc.
    unfold conforms, admits in Hc. by rewrite Ht in Hc.
Qed.

(** Assignment acts on the innermost binding of the name and nothing else:
    it fails, changing nothing, on an unknown name, an immutable cell or a
    value of the wrong type, and otherwise replaces just that binding's value. *)
Theorem assign_innermost (ops : list ScopeOp) (name : str) (v : Value) :
  promised ops →
  let s := run_ops ops in
  match find_binding s name with
  | None => assign s name v = (Err (UnknownBinding name), s)
  | Some b =>
    if bool_decide (mutability b = Immutable) then assign s name v = (Err (ImmutableBinding name), s)
    else if negb (admits (value_type b) v) then assign s name v = (Err (mismatch (value_type b) v), s)
    else ∃ s', assign s name v = (Ok tt, s') ∧ depth s' = depth s ∧
      ∀ n, find_binding s' n =
        if str_eqb name n then Some (mkBinding Mutable (value_type b) v) else find_binding s n
  end.
Proof.
  intros Hops s. pose proof (assign_cases s name v (run_ops_wf ops Hops)) as H.
  destruct (find_binding s name) as [b|]; [|done].
  case_bool_decide; [done|]. destruct (admits (value_type b) v); simpl in *; [|done].
  destruct H as (s' & Ha & _ & Hlen & Hf). by exists s'.
Qed.

(** A scope rebuilt from its capsule is one frame that shows every name with
    the binding it had: mutability, declared type and value. *)
Theorem capsule_roundtrip (ops : list ScopeOp) :
  promised ops →
  let s := run_ops ops in
  ∃ s', from_capsule_bindings (capsule_bindings s) = Ok s' ∧ depth s' = 1 ∧
    ∀ name, find_binding s' name = find_binding s name.
Proof.
  intros Hops s. pose proof (run_ops_wf ops Hops) as Hwf. fold s in Hwf.
  destruct (visible_spec s Hwf) as [Hs Hg].
  destruct (declare_all_spec (visible s) ScopeStack_new ScopeStack_new_wf eq_refl
    (keys_sorted_NoDup _ Hs)) as (s' & Hd & _ & Hlen & Hf).
  - apply list.Forall_forall. intros e. by apply visible_conforms.
  - done.
  - exists s'. split_and!; [done|done|]. intros name. rewrite Hf, Hg. by destruct (find_binding s name).
Qed.

(** Applying the delta between two scopes to a one-frame scope that agrees
    with the base succeeds, and leaves it showing exactly what the updated
    scope shows, provided a name both declare alike with different values is
    mutable. *)
Theorem capsule_delta_applies (base updated target : list ScopeOp) :
  equivalence_on (λ _, True) error_eqb →
  promised base → promised updated → promised target →
  depth (run_ops target) = 1 →
  (∀ n, find_binding (run_ops target) n = find_binding (run_ops base) n) →
  (∀ n, assignable error_eqb (find_binding (run_ops base) n) (find_binding (run_ops updated) n)) →
  ∃ s', apply_capsule_delta error_eqb (run_ops target) (run_ops base) (run_ops updated) = (Ok tt, s') ∧
    ∀ n, found_eqb error_eqb (find_binding s' n) (find_binding (run_ops updated) n) = true.
Proof.
  intros Herr Hpb Hpu Hpt Hdepth Hagree Hass.
  pose proof (run_ops_wf base Hpb) as Hb. pose proof (run_ops_wf updated Hpu) as Hu.
  destruct (visible_spec _ Hb) as [_ Hgb]. destruct (visible_spec _ Hu) as [Hsu Hgu].
  destruct (changed_names_spec (visible (run_ops base)) (visible (run_ops updated))) as [Hnd Hin].
  destruct (apply_names_spec error_eqb Herr
    (changed_names (visible (run_ops base)) (visible (run_ops updated))) (run_ops target)
    (visible (run_ops base)) (visible (run_ops updated)) (run_ops_wf target Hpt) Hdepth Hnd)
    as (s' & Hs' & _ & _ & Heq & Hother).
  - intros n _. by rewrite Hgb, Hagree.
  - intros n b Hn. apply (map_get_Some _ n b Hsu) in Hn. by apply (visible_conforms _ (n, b) Hu).
  - intros n _. rewrite Hgb, Hgu. apply Hass.
  - exists s'. split; [done|]. intros n. rewrite <- Hgu.
    destruct (decide (n ∈ changed_names (visible (run_ops base)) (visible (run_ops updated)))) as [Hc|Hc].
    + by apply Heq.
    + rewrite Hother, Hagree, <- Hgb by done. rewrite Hin in Hc.
      assert (n ∉ (visible (run_ops base)).*1 ∧ n ∉ (visible (run_ops updated)).*1) as [H1 H2] by tauto.
      apply map_get_None in H1, H2. by rewrite H1, H2.
Qed.
End Theorems.

(** ** Witnesses *)

Definition sample_ops : list (ScopeOp (RuntimeError:=unit)) :=
  [OpDeclare (bs "x") Mutable (VInt 1) (Some TInt); OpPush;
   OpDeclare (bs "x") Immutable (VString (bs "inner")) None;
   OpDeclare (bs "y") Mutable VNull None].

(** A slot of a list is replaced. *)
Definition list_ops : list (ScopeOp (RuntimeError:=unit)) :=
  [OpDeclare (bs "l") Mutable (VList [VInt 1; VInt 2]) (Some (TList TInt)); OpPush;
   OpAssignPrevalidatedList (bs "l") [VInt 1; VInt 3]].

Lemma list_ops_promised : promised list_ops.
Proof. repeat split. exists [VInt 1; VInt 2], 1, (VInt 3). by repeat split. Qed.

Lemma scope_typing_invariant_witness :
  accepts (TList TInt) (VList [VInt 1; VInt 3] : Value unit) = true.
Proof.
  destruct (scope_typing_invariant list_ops list_ops_promised) as (_ & _ & H).
  apply (H (bs "l")); by vm_compute.
Defined.

Lemma capsule_delta_applies_witness :
  ∃ s', apply_capsule_delta unit_eqb (run_ops (take 1 sample_ops)) (run_ops (take 1 sample_ops))
      (run_ops [OpDeclare (bs "x") Mutable (VInt 7) (Some TInt); OpDeclare (bs "z") Immutable VNull None])
    = (Ok tt, s') ∧
    ∀ n, found_eqb unit_eqb (find_binding s' n)
      (find_binding (run_ops [OpDeclare (bs "x") Mutable (VInt 7) (Some TInt);
                              OpDeclare (bs "z") Immutable VNull None]) n) = true.
Proof.
  apply (capsule_delta_applies unit_eqb (take 1 sample_ops) _ (take 1 sample_ops) unit_equivalence);
    [by repeat split..| | |].
  - by vm_compute.
  - done.
  - intros n. unfold assignable.
    destruct (decide (n = bs "x")) as [->|Hn]; [by vm_compute|].
    assert (find_binding (run_ops (take 1 sample_ops)) n = None) as ->; [|done].
    change (match None with Some b => Some b | None =>
      if str_eqb (bs "x") n then Some (mkBinding Mutable (Some TInt) (VInt 1 : Value unit)) else None end = None).
    unfold str_eqb. rewrite bool_decide_eq_false_2; [done|congruence].
Defined.
