(* ===== verification/Stream.v ===== *)
(** * Value and byte streams ([opaal-runtime/src/stream.rs])

    A stream is pulled.  The closures behind a stream (a lazy producer, a
    cancellation signal, a cleanup action) are given by their answers, call by
    call: each keeps the number of calls made so far, so that "not called
    again" and "called at most once" are statements about that number. *)
From S2P Require Import Prelude Path Status Value.

Local Open Scope res_scope.

(** ** Cancellation, owners, schemas *)

Inductive CancelReason := Requested | Timeout.

(** The answers of a token to its polls, and the reason it reports then. *)
Record CancellationToken := mkToken {
  is_cancelled : nat → bool;
  reason : nat → CancelReason
}.

Definition never : CancellationToken := mkToken (λ _, false) (λ _, Requested).

(** [NEXT_STREAM_OWNER.checked_add(1).expect(..)]: the identity and the next
    counter. *)
Definition StreamOwnerId_fresh {E} (next : Z) : res E (Z * Z) :=
  if (next + 1 <? 2 ^ 64)%Z then Ok (next, (next + 1)%Z) else Panic.

Inductive StreamCardinality := Exact (n : nat) | AtMost (n : nat) | Unknown.

Record StreamSchema := mkSchema {
  element_type : ValueType;
  cardinality : StreamCardinality;
  owner : Z
}.

Definition DEFAULT_CAPACITY : nat := 1024.

Section Streams.
Context {RuntimeError : Type}.

Notation Value := (Value RuntimeError).

Inductive StreamContractViolation :=
| ElementType (expected : ValueType) (actual : str)
| CardinalityExceeded (declared : StreamCardinality) (observed : nat)
| CardinalityShortfall (expected observed : nat).

Inductive CheckedStreamPull :=
| CItem (v : Value)
| CEnd
| CFailed (e : RuntimeError)
| CCancelled (r : CancelReason)
| CContractViolation (c : StreamContractViolation).

Inductive StreamPull :=
| PItem (v : Value)
| PEnd
| PFailed (e : RuntimeError)
| PCancelled (r : CancelReason).

Definition is_item (p : StreamPull) : bool := match p with PItem _ => true | _ => false end.

Inductive CollectOutcome :=
| Collected (vs : list Value)
| LimitExceeded (limit : nat)
| CollectFailed (e : RuntimeError)
| CollectCancelled (r : CancelReason).

(** ** The bounded queue *)

Record BoundedQueue := mkQueue { items : list Value; capacity : nat }.

Definition with_capacity {E} (capacity : nat) : res E BoundedQueue :=
  if 1 <=? capacity then Ok (mkQueue [] capacity) else Panic.

Definition BoundedQueue_new {E} : res E BoundedQueue := with_capacity DEFAULT_CAPACITY.

(** A refused value is handed back. *)
Definition try_push (self : BoundedQueue) (value : Value) : res Value unit * BoundedQueue :=
  if capacity self <=? length (items self) then (Err value, self)
  else (Ok tt, mkQueue (items self ++ [value]) (capacity self)).

Definition queue_pop (self : BoundedQueue) : option Value * BoundedQueue :=
  match items self with
  | [] => (None, self)
  | v :: vs => (Some v, mkQueue vs (capacity self))
  end.

(** ** Sources *)

Inductive Source :=
| Once (slot : option Value)
| Values (vs : list Value) (cursor : nat)
| Queue (q : BoundedQueue)
| Producer (answers : nat → option (Value + RuntimeError)) (calls : nat)
| Puller (answers : nat → StreamPull) (calls : nat).

Definition advance (s : Source) : StreamPull * Source :=
  match s with
  | Once slot => (match slot with Some v => PItem v | None => PEnd end, Once None)
  | Values vs cursor =>
    match vs !! cursor with
    | Some v => (PItem v, Values vs (cursor + 1))
    | None => (PEnd, s)
    end
  | Queue q =>
    match queue_pop q with
    | (Some v, q) => (PItem v, Queue q)
    | (None, q) => (PEnd, Queue q)
    end
  | Producer answers calls =>
    (match answers calls with
     | Some (inl v) => PItem v
     | Some (inr e) => PFailed e
     | None => PEnd
     end, Producer answers (S calls))
  | Puller answers calls => (answers calls, Puller answers (S calls))
  end.

(** ** Value streams *)

Record ValueStream := mkStream {
  source : Source;
  cancel : CancellationToken;
  polls : nat;
  schema : StreamSchema;
  checked_items : nat;
  terminal : bool;
  cleanup : option (nat → res str unit);
  cleanup_runs : nat;
  closed : bool
}.

Definition set_source (v : Source) (s : ValueStream) : ValueStream :=
  mkStream v (cancel s) (polls s) (schema s) (checked_items s) (terminal s) (cleanup s)
    (cleanup_runs s) (closed s).
Definition count_poll (s : ValueStream) : ValueStream :=
  mkStream (source s) (cancel s) (S (polls s)) (schema s) (checked_items s) (terminal s)
    (cleanup s) (cleanup_runs s) (closed s).
Definition set_checked_items (v : nat) (s : ValueStream) : ValueStream :=
  mkStream (source s) (cancel s) (polls s) (schema s) v (terminal s) (cleanup s)
    (cleanup_runs s) (closed s).
Definition set_terminal (v : bool) (s : ValueStream) : ValueStream :=
  mkStream (source s) (cancel s) (polls s) (schema s) (checked_items s) v (cleanup s)
    (cleanup_runs s) (closed s).
Definition set_closed (runs : nat) (s : ValueStream) : ValueStream :=
  mkStream (source s) (cancel s) (polls s) (schema s) (checked_items s) (terminal s) (cleanup s)
    runs true.

(** The constructors take the owner counter and return it advanced. *)
Definition with_source {E} (next : Z) (s : Source) (c : StreamCardinality)
    : res E (ValueStream * Z) :=
  let* ' (id, next) := StreamOwnerId_fresh next in
  Ok (mkStream s never 0 (mkSchema TAny c id) 0 false None 0 false, next).

Definition once {E} (next : Z) (v : Value) : res E (ValueStream * Z) :=
  with_source next (Once (Some v)) (Exact 1).
Definition from_values {E} (next : Z) (vs : list Value) : res E (ValueStream * Z) :=
  with_source next (Values vs 0) (Exact (length vs)).
Definition from_queue {E} (next : Z) (q : BoundedQueue) : res E (ValueStream * Z) :=
  with_source next (Queue q) (Exact (length (items q))).
Definition from_fn {E} (next : Z) (producer : nat → option (Value + RuntimeError))
    : res E (ValueStream * Z) := with_source next (Producer producer 0) Unknown.
Definition from_pull_fn {E} (next : Z) (producer : nat → StreamPull) : res E (ValueStream * Z) :=
  with_source next (Puller producer 0) Unknown.

Definition with_contract (t : ValueType) (c : StreamCardinality) (s : ValueStream) : ValueStream :=
  mkStream (source s) (cancel s) (polls s) (mkSchema t c (owner (schema s))) (checked_items s)
    (terminal s) (cleanup s) (cleanup_runs s) (closed s).
Definition with_cleanup (f : nat → res str unit) (s : ValueStream) : ValueStream :=
  mkStream (source s) (cancel s) (polls s) (schema s) (checked_items s) (terminal s) (Some f)
    (cleanup_runs s) (closed s).
Definition with_cancellation (t : CancellationToken) (s : ValueStream) : ValueStream :=
  mkStream (source s) t 0 (schema s) (checked_items s) (terminal s) (cleanup s)
    (cleanup_runs s) (closed s).

Definition pull (s : ValueStream) : StreamPull * ValueStream :=
  if terminal s then (PEnd, s)
  else if is_cancelled (cancel s) (polls s) then
    (PCancelled (reason (cancel s) (polls s)), set_terminal true (count_poll s))
  else
    let s := count_poll s in
    let '(pulled, src) := advance (source s) in
    let s := set_source src s in
    (pulled, if is_item pulled then s else set_terminal true s).

Definition exceeds (c : StreamCardinality) (observed : nat) : bool :=
  match c with
  | Exact limit | AtMost limit => limit <? observed
  | Unknown => false
  end.

Definition pull_checked (s : ValueStream) : CheckedStreamPull * ValueStream :=
  if terminal s then (CEnd, s)
  else
    match pull s with
    | (PItem value, s) =>
      let observed := checked_items s + 1 in
      if exceeds (cardinality (schema s)) observed then
        (CContractViolation (CardinalityExceeded (cardinality (schema s)) observed),
         set_terminal true s)
      else if negb (accepts (element_type (schema s)) value) then
        (CContractViolation (ElementType (element_type (schema s)) (family_name value)),
         set_terminal true s)
      else (CItem value, set_checked_items observed s)
    | (PEnd, s) =>
      match cardinality (schema s) with
      | Exact expected =>
        if checked_items s <? expected
        then (CContractViolation (CardinalityShortfall expected (checked_items s)), s)
        else (CEnd, s)
      | _ => (CEnd, s)
      end
    | (PFailed e, s) => (CFailed e, s)
    | (PCancelled r, s) => (CCancelled r, s)
    end.

(** [close] and, at the end of the owner's scope, [drop]. *)
Definition close (s : ValueStream) : res str unit * ValueStream :=
  if closed s then (Ok tt, s)
  else
    match cleanup s with
    | Some f => (f (cleanup_runs s), set_closed (S (cleanup_runs s)) s)
    | None => (Ok tt, set_closed (cleanup_runs s) s)
    end.

Definition drop_stream (s : ValueStream) : ValueStream := (close s).2.

(** [remaining] is [limit - collected.len()]. *)
Fixpoint collect_loop (limit remaining : nat) (collected : list Value) (s : ValueStream)
    : CollectOutcome * ValueStream :=
  match remaining, pull s with
  | 0, (PItem _, s) => (LimitExceeded limit, s)
  | S remaining, (PItem v, s) => collect_loop limit remaining (collected ++ [v]) s
  | _, (PEnd, s) => (Collected collected, s)
  | _, (PFailed e, s) => (CollectFailed e, s)
  | _, (PCancelled r, s) => (CollectCancelled r, s)
  end.

Definition collect_bounded (s : ValueStream) (limit : nat) : CollectOutcome * ValueStream :=
  collect_loop limit limit [] s.

(** ** Byte streams *)

Inductive BytePull :=
| BChunk (b : str)
| BEnd
| BFailed (e : RuntimeError)
| BCancelled (r : CancelReason).

Definition is_chunk (p : BytePull) : bool := match p with BChunk _ => true | _ => false end.

Inductive ByteSource :=
| Chunks (chunks : list str) (cursor : nat)
| BytePuller (answers : nat → BytePull) (calls : nat).

Definition byte_advance (s : ByteSource) : BytePull * ByteSource :=
  match s with
  | Chunks chunks cursor =>
    match chunks !! cursor with
    | Some c => (BChunk c, Chunks chunks (cursor + 1))
    | None => (BEnd, s)
    end
  | BytePuller answers calls => (answers calls, BytePuller answers (S calls))
  end.

Record ByteStream := mkByteStream {
  byte_source : ByteSource;
  byte_cancel : CancellationToken;
  byte_polls : nat;
  byte_owner : Z;
  byte_terminal : bool
}.

Definition byte_with_source {E} (next : Z) (s : ByteSource) : res E (ByteStream * Z) :=
  let* ' (id, next) := StreamOwnerId_fresh next in
  Ok (mkByteStream s never 0 id false, next).

Definition byte_with_cancellation (t : CancellationToken) (s : ByteStream) : ByteStream :=
  mkByteStream (byte_source s) t 0 (byte_owner s) (byte_terminal s).

Definition byte_pull (s : ByteStream) : BytePull * ByteStream :=
  if byte_terminal s then (BEnd, s)
  else if is_cancelled (byte_cancel s) (byte_polls s) then
    (BCancelled (reason (byte_cancel s) (byte_polls s)),
     mkByteStream (byte_source s) (byte_cancel s) (S (byte_polls s)) (byte_owner s) true)
  else
    let '(pulled, src) := byte_advance (byte_source s) in
    (pulled, mkByteStream src (byte_cancel s) (S (byte_polls s)) (byte_owner s)
               (negb (is_chunk pulled))).

End Streams.

Arguments ValueStream : clear implicits.
Arguments StreamPull : clear implicits.
Arguments CheckedStreamPull : clear implicits.
Arguments Source : clear implicits.
Arguments BoundedQueue : clear implicits.
Arguments ByteStream : clear implicits.
