(* ===== verification/StreamFacts.v ===== *)
(** * Properties of value and byte streams *)
From S2P Require Import Prelude Path Status Value Stream.

Section Facts.
Context {RuntimeError : Type}.

Notation Value := (Value RuntimeError).
Notation ValueStream := (ValueStream RuntimeError).
Notation StreamPull := (StreamPull RuntimeError).
Notation CheckedStreamPull := (CheckedStreamPull RuntimeError).
Implicit Types s : ValueStream.

(** ** Runs *)

Fixpoint pulls (n : nat) s : list StreamPull * ValueStream :=
  match n with
  | 0 => ([], s)
  | S n => let '(p, s) := pull s in let '(ps, s) := pulls n s in (p :: ps, s)
  end.

Fixpoint checked_pulls (n : nat) s : list CheckedStreamPull * ValueStream :=
  match n with
  | 0 => ([], s)
  | S n => let '(p, s) := pull_checked s in let '(ps, s) := checked_pulls n s in (p :: ps, s)
  end.

(** A stream over [src] with the contract [t], [c], not pulled yet. *)
Definition fresh_stream (src : Source RuntimeError) (tok : CancellationToken) (t : ValueType)
    (c : StreamCardinality) (id : Z) : ValueStream :=
  mkStream src tok 0 (mkSchema t c id) 0 false None 0 false.

(** ** One pull *)

Lemma pull_terminal s : terminal s = true → pull s = (PEnd, s).
Proof. unfold pull. by intros ->. Qed.

Lemma pull_sets_terminal s : terminal (pull s).2 = negb (is_item (pull s).1).
Proof.
  unfold pull. destruct (terminal s) eqn:Ht; [done|]. case_match; [done|].
  destruct (advance _) as [p src]. by destruct p.
Qed.

Lemma pull_keeps s :
  schema (pull s).2 = schema s ∧ checked_items (pull s).2 = checked_items s ∧
  cleanup (pull s).2 = cleanup s ∧ cleanup_runs (pull s).2 = cleanup_runs s ∧
  closed (pull s).2 = closed s.
Proof.
  unfold pull. case_match; [done|]. case_match; [done|].
  destruct (advance _) as [p src]. by destruct p.
Qed.

Lemma pull_checked_terminal s : terminal s = true → pull_checked s = (CEnd, s).
Proof. unfold pull_checked. by intros ->. Qed.

Definition checked_item (p : CheckedStreamPull) : option Value :=
  match p with CItem v => Some v | _ => None end.

(** What a checked pull promises, whichever way it ends. *)
Lemma pull_checked_cases s :
  terminal s = false →
  let '(p, s') := pull_checked s in
  schema s' = schema s ∧
  match p with
  | CItem v =>
      terminal s' = false ∧ checked_items s' = S (checked_items s) ∧
      accepts (element_type (schema s)) v = true ∧
      exceeds (cardinality (schema s)) (S (checked_items s)) = false
  | CEnd =>
      terminal s' = true ∧
      match cardinality (schema s) with Exact n => n ≤ checked_items s | _ => True end
  | _ => terminal s' = true
  end.
Proof.
  intros Ht. unfold pull_checked. rewrite Ht.
  pose proof (pull_sets_terminal s) as Hterm. pose proof (pull_keeps s) as (Hsch & Hci & _).
  destruct (pull s) as [p s']. simpl in *. rewrite Hsch, Hci, Nat.add_1_r.
  destruct p as [v| |e|r]; simpl in *; [| |done..].
  2: { destruct (cardinality (schema s)) as [n|n|]; [|done..].
    destruct (checked_items s <? n) eqn:Hn; [done|]. bool_to_prop. by rewrite Hsch. }
  destruct (exceeds _ _) eqn:He; [done|]. by destruct (accepts _ v) eqn:Ha.
Qed.

Lemma checked_pulls_terminal n s : terminal s = true → checked_pulls n s = (replicate n CEnd, s).
Proof.
  intros Ht. induction n as [|n IH]; [done|]. simpl.
  by rewrite (pull_checked_terminal s Ht), IH.
Qed.

Definition within (c : StreamCardinality) (n : nat) : Prop :=
  match c with Exact limit | AtMost limit => n ≤ limit | Unknown => True end.

Lemma checked_pulls_spec n s :
  terminal s = false → within (cardinality (schema s)) (checked_items s) →
  ∃ vs tail, (checked_pulls n s).1 = (CItem <$> vs) ++ tail ∧
    Forall (λ v, accepts (element_type (schema s)) v = true) vs ∧
    within (cardinality (schema s)) (checked_items s + length vs) ∧
    (tail = [] ∨ ∃ t k, tail = t :: replicate k CEnd ∧ checked_item t = None ∧
       (t = CEnd → ∀ limit, cardinality (schema s) = Exact limit →
        checked_items s + length vs = limit)).
Proof.
  revert s. induction n as [|n IH]; intros s Ht Hw.
  { exists [], []. split_and!; [done|constructor|by rewrite Nat.add_0_r|by left]. }
  pose proof (pull_checked_cases s Ht) as Hp. cbn [checked_pulls].
  destruct (pull_checked s) as [p s']. destruct Hp as [Hsch Hp].
  destruct (checked_item p) as [v|] eqn:Hv.
  - destruct p as [v'| | | |]; simplify_eq/=. destruct Hp as (Ht' & Hci & Ha & He).
    destruct (IH s' Ht') as (vs & tail & Hr & Hf & Hc & Htl).
    { rewrite Hsch, Hci. destruct (cardinality (schema s)); simpl in *; bool_to_prop; lia. }
    destruct (checked_pulls n s') as [ps s'']. simpl in *. subst ps. rewrite Hsch, Hci in *.
    exists (v :: vs), tail. simpl. rewrite <- Nat.add_succ_comm. split_and!; auto.
  - assert (terminal s' = true) as Ht' by (destruct p; naive_solver).
    rewrite (checked_pulls_terminal n s' Ht'). exists [], (p :: replicate n CEnd).
    rewrite Nat.add_0_r. split_and!; [done|constructor|done|].
    right. exists p, n. split_and!; [done|done|]. intros -> limit Hl. rewrite Hl in *.
    simpl in *. lia.
Qed.

(** ** Collecting *)

Definition outcome_of (limit : nat) (vs : list Value) (t : StreamPull) : CollectOutcome :=
  match t with
  | PItem _ => LimitExceeded limit
  | PEnd => Collected vs
  | PFailed e => CollectFailed e
  | PCancelled r => CollectCancelled r
  end.

Lemma collect_loop_spec limit remaining collected s :
  ∃ vs t, length vs ≤ remaining ∧ (is_item t = true → length vs = remaining) ∧
    (pulls (S (length vs)) s).1 = (PItem <$> vs) ++ [t] ∧
    collect_loop limit remaining collected s =
      (outcome_of limit (collected ++ vs) t, (pulls (S (length vs)) s).2).
Proof.
  revert collected s. induction remaining as [|remaining IH]; intros collected s; cbn [collect_loop].
  - exists [], (pull s).1. simpl. rewrite app_nil_r.
    destruct (pull s) as [[v| | |] s']; by split_and!.
  - destruct (is_item (pull s).1) eqn:Hi.
    + destruct (pull s) as [[v| | |] s'] eqn:Hp; try done.
      destruct (IH (collected ++ [v]) s') as (vs & t & Hl & Hit & Hps & Hc).
      exists (v :: vs), t. rewrite Hc, <- app_assoc.
      cbn [length pulls]. rewrite Hp. cbn [pulls] in Hps.
      destruct (pull s') as [p1 s1]. destruct (pulls (length vs) s1) as [ps s2]. simpl in *.
      rewrite Hps. split_and!; [lia|intros; f_equal; auto|done|done].
    + exists [], (pull s).1. simpl. rewrite app_nil_r.
      destruct (pull s) as [[v| | |] s']; simpl in *; split_and!; try done; lia.
Qed.

(** ** Any sequence of calls *)

Inductive StreamOp := OpPull | OpPullChecked | OpClose | OpCollect (limit : nat).

Definition run_op (s : ValueStream) (op : StreamOp) : ValueStream :=
  match op with
  | OpPull => (pull s).2
  | OpPullChecked => (pull_checked s).2
  | OpClose => (close s).2
  | OpCollect limit => (collect_bounded s limit).2
  end.

Definition run_ops (s : ValueStream) (ops : list StreamOp) : ValueStream := foldl run_op s ops.

(** A step that only pulls: it leaves the cleanup alone, and a terminated
    stream as it is. *)
Definition pull_like (s s' : ValueStream) : Prop :=
  cleanup s' = cleanup s ∧ cleanup_runs s' = cleanup_runs s ∧ closed s' = closed s ∧
  (terminal s = true → s' = s).

#[local] Instance pull_like_preorder : PreOrder pull_like.
Proof.
  split; [by intros s|]. intros s1 s2 s3 (H1 & H2 & H3 & H4) (H5 & H6 & H7 & H8).
  split_and!; [congruence..|]. intros Ht. rewrite H8; [auto|]. by rewrite (H4 Ht).
Qed.

Lemma pull_pull_like s : pull_like s (pull s).2.
Proof.
  destruct (pull_keeps s) as (_ & _ & ? & ? & ?). split_and!; [done..|].
  intros Ht. by rewrite pull_terminal.
Qed.

Lemma pull_checked_pull_like s : pull_like s (pull_checked s).2.
Proof.
  unfold pull_checked. destruct (terminal s) eqn:Ht; [done|].
  destruct (pull_pull_like s) as (H1 & H2 & H3 & _).
  unfold pull_like. rewrite Ht. destruct (pull s) as [[v| | |] s']; simpl in *;
    repeat case_match; by split_and!.
Qed.

Lemma pulls_pull_like n s : pull_like s (pulls n s).2.
Proof.
  revert s. induction n as [|n IH]; intros s; [done|]. cbn [pulls].
  pose proof (pull_pull_like s) as H1. destruct (pull s) as [p s1].
  specialize (IH s1). destruct (pulls n s1) as [ps s2]. simpl in *. by etrans.
Qed.

Lemma collect_pull_like s limit : pull_like s (collect_bounded s limit).2.
Proof.
  unfold collect_bounded. destruct (collect_loop_spec limit limit [] s) as (vs & t & _ & _ & _ & ->).
  apply pulls_pull_like.
Qed.

(** What every step keeps, of the stream it started from. *)
Definition lifecycle (s s' : ValueStream) : Prop :=
  cleanup s' = cleanup s ∧
  cleanup_runs s' = (if closed s' then if cleanup s then 1 else 0 else 0) ∧
  (terminal s = true → source s' = source s ∧ polls s' = polls s ∧ terminal s' = true).

Lemma run_op_lifecycle s0 s op : lifecycle s0 s → lifecycle s0 (run_op s op).
Proof.
  intros (Hc & Hr & Ht).
  assert (∀ s', pull_like s s' → lifecycle s0 s') as Hpull.
  { intros s' (H1 & H2 & H3 & H4). split_and!; [congruence|by rewrite H2, H3|].
    intros H0. destruct (Ht H0) as (? & ? & Hs). by rewrite (H4 Hs). }
  destruct op as [| | |limit]; simpl;
    [apply Hpull, pull_pull_like|apply Hpull, pull_checked_pull_like| |apply Hpull, collect_pull_like].
  unfold close. destruct (closed s) eqn:Hcl; [split_and!; simpl; [done|by rewrite Hcl|done]|]. rewrite Hc.
  split_and!; simpl; destruct (cleanup s0) eqn:E; simpl; rewrite ?Hr; auto.
Qed.

Lemma run_ops_lifecycle s0 s ops : lifecycle s0 s → lifecycle s0 (run_ops s ops).
Proof.
  revert s. induction ops as [|op ops IH]; intros s Hs; [done|].
  apply IH. by apply run_op_lifecycle.
Qed.

(** ** Theorems *)

(** C38: checked pulls enforce the declared contract: for every source, token and
    number of pulls, the results are accepted items within the declared
    cardinality, then at most one terminal result, then only [End]; a stream
    of declared exact length that ends yields exactly that many items. *)
Theorem checked_pulls_keep_contract (src : Source RuntimeError) (tok : CancellationToken)
    (t : ValueType) (c : StreamCardinality) (id : Z) (n : nat) :
  ∃ vs tail, (checked_pulls n (fresh_stream src tok t c id)).1 = (CItem <$> vs) ++ tail ∧
    Forall (λ v, accepts t v = true) vs ∧ within c (length vs) ∧
    (tail = [] ∨ ∃ last k, tail = last :: replicate k CEnd ∧ checked_item last = None ∧
       (last = CEnd → ∀ limit, c = Exact limit → length vs = limit)).
Proof.
  apply (checked_pulls_spec n (fresh_stream src tok t c id)); [done|].
  by destruct c; simpl; try lia.
Qed.

(** Bounded collection pulls at most one item beyond the limit, returns the
    items of a stream that ends within it, reports the limit exactly when one
    more item came, and passes failures and cancellations on. *)
Theorem collect_bounded_spec (s : ValueStream) (limit : nat) :
  ∃ vs last, length vs ≤ limit ∧ (is_item last = true → length vs = limit) ∧
    (pulls (S (length vs)) s).1 = (PItem <$> vs) ++ [last] ∧
    collect_bounded s limit = (outcome_of limit vs last, (pulls (S (length vs)) s).2).
Proof. apply (collect_loop_spec limit limit []). Qed.

(** C39: whatever is called on a stream and then dropping it, its cleanup has run
    exactly once if it has one; and once a stream is terminated, no call polls
    its token or advances its source again, and pulls return [End]. *)
Theorem stream_lifecycle (s0 : ValueStream) (ops : list StreamOp) :
  closed s0 = false → cleanup_runs s0 = 0 →
  let s := run_ops s0 ops in
  cleanup_runs (drop_stream s) = (if cleanup s0 then 1 else 0) ∧
  (terminal s0 = true →
    source s = source s0 ∧ polls s = polls s0 ∧ (pull s).1 = PEnd ∧ (pull_checked s).1 = CEnd).
Proof.
  intros Hcl Hruns s.
  assert (lifecycle s0 s0) as H0 by (unfold lifecycle; by rewrite Hcl, Hruns).
  split.
  - destruct (run_op_lifecycle s0 s OpClose (run_ops_lifecycle s0 s0 ops H0)) as (_ & Hr & _).
    simpl in Hr. unfold drop_stream. rewrite Hr.
    assert (closed (close s).2 = true) as ->; [|done].
    unfold close. destruct (closed s) eqn:E; [exact E|]. by destruct (cleanup s).
  - intros Ht. destruct (run_ops_lifecycle s0 s0 ops H0) as (_ & _ & H).
    destruct (H Ht) as (? & ? & Hts). fold s in Hts.
    by rewrite pull_terminal, pull_checked_terminal.
Qed.
End Facts.

(** ** Witnesses *)

Lemma stream_lifecycle_witness :
  let s0 : ValueStream unit :=
    with_cleanup (λ _, Ok tt) (fresh_stream (Values [VInt 1; VInt 2] 0) never TInt (Exact 2) 1) in
  cleanup_runs (drop_stream (run_ops s0 [OpPullChecked; OpClose; OpCollect 5; OpClose])) = 1.
Proof.
  intros s0. by apply (stream_lifecycle s0 [OpPullChecked; OpClose; OpCollect 5; OpClose]).
Defined.
