(* ===== verification/Structured.v ===== *)
(** * Structured commands over a value stream ([opaal-runtime/src/structured.rs])

    The draining commands, the line splitter, the record projections and the
    sort.  A command that takes its stream by value drops it when it returns
    ([drop_stream]).  Lines may pull forever; its loop has fuel. *)
From S2P Require Import Prelude Utf8 Source Path Order Compare Status Value.
From S2P Require Import Float Operation Stream.

Local Open Scope res_scope.

Section Structured.
Context {RuntimeError : Type}.

Notation Value := (Value RuntimeError).
Notation ValueStream := (ValueStream RuntimeError).

(** ** Drains *)

Inductive DrainOutcome {T : Type} :=
| Done (result : T)
| DrainLimitExceeded (limit : nat)
| DrainFailed (error : RuntimeError)
| DrainCancelled (reason : CancelReason).
Arguments DrainOutcome : clear implicits.

(** [wanted] is [count - items.len()]. *)
Fixpoint first_loop (wanted : nat) (items : list Value) (s : ValueStream)
    : DrainOutcome (list Value) * ValueStream :=
  match wanted with
  | 0 => (Done items, s)
  | S wanted =>
    match pull s with
    | (PItem value, s) => first_loop wanted (items ++ [value]) s
    | (PEnd, s) => (Done items, s)
    | (PFailed error, s) => (DrainFailed error, s)
    | (PCancelled reason, s) => (DrainCancelled reason, s)
    end
  end.

Definition dropping {A} (r : A * ValueStream) : A * ValueStream := (r.1, drop_stream r.2).

Definition first (s : ValueStream) (count : nat) : DrainOutcome (list Value) * ValueStream :=
  dropping (first_loop count [] s).

(** The ring of the last [count] items. *)
Definition push_tail (count : nat) (tail : list Value) (value : Value) : list Value :=
  if 0 <? count then (if length tail =? count then drop 1 tail else tail) ++ [value] else tail.

(** [remaining] is [limit - seen]. *)
Fixpoint last_loop (count limit remaining : nat) (tail : list Value) (s : ValueStream)
    : DrainOutcome (list Value) * ValueStream :=
  match pull s, remaining with
  | (PItem _, s), 0 => (DrainLimitExceeded limit, s)
  | (PItem value, s), S remaining => last_loop count limit remaining (push_tail count tail value) s
  | (PEnd, s), _ => (Done tail, s)
  | (PFailed error, s), _ => (DrainFailed error, s)
  | (PCancelled reason, s), _ => (DrainCancelled reason, s)
  end.

Definition last_items (s : ValueStream) (count limit : nat)
    : DrainOutcome (list Value) * ValueStream :=
  dropping (last_loop count limit limit [] s).

Fixpoint collect_items (limit remaining : nat) (items : list Value) (s : ValueStream)
    : DrainOutcome Value * ValueStream :=
  match pull s, remaining with
  | (PItem _, s), 0 => (DrainLimitExceeded limit, s)
  | (PItem value, s), S remaining => collect_items limit remaining (items ++ [value]) s
  | (PEnd, s), _ => (Done (VList items), s)
  | (PFailed error, s), _ => (DrainFailed error, s)
  | (PCancelled reason, s), _ => (DrainCancelled reason, s)
  end.

Definition collect (s : ValueStream) (limit : nat) : DrainOutcome Value * ValueStream :=
  dropping (collect_items limit limit [] s).

(** [count += 1] leaves [i64] only past [2 ^ 63] items; it is a panic here. *)
Fixpoint length_loop (limit remaining : nat) (count : Z) (s : ValueStream)
    : res Empty_set (DrainOutcome Value * ValueStream) :=
  match pull s with
  | (PItem _, s) =>
    let* count := expect_some (checked_add count 1) in
    match remaining with
    | 0 => Ok (DrainLimitExceeded limit, s)
    | S remaining => length_loop limit remaining count s
    end
  | (PEnd, s) => Ok (Done (VInt count), s)
  | (PFailed error, s) => Ok (DrainFailed error, s)
  | (PCancelled reason, s) => Ok (DrainCancelled reason, s)
  end.

Definition stream_length (s : ValueStream) (limit : nat)
    : res Empty_set (DrainOutcome Value * ValueStream) :=
  let* r := length_loop limit limit 0 s in Ok (dropping r).

(** ** Lines *)

Inductive LineStep :=
| Line (line : Value)
| LineEnd
| NotText (actual : str)
| LineFailed (error : RuntimeError)
| LineCancelled (reason : CancelReason).

Definition LF : Z := 10.
Definition CR : Z := 13.

(** [str::find] of a line feed: the text before it and the text after it. *)
Fixpoint split_newline (text : str) : option (str * str) :=
  match text with
  | [] => None
  | b :: text =>
    if (b =? LF)%Z then Some ([], text)
    else match split_newline text with Some (l, r) => Some (b :: l, r) | None => None end
  end.

Definition strip_carriage_return (line : str) : str :=
  match reverse line with
  | b :: rest => if (b =? CR)%Z then reverse rest else line
  | [] => line
  end.

(** [LineCarry] is the text it holds. *)
Definition carry_push (carry text : str) : str := carry ++ text.
Definition carry_len (carry : str) : nat := length carry.
Definition next_line (carry : str) : option str * str :=
  match split_newline carry with
  | Some (line, rest) => (Some (strip_carriage_return line), rest)
  | None => (None, carry)
  end.
Definition carry_flush (carry : str) : option str * str :=
  match carry with
  | [] => (None, [])
  | _ => (Some (strip_carriage_return carry), [])
  end.

Record LineSplitter := mkSplitter {
  line_input : ValueStream;
  carry : str;
  input_ended : bool;
  line_done : bool
}.

Definition lines (input : ValueStream) : LineSplitter := mkSplitter input [] false false.

Definition flush_remainder (self : LineSplitter) : LineStep * LineSplitter :=
  let '(line, carry) := carry_flush (carry self) in
  (match line with Some line => Line (VString line) | None => LineEnd end,
   mkSplitter (line_input self) carry (input_ended self) true).

Fixpoint splitter_loop (fuel : nat) (self : LineSplitter) : res Empty_set (LineStep * LineSplitter) :=
  match fuel with
  | 0 => Panic
  | S fuel =>
    match next_line (carry self) with
    | (Some line, carry) =>
      Ok (Line (VString line), mkSplitter (line_input self) carry (input_ended self) (line_done self))
    | (None, _) =>
      if input_ended self then Ok (flush_remainder self)
      else
        match pull (line_input self) with
        | (PItem (VString text), input) =>
          splitter_loop fuel (mkSplitter input (carry_push (carry self) text) false (line_done self))
        | (PItem other, input) =>
          Ok (NotText (family_name other), mkSplitter input (carry self) false true)
        | (PEnd, input) => splitter_loop fuel (mkSplitter input (carry self) true (line_done self))
        | (PFailed error, input) => Ok (LineFailed error, mkSplitter input (carry self) false true)
        | (PCancelled reason, input) =>
          Ok (LineCancelled reason, mkSplitter input (carry self) false true)
        end
    end
  end.

Definition line_pull (fuel : nat) (self : LineSplitter) : res Empty_set (LineStep * LineSplitter) :=
  if line_done self then Ok (LineEnd, self) else splitter_loop fuel self.

(** ** Projections *)

Inductive SelectStep :=
| SelectRecord (record : Value)
| SelectEnd
| MissingColumn (column : str)
| SelectNotRecord (actual : str)
| SelectFailed (error : RuntimeError)
| SelectCancelled (reason : CancelReason).

Record SelectStream := mkSelect {
  select_input : ValueStream;
  select_columns : list str;
  select_done : bool
}.

Definition deduplicate (columns : list str) : list str :=
  foldl (λ seen column,
    if existsb (str_eqb column) seen then seen else seen ++ [column]) [] columns.

Definition select (input : ValueStream) (columns : list str) : SelectStream :=
  mkSelect input (deduplicate columns) false.

(** The entries, or the first column that is missing. *)
Fixpoint narrow (record : list (str * Value)) (columns : list str) (entries : list (str * Value))
    : list (str * Value) + str :=
  match columns with
  | [] => inl entries
  | column :: columns =>
    match Record_get record column with
    | Some value => narrow record columns (entries ++ [(column, value)])
    | None => inr column
    end
  end.

Definition select_pull (self : SelectStream) : res Empty_set (SelectStep * SelectStream) :=
  if select_done self then Ok (SelectEnd, self)
  else
    let '(pulled, input) := pull (select_input self) in
    let latched := mkSelect input (select_columns self) true in
    match pulled with
    | PItem (VRecord record) =>
      match narrow record (select_columns self) [] with
      | inl entries =>
        let* narrowed := expect (Record_new entries) in
        Ok (SelectRecord (VRecord narrowed), mkSelect input (select_columns self) false)
      | inr column => Ok (MissingColumn column, latched)
      end
    | PItem other => Ok (SelectNotRecord (family_name other), latched)
    | PEnd => Ok (SelectEnd, latched)
    | PFailed error => Ok (SelectFailed error, latched)
    | PCancelled reason => Ok (SelectCancelled reason, latched)
    end.

Inductive GetStep :=
| GetValue (value : Value)
| GetEnd
| GetMissingKey (key : str)
| GetNotRecord (actual : str)
| GetFailed (error : RuntimeError)
| GetCancelled (reason : CancelReason).

Record GetStream := mkGet { get_input : ValueStream; get_key : str; get_done : bool }.

Definition get (input : ValueStream) (key : str) : GetStream := mkGet input key false.

Definition get_pull (self : GetStream) : GetStep * GetStream :=
  if get_done self then (GetEnd, self)
  else
    let '(pulled, input) := pull (get_input self) in
    let latched := mkGet input (get_key self) true in
    match pulled with
    | PItem (VRecord record) =>
      match Record_get record (get_key self) with
      | Some value => (GetValue value, mkGet input (get_key self) false)
      | None => (GetMissingKey (get_key self), latched)
      end
    | PItem other => (GetNotRecord (family_name other), latched)
    | PEnd => (GetEnd, latched)
    | PFailed error => (GetFailed error, latched)
    | PCancelled reason => (GetCancelled reason, latched)
    end.

(** ** Sorting *)

Inductive SortOutcome :=
| Sorted (items : list Value)
| SortLimitExceeded (limit : nat)
| Incomparable (left right : str)
| SortMissingKey (key : str)
| SortNotRecord (actual : str)
| SortFailed (error : RuntimeError)
| SortCancelled (reason : CancelReason).

(** The comparator of the sort: the first incomparable pair is remembered.
    [order] does not panic on values ([OperationFacts]). *)
Definition capture_order (left right : Value) (error : option (str * str))
    : comparison * option (str * str) :=
  match order left right with
  | Ok ordering => (ordering, error)
  | _ =>
    (Eq, match error with
         | None => Some (family_name left, family_name right)
         | Some _ => error
         end)
  end.

Section Sorting.
(** [slice::sort_by]. *)
Context (sorting : ∀ {A}, list A → plan A).

Definition sort_values (items : list Value) : res Empty_set SortOutcome :=
  let '(sorted, error) := run_plan capture_order (sorting Value items) None in
  let* sorted := expect_some sorted in
  Ok (match error with
      | Some (l, r) => Incomparable l r
      | None => Sorted sorted
      end).

(** The keys, or what stops their extraction. *)
Fixpoint extract_keys (key : str) (items keys : list Value) : list Value + SortOutcome :=
  match items with
  | [] => inl keys
  | VRecord record :: items =>
    match Record_get record key with
    | Some value => extract_keys key items (keys ++ [value])
    | None => inr (SortMissingKey key)
    end
  | other :: _ => inr (SortNotRecord (family_name other))
  end.

(** [keys[left]], [keys[right]]: the indices are those of the items. *)
Definition compare_keys (keys : list Value) (left right : nat) (error : option (str * str))
    : comparison * option (str * str) :=
  capture_order (nth left keys VNull) (nth right keys VNull) error.

Fixpoint pick (items : list Value) (indices : list nat) : res Empty_set (list Value) :=
  match indices with
  | [] => Ok []
  | i :: indices =>
    let* item := expect_some (items !! i) in
    let* rest := pick items indices in
    Ok (item :: rest)
  end.

Definition sort_by_key (items : list Value) (key : str) : res Empty_set SortOutcome :=
  match extract_keys key items [] with
  | inr outcome => Ok outcome
  | inl keys =>
    let '(indices, error) :=
      run_plan (compare_keys keys) (sorting nat (seq 0 (length items))) None in
    let* indices := expect_some indices in
    match error with
    | Some (l, r) => Ok (Incomparable l r)
    | None => let* sorted := pick items indices in Ok (Sorted sorted)
    end
  end.

Fixpoint sort_loop (limit remaining : nat) (items : list Value) (s : ValueStream)
    : (list Value + SortOutcome) * ValueStream :=
  match pull s, remaining with
  | (PItem _, s), 0 => (inr (SortLimitExceeded limit), s)
  | (PItem value, s), S remaining => sort_loop limit remaining (items ++ [value]) s
  | (PEnd, s), _ => (inl items, s)
  | (PFailed error, s), _ => (inr (SortFailed error), s)
  | (PCancelled reason, s), _ => (inr (SortCancelled reason), s)
  end.

Definition sort (s : ValueStream) (key : option str) (limit : nat)
    : res Empty_set (SortOutcome * ValueStream) :=
  let '(drained, s) := sort_loop limit limit [] s in
  let* outcome :=
    match drained, key with
    | inr outcome, _ => Ok outcome
    | inl items, None => sort_values items
    | inl items, Some key => sort_by_key items key
    end in
  Ok (outcome, drop_stream s).
End Sorting.
End Structured.

Arguments DrainOutcome : clear implicits.
Arguments LineSplitter : clear implicits.
Arguments SelectStream : clear implicits.
Arguments GetStream : clear implicits.
Arguments LineStep : clear implicits.
Arguments SelectStep : clear implicits.
Arguments GetStep : clear implicits.
Arguments SortOutcome : clear implicits.

Example three_lines :
  let run := fix run n s := match n with
    | 0 => []
    | S n => match line_pull 10 s with
             | Ok (step, s) => step :: run n s
             | _ => []
             end
    end in
  run 5 (lines (mkStream (Values [VString (bs "a
"); VString (bs "
b"); VString [13; 10; 13]%Z] 0) never 0 (mkSchema TAny Unknown 0) 0 false None 0 false)) =
  [Line (VString (bs "a")); Line (VString []); Line (VString (bs "b")); Line (VString []);
   LineEnd (RuntimeError := unit)].
Proof. reflexivity. Qed.
