(* ===== verification/StructuredFacts.v ===== *)
(** * Properties of structured commands: drains report what they read, lines do
    not depend on chunks, selection is exact, sorting is stable *)
From S2P Require Import Prelude Utf8 Source Path Order Compare Status Value ValueFacts.
From S2P Require Import Float FloatFacts Operation OperationFacts Stream StreamFacts Structured.

Local Open Scope res_scope.

(** ** Drains *)

Section Drains.
Context {RuntimeError : Type}.

Notation Value := (Value RuntimeError).
Notation ValueStream := (ValueStream RuntimeError).
Notation StreamPull := (StreamPull RuntimeError).
Implicit Types s : ValueStream.

(** Items until something else is pulled, [limit] of them at most; the last
    pull and the stream after it. *)
Fixpoint read (limit : nat) s : list Value * StreamPull * ValueStream :=
  match pull s with
  | (PItem v, s) =>
    match limit with
    | 0 => ([], PItem v, s)
    | S limit => let '(vs, t, s) := read limit s in (v :: vs, t, s)
    end
  | (t, s) => ([], t, s)
  end.

Lemma read_pulls limit s :
  let '(vs, t, s') := read limit s in
  length vs ≤ limit ∧ (is_item t = true → length vs = limit) ∧
  pulls (S (length vs)) s = ((PItem <$> vs) ++ [t], s').
Proof.
  revert s. induction limit as [|limit IH]; intros s; cbn [read].
  - destruct (pull s) as [[v| | |] s'] eqn:Hp; simpl; rewrite Hp; split_and!; done || lia.
  - destruct (pull s) as [[v| | |] s'] eqn:Hp; cycle 1;
      [simpl; rewrite Hp; split_and!; done || lia..|].
    specialize (IH s'). destruct (read limit s') as [[vs t] s''].
    destruct IH as (Hl & Ht & Hps). split_and!; [simpl; lia|intros; simpl; f_equal; auto|].
    change (pulls (S (length (v :: vs))) s) with
      (let '(p, s1) := pull s in let '(ps, s2) := pulls (S (length vs)) s1 in (p :: ps, s2)).
    by rewrite Hp, Hps.
Qed.

(** How a drain ends after reading: [finish] is applied to everything read. *)
Definition drained_as {T} (limit : nat) (finish : list Value → T) (r : list Value * StreamPull * ValueStream)
    : DrainOutcome RuntimeError T * ValueStream :=
  let '(vs, t, s) := r in
  (match t with
   | PItem _ => DrainLimitExceeded limit
   | PEnd => Done (finish vs)
   | PFailed e => DrainFailed e
   | PCancelled r => DrainCancelled r
   end, s).

Lemma collect_items_read limit n items s :
  collect_items limit n items s = drained_as limit (λ vs, VList (items ++ vs)) (read n s).
Proof.
  revert items s. induction n as [|n IH]; intros items s; simpl;
    destruct (pull s) as [[v| | |] s']; simpl; rewrite ?app_nil_r; try done.
  rewrite IH. destruct (read n s') as [[vs t] s'']. simpl. by rewrite <- app_assoc.
Qed.

(** The ring holds the end of what was pushed. *)
Lemma push_tail_drop count (vs : list Value) v :
  push_tail count (drop (length vs - count) vs) v =
  drop (length (vs ++ [v]) - count) (vs ++ [v]).
Proof.
  unfold push_tail. rewrite length_drop, length_app. simpl.
  destruct (Nat.ltb_spec 0 count).
  - destruct (Nat.eqb_spec (length vs - (length vs - count)) count).
    + rewrite drop_drop, drop_app_le by lia. f_equal. f_equal. lia.
    + rewrite drop_app_le by lia. f_equal. f_equal. lia.
  - assert (count = 0) as -> by lia.
    rewrite !Nat.sub_0_r, drop_all, drop_ge; [done|rewrite length_app; simpl; lia].
Qed.

Lemma last_loop_read count limit n before s :
  last_loop count limit n (drop (length before - count) before) s =
  drained_as limit (λ vs, drop (length (before ++ vs) - count) (before ++ vs)) (read n s).
Proof.
  revert before s. induction n as [|n IH]; intros before s; simpl;
    destruct (pull s) as [[v| | |] s']; simpl; rewrite ?app_nil_r; try done.
  rewrite push_tail_drop, IH. destruct (read n s') as [[vs t] s'']. simpl. by rewrite <- !app_assoc.
Qed.

Lemma length_loop_read limit n count s :
  (0 ≤ count)%Z → (count + Z.of_nat n + 1 < 2 ^ 63)%Z →
  length_loop limit n count s =
  Ok (drained_as limit (λ vs, VInt (count + Z.of_nat (length vs))%Z) (read n s)).
Proof.
  assert (∀ c, (0 ≤ c)%Z → (c + 1 < 2 ^ 63)%Z →
    expect_some (checked_add c 1) = Ok (E := Empty_set) (c + 1)%Z) as Hadd.
  { intros c H1 H2. unfold checked_add, checked. rewrite (proj2 (in_i64_spec _)); [done|].
    unfold int_wf. lia. }
  revert count s. induction n as [|n IH]; intros count s H0 Hn; simpl;
    destruct (pull s) as [[v| | |] s']; simpl; rewrite ?Z.add_0_r; try done;
    rewrite Hadd by lia; simpl; [done|].
  rewrite IH by lia. destruct (read n s') as [[vs t] s'']. simpl. do 2 f_equal.
  destruct t; try done. do 2 f_equal. lia.
Qed.

Lemma first_loop_read n items s :
  first_loop (S n) items s =
  let '(vs, t, s') := read n s in
  (match t with
   | PItem v => Done (items ++ vs ++ [v])
   | PEnd => Done (items ++ vs)
   | PFailed e => DrainFailed e
   | PCancelled r => DrainCancelled r
   end, s').
Proof.
  revert items s. induction n as [|n IH]; intros items s; cbn [first_loop read];
    destruct (pull s) as [[v| | |] s']; simpl; rewrite ?app_nil_r; try done.
  specialize (IH (items ++ [v]) s'). cbn [first_loop] in IH. rewrite IH.
  destruct (read n s') as [[vs t] s'']. destruct t; by rewrite <- ?app_assoc.
Qed.

(** The draining commands read the stream item by item, at most one past
    their limit, and tell apart every way it can end.  Each of them returns,
    for the items [vs] and the pull [t] after them: [collect] all the items,
    [last] the final [count] of them, [length] their number, an item past the
    limit being refused; [first] pulls no more than it was asked for.  The
    stream is dropped at the point where reading stopped. *)
Theorem drains_exact s (count limit : nat) :
  (Z.of_nat limit + 1 < 2 ^ 63)%Z →
  ∃ vs t s', length vs ≤ limit ∧ (is_item t = true → length vs = limit) ∧
    pulls (S (length vs)) s = ((PItem <$> vs) ++ [t], s') ∧
    let ends {T} (full : DrainOutcome RuntimeError T) (result : T) :=
      (match t with
       | PItem _ => full
       | PEnd => Done result
       | PFailed e => DrainFailed e
       | PCancelled r => DrainCancelled r
       end, drop_stream s') in
    collect s limit = ends (DrainLimitExceeded limit) (VList vs) ∧
    last_items s count limit = ends (DrainLimitExceeded limit) (drop (length vs - count) vs) ∧
    stream_length s limit =
      Ok (ends (DrainLimitExceeded limit) (VInt (Z.of_nat (length vs)))) ∧
    first s (S limit) =
      ends (match t with PItem v => Done (vs ++ [v]) | _ => Done vs end) vs.
Proof.
  intros Hl. pose proof (read_pulls limit s) as Hr.
  destruct (read limit s) as [[vs t] s'] eqn:Hread. destruct Hr as (H1 & H2 & H3).
  exists vs, t, s'. split_and!; [done..|intros ends; subst ends].
  unfold collect, last_items, stream_length, first, dropping.
  pose proof (last_loop_read count limit limit [] s) as Hlast. rewrite Hread in Hlast.
  change (drop (length (@nil Value) - count) []) with (drop (0 - count) (@nil Value)) in Hlast.
  rewrite drop_nil in Hlast.
  rewrite collect_items_read, Hlast, length_loop_read, first_loop_read, Hread by lia.
  by destruct t.
Qed.
End Drains.

(** ** Lines *)

Section Lines.
Context {RuntimeError : Type}.

Notation Value := (Value RuntimeError).
Notation ValueStream := (ValueStream RuntimeError).
Notation StreamPull := (StreamPull RuntimeError).
Notation LineStep := (LineStep RuntimeError).
Notation LineSplitter := (LineSplitter RuntimeError).
Implicit Types s : ValueStream.

(** The lines of a text that end in a line feed, and what follows the last. *)
Fixpoint split_lines (text : str) : list str * str :=
  match text with
  | [] => ([], [])
  | b :: text =>
    let '(ls, rest) := split_lines text in
    if (b =? LF)%Z then ([] :: ls, rest)
    else match ls with [] => ([], b :: rest) | l :: ls => ((b :: l) :: ls, rest) end
  end.

Lemma split_newline_lines text :
  split_lines text =
  match split_newline text with
  | Some (l, r) => (l :: (split_lines r).1, (split_lines r).2)
  | None => ([], text)
  end.
Proof.
  induction text as [|b text IH]; [done|]. simpl. rewrite IH.
  destruct (split_newline text) as [[l r]|]; destruct (b =? LF)%Z; try done.
  - rewrite IH. by destruct (split_lines r).
  - by rewrite IH.
Qed.

(** A line without the carriage return it may end in. *)
Definition without_cr (line : str) : str :=
  if decide (last line = Some CR) then removelast line else line.

Lemma strip_without_cr line : strip_carriage_return line = without_cr line.
Proof.
  unfold strip_carriage_return, without_cr. induction line as [|b line _] using rev_ind; [done|].
  rewrite reverse_snoc, last_snoc, removelast_last.
  destruct (Z.eqb_spec b CR) as [->|Hb].
  - rewrite decide_True by done. apply reverse_involutive.
  - rewrite decide_False; [done|congruence].
Qed.

Definition text_line (line : str) : LineStep := Line (VString (without_cr line)).

(** What is left to report for a text followed by the pull [t]. *)
Definition line_steps (text : str) (t : StreamPull) : list LineStep :=
  (text_line <$> (split_lines text).1) ++
  match t with
  | PItem v => [NotText (family_name v)]
  | PEnd => match (split_lines text).2 with [] => [] | rest => [text_line rest] end
  | PFailed e => [LineFailed e]
  | PCancelled r => [LineCancelled r]
  end.

Definition is_text (t : StreamPull) : bool :=
  match t with PItem (VString _) => true | _ => false end.

(** The next pulls of [s] are the texts [cs] and then [t]. *)
Fixpoint delivers s (cs : list str) (t : StreamPull) : Prop :=
  match cs with
  | [] => (pull s).1 = t
  | c :: cs => (pull s).1 = PItem (VString c) ∧ delivers (pull s).2 cs t
  end.

Lemma delivers_pulls s cs t :
  (pulls (S (length cs)) s).1 = (PItem ∘ VString <$> cs) ++ [t] → delivers s cs t.
Proof.
  revert s. induction cs as [|c cs IH]; intros s.
  - simpl. destruct (pull s) as [p s']. simpl. congruence.
  - change (pulls (S (length (c :: cs))) s) with
      (let '(p, s1) := pull s in let '(ps, s2) := pulls (S (length cs)) s1 in (p :: ps, s2)).
    cbn [delivers]. destruct (pull s) as [p s']. specialize (IH s').
    destruct (pulls (S (length cs)) s') as [ps s'']. simpl in *.
    intros [= -> ->]. auto.
Qed.

(** A splitter that still reports [steps], after [reads] more pulls at most. *)
Inductive pending : LineSplitter → list LineStep → nat → Prop :=
| pending_done s carry ended : pending (mkSplitter s carry ended true) [] 0
| pending_ended s carry : pending (mkSplitter s carry true false) (line_steps carry PEnd) 0
| pending_open s carry cs t :
    delivers s cs t → is_text t = false →
    pending (mkSplitter s carry false false) (line_steps (carry ++ concat cs) t) (S (length cs)).

Lemma line_steps_line text t l r :
  split_newline text = Some (l, r) → line_steps text t = text_line l :: line_steps r t.
Proof. intros H. unfold line_steps. by rewrite split_newline_lines, H. Qed.

Lemma split_newline_app text more l r :
  split_newline text = Some (l, r) → split_newline (text ++ more) = Some (l, r ++ more).
Proof.
  revert l. induction text as [|b text IH]; intros l; [done|]. simpl.
  destruct (b =? LF)%Z; [by intros [= <- <-]|].
  destruct (split_newline text) as [[l' r']|]; [|done]. intros [= <- <-]. by rewrite (IH l').
Qed.

Lemma line_pull_pending fuel self steps reads :
  pending self steps reads → S reads < fuel →
  ∃ self' reads', line_pull fuel self = Ok (default LineEnd (head steps), self') ∧
    pending self' (tail steps) reads' ∧ reads' ≤ reads.
Proof.
  intros Hp Hf. unfold line_pull.
  destruct Hp as [s carry ended|s carry|s carry cs t Hd Ht]; cbn [line_done].
  { eexists _, 0. split_and!; [reflexivity|constructor|done]. }
  { destruct fuel as [|fuel]; [lia|]. cbn [splitter_loop Structured.carry input_ended].
    unfold next_line. destruct (split_newline carry) as [[l r]|] eqn:Hn; rewrite ?strip_without_cr.
    - rewrite (line_steps_line _ _ _ _ Hn). eexists _, 0. split_and!; [reflexivity|constructor|done].
    - unfold line_steps. rewrite split_newline_lines, Hn. unfold flush_remainder.
      destruct carry as [|b carry]; cbn [carry_flush Structured.carry line_input input_ended];
        rewrite ?strip_without_cr; eexists _, 0;
        (split_and!; [reflexivity|apply pending_done|done]). }
  revert fuel carry s Hf Hd. induction cs as [|c cs IH]; intros fuel carry s Hf Hd;
    (destruct fuel as [|fuel]; [lia|]); cbn [splitter_loop Structured.carry input_ended line_done line_input];
    unfold next_line; destruct (split_newline carry) as [[l r]|] eqn:Hn;
    rewrite ?strip_without_cr.
  1, 3: rewrite (line_steps_line _ _ l (r ++ concat _) (split_newline_app _ _ _ _ Hn));
    eexists _, _; split_and!; [reflexivity|by constructor|done].
  - simpl in Hd. destruct (pull s) as [p s']. simpl in Hd. subst p. rewrite app_nil_r.
    unfold line_steps. rewrite split_newline_lines, Hn.
    destruct t as [v| |e|r]; [destruct v; try discriminate Ht| |..];
      try (eexists _, 0; split_and!; [reflexivity|constructor|lia]).
    destruct fuel as [|fuel]; [simpl in Hf; lia|].
    cbn [splitter_loop Structured.carry input_ended line_done line_input]. unfold next_line. rewrite Hn.
    unfold flush_remainder. destruct carry as [|b carry]; cbn [carry_flush Structured.carry line_input input_ended];
      rewrite ?strip_without_cr; (eexists _, 0; split_and!; [reflexivity|constructor|lia]).
  - simpl in Hd. destruct (pull s) as [p s']. simpl in Hd. destruct Hd as [-> Hd].
    cbn [length] in Hf. destruct (IH fuel (carry_push carry c) s' ltac:(lia) Hd) as (self' & reads' & H1 & H2 & H3).
    unfold carry_push in *. rewrite <- app_assoc in H1, H2.
    exists self', reads'. split_and!; [exact H1|exact H2|cbn [length]; lia].
Qed.

Fixpoint line_pulls (fuel n : nat) (self : LineSplitter)
    : res Empty_set (list LineStep * LineSplitter) :=
  match n with
  | 0 => Ok ([], self)
  | S n =>
    let* ' (step, self) := line_pull fuel self in
    let* ' (steps, self) := line_pulls fuel n self in
    Ok (step :: steps, self)
  end.

Lemma line_pulls_pending fuel n self steps reads :
  pending self steps reads → S reads < fuel →
  ∃ self', line_pulls fuel n self = Ok (take n (steps ++ replicate n LineEnd), self').
Proof.
  revert self steps reads. induction n as [|n IH]; intros self steps reads Hp Hf; [by exists self|].
  destruct (line_pull_pending fuel self steps reads Hp Hf) as (self1 & reads1 & H1 & Hp1 & Hle).
  destruct (IH self1 (tail steps) reads1 Hp1 ltac:(lia)) as (self2 & H2).
  exists self2. simpl. rewrite H1. simpl. rewrite H2. simpl. do 2 f_equal.
  destruct steps as [|x steps]; simpl; [done|]. f_equal.
  change (LineEnd :: replicate n LineEnd) with (replicate (S n) (LineEnd (RuntimeError := RuntimeError))).
  rewrite !take_app, !take_replicate. do 2 f_equal. lia.
Qed.

(** The lines of a text stream do not depend on how the text was cut into
    items.  Over a stream that gives the texts [cs] and then something else,
    [n] pulls report the lines of the whole text, each without its line feed
    and one carriage return before it; then how the stream went on — at its end
    the unfinished last line, if there is one, or the failure, the cancellation
    or the item that is not text — and then the end, forever. *)
Theorem lines_exact s (cs : list str) (t : StreamPull) (n fuel : nat) :
  (pulls (S (length cs)) s).1 = (PItem ∘ VString <$> cs) ++ [t] → is_text t = false →
  length cs + 2 < fuel →
  ∃ self', line_pulls fuel n (lines s) =
    Ok (take n (line_steps (concat cs) t ++ replicate n LineEnd), self').
Proof.
  intros Hd%delivers_pulls Ht Hf.
  apply (line_pulls_pending fuel n (lines s) (line_steps (concat cs) t) (S (length cs))); [|lia].
  exact (pending_open s [] cs t Hd Ht).
Qed.
End Lines.

(** ** Projections *)

Section Projections.
Context {RuntimeError : Type}.

Notation Value := (Value RuntimeError).
Notation ValueStream := (ValueStream RuntimeError).
Notation StreamPull := (StreamPull RuntimeError).
Notation SelectStep := (SelectStep RuntimeError).
Notation SelectStream := (SelectStream RuntimeError).
Implicit Types (s : ValueStream) (record : list (str * Value)).

Lemma deduplicate_loop columns seen :
  NoDup seen →
  ∃ new, foldl (λ seen column,
      if existsb (str_eqb column) seen then seen else seen ++ [column]) seen columns = seen ++ new ∧
    NoDup (seen ++ new) ∧ (∀ c, c ∈ seen ++ new ↔ c ∈ seen ∨ c ∈ columns).
Proof.
  revert seen. induction columns as [|c columns IH]; intros seen Hnd; simpl.
  { exists []. rewrite app_nil_r. split_and!; [done..|set_solver]. }
  destruct (existsb (str_eqb c) seen) eqn:Hex.
  - destruct (IH seen Hnd) as (new & H1 & H2 & H3). exists new. split_and!; [done..|].
    apply existsb_exists in Hex as (c' & Hin%list_elem_of_In & ->%str_eqb_eq). set_solver.
  - assert (c ∉ seen) as Hc.
    { intros Hin. apply not_true_iff_false in Hex. apply Hex, existsb_exists.
      exists c. split; [by apply list_elem_of_In|by apply str_eqb_eq]. }
    destruct (IH (seen ++ [c])) as (new & H1 & H2 & H3).
    { apply NoDup_app. split_and!; [done|set_solver|apply NoDup_singleton]. }
    exists (c :: new). rewrite H1, <- app_assoc. rewrite <- app_assoc in H2. split_and!; [done..|].
    intros x. rewrite <- app_assoc in H3. specialize (H3 x). set_solver.
Qed.

(** Requested columns, each once. *)
Lemma deduplicate_spec columns :
  NoDup (deduplicate columns) ∧ ∀ c, c ∈ deduplicate columns ↔ c ∈ columns.
Proof.
  destruct (deduplicate_loop columns [] ltac:(constructor)) as (new & H1 & H2 & H3).
  unfold deduplicate. rewrite H1. split; [done|]. intros c. rewrite (H3 c). set_solver.
Qed.

(** The first occurrence decides the place. *)
Lemma deduplicate_snoc columns c :
  deduplicate (columns ++ [c]) =
  if decide (c ∈ columns) then deduplicate columns else deduplicate columns ++ [c].
Proof.
  unfold deduplicate. rewrite foldl_app. cbn [foldl].
  change (foldl _ [] columns) with (deduplicate columns).
  destruct (deduplicate_spec columns) as [_ Hin].
  destruct (existsb (str_eqb c) (deduplicate columns)) eqn:Hex.
  - apply existsb_exists in Hex as (c' & Hc'%list_elem_of_In & ->%str_eqb_eq).
    rewrite decide_True; [done|]. by apply Hin.
  - rewrite decide_False; [done|]. intros Hc. apply not_true_iff_false in Hex.
    apply Hex, existsb_exists. exists c. split; [by apply list_elem_of_In, Hin|by apply str_eqb_eq].
Qed.

Definition has_column record (c : str) : bool := bool_decide (is_Some (Record_get record c)).
Definition project record (columns : list str) : list (str * Value) :=
  (λ c, (c, default VNull (Record_get record c))) <$> columns.

Lemma has_column_get record c :
  if has_column record c then ∃ v, Record_get record c = Some v else Record_get record c = None.
Proof.
  unfold has_column. case_bool_decide as H; [exact H|]. destruct (Record_get record c); [|done].
  by destruct H.
Qed.

Lemma narrow_spec record columns entries :
  narrow record columns entries =
  match head (filter (λ c, has_column record c = false) columns) with
  | Some missing => inr missing
  | None => inl (entries ++ project record columns)
  end.
Proof.
  revert entries. induction columns as [|c columns IH]; intros entries; simpl.
  { by rewrite app_nil_r. }
  rewrite filter_cons. pose proof (has_column_get record c) as Hc.
  destruct (decide (has_column record c = false)) as [Hf|Ht].
  - rewrite Hf in Hc. by rewrite Hc.
  - apply not_false_is_true in Ht. rewrite Ht in Hc. destruct Hc as [v Hc]. rewrite Hc.
    rewrite IH, <- app_assoc. destruct (head _); [done|]. cbn [project fmap list_fmap].
    reflexivity.
Qed.

Lemma project_keys record columns : (project record columns).*1 = columns.
Proof. induction columns as [|c columns IH]; [done|]. cbn. f_equal. exact IH. Qed.

(** What one pull of the source becomes, for columns without repetition. *)
Definition select_step (columns : list str) (pulled : StreamPull) : SelectStep :=
  match pulled with
  | PItem (VRecord record) =>
    match head (filter (λ c, has_column record c = false) columns) with
    | Some missing => MissingColumn missing
    | None => SelectRecord (VRecord (project record columns))
    end
  | PItem other => SelectNotRecord (family_name other)
  | PEnd => SelectEnd
  | PFailed e => SelectFailed e
  | PCancelled r => SelectCancelled r
  end.

Definition is_record (step : SelectStep) : bool :=
  match step with SelectRecord _ => true | _ => false end.

Lemma select_pull_open s columns :
  NoDup columns →
  select_pull (mkSelect s columns false) =
  Ok (select_step columns (pull s).1,
      mkSelect (pull s).2 columns (negb (is_record (select_step columns (pull s).1)))).
Proof.
  intros Hnd. unfold select_pull. cbn [select_done select_input select_columns].
  destruct (pull s) as [p s']. cbn [fst snd]. unfold select_step.
  destruct p as [v| | |]; try done. destruct v; try done.
  rewrite narrow_spec. destruct (head _); [done|]. simpl.
  rewrite Record_new_nodup; [done|]. by rewrite project_keys.
Qed.

Fixpoint select_pulls (n : nat) (self : SelectStream) : res Empty_set (list SelectStep * SelectStream) :=
  match n with
  | 0 => Ok ([], self)
  | S n =>
    let* ' (step, self) := select_pull self in
    let* ' (steps, self) := select_pulls n self in
    Ok (step :: steps, self)
  end.

Lemma select_pulls_done n s columns :
  select_pulls n (mkSelect s columns true) = Ok (replicate n SelectEnd, mkSelect s columns true).
Proof. induction n as [|n IH]; [done|]. simpl. by rewrite IH. Qed.

(** A step that is not a record is the last that is not the end. *)
Fixpoint until_stopped (steps : list SelectStep) : list SelectStep :=
  match steps with
  | [] => []
  | step :: steps =>
    step :: if is_record step then until_stopped steps else replicate (length steps) SelectEnd
  end.

Lemma select_pulls_open n s columns :
  NoDup columns →
  ∃ self', select_pulls n (mkSelect s columns false) =
    Ok (until_stopped (select_step columns <$> (pulls n s).1), self').
Proof.
  intros Hnd. revert s. induction n as [|n IH]; intros s; [by eexists|]. cbn [select_pulls pulls].
  rewrite select_pull_open by done. destruct (pull s) as [p s']. cbn [res_bind fst snd].
  pose proof (IH s') as [self' Hs]. assert (length (pulls n s').1 = n) as Hlen.
  { clear. revert s'. induction n as [|n IH]; intros s; [done|]. simpl.
    destruct (pull s) as [p s']. specialize (IH s'). destruct (pulls n s'). simpl in *. lia. }
  destruct (pulls n s') as [ps s'']. cbn [fst fmap list_fmap until_stopped] in *.
  destruct (is_record (select_step columns p)); cbn [negb].
  - rewrite Hs. by eexists.
  - rewrite select_pulls_done. eexists. cbn [res_bind]. by rewrite length_fmap, Hlen.
Qed.

(** [select] never fails to build its records.  Each pull takes one item:
    a record with every requested column becomes those columns, each once, in
    the order they were asked for, with the record's values; another record
    names the first missing column; anything else is passed on; and after a
    step that is not a record only the end is reported. *)
Theorem select_exact s (columns : list str) (n : nat) :
  NoDup (deduplicate columns) ∧
  (∀ earlier c, deduplicate (earlier ++ [c]) =
    if decide (c ∈ earlier) then deduplicate earlier else deduplicate earlier ++ [c]) ∧
  ∃ self', select_pulls n (select s columns) =
    Ok (until_stopped (select_step (deduplicate columns) <$> (pulls n s).1), self').
Proof.
  destruct (deduplicate_spec columns) as [H1 _]. split_and!; [done|exact deduplicate_snoc|].
  by apply select_pulls_open.
Qed.
End Projections.

(** ** Sorting *)

(** A stable sort of positions is a stable sort of what is at them. *)
Lemma stably_sorted_fmap {A B} (f : A → B) (cmp : A → A → comparison) (cmp' : B → B → comparison) l k :
  (∀ x y, x ∈ l → y ∈ l → cmp x y = cmp' (f x) (f y)) →
  stably_sorted cmp l k → stably_sorted cmp' (f <$> l) (f <$> k).
Proof.
  intros Hf (Hp & Hs & Hst).
  assert (∀ x, x ∈ k → x ∈ l) as Hin by (intros x; by rewrite Hp).
  split_and!.
  - by rewrite Hp.
  - clear Hst Hp. induction Hs as [|x k Hs IH Hx]; [constructor|]. simpl. constructor.
    + apply IH. intros y Hy. apply Hin. by right.
    + apply Forall_fmap, Forall_forall. intros y Hy. simpl. rewrite <- Hf;
        [by apply (proj1 (Forall_forall _ _) Hx y)|apply Hin; by left|apply Hin; by right].
  - intros z (x & -> & Hx)%list_elem_of_fmap.
    assert (∀ m : list A, (∀ y, y ∈ m → y ∈ l) →
      filter (λ y, cmp' (f x) y = Eq) (f <$> m) = f <$> filter (λ y, cmp x y = Eq) m) as Hm.
    { induction m as [|y m IH]; intros Hy; [done|]. rewrite fmap_cons, !filter_cons, IH by set_solver.
      rewrite <- (Hf x y Hx) by set_solver. by destruct (decide _). }
    rewrite !Hm by done. by rewrite Hst.
Qed.

Section Sorting.
Context {RuntimeError : Type}.
Context (sorting : ∀ {A}, list A → plan A) `{!StableSort (@sorting)}.

Notation Value := (Value RuntimeError).
Notation ValueStream := (ValueStream RuntimeError).
Implicit Types (s : ValueStream) (items : list Value).

Definition comparable (a b : Value) : Prop := ∃ c, order a b = Ok c.

(** The order, where it is defined. *)
Definition value_compare (a b : Value) : comparison :=
  match order a b with Ok c => c | _ => Eq end.

Lemma value_compare_preorder items :
  Forall value_wf items → (∀ a b, a ∈ items → b ∈ items → comparable a b) →
  preorder_among value_compare items.
Proof.
  intros Hw Hc. rewrite Forall_forall in Hw. unfold value_compare. split.
  - intros a b Ha Hb. destruct (Hc a b Ha Hb) as [c Ho]. rewrite Ho.
    by rewrite (order_antisym a b c) by auto.
  - intros a b c Ha Hb Hcc. destruct (Hc a b Ha Hb) as [x Hx], (Hc b c Hb Hcc) as [y Hy].
    rewrite Hx, Hy. intros H1 H2. rewrite (order_trans a b c x y) by auto. by destruct x, y.
Qed.

(** A comparator that compares what its arguments stand for: with comparable
    values nothing is remembered, and what is remembered was incomparable. *)
Lemma capture_run {A} (key : A → Value) (l : list A) :
  (∀ x y, x ∈ l → y ∈ l → comparable (key x) (key y)) →
  run_plan (λ x y, capture_order (key x) (key y)) (sorting A l) None =
  (run_pure (λ x y, value_compare (key x) (key y)) (sorting A l), None).
Proof.
  intros Hc.
  destruct (run_plan_pure (λ x y, capture_order (key x) (key y))
    (λ x y, value_compare (key x) (key y)) (λ x, x ∈ l) (λ e, e = None) (sorting A l) None)
    as [H1 H2]; [apply sorting_asks|done| |by rewrite (surjective_pairing (run_plan _ _ _)), H1, H2].
  intros x y e Hx Hy ->. unfold capture_order, value_compare. by destruct (Hc x y Hx Hy) as [c ->].
Qed.

Definition incomparable_pair {A} (key : A → Value) (l : list A) (e : option (str * str)) : Prop :=
  match e with
  | None => True
  | Some (a, b) => ∃ x y, x ∈ l ∧ y ∈ l ∧ ¬ comparable (key x) (key y) ∧
      a = family_name (key x) ∧ b = family_name (key y)
  end.

Lemma capture_remembers {A} (key : A → Value) (l : list A) :
  incomparable_pair key l (run_plan (λ x y, capture_order (key x) (key y)) (sorting A l) None).2.
Proof.
  apply (run_plan_invariant _ (λ x, x ∈ l)); [apply sorting_asks|done|].
  intros x y e Hx Hy He. unfold capture_order.
  destruct (order (key x) (key y)) as [c|err|] eqn:Ho; simpl; [done|..];
    (destruct e as [[]|]; [done|]); exists x, y; split_and!; try done; intros [c Hc]; congruence.
Qed.

(** What an item is ordered by. *)
Definition key_of (key : option str) (v : Value) : option Value :=
  match key, v with
  | None, _ => Some v
  | Some key, VRecord record => Record_get record key
  | Some _, _ => None
  end.
Definition sort_key (key : option str) (v : Value) : Value := default VNull (key_of key v).

Definition keyless (key : str) (v : Value) : SortOutcome RuntimeError :=
  match v with VRecord _ => SortMissingKey key | _ => SortNotRecord (family_name v) end.

Lemma extract_keys_spec key items keys :
  extract_keys key items keys =
  match head (filter (λ v, key_of (Some key) v = None) items) with
  | Some v => inr (keyless key v)
  | None => inl (keys ++ (sort_key (Some key) <$> items))
  end.
Proof.
  revert keys. induction items as [|v items IH]; intros keys; [by rewrite app_nil_r|].
  rewrite filter_cons. cbn [extract_keys fmap list_fmap].
  destruct v as [| | | | | | | | | |r| | | | | | |];
    try (rewrite decide_True by done; reflexivity).
  unfold sort_key at 1. cbn [key_of].
  destruct (decide (Record_get r key = None)) as [Hn|Hs]; [by rewrite Hn|].
  destruct (Record_get r key) as [v|]; [|done]. rewrite IH, <- app_assoc. by destruct (head _).
Qed.

Lemma Record_get_elem (r : list (str * Value)) key v : Record_get r key = Some v → (key, v) ∈ r.
Proof.
  induction r as [|[k w] r IH]; [done|]. simpl. destruct (str_eqb k key) eqn:Hk.
  - apply str_eqb_eq in Hk as ->. intros [= <-]. left.
  - intros H. right. auto.
Qed.

Lemma sort_key_wf key v : value_wf v → value_wf (sort_key key v).
Proof.
  unfold sort_key. destruct key as [key|]; [|done]. destruct v as [| | | | | | | | | |r| | | | | | |]; try done.
  cbn [key_of]. destruct (Record_get r key) as [v|] eqn:Hr; [|done].
  intros Hw. simpl. apply Record_get_elem in Hr. apply list_all_Forall in Hw.
  exact (proj1 (Forall_forall _ _) Hw _ Hr).
Qed.

Lemma positions items : (λ i, nth i items VNull) <$> seq 0 (length items) = items.
Proof.
  apply list_eq. intros i. rewrite list_lookup_fmap.
  destruct (decide (i < length items)) as [Hi|Hi].
  - rewrite lookup_seq_lt by done. simpl.
    destruct (nth_lookup_or_length items i VNull) as [->|]; [done|lia].
  - rewrite lookup_seq_ge, lookup_ge_None_2 by lia. done.
Qed.

Lemma pick_spec items indices :
  (∀ i, i ∈ indices → i < length items) → pick items indices = Ok ((λ i, nth i items VNull) <$> indices).
Proof.
  induction indices as [|i indices IH]; intros Hi; [done|]. cbn [pick].
  destruct (lookup_lt_is_Some_2 items i) as [v Hv]; [apply Hi; left|]. rewrite Hv. cbn [expect_some res_bind].
  rewrite IH by (intros j Hj; apply Hi; by right). cbn [res_bind fmap list_fmap].
  by rewrite (nth_lookup_Some _ _ _ _ Hv).
Qed.

Lemma sort_loop_read limit n items s :
  sort_loop limit n items s =
  let '(vs, t, s') := read n s in
  (match t with
   | PItem _ => inr (SortLimitExceeded limit)
   | PEnd => inl (items ++ vs)
   | PFailed e => inr (SortFailed e)
   | PCancelled r => inr (SortCancelled r)
   end, s').
Proof.
  revert items s. induction n as [|n IH]; intros items s; simpl;
    destruct (pull s) as [[v| | |] s']; simpl; rewrite ?app_nil_r; try done.
  rewrite IH. destruct (read n s') as [[vs t] s'']. by rewrite <- app_assoc.
Qed.

(** What an ordering call may answer about the items [vs]. *)
Definition sort_answers (key : option str) (vs : list Value) (r : res Empty_set (SortOutcome RuntimeError)) : Prop :=
  (Forall value_wf vs →
   (∀ a b, a ∈ vs → b ∈ vs → comparable (sort_key key a) (sort_key key b)) →
   ∃ sorted, r = Ok (Sorted sorted) ∧
     stably_sorted (λ a b, value_compare (sort_key key a) (sort_key key b)) vs sorted) ∧
  ∀ o, r = Ok o →
    match o with
    | Sorted sorted => sorted ≡ₚ vs
    | Incomparable a b => ∃ x y, x ∈ vs ∧ y ∈ vs ∧
        ¬ comparable (sort_key key x) (sort_key key y) ∧
        a = family_name (sort_key key x) ∧ b = family_name (sort_key key y)
    | _ => False
    end.

Lemma preorder_keyed key vs :
  Forall value_wf vs →
  (∀ a b, a ∈ vs → b ∈ vs → comparable (sort_key key a) (sort_key key b)) →
  preorder_among (λ a b, value_compare (sort_key key a) (sort_key key b)) vs.
Proof.
  intros Hw Hc.
  destruct (value_compare_preorder (sort_key key <$> vs)) as [H1 H2].
  - apply Forall_fmap. eapply Forall_impl; [exact Hw|]. intros v. apply sort_key_wf.
  - intros a b (x & -> & Hx)%list_elem_of_fmap (y & -> & Hy)%list_elem_of_fmap. by apply Hc.
  - split.
    + intros a b Ha Hb. apply H1; by apply list_elem_of_fmap_2.
    + intros a b c Ha Hb Hcc. apply H2; by apply list_elem_of_fmap_2.
Qed.

Lemma sort_values_answers vs : sort_answers None vs (sort_values (@sorting) vs).
Proof.
  unfold sort_values. split.
  - intros Hw Hc. pose proof (capture_run (λ v, v) vs Hc) as Hrun. cbv beta in Hrun.
    change (λ x y : Value, capture_order x y) with (@capture_order RuntimeError) in Hrun.
    rewrite Hrun.
    destruct (sorting_stable (λ a b, value_compare a b) vs (preorder_keyed None vs Hw Hc))
      as (k & Hk & Hst).
    rewrite Hk. by exists k.
  - pose proof (capture_remembers (λ v, v) vs) as Hr.
    change (λ x y : Value, capture_order x y) with (@capture_order RuntimeError) in Hr.
    destruct (run_plan capture_order (sorting Value vs) None) as [r e] eqn:Hrun.
    intros o. destruct r as [k|]; [|done]. intros [= <-]. destruct e as [[a b]|]; [done|].
    apply (sorting_permutes capture_order vs k None). by rewrite Hrun.
Qed.

Lemma nth_keys key vs i : nth i (sort_key (Some key) <$> vs) VNull = sort_key (Some key) (nth i vs VNull).
Proof. exact (map_nth (sort_key (Some key)) vs VNull i). Qed.

Lemma capture_run_eq {A} (cmp cmp' : A → A → option (str * str) → comparison * option (str * str)) p e :
  (∀ x y e, cmp x y e = cmp' x y e) → run_plan cmp p e = run_plan cmp' p e.
Proof.
  intros H. revert e. induction p as [| |x y k IH]; intros e; [done..|]. simpl. rewrite H.
  destruct (cmp' x y e) as [c e']. apply IH.
Qed.

(** Sorting positions by the keys at them sorts the items. *)
Lemma sort_by_key_answers key vs :
  sort_answers (Some key) vs
    (let '(indices, error) :=
       run_plan (compare_keys (sort_key (Some key) <$> vs)) (sorting nat (seq 0 (length vs))) None in
     let* indices := expect_some indices in
     match error with
     | Some (l, r) => Ok (Incomparable l r)
     | None => let* sorted := pick vs indices in Ok (Sorted sorted)
     end).
Proof.
  set (item := λ i, nth i vs VNull).
  assert (∀ i, i ∈ seq 0 (length vs) → item i ∈ vs) as Hitem.
  { intros i Hi. rewrite <- (positions vs). apply list_elem_of_fmap. by exists i. }
  rewrite (capture_run_eq _ (λ i j, capture_order (sort_key (Some key) (item i)) (sort_key (Some key) (item j))))
    by (intros i j e; unfold compare_keys; by rewrite !nth_keys).
  assert (∀ k, k ≡ₚ seq 0 (length vs) → pick vs k = Ok (item <$> k)) as Hpick.
  { intros k Hk. apply pick_spec. intros i. rewrite Hk, elem_of_seq. lia. }
  split.
  - intros Hw Hc.
    rewrite (capture_run (λ i, sort_key (Some key) (item i))) by (intros i j Hi Hj; apply Hc; auto).
    destruct (preorder_keyed (Some key) vs Hw Hc) as [H1 H2].
    destruct (sorting_stable (λ i j, value_compare (sort_key (Some key) (item i))
      (sort_key (Some key) (item j))) (seq 0 (length vs))) as (k & Hk & Hst).
    { split; [intros i j Hi Hj; apply H1|intros i j l Hi Hj Hl; apply H2]; auto. }
    rewrite Hk. cbn [expect_some res_bind]. rewrite Hpick by apply Hst. eexists. split; [reflexivity|].
    rewrite <- (positions vs) at 1.
    eapply stably_sorted_fmap; [|exact Hst]. done.
  - pose proof (capture_remembers (λ i, sort_key (Some key) (item i)) (seq 0 (length vs))) as Hr.
    pose proof (sorting_permutes (λ i j, capture_order (sort_key (Some key) (item i))
      (sort_key (Some key) (item j))) (seq 0 (length vs))) as Hp.
    destruct (run_plan _ (sorting nat (seq 0 (length vs))) None) as [r e] eqn:Hrun.
    intros o. destruct r as [k|]; [|done]. cbn [expect_some res_bind]. destruct e as [[a b]|].
    + intros [= <-]. destruct Hr as (i & j & Hi & Hj & Hn & -> & ->). exists (item i), (item j). auto.
    + specialize (Hp k None). rewrite Hrun in Hp. specialize (Hp eq_refl). rewrite Hpick by done.
      intros [= <-]. rewrite Hp. unfold item. by rewrite (positions vs).
Qed.

(** [sort] reads at most one item past its limit and tells apart how the
    stream ended.  After a stream that ended, an item without the key is named;
    otherwise, when all the keys are comparable, the answer is the stable sort
    of the items by the exact order of their keys.  In every case a sorted
    answer holds the items that were read, and an incomparable pair it reports
    is a pair of keys of the stream that have no order. *)
Theorem sort_exact s (key : option str) (limit : nat) :
  ∃ vs t s', length vs ≤ limit ∧ (is_item t = true → length vs = limit) ∧
    pulls (S (length vs)) s = ((PItem <$> vs) ++ [t], s') ∧
    ∃ r, sort (@sorting) s key limit = (let* o := r in Ok (o, drop_stream s')) ∧
    match t with
    | PItem _ => r = Ok (SortLimitExceeded limit)
    | PFailed e => r = Ok (SortFailed e)
    | PCancelled c => r = Ok (SortCancelled c)
    | PEnd =>
      match head (filter (λ v, key_of key v = None) vs) with
      | Some v => r = Ok (match v with
          | VRecord _ => SortMissingKey (default [] key)
          | _ => SortNotRecord (family_name v)
          end)
      | None => sort_answers key vs r
      end
    end.
Proof.
  pose proof (read_pulls limit s) as Hr. unfold sort. rewrite sort_loop_read.
  destruct (read limit s) as [[vs t] s']. destruct Hr as (H1 & H2 & H3).
  exists vs, t, s'. split_and!; [done..|].
  destruct t as [v| |e|c]; try by eexists.
  destruct key as [key|]; eexists; (split; [reflexivity|]).
  - unfold sort_by_key. cbn [app]. rewrite (extract_keys_spec key vs []).
    destruct (head _) as [v|]; [by destruct v|]. apply sort_by_key_answers.
  - assert (filter (λ v, key_of None v = None) vs = []) as ->
      by (clear; induction vs as [|v vs IH]; [done|]; by rewrite filter_cons).
    apply sort_values_answers.
Qed.
End Sorting.

(** ** Instances *)

Definition ints (l : list Z) : list (Value str) := VInt <$> l.
Definition over (vs : list (Value str)) : ValueStream str :=
  mkStream (Values vs 0) never 0 (mkSchema TAny Unknown 0) 0 false None 0 false.

Lemma drains_exact_witness :
  ∃ vs, length vs ≤ 3 ∧ drop (length vs - 2) vs = ints [2; 3]%Z ∧
    collect (over (ints [1; 2; 3]%Z)) 3 =
      (Done (VList vs), (collect (over (ints [1; 2; 3]%Z)) 3).2).
Proof.
  destruct (drains_exact (over (ints [1; 2; 3]%Z)) 2 3 ltac:(lia))
    as (vs & t & s' & Hl & _ & _ & Hc & H & _).
  assert ((last_items (over (ints [1; 2; 3]%Z)) 2 3).1 = Done (ints [2; 3]%Z)) as Hlast by reflexivity.
  rewrite H in Hlast. exists vs. rewrite Hc. destruct t; try discriminate Hlast.
  injection Hlast as Hlast. by split_and!.
Defined.

(** A terminator cut in the middle. *)
Lemma lines_exact_witness :
  ∃ self', line_pulls 10 4 (lines (over [VString (bs "ab"); VString [13]%Z; VString [10; 99]%Z])) =
    Ok ([Line (VString (bs "ab")); Line (VString (bs "c")); LineEnd; LineEnd], self').
Proof.
  exact (lines_exact (over [VString (bs "ab"); VString [13]%Z; VString [10; 99]%Z])
    [bs "ab"; [13]%Z; [10; 99]%Z] PEnd 4 10 eq_refl eq_refl ltac:(simpl; lia)).
Defined.

(** The insertion sort of the standard library, by a key. *)
Definition row (n : Z) (name : str) : Value str := VRecord [(bs "n", VInt n); (bs "name", VString name)].

Lemma sort_exact_witness :
  ∃ vs, sort_answers (Some (bs "n")) vs
    (let* r := sort (@insertion_sort) (over [row 2 (bs "x"); row 1 (bs "y"); row 2 (bs "z")])
       (Some (bs "n")) 5 in Ok r.1) ∧
  (let* r := sort (@insertion_sort) (over [row 2 (bs "x"); row 1 (bs "y"); row 2 (bs "z")])
    (Some (bs "n")) 5 in Ok r.1) = Ok (Sorted [row 1 (bs "y"); row 2 (bs "x"); row 2 (bs "z")]).
Proof.
  destruct (sort_exact (@insertion_sort) (over [row 2 (bs "x"); row 1 (bs "y"); row 2 (bs "z")])
    (Some (bs "n")) 5) as (vs & t & s' & _ & _ & _ & r & Hs & Hr).
  assert ((let* r := sort (@insertion_sort) (over [row 2 (bs "x"); row 1 (bs "y"); row 2 (bs "z")])
    (Some (bs "n")) 5 in Ok r.1) = Ok (Sorted [row 1 (bs "y"); row 2 (bs "x"); row 2 (bs "z")]))
    as Hv by reflexivity.
  exists vs. split; [|exact Hv]. rewrite Hs in Hv |- *.
  destruct t; try (subst r; discriminate Hv).
  destruct (head _) as [v|]; [destruct v; subst r; discriminate Hv|].
  by destruct r.
Defined.
