(* ===== verification/Lifetime.v ===== *)
(** * Lifetimes ([opaal-runtime/src/lifetime.rs], tokens and clocks of eval.rs)

    Deadlines, the sticky cancellation scope and the cleanup stack of an
    evaluation.  A scope is polled by several threads over one atomic byte, so
    a poll is the sequence of its atomic operations ([poll_step]): the same
    program is run alone ([run_poll]) and interleaved with others ([Step]). *)
From stdpp Require Import relations.
From S2P Require Import Prelude Authority Security Path Status Value Stream.

Local Open Scope res_scope.

(** Nanoseconds of a monotonic clock, a [u64]. *)
Definition Instant : Type := Z.
Definition U64_MAX : Z := (2 ^ 64 - 1)%Z.
Definition saturating_add (a b : Z) : Z := Z.min (a + b) U64_MAX.
Definition saturating_sub (a b : Z) : Z := Z.max 0 (a - b).

(** ** Tokens built from tokens

    [observed] keeps the first reason: a poll after it calls nothing, so the
    answer to poll [n] is decided by the first of the polls up to [n] whose
    signals say stop. *)
Definition first_stop (stop : nat → option CancelReason) (n : nat) : option CancelReason :=
  (fix go (fuel m : nat) : option CancelReason :=
    match stop m, fuel with
    | Some r, _ => Some r
    | None, 0 => None
    | None, S fuel => go fuel (S m)
    end) n 0.

Definition latched (stop : nat → option CancelReason) : CancellationToken :=
  mkToken (λ n, bool_decide (is_Some (first_stop stop n)))
    (λ n, default Requested (first_stop stop n)).

(** [CancellationToken::deadline]. *)
Definition deadline_token (clock : nat → Instant) (deadline : Instant) : CancellationToken :=
  mkToken (λ n, (deadline <=? clock n)%Z) (λ _, Timeout).

Definition with_requested_cancellation (self : CancellationToken) (predicate : nat → bool)
    : CancellationToken :=
  latched (λ n,
    if predicate n then Some Requested
    else if is_cancelled self n then Some (reason self n)
    else None).

(** The clock is read by the polls the inner token lets pass. *)
Definition with_deadline (self : CancellationToken) (clock : nat → Instant) (deadline : Instant)
    : CancellationToken :=
  latched (λ n,
    if is_cancelled self n then Some (reason self n)
    else if (deadline <=? clock n)%Z then Some Timeout
    else None).

(** ** Deadlines *)

Definition ResourceOwnerId : Type := EvaluationContextId.
Definition CancellationScopeId : Type := EvaluationContextId.
Definition Deadline : Type := Instant.

Definition narrowed_to (self other : Deadline) : Deadline :=
  if (self <=? other)%Z then self else other.

Definition narrow_deadline (self : option Deadline) (deadline : Deadline) : option Deadline :=
  Some (match self with
        | Some current => narrowed_to current deadline
        | None => deadline
        end).

(** [timeout] is the nanoseconds of a [Duration], a [u128]. *)
Definition operation_deadline (self : option Deadline) (now : Instant) (timeout : Z) : Deadline :=
  let timeout := if (timeout <=? U64_MAX)%Z then timeout else U64_MAX in
  let deadline := saturating_add now timeout in
  match self with
  | Some current => narrowed_to current deadline
  | None => deadline
  end.

Definition remaining_until (now : Instant) (deadline : Deadline) : Z := saturating_sub deadline now.

(** ** Polling a scope *)

Definition reason_code (r : CancelReason) : Z := match r with Requested => 1 | Timeout => 2 end%Z.

(** The operations of a poll; [CompareExchange] ignores its result. *)
Inductive poll_step :=
| Return (r : option CancelReason)
| LoadState (k : Z → poll_step)
| CompareExchange (expected new : Z) (k : poll_step)
| AskToken (k : bool → poll_step)
| AskReason (k : CancelReason → poll_step)
| Now (k : Instant → poll_step).

Definition settle (r : CancelReason) (k : option CancelReason → poll_step) : poll_step :=
  CompareExchange 0 (reason_code r)
    (LoadState (λ state, if (state =? 2)%Z then k (Some Timeout) else k (Some Requested))).

Definition poll_then (deadline : option Deadline) (k : option CancelReason → poll_step) : poll_step :=
  LoadState (λ state,
    if (state =? 1)%Z then k (Some Requested)
    else if (state =? 2)%Z then k (Some Timeout)
    else
      AskToken (λ cancelled,
        if cancelled then AskReason (λ r, settle r k)
        else
          match deadline with
          | Some deadline =>
              Now (λ now, if (deadline <=? now)%Z then settle Timeout k else k None)
          | None => k None
          end)).

Definition scope_poll (deadline : option Deadline) : poll_step := poll_then deadline Return.

Definition poll_until (deadline : option Deadline) (original : Deadline) : poll_step :=
  poll_then deadline (λ r,
    match r with
    | Some r => Return (Some r)
    | None =>
      Now (λ now,
        if (original <=? now)%Z
        then CompareExchange 0 2 (scope_poll deadline)
        else Return None)
    end).

Definition compare_exchange (state expected new : Z) : Z :=
  if (state =? expected)%Z then new else state.

(** *** Alone: the answers of the token and the clock, call by call *)

Record PollEnv := mkEnv {
  state : Z;
  token : CancellationToken;
  token_polls : nat;
  clock : nat → Instant;
  clock_reads : nat
}.

Fixpoint run_poll (p : poll_step) (env : PollEnv) : option CancelReason * PollEnv :=
  match p with
  | Return r => (r, env)
  | LoadState k => run_poll (k (state env)) env
  | CompareExchange expected new k =>
      run_poll k (mkEnv (compare_exchange (state env) expected new) (token env) (token_polls env)
        (clock env) (clock_reads env))
  | AskToken k =>
      run_poll (k (is_cancelled (token env) (token_polls env)))
        (mkEnv (state env) (token env) (S (token_polls env)) (clock env) (clock_reads env))
  | AskReason k => run_poll (k (reason (token env) (token_polls env - 1))) env
  | Now k =>
      run_poll (k (clock env (clock_reads env)))
        (mkEnv (state env) (token env) (token_polls env) (clock env) (S (clock_reads env)))
  end.

(** *** Interleaved

    Each call in flight remembers what some earlier call had already reported
    when it began.  Token and clock may answer anything. *)
Record Call := mkCall { began_after : option CancelReason; rest : poll_step }.

Record Polling := mkPolling {
  shared : Z;
  calls : list Call;
  reports : list (option CancelReason * option CancelReason)
}.

(** The first cancellation reported, if any. *)
Definition reported (rs : list (option CancelReason * option CancelReason)) : option CancelReason :=
  head (omap snd rs).

Inductive is_poll : poll_step → Prop :=
| is_poll_plain deadline : is_poll (scope_poll deadline)
| is_poll_until deadline original : is_poll (poll_until deadline original).

Inductive Step : Polling → Polling → Prop :=
| StepBegin s cs rs p :
    is_poll p → Step (mkPolling s cs rs) (mkPolling s (cs ++ [mkCall (reported rs) p]) rs)
| StepLoad s cs cs' rs b k :
    Step (mkPolling s (cs ++ mkCall b (LoadState k) :: cs') rs)
      (mkPolling s (cs ++ mkCall b (k s) :: cs') rs)
| StepExchange s cs cs' rs b expected new k :
    Step (mkPolling s (cs ++ mkCall b (CompareExchange expected new k) :: cs') rs)
      (mkPolling (compare_exchange s expected new) (cs ++ mkCall b k :: cs') rs)
| StepToken s cs cs' rs b k answer :
    Step (mkPolling s (cs ++ mkCall b (AskToken k) :: cs') rs)
      (mkPolling s (cs ++ mkCall b (k answer) :: cs') rs)
| StepReason s cs cs' rs b k r :
    Step (mkPolling s (cs ++ mkCall b (AskReason k) :: cs') rs)
      (mkPolling s (cs ++ mkCall b (k r) :: cs') rs)
| StepNow s cs cs' rs b k now :
    Step (mkPolling s (cs ++ mkCall b (Now k) :: cs') rs)
      (mkPolling s (cs ++ mkCall b (k now) :: cs') rs)
| StepReturn s cs cs' rs b r :
    Step (mkPolling s (cs ++ mkCall b (Return r) :: cs') rs)
      (mkPolling s (cs ++ cs') (rs ++ [(b, r)])).

Definition new_scope : Polling := mkPolling 0 [] [].

Definition reachable : Polling → Prop := rtc Step new_scope.

(** ** Resources *)

Record ResourceId := mkResourceId { resource_owner : ResourceOwnerId; ordinal : Z }.

Inductive CleanupStatus := Succeeded | Failed (message : str).

Record CleanupOutcome := mkOutcome { resource : ResourceId; status : CleanupStatus }.

(** A cleanup can be called once; it is given by what that call returns.
    [ran] lists the cleanups called so far. *)
Record ResourceScope := mkScope {
  owner : ResourceOwnerId;
  next_ordinal : Z;
  resources : list (ResourceId * (unit + str));
  closed : bool;
  ran : list ResourceId
}.

Definition ResourceScope_new (owner : ResourceOwnerId) : ResourceScope :=
  mkScope owner 0 [] false [].

(** [checked_add] on a [u32]; the stack grows at the front. *)
Definition register (self : ResourceScope) (cleanup : unit + str)
    : option ResourceId * ResourceScope :=
  if closed self then (None, self)
  else
    let id := mkResourceId (owner self) (next_ordinal self) in
    if (next_ordinal self + 1 <? 2 ^ 32)%Z then
      (Some id,
       mkScope (owner self) (next_ordinal self + 1) ((id, cleanup) :: resources self)
         (closed self) (ran self))
    else (None, self).

Definition cleanup_status {E} (secrets : SecretStore) (result : unit + str) : res E CleanupStatus :=
  match result with
  | inl _ => Ok Succeeded
  | inr message => let* text := redact_text secrets message in Ok (Failed text)
  end.

Fixpoint close_loop {E} (secrets : SecretStore) (resources : list (ResourceId * (unit + str)))
    : res E (list CleanupOutcome) :=
  match resources with
  | [] => Ok []
  | (id, result) :: resources =>
    let* status := cleanup_status secrets result in
    let* outcomes := close_loop secrets resources in
    Ok (mkOutcome id status :: outcomes)
  end.

Definition drained (self : ResourceScope) : ResourceScope :=
  mkScope (owner self) (next_ordinal self) [] true (ran self ++ (resources self).*1).

Definition close_scope {E} (self : ResourceScope) (secrets : SecretStore)
    : res E (list CleanupOutcome * ResourceScope) :=
  if closed self then Ok ([], self)
  else
    let* outcomes := close_loop secrets (resources self) in
    Ok (outcomes, drained self).

Definition drop_scope (self : ResourceScope) : ResourceScope :=
  if closed self then self else drained self.
