(* ===== verification/LifetimeFacts.v ===== *)
(** * Properties of lifetimes: concurrent polls agree, deadlines only narrow,
    every cleanup runs once *)
From stdpp Require Import relations.
From S2P Require Import Prelude Utf8 Authority Security SecurityFacts Path Status Value Stream Lifetime.

(** ** What a poll may still do

    [known] is the reason the call has seen recorded.  The scope's byte is zero
    or a reason, and once a reason it stays: so from [known] on, the call
    returns just that, and it writes only reasons over zero. *)
Fixpoint settled (known : option CancelReason) (p : poll_step) : Prop :=
  match p with
  | Return r => r = known
  | LoadState k =>
      match known with
      | Some r => settled known (k (reason_code r))
      | None => settled None (k 0%Z) ∧ ∀ r, settled (Some r) (k (reason_code r))
      end
  | CompareExchange expected new k =>
      expected = 0%Z ∧ (∃ r, new = reason_code r) ∧
      match known with Some _ => settled known k | None => ∀ r, settled (Some r) k end
  | AskToken k => ∀ b, settled known (k b)
  | AskReason k => ∀ r, settled known (k r)
  | Now k => ∀ t, settled known (k t)
  end.

Lemma settle_settled known r k :
  (∀ r', known = None ∨ known = Some r' → settled (Some r') (k (Some r'))) →
  settled known (settle r k).
Proof.
  intros Hk. simpl. split_and!; [done|by exists r|].
  destruct known as [r'|]; [specialize (Hk r' (or_intror eq_refl)); by destruct r'|].
  intros r'. specialize (Hk r' (or_introl eq_refl)). by destruct r'.
Qed.

Lemma poll_then_settled known deadline k :
  settled known (k known) → (∀ r, known = None → settled (Some r) (k (Some r))) →
  settled known (poll_then deadline k).
Proof.
  intros H1 H2. destruct known as [r|]; simpl; [by destruct r|].
  split; [|intros []; simpl; auto]. intros [].
  - intros r. apply settle_settled. auto.
  - destruct deadline as [d|]; [|done]. intros now. case_match; [|done].
    apply (settle_settled None Timeout). auto.
Qed.

Lemma poll_settled known p : is_poll p → settled known p.
Proof.
  assert (∀ deadline known, settled known (scope_poll deadline)) as Hpoll.
  { intros deadline k. by apply poll_then_settled. }
  intros [deadline|deadline original]; [apply Hpoll|].
  apply poll_then_settled; [|done]. destruct known as [r|]; [done|]. intros now.
  destruct (original <=? now)%Z; [|done]. cbn [settled]. split_and!; [done|by exists Timeout|].
  intros r. apply Hpoll.
Qed.

(** ** The invariant of interleaved polls *)

Definition call_ok (s : Z) (c : Call) : Prop :=
  ∃ known, (∀ r, known = Some r → s = reason_code r) ∧
    (∀ r, began_after c = Some r → known = Some r) ∧ settled known (rest c).

Definition polling_ok (c : Polling) : Prop :=
  (shared c = 0%Z ∨ ∃ r, shared c = reason_code r) ∧
  Forall (call_ok (shared c)) (calls c) ∧
  Forall (λ br, (∀ r, br.2 = Some r → shared c = reason_code r) ∧
                (∀ r, br.1 = Some r → br.2 = Some r)) (reports c).

Lemma reason_code_inj r r' : reason_code r = reason_code r' → r = r'.
Proof. by destruct r, r'. Qed.

Lemma reported_elem rs r : reported rs = Some r → ∃ b, (b, Some r) ∈ rs.
Proof.
  unfold reported. intros Hr. apply head_Some_elem_of in Hr.
  apply list_elem_of_omap in Hr as ([b r'] & Hin & Hr). simpl in Hr. subst. by exists b.
Qed.

Lemma Forall_replace {A} (P : A → Prop) l x y k :
  Forall P (l ++ x :: k) → (P x → P y) → Forall P (l ++ y :: k).
Proof. rewrite !Forall_app, !Forall_cons. naive_solver. Qed.

(** A load tells a call what it did not know. *)
Lemma call_load s b k :
  (s = 0%Z ∨ ∃ r, s = reason_code r) →
  call_ok s (mkCall b (LoadState k)) → call_ok s (mkCall b (k s)).
Proof.
  intros Hs (known & H1 & H2 & H3). simpl in *. destruct known as [r|].
  - exists (Some r). rewrite (H1 r eq_refl). split_and!; [by intros ? [= ->]|done|done].
  - destruct H3 as [H0 Hr]. destruct Hs as [->|[r ->]]; [exists None; by split_and!|].
    exists (Some r). split_and!; [by intros ? [= ->]|by intros ? ?%H2|apply Hr].
Qed.

(** An exchange records a reason over zero and nothing over a reason. *)
Lemma exchange_records s n :
  (s = 0%Z ∨ ∃ r, s = reason_code r) → (∃ r, n = reason_code r) →
  (∃ r, compare_exchange s 0 n = reason_code r) ∧
  ∀ r, s = reason_code r → compare_exchange s 0 n = reason_code r.
Proof.
  unfold compare_exchange. intros [->|[r ->]] Hn.
  - split; [done|]. by intros [].
  - destruct r; split; eauto.
Qed.

Lemma call_keeps s s' c :
  (∀ r, s = reason_code r → s' = reason_code r) → call_ok s c → call_ok s' c.
Proof. intros Hs (known & H1 & H2 & H3). exists known. split_and!; auto. Qed.

Lemma call_exchange s b expected new k :
  (s = 0%Z ∨ ∃ r, s = reason_code r) →
  call_ok s (mkCall b (CompareExchange expected new k)) →
  let s' := compare_exchange s expected new in
  (∃ r, s' = reason_code r) ∧ (∀ r, s = reason_code r → s' = reason_code r) ∧
  call_ok s' (mkCall b k).
Proof.
  intros Hs (known & H1 & H2 & (-> & Hn & H3)). simpl in *.
  destruct (exchange_records s new Hs Hn) as [[r' Hr'] Hkeep]. split_and!; [eauto|done|].
  destruct known as [r|]; [exists (Some r); split_and!; eauto; intros ? [= <-]; auto|].
  exists (Some r'). simpl. split_and!; [by intros ? [= <-]|by intros ? ?%H2|done].
Qed.

Lemma step_keeps_ok c c' : Step c c' → polling_ok c → polling_ok c'.
Proof.
  intros [s cs rs p Hp|s cs cs' rs b k|s cs cs' rs b e n k|s cs cs' rs b k a|s cs cs' rs b k r
    |s cs cs' rs b k now|s cs cs' rs b r] (Hs & Hc & Hr); split_and!; simpl in *; try done.
  - apply Forall_app. split; [done|]. constructor; [|done].
    exists (reported rs). split_and!; [|done|by apply poll_settled].
    intros r [b Hb]%reported_elem. rewrite list.Forall_forall in Hr.
    by apply (proj1 (Hr _ Hb)).
  - apply (Forall_replace _ _ _ _ _ Hc). by apply call_load.
  - right. apply (call_exchange s b e n k Hs).
    by apply Forall_app in Hc as [_ [Hc _]%Forall_cons].
  - apply Forall_app in Hc as Hc'. destruct Hc' as [_ [Hcall _]%Forall_cons].
    destruct (call_exchange s b e n k Hs Hcall) as (_ & Hkeep & Hk).
    apply (Forall_replace _ _ (mkCall b (CompareExchange e n k))); [|done].
    eapply Forall_impl; [exact Hc|]. intros c0. by apply call_keeps.
  - apply Forall_app in Hc as [_ [Hcall _]%Forall_cons].
    destruct (call_exchange s b e n k Hs Hcall) as (_ & Hkeep & _).
    eapply Forall_impl; [exact Hr|]. intros [b' r'] [H1 H2]. split; [|done]. eauto.
  - apply (Forall_replace _ _ _ _ _ Hc). intros (known & H1 & H2 & H3).
    simpl in *. exists known. by split_and!; simpl.
  - apply (Forall_replace _ _ _ _ _ Hc). intros (known & H1 & H2 & H3).
    simpl in *. exists known. by split_and!; simpl.
  - apply (Forall_replace _ _ _ _ _ Hc). intros (known & H1 & H2 & H3).
    simpl in *. exists known. by split_and!; simpl.
  - apply Forall_app in Hc as [? [_ ?]%Forall_cons]. by apply Forall_app.
  - apply Forall_app. split; [done|]. constructor; [|done].
    apply Forall_app in Hc as [_ [(known & H1 & H2 & H3) _]%Forall_cons]. simpl in *. subst r.
    split; [done|]. intros r Hb. by apply H2.
Qed.

Lemma reachable_ok c : reachable c → polling_ok c.
Proof.
  apply (rtc_ind_r polling_ok new_scope); [|intros c1 c2 _ H; by apply step_keeps_ok].
  split_and!; [by left|constructor|constructor].
Qed.

(** ** One call alone *)

(** A recorded reason is answered at once: no token, no clock. *)
Lemma run_recorded p env r : is_poll p → state env = reason_code r → run_poll p env = (Some r, env).
Proof. intros [d|d o] Hs; simpl; rewrite Hs; by destruct r. Qed.

Definition reached (deadline : option Deadline) (now : Instant) : bool :=
  match deadline with Some d => (d <=? now)%Z | None => false end.

(** What a fresh scope reports. *)
Definition fresh_report (env : PollEnv) (deadline : option Deadline) : option CancelReason :=
  if is_cancelled (token env) (token_polls env) then Some (reason (token env) (token_polls env))
  else if reached deadline (clock env (clock_reads env)) then Some Timeout
  else None.

Lemma run_fresh k env deadline :
  state env = 0%Z →
  ∃ env', run_poll (poll_then deadline k) env = run_poll (k (fresh_report env deadline)) env' ∧
    state env' = default 0%Z (reason_code <$> fresh_report env deadline) ∧
    token env' = token env ∧ clock env' = clock env ∧ token_polls env' = S (token_polls env) ∧
    clock_reads env' =
      (if is_cancelled (token env) (token_polls env) then clock_reads env
       else clock_reads env + length (option_list deadline)).
Proof.
  intros Hs. unfold fresh_report, poll_then, settle. cbn [run_poll]. rewrite Hs. simpl.
  destruct (is_cancelled _ _) eqn:Hc; simpl.
  - rewrite Nat.sub_0_r. unfold compare_exchange. rewrite Hs. simpl.
    destruct (reason _ _); simpl; eexists; split_and!; done.
  - destruct deadline as [d|]; simpl; [|eexists; split_and!; [done..|simpl; lia]].
    destruct (d <=? clock env (clock_reads env))%Z; simpl.
    + unfold compare_exchange. rewrite Hs. simpl. eexists; split_and!; [done..|simpl; lia].
    + eexists; split_and!; [done..|simpl; lia].
Qed.

(** ** Cleanup *)

Inductive ScopeOp := Register (cleanup : unit + str) | Close.

(** The cleanups registered under the ids issued, and the outcomes returned. *)
Fixpoint run_scope {E} (secrets : SecretStore) (ops : list ScopeOp) (s : ResourceScope)
    : res E (list (ResourceId * (unit + str)) * list (list CleanupOutcome) * ResourceScope) :=
  match ops with
  | [] => Ok ([], [], s)
  | Register cleanup :: ops =>
    let '(id, s) := register s cleanup in
    res_bind (run_scope secrets ops s) (λ '(issued, outcomes, s),
    Ok (match id with Some id => (id, cleanup) :: issued | None => issued end, outcomes, s))
  | Close :: ops =>
    res_bind (close_scope s secrets) (λ '(first, s),
    res_bind (run_scope secrets ops s) (λ '(issued, outcomes, s),
    Ok (issued, first :: outcomes, s)))
  end.

Definition redactable (secrets : SecretStore) (result : unit + str) : Prop :=
  ∀ m, result = inr m → ∃ text, redact_text (E := Empty_set) secrets m = Ok text.

Definition op_redactable (secrets : SecretStore) (op : ScopeOp) : Prop :=
  match op with Register cleanup => redactable secrets cleanup | Close => True end.

Definition outcome_of (secrets : SecretStore) (o : CleanupOutcome) (r : ResourceId * (unit + str))
    : Prop :=
  resource o = r.1 ∧ cleanup_status (E := Empty_set) secrets r.2 = Ok (status o).

Lemma close_loop_spec secrets rs :
  Forall (λ r, redactable secrets r.2) rs →
  ∃ outcomes, close_loop (E := Empty_set) secrets rs = Ok outcomes ∧ Forall2 (outcome_of secrets) outcomes rs.
Proof.
  induction 1 as [|[id result] rs Hr _ IH]; simpl; [by exists []|].
  destruct IH as (outcomes & -> & Hout). simpl in Hr.
  assert (∃ st, cleanup_status (E := Empty_set) secrets result = Ok st) as [st Hst].
  { destruct result as [[]|m]; simpl; [by eexists|].
    destruct (Hr m eq_refl) as [text Htext]. exists (Failed text). by rewrite Htext. }
  rewrite Hst. simpl. exists (mkOutcome id st :: outcomes). split; [done|]. by constructor.
Qed.

Definition is_close (op : ScopeOp) : bool := match op with Close => true | _ => false end.

(** A closed scope takes nothing and has nothing to say. *)
Lemma run_scope_closed secrets ops s :
  closed s = true →
  ∃ outs, run_scope (E := Empty_set) secrets ops s = Ok ([], outs, s) ∧ mjoin outs = [].
Proof.
  intros Hc. induction ops as [|[cleanup|] ops (outs & IH & Hout)]; simpl; [by exists []| |].
  - unfold register. rewrite Hc, IH. by exists outs.
  - unfold close_scope. rewrite Hc. simpl. rewrite IH. by exists ([] :: outs).
Qed.

Definition numbered (owner : ResourceOwnerId) (first : Z) (ids : list ResourceId) : Prop :=
  ids = (λ i, mkResourceId owner (first + Z.of_nat i)) <$> seq 0 (length ids).

Lemma numbered_cons owner first ids :
  numbered owner (first + 1) ids → numbered owner first (mkResourceId owner first :: ids).
Proof.
  unfold numbered. intros H. simpl. f_equal; [f_equal; lia|]. rewrite H at 1.
  rewrite <- seq_shift, <- list_fmap_compose. apply list_fmap_ext.
  intros i x _. simpl. f_equal. lia.
Qed.

Lemma run_scope_open secrets ops s :
  closed s = false → Forall (op_redactable secrets) ops →
  Forall (λ r, redactable secrets r.2) (resources s) →
  ∃ issued outs s', run_scope (E := Empty_set) secrets ops s = Ok (issued, outs, s') ∧
    numbered (owner s) (next_ordinal s) issued.*1 ∧
    ran (drop_scope s') = ran s ++ (reverse issued ++ resources s).*1 ∧
    Forall2 (outcome_of secrets) (mjoin outs)
      (if existsb is_close ops then reverse issued ++ resources s else []) ∧
    (existsb is_close ops = true → closed s' = true).
Proof.
  intros Hc Hops. revert s Hc. induction Hops as [|[cleanup|] ops Hop Hops IH]; intros s Hc Hrs; simpl.
  - exists [], [], s. split_and!; [done..| |constructor|done]. unfold drop_scope. by rewrite Hc.
  - unfold register. rewrite Hc. destruct (next_ordinal s + 1 <? 2 ^ 32)%Z.
    + set (id := mkResourceId _ _).
      destruct (IH (mkScope (owner s) (next_ordinal s + 1) ((id, cleanup) :: resources s)
        false (ran s))) as (issued & outs & s' & Hrun & Hn & Hran & Hout & Hcl);
        [done|by constructor|]. rewrite Hrun. simpl in *.
      exists ((id, cleanup) :: issued), outs, s'.
      rewrite reverse_cons, <- (assoc_L (++)). split_and!; [done|by apply numbered_cons|done..].
    + destruct (IH s Hc Hrs) as (issued & outs & s' & Hrun & H). rewrite Hrun. simpl.
      by exists issued, outs, s'.
  - unfold close_scope. rewrite Hc. destruct (close_loop_spec secrets (resources s) Hrs)
      as (outcomes & -> & Hout). simpl.
    destruct (run_scope_closed secrets ops (drained s) eq_refl) as (outs & -> & Hnil).
    simpl. exists [], (outcomes :: outs), (drained s). split_and!; [done..| |done].
    by rewrite mjoin_cons, Hnil, app_nil_r.
Qed.

(** ** Tokens and deadlines *)

Lemma first_stop_spec stop n :
  match first_stop stop n with
  | Some r => ∃ m, m ≤ n ∧ stop m = Some r ∧ ∀ k, k < m → stop k = None
  | None => ∀ k, k ≤ n → stop k = None
  end.
Proof.
  unfold first_stop.
  set (go := fix go (fuel m : nat) : option CancelReason :=
    match stop m, fuel with Some r, _ => Some r | None, 0 => None | None, S fuel => go fuel (S m) end).
  assert (∀ fuel m, (∀ k, k < m → stop k = None) →
    match go fuel m with
    | Some r => ∃ m', m' ≤ m + fuel ∧ stop m' = Some r ∧ ∀ k, k < m' → stop k = None
    | None => ∀ k, k ≤ m + fuel → stop k = None
    end) as H; [|exact (H n 0 ltac:(lia))].
  induction fuel as [|fuel IH]; intros m Hm; simpl; (destruct (stop m) as [r|] eqn:E; [by exists m; split_and!; [lia|..]|]).
  - intros k Hk. destruct (decide (k = m)) as [->|]; [done|]. apply Hm. lia.
  - assert (∀ k, k < S m → stop k = None) as Hm'.
    { intros k Hk. destruct (decide (k = m)) as [->|]; [done|]. apply Hm. lia. }
    specialize (IH (S m) Hm'). rewrite <- Nat.add_succ_comm in *. done.
Qed.

(** A token that latches keeps the first reason, whatever its signals say
    afterwards. *)
Lemma latched_sticky stop n m :
  is_cancelled (latched stop) n = true → n ≤ m →
  is_cancelled (latched stop) m = true ∧ reason (latched stop) m = reason (latched stop) n.
Proof.
  simpl. rewrite !bool_decide_eq_true. intros [r Hr] Hnm.
  pose proof (first_stop_spec stop n) as Hn. rewrite Hr in Hn. destruct Hn as (i & Hi & Hs & Hbefore).
  pose proof (first_stop_spec stop m) as Hm. destruct (first_stop stop m) as [r'|] eqn:E.
  - split; [by eexists|]. rewrite Hr. simpl. destruct Hm as (j & Hj & Hs' & Hbefore').
    destruct (Nat.lt_trichotomy i j) as [Hij|[->|Hij]]; [|congruence|].
    + rewrite (Hbefore' i Hij) in Hs. done.
    + rewrite (Hbefore j Hij) in Hs'. done.
  - rewrite (Hm i) in Hs; [done|lia].
Qed.

(** Narrowing gives the least deadline, and no operation interval passes it. *)
Lemma deadlines_only_narrow (deadlines : list Deadline) (d : Deadline) (now timeout : Z) :
  (0 ≤ now ≤ U64_MAX)%Z → (0 ≤ timeout)%Z →
  match foldl narrow_deadline (Some d) deadlines with
  | Some least =>
      least ∈ d :: deadlines ∧ Forall (λ x, (least ≤ x)%Z) (d :: deadlines) ∧
      (operation_deadline (Some least) now timeout ≤ least)%Z ∧
      (operation_deadline (Some least) now timeout ≤ now + timeout)%Z ∧
      (remaining_until now (operation_deadline (Some least) now timeout) ≤ timeout)%Z
  | None => False
  end.
Proof.
  intros Hnow Ht. assert (∀ least, (operation_deadline (Some least) now timeout ≤ least)%Z ∧
    (operation_deadline (Some least) now timeout ≤ now + timeout)%Z ∧
    (remaining_until now (operation_deadline (Some least) now timeout) ≤ timeout)%Z) as Hop.
  { intros least. unfold operation_deadline, narrowed_to, saturating_add, remaining_until,
      saturating_sub, U64_MAX in *.
    destruct (timeout <=? _)%Z eqn:E; bool_to_prop;
      match goal with |- context [if ?c then _ else _] => destruct c eqn:? end; bool_to_prop; lia. }
  revert d. induction deadlines as [|d' ds IH]; intros d; cbn [foldl].
  { destruct (Hop d) as (? & ? & ?). split_and!; [left|repeat constructor; lia|done..]. }
  change (narrow_deadline (Some d) d') with (Some (narrowed_to d d')).
  specialize (IH (narrowed_to d d')).
  destruct (foldl narrow_deadline (Some (narrowed_to d d')) ds) as [least|]; [|done].
  destruct IH as (Hin & Hle & _). apply Forall_cons in Hle as [Hle Hds].
  destruct (Hop least) as (? & ? & ?). unfold narrowed_to in Hin, Hle. split_and!; [| |done..].
  - apply elem_of_cons in Hin as [->|Hin]; [destruct (d <=? d')%Z; [left|right; left]|].
    by do 2 right.
  - destruct (d <=? d')%Z eqn:E; bool_to_prop; repeat (constructor; [lia|]); done.
Qed.

(** ** Theorems *)

(** C7: a cancellation scope polled by any number of threads, in any interleaving
    of the atomic steps of their calls and with token and clock answering
    anything, reports one reason only: any two calls that report a cancellation
    report the same one, and a call that began after a report reports that
    reason again, never that nothing happened. *)
Theorem polls_agree (c : Polling) :
  reachable c →
  (∀ b r b' r', (b, Some r) ∈ reports c → (b', Some r') ∈ reports c → r = r') ∧
  (∀ r result, (Some r, result) ∈ reports c → result = Some r) ∧
  (∀ r, reported (reports c) = Some r → shared c = reason_code r).
Proof.
  intros (_ & _ & Hr)%reachable_ok. rewrite list.Forall_forall in Hr. split_and!.
  - intros b r b' r' H1 H2. apply reason_code_inj.
    by rewrite <- (proj1 (Hr _ H1) r eq_refl), <- (proj1 (Hr _ H2) r' eq_refl).
  - intros r result H. by apply (proj2 (Hr _ H)).
  - intros r [b H]%reported_elem. by apply (proj1 (Hr _ H)).
Qed.

(** What polls report when no other thread interferes: on a fresh scope the
    caller's cancellation comes first, then the scope's deadline, then the
    operation's own; the report is recorded, and every later poll, of any kind
    and deadline, repeats it without asking the token or reading the clock. *)
Theorem poll_alone (env : PollEnv) (deadline : option Deadline) (original : Deadline) :
  state env = 0%Z →
  (let '(r, env') := run_poll (scope_poll deadline) env in
   r = fresh_report env deadline ∧ state env' = default 0%Z (reason_code <$> r) ∧
   ∀ reason p, r = Some reason → is_poll p → run_poll p env' = (Some reason, env')) ∧
  (let '(r, env') := run_poll (poll_until deadline original) env in
   r = match fresh_report env deadline with
       | Some reason => Some reason
       | None =>
         if (original <=? clock env (clock_reads env + length (option_list deadline)))%Z
         then Some Timeout else None
       end ∧ state env' = default 0%Z (reason_code <$> r) ∧
   ∀ reason p, r = Some reason → is_poll p → run_poll p env' = (Some reason, env')).
Proof.
  intros Hs.
  assert (∀ r env', state env' = default 0%Z (reason_code <$> r) →
    ∀ reason p, r = Some reason → is_poll p → run_poll p env' = (Some reason, env')) as Hagain.
  { intros r env' Hs' reason p -> Hp. by apply run_recorded. }
  split.
  - destruct (run_fresh Return env deadline Hs) as (env' & Hrun & Hs' & _).
    unfold scope_poll. rewrite Hrun. simpl. split_and!; [done|done|by apply Hagain].
  - unfold poll_until. match goal with |- context [poll_then deadline ?k] =>
      destruct (run_fresh k env deadline Hs) as (env' & -> & Hs' & Htok & Hclk & _ & Hreads) end.
    unfold fresh_report in *.
    destruct (is_cancelled _ _); [|destruct (reached _ _)]; simpl in Hs'; cbn [run_poll].
    1,2: split_and!; [done|done|by apply Hagain].
    rewrite Hclk, Hreads. destruct (original <=? _)%Z; cbn [run_poll].
    2: split_and!; [done|done|by apply Hagain].
    set (env2 := mkEnv _ _ _ _ _).
    assert (state env2 = reason_code Timeout) as H2 by (by simpl; rewrite Hs').
    rewrite (run_recorded (scope_poll deadline) env2 Timeout); [|constructor|done].
    split_and!; [done|done|by apply Hagain].
Qed.

(** C8: resources are cleaned exactly once, last registered first: for any
    sequence of registrations and closes and the final drop, the identities
    issued count up from zero, the cleanups called are the issued ones in
    reverse, each once; the first close reports each of them in that order
    with its own status, failures redacted, going on after failures; later
    closes report nothing, and registration after a close is refused. *)
Theorem cleanups_run_once (json_to_vec : str → str) (h : list Secret)
    (secrets : SecretStore) (owner : ResourceOwnerId) (ops : list ScopeOp) :
  json_string_literal json_to_vec → injected json_to_vec h secrets →
  (∀ m, Register (inr m) ∈ ops → utf8 m) →
  ∃ issued outcomes s,
    run_scope (E := Empty_set) secrets ops (ResourceScope_new owner) = Ok (issued, outcomes, s) ∧
    numbered owner 0 issued.*1 ∧ NoDup issued.*1 ∧
    ran (drop_scope s) = reverse issued.*1 ∧
    Forall2 (outcome_of secrets) (mjoin outcomes) (if existsb is_close ops then reverse issued else []) ∧
    (existsb is_close ops = true → closed s = true).
Proof.
  intros Hjson Hinj Hm.
  assert (Forall (op_redactable secrets) ops) as Hops.
  { apply list.Forall_forall. intros [cleanup|] Hop; [|done].
    intros m ->. destruct (redact_text_total json_to_vec Hjson h secrets m Hinj (Hm m Hop))
      as (out & Hout & _). by exists out. }
  destruct (run_scope_open secrets ops (ResourceScope_new owner) eq_refl Hops (Forall_nil_2 _))
    as (issued & outs & s & Hrun & Hn & Hran & Hout & Hcl). simpl in *. rewrite app_nil_r in *.
  exists issued, outs, s. split_and!; [done..| |by rewrite Hran, fmap_reverse|done|done].
  rewrite Hn. apply NoDup_fmap_2; [|apply NoDup_seq]. intros i j [=]. lia.
Qed.

(** ** Witnesses *)

Definition sample_env : PollEnv :=
  mkEnv 0 (mkToken (λ n, bool_decide (1 ≤ n)) (λ _, Requested)) 0 (λ n, Z.of_nat n) 0.

Lemma poll_alone_witness :
  state sample_env = 0%Z ∧ (run_poll (poll_until (Some 9%Z) 1%Z) sample_env).1 = Some Timeout.
Proof.
  split; [done|].
  pose proof (poll_alone sample_env (Some 9%Z) 1%Z eq_refl) as [_ H].
  destruct (run_poll (poll_until (Some 9%Z) 1%Z) sample_env) as [r env'].
  destruct H as (-> & _). vm_compute. reflexivity.
Defined.

(** Two calls: the first sees the caller's cancellation, the second begins after
    its report. *)
Lemma two_polls : ∃ c, reachable c ∧
  reports c = [(None, Some Requested); (Some Requested, Some Requested)].
Proof.
  eexists. split; [|shelve]. unfold reachable, new_scope.
  eapply rtc_l; [apply (StepBegin _ [] [] (scope_poll None)); constructor|].
  eapply rtc_l; [apply (StepLoad _ [] [])|].
  eapply rtc_l; [apply (StepToken _ [] [] _ _ _ true)|].
  eapply rtc_l; [apply (StepReason _ [] [] _ _ _ Requested)|].
  eapply rtc_l; [apply (StepExchange _ [] [])|].
  eapply rtc_l; [apply (StepLoad _ [] [])|].
  eapply rtc_l; [apply (StepReturn _ [] [])|].
  eapply rtc_l; [apply (StepBegin _ [] _ (poll_until None 5%Z)); constructor|].
  eapply rtc_l; [apply (StepLoad _ [] [])|].
  eapply rtc_l; [apply (StepReturn _ [] [])|].
  apply rtc_refl.
  Unshelve. reflexivity.
Qed.

Lemma polls_agree_witness :
  ∃ c, reported (reports c) = Some Requested ∧ shared c = 1%Z.
Proof.
  destruct two_polls as (c & Hc & Hr). exists c.
  assert (reported (reports c) = Some Requested) as H by (by rewrite Hr).
  split; [exact H|]. exact (proj2 (proj2 (polls_agree c Hc)) Requested H).
Defined.

Lemma cleanups_run_once_witness :
  ∃ issued outcomes s,
    run_scope (E := Empty_set) sample_store
      [Register (inl tt); Register (inr (bs "key hunter2")); Close; Register (inl tt)]
      (ResourceScope_new 7%Z) = Ok (issued, outcomes, s) ∧
    ran (drop_scope s) = [mkResourceId 7%Z 1%Z; mkResourceId 7%Z 0%Z].
Proof.
  destruct (cleanups_run_once quote_json [sample_secret] sample_store 7%Z
    [Register (inl tt); Register (inr (bs "key hunter2")); Close; Register (inl tt)]
    quote_json_literal sample_injected) as (issued & outcomes & s & Hrun & _ & _ & Hran & _).
  - intros m Hm. rewrite !elem_of_cons in Hm.
    assert (m = bs "key hunter2") as ->.
    { destruct Hm as [?|[?|[?|[?|?%elem_of_nil]]]]; simplify_eq; done. }
    apply utf8b_spec. by vm_compute.
  - exists issued, outcomes, s. split; [exact Hrun|]. vm_compute in Hrun. by simplify_eq.
Defined.
