(* ===== verification/Convert.v ===== *)
(** * Codecs between bytes and values ([opaal-runtime/src/convert.rs])

    A decoder pulls byte chunks until its source ends; the source is the list
    of chunks still to come. *)
From S2P Require Import Prelude Utf8 Path Status Value Stream.

Local Open Scope res_scope.

Inductive Codec := CodecUtf8 (lossy : bool) | CodecBytes.

(** U+FFFD. *)
Definition REPLACEMENT : Z := 0xFFFD%Z.
Definition replacement : str := encode_char REPLACEMENT.

(** [String::from_utf8_lossy]: every maximal invalid piece, and an unfinished
    end, becomes one replacement character. *)
Fixpoint from_utf8_lossy_fuel (fuel : nat) (s : str) : str :=
  match fuel with
  | 0 => []
  | S fuel =>
    match decode_char s with
    | DEnd => []
    | DChar _ w => take w s ++ from_utf8_lossy_fuel fuel (drop w s)
    | DInvalid n => replacement ++ from_utf8_lossy_fuel fuel (drop n s)
    | DIncomplete => replacement
    end
  end.
Definition from_utf8_lossy (s : str) : str := from_utf8_lossy_fuel (length s) s.

Section Codecs.
Context {RuntimeError : Type}.

Notation Value := (Value RuntimeError).

Inductive DecodeStep :=
| DecodedValue (v : Value)
| DecodeEnd
| Malformed (offset : nat).

Record Decoder := mkDecoder {
  codec : Codec;
  chunks : list str;
  carry : str;
  offset : nat;
  done_ : bool
}.

Definition decode (c : Codec) (chunks : list str) : Decoder := mkDecoder c chunks [] 0 false.

Definition finish (d : Decoder) : Decoder :=
  mkDecoder (codec d) (chunks d) (carry d) (offset d) true.

(** One [Bytes] value per non-empty chunk. *)
Fixpoint bytes_loop (c : Codec) (cs : list str) (carry : str) (offset : nat)
    : DecodeStep * Decoder :=
  match cs with
  | [] => (DecodeEnd, mkDecoder c [] carry offset true)
  | [] :: cs => bytes_loop c cs carry offset
  | chunk :: cs =>
      (DecodedValue (VBytes chunk), mkDecoder c cs carry (offset + length chunk) false)
  end.

Definition next_bytes (d : Decoder) : DecodeStep * Decoder :=
  bytes_loop (codec d) (chunks d) (carry d) (offset d).

(** [str::from_utf8(..).expect(..)] on the prefix. *)
Definition emit_valid_prefix (d : Decoder) (valid : nat) : res Empty_set (DecodeStep * Decoder) :=
  match from_utf8 (take valid (carry d)) with
  | Utf8Error _ _ => Panic
  | Utf8Ok _ =>
    Ok (DecodedValue (VString (take valid (carry d))),
        mkDecoder (codec d) (chunks d) (drop valid (carry d)) (offset d + valid) (done_ d))
  end.

Definition emit_carry (d : Decoder) : DecodeStep * Decoder :=
  (DecodedValue (VString (carry d)),
   mkDecoder (codec d) (chunks d) [] (offset d + length (carry d)) (done_ d)).

Definition flush_utf8_strict_at_eof (d : Decoder) : res Empty_set (DecodeStep * Decoder) :=
  match carry d with
  | [] => Ok (DecodeEnd, finish d)
  | _ =>
    match from_utf8 (carry d) with
    | Utf8Ok _ => Ok (emit_carry d)
    | Utf8Error valid _ =>
      if 0 <? valid then emit_valid_prefix d valid
      else Ok (Malformed (offset d), finish d)
    end
  end.

(** What the carried bytes settle on their own: [None] means pull more. *)
Definition strict_step (d : Decoder) : option (res Empty_set (DecodeStep * Decoder)) :=
  match from_utf8 (carry d) with
  | Utf8Ok [] => None
  | Utf8Ok _ => Some (Ok (emit_carry d))
  | Utf8Error valid error_len =>
    if 0 <? valid then Some (emit_valid_prefix d valid)
    else match error_len with
         | Some _ => Some (Ok (Malformed (offset d), finish d))
         | None => None
         end
  end.

Fixpoint strict_loop (c : Codec) (cs : list str) (carry : str) (offset : nat)
    : res Empty_set (DecodeStep * Decoder) :=
  let d := mkDecoder c cs carry offset false in
  match strict_step d with
  | Some r => r
  | None =>
    match cs with
    | [] => flush_utf8_strict_at_eof d
    | chunk :: cs => strict_loop c cs (carry ++ chunk) offset
    end
  end.

Definition next_utf8_strict (d : Decoder) : res Empty_set (DecodeStep * Decoder) :=
  strict_loop (codec d) (chunks d) (carry d) (offset d).

(** The text and the number of bytes consumed; [rest] is [bytes[index..]].
    The fuel is the length of [rest] and one more. *)
Fixpoint lossy_hold_loop (fuel : nat) (rest text : str) (index : nat) : res Empty_set (str * nat) :=
  match fuel with
  | 0 => Ok (text, index)
  | S fuel =>
    match from_utf8 rest with
    | Utf8Ok _ => Ok (text ++ rest, index + length rest)
    | Utf8Error valid error_len =>
      match from_utf8 (take valid rest) with
      | Utf8Error _ _ => Panic
      | Utf8Ok _ =>
        let text := text ++ take valid rest in
        match error_len with
        | Some n =>
            lossy_hold_loop fuel (drop (valid + n) rest) (text ++ replacement) (index + valid + n)
        | None => Ok (text, index + valid)
        end
      end
    end
  end.
Definition decode_utf8_lossy_holding_incomplete (bytes : str) : res Empty_set (str * nat) :=
  lossy_hold_loop (S (length bytes)) bytes [] 0.

Fixpoint lossy_loop (c : Codec) (cs : list str) (carry : str) (offset : nat)
    : res Empty_set (DecodeStep * Decoder) :=
  match cs with
  | [] =>
    match carry with
    | [] => Ok (DecodeEnd, mkDecoder c [] [] offset true)
    | _ => Ok (DecodedValue (VString (from_utf8_lossy carry)),
               mkDecoder c [] [] (offset + length carry) false)
    end
  | [] :: cs => lossy_loop c cs carry offset
  | chunk :: cs =>
    let carry := carry ++ chunk in
    let* ' (text, consumed) := decode_utf8_lossy_holding_incomplete carry in
    let offset := offset + consumed in
    let carry := drop consumed carry in
    match text with
    | [] => lossy_loop c cs carry offset
    | _ => Ok (DecodedValue (VString text), mkDecoder c cs carry offset false)
    end
  end.

Definition next_utf8_lossy (d : Decoder) : res Empty_set (DecodeStep * Decoder) :=
  lossy_loop (codec d) (chunks d) (carry d) (offset d).

Definition decoder_pull (d : Decoder) : res Empty_set (DecodeStep * Decoder) :=
  if done_ d then Ok (DecodeEnd, d)
  else
    match codec d with
    | CodecBytes => Ok (next_bytes d)
    | CodecUtf8 false => next_utf8_strict d
    | CodecUtf8 true => next_utf8_lossy d
    end.

(** ** Encoding *)

Inductive EncodeStep :=
| Chunk (b : str)
| EncodeEnd
| NotEncodable (actual : str)
| EncodeFailed (e : RuntimeError)
| EncodeCancelled (r : CancelReason).

Record Encoder := mkEncoder {
  encoder_codec : Codec;
  input : ValueStream RuntimeError;
  encoder_done : bool
}.

Definition encode_with (c : Codec) (input : ValueStream RuntimeError) : Encoder :=
  mkEncoder c input false.

(** The bytes, or the family the codec cannot encode. *)
Definition encode_value (c : Codec) (v : Value) : str + str :=
  match c, v with
  | CodecUtf8 _, VString text => inl text
  | CodecBytes, VBytes bytes => inl bytes
  | _, other => inr (family_name other)
  end.

Definition encoder_pull (e : Encoder) : EncodeStep * Encoder :=
  if encoder_done e then (EncodeEnd, e)
  else
    let '(pulled, input) := pull (input e) in
    let live := mkEncoder (encoder_codec e) input false in
    let done := mkEncoder (encoder_codec e) input true in
    match pulled with
    | PItem v =>
      match encode_value (encoder_codec e) v with
      | inl bytes => (Chunk bytes, live)
      | inr actual => (NotEncodable actual, done)
      end
    | PEnd => (EncodeEnd, done)
    | PFailed err => (EncodeFailed err, done)
    | PCancelled r => (EncodeCancelled r, done)
    end.

End Codecs.

Arguments DecodeStep : clear implicits.
Arguments Decoder : clear implicits.
Arguments EncodeStep : clear implicits.
Arguments Encoder : clear implicits.
