(* ===== verification/ConvertFacts.v ===== *)
(** * Properties of the codecs *)
From S2P Require Import Prelude Utf8 Path Status Value Stream StreamFacts Convert.

Local Open Scope res_scope.

(** ** UTF-8 decisions do not depend on what follows *)

Lemma decode_char_app_char s c w x : decode_char s = DChar c w → decode_char (s ++ x) = DChar c w.
Proof.
  intros H%decode_char_shape. apply shape_decode_char. destruct H; subst; by econstructor.
Qed.

Lemma decode_char_app_invalid s n x : decode_char s = DInvalid n → decode_char (s ++ x) = DInvalid n.
Proof.
  unfold decode_char. destruct s as [|b0 [|b1 [|b2 [|b3 s]]]]; [done|..]; cbn [app];
    destruct (lead_width b0) as [|[|[|[|[|]]]]]; try done;
    destruct (second_ok b0 _); try done; by repeat case_match.
Qed.

Lemma decode_char_width s c w : decode_char s = DChar c w → 1 ≤ w ≤ length s.
Proof. intros H%decode_char_shape%shape_width. lia. Qed.

Lemma from_utf8_app s x :
  utf8 s →
  from_utf8 (s ++ x) =
    match from_utf8 x with
    | Utf8Ok cs => Utf8Ok (chars s ++ cs)
    | Utf8Error v e => Utf8Error (length s + v) e
    end.
Proof.
  induction 1 as [|s c w Hd Hu IH]; [cbn [app]; by destruct (from_utf8 x)|].
  pose proof (decode_char_width _ _ _ Hd).
  rewrite (from_utf8_step (s ++ x) c w) by (by apply decode_char_app_char).
  rewrite drop_app_le, IH by lia.
  rewrite (chars_step s c w Hd (utf8_char s c w Hd Hu)).
  destruct (from_utf8 x); [done|]. f_equal. rewrite length_drop. lia.
Qed.

Lemma from_utf8_invalid s n x :
  from_utf8 s = Utf8Error 0 (Some n) → from_utf8 (s ++ x) = Utf8Error 0 (Some n).
Proof.
  intros (_ & _ & Hd)%from_utf8_error. rewrite drop_0 in Hd.
  pose proof (from_utf8_stop (s ++ x)) as H.
  by rewrite (decode_char_app_invalid _ _ x Hd) in H.
Qed.

(** ** Lossy text *)

Lemma from_utf8_lossy_enough fuel s :
  length s ≤ fuel → from_utf8_lossy_fuel fuel s = from_utf8_lossy s.
Proof.
  unfold from_utf8_lossy.
  assert (∀ m s n fuel, length s ≤ m → length s ≤ n → length s ≤ fuel →
    from_utf8_lossy_fuel fuel s = from_utf8_lossy_fuel n s) as H; [|intros; by eapply H].
  clear. induction m as [|m IH]; intros s n fuel Hm Hn Hf.
  { destruct s; [|simpl in *; lia]. by destruct n, fuel. }
  destruct s as [|b s]; [by destruct n, fuel|].
  destruct n as [|n], fuel as [|fuel]; [simpl in *; lia..|]. cbn [from_utf8_lossy_fuel].
  destruct (decode_char (b :: s)) as [c w| |k|] eqn:Hd; try done; f_equal.
  - pose proof (decode_char_width _ _ _ Hd). apply IH; rewrite length_drop; simpl in *; lia.
  - pose proof (decode_invalid_len _ _ Hd). apply IH; rewrite length_drop; simpl in *; lia.
Qed.

Lemma from_utf8_lossy_step s :
  from_utf8_lossy s =
    match decode_char s with
    | DEnd => []
    | DChar _ w => take w s ++ from_utf8_lossy (drop w s)
    | DInvalid n => replacement ++ from_utf8_lossy (drop n s)
    | DIncomplete => replacement
    end.
Proof.
  unfold from_utf8_lossy at 1. destruct s as [|b s]; [done|].
  cbn [length from_utf8_lossy_fuel].
  destruct (decode_char (b :: s)) as [c w| |k|] eqn:Hd; try done; f_equal;
    apply from_utf8_lossy_enough.
  - pose proof (decode_char_width _ _ _ Hd). rewrite length_drop. simpl in *. lia.
  - pose proof (decode_invalid_len _ _ Hd). rewrite length_drop. simpl in *. lia.
Qed.

Lemma from_utf8_lossy_app s x : utf8 s → from_utf8_lossy (s ++ x) = s ++ from_utf8_lossy x.
Proof.
  induction 1 as [|s c w Hd Hu IH]; [done|]. pose proof (decode_char_width _ _ _ Hd).
  rewrite from_utf8_lossy_step, (decode_char_app_char _ _ _ x Hd).
  rewrite take_app_le, drop_app_le, IH, app_assoc, take_drop by lia. done.
Qed.

Lemma from_utf8_lossy_invalid s n x :
  decode_char s = DInvalid n →
  from_utf8_lossy (s ++ x) = replacement ++ from_utf8_lossy (drop n s ++ x).
Proof.
  intros Hd. pose proof (decode_invalid_len _ _ Hd).
  rewrite from_utf8_lossy_step, (decode_char_app_invalid _ _ x Hd), drop_app_le by lia. done.
Qed.

Lemma replacement_utf8 : utf8 replacement.
Proof. apply utf8b_spec. by vm_compute. Qed.

Lemma from_utf8_lossy_utf8 s : utf8 (from_utf8_lossy s).
Proof.
  induction s as [s IH] using (well_founded_induction (Wf_nat.well_founded_ltof _ (@length Z))).
  unfold Wf_nat.ltof in IH. rewrite from_utf8_lossy_step.
  destruct (decode_char s) as [c w| |n|] eqn:Hd.
  - pose proof (decode_char_width _ _ _ Hd). apply utf8_app; [|apply IH; rewrite length_drop; lia].
    apply decode_char_shape in Hd. rewrite <- (shape_encode _ _ _ Hd).
    destruct (shape_scalar _ _ _ Hd) as [Hsc _].
    rewrite <- (app_nil_r (encode_char c)). apply (utf8_encode [c]). by constructor.
  - constructor.
  - pose proof (decode_invalid_len _ _ Hd).
    apply utf8_app; [apply replacement_utf8|apply IH; rewrite length_drop; lia].
  - apply replacement_utf8.
Qed.

Lemma from_utf8_lossy_nil s : from_utf8_lossy s = [] → s = [].
Proof.
  rewrite from_utf8_lossy_step. destruct (decode_char s) as [c w| |n|] eqn:Hd; try done.
  - pose proof (decode_char_width _ _ _ Hd). intros [Ht _]%app_eq_nil.
    apply (f_equal length) in Ht. rewrite length_take in Ht. simpl in Ht. lia.
  - by apply decode_char_nil_inv in Hd.
Qed.

(** The loop that stops at an unfinished end, against any continuation [x]. *)
Lemma lossy_hold_loop_spec fuel rest text index :
  length rest < fuel →
  ∃ out n, lossy_hold_loop fuel rest text index = Ok (text ++ out, index + n) ∧
    n ≤ length rest ∧ utf8 out ∧ (n = 0 → out = []) ∧
    ∀ x, from_utf8_lossy (rest ++ x) = out ++ from_utf8_lossy (drop n rest ++ x).
Proof.
  revert rest text index. induction fuel as [|fuel IH]; intros rest text index Hf; [lia|].
  cbn [lossy_hold_loop]. destruct (from_utf8 rest) as [cs|v e] eqn:Hr.
  - apply from_utf8_ok in Hr as (Hu & _). exists rest, (length rest).
    rewrite drop_all. split_and!; [done|done|done|by intros ->%nil_length_inv|].
    intros x. by apply from_utf8_lossy_app.
  - pose proof (from_utf8_error _ _ _ Hr) as (Hv & Hu & Hd).
    destruct (from_utf8_utf8 _ Hu) as [cs ->]. destruct e as [n|].
    + pose proof (decode_invalid_len _ _ Hd) as [Hn Hl]. rewrite length_drop in Hl.
      destruct (IH (drop (v + n) rest) ((text ++ take v rest) ++ replacement) (index + v + n))
        as (out & k & Hrun & Hk & Hout & H0 & Hx); [rewrite length_drop; lia|].
      rewrite length_drop in Hk. exists (take v rest ++ replacement ++ out), (v + n + k).
      rewrite Hrun. split_and!.
      * by rewrite !app_assoc, !Nat.add_assoc.
      * lia.
      * auto using utf8_app, replacement_utf8.
      * lia.
      * intros x. rewrite <- drop_drop, <- !app_assoc, <- Hx, <- drop_drop.
        rewrite <- (from_utf8_lossy_invalid _ _ x Hd), <- from_utf8_lossy_app by done.
        by rewrite app_assoc, take_drop.
    + exists (take v rest), v. split_and!; [done|lia|done|by intros ->|].
      intros x. rewrite <- from_utf8_lossy_app by done. by rewrite app_assoc, take_drop.
Qed.

Section Facts.
Context {RuntimeError : Type}.

Notation Value := (Value RuntimeError).
Notation DecodeStep := (DecodeStep RuntimeError).
Implicit Types d : Decoder.

(** The bytes not yet turned into values. *)
Definition rest_of d : str := carry d ++ mjoin (chunks d).

(** Pull until something other than a value comes. *)
Fixpoint decode_run (fuel : nat) d : res Empty_set (list Value * option DecodeStep * Decoder) :=
  match fuel with
  | 0 => Ok ([], None, d)
  | S fuel =>
    let* ' (step, d) := decoder_pull d in
    match step with
    | DecodedValue v =>
      let* ' (vs, t, d) := decode_run fuel d in
      Ok (v :: vs, t, d)
    | t => Ok ([], Some t, d)
    end
  end.

(** ** Strict decoding *)

Definition strict_result d (step : DecodeStep) d' : Prop :=
  match step with
  | DecodedValue v =>
      ∃ t, v = VString t ∧ t ≠ [] ∧ utf8 t ∧ rest_of d = t ++ rest_of d' ∧
        offset d' = offset d + length t ∧ done_ d' = false ∧ codec d' = codec d
  | DecodeEnd => rest_of d = [] ∧ done_ d' = true
  | Malformed o => o = offset d ∧ done_ d' = true ∧ ∃ e, from_utf8 (rest_of d) = Utf8Error 0 e
  end.

Lemma emit_valid_prefix_spec d valid e :
  done_ d = false → from_utf8 (carry d) = Utf8Error valid e → 0 < valid →
  ∃ step d', emit_valid_prefix d valid = Ok (step, d') ∧ strict_result d step d'.
Proof.
  intros Hd Hc Hv. destruct (from_utf8_error _ _ _ Hc) as (Hl & Hu & _).
  unfold emit_valid_prefix. destruct (from_utf8_utf8 _ Hu) as [cs ->].
  eexists _, _. split; [done|]. exists (take valid (carry d)). unfold rest_of. simpl.
  assert (length (take valid (carry d)) = valid) as Hlen by (rewrite length_take; lia).
  split_and!; [done| |done| |by rewrite Hlen|done|done].
  - intros Hn. rewrite Hn in Hlen. simpl in Hlen. lia.
  - by rewrite app_assoc, take_drop.
Qed.

Lemma emit_carry_spec d :
  done_ d = false → carry d ≠ [] → utf8 (carry d) →
  strict_result d (emit_carry (RuntimeError:=RuntimeError) d).1
    (emit_carry (RuntimeError:=RuntimeError) d).2.
Proof. intros Hd Hn Hu. by exists (carry d). Qed.

Lemma strict_step_spec d r :
  done_ d = false → strict_step (RuntimeError:=RuntimeError) d = Some r →
  ∃ step d', r = Ok (step, d') ∧ strict_result d step d'.
Proof.
  intros Hd. unfold strict_step. destruct (from_utf8 (carry d)) as [cs|v e] eqn:Hc.
  - destruct (from_utf8_ok _ _ Hc) as (Hu & _ & He).
    destruct cs as [|c cs]; [done|]. intros [= <-]. eexists _, _. split; [done|].
    apply emit_carry_spec; [done| |done]. intros Hn. by rewrite Hn in Hc.
  - destruct (Nat.ltb_spec 0 v) as [Hv|Hv].
    + intros [= <-]. by eapply emit_valid_prefix_spec.
    + destruct e as [n|]; [|done]. intros [= <-]. eexists _, _. split; [done|].
      assert (v = 0) as -> by lia. split_and!; [done|done|]. exists (Some n).
      by apply from_utf8_invalid.
Qed.

Lemma flush_spec d :
  done_ d = false → chunks d = [] →
  ∃ step d', flush_utf8_strict_at_eof (RuntimeError:=RuntimeError) d = Ok (step, d') ∧
    strict_result d step d'.
Proof.
  intros Hd Hcs. unfold flush_utf8_strict_at_eof. destruct (carry d) as [|b s] eqn:Hc.
  { eexists _, _. split; [done|]. unfold strict_result, rest_of. by rewrite Hc, Hcs. }
  rewrite <- Hc. destruct (from_utf8 (carry d)) as [cs|v e] eqn:Hf.
  - destruct (from_utf8_ok _ _ Hf) as (Hu & _). eexists _, _. split; [done|].
    apply emit_carry_spec; [done|congruence|done].
  - destruct (Nat.ltb_spec 0 v) as [Hv|Hv]; [by eapply emit_valid_prefix_spec|].
    assert (v = 0) as -> by lia. eexists _, _. split; [done|]. split_and!; [done|done|].
    exists e. unfold rest_of. by rewrite Hcs, app_nil_r.
Qed.

Lemma strict_loop_spec c cs : ∀ carry offset,
  let d := mkDecoder c cs carry offset false in
  ∃ step d', strict_loop (RuntimeError:=RuntimeError) c cs carry offset = Ok (step, d') ∧
    strict_result d step d'.
Proof.
  induction cs as [|chunk cs IH]; intros carry offset; cbn [strict_loop];
    destruct (strict_step _) as [r|] eqn:Hs; try (by apply strict_step_spec in Hs).
  - by apply flush_spec.
  - destruct (IH (carry ++ chunk) offset) as (step & d' & Hr & Hres). exists step, d'.
    split; [done|]. unfold strict_result, rest_of in *. simpl in *.
    destruct step; by rewrite <- app_assoc in Hres.
Qed.

Definition strict_outcome d (o : nat) : DecodeStep :=
  match from_utf8 (rest_of d) with
  | Utf8Ok _ => DecodeEnd
  | Utf8Error v _ => Malformed (o + v)
  end.

Definition strict_text d : str :=
  match from_utf8 (rest_of d) with
  | Utf8Ok _ => rest_of d
  | Utf8Error v _ => take v (rest_of d)
  end.

Lemma strict_run fuel d :
  codec d = CodecUtf8 false → done_ d = false → length (rest_of d) < fuel →
  ∃ texts d', decode_run fuel d = Ok (VString <$> texts, Some (strict_outcome d (offset d)), d') ∧
    Forall (λ t, t ≠ [] ∧ utf8 t) texts ∧ mjoin texts = strict_text d ∧ done_ d' = true.
Proof.
  revert d. induction fuel as [|fuel IH]; intros d Hc Hd Hl; [lia|].
  cbn [decode_run]. unfold decoder_pull. rewrite Hd, Hc. unfold next_utf8_strict.
  destruct (strict_loop_spec (codec d) (chunks d) (carry d) (offset d)) as (step & d' & -> & Hres).
  rewrite <- Hd in Hres.
  assert (mkDecoder (codec d) (chunks d) (carry d) (offset d) (done_ d) = d) as Heta by by destruct d.
  rewrite Heta in Hres. clear Heta. cbn [res_bind]. destruct step as [v| |o].
  - destruct Hres as (t & -> & Hn & Hu & Hrest & Ho & Hd' & Hc').
    assert (length (rest_of d') < fuel) as Hl'.
    { rewrite Hrest, length_app in Hl. destruct t; [done|]. simpl in Hl. lia. }
    destruct (IH d') as (texts & d'' & -> & Hf & Hj & Hdone); [congruence|done|done|].
    cbn [res_bind]. exists (t :: texts), d''. rewrite fmap_cons, mjoin_cons, Hj.
    unfold strict_outcome, strict_text. rewrite Hrest, (from_utf8_app _ _ Hu), Ho.
    destruct (from_utf8 (rest_of d')) as [cs|v e]; split_and!; try done; try by constructor.
    + by rewrite Nat.add_assoc.
    + by rewrite take_app_add.
  - destruct Hres as [Hr Hd']. exists [], d'. unfold strict_outcome, strict_text. rewrite Hr.
    split_and!; try done; by constructor.
  - destruct Hres as (-> & Hd' & e & Hr). exists [], d'. unfold strict_outcome, strict_text.
    rewrite Hr, Nat.add_0_r. split_and!; try done; by constructor.
Qed.

(** ** Lossy decoding *)

(** One pull, of a decoder of codec [c] with the bytes [rest] to decode. *)
Definition lossy_result (c : Codec) (rest : str) (step : DecodeStep) d' : Prop :=
  match step with
  | DecodedValue v =>
      ∃ t, v = VString t ∧ t ≠ [] ∧ utf8 t ∧
        from_utf8_lossy rest = t ++ from_utf8_lossy (rest_of d') ∧
        length (rest_of d') < length rest ∧ done_ d' = false ∧ codec d' = c
  | DecodeEnd => rest = [] ∧ done_ d' = true
  | Malformed _ => False
  end.

Lemma lossy_result_weaken c r r' step d' :
  from_utf8_lossy r = from_utf8_lossy r' → length r' ≤ length r →
  lossy_result c r' step d' → lossy_result c r step d'.
Proof.
  intros Hr Hl. destruct step as [v| |]; simpl; [| |done].
  - intros (t & ? & ? & ? & Ht & Hl' & ?). exists t. rewrite Hr. split_and!; tauto || lia.
  - intros [-> ?]. split; [|done]. by apply from_utf8_lossy_nil.
Qed.

Lemma lossy_loop_spec c cs : ∀ carry offset,
  ∃ step d', lossy_loop (RuntimeError:=RuntimeError) c cs carry offset = Ok (step, d') ∧
    lossy_result c (carry ++ mjoin cs) step d'.
Proof.
  induction cs as [|chunk cs IH]; intros carry offset; cbn [lossy_loop].
  { destruct carry as [|b carry]; eexists _, _; (split; [done|]); simpl; [done|].
    unfold rest_of. simpl. rewrite app_nil_r.
    exists (from_utf8_lossy (b :: carry)). split_and!; try done.
    - by intros ?%from_utf8_lossy_nil.
    - apply from_utf8_lossy_utf8.
    - by rewrite app_nil_r.
    - simpl. lia. }
  destruct chunk as [|b chunk]; [apply IH|].
  unfold decode_utf8_lossy_holding_incomplete. set (held := carry ++ b :: chunk).
  destruct (lossy_hold_loop_spec (S (length held)) held [] 0) as (out & n & -> & Hn & Hu & H0 & Hx);
    [lia|]. cbn [res_bind app Nat.add].
  rewrite mjoin_cons, app_assoc. fold held.
  assert (length (drop n held ++ mjoin cs) = length (held ++ mjoin cs) - n) as Hlen.
  { rewrite !length_app, length_drop. lia. }
  destruct out as [|o out].
  - destruct (IH (drop n held) (offset + n)) as (step & d' & Hr & Hres).
    exists step, d'. split; [done|]. eapply lossy_result_weaken; [apply Hx|lia|done].
  - eexists _, _. split; [done|]. exists (o :: out). unfold rest_of. simpl.
    split_and!; try done. rewrite Hlen.
    destruct n; [by specialize (H0 eq_refl)|]. rewrite length_app. lia.
Qed.

Lemma lossy_run fuel d :
  codec d = CodecUtf8 true → done_ d = false → length (rest_of d) < fuel →
  ∃ texts d', decode_run fuel d = Ok (VString <$> texts, Some DecodeEnd, d') ∧
    Forall (λ t, t ≠ [] ∧ utf8 t) texts ∧ mjoin texts = from_utf8_lossy (rest_of d) ∧
    done_ d' = true.
Proof.
  revert d. induction fuel as [|fuel IH]; intros d Hc Hd Hl; [lia|].
  cbn [decode_run]. unfold decoder_pull. rewrite Hd, Hc. unfold next_utf8_lossy.
  destruct (lossy_loop_spec (codec d) (chunks d) (carry d) (offset d)) as (step & d' & -> & Hres).
  change (carry d ++ mjoin (chunks d)) with (rest_of d) in Hres. cbn [res_bind].
  destruct step as [v| |o]; [| |done].
  - destruct Hres as (t & -> & Hn & Hu & Hrest & Hl' & Hd' & Hc').
    destruct (IH d') as (texts & d'' & -> & Hf & Hj & Hdone); [congruence|done|lia|].
    cbn [res_bind]. exists (t :: texts), d''. rewrite fmap_cons, mjoin_cons, Hj, Hrest.
    split_and!; try done; by constructor.
  - destruct Hres as [Hr Hd']. exists [], d'. rewrite Hr. split_and!; try done; by constructor.
Qed.

(** ** Encoding *)

Fixpoint encode_run (fuel : nat) (e : Encoder RuntimeError)
    : list str * option (EncodeStep RuntimeError) :=
  match fuel with
  | 0 => ([], None)
  | S fuel =>
    match encoder_pull e with
    | (Chunk b, e) => let '(bytes, t) := encode_run fuel e in (b :: bytes, t)
    | (t, _) => ([], Some t)
    end
  end.

(** An encoder over the values [vs] from [cursor] on. *)
Definition values_encoder (c : Codec) (vs : list Value) (cursor : nat) (e : Encoder RuntimeError) : Prop :=
  encoder_codec e = c ∧ encoder_done e = false ∧ source (input e) = Values vs cursor ∧
  terminal (input e) = false ∧ cancel (input e) = never.

Lemma values_encoder_pull c vs cursor e :
  values_encoder c vs cursor e →
  match vs !! cursor with
  | Some v =>
      match encode_value c v with
      | inl b => ∃ e', encoder_pull e = (Chunk b, e') ∧ values_encoder c vs (cursor + 1) e'
      | inr f => ∃ e', encoder_pull e = (NotEncodable f, e')
      end
  | None => ∃ e', encoder_pull e = (EncodeEnd, e')
  end.
Proof.
  intros (Hc & Hd & Hs & Ht & Hk). unfold encoder_pull, pull. rewrite Hd, Ht, Hk. simpl.
  rewrite Hs. simpl. destruct (vs !! cursor) as [v|]; simpl; [|by eexists].
  rewrite Hc. destruct (encode_value c v); eexists; [|done]. split; [done|].
  by unfold values_encoder.
Qed.

Lemma values_encoder_run c vs texts n e :
  Forall2 (λ v b, encode_value c v = inl b) (drop n vs) texts → n ≤ length vs →
  values_encoder c vs n e →
  encode_run (S (length texts)) e = (texts, Some EncodeEnd).
Proof.
  revert n e. induction texts as [|b texts IH]; intros n e Hf Hn He;
    pose proof (values_encoder_pull _ _ _ _ He) as Hp.
  - cbn [length encode_run]. apply Forall2_nil_inv_r in Hf.
    rewrite (lookup_ge_None_2 vs n) in Hp.
    2: { apply (f_equal length) in Hf. rewrite length_drop in Hf. simpl in Hf. lia. }
    by destruct Hp as (e' & ->).
  - cbn [length]. remember (S (length texts)) as k eqn:Hk. cbn [encode_run].
    apply Forall2_cons_inv_r in Hf as (v & vs' & Hb & Hf & Hdrop).
    assert (vs !! n = Some v) as Hv.
    { rewrite <- (Nat.add_0_r n), <- lookup_drop, Hdrop. done. }
    rewrite Hv, Hb in Hp. destruct Hp as (e' & -> & He').
    rewrite (drop_S _ _ _ Hv) in Hdrop. injection Hdrop as Hdrop.
    pose proof (lookup_lt_Some _ _ _ Hv).
    subst k. rewrite (IH (n + 1) e'); [done| |lia|done]. by rewrite Nat.add_1_r, Hdrop.
Qed.

(** Bytes decoding: the non-empty chunks. *)
Definition nonempty (chunk : str) : bool := match chunk with [] => false | _ => true end.

Lemma bytes_run fuel cs : ∀ carry offset,
  length (filter nonempty cs) < fuel →
  ∃ d', decode_run fuel (mkDecoder CodecBytes cs carry offset false) =
    Ok (VBytes <$> filter nonempty cs, Some DecodeEnd, d').
Proof.
  revert cs. induction fuel as [|fuel IH]; intros cs carry offset Hl; [lia|].
  cbn [decode_run]. unfold decoder_pull, next_bytes. cbn [Convert.done_ Convert.codec Convert.chunks Convert.carry Convert.offset].
  revert Hl. induction cs as [|chunk cs IHcs]; intros Hl; [by eexists|].
  destruct chunk as [|b chunk]; [by apply IHcs|]. cbn [bytes_loop res_bind].
  rewrite filter_cons_True in Hl |- * by done. simpl in Hl.
  destruct (IH cs carry (offset + length (b :: chunk))) as (d' & ->); [lia|].
  cbn [res_bind]. by eexists.
Qed.

(** ** Theorems *)

(** C35: strict decoding depends only on the bytes, not on how they are cut into
    chunks: it ends without panic after at most one pull per byte and one
    more, its strings are non-empty text that concatenates to the longest
    valid prefix, and it ends with [End] when the input is well formed and
    otherwise with the offset of the first byte that is not; from then on
    every pull returns [End]. *)
Theorem strict_decode_exact (chunks : list str) :
  let input := mjoin chunks in
  ∃ texts d',
    decode_run (S (length input)) (decode (CodecUtf8 false) chunks) =
      Ok (VString <$> texts,
          Some match from_utf8 input with Utf8Ok _ => DecodeEnd | Utf8Error v _ => Malformed v end, d') ∧
    Forall (λ t, t ≠ [] ∧ utf8 t) texts ∧
    mjoin texts = match from_utf8 input with Utf8Ok _ => input | Utf8Error v _ => take v input end ∧
    decoder_pull (RuntimeError:=RuntimeError) d' = Ok (DecodeEnd, d').
Proof.
  intros input.
  destruct (strict_run (S (length input)) (decode (CodecUtf8 false) chunks))
    as (texts & d' & Hr & Hf & Hj & Hd); [done|done|exact (Nat.lt_succ_diag_r _)|].
  exists texts, d'. rewrite Hr. unfold strict_outcome, strict_text, rest_of in *. simpl in *.
  split_and!; try done. unfold decoder_pull. by rewrite Hd.
Qed.

(** Lossy decoding never fails: whatever the chunks, its strings are non-empty
    text that concatenates to the lossy reading of the whole input, so that a
    character cut by a chunk boundary is not mistaken for an error. *)
Theorem lossy_decode_exact (chunks : list str) :
  let input := mjoin chunks in
  ∃ texts d',
    decode_run (S (length input)) (decode (CodecUtf8 true) chunks) =
      Ok (VString <$> texts, Some DecodeEnd, d') ∧
    Forall (λ t, t ≠ [] ∧ utf8 t) texts ∧ mjoin texts = from_utf8_lossy input ∧
    decoder_pull (RuntimeError:=RuntimeError) d' = Ok (DecodeEnd, d').
Proof.
  intros input.
  destruct (lossy_run (S (length input)) (decode (CodecUtf8 true) chunks))
    as (texts & d' & Hr & Hf & Hj & Hd); [done|done|exact (Nat.lt_succ_diag_r _)|].
  exists texts, d'. split_and!; try done. unfold decoder_pull. by rewrite Hd.
Qed.

(** Encoding a stream of the values that decoding yields gives the bytes back,
    for the byte codec and for well-formed input of strict UTF-8. *)
Theorem decode_encode_roundtrip (c : Codec) (chunks : list str) (next : Z) :
  c = CodecBytes ∨ (c = CodecUtf8 false ∧ utf8 (mjoin chunks)) →
  (next + 1 < 2 ^ 64)%Z →
  ∃ vs d' s next' bytes,
    decode_run (S (length (mjoin chunks))) (decode c chunks) = Ok (vs, Some DecodeEnd, d') ∧
    from_values (E:=Empty_set) next vs = Ok (s, next') ∧
    encode_run (S (length vs)) (encode_with c s) = (bytes, Some EncodeEnd) ∧
    mjoin bytes = mjoin chunks.
Proof.
  intros Hc Hnext.
  assert (∃ vs d' bytes, decode_run (S (length (mjoin chunks))) (decode c chunks) =
      Ok (vs, Some DecodeEnd, d') ∧ Forall2 (λ v b, encode_value c v = inl b) vs bytes ∧
      mjoin bytes = mjoin chunks) as (vs & d' & bytes & Hr & Hf & Hj).
  { destruct Hc as [->|[-> Hu]].
    - destruct (bytes_run (S (length (mjoin chunks))) chunks [] 0) as (d' & Hr).
      { induction chunks as [|[|b chunk] cs IH]; [simpl; lia|done|].
        rewrite mjoin_cons, length_app, filter_cons_True by done. simpl in *. lia. }
      exists (VBytes <$> filter nonempty chunks), d', (filter nonempty chunks).
      split_and!; [done| |].
      + apply Forall2_fmap_l, Forall_Forall2_diag, list.Forall_forall. done.
      + clear. induction chunks as [|[|b chunk] cs IH]; [done|done|].
        rewrite filter_cons_True by done. by rewrite !mjoin_cons, IH.
    - destruct (strict_run (S (length (mjoin chunks))) (decode (CodecUtf8 false) chunks))
        as (texts & d' & Hr & _ & Hj & _); [done|done|exact (Nat.lt_succ_diag_r _)|].
      destruct (from_utf8_utf8 _ Hu) as [cs Hcs]. unfold strict_outcome, strict_text, rest_of in *.
      simpl in Hr, Hj. rewrite Hcs in Hr, Hj.
      exists (VString <$> texts), d', texts. split_and!; [done| |done].
      by apply Forall2_fmap_l, Forall_Forall2_diag, list.Forall_forall. }
  unfold from_values, with_source, StreamOwnerId_fresh.
  destruct (Z.ltb_spec (next + 1) (2 ^ 64)) as [_|]; [|lia]. cbn [res_bind].
  exists vs, d'. eexists _, _, bytes. split_and!; [done|done| |done].
  rewrite (Forall2_length _ _ _ Hf).
  by apply (values_encoder_run c vs bytes 0); [|lia|].
Qed.
End Facts.

(** ** Witnesses *)

Lemma decode_encode_roundtrip_witness :
  ∃ vs d' s next' bytes,
    decode_run (RuntimeError:=unit) 4 (decode (CodecUtf8 false) [[0xE2%Z]; [0x82%Z]; []; [0xAC%Z]])
      = Ok (vs, Some DecodeEnd, d') ∧
    from_values (E:=Empty_set) 1 vs = Ok (s, next') ∧
    encode_run (S (length vs)) (encode_with (CodecUtf8 false) s) = (bytes, Some EncodeEnd) ∧
    mjoin bytes = [0xE2%Z; 0x82%Z; 0xAC%Z].
Proof.
  apply (decode_encode_roundtrip (CodecUtf8 false) [[0xE2%Z]; [0x82%Z]; []; [0xAC%Z]] 1).
  - right. split; [done|]. apply utf8b_spec. by vm_compute.
  - lia.
Defined.
