(* ===== verification/Types.v ===== *)
(** * Types ([opaal-runtime/src/module.rs], the type operations)

    Nominal declarations, unification with a substitution, and the
    constraints a type argument may have to satisfy.  A substitution
    ([BTreeMap]) is its lookup. *)
From S2P Require Import Prelude Utf8 Source Ast.
From S2P Require Import Path Order Compare Status Value Stream Convert.

Local Open Scope res_scope.

(** ** Identities *)

Definition ModuleId_standard (namespace module : str) : ModuleId :=
  mkModuleId (namespace ++ bs "::" ++ module) (Standard namespace module).

Definition NominalTypeId_standard (module name : str) : NominalTypeId :=
  mkNominal (ModuleId_standard (bs "std") module) name.
Definition NominalTypeId_project (module name : str) : NominalTypeId :=
  mkNominal (ModuleId_standard (bs "project") module) name.

Definition is_opaque_operational_nominal (id : NominalTypeId) : bool :=
  match module_origin (nominal_module id) with
  | Standard namespace module =>
    if str_eqb namespace (bs "project") then
      str_eqb module (bs "tools") || str_eqb module (bs "endpoints") || str_eqb module (bs "secrets")
    else if str_eqb namespace (bs "std") then
      (str_eqb module (bs "http") && str_eqb (nominal_name id) (bs "SecretHeader")) ||
      (str_eqb module (bs "docker") && str_eqb (nominal_name id) (bs "TargetIdentity"))
    else false
  | Local => false
  end.

(** ** Display *)

Fixpoint joined_by_commas (texts : list str) : str :=
  match texts with
  | [] => []
  | [text] => text
  | text :: texts => text ++ bs ", " ++ joined_by_commas texts
  end.

Fixpoint type_text (t : ValueType) : str :=
  match t with
  | TAny => bs "Any" | TNull => bs "Null" | TBool => bs "Bool" | TInt => bs "Int"
  | TFloat => bs "Float" | TString => bs "String" | TBytes => bs "Bytes" | TPath => bs "Path"
  | TDuration => bs "Duration" | TByteSize => bs "ByteSize"
  | TList element => bs "List[" ++ type_text element ++ bs "]"
  | TRecord => bs "Record" | TTable => bs "Table" | TRange => bs "Range" | TStatus => bs "Status"
  | TError => bs "Error" | TFunction => bs "Function" | TClosure => bs "Closure"
  | TTypeParameter name => name
  | TNominal id arguments =>
    nominal_name id ++
    match arguments with
    | [] => []
    | _ => bs "[" ++ joined_by_commas (type_text <$> arguments) ++ bs "]"
    end
  end.

(** ** Substitutions *)

Definition Substitutions : Type := str → option ValueType.
Definition no_substitutions : Substitutions := λ _, None.
Definition bind_type (name : str) (t : ValueType) (s : Substitutions) : Substitutions :=
  λ n, if str_eqb n name then Some t else s n.

Fixpoint has_unbound_type_parameters (t : ValueType) (substitutions : Substitutions) : bool :=
  match t with
  | TTypeParameter name => negb (bool_decide (is_Some (substitutions name)))
  | TList element => has_unbound_type_parameters element substitutions
  | TNominal _ arguments =>
      existsb (λ argument, has_unbound_type_parameters argument substitutions) arguments
  | _ => false
  end.

(** [zip(..).all(..)] over a step that also updates the substitution. *)
Definition unify_all (unify : ValueType → ValueType → Substitutions → bool * Substitutions)
    : list ValueType → list ValueType → Substitutions → bool * Substitutions :=
  fix go expected actual substitutions :=
    match expected, actual with
    | e :: expected, a :: actual =>
      match unify e a substitutions with
      | (true, substitutions) => go expected actual substitutions
      | (false, substitutions) => (false, substitutions)
      end
    | _, _ => (true, substitutions)
    end.

Fixpoint unify_type (expected actual : ValueType) (substitutions : Substitutions)
    : bool * Substitutions :=
  match expected, actual with
  | TTypeParameter _, TAny => (true, substitutions)
  | TTypeParameter name, actual =>
    match substitutions name with
    | Some previous => (ValueType_eqb previous actual, substitutions)
    | None => (true, bind_type name actual substitutions)
    end
  | TList expected, TList actual => unify_type expected actual substitutions
  | TNominal expected_id expected_arguments, TNominal actual_id actual_arguments =>
    if NominalTypeId_eqb expected_id actual_id &&
       (length expected_arguments =? length actual_arguments)
    then unify_all unify_type expected_arguments actual_arguments substitutions
    else (ValueType_eqb expected actual, substitutions)
  | TAny, _ | _, TAny => (true, substitutions)
  | _, _ => (ValueType_eqb expected actual, substitutions)
  end.

(** ** Nominal declarations *)

Record NominalTypeField := mkField { field_name : str; field_type : ValueType; field_span : Span }.

Record ResolvedTypeParameter := mkTypeParameter {
  parameter_name : str;
  parameter_constraints : list TypeConstraint;
  parameter_span : Span
}.

Record NominalVariant := mkVariant {
  variant_name : str;
  variant_payload : list ValueType;
  variant_span : Span
}.

Inductive NominalTypeKind := RecordKind | VariantKind.

Record NominalType := mkNominalType {
  nominal_id : NominalTypeId;
  nominal_declaration_span : Span;
  nominal_kind : NominalTypeKind;
  nominal_type_parameters : list ResolvedTypeParameter;
  nominal_fields : list NominalTypeField;
  nominal_variants : list NominalVariant
}.

(** The maps by module and by name, as one list by identity. *)
Abbreviation NominalTypes := (list (NominalTypeId * NominalType)) (only parsing).

Fixpoint nominal_lookup (nominals : NominalTypes) (id : NominalTypeId) : option NominalType :=
  match nominals with
  | [] => None
  | (key, nominal) :: nominals =>
    if NominalTypeId_eqb key id then Some nominal else nominal_lookup nominals id
  end.

(** Collected pairs: of two parameters of one name the later counts. *)
Fixpoint parameter_substitution (parameters : list str) (arguments : list ValueType) : Substitutions :=
  match parameters, arguments with
  | name :: parameters, argument :: arguments =>
    λ n, match parameter_substitution parameters arguments n with
         | Some t => Some t
         | None => if str_eqb n name then Some argument else None
         end
  | _, _ => no_substitutions
  end.

(** The types of the fields and of the payloads, for these arguments. *)
Definition member_types (nominal : NominalType) (arguments : list ValueType) : list ValueType :=
  let substitutions :=
    parameter_substitution (parameter_name <$> nominal_type_parameters nominal) arguments in
  (λ t, substitute_type t substitutions) <$>
    ((field_type <$> nominal_fields nominal) ++ concat (variant_payload <$> nominal_variants nominal)).

(** ** Constraints

    The checker and the running program ask the same question; they differ on
    type parameters ([parameter]), of which the running program has none.  A
    declaration that is being visited is assumed to satisfy the constraint.  The
    fuel bounds the declarations that can be visited inside one another. *)
Section Constraints.
Context (nominals : NominalTypes) (parameter : str → TypeConstraint → bool).

Fixpoint all_satisfy (satisfies : ValueType → res Empty_set bool) (types : list ValueType)
    : res Empty_set bool :=
  match types with
  | [] => Ok true
  | t :: types =>
    let* ok := satisfies t in
    if ok then all_satisfy satisfies types else Ok false
  end.

Definition visited (visiting : list NominalTypeId) (id : NominalTypeId) : bool :=
  existsb (NominalTypeId_eqb id) visiting.

Section Inner.
Context (members_satisfy : list NominalTypeId → ValueType → res Empty_set bool).

Fixpoint equal_inner (visiting : list NominalTypeId) (t : ValueType) : res Empty_set bool :=
  match t with
  | TAny | TFunction | TClosure => Ok false
  | TTypeParameter name => Ok (parameter name EqualConstraint)
  | TList element => equal_inner visiting element
  | TNominal id arguments =>
    if is_opaque_operational_nominal id then Ok false
    else
      let* arguments_satisfy := all_satisfy (equal_inner visiting) arguments in
      if negb arguments_satisfy then Ok false
      else if visited visiting id then Ok true
      else
        match nominal_lookup nominals id with
        | Some nominal =>
          if length (nominal_type_parameters nominal) =? length arguments
          then all_satisfy (members_satisfy (id :: visiting)) (member_types nominal arguments)
          else Ok false
        | None => Ok false
        end
  | _ => Ok true
  end.
End Inner.

Fixpoint satisfies_equal (fuel : nat) (visiting : list NominalTypeId) (t : ValueType)
    : res Empty_set bool :=
  match fuel with
  | 0 => Panic
  | S fuel => equal_inner (satisfies_equal fuel) visiting t
  end.

Fixpoint satisfies_ordered (t : ValueType) : bool :=
  match t with
  | TInt | TFloat | TString | TBytes | TPath | TDuration | TByteSize => true
  | TList element => satisfies_ordered element
  | TTypeParameter name => parameter name OrderedConstraint
  | _ => false
  end.

Definition type_satisfies_constraint (t : ValueType) (constraint : TypeConstraint)
    : res Empty_set bool :=
  match constraint with
  | EqualConstraint => satisfies_equal (S (length nominals)) [] t
  | OrderedConstraint => Ok (satisfies_ordered t)
  end.
End Constraints.
