(* ===== verification/TypesFacts.v ===== *)
(** * Properties of types: unification finds the most general substitution,
    constraints mean what they say *)
From S2P Require Import Prelude Utf8 Source Ast.
From S2P Require Import Path Order Compare Status Value ValueFacts Stream Convert.
From S2P Require Import Float Operation OperationFacts Types.

Local Open Scope res_scope.

(** ** Types up to the spelling of module paths *)

Definition same_type (t u : ValueType) : Prop := ValueType_eqb t u = true.
Infix "≃" := same_type (at level 70).

#[export] Instance same_type_equivalence : Equivalence same_type.
Proof.
  split; [exact ValueType_eqb_refl|exact ValueType_eqb_sym|exact ValueType_eqb_trans].
Qed.

Lemma same_types_Forall2 ts us : list_eqb ValueType_eqb ts us = true ↔ Forall2 same_type ts us.
Proof.
  revert us. induction ts as [|t ts IH]; intros [|u us]; simpl.
  - split; [constructor|done].
  - split; [done|by inversion 1].
  - split; [done|by inversion 1].
  - rewrite andb_true_iff, IH, Forall2_cons. done.
Qed.

Lemma same_nominal i j ts us :
  TNominal i ts ≃ TNominal j us ↔ NominalTypeId_eqb i j = true ∧ Forall2 same_type ts us.
Proof. unfold same_type at 1. simpl. by rewrite andb_true_iff, same_types_Forall2. Qed.

(** ** Unification *)

(** Every binding of [s] is one of [s']. *)
Definition extends (s s' : Substitutions) : Prop :=
  ∀ n t, s n = Some t → ∃ u, s' n = Some u ∧ u ≃ t.

#[export] Instance extends_preorder : PreOrder extends.
Proof.
  split.
  - intros s n t H. by exists t.
  - intros s1 s2 s3 H1 H2 n t H. destruct (H1 n t H) as (u & Hu & Eu).
    destruct (H2 n u Hu) as (v & Hv & Ev). exists v. split; [done|]. by etrans.
Qed.

(** No [Any] at any depth. *)
Fixpoint no_any (t : ValueType) : bool :=
  match t with
  | TAny => false
  | TList t => no_any t
  | TNominal _ ts => forallb no_any ts
  | _ => true
  end.

Definition closed_in (s : Substitutions) (t : ValueType) : Prop :=
  has_unbound_type_parameters t s = false.

Lemma closed_in_nominal s id ts : closed_in s (TNominal id ts) ↔ Forall (closed_in s) ts.
Proof.
  unfold closed_in. simpl. induction ts as [|t ts IH]; simpl.
  - split; [constructor|done].
  - rewrite orb_false_iff, IH, Forall_cons. done.
Qed.

Lemma closed_in_parameter s n : closed_in s (TTypeParameter n) ↔ ∃ t, s n = Some t.
Proof.
  unfold closed_in. simpl. rewrite negb_false_iff, bool_decide_eq_true. done.
Qed.

Lemma no_any_nominal id ts : no_any (TNominal id ts) = true ↔ Forall (λ t, no_any t = true) ts.
Proof. simpl. rewrite forallb_forall, Forall_forall. by setoid_rewrite list_elem_of_In. Qed.

(** A solution binds the parameters of [e] and makes it [a]. *)
Definition solves (e a : ValueType) (s : Substitutions) : Prop :=
  closed_in s e ∧ substitute_type e s ≃ a.

Lemma substitute_nominal id ts s : substitute_type (TNominal id ts) s = TNominal id ((λ t, substitute_type t s) <$> ts).
Proof. done. Qed.

Lemma extends_closed s s' t : extends s s' → closed_in s t → closed_in s' t ∧ substitute_type t s' ≃ substitute_type t s.
Proof.
  intros Hext. induction t as [t Ht|t IH|id ts IH] using ValueType_nested_ind.
  - destruct t as [| | | | | | | | | | | | | | | | | |n|]; try done.
    rewrite !closed_in_parameter. intros [t Hn]. destruct (Hext n t Hn) as (u & Hu & Eu).
    split; [by exists u|]. simpl. by rewrite Hn, Hu.
  - exact IH.
  - rewrite !closed_in_nominal, !substitute_nominal, same_nominal. intros Hc.
    assert (Forall (λ t, closed_in s' t ∧ substitute_type t s' ≃ substitute_type t s) ts) as Hall.
    { apply Forall_forall. intros t Ht. rewrite Forall_forall in IH, Hc. auto. }
    apply Forall_and in Hall as [H1 H2]. split_and!; [done|by apply NominalTypeId_eqb_key|].
    apply Forall2_fmap, Forall2_same_length_lookup_2; [done|].
    intros i t u Ht Hu. simplify_eq. by eapply (Forall_lookup_1 _ _ _ _ H2).
Qed.

Lemma extends_solves e a s s' : extends s s' → solves e a s → solves e a s'.
Proof.
  intros Hext [Hc Ha]. destruct (extends_closed s s' e Hext Hc) as [H1 H2].
  split; [done|]. by etrans.
Qed.

Lemma solves_nominal i ts j us s :
  solves (TNominal i ts) (TNominal j us) s ↔
  NominalTypeId_eqb i j = true ∧ Forall2 (λ t u, solves t u s) ts us.
Proof.
  unfold solves. rewrite closed_in_nominal, substitute_nominal, same_nominal, Forall2_fmap_l.
  split.
  - intros (Hc & Hi & Hs). split; [done|]. revert us Hs.
    induction Hc as [|t ts Ht _ IH]; intros us Hs; inversion Hs; subst; constructor; auto.
  - intros (Hi & Hs). split_and!; [|done|].
    + induction Hs as [|t u ts us [? ?] _ IH]; constructor; auto.
    + eapply Forall2_impl; [exact Hs|]. by intros t u [? ?].
Qed.

Lemma bind_extends n t s : s n = None → extends s (bind_type n t s).
Proof.
  intros Hn m u Hu. exists u. split; [|done]. unfold bind_type.
  destruct (str_eqb m n) eqn:E; [|done]. apply str_eqb_eq in E as ->. congruence.
Qed.

Lemma bind_same n t s : bind_type n t s n = Some t.
Proof. unfold bind_type. by rewrite (proj2 (str_eqb_eq n n) eq_refl). Qed.

Lemma solves_parameter n a s : solves (TTypeParameter n) a s ↔ ∃ t, s n = Some t ∧ t ≃ a.
Proof.
  unfold solves. rewrite closed_in_parameter. simpl. split.
  - intros [[t Ht] H]. rewrite Ht in H. by exists t.
  - intros (t & Ht & H). rewrite Ht. split; [by exists t|done].
Qed.

(** What unification answers: the least extension that is a solution, or that
    there is none. *)
Definition unified (s : Substitutions) (solution : Substitutions → Prop) (r : bool * Substitutions) : Prop :=
  match r with
  | (true, s') => extends s s' ∧ solution s' ∧ ∀ s'', extends s s'' → solution s'' → extends s' s''
  | (false, _) => ∀ s'', extends s s'' → ¬ solution s''
  end.

Lemma unified_iff s (P Q : Substitutions → Prop) r :
  (∀ s', P s' ↔ Q s') → unified s P r → unified s Q r.
Proof.
  intros H. destruct r as [[] s']; simpl.
  - intros (H1 & H2 & H3). split_and!; [done|by apply H|]. intros s'' Hs'' Hq. apply H3; [done|by apply H].
  - intros H1 s'' Hs'' Hq. apply (H1 s'' Hs''). by apply H.
Qed.

Lemma unify_all_unified ts us s :
  Forall (λ t, ∀ u s, no_any t = true → no_any u = true → unified s (solves t u) (unify_type t u s)) ts →
  Forall (λ t, no_any t = true) ts → Forall (λ t, no_any t = true) us → length ts = length us →
  unified s (λ s', Forall2 (λ t u, solves t u s') ts us) (unify_all unify_type ts us s).
Proof.
  intros IH. revert us s. induction IH as [|t ts Ht _ IH]; intros us s Hts Hus Hlen;
    destruct us as [|u us]; try discriminate Hlen.
  { split_and!; [done|constructor|done]. }
  apply Forall_cons in Hts as [Hnt Hts], Hus as [Hnu Hus]. injection Hlen as Hlen. simpl.
  specialize (Ht u s Hnt Hnu). destruct (unify_type t u s) as [[] s1]; simpl in Ht.
  - destruct Ht as (H1 & H2 & H3). specialize (IH us s1 Hts Hus Hlen).
    destruct (unify_all unify_type ts us s1) as [[] s2]; simpl in *.
    + destruct IH as (H4 & H5 & H6). split_and!.
      * by etrans.
      * constructor; [by eapply extends_solves|done].
      * intros s'' Hs'' [Hh Htl]%Forall2_cons. apply H6; [by apply H3|done].
    + intros s'' Hs'' [Hh Htl]%Forall2_cons. apply (IH s''); [by apply H3|done].
  - intros s'' Hs'' [Hh _]%Forall2_cons. by apply (Ht s'').
Qed.

Lemma unify_unified e a s :
  no_any e = true → no_any a = true → unified s (solves e a) (unify_type e a s).
Proof.
  revert a s. induction e as [e He|e IH|id ts IH] using ValueType_nested_ind; intros a s Hne Hna.
  - assert (∀ b, unify_type e a s = (b, s) → b = ValueType_eqb e a →
      (∀ s', closed_in s' e) → (∀ s', substitute_type e s' = e) → unified s (solves e a) (unify_type e a s)) as Hleaf.
    { intros b -> Hb Hc Hs. unfold unified, solves, same_type. rewrite Hb.
      destruct (ValueType_eqb e a) eqn:E.
      - split_and!; [done|done|by rewrite Hs|done].
      - intros s'' _ [_ H]. rewrite Hs in H. congruence. }
    destruct e as [| | | | | | | | | | | | | | | | | |n|]; try done;
      try (eapply (Hleaf (ValueType_eqb _ a)); [by destruct a|reflexivity|done|done]).
    eapply (unified_iff s (λ s', ∃ t, s' n = Some t ∧ t ≃ a)); [intros s'; symmetry; apply solves_parameter|].
    assert (unify_type (TTypeParameter n) a s =
      match s n with Some p => (ValueType_eqb p a, s) | None => (true, bind_type n a s) end) as ->
      by (by destruct a).
    destruct (s n) as [p|] eqn:Hn.
    + unfold unified. destruct (ValueType_eqb p a) eqn:E.
      * split_and!; [done|by exists p|done].
      * intros s'' Hs'' (t & Ht & Hta). destruct (Hs'' n p Hn) as (u & Hu & Eu). simplify_eq.
        assert (p ≃ a) by (etrans; [symmetry; exact Eu|done]). congruence.
    + split_and!; [by apply bind_extends|exists a; split; [apply bind_same|done]|].
      intros s'' Hs'' (t & Ht & Hta) m u. unfold bind_type. destruct (str_eqb m n) eqn:E.
      * apply str_eqb_eq in E as ->. intros [= <-]. by exists t.
      * apply Hs''.
  - destruct a as [| | | | | | | | | |a| | | | | | | | |];
      try done; try (intros s'' _ [_ H]; discriminate H).
    exact (IH a s Hne Hna).
  - destruct a as [| | | | | | | | | | | | | | | | | | |j us];
      try done; try (intros s'' _ [_ H]; discriminate H).
    apply no_any_nominal in Hne, Hna.
    eapply unified_iff; [intros s'; symmetry; apply solves_nominal|]. simpl.
    destruct (NominalTypeId_eqb id j) eqn:Hid; simpl; [|by intros s'' _ [? _]].
    destruct (Nat.eqb_spec (length ts) (length us)) as [Hl|Hl].
    + eapply (unified_iff s (λ s', Forall2 (λ t u, solves t u s') ts us)); [naive_solver|].
      by apply unify_all_unified.
    + destruct (list_eqb ValueType_eqb ts us) eqn:E.
      { apply same_types_Forall2, Forall2_length in E. congruence. }
      intros s'' _ [_ H%Forall2_length]. congruence.
Qed.

(** C11: Unification is exact.  Between a pattern and a type without [Any] it
    succeeds exactly when some extension of the bindings so far makes the
    pattern that type, and then its bindings are the least such extension:
    they extend the old ones, bind every parameter of the pattern, turn it into
    the type, and are contained in every other solution. *)
Theorem unify_exact (e a : ValueType) (s : Substitutions) :
  no_any e = true → no_any a = true →
  ((unify_type e a s).1 = true ↔ ∃ s', extends s s' ∧ solves e a s') ∧
  ((unify_type e a s).1 = true →
    let s' := (unify_type e a s).2 in
    extends s s' ∧ has_unbound_type_parameters e s' = false ∧
    ValueType_eqb (substitute_type e s') a = true ∧
    ∀ s'', extends s s'' → solves e a s'' → extends s' s'').
Proof.
  intros He Ha. pose proof (unify_unified e a s He Ha) as H.
  destruct (unify_type e a s) as [[] s']; simpl in *.
  - destruct H as (H1 & [H2 H3] & H4). split; [|done]. split; [|done]. intros _. by exists s'.
  - split; [|done]. split; [done|]. intros (s'' & Hs'' & Hsol). by destruct (H s'' Hs'').
Qed.

(** ** Ordered types *)

(** Neither the checker nor the running program has bindings of parameters to
    ask here. *)
Definition no_parameter (name : str) (constraint : TypeConstraint) : bool := false.

Section Values.
Context {RuntimeError : Type}.

Notation Value := (Value RuntimeError).

Lemma list_all_accepts t (l : list Value) : accepts (TList t) (VList l) = true ↔ Forall (λ v, accepts t v = true) l.
Proof. simpl. rewrite forallb_forall, Forall_forall. by setoid_rewrite list_elem_of_In. Qed.

Lemma ordered_comparable t : satisfies_ordered no_parameter t = true →
  ∀ a b : Value, accepts t a = true → accepts t b = true → value_wf a → value_wf b →
  ∃ c, order a b = Ok c.
Proof.
  induction t as [t Ht|t IH|id ts _] using ValueType_nested_ind; intros Hs a b Ha Hb Wa Wb; [| |done].
  - destruct t; try discriminate Hs; try done; destruct a; try discriminate Ha; destruct b; try discriminate Hb;
      try (eexists; reflexivity).
    eexists. exact (order_numeric _ _ _ _ Wa Wb eq_refl eq_refl).
  - destruct a as [| | | | | | | | |l| | | | | | | |]; try discriminate Ha.
    destruct b as [| | | | | | | | |k| | | | | | | |]; try discriminate Hb.
    apply list_all_accepts in Ha, Hb. apply list_wf in Wa, Wb.
    change (order (VList l) (VList k)) with (order_lists order l k).
    revert k Hb Wb. induction l as [|x l IHl]; intros k Hb Wb.
    { eexists. apply (order_lists_nil k). }
    destruct k as [|y k]; [eexists; apply (order_lists_nil (x :: l))|].
    apply Forall_cons in Ha as [Hx Ha], Hb as [Hy Hb], Wa as [Wx Wa], Wb as [Wy Wb].
    rewrite order_lists_cons. destruct (IH Hs x y Hx Hy Wx Wy) as [c ->]. simpl.
    destruct c; [by apply IHl|by eexists..].
Qed.

(** [Ordered] means ordered: two values of a type that satisfies the
    constraint are always comparable, at any depth of lists, so that sorting
    them cannot meet an incomparable pair. *)
Theorem ordered_types_compare (nominals : NominalTypes) (t : ValueType) (a b : Value) :
  type_satisfies_constraint nominals no_parameter t OrderedConstraint = Ok true →
  accepts t a = true → accepts t b = true → value_wf a → value_wf b →
  ∃ c, order a b = Ok c ∧ order b a = Ok (CompOpp c).
Proof.
  intros [= Hs] Ha Hb Wa Wb. destruct (ordered_comparable t Hs a b Ha Hb Wa Wb) as [c Hc].
  exists c. split; [done|]. by apply order_antisym.
Qed.
End Values.

(** ** Equal types *)

Section Equal.
Context (nominals : NominalTypes).

Notation lookup := (nominal_lookup nominals).

Lemma all_satisfy_true f ts : all_satisfy f ts = Ok true ↔ Forall (λ t, f t = Ok true) ts.
Proof.
  induction ts as [|t ts IH]; simpl; [split; [constructor|done]|].
  rewrite Forall_cons, <- IH, res_bind_ok. split.
  - intros (ok & Ht & Hr). destruct ok; [done|discriminate Hr].
  - intros [Ht Hr]. exists true. done.
Qed.

Lemma all_satisfy_no_panic f ts : Forall (λ t, f t ≠ Panic) ts → all_satisfy f ts ≠ Panic.
Proof.
  induction 1 as [|t ts Ht _ IH]; [done|]. simpl. destruct (f t) as [[]| |]; done.
Qed.

Lemma visited_cons V id j : visited (id :: V) j = NominalTypeId_eqb j id || visited V j.
Proof. done. Qed.

Lemma visited_key V i j : nominal_key i = nominal_key j → visited V i = visited V j.
Proof.
  intros H. unfold visited. induction V as [|k V IH]; [done|]. simpl. rewrite IH. f_equal.
  apply eq_true_iff_eq. rewrite !NominalTypeId_eqb_key. by rewrite H.
Qed.

Lemma lookup_key i j : nominal_key i = nominal_key j → lookup i = lookup j.
Proof.
  intros H. induction nominals as [|[k n] ns IH]; [done|]. simpl.
  assert (NominalTypeId_eqb k i = NominalTypeId_eqb k j) as ->
    by (apply eq_true_iff_eq; rewrite !NominalTypeId_eqb_key; by rewrite H).
  by rewrite IH.
Qed.

(** *** Termination *)

(** Declarations that are not being visited. *)
Definition unvisited (V : list NominalTypeId) : nat :=
  length (filter (λ e, visited V e.1 = false) nominals).

Lemma unvisited_cons V id n :
  lookup id = Some n → visited V id = false → unvisited (id :: V) < unvisited V.
Proof.
  unfold unvisited. intros Hl Hv.
  assert (∀ l : NominalTypes, length (filter (λ e, visited (id :: V) e.1 = false) l) ≤
    length (filter (λ e, visited V e.1 = false) l)) as Hle.
  { induction l as [|[k m] l IH]; [done|]. rewrite !filter_cons. cbn [fst]. rewrite visited_cons.
    destruct (visited V k), (NominalTypeId_eqb k id); cbn [orb];
      repeat case_decide; cbn [length]; done || lia. }
  induction nominals as [|[k m] ns IH]; [done|]. simpl in Hl. rewrite !filter_cons. cbn [fst].
  rewrite visited_cons. destruct (NominalTypeId_eqb k id) eqn:E.
  - apply NominalTypeId_eqb_key in E. rewrite (visited_key V k id E), Hv. cbn [orb].
    specialize (Hle ns). case_decide; [done|]. case_decide; cbn [length]; [lia|done].
  - specialize (IH Hl). cbn [orb]. destruct (visited V k); repeat case_decide; cbn [length]; done || lia.
Qed.

Lemma satisfies_equal_no_panic p fuel V t :
  unvisited V < fuel → satisfies_equal nominals p fuel V t ≠ Panic.
Proof.
  revert V t. induction fuel as [|fuel IH]; intros V t Hf; [lia|]. cbn [satisfies_equal].
  induction t as [t Ht|t IHt|id ts IHt] using ValueType_nested_ind.
  - by destruct t.
  - exact IHt.
  - cbn [equal_inner]. destruct (is_opaque_operational_nominal id); [done|].
    pose proof (all_satisfy_no_panic _ _ IHt) as Hargs.
    destruct (all_satisfy _ ts) as [[]| |]; simpl; try done.
    destruct (visited V id) eqn:Hv; [done|]. destruct (lookup id) as [n|] eqn:Hl; [|done].
    destruct (_ =? _); [|done]. apply all_satisfy_no_panic, Forall_true. intros t. apply IH.
    pose proof (unvisited_cons V id n Hl Hv). lia.
Qed.

(** *** What the computation accepts

    A type is [fine] while the declarations of [V] are assumed; a declaration
    that no value can have is fine. *)
Definition plain (t : ValueType) : bool :=
  match t with
  | TAny | TFunction | TClosure | TTypeParameter _ | TList _ | TNominal _ _ => false
  | _ => true
  end.

Definition instance_of (id : NominalTypeId) (ts : list ValueType) (n : NominalType) : Prop :=
  lookup id = Some n ∧ length (nominal_type_parameters n) = length ts.

Inductive fine : list NominalTypeId → ValueType → Prop :=
| fine_plain V t : plain t = true → fine V t
| fine_list V t : fine V t → fine V (TList t)
| fine_uninhabited V id ts : (∀ n, ¬ instance_of id ts n) → fine V (TNominal id ts)
| fine_visited V id ts :
    is_opaque_operational_nominal id = false → Forall (fine V) ts → visited V id = true →
    fine V (TNominal id ts)
| fine_nominal V id ts n :
    is_opaque_operational_nominal id = false → Forall (fine V) ts → instance_of id ts n →
    Forall (fine (id :: V)) (member_types n ts) → fine V (TNominal id ts).

Definition Forall_with {A} (Q P : A → Prop) (f : ∀ x, Q x → P x) :
    ∀ l, Forall Q l → Forall (λ x, Q x ∧ P x) l :=
  fix go l H :=
    match H with
    | ListDef.Forall_nil _ => @ListDef.Forall_nil A _
    | ListDef.Forall_cons _ x l Hx Hl => ListDef.Forall_cons _ x l (conj Hx (f x Hx)) (go l Hl)
    end.

Fixpoint fine_nested_ind (P : list NominalTypeId → ValueType → Prop)
    (pplain : ∀ V t, plain t = true → P V t)
    (plist : ∀ V t, fine V t → P V t → P V (TList t))
    (pempty : ∀ V id ts, (∀ n, ¬ instance_of id ts n) → P V (TNominal id ts))
    (pvisited : ∀ V id ts, is_opaque_operational_nominal id = false →
      Forall (λ t, fine V t ∧ P V t) ts → visited V id = true → P V (TNominal id ts))
    (pnominal : ∀ V id ts n, is_opaque_operational_nominal id = false →
      Forall (λ t, fine V t ∧ P V t) ts → instance_of id ts n →
      Forall (λ t, fine (id :: V) t ∧ P (id :: V) t) (member_types n ts) → P V (TNominal id ts))
    V t (H : fine V t) : P V t :=
  let rec V t H := fine_nested_ind P pplain plist pempty pvisited pnominal V t H in
  match H with
  | fine_plain V t Ht => pplain V t Ht
  | fine_list V t Ht => plist V t Ht (rec V t Ht)
  | fine_uninhabited V id ts Hn => pempty V id ts Hn
  | fine_visited V id ts Ho Hts Hv => pvisited V id ts Ho (Forall_with _ _ (rec V) ts Hts) Hv
  | fine_nominal V id ts n Ho Hts Hn Hm =>
      pnominal V id ts n Ho (Forall_with _ _ (rec V) ts Hts) Hn
        (Forall_with _ _ (rec (id :: V)) _ Hm)
  end.

Lemma satisfies_fine fuel V t : satisfies_equal nominals no_parameter fuel V t = Ok true → fine V t.
Proof.
  revert V t. induction fuel as [|fuel IH]; intros V t; [done|]. cbn [satisfies_equal].
  induction t as [t Ht|t IHt|id ts IHt] using ValueType_nested_ind.
  - destruct t; try done; intros _; by apply fine_plain.
  - intros H. apply fine_list, IHt, H.
  - cbn [equal_inner]. destruct (is_opaque_operational_nominal id) eqn:Ho; [done|].
    rewrite res_bind_ok. intros (ok & Hargs & H). destruct ok; [|discriminate H].
    apply all_satisfy_true in Hargs.
    assert (Forall (fine V) ts) as Hts.
    { rewrite Forall_forall in IHt, Hargs |- *. auto. }
    simpl in H. destruct (visited V id) eqn:Hv; [by apply fine_visited|].
    destruct (lookup id) as [n|] eqn:Hl; [|discriminate H].
    destruct (Nat.eqb_spec (length (nominal_type_parameters n)) (length ts)) as [Hlen|]; [|discriminate H].
    apply all_satisfy_true in H. apply (fine_nominal V id ts n Ho Hts); [done|].
    eapply Forall_impl; [exact H|]. intros t. apply IH.
Qed.

Lemma fine_mono V t : fine V t → ∀ W, (∀ id, visited V id = true → visited W id = true) → fine W t.
Proof.
  intros H. induction H as [V t Ht|V t _ IH|V id ts Hn|V id ts Ho Hts Hv|V id ts n Ho Hts Hn Hm]
    using fine_nested_ind; intros W HW.
  - by apply fine_plain.
  - apply fine_list. auto.
  - by apply fine_uninhabited.
  - apply fine_visited; [done| |auto]. eapply Forall_impl; [exact Hts|]. intros t [_ H]. auto.
  - apply (fine_nominal W id ts n Ho); [|done|].
    + eapply Forall_impl; [exact Hts|]. intros t [_ H]. auto.
    + eapply Forall_impl; [exact Hm|]. intros t [_ H]. apply H.
      intros j. rewrite !visited_cons, !orb_true_iff. naive_solver.
Qed.

Lemma parameter_substitution_length names ts us n t :
  length ts = length us → parameter_substitution names ts n = Some t →
  ∃ u, parameter_substitution names us n = Some u ∧ u ∈ us.
Proof.
  revert ts us t. induction names as [|m names IH]; intros ts us t Hl H; [done|].
  destruct ts as [|x ts]; [done|]. destruct us as [|y us]; [done|]. injection Hl as Hl. simpl in *.
  destruct (parameter_substitution names ts n) as [t'|] eqn:E.
  - destruct (IH ts us t' Hl E) as (u & Hu & Hin). exists u. rewrite Hu. split; [done|by right].
  - destruct (str_eqb n m); [|done].
    destruct (parameter_substitution names us n) as [u|] eqn:E'.
    + destruct (IH us ts u (eq_sym Hl) E') as (u' & Hu' & _). congruence.
    + exists y. split; [done|left].
Qed.

(** The arguments of a type matter only as far as they are fine. *)
Lemma fine_parametric V t : fine V t → ∀ m s s', t = substitute_type m s →
  (∀ n u, s n = Some u → ∃ u', s' n = Some u' ∧ fine V u') → fine V (substitute_type m s').
Proof.
  intros H. induction H as [V t Ht|V t Hf IH|V id ts Hn|V id ts Ho Hts Hv|V id ts n Ho Hts Hn Hm]
    using fine_nested_ind; intros m s s' Heq Hs; destruct m as [| | | | | | | | | |m| | | | | | | |k|j ms];
    simpl in Heq;
    try (destruct (s k) as [u|] eqn:Hk; simpl in Heq;
      [destruct (Hs k u Hk) as (u' & Hu' & Hf'); simpl; by rewrite Hu'|]);
    try discriminate Heq; try (subst t; discriminate Ht); try (subst t; by apply fine_plain).
  - injection Heq as ->. simpl. apply fine_list. by apply (IH m s).
  - injection Heq as -> ->. simpl. apply fine_uninhabited. intros n [Hl Hlen].
    apply (Hn n). split; [done|]. by rewrite !length_fmap in *.
  - injection Heq as -> ->. simpl. apply fine_visited; [done| |done].
    apply Forall_fmap. apply Forall_fmap in Hts. eapply Forall_impl; [exact Hts|].
    intros t [_ IH]. by apply (IH t s).
  - injection Heq as -> ->. simpl.
    assert (Forall (fine V) ((λ t, substitute_type t s') <$> ms)) as Hms.
    { apply Forall_fmap. apply Forall_fmap in Hts. eapply Forall_impl; [exact Hts|].
      intros t [_ IH]. by apply (IH t s). }
    apply (fine_nominal V j _ n Ho Hms).
    + destruct Hn as [? Hlen]. split; [done|]. by rewrite length_fmap in *.
    + unfold member_types in Hm |- *. rewrite Forall_fmap in Hm |- *.
      eapply Forall_impl; [exact Hm|]. intros t [_ IH]. eapply IH; [reflexivity|].
      intros k u Hk. apply (parameter_substitution_length _ _ ((λ t, substitute_type t s') <$> ms)) in Hk
        as (u' & Hu' & Hin); [|by rewrite !length_fmap].
      exists u'. split; [exact Hu'|]. eapply fine_mono; [by eapply Forall_forall|].
      intros i. rewrite visited_cons. intros ->. apply orb_true_r.
Qed.

(** An assumed declaration whose members are fine need not be assumed. *)
Lemma fine_discharge W t : fine W t → ∀ V id args n,
  (∀ j, visited W j = NominalTypeId_eqb j id || visited V j) →
  is_opaque_operational_nominal id = false → instance_of id args n → Forall (fine V) args →
  Forall (fine (id :: V)) (member_types n args) → fine V t.
Proof.
  intros H. induction H as [W t Ht|W t _ IH|W j ts Hn|W j ts Ho Hts Hv|W j ts m Ho Hts Hn Hm]
    using fine_nested_ind; intros V id args n HW Hid Hinst Hargs Hmem.
  - by apply fine_plain.
  - apply fine_list. by apply (IH V id args n).
  - by apply fine_uninhabited.
  - assert (Forall (fine V) ts) as Hts'.
    { eapply Forall_impl; [exact Hts|]. intros t [_ IH]. by apply (IH V id args n). }
    rewrite HW in Hv. destruct (visited V j) eqn:HVj; [by apply fine_visited|].
    rewrite orb_false_r in Hv. apply NominalTypeId_eqb_key in Hv as Hkey.
    destruct (decide (length ts = length args)) as [Hlen|Hlen]; cycle 1.
    { apply fine_uninhabited. intros n' [Hl' Hlen']. destruct Hinst as [Hl Hla].
      rewrite (lookup_key j id Hkey) in Hl'. simplify_eq. congruence. }
    apply (fine_nominal V j ts n Ho Hts').
    { destruct Hinst as [Hl Hla]. split; [by rewrite (lookup_key j id Hkey)|congruence]. }
    unfold member_types in Hmem |- *. rewrite Forall_fmap in Hmem |- *.
    eapply Forall_impl; [exact Hmem|]. intros t Hf. cbv beta in Hf |- *.
    assert (∀ i, visited (id :: V) i = true → visited (j :: V) i = true) as Hsub.
    { intros i. rewrite !visited_cons, !orb_true_iff, !NominalTypeId_eqb_key. rewrite Hkey. done. }
    apply (fine_mono (id :: V)); [|exact Hsub].
    eapply (fine_parametric _ _ Hf); [reflexivity|]. intros k u Hk.
    apply (parameter_substitution_length _ _ ts) in Hk as (u' & Hu' & Hin); [|done].
    exists u'. split; [exact Hu'|]. eapply fine_mono; [by eapply Forall_forall|].
    intros i. rewrite visited_cons. intros ->. apply orb_true_r.
  - apply (fine_nominal V j ts m Ho); [|done|].
    + eapply Forall_impl; [exact Hts|]. intros t [_ IH]. by apply (IH V id args n).
    + eapply Forall_impl; [exact Hm|]. intros t [_ IH].
      assert (∀ i, visited V i = true → visited (j :: V) i = true) as Hsub.
      { intros i. rewrite visited_cons. intros ->. apply orb_true_r. }
      apply (IH (j :: V) id args n); [|done|done| |].
      * intros i. rewrite !visited_cons, HW. destruct (NominalTypeId_eqb i j), (NominalTypeId_eqb i id); done.
      * eapply Forall_impl; [exact Hargs|]. intros u Hu. by apply (fine_mono V).
      * eapply Forall_impl; [exact Hmem|]. intros u Hu. apply (fine_mono (id :: V)); [done|].
        intros i. rewrite !visited_cons, !orb_true_iff. naive_solver.
Qed.

Lemma fine_members id ts n :
  fine [] (TNominal id ts) → instance_of id ts n →
  is_opaque_operational_nominal id = false ∧ Forall (fine []) (member_types n ts).
Proof.
  intros H Hinst. inversion H as [? ? Hp|? ? ?|? ? ? Hn|? ? ? ? ? Hv|? ? ? m Ho Hts [Hl Hlen] Hm]; subst;
    try discriminate; try (by destruct (Hn n)).
  destruct Hinst as [Hl' Hlen']. simplify_eq. split; [done|].
  eapply Forall_impl; [exact Hm|]. intros t Ht. by apply (fine_discharge _ t Ht [] id ts n).
Qed.

(** *** Values of equal types *)

Section Values.
Context {RuntimeError : Type}.

Notation Value := (Value RuntimeError).

Definition atomic_type (t : ValueType) : bool :=
  match t with TAny | TTypeParameter _ | TList _ | TNominal _ _ => false | _ => true end.

(** The members of a nominal value have the types its declaration gives them. *)
Inductive typed : ValueType → Value → Prop :=
| typed_any v : typed TAny v
| typed_parameter name v : typed (TTypeParameter name) v
| typed_atomic t v : atomic_type t = true → accepts t v = true → typed t v
| typed_list t vs : Forall (typed t) vs → typed (TList t) (VList vs)
| typed_record id ts n fields :
    instance_of id ts n →
    (∀ name v, (name, v) ∈ fields → ∃ t, t ∈ member_types n ts ∧ typed t v) →
    typed (TNominal id ts) (VNominalRecord id ts fields)
| typed_variant id ts n constructor payload :
    instance_of id ts n →
    (∀ v, v ∈ payload → ∃ t, t ∈ member_types n ts ∧ typed t v) →
    typed (TNominal id ts) (VVariant id ts constructor payload).

(** [w] is [v] or inside it, through lists and declared records and variants.
    What an untyped record, a table or an error holds is described by no type:
    those values are parts, their contents are not. *)
Inductive declared_part : Value → Value → Prop :=
| part_self v : declared_part v v
| part_list vs v w : v ∈ vs → declared_part v w → declared_part (VList vs) w
| part_record id ts fields name v w :
    (name, v) ∈ fields → declared_part v w → declared_part (VNominalRecord id ts fields) w
| part_variant id ts constructor payload v w :
    v ∈ payload → declared_part v w → declared_part (VVariant id ts constructor payload) w.

(** A callable or an operational handle. *)
Definition opaque_value (v : Value) : bool :=
  match v with
  | VCallable _ => true
  | VNominalRecord id _ _ | VVariant id _ _ _ => is_opaque_operational_nominal id
  | _ => false
  end.

Lemma typed_list_inv t vs :
  fine [] t → typed t (VList vs) → ∃ u, fine [] u ∧ Forall (typed u) vs.
Proof.
  intros Hf Ht. inversion Ht as [|?|? ? Ha Hacc|u ? Hl| |]; subst; [by inversion Hf..| |].
  - destruct t; try discriminate Ha; discriminate Hacc.
  - exists u. split; [by inversion Hf|done].
Qed.

Lemma typed_record_inv t id ts fields :
  fine [] t → typed t (VNominalRecord id ts fields) →
  is_opaque_operational_nominal id = false ∧
  ∀ name v, (name, v) ∈ fields → ∃ u, fine [] u ∧ typed u v.
Proof.
  intros Hf Ht. inversion Ht as [|?|? ? Ha Hacc| |? ? n ? Hn He|]; subst; [by inversion Hf..| |].
  - destruct t; try discriminate Ha; discriminate Hacc.
  - destruct (fine_members id ts n Hf Hn) as [Ho Hm]. rewrite list.Forall_forall in Hm. naive_solver.
Qed.

Lemma typed_variant_inv t id ts constructor payload :
  fine [] t → typed t (VVariant id ts constructor payload) →
  is_opaque_operational_nominal id = false ∧ ∀ v, v ∈ payload → ∃ u, fine [] u ∧ typed u v.
Proof.
  intros Hf Ht. inversion Ht as [|?|? ? Ha Hacc| | |? ? n ? ? Hn He]; subst; [by inversion Hf..| |].
  - destruct t; try discriminate Ha; discriminate Hacc.
  - destruct (fine_members id ts n Hf Hn) as [Ho Hm]. rewrite list.Forall_forall in Hm. naive_solver.
Qed.

Lemma typed_not_callable t c : fine [] t → ¬ typed t (VCallable c).
Proof.
  intros Hf Ht. inversion Ht as [|?|? ? Ha Hacc| | |]; subst; [by inversion Hf..|].
  destruct t; try discriminate Ha; try discriminate Hacc; inversion Hf; discriminate.
Qed.

Lemma fine_parts v w : declared_part v w → ∀ t, fine [] t → typed t v → opaque_value w = false.
Proof.
  induction 1 as [v|vs v w Hv _ IH|id ts fields name v w Hv _ IH|id ts k payload v w Hv _ IH];
    intros t Hf Ht.
  - destruct v; try done; [by eapply typed_record_inv|by eapply typed_variant_inv|].
    by eapply typed_not_callable in Ht.
  - destruct (typed_list_inv _ _ Hf Ht) as (u & ? & Hu). rewrite list.Forall_forall in Hu. eauto.
  - destruct (typed_record_inv _ _ _ _ Hf Ht) as [_ Hu]. destruct (Hu _ _ Hv) as (u & ? & ?). eauto.
  - destruct (typed_variant_inv _ _ _ _ _ Hf Ht) as [_ Hu]. destruct (Hu _ Hv) as (u & ? & ?). eauto.
Qed.

(** C10: [Equal] is decided soundly.  The question always has an answer,
    whatever the declarations refer to, themselves included; and when the
    answer is yes no value of the type is or holds a callable or an operational
    handle, at any depth of lists and of declared records and variants —
    although a declaration under examination is assumed for all its arguments
    at once.  What untyped records, tables and errors hold is excluded: no type
    describes it, and it may be anything ([equal_record_holds_callable]). *)
Theorem equal_types_sound (t : ValueType) :
  type_satisfies_constraint nominals no_parameter t EqualConstraint ≠ Panic ∧
  (type_satisfies_constraint nominals no_parameter t EqualConstraint = Ok true →
   ∀ v w : Value, typed t v → declared_part v w → opaque_value w = false).
Proof.
  split.
  - apply satisfies_equal_no_panic. unfold unvisited.
    pose proof (length_filter (λ e, visited [] e.1 = false) nominals). lia.
  - intros H%satisfies_fine v w Ht Hw. by eapply fine_parts.
Qed.

(** [Record] satisfies [Equal], and a record holds a callable as it holds
    anything else. *)
Lemma equal_record_holds_callable name (c : CallableRef) :
  type_satisfies_constraint nominals no_parameter TRecord EqualConstraint = Ok true ∧
  typed TRecord (VRecord [(name, VCallable c)]).
Proof. split; [done|by apply typed_atomic]. Qed.
End Values.
End Equal.

(** ** Instances *)

Definition id_of (name : str) : NominalTypeId := mkNominal (mkModuleId (bs "/m.opaal") Local) name.
Definition no_span : Span := mkSpan 0%Z 0 0.

(** A tree whose children are trees of lists: the declaration refers to itself
    at other arguments. *)
Definition tree_declaration : NominalType :=
  mkNominalType (id_of (bs "Tree")) no_span RecordKind
    [mkTypeParameter (bs "A") [] no_span]
    [mkField (bs "value") (TTypeParameter (bs "A")) no_span;
     mkField (bs "children")
       (TList (TNominal (id_of (bs "Tree")) [TList (TTypeParameter (bs "A"))])) no_span] [].
Definition tree : NominalTypes := [(id_of (bs "Tree"), tree_declaration)].

Lemma unify_exact_witness :
  unify_type (TList (TTypeParameter (bs "T"))) (TList TInt) no_substitutions =
    (true, bind_type (bs "T") TInt no_substitutions) ∧
  ∃ s', extends no_substitutions s' ∧ solves (TList (TTypeParameter (bs "T"))) (TList TInt) s'.
Proof.
  split; [reflexivity|].
  exact (proj1 (proj1 (unify_exact (TList (TTypeParameter (bs "T"))) (TList TInt) no_substitutions
    eq_refl eq_refl)) eq_refl).
Defined.

Lemma ordered_types_compare_witness :
  ∃ c, order (RuntimeError := str) (VList [VInt 1%Z]) (VList [VInt 2%Z; VInt 0%Z]) = Ok c ∧
    order (RuntimeError := str) (VList [VInt 2%Z; VInt 0%Z]) (VList [VInt 1%Z]) = Ok (CompOpp c).
Proof.
  apply (ordered_types_compare (RuntimeError := str) tree (TList TInt)); try reflexivity;
    unfold value_wf; simpl; unfold int_wf; lia.
Defined.

Lemma equal_types_sound_witness :
  type_satisfies_constraint tree no_parameter (TNominal (id_of (bs "Tree")) [TInt]) EqualConstraint = Ok true ∧
  opaque_value (RuntimeError := str) (VList []) = false.
Proof.
  assert (type_satisfies_constraint tree no_parameter (TNominal (id_of (bs "Tree")) [TInt]) EqualConstraint
    = Ok true) as H by (vm_compute; reflexivity).
  split; [exact H|].
  apply (proj2 (equal_types_sound (RuntimeError := str) tree (TNominal (id_of (bs "Tree")) [TInt])) H
    (VNominalRecord (id_of (bs "Tree")) [TInt] [(bs "value", VInt 1%Z); (bs "children", VList [])])).
  - apply (typed_record tree _ _ tree_declaration); [split; reflexivity|].
    intros name v [[= -> ->]|[[= -> ->]|[]%not_elem_of_nil]%elem_of_cons]%elem_of_cons.
    + exists TInt. split; [left|by apply typed_atomic].
    + eexists. split; [right; left|by apply typed_list].
  - eapply part_record; [right; left|apply part_self].
Defined.
