(* ===== verification/Catalog.v ===== *)
(** * The catalog of standard operations ([opaal-runtime/src/operation.rs],
    second part, and the call metadata of seam.rs)

    Descriptors with their overloads and callbacks, their validation, the
    selection of overloads for a call, and the operations the program ships.
    Help texts are left out. *)
From S2P Require Import Prelude Utf8 Source Ast Authority.
From S2P Require Import Path Order Compare Status Value Stream Convert.
From S2P Require Import Lifetime Float Operation Types.

Local Open Scope res_scope.

(** ** Metadata of calls *)

Record ActionId := mkActionId {
  action_module : ModuleId;
  action_name : str;
  action_contract_digest : str
}.
Record ProjectId := mkProjectId {
  project_name : str;
  project_manifest_path : str;
  project_root : str;
  project_manifest_digest : str
}.
Record TaskId := mkTaskId { task_project : ProjectId; task_name : str }.
Record ToolId := mkToolId { tool_project : ProjectId; tool_name : str }.
Record EnvironmentId := mkEnvironmentId { environment_project : ProjectId; environment_name : str }.

Inductive OpaqueSlotState := Absent | Unknown.

Record DownstreamCallMetadata := mkCallMetadata {
  evaluation_context : option EvaluationContextId;
  effects : EffectSet;
  capability_request : option CapabilityRequest;
  authority_verdict : option AuthorityVerdict;
  owning_resource : option ResourceOwnerId;
  cancellation_scope : option CancellationScopeId;
  call_deadline : option Deadline;
  action : option ActionId;
  project : option ProjectId;
  task : option TaskId;
  tool : option ToolId;
  environment : option EnvironmentId;
  declared_inputs : OpaqueSlotState;
  declared_outputs : OpaqueSlotState
}.

Definition foundation : DownstreamCallMetadata :=
  mkCallMetadata None EffectSet_default None None None None None None None None None None Absent Absent.

Definition with_declared_request (self : DownstreamCallMetadata) (request : CapabilityRequest)
    : DownstreamCallMetadata :=
  mkCallMetadata (evaluation_context self) (EffectSet_new [request]) (Some request)
    (authority_verdict self) (owning_resource self) (cancellation_scope self) (call_deadline self)
    (action self) (project self) (task self) (tool self) (environment self)
    (declared_inputs self) (declared_outputs self).

Definition is_none {A} (o : option A) : bool := match o with None => true | Some _ => false end.
Definition is_absent (s : OpaqueSlotState) : bool := match s with Absent => true | Unknown => false end.

Definition is_foundation_only (self : DownstreamCallMetadata) : bool :=
  is_none (evaluation_context self) && EffectSet_is_empty (effects self) &&
  is_none (capability_request self) && is_none (authority_verdict self) &&
  is_none (owning_resource self) && is_none (cancellation_scope self) &&
  is_none (call_deadline self) && is_none (action self) && is_none (project self) &&
  is_none (task self) && is_none (tool self) && is_none (environment self) &&
  is_absent (declared_inputs self) && is_absent (declared_outputs self).

(** ** Descriptors *)

Record OperationId := mkOperationId { operation_module : ModuleId; operation_name : str }.

Definition qualified_name (id : OperationId) : str :=
  from_utf8_lossy (module_path (operation_module id)) ++ bs "::" ++ operation_name id.

Inductive OperationInputType :=
| InputValue (t : ValueType)
| InputValueStream (t : ValueType).

Definition input_type (input : OperationInputType) : ValueType :=
  match input with InputValue t | InputValueStream t => t end.

Record OperationCallback := mkCallback { callback_parameters : list ValueType; callback_result : ValueType }.

Record OperationParameter := mkParameter {
  op_parameter_name : str;
  op_parameter_input : OperationInputType;
  op_parameter_callback : option OperationCallback
}.

Record OperationOverload := mkOverload {
  overload_input : OperationInputType;
  overload_parameters : list OperationParameter;
  overload_result : ValueType
}.

Definition OperationOverload_new (input : OperationInputType) (result : ValueType) : OperationOverload :=
  mkOverload input [mkParameter (bs "input") input None] result.

Definition overload_values (parameters : list (str * ValueType)) (result : ValueType) : OperationOverload :=
  let parameters := (λ '(name, t), mkParameter name (InputValue t) None) <$> parameters in
  mkOverload
    (match parameters with p :: _ => op_parameter_input p | [] => InputValue TNull end)
    parameters result.

Inductive OperationPurity := Pure | RequiresAuthorityContract.

Inductive StandardOperation :=
| RandomInt | RandomFloat | RandomBytes | Io | Abs | Min | Max | Clamp | Floor | Ceil | Round | Sqrt
| Length | Trim | Split | Join | Contains | StartsWith | EndsWith | Replace | DecodeUtf8
| Map | Filter | Fold | Any | All | Count | Find | Sort | SortBy | Take | Drop | Reverse
| RecordKeys | RecordHas | RecordGetOr | RecordSelect | RecordSet | RecordMerge
| TomlDecode | DataGet | JsonEncode | JsonDecode | DockerDecodeImage.

#[export] Instance StandardOperation_eq_dec : EqDecision StandardOperation.
Proof. solve_decision. Defined.

Definition is_math (self : StandardOperation) : bool :=
  match self with Abs | Min | Max | Clamp | Floor | Ceil | Round | Sqrt => true | _ => false end.

Record OperationDescriptor := mkDescriptor {
  descriptor_id : OperationId;
  type_parameters : list str;
  overloads : list OperationOverload;
  purity : OperationPurity;
  downstream : DownstreamCallMetadata;
  implementation : StandardOperation
}.

Inductive OperationDescriptorError :=
| EmptyOverloadSet
| DuplicateTypeParameter (name : str)
| UnknownTypeParameter (name : str)
| OverlappingOverloads.

Definition type_parameter_constraints (self : OperationDescriptor) (name : str) : list TypeConstraint :=
  match implementation self with
  | Sort => if str_eqb name (bs "T") then [OrderedConstraint] else []
  | SortBy => if str_eqb name (bs "K") then [OrderedConstraint] else []
  | _ => []
  end.

Definition type_parameter_labels (self : OperationDescriptor) : list str :=
  (λ name, match type_parameter_constraints self name with
           | [] => name
           | _ => name ++ bs ": Ordered"
           end) <$> type_parameters self.

Definition input_text (input : OperationInputType) : str :=
  match input with
  | InputValue t => type_text t
  | InputValueStream t => bs "ValueStream[" ++ type_text t ++ bs "]"
  end.

Definition parameter_label (parameter : OperationParameter) : str :=
  match op_parameter_callback parameter with
  | Some callback =>
    op_parameter_name parameter ++ bs ": Callable(" ++
    joined_by_commas (type_text <$> callback_parameters callback) ++ bs ") -> " ++
    type_text (callback_result callback)
  | None => op_parameter_name parameter ++ bs ": " ++ input_text (op_parameter_input parameter)
  end.

Definition signature_labels (self : OperationDescriptor) : list str :=
  (λ overload,
    qualified_name (descriptor_id self) ++
    (match type_parameters self with
     | [] => []
     | _ => bs "[" ++ joined_by_commas (type_parameter_labels self) ++ bs "]"
     end) ++
    bs "(" ++ joined_by_commas (parameter_label <$> overload_parameters overload) ++ bs ") -> " ++
    type_text (overload_result overload)) <$> overloads self.

(** ** Validation *)

Fixpoint each_ok {E A} (f : A → res E unit) (l : list A) : res E unit :=
  match l with
  | [] => Ok tt
  | x :: l => let* _ := f x in each_ok f l
  end.

Fixpoint validate_type_parameters (t : ValueType) (declared : list str)
    : res OperationDescriptorError unit :=
  match t with
  | TTypeParameter name =>
    if existsb (str_eqb name) declared then Ok tt else Err (UnknownTypeParameter name)
  | TList element => validate_type_parameters element declared
  | TNominal _ arguments => each_ok (λ argument, validate_type_parameters argument declared) arguments
  | _ => Ok tt
  end.

Definition types_overlap_all (overlap : ValueType → ValueType → bool)
    : list ValueType → list ValueType → bool :=
  fix go ls rs :=
    match ls, rs with
    | l :: ls, r :: rs => overlap l r && go ls rs
    | _, _ => true
    end.

Fixpoint types_overlap (l r : ValueType) : bool :=
  match l, r with
  | TAny, _ | TTypeParameter _, _ | _, TAny | _, TTypeParameter _ => true
  | TList l, TList r => types_overlap l r
  | TNominal i ls, TNominal j rs =>
    NominalTypeId_eqb i j && (length ls =? length rs) && types_overlap_all types_overlap ls rs
  | _, _ => ValueType_eqb l r
  end.

Definition inputs_overlap (l r : OperationInputType) : bool :=
  match l, r with
  | InputValue l, InputValue r | InputValueStream l, InputValueStream r => types_overlap l r
  | _, _ => false
  end.

(** [zip(..).all(..)]. *)
Fixpoint all_pairs {A B} (f : A → B → bool) (l : list A) (k : list B) : bool :=
  match l, k with
  | x :: l, y :: k => f x y && all_pairs f l k
  | _, _ => true
  end.

Definition overloads_overlap (l r : OperationOverload) : bool :=
  (length (overload_parameters l) =? length (overload_parameters r)) &&
  all_pairs (λ l r, inputs_overlap (op_parameter_input l) (op_parameter_input r))
    (overload_parameters l) (overload_parameters r).

Fixpoint check_names (seen names : list str) : res OperationDescriptorError unit :=
  match names with
  | [] => Ok tt
  | name :: names =>
    if existsb (str_eqb name) seen then Err (DuplicateTypeParameter name)
    else check_names (name :: seen) names
  end.

Definition validate_overload (declared : list str) (overload : OperationOverload)
    : res OperationDescriptorError unit :=
  let* _ := each_ok (λ parameter,
    let* _ := validate_type_parameters (input_type (op_parameter_input parameter)) declared in
    match op_parameter_callback parameter with
    | Some callback =>
      let* _ := each_ok (λ input, validate_type_parameters input declared)
        (callback_parameters callback) in
      validate_type_parameters (callback_result callback) declared
    | None => Ok tt
    end) (overload_parameters overload) in
  validate_type_parameters (overload_result overload) declared.

Fixpoint check_overlaps (os : list OperationOverload) : res OperationDescriptorError unit :=
  match os with
  | [] => Ok tt
  | l :: os =>
    if existsb (overloads_overlap l) os then Err OverlappingOverloads else check_overlaps os
  end.

Definition validate (self : OperationDescriptor) : res OperationDescriptorError unit :=
  match overloads self with
  | [] => Err EmptyOverloadSet
  | _ =>
    let* _ := check_names [] (type_parameters self) in
    let* _ := each_ok (validate_overload (type_parameters self)) (overloads self) in
    check_overlaps (overloads self)
  end.

(** ** Selecting overloads *)

Fixpoint call_types_compatible (expected actual : ValueType) : bool :=
  match expected, actual with
  | TAny, _ | TTypeParameter _, _ | _, TAny | _, TTypeParameter _ => true
  | TList expected, TList actual => call_types_compatible expected actual
  | _, _ => accepts_type expected actual
  end.

Definition input_compatible (substitutions : Substitutions) (expected actual : OperationInputType) : bool :=
  match expected, actual with
  | InputValue expected, InputValue actual | InputValueStream expected, InputValueStream actual =>
    call_types_compatible (substitute_type expected substitutions) actual
  | _, _ => false
  end.

(** [overload.parameters[index]]. *)
Definition parameter_input (index : nat) (overload : OperationOverload)
    : res Empty_set OperationInputType :=
  let* parameter := expect_some (overload_parameters overload !! index) in
  Ok (op_parameter_input parameter).

Fixpoint retain {E A} (f : A → res E bool) (l : list A) : res E (list A) :=
  match l with
  | [] => Ok []
  | x :: l =>
    let* keep := f x in
    let* l := retain f l in
    Ok (if keep then x :: l else l)
  end.

Definition RefusedArgument : Type := nat * OperationInputType.

Fixpoint resolve_loop (substitutions : Substitutions) (index : nat)
    (arguments : list (option OperationInputType)) (candidates : list OperationOverload)
    : res Empty_set (list OperationOverload + RefusedArgument) :=
  match arguments with
  | [] => Ok (inl candidates)
  | None :: arguments => resolve_loop substitutions (S index) arguments candidates
  | Some actual :: arguments =>
    let* expected :=
      match candidates with
      | [] => Ok None
      | overload :: _ => let* input := parameter_input index overload in Ok (Some input)
      end in
    let* candidates := retain (λ overload,
      let* expected := parameter_input index overload in
      Ok (input_compatible substitutions expected actual)) candidates in
    match candidates with
    | [] => Ok (inr (index, default actual expected))
    | _ => resolve_loop substitutions (S index) arguments candidates
    end
  end.

Definition resolve_call (self : OperationDescriptor) (arguments : list (option OperationInputType))
    (substitutions : Substitutions) : res Empty_set (list OperationOverload + RefusedArgument) :=
  resolve_loop substitutions 0 arguments
    (filter (λ overload, length (overload_parameters overload) = length arguments) (overloads self)).

Definition call_result (candidates : list OperationOverload) (substitutions : Substitutions) : ValueType :=
  match candidates with
  | [] => TAny
  | first :: _ =>
    let result := substitute_type (overload_result first) substitutions in
    if forallb (λ candidate,
        ValueType_eqb (substitute_type (overload_result candidate) substitutions) result) candidates
    then result
    else TAny
  end.

Definition takes_value (input : OperationInputType) : bool :=
  match input with InputValue _ => true | InputValueStream _ => false end.

(** The only value overload of an operation that is not arithmetic. *)
Definition inference_overload (self : OperationDescriptor) : option OperationOverload :=
  if is_math (implementation self) then None
  else
    match filter (λ overload, takes_value (overload_input overload) = true) (overloads self) with
    | [only] => Some only
    | _ => None
    end.

Definition call_arity (self : OperationDescriptor) : res Empty_set nat :=
  let* first := expect_some (overloads self !! 0) in Ok (length (overload_parameters first)).

(** ** Callbacks *)

Record CallbackShape := mkShape {
  shape_action : bool;
  shape_generics : list ResolvedTypeParameter;
  shape_parameters : list ValueType;
  shape_result : ValueType
}.

(** Messages carry the types they name; their wording is left out. *)
Inductive CallbackError :=
| CallbackIsAction
| CallbackArity (callback operation : nat)
| CallbackConflict (t u : ValueType)
| CallbackUninferred (generic : str)
| CallbackConstraint (actual : ValueType) (generic : str)
| CallbackParameter (parameter supplied : ValueType)
| CallbackResult (result output : ValueType).

Fixpoint contains_own_generic (self : CallbackShape) (t : ValueType) : bool :=
  match t with
  | TTypeParameter name =>
      existsb (λ parameter, str_eqb (parameter_name parameter) name) (shape_generics self)
  | TList element => contains_own_generic self element
  | TNominal _ arguments => existsb (contains_own_generic self) arguments
  | _ => false
  end.

Definition check_shape (self : CallbackShape) (relation : OperationCallback) : res CallbackError unit :=
  if shape_action self then Err CallbackIsAction
  else if negb (length (shape_parameters self) =? length (callback_parameters relation))
  then Err (CallbackArity (length (shape_parameters self)) (length (callback_parameters relation)))
  else Ok tt.

Fixpoint infer_loop (self : CallbackShape) (pairs : list (ValueType * ValueType))
    (substitutions : Substitutions) : res CallbackError Substitutions :=
  match pairs with
  | [] => Ok substitutions
  | (expected, actual) :: pairs =>
    if contains_own_generic self actual then infer_loop self pairs substitutions
    else
      match unify_type expected actual substitutions with
      | (true, substitutions) => infer_loop self pairs substitutions
      | (false, _) => Err (CallbackConflict actual expected)
      end
  end.

(** On an error the substitutions bound so far are kept by the caller, who
    drops them. *)
Definition infer_operation (self : CallbackShape) (relation : OperationCallback)
    (substitutions : Substitutions) : res CallbackError Substitutions :=
  let* _ := check_shape self relation in
  infer_loop self
    (combine (callback_parameters relation) (shape_parameters self) ++
     [(callback_result relation, shape_result self)]) substitutions.

Fixpoint unify_loop (pairs : list (ValueType * ValueType)) (own : Substitutions)
    : res CallbackError Substitutions :=
  match pairs with
  | [] => Ok own
  | (parameter, supplied) :: pairs =>
    match unify_type parameter supplied own with
    | (true, own) => unify_loop pairs own
    | (false, _) => Err (CallbackConflict parameter supplied)
    end
  end.

Fixpoint generic_arguments (own : Substitutions) (satisfies : ValueType → TypeConstraint → bool)
    (generics : list ResolvedTypeParameter) : res CallbackError (list ValueType) :=
  match generics with
  | [] => Ok []
  | generic :: generics =>
    match own (parameter_name generic) with
    | None => Err (CallbackUninferred (parameter_name generic))
    | Some actual =>
      if existsb (λ constraint, negb (satisfies actual constraint)) (parameter_constraints generic)
      then Err (CallbackConstraint actual (parameter_name generic))
      else let* arguments := generic_arguments own satisfies generics in Ok (actual :: arguments)
    end
  end.

Definition instantiate (self : CallbackShape) (relation : OperationCallback)
    (operation_types : Substitutions) (satisfies : ValueType → TypeConstraint → bool)
    : res CallbackError (list ValueType) :=
  let* _ := check_shape self relation in
  let inputs := (λ input, substitute_type input operation_types) <$> callback_parameters relation in
  let output := substitute_type (callback_result relation) operation_types in
  let* own := unify_loop (combine (shape_parameters self) inputs ++ [(shape_result self, output)])
    no_substitutions in
  let* arguments := generic_arguments own satisfies (shape_generics self) in
  let* _ := each_ok (λ '(parameter, supplied),
    if accepts_type (substitute_type parameter own) supplied then Ok tt
    else Err (CallbackParameter (substitute_type parameter own) supplied))
    (combine (shape_parameters self) inputs) in
  let result := substitute_type (shape_result self) own in
  if negb (ValueType_eqb result TAny) && negb (accepts_type output result)
  then Err (CallbackResult result output)
  else Ok arguments.

(** ** Execution *)

Section Execution.
Context {RuntimeError : Type}.

Notation Value := (Value RuntimeError).

Definition length_value (self : OperationDescriptor) (n : nat) : res OperationError Value :=
  if (Z.of_nat n <=? I64_MAX)%Z then Ok (VInt (Z.of_nat n))
  else Err (LengthOverflow (qualified_name (descriptor_id self))).

Definition execute_value_with_types (self : OperationDescriptor) (value : Value)
    (type_arguments : list ValueType) : res OperationError Value :=
  if negb (is_empty type_arguments) &&
     negb (length type_arguments =? length (type_parameters self))
  then Err (GenericArity (qualified_name (descriptor_id self)) (length (type_parameters self))
              (length type_arguments))
  else
    let substitutions := parameter_substitution (type_parameters self) type_arguments in
    if negb (existsb (λ overload,
        match overload_input overload with
        | InputValue expected => accepts (substitute_type expected substitutions) value
        | InputValueStream _ => false
        end) (overloads self))
    then Err (NoMatchingOverload (qualified_name (descriptor_id self))
                (bs "Value(" ++ family_name value ++ bs ")"))
    else if bool_decide (implementation self = Length) then
      match value with
      | VList values => length_value self (length values)
      | _ => Panic
      end
    else Err (HostContextRequired (bs "budgeted pure operation")).

Definition execute_value (self : OperationDescriptor) (value : Value) : res OperationError Value :=
  execute_value_with_types self value [].

Inductive OperationStreamPrimary :=
| StreamValue (v : Value)
| StreamLimitExceeded (limit : nat)
| StreamFailed (e : RuntimeError)
| StreamCancelled (r : CancelReason)
| StreamViolation (c : StreamContractViolation)
| StreamRejected (e : OperationError)
| StreamCleanupFailed (failure : str).

Record OperationStreamOutcome := mkStreamOutcome {
  primary : OperationStreamPrimary;
  delivered_items : nat;
  cleanup_failure : option str
}.

Definition finish_stream_operation (s : ValueStream RuntimeError) (p : OperationStreamPrimary)
    (delivered : nat) : OperationStreamOutcome * ValueStream RuntimeError :=
  let '(closed, s) := close s in
  let failure := match closed with Err failure => Some failure | _ => None end in
  (match p, failure with
   | StreamValue _, Some failure => mkStreamOutcome (StreamCleanupFailed failure) delivered None
   | _, _ => mkStreamOutcome p delivered failure
   end, s).

(** [remaining] is [item_limit - delivered_items]. *)
Fixpoint count_loop (self : OperationDescriptor) (item_limit remaining delivered : nat)
    (s : ValueStream RuntimeError) : OperationStreamPrimary * nat * ValueStream RuntimeError :=
  match pull_checked s, remaining with
  | (CItem _, s), 0 => (StreamLimitExceeded item_limit, delivered, s)
  | (CItem _, s), S remaining => count_loop self item_limit remaining (S delivered) s
  | (CEnd, s), _ =>
    (match length_value self delivered with
     | Ok value => StreamValue value
     | Err error => StreamRejected error
     | Panic => StreamRejected (LengthOverflow (qualified_name (descriptor_id self)))
     end, delivered, s)
  | (CFailed error, s), _ => (StreamFailed error, delivered, s)
  | (CCancelled reason, s), _ => (StreamCancelled reason, delivered, s)
  | (CContractViolation violation, s), _ => (StreamViolation violation, delivered, s)
  end.

(** The stream is dropped on return. *)
Definition execute_value_stream (self : OperationDescriptor) (s : ValueStream RuntimeError)
    (item_limit : nat) : res Empty_set (OperationStreamOutcome * ValueStream RuntimeError) :=
  if forallb (λ overload, takes_value (overload_input overload)) (overloads self) then
    let '(outcome, s) := finish_stream_operation s
      (StreamRejected (NoMatchingOverload (qualified_name (descriptor_id self)) (bs "ValueStream"))) 0 in
    Ok (outcome, drop_stream s)
  else if bool_decide (implementation self = Length) then
    let '(p, delivered, s) := count_loop self item_limit item_limit 0 s in
    let '(outcome, s) := finish_stream_operation s p delivered in
    Ok (outcome, drop_stream s)
  else Panic.

(** *** Arithmetic operations *)

Definition invalid (self : OperationDescriptor) (message : str) : OperationError :=
  InvalidArgument (qualified_name (descriptor_id self)) message.

Definition f64_clamp (value low high : f64) : f64 :=
  if f64_lt value low then low else if f64_lt high value then high else value.

(** The floats of a tuple: three slots, filled from the arguments. *)
Fixpoint float_arguments (arguments : list Value) : res OperationError (list f64) :=
  match arguments with
  | [] => Ok []
  | VFloat value :: arguments =>
    let* rest := float_arguments arguments in Ok (f64_from_bits value :: rest)
  | _ => Panic
  end.

Definition float_operation (self : OperationDescriptor) (values : list f64) : res OperationError f64 :=
  match implementation self, values with
  | Abs, [value] => Ok (f64_abs value)
  | Min, [l; r] => Ok (if f64_le l r then l else r)
  | Max, [l; r] => Ok (if f64_le r l then l else r)
  | Clamp, [value; low; high] =>
    if f64_lt high low then Err (invalid self (bs "minimum exceeds maximum"))
    else Ok (f64_clamp value low high)
  | Floor, [value] => Ok (f64_floor value)
  | Ceil, [value] => Ok (f64_ceil value)
  | Round, [value] => Ok (f64_round value)
  | Sqrt, [value] =>
    if f64_lt value f64_zero
    then Err (invalid self (bs "square root requires a nonnegative value"))
    else Ok (f64_sqrt value)
  | _, _ => Panic
  end.

Definition floats_operation (self : OperationDescriptor) (arguments : list Value) : res OperationError Value :=
  let* values := float_arguments (take 3 arguments) in
  if 3 <? length arguments then Panic
  else let* result := float_operation self values in float_value result.

Definition numeric_operation (self : OperationDescriptor) (arguments : list Value) : res OperationError Value :=
  match arguments with
  | [VInt value] =>
    if bool_decide (implementation self = Abs)
    then int_value (bs "abs") (checked_abs value)
    else floats_operation self arguments
  | [VInt l; VInt r] =>
    match implementation self with
    | Min => Ok (VInt (if (l <=? r)%Z then l else r))
    | Max => Ok (VInt (if (r <=? l)%Z then l else r))
    | _ => Panic
    end
  | [VInt value; VInt low; VInt high] =>
    if (high <? low)%Z then Err (invalid self (bs "minimum exceeds maximum"))
    else Ok (VInt (Z.max low (Z.min high value)))
  | _ => floats_operation self arguments
  end.
End Execution.

(** ** The operations of the standard modules *)

Definition type_T : ValueType := TTypeParameter (bs "T").
Definition type_U : ValueType := TTypeParameter (bs "U").
Definition type_A : ValueType := TTypeParameter (bs "A").
Definition type_K : ValueType := TTypeParameter (bs "K").

(** The row of a name in one of the tables of the code ([match name]). *)
Fixpoint find_row {X} (name : str) (rows : list (str * X)) : option X :=
  match rows with
  | [] => None
  | (key, row) :: rows => if str_eqb name key then Some row else find_row name rows
  end.

Definition plain_operation (module : ModuleId) (name : str) (p : OperationPurity)
    (d : DownstreamCallMetadata)
    (row : StandardOperation * list (str * ValueType) * ValueType) : OperationDescriptor :=
  let '(i, parameters, result) := row in
  mkDescriptor (mkOperationId module name) [] [overload_values parameters result] p d i.

Definition random_rows : list (str * (StandardOperation * list (str * ValueType) * ValueType)) :=
  [(bs "int", (RandomInt, [(bs "min", TInt); (bs "max", TInt)], TInt));
   (bs "float", (RandomFloat, [], TFloat));
   (bs "bytes", (RandomBytes, [(bs "count", TInt)], TBytes))].

Definition random_operation (module : ModuleId) (name : str) : option OperationDescriptor :=
  plain_operation module name RequiresAuthorityContract
    (with_declared_request foundation entropy_system) <$> find_row name random_rows.

Definition io_rows : list (str * (str * ValueType * ValueType * CapabilityRequest)) :=
  [(bs "read_stdin", (bs "max_bytes", TInt, TBytes, stdin_read));
   (bs "print", (bs "text", TAny, TNull, stdout_write));
   (bs "println", (bs "text", TAny, TNull, stdout_write));
   (bs "eprint", (bs "text", TAny, TNull, stderr_write));
   (bs "eprintln", (bs "text", TAny, TNull, stderr_write));
   (bs "write_stdout", (bs "bytes", TBytes, TNull, stdout_write));
   (bs "write_stderr", (bs "bytes", TBytes, TNull, stderr_write))].

Definition io_operation (module : ModuleId) (name : str) : option OperationDescriptor :=
  (λ '(parameter, argument, result, request),
    plain_operation module name RequiresAuthorityContract (with_declared_request foundation request)
      (Io, [(parameter, argument)], result)) <$> find_row name io_rows.

(** A function of homogeneous arguments has an overload for each family. *)
Definition math_rows : list (str * (StandardOperation * list str * bool)) :=
  [(bs "abs", (Abs, [bs "value"], true));
   (bs "min", (Min, [bs "left"; bs "right"], true));
   (bs "max", (Max, [bs "left"; bs "right"], true));
   (bs "clamp", (Clamp, [bs "value"; bs "min"; bs "max"], true));
   (bs "floor", (Floor, [bs "value"], false));
   (bs "ceil", (Ceil, [bs "value"], false));
   (bs "round", (Round, [bs "value"], false));
   (bs "sqrt", (Sqrt, [bs "value"], false))].

Definition math_operation (module : ModuleId) (name : str) : option OperationDescriptor :=
  (λ '(i, names, homogeneous),
    let families := if homogeneous : bool then [TInt; TFloat] else [TFloat] in
    mkDescriptor (mkOperationId module name) []
      ((λ family, overload_values ((λ n, (n, family)) <$> names) family) <$> families)
      Pure foundation i) <$> find_row name math_rows.

Definition list_rows
    : list (str * (StandardOperation * list str * list (str * ValueType) * option OperationCallback *
                   ValueType)) :=
  let predicate := Some (mkCallback [type_T] TBool) in
  let t := [bs "T"] in
  let items := (bs "input", TList type_T) in
  [(bs "map", (Map, [bs "T"; bs "U"], [items; (bs "transform", TAny)],
      Some (mkCallback [type_T] type_U), TList type_U));
   (bs "filter", (Filter, t, [items; (bs "predicate", TAny)], predicate, TList type_T));
   (bs "fold", (Fold, [bs "T"; bs "A"], [items; (bs "initial", type_A); (bs "combine", TAny)],
      Some (mkCallback [type_A; type_T] type_A), type_A));
   (bs "any", (Any, t, [items; (bs "predicate", TAny)], predicate, TBool));
   (bs "all", (All, t, [items; (bs "predicate", TAny)], predicate, TBool));
   (bs "count", (Count, t, [items; (bs "predicate", TAny)], predicate, TInt));
   (bs "find", (Find, t, [items; (bs "predicate", TAny)], predicate,
      TNominal (NominalTypeId_standard (bs "outcome") (bs "Option")) [type_T]));
   (bs "sort_by", (SortBy, [bs "T"; bs "K"], [items; (bs "key", TAny)],
      Some (mkCallback [type_T] type_K), TList type_T));
   (bs "sort", (Sort, t, [items], None, TList type_T));
   (bs "reverse", (Reverse, t, [items], None, TList type_T));
   (bs "take", (Take, t, [items; (bs "count", TInt)], None, TList type_T));
   (bs "drop", (Drop, t, [items; (bs "count", TInt)], None, TList type_T))].

(** The callback is that of the last parameter. *)
Fixpoint with_last_callback (callback : option OperationCallback) (parameters : list OperationParameter)
    : res OperationDescriptorError (list OperationParameter) :=
  match parameters with
  | [] => Panic
  | [p] => Ok [mkParameter (op_parameter_name p) (op_parameter_input p) callback]
  | p :: parameters =>
    let* parameters := with_last_callback callback parameters in Ok (p :: parameters)
  end.

Definition list_operation (module : ModuleId) (name : str)
    : option (res OperationDescriptorError OperationDescriptor) :=
  (λ '(i, generics, parameters, callback, result),
    let overload := overload_values parameters result in
    let* parameters := with_last_callback callback (overload_parameters overload) in
    Ok (mkDescriptor (mkOperationId module name) generics
      [mkOverload (overload_input overload) parameters (overload_result overload)] Pure foundation i))
  <$> find_row name list_rows.

Definition docker_operation (module : ModuleId) (name : str) : option OperationDescriptor :=
  plain_operation module name Pure foundation <$>
    find_row name [(bs "decode_image", (DockerDecodeImage, [(bs "document", TRecord)],
      TNominal (NominalTypeId_standard (bs "docker") (bs "Image")) []))].

Definition data_rows : list (str * (StandardOperation * list (str * ValueType) * ValueType)) :=
  [(bs "toml_decode", (TomlDecode, [(bs "input", TBytes)], TAny));
   (bs "get", (DataGet, [(bs "input", TAny); (bs "keys", TList TString)], TAny));
   (bs "json_encode", (JsonEncode, [(bs "input", TAny)], TBytes));
   (bs "json_decode", (JsonDecode, [(bs "input", TBytes)], TAny))].

Definition record_rows : list (str * (StandardOperation * list (str * ValueType) * ValueType)) :=
  [(bs "keys", (RecordKeys, [(bs "input", TRecord)], TList TString));
   (bs "has", (RecordHas, [(bs "input", TRecord); (bs "key", TString)], TBool));
   (bs "get_or", (RecordGetOr, [(bs "input", TRecord); (bs "key", TString); (bs "default", TAny)], TAny));
   (bs "select", (RecordSelect, [(bs "input", TRecord); (bs "keys", TList TString)], TRecord));
   (bs "set", (RecordSet, [(bs "input", TRecord); (bs "key", TString); (bs "value", TAny)], TRecord));
   (bs "merge", (RecordMerge, [(bs "left", TRecord); (bs "right", TRecord)], TRecord))].

Definition string_rows : list (str * (StandardOperation * list (str * ValueType) * ValueType)) :=
  [(bs "trim", (Trim, [(bs "input", TString)], TString));
   (bs "split", (Split, [(bs "input", TString); (bs "separator", TString)], TList TString));
   (bs "join", (Join, [(bs "input", TList TString); (bs "separator", TString)], TString));
   (bs "contains", (Contains, [(bs "input", TString); (bs "pattern", TString)], TBool));
   (bs "starts_with", (StartsWith, [(bs "input", TString); (bs "prefix", TString)], TBool));
   (bs "ends_with", (EndsWith, [(bs "input", TString); (bs "suffix", TString)], TBool));
   (bs "replace", (Replace, [(bs "input", TString); (bs "pattern", TString);
      (bs "replacement", TString)], TString));
   (bs "decode_utf8", (DecodeUtf8, [(bs "input", TBytes)], TString))].

Definition length_operation (module : ModuleId) : OperationDescriptor :=
  mkDescriptor (mkOperationId module (bs "length")) [bs "T"]
    [OperationOverload_new (InputValue (TList type_T)) TInt;
     OperationOverload_new (InputValueStream type_T) TInt] Pure foundation Length.

(** [descriptor.validate().expect(..)]. *)
Definition validated (d : OperationDescriptor) : res Empty_set (option OperationDescriptor) :=
  let* _ := expect (validate d) in Ok (Some d).

Definition validated_row (d : option OperationDescriptor) : res Empty_set (option OperationDescriptor) :=
  match d with Some d => validated d | None => Ok None end.

Definition standard_operation (module : ModuleId) (name : str)
    : res Empty_set (option OperationDescriptor) :=
  match module_origin module with
  | Local => Ok None
  | Standard namespace standard =>
    if negb (str_eqb namespace (bs "std")) then Ok None
    else if str_eqb standard (bs "random") then validated_row (random_operation module name)
    else if str_eqb standard (bs "io") then validated_row (io_operation module name)
    else if str_eqb standard (bs "math") then validated_row (math_operation module name)
    else if str_eqb standard (bs "list") then
      match list_operation module name with
      | Some d => let* d := expect d in validated d
      | None => Ok None
      end
    else if str_eqb standard (bs "docker") && str_eqb name (bs "decode_image") then
      validated_row (docker_operation module name)
    else if str_eqb standard (bs "data") then
      validated_row (plain_operation module name Pure foundation <$> find_row name data_rows)
    else if str_eqb standard (bs "record") then
      validated_row (plain_operation module name Pure foundation <$> find_row name record_rows)
    else if str_eqb standard (bs "string") then
      validated_row (plain_operation module name Pure foundation <$> find_row name string_rows)
    else if str_eqb standard (bs "value") && str_eqb name (bs "length") then
      validated (length_operation module)
    else Ok None
  end.

Definition standard_names : list str :=
  [bs "int"; bs "float"; bs "bytes"; bs "read_stdin"; bs "print"; bs "println"; bs "eprint";
   bs "eprintln"; bs "write_stdout"; bs "write_stderr"; bs "abs"; bs "min"; bs "max"; bs "clamp";
   bs "floor"; bs "ceil"; bs "round"; bs "sqrt"; bs "length"; bs "trim"; bs "split"; bs "join";
   bs "contains"; bs "starts_with"; bs "ends_with"; bs "replace"; bs "decode_utf8";
   bs "toml_decode"; bs "get"; bs "json_encode"; bs "json_decode"; bs "decode_image"; bs "map";
   bs "filter"; bs "fold"; bs "any"; bs "all"; bs "count"; bs "find"; bs "sort"; bs "sort_by";
   bs "take"; bs "drop"; bs "reverse"; bs "keys"; bs "has"; bs "get_or"; bs "select"; bs "set";
   bs "merge"].

Fixpoint filter_map_ok {E X Y} (f : X → res E (option Y)) (l : list X) : res E (list Y) :=
  match l with
  | [] => Ok []
  | x :: l =>
    let* y := f x in
    let* ys := filter_map_ok f l in
    Ok (match y with Some y => y :: ys | None => ys end)
  end.

Definition standard_operations (module : ModuleId) : res Empty_set (list OperationDescriptor) :=
  filter_map_ok (standard_operation module) standard_names.

Example standard_lists :
  (let* ds := standard_operations (ModuleId_standard (bs "std") (bs "list")) in
   Ok (operation_name ∘ descriptor_id <$> ds)) =
  Ok [bs "map"; bs "filter"; bs "fold"; bs "any"; bs "all"; bs "count"; bs "find"; bs "sort";
      bs "sort_by"; bs "take"; bs "drop"; bs "reverse"].
Proof. vm_compute. reflexivity. Qed.
Example clamp_labels :
  (let* d := standard_operation (ModuleId_standard (bs "std") (bs "math")) (bs "abs") in
   Ok (signature_labels <$> d)) =
  Ok (Some [bs "std::math::abs(value: Int) -> Int"; bs "std::math::abs(value: Float) -> Float"]).
Proof. vm_compute. reflexivity. Qed.
