(* ===== verification/CatalogFacts.v ===== *)
(** * Properties of the catalog: overloads never compete, every shipped
    operation is valid, callbacks fit what they are called with *)
From S2P Require Import Prelude Utf8 Source Ast Authority.
From S2P Require Import Path Order Compare Status Value ValueFacts Stream StreamFacts Convert.
From S2P Require Import Lifetime Float Operation Types TypesFacts Catalog.

Local Open Scope res_scope.

(** ** Overlap *)

Lemma types_overlap_all_Forall2 ls rs :
  Forall2 (λ l r, types_overlap l r = true) ls rs → types_overlap_all types_overlap ls rs = true.
Proof. induction 1 as [|l r ls rs H _ IH]; [done|]. simpl. by rewrite H. Qed.

(** Patterns with a common instance overlap. *)
Lemma instances_overlap l : ∀ r s s', substitute_type l s ≃ substitute_type r s' → types_overlap l r = true.
Proof.
  induction l as [l Hl|l IH|i ls IH] using ValueType_nested_ind; intros r s s' H.
  - destruct l; try done; destruct r; try done; exact H.
  - destruct r as [| | | | | | | | | |r| | | | | | | | |]; try done. exact (IH r s s' H).
  - destruct r as [| | | | | | | | | | | | | | | | | | |j rs]; try done.
    rewrite !substitute_nominal, same_nominal in H. destruct H as [Hi Hf].
    rewrite Forall2_fmap in Hf. simpl. rewrite Hi, (Forall2_length _ _ _ Hf), Nat.eqb_refl.
    apply types_overlap_all_Forall2. clear Hi.
    induction Hf as [|l r ls rs Hlr _ IHf]; [constructor|].
    apply Forall_cons in IH as [IHl IH]. constructor; [by apply (IHl r s s')|auto].
Qed.

(** A type without [Any] and without parameters, at any depth. *)
Fixpoint concrete (t : ValueType) : bool :=
  match t with
  | TAny | TTypeParameter _ => false
  | TList t => concrete t
  | TNominal _ ts => forallb concrete ts
  | _ => true
  end.

Lemma accepts_concrete e a : concrete a = true → accepts_type e a = true → e ≃ a ∨ no_any e = false.
Proof.
  revert a. induction e as [e He|e IH|i es _] using ValueType_nested_ind; intros a Ha Hacc.
  - destruct e; try done; try (left; destruct a; done). by right.
  - destruct a as [| | | | | | | | | |a| | | | | | | | |]; try done. exact (IH a Ha Hacc).
  - left. by destruct a.
Qed.

(** Overloads that take the same concrete argument overlap. *)
Lemma compatible_overlap l : ∀ r s a, concrete a = true →
  call_types_compatible (substitute_type l s) a = true →
  call_types_compatible (substitute_type r s) a = true → types_overlap l r = true.
Proof.
  induction l as [l Hl|l IH|i ls _] using ValueType_nested_ind; intros r s a Ha Hcl Hcr.
  - destruct l; try done; destruct r as [| | | | | | | | | |r| | | | | | | |m|j rs]; try done;
      destruct a; try discriminate Ha; try discriminate Hcl; discriminate Hcr.
  - destruct r as [| | | | | | | | | |r| | | | | | | |m|j rs]; try done;
      destruct a as [| | | | | | | | | |a| | | | | | | | |]; try discriminate Ha; try discriminate Hcl;
      try discriminate Hcr.
    exact (IH r s a Ha Hcl Hcr).
  - destruct r as [| | | | | | | | | |r| | | | | | | |m|j rs]; try done;
      destruct a as [| | | | | | | | | |a| | | | | | | |n|k us]; try discriminate Ha; try discriminate Hcl;
      try discriminate Hcr.
    apply (instances_overlap (TNominal i ls) (TNominal j rs) s s).
    transitivity (TNominal k us); [exact Hcl|symmetry; exact Hcr].
Qed.

(** ** Selecting overloads *)

Definition concrete_input (input : OperationInputType) : bool := concrete (input_type input).

(** The overloads that take a tuple of arguments, known or not. *)
Definition takes (s : Substitutions) (arguments : list (option OperationInputType))
    (o : OperationOverload) : bool :=
  (length (overload_parameters o) =? length arguments) &&
  all_pairs (λ p a, match a with
      | Some actual => input_compatible s (op_parameter_input p) actual
      | None => true
      end) (overload_parameters o) arguments.

Lemma inputs_overlap_compatible s l r a :
  concrete_input a = true → input_compatible s l a = true → input_compatible s r a = true →
  inputs_overlap l r = true.
Proof.
  destruct l, r, a; try done; simpl; intros Ha H1 H2; by eapply compatible_overlap.
Qed.

Lemma takes_overlap s arguments l r :
  Forall (λ a, ∃ actual, a = Some actual ∧ concrete_input actual = true) arguments →
  takes s arguments l = true → takes s arguments r = true → overloads_overlap l r = true.
Proof.
  unfold takes, overloads_overlap. rewrite !andb_true_iff, !Nat.eqb_eq.
  intros Hargs [Hl Hcl] [Hr Hcr]. split; [congruence|].
  revert Hl Hcl Hr Hcr. generalize (overload_parameters l) (overload_parameters r).
  induction Hargs as [|a arguments (actual & -> & Ha) _ IH]; intros ps qs Hl Hcl Hr Hcr.
  { by destruct ps. }
  destruct ps as [|p ps]; [done|]. destruct qs as [|q qs]; [done|]. simpl in *.
  rewrite andb_true_iff in Hcl, Hcr |- *. destruct Hcl as [H1 Hcl], Hcr as [H2 Hcr].
  split; [by eapply inputs_overlap_compatible|]. apply IH; auto.
Qed.

Lemma check_overlaps_unique s arguments os :
  Forall (λ a, ∃ actual, a = Some actual ∧ concrete_input actual = true) arguments →
  check_overlaps os = Ok tt → length (filter (λ o, takes s arguments o = true) os) ≤ 1.
Proof.
  intros Hargs. induction os as [|o os IH]; [simpl; lia|]. cbn [check_overlaps].
  destruct (existsb (overloads_overlap o) os) eqn:Hex; [done|]. intros Hc. rewrite filter_cons.
  destruct (decide (takes s arguments o = true)) as [Ho|]; [|by apply IH].
  assert (filter (λ o, takes s arguments o = true) os = []) as ->; [|simpl; lia].
  apply not_true_iff_false in Hex. clear IH Hc.
  induction os as [|o' os IH]; [done|]. rewrite filter_cons. simpl in Hex.
  rewrite orb_true_iff in Hex. rewrite decide_False; [apply IH; tauto|].
  intros Ho'. apply Hex. left. by eapply takes_overlap.
Qed.

Lemma filter_everything {X} (P : X → Prop) `{!∀ x, Decision (P x)} (l : list X) :
  (∀ x, P x) → filter P l = l.
Proof. intros Hall. induction l as [|x l IH]; [done|]. by rewrite filter_cons, decide_True, IH. Qed.

(** Arguments from [index] on. *)
Definition takes_from (s : Substitutions) (index : nat) (arguments : list (option OperationInputType))
    (o : OperationOverload) : bool :=
  all_pairs (λ p a, match a with
      | Some actual => input_compatible s (op_parameter_input p) actual
      | None => true
      end) (drop index (overload_parameters o)) arguments.

Lemma retain_filter {E X} (f : X → bool) (g : X → res E bool) l :
  Forall (λ x, g x = Ok (f x)) l → retain g l = Ok (filter (λ x, f x = true) l).
Proof.
  induction 1 as [|x l Hx _ IH]; [done|]. simpl. rewrite Hx, IH, filter_cons. simpl.
  by destruct (f x).
Qed.

(** The argument at [index], against one overload. *)
Definition takes_at (s : Substitutions) (index : nat) (actual : OperationInputType)
    (o : OperationOverload) : bool :=
  match overload_parameters o !! index with
  | Some p => input_compatible s (op_parameter_input p) actual
  | None => false
  end.

Lemma takes_from_nil s index o : takes_from s index [] o = true.
Proof. unfold takes_from. by destruct (drop index _). Qed.

Lemma takes_from_cons s index a arguments o :
  index < length (overload_parameters o) →
  takes_from s index (a :: arguments) o =
  match a with Some actual => takes_at s index actual o | None => true end &&
  takes_from s (S index) arguments o.
Proof.
  intros Hi. unfold takes_from, takes_at. destruct (lookup_lt_is_Some_2 _ _ Hi) as [p Hp].
  rewrite (drop_S _ p index Hp), Hp. done.
Qed.

Lemma parameter_input_takes s index actual o :
  index < length (overload_parameters o) →
  (let* expected := parameter_input index o in Ok (input_compatible s expected actual)) =
  Ok (takes_at s index actual o).
Proof.
  intros Hi. unfold parameter_input, takes_at. destruct (lookup_lt_is_Some_2 _ _ Hi) as [p Hp].
  by rewrite Hp.
Qed.

Lemma filter_and {X} (f g h : X → bool) (l : list X) :
  Forall (λ x, f x = g x && h x) l →
  filter (λ x, f x = true) l = filter (λ x, h x = true) (filter (λ x, g x = true) l).
Proof.
  induction 1 as [|x l Hx _ IH]; [done|]. rewrite !filter_cons, IH.
  destruct (g x) eqn:Hg; simpl in Hx.
  - rewrite (decide_True (P := true = true)) by done. rewrite filter_cons. by rewrite Hx.
  - rewrite Hx. by rewrite !decide_False.
Qed.

Lemma resolve_loop_spec s index arguments candidates :
  Forall (λ o, length (overload_parameters o) = index + length arguments) candidates →
  match resolve_loop s index arguments candidates with
  | Ok (inl cs) => cs = filter (λ o, takes_from s index arguments o = true) candidates
  | Ok (inr (i, _)) => index ≤ i < index + length arguments ∧
      filter (λ o, takes_from s index arguments o = true) candidates = []
  | _ => False
  end.
Proof.
  revert index candidates. induction arguments as [|a arguments IH]; intros index candidates Hlen.
  { simpl. symmetry. apply filter_everything. intros o. apply takes_from_nil. }
  assert (Forall (λ o, index < length (overload_parameters o)) candidates) as Hlt.
  { eapply Forall_impl; [exact Hlen|]. intros o ->. simpl. lia. }
  rewrite (filter_and _ (λ o, match a with Some actual => takes_at s index actual o | None => true end)
    (takes_from s (S index) arguments)) by
    (eapply Forall_impl; [exact Hlt|]; intros o; apply takes_from_cons).
  cbn [resolve_loop]. destruct a as [actual|].
  - set (expected := match candidates with [] => Ok None | overload :: _ =>
      let* input := parameter_input index overload in Ok (Some input) end : res Empty_set _).
    assert (∃ e, expected = Ok e) as [e ->].
    { subst expected. destruct candidates as [|o os]; [by eexists|].
      apply Forall_cons in Hlt as [Ho _]. unfold parameter_input.
      destruct (lookup_lt_is_Some_2 _ _ Ho) as [p ->]. by eexists. }
    cbn [res_bind]. rewrite (retain_filter (takes_at s index actual)) by
      (eapply Forall_impl; [exact Hlt|]; intros o; apply parameter_input_takes).
    cbn [res_bind]. set (kept := filter _ candidates).
    assert (Forall (λ o, length (overload_parameters o) = S index + length arguments) kept) as Hkept.
    { apply Forall_forall. intros o [_ Ho]%list_elem_of_filter. rewrite Forall_forall in Hlen.
      rewrite (Hlen o Ho). simpl. lia. }
    specialize (IH (S index) kept Hkept). destruct kept as [|o os]; [simpl; split; [lia|done]|].
    destruct (resolve_loop s (S index) arguments (o :: os)) as [[cs|[i e']]| |]; try done.
    simpl. destruct IH as [Hi Hf]. split; [lia|done].
  - assert (filter (λ _ : OperationOverload, true = true) candidates = candidates) as ->
      by (by apply filter_everything).
    assert (Forall (λ o, length (overload_parameters o) = S index + length arguments) candidates) as Hc.
    { eapply Forall_impl; [exact Hlen|]. intros o ->. simpl. lia. }
    specialize (IH (S index) candidates Hc).
    destruct (resolve_loop s (S index) arguments candidates) as [[cs|[i e']]| |]; try done.
    simpl. destruct IH as [Hi Hf]. split; [lia|done].
Qed.

(** C12: A call selects exactly the overloads that take its arguments, those
    whose type is not known fitting everywhere; it is refused, naming one of
    its arguments, only when no overload takes it.  In a descriptor that
    passed validation a call with fully known arguments never has two
    candidates. *)
Theorem resolve_call_exact (d : OperationDescriptor) (arguments : list (option OperationInputType))
    (s : Substitutions) :
  validate d = Ok tt →
  let matching := filter (λ o, takes s arguments o = true) (overloads d) in
  (resolve_call d arguments s = Ok (inl matching) ∨
   ∃ i e, resolve_call d arguments s = Ok (inr (i, e)) ∧ i < length arguments ∧ matching = []) ∧
  (Forall (λ a, ∃ actual, a = Some actual ∧ concrete_input actual = true) arguments →
   length matching ≤ 1).
Proof.
  intros Hv matching. split.
  - unfold resolve_call.
    set (candidates := filter (λ o, length (overload_parameters o) = length arguments) (overloads d)).
    assert (matching = filter (λ o, takes_from s 0 arguments o = true) candidates) as ->.
    { subst matching candidates. rewrite list_filter_filter. apply list_filter_iff. intros o.
      unfold takes. rewrite andb_true_iff, Nat.eqb_eq. unfold takes_from. rewrite drop_0. tauto. }
    pose proof (resolve_loop_spec s 0 arguments candidates) as Hr.
    destruct (resolve_loop s 0 arguments candidates) as [[cs|[i e]]| |].
    + left. do 2 f_equal. apply Hr. apply Forall_forall. intros o [Ho _]%list_elem_of_filter. exact Ho.
    + right. exists i, e. split; [done|].
      destruct Hr as [Hi Hf]; [|split; [lia|done]].
      apply Forall_forall. intros o [Ho _]%list_elem_of_filter. exact Ho.
    + destruct Hr. apply Forall_forall. intros o [Ho _]%list_elem_of_filter. exact Ho.
    + destruct Hr. apply Forall_forall. intros o [Ho _]%list_elem_of_filter. exact Ho.
  - intros Hargs. apply check_overlaps_unique; [done|].
    unfold validate in Hv. destruct (overloads d) as [|o os] eqn:Ho; [done|].
    apply res_bind_ok in Hv as (? & _ & Hv). by apply res_bind_ok in Hv as (? & _ & Hv).
Qed.

(** ** The shipped operations *)

(** A valid descriptor of one arity under its own name, listed, and with an
    effect exactly when it is not pure. *)
Definition shipped (module : ModuleId) (name : str) (d : OperationDescriptor) : Prop :=
  descriptor_id d = mkOperationId module name ∧ validate d = Ok tt ∧ name ∈ standard_names ∧
  (∃ arity, call_arity d = Ok arity ∧
    Forall (λ o, length (overload_parameters o) = arity) (overloads d)) ∧
  match purity d with
  | Pure => downstream d = foundation
  | RequiresAuthorityContract => ∃ request,
      capability_request (downstream d) = Some request ∧ effects (downstream d) = [request]
  end.

Lemma find_row_Forall {X} (P : str → X → Prop) name rows row :
  Forall (λ r, P r.1 r.2) rows → find_row name rows = Some row → P name row.
Proof.
  induction 1 as [|[key x] rows Hx _ IH]; [done|]. simpl. destruct (str_eqb name key) eqn:E; [|done].
  apply str_eqb_eq in E as ->. by intros [= <-].
Qed.

Ltac ship :=
  split_and!; [reflexivity|vm_compute; reflexivity|by apply (bool_decide_unpack _)|
    eexists; split; [reflexivity|repeat constructor]|
    first [reflexivity|eexists; split; vm_compute; reflexivity]].

Ltac ship_rows := repeat (apply Forall_cons_2; [ship|]); apply Forall_nil_2.

Lemma random_shipped module name d : random_operation module name = Some d → shipped module name d.
Proof.
  unfold random_operation. rewrite fmap_Some. intros (row & Hrow & ->). revert Hrow.
  apply (find_row_Forall (λ name row, shipped module name (plain_operation module name _ _ row))).
  ship_rows.
Qed.

Lemma io_shipped module name d : io_operation module name = Some d → shipped module name d.
Proof.
  unfold io_operation. rewrite fmap_Some. intros (row & Hrow & ->). revert Hrow.
  apply (find_row_Forall (λ name row, shipped module name (let '(p, a, r, q) := row in
    plain_operation module name _ (with_declared_request foundation q) (Io, [(p, a)], r)))).
  ship_rows.
Qed.

Lemma math_shipped module name d : math_operation module name = Some d → shipped module name d.
Proof.
  unfold math_operation. rewrite fmap_Some. intros (row & Hrow & ->). revert Hrow.
  apply (find_row_Forall (λ name row, shipped module name (let '(i, names, homogeneous) := row in
    mkDescriptor (mkOperationId module name) []
      ((λ family, overload_values ((λ n, (n, family)) <$> names) family) <$>
        (if homogeneous : bool then [TInt; TFloat] else [TFloat])) Pure foundation i))).
  ship_rows.
Qed.

Lemma list_shipped module name r : list_operation module name = Some r → ∃ d, r = Ok d ∧ shipped module name d.
Proof.
  unfold list_operation. rewrite fmap_Some. intros (row & Hrow & ->). revert Hrow.
  apply (find_row_Forall (λ name row, ∃ d, (let '(i, generics, parameters, callback, result) := row in
    let* parameters' := with_last_callback callback
      (overload_parameters (overload_values parameters result)) in
    Ok (mkDescriptor (mkOperationId module name) generics
      [mkOverload (overload_input (overload_values parameters result)) parameters'
        (overload_result (overload_values parameters result))] Pure foundation i)) = Ok d ∧
    shipped module name d)).
  repeat (apply Forall_cons_2; [eexists; split; [reflexivity|ship]|]). apply Forall_nil_2.
Qed.

Lemma plain_shipped module rows name d :
  Forall (λ r, shipped module r.1 (plain_operation module r.1 Pure foundation r.2)) rows →
  plain_operation module name Pure foundation <$> find_row name rows = Some d → shipped module name d.
Proof.
  intros Hrows. rewrite fmap_Some. intros (row & Hrow & ->). revert Hrow.
  by apply (find_row_Forall (λ name row, shipped module name (plain_operation module name _ _ row))).
Qed.

Lemma validated_shipped module name (P : option OperationDescriptor) :
  (∀ d, P = Some d → shipped module name d) →
  ∃ o, validated_row P = Ok o ∧ ∀ d, o = Some d → shipped module name d.
Proof.
  intros H. destruct P as [d|]; [|by exists None]. exists (Some d). split; [|done].
  simpl. unfold validated. destruct (H d eq_refl) as (_ & -> & _). done.
Qed.

Lemma standard_operation_shipped module name :
  ∃ o, standard_operation module name = Ok o ∧ ∀ d, o = Some d → shipped module name d.
Proof.
  unfold standard_operation. destruct (module_origin module) as [|namespace standard]; [by exists None|].
  destruct (negb _); [by exists None|].
  repeat (match goal with |- context [if ?b then _ else _] => destruct b eqn:? end);
    try (apply validated_shipped; intros d).
  - apply random_shipped.
  - apply io_shipped.
  - apply math_shipped.
  - destruct (list_operation module name) as [r|] eqn:Hr; [|by exists None].
    destruct (list_shipped module name r Hr) as (d & -> & Hd). exists (Some d).
    split; [|by intros ? [= <-]]. simpl. unfold validated. destruct Hd as (_ & -> & _). done.
  - unfold docker_operation. apply plain_shipped. ship_rows.
  - apply plain_shipped. ship_rows.
  - apply plain_shipped. ship_rows.
  - apply plain_shipped. ship_rows.
  - exists (Some (length_operation module)). split; [by vm_compute|]. intros ? [= <-].
    match goal with H : _ && str_eqb name _ = true |- _ => apply andb_true_iff in H as [_ ->%str_eqb_eq] end.
    ship.
  - by exists None.
Qed.

Lemma filter_map_ok_spec {E X Y} (f : X → res E (option Y)) l :
  (∀ x, ∃ o, f x = Ok o) →
  ∃ ys, filter_map_ok f l = Ok ys ∧ ∀ y, y ∈ ys ↔ ∃ x, x ∈ l ∧ f x = Ok (Some y).
Proof.
  intros Hf. induction l as [|x l (ys & Hys & Hin)].
  { exists []. split; [done|]. intros y. split; [by intros ?%elem_of_nil|by intros (? & ?%elem_of_nil & _)]. }
  destruct (Hf x) as [o Ho]. simpl. rewrite Ho, Hys. simpl. eexists. split; [reflexivity|].
  intros y. destruct o as [y'|].
  - rewrite elem_of_cons, Hin. split.
    + intros [->|(z & ? & ?)]; [exists x; split; [left|done]|exists z; split; [by right|done]].
    + intros (z & [->|?]%elem_of_cons & Hz); [left; congruence|right; by exists z].
  - rewrite Hin. split; intros (z & ? & ?); exists z; (split; [|done]); [by right|].
    apply elem_of_cons in H as [->|]; [congruence|done].
Qed.

(** The catalog is closed and sound.  Asking for an operation never fails,
    its descriptor being valid; it carries the identity it was asked for, has
    one arity, and declares exactly one effect when it is not pure and none
    when it is.  The list of a module's operations holds exactly those that can
    be asked for by name. *)
Theorem standard_catalog_exact (module : ModuleId) :
  (∀ name, ∃ o, standard_operation module name = Ok o ∧
    ∀ d, o = Some d → shipped module name d) ∧
  ∃ ds, standard_operations module = Ok ds ∧
    ∀ d, d ∈ ds ↔ ∃ name, standard_operation module name = Ok (Some d).
Proof.
  split; [apply standard_operation_shipped|].
  destruct (filter_map_ok_spec (standard_operation module) standard_names) as (ds & Hds & Hin).
  { intros name. destruct (standard_operation_shipped module name) as (o & Ho & _). by exists o. }
  exists ds. split; [exact Hds|]. intros d. rewrite (Hin d). split.
  - intros (name & _ & H). by exists name.
  - intros [name H]. exists name. split; [|done].
    destruct (standard_operation_shipped module name) as (o & Ho & Hd).
    destruct (Hd d) as (_ & _ & Hn & _); [congruence|exact Hn].
Qed.

(** ** Instances *)

(** The absolute value of an integer and of a float are two overloads; a call
    with an integer has one. *)
Definition abs_descriptor : OperationDescriptor :=
  mkDescriptor (mkOperationId (ModuleId_standard (bs "std") (bs "math")) (bs "abs")) []
    [overload_values [(bs "value", TInt)] TInt; overload_values [(bs "value", TFloat)] TFloat]
    Pure foundation Abs.

Lemma resolve_call_exact_witness :
  resolve_call abs_descriptor [Some (InputValue TInt)] no_substitutions =
    Ok (inl [overload_values [(bs "value", TInt)] TInt]) ∧
  length (filter (λ o, takes no_substitutions [Some (InputValue TInt)] o = true)
    (overloads abs_descriptor)) ≤ 1.
Proof.
  destruct (resolve_call_exact abs_descriptor [Some (InputValue TInt)] no_substitutions eq_refl) as [_ H].
  split; [reflexivity|]. apply H. repeat constructor. by exists (InputValue TInt).
Defined.
