(* ===== verification/Evaluation.v ===== *)
(** * The evaluator's control state ([opaal-runtime/src/eval.rs])

    What every operation of the evaluator shares: the resource budget, the
    polls of the cancellation token and the allocator, as a state and error
    monad ([Eval]), with [check_cancel], [charge] and the retaining of bytes
    and items.  Then a calculus: [runs c m Q] says that [m], begun with any
    budget, ends in [Q] or is stopped, keeps every ceiling and spends at most
    [c]; [computes m r] that [m] is the pure result [r] except for stops. *)
From S2P Require Import Prelude Source Status Value Stream Float Operation Lifetime.

Local Open Scope Z_scope.

(** ** [ResourceBudget] *)

Record ResourceBudget := mkBudget {
  step_limit : option Z;
  used_steps : Z;
  call_depth_limit : option Z;
  call_depth : Z;
  peak_call_depth : Z;
  collection_item_limit : option Z;
  collection_items : Z;
  collection_byte_limit : option Z;
  collection_bytes : Z
}.

Definition DEFAULT_OPAAL_EVALUATION_STEPS : Z := 1000000.
Definition DEFAULT_OPAAL_CALL_DEPTH : Z := 256.
Definition DEFAULT_OPAAL_COLLECTION_ITEMS : Z := 1000000.
Definition DEFAULT_OPAAL_COLLECTION_BYTES : Z := 16 * 1024 * 1024.

Definition unlimited : ResourceBudget := mkBudget None 0 None 0 0 None 0 None 0.
Definition budget_steps (steps : Z) : ResourceBudget := mkBudget (Some steps) 0 None 0 0 None 0 None 0.
Definition opaal : ResourceBudget :=
  mkBudget (Some DEFAULT_OPAAL_EVALUATION_STEPS) 0 (Some DEFAULT_OPAAL_CALL_DEPTH) 0 0
    (Some DEFAULT_OPAAL_COLLECTION_ITEMS) 0 (Some DEFAULT_OPAAL_COLLECTION_BYTES) 0.

Definition set_steps (b : ResourceBudget) (limit : option Z) (used : Z) : ResourceBudget :=
  mkBudget limit used (call_depth_limit b) (call_depth b) (peak_call_depth b)
    (collection_item_limit b) (collection_items b) (collection_byte_limit b) (collection_bytes b).
Definition set_depth (b : ResourceBudget) (limit : option Z) (depth peak : Z) : ResourceBudget :=
  mkBudget (step_limit b) (used_steps b) limit depth peak
    (collection_item_limit b) (collection_items b) (collection_byte_limit b) (collection_bytes b).
Definition set_items (b : ResourceBudget) (limit : option Z) (items : Z) : ResourceBudget :=
  mkBudget (step_limit b) (used_steps b) (call_depth_limit b) (call_depth b) (peak_call_depth b)
    limit items (collection_byte_limit b) (collection_bytes b).
Definition set_bytes (b : ResourceBudget) (limit : option Z) (bytes : Z) : ResourceBudget :=
  mkBudget (step_limit b) (used_steps b) (call_depth_limit b) (call_depth b) (peak_call_depth b)
    (collection_item_limit b) (collection_items b) limit bytes.

Definition with_step_ceiling (b : ResourceBudget) (limit : Z) : ResourceBudget :=
  set_steps b
    (Some match step_limit b with
          | Some existing => if existing <? limit then existing else limit
          | None => limit
          end) (used_steps b).
Definition with_call_depth (b : ResourceBudget) (limit : Z) : ResourceBudget :=
  set_depth b (Some limit) (call_depth b) (peak_call_depth b).
Definition with_collection_items (b : ResourceBudget) (limit : Z) : ResourceBudget :=
  set_items b (Some limit) (collection_items b).
Definition with_collection_bytes (b : ResourceBudget) (limit : Z) : ResourceBudget :=
  set_bytes b (Some limit) (collection_bytes b).

(** [u64::checked_add]. *)
Definition u64_checked_add (a b : Z) : option Z := if U64_MAX <? a + b then None else Some (a + b).

Definition above (limit : option Z) (next : Z) : bool :=
  match limit with Some limit => limit <? next | None => false end.

(** The charges answer whether the budget allows them; the parameter is the
    receiver they leave behind. *)
Definition budget_charge (b : ResourceBudget) : bool * ResourceBudget :=
  match step_limit b with
  | Some limit =>
    if limit <=? used_steps b then (false, b)
    else (true, set_steps b (step_limit b) (used_steps b + 1))
  | None => (true, b)
  end.

Definition charge_collection_items (b : ResourceBudget) (amount : Z) : bool * ResourceBudget :=
  match u64_checked_add (collection_items b) amount with
  | None => (false, b)
  | Some next =>
    if above (collection_item_limit b) next then (false, b)
    else (true, set_items b (collection_item_limit b) next)
  end.

Definition charge_collection_bytes (b : ResourceBudget) (amount : Z) : bool * ResourceBudget :=
  match u64_checked_add (collection_bytes b) amount with
  | None => (false, b)
  | Some next =>
    if above (collection_byte_limit b) next then (false, b)
    else (true, set_bytes b (collection_byte_limit b) next)
  end.

Definition enter_call (b : ResourceBudget) : bool * ResourceBudget :=
  match u64_checked_add (call_depth b) 1 with
  | None => (false, b)
  | Some next =>
    if above (call_depth_limit b) next then (false, b)
    else (true, set_depth b (call_depth_limit b) next (Z.max (peak_call_depth b) next))
  end.

(** [None]: the depth was zero and the [expect] panics. *)
Definition leave_call (b : ResourceBudget) : option ResourceBudget :=
  if call_depth b <? 1 then None
  else Some (set_depth b (call_depth_limit b) (call_depth b - 1) (peak_call_depth b)).

(** ** Aborts and the monad *)

(** The kinds the modelled operations raise. *)
Inductive RuntimeErrorKind :=
| ResourceBudgetExceeded
| OperationFailed (e : OperationError)
| UserThrown (message : str)
| GenericInstantiation (message : str).

Inductive Abort :=
| AbortError (kind : RuntimeErrorKind) (span : Span)
| AbortCancelled (reason : CancelReason) (span : Span).

(** The environment of one operation: its token, the allocator's answer to the
    n-th reservation, the span of the call, and the sizes of the cells it
    reserves ([size_of]). *)
Class Control := mkControl {
  cancel : CancellationToken;
  allocates : nat → bool;
  call_span : Span;
  value_size : N;
  entry_size : N
}.

Definition size_of_value `{C : Control} : Z := Z.of_N value_size.
Definition size_of_entry `{C : Control} : Z := Z.of_N entry_size.

(** [size_of::<usize>()] and [usize::MAX] on a 64-bit target. *)
Definition size_of_usize : Z := 8.
Definition USIZE_MAX : Z := U64_MAX.

Record Evaluation := mkEvaluation {
  budget : ResourceBudget;
  polls : nat;
  reservations : nat
}.

Definition Eval (A : Type) : Type := Evaluation → res Abort A * Evaluation.

Definition ret {A} (a : A) : Eval A := λ s, (Ok a, s).
Definition throw {A} (e : Abort) : Eval A := λ s, (Err e, s).
Definition unreachable {A} : Eval A := λ s, (Panic, s).
Definition bind {A B} (m : Eval A) (k : A → Eval B) : Eval B :=
  λ s, let '(x, s) := m s in
    match x with Ok a => k a s | Err e => (Err e, s) | Panic => (Panic, s) end.
Definition lift {A} (r : res Abort A) : Eval A := λ s, (r, s).

Declare Scope eval_scope.
Delimit Scope eval_scope with eval.
Notation "'do*' x := m 'in' k" := (bind m (fun x => k))
  (at level 10, x name, m at level 100, k at level 200) : eval_scope.
Notation "'do*' ' p := m 'in' k" := (bind m (fun p => k))
  (at level 10, p strict pattern, m at level 100, k at level 200) : eval_scope.
Notation "m ';;' k" := (bind m (fun _ => k))
  (at level 100, k at level 200, right associativity) : eval_scope.
Local Open Scope eval_scope.

Section Evaluator.
Context `{C : Control}.

Definition with_budget (s : Evaluation) (b : ResourceBudget) : Evaluation :=
  mkEvaluation b (polls s) (reservations s).

(** [Evaluator::error], [Evaluator::operation]. *)
Definition eval_error {A} (kind : RuntimeErrorKind) : Eval A := throw (AbortError kind call_span).
Definition operation_error {A} (e : OperationError) : Eval A := eval_error (OperationFailed e).
Definition exceeded : Abort := AbortError ResourceBudgetExceeded call_span.

Definition check_cancel : Eval unit := λ s,
  let s' := mkEvaluation (budget s) (S (polls s)) (reservations s) in
  if is_cancelled cancel (polls s)
  then (Err (AbortCancelled (reason cancel (polls s)) call_span), s')
  else (Ok tt, s').

(** A charge of the budget, refused as the error it becomes. *)
Definition charging (f : ResourceBudget → bool * ResourceBudget) : Eval unit := λ s,
  let '(ok, b) := f (budget s) in
  (if ok then Ok tt else Err exceeded, with_budget s b).

Definition charge : Eval unit := charging budget_charge.
Definition retain_collection_bytes (amount : Z) : Eval unit :=
  charging (λ b, charge_collection_bytes b amount).
Definition retain_items (amount : Z) : Eval unit :=
  charging (λ b, charge_collection_items b amount).

(** [check_cancel] then [charge], the unit of bounded work. *)
Definition visit : Eval unit := check_cancel ;; charge.

(** [enter_call], the traversal, [leave_call] on every outcome. *)
Definition nested {A} (m : Eval A) : Eval A :=
  charging enter_call ;;
  λ s, let '(x, s) := m s in
    match leave_call (budget s) with
    | Some b => (x, with_budget s b)
    | None => (Panic, s)
    end.

(** [Vec::try_reserve_exact]: the allocator may refuse. *)
Definition try_reserve : Eval unit := λ s,
  let s' := mkEvaluation (budget s) (polls s) (S (reservations s)) in
  (if allocates (reservations s) then Ok tt else Err exceeded, s').

(** [usize::checked_mul], refused like an exhausted budget. *)
Definition checked_bytes (count size : Z) : Eval Z :=
  if USIZE_MAX <? count * size then throw exceeded else ret (count * size).

End Evaluator.

(** ** Costs

    What an operation may spend: steps, levels of calls, items and bytes; and
    the most it ever asks for in one charge. *)
Record Cost := mkCost {
  cost_steps : N; cost_depth : N; cost_items : N; cost_bytes : N; cost_ask : N
}.

Definition no_cost : Cost := mkCost 0 0 0 0 0.
Definition cost_add (c d : Cost) : Cost :=
  mkCost (cost_steps c + cost_steps d) (cost_depth c + cost_depth d)
    (cost_items c + cost_items d) (cost_bytes c + cost_bytes d) (cost_ask c `max` cost_ask d).
Definition cost_le (c d : Cost) : Prop :=
  (cost_steps c ≤ cost_steps d ∧ cost_depth c ≤ cost_depth d ∧
   cost_items c ≤ cost_items d ∧ cost_bytes c ≤ cost_bytes d ∧ cost_ask c ≤ cost_ask d)%N.
Definition steps (n : N) : Cost := mkCost n 0 0 0 0.
Definition deeper (c : Cost) : Cost :=
  mkCost (cost_steps c) (cost_depth c + 1) (cost_items c) (cost_bytes c) (cost_ask c).
Definition items_cost (n : N) : Cost := mkCost 0 0 n 0 n.
Definition bytes_cost (n : N) : Cost := mkCost 0 0 0 n n.
Infix "⊕" := cost_add (at level 50, left associativity) : eval_scope.

(** The counters are unsigned, and the peak is one. *)
Definition budget_wf (b : ResourceBudget) : Prop :=
  0 ≤ used_steps b ∧ 0 ≤ call_depth b ≤ peak_call_depth b ∧ 0 ≤ collection_items b ∧ 0 ≤ collection_bytes b.

Definition ceiling (limit : option Z) : Z :=
  match limit with Some l => Z.min l U64_MAX | None => U64_MAX end.

(** The budget still allows [c]. *)
Definition room (c : Cost) (b : ResourceBudget) : Prop :=
  (∀ l, step_limit b = Some l → used_steps b + Z.of_N (cost_steps c) ≤ l) ∧
  call_depth b + Z.of_N (cost_depth c) ≤ ceiling (call_depth_limit b) ∧
  collection_items b + Z.of_N (cost_items c) ≤ ceiling (collection_item_limit b) ∧
  collection_bytes b + Z.of_N (cost_bytes c) ≤ ceiling (collection_byte_limit b).

(** A ceiling is reached, up to what is asked for at once. *)
Definition full (ask : N) (b : ResourceBudget) : Prop :=
  (∃ l, step_limit b = Some l ∧ l ≤ used_steps b) ∨
  ceiling (call_depth_limit b) ≤ peak_call_depth b ∨
  ceiling (collection_item_limit b) < collection_items b + Z.of_N ask ∨
  ceiling (collection_byte_limit b) < collection_bytes b + Z.of_N ask.

(** One counter after another: it grew by at most [c] and not past its ceiling
    (a ceiling may have been tightened below what was used). *)
Definition counted (c : N) (top before after : Z) : Prop :=
  before ≤ after ≤ before + Z.of_N c ∧ after ≤ Z.max before top.

(** What every operation does to the control state. *)
Record advances (c : Cost) (s s' : Evaluation) : Prop := mkAdvances {
  same_limits :
    step_limit (budget s') = step_limit (budget s) ∧
    call_depth_limit (budget s') = call_depth_limit (budget s) ∧
    collection_item_limit (budget s') = collection_item_limit (budget s) ∧
    collection_byte_limit (budget s') = collection_byte_limit (budget s);
  steps_counted :
    used_steps (budget s) ≤ used_steps (budget s') ≤ used_steps (budget s) + Z.of_N (cost_steps c) ∧
    ∀ l, step_limit (budget s) = Some l →
      used_steps (budget s') ≤ Z.max (used_steps (budget s)) l;
  depth_restored : call_depth (budget s') = call_depth (budget s);
  peak_counted :
    peak_call_depth (budget s) ≤ peak_call_depth (budget s') ≤
      Z.max (peak_call_depth (budget s)) (ceiling (call_depth_limit (budget s)));
  items_counted : counted (cost_items c) (ceiling (collection_item_limit (budget s)))
    (collection_items (budget s)) (collection_items (budget s'));
  bytes_counted : counted (cost_bytes c) (ceiling (collection_byte_limit (budget s)))
    (collection_bytes (budget s)) (collection_bytes (budget s'));
  polls_advance : (polls s ≤ polls s')%nat;
  reservations_advance : (reservations s ≤ reservations s')%nat
}.

Section Calculus.
Context `{C : Control}.

(** The token said stop, or the allocator refused, or a ceiling was in the way:
    the budget had no room for the whole cost, and the one left behind is full. *)
Definition stopped {A} (c : Cost) (s s' : Evaluation) (x : res Abort A) : Prop :=
  (∃ n, (polls s ≤ n < polls s')%nat ∧ is_cancelled cancel n = true ∧
     x = Err (AbortCancelled (reason cancel n) call_span)) ∨
  (x = Err exceeded ∧
     (¬ room c (budget s) ∧ full (cost_ask c) (budget s') ∨
      ∃ n, (reservations s ≤ n < reservations s')%nat ∧ allocates n = false)).

Definition runs {A} (c : Cost) (m : Eval A) (Q : res Abort A → Prop) : Prop :=
  ∀ s, budget_wf (budget s) →
    advances c s (m s).2 ∧ (Q (m s).1 ∨ stopped c s (m s).2 (m s).1).

(** [m] returns a value in [P], or is stopped. *)
Definition returns {A} (c : Cost) (m : Eval A) (P : A → Prop) : Prop :=
  runs c m (λ x, ∃ a, x = Ok a ∧ P a).

(** [m] is [r], or is stopped; what it may spend is fixed beforehand, and no
    charge asks for more than [ask] items or bytes at once. *)
Definition computes {A} (ask : N) (m : Eval A) (r : res Abort A) : Prop :=
  ∃ c, (cost_ask c ≤ ask)%N ∧ runs c m (λ x, x = r).

(** ** Costs compose *)

Lemma cost_le_refl c : cost_le c c.
Proof. unfold cost_le. lia. Qed.

Lemma cost_le_add_l c d : cost_le c (c ⊕ d).
Proof. unfold cost_le. simpl. lia. Qed.

Lemma cost_le_add_r c d : cost_le d (c ⊕ d).
Proof. unfold cost_le. simpl. lia. Qed.

Lemma room_mono c d b : cost_le c d → room d b → room c b.
Proof.
  intros (H1 & H2 & H3 & H4 & _) (R1 & R2 & R3 & R4). split_and!; [|lia..].
  intros l Hl. specialize (R1 l Hl). lia.
Qed.

Lemma advances_mono c d s s' : cost_le c d → advances c s s' → advances d s s'.
Proof.
  intros (H1 & H2 & H3 & H4 & _) []. unfold counted in *.
  split; unfold counted; naive_solver lia.
Qed.

Lemma advances_wf c s s' : budget_wf (budget s) → advances c s s' → budget_wf (budget s').
Proof. intros (?&?&?&?) []. unfold counted, budget_wf in *. lia. Qed.

Lemma advances_refl s : advances no_cost s s.
Proof. split; unfold counted; simpl; naive_solver lia. Qed.

Lemma advances_trans c d s1 s2 s3 :
  advances c s1 s2 → advances d s2 s3 → advances (c ⊕ d) s1 s3.
Proof.
  intros [(L1 & L2 & L3 & L4) [S1 S1'] D1 P1 I1 B1 ? ?] [(M1 & M2 & M3 & M4) [S2 S2'] D2 P2 I2 B2 ? ?].
  unfold counted in *. rewrite L2 in P2. rewrite L3 in I2. rewrite L4 in B2. split; simpl.
  - split_and!; congruence.
  - split; [lia|]. intros l Hl. specialize (S1' l Hl). rewrite <- L1 in Hl.
    specialize (S2' l Hl). lia.
  - congruence.
  - lia.
  - unfold counted. lia.
  - unfold counted. lia.
  - lia.
  - lia.
Qed.

Lemma room_after c d s s' : advances c s s' → room (c ⊕ d) (budget s) → room d (budget s').
Proof.
  intros [(L1 & L2 & L3 & L4) [S1 S1'] D1 P1 I1 B1 ? ?] (R1 & R2 & R3 & R4). unfold counted in *.
  simpl in *. unfold room. rewrite L1, L2, L3, L4. split_and!; [|lia..].
  intros l Hl. specialize (R1 l Hl). lia.
Qed.

Lemma full_mono a a' b : (a ≤ a')%N → full a b → full a' b.
Proof. unfold full. intros Ha [H|[H|[H|H]]]; [by left|right..]; [by left|right; lia..]. Qed.

Lemma stopped_mono {A} c d s s' (x : res Abort A) :
  cost_le c d → stopped c s s' x → stopped d s s' x.
Proof.
  intros Hle [H|[-> [[H F]|H]]]; [by left|right; split; [done|]..]; [left|by right].
  split; [intros R; apply H; by apply (room_mono c d)|]. revert F. apply full_mono, Hle.
Qed.

(** ** Rules *)

Lemma runs_mono {A} c d (m : Eval A) Q R :
  runs c m Q → cost_le c d → (∀ x, Q x → R x) → runs d m R.
Proof.
  intros H Hle HQ s Hs. destruct (H s Hs) as [Ha Hx]. split; [by apply (advances_mono c)|].
  destruct Hx as [Hx|Hx]; [left; auto|right; by apply (stopped_mono c)].
Qed.

Lemma runs_ret {A} (a : A) (Q : res Abort A → Prop) : Q (Ok a) → runs no_cost (ret a) Q.
Proof. intros HQ s Hs. split; [apply advances_refl|by left]. Qed.

Lemma runs_lift {A} (r : res Abort A) (Q : res Abort A → Prop) : Q r → runs no_cost (lift r) Q.
Proof. intros HQ s Hs. split; [apply advances_refl|by left]. Qed.

Lemma runs_throw {A} e (Q : res Abort A → Prop) : Q (Err e) → runs no_cost (throw e) Q.
Proof. intros HQ s Hs. split; [apply advances_refl|by left]. Qed.

Lemma stopped_later {A B} c d s1 s2 s3 (x : res Abort A) (y : res Abort B) :
  advances c s1 s2 → advances d s2 s3 →
  (∀ e, x = Err e → y = Err e) → stopped d s2 s3 x → stopped (c ⊕ d) s1 s3 y.
Proof.
  intros H1 H2 Hxy. pose proof (polls_advance _ _ _ H1). pose proof (reservations_advance _ _ _ H1).
  intros [(n & Hn & Hc & Hx)|[Hx Hwhy]].
  - left. exists n. split_and!; [lia..|done|by apply Hxy].
  - right. split; [by apply Hxy|]. destruct Hwhy as [[Hno Hf]|(n & Hn & Hf)].
    + left. split; [intros R; apply Hno; by apply (room_after c d s1 s2)|].
      eapply full_mono; [|exact Hf]. simpl. lia.
    + right. exists n. split; [lia|done].
Qed.

Lemma stopped_now {A B} c d s1 s2 (x : res Abort A) (y : res Abort B) :
  (∀ e, x = Err e → y = Err e) → stopped c s1 s2 x → stopped (c ⊕ d) s1 s2 y.
Proof.
  intros Hxy. intros [(n & Hn & Hc & Hx)|[Hx Hwhy]].
  - left. exists n. split_and!; [lia..|done|by apply Hxy].
  - right. split; [by apply Hxy|]. destruct Hwhy as [[Hno Hf]|(n & Hn & Hf)].
    + left. split; [intros R; apply Hno; by apply (room_mono c (c ⊕ d)); [apply cost_le_add_l|]|].
      eapply full_mono; [|exact Hf]. simpl. lia.
    + right. exists n. split; [lia|done].
Qed.

Lemma runs_bind {A B} c d (m : Eval A) (k : A → Eval B) Q R :
  runs c m Q →
  (∀ a, Q (Ok a) → runs d (k a) R) →
  (∀ e, Q (Err e) → R (Err e)) → (Q Panic → R Panic) →
  runs (c ⊕ d) (bind m k) R.
Proof.
  intros Hm Hk He Hp s Hs. destruct (Hm s Hs) as [Ha Hx]. unfold bind.
  destruct (m s) as [x s'] eqn:Em. simpl in Ha, Hx.
  assert (advances (c ⊕ d) s s') as Ha' by (apply (advances_mono c); [apply cost_le_add_l|done]).
  destruct Hx as [Hx|Hx].
  - destruct x as [a|e|]; simpl; [|split; [done|left; auto]..].
    destruct (Hk a Hx s' (advances_wf c s s' Hs Ha)) as [Hb Hy]. split; [by eapply advances_trans|].
    destruct Hy as [Hy|Hy]; [by left|right]. by eapply stopped_later.
  - assert (stopped (c ⊕ d) s s' (A := B) (match x with Err e => Err e | _ => Panic end)) as Hy.
    { eapply stopped_now; [|exact Hx]. by intros e ->. }
    assert (∃ e, x = Err e) as [e ->] by (destruct Hx as [(n & _ & _ & ->)|[-> _]]; eauto).
    simpl. split; [done|right; exact Hy].
Qed.

(** The rule for a first part that never fails by itself. *)
Lemma runs_then {A B} c d (m : Eval A) (k : A → Eval B) P R :
  returns c m P → (∀ a, P a → runs d (k a) R) → runs (c ⊕ d) (bind m k) R.
Proof.
  intros Hm Hk. eapply runs_bind; [exact Hm| | |]; [|by intros e (a & ? & _)|by intros (a & ? & _)].
  intros a (a' & [= <-] & Ha). auto.
Qed.
End Calculus.

Section Rules.
Context `{C : Control}.
Local Open Scope eval_scope.

(** ** The primitives *)

Lemma check_cancel_returns : returns no_cost check_cancel (λ _, True).
Proof.
  intros s Hs. unfold check_cancel.
  assert (advances no_cost s (mkEvaluation (budget s) (S (polls s)) (reservations s))) as Ha.
  { split; unfold counted; simpl; naive_solver lia. }
  destruct (is_cancelled cancel (polls s)) eqn:E; (split; [exact Ha|]).
  - right. left. exists (polls s). simpl. split_and!; [lia..|done|done].
  - left. by exists tt.
Qed.

Lemma charging_returns c f :
  (∀ b, budget_wf b → f b = (false, b) ∧ ¬ room c b ∧ full (cost_ask c) b ∨
    (f b).1 = true ∧ ∀ p r, advances c (mkEvaluation b p r) (mkEvaluation (f b).2 p r)) →
  returns c (charging f) (λ _, True).
Proof.
  intros H [b p r] Hs. unfold charging, with_budget. simpl in *.
  destruct (H b Hs) as [(E & Hr)|[E Ha]].
  - rewrite E. simpl. split; [|right; right; split; [done|by left]].
    apply (advances_mono no_cost); [|apply advances_refl]. unfold cost_le. simpl. lia.
  - destruct (f b) as [ok b']. simpl in *. subst ok. split; [apply Ha|left; by exists tt].
Qed.

Lemma u64_checked_add_spec a b :
  u64_checked_add a b = None ∧ U64_MAX < a + b ∨ u64_checked_add a b = Some (a + b) ∧ a + b ≤ U64_MAX.
Proof. unfold u64_checked_add. destruct (Z.ltb_spec U64_MAX (a + b)); [by left|right; done]. Qed.

Lemma above_spec limit n : n ≤ U64_MAX → above limit n = false ↔ n ≤ ceiling limit.
Proof. destruct limit as [l|]; simpl; [rewrite Z.ltb_ge; lia|done]. Qed.

Lemma charge_returns : returns (steps 1) charge (λ _, True).
Proof.
  apply charging_returns. intros b (?&?&?&?). unfold budget_charge.
  destruct (step_limit b) as [l|] eqn:E.
  - destruct (Z.leb_spec l (used_steps b)).
    + left. split_and!; [done| |left; by exists l]. intros (R & _). specialize (R l E). simpl in R. lia.
    + right. split; [done|]. intros. split; unfold counted; simpl; try naive_solver lia.
  - right. split; [done|]. intros. split; unfold counted; simpl; naive_solver lia.
Qed.

Lemma retain_items_returns n : returns (items_cost n) (retain_items (Z.of_N n)) (λ _, True).
Proof.
  apply charging_returns. intros b (?&?&?&?). unfold charge_collection_items.
  destruct (u64_checked_add_spec (collection_items b) (Z.of_N n)) as [[-> ?]|[-> ?]].
  - left. split; [done|]. split.
    + destruct (collection_item_limit b) eqn:E; intros (? & ? & R & ?); rewrite E in R; simpl in *; lia.
    + right; right; left. simpl. destruct (collection_item_limit b); simpl; lia.
  - destruct (above _ _) eqn:E.
    + left. assert (¬ collection_items b + Z.of_N n ≤ ceiling (collection_item_limit b)) as Hno.
      { intros R. apply above_spec in R; [congruence|lia]. }
      split_and!; [done|by intros (? & ? & R & ?)|]. right; right; left. simpl. lia.
    + right. split; [done|]. apply above_spec in E; [|lia].
      intros. split; unfold counted; simpl; naive_solver lia.
Qed.

Lemma retain_bytes_returns n : returns (bytes_cost n) (retain_collection_bytes (Z.of_N n)) (λ _, True).
Proof.
  apply charging_returns. intros b (?&?&?&?). unfold charge_collection_bytes.
  destruct (u64_checked_add_spec (collection_bytes b) (Z.of_N n)) as [[-> ?]|[-> ?]].
  - left. split; [done|]. split.
    + destruct (collection_byte_limit b) eqn:E; intros (? & ? & ? & R); rewrite E in R; simpl in *; lia.
    + right; right; right. simpl. destruct (collection_byte_limit b); simpl; lia.
  - destruct (above _ _) eqn:E.
    + left. assert (¬ collection_bytes b + Z.of_N n ≤ ceiling (collection_byte_limit b)) as Hno.
      { intros R. apply above_spec in R; [congruence|lia]. }
      split_and!; [done|by intros (? & ? & ? & R)|]. right; right; right. simpl. lia.
    + right. split; [done|]. apply above_spec in E; [|lia].
      intros. split; unfold counted; simpl; naive_solver lia.
Qed.

Lemma retain_bytes_nonneg n : 0 ≤ n → returns (bytes_cost (Z.to_N n)) (retain_collection_bytes n) (λ _, True).
Proof. intros. rewrite <- (Z2N.id n) at 2 by done. apply retain_bytes_returns. Qed.

Lemma visit_returns : returns (steps 1) visit (λ _, True).
Proof.
  apply (runs_then no_cost (steps 1) _ _ (λ _, True)); [apply check_cancel_returns|].
  intros _ _. apply charge_returns.
Qed.

Lemma try_reserve_returns : returns no_cost try_reserve (λ _, True).
Proof.
  intros s Hs. unfold try_reserve. simpl.
  assert (advances no_cost s (mkEvaluation (budget s) (polls s) (S (reservations s)))) as Ha.
  { split; unfold counted; simpl; naive_solver lia. }
  split; [exact Ha|]. destruct (allocates (reservations s)) eqn:E; [left; by exists tt|].
  right. right. split; [done|]. right. exists (reservations s). simpl. split; [lia|done].
Qed.

(** A reservation whose size is no [usize] is refused, and no budget has room
    for it. *)
Lemma checked_bytes_returns count size :
  0 ≤ count → 0 ≤ size →
  returns (bytes_cost (Z.to_N (count * size)))
    (do* n := checked_bytes count size in retain_collection_bytes n) (λ _, True).
Proof.
  intros Hc Hz. assert (0 ≤ count * size) by nia. unfold checked_bytes, bind.
  destruct (Z.ltb_spec USIZE_MAX (count * size)) as [Hbig|Hsmall].
  - intros s Hs. simpl. split; [apply (advances_mono no_cost); [unfold cost_le; simpl; lia|apply advances_refl]|].
    destruct Hs as (?&?&?&?). unfold USIZE_MAX in Hbig.
    assert (ceiling (collection_byte_limit (budget s)) ≤ U64_MAX) by (destruct (collection_byte_limit (budget s)); simpl; lia).
    right. right. split; [done|]. left. split.
    + intros (? & ? & ? & R). simpl in *. lia.
    + right; right; right. simpl. lia.
  - intros s Hs. simpl. apply (retain_bytes_nonneg (count * size)); done.
Qed.

Lemma enter_call_spec b :
  budget_wf b →
  enter_call b = (false, b) ∧ ceiling (call_depth_limit b) < call_depth b + 1 ∨
  enter_call b = (true, set_depth b (call_depth_limit b) (call_depth b + 1)
    (Z.max (peak_call_depth b) (call_depth b + 1))) ∧ call_depth b + 1 ≤ ceiling (call_depth_limit b).
Proof.
  intros (?&?&?&?). unfold enter_call.
  destruct (u64_checked_add_spec (call_depth b) 1) as [[-> ?]|[-> ?]].
  { left. split; [done|]. destruct (call_depth_limit b); simpl; lia. }
  destruct (above _ _) eqn:E.
  - left. split; [done|]. destruct (Z.lt_ge_cases (ceiling (call_depth_limit b)) (call_depth b + 1)) as [|Hge]; [done|].
    apply above_spec in Hge; [congruence|lia].
  - right. split; [done|]. by apply above_spec in E.
Qed.

Lemma runs_nested {A} c (m : Eval A) Q : runs c m Q → runs (deeper c) (nested m) Q.
Proof.
  intros Hm s Hs. unfold nested, bind, charging.
  destruct (enter_call_spec (budget s) Hs) as [[-> Hno]|[-> Hok]]; simpl.
  { split.
    - destruct s. apply (advances_mono no_cost); [unfold cost_le; simpl; lia|apply advances_refl].
    - right. right. split; [done|]. left. destruct Hs as (?&?&?&?). split.
      + intros (? & R & ?). simpl in R. lia.
      + right; left. simpl. lia. }
  set (s1 := with_budget s _). destruct (Hm s1) as [Ha Hx].
  { destruct Hs as (?&?&?&?). subst s1. split_and!; simpl; lia. }
  destruct (m s1) as [x s2]. simpl in *. unfold leave_call.
  pose proof (depth_restored _ _ _ Ha) as Hd. subst s1. simpl in Hd. destruct Hs as (?&?&?&?).
  destruct (Z.ltb_spec (call_depth (budget s2)) 1); [lia|]. simpl. split.
  - destruct Ha as [(L1 & L2 & L3 & L4) [S1 S1'] D1 P1 I1 B1 ? ?]. unfold counted in *. simpl in *.
    split; unfold counted; simpl; try done; lia.
  - destruct Hx as [Hx|Hx]; [by left|right]. destruct Hx as [(n & Hn & Hc & Hx)|[Hx Hwhy]].
    + left. by exists n.
    + right. split; [done|]. destruct Hwhy as [[Hno Hf]|Hr]; [left|by right]. split; [|exact Hf].
      intros (R1 & R2 & R3 & R4). apply Hno. simpl in *. split_and!; simpl; try done. lia.
Qed.

(** ** Pure results *)

Section Pure.
Context {ask : N}.
Notation computes := (computes ask).

Lemma computes_of {A} c (m : Eval A) r : runs c m (λ x, x = r) → (cost_ask c ≤ ask)%N → computes m r.
Proof. intros. by exists c. Qed.

Lemma computes_free_of_charge {A} (m : Eval A) r : runs no_cost m (λ x, x = r) → computes m r.
Proof. intros H. apply (computes_of no_cost); [exact H|simpl; lia]. Qed.

Lemma computes_unreachable {A} : computes (@unreachable A) Panic.
Proof. apply computes_free_of_charge. intros s Hs. split; [apply advances_refl|by left]. Qed.

Lemma computes_ret {A} (a : A) : computes (ret a) (Ok a).
Proof. by apply computes_free_of_charge, runs_ret. Qed.

Lemma computes_throw {A} e : computes (throw (A := A) e) (Err e).
Proof. by apply computes_free_of_charge, runs_throw. Qed.

Lemma computes_lift {A} (r : res Abort A) : computes (lift r) r.
Proof. by apply computes_free_of_charge, runs_lift. Qed.

Lemma computes_bind {A B} (m : Eval A) (k : A → Eval B) r f :
  computes m r → (∀ a, r = Ok a → computes (k a) (f a)) → computes (bind m k) (res_bind r f).
Proof.
  intros (c & Hc & Hm) Hk. destruct r as [a|e|].
  - destruct (Hk a eq_refl) as (d & Hd & Hr). exists (c ⊕ d). split; [simpl; lia|].
    eapply runs_bind; [exact Hm|..]; [by intros ? [= ->]|done..].
  - exists (c ⊕ no_cost). split; [simpl; lia|].
    eapply runs_bind; [exact Hm|..]; [done|by intros ? [= ->]|done].
  - exists (c ⊕ no_cost). split; [simpl; lia|]. eapply runs_bind; [exact Hm|..]; done.
Qed.

Lemma computes_bind_ok {A B} (m : Eval A) (k : A → Eval B) a r :
  computes m (Ok a) → computes (k a) r → computes (bind m k) r.
Proof. intros Hm Hk. apply (computes_bind m k (Ok a) (λ _, r)); [done|]. by intros ? [= <-]. Qed.

Lemma computes_bind_err {A B} (m : Eval A) (k : A → Eval B) e :
  computes m (Err e) → computes (bind m k) (Err e).
Proof. intros Hm. by apply (computes_bind m k (Err e) (λ _, Panic)). Qed.

(** A part that returns nothing of interest. *)
Lemma computes_skip {A B} c (m : Eval A) (k : A → Eval B) P r :
  returns c m P → (cost_ask c ≤ ask)%N →
  (∃ d, (cost_ask d ≤ ask)%N ∧ ∀ a, P a → runs d (k a) (λ x, x = r)) → computes (bind m k) r.
Proof.
  intros Hm Hc (d & Hd & Hk). exists (c ⊕ d). split; [simpl; lia|]. by eapply runs_then.
Qed.

Lemma computes_unit {B} c (m : Eval unit) (k : unit → Eval B) P r :
  returns c m P → (cost_ask c ≤ ask)%N → computes (k tt) r → computes (bind m k) r.
Proof.
  intros Hm Hc (d & Hd & Hk). eapply computes_skip; [exact Hm|exact Hc|]. exists d.
  split; [done|]. by intros [] _.
Qed.

Lemma computes_visit {B} (k : unit → Eval B) r : computes (k tt) r → computes (bind visit k) r.
Proof. apply computes_unit with (1 := visit_returns). simpl. lia. Qed.

Lemma computes_check {B} (k : unit → Eval B) r : computes (k tt) r → computes (bind check_cancel k) r.
Proof. apply computes_unit with (1 := check_cancel_returns). simpl. lia. Qed.

Lemma computes_charge {B} (k : unit → Eval B) r : computes (k tt) r → computes (bind charge k) r.
Proof. apply computes_unit with (1 := charge_returns). simpl. lia. Qed.

Lemma computes_item {B} (k : unit → Eval B) r :
  (1 ≤ ask)%N → computes (k tt) r → computes (bind (retain_items 1) k) r.
Proof. intros Ha. apply computes_unit with (1 := retain_items_returns 1). simpl. lia. Qed.

Lemma computes_bytes {B} n (k : unit → Eval B) r :
  0 ≤ n ≤ Z.of_N ask → computes (k tt) r → computes (bind (retain_collection_bytes n) k) r.
Proof.
  intros [Hn Ha]. apply computes_unit with (1 := retain_bytes_nonneg n Hn). simpl. lia.
Qed.

Lemma computes_reserve {B} (k : unit → Eval B) r :
  computes (k tt) r → computes (bind try_reserve k) r.
Proof. apply computes_unit with (1 := try_reserve_returns). simpl. lia. Qed.

Lemma computes_nested {A} (m : Eval A) r : computes m r → computes (nested m) r.
Proof. intros (c & Hc & Hm). exists (deeper c). split; [done|]. by apply runs_nested. Qed.

Lemma computes_returns {A} (m : Eval A) a :
  computes m (Ok a) → ∃ c, (cost_ask c ≤ ask)%N ∧ returns c m (λ x, x = a).
Proof.
  intros (c & Hc & Hm). exists c. split; [done|].
  eapply runs_mono; [exact Hm|apply cost_le_refl|]. intros x ->. by exists a.
Qed.

Lemma bind_assoc {A B D} (m : Eval A) (k : A → Eval B) (l : B → Eval D) s :
  bind (bind m k) l s = bind m (λ a, bind (k a) l) s.
Proof. unfold bind. by destruct (m s) as [[] ?]. Qed.

Lemma computes_ext {A} (m m' : Eval A) r : (∀ s, m s = m' s) → computes m r → computes m' r.
Proof. intros H (c & Hc & Hm). exists c. split; [done|]. intros s Hs. rewrite <- H. by apply Hm. Qed.

Lemma computes_assoc {A B D} (m : Eval A) (k : A → Eval B) (l : B → Eval D) r :
  computes (bind m (λ a, bind (k a) l)) r → computes (bind (bind m k) l) r.
Proof. apply computes_ext. intros s. symmetry. apply bind_assoc. Qed.
End Pure.

Lemma computes_ask {A} (ask ask' : N) (m : Eval A) r :
  (ask ≤ ask')%N → computes ask m r → computes ask' m r.
Proof. intros Ha (c & Hc & Hm). exists c. split; [lia|done]. Qed.

(** *** With their costs *)

Lemma runs_ext {A} c (m m' : Eval A) Q : (∀ s, m s = m' s) → runs c m Q → runs c m' Q.
Proof. intros H Hm s Hs. rewrite <- H. by apply Hm. Qed.

Lemma runs_assoc {A B D} c (m : Eval A) (k : A → Eval B) (l : B → Eval D) Q :
  runs c (bind m (λ a, bind (k a) l)) Q → runs c (bind (bind m k) l) Q.
Proof. apply runs_ext. intros s. symmetry. apply bind_assoc. Qed.

Lemma runs_ret_then {A B} c (a : A) (k : A → Eval B) Q :
  runs c (k a) Q → runs c (bind (ret a) k) Q.
Proof. by apply runs_ext. Qed.

Lemma runs_unit {B} c d (m : Eval unit) (k : unit → Eval B) P Q :
  returns c m P → runs d (k tt) Q → runs (c ⊕ d) (bind m k) Q.
Proof. intros Hm Hk. eapply runs_then; [exact Hm|]. by intros [] _. Qed.

Lemma runs_cost {A} c d (m : Eval A) Q : runs c m Q → cost_le c d → runs d m Q.
Proof. intros H Hle. by apply (runs_mono c d m Q Q). Qed.

Lemma runs_weaken {A} c (m : Eval A) Q R : runs c m Q → (∀ x, Q x → R x) → runs c m R.
Proof. intros H HR. by apply (runs_mono c c m Q R); [|apply cost_le_refl|]. Qed.

Lemma returns_ret {A} (a : A) (P : A → Prop) : P a → returns no_cost (ret a) P.
Proof. intros HP. apply runs_ret. by exists a. Qed.

(** What [computes] promises when the token never trips and the allocator
    serves: the result, unless the budget left behind is full. *)
Lemma computes_free {A} ask (m : Eval A) r :
  computes ask m r → (∀ n, is_cancelled cancel n = false) → (∀ n, allocates n = true) →
  ∀ s, budget_wf (budget s) →
    (m s).1 = r ∨ (m s).1 = Err exceeded ∧ full ask (budget (m s).2).
Proof.
  intros (c & Ha & Hm) Hc Hr s Hs. destruct (Hm s Hs) as [_ [Hx|Hx]]; [by left|right].
  destruct Hx as [(n & _ & Hn & _)|[Hx [[_ Hf]|(n & _ & Hn)]]]; [by rewrite Hc in Hn| |by rewrite Hr in Hn].
  split; [exact Hx|]. by eapply full_mono.
Qed.
End Rules.

Fixpoint cost_mul (n : nat) (c : Cost) : Cost :=
  match n with 0%nat => no_cost | S n => (c ⊕ cost_mul n c)%eval end.

Lemma cost_mul_ask n c : (cost_ask (cost_mul n c) ≤ cost_ask c)%N.
Proof. induction n; simpl; lia. Qed.

Ltac cost_lia :=
  unfold cost_le, cost_add, steps, deeper, items_cost, bytes_cost, no_cost;
  cbn [cost_steps cost_depth cost_items cost_bytes cost_ask]; lia.

(** Step through the charges of a computation. *)
Ltac eval_step :=
  first
  [ apply computes_visit | apply computes_check | apply computes_charge | apply computes_item; [lia|]
  | apply computes_reserve | apply computes_bytes; [lia|] | apply computes_assoc
  | apply computes_ret | apply computes_throw | apply computes_lift ].
Ltac eval_steps := repeat eval_step.
