(* ===== verification/Strings.v ===== *)
(** * Operations on text ([opaal-runtime/src/eval/string_operations.rs])

    Scanning in charged chunks, the literal search with its prefix table, and
    the operations of [std::string].  Text is a byte list; a slice outside a
    character boundary and an index outside a table are panics. *)
From S2P Require Import Prelude Utf8 Source Status Value Stream Float Operation Types Catalog.
From S2P Require Import Lifetime Evaluation.

Local Open Scope eval_scope.

Definition CHUNK : Z := 4096.
Definition chunk_size : nat := Z.to_nat CHUNK.

(** [char::is_whitespace]: the Unicode property White_Space. *)
Definition is_whitespace (c : Z) : bool :=
  ((9 <=? c) && (c <=? 13) || (c =? 32) || (c =? 0x85) || (c =? 0xA0) || (c =? 0x1680) ||
   (0x2000 <=? c) && (c <=? 0x200A) || (c =? 0x2028) || (c =? 0x2029) || (c =? 0x202F) ||
   (c =? 0x205F) || (c =? 0x3000))%Z.

Section Strings.
Context {RuntimeError : Type} `{C : Control}.
Notation Value := (Value RuntimeError).

(** An index into a slice. *)
Definition at_index {A} (l : list A) (i : nat) : Eval A := lift (expect_some (l !! i)).
Definition slice_of (text : str) (a b : nat) : Eval str := lift (str_slice text a b).

(** ** [ScanWork]

    The bytes left of the unit that was charged last. *)
Fixpoint scan_visit (remaining : Z) (bytes : nat) : Eval Z :=
  match bytes with
  | 0 => ret remaining
  | S bytes =>
    do* remaining :=
      (if (remaining =? 0)%Z then visit ;; ret CHUNK else ret remaining) in
    scan_visit (remaining - 1)%Z bytes
  end.

(** ** [LiteralSearch] *)

Record LiteralSearch := mkSearch {
  pattern : str;
  prefix : list nat;
  cursor : nat;
  matched : nat;
  work : Z
}.

(** [while matched > 0 && byte != pattern[matched]]. *)
Fixpoint fall_back (fuel : nat) (pattern : str) (prefix : list nat) (byte : Z) (matched : nat) (work : Z)
    : Eval (nat * Z) :=
  match fuel with
  | 0 => unreachable
  | S fuel =>
    if 0 <? matched then
      do* expected := at_index pattern matched in
      if negb (byte =? expected)%Z then
        do* work := scan_visit work 1 in
        do* matched := at_index prefix (matched - 1) in
        fall_back fuel pattern prefix byte matched work
      else ret (matched, work)
    else ret (matched, work)
  end.

(** One byte: fall back, then extend the match if the byte continues it. *)
Definition advance_match (pattern : str) (prefix : list nat) (byte : Z) (matched : nat) (work : Z)
    : Eval (nat * Z) :=
  do* ' (matched, work) := fall_back (S matched) pattern prefix byte matched work in
  do* expected := at_index pattern matched in
  ret (if (byte =? expected)%Z then S matched else matched, work).

(** The prefix table, for the positions [index .. pattern.len()]. *)
Fixpoint build_prefix (fuel : nat) (pattern : str) (index : nat) (prefix : list nat) (matched : nat)
    (work : Z) : Eval (list nat * Z) :=
  match fuel with
  | 0 => ret (prefix, work)
  | S fuel =>
    do* work := scan_visit work 1 in
    do* byte := at_index pattern index in
    do* ' (matched, work) := advance_match pattern prefix byte matched work in
    build_prefix fuel pattern (S index) (prefix ++ [matched]) matched work
  end.

Definition LiteralSearch_new (pattern : str) : Eval LiteralSearch :=
  check_cancel ;;
  do* bytes := checked_bytes (Z.of_nat (length pattern)) size_of_usize in
  retain_collection_bytes bytes ;;
  do* work := scan_visit 0 1 in
  do* ' (prefix, work) := build_prefix (length pattern - 1) pattern 1 [0] 0 work in
  ret (mkSearch pattern prefix 0 0 work).

(** [LiteralSearch::next]: where the next match begins. *)
Fixpoint search_loop (fuel : nat) (self : LiteralSearch) (input : str)
    : Eval (option nat * LiteralSearch) :=
  match fuel with
  | 0 => ret (None, self)
  | S fuel =>
    do* work := scan_visit (work self) 1 in
    do* byte := at_index input (cursor self) in
    do* ' (matched, work) := advance_match (pattern self) (prefix self) byte (matched self) work in
    let cursor := S (cursor self) in
    if matched =? length (pattern self)
    then ret (Some (cursor - length (pattern self)), mkSearch (pattern self) (prefix self) cursor 0 work)
    else search_loop fuel (mkSearch (pattern self) (prefix self) cursor matched work) input
  end.

Definition search_next (self : LiteralSearch) (input : str) : Eval (option nat * LiteralSearch) :=
  search_loop (length input - cursor self) self input.

(** ** Copying text *)

(** [while !text.is_char_boundary(end) { end -= 1 }]. *)
Fixpoint floor_boundary (text : str) (stop : nat) : Eval nat :=
  if is_char_boundary text stop then ret stop
  else match stop with
       | 0 => unreachable
       | S stop => floor_boundary text stop
       end.

Fixpoint append_loop (fuel : nat) (output text : str) (cursor : nat) : Eval str :=
  if cursor <? length text then
    match fuel with
    | 0 => unreachable
    | S fuel =>
      visit ;;
      do* stop := floor_boundary text (Nat.min (cursor + chunk_size) (length text)) in
      retain_collection_bytes (Z.of_nat stop - Z.of_nat cursor) ;;
      do* piece := slice_of text cursor stop in
      append_loop fuel (output ++ piece) text stop
    end
  else ret output.

Definition append_text (output text : str) : Eval str := append_loop (length text) output text 0.

Definition copy_text (text : str) : Eval Value :=
  do* output := append_text [] text in ret (VString output).

Definition retain_string_field (fields : list Value) (text : str) : Eval (list Value) :=
  check_cancel ;; retain_items 1 ;;
  do* value := copy_text text in
  ret (fields ++ [value]).

(** ** [string_operation] *)

Definition invalid_string_argument {A} (descriptor : OperationDescriptor) (message : str) : Eval A :=
  operation_error (invalid descriptor message).

Fixpoint join_loop (descriptor : OperationDescriptor) (separator : str) (index : nat)
    (values : list Value) (output : str) : Eval Value :=
  match values with
  | [] => ret (VString output)
  | value :: values =>
    visit ;;
    match value with
    | VString text =>
      do* output := (if 0 <? index then append_text output separator else ret output) in
      do* output := append_text output text in
      join_loop descriptor separator (S index) values output
    | _ => invalid_string_argument descriptor (bs "join requires String items")
    end
  end.

(** The check of [decode_utf8], which the JSON decoder repeats with an error of
    its own ([refuse], of the offset). *)
Fixpoint validate_chunks (refuse : nat → Abort) (fuel : nat) (bytes : str) (cursor : nat) : Eval unit :=
  if cursor <? length bytes then
    match fuel with
    | 0 => unreachable
    | S fuel =>
      visit ;;
      let stop := Nat.min (cursor + chunk_size) (length bytes) in
      match from_utf8 (sub bytes cursor stop) with
      | Utf8Ok _ => validate_chunks refuse fuel bytes stop
      | Utf8Error valid_up_to error_len =>
        if bool_decide (error_len = None) && (stop <? length bytes)
        then validate_chunks refuse fuel bytes (cursor + valid_up_to)
        else throw (refuse (cursor + valid_up_to))
      end
    end
  else ret tt.

Definition validate_utf8 (descriptor : OperationDescriptor) (bytes : str) : Eval unit :=
  validate_chunks (λ offset, AbortError (OperationFailed
      (invalid descriptor (bs "invalid UTF8 at byte " ++ show_int (Z.of_nat offset)))) call_span)
    (length bytes) bytes 0.

(** [loop { match from_utf8(..) { Ok(text) => break text, Err(..) => end = .. } }]. *)
Fixpoint valid_prefix (fuel : nat) (bytes : str) (cursor stop : nat) : Eval (str * nat) :=
  match fuel with
  | 0 => unreachable
  | S fuel =>
    match from_utf8 (sub bytes cursor stop) with
    | Utf8Ok _ => ret (sub bytes cursor stop, stop)
    | Utf8Error valid_up_to _ => valid_prefix fuel bytes cursor (cursor + valid_up_to)
    end
  end.

Fixpoint copy_utf8 (fuel : nat) (bytes output : str) (cursor : nat) : Eval Value :=
  if cursor <? length bytes then
    match fuel with
    | 0 => unreachable
    | S fuel =>
      visit ;;
      let stop := Nat.min (cursor + chunk_size) (length bytes) in
      do* ' (text, stop) := valid_prefix (S (stop - cursor)) bytes cursor stop in
      retain_collection_bytes (Z.of_nat (length text)) ;;
      copy_utf8 fuel bytes (output ++ text) stop
    end
  else ret (VString output).

(** The scan of [trim] over the characters of one side: the bytes skipped. *)
Fixpoint trim_scan (work : Z) (skipped : nat) (characters : list Z) : Eval (nat * Z) :=
  match characters with
  | [] => ret (skipped, work)
  | character :: characters =>
    do* work := scan_visit work (len_utf8 character) in
    if negb (is_whitespace character) then ret (skipped, work)
    else trim_scan work (skipped + len_utf8 character) characters
  end.

Definition trim (input : str) : Eval Value :=
  do* ' (start, work) := trim_scan 0 0 (chars input) in
  do* rest := slice_of input start (length input) in
  do* ' (back, _) := trim_scan work 0 (reverse (chars rest)) in
  do* text := slice_of input start (length input - back) in
  copy_text text.

(** [slice::chunks(CHUNK)]. *)
Fixpoint chunks_fuel (fuel : nat) (s : str) : list str :=
  match fuel, s with
  | S fuel, _ :: _ => take chunk_size s :: chunks_fuel fuel (drop chunk_size s)
  | _, _ => []
  end.
Definition chunks_of (s : str) : list str := chunks_fuel (length s) s.

Fixpoint same_chunks (pairs : list (str * str)) : Eval Value :=
  match pairs with
  | [] => ret (VBool true)
  | (l, r) :: pairs =>
    visit ;;
    if negb (str_eqb l r) then ret (VBool false) else same_chunks pairs
  end.

Definition compare_end (at_start : bool) (input pattern : str) : Eval Value :=
  if length input <? length pattern then ret (VBool false)
  else
    let candidate :=
      if at_start then take (length pattern) input else drop (length input - length pattern) input in
    same_chunks (combine (chunks_of candidate) (chunks_of pattern)).

(** The matches of [split] and [replace]: each piece before a match goes to
    the fields, or to the output followed by the replacement. *)
Fixpoint split_loop (fuel : nat) (search : LiteralSearch) (input : str) (cursor : nat)
    (fields : list Value) : Eval (list Value) :=
  match fuel with
  | 0 => unreachable
  | S fuel =>
    do* ' (found, search) := search_next search input in
    match found with
    | Some position =>
      visit ;;
      do* piece := slice_of input cursor position in
      do* fields := retain_string_field fields piece in
      split_loop fuel search input (position + length (pattern search)) fields
    | None =>
      do* piece := slice_of input cursor (length input) in
      retain_string_field fields piece
    end
  end.

Fixpoint replace_matches (fuel : nat) (search : LiteralSearch) (input replacement : str) (cursor : nat)
    (output : str) : Eval str :=
  match fuel with
  | 0 => unreachable
  | S fuel =>
    do* ' (found, search) := search_next search input in
    match found with
    | Some position =>
      visit ;;
      do* piece := slice_of input cursor position in
      do* output := append_text output piece in
      do* output := append_text output replacement in
      replace_matches fuel search input replacement (position + length (pattern search)) output
    | None =>
      do* piece := slice_of input cursor (length input) in
      append_text output piece
    end
  end.

Definition string_operation (descriptor : OperationDescriptor) (arguments : list Value) : Eval Value :=
  check_cancel ;;
  match implementation descriptor, arguments with
  | Join, [VList values; VString separator] => join_loop descriptor separator 0 values []
  | DecodeUtf8, [VBytes bytes] =>
    validate_utf8 descriptor bytes ;;
    copy_utf8 (length bytes) bytes [] 0
  | Trim, VString input :: _ => trim input
  | StartsWith, VString input :: VString pattern :: _ => compare_end true input pattern
  | EndsWith, VString input :: VString pattern :: _ => compare_end false input pattern
  | Contains, VString input :: VString pattern :: _ =>
    if bool_decide (pattern = []) then ret (VBool true)
    else
      do* search := LiteralSearch_new pattern in
      do* ' (found, _) := search_next search input in
      ret (VBool (bool_decide (is_Some found)))
  | Split, VString input :: VString pattern :: _ =>
    if bool_decide (pattern = [])
    then invalid_string_argument descriptor (bs "separator or pattern must be nonempty")
    else
      do* search := LiteralSearch_new pattern in
      do* fields := split_loop (S (length input)) search input 0 [] in
      ret (VList fields)
  | Replace, VString input :: VString pattern :: VString replacement :: _ =>
    if bool_decide (pattern = [])
    then invalid_string_argument descriptor (bs "separator or pattern must be nonempty")
    else
      do* search := LiteralSearch_new pattern in
      do* output := replace_matches (S (length input)) search input replacement 0 [] in
      ret (VString output)
  | _, _ => unreachable
  end.
End Strings.
