(* ===== verification/StringsFacts.v ===== *)
(** * The operations on text are exact

    Every operation of [Strings] computes a reference on whole texts: the
    literal search finds the leftmost match of a naive search whatever its
    prefix table holds in between, copies keep every byte, and the chunks work
    is cut into never show.  The search is linear. *)
From S2P Require Import Prelude Utf8 Source Status Value Stream Float Operation Types Catalog.
From S2P Require Import Convert ConvertFacts Lifetime Evaluation Strings.

Local Open Scope eval_scope.

(** ** Borders

    [k] is a border when the first [k] bytes of the pattern end the text. *)
Definition border (p t : str) (k : nat) : Prop := k ≤ length p ∧ take k p `suffix_of` t.
Definition longest (p t : str) (m : nat) : Prop := border p t m ∧ ∀ k, border p t k → k ≤ m.

(** The prefix table of the first [n] positions. *)
Definition table (p : str) (prefix : list nat) : Prop :=
  ∀ i m, prefix !! i = Some m → longest p (drop 1 (take (S i) p)) m.

Lemma border_0 p t : border p t 0.
Proof. split; [lia|]. apply suffix_nil. Qed.

Lemma border_length p t k : border p t k → k ≤ length t.
Proof. intros [H1 H2%suffix_length]. rewrite length_take in H2. lia. Qed.

Lemma border_snoc p t b k :
  border p (t ++ [b]) (S k) ↔ border p t k ∧ p !! k = Some b.
Proof.
  unfold border. split.
  - intros [Hk Hs]. destruct (lookup_lt_is_Some_2 p k) as [x Hx]; [lia|].
    rewrite (take_S_r _ _ x) in Hs by done.
    pose proof (suffix_snoc_inv_1 _ _ _ _ Hs) as ->. apply suffix_snoc_inv_2 in Hs.
    split; [split; [lia|done]|done].
  - intros [[Hk Hs] Hb]. apply lookup_lt_Some in Hb as Hlt. split; [lia|].
    rewrite (take_S_r _ _ b) by done. by apply suffix_snoc.
Qed.

(** Of two borders the shorter ends the longer, without its first byte. *)
Lemma border_nested p t k m :
  border p t k → border p t m → k < m → border p (drop 1 (take m p)) k.
Proof.
  intros [Hk Hks] [Hm Hms] Hlt. split; [done|].
  destruct Hms as [u Hu]. destruct Hks as [v Hv].
  assert (length v = length u + (m - k)) as Hlen.
  { pose proof (f_equal length Hu) as E1. pose proof (f_equal length Hv) as E2.
    rewrite !length_app, !length_take in *. lia. }
  exists (drop (length u + 1) v). apply (f_equal (drop (length u + 1))) in Hv, Hu.
  rewrite drop_app_le in Hv by lia. rewrite Hu in Hv.
  rewrite <- drop_drop, drop_app_length in Hv. done.
Qed.

Lemma border_trans p t m k :
  border p t m → border p (drop 1 (take m p)) k → border p t k.
Proof.
  intros [Hm Hms] [Hk Hks]. split; [done|]. etrans; [exact Hks|]. etrans; [|exact Hms].
  exists (take 1 (take m p)). by rewrite take_drop.
Qed.

(** ** The naive search

    The leftmost position where the pattern begins. *)
Fixpoint find (p t : str) : option nat :=
  if starts_with p t then Some 0
  else match t with [] => None | _ :: t => S <$> find p t end.

Definition occurs (p t : str) (i : nat) : Prop := starts_with p (drop i t) = true.

Lemma find_leftmost p t :
  match find p t with
  | Some i => occurs p t i ∧ ∀ j, j < i → ¬ occurs p t j
  | None => ∀ j, ¬ occurs p t j
  end.
Proof.
  unfold occurs. induction t as [|b t IH]; simpl.
  - destruct (starts_with p []) eqn:E; simpl; [split; [done|lia]|]. intros [|j]; by rewrite ?drop_nil, E.
  - destruct (starts_with p (b :: t)) eqn:E; simpl; [split; [done|lia]|].
    destruct (find p t) as [i|]; simpl.
    + destruct IH as [Hi Hj]. split; [done|]. intros [|j] Hlt; simpl; [by rewrite E|]. apply Hj. lia.
    + intros [|j]; simpl; [by rewrite E|]. apply IH.
Qed.

Lemma find_first p t i : occurs p t i → (∀ j, j < i → ¬ occurs p t j) → find p t = Some i.
Proof.
  intros Hi Hj. pose proof (find_leftmost p t) as H. destruct (find p t) as [k|]; [|by destruct (H i)].
  destruct H as [Hk Hbefore]. destruct (Nat.lt_trichotomy i k) as [?|[->|?]]; [|done|].
  - by destruct (Hbefore i).
  - by destruct (Hj k).
Qed.

Lemma find_none p t : (∀ j, ¬ occurs p t j) → find p t = None.
Proof.
  intros Hn. pose proof (find_leftmost p t) as H. destruct (find p t) as [k|]; [|done].
  by destruct H as [[]%Hn _].
Qed.

Lemma occurs_length p t i : p ≠ [] → occurs p t i → i + length p ≤ length t.
Proof.
  intros Hp Ho. apply starts_with_length in Ho. rewrite length_drop in Ho.
  destruct p; [done|]. simpl in *. lia.
Qed.

Lemma occurs_drop p t s i : occurs p (drop s t) i ↔ occurs p t (s + i).
Proof. unfold occurs. by rewrite drop_drop. Qed.

(** A match that ends where a stretch of the text ends. *)
Lemma border_occurs p t s e :
  s ≤ e ≤ length t → length p ≤ e - s → border p (sub t s e) (length p) ↔ occurs p t (e - length p).
Proof.
  intros He Hp. unfold border, occurs. rewrite firstn_all, starts_with_spec. split.
  - intros [_ [u Hu]]. exists (drop e t).
    rewrite <- (take_drop e t) at 1. rewrite drop_app_le by (rewrite length_take; lia).
    f_equal. unfold sub in Hu.
    assert (length u = e - length p - s) as Hlen.
    { pose proof (f_equal length Hu) as E. rewrite length_take, length_drop, length_app in E. lia. }
    apply (f_equal (drop (e - length p - s))) in Hu.
    rewrite <- Hlen, drop_app_length, Hlen in Hu. etrans; [|exact Hu].
    rewrite !skipn_firstn_comm, drop_drop.
    replace (s + (e - length p - s)) with (e - length p) by lia.
    apply (f_equal (λ n, take n _)). lia.
  - intros [r Hr]. split; [lia|]. exists (sub t s (e - length p)).
    rewrite <- (sub_app t s (e - length p) e) by lia. f_equal. unfold sub. rewrite Hr.
    replace (e - (e - length p)) with (length p) by lia. by rewrite take_app_length.
Qed.

(** ** The automaton *)

Section Search.
Context `{C : Control}.

Lemma scan_visit_returns r n : returns (steps (N.of_nat n)) (scan_visit r n) (λ _, True).
Proof.
  revert r. induction n as [|n IH]; intros r; cbn [scan_visit].
  { eapply runs_cost; [by apply returns_ret|cost_lia]. }
  eapply runs_cost; [eapply (runs_then (steps 1) (steps (N.of_nat n)) _ _ (λ _, True))|cost_lia].
  - destruct (r =? 0)%Z.
    + eapply runs_cost; [eapply runs_unit; [apply visit_returns|by apply returns_ret]|cost_lia].
    + eapply runs_cost; [by apply returns_ret|cost_lia].
  - intros x _. apply IH.
Qed.

Lemma runs_scan {B} r n c (k : Z → Eval B) Q :
  (∀ w, runs c (k w) Q) → runs (steps (N.of_nat n) ⊕ c) (bind (scan_visit r n) k) Q.
Proof. intros Hk. eapply runs_then; [apply scan_visit_returns|]. intros w _. apply Hk. Qed.

Lemma runs_at {A B} (l : list A) i x c (k : A → Eval B) Q :
  l !! i = Some x → runs c (k x) Q → runs c (bind (at_index l i) k) Q.
Proof. intros Hi. unfold at_index. rewrite Hi. by apply runs_ext. Qed.

(** Falling back: every border the byte extends survives.  The steps are paid
    by the length the match loses. *)
Lemma fall_back_then {B} fuel p prefix b t m w N c (k : nat * Z → Eval B) Q :
  m < fuel → m < length p → m ≤ length prefix → table p prefix → border p t m →
  (∀ j, border p t j → p !! j = Some b → j ≤ m) →
  (∀ m' w', m' ≤ m → border p t m' → (∀ j, border p t j → p !! j = Some b → j ≤ m') →
    (m' = 0 ∨ p !! m' = Some b) → runs (steps (N + N.of_nat m') ⊕ c) (k (m', w')) Q) →
  runs (steps (N + N.of_nat m) ⊕ c) (bind (fall_back fuel p prefix b m w) k) Q.
Proof.
  revert m w. induction fuel as [|fuel IH]; intros m w Hf Hp Hl Ht Hb Hmax Hk; [lia|].
  cbn [fall_back]. destruct (Nat.ltb_spec 0 m) as [Hm|Hm].
  2: { apply runs_ret_then. apply Hk; auto. left. lia. }
  destruct (lookup_lt_is_Some_2 p m Hp) as [e He].
  apply runs_assoc. eapply runs_at; [exact He|]. destruct (Z.eqb_spec b e) as [->|Hne]; simpl negb; cbv iota.
  { apply runs_ret_then. apply Hk; auto. }
  destruct (lookup_lt_is_Some_2 prefix (m - 1)) as [m2 Hm2]; [lia|].
  destruct (Ht _ _ Hm2) as [Hb2 Hmax2]. replace (S (m - 1)) with m in * by lia.
  assert (m2 < m) as Hlt.
  { apply border_length in Hb2. rewrite length_drop, length_take in Hb2. lia. }
  apply runs_assoc. eapply runs_cost.
  - eapply (runs_scan _ _ (steps (N + N.of_nat m2) ⊕ c)). intros w'.
    apply runs_assoc. eapply runs_at; [exact Hm2|].
    apply IH; try done; try lia.
    + by eapply border_trans.
    + intros j Hj Hpj. specialize (Hmax j Hj Hpj).
      assert (j ≠ m) by congruence. apply Hmax2. by apply (border_nested p t); [| |lia].
    + intros m' w'' Hle Hbm Hm' Hz. apply Hk; [lia|done..].
  - cost_lia.
Qed.

Lemma advance_match_then {B} p prefix b t m w N c (k : nat * Z → Eval B) Q :
  m < length p → m ≤ length prefix → table p prefix → longest p t m →
  (∀ m' w', longest p (t ++ [b]) m' → runs (steps (N + N.of_nat m') ⊕ c) (k (m', w')) Q) →
  runs (steps (N + 1 + N.of_nat m) ⊕ c) (bind (advance_match p prefix b m w) k) Q.
Proof.
  intros Hp Hl Ht [Hb Hmax] Hk. unfold advance_match. apply runs_assoc.
  eapply (fall_back_then _ _ _ b t); try done; [lia| |].
  { intros j Hj _. by apply Hmax. }
  intros m' w' Hle Hbm Hm' Hz. destruct (lookup_lt_is_Some_2 p m') as [e He]; [lia|].
  apply runs_assoc. eapply runs_at; [exact He|]. apply runs_ret_then.
  destruct (Z.eqb_spec b e) as [->|Hne].
  - eapply runs_cost; [apply Hk|cost_lia]. split; [by apply border_snoc|].
    intros [|j]; [lia|]. intros [Hj Hpj]%border_snoc. specialize (Hm' j Hj Hpj). lia.
  - destruct Hz as [->|Hz]; [|congruence].
    eapply runs_cost; [apply Hk|cost_lia]. split; [apply border_0|].
    intros [|j]; [lia|]. intros [Hj Hpj]%border_snoc. specialize (Hm' j Hj Hpj).
    assert (j = 0) as -> by lia. congruence.
Qed.

Lemma longest_table p n m :
  1 ≤ n → longest p (drop 1 (take n p)) m → m < length p ∨ length p = 0.
Proof.
  intros Hn [Hm _]. apply border_length in Hm. rewrite length_drop, length_take in Hm. lia.
Qed.

Lemma build_prefix_returns fuel p index prefix m w :
  1 ≤ index → fuel + index = length p → length prefix = index → table p prefix →
  longest p (drop 1 (take index p)) m →
  returns (steps (2 * N.of_nat fuel + N.of_nat m)) (build_prefix fuel p index prefix m w)
    (λ r, length r.1 = length p ∧ table p r.1).
Proof.
  revert index prefix m w. induction fuel as [|fuel IH]; intros index prefix m w Hi Hf Hl Ht Hm; cbn [build_prefix].
  { eapply runs_cost; [apply returns_ret; simpl; split; [lia|done]|cost_lia]. }
  assert (m < length prefix) as Hmi.
  { destruct Hm as [Hm _]. apply border_length in Hm. rewrite length_drop, length_take in Hm. lia. }
  destruct (lookup_lt_is_Some_2 p index) as [b Hb]; [lia|].
  eapply runs_cost; [apply runs_scan|]; [intros w1; eapply runs_at; [exact Hb|]|].
  - eapply (advance_match_then p prefix b _ m w1 (2 * N.of_nat fuel) no_cost); [lia..|done|exact Hm|].
    intros m' w' Hm'. eapply runs_cost; [apply IH|cost_lia]; [lia..| | |].
    + rewrite length_app. simpl. lia.
    + intros i x. rewrite lookup_app_Some. intros [Hx|[Hle Hx]]; [by apply Ht|].
      apply list_lookup_singleton_Some in Hx as [Hz <-]. replace i with index by lia.
      rewrite (take_S_r _ _ b), drop_app_le by (done || (rewrite length_take; lia)). exact Hm'.
    + rewrite (take_S_r _ _ b), drop_app_le by (done || (rewrite length_take; lia)). exact Hm'.
  - cost_lia.
Qed.

(** ** The search *)

(** The automaton after scanning from [s]: no match has ended since. *)
Record searching (p input : str) (st : LiteralSearch) (s : nat) : Prop := mkSearching {
  searching_pattern : pattern st = p;
  searching_prefix : length (prefix st) = length p;
  searching_table : table p (prefix st);
  searching_cursor : s ≤ cursor st ≤ length input;
  searching_matched : matched st < length p;
  searching_longest : longest p (sub input s (cursor st)) (matched st);
  searching_none : ∀ j, s ≤ j → j + length p ≤ cursor st → ¬ occurs p input j
}.

Lemma search_new_returns p input :
  p ≠ [] →
  returns (mkCost (2 * N.of_nat (length p)) 0 0 (8 * N.of_nat (length p))
    (8 * N.of_nat (length p))) (LiteralSearch_new p)
    (λ st, searching p input st 0 ∧ cursor st = 0 ∧ matched st = 0).
Proof.
  intros Hp. assert (0 < length p) as Hlen by (destruct p; [done|simpl; lia]).
  unfold LiteralSearch_new. eapply runs_cost; [eapply runs_unit; [apply check_cancel_returns|]|].
  - eapply runs_ext; [intros s; apply bind_assoc|].
    eapply runs_unit; [apply checked_bytes_returns; unfold size_of_usize; lia|].
    apply runs_scan. intros w. eapply runs_then.
    + apply build_prefix_returns; [lia|lia|done| |].
      * intros i m. rewrite list_lookup_singleton_Some. intros [-> <-].
        split; [apply border_0|]. intros k Hk%border_length.
        rewrite length_drop, length_take in Hk. lia.
      * split; [apply border_0|]. intros k Hk%border_length. rewrite length_drop, length_take in Hk. lia.
    + intros [prefix w'] [Hl Ht]. simpl in *. apply returns_ret. split; [|done].
      split; simpl; try done; [lia|split; [apply border_0|]|].
      * intros k Hk%border_length. simpl in Hk. done.
      * intros j _ Hj. lia.
  - unfold size_of_usize. cost_lia.
Qed.

Lemma search_loop_returns fuel p input st s :
  searching p input st s → fuel + cursor st = length input →
  returns (steps (2 * N.of_nat fuel + N.of_nat (matched st))) (search_loop fuel st input)
    (λ r, match find p (drop s input) with
          | Some i => r.1 = Some (s + i) ∧ searching p input r.2 (s + i + length p) ∧
              cursor r.2 = s + i + length p ∧ matched r.2 = 0
          | None => r.1 = None
          end).
Proof.
  revert st. induction fuel as [|fuel IH]; intros st Hst Hf; cbn [search_loop].
  { destruct Hst. eapply runs_cost; [apply returns_ret|cost_lia]. simpl.
    rewrite find_none; [done|]. intros j Ho. apply occurs_drop in Ho as Ho'.
    apply occurs_length in Ho'; [|by intros ->; simpl in *; lia].
    eapply searching_none0; [| |exact (proj1 (occurs_drop _ _ _ _) Ho)]; lia. }
  destruct st as [p' prefix c m w]. destruct Hst as [Hp Hpre Ht Hc Hm Hlong Hnone].
  cbn [Strings.pattern Strings.prefix Strings.cursor Strings.matched Strings.work] in *. subst p'.
  destruct (lookup_lt_is_Some_2 input c) as [b Hb]; [lia|].
  assert (sub input s (S c) = sub input s c ++ [b]) as Hsub.
  { rewrite <- (sub_app input s c (S c)) by lia. f_equal. unfold sub.
    replace (S c - c) with 1 by lia. by rewrite (drop_S _ b). }
  eapply runs_cost; [apply runs_scan; intros w1; eapply runs_at; [exact Hb|]|].
  - eapply (advance_match_then p prefix b _ m w1 (2 * N.of_nat fuel) no_cost); [lia..|done|exact Hlong|].
    intros m' w' Hm'. rewrite <- Hsub in Hm'. destruct Hm' as [Hbm Hmax].
    assert (length (sub input s (S c)) = S c - s) as Hslen by (apply length_sub; lia).
    destruct (Nat.eqb_spec m' (length p)) as [->|Hne].
    + eapply runs_cost; [apply returns_ret; simpl|cost_lia].
      pose proof (border_length _ _ _ Hbm) as Hpl. rewrite Hslen in Hpl.
      apply border_occurs in Hbm; [|lia..].
      assert (find p (drop s input) = Some (S c - length p - s)) as ->.
      { apply find_first.
        - apply occurs_drop. by replace (s + (S c - length p - s)) with (S c - length p) by lia.
        - intros j Hj Ho%occurs_drop. eapply Hnone; [| |exact Ho]; lia. }
      replace (s + (S c - length p - s)) with (S c - length p) by lia.
      replace (S c - length p + length p) with (S c) by lia. split_and!; try done.
      split; simpl; try done; [lia|lia| |intros j ? ?; lia].
      split; [apply border_0|]. intros k Hk%border_length.
      rewrite length_sub in Hk by lia. lia.
    + destruct Hbm as [Hle Hbm]. eapply runs_cost; [apply IH|cbn [Strings.matched]; cost_lia]; [|simpl; lia].
      split; simpl; try done; [lia|lia|].
      intros j Hj1 Hj2. destruct (decide (j + length p ≤ c)) as [Hle2|Hgt]; [by apply Hnone|].
      intros Ho. replace j with (S c - length p) in Ho by lia.
      apply (border_occurs p input s) in Ho; [|lia..]. specialize (Hmax _ Ho). lia.
  - cost_lia.
Qed.

Lemma search_next_returns p input st s :
  searching p input st s →
  returns (steps (2 * N.of_nat (length input - cursor st) + N.of_nat (matched st))) (search_next st input)
    (λ r, match find p (drop s input) with
          | Some i => r.1 = Some (s + i) ∧ searching p input r.2 (s + i + length p) ∧
              cursor r.2 = s + i + length p ∧ matched r.2 = 0
          | None => r.1 = None
          end).
Proof.
  intros Hst. apply search_loop_returns; [done|]. pose proof (searching_cursor _ _ _ _ Hst). lia.
Qed.
End Search.

(** ** Copies *)

Lemma chunk_size_wide : 4 ≤ chunk_size.
Proof. unfold chunk_size, CHUNK. lia. Qed.

Lemma floor_boundary_ret text stop :
  ∃ b, floor_boundary text stop = ret b ∧ is_char_boundary text b = true ∧ b ≤ stop ∧
    ∀ j, is_char_boundary text j = true → j ≤ stop → j ≤ b.
Proof.
  induction stop as [|stop (b & Hb & Hc & Hle & Hmax)]; cbn [floor_boundary].
  { exists 0. split_and!; [done..|]. intros j _ ?. lia. }
  destruct (is_char_boundary text (S stop)) eqn:E; [by exists (S stop)|].
  exists b. split_and!; [done..|lia|]. intros j Hj Hjs.
  destruct (decide (j = S stop)) as [->|]; [congruence|]. apply Hmax; [done|lia].
Qed.

(** The end of a chunk, moved back to a boundary, is past its start. *)
Lemma floor_boundary_chunk text c :
  utf8 text → is_char_boundary text c = true → c < length text →
  ∃ b, floor_boundary text (Nat.min (c + chunk_size) (length text)) = ret b ∧
    is_char_boundary text b = true ∧ c < b ≤ length text.
Proof.
  intros Hu Hc Hlt. pose proof chunk_size_wide.
  destruct (floor_boundary_ret text (Nat.min (c + chunk_size) (length text))) as (b & Hb & Hbb & Hle & Hmax).
  destruct (boundary_step text c Hu Hc Hlt) as (ch & w & _ & Hw & Hwl & Hnext).
  exists b. split_and!; [done..| |lia]. specialize (Hmax _ Hnext ltac:(lia)). lia.
Qed.

Section Copies.
Context {RuntimeError : Type} `{C : Control}.
Notation Value := (Value RuntimeError).

Lemma runs_slice {B} text a b c (k : str → Eval B) Q :
  a ≤ b → is_char_boundary text a = true → is_char_boundary text b = true →
  runs c (k (sub text a b)) Q → runs c (bind (slice_of text a b) k) Q.
Proof. intros Hab Ha Hb. unfold slice_of. rewrite str_slice_ok by done. by apply runs_ext. Qed.

Lemma append_loop_runs fuel output text c :
  utf8 text → is_char_boundary text c = true → length text - c ≤ fuel →
  runs (mkCost (N.of_nat (length text - c)) 0 0 (N.of_nat (length text - c)) (N.of_nat (length text - c)))
    (append_loop fuel output text c) (λ x, x = Ok (output ++ drop c text)).
Proof.
  intros Hu. revert output c. induction fuel as [|fuel IH]; intros output c Hc Hf; cbn [append_loop];
    pose proof (boundary_le _ _ Hc); (destruct (Nat.ltb_spec c (length text)) as [Hlt|Hge]; [|
      eapply runs_cost; [apply runs_ret; by rewrite drop_ge, app_nil_r by lia|cost_lia]]); [lia|].
  destruct (floor_boundary_chunk text c Hu Hc Hlt) as (b & -> & Hb & Hcb).
  eapply runs_cost.
  - eapply runs_unit; [apply visit_returns|]. apply runs_ret_then.
    eapply runs_unit; [apply retain_bytes_nonneg; lia|]. apply runs_slice; [lia|done..|].
    eapply runs_weaken; [apply (IH _ b); [done|lia]|]. intros x ->. f_equal.
    rewrite <- app_assoc. f_equal. unfold sub.
    rewrite <- (take_drop (b - c) (drop c text)) at 2. f_equal. rewrite drop_drop. f_equal. lia.
  - cost_lia.
Qed.

Lemma append_text_runs output text :
  utf8 text →
  runs (mkCost (N.of_nat (length text)) 0 0 (N.of_nat (length text)) (N.of_nat (length text))) (append_text output text)
    (λ x, x = Ok (output ++ text)).
Proof.
  intros Hu. unfold append_text. eapply runs_cost; [apply append_loop_runs; [done|done|lia]|].
  rewrite Nat.sub_0_r. apply cost_le_refl.
Qed.

Lemma copy_text_runs text :
  utf8 text →
  runs (mkCost (N.of_nat (length text)) 0 0 (N.of_nat (length text)) (N.of_nat (length text)))
    (copy_text (RuntimeError:=RuntimeError) text) (λ x, x = Ok (VString text)).
Proof.
  intros Hu. unfold copy_text. eapply runs_cost.
  - eapply runs_bind; [by apply append_text_runs|..]; [|done..].
    intros a [= ->]. by apply runs_ret.
  - cost_lia.
Qed.

Lemma retain_string_field_runs (fields : list Value) text :
  utf8 text →
  runs (mkCost (N.of_nat (length text)) 0 1 (N.of_nat (length text)) (1 + N.of_nat (length text)))
    (retain_string_field fields text) (λ x, x = Ok (fields ++ [VString text])).
Proof.
  intros Hu. unfold retain_string_field. eapply runs_cost.
  - eapply runs_unit; [apply check_cancel_returns|]. eapply runs_unit; [apply (retain_items_returns 1)|].
    eapply runs_bind; [by apply copy_text_runs|..]; [|done..].
    intros a [= ->]. by apply runs_ret.
  - cost_lia.
Qed.
End Copies.

(** ** Splitting and replacing *)

(** The pieces between the matches, found naively from the left; a match
    never overlaps the one before. *)
Fixpoint split_fuel (fuel : nat) (p t : str) : list str :=
  match find p t, fuel with
  | Some i, S fuel => take i t :: split_fuel fuel p (drop (i + length p) t)
  | _, _ => [t]
  end.
Definition split_text (p t : str) : list str := split_fuel (length t) p t.

(** The pieces with a separator between. *)
Fixpoint join_text (separator : str) (pieces : list str) : str :=
  match pieces with
  | [] => []
  | [piece] => piece
  | piece :: pieces => piece ++ separator ++ join_text separator pieces
  end.

Lemma utf8_strip p r : utf8 p → utf8 (p ++ r) → utf8 r.
Proof.
  induction 1 as [|p c w Hd Hp IH]; [done|]. intros Hr.
  pose proof (decode_char_width _ _ _ Hd). apply IH.
  rewrite <- (drop_app_le p r w) by lia. eapply utf8_inv; [exact Hr|]. by apply decode_char_app_char.
Qed.

(** A match of text in text lies between character boundaries. *)
Lemma occurs_boundaries p t i :
  utf8 p → utf8 t → p ≠ [] → occurs p t i →
  is_char_boundary t i = true ∧ is_char_boundary t (i + length p) = true.
Proof.
  intros Hp Ht Hne Ho. pose proof (occurs_length _ _ _ Hne Ho) as Hl.
  unfold occurs in Ho. apply starts_with_spec in Ho as [r Hr].
  assert (is_char_boundary t i = true) as Hi.
  { destruct p as [|b p]; [done|]. destruct (utf8_cons_inv _ _ Hp) as (c & w & Hd).
    apply decode_char_shape, shape_head in Hd as (b' & Hb & Hn & _). simplify_eq/=.
    apply (boundary_lookup _ _ b'); [|done]. rewrite <- (Nat.add_0_r i), <- lookup_drop, Hr. done. }
  split; [done|].
  assert (utf8 r) as Hur. { apply (utf8_strip p); [done|]. rewrite <- Hr. by apply utf8_drop. }
  assert (drop (i + length p) t = r) as Hd. { by rewrite <- drop_drop, Hr, drop_app_length. }
  destruct r as [|b r].
  { apply (f_equal length) in Hd. rewrite length_drop in Hd. simpl in Hd.
    replace (i + length p) with (length t) by lia. apply boundary_end. }
  destruct (utf8_cons_inv _ _ Hur) as (c & w & Hdec).
  apply decode_char_shape, shape_head in Hdec as (b' & Hb & Hn & _). simplify_eq/=.
  apply (boundary_lookup _ _ b'); [|done]. rewrite <- (Nat.add_0_r (_ + _)), <- lookup_drop, Hd. done.
Qed.

Lemma split_fuel_enough f f' p t :
  p ≠ [] → length t ≤ f → length t ≤ f' → split_fuel f p t = split_fuel f' p t.
Proof.
  intros Hp. revert f' t. induction f as [|f IH]; intros f' t Hf Hf'.
  - assert (t = []) as -> by (apply nil_length_inv; lia).
    assert (find p [] = None) as E.
    { apply find_none. intros j Ho. apply occurs_length in Ho; [|done]. destruct p; simpl in *; [done|lia]. }
    destruct f'; cbn [split_fuel]; by rewrite E.
  - pose proof (find_leftmost p t) as Hs. cbn [split_fuel].
    destruct (find p t) as [i|] eqn:E; [|destruct f'; cbn [split_fuel]; by rewrite E].
    destruct Hs as [Ho _]. apply occurs_length in Ho; [|done].
    assert (0 < length p) by (destruct p; [done|simpl; lia]).
    destruct f' as [|f']; [lia|]. cbn [split_fuel]. rewrite E. f_equal. apply IH; rewrite length_drop; lia.
Qed.

Lemma split_text_step p t :
  p ≠ [] →
  split_text p t =
    match find p t with
    | Some i => take i t :: split_text p (drop (i + length p) t)
    | None => [t]
    end.
Proof.
  intros Hp. unfold split_text at 1. pose proof (find_leftmost p t) as Hs.
  destruct (find p t) as [i|] eqn:E; [|by destruct (length t); cbn [split_fuel]; rewrite E].
  destruct Hs as [Ho _]. apply occurs_length in Ho; [|done].
  assert (0 < length p) by (destruct p; [done|simpl; lia]).
  destruct (length t) as [|n] eqn:El; [lia|]. cbn [split_fuel]. rewrite E. f_equal.
  apply split_fuel_enough; [done|rewrite length_drop; lia..].
Qed.

Lemma split_text_nonempty p t : split_text p t ≠ [].
Proof. unfold split_text. destruct (length t); simpl; by destruct (find p t). Qed.

(** Where the automaton stands when a piece begins. *)
Definition at_piece (p input : str) (st : LiteralSearch) (c : nat) : Prop :=
  searching p input st c ∧ cursor st = c ∧ matched st = 0 ∧ is_char_boundary input c = true.

(** What one piece may cost: the search, and the copies. *)
Definition piece_cost (input extra : str) : Cost :=
  mkCost (3 * N.of_nat (length input) + 2 + N.of_nat (length extra)) 0 1
    (N.of_nat (length input) + N.of_nat (length extra)) (1 + N.of_nat (length input) + N.of_nat (length extra)).
Definition copy_cost (input extra : str) : Cost :=
  mkCost (N.of_nat (length input) + 2 + N.of_nat (length extra)) 0 1
    (N.of_nat (length input) + N.of_nat (length extra)) (1 + N.of_nat (length input) + N.of_nat (length extra)).

Section Pieces.
Context {RuntimeError : Type} `{C : Control}.
Notation Value := (Value RuntimeError).
Context (p input : str) (Hp : utf8 p) (Hinput : utf8 input) (Hne : p ≠ []).

(** One search from the start of a piece, for any continuation. *)
Lemma next_piece {B} st c d (k : option nat * LiteralSearch → Eval B) Q :
  at_piece p input st c →
  (∀ st', match find p (drop c input) with
    | Some i => c + i + length p ≤ length input → is_char_boundary input (c + i) = true →
        at_piece p input st' (c + i + length p) → runs d (k (Some (c + i), st')) Q
    | None => runs d (k (None, st')) Q
    end) →
  runs (steps (2 * N.of_nat (length input)) ⊕ d) (bind (search_next st input) k) Q.
Proof.
  intros (Hst & Hc & Hm & Hb) Hk. eapply runs_cost.
  - eapply runs_then; [by apply search_next_returns|]. intros [found st'] Hf. simpl in Hf.
    specialize (Hk st'). pose proof (find_leftmost p (drop c input)) as Hs.
    destruct (find p (drop c input)) as [i|]; [|subst found; exact Hk].
    destruct Hf as (-> & Hst' & Hc' & Hm'). destruct Hs as [Ho%occurs_drop _].
    destruct (occurs_boundaries p input (c + i)) as [Hb1 Hb2]; [done..|].
    apply occurs_length in Ho; [|done]. by apply Hk.
  - rewrite Hm. cost_lia.
Qed.

Lemma split_loop_runs fuel st c (fields : list Value) :
  at_piece p input st c → length input - c < fuel →
  runs (cost_mul fuel (piece_cost input []))
    (split_loop fuel st input c fields)
    (λ x, x = Ok (fields ++ (VString <$> split_text p (drop c input)))).
Proof.
  revert st c fields. induction fuel as [|fuel IH]; intros st c fields Hat Hf; [lia|].
  cbn [split_loop cost_mul]. pose proof Hat as (Hst & Hc & Hm & Hb). pose proof (boundary_le _ _ Hb).
  rewrite split_text_step by done.
  eapply runs_cost; [eapply (next_piece _ _ (copy_cost input [] ⊕ cost_mul fuel (piece_cost input []))); [done|]|
    unfold piece_cost, copy_cost; cost_lia].
  intros st'. destruct (find p (drop c input)) as [i|].
  - intros Hl Hbi Hat'. assert (0 < length p) by (destruct p; [done|simpl; lia]).
    eapply runs_cost.
    + eapply runs_unit; [apply visit_returns|]. apply runs_slice; [lia|done..|].
      eapply runs_bind; [apply retain_string_field_runs, utf8_sub; [done|lia|done..]| |done..].
      intros a [= ->]. rewrite (searching_pattern _ _ _ _ (proj1 Hat')).
      eapply runs_weaken; [apply IH; [done|lia]|]. intros x ->. f_equal.
      rewrite <- app_assoc. do 2 f_equal. rewrite fmap_cons. simpl. f_equal.
      * f_equal. unfold sub. f_equal. lia.
      * by rewrite drop_drop, Nat.add_assoc.
    + rewrite length_sub by lia. unfold copy_cost. cost_lia.
  - eapply runs_cost.
    + apply runs_slice; [done|done|apply boundary_end|].
      eapply runs_weaken; [apply retain_string_field_runs, utf8_sub; [done|lia|done|apply boundary_end]|].
      intros x ->. do 3 f_equal. unfold sub. rewrite take_ge by (rewrite length_drop; lia). done.
    + rewrite length_sub by lia. unfold copy_cost. cost_lia.
Qed.

Lemma join_text_cons separator piece pieces :
  pieces ≠ [] → join_text separator (piece :: pieces) = piece ++ separator ++ join_text separator pieces.
Proof. by destruct pieces. Qed.

Lemma replace_matches_runs fuel st c replacement output :
  utf8 replacement → at_piece p input st c → length input - c < fuel →
  runs (cost_mul fuel (piece_cost input replacement))
    (replace_matches fuel st input replacement c output)
    (λ x, x = Ok (output ++ join_text replacement (split_text p (drop c input)))).
Proof.
  intros Hr. revert st c output. induction fuel as [|fuel IH]; intros st c output Hat Hf; [lia|].
  cbn [replace_matches cost_mul]. pose proof Hat as (Hst & Hc & Hm & Hb). pose proof (boundary_le _ _ Hb).
  rewrite split_text_step by done.
  eapply runs_cost; [eapply (next_piece _ _ (copy_cost input replacement ⊕ cost_mul fuel (piece_cost input replacement))); [done|]|
    unfold piece_cost, copy_cost; cost_lia].
  intros st'. destruct (find p (drop c input)) as [i|].
  - intros Hl Hbi Hat'. assert (0 < length p) by (destruct p; [done|simpl; lia]).
    rewrite join_text_cons by apply split_text_nonempty.
    eapply runs_cost.
    + eapply runs_unit; [apply visit_returns|]. apply runs_slice; [lia|done..|].
      eapply runs_bind; [apply append_text_runs, utf8_sub; [done|lia|done..]| |done..].
      intros a [= ->]. eapply runs_bind; [by apply append_text_runs| |done..].
      intros a [= ->]. rewrite (searching_pattern _ _ _ _ (proj1 Hat')).
      eapply runs_weaken; [apply IH; [done|lia]|]. intros x ->. f_equal.
      rewrite <- !app_assoc. f_equal. f_equal.
      * unfold sub. f_equal. lia.
      * by rewrite drop_drop, Nat.add_assoc.
    + rewrite length_sub by lia. unfold copy_cost. cost_lia.
  - eapply runs_cost.
    + apply runs_slice; [done|done|apply boundary_end|].
      eapply runs_weaken; [apply append_text_runs, utf8_sub; [done|lia|done|apply boundary_end]|].
      intros x ->. do 2 f_equal. unfold sub. rewrite take_ge by (rewrite length_drop; lia). done.
    + rewrite length_sub by lia. unfold copy_cost. cost_lia.
Qed.
End Pieces.

(** ** Trimming *)

Fixpoint spaces (cs : list Z) : list Z :=
  match cs with c :: cs => if is_whitespace c then c :: spaces cs else [] | [] => [] end.
Fixpoint unspaced (cs : list Z) : list Z :=
  match cs with c :: cs' => if is_whitespace c then unspaced cs' else cs | [] => [] end.

Definition trim_text (t : str) : str := encode (reverse (unspaced (reverse (unspaced (chars t))))).

Lemma spaces_unspaced cs : cs = spaces cs ++ unspaced cs.
Proof. induction cs as [|c cs IH]; simpl; [done|]. destruct (is_whitespace c); simpl; congruence. Qed.

Lemma chars_length_cons c cs : chars_len (c :: cs) = len_utf8 c + chars_len cs.
Proof. done. Qed.

Lemma chars_len_nil : chars_len [] = 0.
Proof. done. Qed.

Lemma chars_len_reverse cs : chars_len (reverse cs) = chars_len cs.
Proof.
  induction cs as [|c cs IH]; [done|].
  rewrite reverse_cons, chars_len_app, IH, !chars_length_cons, chars_len_nil. lia.
Qed.

Section Trim.
Context {RuntimeError : Type} `{C : Control}.
Notation Value := (Value RuntimeError).

Lemma trim_scan_returns w skipped cs :
  returns (steps (N.of_nat (chars_len cs))) (trim_scan w skipped cs)
    (λ r, r.1 = skipped + chars_len (spaces cs)).
Proof.
  revert w skipped. induction cs as [|c cs IH]; intros w skipped; cbn [trim_scan spaces].
  { eapply runs_cost; [apply returns_ret; by rewrite chars_len_nil, Nat.add_0_r|cost_lia]. }
  eapply runs_cost; [apply (runs_scan _ _ (steps (N.of_nat (chars_len cs)))); intros w'|
    rewrite chars_length_cons; cost_lia].
  destruct (is_whitespace c); simpl negb; cbv iota.
  - eapply runs_weaken; [apply IH|]. intros x (r & -> & Hr). exists r. split; [done|].
    rewrite Hr, chars_length_cons. lia.
  - eapply runs_cost; [apply returns_ret; by rewrite chars_len_nil, Nat.add_0_r|cost_lia].
Qed.

Lemma runs_slice_to {B} text b t c d (k : str → Eval B) Q :
  b = length (c ++ t) → (∃ e, text = c ++ t ++ e) →
  is_char_boundary text (length c) = true → is_char_boundary text b = true →
  runs d (k t) Q → runs d (bind (slice_of text (length c) b) k) Q.
Proof.
  intros -> [e ->] Hc Hb Hk. apply runs_slice; [rewrite length_app; lia|done..|].
  unfold sub. rewrite drop_app_length, length_app.
  by replace (length c + length t - length c) with (length t) by lia; rewrite take_app_length.
Qed.

Lemma encode_chars_len cs :
  Forall (λ c, is_scalar c = true) cs → chars_len cs = length (encode cs).
Proof. intros H. by rewrite <- (chars_encode cs H) at 1; rewrite chars_len_chars by by apply utf8_encode. Qed.

Lemma trim_runs t :
  utf8 t →
  runs (mkCost (3 * N.of_nat (length t)) 0 0 (N.of_nat (length t)) (N.of_nat (length t)))
    (trim (RuntimeError:=RuntimeError) t) (λ x, x = Ok (VString (trim_text t))).
Proof.
  intros Ht. pose proof (chars_scalar t Ht) as Hsc.
  unfold trim, trim_text. rewrite <- (encode_chars t Ht).
  set (cs := chars t) in *. clearbody cs. clear t Ht.
  rewrite (chars_encode cs) by done.
  pose proof (spaces_unspaced cs) as Hsplit.
  set (lead := spaces cs) in *. set (body := unspaced cs) in *.
  pose proof (spaces_unspaced (reverse body)) as Hback.
  set (tail := spaces (reverse body)) in *. set (core := unspaced (reverse body)) in *.
  assert (body = reverse core ++ reverse tail) as Hbody.
  { by rewrite <- reverse_app, <- Hback, reverse_involutive. }
  rewrite Hsplit in Hsc. apply Forall_app in Hsc as [Hl Hb].
  pose proof Hb as Hb'. rewrite Hbody in Hb'. apply Forall_app in Hb' as [Hcore Htail].
  assert (encode cs = encode lead ++ encode (reverse core) ++ encode (reverse tail)) as Henc.
  { by rewrite Hsplit, Hbody, !encode_app. }
  assert (is_char_boundary (encode cs) (length (encode lead)) = true) as Hb1.
  { rewrite Hsplit. apply boundary_encode. by apply Forall_app. }
  assert (is_char_boundary (encode cs) (length (encode (lead ++ reverse core))) = true) as Hb2.
  { rewrite Hsplit, Hbody, app_assoc. apply boundary_encode. by rewrite <- app_assoc, <- Hbody, Forall_app. }
  eapply runs_cost.
  - eapply runs_then; [apply trim_scan_returns|]. intros [start w] Hs. simpl in Hs.
    fold lead in Hs. rewrite (encode_chars_len lead Hl) in Hs. subst start.
    apply (runs_slice_to _ _ (encode body)).
    { by rewrite Henc, Hbody, <- !encode_app. }
    { exists []. by rewrite app_nil_r, Hbody, encode_app. }
    { done. }
    { apply boundary_end. }
    rewrite (chars_encode body) by done.
    eapply runs_then; [apply trim_scan_returns|]. intros [back w'] Hs. simpl in Hs.
    fold tail in Hs. rewrite <- chars_len_reverse, (encode_chars_len (reverse tail) Htail) in Hs. subst back.
    assert (length (encode cs) - length (encode (reverse tail)) = length (encode (lead ++ reverse core))) as ->.
    { rewrite Henc, encode_app, !length_app. lia. }
    apply (runs_slice_to _ _ (encode (reverse core))).
    { by rewrite encode_app. }
    { by exists (encode (reverse tail)). }
    { done. }
    { done. }
    apply copy_text_runs. by apply utf8_encode.
  - rewrite chars_len_reverse, encode_chars_len, (encode_chars_len body) by (by rewrite ?Hsplit; try apply Forall_app).
    rewrite Henc, Hbody, encode_app, !length_app. cost_lia.
Qed.
End Trim.

(** ** Ends *)

Section Ends.
Context {RuntimeError : Type} `{C : Control}.
Notation Value := (Value RuntimeError).

Lemma same_chunks_runs fuel a b :
  length a = length b → length a ≤ fuel →
  runs (steps (N.of_nat fuel))
    (same_chunks (RuntimeError:=RuntimeError) (combine (chunks_fuel fuel a) (chunks_fuel fuel b)))
    (λ x, x = Ok (VBool (bool_decide (a = b)))).
Proof.
  revert a b. induction fuel as [|fuel IH]; intros a b Hl Hf.
  { assert (a = [] ∧ b = []) as [-> ->] by (split; apply nil_length_inv; lia).
    eapply runs_cost; [by apply runs_ret|cost_lia]. }
  destruct a as [|x a], b as [|y b]; try done; [eapply runs_cost; [by apply runs_ret|cost_lia]|].
  set (s := x :: a) in *. set (t := y :: b) in *.
  change (chunks_fuel (S fuel) s) with (take chunk_size s :: chunks_fuel fuel (drop chunk_size s)).
  change (chunks_fuel (S fuel) t) with (take chunk_size t :: chunks_fuel fuel (drop chunk_size t)).
  assert (4 ≤ chunk_size) by apply chunk_size_wide. assert (0 < length s) by (subst s; simpl; lia).
  cbn [combine same_chunks]. eapply runs_cost; [eapply (runs_unit (steps 1) (steps (N.of_nat fuel))); [apply visit_returns|]|cost_lia].
  destruct (str_eqb (take chunk_size s) (take chunk_size t)) eqn:E; simpl negb; cbv iota.
  - apply str_eqb_eq in E. eapply runs_weaken; [apply IH; rewrite !length_drop; lia|].
    intros ? ->. do 2 f_equal. apply bool_decide_ext. split; [|congruence].
    intros Hd. rewrite <- (take_drop chunk_size s), <- (take_drop chunk_size t). congruence.
  - eapply runs_cost; [apply runs_ret|cost_lia]. rewrite bool_decide_eq_false_2; [done|].
    intros Hst. rewrite Hst in E. by rewrite (proj2 (str_eqb_eq _ _)) in E.
Qed.

Definition ends_with (p t : str) : bool :=
  (length p <=? length t) && str_eqb (drop (length t - length p) t) p.

Lemma starts_with_take p t :
  length p ≤ length t → starts_with p t = bool_decide (take (length p) t = p).
Proof.
  intros Hl. apply eq_true_iff_eq. rewrite starts_with_spec, bool_decide_eq_true. split.
  - intros [r ->]. apply take_app_length.
  - intros H. exists (drop (length p) t). by rewrite <- H at 1; rewrite take_drop.
Qed.

Lemma compare_end_runs at_start t p :
  runs (steps (N.of_nat (length t))) (compare_end (RuntimeError:=RuntimeError) at_start t p)
    (λ x, x = Ok (VBool (if at_start then starts_with p t else ends_with p t))).
Proof.
  unfold compare_end, ends_with. destruct (Nat.ltb_spec (length t) (length p)) as [Hlt|Hge].
  - eapply runs_cost; [apply runs_ret|cost_lia].
    rewrite (proj2 (Nat.leb_gt _ _)) by lia. destruct at_start; [|done].
    destruct (starts_with p t) eqn:E; [|done]. apply starts_with_length in E. lia.
  - rewrite (proj2 (Nat.leb_le _ _)) by lia. simpl.
    eapply runs_cost; [eapply runs_weaken|].
    + unfold chunks_of. assert (length (if at_start then take (length p) t else drop (length t - length p) t) = length p) as E.
      { destruct at_start; rewrite ?length_take, ?length_drop; lia. }
      rewrite E. apply same_chunks_runs; lia.
    + intros ? ->. do 2 f_equal. destruct at_start; [by rewrite starts_with_take|done].
    + cost_lia.
Qed.
End Ends.

(** ** Decoding *)

Lemma decode_char_take s c w n : decode_char s = DChar c w → w ≤ n → decode_char (take n s) = DChar c w.
Proof.
  intros Hd%decode_char_shape Hn. apply shape_decode_char.
  destruct Hd; subst; (destruct n as [|[|[|[|n]]]]; [lia..|simpl; by econstructor] || idtac);
    repeat (destruct n as [|n]; [lia|]); simpl; by econstructor.
Qed.

Lemma incomplete_short s : decode_char s = DIncomplete → length s < 4.
Proof.
  unfold decode_char. destruct s as [|b0 [|b1 [|b2 [|b3 r]]]]; simpl; try lia.
  intros H. repeat case_match; simplify_eq/=.
Qed.

(** The end of a chunk and what [from_utf8] says of it. *)
Lemma from_utf8_chunk bytes c stop v e :
  utf8 (take c bytes) → c ≤ stop ≤ length bytes → from_utf8 (sub bytes c stop) = Utf8Error v e →
  (v ≤ stop - c) ∧ utf8 (take (c + v) bytes) ∧
  (e ≠ None ∨ stop = length bytes → from_utf8 bytes = Utf8Error (c + v) e) ∧
  (e = None → stop - c < v + 4).
Proof.
  intros Hu Hc He. destruct (from_utf8_error _ _ _ He) as (Hv & Huv & Hd).
  rewrite length_sub in Hv by lia.
  assert (take (c + v) bytes = take c bytes ++ take v (sub bytes c stop)) as Htake.
  { unfold sub. rewrite take_take, Nat.min_l by lia. rewrite take_take_drop. done. }
  split_and!; [done|rewrite Htake; by apply utf8_app| |].
  - intros Hwhy.
    rewrite <- (take_drop c bytes), from_utf8_app by done. rewrite length_take, Nat.min_l by lia.
    rewrite <- (take_drop (stop - c) (drop c bytes)). change (take (stop - c) (drop c bytes)) with (sub bytes c stop).
    rewrite <- (take_drop v (sub bytes c stop)), <- app_assoc, from_utf8_app by done.
    rewrite length_take, length_sub, Nat.min_l by lia.
    pose proof (from_utf8_stop (drop v (sub bytes c stop))) as Hs. rewrite Hd in Hs.
    destruct e as [n|].
    + rewrite (from_utf8_invalid _ n) by done. f_equal. lia.
    + destruct Hwhy as [Hno|Hstop]; [done|]. subst stop.
      rewrite (drop_ge (drop c bytes)) by (rewrite length_drop; lia). rewrite app_nil_r, Hs. f_equal. lia.
  - intros ->. apply incomplete_short in Hd. rewrite length_drop, length_sub in Hd by lia. lia.
Qed.

Section Decode.
Context {RuntimeError : Type} `{C : Control}.
Notation Value := (Value RuntimeError).

Definition utf8_error (d : OperationDescriptor) (offset : nat) : Abort :=
  AbortError (OperationFailed (invalid d (bs "invalid UTF8 at byte " ++ show_int (Z.of_nat offset)))) call_span.

Lemma validate_chunks_runs refuse fuel bytes c :
  c ≤ length bytes → utf8 (take c bytes) → length bytes - c ≤ fuel →
  runs (steps (N.of_nat fuel)) (validate_chunks refuse fuel bytes c)
    (λ x, x = match from_utf8 bytes with Utf8Ok _ => Ok tt | Utf8Error v _ => Err (refuse v) end).
Proof.
  revert c. induction fuel as [|fuel IH]; intros c Hc Hu Hf; cbn [validate_chunks];
    (destruct (Nat.ltb_spec c (length bytes)) as [Hlt|Hge]; [|
      rewrite take_ge in Hu by lia; destruct (from_utf8_utf8 _ Hu) as [cs ->];
      eapply runs_cost; [by apply runs_ret|cost_lia]]); [lia|].
  pose proof chunk_size_wide. set (stop := Nat.min (c + chunk_size) (length bytes)).
  eapply runs_cost; [eapply (runs_unit (steps 1) (steps (N.of_nat fuel))); [apply visit_returns|]|cost_lia].
  destruct (from_utf8 (sub bytes c stop)) as [cs|v e] eqn:E.
  - apply IH; [lia| |lia].
    assert (take stop bytes = take c bytes ++ sub bytes c stop) as ->.
    { unfold sub. rewrite take_take_drop. f_equal. lia. }
    apply utf8_app; [done|]. by destruct (from_utf8_ok _ _ E).
  - destruct (from_utf8_chunk bytes c stop v e Hu) as (Hv & Huv & Hall & Hnone); [lia|done|].
    destruct (bool_decide (e = None)) eqn:Ee; simpl.
    + apply bool_decide_eq_true in Ee as ->. specialize (Hnone eq_refl).
      destruct (Nat.ltb_spec stop (length bytes)) as [Hs|Hs].
      * apply IH; [lia|done|lia].
      * rewrite Hall by (right; lia). eapply runs_cost; [by apply runs_throw|cost_lia].
    + apply bool_decide_eq_false in Ee. rewrite Hall by by left.
      eapply runs_cost; [by apply runs_throw|cost_lia].
Qed.

Lemma copy_utf8_runs fuel bytes output c :
  c ≤ length bytes → utf8 (drop c bytes) → length bytes - c ≤ fuel →
  runs (mkCost (N.of_nat fuel) 0 0 (N.of_nat (length bytes - c)) (N.of_nat (length bytes - c)))
    (copy_utf8 (RuntimeError:=RuntimeError) fuel bytes output c)
    (λ x, x = Ok (VString (output ++ drop c bytes))).
Proof.
  revert output c. induction fuel as [|fuel IH]; intros output c Hc Hu Hf; cbn [copy_utf8];
    (destruct (Nat.ltb_spec c (length bytes)) as [Hlt|Hge]; [|
      eapply runs_cost; [apply runs_ret; by rewrite drop_ge, app_nil_r by lia|cost_lia]]); [lia|].
  pose proof chunk_size_wide. set (stop := Nat.min (c + chunk_size) (length bytes)).
  assert (∃ b, valid_prefix (S (stop - c)) bytes c stop = ret (sub bytes c b, b) ∧ c < b ≤ stop ∧
    utf8 (sub bytes c b)) as (b & -> & Hb & Hub).
  { cbn [valid_prefix]. destruct (from_utf8 (sub bytes c stop)) as [cs|v e] eqn:E.
    { exists stop. split_and!; [done|lia..|]. by destruct (from_utf8_ok _ _ E). }
    destruct (from_utf8_error _ _ _ E) as (Hv & Huv & Hd). rewrite length_sub in Hv by lia.
    assert (sub bytes c (c + v) = take v (sub bytes c stop)) as Hsub.
    { unfold sub. rewrite take_take. f_equal. lia. }
    assert (1 ≤ v) as Hv1.
    { destruct v as [|v]; [|lia]. exfalso. rewrite drop_0 in Hd.
      destruct (drop c bytes) as [|x r] eqn:Ed.
      { apply (f_equal length) in Ed. rewrite length_drop in Ed. simpl in Ed. lia. }
      destruct (utf8_cons_inv _ _ Hu) as (ch & w & Hch). rewrite <- Ed in Hch.
      pose proof (decode_char_width _ _ _ Hch) as Hw. rewrite length_drop in Hw.
      apply decode_char_shape in Hch as Hsh. apply shape_width in Hsh as [? _].
      unfold sub in Hd. rewrite (decode_char_take _ ch w) in Hd by (done || lia). by destruct e. }
    exists (c + v). split_and!; [|lia..|by rewrite Hsub].
    destruct (stop - c) as [|n] eqn:En; [lia|]. cbn [valid_prefix]. rewrite Hsub.
    destruct (from_utf8_utf8 _ Huv) as [cs ->]. by rewrite <- Hsub. }
  assert (sub bytes c b ++ drop b bytes = drop c bytes) as Hsplit.
  { unfold sub. rewrite <- (take_drop (b - c) (drop c bytes)) at 2. f_equal.
    rewrite drop_drop. f_equal. lia. }
  eapply runs_cost.
  - eapply runs_unit; [apply visit_returns|]. apply runs_ret_then.
    eapply runs_unit; [apply retain_bytes_returns || (apply retain_bytes_nonneg; lia)|].
    eapply runs_weaken; [apply (IH _ b); [lia| |lia]|].
    + apply (utf8_strip (sub bytes c b)); [done|]. by rewrite Hsplit.
    + intros ? ->. do 2 f_equal. by rewrite <- app_assoc, Hsplit.
  - rewrite length_sub by lia. cost_lia.
Qed.
End Decode.

(** ** The reference *)

Section Reference.
Context {RuntimeError : Type} `{C : Control}.
Notation Value := (Value RuntimeError).

Fixpoint texts_of (values : list Value) : option (list str) :=
  match values with
  | [] => Some []
  | VString text :: values => cons text <$> texts_of values
  | _ => None
  end.

Definition invalid_text (d : OperationDescriptor) (message : str) : res Abort Value :=
  Err (AbortError (OperationFailed (invalid d message)) call_span).

(** What the operations mean on whole texts. *)
Definition string_reference (d : OperationDescriptor) (arguments : list Value) : res Abort Value :=
  match implementation d, arguments with
  | Join, [VList values; VString separator] =>
    match texts_of values with
    | Some texts => Ok (VString (join_text separator texts))
    | None => invalid_text d (bs "join requires String items")
    end
  | DecodeUtf8, [VBytes bytes] =>
    match from_utf8 bytes with
    | Utf8Ok _ => Ok (VString bytes)
    | Utf8Error offset _ => Err (utf8_error d offset)
    end
  | Trim, VString input :: _ => Ok (VString (trim_text input))
  | StartsWith, VString input :: VString pattern :: _ => Ok (VBool (starts_with pattern input))
  | EndsWith, VString input :: VString pattern :: _ => Ok (VBool (ends_with pattern input))
  | Contains, VString input :: VString pattern :: _ => Ok (VBool (bool_decide (is_Some (find pattern input))))
  | Split, VString input :: VString pattern :: _ =>
    if bool_decide (pattern = []) then invalid_text d (bs "separator or pattern must be nonempty")
    else Ok (VList (VString <$> split_text pattern input))
  | Replace, VString input :: VString pattern :: VString replacement :: _ =>
    if bool_decide (pattern = []) then invalid_text d (bs "separator or pattern must be nonempty")
    else Ok (VString (join_text replacement (split_text pattern input)))
  | _, _ => Panic
  end.

(** Strings are text, in lists too. *)
Definition is_text (v : Value) : Prop := match v with VString s => utf8 s | _ => True end.
Definition text_argument (v : Value) : Prop :=
  match v with VString s => utf8 s | VList items => Forall is_text items | _ => True end.

(** What an operation may ask for at once: the prefix table of a pattern, and
    the texts it copies. *)
Definition string_size (v : Value) : N := match v with VString s => N.of_nat (length s) | _ => 0 end.
Definition text_size (v : Value) : N :=
  match v with
  | VString s | VBytes s => N.of_nat (length s)
  | VList items => foldr N.add 0%N (string_size <$> items)
  | _ => 0
  end.
Definition string_ask (arguments : list Value) : N := 1 + 8 * foldr N.add 0%N (text_size <$> arguments).

Lemma text_size_items (items : list Value) : Forall (λ v, (string_size v ≤ text_size (VList items))%N) items.
Proof.
  cbn [text_size]. induction items as [|v items IH]; constructor; cbn; [lia|].
  eapply Forall_impl; [exact IH|]. intros w Hw. cbn in Hw. lia.
Qed.

Section Asking.
Context {ask : N}.
Notation computes := (computes (A:=Value) ask).

Lemma join_text_tail separator t texts :
  t ++ mjoin (app separator <$> texts) = join_text separator (t :: texts).
Proof.
  revert t. induction texts as [|u texts IH]; intros t; [apply app_nil_r|].
  cbn [fmap list_fmap join_text] in *. by rewrite mjoin_cons, <- app_assoc, IH.
Qed.

(** The separator is written before every item but the first. *)
Lemma join_computes d separator index values output :
  utf8 separator → Forall is_text values →
  (N.of_nat (length separator) ≤ ask)%N → Forall (λ v, (string_size v ≤ ask)%N) values →
  computes (join_loop d separator index values output)
    match texts_of values with
    | Some texts => Ok (VString (output ++
        if 0 <? index then mjoin (app separator <$> texts) else join_text separator texts))
    | None => invalid_text d (bs "join requires String items")
    end.
Proof.
  intros Hs Hv Hsa. revert index output. induction Hv as [|v values Hv Hvs IH]; intros index output Ha;
    cbn [join_loop texts_of].
  { destruct (0 <? index); simpl; rewrite app_nil_r; apply computes_ret. }
  apply Forall_cons_1 in Ha as [Ha Has]. apply computes_visit. destruct v; try apply computes_throw.
  apply (computes_bind_ok _ _ (output ++ if 0 <? index then separator else [])).
  { destruct (0 <? index); [eapply computes_of; [by apply append_text_runs|done]|].
    rewrite app_nil_r. apply computes_ret. }
  eapply computes_bind_ok; [eapply computes_of; [by apply append_text_runs|done]|].
  specialize (IH (S index) ((output ++ if 0 <? index then separator else []) ++ s) Has). simpl in IH.
  destruct (texts_of values) as [texts|]; [|exact IH]. simpl.
  match type of IH with computes _ ?r => match goal with |- computes _ ?r' => replace r' with r; [exact IH|] end end.
  apply (f_equal (λ o, Ok (VString o))). destruct (0 <? index); cbn [fmap list_fmap].
  - by rewrite <- !app_assoc.
  - by rewrite app_nil_r, <- app_assoc, join_text_tail.
Qed.

Lemma new_at_piece p input st :
  searching p input st 0 ∧ cursor st = 0 ∧ matched st = 0 → at_piece p input st 0.
Proof. intros (? & ? & ?). by split_and!. Qed.

(** One search in a whole text, from a fresh automaton. *)
Lemma contains_runs p t :
  p ≠ [] → utf8 p → utf8 t →
  runs (mkCost (2 * N.of_nat (length p) + 2 * N.of_nat (length t)) 0 0 (8 * N.of_nat (length p))
    (8 * N.of_nat (length p)))
    (do* search := LiteralSearch_new p in
     do* ' (found, _) := search_next search t in
     ret (VBool (RuntimeError:=RuntimeError) (bool_decide (is_Some found))))
    (λ x, x = Ok (VBool (bool_decide (is_Some (find p t))))).
Proof.
  intros Hp Hup Hut. eapply runs_cost.
  - eapply runs_then; [by apply search_new_returns|]. intros st Hst%new_at_piece.
    eapply (next_piece p t); [done..|]. intros st'. rewrite drop_0.
    destruct (find p t); [intros _ _ _|]; by apply runs_ret.
  - cost_lia.
Qed.

Lemma split_computes (p t : str) :
  p ≠ [] → utf8 p → utf8 t → (1 + 8 * N.of_nat (length p) + N.of_nat (length t) ≤ ask)%N →
  computes (do* search := LiteralSearch_new p in
            do* fields := split_loop (S (length t)) search t 0 [] in ret (VList fields))
    (Ok (VList (VString <$> split_text p t))).
Proof.
  intros Hp Hup Hut Ha. eapply computes_skip; [by apply search_new_returns|simpl; lia|].
  exists (cost_mul (S (length t)) (piece_cost t []) ⊕ no_cost).
  split; [pose proof (cost_mul_ask (S (length t)) (piece_cost t [])); simpl in *; lia|].
  intros st Hst%new_at_piece. eapply runs_bind; [apply (split_loop_runs p t); [done..|lia]| |done..].
  intros a [= ->]. by apply runs_ret.
Qed.

Lemma replace_computes (p t r : str) :
  p ≠ [] → utf8 p → utf8 t → utf8 r →
  (1 + 8 * N.of_nat (length p) + N.of_nat (length t) + N.of_nat (length r) ≤ ask)%N →
  computes (do* search := LiteralSearch_new p in
            do* output := replace_matches (S (length t)) search t r 0 [] in ret (VString output))
    (Ok (VString (join_text r (split_text p t)))).
Proof.
  intros Hp Hup Hut Hur Ha. eapply computes_skip; [by apply search_new_returns|simpl; lia|].
  exists (cost_mul (S (length t)) (piece_cost t r) ⊕ no_cost).
  split; [pose proof (cost_mul_ask (S (length t)) (piece_cost t r)); simpl in *; lia|].
  intros st Hst%new_at_piece. eapply runs_bind; [apply (replace_matches_runs p t); [done..|lia]| |done..].
  intros a [= ->]. by apply runs_ret.
Qed.

Lemma decode_computes d bytes :
  (1 + N.of_nat (length bytes) ≤ ask)%N →
  computes (validate_utf8 d bytes ;; copy_utf8 (length bytes) bytes [] 0)
    match from_utf8 bytes with
    | Utf8Ok _ => Ok (VString bytes)
    | Utf8Error offset _ => Err (utf8_error d offset)
    end.
Proof.
  intros Ha. pose proof (validate_chunks_runs (utf8_error d) (length bytes) bytes 0) as Hv.
  rewrite take_0 in Hv. specialize (Hv ltac:(lia) utf8_nil ltac:(lia)).
  destruct (from_utf8 bytes) as [cs|offset e] eqn:E.
  - eapply computes_bind_ok; [eapply computes_of; [exact Hv|simpl; lia]|].
    eapply computes_of; [eapply copy_utf8_runs; [lia| |lia]|simpl; lia].
    by destruct (from_utf8_ok _ _ E).
  - eapply computes_bind_err. eapply computes_of; [exact Hv|simpl; lia].
Qed.
End Asking.

(** ** Theorems *)

(** C13: every operation of [std::string] computes its reference on whole
    texts.  For arguments whose strings are text: [split] and [replace] work on
    the leftmost matches without overlap, [contains] finds any match, [trim]
    removes the white space of both ends, [starts_with] and [ends_with] compare
    the ends, [join] writes the separator between the items or refuses an item
    that is no string, [decode_utf8] accepts exactly UTF-8 and otherwise names
    the offset of [from_utf8] on the whole input; an empty pattern is refused.
    A stop has a reason (the token, the allocator, a budget that is full but for
    less than the operation asks for at once), every counter stays below its
    ceiling, and nothing panics. *)
Theorem strings_exact (d : OperationDescriptor) (arguments : list Value) :
  Forall text_argument arguments →
  computes (string_ask arguments) (string_operation d arguments) (string_reference d arguments).
Proof.
  intros Ha. unfold string_operation, string_reference. apply computes_check.
  destruct (implementation d); try apply computes_unreachable;
    destruct arguments as [|[] arguments]; try apply computes_unreachable; inv Ha as [|?? H1 Ha'];
    try (eapply computes_of; [by apply trim_runs|unfold string_ask; simpl; lia]);
    (destruct arguments as [|[] arguments]; try apply computes_unreachable; inv Ha' as [|?? H2 Ha]);
    simpl in H1, H2 || simpl in H1.
  - destruct (bool_decide_reflect (s0 = [])); [apply computes_throw|].
    apply split_computes; [done..|]. unfold string_ask. simpl. lia.
  - destruct arguments; [|apply computes_unreachable].
    pose proof (join_computes (ask := string_ask [VList items; VString s]) d s 0 items [] H2 H1) as H.
    assert (computes _ _ _) as H' by (apply H; [unfold string_ask; simpl; lia|];
      eapply Forall_impl; [apply text_size_items|]; intros v Hv; unfold string_ask; simpl in *; lia).
    by destruct (texts_of items).
  - destruct (bool_decide_reflect (s0 = [])) as [->|];
      [|eapply computes_of; [by apply contains_runs|unfold string_ask; simpl; lia]].
    destruct s; apply computes_ret.
  - eapply computes_of; [apply (compare_end_runs true)|unfold string_ask; simpl; lia].
  - eapply computes_of; [apply (compare_end_runs false)|unfold string_ask; simpl; lia].
  - destruct arguments as [|[] arguments]; try apply computes_unreachable. inv Ha as [|?? H3 Ha'].
    destruct (bool_decide_reflect (s0 = [])); [apply computes_throw|].
    apply replace_computes; [done..|]. unfold string_ask. simpl. lia.
  - apply decode_computes. unfold string_ask. simpl. lia.
Qed.

(** *** Splitting and joining are inverse *)

Lemma split_text_joins p t : p ≠ [] → join_text p (split_text p t) = t.
Proof.
  intros Hp. induction t as [t IH] using (well_founded_induction (Wf_nat.well_founded_ltof _ (@length Z))).
  unfold Wf_nat.ltof in IH. rewrite split_text_step by done. pose proof (find_leftmost p t) as Hs.
  destruct (find p t) as [i|]; [|done]. destruct Hs as [Ho _].
  apply occurs_length in Ho as Hl; [|done]. assert (0 < length p) by (destruct p; [done|simpl; lia]).
  rewrite join_text_cons by apply split_text_nonempty. rewrite IH by (rewrite length_drop; lia).
  rewrite <- drop_drop. unfold occurs in Ho. apply starts_with_spec in Ho as [r Hr].
  rewrite Hr, drop_app_length, <- Hr. apply take_drop.
Qed.

Lemma split_text_free p t piece : p ≠ [] → piece ∈ split_text p t → ∀ i, ¬ occurs p piece i.
Proof.
  intros Hp. induction t as [t IH] using (well_founded_induction (Wf_nat.well_founded_ltof _ (@length Z))).
  unfold Wf_nat.ltof in IH. rewrite split_text_step by done. pose proof (find_leftmost p t) as Hs.
  destruct (find p t) as [i|].
  - destruct Hs as [Ho Hbefore]. apply occurs_length in Ho as Hl; [|done].
    assert (0 < length p) by (destruct p; [done|simpl; lia]).
    intros [->|Hin]%elem_of_cons; [|apply (IH (drop (i + length p) t)); [rewrite length_drop; lia|done]].
    intros j Hj. apply occurs_length in Hj as Hlj; [|done]. rewrite length_take in Hlj.
    apply (Hbefore j); [lia|]. unfold occurs in *. rewrite starts_with_spec in *.
    destruct Hj as [r Hr]. exists (r ++ drop i t).
    rewrite <- (take_drop i t) at 1. rewrite drop_app_le by (rewrite length_take; lia).
    by rewrite Hr, <- app_assoc.
  - by intros ->%list_elem_of_singleton.
Qed.

Lemma texts_of_strings pieces : texts_of (VString <$> pieces) = Some pieces.
Proof. induction pieces as [|s pieces IH]; [done|]. cbn [fmap list_fmap texts_of]. by rewrite IH. Qed.

Lemma split_text_utf8 p t : utf8 p → utf8 t → p ≠ [] → Forall utf8 (split_text p t).
Proof.
  intros Hup Hut Hp. revert Hut.
  induction t as [t IH] using (well_founded_induction (Wf_nat.well_founded_ltof _ (@length Z))).
  unfold Wf_nat.ltof in IH. intros Hut. rewrite split_text_step by done. pose proof (find_leftmost p t) as Hs.
  destruct (find p t) as [i|]; [|by repeat constructor]. destruct Hs as [Ho _].
  apply occurs_length in Ho as Hl; [|done]. assert (0 < length p) by (destruct p; [done|simpl; lia]).
  destruct (occurs_boundaries p t i Hup Hut Hp Ho) as [Hb1 Hb2].
  constructor; [by apply utf8_take|]. apply IH; [rewrite length_drop; lia|by apply utf8_drop].
Qed.

Lemma join_text_piece separator texts piece :
  piece ∈ texts → length piece ≤ length (join_text separator texts).
Proof.
  induction texts as [|t texts IH]; [by intros ?%elem_of_nil|].
  intros [->|Hp]%elem_of_cons; simpl; destruct texts as [|u texts]; rewrite ?length_app; try lia.
  - by apply elem_of_nil in Hp.
  - specialize (IH Hp). simpl in *. lia.
Qed.

(** [split] answers pieces in which the separator does not occur, and
    [join] with the same separator gives the text back. *)
Theorem split_join_roundtrip (split join : OperationDescriptor) (input separator : str) :
  implementation split = Split → implementation join = Join →
  utf8 input → utf8 separator → separator ≠ [] →
  let ask := string_ask [VString (RuntimeError:=RuntimeError) input; VString separator] in
  ∃ pieces,
    computes ask (string_operation split [VString input; VString separator])
      (Ok (VList (VString (RuntimeError:=RuntimeError) <$> pieces))) ∧
    (∀ piece i, piece ∈ pieces → ¬ occurs separator piece i) ∧
    computes ask (string_operation join [VList (VString <$> pieces); VString separator])
      (Ok (VString (RuntimeError:=RuntimeError) input)).
Proof.
  intros Hs Hj Hi Hu Hne ask. exists (split_text separator input). unfold string_operation. rewrite Hs, Hj.
  split_and!.
  - apply computes_check. rewrite bool_decide_eq_false_2 by done.
    apply split_computes; [done..|]. unfold ask, string_ask. simpl. lia.
  - intros piece i Hp. by apply (split_text_free separator input).
  - apply computes_check.
    pose proof (join_computes (ask := ask) join separator 0 (VString <$> split_text separator input) [] Hu) as H.
    rewrite texts_of_strings, split_text_joins in H by done. apply H.
    + apply Forall_fmap. eapply Forall_impl; [by apply split_text_utf8|]. done.
    + unfold ask, string_ask. simpl. lia.
    + apply Forall_fmap, Forall_forall. intros piece Hp%(join_text_piece separator).
      rewrite split_text_joins in Hp by done. unfold ask, string_ask. simpl. lia.
Qed.

(** The literal search is linear.  Whatever the pattern, [contains] spends
    at most two steps for each byte of the pattern and of the text, and eight
    bytes of storage for each byte of the pattern: with that much room, an
    untripped token and an allocator that serves, it answers. *)
Theorem search_linear (d : OperationDescriptor) (input pattern : str) :
  implementation d = Contains → utf8 input → utf8 pattern →
  let cost := mkCost (2 * N.of_nat (length pattern) + 2 * N.of_nat (length input)) 0 0
                (8 * N.of_nat (length pattern)) (8 * N.of_nat (length pattern)) in
  ∀ s, budget_wf (budget s) →
    advances cost s (string_operation (RuntimeError:=RuntimeError) d [VString input; VString pattern] s).2 ∧
    ((∀ n, is_cancelled cancel n = false) → (∀ n, allocates n = true) → room cost (budget s) →
     (string_operation (RuntimeError:=RuntimeError) d [VString input; VString pattern] s).1 =
       Ok (VBool (bool_decide (is_Some (find pattern input))))).
Proof.
  intros Hd Hi Hp cost s Hs. unfold string_operation. rewrite Hd.
  assert (runs cost (check_cancel ;;
    if bool_decide (pattern = []) then ret (VBool true)
    else do* search := LiteralSearch_new pattern in
         do* ' (found, _) := search_next search input in
         ret (VBool (bool_decide (is_Some found))))
    (λ x, x = Ok (VBool (RuntimeError:=RuntimeError) (bool_decide (is_Some (find pattern input)))))) as H.
  { eapply runs_cost; [eapply (runs_unit no_cost cost); [apply check_cancel_returns|]|unfold cost; cost_lia].
    destruct (bool_decide_reflect (pattern = [])) as [->|Hne]; [|by apply contains_runs].
    eapply runs_cost; [apply runs_ret|unfold cost; cost_lia]. by destruct input. }
  destruct (H s Hs) as [Ha Hx]. split; [exact Ha|]. intros Hc Hr Hroom.
  destruct Hx as [Hx|Hx]; [exact Hx|]. exfalso.
  destruct Hx as [(n & _ & Hn & _)|[_ [[Hn _]|(n & _ & Hn)]]]; [by rewrite Hc in Hn|done|by rewrite Hr in Hn].
Qed.
End Reference.

(** ** At concrete inputs *)

Definition steady : Control :=
  mkControl never (λ _, true) (mkSpan 1%Z 0 4) 32 48.
Definition text_operation (i : StandardOperation) : OperationDescriptor :=
  mkDescriptor (mkOperationId (ModuleId_standard (bs "std") (bs "string")) (bs "text")) [] [] Pure foundation i.
Definition a_text (s : string) : Value Empty_set := VString (bs s).

Lemma strings_exact_witness :
  computes (C := steady) (string_ask [a_text "a, b"; a_text ", "])
    (string_operation (C := steady) (text_operation Split) [a_text "a, b"; a_text ", "])
    (string_reference (C := steady) (text_operation Split) [a_text "a, b"; a_text ", "]) ∧
  string_reference (C := steady) (text_operation Split) [a_text "a, b"; a_text ", "] =
    Ok (VList [a_text "a"; a_text "b"]).
Proof.
  split; [|vm_compute; reflexivity].
  apply (strings_exact (C := steady)).
  repeat (apply Forall_cons; split); [apply utf8b_spec; reflexivity..|apply Forall_nil; exact I].
Defined.

Lemma split_join_roundtrip_witness :
  ∃ pieces,
    computes (C := steady) (string_ask [a_text "a, b"; a_text ", "])
      (string_operation (C := steady) (text_operation Split) [a_text "a, b"; a_text ", "])
      (Ok (VList (VString <$> pieces))) ∧
    (∀ piece i, piece ∈ pieces → ¬ occurs (bs ", ") piece i) ∧
    computes (C := steady) (string_ask [a_text "a, b"; a_text ", "])
      (string_operation (C := steady) (text_operation Join) [VList (VString <$> pieces); a_text ", "])
      (Ok (a_text "a, b")).
Proof.
  apply (split_join_roundtrip (C := steady) (text_operation Split) (text_operation Join));
    [reflexivity|reflexivity|apply utf8b_spec; reflexivity|apply utf8b_spec; reflexivity|discriminate].
Defined.

Lemma search_linear_witness :
  let s := mkEvaluation opaal 0 0 in
  (string_operation (C := steady) (text_operation Contains) [a_text "aab"; a_text "ab"] s).1 =
    Ok (VBool (bool_decide (is_Some (find (bs "ab") (bs "aab"))))) ∧
  (string_operation (C := steady) (text_operation Contains) [a_text "aab"; a_text "ab"] s).1 =
    Ok (VBool (RuntimeError := Empty_set) true).
Proof.
  split; [|vm_compute; reflexivity].
  apply (search_linear (RuntimeError := Empty_set) (C := steady) (text_operation Contains) (bs "aab") (bs "ab")).
  - reflexivity.
  - apply utf8b_spec; reflexivity.
  - apply utf8b_spec; reflexivity.
  - vm_compute. repeat split; discriminate.
  - reflexivity.
  - reflexivity.
  - split_and!; [intros l [= <-]|..]; vm_compute; discriminate.
Defined.
