(* ===== verification/Records.v ===== *)
(** * Operations on records ([opaal-runtime/src/eval/record_operations.rs])

    Keys are compared and copied in charged chunks, fields are found by sorted
    indices; [compare_key_bytes] is the one of list_operations.rs. *)
From S2P Require Import Prelude Utf8 Order Source Status Value Stream Float Operation Types Catalog.
From S2P Require Import Lifetime Evaluation Strings.

Local Open Scope eval_scope.

(** ** Excerpts of keys

    [char::escape_default]: printable ASCII but quotes and the backslash as it
    is, the rest escaped. *)
Fixpoint hex_digits (fuel : nat) (c : Z) (digits : str) : str :=
  match fuel with
  | 0 => digits
  | S fuel =>
    let digit := (c mod 16)%Z in
    let digits := (if digit <? 10 then 48 + digit else 87 + digit)%Z :: digits in
    if (c / 16 =? 0)%Z then digits else hex_digits fuel (c / 16)%Z digits
  end.

Definition escape_default (c : Z) : str :=
  if (c =? 9)%Z then bs "\t" else if (c =? 13)%Z then bs "\r" else if (c =? 10)%Z then bs "\n"
  else if ((c =? 39) || (c =? 34) || (c =? 92))%Z then [92%Z; c]
  else if ((0x20 <=? c) && (c <=? 0x7E))%Z then [c]
  else bs "\u{" ++ hex_digits 6 c [] ++ bs "}".

(** The horizontal ellipsis. *)
Definition ellipsis : str := encode_char 0x2026.

Definition key_excerpt (key : str) : str :=
  let cs := chars key in
  [34%Z] ++ mjoin (escape_default <$> take 24 cs) ++
  (match drop 24 cs with [] => [] | _ => ellipsis end) ++ [34%Z].

Section Records.
Context {RuntimeError : Type} `{C : Control}.
Notation Value := (Value RuntimeError).
Notation Entry := (str * Value)%type.

(** ** Charged work *)

(** The chunks of both keys, compared in turn, then the lengths. *)
Fixpoint compare_chunks (pairs : list (str * str)) (otherwise : comparison) : Eval comparison :=
  match pairs with
  | [] => ret otherwise
  | (l, r) :: pairs =>
    visit ;;
    match bytes_compare l r with
    | Eq => compare_chunks pairs otherwise
    | order => ret order
    end
  end.

Definition compare_key_bytes (l r : str) : Eval comparison :=
  compare_chunks (combine (chunks_of l) (chunks_of r)) (Nat.compare (length l) (length r)).

Definition record_compare (l r : str) : Eval comparison := visit ;; compare_key_bytes l r.

Definition retain_record_item : Eval unit := check_cancel ;; retain_items 1.

Fixpoint retain_chunks (chunks : list str) : Eval unit :=
  match chunks with
  | [] => ret tt
  | chunk :: chunks =>
    visit ;; retain_collection_bytes (Z.of_nat (length chunk)) ;; retain_chunks chunks
  end.
Definition retain_record_key (key : str) : Eval unit := retain_chunks (chunks_of key).

Definition copy_record_entry (output : list Entry) (key : str) (value : Value) : Eval (list Entry) :=
  visit ;; retain_record_key key ;; retain_record_item ;; ret (output ++ [(key, value)]).

(** [record_workspace]: the storage of [length] cells, paid in advance. *)
Definition record_workspace (length : nat) (size : Z) : Eval unit :=
  check_cancel ;;
  do* bytes := checked_bytes (Z.of_nat length) size in
  retain_collection_bytes bytes ;; try_reserve.

Fixpoint position_loop (index : nat) (entries : list Entry) (key : str) : Eval (option nat) :=
  match entries with
  | [] => ret None
  | (candidate, _) :: entries =>
    do* order := record_compare candidate key in
    match order with
    | Eq => ret (Some index)
    | _ => position_loop (S index) entries key
    end
  end.
Definition record_position (input : list Entry) (key : str) : Eval (option nat) :=
  position_loop 0 input key.

(** ** Sorting indices

    Bottom-up merging.  A pass writes every slot of the other buffer, so the
    pass answers that buffer and the swap is the next round's argument. *)
Section MergeSort.
Context (compare : nat → nat → Eval comparison).

(** [for slot in &mut workspace[start..end]]. *)
Fixpoint merge_slots (slots : nat) (indices : list nat) (l middle r stop : nat) : Eval (list nat) :=
  match slots with
  | 0 => ret []
  | S slots =>
    visit ;;
    do* take_left :=
      (if l <? middle then
         if r =? stop then ret true
         else
           do* a := at_index indices l in
           do* b := at_index indices r in
           do* order := compare a b in
           ret (negb (comparison_eqb order Gt))
       else ret false) in
    if (take_left : bool) then
      do* index := at_index indices l in
      do* rest := merge_slots slots indices (S l) middle r stop in
      ret (index :: rest)
    else
      do* index := at_index indices r in
      do* rest := merge_slots slots indices l middle (S r) stop in
      ret (index :: rest)
  end.

Fixpoint merge_pass (fuel : nat) (indices : list nat) (width start : nat) : Eval (list nat) :=
  if start <? length indices then
    match fuel with
    | 0 => unreachable
    | S fuel =>
      let middle := Nat.min (start + width) (length indices) in
      let stop := Nat.min (middle + width) (length indices) in
      do* block := merge_slots (stop - start) indices start middle middle stop in
      do* rest := merge_pass fuel indices width stop in
      ret (block ++ rest)
    end
  else ret [].

Fixpoint merge_rounds (fuel : nat) (indices : list nat) (width : nat) : Eval (list nat) :=
  if width <? length indices then
    match fuel with
    | 0 => unreachable
    | S fuel =>
      do* indices := merge_pass (length indices) indices width 0 in
      merge_rounds fuel indices (2 * width)
    end
  else ret indices.
End MergeSort.

(** [length] units of visited work that fill a buffer. *)
Fixpoint visits (n : nat) : Eval unit :=
  match n with 0 => ret tt | S n => visit ;; visits n end.

Definition key_of (keys : list str) (index : nat) : Eval str := at_index keys index.

Definition compare_at (keys : list str) (a b : nat) : Eval comparison :=
  do* l := key_of keys a in
  do* r := key_of keys b in
  record_compare l r.

Definition sorted_record_indices (keys : list str) : Eval (list nat) :=
  let n := length keys in
  record_workspace n size_of_usize ;;
  visits n ;;
  if n <? 2 then ret (seq 0 n)
  else
    record_workspace n size_of_usize ;;
    visits n ;;
    merge_rounds (compare_at keys) n (seq 0 n) 1.

(** ** The operations *)

Definition record_error {A} (descriptor : OperationDescriptor) (message : str) : Eval A :=
  operation_error (invalid descriptor message).

Fixpoint keys_loop (entries : list Entry) (output : list Value) : Eval Value :=
  match entries with
  | [] => ret (VList output)
  | (key, _) :: entries =>
    visit ;; retain_record_key key ;; retain_record_item ;;
    keys_loop entries (output ++ [VString key])
  end.

Fixpoint set_loop (index : nat) (position : option nat) (value : Value) (entries output : list Entry)
    : Eval (list Entry) :=
  match entries with
  | [] => ret output
  | (existing, current) :: entries =>
    do* output := copy_record_entry output existing
      (if bool_decide (position = Some index) then value else current) in
    set_loop (S index) position value entries output
  end.

Definition record_set (input : list Entry) (key : str) (position : option nat) (value : Value) : Eval Value :=
  record_workspace (length input + (if position then 0 else 1)) size_of_entry ;;
  do* output := set_loop 0 position value input [] in
  do* output := (if position then ret output else copy_record_entry output key value) in
  ret (VRecord output).

(** Every requested key is a string. *)
Fixpoint requested_keys (descriptor : OperationDescriptor) (keys : list Value) : Eval (list str) :=
  match keys with
  | [] => ret []
  | key :: keys =>
    visit ;;
    match key with
    | VString text => do* rest := requested_keys descriptor keys in ret (text :: rest)
    | _ => record_error descriptor (bs "requested keys must be Strings")
    end
  end.

(** [sorted.windows(2)]: the first neighbours that are equal. *)
Fixpoint repeated_key (keys : list str) (sorted : list nat) : Eval (option str) :=
  match sorted with
  | a :: ((b :: _) as rest) =>
    do* order := compare_at keys a b in
    match order with
    | Eq => do* key := key_of keys b in ret (Some key)
    | _ => repeated_key keys rest
    end
  | _ => ret None
  end.

Fixpoint find_loop (fuel : nat) (keys : list str) (sorted : list nat) (key : str) (low high : nat)
    : Eval (option nat) :=
  if low <? high then
    match fuel with
    | 0 => unreachable
    | S fuel =>
      let middle := low + (high - low) / 2 in
      do* entry := at_index sorted middle in
      do* candidate := key_of keys entry in
      do* order := record_compare candidate key in
      match order with
      | Lt => find_loop fuel keys sorted key (S middle) high
      | Gt => find_loop fuel keys sorted key low middle
      | Eq => ret (Some entry)
      end
    end
  else ret None.

Fixpoint select_loop (descriptor : OperationDescriptor) (entries : list Entry) (sorted : list nat)
    (requests : list str) (output : list Entry) : Eval Value :=
  match requests with
  | [] => ret (VRecord output)
  | key :: requests =>
    visit ;;
    do* found := find_loop (length sorted) entries.*1 sorted key 0 (length sorted) in
    match found with
    | None => record_error descriptor (bs "missing requested key " ++ key_excerpt key)
    | Some index =>
      do* entry := at_index entries index in
      do* output := copy_record_entry output entry.1 entry.2 in
      select_loop descriptor entries sorted requests output
    end
  end.

Definition record_select (descriptor : OperationDescriptor) (entries : list Entry) (keys : list Value)
    : Eval Value :=
  do* requests := requested_keys descriptor keys in
  if bool_decide (requests = []) then ret (VRecord [])
  else
    do* sorted_requests := sorted_record_indices requests in
    do* repeated := repeated_key requests sorted_requests in
    match repeated with
    | Some key => record_error descriptor (bs "repeated requested key " ++ key_excerpt key)
    | None =>
      do* sorted_input := sorted_record_indices entries.*1 in
      record_workspace (length keys) size_of_entry ;;
      select_loop descriptor entries sorted_input requests []
    end.

(** The next index in sorted order, when its key is the same. *)
Definition paired_with (keys : list str) (sorted : list nat) (cursor first : nat) : Eval (option nat) :=
  if S cursor <? length sorted then
    do* second := at_index sorted (S cursor) in
    do* order := compare_at keys first second in
    ret (if comparison_eqb order Eq then Some second else None)
  else ret None.

(** The groups of equal keys in sorted order: a lone entry wins its own slot,
    a right entry the slot of the left one it replaces.  [None] stands for the
    [usize::MAX] of a slot nobody wins. *)
Fixpoint winners_loop (fuel : nat) (lefts : nat) (keys : list str) (sorted : list nat) (cursor retained : nat)
    (winners : list (option nat)) : Eval (list (option nat) * nat) :=
  if cursor <? length sorted then
    match fuel with
    | 0 => unreachable
    | S fuel =>
      visit ;;
      do* first := at_index sorted cursor in
      do* paired := paired_with keys sorted cursor first in
      do* _ := at_index winners first in
      match paired with
      | Some second =>
        if (first <? lefts) && (lefts <=? second) then
          winners_loop fuel lefts keys sorted (cursor + 2) (S retained) (<[first := Some second]> winners)
        else unreachable
      | None =>
        winners_loop fuel lefts keys sorted (S cursor) (S retained) (<[first := Some first]> winners)
      end
    end
  else ret (winners, retained).

Fixpoint merge_loop (entries : list Entry) (winners : list (option nat)) (output : list Entry)
    : Eval Value :=
  match winners with
  | [] => ret (VRecord output)
  | winner :: winners =>
    visit ;;
    match winner with
    | Some index =>
      do* entry := at_index entries index in
      do* output := copy_record_entry output entry.1 entry.2 in
      merge_loop entries winners output
    | None => merge_loop entries winners output
    end
  end.

Definition merge_records (l r : list Entry) : Eval Value :=
  let entries := l ++ r in
  let n := length entries in
  do* sorted := sorted_record_indices entries.*1 in
  record_workspace n size_of_usize ;;
  visits n ;;
  do* ' (winners, retained) := winners_loop n (length l) entries.*1 sorted 0 0 (replicate n None) in
  record_workspace retained size_of_entry ;;
  merge_loop entries winners [].

Definition record_operation (descriptor : OperationDescriptor) (arguments : list Value) : Eval Value :=
  check_cancel ;;
  match implementation descriptor, arguments with
  | RecordKeys, VRecord input :: _ =>
    record_workspace (length input) size_of_value ;; keys_loop input []
  | RecordHas, VRecord input :: VString key :: _ =>
    do* position := record_position input key in
    ret (VBool (bool_decide (is_Some position)))
  | RecordGetOr, VRecord input :: VString key :: fallback :: _ =>
    do* position := record_position input key in
    retain_record_item ;;
    retain_collection_bytes size_of_value ;;
    match position with
    | None => ret fallback
    | Some index => do* entry := at_index input index in ret entry.2
    end
  | RecordSet, VRecord input :: VString key :: value :: _ =>
    do* position := record_position input key in
    record_set input key position value
  | RecordSelect, VRecord input :: VList keys :: _ => record_select descriptor input keys
  | RecordMerge, VRecord l :: VRecord r :: _ => merge_records l r
  | _, _ => unreachable
  end.
End Records.
