(* ===== verification/RecordsFacts.v ===== *)
(** * The operations on records are exact

    Sorting indices by merging is a stable sort for any comparison that
    computes a total preorder; every operation of [Records] computes a plain
    function of the entries. *)
From S2P Require Import Prelude Utf8 Order Compare Source Status Value Stream Float Operation Types Catalog.
From S2P Require Import Lifetime Evaluation Strings StringsFacts Records.

Local Open Scope eval_scope.

(** ** Merging *)

Section Merge.
Context `{C : Control} {ask : N} (n : nat) (compare : nat → nat → Eval comparison) (cmp : nat → nat → comparison).
Notation computes := (computes ask).
Context (Hcompare : ∀ a b, a < n → b < n → computes (compare a b) (Ok (cmp a b))).
Context (Hcmp : preorder_among cmp (seq 0 n)).

(** By the keys, then by the position: what a stable sort orders. *)
Definition index_le (a b : nat) : Prop := cmp a b ≠ Gt ∧ (cmp a b = Eq → a ≤ b).
Definition sorted_indices (l : list nat) : Prop := StronglySorted index_le l.

Lemma cmp_swap a b : a < n → b < n → cmp b a = CompOpp (cmp a b).
Proof. intros Ha Hb. apply (proj1 Hcmp); apply elem_of_seq; lia. Qed.

Lemma cmp_trans a b c : a < n → b < n → c < n → cmp a b ≠ Gt → cmp b c ≠ Gt → cmp a c ≠ Gt.
Proof. intros Ha Hb Hc. apply (proj2 Hcmp); apply elem_of_seq; lia. Qed.

Lemma cmp_equal a b : a < n → b < n → cmp a b ≠ Gt → cmp b a ≠ Gt → cmp a b = Eq.
Proof. intros Ha Hb. rewrite (cmp_swap a b) by done. by destruct (cmp a b). Qed.

Lemma index_le_trans a b c : a < n → b < n → c < n → index_le a b → index_le b c → index_le a c.
Proof.
  intros Ha Hb Hc [H1 H1'] [H2 H2']. split; [by apply (cmp_trans a b c)|]. intros E.
  assert (cmp c a ≠ Gt) as Hca by (rewrite (cmp_swap a c), E; done).
  transitivity b; [apply H1', cmp_equal|apply H2', cmp_equal]; try done.
  - by apply (cmp_trans b c a).
  - by apply (cmp_trans c a b).
Qed.

Definition below (l : list nat) : Prop := Forall (λ a, a < n) l.

Lemma index_le_all a b l :
  a < n → b < n → below l → index_le a b → Forall (index_le b) l → Forall (index_le a) l.
Proof.
  intros Ha Hb Hl Hab Hall. unfold below in Hl. rewrite list.Forall_forall in Hl, Hall |- *.
  intros c Hc. apply (index_le_trans a b c); auto.
Qed.

(** A comparison of two indices, as the merge asks it: by the keys alone, and
    the left index is the smaller. *)
Lemma index_le_left a b : a < n → b < n → a < b →
  if negb (comparison_eqb (cmp a b) Gt) then index_le a b else index_le b a.
Proof.
  intros Ha Hb Hab. unfold index_le. rewrite (cmp_swap a b) by done.
  destruct (cmp a b); simpl; split; try done; intros; (lia || done).
Qed.

(** *** One block *)

Lemma take_slot indices i x (m : Eval (list nat)) k :
  indices !! i = Some x → computes m (Ok k) →
  computes (do* index := at_index indices i in do* rest := m in ret (index :: rest)) (Ok (x :: k)).
Proof.
  intros Hx Hm. unfold at_index. rewrite Hx. apply (computes_bind_ok _ _ x); [apply computes_lift|].
  eapply computes_bind_ok; [exact Hm|]. apply computes_ret.
Qed.

Lemma ask_slots indices i j a b :
  indices !! i = Some a → indices !! j = Some b → a < n → b < n →
  computes (do* a := at_index indices i in do* b := at_index indices j in
    do* order := compare a b in ret (negb (comparison_eqb order Gt)))
    (Ok (negb (comparison_eqb (cmp a b) Gt))).
Proof.
  intros Ha Hb Han Hbn. unfold at_index. rewrite Ha, Hb.
  eapply computes_bind_ok; [apply computes_lift|]. eapply computes_bind_ok; [apply computes_lift|].
  eapply computes_bind_ok; [eauto|]. apply computes_ret.
Qed.

Lemma sub_head (indices : list nat) i j a :
  i < j → indices !! i = Some a → sub indices i j = a :: sub indices (S i) j.
Proof.
  intros Hij Ha. unfold sub. rewrite (drop_S _ _ _ Ha). by replace (j - i) with (S (j - S i)) by lia.
Qed.

Lemma sub_nil {A} (l : list A) i j : j ≤ i → sub l i j = [].
Proof. intros. unfold sub. by replace (j - i) with 0 by lia. Qed.

Lemma below_lookup l i a : below l → l !! i = Some a → a < n.
Proof. intros Hl Ha. unfold below in Hl. rewrite list.Forall_forall in Hl. by eapply Hl, list_elem_of_lookup_2. Qed.

(** Two runs of a block, the left one before the right one, each sorted. *)
Definition runs_sorted (L R : list nat) : Prop :=
  (∀ a b, a ∈ L → b ∈ R → a < b) ∧ sorted_indices L ∧ sorted_indices R.
Definition merged (L R k : list nat) : Prop := k ≡ₚ L ++ R ∧ sorted_indices k.

Lemma merged_left a L R k :
  runs_sorted (a :: L) R → Forall (index_le a) R → merged L R k → merged (a :: L) R (a :: k).
Proof.
  intros (_ & HL & _) Hall [Hp Hk]. apply StronglySorted_inv in HL as [_ HL].
  split; [by rewrite Hp|]. constructor; [done|]. rewrite Hp. by apply Forall_app.
Qed.

Lemma merged_right b L R k :
  runs_sorted L (b :: R) → Forall (index_le b) L → merged L R k → merged L (b :: R) (b :: k).
Proof.
  intros (_ & _ & HR) Hall [Hp Hk]. apply StronglySorted_inv in HR as [_ HR].
  split; [rewrite Hp; apply Permutation_middle|]. constructor; [done|]. rewrite Hp. by apply Forall_app.
Qed.

Lemma runs_sorted_l a L R : runs_sorted (a :: L) R → runs_sorted L R.
Proof.
  intros (Hlt & HL & HR). apply StronglySorted_inv in HL as [HL _].
  split_and!; [|done..]. intros x y Hx. apply Hlt. by right.
Qed.

Lemma runs_sorted_r b L R : runs_sorted L (b :: R) → runs_sorted L R.
Proof.
  intros (Hlt & HL & HR). apply StronglySorted_inv in HR as [HR _].
  split_and!; [|done..]. intros x y Hx Hy. apply Hlt; [done|by right].
Qed.

(** Of the two heads the one to take precedes both runs. *)
Lemma heads a b L R :
  below (a :: L) → below (b :: R) → runs_sorted (a :: L) (b :: R) →
  if negb (comparison_eqb (cmp a b) Gt) then Forall (index_le a) (b :: R) else Forall (index_le b) (a :: L).
Proof.
  intros [Ha HL]%Forall_cons_1 [Hb HR]%Forall_cons_1 (Hlt & HsL & HsR).
  apply StronglySorted_inv in HsL as [_ HsL]. apply StronglySorted_inv in HsR as [_ HsR].
  pose proof (index_le_left a b Ha Hb (Hlt a b ltac:(by left) ltac:(by left))) as Hle.
  destruct (negb (comparison_eqb (cmp a b) Gt)); (constructor; [done|]).
  - by apply (index_le_all a b).
  - by apply (index_le_all b a).
Qed.

Lemma merge_slots_ok slots indices l middle r stop :
  slots = (middle - l) + (stop - r) → l ≤ middle → r ≤ stop → middle ≤ stop ≤ length indices →
  below indices → runs_sorted (sub indices l middle) (sub indices r stop) →
  ∃ k, computes (merge_slots compare slots indices l middle r stop) (Ok k) ∧
    merged (sub indices l middle) (sub indices r stop) k.
Proof.
  revert l r. induction slots as [|slots IH]; intros l r Hs Hl Hr Hm Hb Hruns; cbn [merge_slots].
  { exists []. rewrite !sub_nil by lia. split; [apply computes_ret|split; [done|constructor]]. }
  assert (∀ i j, below (sub indices i j)) as Hbelow by (intros; by apply Forall_take, Forall_drop).
  assert (∀ a, l < middle → indices !! l = Some a → Forall (index_le a) (sub indices r stop) →
    ∃ k, computes (do* index := at_index indices l in
      do* rest := merge_slots compare slots indices (S l) middle r stop in ret (index :: rest)) (Ok k) ∧
      merged (sub indices l middle) (sub indices r stop) k) as Hleft.
  { intros a Hlm Ha Hall. rewrite (sub_head indices l middle a) in * by done.
    destruct (IH (S l) r) as (k & Hk & Hmk); try done; [lia..|by eapply runs_sorted_l|].
    exists (a :: k). split; [by apply take_slot|by apply merged_left]. }
  assert (∀ b, r < stop → indices !! r = Some b → Forall (index_le b) (sub indices l middle) →
    ∃ k, computes (do* index := at_index indices r in
      do* rest := merge_slots compare slots indices l middle (S r) stop in ret (index :: rest)) (Ok k) ∧
      merged (sub indices l middle) (sub indices r stop) k) as Hright.
  { intros b Hrs Hb' Hall. rewrite (sub_head indices r stop b) in * by done.
    destruct (IH l (S r)) as (k & Hk & Hmk); try done; [lia..|by eapply runs_sorted_r|].
    exists (b :: k). split; [by apply take_slot|by apply merged_right]. }
  assert (∀ (m : Eval bool) x m1 m2 P, computes m (Ok x) →
    (∃ k, computes (if (x : bool) then m1 else m2) (Ok k) ∧ P k) →
    ∃ k : list nat, computes (visit ;; do* x := m in if (x : bool) then m1 else m2) (Ok k) ∧ P k) as Hgo.
  { intros m x m1 m2 P Hask (k & Hk & HP). exists k. split; [|done].
    apply computes_visit. by eapply computes_bind_ok. }
  destruct (Nat.ltb_spec l middle) as [Hlm|Hlm].
  2: { destruct (lookup_lt_is_Some_2 indices r) as [b Hb']; [lia|].
    apply (Hgo _ false); [apply computes_ret|]. apply (Hright b); [lia|done|]. by rewrite sub_nil. }
  destruct (lookup_lt_is_Some_2 indices l) as [a Ha]; [lia|].
  destruct (Nat.eqb_spec r stop) as [->|Hrs].
  { apply (Hgo _ true); [apply computes_ret|]. apply (Hleft a); [done..|]. by rewrite sub_nil. }
  destruct (lookup_lt_is_Some_2 indices r) as [b Hb']; [lia|].
  eapply Hgo; [apply (ask_slots _ _ _ a b); eauto using below_lookup|].
  pose proof (Hbelow l middle) as HbL. pose proof (Hbelow r stop) as HbR.
  rewrite (sub_head indices l middle a) in Hruns, HbL by done.
  rewrite (sub_head indices r stop b) in Hruns, HbR by (done || lia).
  pose proof (heads a b _ _ HbL HbR Hruns) as Hh. destruct (negb (comparison_eqb (cmp a b) Gt)).
  - apply (Hleft a); [done..|]. by rewrite (sub_head indices r stop b) by (done || lia).
  - apply (Hright b); [lia|done|]. by rewrite (sub_head indices l middle a) by done.
Qed.

(** *** A pass and the rounds *)

(** A list of sorted blocks of [w] positions from [s] on; the last may be
    shorter. *)
Inductive blocked (w : nat) : nat → list nat → Prop :=
| blocked_nil s : blocked w s []
| blocked_cons s b rest :
    b ≡ₚ seq s (length b) → sorted_indices b → 0 < length b ≤ w →
    (rest = [] ∨ length b = w) → blocked w (s + length b) rest → blocked w s (b ++ rest).

Lemma blocked_bounds w s l : blocked w s l → Forall (λ a, s ≤ a < s + length l) l.
Proof.
  induction 1 as [|s b rest Hp Hs Hl Hw Hrest IH]; [constructor|]. rewrite length_app. apply Forall_app. split.
  - rewrite Hp. apply list.Forall_forall. intros a [??]%elem_of_seq. lia.
  - eapply Forall_impl; [exact IH|]. simpl. intros a. lia.
Qed.

Lemma blocked_length w s l : blocked w s l → length l ≤ w → l ≡ₚ seq s (length l) ∧ sorted_indices l.
Proof.
  destruct 1 as [s|s b rest Hp Hs Hl Hw Hrest]; intros Hlen; [split; [done|constructor]|].
  rewrite length_app in Hlen. assert (rest = []) as ->.
  { destruct Hw as [?|Hw]; [done|]. apply nil_length_inv. lia. }
  by rewrite app_nil_r.
Qed.

Lemma blocked_singles s m : blocked 1 s (seq s m).
Proof.
  revert s. induction m as [|m IH]; intros s; [constructor|].
  apply (blocked_cons 1 s [s]); simpl; [done|by repeat constructor|lia|by right|].
  rewrite Nat.add_1_r. apply IH.
Qed.

(** The first two blocks, the second one empty at the end. *)
Definition run_of (w s : nat) (l : list nat) : Prop :=
  l ≡ₚ seq s (length l) ∧ sorted_indices l ∧ length l ≤ w.

Lemma first_blocks w s l :
  blocked w s l → 0 < length l →
  ∃ L R rest, l = L ++ R ++ rest ∧ run_of w s L ∧ run_of w (s + length L) R ∧
    0 < length L ∧ (length L = w ∨ R = [] ∧ rest = []) ∧ (length R = w ∨ rest = []) ∧
    blocked w (s + length L + length R) rest.
Proof.
  destruct 1 as [s|s L more HpL HsL HlL HwL Hmore]; intros Hlen; [simpl in *; lia|].
  remember (s + length L) as t eqn:Et. destruct Hmore as [t|t R rest HpR HsR HlR HwR Hrest].
  - exists L, [], []. rewrite <- Et. unfold run_of. simpl. split_and!; try done; try lia; try by right.
    + constructor.
    + constructor.
  - exists L, R, rest. rewrite <- Et. unfold run_of. split_and!; try done; try lia; [|tauto].
    destruct HwL as [Hnil|]; [|by left]. apply app_nil in Hnil as [-> _]. simpl in *. lia.
Qed.

Lemma merge_pass_ok fuel indices w start :
  0 < w → below indices → blocked w start (drop start indices) → length indices - start ≤ fuel →
  ∃ k, computes (merge_pass compare fuel indices w start) (Ok k) ∧ length k = length indices - start ∧
    blocked (2 * w) start k.
Proof.
  intros Hw Hb. revert start. induction fuel as [|fuel IH]; intros start Hbl Hf; cbn [merge_pass];
    (destruct (Nat.ltb_spec start (length indices)) as [Hlt|Hge];
     [|exists []; split_and!; [apply computes_ret|simpl; lia|constructor]]); [lia|].
  destruct (first_blocks w start (drop start indices) Hbl) as
    (L & R & rest & Hd & HL & HR & Hlast & Hrest).
  { rewrite length_drop. lia. }
  assert (length indices - start = length L + length R + length rest) as Hlen.
  { rewrite <- length_drop, Hd, !length_app. lia. }
  destruct HL as (HpL & HsL & HlL), HR as (HpR & HsR & HlR), Hrest as (HwL & HwR & Hrest).
  assert (Nat.min (start + w) (length indices) = start + length L) as ->.
  { destruct HwL as [HwL|[-> ->]]; simpl in *; lia. }
  assert (Nat.min (start + length L + w) (length indices) = start + length L + length R) as ->.
  { destruct HwR as [HwR| ->]; [lia|]. simpl in *. lia. }
  assert (sub indices start (start + length L) = L) as HsubL.
  { unfold sub. rewrite Hd. replace (start + length L - start) with (length L) by lia. apply take_app_length. }
  assert (sub indices (start + length L) (start + length L + length R) = R) as HsubR.
  { unfold sub. rewrite <- drop_drop, Hd, drop_app_length.
    replace (start + length L + length R - (start + length L)) with (length R) by lia. apply take_app_length. }
  assert (drop (start + length L + length R) indices = rest) as Hdrop.
  { by rewrite <- !drop_drop, Hd, !drop_app_length. }
  destruct (merge_slots_ok (start + length L + length R - start) indices start (start + length L)
    (start + length L) (start + length L + length R)) as (block & Hblock & Hp & Hs); try done; try lia.
  { rewrite HsubL, HsubR. split_and!; [|done..]. intros a b. rewrite HpL, HpR, !elem_of_seq. lia. }
  destruct (IH (start + length L + length R)) as (k & Hk & Hlk & Hbk); [by rewrite Hdrop|lia|].
  rewrite HsubL, HsubR in Hp. assert (length block = length L + length R) as Hlb by (by rewrite Hp, length_app).
  exists (block ++ k). split_and!.
  - eapply computes_bind_ok; [exact Hblock|]. eapply computes_bind_ok; [exact Hk|]. apply computes_ret.
  - rewrite length_app. lia.
  - constructor; [|done|lia| |].
    + rewrite Hlb, seq_app, Hp. by apply Permutation_app.
    + assert (rest = [] → k = []) as Hk0.
      { intros ->. simpl in Hlen. apply nil_length_inv. lia. }
      destruct HwR as [HwR|Hr]; [|by left; apply Hk0].
      destruct HwL as [HwL|[_ Hr]]; [right; lia|by left; apply Hk0].
    + by rewrite Hlb, Nat.add_assoc.
Qed.

Lemma merge_rounds_ok fuel indices w :
  0 < w → length indices = n → blocked w 0 indices → n ≤ w + fuel →
  ∃ k, computes (merge_rounds compare fuel indices w) (Ok k) ∧ k ≡ₚ seq 0 n ∧ sorted_indices k.
Proof.
  revert indices w. induction fuel as [|fuel IH]; intros indices w Hw Hn Hb Hf; cbn [merge_rounds];
    (destruct (Nat.ltb_spec w (length indices)) as [Hlt|Hge];
     [|exists indices; split; [apply computes_ret|]; rewrite <- Hn at 1; by apply (blocked_length w 0)]); [lia|].
  destruct (merge_pass_ok (length indices) indices w 0) as (k & Hk & Hlk & Hbk); [done| |by rewrite drop_0|lia|].
  { apply blocked_bounds in Hb. eapply Forall_impl; [exact Hb|]. simpl. intros a. lia. }
  destruct (IH k (2 * w)) as (k' & Hk' & Hrest); [lia|lia|done|lia|].
  exists k'. split; [|done]. eapply computes_bind_ok; [exact Hk|done].
Qed.

Lemma merge_sort_ok :
  ∃ k, computes (merge_rounds compare n (seq 0 n) 1) (Ok k) ∧ k ≡ₚ seq 0 n ∧ sorted_indices k.
Proof. apply merge_rounds_ok; [lia|apply length_seq|apply blocked_singles|lia]. Qed.
End Merge.

(** ** Keys *)

(** Storage for so many cells of any kind, or a chunk of a key. *)
Definition cell `{C : Control} : N := 8 + value_size + entry_size.
Definition holds `{C : Control} (ask : N) (cells : nat) : Prop := (4096 + N.of_nat cells * cell ≤ ask)%N.

Section Keys.
Context `{C : Control} {ask : N}.
Notation computes := (computes ask).

Lemma bytes_compare_chunk m l r :
  bytes_compare l r =
    match bytes_compare (take m l) (take m r) with
    | Eq => bytes_compare (drop m l) (drop m r)
    | order => order
    end.
Proof.
  revert l r. induction m as [|m IH]; intros [|x l] [|y r]; try done.
  simpl. destruct (x ?= y)%Z; [apply IH|done..].
Qed.

Lemma length_compare_chunk {A} m (l r : list A) :
  take m l = take m r →
  Nat.compare (length l) (length r) = Nat.compare (length (drop m l)) (length (drop m r)).
Proof.
  intros E%(f_equal length). rewrite !length_take in E. rewrite !length_drop.
  destruct (Nat.compare_spec (length l) (length r));
    symmetry; [apply Nat.compare_eq_iff|apply Nat.compare_lt_iff|apply Nat.compare_gt_iff]; lia.
Qed.

Lemma compare_chunks_computes f g l r :
  length l ≤ f → length r ≤ g →
  computes (compare_chunks (combine (chunks_fuel f l) (chunks_fuel g r)) (Nat.compare (length l) (length r)))
    (Ok (bytes_compare l r)).
Proof.
  pose proof chunk_size_wide. revert g l r. induction f as [|f IH]; intros g l r Hf Hg.
  { apply nil_length_inv in Hf || (assert (l = []) as -> by (apply nil_length_inv; lia)).
    destruct r; apply computes_ret. }
  destruct l as [|x l]; [destruct r; apply computes_ret|].
  destruct r as [|y r]; [destruct g; apply computes_ret|].
  destruct g as [|g]; [simpl in *; lia|].
  set (s := x :: l) in *. set (t := y :: r) in *.
  change (chunks_fuel (S f) s) with (take chunk_size s :: chunks_fuel f (drop chunk_size s)).
  change (chunks_fuel (S g) t) with (take chunk_size t :: chunks_fuel g (drop chunk_size t)).
  cbn [combine compare_chunks]. apply computes_visit. rewrite (bytes_compare_chunk chunk_size s t).
  destruct (bytes_compare (take chunk_size s) (take chunk_size t)) eqn:E; try apply computes_ret.
  apply bytes_compare_eq in E. rewrite (length_compare_chunk chunk_size s t) by done.
  assert (0 < length s) by (subst s; simpl; lia). assert (0 < length t) by (subst t; simpl; lia).
  apply IH; rewrite length_drop; lia.
Qed.

Lemma compare_key_bytes_computes l r : computes (compare_key_bytes l r) (Ok (bytes_compare l r)).
Proof. by apply compare_chunks_computes. Qed.

Lemma record_compare_computes l r : computes (record_compare l r) (Ok (bytes_compare l r)).
Proof. apply computes_visit, compare_key_bytes_computes. Qed.

Lemma compare_at_computes keys a b x y :
  keys !! a = Some x → keys !! b = Some y → computes (compare_at keys a b) (Ok (bytes_compare x y)).
Proof.
  intros Hx Hy. unfold compare_at, key_of, at_index. rewrite Hx, Hy.
  eapply computes_bind_ok; [apply computes_lift|]. eapply computes_bind_ok; [apply computes_lift|].
  apply record_compare_computes.
Qed.

(** The order of the positions of a list of keys. *)
Definition key_order (keys : list str) (a b : nat) : comparison :=
  bytes_compare (nth a keys []) (nth b keys []).

Lemma key_order_preorder keys l : preorder_among (key_order keys) l.
Proof.
  split; intros a b; [intros _ _; apply bytes_compare_antisym|]. intros c _ _ _.
  assert (∀ x y, bytes_compare x y ≠ Gt ↔ cmp_le bytes_compare x y = true) as Hle.
  { intros x y. unfold cmp_le. by destruct (bytes_compare x y). }
  unfold key_order. rewrite !Hle. apply cmp_le_trans. apply _.
Qed.

Lemma visits_returns k : returns (steps (N.of_nat k)) (visits k) (λ _, True).
Proof.
  induction k as [|k IH]; cbn [visits]; [eapply runs_cost; [by apply returns_ret|cost_lia]|].
  eapply runs_cost; [eapply runs_unit; [apply visit_returns|exact IH]|cost_lia].
Qed.

Lemma computes_visits {B} k (m : unit → Eval B) r : computes (m tt) r → computes (bind (visits k) m) r.
Proof. apply computes_unit with (1 := visits_returns k). simpl. lia. Qed.

Lemma record_workspace_returns k size :
  (0 ≤ size)%Z → returns (bytes_cost (Z.to_N (Z.of_nat k * size))) (record_workspace k size) (λ _, True).
Proof.
  intros Hs. eapply runs_cost.
  - unfold record_workspace. eapply runs_unit; [apply check_cancel_returns|].
    eapply runs_ext; [intros s; apply bind_assoc|].
    eapply runs_unit; [apply checked_bytes_returns; lia|apply try_reserve_returns].
  - cost_lia.
Qed.

Lemma computes_workspace {B} cells k size (m : unit → Eval B) r :
  holds ask cells → k ≤ cells → (0 ≤ size ≤ Z.of_N cell)%Z →
  computes (m tt) r → computes (bind (record_workspace k size) m) r.
Proof.
  unfold holds. intros Ha Hk [Hs Hc].
  apply computes_unit with (1 := record_workspace_returns k size Hs). simpl. nia.
Qed.

(** The indices of the keys in ascending order, equal keys in their order. *)
Definition ordered (keys : list str) (indices : list nat) : Prop :=
  indices ≡ₚ seq 0 (length keys) ∧ StronglySorted (index_le (key_order keys)) indices.

Lemma sorted_record_indices_ok cells keys :
  holds ask cells → length keys ≤ cells →
  ∃ k, computes (sorted_record_indices keys) (Ok k) ∧ ordered keys k.
Proof.
  intros Ha Hlen. assert (0 ≤ size_of_usize ≤ Z.of_N cell)%Z as Hu by (unfold size_of_usize, cell; lia).
  unfold sorted_record_indices, ordered. destruct (Nat.ltb_spec (length keys) 2) as [Hlt|Hge].
  - exists (seq 0 (length keys)). split_and!; [|done|].
    + apply (computes_workspace cells); [done..|]. apply computes_visits, computes_ret.
    + destruct (length keys) as [|[|m]]; [constructor|by repeat constructor|lia].
  - destruct (merge_sort_ok (length keys) (compare_at keys) (key_order keys) (ask := ask)) as (k & Hk & Hp & Hs).
    + intros a b Hla Hb. destruct (lookup_lt_is_Some_2 keys a Hla) as [x Hx].
      destruct (lookup_lt_is_Some_2 keys b Hb) as [y Hy]. unfold key_order.
      rewrite (nth_lookup_Some keys a [] x), (nth_lookup_Some keys b [] y) by done.
      by apply compare_at_computes.
    + apply key_order_preorder.
    + exists k. split_and!; [|done..].
      apply (computes_workspace cells); [done..|]. apply computes_visits.
      apply (computes_workspace cells); [done..|]. by apply computes_visits.
Qed.
End Keys.

(** ** The operations *)

(** [record.set] on plain entries. *)
Fixpoint record_put {V} (entries : list (str * V)) (key : str) (value : V) : list (str * V) :=
  match entries with
  | [] => [(key, value)]
  | (k, v) :: entries => if str_eqb k key then (k, value) :: entries else (k, v) :: record_put entries key value
  end.

(** [record.merge]: the left entries with the values the right ones give them,
    then the right entries with new keys. *)
Definition record_union {V} (l r : list (str * V)) : list (str * V) :=
  ((λ e, (e.1, default e.2 (map_get r e.1))) <$> l) ++ filter (λ e, e.1 ∉ l.*1) r.

Section Operations.
Context {RuntimeError : Type} `{C : Control} {ask : N} {cells : nat} (Hask : holds ask cells).
Notation computes := (computes ask).
Notation Value := (Value RuntimeError).
Notation Entry := (str * Value)%type.

Lemma ask_chunk : (4096 ≤ ask)%N.
Proof. unfold holds in Hask. lia. Qed.

Lemma retain_chunks_returns fuel key :
  ∃ c, (cost_ask c ≤ 4096)%N ∧ returns c (retain_chunks (chunks_fuel fuel key)) (λ _, True).
Proof.
  revert key. induction fuel as [|fuel IH]; intros key;
    [exists no_cost; split; [done|]; by apply returns_ret|].
  destruct key as [|x key]; [exists no_cost; split; [done|]; by apply returns_ret|].
  destruct (IH (drop chunk_size (x :: key))) as (c & Hc & Hr).
  eexists. split; cycle 1.
  { cbn [chunks_fuel retain_chunks]. eapply runs_unit; [apply visit_returns|].
    eapply runs_unit; [apply retain_bytes_nonneg; lia|exact Hr]. }
  cbn [cost_ask cost_add steps bytes_cost]. rewrite length_take. unfold chunk_size, CHUNK. lia.
Qed.

Lemma computes_key {B} key (m : unit → Eval B) r :
  computes (m tt) r → computes (bind (retain_record_key key) m) r.
Proof.
  destruct (retain_chunks_returns (length key) key) as (c & Hc & Hr). pose proof ask_chunk.
  apply computes_unit with (1 := Hr). lia.
Qed.

Lemma computes_record_item {B} (m : unit → Eval B) r :
  computes (m tt) r → computes (bind retain_record_item m) r.
Proof.
  pose proof ask_chunk. intros Hm. apply computes_assoc, computes_check, computes_item, Hm. lia.
Qed.

Lemma copy_record_entry_computes (output : list Entry) key value :
  computes (copy_record_entry output key value) (Ok (output ++ [(key, value)])).
Proof. apply computes_visit, computes_key, computes_record_item, computes_ret. Qed.

Lemma keys_loop_computes (entries : list Entry) output :
  computes (keys_loop entries output) (Ok (VList (output ++ (VString <$> entries.*1)))).
Proof.
  revert output. induction entries as [|[k v] entries IH]; intros output; cbn [keys_loop].
  - rewrite app_nil_r. apply computes_ret.
  - apply computes_visit, computes_key, computes_record_item.
    specialize (IH (output ++ [VString k])). by rewrite <- app_assoc in IH.
Qed.

Fixpoint key_position (index : nat) (entries : list Entry) (key : str) : option nat :=
  match entries with
  | [] => None
  | (k, _) :: entries => if str_eqb k key then Some index else key_position (S index) entries key
  end.

Lemma position_loop_computes index (entries : list Entry) key :
  computes (position_loop index entries key) (Ok (key_position index entries key)).
Proof.
  revert index. induction entries as [|[k v] entries IH]; intros index; cbn [position_loop key_position].
  - apply computes_ret.
  - eapply computes_bind_ok; [apply record_compare_computes|].
    destruct (str_eqb k key) eqn:E.
    + apply str_eqb_eq in E as ->. rewrite bytes_compare_refl. apply computes_ret.
    + destruct (bytes_compare k key) eqn:E'; [|apply IH..].
      apply bytes_compare_eq in E' as ->. by rewrite (proj2 (str_eqb_eq key key)) in E.
Qed.

Lemma key_position_get index (entries : list Entry) key :
  match key_position index entries key with
  | Some i => index ≤ i ∧ ∃ e, entries !! (i - index) = Some e ∧ e.1 = key ∧ Record_get entries key = Some e.2
  | None => Record_get entries key = None ∧ key ∉ entries.*1
  end.
Proof.
  revert index. induction entries as [|[k v] entries IH]; intros index; cbn [key_position Record_get].
  { split; [done|apply not_elem_of_nil]. }
  destruct (str_eqb k key) eqn:E.
  - apply str_eqb_eq in E as ->. split; [done|]. exists (key, v). by rewrite Nat.sub_diag.
  - specialize (IH (S index)). destruct (key_position (S index) entries key) as [i|].
    + destruct IH as [Hi (e & He & Hk & Hg)]. split; [lia|]. exists e.
      replace (i - index) with (S (i - S index)) by lia. done.
    + destruct IH as [Hg Hn]. split; [done|]. cbn. rewrite not_elem_of_cons. split; [|done].
      intros <-. by rewrite (proj2 (str_eqb_eq key key)) in E.
Qed.

Lemma set_loop_computes index position value (entries output : list Entry) :
  computes (set_loop index position value entries output)
    (Ok (output ++ imap (λ i e, (e.1, if bool_decide (position = Some (index + i)) then value else e.2)) entries)).
Proof.
  revert index output. induction entries as [|[k v] entries IH]; intros index output; cbn [set_loop imap].
  - rewrite app_nil_r. apply computes_ret.
  - eapply computes_bind_ok; [apply copy_record_entry_computes|].
    specialize (IH (S index)). rewrite Nat.add_0_r.
    match goal with |- computes (set_loop _ _ _ _ ?o) _ => specialize (IH o) end.
    rewrite <- app_assoc in IH. simpl in IH.
    match type of IH with computes _ (Ok (_ ++ _ :: ?a)) =>
      match goal with |- computes _ (Ok (_ ++ _ :: ?b)) => replace b with a; [exact IH|] end end.
    apply imap_ext. intros i e _. simpl. by rewrite Nat.add_succ_r.
Qed.

Lemma record_put_position index (entries : list Entry) key value :
  record_put entries key value =
    match key_position index entries key with
    | Some p => imap (λ i e, (e.1, if bool_decide (Some p = Some (index + i)) then value else e.2)) entries
    | None => entries ++ [(key, value)]
    end.
Proof.
  revert index. induction entries as [|[k v] entries IH]; intros index; cbn [record_put key_position imap]; [done|].
  destruct (str_eqb k key) eqn:E.
  - rewrite Nat.add_0_r, bool_decide_eq_true_2 by done. simpl. f_equal.
    symmetry. etrans; [apply (imap_ext _ (λ _ e, e))|].
    + intros i [k' v'] _. simpl. by rewrite bool_decide_eq_false_2 by (intros [=]; lia).
    + clear. generalize 0. induction entries as [|e entries IH]; [done|]. intros _. simpl. f_equal. apply (IH 0).
  - rewrite (IH (S index)). pose proof (key_position_get (S index) entries key) as Hp.
    destruct (key_position (S index) entries key) as [p|]; [|done]. destruct Hp as [Hp _].
    rewrite Nat.add_0_r, bool_decide_eq_false_2 by (intros [=]; lia). simpl. f_equal.
    apply imap_ext. intros i e _. simpl. by rewrite Nat.add_succ_r.
Qed.

Lemma record_set_computes (input : list Entry) key value :
  length input < cells →
  computes (record_set input key (key_position 0 input key) value) (Ok (VRecord (record_put input key value))).
Proof.
  intros Hlen. unfold record_set. apply (computes_workspace cells); [done| |unfold size_of_entry, cell; lia|].
  { destruct (key_position 0 input key); lia. }
  eapply computes_bind_ok; [apply set_loop_computes|]. rewrite (record_put_position 0), app_nil_l.
  destruct (key_position 0 input key) as [p|].
  - eapply computes_bind_ok; apply computes_ret.
  - eapply computes_bind_ok; [apply copy_record_entry_computes|].
    match goal with |- computes (ret (VRecord (?a ++ _))) _ => replace a with input; [apply computes_ret|] end.
    clear. induction input as [|[k v] input IH]; [done|]. simpl. f_equal. exact IH.
Qed.

(** *** Selecting *)

Lemma key_order_lookup keys a b x y :
  keys !! a = Some x → keys !! b = Some y → key_order keys a b = bytes_compare x y.
Proof. intros Hx Hy. unfold key_order. by rewrite (nth_lookup_Some _ _ _ _ Hx), (nth_lookup_Some _ _ _ _ Hy). Qed.

Lemma ordered_lookup keys indices i a :
  ordered keys indices → indices !! i = Some a → ∃ x, keys !! a = Some x.
Proof.
  intros [Hp _] Ha%list_elem_of_lookup_2. rewrite Hp, elem_of_seq in Ha.
  apply lookup_lt_is_Some_2. lia.
Qed.

Lemma ordered_length keys indices : ordered keys indices → length indices = length keys.
Proof. intros [Hp _]. by rewrite Hp, length_seq. Qed.

(** Positions in sorted order have keys in order. *)
Lemma ordered_le keys indices i j a b x y :
  ordered keys indices → i < j → indices !! i = Some a → indices !! j = Some b →
  keys !! a = Some x → keys !! b = Some y → bytes_compare x y ≠ Gt ∧ (x = y → a ≤ b).
Proof.
  intros [_ Hs] Hij Ha Hb Hx Hy.
  assert (index_le (key_order keys) a b) as [H1 H2].
  { clear Hx Hy. revert indices j Hs Hij Ha Hb. induction i as [|i IH]; intros [|c l] [|j] Hs Hij Ha Hb;
      try done; try lia; apply StronglySorted_inv in Hs as [Hs Hall]; simpl in *.
    - injection Ha as ->. rewrite list.Forall_forall in Hall. by eapply Hall, list_elem_of_lookup_2.
    - eapply (IH l j); try done. lia. }
  rewrite (key_order_lookup _ _ _ x y) in H1, H2 by done. split; [done|].
  intros ->. apply H2, bytes_compare_refl.
Qed.

Lemma bytes_le_lt_trans x y z : bytes_compare x y ≠ Gt → bytes_compare y z = Lt → bytes_compare x z = Lt.
Proof.
  intros Hxy Hyz. destruct (bytes_compare x y) eqn:E; [|by eapply bytes_compare_lt_trans|done].
  by apply bytes_compare_eq in E as ->.
Qed.

Lemma bytes_lt_le_trans x y z : bytes_compare x y = Lt → bytes_compare y z ≠ Gt → bytes_compare x z = Lt.
Proof.
  intros Hxy Hyz. destruct (bytes_compare y z) eqn:E; [|by eapply bytes_compare_lt_trans|done].
  by apply bytes_compare_eq in E as <-.
Qed.

Lemma bytes_gt_lt x y : bytes_compare x y = Gt ↔ bytes_compare y x = Lt.
Proof. rewrite (bytes_compare_antisym x y). by destruct (bytes_compare x y). Qed.

Lemma find_loop_computes fuel keys indices key low high :
  ordered keys indices → low ≤ high ≤ length indices → high - low ≤ fuel →
  (∀ i a x, indices !! i = Some a → keys !! a = Some x → i < low → bytes_compare x key = Lt) →
  (∀ i a x, indices !! i = Some a → keys !! a = Some x → high ≤ i → bytes_compare x key = Gt) →
  ∃ found, computes (find_loop fuel keys indices key low high) (Ok found) ∧
    match found with Some i => keys !! i = Some key | None => key ∉ keys end.
Proof.
  intros Hord. revert low high. induction fuel as [|fuel IH]; intros low high Hl Hf Hlow Hhigh; cbn [find_loop];
    (destruct (Nat.ltb_spec low high) as [Hlt|Hge]; [|exists None; split; [apply computes_ret|];
      intros [a Ha]%list_elem_of_lookup; assert (a ∈ indices) as Hin
        by (rewrite (proj1 Hord), elem_of_seq; apply lookup_lt_Some in Ha; lia);
      apply list_elem_of_lookup in Hin as [i Hi]; destruct (decide (i < low)) as [Hil|Hil];
      [specialize (Hlow i a key Hi Ha Hil)|specialize (Hhigh i a key Hi Ha ltac:(lia))];
      by rewrite bytes_compare_refl in *]); [lia|].
  assert (low + (high - low) / 2 < high) as Hmid by (pose proof (Nat.div_lt (high - low) 2); lia).
  set (middle := low + (high - low) / 2) in *.
  destruct (lookup_lt_is_Some_2 indices middle) as [a Ha]; [lia|].
  destruct (ordered_lookup keys indices middle a Hord Ha) as [x Hx].
  assert (∀ found, computes match bytes_compare x key with
      | Lt => find_loop fuel keys indices key (S middle) high
      | Gt => find_loop fuel keys indices key low middle
      | Eq => ret (Some a) end (Ok found) →
    computes (do* entry := at_index indices middle in
      do* candidate := key_of keys entry in do* order := record_compare candidate key in
      match order with
      | Lt => find_loop fuel keys indices key (S middle) high
      | Gt => find_loop fuel keys indices key low middle
      | Eq => ret (Some entry) end) (Ok found)) as Hgo.
  { intros found Hm. unfold key_of, at_index. rewrite Ha.
    eapply computes_bind_ok; [apply computes_lift|]. rewrite Hx.
    eapply computes_bind_ok; [apply computes_lift|].
    eapply computes_bind_ok; [apply record_compare_computes|]. by destruct (bytes_compare x key). }
  destruct (bytes_compare x key) eqn:E.
  - exists (Some a). split; [apply Hgo, computes_ret|]. by apply bytes_compare_eq in E as <-.
  - destruct (IH (S middle) high) as (found & Hm & Hfound); [lia..| |done|by exists found; auto].
    intros i b y Hi Hy Hle. destruct (decide (i = middle)) as [->|]; [by simplify_eq|].
    destruct (ordered_le keys indices i middle b a y x) as [Hyx _]; [done|lia|done..|].
    by apply (bytes_le_lt_trans y x).
  - destruct (IH low middle) as (found & Hm & Hfound); [lia..|done| |by exists found; auto].
    intros i b y Hi Hy Hle. destruct (decide (i = middle)) as [->|]; [by simplify_eq|].
    destruct (ordered_le keys indices middle i a b x y) as [Hxy _]; [done|lia|done..|].
    apply bytes_gt_lt. apply bytes_gt_lt in E. by apply (bytes_lt_le_trans key x).
Qed.

(** The requested entries, or the first request that has none. *)
Fixpoint requested (entries : list Entry) (requests : list str) : list Entry + str :=
  match requests with
  | [] => inl []
  | key :: requests =>
    match Record_get entries key with
    | None => inr key
    | Some v =>
      match requested entries requests with
      | inl rest => inl ((key, v) :: rest)
      | inr missing => inr missing
      end
    end
  end.

Lemma Record_get_lookup (entries : list Entry) i e :
  NoDup entries.*1 → entries !! i = Some e → Record_get entries e.1 = Some e.2.
Proof.
  revert i. induction entries as [|[k v] entries IH]; intros i Hn Hi; [done|].
  apply NoDup_cons in Hn as [Hk Hn]. simpl. destruct i as [|i]; simpl in Hi.
  - injection Hi as <-. simpl. by rewrite (proj2 (str_eqb_eq k k)).
  - destruct (str_eqb k e.1) eqn:E; [|by eapply IH]. apply str_eqb_eq in E as ->.
    destruct Hk. apply list_elem_of_fmap. exists e. split; [done|]. by eapply list_elem_of_lookup_2.
Qed.

Lemma Record_get_None (entries : list Entry) key : Record_get entries key = None ↔ key ∉ entries.*1.
Proof.
  pose proof (key_position_get 0 entries key) as H. destruct (key_position 0 entries key).
  - destruct H as [_ (e & He & <- & ->)]. split; [done|]. intros Hn. destruct Hn.
    by eapply list_elem_of_fmap_2, list_elem_of_lookup_2.
  - destruct H as [-> H]. done.
Qed.

Lemma select_loop_computes d (entries : list Entry) indices requests output :
  NoDup entries.*1 → ordered entries.*1 indices →
  computes (select_loop d entries indices requests output)
    match requested entries requests with
    | inl found => Ok (VRecord (output ++ found))
    | inr missing => Err (AbortError (OperationFailed
        (invalid d (bs "missing requested key " ++ key_excerpt missing))) call_span)
    end.
Proof.
  intros Hn Hord. revert output. induction requests as [|key requests IH]; intros output; cbn [select_loop requested].
  { rewrite app_nil_r. apply computes_ret. }
  apply computes_visit.
  destruct (find_loop_computes (length indices) entries.*1 indices key 0 (length indices)) as (found & Hm & Hf).
  { done. } { lia. } { lia. }
  { intros. lia. }
  { intros i a x Hi. apply lookup_lt_Some in Hi. lia. }
  eapply computes_bind_ok; [exact Hm|]. destruct found as [i|].
  - rewrite list_lookup_fmap in Hf. destruct (entries !! i) as [[k v]|] eqn:Ee; [|done]. injection Hf as ->.
    pose proof (Record_get_lookup entries i (key, v) Hn Ee) as Hg. cbn [fst snd] in Hg. rewrite Hg.
    unfold at_index. rewrite Ee.
    eapply computes_bind_ok; [apply computes_lift|].
    eapply computes_bind_ok; [apply copy_record_entry_computes|].
    specialize (IH (output ++ [(key, v)])). cbn [fst snd]. destruct (requested entries requests); [|done].
    by rewrite <- app_assoc in IH.
  - apply Record_get_None in Hf as ->. apply computes_throw.
Qed.

(** The least key that is requested twice: the first repetition in order. *)
Fixpoint adjacent_repeat (keys : list str) : option str :=
  match keys with
  | a :: ((b :: _) as rest) => if str_eqb a b then Some b else adjacent_repeat rest
  | _ => None
  end.
Definition least_repeated (keys : list str) : option str := adjacent_repeat (sort_by bytes_le keys).

Lemma nth_seq (keys : list str) : (λ i, nth i keys []) <$> seq 0 (length keys) = keys.
Proof.
  apply list_eq. intros i. rewrite list_lookup_fmap. destruct (decide (i < length keys)) as [Hi|Hi].
  - rewrite lookup_seq_lt by done. simpl. destruct (lookup_lt_is_Some_2 keys i Hi) as [x Hx].
    by rewrite Hx, (nth_lookup_Some _ _ _ _ Hx).
  - rewrite lookup_seq_ge by lia. by rewrite lookup_ge_None_2 by lia.
Qed.

Lemma ordered_keys keys indices :
  ordered keys indices → (λ i, nth i keys []) <$> indices = sort_by bytes_le keys.
Proof.
  intros [Hp Hs]. apply (StronglySorted_unique_strong (leP bytes_le)).
  - intros x y _ _. apply bytes_le_antisym.
  - clear Hp. induction Hs as [|a l Hs IH Hall]; [constructor|]. rewrite fmap_cons. constructor; [done|].
    apply Forall_fmap. eapply Forall_impl; [exact Hall|]. intros b [Hle _]. unfold compose, leP.
    apply bytes_le_cases. unfold key_order in Hle.
    destruct (bytes_compare (nth a keys []) (nth b keys [])) eqn:E; [|by right|done].
    left. by apply bytes_compare_eq.
  - apply sort_by_sorted; [apply bytes_le_total|apply bytes_le_trans].
  - by rewrite sort_by_perm, Hp, nth_seq.
Qed.

Lemma repeated_key_computes keys indices :
  Forall (λ i, i < length keys) indices →
  computes (repeated_key keys indices) (Ok (adjacent_repeat ((λ i, nth i keys []) <$> indices))).
Proof.
  induction indices as [|a indices IH]; intros Hl; [apply computes_ret|].
  apply Forall_cons_1 in Hl as [Ha Hl]. destruct indices as [|b indices]; [apply computes_ret|].
  pose proof Hl as [Hb _]%Forall_cons_1. specialize (IH Hl).
  destruct (lookup_lt_is_Some_2 keys a Ha) as [x Hx], (lookup_lt_is_Some_2 keys b Hb) as [y Hy].
  assert (nth a keys [] = x ∧ nth b keys [] = y) as [Ea Eb] by (split; by apply nth_lookup_Some).
  change (repeated_key keys (a :: b :: indices)) with
    (do* order := compare_at keys a b in
     match order with
     | Eq => do* key := key_of keys b in ret (Some key)
     | _ => repeated_key keys (b :: indices)
     end).
  cbn [fmap list_fmap] in *. rewrite Ea, Eb in *. cbn [adjacent_repeat] in IH |- *.
  eapply computes_bind_ok; [by apply compare_at_computes|]. destruct (str_eqb x y) eqn:E.
  - apply str_eqb_eq in E as ->. rewrite bytes_compare_refl. unfold key_of, at_index. rewrite Hy.
    eapply computes_bind_ok; apply computes_ret || apply computes_lift.
  - destruct (bytes_compare x y) eqn:E'; [|exact IH..].
    apply bytes_compare_eq in E' as ->. by rewrite (proj2 (str_eqb_eq y y)) in E.
Qed.

Lemma requested_keys_computes d (keys : list Value) :
  computes (requested_keys d keys)
    match texts_of keys with
    | Some requests => Ok requests
    | None => Err (AbortError (OperationFailed (invalid d (bs "requested keys must be Strings"))) call_span)
    end.
Proof.
  induction keys as [|key keys IH]; cbn [requested_keys texts_of]; [apply computes_ret|].
  apply computes_visit. destruct key; try apply computes_throw. destruct (texts_of keys) as [requests|]; simpl.
  - eapply computes_bind_ok; [exact IH|]. apply computes_ret.
  - by apply computes_bind_err.
Qed.

(** [record.select] on plain data. *)
Definition select_reference (d : OperationDescriptor) (entries : list Entry) (keys : list Value) : res Abort Value :=
  let refuse message := Err (AbortError (OperationFailed (invalid d message)) call_span) in
  match texts_of keys with
  | None => refuse (bs "requested keys must be Strings")
  | Some requests =>
    match least_repeated requests with
    | Some key => refuse (bs "repeated requested key " ++ key_excerpt key)
    | None =>
      match requested entries requests with
      | inl found => Ok (VRecord found)
      | inr missing => refuse (bs "missing requested key " ++ key_excerpt missing)
      end
    end
  end.

Lemma texts_of_length (keys : list Value) requests :
  texts_of keys = Some requests → length requests = length keys.
Proof.
  revert requests. induction keys as [|[] keys IH]; intros requests; simpl; try done; [by intros [= <-]|].
  destruct (texts_of keys) as [rest|]; [|done]. intros [= <-]. simpl. by rewrite (IH rest).
Qed.

Lemma record_select_computes d (entries : list Entry) keys :
  NoDup entries.*1 → length entries ≤ cells → length keys ≤ cells →
  computes (record_select d entries keys) (select_reference d entries keys).
Proof.
  intros Hn Hle Hlk. unfold record_select, select_reference. pose proof (requested_keys_computes d keys) as Hk.
  destruct (texts_of keys) as [requests|] eqn:Et; [|by apply computes_bind_err].
  apply texts_of_length in Et.
  eapply computes_bind_ok; [exact Hk|]. destruct (bool_decide_reflect (requests = [])) as [->|Hne].
  { unfold least_repeated. apply computes_ret. }
  destruct (sorted_record_indices_ok cells requests Hask) as (ks & Hks & Hord); [lia|].
  eapply computes_bind_ok; [exact Hks|].
  eapply computes_bind_ok; [apply repeated_key_computes|].
  { apply list.Forall_forall. intros i Hi. rewrite (proj1 Hord), elem_of_seq in Hi. lia. }
  rewrite (ordered_keys requests ks Hord). unfold least_repeated.
  destruct (adjacent_repeat (sort_by bytes_le requests)); [apply computes_throw|].
  destruct (sorted_record_indices_ok cells entries.*1 Hask) as (es & Hes & Horde); [by rewrite length_fmap|].
  eapply computes_bind_ok; [exact Hes|].
  apply (computes_workspace cells); [done|lia|unfold size_of_entry, cell; lia|].
  by apply select_loop_computes.
Qed.
End Operations.

(** *** Merging *)

Lemma omap_seq {A B} (f : nat → option B) (g : A → option B) (items : list A) a :
  (∀ i x, items !! i = Some x → f (a + i) = g x) → omap f (seq a (length items)) = omap g items.
Proof.
  revert a. induction items as [|x items IH]; intros a Hf; [done|].
  cbn [length seq]. rewrite !omap_step. specialize (Hf 0 x eq_refl) as H0. rewrite Nat.add_0_r in H0.
  rewrite H0, (IH (S a)); [done|]. intros i y Hy. rewrite <- (Hf (S i) y Hy). f_equal. lia.
Qed.

Section Union.
Context {RuntimeError : Type} `{C : Control} {ask : N} {cells : nat} (Hask : holds ask cells).
Notation computes := (computes ask).
Notation Value := (Value RuntimeError).
Notation Entry := (str * Value)%type.
Context (l r : list Entry) (Hl : NoDup l.*1) (Hr : NoDup r.*1).

Let keys := (l ++ r).*1.
Let key (i : nat) : str := nth i keys [].
Let n := length (l ++ r).

Lemma keys_length : length keys = n.
Proof. subst keys n. by rewrite length_fmap. Qed.

Lemma key_left i e : l !! i = Some e → key i = e.1 ∧ i < length l.
Proof.
  intros He. split; [|by eapply lookup_lt_Some]. subst key keys. apply nth_lookup_Some.
  by rewrite fmap_app, lookup_app_l, list_lookup_fmap, He by (rewrite length_fmap; by eapply lookup_lt_Some).
Qed.

Lemma key_right j e : r !! j = Some e → key (length l + j) = e.1.
Proof.
  intros He. subst key keys. apply nth_lookup_Some.
  rewrite fmap_app, lookup_app_r, length_fmap by (rewrite length_fmap; lia).
  by replace (length l + j - length l) with j by lia; rewrite list_lookup_fmap, He.
Qed.

Lemma index_cases i : i < n → (∃ e, l !! i = Some e) ∨ ∃ j e, i = length l + j ∧ r !! j = Some e.
Proof.
  subst n. rewrite length_app. intros Hi. destruct (decide (i < length l)) as [Hlt|Hge].
  - left. by apply lookup_lt_is_Some_2.
  - right. destruct (lookup_lt_is_Some_2 r (i - length l)) as [e He]; [lia|].
    exists (i - length l), e. split; [lia|done].
Qed.

Lemma key_unique i j : i < n → j < n → (i < length l ↔ j < length l) → key i = key j → i = j.
Proof.
  intros Hi Hj Hsame Hk.
  destruct (index_cases i Hi) as [[e He]|(i' & e & -> & He)], (index_cases j Hj) as [[f Hf]|(j' & f & -> & Hf)].
  - destruct (key_left i e He) as [Ei _], (key_left j f Hf) as [Ej _].
    eapply (NoDup_lookup l.*1); [done|by rewrite list_lookup_fmap, He|].
    rewrite list_lookup_fmap, Hf. simpl. congruence.
  - apply lookup_lt_Some in He. lia.
  - apply lookup_lt_Some in Hf. lia.
  - f_equal. eapply (NoDup_lookup r.*1); [done|by rewrite list_lookup_fmap, He|].
    rewrite list_lookup_fmap, Hf. simpl. rewrite (key_right i' e), (key_right j' f) in Hk by done. congruence.
Qed.

(** The slot each index wins. *)
Definition winner_of (i : nat) : option nat :=
  if i <? length l then
    match key_position (length l) r (key i) with Some j => Some j | None => Some i end
  else if bool_decide (key i ∈ l.*1) then None else Some i.

Lemma winner_pair first second :
  first < length l → length l ≤ second < n → key first = key second →
  winner_of first = Some second ∧ winner_of second = None.
Proof.
  intros Hf Hs Hk. unfold winner_of. rewrite (proj2 (Nat.ltb_lt _ _) Hf), (proj2 (Nat.ltb_ge _ _)) by lia.
  destruct (index_cases second) as [[e He%lookup_lt_Some]|(j & e & -> & He)]; [lia|lia|].
  destruct (index_cases first) as [[f Hff]|(? & ? & -> & _)]; [subst n; rewrite length_app; lia| |lia].
  split.
  - pose proof (key_position_get (length l) r (key first)) as Hp.
    destruct (key_position (length l) r (key first)) as [p|].
    + destruct Hp as [Hp (e' & He' & Hk' & _)]. f_equal.
      replace p with (length l + (p - length l)) by lia. apply key_unique; [|lia|lia|].
      * apply lookup_lt_Some in He'. subst n. rewrite length_app. lia.
      * rewrite (key_right _ e' He'). congruence.
    + destruct Hp as [_ Hp]. destruct Hp. rewrite Hk, (key_right j e He).
      apply list_elem_of_fmap. exists e. split; [done|]. by eapply list_elem_of_lookup_2.
  - rewrite bool_decide_eq_true_2; [done|]. rewrite <- Hk. destruct (key_left first f Hff) as [-> _].
    apply list_elem_of_fmap. exists f. split; [done|]. by eapply list_elem_of_lookup_2.
Qed.

Lemma winner_alone first :
  first < n → (∀ j, j < n → j ≠ first → key j ≠ key first) → winner_of first = Some first.
Proof.
  intros Hf Halone. unfold winner_of. destruct (Nat.ltb_spec first (length l)) as [Hlt|Hge].
  - pose proof (key_position_get (length l) r (key first)) as Hp.
    destruct (key_position (length l) r (key first)) as [p|]; [|done].
    destruct Hp as [Hp (e & He & Hk & _)]. exfalso. apply (Halone (length l + (p - length l))); [|lia|].
    + apply lookup_lt_Some in He. subst n. rewrite length_app. lia.
    + by rewrite (key_right _ e He).
  - rewrite bool_decide_eq_false_2; [done|]. intros (e & He & Hin)%list_elem_of_fmap.
    apply list_elem_of_lookup in Hin as [i Hi]. destruct (key_left i e Hi) as [Ek Hil].
    apply (Halone i); [subst n; rewrite length_app; lia|lia|congruence].
Qed.

Definition settled (done_ todo : list nat) (winners : list (option nat)) : Prop :=
  length winners = n ∧ (∀ i j, i ∈ done_ → j ∈ todo → key i ≠ key j) ∧
  (∀ i, i ∈ done_ → winners !! i = Some (winner_of i)) ∧ (∀ i, i ∈ todo → winners !! i = Some None).

(** The head of what is left, in sorted order. *)
Lemma head_order first b rest c :
  StronglySorted (index_le (key_order keys)) (first :: b :: rest) → c ∈ b :: rest →
  key first = key c → key first = key b ∧ first ≤ b ∧ b ≤ c.
Proof.
  intros Hs Hc Hk. apply StronglySorted_inv in Hs as [Hs Hall].
  assert (index_le (key_order keys) first b) as [H1 H1'] by (rewrite list.Forall_forall in Hall; apply Hall; by left).
  apply StronglySorted_inv in Hs as [_ Hall2].
  assert (b = c ∨ index_le (key_order keys) b c) as H2.
  { apply elem_of_cons in Hc as [->|Hc]; [by left|]. right. rewrite list.Forall_forall in Hall2. auto. }
  unfold index_le, key_order in *. fold (key first) (key b) in *. fold (key c) in *.
  assert (key first = key b) as Hfb.
  { destruct H2 as [->|[H2 _]]; [done|]. rewrite Hk in H1 |- *.
    destruct (bytes_compare (key c) (key b)) eqn:E; [by apply bytes_compare_eq| |done].
    exfalso. pose proof (bytes_lt_le_trans _ _ _ E H2) as E'. by rewrite bytes_compare_refl in E'. }
  split_and!; [done| |].
  - apply H1'. rewrite Hfb. apply bytes_compare_refl.
  - destruct H2 as [->|[_ H2]]; [done|]. apply H2. rewrite <- Hfb, Hk. apply bytes_compare_refl.
Qed.

Lemma in_range sorted done_ todo i :
  ordered keys sorted → sorted = done_ ++ todo → i ∈ todo → i < n.
Proof.
  intros [Hp _] -> Hi. assert (i ∈ seq 0 (length keys)) as Hin by (rewrite <- Hp; set_solver).
  rewrite elem_of_seq, keys_length in Hin. lia.
Qed.

(** One group: its head settles, and its second entry when there is one. *)
Lemma settle_alone sorted done_ first todo winners :
  ordered keys sorted → sorted = done_ ++ first :: todo → settled done_ (first :: todo) winners →
  (∀ b, head todo = Some b → key first ≠ key b) →
  settled (done_ ++ [first]) todo (<[first := Some first]> winners).
Proof.
  intros Hord Hs (Hlen & Hsep & Hdone & Htodo) Hb.
  assert (first < n) as Hf by (eapply in_range; [done..|by left]).
  assert (NoDup sorted) as Hnd by (rewrite (proj1 Hord); apply NoDup_seq).
  rewrite Hs in Hnd. apply NoDup_app in Hnd as (_ & Hdisj & Hnd). apply NoDup_cons in Hnd as [Hft Hnd].
  assert (∀ j, j ∈ todo → key first ≠ key j) as Hrest.
  { intros j Hj E. destruct todo as [|b todo]; [by apply not_elem_of_nil in Hj|].
    apply (Hb b); [done|]. destruct Hord as [_ Hst]. rewrite Hs in Hst.
    apply StronglySorted_app in Hst as (_ & _ & Hst). by destruct (head_order first b todo j Hst Hj E). }
  assert (winner_of first = Some first) as Hw.
  { apply winner_alone; [done|]. intros j Hj Hne E.
    assert (j ∈ sorted) as Hin by (rewrite (proj1 Hord), elem_of_seq, keys_length; lia).
    rewrite Hs in Hin. apply elem_of_app in Hin as [Hin|Hin].
    - apply (Hsep j first); [done|by left|done].
    - apply elem_of_cons in Hin as [->|Hin]; [done|]. by apply (Hrest j). }
  unfold settled. split_and!.
  - by rewrite length_insert.
  - intros i j [Hi| ->%list_elem_of_singleton]%elem_of_app Hj; [apply Hsep; [done|by right]|by apply Hrest].
  - intros i [Hi| ->%list_elem_of_singleton]%elem_of_app.
    + rewrite list_lookup_insert_ne; [auto|]. intros ->. apply (Hdisj i); [done|by left].
    + rewrite list_lookup_insert_eq by lia. by rewrite Hw.
  - intros i Hi. rewrite list_lookup_insert_ne by (intros ->; done). apply Htodo. by right.
Qed.

Lemma settle_pair sorted done_ first second todo winners :
  ordered keys sorted → sorted = done_ ++ first :: second :: todo →
  settled done_ (first :: second :: todo) winners → key first = key second →
  first < length l ∧ length l ≤ second ∧
  settled (done_ ++ [first; second]) todo (<[first := Some second]> winners).
Proof.
  intros Hord Hs (Hlen & Hsep & Hdone & Htodo) Hk.
  assert (first < n) as Hf by (eapply in_range; [done..|by left]).
  assert (second < n) as Hsn by (eapply in_range; [done..|by right; left]).
  assert (NoDup sorted) as Hnd by (rewrite (proj1 Hord); apply NoDup_seq).
  rewrite Hs in Hnd. apply NoDup_app in Hnd as (_ & Hdisj & Hnd). apply NoDup_cons in Hnd as [Hft Hnd].
  apply NoDup_cons in Hnd as [Hst Hnd].
  pose proof Hord as [Hp Hss]. rewrite Hs in Hss. apply StronglySorted_app in Hss as (_ & _ & Hss).
  destruct (head_order first second todo second Hss) as (_ & Hle & _); [by left|done|].
  assert (first ≠ second) as Hne by (intros ->; apply Hft; by left).
  assert (first < length l ∧ length l ≤ second) as [Hfl Hsl].
  { destruct (decide (first < length l)) as [H1|H1], (decide (second < length l)) as [H2|H2]; try lia;
      exfalso; apply Hne, key_unique; try done; lia. }
  destruct (winner_pair first second) as [Hw1 Hw2]; [done|lia|done|].
  split; [done|]. split; [done|]. unfold settled. split_and!.
  - by rewrite length_insert.
  - assert (∀ j, j ∈ todo → key second ≠ key j) as Hrest.
    { intros j Hj E. pose proof Hss as Hss'. apply StronglySorted_inv in Hss' as [Hss' _].
      destruct todo as [|b todo]; [by apply not_elem_of_nil in Hj|].
      destruct (head_order second b todo j Hss' Hj E) as (_ & Hsb & Hbj).
      assert (j < n) as Hjn by (eapply (in_range sorted done_); [done..|set_solver]).
      apply Hst. replace second with j; [done|]. apply key_unique; try done; lia. }
    intros i j [Hi|Hi]%elem_of_app Hj; [apply Hsep; [done|set_solver]|].
    apply elem_of_cons in Hi as [->|Hi]; [rewrite Hk; by apply Hrest|].
    apply list_elem_of_singleton in Hi as ->. by apply Hrest.
  - intros i [Hi|Hi]%elem_of_app.
    + rewrite list_lookup_insert_ne; [auto|]. intros ->. apply (Hdisj i); [done|by left].
    + apply elem_of_cons in Hi as [->|Hi]; [rewrite list_lookup_insert_eq by lia; by rewrite Hw1|].
      apply list_elem_of_singleton in Hi as ->. rewrite list_lookup_insert_ne by done.
      rewrite Hw2. apply Htodo. by right; left.
  - intros i Hi. rewrite list_lookup_insert_ne; [apply Htodo; by right; right|].
    intros ->. apply Hft. by right.
Qed.

Lemma key_lookup i : i < n → keys !! i = Some (key i).
Proof.
  intros Hi. destruct (lookup_lt_is_Some_2 keys i) as [x Hx]; [by rewrite keys_length|].
  rewrite Hx. f_equal. subst key. symmetry. by apply nth_lookup_Some.
Qed.

Lemma paired_with_ok sorted done_ first todo :
  ordered keys sorted → sorted = done_ ++ first :: todo →
  computes (paired_with keys sorted (length done_) first)
    (Ok (match head todo with Some b => if bool_decide (key first = key b) then Some b else None | None => None end)).
Proof.
  intros Hord Hs. unfold paired_with. rewrite Hs at 1. rewrite length_app. destruct todo as [|b todo]; simpl.
  { rewrite (proj2 (Nat.ltb_ge _ _)) by lia. apply computes_ret. }
  rewrite (proj2 (Nat.ltb_lt _ _)) by lia.
  assert (sorted !! S (length done_) = Some b) as Hb.
  { rewrite Hs, lookup_app_r by lia. by replace (S (length done_) - length done_) with 1 by lia. }
  unfold at_index. rewrite Hb. eapply computes_bind_ok; [apply computes_lift|].
  assert (first < n ∧ b < n) as [Hf Hbn].
  { split; (eapply in_range; [done..|]); [by left|by right; left]. }
  eapply computes_bind_ok; [apply (compare_at_computes keys first b (key first) (key b)); by apply key_lookup|].
  destruct (bool_decide_reflect (key first = key b)) as [->|Hne].
  - rewrite bytes_compare_refl. apply computes_ret.
  - destruct (bytes_compare (key first) (key b)) eqn:E; try apply computes_ret.
    by apply bytes_compare_eq in E.
Qed.

Lemma settled_all sorted winners :
  ordered keys sorted → settled sorted [] winners → winners = winner_of <$> seq 0 n.
Proof.
  intros Hord (Hlen & _ & Hdone & _). apply list_eq. intros i. rewrite list_lookup_fmap.
  destruct (decide (i < n)) as [Hi|Hi].
  - rewrite lookup_seq_lt by done. apply Hdone. rewrite (proj1 Hord), elem_of_seq, keys_length. lia.
  - rewrite lookup_seq_ge by lia. by rewrite lookup_ge_None_2 by lia.
Qed.

Lemma winners_loop_ok fuel sorted done_ todo retained winners :
  ordered keys sorted → sorted = done_ ++ todo → length todo ≤ fuel → settled done_ todo winners →
  ∃ ws m, computes (winners_loop fuel (length l) keys sorted (length done_) retained winners) (Ok (ws, m)) ∧
    ws = winner_of <$> seq 0 n ∧ m ≤ retained + length todo.
Proof.
  intros Hord. revert done_ todo retained winners.
  induction fuel as [|fuel IH]; intros done_ todo retained winners Hs Hf Hset; cbn [winners_loop].
  all: destruct todo as [|first todo]; [rewrite app_nil_r in Hs; subst done_; rewrite Nat.ltb_irrefl;
    exists winners, retained; split_and!; [apply computes_ret|by apply (settled_all sorted)|lia]|].
  { simpl in Hf. lia. }
  assert (length done_ < length sorted) as Hlt by (rewrite Hs, length_app; simpl; lia).
  rewrite (proj2 (Nat.ltb_lt _ _) Hlt).
  assert (sorted !! length done_ = Some first) as Hfirst by (by rewrite Hs, list_lookup_middle).
  assert (first < n) as Hfn by (eapply in_range; [done..|by left]).
  destruct (lookup_lt_is_Some_2 winners first) as [w Hw]; [by rewrite (proj1 Hset)|].
  pose proof (paired_with_ok sorted done_ first todo Hord Hs) as Hpair.
  set (paired := match head todo with Some b => if bool_decide (key first = key b) then Some b else None | None => None end) in *.
  assert (∃ ws m, computes (match paired with
      | Some second => if (first <? length l) && (length l <=? second) then
          winners_loop fuel (length l) keys sorted (length done_ + 2) (S retained) (<[first := Some second]> winners)
        else unreachable
      | None => winners_loop fuel (length l) keys sorted (S (length done_)) (S retained) (<[first := Some first]> winners)
      end) (Ok (ws, m)) ∧ ws = winner_of <$> seq 0 n ∧ m ≤ retained + length (first :: todo)) as (ws & m & Hrest & Hws).
  { subst paired. destruct (match head todo with Some b => if bool_decide (key first = key b) then Some b else None | None => None end) as [second|] eqn:Ep.
    - destruct todo as [|b todo]; [done|]. simpl in Ep. case_bool_decide as Hk; [|done]. injection Ep as <-.
      destruct (settle_pair sorted done_ first b todo winners) as (Hfl & Hbl & Hset'); [done..|].
      rewrite (proj2 (Nat.ltb_lt _ _) Hfl), (proj2 (Nat.leb_le _ _) Hbl).
      destruct (IH (done_ ++ [first; b]) todo (S retained) (<[first := Some b]> winners)) as (ws & m & H & Hw' & Hm'); [by rewrite Hs, <- app_assoc|simpl in Hf; lia|exact Hset'|].
      rewrite length_app in H. exists ws, m. split_and!; [done..|simpl; lia].
    - assert (settled (done_ ++ [first]) todo (<[first := Some first]> winners)) as Hset'.
      { eapply settle_alone; [done..|]. intros b Hb Hk. rewrite Hb, bool_decide_eq_true_2 in Ep by done. done. }
      destruct (IH (done_ ++ [first]) todo (S retained) (<[first := Some first]> winners)) as (ws & m & H & Hw' & Hm'); [by rewrite Hs, <- app_assoc|simpl in Hf; lia|exact Hset'|].
      rewrite length_app, Nat.add_1_r in H. exists ws, m. split_and!; [done..|simpl; lia]. }
  exists ws, m. split; [|done]. apply computes_visit. unfold at_index. rewrite Hfirst.
  eapply computes_bind_ok; [apply computes_lift|]. eapply computes_bind_ok; [exact Hpair|].
  rewrite Hw. eapply computes_bind_ok; [apply computes_lift|exact Hrest].
Qed.

Lemma merge_loop_computes (entries : list Entry) winners output :
  (∀ i, Some i ∈ winners → i < length entries) →
  computes (merge_loop entries winners output)
    (Ok (VRecord (output ++ omap (λ w, w ≫= λ i, entries !! i) winners))).
Proof.
  revert output. induction winners as [|w winners IH]; intros output Hw; cbn [merge_loop].
  { rewrite app_nil_r. apply computes_ret. }
  apply computes_visit. rewrite omap_step. destruct w as [i|]; simpl; [|apply IH; intros; apply Hw; by right].
  destruct (lookup_lt_is_Some_2 entries i) as [[k v] He]; [apply Hw; by left|]. rewrite He.
  unfold at_index. rewrite He. eapply computes_bind_ok; [apply computes_lift|].
  eapply computes_bind_ok; [by apply (copy_record_entry_computes Hask)|].
  specialize (IH (output ++ [(k, v)])). rewrite <- app_assoc in IH. apply IH. intros j Hj. apply Hw. by right.
Qed.

Lemma Record_get_map_get (entries : list Entry) k : Record_get entries k = map_get entries k.
Proof. induction entries as [|[k' v] entries IH]; simpl; [done|]. by rewrite IH. Qed.

Lemma winners_union :
  omap (λ w, w ≫= λ i, (l ++ r) !! i) (winner_of <$> seq 0 n) = record_union l r.
Proof.
  transitivity (omap (λ i, winner_of i ≫= λ i, (l ++ r) !! i) (seq 0 n)).
  { clear. induction (seq 0 n) as [|i ks IH]; [done|]. rewrite fmap_cons, !omap_step. by rewrite IH. }
  replace n with (length l + length r) by (subst n; by rewrite length_app).
  rewrite seq_app, omap_app. unfold record_union. f_equal.
  - rewrite (omap_seq _ (λ e, Some (e.1, default e.2 (map_get r e.1)))).
    + clear. induction l as [|e items IH]; [done|]. rewrite omap_step. by rewrite IH.
    + intros i e He. simpl. destruct (key_left i e He) as [Hk Hi]. unfold winner_of.
      rewrite (proj2 (Nat.ltb_lt _ _) Hi), Hk. pose proof (key_position_get (length l) r e.1) as Hp.
      destruct (key_position (length l) r e.1) as [p|].
      * destruct Hp as [Hp ([k v] & He' & Hk' & Hg)]. rewrite <- Record_get_map_get, Hg. simpl in *.
        rewrite lookup_app_r by lia. rewrite He'. by subst k.
      * destruct Hp as [Hg _]. rewrite <- Record_get_map_get, Hg. simpl.
        rewrite lookup_app_l by done. rewrite He. by destruct e.
  - rewrite (omap_seq _ (λ e, if bool_decide (e.1 ∈ l.*1) then None else Some e)).
    + clear. induction r as [|e items IH]; [done|]. rewrite omap_step, filter_cons, IH.
      case_bool_decide as Hin; case_decide; done || tauto.
    + intros j e He. simpl. unfold winner_of. rewrite (proj2 (Nat.ltb_ge _ _)) by lia.
      rewrite (key_right j e He). case_bool_decide; [done|]. simpl.
      rewrite lookup_app_r by lia. by replace (length l + j - length l) with j by lia.
Qed.

Lemma merge_records_computes :
  n ≤ cells → computes (merge_records l r) (Ok (VRecord (record_union l r))).
Proof.
  intros Hn. unfold merge_records.
  destruct (sorted_record_indices_ok cells keys Hask) as (sorted & Hsorted & Hord); [by rewrite keys_length|].
  eapply computes_bind_ok; [exact Hsorted|].
  apply (computes_workspace cells); [done..|unfold size_of_usize, cell; lia|]. apply computes_visits.
  destruct (winners_loop_ok n sorted [] sorted 0 (replicate n None) Hord) as (ws & m & Hm & Hws & Hmn); [done| | |].
  { rewrite (ordered_length keys sorted Hord), keys_length. done. }
  { unfold settled. rewrite length_replicate. split_and!; [done|by intros i j ?%not_elem_of_nil|by intros i ?%not_elem_of_nil|].
    intros i Hi. apply lookup_replicate_2. by eapply in_range; [exact Hord|by rewrite app_nil_l|]. }
  rewrite (ordered_length keys sorted Hord), keys_length in Hmn. simpl in Hmn.
  eapply computes_bind_ok; [exact Hm|].
  apply (computes_workspace cells); [done|lia|unfold size_of_entry, cell; lia|].
  subst ws. rewrite <- winners_union, <- (app_nil_l (omap _ _)). apply merge_loop_computes.
  intros i (j & Hw & Hj)%list_elem_of_fmap. rewrite elem_of_seq in Hj.
  unfold winner_of in Hw. destruct (Nat.ltb_spec j (length l)).
  - pose proof (key_position_get (length l) r (key j)) as Hp.
    destruct (key_position (length l) r (key j)) as [p|]; injection Hw as ->; [|lia].
    destruct Hp as [Hp (e & He%lookup_lt_Some & _)]. rewrite length_app. lia.
  - case_bool_decide; [done|]. injection Hw as ->. lia.
Qed.
End Union.

Section Reference.
Context {RuntimeError : Type} `{C : Control}.
Notation Value := (Value RuntimeError).
Notation Entry := (str * Value)%type.

(** What the operations mean on plain entries. *)
Definition record_reference (d : OperationDescriptor) (arguments : list Value) : res Abort Value :=
  match implementation d, arguments with
  | RecordKeys, VRecord input :: _ => Ok (VList (VString <$> input.*1))
  | RecordHas, VRecord input :: VString key :: _ => Ok (VBool (bool_decide (is_Some (Record_get input key))))
  | RecordGetOr, VRecord input :: VString key :: fallback :: _ => Ok (default fallback (Record_get input key))
  | RecordSet, VRecord input :: VString key :: value :: _ => Ok (VRecord (record_put input key value))
  | RecordSelect, VRecord input :: VList keys :: _ => select_reference d input keys
  | RecordMerge, VRecord l :: VRecord r :: _ => Ok (VRecord (record_union l r))
  | _, _ => Panic
  end.

(** What an operation may ask for at once: the storage of its cells, or a chunk
    of a key. *)
Definition cells_of (v : Value) : nat :=
  match v with VRecord entries => length entries | VList items => length items | _ => 0 end.
Definition record_cells (arguments : list Value) : nat := 1 + foldr Nat.add 0 (cells_of <$> arguments).
Definition record_ask (arguments : list Value) : N := 4096 + N.of_nat (record_cells arguments) * cell.

(** The keys of a record are distinct: what [Record::new] guarantees. *)
Definition distinct_keys (v : Value) : Prop :=
  match v with VRecord entries => NoDup entries.*1 | _ => True end.

Lemma get_position (input : list Entry) key :
  Record_get input key =
    match key_position 0 input key with Some i => snd <$> input !! i | None => None end.
Proof.
  pose proof (key_position_get 0 input key) as H. destruct (key_position 0 input key) as [i|].
  - destruct H as [_ (e & He & _ & ->)]. rewrite Nat.sub_0_r in He. by rewrite He.
  - by destruct H.
Qed.

(** ** Theorems *)

(** C14: every operation of [std::record] computes its reference on plain
    entries with distinct keys.  [keys], [has] and [get_or] read them, [set]
    replaces in place or appends, [merge] gives the left entries the values of
    the right ones and appends the new keys in their order, [select] answers
    the requested entries in the order of the requests, and refuses a key that
    is no string, the least key requested twice, or the first one missing, in
    this order; the message shows the key only as a bounded escaped excerpt.
    Stops have a reason (the token, the allocator, a budget that is full but for
    less than the operation asks for at once), counters stay below their
    ceilings, nothing panics. *)
Theorem records_exact (d : OperationDescriptor) (arguments : list Value) :
  Forall distinct_keys arguments →
  computes (record_ask arguments) (record_operation d arguments) (record_reference d arguments).
Proof.
  assert (∀ args, holds (record_ask args) (record_cells args)) as Hh by (intros; apply N.le_refl).
  intros Ha. unfold record_operation, record_reference. apply computes_check.
  destruct (implementation d); try apply computes_unreachable;
    destruct arguments as [|[] arguments]; try apply computes_unreachable; inv Ha as [|?? H1 Ha'].
  1: { eapply computes_workspace; [apply Hh|unfold record_cells; simpl; lia|unfold size_of_value, cell; lia|].
       apply (keys_loop_computes (Hh _) entries []). }
  all: destruct arguments as [|[] arguments]; try apply computes_unreachable; inv Ha' as [|?? H2 Ha].
  - eapply computes_bind_ok; [apply position_loop_computes|]. rewrite get_position.
    pose proof (key_position_get 0 entries s) as H. destruct (key_position 0 entries s) as [i|].
    + destruct H as [_ (e & He & _)]. rewrite Nat.sub_0_r in He. rewrite He. apply computes_ret.
    + apply computes_ret.
  - destruct arguments as [|fallback arguments]; [apply computes_unreachable|].
    eapply computes_bind_ok; [apply position_loop_computes|].
    eapply computes_record_item; [apply Hh|]. apply computes_bytes;
      [unfold size_of_value, record_ask, record_cells, cell; lia|]. rewrite get_position.
    pose proof (key_position_get 0 entries s) as H. destruct (key_position 0 entries s) as [i|].
    + destruct H as [_ (e & He & _)]. rewrite Nat.sub_0_r in He. unfold at_index. rewrite He.
      eapply computes_bind_ok; [apply computes_lift|apply computes_ret].
    + apply computes_ret.
  - eapply record_select_computes; [apply Hh|done| |]; unfold record_cells; simpl; lia.
  - destruct arguments as [|value arguments]; [apply computes_unreachable|].
    eapply computes_bind_ok; [apply position_loop_computes|].
    eapply record_set_computes; [apply Hh|unfold record_cells; simpl; lia].
  - eapply merge_records_computes; [apply Hh|done..|]. unfold record_cells. simpl. rewrite length_app. lia.
Qed.

(** *** What an update shows *)

Lemma record_put_keys (entries : list Entry) key value k :
  k ∈ (record_put entries key value).*1 ↔ k = key ∨ k ∈ entries.*1.
Proof.
  induction entries as [|[k' v] entries IH]; cbn [record_put]; [cbn; set_solver|].
  destruct (str_eqb k' key) eqn:E; cbn; rewrite !elem_of_cons; [apply str_eqb_eq in E as ->; tauto|].
  rewrite IH. tauto.
Qed.

Lemma record_put_NoDup (entries : list Entry) key value :
  NoDup entries.*1 → NoDup (record_put entries key value).*1.
Proof.
  induction entries as [|[k' v] entries IH]; cbn [record_put]; intros Hn; [cbn; apply NoDup_singleton|].
  apply NoDup_cons in Hn as [Hk Hn].
  destruct (str_eqb k' key) eqn:E; cbn; apply NoDup_cons; (split; [|auto]); [done|].
  rewrite record_put_keys. intros [->|Hin]; [by rewrite (proj2 (str_eqb_eq key key)) in E|done].
Qed.

Lemma record_put_get (entries : list Entry) key value k :
  Record_get (record_put entries key value) k = if str_eqb key k then Some value else Record_get entries k.
Proof.
  induction entries as [|[k' v] entries IH]; cbn [record_put Record_get]; [by destruct (str_eqb key k)|].
  destruct (str_eqb k' key) eqn:E; cbn [Record_get].
  - apply str_eqb_eq in E as ->. by destruct (str_eqb key k).
  - rewrite IH. destruct (str_eqb k' k) eqn:E1, (str_eqb key k) eqn:E2; try done.
    apply str_eqb_eq in E1 as ->, E2 as ->. by rewrite (proj2 (str_eqb_eq k k)) in E.
Qed.

Lemma Record_get_app (l r : list Entry) k :
  Record_get (l ++ r) k = match Record_get l k with Some v => Some v | None => Record_get r k end.
Proof. induction l as [|[k' v] l IH]; cbn; [done|]. by destruct (str_eqb k' k). Qed.

Lemma record_union_get (l r : list Entry) k :
  Record_get (record_union l r) k = match Record_get r k with Some v => Some v | None => Record_get l k end.
Proof.
  unfold record_union. rewrite Record_get_app.
  assert (∀ m : list Entry, Record_get ((λ e, (e.1, default e.2 (map_get r e.1))) <$> m) k =
    match Record_get m k with Some v => Some (default v (Record_get r k)) | None => None end) as ->.
  { induction m as [|[k' v] m IH]; [done|]. cbn [fmap list_fmap Record_get fst snd].
    destruct (str_eqb k' k) eqn:E; [|exact IH]. apply str_eqb_eq in E as ->. by rewrite Record_get_map_get. }
  destruct (Record_get l k) as [v|] eqn:E; [by destruct (Record_get r k)|].
  apply Record_get_None in E. clear -E.
  induction r as [|[k' v] r IH]; [done|]. rewrite filter_cons. cbn [Record_get fst].
  destruct (str_eqb k' k) eqn:Ek.
  - apply str_eqb_eq in Ek as ->. rewrite decide_True by done. cbn [Record_get]. by rewrite (proj2 (str_eqb_eq k k)).
  - case_decide; cbn [Record_get]; rewrite ?Ek; exact IH.
Qed.

Lemma record_union_NoDup (l r : list Entry) : NoDup l.*1 → NoDup r.*1 → NoDup (record_union l r).*1.
Proof.
  intros Hl Hr. unfold record_union. rewrite fmap_app. apply NoDup_app. split_and!.
  - rewrite <- list_fmap_compose. exact Hl.
  - intros k Hk Hk'. rewrite <- list_fmap_compose in Hk. change (k ∈ l.*1) in Hk. apply list_elem_of_fmap in Hk' as (e & -> & He).
    apply list_elem_of_filter in He as [He _]. by apply He.
  - eapply sublist_NoDup; [exact Hr|]. apply fmap_sublist, sublist_filter.
Qed.

(** [set] and [merge] answer records: their keys are distinct, and looking
    a key up in the result finds the new value (the right one) when there is
    one and the old (left) value otherwise. *)
Theorem records_update_lookup (set merge : OperationDescriptor) (l r : list Entry) (key : str) (value : Value) :
  implementation set = RecordSet → implementation merge = RecordMerge →
  NoDup l.*1 → NoDup r.*1 →
  (∃ out,
    computes (record_ask [VRecord l; VString key; value])
      (record_operation set [VRecord l; VString key; value]) (Ok (VRecord out)) ∧
    NoDup out.*1 ∧ ∀ k, Record_get out k = if str_eqb key k then Some value else Record_get l k) ∧
  (∃ out,
    computes (record_ask [VRecord l; VRecord r])
      (record_operation merge [VRecord l; VRecord r]) (Ok (VRecord out)) ∧
    NoDup out.*1 ∧ ∀ k, Record_get out k = match Record_get r k with Some v => Some v | None => Record_get l k end).
Proof.
  assert (∀ args, holds (record_ask args) (record_cells args)) as Hh by (intros; apply N.le_refl).
  intros Hs Hm Hl Hr. unfold record_operation. rewrite Hs, Hm. split.
  - exists (record_put l key value). split_and!; [|by apply record_put_NoDup|apply record_put_get].
    apply computes_check. eapply computes_bind_ok; [apply position_loop_computes|].
    eapply record_set_computes; [apply Hh|unfold record_cells; simpl; lia].
  - exists (record_union l r). split_and!; [|by apply record_union_NoDup|apply record_union_get].
    apply computes_check. eapply merge_records_computes; [apply Hh|done..|].
    unfold record_cells. simpl. rewrite length_app. lia.
Qed.
End Reference.

(** ** At concrete inputs *)

Definition a_record (fields : list (string * string)) : Value Empty_set :=
  VRecord ((λ f, (bs f.1, a_text f.2)) <$> fields).

Lemma records_exact_witness :
  computes (C := steady)
    (record_ask (C := steady) [a_record [("a", "1"); ("b", "2")]; a_record [("c", "3"); ("a", "4")]])
    (record_operation (C := steady) (text_operation RecordMerge)
       [a_record [("a", "1"); ("b", "2")]; a_record [("c", "3"); ("a", "4")]])
    (record_reference (C := steady) (text_operation RecordMerge)
       [a_record [("a", "1"); ("b", "2")]; a_record [("c", "3"); ("a", "4")]]) ∧
  record_reference (C := steady) (text_operation RecordMerge)
    [a_record [("a", "1"); ("b", "2")]; a_record [("c", "3"); ("a", "4")]] =
    Ok (a_record [("a", "4"); ("b", "2"); ("c", "3")]).
Proof.
  split; [|vm_compute; reflexivity]. apply (records_exact (C := steady)).
  repeat (apply Forall_cons; split); [apply (bool_decide_unpack _); vm_compute; exact I..|apply Forall_nil; exact I].
Defined.

Lemma records_update_lookup_witness :
  ∃ out,
    computes (C := steady) (record_ask (C := steady) [a_record [("a", "1")]; a_record [("b", "2")]])
      (record_operation (C := steady) (text_operation RecordMerge) [a_record [("a", "1")]; a_record [("b", "2")]])
      (Ok (VRecord out)) ∧
    Record_get out (bs "b") = Some (a_text "2").
Proof.
  destruct (records_update_lookup (C := steady) (text_operation RecordSet) (text_operation RecordMerge)
    [(bs "a", a_text "1")] [(bs "b", a_text "2")] (bs "c") (a_text "3")) as [_ (out & Hc & _ & Hg)].
  - reflexivity.
  - reflexivity.
  - apply (bool_decide_unpack _). vm_compute. exact I.
  - apply (bool_decide_unpack _). vm_compute. exact I.
  - exists out. split; [exact Hc|]. rewrite Hg. reflexivity.
Defined.
