(* ===== verification/Lists.v ===== *)
(** * Operations on lists ([opaal-runtime/src/eval/list_operations.rs])

    Inference of type arguments, the preparation and the calls of callbacks,
    and the operations of [std::list].  A call runs the evaluator on the body
    of the callable: here an interface ([Callables]), which also reads the
    binding metadata of a callable.  Storage grows like the [Vec] of the
    source, whose capacity is part of the state. *)
From S2P Require Import Prelude Utf8 Order Source Ast Status Value Stream Float Operation Types Catalog.
From S2P Require Import Lifetime Evaluation Strings Records.

Local Open Scope res_scope.
Local Open Scope eval_scope.

(** ** Types of values *)

Section Types.
Context {RuntimeError : Type}.
Notation Value := (Value RuntimeError).

(** [runtime_value_type] of eval.rs. *)
Fixpoint runtime_value_type (value : Value) : option ValueType :=
  match value with
  | VNull => Some TNull
  | VBool _ => Some TBool
  | VInt _ => Some TInt
  | VFloat _ => Some TFloat
  | VString _ => Some TString
  | VBytes _ => Some TBytes
  | VPath _ => Some TPath
  | VDuration _ => Some TDuration
  | VByteSize _ => Some TByteSize
  | VList values => match values with [] => None | v :: _ => TList <$> runtime_value_type v end
  | VRecord _ => Some TRecord
  | VTable _ _ => Some TTable
  | VRange _ => Some TRange
  | VStatus _ => Some TStatus
  | VError _ => Some TError
  | VCallable c => Some (if str_eqb (callable_family c) (bs "closure") then TClosure else TFunction)
  | VNominalRecord id arguments _ | VVariant id arguments _ _ => Some (TNominal id arguments)
  end.
End Types.

(** ** Callables *)

(** What a callback is asked for: the action flag of its signature, its own
    type parameters, its parameter and result types, the type arguments its
    definition captured, and the declarations it was checked against. *)
Record CallableMetadata := mkMetadata {
  metadata_action : bool;
  metadata_generics : list ResolvedTypeParameter;
  metadata_parameters : list ValueType;
  metadata_result : option ValueType;
  captured_type_arguments : Substitutions;
  metadata_nominals : NominalTypes
}.

(** [callable_value] is the downcast to the language's own callables,
    [run_call] the evaluator on the body, with the arguments, the type
    arguments and the result type. *)
Class Callables (RuntimeError : Type) := mkCallables {
  callable_value : CallableRef → option CallableMetadata;
  run_call : CallableRef → CallableMetadata → list (Value RuntimeError) → list ValueType → ValueType →
    Eval (Value RuntimeError);
  binding_types : NominalTypes
}.

(** The texts of [CallbackShape]'s errors; a conflict is worded differently by
    [infer_operation] and by [instantiate]. *)
Definition callback_message (against : str) (e : CallbackError) : str :=
  match e with
  | CallbackIsAction => bs "callbacks require a function or closure; actions are not accepted"
  | CallbackArity callback operation =>
      bs "callback expects " ++ show_int (Z.of_nat callback) ++ bs " arguments; operation supplies " ++
      show_int (Z.of_nat operation)
  | CallbackConflict t u =>
      bs "callback type `" ++ type_text t ++ bs "` conflicts with " ++ against ++ bs "`" ++ type_text u ++ bs "`"
  | CallbackUninferred generic =>
      bs "cannot infer callback type `" ++ generic ++ bs "`; use a concrete typed wrapper"
  | CallbackConstraint actual generic =>
      bs "callback type `" ++ type_text actual ++ bs "` fails constraints for `" ++ generic ++ bs "`"
  | CallbackParameter parameter supplied =>
      bs "callback parameter `" ++ type_text parameter ++ bs "` cannot accept `" ++ type_text supplied ++ bs "`"
  | CallbackResult result output =>
      bs "callback result `" ++ type_text result ++ bs "` does not fit `" ++ type_text output ++ bs "`"
  end.

(** A question that always has an answer. *)
Definition holds_for (nominals : NominalTypes) (t : ValueType) (constraint : TypeConstraint) : bool :=
  match type_satisfies_constraint nominals (λ _ _, false) t constraint with Ok b => b | _ => false end.

Section Lists.
Context {RuntimeError : Type} `{C : Control} `{K : !Callables RuntimeError}.
Notation Value := (Value RuntimeError).

(** The methods that take the evaluator by shared reference charge nothing and
    poll nothing: they are results. *)
Definition invalid_callback {A} (descriptor : OperationDescriptor) (message : str) : res Abort A :=
  Err (AbortError (OperationFailed (invalid descriptor message)) call_span).

Definition or_invalid {A} (descriptor : OperationDescriptor) (against : str) (r : res CallbackError A)
    : res Abort A :=
  match r with
  | Ok a => Ok a
  | Err e => invalid_callback descriptor (callback_message against e)
  | Panic => Panic
  end.

(** *** Complete types *)

(** The common type of the items, when each has a complete type and all agree. *)
Definition common_type (complete : Value → Eval (option ValueType))
    : list Value → option ValueType → Eval (option ValueType) :=
  fix go values element :=
    match values with
    | [] => ret (TList <$> element)
    | value :: values =>
      do* actual := complete value in
      match actual with
      | None => ret None
      | Some actual =>
        if match element with Some previous => negb (ValueType_eqb previous actual) | None => false end
        then ret None
        else go values (Some actual)
      end
    end.

Fixpoint complete_value_type (value : Value) : Eval (option ValueType) :=
  visit ;;
  match value with
  | VList values => nested (common_type complete_value_type values None)
  | _ => ret (runtime_value_type value)
  end.

(** *** Callbacks *)

Definition without_own (f : CallableMetadata) : Substitutions :=
  λ name, if existsb (λ parameter, str_eqb (parameter_name parameter) name) (metadata_generics f)
          then None else captured_type_arguments f name.

(** The metadata with the captured type arguments substituted. *)
Definition substituted (f : CallableMetadata) : CallableMetadata :=
  mkMetadata (metadata_action f) (metadata_generics f)
    ((λ t, substitute_type t (without_own f)) <$> metadata_parameters f)
    ((λ t, substitute_type t (without_own f)) <$> metadata_result f)
    (captured_type_arguments f) (metadata_nominals f).

Definition callback_shape (descriptor : OperationDescriptor) (value : Value)
    : res Abort (CallableRef * CallableMetadata * CallbackShape) :=
  match value with
  | VCallable callable =>
    match callable_value callable with
    | None => invalid_callback descriptor (bs "callback has no language binding metadata")
    | Some f =>
      let f := substituted f in
      Ok (callable, f, mkShape (metadata_action f) (metadata_generics f) (metadata_parameters f)
        (default TAny (metadata_result f)))
    end
  | _ =>
    invalid_callback descriptor (bs "expected function or closure, found " ++ family_name value)
  end.

Record PreparedCallback := mkPrepared {
  prepared_callable : CallableRef;
  prepared_function : CallableMetadata;
  prepared_type_arguments : list ValueType;
  prepared_result : ValueType
}.

Definition prepare_callback (descriptor : OperationDescriptor) (value : Value) (substitutions : Substitutions)
    (relation : OperationCallback) : res Abort PreparedCallback :=
  let* '(callable, f, shape) := callback_shape descriptor value in
  let* type_arguments := or_invalid descriptor (bs "operation type ")
    (instantiate shape relation substitutions (holds_for (metadata_nominals f))) in
  Ok (mkPrepared callable f type_arguments (substitute_type (callback_result relation) substitutions)).

Definition invoke_callback (callback : PreparedCallback) (arguments : list Value) : Eval Value :=
  check_cancel ;;
  run_call (prepared_callable callback) (prepared_function callback) arguments
    (prepared_type_arguments callback) (prepared_result callback).

(** *** Inference *)

Fixpoint infer_arguments (descriptor : OperationDescriptor)
    (entries : list (Value * option ValueType * OperationParameter)) (types : Substitutions)
    : Eval Substitutions :=
  match entries with
  | [] => ret types
  | (value, result_type, parameter) :: entries =>
    match op_parameter_callback parameter with
    | Some relation =>
      do* ' (_, _, shape) := lift (callback_shape descriptor value) in
      do* types := lift (or_invalid descriptor [] (infer_operation shape relation types)) in
      infer_arguments descriptor entries types
    | None =>
      match op_parameter_input parameter with
      | InputValue expected =>
        do* actual := (match result_type with
                       | Some declared => ret (Some declared)
                       | None => complete_value_type value
                       end) in
        match actual with
        | None => infer_arguments descriptor entries types
        | Some actual =>
          match unify_type expected actual types with
          | (true, types) => infer_arguments descriptor entries types
          | (false, _) =>
            lift (invalid_callback descriptor
              (bs "type evidence `" ++ type_text actual ++ bs "` conflicts with `" ++ type_text expected ++ bs "`"))
          end
        end
      | _ => unreachable
      end
    end
  end.

Fixpoint inferred_types (types : Substitutions) (names : list str) : Eval (list ValueType) :=
  match names with
  | [] => ret []
  | name :: names =>
    match types name with
    | Some t => do* rest := inferred_types types names in ret (t :: rest)
    | None =>
      eval_error (GenericInstantiation
        (bs "cannot infer type argument `" ++ name ++ bs "`; provide it explicitly"))
    end
  end.

Definition infer_operation_arguments (descriptor : OperationDescriptor) (values : list Value)
    (result_types : list (option ValueType)) (expected_result : option ValueType) : Eval (list ValueType) :=
  do* overload := lift (expect_some (inference_overload descriptor)) in
  let types :=
    match expected_result with
    | Some expected => (unify_type (overload_result overload) expected no_substitutions).2
    | None => no_substitutions
    end in
  do* types := infer_arguments descriptor
    (combine (combine values result_types) (overload_parameters overload)) types in
  inferred_types types (type_parameters descriptor).

(** ** Items *)

Definition all_valid (validate : Value → Eval bool) : list Value → Eval bool :=
  fix go values :=
    match values with
    | [] => ret true
    | value :: values =>
      visit ;;
      do* ok := validate value in
      if (ok : bool) then go values else ret false
    end.

Fixpoint validate_operation_value (value : Value) (expected : ValueType) : Eval bool :=
  match expected, value with
  | TList element, VList values =>
    nested (all_valid (λ value, validate_operation_value value element) values)
  | _, _ => ret (accepts expected value)
  end.

Definition check_list_item (descriptor : OperationDescriptor) (element : ValueType) (item : Value) : Eval unit :=
  visit ;;
  do* ok := validate_operation_value item element in
  if (ok : bool) then ret tt
  else lift (invalid_callback descriptor (bs "list item does not fit its type argument")).

Fixpoint check_list_items (descriptor : OperationDescriptor) (element : ValueType) (items : list Value)
    : Eval unit :=
  match items with
  | [] => ret tt
  | item :: items => check_list_item descriptor element item ;; check_list_items descriptor element items
  end.

(** A growing [Vec]. *)
Record Vec := mkVec { vec_items : list Value; vec_capacity : nat }.
Definition Vec_new : Vec := mkVec [] 0.
Definition vec_push (v : Vec) (item : Value) : Vec := mkVec (vec_items v ++ [item]) (vec_capacity v).

(** Capacities are those of storage that exists, so that twice of one does not
    overflow; a limit below the capacity would make the subtraction panic. *)
Definition reserve_list_item (output : Vec) (limit : nat) : Eval Vec :=
  check_cancel ;;
  retain_items 1 ;;
  if length (vec_items output) =? vec_capacity output then
    let capacity := Nat.min (Nat.max (2 * vec_capacity output) 1) limit in
    if capacity <? vec_capacity output then unreachable
    else
      let additional := capacity - vec_capacity output in
      do* bytes := checked_bytes (Z.of_nat additional) size_of_value in
      retain_collection_bytes bytes ;;
      try_reserve ;;
      ret (mkVec (vec_items output) capacity)
  else ret output.

Definition retain_list_item (output : Vec) (limit : nat) (item : Value) : Eval Vec :=
  do* output := reserve_list_item output limit in ret (vec_push output item).

Definition Option_type : NominalTypeId := NominalTypeId_standard (bs "outcome") (bs "Option").

Definition list_option (element : ValueType) (item : option Value) : Eval Value :=
  check_cancel ;;
  match item with
  | Some item =>
    retain_items 1 ;;
    retain_collection_bytes size_of_value ;;
    ret (VVariant Option_type [element] (bs "Some") [item])
  | None => ret (VVariant Option_type [element] (bs "None") [])
  end.

(** ** Sorting *)

Definition compare_items (compare : Value → Value → Eval comparison)
    : list Value → list Value → Eval (option comparison) :=
  fix go lefts rights :=
    match lefts, rights with
    | l :: lefts, r :: rights =>
      do* order := compare l r in
      match order with
      | Eq => go lefts rights
      | order => ret (Some order)
      end
    | _, _ => ret None
    end.

(** An [OperationError] of the operators, as an error of the evaluator. *)
Definition or_operation {A} (r : res OperationError A) : Eval A :=
  match r with Ok a => ret a | Err e => operation_error e | Panic => unreachable end.

Fixpoint compare_list_keys (l r : Value) : Eval comparison :=
  visit ;;
  match l, r with
  | VString l, VString r | VBytes l, VBytes r | VPath l, VPath r => compare_key_bytes l r
  | VList lefts, VList rights =>
    nested
      (do* decided := compare_items compare_list_keys lefts rights in
       ret (default (Nat.compare (length lefts) (length rights)) decided))
  | _, _ => or_operation (order l r)
  end.

Definition compare_keys_at (keys : list Value) (a b : nat) : Eval comparison :=
  do* l := at_index keys a in
  do* r := at_index keys b in
  compare_list_keys l r.

Fixpoint emit_items (items : list Value) (limit : nat) (indices : list nat) (output : Vec) : Eval Vec :=
  match indices with
  | [] => ret output
  | index :: indices =>
    visit ;;
    do* output := reserve_list_item output limit in
    do* item := at_index items index in
    emit_items items limit indices (vec_push output item)
  end.

Definition sorted_list (items keys : list Value) : Eval Value :=
  let n := length items in
  do* indices :=
    (if 1 <? n then
       do* bytes := checked_bytes (Z.of_nat n) (2 * size_of_usize) in
       retain_collection_bytes bytes ;;
       try_reserve ;; try_reserve ;;
       visits n ;;
       merge_rounds (compare_keys_at keys) n (seq 0 n) 1
     else ret (seq 0 n)) in
  do* output := emit_items items n indices Vec_new in
  ret (VList (vec_items output)).

(** ** The operations *)

Fixpoint check_constraints (descriptor : OperationDescriptor) (substitutions : Substitutions)
    (entries : list (str * TypeConstraint)) : res Abort unit :=
  match entries with
  | [] => Ok tt
  | (name, constraint) :: entries =>
    let* t := expect_some (substitutions name) in
    if holds_for binding_types t constraint then check_constraints descriptor substitutions entries
    else invalid_callback descriptor
      (bs "type `" ++ type_text t ++ bs "` fails Ordered constraint for `" ++ name ++ bs "`")
  end.

Definition constraint_entries (descriptor : OperationDescriptor) : list (str * TypeConstraint) :=
  mjoin ((λ name, (λ constraint, (name, constraint)) <$> type_parameter_constraints descriptor name)
    <$> type_parameters descriptor).

Fixpoint copy_items (limit : nat) (items : list Value) (output : Vec) : Eval Vec :=
  match items with
  | [] => ret output
  | item :: items =>
    visit ;;
    do* output := retain_list_item output limit item in
    copy_items limit items output
  end.

(** [take], [drop], [reverse], [sort]. *)
Definition selecting_operation (descriptor : OperationDescriptor) (operation : StandardOperation)
    (element : ValueType) (items rest : list Value) : Eval Value :=
  do* count :=
    (match operation with
     | Take | Drop =>
       match rest with
       | VInt count :: _ =>
         if (count <? 0)%Z then lift (invalid_callback descriptor (bs "count must be nonnegative"))
         else ret (Z.to_nat (Z.min count (Z.of_nat (length items))))
       | _ => unreachable
       end
     | _ => ret (length items)
     end) in
  check_list_items descriptor element items ;;
  match operation with
  | Sort => sorted_list items items
  | _ =>
    let selected := match operation with Take => take count items | Drop => drop count items | _ => items end in
    let selected := match operation with Reverse => reverse selected | _ => selected end in
    do* output := copy_items (length selected) selected Vec_new in
    ret (VList (vec_items output))
  end.

(** The loop over the items; [all] is the whole list. *)
Fixpoint callback_loop (descriptor : OperationDescriptor) (operation : StandardOperation)
    (element : ValueType) (callback : PreparedCallback) (all items : list Value)
    (accumulator : Value) (output : Vec) (count : Z) : Eval Value :=
  match items with
  | [] =>
    match operation with
    | Fold => ret accumulator
    | Any => ret (VBool false)
    | All => ret (VBool true)
    | Count => ret (VInt count)
    | Find => list_option element None
    | SortBy => sorted_list all (vec_items output)
    | _ => ret (VList (vec_items output))
    end
  | item :: items =>
    check_list_item descriptor element item ;;
    do* result := invoke_callback callback
      (match operation with Fold => [accumulator; item] | _ => [item] end) in
    match operation, result with
    | Any, VBool matched =>
      if matched then ret (VBool true)
      else callback_loop descriptor operation element callback all items accumulator output count
    | All, VBool matched =>
      if matched then callback_loop descriptor operation element callback all items accumulator output count
      else ret (VBool false)
    | Find, VBool matched =>
      if matched then list_option element (Some item)
      else callback_loop descriptor operation element callback all items accumulator output count
    | Count, VBool matched =>
      if matched then
        do* count := (if in_i64 (count + 1) then ret (count + 1)%Z
                      else lift (invalid_callback descriptor (bs "match count exceeds Int"))) in
        callback_loop descriptor operation element callback all items accumulator output count
      else callback_loop descriptor operation element callback all items accumulator output count
    | Map, _ | SortBy, _ =>
      do* output := retain_list_item output (length all) result in
      callback_loop descriptor operation element callback all items accumulator output count
    | Filter, VBool matched =>
      if matched then
        do* output := retain_list_item output (length all) item in
        callback_loop descriptor operation element callback all items accumulator output count
      else callback_loop descriptor operation element callback all items accumulator output count
    | Fold, _ =>
      callback_loop descriptor operation element callback all items result output count
    | _, _ => unreachable
    end
  end.

Definition last_callback (overload : OperationOverload) : option OperationCallback :=
  last (overload_parameters overload) ≫= op_parameter_callback.

Definition prepared_callback (descriptor : OperationDescriptor) (arguments : list Value)
    (substitutions : Substitutions) : res Abort (option PreparedCallback) :=
  let* overload := expect_some (inference_overload descriptor) in
  match last_callback overload with
  | Some relation =>
    let* value := expect_some (last arguments) in
    let* prepared := prepare_callback descriptor value substitutions relation in
    Ok (Some prepared)
  | None => Ok None
  end.

Definition calling_operation (descriptor : OperationDescriptor) (operation : StandardOperation)
    (element : ValueType) (callback : option PreparedCallback) (substitutions : Substitutions)
    (items rest : list Value) : Eval Value :=
  do* callback := lift (expect_some callback) in
  match operation with
  | Fold =>
    do* accumulator := at_index rest 0 in
    do* accumulating := lift (expect_some (substitutions (bs "A"))) in
    do* ok := validate_operation_value accumulator accumulating in
    if (ok : bool) then callback_loop descriptor operation element callback items items accumulator Vec_new 0
    else lift (invalid_callback descriptor (bs "initial value does not fit accumulator type"))
  | _ => callback_loop descriptor operation element callback items items VNull Vec_new 0
  end.

Definition list_operation (descriptor : OperationDescriptor) (arguments : list Value)
    (substitutions : Substitutions) : Eval Value :=
  check_cancel ;;
  if existsb (λ name, negb (bool_decide (is_Some (substitutions name)))) (type_parameters descriptor) then
    eval_error (GenericInstantiation (bs "list operations require complete type evidence before iteration"))
  else
    lift (check_constraints descriptor substitutions (constraint_entries descriptor)) ;;
    do* callback := lift (prepared_callback descriptor arguments substitutions) in
    match arguments with
    | VList items :: rest =>
      do* element := lift (expect_some (substitutions (bs "T"))) in
      match implementation descriptor with
      | Take | Drop | Reverse | Sort =>
        selecting_operation descriptor (implementation descriptor) element items rest
      | operation => calling_operation descriptor operation element callback substitutions items rest
      end
    | _ => unreachable
    end.
End Lists.
