(* ===== verification/ListsFacts.v ===== *)
(** * The operations on lists are the list functions

    With callbacks that compute results, [map], [filter], [fold], [any], [all],
    [count] and [find] are their counterparts on plain lists up to the first
    item that does not fit or call that fails, and [sort] and [sort_by] sort
    stably. *)
From S2P Require Import Prelude Utf8 Order Compare Source Ast Status Value ValueFacts Stream Float.
From S2P Require Import Operation OperationFacts StructuredFacts Types TypesFacts Catalog.
From S2P Require Import Lifetime Evaluation Strings StringsFacts Records RecordsFacts Lists.

Local Open Scope res_scope.
Local Open Scope eval_scope.

(** ** Plain results *)

Section Plain.
Context {E A B : Type}.

(** The first item with the property, the items with it, the images. *)
Fixpoint first_match (p : A → res E bool) (items : list A) : res E (option A) :=
  match items with
  | [] => Ok None
  | x :: items => let* b := p x in if (b : bool) then Ok (Some x) else first_match p items
  end.
Fixpoint matches (p : A → res E bool) (items : list A) : res E (list A) :=
  match items with
  | [] => Ok []
  | x :: items =>
    let* b := p x in
    let* rest := matches p items in
    Ok (if (b : bool) then x :: rest else rest)
  end.
Fixpoint images (f : A → res E B) (items : list A) : res E (list B) :=
  match items with
  | [] => Ok []
  | x :: items => let* y := f x in let* rest := images f items in Ok (y :: rest)
  end.
Fixpoint folded (f : B → A → res E B) (acc : B) (items : list A) : res E B :=
  match items with
  | [] => Ok acc
  | x :: items => let* acc := f acc x in folded f acc items
  end.

Lemma images_length f items ys : images f items = Ok ys → length ys = length items.
Proof.
  revert ys. induction items as [|x items IH]; simpl; [by intros ys [= <-]|].
  intros ys. destruct (f x); [|done..]. simpl. destruct (images f items) as [rest| |]; [|done..].
  intros [= <-]. simpl. by rewrite (IH rest).
Qed.

Lemma images_lookup f items ys i x :
  images f items = Ok ys → items !! i = Some x → ∃ y, f x = Ok y ∧ ys !! i = Some y.
Proof.
  revert ys i. induction items as [|z items IH]; simpl; [done|].
  intros ys i. destruct (f z) as [y| |] eqn:Ef; [|done..]. simpl.
  destruct (images f items) as [rest| |]; [|done..]. intros [= <-].
  destruct i as [|i]; simpl; [intros [= ->]; eauto|]. by apply IH.
Qed.

Lemma matches_length p items xs : matches p items = Ok xs → length xs ≤ length items.
Proof.
  revert xs. induction items as [|x items IH]; simpl; [by intros xs [= <-]|].
  intros xs. destruct (p x) as [b| |]; [|done..]. simpl. destruct (matches p items) as [rest| |]; [|done..].
  intros [= <-]. specialize (IH rest eq_refl). destruct b; simpl; lia.
Qed.

Lemma images_total (g : A → B) items : images (λ x, Ok (g x)) items = Ok (g <$> items).
Proof. induction items as [|x items IH]; simpl; [done|]. by rewrite IH. Qed.

End Plain.

Lemma res_bind_assoc {E A B D} (m : res E A) (k : A → res E B) (l : B → res E D) :
  res_bind (res_bind m k) l = res_bind m (λ a, res_bind (k a) l).
Proof. by destruct m. Qed.

Section Facts.
Context {RuntimeError : Type} `{C : Control} `{K : !Callables RuntimeError} {ask : N}.
Notation Value := (Value RuntimeError).
Notation computes := (computes ask).
Notation Vec := (@Vec RuntimeError).

Lemma computes_lift_bind {A B} (r : res Abort A) (k : A → Eval B) f :
  (∀ a, r = Ok a → computes (k a) (f a)) → computes (bind (lift r) k) (res_bind r f).
Proof. intros H. apply computes_bind; [apply computes_lift|done]. Qed.

(** ** Types *)

(** Checking an item with charges is accepting it. *)
Lemma validate_computes (value : Value) expected :
  computes (validate_operation_value value expected) (Ok (accepts expected value)).
Proof.
  revert expected. induction value as [v Hv|l IH|es _|i t es _|t m k r _|cs rs _] using Value_nested_ind; intros expected.
  2: { destruct expected; try apply computes_ret. cbn [validate_operation_value accepts]. apply computes_nested.
    induction IH as [|v l Hv _ IHl]; simpl; [apply computes_ret|].
    apply computes_visit. eapply computes_bind_ok; [apply Hv|].
    destruct (accepts expected v); [exact IHl|apply computes_ret]. }
  all: destruct expected; try apply computes_ret; destruct v; try apply computes_ret; done.
Qed.


(** ** Comparing and sorting *)

Definition operation_result {A} (r : res OperationError A) : res Abort A :=
  match r with Ok a => Ok a | Err e => Err (AbortError (OperationFailed e) call_span) | Panic => Panic end.

Lemma or_operation_computes {A} (r : res OperationError A) : computes (or_operation r) (operation_result r).
Proof. destruct r; [apply computes_ret|apply computes_throw|apply computes_unreachable]. Qed.

(** The charged comparison is the comparison of the operators. *)
Lemma compare_list_keys_computes (l r : Value) :
  computes (compare_list_keys l r) (operation_result (order l r)).
Proof.
  revert r. induction l as [v Hv|l IH|es _|i t es _|t m k p _|cs rs _] using Value_nested_ind; intros r.
  2: { cbn [compare_list_keys]. apply computes_visit. destruct r; try apply or_operation_computes.
    apply computes_nested. cbn [order]. unfold order_lists.
    assert (∀ rights, computes (compare_items compare_list_keys l rights)
      (operation_result (order_pairs order l rights))) as Hpairs.
    { clear items. induction IH as [|x l Hx _ IHl]; intros rights; simpl; [apply computes_ret|].
      destruct rights as [|y rights]; [apply computes_ret|]. specialize (Hx y).
      destruct (order x y) as [c|e|]; simpl in *.
      - eapply computes_bind_ok; [exact Hx|]. destruct c; [apply IHl|apply computes_ret..].
      - by apply computes_bind_err.
      - apply (computes_bind _ _ Panic (λ _, Panic)); [exact Hx|done]. }
    specialize (Hpairs items). destruct (order_pairs order l items) as [c|e|]; simpl in *.
    - eapply computes_bind_ok; [exact Hpairs|]. destruct c; apply computes_ret.
    - by apply computes_bind_err.
    - apply (computes_bind _ _ Panic (λ _, Panic)); [exact Hpairs|done]. }
  all: try destruct v; try done; cbn [compare_list_keys]; apply computes_visit; destruct r;
    try apply or_operation_computes; apply compare_key_bytes_computes.
Qed.

(** A permutation of the positions in ascending order, ties by position, is a
    stable sort of them. *)
Lemma index_sorted_stable (cmp : nat → nat → comparison) n indices :
  preorder_among cmp (seq 0 n) → indices ≡ₚ seq 0 n → StronglySorted (index_le cmp) indices →
  stably_sorted cmp (seq 0 n) indices.
Proof.
  intros [Hanti Htrans] Hp Hs. split_and!; [done| |].
  - clear Hp. induction Hs as [|a l Hs IH Hall]; constructor; [done|].
    eapply Forall_impl; [exact Hall|]. by intros b [Hle _].
  - intros z Hz. apply (StronglySorted_unique_strong le).
    + intros x y _ _. lia.
    + assert (∀ y, y ∈ indices → y ∈ seq 0 n) as Hin by (intros y; by rewrite Hp).
      clear Hp. induction Hs as [|a l Hs IH Hall]; [constructor|]. rewrite filter_cons.
      assert (StronglySorted le (filter (λ y, cmp z y = Eq) l)) as Hl by (apply IH; intros y Hy; apply Hin; by right).
      case_decide as Ha; [|exact Hl]. constructor; [exact Hl|].
      apply list.Forall_forall. intros b [Hb Hbl]%list_elem_of_filter.
      rewrite list.Forall_forall in Hall. destruct (Hall b Hbl) as [Hle Htie]. apply Htie.
      assert (a ∈ seq 0 n) as Ha' by (apply Hin; by left). assert (b ∈ seq 0 n) as Hb' by (apply Hin; by right).
      assert (cmp b a ≠ Gt) as Hba.
      { apply (Htrans b z a); [done..| |by rewrite Ha]. by rewrite (Hanti z b), Hb. }
      rewrite (Hanti a b) in Hba by done. by destruct (cmp a b).
    + assert (∀ k m, StronglySorted le (filter (λ y, cmp z y = Eq) (seq k m))) as Hseq.
      { intros k m. revert k. induction m as [|m IH]; intros k; [constructor|]. cbn [seq]. rewrite filter_cons.
        case_decide; [|apply IH]. constructor; [apply IH|]. apply list.Forall_forall.
        intros b [_ Hb]%list_elem_of_filter. apply elem_of_seq in Hb. lia. }
      apply Hseq.
    + by rewrite Hp.
Qed.

Definition key_compare (keys : list Value) (a b : nat) : comparison :=
  value_compare (nth a keys VNull) (nth b keys VNull).

Lemma key_compare_preorder keys :
  Forall value_wf keys → (∀ a b, a ∈ keys → b ∈ keys → comparable a b) →
  preorder_among (key_compare keys) (seq 0 (length keys)).
Proof.
  intros Hw Hc. destruct (value_compare_preorder keys Hw Hc) as [Hanti Htrans].
  assert (∀ i, i ∈ seq 0 (length keys) → nth i keys VNull ∈ keys) as Hin.
  { intros i Hi%elem_of_seq. destruct (lookup_lt_is_Some_2 keys i) as [x Hx]; [lia|].
    rewrite (nth_lookup_Some _ _ _ _ Hx). by eapply list_elem_of_lookup_2. }
  unfold key_compare. split; [intros a b Ha Hb; apply Hanti; auto|intros a b c Ha Hb Hd; apply Htrans; auto].
Qed.

(** ** Storage *)

Definition vec_ok (limit : nat) (v : Vec) : Prop := length (vec_items v) ≤ vec_capacity v ≤ limit.

Lemma reserve_list_item_ok cells limit (output : Vec) :
  holds ask cells → limit ≤ cells → vec_ok limit output → length (vec_items output) < limit →
  ∃ capacity, computes (reserve_list_item output limit) (Ok (mkVec (vec_items output) capacity)) ∧
    length (vec_items output) < capacity ≤ limit.
Proof.
  intros Ha Hl [Hlen Hcap] Hlt. unfold reserve_list_item.
  assert (4096 ≤ ask)%N as Hask by (unfold holds in Ha; lia).
  destruct (Nat.eqb_spec (length (vec_items output)) (vec_capacity output)) as [E|E].
  - set (capacity := Nat.min (Nat.max (2 * vec_capacity output) 1) limit).
    exists capacity. split; [|subst capacity; lia].
    apply computes_check, computes_item; [lia|].
    rewrite (proj2 (Nat.ltb_ge _ _)) by (subst capacity; lia).
    apply (computes_ext (bind (bind (checked_bytes (Z.of_nat (capacity - vec_capacity output)) size_of_value)
        retain_collection_bytes) (λ _, try_reserve ;; ret (mkVec (vec_items output) capacity)))).
    { intros s. apply bind_assoc. }
    eapply computes_unit; [apply checked_bytes_returns; unfold size_of_value; lia| |].
    + simpl. unfold holds, cell in Ha. unfold size_of_value. subst capacity. nia.
    + apply computes_reserve, computes_ret.
  - exists (vec_capacity output). split; [|lia]. apply computes_check, computes_item; [lia|].
    destruct output. apply computes_ret.
Qed.

Lemma retain_list_item_ok cells limit (output : Vec) item :
  holds ask cells → limit ≤ cells → vec_ok limit output → length (vec_items output) < limit →
  ∃ output', computes (retain_list_item output limit item) (Ok output') ∧
    vec_items output' = vec_items output ++ [item] ∧ vec_ok limit output'.
Proof.
  intros Ha Hl Hv Hlt. destruct (reserve_list_item_ok cells limit output Ha Hl Hv Hlt) as (capacity & Hm & Hc).
  exists (mkVec (vec_items output ++ [item]) capacity). split_and!; [|done|].
  - eapply computes_bind_ok; [exact Hm|apply computes_ret].
  - unfold vec_ok. simpl. rewrite length_app. simpl. lia.
Qed.

Lemma copy_items_ok cells limit items (output : Vec) :
  holds ask cells → limit ≤ cells → vec_ok limit output →
  length (vec_items output) + length items ≤ limit →
  ∃ output', computes (copy_items limit items output) (Ok output') ∧
    vec_items output' = vec_items output ++ items.
Proof.
  intros Ha Hl. revert output. induction items as [|item items IH]; intros output Hv Hlen; simpl in Hlen.
  { exists output. split; [apply computes_ret|by rewrite app_nil_r]. }
  destruct (retain_list_item_ok cells limit output item Ha Hl Hv) as (output' & Hm & Hi & Hv'); [lia|].
  destruct (IH output' Hv') as (output'' & Hm' & Hi'); [rewrite Hi, length_app; simpl; lia|].
  exists output''. split; [|by rewrite Hi', Hi, <- app_assoc].
  cbn [copy_items]. apply computes_visit. by eapply computes_bind_ok.
Qed.

(** The items at these positions. *)
Definition items_at (items : list Value) (indices : list nat) : list Value :=
  (λ i, nth i items VNull) <$> indices.

Lemma emit_items_ok cells items limit indices (output : Vec) :
  holds ask cells → limit ≤ cells → vec_ok limit output →
  Forall (λ i, i < length items) indices →
  length (vec_items output) + length indices ≤ limit →
  ∃ output', computes (emit_items items limit indices output) (Ok output') ∧
    vec_items output' = vec_items output ++ items_at items indices.
Proof.
  intros Ha Hl. revert output. induction indices as [|i indices IH]; intros output Hv Hin Hlen; simpl in Hlen.
  { exists output. split; [apply computes_ret|by rewrite app_nil_r]. }
  apply Forall_cons_1 in Hin as [Hi Hin].
  destruct (reserve_list_item_ok cells limit output Ha Hl Hv) as (capacity & Hm & Hc); [lia|].
  destruct (lookup_lt_is_Some_2 items i Hi) as [item Hitem].
  destruct (IH (mkVec (vec_items output ++ [item]) capacity)) as (output'' & Hm' & Hi'); [|done|simpl; rewrite length_app; simpl; lia|].
  { unfold vec_ok. simpl. rewrite length_app. simpl. lia. }
  exists output''. split.
  - cbn [emit_items]. apply computes_visit. eapply computes_bind_ok; [exact Hm|].
    unfold at_index. rewrite Hitem. eapply computes_bind_ok; [apply computes_lift|exact Hm'].
  - rewrite Hi'. simpl. rewrite <- app_assoc. unfold items_at. simpl.
    by rewrite (nth_lookup_Some _ _ _ _ Hitem).
Qed.

(** The charged sort is a stable sort by the keys. *)
Lemma sorted_list_ok cells items keys :
  holds ask cells → 2 * length items ≤ cells → length keys = length items →
  Forall value_wf keys → (∀ a b, a ∈ keys → b ∈ keys → comparable a b) →
  ∃ indices, computes (sorted_list items keys) (Ok (VList (items_at items indices))) ∧
    stably_sorted (key_compare keys) (seq 0 (length items)) indices.
Proof.
  intros Ha Hcells Hk Hw Hc. unfold sorted_list. set (n := length items) in *.
  assert (∃ indices, computes (if 1 <? n then
       do* bytes := checked_bytes (Z.of_nat n) (2 * size_of_usize) in
       retain_collection_bytes bytes ;; try_reserve ;; try_reserve ;; visits n ;;
       merge_rounds (compare_keys_at keys) n (seq 0 n) 1
     else ret (seq 0 n)) (Ok indices) ∧ stably_sorted (key_compare keys) (seq 0 n) indices) as (indices & Hm & Hst).
  { destruct (Nat.ltb_spec 1 n) as [Hlt|Hge].
    - pose proof (key_compare_preorder keys Hw Hc) as Hpre. rewrite Hk in Hpre.
      destruct (merge_sort_ok (ask := ask) n (compare_keys_at keys) (key_compare keys)) as (indices & Hm & Hp & Hs).
      { intros a b Hla Hlb. destruct (lookup_lt_is_Some_2 keys a) as [x Hx]; [lia|].
        destruct (lookup_lt_is_Some_2 keys b) as [y Hy]; [lia|]. unfold compare_keys_at, at_index. rewrite Hx, Hy.
        do 2 (eapply computes_bind_ok; [apply computes_lift|]).
        unfold key_compare. rewrite (nth_lookup_Some _ _ _ _ Hx), (nth_lookup_Some _ _ _ _ Hy).
        destruct (Hc x y) as [c Ho]; [by eapply list_elem_of_lookup_2..|]. unfold value_compare. rewrite Ho.
        pose proof (compare_list_keys_computes x y) as H. by rewrite Ho in H. }
      { exact Hpre. }
      exists indices. split; [|by apply index_sorted_stable].
      apply (computes_ext (bind (bind (checked_bytes (Z.of_nat n) (2 * size_of_usize)) retain_collection_bytes)
        (λ _, try_reserve ;; try_reserve ;; visits n ;; merge_rounds (compare_keys_at keys) n (seq 0 n) 1))).
      { intros s. apply bind_assoc. }
      eapply computes_unit; [apply checked_bytes_returns; unfold size_of_usize; lia| |].
      + simpl. unfold holds, cell in Ha. unfold size_of_usize. nia.
      + do 2 apply computes_reserve. by apply computes_visits.
    - exists (seq 0 n). split; [apply computes_ret|].
      split_and!; [done| |done]. destruct n as [|[|m]]; [constructor|by repeat constructor|lia]. }
  destruct (emit_items_ok cells items n indices Vec_new) as (output & Hout & Hi); [done|lia|split; simpl; lia| | |].
  { apply list.Forall_forall. intros i Hi. rewrite (proj1 Hst), elem_of_seq in Hi. unfold n in Hi. lia. }
  { simpl. rewrite (Permutation_length (proj1 Hst)), length_seq. lia. }
  exists indices. split; [|done]. eapply computes_bind_ok; [exact Hm|].
  eapply computes_bind_ok; [exact Hout|]. rewrite Hi. apply computes_ret.
Qed.

(** ** What the operations mean *)

Context (meaning : PreparedCallback → list Value → res Abort Value).

Definition fitting (d : OperationDescriptor) (element : ValueType) (item : Value) : res Abort unit :=
  if accepts element item then Ok tt
  else invalid_callback d (bs "list item does not fit its type argument").

Definition answer (d : OperationDescriptor) (element : ValueType) (callback : PreparedCallback) (item : Value)
    : res Abort Value :=
  let* _ := fitting d element item in meaning callback [item].

Definition truth (v : Value) : res Abort bool := match v with VBool b => Ok b | _ => Panic end.

Definition predicate (d : OperationDescriptor) (element : ValueType) (callback : PreparedCallback) (item : Value)
    : res Abort bool :=
  let* v := answer d element callback item in truth v.

Definition option_value (element : ValueType) (item : option Value) : Value :=
  match item with
  | Some item => VVariant Option_type [element] (bs "Some") [item]
  | None => VVariant Option_type [element] (bs "None") []
  end.

Definition accumulate (d : OperationDescriptor) (element : ValueType) (callback : PreparedCallback)
    (accumulator item : Value) : res Abort Value :=
  let* _ := fitting d element item in meaning callback [accumulator; item].

(** The operations that call back, but for [sort_by]. *)
Definition calling_reference (d : OperationDescriptor) (operation : StandardOperation) (element : ValueType)
    (callback : PreparedCallback) (items : list Value) (accumulator : Value) : res Abort Value :=
  let p := predicate d element callback in
  match operation with
  | Any => let* found := first_match p items in Ok (VBool (bool_decide (is_Some found)))
  | All =>
    let* found := first_match (λ item, let* b := p item in Ok (negb b)) items in
    Ok (VBool (negb (bool_decide (is_Some found))))
  | Find => let* found := first_match p items in Ok (option_value element found)
  | Count => let* found := matches p items in Ok (VInt (Z.of_nat (length found)))
  | Filter => let* found := matches p items in Ok (VList found)
  | Map => let* results := images (answer d element callback) items in Ok (VList results)
  | Fold => folded (accumulate d element callback) accumulator items
  | _ => Panic
  end.

Definition selected (operation : StandardOperation) (items rest : list Value) : option (list Value) :=
  match operation, rest with
  | Take, VInt count :: _ => Some (take (Z.to_nat (Z.min count (Z.of_nat (length items)))) items)
  | Drop, VInt count :: _ => Some (drop (Z.to_nat (Z.min count (Z.of_nat (length items)))) items)
  | Reverse, _ => Some (reverse items)
  | _, _ => None
  end.

Fixpoint all_fit (d : OperationDescriptor) (element : ValueType) (items : list Value) : res Abort unit :=
  match items with
  | [] => Ok tt
  | item :: items => let* _ := fitting d element item in all_fit d element items
  end.

Definition counted_items (d : OperationDescriptor) (operation : StandardOperation) (rest : list Value)
    : res Abort unit :=
  match operation, rest with
  | (Take | Drop), VInt count :: _ =>
    if (count <? 0)%Z then invalid_callback d (bs "count must be nonnegative") else Ok tt
  | (Take | Drop), _ => Panic
  | _, _ => Ok tt
  end.

Definition selecting_reference (d : OperationDescriptor) (operation : StandardOperation) (element : ValueType)
    (items rest : list Value) : res Abort Value :=
  let* _ := counted_items d operation rest in
  let* _ := all_fit d element items in
  match selected operation items rest with Some items => Ok (VList items) | None => Panic end.

(** *** Each loop *)

Lemma check_list_item_computes d element (item : Value) :
  computes (check_list_item d element item) (fitting d element item).
Proof.
  unfold check_list_item, fitting. apply computes_visit. eapply computes_bind_ok; [apply validate_computes|].
  destruct (accepts element item); [apply computes_ret|apply computes_lift].
Qed.

Lemma check_list_items_computes d element (items : list Value) :
  computes (check_list_items d element items) (all_fit d element items).
Proof.
  induction items as [|item items IH]; [apply computes_ret|]. cbn [check_list_items all_fit].
  apply (computes_bind _ _ _ (λ _, all_fit d element items)); [apply check_list_item_computes|done].
Qed.

Section Loops.
Context (Hmeaning : ∀ p args,
  computes (run_call (prepared_callable p) (prepared_function p) args (prepared_type_arguments p)
    (prepared_result p)) (meaning p args)).
Context (d : OperationDescriptor) (element : ValueType) (callback : PreparedCallback) (all : list Value).
Context (cells : nat) (Hask : holds ask cells) (Hcells : 2 * length all < cells).
Implicit Types (items : list Value) (output : Vec).

Lemma invoke_computes args : computes (invoke_callback callback args) (meaning callback args).
Proof. apply computes_check, Hmeaning. Qed.

(** One item: it fits, the callback answers, the rest goes on. *)
Lemma fitted {A} (item : Value) (m : Eval A) r :
  computes m r → computes (check_list_item d element item ;; m) (let* _ := fitting d element item in r).
Proof. intros Hm. apply computes_bind; [apply check_list_item_computes|done]. Qed.

Lemma answered_ok {A} (item : Value) (k : Value → Eval A) f :
  (∀ v, answer d element callback item = Ok v → computes (k v) (f v)) →
  computes (check_list_item d element item ;; do* v := invoke_callback callback [item] in k v)
    (let* v := answer d element callback item in f v).
Proof.
  unfold answer. intros Hk. pose proof (check_list_item_computes d element item) as Hc.
  destruct (fitting d element item) as [[]|e|]; simpl in *.
  - eapply computes_bind_ok; [exact Hc|]. apply computes_bind; [apply invoke_computes|exact Hk].
  - by apply computes_bind_err.
  - apply (computes_bind _ _ Panic (λ _, Panic)); [exact Hc|done].
Qed.

Lemma answered {A} (item : Value) (k : Value → Eval A) f :
  (∀ v, computes (k v) (f v)) →
  computes (check_list_item d element item ;; do* v := invoke_callback callback [item] in k v)
    (let* v := answer d element callback item in f v).
Proof. intros Hk. by apply answered_ok. Qed.

Lemma predicate_bind {A} (item : Value) (f : bool → res Abort A) :
  (let* b := predicate d element callback item in f b) =
  (let* v := answer d element callback item in match v with VBool b => f b | _ => Panic end).
Proof. unfold predicate. destruct (answer d element callback item) as [[]| |]; done. Qed.

Lemma list_option_computes item : computes (list_option element item) (Ok (option_value element item)).
Proof.
  unfold list_option. apply computes_check. destruct item; [|apply computes_ret].
  unfold holds, cell in Hask. apply computes_item; [lia|].
  apply computes_bytes; [unfold size_of_value; nia|apply computes_ret].
Qed.

(** [any], [all], [find]: the loop ends at the first match. *)
Lemma any_computes items acc output n :
  computes (callback_loop d Any element callback all items acc output n)
    (calling_reference d Any element callback items acc).
Proof.
  induction items as [|item items IH]; [apply computes_ret|].
  cbn [callback_loop calling_reference first_match] in *. rewrite res_bind_assoc, predicate_bind.
  apply answered. intros v. destruct v; try apply computes_unreachable. destruct b; [apply computes_ret|exact IH].
Qed.

Lemma all_computes items acc output n :
  computes (callback_loop d All element callback all items acc output n)
    (calling_reference d All element callback items acc).
Proof.
  induction items as [|item items IH]; [apply computes_ret|].
  cbn [callback_loop calling_reference first_match] in *. rewrite !res_bind_assoc, predicate_bind.
  apply answered. intros v. destruct v; try apply computes_unreachable. destruct b; [exact IH|apply computes_ret].
Qed.

Lemma find_computes items acc output n :
  computes (callback_loop d Find element callback all items acc output n)
    (calling_reference d Find element callback items acc).
Proof.
  induction items as [|item items IH]; [apply list_option_computes|].
  cbn [callback_loop calling_reference first_match] in *. rewrite res_bind_assoc, predicate_bind.
  apply answered. intros v. destruct v; try apply computes_unreachable.
  destruct b; [apply (list_option_computes (Some item))|exact IH].
Qed.

(** [count]: below the width of [Int] the count never overflows. *)
Lemma count_computes items acc output n :
  (0 ≤ n)%Z → in_i64 (n + Z.of_nat (length items)) = true →
  computes (callback_loop d Count element callback all items acc output n)
    (let* found := matches (predicate d element callback) items in Ok (VInt (n + Z.of_nat (length found)))).
Proof.
  revert n. induction items as [|item items IH]; intros n Hn Hin.
  { simpl. rewrite Z.add_0_r. apply computes_ret. }
  cbn [callback_loop matches]. rewrite res_bind_assoc, predicate_bind.
  apply answered. intros v. destruct v; try apply computes_unreachable.
  unfold in_i64 in *. apply andb_true_iff in Hin as [Hlo%Z.leb_le Hhi%Z.leb_le]. simpl in Hlo, Hhi.
  assert (∀ z, (0 ≤ z ≤ I64_MAX)%Z → (I64_MIN <=? z)%Z && (z <=? I64_MAX)%Z = true) as Hfit.
  { intros z Hz. unfold I64_MIN, I64_MAX in *. lia. }
  destruct b.
  - rewrite Hfit by lia. eapply computes_bind_ok; [apply computes_ret|].
    specialize (IH (n + 1)%Z). destruct (matches (predicate d element callback) items) as [found| |]; simpl in *.
    + replace (n + Z.of_nat (S (length found)))%Z with (n + 1 + Z.of_nat (length found))%Z by lia.
      apply IH; [lia|apply Hfit; lia].
    + apply IH; [lia|apply Hfit; lia].
    + apply IH; [lia|apply Hfit; lia].
  - specialize (IH n). destruct (matches (predicate d element callback) items) as [found| |]; simpl in *; (apply IH; [lia|apply Hfit; lia]).
Qed.

(** [map] and [sort_by] keep every answer; what follows has them all. *)
Lemma map_computes operation items acc output n f :
  operation = Map ∨ operation = SortBy →
  vec_ok (length all) output → length (vec_items output) + length items ≤ length all →
  (∀ results output', vec_items output' = vec_items output ++ results → length results = length items →
     images (answer d element callback) items = Ok results →
     computes (callback_loop d operation element callback all [] acc output' n) (f results)) →
  computes (callback_loop d operation element callback all items acc output n)
    (let* results := images (answer d element callback) items in f results).
Proof.
  intros Hop. revert output f. induction items as [|item items IH]; intros output f Hv Hlen Hf.
  { simpl. apply Hf; [by rewrite app_nil_r|done..]. }
  simpl in Hlen. cbn [images]. rewrite res_bind_assoc.
  assert (∀ v, answer d element callback item = Ok v → computes
    (do* output := retain_list_item output (length all) v in
     callback_loop d operation element callback all items acc output n)
    (let* results := images (answer d element callback) items in f (v :: results))) as Hstep.
  { intros v Hanswer. destruct (retain_list_item_ok cells (length all) output v Hask) as (output' & Hm & Hi & Hv'); [lia|done|lia|].
    eapply computes_bind_ok; [exact Hm|]. apply (IH output' (λ results, f (v :: results))); [done|rewrite Hi, length_app; simpl; lia|].
    intros results output'' Hi' Hlr Himages. apply Hf; [by rewrite Hi', Hi, <- app_assoc|simpl; by rewrite Hlr|].
    cbn [images]. by rewrite Hanswer, Himages. }
  assert (∀ v, (let* results := (let* rest := images (answer d element callback) items in Ok (v :: rest)) in f results)
    = (let* results := images (answer d element callback) items in f (v :: results))) as Hassoc.
  { intros v. by destruct (images (answer d element callback) items). }
  destruct Hop as [-> | ->]; cbn [callback_loop].
  all: apply answered_ok; intros v Hanswer; rewrite Hassoc; by apply Hstep.
Qed.

Lemma filter_computes items acc output n :
  vec_ok (length all) output → length (vec_items output) + length items ≤ length all →
  computes (callback_loop d Filter element callback all items acc output n)
    (let* found := matches (predicate d element callback) items in Ok (VList (vec_items output ++ found))).
Proof.
  revert output. induction items as [|item items IH]; intros output Hv Hlen.
  { simpl. rewrite app_nil_r. apply computes_ret. }
  simpl in Hlen. cbn [callback_loop matches]. rewrite res_bind_assoc, predicate_bind.
  apply answered. intros v. destruct v; try apply computes_unreachable. destruct b.
  - destruct (retain_list_item_ok cells (length all) output item Hask) as (output' & Hm & Hi & Hv'); [lia|done|lia|].
    eapply computes_bind_ok; [exact Hm|].
    pose proof (IH output' Hv') as H. rewrite Hi, length_app in H. simpl in H. specialize (H ltac:(lia)).
    destruct (matches (predicate d element callback) items); simpl in *; [by rewrite <- app_assoc in H|done..].
  - pose proof (IH output Hv ltac:(lia)) as H.
    by destruct (matches (predicate d element callback) items).
Qed.

Lemma fold_computes items acc output n :
  computes (callback_loop d Fold element callback all items acc output n)
    (folded (accumulate d element callback) acc items).
Proof.
  revert acc. induction items as [|item items IH]; intros acc; [apply computes_ret|].
  cbn [callback_loop folded]. unfold accumulate at 1. rewrite res_bind_assoc. apply fitted.
  apply computes_bind; [apply invoke_computes|]. intros v _. apply IH.
Qed.
End Loops.

Section Operations.
Context (Hmeaning : ∀ p args,
  computes (run_call (prepared_callable p) (prepared_function p) args (prepared_type_arguments p)
    (prepared_result p)) (meaning p args)).
Context (d : OperationDescriptor) (element : ValueType) (items : list Value).
Context (cells : nat) (Hask : holds ask cells) (Hcells : 2 * length items < cells).

Lemma selecting_computes operation rest :
  operation = Take ∨ operation = Drop ∨ operation = Reverse →
  computes (selecting_operation d operation element items rest)
    (selecting_reference d operation element items rest).
Proof.
  intros Hop. unfold selecting_operation, selecting_reference.
  assert (∀ chosen : list Value, length chosen ≤ length items → computes
    (check_list_items d element items ;;
     do* output := copy_items (length chosen) chosen Vec_new in ret (VList (vec_items output)))
    (let* _ := all_fit d element items in Ok (VList chosen))) as Hcopy.
  { intros chosen Hlen. apply computes_bind; [apply check_list_items_computes|]. intros _ _.
    destruct (copy_items_ok cells (length chosen) chosen Vec_new Hask) as (output & Hm & Hi); [lia|split; simpl; lia|simpl; lia|].
    eapply computes_bind_ok; [exact Hm|]. rewrite Hi. apply computes_ret. }
  destruct Hop as [-> |[-> | ->]]; cbn [counted_items selected].
  1, 2: destruct rest as [|[] rest];
    try (apply (computes_bind _ _ Panic (λ _, Panic)); [apply computes_unreachable|done]);
    destruct (i <? 0)%Z; [by apply computes_bind_err, computes_lift|]; simpl;
    eapply computes_bind_ok; [apply computes_ret|]; apply Hcopy; rewrite ?length_take, ?length_drop; lia.
  simpl. eapply computes_bind_ok; [apply computes_ret|]. apply Hcopy. by rewrite length_reverse.
Qed.

Lemma calling_computes operation callback acc :
  operation ∈ [Any; All; Find; Count; Filter; Map; Fold] →
  in_i64 (Z.of_nat (length items)) = true →
  computes (callback_loop d operation element callback items items acc Vec_new 0)
    (calling_reference d operation element callback items acc).
Proof.
  intros Hop Hin. assert (vec_ok (length items) Vec_new) as Hv by (split; simpl; lia).
  repeat (apply elem_of_cons in Hop as [-> |Hop]); [..|by apply elem_of_nil in Hop].
  - by eapply any_computes.
  - by eapply all_computes.
  - by eapply find_computes.
  - by eapply count_computes.
  - by eapply (filter_computes Hmeaning d element callback items cells Hask Hcells items acc Vec_new 0).
  - eapply (map_computes Hmeaning d element callback items cells); [done..|by left|done|simpl; lia|].
    intros results output Hi _ _. cbn [callback_loop]. rewrite Hi. apply computes_ret.
  - by eapply fold_computes.
Qed.
End Operations.

(** ** Theorems *)

Definition unresolved (d : OperationDescriptor) (substitutions : Substitutions) : bool :=
  existsb (λ name, negb (bool_decide (is_Some (substitutions name)))) (type_parameters d).

Definition folding_reference (d : OperationDescriptor) (element : ValueType) (callback : PreparedCallback)
    (substitutions : Substitutions) (items rest : list Value) : res Abort Value :=
  let* accumulator := expect_some (rest !! 0) in
  let* accumulating := expect_some (substitutions (bs "A")) in
  if accepts accumulating accumulator then calling_reference d Fold element callback items accumulator
  else invalid_callback d (bs "initial value does not fit accumulator type").

(** Every operation but the sorts. *)
Definition list_reference (d : OperationDescriptor) (arguments : list Value) (substitutions : Substitutions)
    : res Abort Value :=
  if unresolved d substitutions then
    Err (AbortError (GenericInstantiation (bs "list operations require complete type evidence before iteration")) call_span)
  else
    let* _ := check_constraints d substitutions (constraint_entries d) in
    let* callback := prepared_callback d arguments substitutions in
    match arguments with
    | VList items :: rest =>
      let* element := expect_some (substitutions (bs "T")) in
      match implementation d with
      | Take | Drop | Reverse => selecting_reference d (implementation d) element items rest
      | operation =>
        let* callback := expect_some callback in
        match operation with
        | Fold => folding_reference d element callback substitutions items rest
        | _ => calling_reference d operation element callback items VNull
        end
      end
    | _ => Panic
    end.

(** What an operation may ask for at once, beside what its callbacks do. *)
Definition list_cells (arguments : list Value) : nat := 1 + 2 * record_cells arguments.
Definition list_ask (arguments : list Value) : N := 4096 + N.of_nat (list_cells arguments) * cell.

Definition not_sorting : list StandardOperation :=
  [Take; Drop; Reverse; Any; All; Find; Count; Filter; Map; Fold].

Lemma list_ask_holds arguments : (list_ask arguments ≤ ask)%N → holds ask (list_cells arguments).
Proof. done. Qed.

(** C15: every operation of [std::list] but the sorts is its list function.
    With callbacks that compute results, [take], [drop] and [reverse] select
    after every item was found to fit its type, and [any], [all], [find],
    [count], [filter], [map] and [fold] go through the items in order up to the
    decisive one, the first that does not fit or the first call that fails;
    incomplete types, failed constraints and unfit callbacks are refused before.
    A stop has a reason (the token, the allocator, a budget that is full but for
    less than the operation or a callback asks for at once), and nothing panics
    but what the reference says. *)
Theorem lists_exact (d : OperationDescriptor) (arguments : list Value) (substitutions : Substitutions) :
  (∀ p args, computes (run_call (prepared_callable p) (prepared_function p) args (prepared_type_arguments p)
    (prepared_result p)) (meaning p args)) →
  (list_ask arguments ≤ ask)%N → in_i64 (Z.of_nat (record_cells arguments)) = true →
  implementation d ∈ not_sorting →
  computes (list_operation d arguments substitutions) (list_reference d arguments substitutions).
Proof.
  intros Hmeaning Hask Hin Hop. unfold list_operation, list_reference. apply computes_check.
  fold (unresolved d substitutions). destruct (unresolved d substitutions); [apply computes_throw|].
  apply computes_lift_bind. intros _ _. apply computes_lift_bind. intros callback _.
  destruct arguments as [|[] rest]; try apply computes_unreachable.
  apply computes_lift_bind. intros element _. apply list_ask_holds in Hask.
  assert (2 * length items < list_cells (VList items :: rest)) as Hcells by (unfold list_cells, record_cells; simpl; lia).
  assert (in_i64 (Z.of_nat (length items)) = true) as Hlen.
  { revert Hin. unfold in_i64, record_cells, I64_MIN. rewrite !andb_true_iff, !Z.leb_le. cbn. lia. }
  destruct (decide (implementation d ∈ [Take; Drop; Reverse])) as [Hs|Hs].
  { pose proof (selecting_computes d element items _ Hask Hcells (implementation d) rest) as H.
    repeat (apply elem_of_cons in Hs as [Hs|Hs]); [..|by apply elem_of_nil in Hs]; rewrite Hs in *; apply H; tauto. }
  assert (∀ acc callback, implementation d ∈ [Any; All; Find; Count; Filter; Map; Fold] → computes
    (callback_loop d (implementation d) element callback items items acc Vec_new 0)
    (calling_reference d (implementation d) element callback items acc)) as Hcall.
  { intros acc cb Hop'. by eapply calling_computes. }
  assert (∀ cb acc op, op ∈ [Any; All; Find; Count; Filter; Map; Fold] → implementation d = op → computes
    (callback_loop d op element cb items items acc Vec_new 0)
    (calling_reference d op element cb items acc)) as Hcall' by (intros cb acc op Hop' <-; by apply Hcall).
  clear Hcall. do 3 (apply elem_of_cons in Hop as [Hop|Hop]; [destruct Hs; rewrite Hop; by repeat constructor|]).
  repeat (apply elem_of_cons in Hop as [Hop|Hop]); [..|by apply elem_of_nil in Hop]; rewrite Hop;
    unfold calling_operation; apply computes_lift_bind; intros cb _; try (apply Hcall'; [by repeat constructor|done]).
  unfold folding_reference. apply computes_bind; [apply computes_lift|]. intros acc _.
  apply computes_lift_bind. intros accumulating _. eapply computes_bind_ok; [apply validate_computes|].
  destruct (accepts accumulating acc); [apply Hcall'; [by repeat constructor|done]|apply computes_lift].
Qed.

Lemma images_ext {E A B} (f g : A → res E B) items :
  Forall (λ x, f x = g x) items → images f items = images g items.
Proof. induction 1 as [|x items Hx _ IH]; simpl; [done|]. by rewrite Hx, IH. Qed.

(** With items that fit and callbacks that always answer, the loops are the
    functions of the standard library. *)
Lemma calling_reference_total d element callback (items : list Value) (q : Value → bool) (g : Value → Value) :
  Forall (λ v, accepts element v = true) items →
  ((∀ v, v ∈ items → meaning callback [v] = Ok (VBool (q v))) →
   calling_reference d Any element callback items VNull = Ok (VBool (bool_decide (is_Some (List.find q items)))) ∧
   calling_reference d Find element callback items VNull = Ok (option_value element (List.find q items)) ∧
   calling_reference d Count element callback items VNull = Ok (VInt (Z.of_nat (length (List.filter q items)))) ∧
   calling_reference d Filter element callback items VNull = Ok (VList (List.filter q items))) ∧
  ((∀ v, v ∈ items → meaning callback [v] = Ok (g v)) →
   calling_reference d Map element callback items VNull = Ok (VList (g <$> items))).
Proof.
  intros Hfit. rewrite list.Forall_forall in Hfit.
  assert (∀ f : Value → Value, (∀ v, v ∈ items → meaning callback [v] = Ok (f v)) →
    ∀ v, v ∈ items → answer d element callback v = Ok (f v)) as Hanswer.
  { intros f Hf v Hv. unfold answer, fitting. rewrite (Hfit v Hv). by apply Hf. }
  split.
  - intros Hq. assert (∀ v, v ∈ items → predicate d element callback v = Ok (q v)) as Hp.
    { intros v Hv. unfold predicate. by rewrite (Hanswer (λ v, VBool (q v)) Hq v Hv). }
    assert (first_match (predicate d element callback) items = Ok (List.find q items)) as Hfirst.
    { clear -Hp. induction items as [|v l IH]; [done|]. simpl. rewrite (Hp v) by by left.
      simpl. destruct (q v); [done|]. apply IH. intros w Hw. apply Hp. by right. }
    assert (matches (predicate d element callback) items = Ok (List.filter q items)) as Hmatches.
    { clear -Hp. induction items as [|v l IH]; [done|]. simpl. rewrite (Hp v) by by left. simpl.
      rewrite IH by (intros w Hw; apply Hp; by right). by destruct (q v). }
    cbn [calling_reference]. by rewrite Hfirst, Hmatches.
  - intros Hg. cbn [calling_reference]. rewrite (images_ext _ (λ v, Ok (g v)) items).
    + by rewrite images_total.
    + apply list.Forall_forall. intros v Hv. by apply Hanswer.
Qed.

(** *** Sorting *)

Lemma nth_items (items : list Value) : (λ i, nth i items VNull) <$> seq 0 (length items) = items.
Proof.
  apply list_eq. intros i. rewrite list_lookup_fmap. destruct (decide (i < length items)) as [Hi|Hi].
  - rewrite lookup_seq_lt by done. simpl. destruct (lookup_lt_is_Some_2 items i Hi) as [x Hx].
    by rewrite Hx, (nth_lookup_Some _ _ _ _ Hx).
  - rewrite lookup_seq_ge by lia. by rewrite lookup_ge_None_2 by lia.
Qed.

Lemma nth_zip (keys items : list Value) :
  length keys = length items →
  (λ i, (nth i keys VNull, nth i items VNull)) <$> seq 0 (length items) = zip keys items.
Proof.
  intros Hlen. apply list_eq. intros i. rewrite list_lookup_fmap, lookup_zip_with.
  destruct (decide (i < length items)) as [Hi|Hi].
  - rewrite lookup_seq_lt by done. simpl. destruct (lookup_lt_is_Some_2 items i Hi) as [x Hx].
    destruct (lookup_lt_is_Some_2 keys i) as [y Hy]; [lia|].
    by rewrite Hx, Hy, (nth_lookup_Some _ _ _ _ Hx), (nth_lookup_Some _ _ _ _ Hy).
  - rewrite lookup_seq_ge by lia. by rewrite !lookup_ge_None_2 by lia.
Qed.

Lemma all_fit_ok d element items :
  Forall (λ v : Value, accepts element v = true) items → all_fit d element items = Ok tt.
Proof. induction 1 as [|v items Hv _ IH]; [done|]. simpl. unfold fitting. by rewrite Hv. Qed.

Lemma typed_comparable t (keys : list Value) :
  satisfies_ordered no_parameter t = true → Forall (λ v, accepts t v = true) keys → Forall value_wf keys →
  ∀ a b, a ∈ keys → b ∈ keys → comparable a b.
Proof.
  rewrite !list.Forall_forall. intros Ht Ha Hw a b Hain Hbin.
  exact (ordered_comparable t Ht a b (Ha a Hain) (Ha b Hbin) (Hw a Hain) (Hw b Hbin)).
Qed.

(** The common beginning of every operation. *)
Lemma list_operation_starts d (items rest : list Value) substitutions t cb r :
  unresolved d substitutions = false →
  check_constraints d substitutions (constraint_entries d) = Ok tt →
  prepared_callback d (VList items :: rest) substitutions = Ok cb →
  substitutions (bs "T") = Some t →
  computes
    match implementation d with
    | Take | Drop | Reverse | Sort => selecting_operation d (implementation d) t items rest
    | operation => calling_operation d operation t cb substitutions items rest
    end r →
  computes (list_operation d (VList items :: rest) substitutions) r.
Proof.
  intros Hi Hc Hp Ht Hm. unfold list_operation. apply computes_check. fold (unresolved d substitutions).
  rewrite Hi, Hc. eapply computes_bind_ok; [apply computes_lift|]. rewrite Hp.
  eapply computes_bind_ok; [apply computes_lift|]. rewrite Ht.
  eapply computes_bind_ok; [apply computes_lift|]. exact Hm.
Qed.

(** What the catalog says of the two sorts. *)
Lemma sort_descriptor module d :
  Catalog.list_operation module (bs "sort") = Some (Ok d) →
  type_parameters d = [bs "T"] ∧ implementation d = Sort ∧
  constraint_entries d = [(bs "T", OrderedConstraint)] ∧
  ∀ arguments substitutions, prepared_callback d arguments substitutions = Ok None.
Proof. intros H. vm_compute in H. injection H as <-. done. Qed.

Lemma sort_by_descriptor module d :
  Catalog.list_operation module (bs "sort_by") = Some (Ok d) →
  type_parameters d = [bs "T"; bs "K"] ∧ implementation d = SortBy ∧
  constraint_entries d = [(bs "K", OrderedConstraint)] ∧
  ∀ arguments substitutions p, prepared_callback d arguments substitutions = Ok (Some p) →
    prepared_result p = substitute_type type_K substitutions.
Proof.
  intros H. vm_compute in H. injection H as <-. split; [done|]. split; [done|]. split; [done|].
  intros arguments substitutions p. unfold prepared_callback. cbn [expect_some inference_overload].
  set (overload := inference_overload _). vm_compute in overload. subst overload. cbn [expect_some res_bind].
  set (relation := last_callback _). vm_compute in relation. subst relation. cbv beta iota.
  destruct (last arguments) as [value|]; [|done]. cbn [expect_some res_bind].
  unfold prepare_callback. destruct (callback_shape _ _ ) as [[[c g] shape]| |]; [|done..]. cbn [res_bind].
  destruct (or_invalid _ _ _); [|done..]. cbn [res_bind]. by intros [= <-].
Qed.

Lemma ordered_constraint d substitutions name t :
  substitutions name = Some t → satisfies_ordered no_parameter t = true →
  check_constraints d substitutions [(name, OrderedConstraint)] = Ok tt.
Proof.
  intros Ht Ho. cbn [check_constraints]. rewrite Ht. cbn [expect_some res_bind holds_for type_satisfies_constraint].
  unfold holds_for. cbn [type_satisfies_constraint].
  change (satisfies_ordered (λ _ _, false) t) with (satisfies_ordered no_parameter t). by rewrite Ho.
Qed.

(** C16: [sort] and [sort_by] sort stably.  When the constraint holds and the
    items fit, the items come out in the ascending order of the operators, of
    the items or of the keys that the callback's calls mean, equal ones in their
    order; no comparison fails. *)
Theorem lists_sort_stable (module : ModuleId) (sort sort_by : OperationDescriptor) (substitutions : Substitutions)
    (t k : ValueType) (items : list Value) (f : Value) :
  (∀ p args, computes (run_call (prepared_callable p) (prepared_function p) args (prepared_type_arguments p)
    (prepared_result p)) (meaning p args)) →
  (∀ p args v, meaning p args = Ok v → accepts (prepared_result p) v = true ∧ value_wf v) →
  Catalog.list_operation module (bs "sort") = Some (Ok sort) →
  Catalog.list_operation module (bs "sort_by") = Some (Ok sort_by) →
  substitutions (bs "T") = Some t → substitutions (bs "K") = Some k →
  (list_ask [VList items] ≤ ask)%N →
  Forall value_wf items → Forall (λ v, accepts t v = true) items →
  (satisfies_ordered no_parameter t = true →
   ∃ sorted, computes (list_operation sort [VList items] substitutions) (Ok (VList sorted)) ∧
     stably_sorted value_compare items sorted) ∧
  (satisfies_ordered no_parameter k = true → ∀ p keys,
   prepared_callback sort_by [VList items; f] substitutions = Ok (Some p) →
   images (λ item, meaning p [item]) items = Ok keys →
   ∃ sorted, computes (list_operation sort_by [VList items; f] substitutions) (Ok (VList (sorted.*2))) ∧
     stably_sorted (λ a b, value_compare a.1 b.1) (zip keys items) sorted).
Proof.
  intros Hmeaning Hfits Hsort Hsort_by Ht Hk Hask Hw Hitems.
  apply list_ask_holds in Hask.
  assert (2 * length items < list_cells [VList items]) as Hcells by (unfold list_cells, record_cells; simpl; lia).
  split.
  - apply sort_descriptor in Hsort as (Hp & Hi & Hc & Hcb). intros Hord.
    destruct (sorted_list_ok _ items items Hask) as (indices & Hm & Hst);
      [lia|done|done|by eapply typed_comparable|].
    exists (items_at items indices). split.
    + eapply (list_operation_starts sort); [|rewrite Hc; by eapply ordered_constraint|apply Hcb|done|].
      { unfold unresolved. rewrite Hp. cbn [existsb]. by rewrite Ht. }
      rewrite Hi. unfold selecting_operation. eapply computes_bind_ok; [apply computes_ret|].
      eapply computes_bind_ok; [|exact Hm].
      pose proof (check_list_items_computes sort t items) as H. by rewrite all_fit_ok in H.
    + pose proof (stably_sorted_fmap (λ i, nth i items VNull) (key_compare items) value_compare _ _ (λ _ _ _ _, eq_refl) Hst) as H.
      by rewrite nth_items in H.
  - apply sort_by_descriptor in Hsort_by as (Hp & Hi & Hc & Hcb). intros Hord p keys Hprepared Hkeys.
    apply Hcb in Hprepared as Hresult. unfold type_K in Hresult. cbn [substitute_type] in Hresult.
    rewrite Hk in Hresult. simpl in Hresult. change (id k) with k in Hresult.
    pose proof (images_length _ _ _ Hkeys) as Hlen.
    assert (∀ key, key ∈ keys → accepts k key = true ∧ value_wf key) as Htyped.
    { intros key (i & Hik)%list_elem_of_lookup_1. destruct (lookup_lt_is_Some_2 items i) as [item Hitem].
      { rewrite <- Hlen. by eapply lookup_lt_Some. }
      destruct (images_lookup _ _ _ _ _ Hkeys Hitem) as (key' & Hmean & Hik').
      rewrite Hik in Hik'. injection Hik' as <-. rewrite <- Hresult. by eapply Hfits. }
    destruct (sorted_list_ok _ items keys Hask) as (indices & Hm & Hst); [lia|done| | |].
    { apply list.Forall_forall. intros key Hin. by apply Htyped. }
    { apply (typed_comparable k); [done|..]; apply list.Forall_forall; intros key Hin; by apply Htyped. }
    exists ((λ i, (nth i keys VNull, nth i items VNull)) <$> indices). split.
    + eapply (list_operation_starts sort_by); [|rewrite Hc; by eapply ordered_constraint|exact Hprepared|done|].
      { unfold unresolved. rewrite Hp. cbn [existsb]. by rewrite Ht, Hk. }
      rewrite Hi. unfold calling_operation. eapply computes_bind_ok; [apply computes_lift|].
      assert (images (answer sort_by t p) items = Ok keys) as Hanswers.
      { rewrite <- Hkeys. apply images_ext. eapply Forall_impl; [exact Hitems|].
        intros v Hv. unfold answer, fitting. by rewrite Hv. }
      pose proof (map_computes Hmeaning sort_by t p items _ Hask Hcells SortBy items VNull Vec_new 0
        (λ results, Ok (VList (items_at items indices))) (or_intror eq_refl)) as H.
      rewrite Hanswers in H. simpl in H. rewrite <- list_fmap_compose. apply H; [split; simpl; lia|simpl; lia|].
      intros results output Hout _ [= <-]. simpl in Hout. cbn [callback_loop]. by rewrite Hout.
    + rewrite <- (nth_zip keys items) by done.
      by eapply (stably_sorted_fmap _ (key_compare keys)).
Qed.
End Facts.

(** ** At concrete inputs *)

Definition is_positive (args : list (Value Empty_set)) : Value Empty_set :=
  match args with VInt i :: _ => VBool (0 <? i)%Z | _ => VBool false end.
Definition positives : Callables Empty_set :=
  mkCallables Empty_set (λ _, Some (mkMetadata false [] [TInt] (Some TBool) no_substitutions []))
    (λ _ _ args _ _, visit (C := steady) ;; ret (is_positive args)) [].
Definition a_callback : Value Empty_set := VCallable (mkCallable 1 (bs "function")).
Definition list_module : ModuleId := ModuleId_standard (bs "std") (bs "list").
Definition all_ints : Substitutions := λ _, Some TInt.

Lemma positives_mean ask p args :
  computes (C := steady) ask
    (run_call (Callables := positives) (prepared_callable p) (prepared_function p) args
      (prepared_type_arguments p) (prepared_result p)) (Ok (is_positive args)).
Proof. apply computes_visit, computes_ret. Qed.

Lemma lists_exact_witness :
  ∃ d, Catalog.list_operation list_module (bs "filter") = Some (Ok d) ∧
  computes (C := steady) (list_ask (C := steady) [VList [VInt 3; VInt (-2); VInt 5]; a_callback])
    (list_operation (C := steady) (K := positives) d [VList [VInt 3; VInt (-2); VInt 5]; a_callback] all_ints)
    (list_reference (C := steady) (K := positives) (λ _ args, Ok (is_positive args)) d
       [VList [VInt 3; VInt (-2); VInt 5]; a_callback] all_ints) ∧
  list_reference (C := steady) (K := positives) (λ _ args, Ok (is_positive args)) d
    [VList [VInt 3; VInt (-2); VInt 5]; a_callback] all_ints = Ok (VList [VInt 3; VInt 5]).
Proof.
  eexists. split; [vm_compute; reflexivity|]. split; [|vm_compute; reflexivity].
  apply (lists_exact (C := steady) (K := positives)).
  - intros p args. apply positives_mean.
  - apply N.le_refl.
  - reflexivity.
  - apply (bool_decide_unpack _). vm_compute. exact I.
Defined.

Definition sign_key (args : list (Value Empty_set)) : Value Empty_set :=
  match args with VInt i :: _ => VInt (if i <? 0 then 1 else 0)%Z | _ => VInt 0 end.
Definition misfit : Abort := AbortError (UserThrown []) (call_span (Control := steady)).
Definition signs : Callables Empty_set :=
  mkCallables Empty_set (λ _, Some (mkMetadata false [] [TInt] (Some TInt) no_substitutions []))
    (λ _ _ args _ result, visit (C := steady) ;;
       if accepts result (sign_key args) then ret (sign_key args) else throw misfit) [].
Definition sign_meaning (p : PreparedCallback) (args : list (Value Empty_set)) : res Abort (Value Empty_set) :=
  if accepts (prepared_result p) (sign_key args) then Ok (sign_key args) else Err misfit.

Lemma signs_mean ask p args :
  computes (C := steady) ask
    (run_call (Callables := signs) (prepared_callable p) (prepared_function p) args
      (prepared_type_arguments p) (prepared_result p)) (sign_meaning p args).
Proof.
  apply computes_visit. unfold sign_meaning.
  destruct (accepts (prepared_result p) (sign_key args)); [apply computes_ret|apply computes_throw].
Qed.

Lemma signs_fit p args v :
  sign_meaning p args = Ok v → accepts (prepared_result p) v = true ∧ value_wf v.
Proof.
  unfold sign_meaning. destruct (accepts (prepared_result p) (sign_key args)) eqn:E; [|done].
  intros [= <-]. split; [done|]. unfold sign_key. destruct args as [|[] args]; try done. by destruct (i <? 0)%Z.
Qed.

Lemma lists_sort_stable_witness :
  let items : list (Value Empty_set) := [VInt 3; VInt (-2); VInt 5] in
  ∃ sort sort_by p sorted,
  Catalog.list_operation list_module (bs "sort") = Some (Ok sort) ∧
  Catalog.list_operation list_module (bs "sort_by") = Some (Ok sort_by) ∧
  prepared_callback (C := steady) (K := signs) sort_by [VList items; a_callback] all_ints = Ok (Some p) ∧
  computes (C := steady) (list_ask (C := steady) [VList items])
    (list_operation (C := steady) (K := signs) sort_by [VList items; a_callback] all_ints)
    (Ok (VList (sorted.*2))) ∧
  stably_sorted (λ a b : Value Empty_set * Value Empty_set, value_compare a.1 b.1) (zip [VInt 0; VInt 1; VInt 0] items) sorted.
Proof.
  intros items.
  set (sort := match Catalog.list_operation list_module (bs "sort") with Some (Ok d) => d | _ => text_operation Sort end).
  set (sort_by := match Catalog.list_operation list_module (bs "sort_by") with Some (Ok d) => d | _ => text_operation Sort end).
  set (p := mkPrepared (mkCallable 1 (bs "function")) (mkMetadata false [] [TInt] (Some TInt) no_substitutions []) [] TInt).
  destruct (lists_sort_stable (C := steady) (K := signs) (ask := list_ask (C := steady) [VList items]) sign_meaning
    list_module sort sort_by all_ints TInt TInt items a_callback) as [_ Hsort_by].
  - intros q args. apply signs_mean.
  - intros q args v. apply signs_fit.
  - vm_compute. reflexivity.
  - vm_compute. reflexivity.
  - reflexivity.
  - reflexivity.
  - apply N.le_refl.
  - unfold items. repeat constructor; vm_compute; discriminate.
  - unfold items. repeat constructor.
  - destruct (Hsort_by eq_refl p [VInt 0; VInt 1; VInt 0]) as (sorted & Hm & Hs).
    + vm_compute. reflexivity.
    + vm_compute. reflexivity.
    + exists sort, sort_by, p, sorted. split; [vm_compute; reflexivity|].
      split; [vm_compute; reflexivity|]. split; [vm_compute; reflexivity|]. split; [exact Hm|exact Hs].
Defined.
