(* ===== verification/Data.v ===== *)
(** * Data codecs ([opaal-runtime/src/data.rs], [eval/data_operations.rs])

    The bounded TOML decoding, the field access and the canonical JSON encoding
    of [std::data], and the strict JSON decoder that shares the budget of its
    caller.  The TOML parser and the number and string texts of serde_json are
    libraries: an interface ([DataLibraries]). *)
From S2P Require Import Prelude Utf8 Order Source Status Value Stream Float Operation Types Catalog.
From S2P Require Import Lifetime Evaluation Strings Records.

Local Open Scope res_scope.

(** ** Errors and limits *)

(** [ModuleError::Invalid]; the other errors of modules come from hosts. *)
Inductive ModuleError := ModuleInvalid (code message : str).

Definition module_error_text (e : ModuleError) : str :=
  let '(ModuleInvalid code message) := e in code ++ bs ": " ++ message.

Definition MAX_DATA_BYTES : Z := 16 * 1024 * 1024.
Definition MAX_DATA_DEPTH : nat := 64.
Definition MAX_JSON_INPUT : Z := 8 * 1024 * 1024.
Definition MAX_JSON_DEPTH : nat := 64.

(** ** The libraries *)

Inductive TomlValue :=
| TomlString (s : str)
| TomlInteger (i : Z)
| TomlFloat (bits : Z)
| TomlBoolean (b : bool)
| TomlDatetime
| TomlArray (values : list TomlValue)
| TomlTable (entries : list (str * TomlValue)).

(** What serde_json makes of a number token. *)
Inductive JsonNumber :=
| NumberI64 (i : Z)
| NumberU64 (u : Z)
| NumberF64 (bits : Z).

(** [string_writes] are the writes of [to_writer] for a string, [float_text] the
    text of [Number::from_f64]; [read_number] reads a whole token, and asked
    for [number_reads] of its bytes before it answered.  The texts of errors
    that show a parser's own message or a key in [Debug] form are left to it. *)
Class DataLibraries := mkLibraries {
  toml_parse : str → TomlValue + str;
  string_writes : str → list str;
  float_text : FiniteFloat → option str;
  read_number : str → option JsonNumber;
  number_reads : str → nat;
  utf8_error_text : nat → option nat → str;
  duplicate_key_text : DuplicateRecordKey → str
}.

Section Data.
Context {RuntimeError : Type} `{D : DataLibraries}.
Notation Value := (Value RuntimeError).
Notation Entry := (str * Value)%type.

(** ** TOML

    [levels] is what is left of the depth: at none the nesting exceeds it. *)
Fixpoint from_toml (levels : nat) (value : TomlValue) : res ModuleError Value :=
  match levels with
  | 0 => Err (ModuleInvalid (bs "DATA004") (bs "TOML nesting exceeds 64"))
  | S levels =>
    match value with
    | TomlString s => Ok (VString s)
    | TomlInteger i => Ok (VInt i)
    | TomlFloat bits =>
      match FiniteFloat_new bits with
      | Ok f => Ok (VFloat f)
      | _ => Err (ModuleInvalid (bs "DATA005") (bs "TOML float is not finite"))
      end
    | TomlBoolean b => Ok (VBool b)
    | TomlDatetime =>
      Err (ModuleInvalid (bs "DATA006") (bs "TOML datetime values require an explicit time conversion"))
    | TomlArray values =>
      let* values := (fix collect values :=
        match values with
        | [] => Ok []
        | value :: values =>
          let* value := from_toml levels value in
          let* values := collect values in
          Ok (value :: values)
        end) values in
      Ok (VList values)
    | TomlTable entries =>
      let* entries := (fix collect entries :=
        match entries with
        | [] => Ok []
        | (key, value) :: entries =>
          let* value := from_toml levels value in
          let* entries := collect entries in
          Ok ((key, value) :: entries)
        end) (sort_by (λ l r, bytes_le l.1 r.1) entries) in
      match Record_new entries with
      | Ok entries => Ok (VRecord entries)
      | Err repeated => Err (ModuleInvalid (bs "DATA007") (duplicate_key_text repeated))
      | Panic => Panic
      end
    end
  end.

Definition toml_decode (bytes : str) : res ModuleError Value :=
  if (MAX_DATA_BYTES <? Z.of_nat (length bytes))%Z
  then Err (ModuleInvalid (bs "DATA001") (bs "TOML input exceeds 16 MiB"))
  else
    match from_utf8 bytes with
    | Utf8Error valid_up_to error_len =>
      Err (ModuleInvalid (bs "DATA002") (bs "TOML is not UTF-8: " ++ utf8_error_text valid_up_to error_len))
    | Utf8Ok _ =>
      match toml_parse bytes with
      | inr error => Err (ModuleInvalid (bs "DATA003") (bs "invalid TOML: " ++ error))
      | inl value => from_toml MAX_DATA_DEPTH value
      end
    end.

(** ** Fields *)

Fixpoint data_get (value : Value) (keys : list str) : res ModuleError Value :=
  match keys with
  | [] => Ok value
  | key :: keys =>
    match value with
    | VRecord entries =>
      match Record_get entries key with
      | Some value => data_get value keys
      | None => Err (ModuleInvalid (bs "DATA008") (bs "record has no key `" ++ key ++ bs "`"))
      end
    | other =>
      Err (ModuleInvalid (bs "DATA009") (bs "cannot read key `" ++ key ++ bs "` from " ++ family_name other))
    end
  end.

(** ** Encoding JSON

    The output is the bytes so far; [levels] counts as above. *)
Definition append (output bytes : str) : res ModuleError str :=
  if (MAX_DATA_BYTES <? Z.of_nat (length output + length bytes))%Z
  then Err (ModuleInvalid (bs "DATA010") (bs "JSON output exceeds 16 MiB"))
  else Ok (output ++ bytes).

Fixpoint append_all (output : str) (writes : list str) : res ModuleError str :=
  match writes with
  | [] => Ok output
  | bytes :: writes => let* output := append output bytes in append_all output writes
  end.

Definition serialize_string (output value : str) : res ModuleError str :=
  append_all output (string_writes value).

Definition encode_items (encode : Value → str → res ModuleError str)
    : nat → list Value → str → res ModuleError str :=
  fix go index values output :=
    match values with
    | [] => Ok output
    | value :: values =>
      let* output := (if index =? 0 then Ok output else append output (bs ",")) in
      let* output := encode value output in
      go (S index) values output
    end.

Definition encode_fields (encode : Value → str → res ModuleError str)
    : nat → list Entry → str → res ModuleError str :=
  fix go index entries output :=
    match entries with
    | [] => Ok output
    | (key, value) :: entries =>
      let* output := (if index =? 0 then Ok output else append output (bs ",")) in
      let* output := serialize_string output key in
      let* output := append output (bs ":") in
      let* output := encode value output in
      go (S index) entries output
    end.

Definition sorted_entries (entries : list Entry) : list Entry :=
  sort_by (λ l r, bytes_le l.1 r.1) entries.

Definition encode_object (encode : Value → str → res ModuleError str) (entries : list Entry) (output : str)
    : res ModuleError str :=
  let* output := append output (bs "{") in
  let* output := encode_fields encode 0 (sorted_entries entries) output in
  append output (bs "}").

Definition nullable {A} (f : A → Value) (a : option A) : Value :=
  match a with Some a => f a | None => VNull end.

Definition signal_value (s : Signal) : Value :=
  VRecord [(bs "name", nullable VString (signal_name s)); (bs "number", nullable VInt (signal_number s))].

Definition status_fields (status : Status) : list Entry :=
  [(bs "code", nullable VInt (code status));
   (bs "signal", nullable signal_value (signal status));
   (bs "stages", VList (VStatus <$> stages status));
   (bs "duration_ns", VInt (duration status))].

(** [crate::module::is_opaque_operational_nominal] and the project's own
    declarations have no encoding. *)
Definition encodable_nominal (id : NominalTypeId) : bool :=
  negb (is_opaque_operational_nominal id) &&
  match module_origin (nominal_module id) with
  | Standard namespace _ => negb (str_eqb namespace (bs "project"))
  | Local => true
  end.

Definition no_representation (value : Value) : ModuleError :=
  ModuleInvalid (bs "DATA013") (family_name value ++ bs " has no canonical JSON representation").

Fixpoint encode_json (levels : nat) (value : Value) (output : str) : res ModuleError str :=
  match levels with
  | 0 => Err (ModuleInvalid (bs "DATA011") (bs "JSON nesting exceeds 64"))
  | S levels =>
    match value with
    | VNull => append output (bs "null")
    | VBool b => append output (if b then bs "true" else bs "false")
    | VInt i => append output (show_int i)
    | VFloat f =>
      match float_text f with
      | Some number => append output number
      | None => Err (ModuleInvalid (bs "DATA012") (bs "JSON float is not finite"))
      end
    | VString s => serialize_string output s
    | VPath p =>
      if utf8b p then serialize_string output p
      else Err (ModuleInvalid (bs "DATA013") (bs "a non-UTF-8 path has no canonical JSON representation"))
    | VList values =>
      let* output := append output (bs "[") in
      let* output := encode_items (encode_json levels) 0 values output in
      append output (bs "]")
    | VRecord entries => encode_object (encode_json levels) entries output
    | VNominalRecord id _ fields =>
      if encodable_nominal id then encode_object (encode_json levels) fields output
      else Err (no_representation value)
    | VStatus status =>
      if in_i64 (duration status) then encode_object (encode_json levels) (status_fields status) output
      else Err (ModuleInvalid (bs "DATA013") (bs "status duration exceeds canonical JSON Int"))
    | _ => Err (no_representation value)
    end
  end.

Definition json_encode (value : Value) : res ModuleError str := encode_json MAX_DATA_DEPTH value [].

(** ** Decoding JSON *)

Local Open Scope eval_scope.
Context `{C : Control}.

(** The codes that become refusals are those of other modules. *)
Definition operational_abort (e : ModuleError) : Abort :=
  let '(ModuleInvalid code message) := e in
  if str_eqb code (bs "RESOURCE_LIMIT") then exceeded
  else AbortError (UserThrown (module_error_text e)) call_span.

Definition legacy_type_error (index : nat) (expected : str) (actual : Value) : ModuleError :=
  ModuleInvalid (bs "OPERATION001")
    (bs "controlled argument " ++ show_int (Z.of_nat index) ++ bs " requires " ++ expected ++ bs ", found " ++
     family_name actual).

Fixpoint string_keys (index : nat) (keys : list Value) : res ModuleError (list str) :=
  match keys with
  | [] => Ok []
  | VString key :: keys => let* keys := string_keys (S index) keys in Ok (key :: keys)
  | other :: _ => Err (legacy_type_error index (bs "String") other)
  end.

Definition legacy_result (operation : StandardOperation) (arguments : list Value) : res ModuleError Value :=
  match operation, arguments with
  | TomlDecode, VBytes bytes :: _ => toml_decode bytes
  | TomlDecode, other :: _ => Err (legacy_type_error 0 (bs "Bytes") other)
  | DataGet, value :: VList keys :: _ => let* keys := string_keys 0 keys in data_get value keys
  | DataGet, _ :: other :: _ => Err (legacy_type_error 1 (bs "List[String]") other)
  | JsonEncode, value :: _ => let* bytes := json_encode value in Ok (VBytes bytes)
  | _, _ => Panic
  end.

Definition legacy_data_operation (descriptor : OperationDescriptor) (arguments : list Value) : Eval Value :=
  lift match legacy_result (implementation descriptor) arguments with
       | Ok value => Ok value
       | Err error => Err (operational_abort error)
       | Panic => Panic
       end.

(** *** The reader

    The decoder's state beside the input: the cursor, and what is left of the
    chunks that were charged last for scanning and for output. *)
Record JsonDecoder := mkDecoder {
  json_cursor : nat;
  scan_remaining : Z;
  output_remaining : Z
}.

Definition Reader (A : Type) : Type := JsonDecoder → Eval (A * JsonDecoder).
Definition rret {A} (a : A) : Reader A := λ st, ret (a, st).
Definition rbind {A B} (m : Reader A) (k : A → Reader B) : Reader B :=
  λ st, do* ' (a, st) := m st in k a st.
Definition reval {A} (m : Eval A) : Reader A := λ st, do* a := m in ret (a, st).
Definition rthrow {A} (e : Abort) : Reader A := λ _, throw e.
End Data.

Notation "'rd*' x := m 'in' k" := (rbind m (fun x => k))
  (at level 10, x name, m at level 100, k at level 200) : eval_scope.
Notation "m '>>>' k" := (rbind m (fun _ => k))
  (at level 100, k at level 200, right associativity) : eval_scope.

Section Decoder.
Local Open Scope eval_scope.
Context {RuntimeError : Type} `{D : DataLibraries} `{C : Control} (input : str).
Notation Value := (Value RuntimeError).
Notation Entry := (str * Value)%type.

Definition json_failure (code message : str) : Abort := operational_abort (ModuleInvalid code message).

Definition malformed {A} : Reader A := λ st,
  throw (json_failure (bs "DATA016") (bs "invalid JSON at byte " ++ show_int (Z.of_nat (json_cursor st)))).

Definition here : Reader nat := λ st, ret (json_cursor st, st).
Definition peek : Reader (option Z) := λ st, ret (input !! json_cursor st, st).

Definition bump : Reader Z := λ st,
  do* scan :=
    (if (scan_remaining st =? 0)%Z then visit ;; ret CHUNK else ret (scan_remaining st)) in
  match input !! json_cursor st with
  | None => malformed (mkDecoder (json_cursor st) scan (output_remaining st))
  | Some byte => ret (byte, mkDecoder (S (json_cursor st)) (scan - 1)%Z (output_remaining st))
  end.

Definition expect_byte (expected : Z) : Reader unit :=
  rd* byte := peek in
  if bool_decide (byte = Some expected) then bump >>> rret tt else malformed.

(** [while matches!(self.peek(), ..) { self.bump()?; }]. *)
Fixpoint skip_while (fuel : nat) (p : Z → bool) : Reader unit :=
  rd* byte := peek in
  match byte with
  | Some b =>
    if p b then
      match fuel with
      | 0 => reval unreachable
      | S fuel => bump >>> skip_while fuel p
      end
    else rret tt
  | None => rret tt
  end.

Definition is_json_space (b : Z) : bool := ((b =? 32) || (b =? 10) || (b =? 13) || (b =? 9))%Z.
Definition json_whitespace : Reader unit := skip_while (length input) is_json_space.

Definition retain_slot (size : Z) : Reader unit :=
  reval (visit ;; retain_collection_bytes size ;; retain_items 1).

Fixpoint json_literal (expected : str) : Reader unit :=
  match expected with
  | [] => rret tt
  | byte :: expected => expect_byte byte >>> json_literal expected
  end.

Definition push_char (output : str) (character : Z) : Reader str := λ st,
  let bytes := Z.of_nat (len_utf8 character) in
  do* remaining :=
    (if (output_remaining st <? bytes)%Z then visit ;; ret CHUNK else ret (output_remaining st)) in
  retain_collection_bytes bytes ;;
  ret (output ++ encode_char character, mkDecoder (json_cursor st) (scan_remaining st) (remaining - bytes)%Z).

Definition hex_value (digit : Z) : option Z :=
  (if (48 <=? digit) && (digit <=? 57) then Some (digit - 48)
   else if (97 <=? digit) && (digit <=? 102) then Some (digit - 97 + 10)
   else if (65 <=? digit) && (digit <=? 70) then Some (digit - 65 + 10)
   else None)%Z.

Fixpoint hex_loop (digits : nat) (scalar : Z) : Reader Z :=
  match digits with
  | 0 => rret scalar
  | S digits =>
    rd* digit := bump in
    match hex_value digit with
    | Some value => hex_loop digits (scalar * 16 + value)%Z
    | None => malformed
    end
  end.
Definition hex4 : Reader Z := hex_loop 4 0.

Definition unicode_escape : Reader Z :=
  rd* first := hex4 in
  rd* scalar :=
    (if ((0xD800 <=? first) && (first <=? 0xDBFF))%Z then
       expect_byte 92 >>>
       expect_byte 117 >>>
       rd* second := hex4 in
       if negb ((0xDC00 <=? second) && (second <=? 0xDFFF))%Z then malformed
       else rret (0x10000 + Z.shiftl (first - 0xD800) 10 + second - 0xDC00)%Z
     else rret first) in
  if is_scalar scalar then rret scalar else malformed.

Definition escape_value (byte : Z) : option Z :=
  (if byte =? 34 then Some 34 else if byte =? 92 then Some 92 else if byte =? 47 then Some 47
   else if byte =? 98 then Some 8 else if byte =? 102 then Some 12 else if byte =? 110 then Some 10
   else if byte =? 114 then Some 13 else if byte =? 116 then Some 9 else None)%Z.

Definition json_escape : Reader Z :=
  rd* byte := bump in
  match escape_value byte with
  | Some c => rret c
  | None => if (byte =? 117)%Z then unicode_escape else malformed
  end.

Fixpoint bump_times (n : nat) : Reader unit :=
  match n with 0 => rret tt | S n => bump >>> bump_times n end.

(** The rest of a scalar of several bytes, converted by itself. *)
Definition wide_char (start : nat) (byte : Z) : Reader Z :=
  let width :=
    (if (0xC2 <=? byte) && (byte <=? 0xDF) then Some 2%nat
     else if (0xE0 <=? byte) && (byte <=? 0xEF) then Some 3%nat
     else if (0xF0 <=? byte) && (byte <=? 0xF4) then Some 4%nat
     else None)%Z in
  match width with
  | None => reval unreachable
  | Some width =>
    bump_times (width - 1) >>>
    λ st, match from_utf8 (sub input start (json_cursor st)) with
          | Utf8Ok (c :: _) => ret (c, st)
          | _ => unreachable
          end
  end.

Fixpoint string_loop (fuel : nat) (output : str) : Reader str :=
  match fuel with
  | 0 => reval unreachable
  | S fuel =>
    rd* start := here in
    rd* byte := bump in
    if (byte =? 34)%Z then rret output
    else if (byte <=? 0x1F)%Z then malformed
    else
      rd* character :=
        (if (byte =? 92)%Z then json_escape
         else if (byte <=? 0x7F)%Z then rret byte
         else wide_char start byte) in
      rd* output := push_char output character in
      string_loop fuel output
  end.

Definition json_string : Reader str := expect_byte 34 >>> string_loop (S (length input)) [].

(** [NumberReader]: one visit for every chunk of the token that is asked for. *)
Definition is_number_byte (b : Z) : bool :=
  ((48 <=? b) && (b <=? 57) || (b =? 45) || (b =? 43) || (b =? 46) || (b =? 101) || (b =? 69))%Z.
Definition chunks_read (token : str) : nat :=
  (Nat.min (number_reads token) (length token) + (chunk_size - 1)) / chunk_size.

Definition float_or_refused (bits : Z) : option Value :=
  match FiniteFloat_new bits with Ok f => Some (VFloat f) | _ => None end.

Definition number_value (n : JsonNumber) : option Value :=
  match n with
  | NumberI64 i => Some (VInt i)
  | NumberU64 u => if in_i64 u then Some (VInt u) else float_or_refused (f64_to_bits (f64_of_int u))
  | NumberF64 bits => float_or_refused bits
  end.

Definition json_number : Reader Value :=
  rd* start := here in
  skip_while (length input) is_number_byte >>>
  rd* stop := here in
  let token := sub input start stop in
  reval (visits (chunks_read token)) >>>
  match read_number token ≫= number_value with
  | Some value => rret value
  | None => rthrow (json_failure (bs "DATA016") (bs "invalid JSON number at byte " ++ show_int (Z.of_nat start)))
  end.

(** [enter_call] and [leave_call] around a container. *)
Definition container {A} (m : Reader A) : Reader A := λ st, nested (m st).

Section Containers.
Context (item : Reader Value).

Fixpoint array_loop (fuel : nat) (items : list Value) : Reader (list Value) :=
  match fuel with
  | 0 => reval unreachable
  | S fuel =>
    retain_slot size_of_value >>>
    rd* value := item in
    json_whitespace >>>
    rd* byte := peek in
    if bool_decide (byte = Some 44%Z) then bump >>> array_loop fuel (items ++ [value])
    else rret (items ++ [value])
  end.

Definition json_array : Reader Value :=
  expect_byte 91 >>>
  json_whitespace >>>
  rd* byte := peek in
  rd* items := (if bool_decide (byte = Some 93%Z) then rret [] else array_loop (length input) []) in
  expect_byte 93 >>>
  rret (VList items).

Fixpoint object_loop (fuel : nat) (entries : list Entry) : Reader (list Entry) :=
  match fuel with
  | 0 => reval unreachable
  | S fuel =>
    retain_slot size_of_entry >>>
    json_whitespace >>>
    rd* key := json_string in
    json_whitespace >>>
    expect_byte 58 >>>
    rd* value := item in
    json_whitespace >>>
    rd* byte := peek in
    if bool_decide (byte = Some 44%Z) then bump >>> object_loop fuel (entries ++ [(key, value)])
    else rret (entries ++ [(key, value)])
  end.

(** The excerpt of a repeated key. *)
Definition json_key_excerpt (key : str) : str :=
  let cs := chars key in
  mjoin (escape_default <$> take 32 cs) ++ (match drop 32 cs with [] => [] | _ => ellipsis end).

(** The document order is kept; the sorted positions only find repeated keys. *)
Definition unique_entries (entries : list Entry) : Eval Value :=
  do* indices := sorted_record_indices entries.*1 in
  do* repeated := repeated_key entries.*1 indices in
  match repeated with
  | Some key =>
    throw (json_failure (bs "DATA018")
      (bs "JSON object repeated key " ++ [34%Z] ++ json_key_excerpt key ++ [34%Z]))
  | None => ret (VRecord entries)
  end.

Definition json_object : Reader Value :=
  expect_byte 123 >>>
  json_whitespace >>>
  rd* byte := peek in
  rd* entries := (if bool_decide (byte = Some 125%Z) then rret [] else object_loop (length input) []) in
  expect_byte 125 >>>
  reval (unique_entries entries).
End Containers.

Fixpoint json_value (levels : nat) : Reader Value :=
  reval visit >>>
  json_whitespace >>>
  match levels with
  | 0 => rthrow (json_failure (bs "DATA017") (bs "JSON nesting exceeds 64"))
  | S levels =>
    rd* byte := peek in
    match byte with
    | Some b =>
      if (b =? 110)%Z then json_literal (bs "null") >>> rret VNull
      else if (b =? 116)%Z then json_literal (bs "true") >>> rret (VBool true)
      else if (b =? 102)%Z then json_literal (bs "false") >>> rret (VBool false)
      else if (b =? 34)%Z then rd* s := json_string in rret (VString s)
      else if (b =? 91)%Z then container (json_array (json_value levels))
      else if (b =? 123)%Z then container (json_object (json_value levels))
      else if (b =? 45)%Z || ((48 <=? b) && (b <=? 57))%Z then json_number
      else malformed
    | None => malformed
    end
  end.

Definition json_document : Reader Value :=
  rd* value := json_value MAX_JSON_DEPTH in
  json_whitespace >>>
  rd* byte := peek in
  match byte with Some _ => malformed | None => rret value end.

Definition decode_document : Eval Value :=
  check_cancel ;;
  if (MAX_JSON_INPUT <? Z.of_nat (length input))%Z
  then throw (json_failure (bs "DATA014") (bs "JSON input exceeds 8 MiB"))
  else
    validate_chunks (λ offset, json_failure (bs "DATA015")
      (bs "invalid JSON UTF8 at byte " ++ show_int (Z.of_nat offset))) (length input) input 0 ;;
    do* ' (value, _) := json_document (mkDecoder 0 0 0) in
    ret value.
End Decoder.

Definition json_decode {RuntimeError : Type} `{D : DataLibraries} `{C : Control}
    (arguments : list (Value RuntimeError)) : Eval (Value RuntimeError) :=
  match arguments with
  | [VBytes input] => decode_document input
  | _ => unreachable
  end.
