(* ===== verification/DataFacts.v ===== *)
(** * The JSON decoder is exact, and reads back what the encoder writes

    A grammar of JSON documents ([document]), level by level; a calculus of
    triples on the decoder's readers; soundness and completeness of the decoder
    for the grammar; and the canonical value an encoding denotes. *)
From S2P Require Import Prelude Utf8 Order Compare Source Status Value Stream Float Operation Types Catalog.
From S2P Require Import Lifetime Evaluation Strings StringsFacts Records RecordsFacts Data.

Local Open Scope eval_scope.

(** ** The grammar

    Of strings: the text between the quotes, and the text it denotes. *)
Definition escapes : list (Z * Z) :=
  [(34, 34); (92, 92); (47, 47); (98, 8); (102, 12); (110, 10); (114, 13); (116, 9)]%Z.

Definition hex_digit (b d : Z) : Prop :=
  (b = 48 + d ∧ 0 ≤ d ≤ 9 ∨ b = 87 + d ∧ 10 ≤ d ≤ 15 ∨ b = 55 + d ∧ 10 ≤ d ≤ 15)%Z.

(** [n] more digits of a number whose first digits are [v]. *)
Inductive hex_run : nat → Z → str → Z → Prop :=
| run_done v : hex_run 0 v [] v
| run_more n v b d digits value :
    hex_digit b d → hex_run n (16 * v + d) digits value → hex_run (S n) v (b :: digits) value.

Definition hex_text : str → Z → Prop := hex_run 4 0.

(** What a backslash begins: one letter, a scalar, or a surrogate pair. *)
Inductive escape_text : str → Z → Prop :=
| escape_letter b c : (b, c) ∈ escapes → escape_text [b] c
| escape_scalar digits c : hex_text digits c → is_scalar c = true → escape_text (117%Z :: digits) c
| escape_pair high low h l :
    hex_text high h → hex_text low l → (0xD800 ≤ h ≤ 0xDBFF)%Z → (0xDC00 ≤ l ≤ 0xDFFF)%Z →
    escape_text (117%Z :: high ++ bs "\u" ++ low) (0x10000 + (h - 0xD800) * 1024 + (l - 0xDC00)).

Inductive string_text : str → str → Prop :=
| text_done : string_text [] []
| text_plain c raw text :
    is_scalar c = true → (0x20 ≤ c)%Z → c ≠ 34%Z → c ≠ 92%Z →
    string_text raw text → string_text (encode_char c ++ raw) (encode_char c ++ text)
| text_escape e c raw text :
    escape_text e c → string_text raw text → string_text (92%Z :: e ++ raw) (encode_char c ++ text).

Definition spaces_text (s : str) : Prop := Forall (λ b, b ∈ [32; 10; 13; 9]%Z) s.

(** A number token: its bytes, and what begins one. *)
Definition number_bytes : str := bs "0123456789-+.eE".
Definition number_token (s : str) : Prop :=
  Forall (.∈ number_bytes) s ∧ ∃ b, head s = Some b ∧ b ∈ bs "-0123456789".

Section Grammar.
Context {RuntimeError : Type} `{D : DataLibraries}.
Notation Value := (Value RuntimeError).
Notation Entry := (str * Value)%type.

(** What a token reads back as, which the library decides. *)
Definition token_reads (token : str) (v : Value) : Prop :=
  number_token token ∧ ∃ n, read_number token = Some n ∧ number_value n = Some v.

(** One level of values, over the values inside. *)
Section Layer.
Context (inner : str → Value → Prop).

Inductive element : str → Value → Prop :=
| element_intro l s r v : spaces_text l → inner s v → spaces_text r → element (l ++ s ++ r) v.

Inductive elements : str → list Value → Prop :=
| elements_one s v : element s v → elements s [v]
| elements_more s v t vs : element s v → elements t vs → elements (s ++ 44%Z :: t) (v :: vs).

Inductive json_member : str → Entry → Prop :=
| member_intro l raw key m s v :
    spaces_text l → string_text raw key → spaces_text m → element s v →
    json_member (l ++ 34%Z :: raw ++ 34%Z :: m ++ 58%Z :: s) (key, v).

Inductive json_members : str → list Entry → Prop :=
| members_one s e : json_member s e → json_members s [e]
| members_more s e t es : json_member s e → json_members t es → json_members (s ++ 44%Z :: t) (e :: es).

Inductive layer : str → Value → Prop :=
| layer_null : layer (bs "null") VNull
| layer_true : layer (bs "true") (VBool true)
| layer_false : layer (bs "false") (VBool false)
| layer_number token v : token_reads token v → layer token v
| layer_string raw text : string_text raw text → layer (34%Z :: raw ++ [34%Z]) (VString text)
| layer_empty_array s : spaces_text s → layer (91%Z :: s ++ [93%Z]) (VList [])
| layer_array s vs : elements s vs → layer (91%Z :: s ++ [93%Z]) (VList vs)
| layer_empty_object s : spaces_text s → layer (123%Z :: s ++ [125%Z]) (VRecord [])
| layer_object s es : json_members s es → NoDup es.*1 → layer (123%Z :: s ++ [125%Z]) (VRecord es).
End Layer.

(** Values of at most so many levels; documents have 64. *)
Fixpoint json_text (levels : nat) : str → Value → Prop :=
  match levels with
  | 0 => λ _ _, False
  | S levels => layer (json_text levels)
  end.

Definition document : str → Value → Prop := element (json_text MAX_JSON_DEPTH).
End Grammar.

(** Lengths of what was read. *)
Ltac length_lia := repeat (progress (rewrite ?length_app in *; cbn [app length] in *)); lia.

(** ** Triples on readers

    [parses E m s Q]: with [s] left to read, [m] computes a result in [Q], or an
    error in [E], and never panics. *)
Section Decoding.
Context {RuntimeError : Type} `{D : DataLibraries} `{C : Control} (input : str) {ask : N}.
Context (Hask : holds ask (S (length input))).
Notation Value := (Value RuntimeError).
Notation Entry := (str * Value)%type.
Notation computes := (computes ask).

Definition rest (st : JsonDecoder) : str := drop (json_cursor st) input.

Definition parses {A} (E : Abort → Prop) (m : Reader A) (s : str) (Q : A → str → Prop) : Prop :=
  ∀ st, rest st = s → ∃ r, computes (m st) r ∧
    match r with Ok (a, st') => Q a (rest st') | Err e => E e | Panic => False end.

(** The errors of a malformed document. *)
Definition json_error (e : Abort) : Prop :=
  ∃ code message, code ∈ [bs "DATA016"; bs "DATA017"; bs "DATA018"] ∧ e = json_failure code message.

Section Rules.
Context (E : Abort → Prop).

Lemma parses_ret {A} (a : A) s (Q : A → str → Prop) : Q a s → parses E (rret a) s Q.
Proof. intros H st <-. exists (Ok (a, st)). split; [apply computes_ret|exact H]. Qed.

Lemma parses_bind {A B} (m : Reader A) (k : A → Reader B) s Q :
  parses E m s (λ a s', parses E (k a) s' Q) → parses E (rbind m k) s Q.
Proof.
  intros H st Hs. destruct (H st Hs) as ([[a st']|e|] & Hm & Hr); [|exists (Err e); split; [by eapply computes_bind_err|done]|done].
  destruct (Hr st' eq_refl) as (r & Hk & Hq). exists r. split; [|exact Hq].
  by eapply (computes_bind_ok _ _ (a, st')).
Qed.

Lemma parses_weaken {A} (m : Reader A) s (Q R : A → str → Prop) :
  parses E m s Q → (∀ a s', Q a s' → R a s') → parses E m s R.
Proof.
  intros H HR st Hs. destruct (H st Hs) as (r & Hm & Hr). exists r. split; [done|].
  destruct r as [[a st']|e|]; auto.
Qed.

Lemma parses_eval {A} (m : Eval unit) (k : Reader A) s Q :
  (∀ B (f : unit → Eval B) r, computes (f tt) r → computes (bind m f) r) →
  parses E k s Q → parses E (reval m >>> k) s Q.
Proof.
  intros Hm Hk st Hs. destruct (Hk st Hs) as (r & Hr & Hq). exists r. split; [|done].
  apply computes_assoc, Hm. eapply computes_ext; [|exact Hr]. done.
Qed.

Lemma parses_visit {A} (k : Reader A) s Q : parses E k s Q → parses E (reval visit >>> k) s Q.
Proof. apply parses_eval. intros. by apply computes_visit. Qed.

Lemma parses_slot {A} size (k : Reader A) s Q :
  (0 ≤ size ≤ Z.of_N cell)%Z → parses E k s Q → parses E (retain_slot size >>> k) s Q.
Proof.
  intros Hsize. assert (Z.of_N cell ≤ Z.of_N ask)%Z by (unfold holds in Hask; nia).
  assert (1 ≤ ask)%N by (unfold holds in Hask; lia).
  apply parses_eval. intros B f r Hr.
  apply computes_assoc, computes_visit, computes_assoc, computes_bytes, computes_item; [lia..|done].
Qed.

Lemma parses_malformed {A} s (Q : A → str → Prop) :
  (∀ e, json_error e → E e) → parses E malformed s Q.
Proof.
  intros H st _. eexists. split; [apply computes_throw|]. apply H. eexists _, _. split; [|done]. by left.
Qed.

Lemma parses_throw {A} e s (Q : A → str → Prop) : E e → parses E (rthrow e) s Q.
Proof. intros H st _. exists (Err e). split; [apply computes_throw|exact H]. Qed.

Lemma rest_head st : input !! json_cursor st = head (rest st).
Proof. unfold rest. by rewrite <- (Nat.add_0_r (json_cursor st)), <- lookup_drop, head_lookup, Nat.add_0_r. Qed.

Lemma parses_peek {A} (k : option Z → Reader A) s Q :
  parses E (k (head s)) s Q → parses E (rd* b := peek input in k b) s Q.
Proof.
  intros H. apply parses_bind. intros st <-. exists (Ok (head (rest st), st)).
  split; [|done]. unfold peek. rewrite rest_head. apply computes_ret.
Qed.

Lemma rest_next st b s : rest st = b :: s → drop (S (json_cursor st)) input = s.
Proof. unfold rest. intros H. by rewrite <- (Nat.add_1_r (json_cursor st)), <- drop_drop, H. Qed.

(** A visit when a chunk is used up. *)
Lemma computes_chunk {A} (b : bool) left_over (k : Z → Eval A) r :
  (∀ n, computes (k n) (r n)) →
  ∃ n, computes (do* n := (if b then visit ;; ret CHUNK else ret left_over) in k n) (r n).
Proof.
  intros H. destruct b; [exists CHUNK|exists left_over].
  - apply computes_assoc, computes_visit. eapply computes_bind_ok; [apply computes_ret|apply H].
  - eapply computes_bind_ok; [apply computes_ret|apply H].
Qed.

Lemma parses_bump s (Q : Z → str → Prop) :
  match s with b :: s' => Q b s' | [] => ∀ e, json_error e → E e end → parses E (bump input) s Q.
Proof.
  intros H st Hs. unfold bump.
  edestruct (computes_chunk (scan_remaining st =? 0)%Z (scan_remaining st) (λ scan,
      match input !! json_cursor st with
      | None => malformed (mkDecoder (json_cursor st) scan (output_remaining st))
      | Some byte => ret (byte, mkDecoder (S (json_cursor st)) (scan - 1)%Z (output_remaining st))
      end) (λ scan, match input !! json_cursor st with
      | None => Err (json_failure (bs "DATA016") (bs "invalid JSON at byte " ++ show_int (Z.of_nat (json_cursor st))))
      | Some byte => Ok (byte, mkDecoder (S (json_cursor st)) (scan - 1)%Z (output_remaining st))
      end)) as (scan & Hc).
  { intros scan. destruct (input !! json_cursor st); [apply computes_ret|apply computes_throw]. }
  eexists. split; [exact Hc|]. rewrite rest_head, Hs. destruct s as [|b s]; simpl.
  - apply H. eexists _, _. split; [|done]. by left.
  - unfold rest. cbn [json_cursor]. by rewrite (rest_next st b s).
Qed.

Lemma parses_expect expected s (Q : unit → str → Prop) :
  match s with
  | b :: s' => if bool_decide (b = expected) then Q tt s' else ∀ e, json_error e → E e
  | [] => ∀ e, json_error e → E e
  end → parses E (expect_byte input expected) s Q.
Proof.
  intros H. apply parses_peek. destruct s as [|b s]; cbn [head]; [by apply parses_malformed|].
  destruct (bool_decide_reflect (Some b = Some expected)) as [[= ->]|Hne].
  - rewrite bool_decide_true in H by done. apply parses_bind, parses_bump, parses_ret, H.
  - rewrite bool_decide_false in H by congruence. by apply parses_malformed.
Qed.

Lemma parses_found expected s (Q : unit → str → Prop) :
  Q tt s → parses E (expect_byte input expected) (expected :: s) Q.
Proof. intros H. apply parses_expect. by rewrite bool_decide_true. Qed.

(** What follows does not satisfy [p]. *)
Definition stops (p : Z → bool) (s : str) : Prop := match s with [] => True | b :: _ => p b = false end.

Lemma parses_skip fuel p s (Q : unit → str → Prop) :
  length s ≤ fuel →
  (∀ t s', s = t ++ s' → Forall (λ b, p b = true) t → stops p s' → Q tt s') →
  parses E (Data.skip_while input fuel p) s Q.
Proof.
  revert s Q. induction fuel as [|fuel IH]; intros s Q Hf HQ; cbn [Data.skip_while];
    apply parses_peek; (destruct s as [|b s]; cbn [head]; [apply parses_ret; by apply (HQ [] [])|]);
    (destruct (p b) eqn:Hb; [|apply parses_ret; by apply (HQ [] (b :: s))]);
    [simpl in Hf; lia|].
  apply parses_bind, parses_bump, IH; [simpl in Hf; lia|]. intros t s' -> Ht. intros Hst.
  apply (HQ (b :: t) s'); [done|by constructor|done].
Qed.

(** What is left is a part of the input. *)
Lemma parses_length {A} (m : Reader A) s (Q : A → str → Prop) :
  (length s ≤ length input → parses E m s Q) → parses E m s Q.
Proof. intros H st Hs. apply H; [|done]. rewrite <- Hs. unfold rest. rewrite length_drop. lia. Qed.

Lemma parses_all p s (Q : unit → str → Prop) :
  (∀ t s', s = t ++ s' → Forall (λ b, p b = true) t → stops p s' → Q tt s') →
  parses E (Data.skip_while input (length input) p) s Q.
Proof. intros HQ. apply parses_length. intros Hl. by apply parses_skip. Qed.

Lemma parses_spaces s (Q : unit → str → Prop) :
  (∀ t s', s = t ++ s' → spaces_text t → stops is_json_space s' → Q tt s') →
  parses E (json_whitespace input) s Q.
Proof.
  intros HQ. apply parses_all. intros t s' Hs Ht. apply (HQ t s'); [done|].
  eapply Forall_impl; [exact Ht|]. unfold is_json_space. intros b Hb. bool_to_prop.
  rewrite !elem_of_cons. intuition lia.
Qed.
End Rules.

(** *** Characters *)

Lemma utf8_tail b s : utf8 (b :: s) → (b < 0x80)%Z → utf8 s.
Proof.
  intros Hu Hb. destruct (utf8_cons_inv _ _ Hu) as (c & w & Hd).
  pose proof (utf8_inv _ _ _ Hu Hd) as Hs. apply decode_char_shape, shape_head in Hd as (b' & [= <-] & _ & ? & Hw).
  apply Hw in Hb as ->. exact Hs.
Qed.

(** The input between two positions is what was read from one to the other. *)
Lemma sub_between start stop t s :
  drop start input = t ++ s → drop stop input = s → sub input start stop = t.
Proof.
  intros Hstart <-. unfold sub. rewrite Hstart. apply (f_equal length) in Hstart.
  rewrite length_app, !length_drop in Hstart. destruct (decide (stop < length input)) as [Hlt|Hge].
  - apply take_app_length'. lia.
  - rewrite (drop_ge input) by lia. rewrite app_nil_r. apply take_ge. lia.
Qed.

Section Characters.
Context (E : Abort → Prop).

Lemma parses_bumps n s (Q : unit → str → Prop) :
  n ≤ length s → Q tt (drop n s) → parses E (bump_times input n) s Q.
Proof.
  revert s. induction n as [|n IH]; intros s Hn HQ; cbn [bump_times]; [by apply parses_ret|].
  destruct s as [|b s]; [simpl in Hn; lia|]. apply parses_bind, parses_bump, IH; [simpl in Hn; lia|done].
Qed.

(** The first byte is read, the rest of the character is left. *)
Lemma parses_wide b s c w start (Q : Z → str → Prop) :
  drop start input = b :: s → decode_char (b :: s) = DChar c w → (0x80 ≤ b)%Z → Q c (drop w (b :: s)) →
  parses E (wide_char input start b) s Q.
Proof.
  intros Hst Hd Hb HQ. pose proof Hd as Hsh%decode_char_shape. pose proof (shape_width _ _ _ Hsh) as [Hw Hl].
  assert (match (if (0xC2 <=? b) && (b <=? 0xDF) then Some 2%nat
     else if (0xE0 <=? b) && (b <=? 0xEF) then Some 3%nat
     else if (0xF0 <=? b) && (b <=? 0xF4) then Some 4%nat
     else None)%Z with Some v => v = w | None => False end ∧ w ≠ 1) as [Hwidth Hw1].
  { destruct Hsh as [b0 r Heq|b0 b1 r Heq|b0 b1 b2 r Heq|b0 b1 b2 b3 r Heq]; injection Heq as -> ->; try lia;
      (split; [|lia]); repeat match goal with |- context [Z.leb ?x ?y] => destruct (Z.leb_spec x y) end; simpl; lia. }
  unfold wide_char. match type of Hwidth with context [match ?x with _ => _ end] => destruct x as [v|]; [subst v|done] end.
  apply parses_bind, parses_bumps; [simpl in Hl; lia|]. intros st Hr.
  assert (sub input start (json_cursor st) = take w (b :: s)) as ->.
  { apply (sub_between _ _ _ (drop w (b :: s))); [by rewrite take_drop|].
    unfold rest in Hr. rewrite Hr. replace w with (S (w - 1)) at 2 by lia. done. }
  assert (from_utf8 (take w (b :: s)) = Utf8Ok [c]) as ->.
  { rewrite <- (shape_encode _ _ _ Hsh), <- (app_nil_r (encode_char c)). change (encode_char c ++ []) with (encode [c]).
    apply from_utf8_encode. constructor; [|done]. by apply shape_scalar in Hsh as [? _]. }
  exists (Ok (c, st)). split; [apply computes_ret|]. rewrite Hr.
  replace w with (S (w - 1)) in HQ by lia. exact HQ.
Qed.

Lemma parses_push output c s (Q : str → str → Prop) :
  Q (output ++ encode_char c) s → parses E (push_char output c) s Q.
Proof.
  intros HQ st Hs. unfold push_char.
  assert (0 ≤ Z.of_nat (len_utf8 c) ≤ Z.of_N ask)%Z as Ha.
  { unfold holds in Hask. unfold len_utf8. zcases; lia. }
  edestruct (computes_chunk (output_remaining st <? Z.of_nat (len_utf8 c))%Z (output_remaining st)
    (λ remaining, retain_collection_bytes (Z.of_nat (len_utf8 c)) ;;
       ret (output ++ encode_char c, mkDecoder (json_cursor st) (scan_remaining st) (remaining - Z.of_nat (len_utf8 c))%Z))
    (λ remaining, Ok (output ++ encode_char c,
       mkDecoder (json_cursor st) (scan_remaining st) (remaining - Z.of_nat (len_utf8 c))%Z))) as (n & Hc).
  { intros n. apply computes_bytes; [done|apply computes_ret]. }
  eexists. split; [exact Hc|]. cbn. unfold rest in *. cbn. by rewrite Hs.
Qed.

Lemma hex_value_digit b d : Data.hex_value b = Some d ↔ hex_digit b d.
Proof.
  unfold Data.hex_value, hex_digit. split.
  - repeat case_match; intros [= <-]; bool_to_prop; lia.
  - intros H. repeat case_match; bool_to_prop; f_equal; lia.
Qed.

Lemma parses_hex_run n v s (Q : Z → str → Prop) :
  (∀ t value s', s = t ++ s' → hex_run n v t value → Q value s') →
  (∀ e, json_error e → E e) ∨ (∃ t value s', s = t ++ s' ∧ hex_run n v t value) →
  parses E (hex_loop input n v) s Q.
Proof.
  revert v s. induction n as [|n IH]; intros v s HQ Hx; cbn [hex_loop].
  { apply parses_ret, (HQ []); [done|constructor]. }
  apply parses_bind, parses_bump. destruct s as [|b s].
  { destruct Hx as [?|(t & value & s' & He & Ht)]; [done|]. by inv Ht. }
  destruct (Data.hex_value b) as [d|] eqn:Hd.
  - apply hex_value_digit in Hd. replace (v * 16 + d)%Z with (16 * v + d)%Z by lia. apply IH.
    + intros t value s' -> Ht. apply (HQ (b :: t)); [done|]. by econstructor.
    + destruct Hx as [?|(t & value & s' & He & Ht)]; [by left|right]. inv Ht. injection He as <- ->.
      apply hex_value_digit in Hd. match goal with H : hex_digit b _ |- _ => apply hex_value_digit in H end.
      simplify_eq. eauto.
  - destruct Hx as [?|(t & value & s' & He & Ht)]; [by apply parses_malformed|]. inv Ht. injection He as <- ->.
    match goal with H : hex_digit b _ |- _ => apply hex_value_digit in H end. congruence.
Qed.
(** Reading is by the grammar [G] of what is read: the result belongs to a
    match, and there are no errors when there is one. *)
Definition reads {A} (G : str → A → Prop) (m : Reader A) (s : str) : Prop :=
  ∀ Q : A → str → Prop,
  (∀ t a s', s = t ++ s' → G t a → Q a s') →
  (∀ e, json_error e → E e) ∨ (∃ t a s', s = t ++ s' ∧ G t a) →
  parses E m s Q.

Lemma hex_reads s : reads hex_text (hex4 input) s.
Proof. intros Q. apply parses_hex_run. Qed.

Lemma hex_run_length n v t value : hex_run n v t value → length t = n.
Proof. induction 1; simpl; congruence. Qed.

Lemma hex_run_unique n v t t' s s' value value' :
  hex_run n v t value → hex_run n v t' value' → t ++ s = t' ++ s' → t = t' ∧ s = s' ∧ value = value'.
Proof.
  intros H. revert t'. induction H as [v|n v b d digits value Hd H IH]; intros t' H' He; inv H'; [done|].
  apply hex_value_digit in Hd.
  match goal with H : hex_digit _ _ |- _ => apply hex_value_digit in H end. simplify_eq.
  edestruct IH as (-> & -> & ->); eauto.
Qed.

Lemma escape_value_spec b c : escape_value b = Some c ↔ (b, c) ∈ escapes.
Proof.
  unfold escape_value, escapes. rewrite !elem_of_cons, elem_of_nil. split.
  - repeat case_match; intros [= <-]; bool_to_prop; subst; naive_solver.
  - intros H. repeat (destruct H as [[= -> ->]|H]; [done|]). done.
Qed.

Lemma pair_scalar h l :
  (0xD800 ≤ h ≤ 0xDBFF)%Z → (0xDC00 ≤ l ≤ 0xDFFF)%Z →
  (0x10000 + Z.shiftl (h - 0xD800) 10 + l - 0xDC00 = 0x10000 + (h - 0xD800) * 1024 + (l - 0xDC00))%Z ∧
  is_scalar (0x10000 + (h - 0xD800) * 1024 + (l - 0xDC00)) = true.
Proof.
  intros Hh Hl. rewrite Z.shiftl_mul_pow2 by lia. split; [lia|]. unfold is_scalar. bool_to_prop. lia.
Qed.

(** The part of an escape after its [u]. *)
Definition unicode_text (t : str) (c : Z) : Prop := escape_text (117%Z :: t) c.

Lemma unicode_cases t c :
  unicode_text t c ↔
    hex_text t c ∧ is_scalar c = true ∨
    ∃ high low h l, t = high ++ bs "\u" ++ low ∧ c = (0x10000 + (h - 0xD800) * 1024 + (l - 0xDC00))%Z ∧
      hex_text high h ∧ hex_text low l ∧ (0xD800 ≤ h ≤ 0xDBFF)%Z ∧ (0xDC00 ≤ l ≤ 0xDFFF)%Z.
Proof.
  split.
  - inversion 1; [|by left|right; eauto 10].
    match goal with H : (117%Z, _) ∈ escapes |- _ => apply escape_value_spec in H end. done.
  - intros [[? ?]|(high & low & h & l & -> & -> & ? & ? & ? & ?)]; by constructor.
Qed.

(** The first digits of what is read tell which. *)
Lemma unicode_match t first s' :
  hex_text t first → (∃ t' c s2, t ++ s' = t' ++ s2 ∧ unicode_text t' c) →
  is_scalar first = true ∨
  (0xD800 ≤ first ≤ 0xDBFF)%Z ∧ ∃ low l s2, s' = bs "\u" ++ low ++ s2 ∧ hex_text low l ∧ (0xDC00 ≤ l ≤ 0xDFFF)%Z.
Proof.
  intros Ht (t' & c & s2 & He & Hu). apply unicode_cases in Hu as
    [[Hu Hc]|(high & low & h & l & -> & -> & Hh & Hl & Hhr & Hlr)].
  - destruct (hex_run_unique _ _ _ _ _ _ _ _ Ht Hu He) as (_ & _ & ->). by left.
  - rewrite <- !app_assoc in He. destruct (hex_run_unique _ _ _ _ _ _ _ _ Ht Hh He) as (_ & -> & ->). right. eauto 10.
Qed.

Lemma unicode_reads s : reads unicode_text (unicode_escape input) s.
Proof.
  intros Q HQ Hx. unfold unicode_escape. apply parses_bind, hex_reads.
  2: { destruct Hx as [|(t & c & s' & -> & [[? _]|(high & low & h & l & -> & _ & ? & _)]%unicode_cases)];
         [by left|right; eauto|right]. rewrite <- app_assoc. eauto. }
  intros t first s' -> Ht. apply parses_bind.
  assert ((∀ e, json_error e → E e) ∨ is_scalar first = true ∨ (0xD800 ≤ first ≤ 0xDBFF)%Z ∧
    ∃ low l s2, s' = bs "\u" ++ low ++ s2 ∧ hex_text low l ∧ (0xDC00 ≤ l ≤ 0xDFFF)%Z) as Hy.
  { destruct Hx as [|Hx]; [by left|right]. by apply (unicode_match t). }
  clear Hx. destruct ((0xD800 <=? first) && (first <=? 0xDBFF))%Z eqn:Hsur.
  - assert ((∀ e, json_error e → E e) ∨
      ∃ low l s2, s' = bs "\u" ++ low ++ s2 ∧ hex_text low l ∧ (0xDC00 ≤ l ≤ 0xDFFF)%Z) as Hz.
    { destruct Hy as [|[Hy|[_ Hy]]]; [by left| |by right]. unfold is_scalar in Hy. bool_to_prop. lia. }
    apply parses_bind, parses_expect. destruct s' as [|x s']; [naive_solver|].
    case_bool_decide; [subst x|naive_solver]. apply parses_bind, parses_expect. destruct s' as [|x s']; [naive_solver|].
    case_bool_decide; [subst x|naive_solver]. apply parses_bind, hex_reads.
    2: { destruct Hz as [|(low & l & s2 & [= ->] & ? & ?)]; [by left|right]. eauto. }
    intros t2 second s2 -> Ht2.
    destruct (negb ((0xDC00 <=? second) && (second <=? 0xDFFF))%Z) eqn:Hlow.
    + apply parses_malformed. destruct Hz as [|(low & l & s3 & [= He] & Hl & Hr)]; [done|].
      destruct (hex_run_unique _ _ _ _ _ _ _ _ Ht2 Hl He) as (_ & _ & ->). bool_to_prop. lia.
    + apply parses_ret. bool_to_prop. destruct (pair_scalar first second) as [-> ->]; [lia..|]. apply parses_ret.
      apply (HQ (t ++ bs "\u" ++ t2)); [by rewrite <- !app_assoc|]. apply unicode_cases. right.
      exists t, t2, first, second. split_and!; done || lia.
  - apply parses_ret. destruct (is_scalar first) eqn:Hsc.
    + apply parses_ret. apply (HQ t); [done|]. apply unicode_cases. by left.
    + apply parses_malformed. bool_to_prop. destruct Hy as [|[?|[? _]]]; [done|congruence|lia].
Qed.

Lemma escape_reads s : reads escape_text (json_escape input) s.
Proof.
  intros Q HQ Hx. unfold json_escape. apply parses_bind, parses_bump. destruct s as [|b s].
  { destruct Hx as [|(t & c & s' & He & Ht)]; [done|]. by destruct Ht. }
  destruct (escape_value b) as [c|] eqn:Hb.
  { apply parses_ret, (HQ [b]); [done|]. constructor. by apply escape_value_spec. }
  destruct (Z.eqb_spec b 117) as [->|Hne].
  - apply unicode_reads.
    + intros t c s' -> Ht. by apply (HQ (117%Z :: t)).
    + destruct Hx as [|(t & c & s' & He & Ht)]; [by left|right].
      destruct t as [|x t]; [by inv Ht|]. injection He as <- ->. eauto.
  - apply parses_malformed. destruct Hx as [|(t & c & s' & He & Ht)]; [done|].
    destruct Ht as [b' c Hin| |]; [|by injection He..]. injection He as -> _. apply escape_value_spec in Hin. congruence.
Qed.
End Characters.

(** *** Strings *)

Lemma parses_here {A} E (k : nat → Reader A) s (Q : A → str → Prop) :
  (∀ start, drop start input = s → parses E (k start) s Q) → parses E (rd* start := here in k start) s Q.
Proof.
  intros H. apply parses_bind. intros st Hs. exists (Ok (json_cursor st, st)).
  split; [apply computes_ret|]. rewrite Hs. by apply H.
Qed.

Lemma hex_digit_ascii b d : hex_digit b d → (0 ≤ b < 0x80)%Z.
Proof. unfold hex_digit. lia. Qed.

Lemma hex_run_ascii n v t value : hex_run n v t value → Forall (λ b, 0 ≤ b < 0x80)%Z t.
Proof. induction 1; constructor; eauto using hex_digit_ascii. Qed.

Lemma escape_ascii e c : escape_text e c → Forall (λ b, 0 ≤ b < 0x80)%Z e ∧ is_scalar c = true.
Proof.
  destruct 1 as [b c Hin|digits c Hd Hc|high low h l Hh Hl Hhr Hlr].
  - apply escape_value_spec in Hin. unfold escape_value in Hin.
    split; [constructor; [|done]|]; repeat case_match; simplify_eq; bool_to_prop; lia || done.
  - split; [constructor; [lia|by eapply hex_run_ascii]|done].
  - split; [|by apply pair_scalar]. constructor; [lia|]. apply Forall_app. split; [by eapply hex_run_ascii|].
    change (bs "\u" ++ low) with (92%Z :: 117%Z :: low). repeat (constructor; [lia|]). by eapply hex_run_ascii.
Qed.

Lemma escape_cases e c :
  escape_text e c → (∃ b, e = [b] ∧ escape_value b = Some c) ∨ ∃ t, e = 117%Z :: t ∧ unicode_text t c.
Proof.
  intros He. destruct He as [b c Hin| |]; [left|right; eexists; split; [done|by constructor]..].
  apply escape_value_spec in Hin. eauto.
Qed.

(** An escape is no proper beginning of another. *)
Lemma unicode_unique t t' c c' s s' :
  unicode_text t c → unicode_text t' c' → t ++ s = t' ++ s' → t = t' ∧ s = s' ∧ c = c'.
Proof.
  intros [[Ht Hc]|(x & y & h & l & -> & -> & Hx & Hy & Hh & Hl)]%unicode_cases
    [[Ht' Hc']|(x' & y' & h' & l' & -> & -> & Hx' & Hy' & Hh' & Hl')]%unicode_cases; rewrite <- ?app_assoc; intros He.
  - by apply (hex_run_unique 4 0).
  - destruct (hex_run_unique _ _ _ _ _ _ _ _ Ht Hx' He) as (_ & _ & ->). unfold is_scalar in Hc. bool_to_prop. lia.
  - destruct (hex_run_unique _ _ _ _ _ _ _ _ Hx Ht' He) as (_ & _ & ->). unfold is_scalar in Hc'. bool_to_prop. lia.
  - destruct (hex_run_unique _ _ _ _ _ _ _ _ Hx Hx' He) as (-> & Hs & ->). injection Hs as Hs.
    by destruct (hex_run_unique _ _ _ _ _ _ _ _ Hy Hy' Hs) as (-> & -> & ->).
Qed.

Lemma escape_unique e e' c c' s s' :
  escape_text e c → escape_text e' c' → e ++ s = e' ++ s' → e = e' ∧ s = s' ∧ c = c'.
Proof.
  intros [(b & -> & Hb)|(t & -> & Ht)]%escape_cases [(b' & -> & Hb')|(t' & -> & Ht')]%escape_cases He;
    injection He as; simplify_eq; try done.
  by destruct (unicode_unique t t' c c' s s') as (-> & -> & ->).
Qed.

Lemma encode_char_plain c : (0 ≤ c < 0x80)%Z → encode_char c = [c].
Proof. intros. unfold encode_char. by zcases; try lia. Qed.

(** A character that is not escaped, at the head of text. *)
Lemma plain_head b s :
  utf8 (b :: s) → (0x80 ≤ b)%Z →
  ∃ c w, decode_char (b :: s) = DChar c w ∧ is_scalar c = true ∧ (0x80 ≤ c)%Z ∧
    b :: s = encode_char c ++ drop w (b :: s) ∧ utf8 (drop w (b :: s)) ∧ length (drop w (b :: s)) ≤ length s.
Proof.
  intros Hu Hb. destruct (utf8_cons_inv _ _ Hu) as (c & w & Hd). exists c, w.
  pose proof (decode_char_shape _ _ _ Hd) as Hs. pose proof (shape_scalar _ _ _ Hs) as [Hc Hlen].
  pose proof (shape_width _ _ _ Hs) as [Hw _]. split_and!; try done.
  - apply shape_head in Hs as (b' & [= <-] & _ & _ & Hi). unfold len_utf8 in Hlen.
    destruct (Z.ltb_spec c 0x80); [|lia]. assert (b < 0x80)%Z by (by apply Hi). lia.
  - by rewrite (shape_encode _ _ _ Hs), take_drop.
  - by eapply utf8_inv.
  - rewrite length_drop. simpl. lia.
Qed.

Lemma string_sound fuel output s :
  utf8 s → length s < fuel →
  parses json_error (string_loop input fuel output) s (λ text s',
    utf8 s' ∧ ∃ raw t, s = raw ++ 34%Z :: s' ∧ string_text raw t ∧ text = output ++ t).
Proof.
  revert output s. induction fuel as [|fuel IH]; intros output s Hu Hf; [lia|]. cbn [string_loop].
  apply parses_here. intros start Hstart. apply parses_bind, parses_bump. destruct s as [|b s]; [done|].
  simpl in Hf. destruct (Z.eqb_spec b 34) as [->|Hq].
  { apply parses_ret. split; [by apply utf8_tail in Hu|]. exists [], []. rewrite app_nil_r.
    split_and!; [done|constructor|done]. }
  destruct (Z.leb_spec b 0x1F); [by apply parses_malformed|].
  (** After a character [c], read as [p]. *)
  assert (∀ p c s', b :: s = p ++ s' → utf8 s' → length s' ≤ length s →
    (∀ raw t, string_text raw t → string_text (p ++ raw) (encode_char c ++ t)) →
    parses json_error (rd* output := push_char output c in string_loop input fuel output) s'
      (λ text s', utf8 s' ∧ ∃ raw t, b :: s = raw ++ 34%Z :: s' ∧ string_text raw t ∧ text = output ++ t)) as Hgo.
  { intros p c s' He Hs' Hl Hp. apply parses_bind, parses_push. eapply parses_weaken; [apply IH; [done|lia]|].
    intros text s2 (Hs2 & raw & t & -> & Ht & ->). split; [done|]. exists (p ++ raw), (encode_char c ++ t).
    rewrite He, <- !app_assoc. auto. }
  apply parses_bind. destruct (Z.eqb_spec b 92) as [->|Hb].
  - apply escape_reads; [|by left]. intros e c s' -> He. pose proof (escape_ascii _ _ He) as [Ha _].
    apply (Hgo (92%Z :: e)); [done| | |intros; by constructor].
    + apply utf8_tail in Hu; [|lia]. by apply (utf8_strip e); [apply ascii_utf8|].
    + rewrite length_app. lia.
  - destruct (Z.leb_spec b 0x7F).
    + assert (encode_char b = [b]) as Hb1 by (apply encode_char_plain; lia).
      apply parses_ret, (Hgo [b]); [done|by apply utf8_tail in Hu; [|lia]|done|].
      intros raw t Ht. rewrite <- Hb1. apply text_plain; try done; [|lia]. unfold is_scalar. bool_to_prop. lia.
    + destruct (plain_head b s Hu ltac:(lia)) as (c & w & Hd & Hc & Hc80 & He & Hu' & Hl).
      eapply parses_wide; [exact Hstart|exact Hd|lia|]. apply (Hgo (encode_char c)); try done.
      intros raw t Ht. apply text_plain; try done; lia.
Qed.

Lemma string_complete E fuel output raw t s' :
  string_text raw t → length (raw ++ 34%Z :: s') < fuel →
  parses E (string_loop input fuel output) (raw ++ 34%Z :: s') (λ text s2, text = output ++ t ∧ s2 = s').
Proof.
  intros Ht. revert fuel output. induction Ht as [|c raw t Hc Hc1 Hc2 Hc3 Ht IH|e c raw t He Ht IH];
    intros fuel output Hf; (destruct fuel as [|fuel]; [lia|]); cbn [string_loop]; apply parses_here; intros start Hstart;
    apply parses_bind.
  - apply parses_bump, parses_ret. by rewrite app_nil_r.
  - pose proof (encode_char_shape c (raw ++ 34%Z :: s') Hc) as Hs. rewrite app_assoc in Hs.
    assert (1 ≤ length (encode_char c)) as Hlen by (rewrite length_encode_char by done; unfold len_utf8; repeat case_match; lia).
    destruct (encode_char c) as [|b p] eqn:Hp; [simpl in Hlen; lia|]. apply parses_bump. cbn [app].
    rewrite <- !app_assoc in Hs.
    assert (parses E (rd* output := push_char output c in string_loop input fuel output) (raw ++ 34%Z :: s')
      (λ text s2, text = output ++ (b :: p) ++ t ∧ s2 = s')) as Hgo.
    { apply parses_bind, parses_push. eapply parses_weaken; [apply IH; rewrite !length_app in *; simpl in *; lia|].
      intros text s2 [-> ->]. split; [|done]. by rewrite Hp, <- app_assoc. }
    destruct (decide (c < 0x80)%Z) as [Hsmall|Hwide].
    + rewrite encode_char_plain in Hp by lia. injection Hp as <- <-.
      destruct (Z.eqb_spec c 34); [done|]. destruct (Z.leb_spec c 0x1F); [lia|].
      apply parses_bind. destruct (Z.eqb_spec c 92); [done|]. destruct (Z.leb_spec c 0x7F); [|lia].
      by apply parses_ret.
    + pose proof (shape_head _ _ _ Hs) as (b' & [= <-] & _ & Hb & Hi).
      assert (¬ (b < 0x80)%Z) as Hb80.
      { rewrite Hi. unfold len_utf8. zcases; lia. }
      destruct (Z.eqb_spec b 34); [lia|]. destruct (Z.leb_spec b 0x1F); [lia|].
      apply parses_bind. destruct (Z.eqb_spec b 92); [lia|]. destruct (Z.leb_spec b 0x7F); [lia|].
      eapply parses_wide; [exact Hstart|apply shape_decode_char; rewrite <- app_assoc; exact Hs|lia|].
      replace (b :: (p ++ raw) ++ 34%Z :: s') with ((b :: p) ++ (raw ++ 34%Z :: s')) by (by rewrite <- app_assoc).
      rewrite <- (length_encode_char c Hc), Hp, drop_app_length. exact Hgo.
  - cbn [app]. rewrite <- app_assoc. apply parses_bump, parses_bind, escape_reads.
    2: { right. eauto. }
    intros e' c' s2 Heq He'.
    destruct (escape_unique e e' c c' _ _ He He' Heq) as (<- & <- & <-).
    apply parses_bind, parses_push.
    eapply parses_weaken; [apply IH; cbn [app length] in *; rewrite !length_app in *; simpl in *; lia|].
    intros text s2 [-> ->]. by rewrite <- app_assoc.
Qed.

(** *** Tokens *)

Lemma string_token_sound s :
  utf8 s → parses json_error (json_string input) s (λ text s',
    utf8 s' ∧ ∃ raw, s = 34%Z :: raw ++ 34%Z :: s' ∧ string_text raw text).
Proof.
  intros Hu. apply parses_length. intros Hl. apply parses_bind, parses_expect. destruct s as [|b s]; [done|].
  case_bool_decide; [subst b|done]. simpl in Hl. eapply parses_weaken; [apply string_sound; [by apply utf8_tail in Hu|lia]|].
  intros text s' (Hu' & raw & t & -> & Ht & ->). split; [done|]. by exists raw.
Qed.

Lemma string_token_complete E raw text s' (Q : str → str → Prop) :
  string_text raw text → Q text s' → parses E (json_string input) (34%Z :: raw ++ 34%Z :: s') Q.
Proof.
  intros Ht HQ. apply parses_length. intros Hl. apply parses_bind, parses_found.
  eapply parses_weaken; [apply string_complete; [exact Ht|simpl in *; lia]|]. by intros t s2 [-> ->].
Qed.

Lemma split_unique p (t t' s s' : str) :
  Forall (λ b, p b = true) t → Forall (λ b, p b = true) t' → stops p s → stops p s' →
  t ++ s = t' ++ s' → t = t' ∧ s = s'.
Proof.
  intros Ht. revert t'. induction Ht as [|b t Hb Ht IH]; intros t' Ht' Hs Hs' He.
  - destruct Ht' as [|b' t' Hb' Ht']; [done|]. simpl in He. subst s. simpl in Hs. congruence.
  - destruct Ht' as [|b' t' Hb' Ht']; [simpl in He; subst s'; simpl in Hs'; congruence|].
    injection He as -> He. by destruct (IH t') as [-> ->].
Qed.

Lemma space_spec b : is_json_space b = true ↔ b ∈ [32; 10; 13; 9]%Z.
Proof. unfold is_json_space. rewrite !elem_of_cons, elem_of_nil. bool_to_prop. lia. Qed.

Lemma spaces_all s : spaces_text s ↔ Forall (λ b, is_json_space b = true) s.
Proof. apply list.Forall_iff. intros b. by rewrite space_spec. Qed.

Lemma number_byte_spec b : is_number_byte b = true ↔ b ∈ number_bytes.
Proof.
  unfold is_number_byte, number_bytes. change (bs "0123456789-+.eE") with
    [48; 49; 50; 51; 52; 53; 54; 55; 56; 57; 45; 43; 46; 101; 69]%Z.
  rewrite !elem_of_cons, elem_of_nil. bool_to_prop. lia.
Qed.

Lemma parses_blank E l s (Q : unit → str → Prop) :
  spaces_text l → stops is_json_space s → Q tt s → parses E (json_whitespace input) (l ++ s) Q.
Proof.
  intros Hl Hs HQ. apply parses_spaces. intros t s' He Ht Hs'. apply spaces_all in Hl, Ht.
  by destruct (split_unique _ _ _ _ _ Hl Ht Hs Hs' He) as [_ <-].
Qed.

Lemma literal_reads E expected s : reads E (λ t _, t = expected) (json_literal input expected) s.
Proof.
  revert s. induction expected as [|b expected IH]; intros s Q HQ Hx; cbn [json_literal].
  { apply parses_ret. by apply (HQ []). }
  apply parses_bind, parses_expect. destruct s as [|x s].
  { destruct Hx as [|(t & _ & s' & He & ->)]; [done|]. done. }
  case_bool_decide as Hb; [subst x|].
  - apply IH.
    + intros t a s' -> ->. by apply (HQ (b :: expected)).
    + destruct Hx as [|(t & a & s' & He & ->)]; [by left|right]. injection He as ->. by eexists expected, tt, _.
  - destruct Hx as [|(t & _ & s' & He & ->)]; [done|]. by injection He as ->.
Qed.

Lemma parses_number E s (Q : Value → str → Prop) :
  (∀ token s', s = token ++ s' → Forall (.∈ number_bytes) token → stops is_number_byte s' →
    match read_number token ≫= number_value with Some v => Q v s' | None => ∀ e, json_error e → E e end) →
  parses E (json_number input) s Q.
Proof.
  intros HQ. apply parses_here. intros start Hstart. apply parses_bind, parses_all.
  intros token s' Hs Htok Hstop. apply parses_here. intros stop Hstop'.
  rewrite (sub_between start stop token s') by congruence.
  assert (Forall (.∈ number_bytes) token) as Hbytes.
  { eapply Forall_impl; [exact Htok|]. intros b. apply number_byte_spec. }
  specialize (HQ token s' Hs Hbytes Hstop).
  apply parses_eval; [intros; by apply computes_visits|].
  destruct (read_number token ≫= number_value); [by apply parses_ret|].
  apply parses_throw, HQ. eexists _, _. split; [|done]. by left.
Qed.

Lemma parses_container {A} E (m : Reader A) s (Q : A → str → Prop) :
  parses E m s Q → parses E (container m) s Q.
Proof. intros H st Hs. destruct (H st Hs) as (r & Hr & Hq). exists r. split; [by apply computes_nested|done]. Qed.

(** *** Containers

    Over what is known of the values inside. *)
Lemma cells_sized : (0 ≤ size_of_value ≤ Z.of_N cell)%Z ∧ (0 ≤ size_of_entry ≤ Z.of_N cell)%Z.
Proof. unfold size_of_value, size_of_entry, cell. lia. Qed.

Lemma spaces_utf8 s : spaces_text s → utf8 s.
Proof.
  intros Hs. apply ascii_utf8. eapply Forall_impl; [exact Hs|]. intros b. rewrite !elem_of_cons, elem_of_nil. lia.
Qed.

Lemma number_utf8 s : Forall (.∈ number_bytes) s → utf8 s.
Proof.
  intros Hs. apply ascii_utf8. eapply Forall_impl; [exact Hs|]. intros b. rewrite <- number_byte_spec.
  unfold is_number_byte. bool_to_prop. lia.
Qed.

(** What an item's number token may be followed by. *)
Lemma blank_follows r x s :
  spaces_text r → is_number_byte x = false → stops is_number_byte (r ++ x :: s).
Proof.
  intros Hr Hx. destruct Hr as [|b r Hb Hr]; simpl; [done|].
  rewrite !elem_of_cons, elem_of_nil in Hb. unfold is_number_byte. bool_to_prop. lia.
Qed.

Section Containers.
Context (inner : str → Value → Prop) (item : Reader Value).

Section Sound.
Context (Hitem : ∀ s, utf8 s → parses json_error item s (λ v s',
  utf8 s' ∧ ∃ l t, s = l ++ t ++ s' ∧ spaces_text l ∧ inner t v)).

(** An item and the blanks after it are an element. *)
Lemma element_sound {A} (k : Value → Reader A) s Q :
  utf8 s →
  (∀ v t s', s = t ++ s' → utf8 s' → element inner t v → parses json_error (k v) s' Q) →
  parses json_error (rd* v := item in json_whitespace input >>> k v) s Q.
Proof.
  intros Hu Hk. apply parses_bind. eapply parses_weaken; [by apply Hitem|].
  intros v s1 (Hu1 & l & t & -> & Hl & Ht). apply parses_bind, parses_spaces. intros r s2 -> Hr _.
  apply (Hk v (l ++ t ++ r)); [by rewrite <- !app_assoc| |by constructor].
  apply (utf8_strip r); [by apply spaces_utf8|done].
Qed.

Lemma array_sound fuel items s :
  utf8 s → length s < fuel → parses json_error (array_loop input item fuel items) s (λ vs s',
    utf8 s' ∧ ∃ t ws, s = t ++ s' ∧ elements inner t ws ∧ vs = items ++ ws).
Proof.
  revert items s. induction fuel as [|fuel IH]; intros items s Hu Hf; [lia|]. cbn [array_loop].
  apply parses_slot; [apply cells_sized|]. apply element_sound; [done|]. intros v t s' -> Hu' Ht.
  apply parses_peek. destruct s' as [|b s']; cbn [head].
  { apply parses_ret. split; [done|]. exists t, [v]. split_and!; [done|by constructor|done]. }
  case_bool_decide as Hb.
  - injection Hb as ->. apply parses_bind, parses_bump. eapply parses_weaken; [apply IH|].
    + by apply utf8_tail in Hu'.
    + rewrite length_app in Hf. simpl in Hf. lia.
    + intros vs s2 (Hu2 & t2 & ws & -> & Hws & ->). split; [done|]. exists (t ++ 44%Z :: t2), (v :: ws).
      split_and!; [by rewrite <- app_assoc|by constructor|by rewrite <- app_assoc].
  - apply parses_ret. split; [done|]. exists t, [v]. split_and!; [done|by constructor|done].
Qed.

Lemma object_sound fuel entries s :
  utf8 s → length s < fuel → parses json_error (object_loop input item fuel entries) s (λ es s',
    utf8 s' ∧ ∃ t ws, s = t ++ s' ∧ json_members inner t ws ∧ es = entries ++ ws).
Proof.
  revert entries s. induction fuel as [|fuel IH]; intros entries s Hu Hf; [lia|]. cbn [object_loop].
  apply parses_slot; [apply cells_sized|]. apply parses_bind, parses_spaces. intros l s1 -> Hl _.
  apply utf8_strip in Hu; [|by apply spaces_utf8]. apply parses_bind. eapply parses_weaken; [by apply string_token_sound|].
  intros key s2 (Hu2 & raw & -> & Hkey). apply parses_bind, parses_spaces. intros m s3 -> Hm _.
  apply utf8_strip in Hu2; [|by apply spaces_utf8]. apply parses_bind, parses_expect.
  destruct s3 as [|b s3]; [done|]. case_bool_decide; [subst b|done].
  apply utf8_tail in Hu2; [|lia]. apply element_sound; [done|]. intros v t s4 -> Hu4 Ht.
  assert (json_member inner (l ++ 34%Z :: raw ++ 34%Z :: m ++ 58%Z :: t) (key, v)) as Hmem by by constructor.
  assert (∀ es s5, (utf8 s5 ∧ ∃ t2 ws, s4 = 44%Z :: t2 ++ s5 ∧ json_members inner t2 ws ∧ es = (entries ++ [(key, v)]) ++ ws) →
    utf8 s5 ∧ ∃ t0 ws, l ++ 34%Z :: raw ++ 34%Z :: m ++ 58%Z :: t ++ s4 = t0 ++ s5 ∧
      json_members inner t0 ws ∧ es = entries ++ ws) as Hmore.
  { intros es s5 (Hu5 & t2 & ws & -> & Hws & ->). split; [done|].
    exists ((l ++ 34%Z :: raw ++ 34%Z :: m ++ 58%Z :: t) ++ 44%Z :: t2), ((key, v) :: ws).
    split_and!; [|by constructor|by rewrite <- app_assoc]. by repeat (rewrite <- app_assoc; cbn [app]). }
  assert (utf8 s4 ∧ ∃ t0 ws, l ++ 34%Z :: raw ++ 34%Z :: m ++ 58%Z :: t ++ s4 = t0 ++ s4 ∧
      json_members inner t0 ws ∧ entries ++ [(key, v)] = entries ++ ws) as Hlast.
  { split; [done|]. exists (l ++ 34%Z :: raw ++ 34%Z :: m ++ 58%Z :: t), [(key, v)].
    split_and!; [|by constructor|done]. by repeat (rewrite <- app_assoc; cbn [app]). }
  apply parses_peek. destruct s4 as [|b s4]; cbn [head]; [by apply parses_ret|].
  case_bool_decide as Hb; [|by apply parses_ret]. injection Hb as ->. apply parses_bind, parses_bump.
  eapply parses_weaken; [apply IH|].
  - by apply utf8_tail in Hu4.
  - rewrite !length_app in Hf. simpl in Hf. rewrite !length_app in Hf. simpl in Hf. rewrite !length_app in Hf. simpl in Hf.
    rewrite !length_app in Hf. simpl in Hf. lia.
  - intros es s5 (Hu5 & t2 & ws & -> & Hws & ->). apply Hmore. split; [done|]. eauto.
Qed.
End Sound.

(** *** Keys of an object *)

Lemma elements_length s vs : elements inner s vs → length vs ≤ S (length s).
Proof. induction 1; simpl; rewrite ?length_app; simpl; lia. Qed.

Lemma members_length s es : json_members inner s es → length es ≤ S (length s).
Proof. induction 1; simpl; rewrite ?length_app; simpl; lia. Qed.

Section Complete.
Context (E : Abort → Prop).
Context (Hitem : ∀ l t v s (Q : Value → str → Prop),
  spaces_text l → inner t v → stops is_number_byte s → Q v s → parses E item (l ++ t ++ s) Q).

Lemma element_complete {A} (k : Value → Reader A) t v x s Q :
  element inner t v → is_json_space x = false → is_number_byte x = false → parses E (k v) (x :: s) Q →
  parses E (rd* v := item in json_whitespace input >>> k v) (t ++ x :: s) Q.
Proof.
  intros Ht Hx Hn Hk. destruct Ht as [l t r v Hl Ht Hr]. rewrite <- !app_assoc.
  apply parses_bind, (Hitem l t v); [done|done|by apply blank_follows|]. by apply parses_bind, parses_blank.
Qed.

Lemma array_complete fuel items t vs s :
  elements inner t vs → length (t ++ 93%Z :: s) < fuel →
  parses E (array_loop input item fuel items) (t ++ 93%Z :: s) (λ us s', us = items ++ vs ∧ s' = 93%Z :: s).
Proof.
  intros Ht. revert fuel items. induction Ht as [t v Ht|t v t2 vs Ht Hvs IH]; intros fuel items Hf;
    (destruct fuel as [|fuel]; [lia|]); cbn [array_loop]; (apply parses_slot; [apply cells_sized|]).
  - apply element_complete with (t := t) (v := v); [done..|]. by apply parses_peek, parses_ret.
  - rewrite <- app_assoc. cbn [app]. apply element_complete with (t := t) (v := v); [done..|].
    apply parses_peek. cbn [head]. rewrite bool_decide_true by done. apply parses_bind, parses_bump.
    eapply parses_weaken; [apply IH; rewrite !length_app in *; simpl in *; lia|].
    intros us s' [-> ->]. by rewrite <- app_assoc.
Qed.

Lemma member_complete {A} entries t key v x s (Q : A → str → Prop) (k : list Entry → Reader A) :
  json_member inner t (key, v) → is_json_space x = false → is_number_byte x = false →
  parses E (k (entries ++ [(key, v)])) (x :: s) Q →
  parses E (retain_slot size_of_entry >>> json_whitespace input >>> rd* key := json_string input in
    json_whitespace input >>> expect_byte input 58 >>> rd* value := item in
    json_whitespace input >>> k (entries ++ [(key, value)])) (t ++ x :: s) Q.
Proof.
  intros Hm Hx Hn Hk. inv Hm. apply parses_slot; [apply cells_sized|].
  repeat (rewrite <- app_assoc; cbn [app]). apply parses_bind, parses_blank; [done|done|].
  apply parses_bind. eapply string_token_complete; [eassumption|]. apply parses_bind, parses_blank; [done|done|].
  apply parses_bind, parses_found.
  apply (element_complete (λ value, k (entries ++ [(key, value)])) s0 v x s); done.
Qed.

Lemma object_complete fuel entries t es s :
  json_members inner t es → length (t ++ 125%Z :: s) < fuel →
  parses E (object_loop input item fuel entries) (t ++ 125%Z :: s) (λ us s', us = entries ++ es ∧ s' = 125%Z :: s).
Proof.
  intros Ht. revert fuel entries. induction Ht as [t [key v] Ht|t [key v] t2 es Ht Hes IH]; intros fuel entries Hf;
    (destruct fuel as [|fuel]; [lia|]); cbn [object_loop].
  - apply (member_complete entries t key v 125 s _ (λ es, rd* byte := peek input in
      if bool_decide (byte = Some 44%Z) then bump input >>> object_loop input item fuel es else rret es)); [done..|].
    by apply parses_peek, parses_ret.
  - rewrite <- app_assoc. cbn [app].
    apply (member_complete entries t key v 44 (t2 ++ 125%Z :: s) _ (λ es, rd* byte := peek input in
      if bool_decide (byte = Some 44%Z) then bump input >>> object_loop input item fuel es else rret es)); [done..|].
    apply parses_peek. cbn [head]. rewrite bool_decide_true by done. apply parses_bind, parses_bump.
    eapply parses_weaken; [apply IH; rewrite !length_app in *; simpl in *; lia|].
    intros us s' [-> ->]. by rewrite <- app_assoc.
Qed.
End Complete.
End Containers.

Lemma adjacent_repeat_None keys :
  StronglySorted (leP bytes_le) keys → adjacent_repeat keys = None ↔ NoDup keys.
Proof.
  induction 1 as [|a keys Hs IH Hall]; [split; [constructor|done]|].
  destruct keys as [|b keys]; [split; [intros; by apply NoDup_singleton|done]|]. cbn [adjacent_repeat].
  rewrite NoDup_cons. destruct (str_eqb a b) eqn:Hab.
  - apply str_eqb_eq in Hab as ->. split; [done|]. intros [Hn _]. destruct Hn. by left.
  - rewrite IH. split; [intros Hd; split; [|done]|by intros [_ ?]]. intros [->|Hin]%elem_of_cons.
    { by rewrite (proj2 (str_eqb_eq b b)) in Hab. }
    apply Forall_cons_1 in Hall as [Hle _]. apply StronglySorted_inv in Hs as [_ Hs].
    rewrite list.Forall_forall in Hs. specialize (Hs a Hin).
    rewrite (bytes_le_antisym a b Hle Hs) in Hab. by rewrite (proj2 (str_eqb_eq b b)) in Hab.
Qed.

Lemma parses_entries E (entries : list Entry) s (Q : Value → str → Prop) :
  length entries ≤ S (length input) →
  (NoDup entries.*1 → Q (VRecord entries) s) → ((∀ e, json_error e → E e) ∨ NoDup entries.*1) →
  parses E (reval (unique_entries entries)) s Q.
Proof.
  intros Hlen HQ Hx.
  destruct (sorted_record_indices_ok (ask := ask) (S (length input)) entries.*1 Hask) as (ks & Hks & Hord).
  { by rewrite length_fmap. }
  assert (∀ r, computes (match adjacent_repeat (sort_by bytes_le entries.*1) with
    | Some key => throw (json_failure (bs "DATA018")
      (bs "JSON object repeated key " ++ [34%Z] ++ json_key_excerpt key ++ [34%Z]))
    | None => ret (VRecord entries) end) r → computes (unique_entries entries) r) as Hgo.
  { intros r Hr. unfold unique_entries. eapply computes_bind_ok; [exact Hks|].
    eapply computes_bind_ok; [apply repeated_key_computes|by rewrite (ordered_keys _ _ Hord)].
    destruct Hord as [Hp _]. rewrite Hp. apply list.Forall_forall. intros i [_ Hi]%elem_of_seq. lia. }
  assert (StronglySorted (leP bytes_le) (sort_by bytes_le entries.*1)) as Hsorted.
  { apply sort_by_sorted; [apply bytes_le_total|apply bytes_le_trans]. }
  pose proof (adjacent_repeat_None _ Hsorted) as Hnone.
  assert (NoDup (sort_by bytes_le entries.*1) ↔ NoDup entries.*1) as Hnd by (by rewrite sort_by_perm).
  rewrite Hnd in Hnone.
  intros st Hs. destruct (adjacent_repeat (sort_by bytes_le entries.*1)) as [key|].
  - eexists (Err _). split; [eapply computes_bind_err, Hgo, computes_throw|].
    destruct Hx as [Hx|Hx]; [|by apply Hnone in Hx]. apply Hx. eexists _, _. split; [|done]. by do 2 right; left.
  - exists (Ok (VRecord entries, st)). split; [eapply computes_bind_ok; [apply Hgo, computes_ret|apply computes_ret]|].
    rewrite Hs. by apply HQ, Hnone.
Qed.

(** *** Values and documents *)

(** How a value begins. *)
Lemma layer_head (inner : str → Value → Prop) t v :
  layer inner t v →
  ∃ b t', t = b :: t' ∧ is_json_space b = false ∧
    ((b =? 45)%Z || ((48 <=? b) && (b <=? 57))%Z = true ∧ token_reads t v ∨
     b ∈ [110; 116; 102; 34; 91; 123]%Z).
Proof.
  destruct 1 as [| | |token v Ht| | | | |];
    try (eexists _, _; (split; [reflexivity|]); split; [reflexivity|]; right; rewrite !elem_of_cons; by auto 10).
  destruct token as [|b token]; [by destruct Ht as [(_ & b & [=] & _) _]|].
  pose proof Ht as [(_ & b' & [= <-] & Hb) _].
  change (bs "-0123456789") with [45; 48; 49; 50; 51; 52; 53; 54; 55; 56; 57]%Z in Hb.
  rewrite !elem_of_cons, elem_of_nil in Hb. exists b, token. split; [done|]. split.
  - unfold is_json_space. bool_to_prop. lia.
  - left. split; [|done]. bool_to_prop. lia.
Qed.

Section Brackets.
Context (inner : str → Value → Prop) (item : Reader Value).

Lemma element_blank l t v : spaces_text l → element inner t v → element inner (l ++ t) v.
Proof. intros Hl [l' s r w Hl' Hs Hr]. rewrite app_assoc. constructor; [by apply Forall_app|done..]. Qed.

Lemma elements_blank l t vs : spaces_text l → elements inner t vs → elements inner (l ++ t) vs.
Proof. intros Hl []; rewrite ?app_assoc; constructor; auto using element_blank. Qed.

Lemma members_blank l t es : spaces_text l → json_members inner t es → json_members inner (l ++ t) es.
Proof.
  assert (∀ t e, spaces_text l → json_member inner t e → json_member inner (l ++ t) e) as Hm.
  { intros t0 e Hl [l' raw key m s v]. rewrite app_assoc. constructor; [by apply Forall_app|done..]. }
  intros Hl []; rewrite ?app_assoc; constructor; auto.
Qed.

Section Sound.
Context (Hitem : ∀ s, utf8 s → parses json_error item s (λ v s',
  utf8 s' ∧ ∃ l t, s = l ++ t ++ s' ∧ spaces_text l ∧ inner t v)).

(** What [m] reads before the closing bracket, the last thing to check. *)
Lemma closing_sound {A} b (m : Reader A) (k : A → Reader Value) s (P : A → str → Prop) Q :
  (0 ≤ b < 0x80)%Z → utf8 s →
  parses json_error m s (λ a s', utf8 s' ∧ P a s') →
  (∀ a s', utf8 s' → P a (b :: s') → parses json_error (k a) s' Q) →
  parses json_error (rd* a := m in expect_byte input b >>> k a) s Q.
Proof.
  intros Hb Hu Hm Hk. apply parses_bind. eapply parses_weaken; [exact Hm|]. intros a s' [Hs' HP].
  apply parses_bind, parses_expect. destruct s' as [|x s']; [done|]. case_bool_decide; [subst x|done].
  apply Hk; [|done]. apply utf8_tail in Hs'; [done|lia].
Qed.

Lemma array_value_sound s :
  utf8 (91%Z :: s) → parses json_error (json_array input item) (91%Z :: s) (λ v s',
    utf8 s' ∧ ∃ t, 91%Z :: s = t ++ s' ∧ layer inner t v).
Proof.
  intros Hu. apply parses_length. intros Hl. simpl in Hl. apply utf8_tail in Hu; [|lia].
  apply parses_bind, parses_found, parses_bind, parses_spaces. intros l s1 -> Hsp _.
  apply utf8_strip in Hu; [|by apply spaces_utf8]. rewrite length_app in Hl. apply parses_peek.
  apply (closing_sound _ _ _ _ (λ vs s', (s1 = s' ∧ head s1 = Some 93%Z ∧ vs = []) ∨ ∃ t, s1 = t ++ s' ∧ elements inner t vs));
    [lia|done| |].
  - case_bool_decide as Hb; [apply parses_ret; by auto|].
    eapply parses_weaken; [apply array_sound; [exact Hitem|done|lia]|].
    intros vs s' (Hu' & t & ws & -> & Hws & ->). split; [done|]. right. by exists t.
  - intros vs s' Hu' [(-> & _ & ->)|(t & -> & Ht)]; apply parses_ret; (split; [done|]).
    + exists (91%Z :: l ++ [93%Z]). split; [by rewrite <- app_comm_cons, <- app_assoc|by constructor].
    + exists (91%Z :: (l ++ t) ++ [93%Z]). split; [by rewrite <- app_comm_cons, <- !app_assoc|].
      apply layer_array. by apply elements_blank.
Qed.

Lemma object_value_sound s :
  utf8 (123%Z :: s) → parses json_error (json_object input item) (123%Z :: s) (λ v s',
    utf8 s' ∧ ∃ t, 123%Z :: s = t ++ s' ∧ layer inner t v).
Proof.
  intros Hu. apply parses_length. intros Hl. simpl in Hl. apply utf8_tail in Hu; [|lia].
  apply parses_bind, parses_found, parses_bind, parses_spaces. intros l s1 -> Hsp _.
  apply utf8_strip in Hu; [|by apply spaces_utf8]. rewrite length_app in Hl. apply parses_peek.
  apply (closing_sound _ _ _ _ (λ es s', (s1 = s' ∧ es = []) ∨ ∃ t, s1 = t ++ s' ∧ json_members inner t es)); [lia|done| |].
  - case_bool_decide as Hb; [apply parses_ret; by auto|].
    eapply parses_weaken; [apply object_sound; [exact Hitem|done|lia]|].
    intros es s' (Hu' & t & ws & -> & Hws & ->). split; [done|]. right. by exists t.
  - intros es s' Hu' [(-> & ->)|(t & -> & Ht)].
    + apply parses_entries; [simpl; lia| |by left]. intros _. split; [done|].
      exists (123%Z :: l ++ [125%Z]). split; [by rewrite <- app_comm_cons, <- app_assoc|by constructor].
    + pose proof (members_length _ _ _ Ht) as Hlen. rewrite !length_app in Hl. apply parses_entries; [lia| |by left].
      intros Hn. split; [done|]. exists (123%Z :: (l ++ t) ++ [125%Z]).
      split; [by rewrite <- app_comm_cons, <- !app_assoc|]. apply layer_object; [by apply members_blank|done].
Qed.
End Sound.

Section Complete.
Context (E : Abort → Prop).
Context (Hitem : ∀ l t v s (Q : Value → str → Prop),
  spaces_text l → inner t v → stops is_number_byte s → Q v s → parses E item (l ++ t ++ s) Q).

Context (Hinner : ∀ t v, inner t v → ∃ b t', t = b :: t' ∧ is_json_space b = false ∧ b ≠ 93%Z).

(** The blanks before the first item apart. *)
Lemma elements_strip t vs :
  elements inner t vs →
  ∃ l b t', t = l ++ b :: t' ∧ spaces_text l ∧ is_json_space b = false ∧ b ≠ 93%Z ∧ elements inner (b :: t') vs.
Proof.
  assert (∀ t v, element inner t v → ∃ l b t', t = l ++ b :: t' ∧ spaces_text l ∧ is_json_space b = false ∧
    b ≠ 93%Z ∧ element inner (b :: t') v) as Hone.
  { intros t0 _ [l s r v Hl Hs Hr]. destruct (Hinner _ _ Hs) as (b & t' & -> & Hb & Hne).
    exists l, b, (t' ++ r). split_and!; try done. apply (element_intro _ [] (b :: t') r v); [constructor|done..]. }
  intros [s v Hs|s v t2 vs2 Hs Ht2]; destruct (Hone _ _ Hs) as (l & b & t' & -> & Hl & Hb & Hne & He).
  - exists l, b, t'. split_and!; try done. by constructor.
  - exists l, b, (t' ++ 44%Z :: t2). split_and!; try done; [by rewrite <- app_assoc|]. rewrite app_comm_cons. by constructor.
Qed.

Lemma members_strip t es :
  json_members inner t es → ∃ l t', t = l ++ 34%Z :: t' ∧ spaces_text l ∧ json_members inner (34%Z :: t') es.
Proof.
  assert (∀ t e, json_member inner t e → ∃ l t', t = l ++ 34%Z :: t' ∧ spaces_text l ∧ json_member inner (34%Z :: t') e) as Hone.
  { intros t0 _ [l raw key m s v Hl Hr Hm Hs]. eexists l, _. split_and!; [done|done|].
    apply (member_intro _ [] raw key m s v); [constructor|done..]. }
  intros [s e Hs|s e t2 es2 Hs Ht2]; destruct (Hone _ _ Hs) as (l & t' & -> & Hl & He).
  - exists l, t'. split_and!; try done. by constructor.
  - exists l, (t' ++ 44%Z :: t2). split_and!; try done; [by rewrite <- app_assoc|]. rewrite app_comm_cons. by constructor.
Qed.

Lemma array_complete_value t vs s (Q : Value → str → Prop) :
  spaces_text t ∧ vs = [] ∨ elements inner t vs → Q (VList vs) s →
  parses E (json_array input item) (91%Z :: t ++ 93%Z :: s) Q.
Proof.
  intros Ht HQ. apply parses_length. intros Hlen. apply parses_bind, parses_found, parses_bind.
  destruct Ht as [[Ht ->]|Ht].
  - apply parses_blank; [done|done|]. apply parses_peek, parses_bind. cbn [head].
    rewrite bool_decide_true by done. by apply parses_ret, parses_bind, parses_found, parses_ret.
  - destruct (elements_strip _ _ Ht) as (l & b & t' & -> & Hl & Hb & Hne & Hes). rewrite <- app_assoc.
    apply parses_blank; [done|done|]. apply parses_peek, parses_bind. cbn [app head].
    rewrite bool_decide_false by congruence. eapply parses_weaken.
    + apply (array_complete inner item E Hitem (length input) [] (b :: t') vs s); [done|].
      length_lia.
    + intros us s' [-> ->]. by apply parses_bind, parses_found, parses_ret.
Qed.

Lemma object_complete_value t es s (Q : Value → str → Prop) :
  spaces_text t ∧ es = [] ∨ json_members inner t es → NoDup es.*1 → Q (VRecord es) s →
  parses E (json_object input item) (123%Z :: t ++ 125%Z :: s) Q.
Proof.
  intros Ht Hn HQ. apply parses_length. intros Hlen. apply parses_bind, parses_found, parses_bind.
  destruct Ht as [[Ht ->]|Ht].
  - apply parses_blank; [done|done|]. apply parses_peek, parses_bind. cbn [head].
    rewrite bool_decide_true by done. apply parses_ret, parses_bind, parses_found, parses_entries; [simpl; lia|done|by right].
  - pose proof (members_length _ _ _ Ht) as Hm.
    destruct (members_strip _ _ Ht) as (l & t' & -> & Hl & Hes). rewrite <- app_assoc.
    apply parses_blank; [done|done|]. apply parses_peek, parses_bind. cbn [app head].
    rewrite bool_decide_false by done. eapply parses_weaken.
    + apply (object_complete inner item E Hitem (length input) [] (34%Z :: t') es s); [done|].
      length_lia.
    + intros us s' [-> ->]. apply parses_bind, parses_found, parses_entries; [length_lia|done|by right].
Qed.
End Complete.
End Brackets.

Lemma value_sound levels s :
  utf8 s → parses json_error (json_value input levels) s (λ (v : Value) s',
    utf8 s' ∧ ∃ l t, s = l ++ t ++ s' ∧ spaces_text l ∧ json_text levels t v).
Proof.
  revert s. induction levels as [|levels IH]; intros s Hu; cbn [json_value]; apply parses_visit, parses_bind, parses_spaces;
    intros l s1 -> Hl _.
  { apply parses_throw. eexists _, _. split; [|done]. by right; left. }
  apply utf8_strip in Hu; [|by apply spaces_utf8].
  (** What is read after the blanks. *)
  apply (parses_weaken _ _ _ (λ (v : Value) s', utf8 s' ∧ ∃ t, s1 = t ++ s' ∧ json_text (S levels) t v)).
  2: { intros v s' (Hu' & t & -> & Ht). split; [done|]. by exists l, t. }
  cbn [json_text]. apply parses_peek. destruct s1 as [|b s1]; cbn [head]; [by apply parses_malformed|].
  assert (∀ expected v, utf8 expected → layer (json_text levels) expected v →
    parses json_error (json_literal input expected >>> rret v) (b :: s1)
      (λ (v : Value) s', utf8 s' ∧ ∃ t, b :: s1 = t ++ s' ∧ layer (json_text levels) t v)) as Hlit.
  { intros expected v He Hv. apply parses_bind, literal_reads; [|by left]. intros t _ s' Hs ->. apply parses_ret.
    split; [|by exists expected]. rewrite Hs in Hu. by apply utf8_strip in Hu. }
  repeat case_match; bool_to_prop; subst.
  - apply Hlit; [by apply utf8b_spec|constructor].
  - apply Hlit; [by apply utf8b_spec|constructor].
  - apply Hlit; [by apply utf8b_spec|constructor].
  - apply parses_bind. eapply parses_weaken; [by apply string_token_sound|]. intros text s' (Hu' & raw & -> & Ht).
    apply parses_ret. split; [done|]. exists (34%Z :: raw ++ [34%Z]). split; [by rewrite <- app_comm_cons, <- app_assoc|by constructor].
  - by apply parses_container, array_value_sound.
  - by apply parses_container, object_value_sound.
  - apply parses_number. intros token s' Hs Htok Hstop. destruct (read_number token ≫= number_value) as [v|] eqn:Hv; [|done].
    rewrite Hs in Hu. apply utf8_strip in Hu; [|by apply number_utf8]. split; [done|]. exists token. split; [done|].
    apply bind_Some in Hv as (n & Hn & Hv). apply layer_number. split; [|by exists n]. split; [done|].
    destruct token as [|b' token]; [simpl in Hs; subst s'; unfold is_number_byte in Hstop; simpl in Hstop; bool_to_prop; lia|].
    injection Hs as <- _. exists b. split; [done|].
    change (bs "-0123456789") with [45; 48; 49; 50; 51; 52; 53; 54; 55; 56; 57]%Z. rewrite !elem_of_cons. lia.
  - by apply parses_malformed.
Qed.

Lemma json_text_head levels t (v : Value) :
  json_text levels t v → ∃ b t', t = b :: t' ∧ is_json_space b = false ∧ b ≠ 93%Z.
Proof.
  destruct levels; [done|]. intros (b & t' & -> & Hb & Hor)%layer_head. exists b, t'. split_and!; [done..|].
  intros ->. destruct Hor as [[? _]|Hin]; [done|]. rewrite !elem_of_cons, elem_of_nil in Hin. lia.
Qed.

Lemma number_complete E token v s (Q : Value → str → Prop) :
  token_reads token v → stops is_number_byte s → Q v s → parses E (json_number input) (token ++ s) Q.
Proof.
  intros [[Hbytes _] (n & Hn & Hv)] Hs HQ. apply parses_number. intros token' s' He Hbytes' Hs'.
  assert (token = token' ∧ s = s') as [<- <-].
  { apply (split_unique is_number_byte); try done; eapply Forall_impl; try done; intros b; apply number_byte_spec. }
  rewrite Hn. simpl. by rewrite Hv.
Qed.

Lemma value_complete E levels l t (v : Value) s (Q : Value → str → Prop) :
  spaces_text l → json_text levels t v → stops is_number_byte s → Q v s →
  parses E (json_value input levels) (l ++ t ++ s) Q.
Proof.
  revert l t v s Q. induction levels as [|levels IH]; intros l t v s Q Hl Ht Hs HQ; [done|]. cbn [json_value].
  apply parses_visit, parses_bind, parses_blank; [done| |].
  { by destruct (json_text_head _ _ _ Ht) as (b & t' & -> & Hb & _). }
  cbn [json_text] in Ht. apply parses_peek.
  assert (∀ expected, t = expected → parses E (json_literal input expected >>> rret v) (t ++ s) Q) as Hlit.
  { intros expected ->. apply parses_bind, literal_reads; [|right; by eexists expected, tt, s].
    intros t' _ s' He ->. apply app_inv_head in He as <-. by apply parses_ret. }
  destruct Ht as [| | |token v Ht|raw text Ht|t Ht|t vs Ht|t Ht|t es Ht Hn]; cbn [app head Z.eqb].
  - by apply Hlit.
  - by apply Hlit.
  - by apply Hlit.
  - pose proof Ht as [[_ (b & Hb & Hin)] _]. destruct token as [|b' token]; [done|]. injection Hb as ->. cbn [app head].
    assert (parses E (json_number input) ((b :: token) ++ s) Q) as Hnum by (by eapply number_complete).
    change (bs "-0123456789") with [45; 48; 49; 50; 51; 52; 53; 54; 55; 56; 57]%Z in Hin.
    repeat (apply elem_of_cons in Hin as [->|Hin]; [exact Hnum|]). by apply elem_of_nil in Hin.
  - apply parses_bind. rewrite <- app_assoc. eapply string_token_complete; [done|]. by apply parses_ret.
  - rewrite <- app_assoc. eapply parses_container, array_complete_value; eauto using json_text_head.
  - rewrite <- app_assoc. eapply parses_container, array_complete_value; eauto using json_text_head.
  - rewrite <- app_assoc. eapply parses_container, object_complete_value; eauto using NoDup_nil_2.
  - rewrite <- app_assoc. eapply parses_container, object_complete_value; eauto.
Qed.

Lemma document_sound s :
  utf8 s → parses json_error (json_document input) s (λ (v : Value) s', s' = [] ∧ document s v).
Proof.
  intros Hu. apply parses_bind. eapply parses_weaken; [by apply value_sound|].
  intros v s1 (_ & l & t & -> & Hl & Ht). apply parses_bind, parses_spaces. intros r s2 -> Hr _.
  apply parses_peek. destruct s2; cbn [head]; [|by apply parses_malformed].
  apply parses_ret. rewrite app_nil_r. split; [done|]. by constructor.
Qed.

Lemma document_complete E s (v : Value) :
  document s v → parses E (json_document input) s (λ w s', w = v ∧ s' = []).
Proof.
  intros [l t r w Hl Ht Hr]. apply parses_bind. eapply value_complete; [done|done| |].
  { destruct Hr as [|b r Hb Hr]; simpl; [done|]. rewrite !elem_of_cons, elem_of_nil in Hb.
    unfold is_number_byte. bool_to_prop. lia. }
  apply parses_bind. rewrite <- (app_nil_r r). apply parses_blank; [done|done|]. by apply parses_peek, parses_ret.
Qed.
End Decoding.

(** ** Decoding *)

(** What a document of so many bytes may ask for at once. *)
Definition json_ask `{C : Control} (input : str) : N := 4096 + N.of_nat (S (length input)) * cell.

Section Documents.
Context {RuntimeError : Type} `{D : DataLibraries} `{C : Control}.
Notation Value := (Value RuntimeError).
Notation Entry := (str * Value)%type.

(** What decoding may answer: a refusal for the size, one for the encoding, a
    value of the document, or an error for its syntax. *)
Definition decode_outcome (input : str) (r : res Abort Value) : Prop :=
  if (MAX_JSON_INPUT <? Z.of_nat (length input))%Z
  then r = Err (json_failure (bs "DATA014") (bs "JSON input exceeds 8 MiB"))
  else
    match from_utf8 input with
    | Utf8Error offset _ =>
      r = Err (json_failure (bs "DATA015") (bs "invalid JSON UTF8 at byte " ++ show_int (Z.of_nat offset)))
    | Utf8Ok _ => match r with Ok v => document input v | Err e => json_error e | Panic => False end
    end.

(** *** Documents are text *)

Lemma encode_char_utf8 c : is_scalar c = true → utf8 (encode_char c).
Proof. intros Hc. rewrite <- (app_nil_r (encode_char c)). apply (utf8_encode [c]). by constructor. Qed.

Lemma string_text_utf8 raw text : string_text raw text → utf8 raw.
Proof.
  induction 1 as [|c raw text Hc _ _ _ _ IH|e c raw text He _ IH]; [constructor|..].
  - by apply utf8_app; [apply encode_char_utf8|].
  - destruct (escape_ascii _ _ He) as [Ha _]. rewrite app_comm_cons. apply utf8_app; [|done].
    apply ascii_utf8. constructor; [lia|done].
Qed.

Lemma utf8_ascii_cons b s : (0 ≤ b < 0x80)%Z → utf8 s → utf8 (b :: s).
Proof. intros Hb Hs. apply (utf8_app [b]); [|done]. apply ascii_utf8. constructor; [done|constructor]. Qed.

Section Levels.
Context (inner : str → Value → Prop) (Hinner : ∀ t v, inner t v → utf8 t).

Lemma element_utf8 t v : element inner t v → utf8 t.
Proof. intros []. eauto 10 using utf8_app, spaces_utf8. Qed.

Lemma elements_utf8 t vs : elements inner t vs → utf8 t.
Proof. induction 1; [by eapply element_utf8|]. apply utf8_app; [by eapply element_utf8|]. by apply utf8_ascii_cons. Qed.

Lemma member_utf8 t e : json_member inner t e → utf8 t.
Proof.
  intros []. apply utf8_app; [by apply spaces_utf8|]. apply utf8_ascii_cons; [lia|].
  apply utf8_app; [by eapply string_text_utf8|]. apply utf8_ascii_cons; [lia|].
  apply utf8_app; [by apply spaces_utf8|]. apply utf8_ascii_cons; [lia|]. by eapply element_utf8.
Qed.

Lemma members_utf8 t es : json_members inner t es → utf8 t.
Proof. induction 1; [by eapply member_utf8|]. apply utf8_app; [by eapply member_utf8|]. by apply utf8_ascii_cons. Qed.

Lemma layer_utf8 t v : layer inner t v → utf8 t.
Proof.
  assert (∀ a b t, (0 ≤ a < 0x80)%Z → (0 ≤ b < 0x80)%Z → utf8 t → utf8 (a :: t ++ [b])) as Hb.
  { intros a b t0 Ha Hb Ht. apply utf8_ascii_cons; [done|]. apply utf8_app; [done|]. apply utf8_ascii_cons; [done|constructor]. }
  destruct 1 as [| | |token v [[Ht _] _]| | | | |]; try (by apply utf8b_spec); [by apply number_utf8|apply Hb; try lia..];
    eauto using string_text_utf8, spaces_utf8, elements_utf8, members_utf8.
Qed.
End Levels.

Lemma json_text_utf8 levels t (v : Value) : json_text levels t v → utf8 t.
Proof. revert t v. induction levels as [|levels IH]; intros t v; [done|]. apply layer_utf8, IH. Qed.

Lemma document_utf8 t (v : Value) : document t v → utf8 t.
Proof. apply element_utf8. apply json_text_utf8. Qed.

(** *** The theorem *)

Lemma document_computes (input : str) E (Q : Value → str → Prop) :
  (utf8 input → parses (ask := json_ask input) input E (json_document input) input Q) →
  ∃ r, computes (json_ask input) (json_decode [VBytes input]) r ∧
    if (MAX_JSON_INPUT <? Z.of_nat (length input))%Z
    then r = Err (json_failure (bs "DATA014") (bs "JSON input exceeds 8 MiB"))
    else match from_utf8 input with
         | Utf8Error offset _ =>
           r = Err (json_failure (bs "DATA015") (bs "invalid JSON UTF8 at byte " ++ show_int (Z.of_nat offset)))
         | Utf8Ok _ => match r with Ok v => ∃ s, Q v s | Err e => E e | Panic => False end
         end.
Proof.
  intros Hdoc. unfold json_decode, decode_document.
  destruct (MAX_JSON_INPUT <? Z.of_nat (length input))%Z.
  { eexists. split; [|done]. apply computes_check, computes_throw. }
  pose proof (validate_chunks_runs (λ offset, json_failure (bs "DATA015")
    (bs "invalid JSON UTF8 at byte " ++ show_int (Z.of_nat offset))) (length input) input 0) as Hv.
  destruct (from_utf8 input) as [cs|offset len] eqn:Hu.
  - destruct (from_utf8_ok _ _ Hu) as [Hu8 _]. destruct (Hdoc Hu8 (mkDecoder 0 0 0) eq_refl) as (r & Hr & Hq).
    exists (let* ' (value, _) := r in Ok value)%res. split.
    + apply computes_check. eapply computes_bind_ok; [eapply computes_of; [apply Hv; [lia|constructor|lia]|simpl; lia]|].
      eapply computes_bind; [exact Hr|]. intros [v st] ->. apply computes_ret.
    + destruct r as [[v st]|e|]; simpl; eauto.
  - eexists. split; [|done]. apply computes_check. eapply computes_bind_err.
    eapply computes_of; [apply Hv; [lia|constructor|lia]|simpl; lia].
Qed.

Lemma json_ask_holds input : holds (json_ask input) (S (length input)).
Proof. unfold holds, json_ask. lia. Qed.

Lemma decode_accepts (input : str) (v : Value) :
  document input v → (Z.of_nat (length input) ≤ MAX_JSON_INPUT)%Z →
  computes (json_ask input) (json_decode [VBytes input]) (Ok v).
Proof.
  intros Hv Hlen. destruct (document_computes input (λ _, False) (λ w s, w = v ∧ s = [])) as (r & Hr & Hq).
  { intros _. apply document_complete; [apply json_ask_holds|exact Hv]. }
  destruct (Z.ltb_spec MAX_JSON_INPUT (Z.of_nat (length input))); [lia|].
  destruct (from_utf8_utf8 input (document_utf8 _ _ Hv)) as [cs Hu]. rewrite Hu in Hq.
  destruct r as [w|e|]; [|done..]. by destruct Hq as (_ & -> & _).
Qed.

(** C17: std::data::json_decode is exact.  It computes one outcome, unless it is
    stopped by the token, the allocator or the budget: input past 8 MiB and input
    that is not UTF-8 are refused with their own codes; otherwise a value is
    answered only when the whole input is a document of the grammar with that
    value, at most 64 levels deep and no key repeated in an object, every failure
    is a coded syntax error, and nothing panics.  Conversely every such document
    is accepted with its value. *)
Theorem json_decode_exact (input : str) :
  (∃ r, computes (json_ask input) (json_decode [VBytes input]) r ∧ decode_outcome input r) ∧
  ∀ v : Value, document input v → (Z.of_nat (length input) ≤ MAX_JSON_INPUT)%Z →
    computes (json_ask input) (json_decode [VBytes input]) (Ok v).
Proof.
  split.
  - destruct (document_computes input json_error (λ v s, s = [] ∧ document input v)) as (r & Hr & Hq).
    { apply document_sound, json_ask_holds. }
    exists r. split; [done|]. unfold decode_outcome. repeat case_match; naive_solver.
  - intros v Hv Hlen. by apply decode_accepts.
Qed.

(** ** Encoding

    What an encoding denotes: records in the order of their keys, paths as
    text, nominal records and statuses as records, and a float as the one the
    library reads from its text, [read_back], which need not be the same. *)
Context (read_back : FiniteFloat → FiniteFloat).

Definition canonical_fields (canonical : Value → Value) (entries : list Entry) : Value :=
  VRecord (prod_map id canonical <$> sort_by (λ l r, bytes_le l.1 r.1) entries).

Fixpoint canonical (levels : nat) (v : Value) : Value :=
  match levels with
  | 0 => v
  | S levels =>
    match v with
    | VPath p => VString p
    | VFloat f => VFloat (read_back f)
    | VList vs => VList (canonical levels <$> vs)
    | VRecord entries | VNominalRecord _ _ entries => canonical_fields (canonical levels) entries
    | VStatus status => canonical_fields (canonical levels) (status_fields status)
    | v => v
    end
  end.

(** The library writes [text] as a string token that denotes it. *)
Definition quoted (text : str) : Prop :=
  ∃ raw, mjoin (string_writes text) = 34%Z :: raw ++ [34%Z] ∧ string_text raw text.

(** The library reads every integer of [v] back as the one it is and the text of
    every float as [read_back] says, quotes every text of it, and its records are
    records. *)
Definition prints_fields (prints : Value → Prop) (entries : list Entry) : Prop :=
  NoDup entries.*1 ∧ Forall (λ e, quoted e.1 ∧ prints e.2) entries.

Fixpoint prints (levels : nat) (v : Value) : Prop :=
  match levels with
  | 0 => True
  | S levels =>
    match v with
    | VInt i => token_reads (show_int i) (VInt (RuntimeError := RuntimeError) i)
    | VFloat f => ∀ token, float_text f = Some token → token_reads token (VFloat (RuntimeError := RuntimeError) (read_back f))
    | VString s | VPath s => quoted s
    | VList vs => Forall (prints levels) vs
    | VRecord entries | VNominalRecord _ _ entries => prints_fields (prints levels) entries
    | VStatus status => prints_fields (prints levels) (status_fields status)
    | _ => True
    end
  end.

(** The library reads every float of [v] back as the one it is; so it is when [v]
    holds none. *)
Fixpoint floats_kept (levels : nat) (v : Value) : Prop :=
  match levels with
  | 0 => True
  | S levels =>
    match v with
    | VFloat f => read_back f = f
    | VList vs => Forall (floats_kept levels) vs
    | VRecord entries | VNominalRecord _ _ entries => Forall (λ e, floats_kept levels e.2) entries
    | VStatus status => Forall (λ e, floats_kept levels e.2) (status_fields status)
    | _ => True
    end
  end.

Lemma append_ok output bytes out :
  append output bytes = Ok out ↔ out = output ++ bytes ∧ (Z.of_nat (length out) ≤ MAX_DATA_BYTES)%Z.
Proof.
  unfold append. destruct (Z.ltb_spec MAX_DATA_BYTES (Z.of_nat (length output + length bytes))).
  - split; [done|]. intros [-> Hl]. rewrite length_app in Hl. lia.
  - split; [intros [= <-]|by intros [-> _]]. rewrite length_app. auto with lia.
Qed.

Lemma append_all_ok output writes out :
  append_all output writes = Ok out → out = output ++ mjoin writes.
Proof.
  revert output. induction writes as [|bytes writes IH]; intros output; cbn [append_all].
  - intros [= <-]. by rewrite app_nil_r.
  - intros (o & Ho & Hout)%res_bind_ok. apply append_ok in Ho as [-> _].
    rewrite (IH _ Hout). by rewrite <- app_assoc.
Qed.

Section Writes.
Context (encode : Value → str → res ModuleError str) (form : Value → Value) (fits : Value → Prop)
  (inner : str → Value → Prop).
Context (Hencode : ∀ v o out, fits v → encode v o = Ok out → ∃ t, out = o ++ t ∧ inner t (form v)).

Lemma element_plain t v : inner t v → element inner t v.
Proof.
  intros Ht. pose proof (element_intro inner [] t [] v) as H. rewrite app_nil_r in H. apply H; [constructor|done|constructor].
Qed.

Lemma items_written index vs o out :
  Forall fits vs → vs ≠ [] → encode_items encode index vs o = Ok out →
  ∃ t, out = o ++ (if index =? 0 then [] else bs ",") ++ t ∧ elements inner t (form <$> vs).
Proof.
  intros Hvs. revert index o. induction Hvs as [|v vs Hv Hvs IH]; intros index o Hne; [done|]. cbn [encode_items].
  intros (o1 & Ho1 & (o2 & Ho2 & Hout)%res_bind_ok)%res_bind_ok.
  assert (o1 = o ++ (if index =? 0 then [] else bs ",")) as ->.
  { destruct (index =? 0); [injection Ho1 as <-; by rewrite app_nil_r|by apply append_ok in Ho1 as [-> _]]. }
  destruct (Hencode _ _ _ Hv Ho2) as (t & -> & Ht). destruct vs as [|w vs].
  - injection Hout as <-. exists t. rewrite <- !app_assoc. split; [done|]. by apply elements_one, element_plain.
  - destruct (IH (S index) _ ltac:(done) Hout) as (t2 & -> & Ht2). exists (t ++ 44%Z :: t2).
    split; [by rewrite <- !app_assoc|]. apply elements_more; [by apply element_plain|done].
Qed.

Lemma fields_written index entries o out :
  Forall (λ e, quoted e.1 ∧ fits e.2) entries → entries ≠ [] → encode_fields encode index entries o = Ok out →
  ∃ t, out = o ++ (if index =? 0 then [] else bs ",") ++ t ∧ json_members inner t (prod_map id form <$> entries).
Proof.
  intros Hes. revert index o. induction Hes as [|[key v] entries [(raw & Hraw & Hkey) Hv] Hes IH]; intros index o Hne; [done|].
  cbn [encode_fields]. intros (o1 & Ho1 & (o2 & Ho2 & (o3 & Ho3 & (o4 & Ho4 & Hout)%res_bind_ok)%res_bind_ok)%res_bind_ok)%res_bind_ok.
  assert (o1 = o ++ (if index =? 0 then [] else bs ",")) as ->.
  { destruct (index =? 0); [injection Ho1 as <-; by rewrite app_nil_r|by apply append_ok in Ho1 as [-> _]]. }
  apply append_all_ok in Ho2 as ->. apply append_ok in Ho3 as [-> _]. cbn [fst snd] in *. rewrite Hraw in Ho4.
  destruct (Hencode _ _ _ Hv Ho4) as (t & -> & Ht).
  assert (json_member inner (34%Z :: raw ++ 34%Z :: 58%Z :: t) (key, form v)) as Hmem.
  { apply (member_intro inner [] raw key [] t (form v)); [constructor|done|constructor|by apply element_plain]. }
  destruct entries as [|e entries].
  - injection Hout as <-. exists (34%Z :: raw ++ 34%Z :: 58%Z :: t).
    split; [|by apply members_one]. by repeat (rewrite <- app_assoc; cbn [app bs]).
  - destruct (IH (S index) _ ltac:(done) Hout) as (t2 & -> & Ht2). exists ((34%Z :: raw ++ 34%Z :: 58%Z :: t) ++ 44%Z :: t2).
    split; [by repeat (rewrite <- app_assoc; cbn [app bs])|by apply members_more].
Qed.

Lemma sorted_entries_perm (entries : list Entry) : sorted_entries entries ≡ₚ entries.
Proof. apply sort_by_perm. Qed.

Lemma object_written entries o out :
  prints_fields fits entries → encode_object encode entries o = Ok out →
  ∃ t, out = o ++ t ∧ layer inner t (canonical_fields form entries).
Proof.
  intros [Hn Hes] (o1 & Ho1 & (o2 & Ho2 & Hout)%res_bind_ok)%res_bind_ok.
  apply append_ok in Ho1 as [-> _], Hout as [-> _]. unfold canonical_fields.
  change (sort_by _ entries) with (sorted_entries entries).
  rewrite <- (sorted_entries_perm entries) in Hn, Hes.
  destruct (sorted_entries entries) as [|e sorted].
  - injection Ho2 as <-. exists (123%Z :: [] ++ [125%Z]). split; [by rewrite <- !app_assoc|]. apply layer_empty_object. constructor.
  - destruct (fields_written 0 _ _ _ Hes ltac:(done) Ho2) as (t & -> & Ht). exists (123%Z :: t ++ [125%Z]).
    split; [by rewrite <- !app_assoc|]. apply layer_object; [done|].
    assert ((prod_map id form <$> e :: sorted).*1 = (e :: sorted).*1) as ->; [|done].
    rewrite <- list_fmap_compose. by apply list_fmap_ext.
Qed.
End Writes.

Lemma encode_written levels (v : Value) o out :
  prints levels v → encode_json levels v o = Ok out →
  ∃ t, out = o ++ t ∧ json_text levels t (canonical levels v).
Proof.
  revert v o out. induction levels as [|levels IH]; intros v o out Hp He; [done|].
  cbn [encode_json prints canonical json_text] in *.
  destruct v; try discriminate He.
  - apply append_ok in He as [-> _]. eexists. split; [done|constructor].
  - apply append_ok in He as [-> _]. destruct b; eexists; (split; [done|constructor]).
  - apply append_ok in He as [-> _]. eexists. split; [done|by constructor].
  - destruct (float_text f) as [token|]; [|done]. apply append_ok in He as [-> _]. eexists. split; [done|by constructor; auto].
  - apply append_all_ok in He as ->. destruct Hp as (raw & -> & Hraw). eexists. split; [done|by constructor].
  - destruct (utf8b p); [|done]. apply append_all_ok in He as ->. destruct Hp as (raw & -> & Hraw).
    eexists. split; [done|by constructor].
  - apply res_bind_ok in He as (o1 & Ho1 & (o2 & Ho2 & Hout)%res_bind_ok).
    apply append_ok in Ho1 as [-> _], Hout as [-> _]. destruct items as [|v vs].
    + injection Ho2 as <-. exists (91%Z :: [] ++ [93%Z]). split; [by rewrite <- !app_assoc|]. apply layer_empty_array. constructor.
    + destruct (items_written _ _ _ _ IH 0 _ _ _ Hp ltac:(done) Ho2) as (t & -> & Ht). exists (91%Z :: t ++ [93%Z]).
      split; [by rewrite <- !app_assoc|]. by apply layer_array.
  - by eapply object_written.
  - destruct (encodable_nominal id); [|done]. by eapply object_written.
  - destruct (in_i64 (duration s)); [|done]. by eapply object_written.
Qed.
(** *** Encoding again

    The canonical value has the same encoding. *)
Lemma entry_unique {V} (l : list (str * V)) x y : NoDup l.*1 → x ∈ l → y ∈ l → x.1 = y.1 → x = y.
Proof.
  intros Hn [i Hi]%list_elem_of_lookup [j Hj]%list_elem_of_lookup He. enough (i = j) as -> by congruence.
  eapply NoDup_lookup; [exact Hn|rewrite list_lookup_fmap, Hi; done|rewrite list_lookup_fmap, Hj; simpl; by rewrite He].
Qed.

Lemma sorted_again (form : Value → Value) (entries : list Entry) :
  NoDup entries.*1 →
  sorted_entries (prod_map id form <$> sorted_entries entries) = prod_map id form <$> sorted_entries entries.
Proof.
  intros Hn. rewrite <- (sorted_entries_perm entries) in Hn.
  set (l := prod_map id form <$> sorted_entries entries).
  assert (l.*1 = (sorted_entries entries).*1) as Hkeys.
  { unfold l. rewrite <- list_fmap_compose. by apply list_fmap_ext. }
  assert (StronglySorted (leP (λ l r : Entry, bytes_le l.1 r.1)) (sorted_entries entries)) as Hs.
  { apply sort_by_sorted; [intros x y; apply bytes_le_total|intros x y z; apply bytes_le_trans]. }
  apply (StronglySorted_unique_strong (leP (λ l r : Entry, bytes_le l.1 r.1))).
  - intros x y Hx Hy Hxy Hyx. apply sort_by_elem in Hx. apply (entry_unique l); [by rewrite Hkeys|done|done|].
    by apply bytes_le_antisym.
  - apply sort_by_sorted; [intros x y; apply bytes_le_total|intros x y z; apply bytes_le_trans].
  - unfold l. clear Hkeys Hn l. induction Hs as [|e es Hs IH Hall]; [constructor|]. rewrite fmap_cons. constructor; [done|].
    apply Forall_fmap. eapply Forall_impl; [exact Hall|]. done.
  - apply sort_by_perm.
Qed.

Section Again.
Context (encode : Value → str → res ModuleError str) (form : Value → Value) (fits : Value → Prop).
Context (Hencode : ∀ v o out, fits v → encode v o = Ok out → encode (form v) o = Ok out).

Lemma items_again index vs o out :
  Forall fits vs → encode_items encode index vs o = Ok out → encode_items encode index (form <$> vs) o = Ok out.
Proof.
  intros Hvs. revert index o. induction Hvs as [|v vs Hv Hvs IH]; intros index o; [done|]. cbn [fmap list_fmap encode_items].
  intros (o1 & -> & (o2 & Ho2 & Hout)%res_bind_ok)%res_bind_ok. simpl. rewrite (Hencode _ _ _ Hv Ho2). by apply IH.
Qed.

Lemma fields_again index entries o out :
  Forall (λ e, quoted e.1 ∧ fits e.2) entries → encode_fields encode index entries o = Ok out →
  encode_fields encode index (prod_map id form <$> entries) o = Ok out.
Proof.
  intros Hes. revert index o. induction Hes as [|[key v] entries [_ Hv] Hes IH]; intros index o; [done|].
  cbn [fmap list_fmap encode_fields prod_map id].
  intros (o1 & -> & (o2 & Ho2 & (o3 & Ho3 & (o4 & Ho4 & Hout)%res_bind_ok)%res_bind_ok)%res_bind_ok)%res_bind_ok. cbn [res_bind].
  cbn [fst snd] in *. rewrite Ho2. cbn [res_bind]. rewrite Ho3. cbn [res_bind]. rewrite (Hencode _ _ _ Hv Ho4). by apply IH.
Qed.

Lemma object_again entries o out :
  prints_fields fits entries → encode_object encode entries o = Ok out →
  encode_object encode (prod_map id form <$> sort_by (λ l r, bytes_le l.1 r.1) entries) o = Ok out.
Proof.
  intros [Hn Hes]. unfold encode_object. change (sort_by _ entries) with (sorted_entries entries). rewrite (sorted_again form) by done. rewrite <- (sorted_entries_perm entries) in Hes.
  intros (o1 & -> & (o2 & Ho2 & Hout)%res_bind_ok)%res_bind_ok. simpl. by rewrite (fields_again _ _ _ _ Hes Ho2).
Qed.
End Again.

Lemma prints_fields_and (P Q : Value → Prop) (entries : list Entry) :
  prints_fields P entries → Forall (λ e, Q e.2) entries → prints_fields (λ v, P v ∧ Q v) entries.
Proof.
  intros [Hn HP] HQ. split; [done|]. rewrite list.Forall_forall in *. intros e He.
  destruct (HP e He). auto.
Qed.

Lemma encode_again levels (v : Value) o out :
  prints levels v ∧ floats_kept levels v → encode_json levels v o = Ok out →
  encode_json levels (canonical levels v) o = Ok out.
Proof.
  revert v o out. induction levels as [|levels IH]; intros v o out [Hp Hk] He; [done|].
  cbn [encode_json prints floats_kept canonical] in *.
  destruct v; try done; try (pose proof (prints_fields_and _ _ _ Hp Hk) as Hpk).
  - by rewrite Hk.
  - by destruct (utf8b p).
  - apply res_bind_ok in He as (o1 & Ho1 & (o2 & Ho2 & Hout)%res_bind_ok). rewrite Ho1. simpl.
    by rewrite (items_again _ _ _ IH _ _ _ _ (proj2 (Forall_and _ _) (conj Hp Hk)) Ho2).
  - by apply (object_again _ _ _ IH).
  - destruct (encodable_nominal id); [|done]. by apply (object_again _ _ _ IH).
  - destruct (in_i64 (duration s)); [|done]. by apply (object_again _ _ _ IH).
Qed.

Lemma bounded_append output bytes out : append output bytes = Ok out → (Z.of_nat (length out) ≤ MAX_DATA_BYTES)%Z.
Proof. by intros [_ ?]%append_ok. Qed.

Lemma bounded_writes output writes out :
  (Z.of_nat (length output) ≤ MAX_DATA_BYTES)%Z → append_all output writes = Ok out →
  (Z.of_nat (length out) ≤ MAX_DATA_BYTES)%Z.
Proof.
  revert output. induction writes as [|bytes writes IH]; intros output Ho; cbn [append_all]; [by intros [= <-]|].
  intros (o & Hb & Hout)%res_bind_ok. eapply IH; [by eapply bounded_append|exact Hout].
Qed.

Lemma encode_bounded levels (v : Value) output out :
  (Z.of_nat (length output) ≤ MAX_DATA_BYTES)%Z → encode_json levels v output = Ok out →
  (Z.of_nat (length out) ≤ MAX_DATA_BYTES)%Z.
Proof.
  intros Ho He. destruct levels as [|levels]; [done|]. cbn [encode_json] in He. destruct v; try discriminate He.
  - by apply bounded_append in He.
  - by apply bounded_append in He.
  - by apply bounded_append in He.
  - destruct (float_text f); [by apply bounded_append in He|done].
  - by eapply bounded_writes.
  - destruct (utf8b p); [by eapply bounded_writes|done].
  - apply res_bind_ok in He as (? & _ & (? & _ & ?%bounded_append)%res_bind_ok). done.
  - apply res_bind_ok in He as (? & _ & (? & _ & ?%bounded_append)%res_bind_ok). done.
  - destruct (encodable_nominal id); [|done]. apply res_bind_ok in He as (? & _ & (? & _ & ?%bounded_append)%res_bind_ok). done.
  - destruct (in_i64 (duration s)); [|done]. apply res_bind_ok in He as (? & _ & (? & _ & ?%bounded_append)%res_bind_ok). done.
Qed.

Lemma roundtrip_at depth (v : Value) (bytes : str) :
  depth = MAX_JSON_DEPTH → prints depth v → encode_json depth v [] = Ok bytes →
  (Z.of_nat (length bytes) ≤ MAX_DATA_BYTES)%Z ∧
  document bytes (canonical depth v) ∧
  (floats_kept depth v → encode_json depth (canonical depth v) [] = Ok bytes) ∧
  ((Z.of_nat (length bytes) ≤ MAX_JSON_INPUT)%Z →
    computes (json_ask bytes) (json_decode [VBytes bytes]) (Ok (canonical depth v))).
Proof.
  intros Hdepth Hp He. pose proof (encode_written _ _ _ _ Hp He) as (t & Heq & Ht). rewrite app_nil_l in Heq. subst t.
  assert (document bytes (canonical depth v)) as Hd.
  { unfold document. rewrite <- Hdepth. apply element_plain. exact Ht. }
  split; [apply (encode_bounded depth v [] bytes); [|exact He]; simpl; unfold MAX_DATA_BYTES; lia|].
  split; [exact Hd|]. split; [intros Hk; by apply encode_again|].
  intros Hlen. apply decode_accepts; [exact Hd|exact Hlen].
Qed.

(** C18: json_encode and json_decode round trip.  When a value is encoded, and
    the library reads its integers back and quotes its texts, the bytes are at most
    16 MiB and a document of the canonical value: records in the order of their
    keys, paths as texts, nominal records and statuses as records, and floats as
    whatever the library reads from their texts.  Up to 8 MiB decoding answers
    exactly that value, and when the floats, if any, are read back as they were,
    it encodes to the same bytes. *)
Theorem json_roundtrip (v : Value) (bytes : str) :
  prints MAX_DATA_DEPTH v → json_encode v = Ok bytes →
  (Z.of_nat (length bytes) ≤ MAX_DATA_BYTES)%Z ∧
  document bytes (canonical MAX_DATA_DEPTH v) ∧
  (floats_kept MAX_DATA_DEPTH v → json_encode (canonical MAX_DATA_DEPTH v) = Ok bytes) ∧
  ((Z.of_nat (length bytes) ≤ MAX_JSON_INPUT)%Z →
    computes (json_ask bytes) (json_decode [VBytes bytes]) (Ok (canonical MAX_DATA_DEPTH v))).
Proof. unfold json_encode. intros Hp He. exact (roundtrip_at MAX_DATA_DEPTH v bytes eq_refl Hp He). Qed.
End Documents.

(** ** At concrete inputs

    Libraries that write plain text as it is and read one digit. *)
Definition plain_libraries : DataLibraries :=
  mkLibraries (λ _, inr []) (λ text, [[34%Z]; text; [34%Z]]) (λ _, None)
    (λ token, match token with [d] => Some (NumberI64 (d - 48)) | _ => None end) (@length Z) (λ _ _, []) (λ _, []).

Lemma digit_reads (d : Z) :
  (49 ≤ d ≤ 57)%Z → token_reads (D := plain_libraries) [d] (VInt (RuntimeError := Empty_set) (d - 48)).
Proof.
  intros Hd. split; [|by eexists]. split.
  - constructor; [|constructor]. apply number_byte_spec. unfold is_number_byte. bool_to_prop. lia.
  - exists d. split; [done|]. change (bs "-0123456789") with [45; 48; 49; 50; 51; 52; 53; 54; 55; 56; 57]%Z.
    rewrite !elem_of_cons. lia.
Qed.

Lemma json_decode_exact_witness :
  computes (C := steady) (json_ask (C := steady) (bs "[1]"))
    (json_decode (RuntimeError := Empty_set) (D := plain_libraries) (C := steady) [VBytes (bs "[1]")])
    (Ok (VList [VInt 1])).
Proof.
  apply (json_decode_exact (RuntimeError := Empty_set) (D := plain_libraries) (C := steady) (bs "[1]"));
    [|vm_compute; discriminate].
  apply (element_intro _ [] (bs "[1]") []); [constructor| |constructor].
  apply (layer_array _ (bs "1") [VInt 1]). apply elements_one.
  apply (element_intro _ [] (bs "1") []); [constructor| |constructor].
  apply layer_number. apply (digit_reads 49). lia.
Defined.

Definition sample : Value Empty_set := VRecord [(bs "b", VInt 1); (bs "a", a_text "x")].

(** The bytes of sample, its keys in order. *)
Definition sample_text : str :=
  let quote := [34%Z] in
  bs "{" ++ quote ++ bs "a" ++ quote ++ bs ":" ++ quote ++ bs "x" ++ quote ++ bs "," ++
  quote ++ bs "b" ++ quote ++ bs ":1}".

Lemma plain_quoted c : (65 ≤ c ≤ 122 ∧ c ≠ 92)%Z → quoted (D := plain_libraries) [c].
Proof.
  intros Hc. exists [c]. split; [done|].
  assert (encode_char c = [c]) as He by (apply encode_char_plain; lia). pose proof (text_plain c [] []) as Ht.
  rewrite He in Ht. apply Ht; [|lia..|constructor]. unfold is_scalar. bool_to_prop. lia.
Qed.

Lemma one_reads : token_reads (D := plain_libraries) (show_int 1) (VInt (RuntimeError := Empty_set) 1).
Proof.
  assert (show_int 1 = [49%Z]) as -> by (vm_compute; reflexivity). apply (digit_reads 49). lia.
Qed.

Lemma sample_prints depth : prints (D := plain_libraries) id (S (S depth)) sample.
Proof.
  split; [apply (bool_decide_unpack _); vm_compute; exact I|].
  constructor; [split; [apply (plain_quoted 98); lia|apply one_reads]|].
  constructor; [split; [apply (plain_quoted 97); lia|apply (plain_quoted 120); lia]|constructor].
Qed.

Lemma json_roundtrip_witness :
  computes (C := steady) (json_ask (C := steady) sample_text)
    (json_decode (D := plain_libraries) (C := steady) [VBytes sample_text])
    (Ok (canonical id MAX_DATA_DEPTH sample)) ∧
  canonical id MAX_DATA_DEPTH sample = VRecord [(bs "a", a_text "x"); (bs "b", VInt 1)].
Proof.
  split; [|vm_compute; reflexivity].
  refine (proj2 (proj2 (proj2 (json_roundtrip (D := plain_libraries) (C := steady) id sample sample_text (sample_prints 62) _))) _).
  - vm_compute. reflexivity.
  - vm_compute. discriminate.
Defined.
