(* ===== verification/Environment.v ===== *)
(** * Environments of child processes ([opaal-runtime/src/environment.rs])

    Names and values are native byte strings; the map is ordered by name.  A
    snapshot of the host is taken whole within its limits or refused at its
    first entry in the way. *)
From S2P Require Import Prelude Order Path Lifetime.

Local Open Scope res_scope.

(** ** Limits and errors *)

Record HostEnvironmentLimits := mkEnvironmentLimits { limit_entries : Z; limit_bytes : Z }.

Definition OPAAL_ENVIRONMENT : HostEnvironmentLimits := mkEnvironmentLimits 1000000 (16 * 1024 * 1024).

Inductive HostEnvironmentLimitKind := EnvironmentEntries | EnvironmentBytes.

Inductive InvalidEnvironmentComponent := InvalidName | InvalidValue.

(** The ordinals are those of the entries, from one. *)
Inductive EnvironmentSnapshotError :=
| LimitExceeded (kind : HostEnvironmentLimitKind) (limit entry : Z)
| InvalidEntry (entry : Z) (component : InvalidEnvironmentComponent)
| DuplicateName (entry : Z).

Inductive NativeSessionSnapshotError :=
| InvalidCurrentDirectory
| SnapshotEnvironment (e : EnvironmentSnapshotError).

(** ** The map *)

Definition Environment : Type := list (str * str).

Definition environment_get (e : Environment) (name : str) : option str := map_get e name.
Definition environment_contains (e : Environment) (name : str) : bool :=
  match map_get e name with Some _ => true | None => false end.
Definition environment_set (e : Environment) (name value : str) : Environment := map_insert name value e.

(** [BTreeMap::remove]. *)
Definition map_remove {V} (m : list (str * V)) (k : str) : list (str * V) := filter (λ e, e.1 ≠ k) m.

Definition environment_remove (e : Environment) (name : str) : bool * Environment :=
  (environment_contains e name, map_remove e name).

Definition environment_names (e : Environment) : list str := e.*1.

(** [collect]: a later pair overwrites an earlier one. *)
Definition from_snapshot (entries : list (str * str)) : Environment :=
  foldl (λ e entry, environment_set e entry.1 entry.2) [] entries.

(** ** Snapshots *)

Definition NUL : u8 := 0%Z.
Definition EQUALS : u8 := 61%Z.
Definition has_byte (b : u8) (s : str) : bool := existsb (Z.eqb b) s.

Definition invalid_name (name : str) : bool :=
  bool_decide (name = []) || has_byte NUL name || has_byte EQUALS name.

Fixpoint snapshot_loop (limits : HostEnvironmentLimits) (index : nat) (bytes : Z) (snapshot : Environment)
    (entries : list (str * str)) : res EnvironmentSnapshotError Environment :=
  match entries with
  | [] => Ok snapshot
  | (name, value) :: entries =>
    let entry := saturating_add (Z.of_nat index) 1 in
    if (limit_entries limits <? entry)%Z
    then Err (LimitExceeded EnvironmentEntries (limit_entries limits) entry)
    else if invalid_name name then Err (InvalidEntry entry InvalidName)
    else if has_byte NUL value then Err (InvalidEntry entry InvalidValue)
    else
      let entry_bytes := saturating_add (Z.of_nat (length name)) (Z.of_nat (length value)) in
      let bytes := saturating_add bytes entry_bytes in
      if (limit_bytes limits <? bytes)%Z
      then Err (LimitExceeded EnvironmentBytes (limit_bytes limits) entry)
      else if environment_contains snapshot name then Err (DuplicateName entry)
      else snapshot_loop limits (S index) bytes (environment_set snapshot name value) entries
  end.

Definition try_from_snapshot (entries : list (str * str)) (limits : HostEnvironmentLimits)
    : res EnvironmentSnapshotError Environment :=
  snapshot_loop limits 0 0 [] entries.

Record NativeSessionSnapshot := mkSnapshot { snapshot_cwd : str; snapshot_environment : Environment }.

Definition session_snapshot (cwd : str) (entries : list (str * str)) (limits : HostEnvironmentLimits)
    : res NativeSessionSnapshotError NativeSessionSnapshot :=
  if negb (is_absolute cwd) || has_byte NUL cwd then Err InvalidCurrentDirectory
  else
    match try_from_snapshot entries limits with
    | Ok environment => Ok (mkSnapshot cwd environment)
    | Err e => Err (SnapshotEnvironment e)
    | Panic => Panic
    end.

(** ** Deltas *)

Definition delta_name (base updated self : Environment) (name : str) : Environment :=
  if bool_decide (environment_get base name = environment_get updated name) then self
  else
    match environment_get updated name with
    | Some value => environment_set self name value
    | None => map_remove self name
    end.

Definition apply_delta (self base updated : Environment) : Environment :=
  foldl (delta_name base updated) self (environment_names base ++ environment_names updated).

(** ** Theorems *)

Lemma map_remove_keys {V} (m : list (str * V)) k x : x ∈ (map_remove m k).*1 ↔ x ≠ k ∧ x ∈ m.*1.
Proof.
  unfold map_remove. rewrite !list_elem_of_fmap. split.
  - intros ([y v] & -> & [Hy Hin]%list_elem_of_filter). eauto.
  - intros [Hx ([y v] & -> & Hin)]. exists (y, v). split; [done|]. by apply list_elem_of_filter.
Qed.

Lemma map_remove_sorted {V} (m : list (str * V)) k : keys_sorted m → keys_sorted (map_remove m k).
Proof.
  unfold keys_sorted. induction m as [|[k' v] m IH]; intros Hs; [constructor|]. apply StronglySorted_inv in Hs as [Hs Hall].
  unfold map_remove. rewrite filter_cons. case_decide; [|by apply IH]. cbn [fmap list_fmap fst]. constructor; [by apply IH|].
  rewrite list.Forall_forall in *. intros x Hx. apply Hall. by apply (map_remove_keys m k) in Hx as [_ Hx].
Qed.

Lemma map_get_remove {V} (m : list (str * V)) k x :
  map_get (map_remove m k) x = if str_eqb k x then None else map_get m x.
Proof.
  induction m as [|[k' v] m IH]; [by destruct (str_eqb k x)|].
  unfold map_remove in *. rewrite filter_cons. cbn [map_get fst]. case_decide as Hk; cbn [map_get fst] in *.
  - rewrite IH. destruct (str_eqb k' x) eqn:E1, (str_eqb k x) eqn:E2; try done.
    apply str_eqb_eq in E1 as ->. apply str_eqb_eq in E2 as ->. done.
  - rewrite IH. subst k'. by destruct (str_eqb k x).
Qed.

Lemma environment_contains_spec e name : environment_contains e name = bool_decide (name ∈ e.*1).
Proof.
  unfold environment_contains. destruct (map_get e name) eqn:E.
  - symmetry. apply bool_decide_eq_true. apply dec_stable. intros Hn. apply map_get_None in Hn. congruence.
  - symmetry. apply bool_decide_eq_false. by apply map_get_None.
Qed.

(** What is in the way of the entry at [index], the first failed check first. *)
Definition entry_bytes (e : str * str) : Z := Z.of_nat (length e.1 + length e.2).
Definition total_bytes (entries : list (str * str)) : Z := foldr (λ e total, (entry_bytes e + total)%Z) 0%Z entries.

Definition entry_error (limits : HostEnvironmentLimits) (before : list (str * str)) (e : str * str)
    : option EnvironmentSnapshotError :=
  let entry := (Z.of_nat (length before) + 1)%Z in
  if bool_decide (limit_entries limits < entry)%Z then Some (LimitExceeded EnvironmentEntries (limit_entries limits) entry)
  else if bool_decide (e.1 = [] ∨ NUL ∈ e.1 ∨ EQUALS ∈ e.1) then Some (InvalidEntry entry InvalidName)
  else if bool_decide (NUL ∈ e.2) then Some (InvalidEntry entry InvalidValue)
  else if bool_decide (limit_bytes limits < total_bytes (before ++ [e]))%Z
  then Some (LimitExceeded EnvironmentBytes (limit_bytes limits) entry)
  else if bool_decide (e.1 ∈ before.*1) then Some (DuplicateName entry)
  else None.

(** The error of the first entry in the way, after [before]. *)
Fixpoint first_error (limits : HostEnvironmentLimits) (before entries : list (str * str))
    : option EnvironmentSnapshotError :=
  match entries with
  | [] => None
  | e :: entries =>
    match entry_error limits before e with
    | Some error => Some error
    | None => first_error limits (before ++ [e]) entries
    end
  end.

(** A snapshot of the host fits its memory. *)
Definition host_sized (limits : HostEnvironmentLimits) (entries : list (str * str)) : Prop :=
  (limit_entries limits ≤ U64_MAX ∧ limit_bytes limits ≤ U64_MAX ∧
   Z.of_nat (length entries) ≤ U64_MAX ∧ total_bytes entries ≤ U64_MAX)%Z.

(** The environment that maps exactly the entries. *)
Definition represents (e : Environment) (entries : list (str * str)) : Prop :=
  keys_sorted e ∧ length e = length entries ∧
  ∀ name value, environment_get e name = Some value ↔ (name, value) ∈ entries.

Lemma has_byte_spec b s : has_byte b s = bool_decide (b ∈ s).
Proof.
  unfold has_byte. destruct (existsb (Z.eqb b) s) eqn:E; symmetry.
  - apply bool_decide_eq_true. apply existsb_exists in E as (x & Hx & Hb). apply Z.eqb_eq in Hb as ->. by apply list_elem_of_In.
  - apply bool_decide_eq_false. intros Hin. rewrite <- not_true_iff_false in E. apply E. apply existsb_exists.
    exists b. split; [by apply list_elem_of_In|apply Z.eqb_refl].
Qed.

Lemma total_bytes_app l r : total_bytes (l ++ r) = (total_bytes l + total_bytes r)%Z.
Proof. unfold total_bytes. induction l as [|e l IH]; simpl; [done|]. rewrite IH. lia. Qed.

Lemma total_bytes_nonneg l : (0 ≤ total_bytes l)%Z.
Proof. unfold total_bytes. induction l as [|e l IH]; simpl; [done|]. unfold entry_bytes at 1. lia. Qed.

Lemma represents_insert e entries name value :
  represents e entries → name ∉ entries.*1 → represents (environment_set e name value) (entries ++ [(name, value)]).
Proof.
  intros (Hs & Hl & Hg) Hn.
  assert (name ∉ e.*1) as Hne.
  { intros ([y v] & -> & Hin)%list_elem_of_fmap. apply Hn. apply list_elem_of_fmap. exists (y, v). split; [done|].
    apply Hg. by apply map_get_Some. }
  split_and!; [by apply map_insert_sorted| |].
  - rewrite length_app, <- Hl. simpl. clear Hl Hg Hn. unfold environment_set.
    induction e as [|[k v] e IH]; simpl; [done|]. apply StronglySorted_inv in Hs as [Hs _].
    rewrite fmap_cons, not_elem_of_cons in Hne. destruct Hne as [Hk Hne].
    destruct (bytes_compare name k) eqn:E; simpl; [|lia|rewrite (IH Hs Hne); lia].
    apply bytes_compare_eq in E. done.
  - intros x v. unfold environment_get, environment_set. rewrite map_get_insert, elem_of_app, list_elem_of_singleton.
    destruct (str_eqb name x) eqn:E.
    + apply str_eqb_eq in E as <-. split; [intros [= ->]; by right|]. intros [Hin|[= ->]]; [|done].
      destruct Hn. apply list_elem_of_fmap. by exists (name, v).
    + rewrite <- Hg. split; [by left|]. intros [?|[= -> ->]]; [done|]. by rewrite (proj2 (str_eqb_eq name name)) in E.
Qed.

Lemma snapshot_loop_exact limits before bytes snapshot entries :
  represents snapshot before → NoDup before.*1 → bytes = total_bytes before →
  host_sized limits (before ++ entries) →
  match snapshot_loop limits (length before) bytes snapshot entries with
  | Ok e => first_error limits before entries = None ∧ represents e (before ++ entries) ∧ NoDup (before ++ entries).*1
  | Err error => first_error limits before entries = Some error
  | Panic => False
  end.
Proof.
  revert before bytes snapshot. induction entries as [|[name value] entries IH];
    intros before bytes snapshot Hr Hn -> Hsize; cbn [snapshot_loop first_error].
  { rewrite app_nil_r. done. }
  pose proof Hsize as (H1 & H2 & H3 & H4). rewrite length_app in H3. simpl in H3.
  pose proof (total_bytes_app before ((name, value) :: entries)) as Htotal.
  pose proof (total_bytes_app before [(name, value)]) as Hnext.
  pose proof (total_bytes_nonneg before). pose proof (total_bytes_nonneg entries).
  change (total_bytes ((name, value) :: entries)) with (entry_bytes (name, value) + total_bytes entries)%Z in Htotal.
  assert (total_bytes [(name, value)] = entry_bytes (name, value)) as Hone by (unfold total_bytes; simpl; lia).
  unfold entry_bytes in Htotal, Hone. cbn [fst snd] in Htotal, Hone.
  assert (saturating_add (Z.of_nat (length before)) 1 = Z.of_nat (length before) + 1)%Z as -> by (unfold saturating_add; lia).
  assert (saturating_add (total_bytes before) (saturating_add (Z.of_nat (length name)) (Z.of_nat (length value))) =
    total_bytes (before ++ [(name, value)])) as -> by (unfold saturating_add; lia).
  unfold entry_error, invalid_name. cbn [fst snd]. rewrite !has_byte_spec.
  destruct (Z.ltb_spec (limit_entries limits) (Z.of_nat (length before) + 1));
    [by rewrite (bool_decide_true (limit_entries limits < _)%Z)|rewrite (bool_decide_false (limit_entries limits < _)%Z) by lia].
  destruct (bool_decide (name = []) || bool_decide (NUL ∈ name) || bool_decide (EQUALS ∈ name)) eqn:Hname.
  { rewrite (bool_decide_true (name = [] ∨ _)); [done|]. rewrite !orb_true_iff, !bool_decide_eq_true in Hname. tauto. }
  rewrite (bool_decide_false (name = [] ∨ _)) by (rewrite !orb_false_iff, !bool_decide_eq_false in Hname; tauto). destruct (bool_decide (NUL ∈ value)); [done|].
  destruct (Z.ltb_spec (limit_bytes limits) (total_bytes (before ++ [(name, value)])));
    [by rewrite (bool_decide_true (limit_bytes limits < _)%Z)|rewrite (bool_decide_false (limit_bytes limits < _)%Z) by lia].
  destruct Hr as (Hs & Hl & Hg). rewrite environment_contains_spec.
  assert (name ∈ snapshot.*1 ↔ name ∈ before.*1) as Hkeys.
  { rewrite !list_elem_of_fmap. split; intros ([y v] & -> & Hin); exists (y, v); (split; [done|]).
    - apply Hg. by apply map_get_Some.
    - apply map_get_Some; [done|]. by apply Hg. }
  rewrite (bool_decide_ext _ _ Hkeys).
  destruct (bool_decide_reflect (name ∈ before.*1)) as [|Hdup]; [done|].
  specialize (IH (before ++ [(name, value)]) (total_bytes (before ++ [(name, value)])) (environment_set snapshot name value)).
  rewrite <- !app_assoc, length_app, Nat.add_1_r in IH. apply IH; [by apply represents_insert| |done|done].
  rewrite fmap_app. apply NoDup_app. split_and!; [done| |apply NoDup_singleton].
  intros x Hx Hx'. apply list_elem_of_singleton in Hx' as ->. done.
Qed.

(** C26: A snapshot of the host environment is taken whole or refused at its
    first bad entry.  It never panics; it succeeds exactly when no entry is past
    the limit of entries, has an unusable name or value, carries the bytes past
    their limit or repeats a name, and then the environment is ordered and maps
    exactly the entries, each name to its one value; otherwise the error is the
    first failed check of the first entry in the way, with its ordinal. *)
Theorem try_from_snapshot_exact (entries : list (str * str)) (limits : HostEnvironmentLimits) :
  host_sized limits entries →
  match try_from_snapshot entries limits with
  | Ok e => first_error limits [] entries = None ∧ represents e entries ∧ NoDup entries.*1
  | Err error => first_error limits [] entries = Some error
  | Panic => False
  end.
Proof.
  intros Hsize. apply (snapshot_loop_exact limits [] 0 [] entries); [|constructor|done|done].
  split_and!; [constructor|done|]. intros name value. split; [done|]. by intros ?%not_elem_of_nil.
Qed.

(** *** Deltas *)

Lemma delta_name_get base updated self name x :
  environment_get (delta_name base updated self name) x =
    if str_eqb name x then
      (if bool_decide (environment_get base x = environment_get updated x) then environment_get self x
       else environment_get updated x)
    else environment_get self x.
Proof.
  unfold delta_name. destruct (str_eqb name x) eqn:E.
  - apply str_eqb_eq in E as ->. case_bool_decide; [done|]. unfold environment_get, environment_set.
    destruct (map_get updated x) eqn:Eu; rewrite ?map_get_insert, ?map_get_remove, (proj2 (str_eqb_eq x x)) by done; done.
  - case_bool_decide; [done|]. unfold environment_get, environment_set.
    destruct (map_get updated name); by rewrite ?map_get_insert, ?map_get_remove, E.
Qed.

(** A delta commits exactly the names whose binding changed. *)
Theorem apply_delta_get (self base updated : Environment) (name : str) :
  environment_get (apply_delta self base updated) name =
    if bool_decide (environment_get base name = environment_get updated name)
    then environment_get self name
    else environment_get updated name.
Proof.
  unfold apply_delta.
  assert (∀ names self, environment_get (foldl (delta_name base updated) self names) name =
    if bool_decide (name ∈ names) then
      (if bool_decide (environment_get base name = environment_get updated name) then environment_get self name
       else environment_get updated name)
    else environment_get self name) as Hfold.
  { induction names as [|n names IH]; intros e; [done|]. cbn [foldl]. rewrite IH, delta_name_get.
    destruct (str_eqb n name) eqn:E.
    - apply str_eqb_eq in E as ->. rewrite (bool_decide_true (name ∈ name :: names)) by by left.
      repeat case_bool_decide; done.
    - assert (name ∈ n :: names ↔ name ∈ names) as Hin.
      { rewrite elem_of_cons. split; [|tauto]. intros [->|?]; [|done]. by rewrite (proj2 (str_eqb_eq n n)) in E. }
      by rewrite (bool_decide_ext _ _ Hin). }
  rewrite Hfold. destruct (bool_decide_reflect (name ∈ environment_names base ++ environment_names updated)) as [|Hn]; [done|].
  rewrite elem_of_app in Hn. unfold environment_get, environment_names in *.
  rewrite (proj2 (map_get_None base name)), (proj2 (map_get_None updated name)) by tauto. by rewrite bool_decide_true.
Qed.

Lemma apply_delta_sorted self base updated : keys_sorted self → keys_sorted (apply_delta self base updated).
Proof.
  unfold apply_delta. generalize (environment_names base ++ environment_names updated).
  intros names. revert self. induction names as [|n names IH]; intros self Hs; [done|]. apply IH. unfold delta_name.
  case_bool_decide; [done|]. destruct (environment_get updated n); [by apply map_insert_sorted|by apply map_remove_sorted].
Qed.

(** ** At a concrete input *)

Lemma try_from_snapshot_exact_witness :
  let entries := [(bs "PATH", bs "/bin"); (bs "HOME", bs "/h"); (bs "PATH", [])] in
  match try_from_snapshot entries OPAAL_ENVIRONMENT with
  | Ok e => first_error OPAAL_ENVIRONMENT [] entries = None ∧ represents e entries ∧ NoDup entries.*1
  | Err error => first_error OPAAL_ENVIRONMENT [] entries = Some error
  | Panic => False
  end ∧
  try_from_snapshot entries OPAAL_ENVIRONMENT = Err (DuplicateName 3).
Proof.
  split; [|vm_compute; reflexivity]. apply try_from_snapshot_exact. unfold host_sized. repeat split; vm_compute; discriminate.
Defined.
