(* ===== verification/Command.v ===== *)
(** * Commands and their namespace ([opaal-runtime/src/command.rs])

    Signatures of internal commands, the validation of their arguments, and the
    registry of cores, aliases and reserved spellings. *)
From S2P Require Import Prelude Order Convert.

Local Open Scope res_scope.

Definition OPAAL_TOOLCHAIN_MAJOR : Z := 1.

(** ** Signatures *)

Inductive Carrier := CarrierEmpty | CarrierByteStream | CarrierValue | CarrierValueStream.

#[export] Instance Carrier_eq_dec : EqDecision Carrier.
Proof. solve_decision. Defined.

(** A [BTreeSet<Carrier>]: its elements in order. *)
Definition carrier_set (inputs : list Carrier) : list Carrier :=
  filter (.∈ inputs) [CarrierEmpty; CarrierByteStream; CarrierValue; CarrierValueStream].

Inductive CommandOutput := OutputFixed (output : Carrier) | SameAsInput.

Definition resolve_output (contract : CommandOutput) (input : Carrier) : Carrier :=
  match contract with OutputFixed output => output | SameAsInput => input end.

Inductive CommandArgumentKind := KindWord | KindClosure | KindAny.
#[export] Instance CommandArgumentKind_eq_dec : EqDecision CommandArgumentKind.
Proof. solve_decision. Defined.

Inductive CommandDynamicTail := DeferredToRuntime | TailRejected.
Inductive CommandOptionTerminator := TerminatorAccepted | TerminatorLiteral.

(** A [BTreeSet<String>]. *)
Definition Names : Type := list (str * unit).

Record CommandOptionSchema := mkOption {
  option_name : str;
  value_arity : nat;
  repeatable : bool;
  conflicts : Names
}.

Definition option_flag (name : str) : CommandOptionSchema := mkOption name 0 false [].
Definition with_value_arity (o : CommandOptionSchema) (arity : nat) : CommandOptionSchema :=
  mkOption (option_name o) arity (repeatable o) (conflicts o).
Definition option_repeatable (o : CommandOptionSchema) : CommandOptionSchema :=
  mkOption (option_name o) (value_arity o) true (conflicts o).
Definition conflicts_with (o : CommandOptionSchema) (names : list str) : CommandOptionSchema :=
  mkOption (option_name o) (value_arity o) (repeatable o)
    (foldl (λ set name, map_insert name tt set) (conflicts o) names).

Record CommandArgumentSchema := mkSchema {
  minimum : nat;
  maximum : option nat;
  positional_kinds : list CommandArgumentKind;
  variadic_kind : CommandArgumentKind;
  options : list (str * CommandOptionSchema);
  options_first : bool;
  terminator : CommandOptionTerminator;
  dynamic_tail : CommandDynamicTail
}.

Definition default_schema : CommandArgumentSchema :=
  mkSchema 0 None [] KindAny [] false TerminatorAccepted DeferredToRuntime.

Definition positional (minimum : nat) (maximum : option nat) : CommandArgumentSchema :=
  mkSchema minimum maximum [] KindWord [] false TerminatorAccepted DeferredToRuntime.

Definition with_positional_kinds (s : CommandArgumentSchema) (kinds : list CommandArgumentKind)
    : CommandArgumentSchema :=
  mkSchema (minimum s) (maximum s) kinds (variadic_kind s) (options s) (options_first s) (terminator s) (dynamic_tail s).
Definition with_variadic_kind (s : CommandArgumentSchema) (kind : CommandArgumentKind) : CommandArgumentSchema :=
  mkSchema (minimum s) (maximum s) (positional_kinds s) kind (options s) (options_first s) (terminator s) (dynamic_tail s).
Definition with_options (s : CommandArgumentSchema) (new : list CommandOptionSchema) : CommandArgumentSchema :=
  mkSchema (minimum s) (maximum s) (positional_kinds s) (variadic_kind s)
    (foldl (λ options option, map_insert (option_name option) option options) (options s) new)
    (options_first s) (terminator s) (dynamic_tail s).
Definition options_before_positionals (s : CommandArgumentSchema) : CommandArgumentSchema :=
  mkSchema (minimum s) (maximum s) (positional_kinds s) (variadic_kind s) (options s) true (terminator s) (dynamic_tail s).
Definition with_terminator (s : CommandArgumentSchema) (t : CommandOptionTerminator) : CommandArgumentSchema :=
  mkSchema (minimum s) (maximum s) (positional_kinds s) (variadic_kind s) (options s) (options_first s) t (dynamic_tail s).
Definition with_dynamic_tail (s : CommandArgumentSchema) (t : CommandDynamicTail) : CommandArgumentSchema :=
  mkSchema (minimum s) (maximum s) (positional_kinds s) (variadic_kind s) (options s) (options_first s) (terminator s) t.

Definition positional_kind (s : CommandArgumentSchema) (position : nat) : CommandArgumentKind :=
  default (variadic_kind s) (positional_kinds s !! position).

(** ** Validation of arguments *)

Inductive CommandArgumentInput :=
| InputWord (bytes : option str)
| InputClosure
| InputDynamicTail.

Inductive CommandArgumentFaultKind :=
| FaultArity (minimum : nat) (maximum : option nat) (actual : nat)
| UnknownOption (option : str)
| MissingOptionValues (option : str) (expected actual : nat)
| RepeatedOption (option : str)
| ConflictingOptions (option conflict : str)
| OptionAfterPositional (option : str)
| UnexpectedKind (position : nat) (expected actual : CommandArgumentKind)
| FaultDynamicTail.

Record CommandArgumentFault := mkFault {
  argument_index : option nat;
  fault_kind : CommandArgumentFaultKind
}.

(** The locals of the loop. *)
Record Validation := mkValidation {
  faults : list CommandArgumentFault;
  options_active : bool;
  positional_started : bool;
  definite_positionals : nat;
  definite_indices : list nat;
  possible_positionals : nat;
  unbounded_positionals : bool;
  uncertain_options : bool;
  seen : list (str * nat)
}.

Definition fault_at (v : Validation) (index : nat) (kind : CommandArgumentFaultKind) : Validation :=
  mkValidation (faults v ++ [mkFault (Some index) kind]) (options_active v) (positional_started v)
    (definite_positionals v) (definite_indices v) (possible_positionals v) (unbounded_positionals v)
    (uncertain_options v) (seen v).
Definition fault_if (b : bool) (v : Validation) (index : nat) (kind : CommandArgumentFaultKind) : Validation :=
  if b then fault_at v index kind else v.

Definition end_options (v : Validation) : Validation :=
  mkValidation (faults v) false (positional_started v) (definite_positionals v) (definite_indices v)
    (possible_positionals v) (unbounded_positionals v) (uncertain_options v) (seen v).
Definition unknown_tail (v : Validation) : Validation :=
  mkValidation (faults v) (options_active v) (positional_started v) (definite_positionals v) (definite_indices v)
    (possible_positionals v) true true (seen v).
Definition unknown_word (v : Validation) : Validation :=
  mkValidation (faults v) (options_active v) (positional_started v) (definite_positionals v) (definite_indices v)
    (S (possible_positionals v)) (unbounded_positionals v) true (seen v).
Definition count_positional (v : Validation) (index : nat) : Validation :=
  mkValidation (faults v) (options_active v) true (S (definite_positionals v)) (definite_indices v ++ [index])
    (S (possible_positionals v)) (unbounded_positionals v) (uncertain_options v) (seen v).
Definition see_option (v : Validation) (name : str) (index : nat) : Validation :=
  mkValidation (faults v) (options_active v) (positional_started v) (definite_positionals v) (definite_indices v)
    (possible_positionals v) (unbounded_positionals v) (uncertain_options v) (map_insert name index (seen v)).

Definition was_seen (v : Validation) (name : str) : bool :=
  match map_get (seen v) name with Some _ => true | None => false end.

Definition dashes : str := bs "--".
Definition is_dashes (bytes : str) : bool := str_eqb bytes dashes.

(** What stays of the first conflict that was seen. *)
Definition seen_conflict (v : Validation) (o : CommandOptionSchema) : option str :=
  head (filter (λ name, was_seen v name = true) (conflicts o).*1).

(** A word in the option position: the state and how far to go on; [None] ends
    the loop. *)
Definition validate_option (s : CommandArgumentSchema) (inputs : list CommandArgumentInput) (index : nat)
    (bytes : str) (v : Validation) : Validation * option nat :=
  let name := from_utf8_lossy bytes in
  match map_get (options s) name with
  | None => (fault_at v index (UnknownOption name), Some 1)
  | Some o =>
    let v := fault_if (options_first s && positional_started v) v index (OptionAfterPositional name) in
    let v := fault_if (negb (repeatable o) && was_seen v name) v index (RepeatedOption name) in
    let v := match seen_conflict v o with
             | Some conflict => fault_at v index (ConflictingOptions name conflict)
             | None => v
             end in
    let v := see_option v name index in
    let available := length inputs - (index + 1) in
    if available <? value_arity o
    then (fault_at v index (MissingOptionValues name (value_arity o) available), None)
    else (v, Some (value_arity o + 1))
  end.

Definition validate_positional (s : CommandArgumentSchema) (index : nat) (actual : CommandArgumentKind)
    (v : Validation) : Validation :=
  let position := definite_positionals v in
  let v := count_positional v index in
  let expected := positional_kind s position in
  fault_if (negb (uncertain_options v) && bool_decide (expected ≠ KindAny) && bool_decide (expected ≠ actual))
    v index (UnexpectedKind position expected actual).

(** The first arm that takes the input. *)
Definition validate_input (s : CommandArgumentSchema) (inputs : list CommandArgumentInput) (index : nat)
    (input : CommandArgumentInput) (v : Validation) : Validation * option nat :=
  let literal := match terminator s with TerminatorLiteral => true | TerminatorAccepted => false end in
  match input with
  | InputDynamicTail =>
    (match dynamic_tail s with
     | TailRejected => fault_at v index FaultDynamicTail
     | DeferredToRuntime => unknown_tail v
     end, Some 1)
  | InputWord (Some bytes) =>
    if options_active v && negb literal && is_dashes bytes then (end_options v, Some 1)
    else if options_active v && bool_decide (dashes `prefix_of` bytes) && negb (literal && is_dashes bytes)
    then validate_option s inputs index bytes v
    else (validate_positional s index KindWord v, Some 1)
  | InputWord None =>
    if options_active v then (unknown_word v, Some 1)
    else (validate_positional s index KindWord v, Some 1)
  | InputClosure => (validate_positional s index KindClosure v, Some 1)
  end.

Fixpoint validate_loop (fuel : nat) (s : CommandArgumentSchema) (inputs : list CommandArgumentInput) (index : nat)
    (v : Validation) : res Empty_set Validation :=
  match inputs !! index with
  | None => Ok v
  | Some input =>
    match fuel with
    | 0 => Panic
    | S fuel =>
      let '(v, next) := validate_input s inputs index input v in
      match next with
      | Some next => validate_loop fuel s inputs (index + next) v
      | None => Ok v
      end
    end
  end.

Definition too_few (s : CommandArgumentSchema) (v : Validation) : bool :=
  negb (unbounded_positionals v) && negb (uncertain_options v) && (possible_positionals v <? minimum s).
Definition too_many (s : CommandArgumentSchema) (v : Validation) : bool :=
  match maximum s with Some maximum => maximum <? definite_positionals v | None => false end.

Definition arity_fault (s : CommandArgumentSchema) (v : Validation) : list CommandArgumentFault :=
  if too_few s v || too_many s v then
    [mkFault (if too_many s v then maximum s ≫= λ maximum, definite_indices v !! maximum else None)
       (FaultArity (minimum s) (maximum s) (definite_positionals v))]
  else [].

Definition validate (s : CommandArgumentSchema) (inputs : list CommandArgumentInput)
    : res Empty_set (list CommandArgumentFault) :=
  let* v := validate_loop (length inputs) s inputs 0 (mkValidation [] true false 0 [] 0 false false []) in
  Ok (faults v ++ arity_fault s v).

(** ** The namespace *)

Record CommandDocumentation := mkDocumentation { invocation : str; documentation_text : str }.

Record CommandSignature := mkSignature {
  signature_name : str;
  inputs : list Carrier;
  output : CommandOutput;
  arguments : CommandArgumentSchema;
  documentation : CommandDocumentation
}.

Definition signature_new (name : str) (inputs : list Carrier) (output : Carrier) : CommandSignature :=
  mkSignature name (carrier_set inputs) (OutputFixed output) default_schema (mkDocumentation [] []).
Definition passthrough (name : str) (inputs : list Carrier) : CommandSignature :=
  mkSignature name (carrier_set inputs) SameAsInput default_schema (mkDocumentation [] []).
Definition with_arguments (s : CommandSignature) (a : CommandArgumentSchema) : CommandSignature :=
  mkSignature (signature_name s) (inputs s) (output s) a (documentation s).
Definition with_flags (s : CommandSignature) (flags : list str) : CommandSignature :=
  with_arguments s (with_options (arguments s) (option_flag <$> flags)).
Definition with_documentation (s : CommandSignature) (d : CommandDocumentation) : CommandSignature :=
  mkSignature (signature_name s) (inputs s) (output s) (arguments s) d.
Definition accepts_carrier (s : CommandSignature) (carrier : Carrier) : bool := bool_decide (carrier ∈ inputs s).

Record CommandLifecycle := mkLifecycle {
  introduced_major : Z;
  deprecated_since : option str;
  lifecycle_replacement : option str
}.

Definition introduced (major : Z) : CommandLifecycle := mkLifecycle major None None.

Inductive CommandNamespaceEntry :=
| EntryCore (signature : CommandSignature) (lifecycle : CommandLifecycle)
| EntryAlias (name target : str) (lifecycle : CommandLifecycle)
| EntryReserved (name : str) (introduced_major : Z) (purpose : str) (replacement : option str).

Definition entry_name (e : CommandNamespaceEntry) : str :=
  match e with
  | EntryCore signature _ => signature_name signature
  | EntryAlias name _ _ | EntryReserved name _ _ _ => name
  end.

Inductive CommandClassification :=
| ClassUnknown
| ClassCore (signature : CommandSignature) (lifecycle : CommandLifecycle)
| ClassAlias (canonical_name : str) (signature : CommandSignature) (lifecycle : CommandLifecycle)
| ClassReserved (purpose : str) (replacement : option str) (introduced_major : Z).

Inductive CommandRegistryError :=
| InvalidToolchainIdentity (toolchain_major : Z)
| EmptyName
| DuplicateCommandName (name : str)
| InvalidIntroducedMajor (name : str) (introduced_major toolchain_major : Z)
| EmptyDeprecation (name : str)
| ReplacementWithoutDeprecation (name : str)
| EmptyReservationPurpose (name : str)
| SelfAlias (name : str)
| MissingAliasTarget (name target : str)
| AliasTargetNotCore (name target : str)
| InvalidReplacementTarget (name replacement : str).

Inductive StoredNamespaceEntry :=
| StoredCore (signature : CommandSignature) (lifecycle : CommandLifecycle)
| StoredAlias (target : str) (lifecycle : CommandLifecycle)
| StoredReserved (introduced_major : Z) (purpose : str) (replacement : option str).

Record CommandRegistry := mkRegistry {
  registry_major : Z;
  registry_entries : list (str * StoredNamespaceEntry)
}.

Definition registry_new : CommandRegistry := mkRegistry OPAAL_TOOLCHAIN_MAJOR [].

Definition stored (r : CommandRegistry) (name : str) : option StoredNamespaceEntry := map_get (registry_entries r) name.

Definition validate_introduced_major (name : str) (major toolchain : Z) : res CommandRegistryError unit :=
  if ((major =? 0) || (toolchain <? major))%Z then Err (InvalidIntroducedMajor name major toolchain) else Ok tt.

Definition validate_lifecycle (name : str) (l : CommandLifecycle) (toolchain : Z) : res CommandRegistryError unit :=
  let* _ := validate_introduced_major name (introduced_major l) toolchain in
  match deprecated_since l with
  | Some [] => Err (EmptyDeprecation name)
  | Some _ => Ok tt
  | None =>
    match lifecycle_replacement l with
    | Some _ => Err (ReplacementWithoutDeprecation name)
    | None => Ok tt
    end
  end.

Definition store_entry (name : str) (e : CommandNamespaceEntry) (toolchain : Z)
    : res CommandRegistryError StoredNamespaceEntry :=
  match e with
  | EntryCore signature lifecycle =>
    let* _ := validate_lifecycle name lifecycle toolchain in Ok (StoredCore signature lifecycle)
  | EntryAlias _ target lifecycle =>
    let* _ := validate_lifecycle name lifecycle toolchain in Ok (StoredAlias target lifecycle)
  | EntryReserved _ major purpose replacement =>
    let* _ := validate_introduced_major name major toolchain in
    match purpose with
    | [] => Err (EmptyReservationPurpose name)
    | _ => Ok (StoredReserved major purpose replacement)
    end
  end.

Fixpoint collect_entries (r : CommandRegistry) (entries : list CommandNamespaceEntry)
    : res CommandRegistryError CommandRegistry :=
  match entries with
  | [] => Ok r
  | e :: entries =>
    let name := entry_name e in
    match name with
    | [] => Err EmptyName
    | _ =>
      match stored r name with
      | Some _ => Err (DuplicateCommandName name)
      | None =>
        let* entry := store_entry name e (registry_major r) in
        collect_entries (mkRegistry (registry_major r) (map_insert name entry (registry_entries r))) entries
      end
    end
  end.

Definition validate_replacement (r : CommandRegistry) (name : str) (replacement : option str)
    : res CommandRegistryError unit :=
  match replacement with
  | None => Ok tt
  | Some replacement =>
    let core := match stored r replacement with Some (StoredCore _ _) => true | _ => false end in
    if str_eqb replacement name || negb core then Err (InvalidReplacementTarget name replacement) else Ok tt
  end.

Definition validate_target (r : CommandRegistry) (name : str) (entry : StoredNamespaceEntry)
    : res CommandRegistryError unit :=
  match entry with
  | StoredCore _ lifecycle => validate_replacement r name (lifecycle_replacement lifecycle)
  | StoredAlias target lifecycle =>
    if str_eqb target name then Err (SelfAlias name)
    else
      match stored r target with
      | None => Err (MissingAliasTarget name target)
      | Some (StoredCore _ _) => validate_replacement r name (lifecycle_replacement lifecycle)
      | Some _ => Err (AliasTargetNotCore name target)
      end
  | StoredReserved _ _ replacement => validate_replacement r name replacement
  end.

Fixpoint validate_targets (r : CommandRegistry) (entries : list (str * StoredNamespaceEntry))
    : res CommandRegistryError unit :=
  match entries with
  | [] => Ok tt
  | (name, entry) :: entries => let* _ := validate_target r name entry in validate_targets r entries
  end.

Definition try_from_entries (toolchain : Z) (entries : list CommandNamespaceEntry)
    : res CommandRegistryError CommandRegistry :=
  if (toolchain =? 0)%Z then Err (InvalidToolchainIdentity toolchain)
  else
    let* r := collect_entries (mkRegistry toolchain []) entries in
    let* _ := validate_targets r (registry_entries r) in
    Ok r.

Definition register (r : CommandRegistry) (signature : CommandSignature) : bool * CommandRegistry :=
  match signature_name signature, stored r (signature_name signature) with
  | [], _ | _, Some _ => (false, r)
  | name, None =>
    (true, mkRegistry (registry_major r)
       (map_insert name (StoredCore signature (introduced (registry_major r))) (registry_entries r)))
  end.

(** [unreachable!] is [Panic]. *)
Definition lookup_command (r : CommandRegistry) (name : str) : res Empty_set (option CommandSignature) :=
  match stored r name with
  | None => Ok None
  | Some (StoredCore signature _) => Ok (Some signature)
  | Some (StoredAlias target _) =>
    match stored r target with
    | Some (StoredCore signature _) => Ok (Some signature)
    | _ => Panic
    end
  | Some (StoredReserved _ _ _) => Ok None
  end.

Definition contains_command (r : CommandRegistry) (name : str) : bool :=
  match stored r name with Some (StoredCore _ _ | StoredAlias _ _) => true | _ => false end.

Definition classify_command (r : CommandRegistry) (name : str) : res Empty_set CommandClassification :=
  match stored r name with
  | None => Ok ClassUnknown
  | Some (StoredCore signature lifecycle) => Ok (ClassCore signature lifecycle)
  | Some (StoredAlias target lifecycle) =>
    match stored r target with
    | Some (StoredCore signature _) => Ok (ClassAlias target signature lifecycle)
    | _ => Panic
    end
  | Some (StoredReserved major purpose replacement) => Ok (ClassReserved purpose replacement major)
  end.

Definition is_core (e : StoredNamespaceEntry) : bool := match e with StoredCore _ _ => true | _ => false end.
Definition core_names (r : CommandRegistry) : list str := (filter (λ e, is_core e.2 = true) (registry_entries r)).*1.
