(* ===== verification/CommandFacts.v ===== *)
(** * The command namespace and the validation of arguments

    A manifest becomes a registry exactly when it is valid, no call on a
    reachable registry meets an [unreachable!], and arguments that are all known
    are accepted exactly when they conform to the schema. *)
From S2P Require Import Prelude Order Convert Command.

(** ** Manifests *)

Definition lifecycle_ok (toolchain : Z) (l : CommandLifecycle) : Prop :=
  (introduced_major l ≠ 0 ∧ introduced_major l ≤ toolchain)%Z ∧ deprecated_since l ≠ Some [] ∧
  (is_Some (lifecycle_replacement l) → is_Some (deprecated_since l)).

(** What a manifest says of a spelling. *)
Definition entry_stored (e : CommandNamespaceEntry) : StoredNamespaceEntry :=
  match e with
  | EntryCore signature lifecycle => StoredCore signature lifecycle
  | EntryAlias _ target lifecycle => StoredAlias target lifecycle
  | EntryReserved _ major purpose replacement => StoredReserved major purpose replacement
  end.

Definition stored_ok (toolchain : Z) (e : StoredNamespaceEntry) : Prop :=
  match e with
  | StoredCore _ lifecycle | StoredAlias _ lifecycle => lifecycle_ok toolchain lifecycle
  | StoredReserved major purpose _ => (major ≠ 0 ∧ major ≤ toolchain)%Z ∧ purpose ≠ []
  end.

Definition replacement_of (e : StoredNamespaceEntry) : option str :=
  match e with
  | StoredCore _ lifecycle | StoredAlias _ lifecycle => lifecycle_replacement lifecycle
  | StoredReserved _ _ replacement => replacement
  end.

(** The spellings an entry refers to are those of other cores. *)
Definition targets_ok (core : str → Prop) (name : str) (e : StoredNamespaceEntry) : Prop :=
  (∀ target, replacement_of e = Some target → target ≠ name ∧ core target) ∧
  match e with StoredAlias target _ => target ≠ name ∧ core target | _ => True end.

Definition pairs (entries : list CommandNamespaceEntry) : list (str * StoredNamespaceEntry) :=
  (λ e, (entry_name e, entry_stored e)) <$> entries.

Record valid_manifest (toolchain : Z) (entries : list CommandNamespaceEntry) : Prop := {
  manifest_major : toolchain ≠ 0%Z;
  manifest_names : NoDup (entry_name <$> entries) ∧ [] ∉ entry_name <$> entries;
  manifest_entries : Forall (stored_ok toolchain) (entry_stored <$> entries);
  manifest_targets : ∀ name e, (name, e) ∈ pairs entries →
    targets_ok (λ target, ∃ s l, (target, StoredCore s l) ∈ pairs entries) name e
}.

Lemma validate_major_ok name major toolchain :
  validate_introduced_major name major toolchain = Ok tt ∧ (major ≠ 0 ∧ major ≤ toolchain)%Z ∨
  (∃ e, validate_introduced_major name major toolchain = Err e) ∧ ¬ (major ≠ 0 ∧ major ≤ toolchain)%Z.
Proof.
  unfold validate_introduced_major. destruct (Z.eqb_spec major 0), (Z.ltb_spec toolchain major); simpl; try (right; split; [eauto|lia]).
  left. split; [done|lia].
Qed.

Lemma validate_lifecycle_ok name l toolchain :
  validate_lifecycle name l toolchain = Ok tt ∧ lifecycle_ok toolchain l ∨
  (∃ e, validate_lifecycle name l toolchain = Err e) ∧ ¬ lifecycle_ok toolchain l.
Proof.
  unfold validate_lifecycle, lifecycle_ok.
  destruct (validate_major_ok name (introduced_major l) toolchain) as [[-> Hm]|[[e ->] Hm]]; simpl;
    [|right; split; [eauto|tauto]].
  destruct (deprecated_since l) as [[|b d]|].
  - right. split; [eauto|]. by intros (_ & ? & _).
  - left. split_and!; [done|tauto|tauto|done|eauto].
  - destruct (lifecycle_replacement l); [right|left].
    + split; [eauto|]. intros (_ & _ & H). destruct (H ltac:(eauto)) as [? ?]. done.
    + split_and!; [done|tauto|tauto|done|by intros [? ?]].
Qed.

Lemma store_entry_ok name e toolchain :
  store_entry name e toolchain = Ok (entry_stored e) ∧ stored_ok toolchain (entry_stored e) ∨
  (∃ error, store_entry name e toolchain = Err error) ∧ ¬ stored_ok toolchain (entry_stored e).
Proof.
  destruct e as [s l|n t l|n major purpose replacement]; simpl.
  - destruct (validate_lifecycle_ok name l toolchain) as [[-> ?]|[[e ->] ?]]; [by left|right; eauto].
  - destruct (validate_lifecycle_ok name l toolchain) as [[-> ?]|[[e ->] ?]]; [by left|right; eauto].
  - destruct (validate_major_ok name major toolchain) as [[-> ?]|[[e ->] ?]]; simpl; [|right; split; [eauto|tauto]].
    destruct purpose; [right; split; [eauto|naive_solver]|by left].
Qed.

(** The registry holds exactly these entries. *)
Definition holds_entries (r : CommandRegistry) (entries : list CommandNamespaceEntry) : Prop :=
  keys_sorted (registry_entries r) ∧ ∀ name e, stored r name = Some e ↔ (name, e) ∈ pairs entries.

Lemma pairs_app l r : pairs (l ++ r) = pairs l ++ pairs r.
Proof. apply fmap_app. Qed.

Lemma pairs_keys entries : (pairs entries).*1 = entry_name <$> entries.
Proof. unfold pairs. rewrite <- list_fmap_compose. by apply list_fmap_ext. Qed.

Lemma stored_None r entries name :
  holds_entries r entries → stored r name = None ↔ name ∉ entry_name <$> entries.
Proof.
  intros [_ Hh]. rewrite <- pairs_keys, list_elem_of_fmap. split.
  - intros Hn ([y e] & -> & Hin). apply Hh in Hin. simpl in Hn. congruence.
  - intros Hn. destruct (stored r name) as [e|] eqn:E; [|done]. apply Hh in E. destruct Hn. by exists (name, e).
Qed.

Lemma holds_insert r entries e :
  holds_entries r entries → entry_name e ∉ entry_name <$> entries →
  holds_entries (mkRegistry (registry_major r) (map_insert (entry_name e) (entry_stored e) (registry_entries r)))
    (entries ++ [e]).
Proof.
  intros [Hs Hh] Hn. split; [by apply map_insert_sorted|]. intros name x. unfold stored. cbn [registry_entries].
  rewrite map_get_insert, pairs_app, elem_of_app. change (pairs [e]) with [(entry_name e, entry_stored e)].
  rewrite list_elem_of_singleton. destruct (str_eqb (entry_name e) name) eqn:E.
  - apply str_eqb_eq in E as <-. split; [intros [= ->]; by right|]. intros [Hin|[= ->]]; [|done].
    destruct Hn. rewrite <- pairs_keys. apply list_elem_of_fmap. by exists (entry_name e, x).
  - rewrite <- Hh. split; [by left|]. intros [?|[= -> ->]]; [done|].
    by rewrite (proj2 (str_eqb_eq (entry_name e) (entry_name e))) in E.
Qed.

Definition entries_ok (toolchain : Z) (before entries : list CommandNamespaceEntry) : Prop :=
  NoDup (entry_name <$> entries) ∧ (∀ e, e ∈ entries → entry_name e ∉ entry_name <$> before) ∧
  [] ∉ entry_name <$> entries ∧ Forall (stored_ok toolchain) (entry_stored <$> entries).

Lemma entries_ok_cons toolchain before e entries :
  entries_ok toolchain before (e :: entries) ↔
    entry_name e ≠ [] ∧ entry_name e ∉ entry_name <$> before ∧ stored_ok toolchain (entry_stored e) ∧
    entries_ok toolchain (before ++ [e]) entries.
Proof.
  unfold entries_ok. rewrite !fmap_cons, fmap_app, NoDup_cons, Forall_cons, not_elem_of_cons. cbn [fmap list_fmap].
  split.
  - intros ((Hn & Hd) & Hb & (Hne & He) & Hs & Hall). split_and!; try done; [by apply Hb; left|].
    intros x Hx. rewrite not_elem_of_app. split; [apply Hb; by right|]. intros Heq%list_elem_of_singleton.
    apply Hn. rewrite <- Heq. by apply list_elem_of_fmap_2.
  - intros (Hne & Hb & Hs & Hd & Hb' & He & Hall). split_and!; try done.
    + intros (x & Heq & Hx)%list_elem_of_fmap. apply (Hb' x Hx). rewrite elem_of_app, list_elem_of_singleton. by right.
    + intros x [->|Hx]%elem_of_cons; [done|]. specialize (Hb' x Hx). rewrite elem_of_app in Hb'. tauto.
Qed.

Lemma collect_entries_exact r before entries :
  holds_entries r before →
  match collect_entries r entries with
  | Ok r' => entries_ok (registry_major r) before entries ∧ holds_entries r' (before ++ entries) ∧
             registry_major r' = registry_major r
  | Err _ => ¬ entries_ok (registry_major r) before entries
  | Panic => False
  end.
Proof.
  revert r before. induction entries as [|e entries IH]; intros r before Hr; cbn [collect_entries].
  { rewrite app_nil_r. split; [|done]. split_and!; [constructor|by intros ? ?%not_elem_of_nil|apply not_elem_of_nil|constructor]. }
  pose proof (entries_ok_cons (registry_major r) before e entries) as Hcons.
  destruct (entry_name e) as [|b name] eqn:Hname; [naive_solver|]. rewrite <- Hname in *.
  destruct (stored r (entry_name e)) as [x|] eqn:Hstored.
  { intros (_ & Hn & _)%Hcons. apply (stored_None r) in Hn; [congruence|done]. }
  apply (stored_None r before) in Hstored; [|done].
  destruct (store_entry_ok (entry_name e) e (registry_major r)) as [[-> Hok]|[[error ->] Hok]]; simpl; [|tauto].
  specialize (IH _ _ (holds_insert r before e Hr Hstored)). cbn [registry_major] in IH.
  destruct (collect_entries _ entries) as [r'|error|]; [|tauto|done].
  rewrite <- app_assoc in IH. split; [apply Hcons; split_and!; [congruence|done|done|tauto]|tauto].
Qed.

Lemma replacement_exact r name replacement :
  match validate_replacement r name replacement with
  | Ok _ => ∀ target, replacement = Some target → target ≠ name ∧ ∃ s l, stored r target = Some (StoredCore s l)
  | Err _ => ¬ ∀ target, replacement = Some target → target ≠ name ∧ ∃ s l, stored r target = Some (StoredCore s l)
  | Panic => False
  end.
Proof.
  unfold validate_replacement. destruct replacement as [target|]; [|done].
  destruct (str_eqb target name) eqn:E; simpl.
  { apply str_eqb_eq in E as ->. intros H. by destruct (H name eq_refl). }
  destruct (stored r target) as [[s l| |]|] eqn:Hs; simpl.
  - intros t [= <-]. split; [|eauto]. intros ->. by rewrite (proj2 (str_eqb_eq name name)) in E.
  - intros H. destruct (H target eq_refl) as (_ & s & l' & ?). congruence.
  - intros H. destruct (H target eq_refl) as (_ & s & l' & ?). congruence.
  - intros H. destruct (H target eq_refl) as (_ & s & l' & ?). congruence.
Qed.

Definition core_of (r : CommandRegistry) (target : str) : Prop := ∃ s l, stored r target = Some (StoredCore s l).

Lemma targets_iff (P Q : str → Prop) name e :
  (∀ target, P target ↔ Q target) → targets_ok P name e ↔ targets_ok Q name e.
Proof. intros H. unfold targets_ok. destruct e; naive_solver. Qed.

Lemma core_of_pairs r entries :
  (∀ name e, stored r name = Some e ↔ (name, e) ∈ pairs entries) →
  ∀ target, core_of r target ↔ ∃ s l, (target, StoredCore s l) ∈ pairs entries.
Proof. intros H target. unfold core_of. split; intros (s & l & Hs); exists s, l; by apply H. Qed.

Lemma target_exact r name e :
  match validate_target r name e with
  | Ok _ => targets_ok (core_of r) name e
  | Err _ => ¬ targets_ok (core_of r) name e
  | Panic => False
  end.
Proof.
  unfold validate_target, targets_ok, core_of. destruct e as [s l|target l|major purpose replacement]; simpl.
  - pose proof (replacement_exact r name (lifecycle_replacement l)). destruct (validate_replacement _ _ _); tauto.
  - destruct (str_eqb target name) eqn:E; [apply str_eqb_eq in E as ->; tauto|].
    assert (target ≠ name) as Hne by (intros ->; by rewrite (proj2 (str_eqb_eq name name)) in E).
    destruct (stored r target) as [[s l'| |]|] eqn:Hs; try (intros (_ & _ & ? & ? & ?); congruence).
    pose proof (replacement_exact r name (lifecycle_replacement l)). destruct (validate_replacement _ _ _); [|tauto|done].
    split_and!; eauto.
  - pose proof (replacement_exact r name replacement). destruct (validate_replacement _ _ _); tauto.
Qed.

Lemma targets_exact r entries :
  match validate_targets r entries with
  | Ok _ => ∀ name e, (name, e) ∈ entries → targets_ok (core_of r) name e
  | Err _ => ¬ ∀ name e, (name, e) ∈ entries → targets_ok (core_of r) name e
  | Panic => False
  end.
Proof.
  induction entries as [|[name e] entries IH]; cbn [validate_targets]; [by intros ? ? ?%not_elem_of_nil|].
  pose proof (target_exact r name e) as Ht. destruct (validate_target r name e) as [u|error|]; simpl; [| |done].
  - destruct (validate_targets r entries); [| |done].
    + intros n x [[= -> ->]|Hin]%elem_of_cons; auto.
    + intros H. apply IH. intros n x Hin. apply H. by right.
  - intros H. apply Ht, H. by left.
Qed.

(** C24: Building a registry is exact: it never panics, it succeeds exactly on the
    valid manifests (a positive toolchain major, distinct nonempty spellings,
    lifecycles within the major, reasons for reservations, aliases and
    replacements that name other cores), and the registry then holds the entries
    of the manifest, each under its spelling, and nothing else. *)
Theorem try_from_entries_exact (toolchain : Z) (entries : list CommandNamespaceEntry) :
  match try_from_entries toolchain entries with
  | Ok r => valid_manifest toolchain entries ∧ holds_entries r entries ∧ registry_major r = toolchain
  | Err _ => ¬ valid_manifest toolchain entries
  | Panic => False
  end.
Proof.
  unfold try_from_entries. destruct (Z.eqb_spec toolchain 0) as [->|Hmajor]; [by intros []|].
  pose proof (collect_entries_exact (mkRegistry toolchain []) [] entries) as Hc. cbn [registry_major app] in Hc.
  specialize (Hc ltac:(split; [constructor|by intros; split; [|intros ?%not_elem_of_nil]])).
  destruct (collect_entries _ entries) as [r|error|]; simpl; [| |done].
  2: { intros [_ [Hd Hne] Hall _]. apply Hc. split_and!; try done. by intros ? _ ?%not_elem_of_nil. }
  destruct Hc as ((Hd & _ & Hne & Hall) & Hh & Hm). pose proof (targets_exact r (registry_entries r)) as Ht.
  assert (∀ name e, (name, e) ∈ registry_entries r ↔ (name, e) ∈ pairs entries) as Hin.
  { intros name e. destruct Hh as [Hs Hh]. rewrite <- Hh. symmetry. by apply map_get_Some. }
  assert (∀ name e, targets_ok (core_of r) name e ↔
    targets_ok (λ target, ∃ s l, (target, StoredCore s l) ∈ pairs entries) name e) as Hto.
  { intros name e. apply targets_iff, core_of_pairs, Hh. }
  destruct (validate_targets r (registry_entries r)); simpl; [| |done].
  - split; [|done]. split; try done. intros name e He. apply Hto, Ht, Hin, He.
  - intros [_ _ _ Hv]. apply Ht. intros name x He. apply Hto, Hv, Hin, He.
Qed.

(** ** Reachable registries *)

Inductive reachable : CommandRegistry → Prop :=
| reach_new : reachable registry_new
| reach_manifest toolchain entries r : (0 ≤ toolchain)%Z → try_from_entries toolchain entries = Ok r → reachable r
| reach_register r signature : reachable r → reachable (register r signature).2.

Record registry_wf (r : CommandRegistry) : Prop := {
  wf_major : (0 < registry_major r)%Z;
  wf_sorted : keys_sorted (registry_entries r);
  wf_entries : ∀ name e, stored r name = Some e →
    name ≠ [] ∧ stored_ok (registry_major r) e ∧ targets_ok (core_of r) name e ∧
    match e with StoredCore s _ => signature_name s = name | _ => True end
}.

Lemma register_wf r s : registry_wf r → registry_wf (register r s).2.
Proof.
  intros [Hm Hs He]. unfold register.
  destruct (signature_name s) as [|b name] eqn:Hname; [done|]. rewrite <- Hname.
  destruct (stored r (signature_name s)) as [x|] eqn:Hx; [done|]. cbn [snd].
  set (r' := mkRegistry _ _). assert (∀ target, core_of r target → core_of r' target) as Hmono.
  { intros target (s' & l & Ht). exists s', l. unfold stored, r'. cbn [registry_entries]. rewrite map_get_insert.
    destruct (str_eqb (signature_name s) target) eqn:E; [|exact Ht]. apply str_eqb_eq in E as <-. congruence. }
  split; [done|by apply map_insert_sorted|]. intros n e. unfold stored, r' at 1. cbn [registry_entries].
  rewrite map_get_insert. destruct (str_eqb (signature_name s) n) eqn:E.
  - intros [= <-]. apply str_eqb_eq in E as <-. split_and!; [congruence| |split; [by intros ?|done]|done].
    split_and!; cbn; try lia; try done.
  - intros Hn. destruct (He _ _ Hn) as (Hne & Hok & [Hr Ht] & Hc). split_and!; try done. split.
    + intros target Hrep. destruct (Hr _ Hrep). eauto.
    + destruct e; [done| |done]. destruct Ht. eauto.
Qed.

Lemma reachable_wf r : reachable r → registry_wf r.
Proof.
  induction 1 as [|toolchain entries r Hmajor Hr|r s _ IH]; [|..|by apply register_wf].
  - split; [done|constructor|done].
  - pose proof (try_from_entries_exact toolchain entries) as H. rewrite Hr in H.
    destruct H as ([Hz [Hd Hne] Hall Ht] & [Hs Hh] & Hm). split; [lia|done|]. intros name e He.
    pose proof He as Hin. apply Hh in Hin. rewrite Hm. split_and!.
    + intros ->. apply Hne. rewrite <- pairs_keys. apply list_elem_of_fmap. by exists ([], e).
    + unfold pairs in Hin. apply list_elem_of_fmap in Hin as (x & [= -> ->] & Hx).
      rewrite list.Forall_forall in Hall. apply Hall. by apply list_elem_of_fmap_2.
    + apply (targets_iff _ _ _ _ (core_of_pairs r entries Hh)), (Ht _ _ Hin).
    + unfold pairs in Hin. apply list_elem_of_fmap in Hin as ([s l|n t l|n major p rep] & [= -> ->] & Hx); done.
Qed.

(** What a spelling leads to. *)
Lemma registry_classified r name :
  reachable r →
  match classify_command r name with
  | Ok ClassUnknown | Ok (ClassReserved _ _ _) => lookup_command r name = Ok None
  | Ok (ClassCore s _) => lookup_command r name = Ok (Some s) ∧ signature_name s = name
  | Ok (ClassAlias canonical s _) =>
    lookup_command r name = Ok (Some s) ∧ signature_name s = canonical ∧ lookup_command r canonical = Ok (Some s)
  | Err _ | Panic => False
  end.
Proof.
  intros [_ _ He]%reachable_wf. unfold classify_command, lookup_command.
  destruct (stored r name) as [[s l|target l|major purpose replacement]|] eqn:Hs; [| |done|done].
  - by destruct (He _ _ Hs) as (_ & _ & _ & Hc).
  - destruct (He _ _ Hs) as (_ & _ & [_ [_ (s & l' & Hcore)]] & _). rewrite Hcore.
    destruct (He _ _ Hcore) as (_ & _ & _ & Hname). split_and!; [done..|]. by rewrite Hcore.
Qed.

(** On every registry the program can build (the empty one, a validated
    manifest, and any signatures registered after) classifying and looking up a
    spelling never reaches its [unreachable!]: an alias always leads to a core, the
    two calls and contains agree on what is executable, a core is found under its
    own name, and every replacement is another core. *)
Theorem registry_lookups_agree (r : CommandRegistry) (name : str) :
  reachable r →
  match classify_command r name with
  | Ok ClassUnknown => lookup_command r name = Ok None ∧ contains_command r name = false ∧ name ∉ (registry_entries r).*1
  | Ok (ClassCore s l) =>
    lookup_command r name = Ok (Some s) ∧ contains_command r name = true ∧ signature_name s = name ∧
    ∀ replacement, lifecycle_replacement l = Some replacement → replacement ≠ name ∧ core_of r replacement
  | Ok (ClassAlias canonical s l) =>
    lookup_command r name = Ok (Some s) ∧ contains_command r name = true ∧ signature_name s = canonical ∧
    canonical ≠ name ∧ (∃ l', classify_command r canonical = Ok (ClassCore s l')) ∧
    ∀ replacement, lifecycle_replacement l = Some replacement → replacement ≠ name ∧ core_of r replacement
  | Ok (ClassReserved purpose replacement _) =>
    lookup_command r name = Ok None ∧ contains_command r name = false ∧ purpose ≠ [] ∧
    ∀ target, replacement = Some target → target ≠ name ∧ core_of r target
  | Err _ | Panic => False
  end.
Proof.
  intros [_ _ He]%reachable_wf. unfold classify_command, lookup_command, contains_command.
  destruct (stored r name) as [e|] eqn:Hs; [|split_and!; [done..|by apply map_get_None]].
  destruct (He _ _ Hs) as (_ & Hok & [Hr Ht] & Hc). destruct e as [s l|target l|major purpose replacement].
  - done.
  - destruct Ht as (Hne & s & l' & Hcore). rewrite Hcore. destruct (He _ _ Hcore) as (_ & _ & _ & Hname).
    split_and!; try done. exists l'. by rewrite Hcore.
  - destruct Hok as [_ Hp]. done.
Qed.

(** ** Validation of arguments

    Arguments that are all known: what planning validates. *)
Definition known_input (i : CommandArgumentInput) : Prop :=
  match i with InputWord (Some _) | InputClosure => True | _ => False end.

Definition input_kind (i : CommandArgumentInput) : CommandArgumentKind :=
  match i with InputWord _ => KindWord | _ => KindClosure end.

(** A word that is read as an option while options are active. *)
Definition option_like (s : CommandArgumentSchema) (i : CommandArgumentInput) : Prop :=
  match i with
  | InputWord (Some bytes) => dashes `prefix_of` bytes ∧ (bytes = dashes → terminator s = TerminatorAccepted)
  | _ => False
  end.

(** [conforms s active started n names inputs m]: the inputs, after [n]
    positionals and the options [names], go on as the schema asks and end at [m]
    positionals. *)
Inductive conforms (s : CommandArgumentSchema) :
    bool → bool → nat → list str → list CommandArgumentInput → nat → Prop :=
| conforms_end active started n names : conforms s active started n names [] n
| conforms_dashes started n names rest m :
    terminator s = TerminatorAccepted → conforms s false started n names rest m →
    conforms s true started n names (InputWord (Some dashes) :: rest) m
| conforms_option started n names bytes o values rest m :
    dashes `prefix_of` bytes → bytes ≠ dashes →
    map_get (options s) (from_utf8_lossy bytes) = Some o →
    (options_first s = true → started = false) →
    (repeatable o = true ∨ from_utf8_lossy bytes ∉ names) →
    (∀ conflict, conflict ∈ (conflicts o).*1 → conflict ∉ names) →
    length values = value_arity o →
    conforms s true started n (from_utf8_lossy bytes :: names) rest m →
    conforms s true started n names (InputWord (Some bytes) :: values ++ rest) m
| conforms_positional active started n names input rest m :
    (active = true → ¬ option_like s input) →
    positional_kind s n = KindAny ∨ positional_kind s n = input_kind input →
    conforms s active true (S n) names rest m →
    conforms s active started n names (input :: rest) m.

(** The locals of the loop when everything before was known. *)
Definition tracks (v : Validation) (active started : bool) (n : nat) (names : list str) : Prop :=
  options_active v = active ∧ positional_started v = started ∧ definite_positionals v = n ∧
  possible_positionals v = n ∧ unbounded_positionals v = false ∧ uncertain_options v = false ∧
  ∀ name, was_seen v name = bool_decide (name ∈ names).

Lemma fault_if_faults b v index kind :
  faults (fault_if b v index kind) = faults v ++ (if b then [mkFault (Some index) kind] else []).
Proof. destruct b; simpl; [done|by rewrite app_nil_r]. Qed.

Lemma fault_if_tracks b v index kind active started n names :
  tracks (fault_if b v index kind) active started n names ↔ tracks v active started n names.
Proof. by destruct b. Qed.

Lemma was_seen_insert v name index x :
  was_seen (see_option v name index) x = str_eqb name x || was_seen v x.
Proof. unfold was_seen, see_option. cbn [seen]. rewrite map_get_insert. by destruct (str_eqb name x). Qed.

Lemma seen_conflict_spec v o (names : list str) :
  (∀ name, was_seen v name = bool_decide (name ∈ names)) →
  seen_conflict v o = None ↔ ∀ conflict, conflict ∈ (conflicts o).*1 → conflict ∉ names.
Proof.
  intros Hseen. unfold seen_conflict. generalize (conflicts o).*1. intros l.
  rewrite head_None. induction l as [|c l IH]; [split; [by intros _ ? ?%not_elem_of_nil|done]|].
  rewrite filter_cons. case_decide as Hc; rewrite Hseen in Hc.
  - apply bool_decide_eq_true in Hc. split; [done|]. intros H. destruct (H c ltac:(by left) Hc).
  - apply not_true_is_false, bool_decide_eq_false in Hc. rewrite IH. split.
    + intros H x [->|Hx]%elem_of_cons; auto.
    + intros H x Hx. apply H. by right.
Qed.

Lemma conforms_dashes_inv s started n names tail m :
  terminator s = TerminatorAccepted →
  conforms s true started n names (InputWord (Some dashes) :: tail) m ↔ conforms s false started n names tail m.
Proof.
  intros Ht. split; [|by apply conforms_dashes]. inversion 1; subst; try done.
  match goal with H : true = true → ¬ _ |- _ => destruct (H eq_refl) end. done.
Qed.

Lemma conforms_option_inv s started n names bytes tail m :
  dashes `prefix_of` bytes → bytes ≠ dashes →
  conforms s true started n names (InputWord (Some bytes) :: tail) m ↔
    ∃ o, map_get (options s) (from_utf8_lossy bytes) = Some o ∧
      (options_first s = true → started = false) ∧
      (repeatable o = true ∨ from_utf8_lossy bytes ∉ names) ∧
      (∀ conflict, conflict ∈ (conflicts o).*1 → conflict ∉ names) ∧
      value_arity o ≤ length tail ∧
      conforms s true started n (from_utf8_lossy bytes :: names) (drop (value_arity o) tail) m.
Proof.
  intros Hp Hne. split.
  - inversion 1 as [|? ? ? ? ? ? ?|? ? ? ? o values rest ? ? ? Ho Hf Hr Hc Hl Hrest|]; subst; [done| |].
    + exists o. rewrite length_app, <- Hl, drop_app_length. split_and!; try done. lia.
    + match goal with H : true = true → ¬ _ |- _ => destruct (H eq_refl) end. by split.
  - intros (o & Ho & Hf & Hr & Hc & Hl & Hrest). rewrite <- (take_drop (value_arity o) tail).
    eapply conforms_option; try done. rewrite length_take. lia.
Qed.

Lemma conforms_positional_inv s active started n names input tail m :
  (active = true → ¬ option_like s input) → known_input input →
  conforms s active started n names (input :: tail) m ↔
    (positional_kind s n = KindAny ∨ positional_kind s n = input_kind input) ∧
    conforms s active true (S n) names tail m.
Proof.
  intros Ho Hk. split; [|by intros []; apply conforms_positional].
  inversion 1; subst; try done; destruct (Ho eq_refl); [|by split]. split; [done|]. done.
Qed.

(** Which of the three arms takes a known input. *)
Definition literal_dashes (s : CommandArgumentSchema) : bool :=
  match terminator s with TerminatorLiteral => true | TerminatorAccepted => false end.

Lemma is_dashes_spec bytes : is_dashes bytes = true ↔ bytes = dashes.
Proof. apply str_eqb_eq. Qed.

(** What the loop promises of the rest. *)
Definition loop_result (s : CommandArgumentSchema) (v : Validation) (active started : bool) (n : nat)
    (names : list str) (tail : list CommandArgumentInput) (r : res Empty_set Validation) : Prop :=
  ∃ v' fs, r = Ok v' ∧ faults v' = faults v ++ fs ∧
    (fs = [] → conforms s active started n names tail (definite_positionals v') ∧
       possible_positionals v' = definite_positionals v' ∧ unbounded_positionals v' = false ∧ uncertain_options v' = false) ∧
    ∀ m, conforms s active started n names tail m → fs = [] ∧ m = definite_positionals v'.

(** An input that adds the faults [fs] and goes on. *)
Lemma loop_result_step s v v1 fs active started n names tail active1 started1 n1 names1 tail1 r :
  faults v1 = faults v ++ fs →
  (∀ m, conforms s active started n names tail m ↔ fs = [] ∧ conforms s active1 started1 n1 names1 tail1 m) →
  loop_result s v1 active1 started1 n1 names1 tail1 r → loop_result s v active started n names tail r.
Proof.
  intros Hfs Hiff (v' & fs' & -> & Hv' & Hok & Hconf). exists v', (fs ++ fs').
  split; [done|]. split; [by rewrite Hv', Hfs, app_assoc|]. split.
  - intros [-> ->]%app_nil. destruct (Hok eq_refl) as [Hc Hrest]. split; [by apply Hiff|done].
  - intros m [-> Hm]%Hiff. by apply Hconf.
Qed.

(** An input that adds a fault and ends the loop. *)
Lemma loop_result_stop s v v1 f active started n names tail :
  faults v1 = faults v ++ f → f ≠ [] → (∀ m, ¬ conforms s active started n names tail m) →
  loop_result s v active started n names tail (Ok v1).
Proof. intros Hf Hne Hno. exists v1, f. split_and!; try done. intros m Hm. by destruct (Hno m). Qed.

Lemma positional_tracks s index kind v active started n names :
  tracks v active started n names → tracks (validate_positional s index kind v) active true (S n) names.
Proof.
  intros (? & ? & Hd & Hp & ? & ? & ?). unfold validate_positional. apply fault_if_tracks.
  unfold tracks, count_positional. cbn. rewrite Hd, Hp. done.
Qed.

Lemma positional_faults s index kind v active started n names :
  tracks v active started n names →
  ∃ fs, faults (validate_positional s index kind v) = faults v ++ fs ∧
    (fs = [] ↔ positional_kind s n = KindAny ∨ positional_kind s n = kind).
Proof.
  intros (_ & _ & Hd & _ & _ & Hu & _). unfold validate_positional. rewrite fault_if_faults, Hd.
  eexists. split; [done|]. change (uncertain_options (count_positional v index)) with (uncertain_options v). rewrite Hu. simpl.
  destruct (bool_decide_reflect (positional_kind s n ≠ KindAny)), (bool_decide_reflect (positional_kind s n ≠ kind)); simpl;
    split; intros; try done; try tauto.
  - destruct (decide (positional_kind s n = kind)); tauto.
  - destruct (decide (positional_kind s n = KindAny)); tauto.
  - destruct (decide (positional_kind s n = KindAny)); tauto.
Qed.

Lemma positional_result fuel s inputs index v active started n names input tail :
  tracks v active started n names → known_input input → (active = true → ¬ option_like s input) →
  loop_result s (validate_positional s index (input_kind input) v) active true (S n) names tail
    (validate_loop fuel s inputs (index + 1) (validate_positional s index (input_kind input) v)) →
  loop_result s v active started n names (input :: tail)
    (validate_loop fuel s inputs (index + 1) (validate_positional s index (input_kind input) v)).
Proof.
  intros Hv Hk Ho. destruct (positional_faults s index (input_kind input) v _ _ _ _ Hv) as (fs & Hfs & Hiff).
  apply (loop_result_step _ _ _ fs); [exact Hfs|]. intros m. rewrite conforms_positional_inv by done. by rewrite Hiff.
Qed.

(** The faults of a known option, in the order they are found. *)
Definition option_faults (s : CommandArgumentSchema) (started : bool) (names : list str) (name : str)
    (o : CommandOptionSchema) : Prop :=
  (options_first s = true → started = false) ∧ (repeatable o = true ∨ name ∉ names) ∧
  (∀ conflict, conflict ∈ (conflicts o).*1 → conflict ∉ names).

Lemma option_checked s inputs index bytes v started n names o :
  tracks v true started n names → map_get (options s) (from_utf8_lossy bytes) = Some o →
  ∃ v1 fs, tracks v1 true started n (from_utf8_lossy bytes :: names) ∧ faults v1 = faults v ++ fs ∧
    (fs = [] ↔ option_faults s started names (from_utf8_lossy bytes) o) ∧
    validate_option s inputs index bytes v =
      (if length inputs - (index + 1) <? value_arity o
       then (fault_at v1 index (MissingOptionValues (from_utf8_lossy bytes) (value_arity o) (length inputs - (index + 1))), None)
       else (v1, Some (value_arity o + 1))).
Proof.
  intros Hv Ho. unfold validate_option. rewrite Ho. set (name := from_utf8_lossy bytes).
  set (va := fault_if _ v index _). set (vb := fault_if _ va index _).
  assert (tracks va true started n names) as Hva by (by apply fault_if_tracks).
  assert (tracks vb true started n names) as Hvb by (by apply fault_if_tracks).
  assert (seen_conflict vb o = None ↔ ∀ conflict, conflict ∈ (conflicts o).*1 → conflict ∉ names) as Hconf.
  { apply seen_conflict_spec, Hvb. }
  assert (∃ fs, faults vb = faults v ++ fs ∧
    (fs = [] ↔ (options_first s = true → started = false) ∧ (repeatable o = true ∨ name ∉ names))) as (fs & Hfs & Hiff).
  { unfold vb, va. rewrite !fault_if_faults, <- app_assoc. eexists. split; [done|].
    destruct Hva as (_ & _ & _ & _ & _ & _ & Hseen). unfold va in Hseen. rewrite Hseen. destruct Hv as (_ & -> & _).
    destruct (options_first s), started, (repeatable o), (bool_decide_reflect (name ∈ names)); simpl; naive_solver. }
  set (vc := match seen_conflict vb o with Some conflict => fault_at vb index (ConflictingOptions name conflict) | None => vb end).
  exists (see_option vc name index).
  exists (fs ++ match seen_conflict vb o with Some conflict => [mkFault (Some index) (ConflictingOptions name conflict)] | None => [] end).
  split_and!.
  - assert (tracks vc true started n names) as (? & ? & ? & ? & ? & ? & Hseen) by (unfold vc; by destruct (seen_conflict vb o)).
    unfold tracks. split_and!; try done. intros x. rewrite was_seen_insert, Hseen.
    destruct (str_eqb name x) eqn:E; simpl; symmetry.
    + apply str_eqb_eq in E as <-. apply bool_decide_eq_true. by left.
    + apply bool_decide_ext. rewrite elem_of_cons. split; [|tauto]. intros [->|?]; [|done].
      by rewrite (proj2 (str_eqb_eq name name)) in E.
  - unfold vc. rewrite app_assoc, <- Hfs. destruct (seen_conflict vb o); cbn; [done|by rewrite app_nil_r].
  - unfold option_faults. rewrite <- Hconf. destruct (seen_conflict vb o); [|rewrite app_nil_r; tauto].
    split; [by intros [_ ?]%app_nil|]. by intros (_ & _ & ?).
  - done.
Qed.

(** The loop on known inputs: it ends; it adds no fault exactly when the inputs
    conform, and then it counts their positionals. *)
Lemma loop_exact fuel s inputs index v active started n names :
  tracks v active started n names → Forall known_input inputs → length inputs - index ≤ fuel →
  loop_result s v active started n names (drop index inputs) (validate_loop fuel s inputs index v).
Proof.
  revert index v active started n names. induction fuel as [|fuel IH]; intros index v active started n names Hv Hk Hf;
    cbn [validate_loop]; (destruct (inputs !! index) as [input|] eqn:Hi;
      [|exists v, []; rewrite app_nil_r; apply lookup_ge_None in Hi; rewrite drop_ge by done;
        destruct Hv as (_ & _ & <- & Hp & Hu & Hc & _); split; [done|]; split; [done|];
        split; [intros _; split; [apply conforms_end|done]|by intros m Hm; inv Hm]]).
  { apply lookup_lt_Some in Hi. lia. }
  pose proof (lookup_lt_Some _ _ _ Hi) as Hlt. rewrite (drop_S _ _ _ Hi).
  assert (known_input input) as Hknown by (eapply Forall_lookup_1; done).
  assert (∀ v1 active1 started1 n1 names1, tracks v1 active1 started1 n1 names1 →
    loop_result s v1 active1 started1 n1 names1 (drop (S index) inputs) (validate_loop fuel s inputs (index + 1) v1)) as Hnext.
  { intros. rewrite Nat.add_1_r. apply IH; [done|done|lia]. }
  assert ((active = true → ¬ option_like s input) → loop_result s v active started n names (input :: drop (S index) inputs)
    (validate_loop fuel s inputs (index + 1) (validate_positional s index (input_kind input) v))) as Hpos.
  { intros Ho. apply positional_result; [done..|]. by apply Hnext, positional_tracks with started. }
  pose proof Hv as (Ha & _). destruct input as [[bytes|]| |]; try done; cbn [validate_input]; [|apply Hpos; intros _ []].
  rewrite Ha. destruct (is_dashes bytes) eqn:Hb.
  - apply is_dashes_spec in Hb as ->. destruct active; cbn [andb]; [|by apply Hpos].
    destruct (terminator s) eqn:Ht; cbn [negb andb].
    + apply (loop_result_step _ _ (end_options v) [] _ _ _ _ _ false started n names (drop (S index) inputs)); [by rewrite app_nil_r| |].
      * intros m. rewrite conforms_dashes_inv by done. tauto.
      * apply Hnext. destruct Hv as (_ & Hrest). by split.
    + rewrite andb_false_r. apply Hpos. intros _ [_ Hd]. specialize (Hd eq_refl). congruence.
  - rewrite !andb_false_r. cbn [negb]. rewrite andb_true_r.
    assert (bytes ≠ dashes) as Hne by (intros H; apply is_dashes_spec in H; congruence).
    destruct active; cbn [andb]; [|by apply Hpos].
    destruct (bool_decide_reflect (dashes `prefix_of` bytes)) as [Hprefix|Hprefix]; [|apply Hpos; by intros _ []].
    destruct (map_get (options s) (from_utf8_lossy bytes)) as [o|] eqn:Ho.
    + destruct (option_checked s inputs index bytes v started n names o Hv Ho) as (v1 & fs & Hv1 & Hfs & Hiff & ->).
      pose proof (λ m, conforms_option_inv s started n names bytes (drop (S index) inputs) m Hprefix Hne) as Hinv.
      destruct (Nat.ltb_spec (length inputs - (index + 1)) (value_arity o)) as [Hshort|Hlong].
      * eapply (loop_result_stop _ _ _ (fs ++ [_])); [cbn [fault_at faults]; by rewrite Hfs, <- app_assoc|by destruct fs|].
        intros m (o' & Ho' & _ & _ & _ & Hl & _)%Hinv. rewrite length_drop in Hl. simplify_eq. lia.
      * apply (loop_result_step _ _ v1 fs _ _ _ _ _ true started n (from_utf8_lossy bytes :: names)
          (drop (value_arity o) (drop (S index) inputs))); [done| |].
        -- intros m. rewrite Hinv, Hiff. unfold option_faults. split.
           ++ intros (o' & Ho' & ? & ? & ? & _ & ?). simplify_eq. done.
           ++ intros [(? & ? & ?) ?]. exists o. split_and!; try done. rewrite length_drop. lia.
        -- rewrite drop_drop. replace (S index + value_arity o) with (index + (value_arity o + 1)) by lia. apply IH; [done|done|lia].
    + unfold validate_option. rewrite Ho.
      apply (loop_result_step _ _ (fault_at v index (UnknownOption (from_utf8_lossy bytes)))
        [mkFault (Some index) (UnknownOption (from_utf8_lossy bytes))] _ _ _ _ _ true started n names (drop (S index) inputs)); [done| |].
      * intros m. rewrite conforms_option_inv by done. split; [intros (o & ? & _); congruence|by intros [? _]].
      * apply Hnext. exact Hv.
Qed.

Definition validation_start : Validation := mkValidation [] true false 0 [] 0 false false [].

(** The loop ends on any input: every step goes on by at least one. *)
Lemma validate_loop_total fuel s inputs index v :
  length inputs - index ≤ fuel → ∃ v', validate_loop fuel s inputs index v = Ok v'.
Proof.
  revert index v. induction fuel as [|fuel IH]; intros index v Hf; cbn [validate_loop];
    (destruct (inputs !! index) as [input|] eqn:Hi; [|by eexists]); apply lookup_lt_Some in Hi; [lia|].
  destruct (validate_input s inputs index input v) as [v1 next] eqn:Hv.
  assert (∀ k, next = Some k → 1 ≤ k) as Hk.
  { unfold validate_input, validate_option in Hv. intros k ->.
    destruct input as [[bytes|]| |]; repeat case_match; simplify_eq; lia. }
  destruct next as [k|]; [|by eexists]. apply IH. specialize (Hk k eq_refl). lia.
Qed.

Lemma validate_total s inputs : ∃ fs, validate s inputs = Ok fs.
Proof.
  unfold validate. destruct (validate_loop_total (length inputs) s inputs 0 validation_start) as [v Hv]; [lia|].
  unfold validation_start in Hv. rewrite Hv. by eexists.
Qed.

Lemma arity_fault_nil s v :
  possible_positionals v = definite_positionals v → unbounded_positionals v = false → uncertain_options v = false →
  arity_fault s v = [] ↔ minimum s ≤ definite_positionals v ∧ ∀ k, maximum s = Some k → definite_positionals v ≤ k.
Proof.
  intros Hp Hu Hc. unfold arity_fault, too_few, too_many. rewrite Hp, Hu, Hc. cbn [negb andb].
  destruct (Nat.ltb_spec (definite_positionals v) (minimum s)) as [Hlt|Hge]; cbn [orb]; [split; [done|lia]|].
  destruct (maximum s) as [k|]; [|split; [by intros _; split|done]].
  destruct (Nat.ltb_spec k (definite_positionals v)); split; try done.
  - intros [_ H']. specialize (H' k eq_refl). lia.
  - intros _. split; [done|]. intros ? [= <-]. lia.
Qed.

(** The faults of known arguments: those of the loop, then that of the number. *)
Lemma validate_loop_exact s inputs :
  Forall known_input inputs →
  ∃ v fs, validate s inputs = Ok (fs ++ arity_fault s v) ∧
    loop_result s validation_start true false 0 [] inputs (Ok v) ∧ faults v = fs.
Proof.
  intros Hk. pose proof (loop_exact (length inputs) s inputs 0 validation_start true false 0 []) as H.
  ospecialize (H _ Hk _); [by split_and!|lia|]. rewrite drop_0 in H.
  pose proof H as (v & fs & Hv & Hfs & _). exists v, (faults v). rewrite Hv in H. split; [|done].
  unfold validate. unfold validation_start in Hv. by rewrite Hv.
Qed.

Lemma validate_conforms s inputs :
  Forall known_input inputs → validate s inputs = Ok [] →
  ∃ m, conforms s true false 0 [] inputs m ∧ minimum s ≤ m ∧ ∀ k, maximum s = Some k → m ≤ k.
Proof.
  intros Hk Hv. destruct (validate_loop_exact s inputs Hk) as (v & fs & Heq & (v' & fs' & [= <-] & Hfs & Hok & _) & Hf).
  rewrite Heq in Hv. injection Hv as [Hnil Ha]%app_nil. rewrite Hf, Hnil in Hfs. symmetry in Hfs. cbn in Hfs.
  destruct (Hok Hfs) as (Hc & Hp & Hu & Hun). apply arity_fault_nil in Ha; try done. by exists (definite_positionals v).
Qed.

(** C23: Validation of arguments that are all known is exact: it always ends, and
    it reports no fault exactly when the arguments conform to the schema: [--]
    ends the options, every option is known, comes with its values, repeats only if
    it may, conflicts with none before it and follows no positional when options
    come first, and the positionals have their kinds and a number in the bounds. *)
Theorem validate_exact (s : CommandArgumentSchema) (inputs : list CommandArgumentInput) :
  Forall known_input inputs →
  ∃ fs, validate s inputs = Ok fs ∧
    (fs = [] ↔ ∃ m, conforms s true false 0 [] inputs m ∧ minimum s ≤ m ∧ ∀ k, maximum s = Some k → m ≤ k).
Proof.
  intros Hk. destruct (validate_loop_exact s inputs Hk) as (v & fs & Heq & (v' & fs' & [= <-] & Hfs & Hok & Hm) & Hf).
  exists (fs ++ arity_fault s v). split; [done|]. cbn in Hfs. split.
  - intros Hnil. rewrite Hnil in Heq. by apply validate_conforms.
  - intros (m & Hc & Hb). destruct (Hm m Hc) as [Hnil ->]. destruct (Hok Hnil) as (_ & Hp & Hu & Hun).
    rewrite <- Hf, Hfs, Hnil. by apply arity_fault_nil.
Qed.

Definition sample_schema : CommandArgumentSchema :=
  with_options (positional 1 (Some 2)) [option_flag (bs "--all"); with_value_arity (option_flag (bs "--limit")) 1].

Lemma validate_exact_witness :
  validate sample_schema [InputWord (Some (bs "--limit")); InputWord (Some (bs "3")); InputWord (Some dashes); InputWord (Some (bs "--all"))] = Ok [] ∧
  ∃ m, conforms sample_schema true false 0 []
    [InputWord (Some (bs "--limit")); InputWord (Some (bs "3")); InputWord (Some dashes); InputWord (Some (bs "--all"))] m ∧ 1 ≤ m.
Proof.
  destruct (validate_exact sample_schema
    [InputWord (Some (bs "--limit")); InputWord (Some (bs "3")); InputWord (Some dashes); InputWord (Some (bs "--all"))]) as (fs & Hv & Hiff).
  - repeat constructor.
  - split; [vm_compute; reflexivity|].
    assert (fs = []) as Hfs by (vm_compute in Hv; injection Hv as <-; reflexivity).
    destruct (proj1 Hiff Hfs) as (m & Hc & Hb & _). exact (ex_intro _ m (conj Hc Hb)).
Defined.

(** A word that is not known yet may end the options, and still what looks like
    an option after it is a fault: the validation is not independent of the value. *)
Lemma unknown_word_still_faults :
  validate sample_schema [InputWord None; InputWord (Some (bs "--bad"))] =
    Ok [mkFault (Some 1) (UnknownOption (bs "--bad"))] ∧
  validate sample_schema [InputWord (Some dashes); InputWord (Some (bs "--bad"))] = Ok [].
Proof. split; vm_compute; reflexivity. Qed.

(** ** Registering *)

(** A signature is added exactly when it has a name that is free; what is stored
    under the other spellings stays. *)
Lemma register_exact r s :
  (register r s).1 = bool_decide (signature_name s ≠ [] ∧ stored r (signature_name s) = None) ∧
  ∀ name, stored (register r s).2 name =
    if (register r s).1 && str_eqb (signature_name s) name
    then Some (StoredCore s (introduced (registry_major r))) else stored r name.
Proof.
  unfold register. destruct (signature_name s) as [|b name] eqn:Hname; rewrite <- ?Hname.
  - split; [symmetry; apply bool_decide_eq_false; naive_solver|done].
  - destruct (stored r (signature_name s)) eqn:Hs; cbn [fst snd].
    + split; [symmetry; apply bool_decide_eq_false; naive_solver|done].
    + split; [symmetry; apply bool_decide_eq_true; split; [congruence|done]|].
      intros x. unfold stored. cbn [registry_entries]. by rewrite map_get_insert.
Qed.

Lemma registry_lookups_agree_witness :
  lookup_command (register registry_new (signature_new (bs "ls") [] CarrierEmpty)).2 (bs "ls") =
    Ok (Some (signature_new (bs "ls") [] CarrierEmpty)).
Proof.
  pose proof (registry_lookups_agree (register registry_new (signature_new (bs "ls") [] CarrierEmpty)).2 (bs "ls")) as H.
  assert (reachable (register registry_new (signature_new (bs "ls") [] CarrierEmpty)).2) as Hr by (apply reach_register, reach_new).
  exact (proj1 (H Hr)).
Defined.
