(* ===== verification/Carrier.v ===== *)
(** * Carriers of a pipeline ([opaal-runtime/src/carrier.rs])

    Which carrier flows over each edge, what is at fault before anything
    starts, and the planner that gives every typed stream one consumer. *)
From S2P Require Import Prelude Ast Value Stream Command.

Local Open Scope res_scope.

(** ** Typed streams *)

Inductive StreamPlanningFault :=
| ElementTypeMismatch (producer consumer : str) (produced accepted : ValueType)
| DuplicateConsumption (owner : Z) (first_consumer duplicate_consumer : str).

(** The claims, by owner. *)
Definition StreamConsumptionPlanner : Type := list (Z * str).

Definition claimed (p : StreamConsumptionPlanner) (owner : Z) : option str :=
  snd <$> List.find (λ c, (c.1 =? owner)%Z) p.

Fixpoint stream_type_accepts (expected actual : ValueType) : bool :=
  match expected, actual with
  | (TAny | TTypeParameter _), _ => true
  | TList expected, TList actual => stream_type_accepts expected actual
  | _, _ => ValueType_eqb expected actual
  end.

Definition claim (p : StreamConsumptionPlanner) (producer : str) (schema : StreamSchema) (consumer : str)
    (accepted : ValueType) : res StreamPlanningFault unit * StreamConsumptionPlanner :=
  if negb (stream_type_accepts accepted (element_type schema))
  then (Err (ElementTypeMismatch producer consumer (element_type schema) accepted), p)
  else
    match claimed p (owner schema) with
    | Some first_consumer => (Err (DuplicateConsumption (owner schema) first_consumer consumer), p)
    | None => (Ok tt, (owner schema, consumer) :: p)
    end.

(** ** Contracts *)

Inductive CarrierBridge := StructuredToByte | ByteToStructured.

Record CarrierMismatch := mkMismatch {
  producer_command : str;
  produced_carrier : Carrier;
  consumer_command : str;
  accepted_carriers : list Carrier;
  bridge : option CarrierBridge
}.

(** The accepted carriers are a [BTreeSet]: the list [carrier_set] keeps. *)
Inductive StageCarrierContract :=
| ContractKnown (display_name : str) (accepted : list Carrier) (output : CommandOutput)
| ContractUnknown.

Definition known_contract (display_name : str) (accepted : list Carrier) (output : CommandOutput)
    : StageCarrierContract :=
  ContractKnown display_name (carrier_set accepted) output.

Definition contract_accepted (c : StageCarrierContract) : option (list Carrier) :=
  match c with ContractKnown _ accepted _ => Some accepted | ContractUnknown => None end.
Definition contract_name (c : StageCarrierContract) : option str :=
  match c with ContractKnown name _ _ => Some name | ContractUnknown => None end.

Definition contract_output (c : StageCarrierContract) (input : option Carrier) : option Carrier :=
  match c with
  | ContractUnknown => None
  | ContractKnown _ _ (OutputFixed output) => Some output
  | ContractKnown _ accepted SameAsInput =>
    match input with
    | Some input => if bool_decide (input ∈ accepted) then Some input else None
    | None => None
    end
  end.

Inductive PipelineCarrierFault :=
| HeadInput (stage : nat) (command : str) (accepted : list Carrier)
| FaultMergedEdge (edge : nat) (producer_command : str) (produced : Carrier)
| FaultCarrierMismatch (edge : nat) (mismatch : CarrierMismatch).

(** ** The analysis *)

Definition head_fault (stages : list StageCarrierContract) : list PipelineCarrierFault :=
  match stages with
  | ContractKnown name accepted _ :: _ =>
    if negb (bool_decide (CarrierEmpty ∈ accepted)) && negb (bool_decide (CarrierByteStream ∈ accepted))
    then [HeadInput 0 name accepted] else []
  | _ => []
  end.

(** What the head of the pipeline is given. *)
Definition head_input (c : StageCarrierContract) : option Carrier :=
  accepted ← contract_accepted c;
  if bool_decide (CarrierEmpty ∈ accepted) then Some CarrierEmpty
  else if bool_decide (CarrierByteStream ∈ accepted) then Some CarrierByteStream
  else None.

Fixpoint outputs_loop (input : option Carrier) (stages : list StageCarrierContract) : list (option Carrier) :=
  match stages with
  | [] => []
  | stage :: stages => contract_output stage input :: outputs_loop (contract_output stage input) stages
  end.

Definition stage_outputs (stages : list StageCarrierContract) : list (option Carrier) :=
  match stages with [] => [] | head :: _ => outputs_loop (head_input head) stages end.

Definition is_structured (c : Carrier) : bool :=
  match c with CarrierValue | CarrierValueStream => true | _ => false end.

Definition bridge_for (produced : Carrier) (accepted : list Carrier) : option CarrierBridge :=
  if is_structured produced && bool_decide (CarrierByteStream ∈ accepted) then Some StructuredToByte
  else if bool_decide (produced = CarrierByteStream) && existsb is_structured accepted then Some ByteToStructured
  else None.

(** The body of the loop over the edges; [stages[edge + 1]] and [outputs[edge]]
    may be out of bounds. *)
Definition edge_fault (stages : list StageCarrierContract) (outputs : list (option Carrier)) (edge : nat)
    (operator : PipeOperator) : res Empty_set (list PipelineCarrierFault) :=
  let* produced := expect_some (outputs !! edge) in
  match produced with
  | None => Ok []
  | Some produced =>
    let* stage := expect_some (stages !! edge) in
    match contract_name stage with
    | None => Ok []
    | Some producer_command =>
      if match operator with StdoutAndStderr => negb (bool_decide (produced = CarrierByteStream)) | Stdout => false end
      then Ok [FaultMergedEdge edge producer_command produced]
      else
        let* next := expect_some (stages !! S edge) in
        match contract_accepted next with
        | None => Ok []
        | Some accepted =>
          if bool_decide (produced ∈ accepted) then Ok []
          else
            let* consumer_command := expect_some (contract_name next) in
            Ok [FaultCarrierMismatch edge
                  (mkMismatch producer_command produced consumer_command accepted (bridge_for produced accepted))]
        end
    end
  end.

Fixpoint edges_loop (stages : list StageCarrierContract) (outputs : list (option Carrier)) (edge : nat)
    (operators : list PipeOperator) : res Empty_set (list PipelineCarrierFault) :=
  match operators with
  | [] => Ok []
  | operator :: operators =>
    let* faults := edge_fault stages outputs edge operator in
    let* rest := edges_loop stages outputs (S edge) operators in
    Ok (faults ++ rest)
  end.

(** With the [debug_assert_eq!]. *)
Definition analyze_pipeline_carriers (stages : list StageCarrierContract) (operators : list PipeOperator)
    : res Empty_set (list PipelineCarrierFault) :=
  if negb (length operators =? length stages - 1) then Panic
  else
    let* faults := edges_loop stages (stage_outputs stages) 0 operators in
    Ok (head_fault stages ++ faults).

(** ** What an analysis means *)

(** The carriers of a pipeline whose commands are all known: [input] reaches the
    first of the stages. *)
Inductive flows : Carrier → list StageCarrierContract → list PipeOperator → Prop :=
| flows_last input name accepted output :
    input ∈ accepted → flows input [ContractKnown name accepted output] []
| flows_edge input name accepted output next stages operator operators :
    input ∈ accepted →
    (operator = StdoutAndStderr → resolve_output output input = CarrierByteStream) →
    flows (resolve_output output input) (next :: stages) operators →
    flows input (ContractKnown name accepted output :: next :: stages) (operator :: operators).

Definition is_known (c : StageCarrierContract) : Prop := c ≠ ContractUnknown.

(** Unknown heads may turn out to be any command. *)
Definition refines (c d : StageCarrierContract) : Prop := c = ContractUnknown ∨ c = d.

Lemma outputs_length input stages : length (outputs_loop input stages) = length stages.
Proof. revert input. induction stages as [|c stages IH]; intros input; simpl; [done|by rewrite IH]. Qed.

(** *** Every edge has its answer *)

Definition edge_faults (produced : option Carrier) (stage next : StageCarrierContract) (edge : nat)
    (operator : PipeOperator) : list PipelineCarrierFault :=
  match produced, stage with
  | Some produced, ContractKnown producer _ _ =>
    if match operator with StdoutAndStderr => negb (bool_decide (produced = CarrierByteStream)) | Stdout => false end
    then [FaultMergedEdge edge producer produced]
    else
      match next with
      | ContractKnown consumer accepted _ =>
        if bool_decide (produced ∈ accepted) then []
        else [FaultCarrierMismatch edge (mkMismatch producer produced consumer accepted (bridge_for produced accepted))]
      | ContractUnknown => []
      end
  | _, _ => []
  end.

Lemma edge_fault_eq stages outputs edge operator produced stage next :
  outputs !! edge = Some produced → stages !! edge = Some stage → stages !! S edge = Some next →
  edge_fault stages outputs edge operator = Ok (edge_faults produced stage next edge operator).
Proof.
  intros Ho Hs Hn. unfold edge_fault, edge_faults. rewrite Ho. simpl. destruct produced as [produced|]; [|done].
  rewrite Hs. simpl. destruct stage as [producer accepted output|]; simpl; [|done].
  destruct operator; simpl; [|case_bool_decide; simpl; [|done]];
    rewrite Hn; destruct next; simpl; try done; by case_bool_decide.
Qed.

(** The edges after the first [edge] stages, read off the lists. *)
Fixpoint tail_faults (edge : nat) (input : option Carrier) (stages : list StageCarrierContract)
    (operators : list PipeOperator) {struct operators} : list PipelineCarrierFault :=
  match operators, stages with
  | operator :: operators, stage :: ((next :: _) as rest) =>
    edge_faults (contract_output stage input) stage next edge operator ++
    tail_faults (S edge) (contract_output stage input) rest operators
  | _, _ => []
  end.

Lemma edges_loop_eq before outs input stages operators :
  length before = length outs → length operators = length stages - 1 →
  edges_loop (before ++ stages) (outs ++ outputs_loop input stages) (length before) operators =
    Ok (tail_faults (length before) input stages operators).
Proof.
  revert before outs input stages. induction operators as [|operator operators IH]; intros before outs input stages Hb Hl;
    [done|]. destruct stages as [|stage [|next rest]]; simpl in Hl; try lia. cbn [edges_loop tail_faults].
  rewrite (edge_fault_eq _ _ _ _ (contract_output stage input) stage next).
  - simpl. specialize (IH (before ++ [stage]) (outs ++ [contract_output stage input]) (contract_output stage input) (next :: rest)).
    rewrite !length_app, <- !app_assoc, Nat.add_1_r in IH. cbn [app] in IH. cbn [outputs_loop] in IH |- *.
    rewrite IH; [done|simpl; lia|simpl; lia].
  - by rewrite lookup_app_r, Hb, Nat.sub_diag by lia.
  - by rewrite lookup_app_r, Nat.sub_diag by lia.
  - rewrite lookup_app_r by lia. by replace (S (length before) - length before) with 1 by lia.
Qed.

Lemma analyze_eq head stages operators :
  length operators = length stages →
  analyze_pipeline_carriers (head :: stages) operators =
    Ok (head_fault (head :: stages) ++ tail_faults 0 (head_input head) (head :: stages) operators).
Proof.
  intros Hl. unfold analyze_pipeline_carriers, stage_outputs. cbn [length]. rewrite Nat.sub_succ, Nat.sub_0_r.
  rewrite (proj2 (Nat.eqb_eq _ _) Hl). cbn [negb].
  pose proof (edges_loop_eq [] [] (head_input head) (head :: stages) operators eq_refl ltac:(simpl; lia)) as He.
  cbn [app length] in He. by rewrite He.
Qed.

(** *** Known pipelines *)

Lemma tail_faults_nil edge input name accepted output stages operators :
  Forall is_known stages → length operators = length stages → input ∈ accepted →
  tail_faults edge (Some input) (ContractKnown name accepted output :: stages) operators = [] ↔
  flows input (ContractKnown name accepted output :: stages) operators.
Proof.
  revert edge input name accepted output operators.
  induction stages as [|next stages IH]; intros edge input name accepted output operators Hk Hl Hin;
    destruct operators as [|operator operators]; try discriminate Hl.
  { split; [intros _; by apply flows_last|done]. }
  apply Forall_cons in Hk as [Hnext Hk]. destruct next as [name' accepted' output'|]; [|by destruct Hnext].
  assert (contract_output (ContractKnown name accepted output) (Some input) = Some (resolve_output output input)) as Hout.
  { destruct output; [done|]. simpl. by rewrite bool_decide_true. }
  cbn [tail_faults]. rewrite Hout. cbn [edge_faults]. injection Hl as Hl. split.
  - intros [Hedge Hrest]%app_nil.
    assert (operator = StdoutAndStderr → resolve_output output input = CarrierByteStream) as Hop.
    { intros ->. by destruct (bool_decide_reflect (resolve_output output input = CarrierByteStream)). }
    assert (resolve_output output input ∈ accepted') as Hacc.
    { destruct operator; simpl in Hedge; [|rewrite bool_decide_true in Hedge by auto; simpl in Hedge];
        by destruct (bool_decide_reflect (resolve_output output input ∈ accepted')). }
    apply flows_edge; [done|done|]. by apply (IH (S edge)).
  - inversion 1 as [|? ? ? ? ? ? ? ? _ Hop Hrest]; subst.
    assert (resolve_output output input ∈ accepted') as Hacc by (by inversion Hrest).
    rewrite (proj2 (IH (S edge) _ _ _ _ _ Hk Hl Hacc) Hrest), app_nil_r, (bool_decide_true (_ ∈ accepted')) by done.
    destruct operator; [done|]. by rewrite bool_decide_true by auto.
Qed.

(** *** Unknown heads *)

Lemma output_refines c d input input' :
  refines c d → (input = None ∨ input = input') →
  contract_output c input = None ∨ contract_output c input = contract_output d input'.
Proof.
  intros [->| ->] Hi; [by left|]. destruct Hi as [->| ->]; [|by right].
  destruct d as [name accepted [output|]|]; simpl; auto.
Qed.

Lemma tail_faults_refines edge input input' stages stages' operators :
  Forall2 refines stages stages' → (input = None ∨ input = input') →
  tail_faults edge input stages operators `sublist_of` tail_faults edge input' stages' operators.
Proof.
  intros Hr. revert edge input input' operators.
  induction Hr as [|c d stages stages' Hc Hr IH]; intros edge input input' operators Hi;
    (destruct operators as [|operator operators]; [done|]); [done|].
  destruct Hr as [|c' d' rest rest' Hc' Hr]; [done|]. cbn [tail_faults].
  pose proof (output_refines c d input input' Hc Hi) as Ho. apply sublist_app; [|by apply IH].
  destruct Ho as [-> | ->]; [apply sublist_nil_l|]. destruct Hc as [->| ->];
    [unfold edge_faults; destruct (contract_output d input'); apply sublist_nil_l|].
  destruct Hc' as [->| ->]; [|done]. unfold edge_faults.
  destruct (contract_output d input') as [produced|]; [|done]. destruct d as [producer accepted output|]; [|done].
  destruct (match operator with Stdout => _ | StdoutAndStderr => _ end); [done|apply sublist_nil_l].
Qed.

Lemma head_fault_refines stages stages' :
  Forall2 refines stages stages' → head_fault stages `sublist_of` head_fault stages'.
Proof. intros [|c d l l' [->| ->] _]; [done|apply sublist_nil_l|by destruct d]. Qed.

(** On known commands, nothing is reported exactly when carriers flow. *)
Lemma known_faults_nil head stages operators :
  length operators = length stages → Forall is_known (head :: stages) →
  head_fault (head :: stages) ++ tail_faults 0 (head_input head) (head :: stages) operators = [] ↔
  ∃ input, head_input head = Some input ∧ flows input (head :: stages) operators.
Proof.
  intros Hl [Hh Hk]%Forall_cons. destruct head as [name accepted output|]; [|by destruct Hh].
  unfold head_fault, head_input. cbn [contract_accepted mbind option_bind].
  destruct (bool_decide_reflect (CarrierEmpty ∈ accepted)) as [He|He]; cbn [negb andb app].
  { rewrite tail_faults_nil by done. split; [by exists CarrierEmpty|by intros (? & [= <-] & ?)]. }
  destruct (bool_decide_reflect (CarrierByteStream ∈ accepted)) as [Hb|Hb]; cbn [negb andb app].
  { rewrite tail_faults_nil by done. split; [by exists CarrierByteStream|by intros (? & [= <-] & ?)]. }
  split; [done|by intros (? & ? & ?)].
Qed.

(** The carrier analysis is exact on known commands and makes no claim on
    unknown ones.  It never panics on a pipeline with one operator between
    stages; when every command is known it reports nothing exactly when carriers
    flow from the head to the last stage, each accepted where it arrives and only
    bytes over a merged edge; and whatever the unknown heads turn out to be, the
    faults it reported are still among those of the known pipeline, in order. *)
Theorem carriers_exact (head : StageCarrierContract) (stages : list StageCarrierContract)
    (operators : list PipeOperator) :
  length operators = length stages →
  ∃ faults, analyze_pipeline_carriers (head :: stages) operators = Ok faults ∧
    (Forall is_known (head :: stages) →
      faults = [] ↔ ∃ input, head_input head = Some input ∧ flows input (head :: stages) operators) ∧
    ∀ head' stages', Forall2 refines (head :: stages) (head' :: stages') →
      ∃ faults', analyze_pipeline_carriers (head' :: stages') operators = Ok faults' ∧ faults `sublist_of` faults'.
Proof.
  intros Hl. eexists. split; [by apply analyze_eq|]. split.
  - intros Hk. by apply known_faults_nil.
  - intros head' stages' Hr. eexists. split.
    { apply analyze_eq. by rewrite Hl, <- (Forall2_length _ _ _ (proj2 (proj1 (Forall2_cons _ _ _ _ _) Hr))). }
    apply sublist_app; [by apply head_fault_refines|]. apply tail_faults_refines; [done|].
    apply Forall2_cons in Hr as [[->| ->] _]; [by left|by right].
Qed.

(** *** Claims *)

Lemma claimed_claim p producer schema consumer accepted owner' :
  claimed (claim p producer schema consumer accepted).2 owner' =
    if is_ok (claim p producer schema consumer accepted).1 && (owner schema =? owner')%Z
    then Some consumer else claimed p owner'.
Proof.
  unfold claim. destruct (stream_type_accepts accepted (element_type schema)); cbn [negb]; [|done].
  destruct (claimed p (owner schema)); [done|]. unfold claimed at 1. cbn [fst snd is_ok andb List.find].
  by destruct (owner schema =? owner')%Z.
Qed.

(** A run of claims. *)
Definition claim_all (requests : list (str * StreamSchema * str * ValueType)) (p : StreamConsumptionPlanner)
    : StreamConsumptionPlanner :=
  foldl (λ p '(producer, schema, consumer, accepted), (claim p producer schema consumer accepted).2) p requests.

(** A stream that has a consumer keeps it, whatever is claimed after. *)
Lemma claims_keep_consumer requests p owner' consumer :
  claimed p owner' = Some consumer → claimed (claim_all requests p) owner' = Some consumer.
Proof.
  revert p. induction requests as [|[[[producer schema] c] accepted] requests IH]; intros p Hp; [done|].
  apply IH. rewrite claimed_claim. destruct (is_ok _) eqn:Hok; [|done]. cbn [andb].
  destruct (Z.eqb_spec (owner schema) owner') as [<-|]; [|done]. exfalso. revert Hok. unfold claim.
  destruct (negb _); [done|]. by rewrite Hp.
Qed.

(** ** At a concrete input *)

Definition sample_head : StageCarrierContract := known_contract (bs "ls") [CarrierEmpty] (OutputFixed CarrierValueStream).
Definition sample_stages : list StageCarrierContract :=
  [known_contract (bs "check") [CarrierValueStream; CarrierEmpty] SameAsInput;
   known_contract (bs "to") [CarrierValueStream] (OutputFixed CarrierByteStream)].

Lemma carriers_exact_witness :
  flows CarrierEmpty (sample_head :: sample_stages) [Stdout; Stdout] ∧
  ∃ faults, analyze_pipeline_carriers [sample_head; ContractUnknown; ContractUnknown] [Stdout; Stdout] = Ok faults.
Proof.
  split.
  - destruct (carriers_exact sample_head sample_stages [Stdout; Stdout] eq_refl) as (faults & He & Hk & _).
    assert (faults = []) as Hf by (vm_compute in He; injection He as <-; reflexivity).
    destruct (proj1 (Hk ltac:(repeat constructor; discriminate)) Hf) as (input & Hi & Hflows).
    vm_compute in Hi. injection Hi as <-. exact Hflows.
  - destruct (carriers_exact sample_head [ContractUnknown; ContractUnknown] [Stdout; Stdout] eq_refl) as (faults & He & _).
    exact (ex_intro _ faults He).
Defined.
