(* ===== verification/Resolve.v ===== *)
(** * Resolution of command names ([opaal-runtime/src/resolve.rs])

    A bare name is an internal command or refused; only a forced external name
    is looked for, in [PATH], through the probe the host injects. *)
From S2P Require Import Prelude Utf8 Order Path Convert.
From S2P Require Import Lifetime Environment Command CommandFacts.

Local Open Scope res_scope.

Definition MAX_PATH_SEARCH_BYTES : Z := 1024 * 1024.
Definition MAX_PATH_SEARCH_ELEMENTS : Z := 4096.

Inductive PathSearchLimitKind := SearchBytes | SearchElements.

Inductive ResolutionError :=
| ResolutionNotFound (name : str)
| ResolutionReserved (name purpose : str) (replacement : option str)
| PathSearchLimitExceeded (kind : PathSearchLimitKind) (limit : Z).

Inductive Resolution :=
| ResolvedInternal (source_name canonical_name : str) (signature : CommandSignature)
| ResolvedExternal (path : str).

Definition COLON : u8 := 58%Z.

(** [slice::split] at the colons. *)
Fixpoint split_colon (s : str) : list str :=
  match s with
  | [] => [[]]
  | b :: s =>
    if (b =? COLON)%Z then [] :: split_colon s
    else
      match split_colon s with
      | element :: elements => (b :: element) :: elements
      | [] => [[b]]
      end
  end.

Definition probe_path (candidate cwd : str) : str :=
  if is_absolute candidate then candidate else push cwd candidate.

Fixpoint elements_loop (index : nat) (elements : list str) : res ResolutionError unit :=
  match elements with
  | [] => Ok tt
  | _ :: elements =>
    if (MAX_PATH_SEARCH_ELEMENTS <=? Z.of_nat index)%Z
    then Err (PathSearchLimitExceeded SearchElements MAX_PATH_SEARCH_ELEMENTS)
    else elements_loop (S index) elements
  end.

Definition validate_path_search (path_value : str) : res ResolutionError unit :=
  if (MAX_PATH_SEARCH_BYTES <? Z.of_nat (length path_value))%Z
  then Err (PathSearchLimitExceeded SearchBytes MAX_PATH_SEARCH_BYTES)
  else elements_loop 0 (split_colon path_value).

Section Resolve.
(** [ExecutableProbe::is_executable] of the host. *)
Context (is_executable : str → bool).

Fixpoint search_elements (name cwd : str) (elements : list str) : option str :=
  match elements with
  | [] => None
  | [] :: elements => search_elements name cwd elements
  | element :: elements =>
    let candidate := push element name in
    if is_executable (probe_path candidate cwd) then Some candidate else search_elements name cwd elements
  end.

Definition has_slash (name : str) : bool := has_byte SLASH name.

Definition resolve_external (name cwd : str) (environment : Environment) : res ResolutionError str :=
  if has_slash name then
    if is_executable (probe_path name cwd) then Ok name else Err (ResolutionNotFound name)
  else
    match environment_get environment (bs "PATH") with
    | None => Err (ResolutionNotFound name)
    | Some path_value =>
      let* _ := validate_path_search path_value in
      match search_elements name cwd (split_colon path_value) with
      | Some path => Ok path
      | None => Err (ResolutionNotFound name)
      end
    end.

(** [OsStr::to_str]. *)
Definition to_str (name : str) : option str := if utf8b name then Some name else None.

Definition resolve_bare (name : str) (registry : CommandRegistry) : res ResolutionError Resolution :=
  match classify_command registry name with
  | Ok ClassUnknown =>
    Err (ResolutionReserved name (bs "unknown bare name cannot start an external process") (Some (94%Z :: name)))
  | Ok (ClassCore signature _) => Ok (ResolvedInternal name (signature_name signature) signature)
  | Ok (ClassAlias canonical_name signature _) => Ok (ResolvedInternal name canonical_name signature)
  | Ok (ClassReserved purpose replacement _) => Err (ResolutionReserved name purpose replacement)
  | Err _ | Panic => Panic
  end.

Definition resolve_command (name : str) (force_external : bool) (registry : CommandRegistry) (cwd : str)
    (environment : Environment) : res ResolutionError Resolution :=
  match (if force_external then None else to_str name) with
  | Some name => resolve_bare name registry
  | None =>
    if force_external then
      let* path := resolve_external name cwd environment in Ok (ResolvedExternal path)
    else Err (ResolutionReserved (from_utf8_lossy name) (bs "a bare command head must be a UTF-8 registered name") None)
  end.
End Resolve.

(** ** The elements of [PATH] *)

Fixpoint join_colon (elements : list str) : str :=
  match elements with
  | [] => []
  | [element] => element
  | element :: elements => element ++ COLON :: join_colon elements
  end.

Lemma split_colon_ne s : split_colon s ≠ [].
Proof. destruct s as [|b s]; [done|]. simpl. destruct (b =? COLON)%Z; [done|]. by destruct (split_colon s). Qed.

Lemma join_split_colon s : join_colon (split_colon s) = s.
Proof.
  induction s as [|b s IH]; [done|]. simpl. pose proof (split_colon_ne s) as Hne.
  destruct (Z.eqb_spec b COLON) as [->|].
  - destruct (split_colon s); [done|]. by rewrite <- IH.
  - destruct (split_colon s) as [|element [|next elements]]; [done| |]; simpl in *; by rewrite IH.
Qed.

Lemma split_colon_element s element : element ∈ split_colon s → COLON ∉ element.
Proof.
  revert element. induction s as [|b s IH]; intros element; simpl.
  { intros ->%list_elem_of_singleton. apply not_elem_of_nil. }
  destruct (Z.eqb_spec b COLON) as [->|Hb].
  - intros [->|Hin]%elem_of_cons; [apply not_elem_of_nil|by apply IH].
  - destruct (split_colon s) as [|first elements] eqn:E.
    + by destruct (split_colon_ne s).
    + intros [->|Hin]%elem_of_cons; [|apply IH; by right]. rewrite not_elem_of_cons. split; [congruence|]. apply IH. by left.
Qed.

(** The elements of a [PATH]: what is between its colons. *)
Definition path_elements (path_value : str) (elements : list str) : Prop :=
  elements ≠ [] ∧ Forall (λ e, COLON ∉ e) elements ∧ join_colon elements = path_value.

Lemma split_colon_app element s :
  COLON ∉ element → split_colon (element ++ COLON :: s) = element :: split_colon s.
Proof.
  induction element as [|b element IH]; intros Hn; simpl; [done|]. apply not_elem_of_cons in Hn as [Hb Hn].
  destruct (Z.eqb_spec b COLON) as [->|]; [done|]. by rewrite IH.
Qed.

Lemma split_colon_single element : COLON ∉ element → split_colon element = [element].
Proof.
  induction element as [|b element IH]; intros Hn; [done|]. apply not_elem_of_cons in Hn as [Hb Hn]. simpl.
  destruct (Z.eqb_spec b COLON) as [->|]; [done|]. by rewrite IH.
Qed.

Lemma path_elements_split path_value elements : path_elements path_value elements ↔ split_colon path_value = elements.
Proof.
  split.
  - intros (Hne & Hall & <-). induction Hall as [|element elements He Hall IH]; [done|].
    destruct elements as [|next elements]; [by apply split_colon_single|].
    cbn [join_colon] in *. rewrite split_colon_app by done. by rewrite IH.
  - intros <-. split_and!; [apply split_colon_ne| |apply join_split_colon].
    apply list.Forall_forall. apply split_colon_element.
Qed.

Lemma elements_loop_exact index elements :
  elements_loop index elements =
    if bool_decide (elements ≠ [] ∧ MAX_PATH_SEARCH_ELEMENTS < Z.of_nat (index + length elements))%Z
    then Err (PathSearchLimitExceeded SearchElements MAX_PATH_SEARCH_ELEMENTS) else Ok tt.
Proof.
  revert index. induction elements as [|e elements IH]; intros index; cbn [elements_loop length].
  { rewrite bool_decide_false; [done|]. by intros [? _]. }
  destruct (Z.leb_spec MAX_PATH_SEARCH_ELEMENTS (Z.of_nat index)).
  - rewrite bool_decide_true; [done|]. split; [done|lia].
  - rewrite IH. destruct (decide (elements = [])) as [->|Hne].
    + rewrite !bool_decide_false; [done| |]; intros [? ?]; [simpl in *; lia|done].
    + rewrite <- Nat.add_succ_comm. by repeat case_bool_decide; try tauto; destruct_and?; naive_solver.
Qed.

(** ** What is found *)

Section Facts.
Context (is_executable : str → bool).

(** The first nonempty element under which the name is executable. *)
Definition first_executable (name cwd : str) (elements : list str) (path : str) : Prop :=
  ∃ before element after, elements = before ++ element :: after ∧ element ≠ [] ∧ path = push element name ∧
    is_executable (probe_path path cwd) = true ∧
    ∀ e, e ∈ before → e ≠ [] → is_executable (probe_path (push e name) cwd) = false.

Definition none_executable (name cwd : str) (elements : list str) : Prop :=
  ∀ e, e ∈ elements → e ≠ [] → is_executable (probe_path (push e name) cwd) = false.

Lemma search_exact name cwd elements :
  match search_elements is_executable name cwd elements with
  | Some path => first_executable name cwd elements path
  | None => none_executable name cwd elements
  end.
Proof.
  induction elements as [|element elements IH]; cbn [search_elements]; [by intros ? ?%not_elem_of_nil|].
  assert (∀ path, (element ≠ [] → is_executable (probe_path (push element name) cwd) = false) →
    first_executable name cwd elements path → first_executable name cwd (element :: elements) path) as Hskip.
  { intros path He (before & e & after & -> & Hne & Hp & Hx & Hb). exists (element :: before), e, after.
    split_and!; try done. intros e' [->|Hin]%elem_of_cons; auto. }
  assert ((element ≠ [] → is_executable (probe_path (push element name) cwd) = false) →
    none_executable name cwd elements → none_executable name cwd (element :: elements)) as Hnone.
  { intros He Hn e [->|Hin]%elem_of_cons; [done|]. by apply Hn. }
  destruct element as [|b element].
  { destruct (search_elements _ _ _ elements); [apply Hskip|apply Hnone]; done. }
  destruct (is_executable (probe_path (push (b :: element) name) cwd)) eqn:Hx.
  { exists [], (b :: element), elements. split_and!; try done. by intros ? ?%not_elem_of_nil. }
  destruct (search_elements _ _ _ elements); [apply Hskip|apply Hnone]; done.
Qed.

Lemma resolve_external_answers name cwd environment :
  match resolve_external is_executable name cwd environment with
  | Ok _ | Err (ResolutionNotFound _) | Err (PathSearchLimitExceeded _ _) => True
  | Err (ResolutionReserved _ _ _) | Panic => False
  end.
Proof.
  unfold resolve_external, validate_path_search. destruct (has_slash name); [by destruct (is_executable _)|].
  destruct (environment_get _ _); [|done]. destruct (_ <? _)%Z; [done|]. rewrite elements_loop_exact.
  destruct (bool_decide _); [done|]. simpl. by destruct (search_elements _ _ _ _).
Qed.

(** The value and elements of the [PATH] that is searched. *)
Definition searched (name : str) (environment : Environment) (path_value : str) (elements : list str) : Prop :=
  SLASH ∉ name ∧ environment_get environment (bs "PATH") = Some path_value ∧ path_elements path_value elements.

Definition within_limits (path_value : str) (elements : list str) : Prop :=
  (Z.of_nat (length path_value) ≤ MAX_PATH_SEARCH_BYTES ∧ Z.of_nat (length elements) ≤ MAX_PATH_SEARCH_ELEMENTS)%Z.

(** C25: External resolution is exact.  A name with a slash is itself, if it is
    executable from the working directory; any other is the first nonempty element
    of [PATH] under which it is executable, in order, and [PATH] is only searched
    within both limits; a name that is refused has no executable candidate, and
    nothing panics. *)
Theorem resolve_external_exact (name cwd : str) (environment : Environment) :
  match resolve_external is_executable name cwd environment with
  | Ok path =>
    is_executable (probe_path path cwd) = true ∧
    (SLASH ∈ name ∧ path = name ∨
     ∃ path_value elements, searched name environment path_value elements ∧
       within_limits path_value elements ∧ first_executable name cwd elements path)
  | Err (ResolutionNotFound missing) =>
    missing = name ∧
    (SLASH ∈ name → is_executable (probe_path name cwd) = false) ∧
    ∀ path_value elements, searched name environment path_value elements →
      within_limits path_value elements ∧ none_executable name cwd elements
  | Err (PathSearchLimitExceeded kind limit) =>
    ∃ path_value elements, searched name environment path_value elements ∧
      match kind with
      | SearchBytes => limit = MAX_PATH_SEARCH_BYTES ∧ (limit < Z.of_nat (length path_value))%Z
      | SearchElements => limit = MAX_PATH_SEARCH_ELEMENTS ∧ (limit < Z.of_nat (length elements))%Z
      end
  | Err (ResolutionReserved _ _ _) | Panic => False
  end.
Proof.
  unfold resolve_external, has_slash. rewrite has_byte_spec.
  destruct (bool_decide_reflect (SLASH ∈ name)) as [Hslash|Hslash].
  { destruct (is_executable (probe_path name cwd)) eqn:Hx; [by split; [|left]|]. split_and!; [done..|]. by intros ? ? [? _]. }
  destruct (environment_get environment (bs "PATH")) as [path_value|] eqn:Hpath.
  2: { split_and!; [done..|]. intros ? ? (_ & ? & _). congruence. }
  assert (searched name environment path_value (split_colon path_value)) as Hs by (split_and!; [done..|by apply path_elements_split]).
  unfold validate_path_search. destruct (Z.ltb_spec MAX_PATH_SEARCH_BYTES (Z.of_nat (length path_value))); cbn [res_bind].
  { exists path_value, (split_colon path_value). done. }
  rewrite elements_loop_exact. destruct (bool_decide_reflect (split_colon path_value ≠ [] ∧
    MAX_PATH_SEARCH_ELEMENTS < Z.of_nat (0 + length (split_colon path_value)))%Z) as [[_ Hl]|Hl]; cbn [res_bind].
  { exists path_value, (split_colon path_value). done. }
  assert (within_limits path_value (split_colon path_value)) as Hw.
  { split; [lia|]. destruct (Z.le_gt_cases (Z.of_nat (length (split_colon path_value))) MAX_PATH_SEARCH_ELEMENTS); [done|].
    destruct Hl. split; [apply split_colon_ne|simpl; lia]. }
  pose proof (search_exact name cwd (split_colon path_value)) as Hsearch.
  destruct (search_elements _ _ _ (split_colon path_value)) as [path|].
  - split; [|right; by exists path_value, (split_colon path_value)].
    by destruct Hsearch as (? & ? & ? & _ & _ & _ & ? & _).
  - split_and!; [done..|]. intros value elements (_ & Hv & He). simplify_eq. apply path_elements_split in He as <-. done.
Qed.
End Facts.

(** What a bare name resolves to. *)
Lemma resolve_bare_ok name registry r :
  reachable registry → resolve_bare name registry = Ok r →
  ∃ canonical signature, r = ResolvedInternal name canonical signature ∧
    lookup_command registry name = Ok (Some signature) ∧ lookup_command registry canonical = Ok (Some signature) ∧
    signature_name signature = canonical.
Proof.
  intros Hr. unfold resolve_bare. pose proof (registry_classified registry name Hr) as Hc.
  destruct (classify_command registry name) as [[|s l|canonical s l|purpose replacement major]|e|]; intros [= <-].
  - destruct Hc as [Hl Hn]. exists (signature_name s), s. split_and!; try done. by rewrite Hn.
  - destruct Hc as (Hl & Hn & Hcore). by exists canonical, s.
Qed.

Lemma resolve_bare_no_panic name registry : reachable registry → resolve_bare name registry ≠ Panic.
Proof.
  intros Hr. unfold resolve_bare. pose proof (registry_classified registry name Hr) as Hc.
  by destruct (classify_command registry name) as [[| | |]| |].
Qed.

(** A bare name never starts a process.  On a registry the program can build,
    resolving a name that is not forced never panics, gives an internal command or
    a refusal whatever the probe, the working directory and the environment are,
    and an internal command is one the registry knows under that very spelling;
    only a forced name is looked for outside, and it is external or fails. *)
Theorem resolve_command_safe (is_executable : str → bool) (name : str) (force_external : bool)
    (registry : CommandRegistry) (cwd : str) (environment : Environment) :
  reachable registry →
  match resolve_command is_executable name force_external registry cwd environment with
  | Ok (ResolvedInternal source canonical signature) =>
    force_external = false ∧ source = name ∧ lookup_command registry name = Ok (Some signature) ∧
    lookup_command registry canonical = Ok (Some signature) ∧ signature_name signature = canonical
  | Ok (ResolvedExternal path) =>
    force_external = true ∧ resolve_external is_executable name cwd environment = Ok path
  | Err (ResolutionReserved _ _ _) => force_external = false ∧ lookup_command registry name = Ok None ∨ utf8b name = false
  | Err error => force_external = true ∧ resolve_external is_executable name cwd environment = Err error
  | Panic => False
  end ∧
  (force_external = false → ∀ is_executable' cwd' environment',
    resolve_command is_executable' name force_external registry cwd' environment' =
    resolve_command is_executable name force_external registry cwd environment).
Proof.
  intros Hr. unfold resolve_command. destruct force_external; (split; [|done]).
  - pose proof (resolve_external_exact is_executable name cwd environment) as Hx.
    destruct (resolve_external is_executable name cwd environment) as [path|[]|]; simpl; try done.
  - unfold to_str. destruct (utf8b name); [|by right]. pose proof (resolve_bare_no_panic name registry Hr) as Hp.
    pose proof (resolve_bare_ok name registry) as Hok. destruct (resolve_bare name registry) as [r|e|] eqn:Hb; [| |done].
    + by destruct (Hok r Hr eq_refl) as (canonical & signature & -> & Hl & Hc & Hn).
    + unfold resolve_bare in Hb. pose proof (registry_classified registry name Hr) as Hc.
      destruct (classify_command registry name) as [[| | |]| |]; simplify_eq; by left.
Qed.

(** ** At a concrete input *)

Definition sample_registry : CommandRegistry := (register registry_new (signature_new (bs "ls") [] CarrierValueStream)).2.

Lemma resolve_command_safe_witness :
  resolve_external (λ path, str_eqb path (bs "/bin/ls")) (bs "ls") (bs "/w") [(bs "PATH", bs "/usr/bin::/bin")] = Ok (bs "/bin/ls") ∧
  (true = false ∨ resolve_command (λ path, str_eqb path (bs "/bin/ls")) (bs "ls") true sample_registry (bs "/w")
     [(bs "PATH", bs "/usr/bin::/bin")] = Ok (ResolvedExternal (bs "/bin/ls"))) ∧
  ∀ is_executable cwd environment,
    resolve_command is_executable (bs "ls") false sample_registry cwd environment =
    Ok (ResolvedInternal (bs "ls") (bs "ls") (signature_new (bs "ls") [] CarrierValueStream)).
Proof.
  assert (reachable sample_registry) as Hr by (apply reach_register, reach_new).
  split; [vm_compute; reflexivity|]. split; [right; vm_compute; reflexivity|]. intros is_executable cwd environment.
  rewrite (proj2 (resolve_command_safe (λ _, false) (bs "ls") false sample_registry (bs "/") [] Hr) eq_refl
    is_executable cwd environment).
  vm_compute. reflexivity.
Defined.
