(* ===== verification/Plan.v ===== *)
(** * Planning a pipeline ([opaal-runtime/src/plan.rs])

    A parsed pipeline becomes a plan: words are expanded, commands resolved,
    arguments validated, redirections kept in order; then preflight refuses
    what cannot run.  The expansion of words, spreads and closures and the help
    catalog are the evaluator's: an interface. *)
From S2P Require Import Prelude Decimal Source Ast Utf8 Order Path Convert.
From S2P Require Import Status Value Stream Lifetime Environment Command Carrier Resolve.

Local Open Scope res_scope.

Definition MAX_CHILD_STARTS_PER_SUBMISSION : Z := 4096.

(** ** Plans *)

Record ExpandedWord := mkExpanded { word_value : str; expanded_span : Span; word_parts : list Span }.

Inductive PlannedResolution :=
| PlannedInternal (source_name canonical_name : str)
| PlannedExternal (path : str).

Record PipelineEdge := mkEdge { edge_kind : PipeOperator; edge_operator_span : Span }.

Inductive RedirectionAction :=
| RedirectInput (descriptor : Z) (operator_span : Span) (target : ExpandedWord)
| RedirectOutput (descriptor : Z) (mode : OutputMode) (operator_span : Span) (target : ExpandedWord)
| RedirectDuplicate (descriptor : Z) (operator_span : Span) (source : Z) (target_span : Span)
| RedirectClose (descriptor : Z) (operator_span target_span : Span).

Record PlannedRedirection := mkRedirection { redirection_action : RedirectionAction; redirection_span : Span }.

Record SessionOptions := mkOptions { option_pipefail : bool; option_capture_limit : Z }.

Definition DEFAULT_CAPTURE_LIMIT : Z := 8 * 1024 * 1024.
Definition default_options : SessionOptions := mkOptions false DEFAULT_CAPTURE_LIMIT.
Definition with_pipefail (o : SessionOptions) (enabled : bool) : SessionOptions :=
  mkOptions enabled (option_capture_limit o).
Definition with_capture_limit (o : SessionOptions) (limit : Z) : SessionOptions :=
  mkOptions (option_pipefail o) limit.

(** The kinds of [RuntimeError] planning raises itself. *)
Inductive PlanErrorKind :=
| ChildStartLimitExceeded (limit : Z)
| PlanUnsupported (feature : str)
| CheckRequiresUpstream
| CommandNotFound (name : str)
| PlanPathSearchLimit (kind : PathSearchLimitKind) (limit : Z)
| ReservedCommand (name purpose : str) (replacement : option str)
| BuiltinArity (command : str) (minimum : nat) (maximum : option nat) (actual : nat)
| BuiltinArgument (command message : str)
| StructuredCommand (command message : str)
| RedirectionDescriptorOverflow
| EnvironmentSnapshotContainsNul
| ArgumentContainsNul
| DescriptorNotOpen (descriptor : Z)
| PipelineHeadInput (command : str) (accepted : list Carrier)
| MergedEdgeNotByteStream (producer_command : str) (produced : Carrier)
| PlanCarrierMismatch (mismatch : CarrierMismatch).

Record ChildStartBudget := mkChildStarts { reserved_starts : Z }.
Definition per_submission : ChildStartBudget := mkChildStarts 0.

(** What planning asks of the evaluator and of the help catalog. *)
Class Planner (EvalError Scope HelpEntry : Type) := mkPlanner {
  expand_word : Word → Environment → Scope → res EvalError ExpandedWord * Scope;
  expand_spread : Expression → Span → Environment → Scope → res EvalError (list ExpandedWord) * Scope;
  closure_argument : Closure → Scope → res EvalError (Value EvalError) * Scope;
  help_query : CommandRegistry → Scope → option str → list HelpEntry
}.

Section Planning.
Context {EvalError Scope HelpEntry : Type}.

Inductive PlanError :=
| PlanFailed (kind : PlanErrorKind) (span : Span)
| EvaluationFailed (e : EvalError).

Inductive PlannedArgument :=
| PlannedWord (word : ExpandedWord)
| PlannedValue (value : Value EvalError) (span : Span).

Definition argument_span (a : PlannedArgument) : Span :=
  match a with PlannedWord word => expanded_span word | PlannedValue _ span => span end.
Definition as_word (a : PlannedArgument) : option ExpandedWord :=
  match a with PlannedWord word => Some word | PlannedValue _ _ => None end.

Record HelpSnapshot := mkHelp { help_entries : list HelpEntry; help_detailed : bool }.

Record PlannedStage := mkStage {
  resolution : PlannedResolution;
  input_carriers : list Carrier;
  output_carrier : Carrier;
  argv : list ExpandedWord;
  stage_arguments : list PlannedArgument;
  redirections : list PlannedRedirection;
  stage_help : option HelpSnapshot;
  stage_span : Span
}.

Record ExecutionPlan := mkPlan {
  plan_cwd : str;
  plan_environment : Environment;
  plan_stages : list PlannedStage;
  edges : list PipelineEdge;
  pipefail : bool;
  capture_limit : Z;
  supervisor_input : option str;
  supervisor_completion : bool;
  plan_span : Span
}.

Definition accepts_input (s : PlannedStage) (carrier : Carrier) : bool := bool_decide (carrier ∈ input_carriers s).

(** [assert!] and [debug_assert_eq!] are [Panic]. *)
Definition single_external (path : str) (words : list ExpandedWord) (cwd : str) (environment : Environment)
    (pipefail : bool) (capture_limit : Z) (span : Span) : res Empty_set ExecutionPlan :=
  match words with
  | [] => Panic
  | _ =>
    Ok (mkPlan cwd environment
          [mkStage (PlannedExternal path) [CarrierByteStream] CarrierByteStream words [] [] None span]
          [] pipefail capture_limit None false span)
  end.

Definition with_supervisor_input (p : ExecutionPlan) (bytes : str) : res Empty_set ExecutionPlan :=
  if negb (length (plan_stages p) =? 1) then Panic
  else Ok (mkPlan (plan_cwd p) (plan_environment p) (plan_stages p) (edges p) (pipefail p) (capture_limit p)
             (Some bytes) (supervisor_completion p) (plan_span p)).
Definition with_supervisor_completion (p : ExecutionPlan) : ExecutionPlan :=
  mkPlan (plan_cwd p) (plan_environment p) (plan_stages p) (edges p) (pipefail p) (capture_limit p)
    (supervisor_input p) true (plan_span p).

(** ** The budget of child starts *)

Definition reserve (b : ChildStartBudget) (span : Span) : res PlanError ChildStartBudget :=
  if (MAX_CHILD_STARTS_PER_SUBMISSION <=? reserved_starts b)%Z
  then Err (PlanFailed (ChildStartLimitExceeded MAX_CHILD_STARTS_PER_SUBMISSION) span)
  else Ok (mkChildStarts (reserved_starts b + 1)).

(** ** The topology of a mixed plan *)

Record InternalSegment := mkSegment { segment_ordinal : nat; segment_start : nat; segment_end : nat }.
Record MixedTopology := mkTopology { internal_segments : list InternalSegment; external_indices : list nat }.

Definition is_internal (s : PlannedStage) : bool :=
  match resolution s with PlannedInternal _ _ => true | PlannedExternal _ => false end.

Definition close_segment (open : option nat) (index : nat) (segments : list InternalSegment) : list InternalSegment :=
  match open with
  | Some start => segments ++ [mkSegment (length segments) start index]
  | None => segments
  end.

Fixpoint topology_loop (index : nat) (open : option nat) (segments : list InternalSegment) (externals : list nat)
    (stages : list PlannedStage) : list InternalSegment * list nat :=
  match stages with
  | [] => (close_segment open index segments, externals)
  | stage :: stages =>
    if is_internal stage then topology_loop (S index) (Some (default index open)) segments externals stages
    else topology_loop (S index) None (close_segment open index segments) (externals ++ [index]) stages
  end.

Definition mixed_topology (p : ExecutionPlan) : option MixedTopology :=
  let '(segments, externals) := topology_loop 0 None [] [] (plan_stages p) in
  match segments, externals with
  | [], _ | _, [] => None
  | _, _ => Some (mkTopology segments externals)
  end.

(** ** The route of an internal tail's standard output *)

Inductive InternalDescriptorRoute :=
| RouteDefaultOutput | RouteInherited | RouteInputFile
| RouteOutputFile (target : ExpandedWord) (mode : OutputMode).

Inductive InternalStdoutRoute :=
| StdoutDefault
| StdoutFile (target : ExpandedWord) (mode : OutputMode)
| StdoutUnsupported.

(** The [BTreeMap] of the bindings, as what it holds. *)
Definition Bindings : Type := Z → option InternalDescriptorRoute.
Definition bind_route (b : Bindings) (descriptor : Z) (route : option InternalDescriptorRoute) : Bindings :=
  λ d, if (d =? descriptor)%Z then route else b d.

Definition initial_bindings (merge_pipeline_output : bool) : Bindings :=
  λ d, if (d =? 0)%Z then Some RouteInherited
       else if (d =? 1)%Z then Some RouteDefaultOutput
       else if (d =? 2)%Z then Some (if merge_pipeline_output then RouteDefaultOutput else RouteInherited)
       else None.

(** [None]: the source of a duplication is not bound. *)
Fixpoint route_loop (b : Bindings) (rs : list PlannedRedirection) : option Bindings :=
  match rs with
  | [] => Some b
  | r :: rs =>
    match redirection_action r with
    | RedirectInput descriptor _ _ => route_loop (bind_route b descriptor (Some RouteInputFile)) rs
    | RedirectOutput descriptor mode _ target => route_loop (bind_route b descriptor (Some (RouteOutputFile target mode))) rs
    | RedirectDuplicate descriptor _ source _ =>
      match b source with
      | Some route => route_loop (bind_route b descriptor (Some route)) rs
      | None => None
      end
    | RedirectClose descriptor _ _ => route_loop (bind_route b descriptor None) rs
    end
  end.

Definition internal_stdout_route (s : PlannedStage) (merge_pipeline_output : bool) : InternalStdoutRoute :=
  match route_loop (initial_bindings merge_pipeline_output) (redirections s) with
  | None => StdoutUnsupported
  | Some b =>
    match b 1%Z with
    | Some RouteDefaultOutput => StdoutDefault
    | Some (RouteOutputFile target mode) => StdoutFile target mode
    | Some (RouteInherited | RouteInputFile) | None => StdoutUnsupported
    end
  end.

(** ** Planning as a computation

    The scope the evaluator threads and the budget of child starts. *)
Record PlanState := mkPlanState { plan_scope : Scope; child_starts : ChildStartBudget }.

Definition Planned (A : Type) : Type := PlanState → res PlanError A * PlanState.

Definition pret {A} (a : A) : Planned A := λ s, (Ok a, s).
Definition plift {A} (r : res PlanError A) : Planned A := λ s, (r, s).
Definition pfail {A} (kind : PlanErrorKind) (span : Span) : Planned A := plift (Err (PlanFailed kind span)).
Definition pbind {A B} (m : Planned A) (k : A → Planned B) : Planned B :=
  λ s, let '(x, s) := m s in
    match x with Ok a => k a s | Err e => (Err e, s) | Panic => (Panic, s) end.

Definition evaluated {A} (m : Scope → res EvalError A * Scope) : Planned A :=
  λ s, let '(x, scope) := m (plan_scope s) in
    (res_map_err EvaluationFailed x, mkPlanState scope (child_starts s)).

(** On a clone of the scope. *)
Definition on_clone {A} (m : Planned A) : Planned A :=
  λ s, let '(x, s') := m s in (x, mkPlanState (plan_scope s) (child_starts s')).

Local Notation "'do*' x := m 'in' k" := (pbind m (fun x => k))
  (at level 10, x name, m at level 100, k at level 200).
Local Notation "'do*' ' p := m 'in' k" := (pbind m (fun p => k))
  (at level 10, p strict pattern, m at level 100, k at level 200).

Record StagePlanningContext := mkContext {
  context_source : SourceFile;
  context_cwd : str;
  context_environment : Environment;
  context_registry : CommandRegistry;
  context_probe : str → bool;
  input_carrier : Carrier;
  has_upstream : bool
}.

(** ** Descriptors *)

Definition U32_MAX : Z := 2 ^ 32 - 1.

(** The slice is [expect]ed. *)
Definition descriptor_value (number : IoNumber) (source : SourceFile) : res PlanError Z :=
  let* text := expect (slice source number) in
  match parse_unsigned U32_MAX text with
  | Some value => Ok value
  | None => Err (PlanFailed RedirectionDescriptorOverflow number)
  end.

Definition descriptor_or (descriptor : option IoNumber) (fallback : Z) (source : SourceFile) : res PlanError Z :=
  match descriptor with
  | Some number => descriptor_value number source
  | None => Ok fallback
  end.

(** ** Arguments of internal commands *)

Definition standard_names : list str :=
  bs <$> ["cd"; "pwd"; "which"; "exit"; "check"; "decode"; "from"; "encode"; "to"; "first"; "last"; "collect";
          "length"; "lines"; "each"; "where"; "select"; "get"; "update"; "sort"; "ls"; "open"; "save"; "jobs"; "fg";
          "bg"; "wait"; "kill"; "help"]%string.

Definition standard_command_name (name : str) : str :=
  if bool_decide (name ∈ standard_names) then name else bs "internal".

(** [Debug] of a kind. *)
Definition kind_text (k : CommandArgumentKind) : str :=
  match k with KindWord => bs "Word" | KindClosure => bs "Closure" | KindAny => bs "Any" end.

Definition quoted (name : str) : str := bs "`" ++ name ++ bs "`".

Definition runtime_argument_fault (command : str) (f : CommandArgumentFault) : PlanErrorKind :=
  match fault_kind f with
  | FaultArity minimum maximum actual => BuiltinArity command minimum maximum actual
  | UnknownOption option => BuiltinArgument command (bs "unknown option " ++ quoted option)
  | MissingOptionValues option expected actual =>
    BuiltinArgument command
      (bs "option " ++ quoted option ++ bs " expects " ++ show_int (Z.of_nat expected) ++ bs " value(s), found " ++
       show_int (Z.of_nat actual))
  | RepeatedOption option => BuiltinArgument command (bs "option " ++ quoted option ++ bs " cannot be repeated")
  | ConflictingOptions option conflict =>
    BuiltinArgument command (bs "options " ++ quoted option ++ bs " and " ++ quoted conflict ++ bs " conflict")
  | OptionAfterPositional option =>
    BuiltinArgument command (bs "option " ++ quoted option ++ bs " must precede positional arguments")
  | UnexpectedKind position expected actual =>
    BuiltinArgument command
      (bs "argument " ++ show_int (Z.of_nat (position + 1)) ++ bs " expects " ++ kind_text expected ++ bs ", found " ++
       kind_text actual)
  | FaultDynamicTail => BuiltinArgument command (bs "a dynamic argument tail is not accepted")
  end.

Definition argument_input (a : PlannedArgument) : CommandArgumentInput :=
  match a with PlannedWord word => InputWord (Some (word_value word)) | PlannedValue _ _ => InputClosure end.

(** The first fault; the validation of a schema never panics. *)
Definition validate_planned_arguments (s : CommandSignature) (args : list PlannedArgument) (span : Span)
    : res PlanError unit :=
  match validate (arguments s) (argument_input <$> args) with
  | Ok [] => Ok tt
  | Ok (fault :: _) =>
    Err (PlanFailed (runtime_argument_fault (standard_command_name (signature_name s)) fault)
           (match argument_index fault ≫= λ index, args !! index with
            | Some argument => argument_span argument
            | None => span
            end))
  | Err _ | Panic => Panic
  end.

Definition is_terminator (a : PlannedArgument) : bool :=
  match a with PlannedWord word => is_dashes (word_value word) | PlannedValue _ _ => false end.

(** [position] and [Vec::remove]. *)
Fixpoint remove_option_terminator (args : list PlannedArgument) : list PlannedArgument :=
  match args with
  | [] => []
  | a :: args => if is_terminator a then args else a :: remove_option_terminator args
  end.

(** What an internal command is given: its arguments without the terminator, and
    its words after the head. *)
Definition finish_internal (s : CommandSignature) (words : list ExpandedWord) (args : list PlannedArgument) (span : Span)
    : res PlanError (list ExpandedWord * list PlannedArgument) :=
  let* _ := validate_planned_arguments s args span in
  match terminator (arguments s) with
  | TerminatorAccepted =>
    let args := remove_option_terminator args in
    Ok (take 1 words ++ omap as_word args, args)
  | TerminatorLiteral => Ok (words, args)
  end.

(** [expect]s the signature a resolution retains. *)
Definition finish_arguments (registry : CommandRegistry) (r : PlannedResolution) (words : list ExpandedWord)
    (args : list PlannedArgument) (span : Span) : res PlanError (list ExpandedWord * list PlannedArgument) :=
  match r with
  | PlannedInternal _ canonical_name =>
    match lookup_command registry canonical_name with
    | Ok (Some signature) => finish_internal signature words args span
    | _ => Panic
    end
  | PlannedExternal _ => Ok (words, args)
  end.

(** ** Resolution of a stage *)

Definition is_same_as_input (o : CommandOutput) : bool := match o with SameAsInput => true | OutputFixed _ => false end.

Definition resolve (name : str) (force_external : bool) (head : Span) (c : StagePlanningContext)
    : res PlanError (PlannedResolution * list Carrier * Carrier) :=
  match resolve_command (context_probe c) name force_external (context_registry c) (context_cwd c) (context_environment c) with
  | Ok (ResolvedInternal source_name canonical_name signature) =>
    if str_eqb (signature_name signature) (bs "check") && is_same_as_input (output signature) && negb (has_upstream c)
    then Err (PlanFailed CheckRequiresUpstream head)
    else Ok (PlannedInternal source_name canonical_name, inputs signature, resolve_output (output signature) (input_carrier c))
  | Ok (ResolvedExternal path) => Ok (PlannedExternal path, [CarrierByteStream], CarrierByteStream)
  | Err (ResolutionNotFound name) => Err (PlanFailed (CommandNotFound name) head)
  | Err (PathSearchLimitExceeded kind limit) => Err (PlanFailed (PlanPathSearchLimit kind limit) head)
  | Err (ResolutionReserved name purpose replacement) => Err (PlanFailed (ReservedCommand name purpose replacement) head)
  | Panic => Panic
  end.

Section Stages.
Context `{P : Planner EvalError Scope HelpEntry}.

Definition plan_redirection (kind : RedirectionKind) (c : StagePlanningContext) : Planned RedirectionAction :=
  match kind with
  | RInput descriptor operator_span target =>
    do* d := plift (descriptor_or descriptor 0 (context_source c)) in
    do* word := evaluated (expand_word target (context_environment c)) in
    pret (RedirectInput d operator_span word)
  | RFile descriptor mode operator_span target =>
    do* d := plift (descriptor_or descriptor 1 (context_source c)) in
    do* word := evaluated (expand_word target (context_environment c)) in
    pret (RedirectOutput d mode operator_span word)
  | RDuplicate descriptor operator_span target =>
    do* d := plift (descriptor_value descriptor (context_source c)) in
    do* source := plift (descriptor_value target (context_source c)) in
    pret (RedirectDuplicate d operator_span source target)
  | RClose descriptor operator_span target_span =>
    do* d := plift (descriptor_value descriptor (context_source c)) in
    pret (RedirectClose d operator_span target_span)
  end.

(** The vectors a stage is collected in. *)
Record Collected := mkCollected {
  collected_argv : list ExpandedWord;
  collected_arguments : list PlannedArgument;
  collected_redirections : list PlannedRedirection
}.

Definition collect_words (words : list ExpandedWord) (v : Collected) : Collected :=
  mkCollected (collected_argv v ++ words) (collected_arguments v ++ (PlannedWord <$> words)) (collected_redirections v).

Definition is_external (r : PlannedResolution) : bool := match r with PlannedExternal _ => true | PlannedInternal _ _ => false end.

Definition plan_item (c : StagePlanningContext) (r : PlannedResolution) (item : CommandItem) (v : Collected)
    : Planned Collected :=
  match node_kind item with
  | IWord word =>
    do* word := evaluated (expand_word word (context_environment c)) in
    pret (collect_words [word] v)
  | ISpread expression =>
    do* words := evaluated (expand_spread expression (node_span item) (context_environment c)) in
    pret (collect_words words v)
  | IClosure closure =>
    if is_external r then pfail (PlanUnsupported (bs "a closure argument to an external command")) (node_span item)
    else
      do* value := evaluated (closure_argument closure) in
      pret (mkCollected (collected_argv v) (collected_arguments v ++ [PlannedValue value (node_span item)])
              (collected_redirections v))
  | IRedirection redirection =>
    do* action := plan_redirection (node_kind redirection) c in
    pret (mkCollected (collected_argv v) (collected_arguments v)
            (collected_redirections v ++ [mkRedirection action (node_span redirection)]))
  end.

Fixpoint plan_items (c : StagePlanningContext) (r : PlannedResolution) (items : list CommandItem) (v : Collected)
    : Planned Collected :=
  match items with
  | [] => pret v
  | item :: items => do* v := plan_item c r item v in plan_items c r items v
  end.

(** *** The help stage *)

Definition is_static_part (part : WordPart) : bool :=
  match node_kind part with
  | WBare | WBareEscape | WSingleQuoted | WEscapedBrace => true
  | WDoubleQuoted parts =>
    forallb (λ part, match node_kind part with WDoubleText | WDoubleEscape | WEscapedBrace => true | _ => false end) parts
  | WDoubleText | WDoubleEscape | WInterpolation _ => false
  end.
Definition is_static_word (w : Word) : bool := let 'mkWord parts _ := w in forallb is_static_part parts.

Definition help_message : str := bs "the optional name must be one static source word".
Definition help_error {A} (message : str) (span : Span) : Planned A := pfail (BuiltinArgument (bs "help") message) span.

Definition plan_help_item (c : StagePlanningContext) (item : CommandItem) (v : Collected * option str * Span)
    : Planned (Collected * option str * Span) :=
  let '(collected, query, query_span) := v in
  match node_kind item with
  | IWord word =>
    if negb (is_static_word word) then help_error help_message (node_span item)
    else
      do* expanded := on_clone (evaluated (expand_word word (context_environment c))) in
      match to_str (word_value expanded) with
      | None => help_error (bs "the optional name must be UTF-8 source text") (node_span item)
      | Some name => pret (collect_words [expanded] collected, Some name, node_span item)
      end
  | ISpread _ | IClosure _ => help_error help_message (node_span item)
  | IRedirection redirection =>
    do* action := on_clone (plan_redirection (node_kind redirection) c) in
    pret (mkCollected (collected_argv collected) (collected_arguments collected)
            (collected_redirections collected ++ [mkRedirection action (node_span redirection)]), query, query_span)
  end.

Fixpoint plan_help_items (c : StagePlanningContext) (items : list CommandItem) (v : Collected * option str * Span)
    : Planned (Collected * option str * Span) :=
  match items with
  | [] => pret v
  | item :: items => do* v := plan_help_item c item v in plan_help_items c items v
  end.

Definition is_redirection (item : CommandItem) : bool :=
  match node_kind item with IRedirection _ => true | _ => false end.

Definition plan_help_stage (head : CommandHead) (items : list CommandItem) (span : Span) (c : StagePlanningContext)
    : Planned PlannedStage :=
  let 'mkHead _ head_word head_span := head in
  match lookup_command (context_registry c) (bs "help") with
  | Ok (Some signature) =>
    do* word := on_clone (evaluated (expand_word head_word (context_environment c))) in
    let argument_items := filter (λ item, is_redirection item = false) items in
    match argument_items with
    | _ :: second :: _ =>
      pfail (BuiltinArity (bs "help") 0 (Some 1) (length argument_items)) (node_span second)
    | _ =>
      do* ' (collected, query, query_span) := plan_help_items c items (mkCollected [word] [] [], None, head_span) in
      λ s,
        let entries := help_query (context_registry c) (plan_scope s) query in
        match query, entries with
        | Some name, [] =>
          (Err (PlanFailed (StructuredCommand (bs "help") (bs "unknown help name " ++ quoted name)) query_span), s)
        | _, _ =>
          (Ok (mkStage (PlannedInternal (signature_name signature) (signature_name signature)) (inputs signature)
                 (resolve_output (output signature) (input_carrier c)) (collected_argv collected)
                 (collected_arguments collected) (collected_redirections collected)
                 (Some (mkHelp entries (bool_decide (is_Some query)))) span), s)
        end
    end
  | _ => plift Panic
  end.

(** *** One stage *)

Definition is_help_head (head : CommandHead) (source : SourceFile) : bool :=
  let 'mkHead kind word _ := head in
  match kind with
  | Bare => match slice source (word_span word) with Ok text => str_eqb text (bs "help") | _ => false end
  | ForcedExternal => false
  end.

Definition is_forced (head : CommandHead) : bool :=
  let 'mkHead kind _ _ := head in match kind with ForcedExternal => true | Bare => false end.

Definition reserve_start (span : Span) : Planned unit :=
  λ s, match reserve (child_starts s) span with
       | Ok b => (Ok tt, mkPlanState (plan_scope s) b)
       | Err e => (Err e, s)
       | Panic => (Panic, s)
       end.

Definition is_planned_help (r : PlannedResolution) : bool :=
  match r with PlannedInternal _ canonical_name => str_eqb canonical_name (bs "help") | PlannedExternal _ => false end.

Definition plan_stage (head : CommandHead) (items : list CommandItem) (span : Span) (c : StagePlanningContext)
    : Planned PlannedStage :=
  let 'mkHead _ head_word head_span := head in
  if is_help_head head (context_source c) then plan_help_stage head items span c
  else
    do* word := evaluated (expand_word head_word (context_environment c)) in
    do* _ := (if is_forced head then reserve_start head_span else pret tt) in
    do* ' (resolution, input_carriers, output_carrier) := plift (resolve (word_value word) (is_forced head) head_span c) in
    if is_planned_help resolution
    then help_error (bs "the help command head must be the static source word `help`") head_span
    else
      do* v := plan_items c resolution items (mkCollected [word] [] []) in
      do* ' (argv, arguments) :=
        plift (finish_arguments (context_registry c) resolution (collected_argv v) (collected_arguments v) span) in
      pret (mkStage resolution input_carriers output_carrier argv arguments (collected_redirections v) None span).

(** *** The pipeline *)

Fixpoint plan_stages_loop (source : SourceFile) (cwd : str) (environment : Environment) (registry : CommandRegistry)
    (probe : str → bool) (stages : list Stage) (planned : list PlannedStage) : Planned (list PlannedStage) :=
  match stages with
  | [] => pret planned
  | stage :: stages =>
    match node_kind stage with
    | SExpression _ => pfail (PlanUnsupported (bs "an expression stage in a command plan")) (node_span stage)
    | SCommand head items =>
      do* s := plan_stage head items (node_span stage)
        (mkContext source cwd environment registry probe
           (match last planned with Some previous => output_carrier previous | None => CarrierEmpty end)
           (negb (bool_decide (planned = [] :> list PlannedStage)))) in
      plan_stages_loop source cwd environment registry probe stages (planned ++ [s])
    end
  end.
(** The reservations are committed only with the plan. *)
Definition plan_pipeline_with_options (p : Pipeline) (cwd : str) (source : SourceFile) (environment : Environment)
    (registry : CommandRegistry) (probe : str → bool) (options : SessionOptions) : Planned ExecutionPlan :=
  let 'mkPipeline stages operators span := p in
  λ s, let '(r, s') := plan_stages_loop source cwd environment registry probe stages [] s in
    match r with
    | Ok planned =>
      (Ok (mkPlan cwd environment planned ((λ o, mkEdge (node_kind o) (node_span o)) <$> operators)
             (option_pipefail options) (option_capture_limit options) None false span), s')
    | Err e => (Err e, mkPlanState (plan_scope s') (child_starts s))
    | Panic => (Panic, mkPlanState (plan_scope s') (child_starts s))
    end.

Definition plan_pipeline (p : Pipeline) (cwd : str) (source : SourceFile) (environment : Environment)
    (registry : CommandRegistry) (probe : str → bool) (scope : Scope) : res PlanError ExecutionPlan * Scope :=
  let '(r, s) := plan_pipeline_with_options p cwd source environment registry probe default_options
                   (mkPlanState scope per_submission) in
  (r, plan_scope s).
End Stages.

(** ** Preflight *)

Definition check_environment_nul (p : ExecutionPlan) : res PlanError unit :=
  if existsb (λ e, has_byte NUL e.2) (plan_environment p)
  then Err (PlanFailed EnvironmentSnapshotContainsNul (plan_span p)) else Ok tt.

Definition reject_nul (word : ExpandedWord) : res PlanError unit :=
  if has_byte NUL (word_value word)
  then Err (PlanFailed ArgumentContainsNul
              match word_parts word with [single] => single | _ => expanded_span word end)
  else Ok tt.

(** A loop whose body may return an error. *)
Fixpoint for_each {A} (f : A → res PlanError unit) (l : list A) : res PlanError unit :=
  match l with [] => Ok tt | x :: l => let* _ := f x in for_each f l end.

Definition action_target (a : RedirectionAction) : option ExpandedWord :=
  match a with
  | RedirectInput _ _ target | RedirectOutput _ _ _ target => Some target
  | RedirectDuplicate _ _ _ _ | RedirectClose _ _ _ => None
  end.

Definition check_nul (s : PlannedStage) : res PlanError unit :=
  let* _ := for_each reject_nul (argv s) in
  for_each (λ r, match action_target (redirection_action r) with Some target => reject_nul target | None => Ok tt end)
    (redirections s).

(** The set of open descriptors. *)
Fixpoint ownership_loop (open : Z → bool) (rs : list PlannedRedirection) : res PlanError unit :=
  match rs with
  | [] => Ok tt
  | r :: rs =>
    match redirection_action r with
    | RedirectInput descriptor _ _ | RedirectOutput descriptor _ _ _ =>
      ownership_loop (λ d, (d =? descriptor)%Z || open d) rs
    | RedirectDuplicate descriptor _ source target_span =>
      if negb (open source) then Err (PlanFailed (DescriptorNotOpen source) target_span)
      else ownership_loop (λ d, (d =? descriptor)%Z || open d) rs
    | RedirectClose descriptor _ _ => ownership_loop (λ d, negb (d =? descriptor)%Z && open d) rs
    end
  end.

Definition initially_open (d : Z) : bool := ((d =? 0) || (d =? 1) || (d =? 2))%Z.
Definition check_descriptor_ownership (s : PlannedStage) : res PlanError unit :=
  ownership_loop initially_open (redirections s).

Definition is_merged (p : ExecutionPlan) (index : nat) : bool :=
  match edge_kind <$> (edges p !! index) with Some StdoutAndStderr => true | _ => false end.

Definition check_internal_stdout_route (p : ExecutionPlan) (index : nat) (s : PlannedStage) : res PlanError unit :=
  if negb (is_internal s) || match plan_stages p !! S index with Some next => is_internal next | None => false end
  then Ok tt
  else
    match internal_stdout_route s (is_merged p index) with
    | StdoutUnsupported =>
      Err (PlanFailed (PlanUnsupported (bs "this resolved stdout route on an internal byte stream")) (stage_span s))
    | StdoutDefault | StdoutFile _ _ => Ok tt
    end.

Definition head_word (s : PlannedStage) : str :=
  match argv s with word :: _ => from_utf8_lossy (word_value word) | [] => [] end.

Definition stage_contract (s : PlannedStage) : StageCarrierContract :=
  known_contract (head_word s) (input_carriers s) (OutputFixed (output_carrier s)).

(** The first fault; [stages[stage]] and [edges[edge]] may be out of bounds. *)
Definition carrier_error (p : ExecutionPlan) (f : PipelineCarrierFault) : res PlanError unit :=
  match f with
  | HeadInput stage command accepted =>
    let* s := expect_some (plan_stages p !! stage) in
    Err (PlanFailed (PipelineHeadInput command accepted) (stage_span s))
  | FaultMergedEdge edge producer_command produced =>
    let* e := expect_some (edges p !! edge) in
    Err (PlanFailed (MergedEdgeNotByteStream producer_command produced) (edge_operator_span e))
  | FaultCarrierMismatch edge mismatch =>
    let* e := expect_some (edges p !! edge) in
    Err (PlanFailed (PlanCarrierMismatch mismatch) (edge_operator_span e))
  end.

Definition check_carriers (p : ExecutionPlan) : res PlanError unit :=
  match analyze_pipeline_carriers (stage_contract <$> plan_stages p) (edge_kind <$> edges p) with
  | Ok [] => Ok tt
  | Ok (f :: _) => carrier_error p f
  | Err _ | Panic => Panic
  end.

Fixpoint check_stages (p : ExecutionPlan) (index : nat) (stages : list PlannedStage) : res PlanError unit :=
  match stages with
  | [] => Ok tt
  | s :: stages =>
    let* _ := check_nul s in
    let* _ := check_descriptor_ownership s in
    let* _ := check_internal_stdout_route p index s in
    check_stages p (S index) stages
  end.

Definition preflight (p : ExecutionPlan) : res PlanError unit :=
  let* _ := check_environment_nul p in
  let* _ := check_stages p 0 (plan_stages p) in
  check_carriers p.
End Planning.

(** ** Rendering *)

Definition hex_digit (d : Z) : u8 := if (d <? 10)%Z then (48 + d)%Z else (87 + d)%Z.

Definition render_byte (b : u8) : str :=
  if (b =? 92)%Z then [92; 92]%Z
  else if (b =? 91)%Z then [92; 91]%Z
  else if (b =? 93)%Z then [92; 93]%Z
  else if ((32 <=? b) && (b <=? 126))%Z then [b]
  else [92; 120; hex_digit (b / 16); hex_digit (b mod 16)]%Z.

Definition render_bytes (bytes : str) : str := 91%Z :: mjoin (render_byte <$> bytes) ++ [93%Z].

Definition render_resolution (r : PlannedResolution) : str :=
  match r with
  | PlannedInternal source_name canonical_name =>
    if negb (str_eqb source_name canonical_name)
    then bs "internal " ++ source_name ++ bs " (canonical " ++ canonical_name ++ bs ")"
    else bs "internal " ++ canonical_name
  | PlannedExternal path => bs "external " ++ render_bytes path
  end.

Definition render_span (label : str) (s : Span) : str :=
  label ++ bs "span " ++ show_int (Z.of_nat (span_start s)) ++ bs ".." ++ show_int (Z.of_nat (span_end s)).

Definition render_redirection (a : RedirectionAction) : str :=
  match a with
  | RedirectInput descriptor operator_span target =>
    show_int descriptor ++ bs "< " ++ render_span (bs "operator-") operator_span ++ bs " " ++
    render_span (bs "target-") (expanded_span target) ++ bs " " ++ render_bytes (word_value target)
  | RedirectOutput descriptor mode operator_span target =>
    show_int descriptor ++ match mode with Truncate => bs ">" | AppendMode => bs ">>" end ++ bs " " ++
    render_span (bs "operator-") operator_span ++ bs " " ++
    render_span (bs "target-") (expanded_span target) ++ bs " " ++ render_bytes (word_value target)
  | RedirectDuplicate descriptor operator_span source target_span =>
    show_int descriptor ++ bs ">&" ++ show_int source ++ bs " " ++ render_span (bs "operator-") operator_span ++ bs " " ++
    render_span (bs "target-") target_span
  | RedirectClose descriptor operator_span target_span =>
    show_int descriptor ++ bs ">&- " ++ render_span (bs "operator-") operator_span ++ bs " " ++
    render_span (bs "target-") target_span
  end.
