(* ===== verification/PlanFacts.v ===== *)
(** * Plans: what preflight admits, and what planning promises

    Preflight is decided by a declarative reading of a plan; the topology of a
    mixed plan is the partition of its stages; the rendering of native bytes can
    be read back; a plan that is built is what its registry and probe say. *)
From S2P Require Import Prelude Decimal Source Ast Utf8 Order Path Convert.
From S2P Require Import Status Value Stream Lifetime Environment Command CommandFacts Carrier Resolve Plan.

Local Open Scope res_scope.

(** ** Descriptors *)

Section Facts.
Context {EvalError HelpEntry : Type}.
Notation PlannedStage := (@PlannedStage EvalError HelpEntry).
Notation ExecutionPlan := (@ExecutionPlan EvalError HelpEntry).

(** Where a descriptor leads, read backwards: the last redirection of it decides,
    and a duplicate leads where its source led before. *)
Fixpoint origin (merged : bool) (earlier : list PlannedRedirection) (d : Z) : option InternalDescriptorRoute :=
  match earlier with
  | [] => initial_bindings merged d
  | r :: earlier =>
    match redirection_action r with
    | RedirectInput descriptor _ _ => if (d =? descriptor)%Z then Some RouteInputFile else origin merged earlier d
    | RedirectOutput descriptor mode _ target =>
      if (d =? descriptor)%Z then Some (RouteOutputFile target mode) else origin merged earlier d
    | RedirectDuplicate descriptor _ source _ =>
      if (d =? descriptor)%Z then origin merged earlier source else origin merged earlier d
    | RedirectClose descriptor _ _ => if (d =? descriptor)%Z then None else origin merged earlier d
    end
  end.

(** Every duplication is from a descriptor that is open there. *)
Definition sources_open (merged : bool) (earlier rs : list PlannedRedirection) : Prop :=
  ∀ before r after descriptor operator_span source target_span,
    rs = before ++ r :: after → redirection_action r = RedirectDuplicate descriptor operator_span source target_span →
    origin merged (rev before ++ earlier) source ≠ None.

Lemma sources_open_cons merged earlier r rs :
  sources_open merged earlier (r :: rs) ↔
    (∀ descriptor operator_span source target_span,
       redirection_action r = RedirectDuplicate descriptor operator_span source target_span →
       origin merged earlier source ≠ None) ∧
    sources_open merged (r :: earlier) rs.
Proof.
  unfold sources_open. split.
  - intros H. split.
    + intros d o src t Hr. by apply (H [] r rs d o src t).
    + intros before r' after d o src t -> Hr'. specialize (H (r :: before) r' after d o src t eq_refl Hr').
      cbn [rev] in H. by rewrite <- app_assoc in H.
  - intros [Hr Hrs] [|r1 before] r' after d o src t Heq Hr'; injection Heq as -> ->; [by apply (Hr d o src t)|].
    cbn [rev]. rewrite <- app_assoc. by apply (Hrs before r' after d o src t).
Qed.

Lemma ownership_exact merged open earlier rs :
  (∀ d, open d = bool_decide (origin merged earlier d ≠ None)) →
  match @ownership_loop EvalError open rs with
  | Ok _ => sources_open merged earlier rs
  | Err _ => ¬ sources_open merged earlier rs
  | Panic => False
  end.
Proof.
  revert open earlier. induction rs as [|r rs IH]; intros open earlier Hopen; cbn [ownership_loop].
  { by intros [|] ? ? ? ? ? ? ?. }
  assert (∀ open', (∀ d, open' d = bool_decide (origin merged (r :: earlier) d ≠ None)) →
    (∀ descriptor operator_span source target_span,
       redirection_action r = RedirectDuplicate descriptor operator_span source target_span →
       origin merged earlier source ≠ None) →
    match @ownership_loop EvalError open' rs with
    | Ok _ => sources_open merged earlier (r :: rs)
    | Err _ => ¬ sources_open merged earlier (r :: rs)
    | Panic => False
    end) as Hnext.
  { intros open' Ho Hr. specialize (IH open' (r :: earlier) Ho). pose proof (sources_open_cons merged earlier r rs) as Hc.
    destruct (ownership_loop open' rs); tauto. }
  destruct (redirection_action r) as [descriptor ? target|descriptor mode ? target|descriptor ? source ?|descriptor ? ?] eqn:Hr;
    try (apply Hnext; [|by intros]; intros d; cbn [origin]; rewrite Hr; rewrite ?Hopen;
      by destruct (d =? descriptor)%Z).
  rewrite Hopen. destruct (bool_decide_reflect (origin merged earlier source ≠ None)) as [Hs|Hs]; cbn [negb].
  - apply Hnext; [|by intros ? ? ? ? [= <- <- <- <-]]. intros d. cbn [origin]. rewrite Hr, Hopen.
    destruct (d =? descriptor)%Z; [|done]. symmetry. by apply bool_decide_eq_true.
  - intros H. apply Hs. by apply (H [] r rs _ _ _ _ eq_refl Hr).
Qed.

Lemma route_exact merged b earlier rs :
  (∀ d, b d = origin merged earlier d) → sources_open merged earlier rs →
  ∃ b', route_loop b rs = Some b' ∧ ∀ d, b' d = origin merged (rev rs ++ earlier) d.
Proof.
  revert b earlier. induction rs as [|r rs IH]; intros b earlier Hb Hs; cbn [route_loop]; [by exists b|].
  apply sources_open_cons in Hs as [Hr Hs]. cbn [rev]. rewrite <- app_assoc. cbn [app].
  destruct (redirection_action r) as [descriptor ? target|descriptor mode ? target|descriptor o source t|descriptor ? ?] eqn:Ha;
    try (apply IH; [|done]; intros d; unfold bind_route; cbn [origin]; rewrite Ha, Hb; by destruct (d =? descriptor)%Z).
  specialize (Hr _ _ _ _ eq_refl). rewrite Hb. destruct (origin merged earlier source) as [route|] eqn:Ho; [|done].
  apply IH; [|done]. intros d. unfold bind_route. cbn [origin]. rewrite Ha, Hb, Ho. by destruct (d =? descriptor)%Z.
Qed.

(** ** What a plan that can run is *)

Definition word_clean (w : ExpandedWord) : Prop := NUL ∉ word_value w.

Definition stage_clean (s : PlannedStage) : Prop :=
  Forall word_clean (argv s) ∧
  ∀ r target, r ∈ redirections s → action_target (redirection_action r) = Some target → word_clean target.

(** An internal stage whose output leaves the internal commands writes it to the
    pipeline or to a file. *)
Definition tail_writes (p : ExecutionPlan) (index : nat) (s : PlannedStage) : Prop :=
  is_internal s = true → (∀ next, plan_stages p !! S index = Some next → is_internal next = false) →
  match origin (is_merged p index) (rev (redirections s)) 1 with
  | Some (RouteDefaultOutput | RouteOutputFile _ _) => True
  | _ => False
  end.

Record runnable (p : ExecutionPlan) : Prop := {
  runnable_environment : ∀ name value, (name, value) ∈ plan_environment p → NUL ∉ value;
  runnable_stages : ∀ index s, plan_stages p !! index = Some s →
    stage_clean s ∧ sources_open false [] (redirections s) ∧ tail_writes p index s;
  runnable_carriers : ∃ head stages input, stage_contract <$> plan_stages p = head :: stages ∧
    head_input head = Some input ∧ flows input (head :: stages) (edge_kind <$> edges p)
}.

(** A loop of checks is the conjunction of its checks. *)
Lemma for_each_exact {A} (f : A → res PlanError unit) (Q : A → Prop) l :
  (∀ x, x ∈ l → match f x with Ok _ => Q x | Err _ => ¬ Q x | Panic => False end) →
  match @for_each EvalError A f l with
  | Ok _ => ∀ x, x ∈ l → Q x
  | Err _ => ¬ ∀ x, x ∈ l → Q x
  | Panic => False
  end.
Proof.
  induction l as [|x l IH]; intros Hf; cbn [for_each]; [by intros ? ?%not_elem_of_nil|].
  pose proof (Hf x ltac:(by left)) as Hx. destruct (f x); simpl; [| |done].
  - specialize (IH (λ y Hy, Hf y ltac:(by right))). destruct (for_each f l); [| |done].
    + intros y [->|Hy]%elem_of_cons; auto.
    + intros H. apply IH. intros y Hy. apply H. by right.
  - intros H. apply Hx, H. by left.
Qed.

Lemma reject_nul_exact (w : ExpandedWord) :
  match @reject_nul EvalError w with Ok _ => word_clean w | Err _ => ¬ word_clean w | Panic => False end.
Proof.
  unfold reject_nul, word_clean. rewrite has_byte_spec.
  destruct (bool_decide_reflect (NUL ∈ word_value w)); [|done]. intros Hn. by apply Hn.
Qed.

Lemma check_nul_exact (s : PlannedStage) :
  match check_nul s with Ok _ => stage_clean s | Err _ => ¬ stage_clean s | Panic => False end.
Proof.
  unfold check_nul, stage_clean.
  pose proof (for_each_exact (@reject_nul EvalError) word_clean (argv s) (λ w _, reject_nul_exact w)) as Ha.
  destruct (for_each _ (argv s)); simpl; [| |done].
  2: { intros [H _]. apply Ha. by apply list.Forall_forall. }
  pose proof (for_each_exact (λ r, match action_target (redirection_action r) with
    | Some target => @reject_nul EvalError target | None => Ok tt end)
    (λ r, ∀ target, action_target (redirection_action r) = Some target → word_clean target) (redirections s)) as Hr.
  ospecialize (Hr _).
  { intros r _. destruct (action_target (redirection_action r)) as [target|]; [|done].
    pose proof (reject_nul_exact target) as Ht. destruct (reject_nul target); [by intros ? [= <-]| |done].
    intros H. apply Ht. by apply H. }
  destruct (for_each _ (redirections s)); [| |done].
  - split; [by apply list.Forall_forall|]. intros r target Hin. by apply Hr.
  - intros [_ H]. apply Hr. intros r Hin target. by apply H.
Qed.

Lemma initially_open_spec merged d : initially_open d = bool_decide (origin merged [] d ≠ None).
Proof.
  unfold initially_open. cbn [origin]. unfold initial_bindings.
  destruct (Z.eqb_spec d 0), (Z.eqb_spec d 1), (Z.eqb_spec d 2); try lia; by destruct merged.
Qed.

Lemma sources_open_merged merged rs : sources_open merged [] rs ↔ sources_open false [] rs.
Proof.
  assert (∀ earlier d, origin merged earlier d = None ↔ origin false earlier d = None) as Horigin.
  { induction earlier as [|r earlier IH]; intros d; cbn [origin].
    - unfold initial_bindings. repeat case_match; naive_solver.
    - destruct (redirection_action r); destruct (d =? _)%Z; try done; apply IH. }
  unfold sources_open. split; intros H before r after d o src t Heq Hr Hn;
    [apply (H before r after d o src t Heq Hr); by apply Horigin|].
  apply (H before r after d o src t Heq Hr). by apply Horigin.
Qed.

Lemma route_check_exact (p : ExecutionPlan) index s :
  sources_open false [] (redirections s) →
  match check_internal_stdout_route p index s with
  | Ok _ => tail_writes p index s | Err _ => ¬ tail_writes p index s | Panic => False end.
Proof.
  intros Hs. unfold check_internal_stdout_route, tail_writes.
  destruct (is_internal s); cbn [negb orb]; [|done].
  destruct (match plan_stages p !! S index with Some next => is_internal next | None => false end) eqn:Hn.
  { intros _ H. destruct (plan_stages p !! S index) as [next|]; [|done]. specialize (H next eq_refl). congruence. }
  assert (∀ next, plan_stages p !! S index = Some next → is_internal next = false) as Hnext.
  { intros next Hl. by rewrite Hl in Hn. }
  unfold internal_stdout_route.
  destruct (route_exact (is_merged p index) (initial_bindings (is_merged p index)) [] (redirections s))
    as (b & -> & Hb); [done|by apply sources_open_merged|]. rewrite Hb, app_nil_r.
  destruct (origin _ _ 1) as [[| | |]|]; try done; intros H; by destruct (H eq_refl Hnext).
Qed.

Definition stage_runnable (p : ExecutionPlan) (index : nat) (s : PlannedStage) : Prop :=
  stage_clean s ∧ sources_open false [] (redirections s) ∧ tail_writes p index s.

Lemma check_stages_exact (p : ExecutionPlan) index stages :
  match check_stages p index stages with
  | Ok _ => ∀ i s, stages !! i = Some s → stage_runnable p (index + i) s
  | Err _ => ¬ ∀ i s, stages !! i = Some s → stage_runnable p (index + i) s
  | Panic => False
  end.
Proof.
  revert index. induction stages as [|s stages IH]; intros index; cbn [check_stages]; [by intros|].
  assert ((∀ i x, (s :: stages) !! i = Some x → stage_runnable p (index + i) x) → stage_runnable p index s) as Hfirst.
  { intros H. rewrite <- (Nat.add_0_r index). by apply H. }
  pose proof (check_nul_exact s) as Hn. destruct (check_nul s); simpl; [|by intros [? _]%Hfirst|done].
  pose proof (ownership_exact false initially_open [] (redirections s) (initially_open_spec false)) as Ho.
  unfold check_descriptor_ownership. destruct (ownership_loop _ _); simpl; [|by intros (_ & ? & _)%Hfirst|done].
  pose proof (route_check_exact p index s Ho) as Hr.
  destruct (check_internal_stdout_route p index s); simpl; [|by intros (_ & _ & ?)%Hfirst|done].
  specialize (IH (S index)). destruct (check_stages p (S index) stages); [| |done].
  - intros [|i] x Hi; [|rewrite Nat.add_succ_r; exact (IH i x Hi)]. injection Hi as <-. by rewrite Nat.add_0_r.
  - intros H. apply IH. intros i x Hi. rewrite Nat.add_succ_l, <- Nat.add_succ_r. by apply (H (S i)).
Qed.

(** The stage or edge a fault names is in the plan. *)
Definition fault_in_range (stages edges : nat) (f : PipelineCarrierFault) : Prop :=
  match f with HeadInput stage _ _ => stage < stages | FaultMergedEdge edge _ _ | FaultCarrierMismatch edge _ => edge < edges end.

Lemma tail_faults_in_range n edge input stages operators :
  Forall (fault_in_range n (edge + length operators)) (tail_faults edge input stages operators).
Proof.
  revert edge input stages. induction operators as [|operator operators IH]; intros edge input stages; [constructor|].
  cbn [tail_faults length]. destruct stages as [|stage [|next stages]]; try constructor. apply Forall_app. split.
  - unfold edge_faults. destruct (contract_output stage input); [|constructor].
    destruct stage; [|constructor]. destruct (match operator with Stdout => _ | StdoutAndStderr => _ end).
    + repeat constructor. cbn. lia.
    + destruct next; [|constructor]. destruct (bool_decide _); repeat constructor. cbn. lia.
  - rewrite Nat.add_succ_r, <- Nat.add_succ_l. apply IH.
Qed.

Lemma carrier_error_in_range (p : ExecutionPlan) f :
  fault_in_range (length (plan_stages p)) (length (edges p)) f → ∃ e, carrier_error p f = Err e.
Proof.
  destruct f as [stage command accepted|edge producer produced|edge mismatch]; cbn [fault_in_range carrier_error];
    intros [x ->]%lookup_lt_is_Some; simpl; eauto.
Qed.

Definition known_stages (p : ExecutionPlan) : Forall is_known (stage_contract <$> plan_stages p).
Proof. induction (plan_stages p); simpl; by constructor. Qed.

Lemma check_carriers_exact (p : ExecutionPlan) :
  plan_stages p ≠ [] → length (edges p) = length (plan_stages p) - 1 →
  match check_carriers p with
  | Ok _ => ∃ head stages input, stage_contract <$> plan_stages p = head :: stages ∧
      head_input head = Some input ∧ flows input (head :: stages) (edge_kind <$> edges p)
  | Err _ => ¬ ∃ head stages input, stage_contract <$> plan_stages p = head :: stages ∧
      head_input head = Some input ∧ flows input (head :: stages) (edge_kind <$> edges p)
  | Panic => False
  end.
Proof.
  intros Hne Hl. unfold check_carriers. pose proof (known_stages p) as Hk.
  pose proof (length_fmap (stage_contract (EvalError := EvalError) (HelpEntry := HelpEntry)) (plan_stages p)) as Hlen.
  destruct (stage_contract <$> plan_stages p) as [|head stages] eqn:Hstages; [by destruct (plan_stages p)|].
  cbn [length] in Hlen.
  assert (length (edge_kind <$> edges p) = length stages) as Hops by (rewrite length_fmap; lia).
  rewrite analyze_eq by done. pose proof (known_faults_nil head stages _ Hops Hk) as Hnil.
  destruct (head_fault (head :: stages) ++ _) as [|f faults] eqn:Hf.
  - destruct (proj1 Hnil eq_refl) as (input & Hi & Hflow). by exists head, stages, input.
  - assert (Forall (fault_in_range (length (plan_stages p)) (length (edges p))) (f :: faults)) as Hrange.
    { rewrite <- Hf. apply Forall_app. split.
      - unfold head_fault. destruct head as [name accepted out|]; [|constructor].
        destruct (negb _ && negb _); repeat constructor. cbn. lia.
      - rewrite <- (length_fmap edge_kind (edges p)). apply (tail_faults_in_range _ 0). }
    apply Forall_cons in Hrange as [Hrange _]. destruct (carrier_error_in_range p f Hrange) as [e ->].
    intros (h & t & input & [= <- <-] & Hi & Hflow). pose proof (proj2 Hnil (ex_intro _ input (conj Hi Hflow))). done.
Qed.

(** C20: Preflight is exact.  On a plan with one edge between stages it never
    panics, and it accepts exactly the plans that can run: no value of the
    environment, argument or redirection target holds a NUL byte, every duplication
    is from a descriptor that leads somewhere when it is reached, the last internal
    stage before an external one (or the end) writes to the pipeline or to a file,
    and carriers flow from the head to the last stage. *)
Theorem preflight_exact (p : ExecutionPlan) :
  plan_stages p ≠ [] → length (edges p) = length (plan_stages p) - 1 →
  match preflight p with Ok _ => runnable p | Err _ => ¬ runnable p | Panic => False end.
Proof.
  intros Hne Hl. unfold preflight, check_environment_nul.
  destruct (existsb _ (plan_environment p)) eqn:He; simpl.
  { apply existsb_exists in He as ([name value] & Hin%list_elem_of_In & Hv). cbn [snd] in Hv. rewrite has_byte_spec in Hv.
    intros [H _ _]. apply (H name value Hin). by apply bool_decide_eq_true in Hv. }
  assert (∀ name value, (name, value) ∈ plan_environment p → NUL ∉ value) as Henv.
  { intros name value Hin Hn. rewrite <- not_true_iff_false in He. apply He, existsb_exists.
    exists (name, value). split; [by apply list_elem_of_In|]. cbn [snd]. by rewrite has_byte_spec, bool_decide_true. }
  pose proof (check_stages_exact p 0 (plan_stages p)) as Hs.
  destruct (check_stages p 0 (plan_stages p)); simpl; [|by intros [_ H _]|done].
  pose proof (check_carriers_exact p Hne Hl) as Hc.
  destruct (check_carriers p); [|by intros [_ _ H]|done]. by split.
Qed.

(** ** The topology of a mixed plan *)

Definition segment_range (s : InternalSegment) : list nat := seq (segment_start s) (segment_end s - segment_start s).

(** The indices from [index] of the stages of one kind. *)
Fixpoint indices_of (internal : bool) (index : nat) (stages : list PlannedStage) : list nat :=
  match stages with
  | [] => []
  | s :: stages => (if Bool.eqb (is_internal s) internal then [index] else []) ++ indices_of internal (S index) stages
  end.

(** A maximal run of internal stages. *)
Definition maximal (stages : list PlannedStage) (s : InternalSegment) : Prop :=
  segment_start s < segment_end s ≤ length stages ∧
  (∀ k, segment_start s = S k → ∃ x, stages !! k = Some x ∧ is_internal x = false) ∧
  (∀ x, stages !! segment_end s = Some x → is_internal x = false).

Definition open_range (open : option nat) (index : nat) : list nat :=
  match open with Some start => seq start (index - start) | None => [] end.

(** What the loop keeps after [before]. *)
Record topology_invariant (before : list PlannedStage) (open : option nat) (segments : list InternalSegment)
    (externals : list nat) : Prop := {
  invariant_externals : externals = indices_of false 0 before;
  invariant_internals : mjoin (segment_range <$> segments) ++ open_range open (length before) = indices_of true 0 before;
  invariant_ordinals : ∀ k s, segments !! k = Some s → segment_ordinal s = k;
  invariant_segments : ∀ s, s ∈ segments → segment_start s < segment_end s < length before ∧
    (∀ k, segment_start s = S k → ∃ x, before !! k = Some x ∧ is_internal x = false) ∧
    (∃ x, before !! segment_end s = Some x ∧ is_internal x = false);
  invariant_open : match open with
    | Some start => start < length before ∧ ∀ k, start = S k → ∃ x, before !! k = Some x ∧ is_internal x = false
    | None => ∀ k, length before = S k → ∃ x, before !! k = Some x ∧ is_internal x = false
    end
}.

Lemma indices_of_app internal index l r :
  indices_of internal index (l ++ r) = indices_of internal index l ++ indices_of internal (index + length l) r.
Proof.
  revert index. induction l as [|s l IH]; intros index; simpl; [by rewrite Nat.add_0_r|].
  by rewrite IH, app_assoc, Nat.add_succ_r.
Qed.

Lemma seq_snoc start n : start ≤ n → seq start (S n - start) = seq start (n - start) ++ [n].
Proof. intros H. rewrite Nat.sub_succ_l by done. rewrite seq_S. by replace (start + (n - start)) with n by lia. Qed.

Lemma mjoin_snoc {A} (l : list (list A)) x : mjoin (l ++ [x]) = mjoin l ++ x.
Proof. induction l; simpl; [by rewrite app_nil_r|]. by rewrite IHl, app_assoc. Qed.

Lemma close_ranges open index segments :
  mjoin (segment_range <$> close_segment open index segments) = mjoin (segment_range <$> segments) ++ open_range open index.
Proof.
  destruct open as [start|]; cbn [close_segment open_range]; [|by rewrite app_nil_r].
  rewrite fmap_app. cbn [fmap list_fmap]. by rewrite mjoin_snoc.
Qed.

Lemma invariant_step_internal before open segments externals s :
  is_internal s = true → topology_invariant before open segments externals →
  topology_invariant (before ++ [s]) (Some (default (length before) open)) segments externals.
Proof.
  intros Hs [He Hi Ho Hseg Hopen]. split.
  - rewrite indices_of_app, <- He. simpl. by rewrite Hs, app_nil_r.
  - rewrite indices_of_app, <- Hi, length_app. simpl. rewrite Hs. simpl. rewrite Nat.add_1_r, <- app_assoc. f_equal.
    destruct open as [start|]; simpl; [apply seq_snoc; lia|]. by rewrite Nat.sub_succ_l, Nat.sub_diag by lia.
  - done.
  - intros x Hx. destruct (Hseg x Hx) as (Hl & Hb & (y & Hy & Hyx)). rewrite length_app. simpl. split; [lia|]. split.
    + intros k Hk. destruct (Hb k Hk) as (z & Hz & Hzx). exists z. split; [by apply lookup_app_l_Some|done].
    + exists y. split; [by apply lookup_app_l_Some|done].
  - rewrite length_app. simpl. destruct open as [start|]; simpl.
    + destruct Hopen as [Hlt Hb]. split; [lia|]. intros k Hk. destruct (Hb k Hk) as (z & Hz & Hzx).
      exists z. split; [by apply lookup_app_l_Some|done].
    + split; [lia|]. intros k Hk. destruct (Hopen k Hk) as (z & Hz & Hzx). exists z. split; [by apply lookup_app_l_Some|done].
Qed.

Lemma close_ordinals open index segments :
  (∀ k s, segments !! k = Some s → segment_ordinal s = k) →
  ∀ k s, close_segment open index segments !! k = Some s → segment_ordinal s = k.
Proof.
  intros Ho k s. destruct open as [start|]; simpl; [|by apply Ho]. intros [Hk|[Hk [Hj <-]%list_lookup_singleton_Some]]%lookup_app_Some;
    [by apply Ho|]. simpl. lia.
Qed.

Lemma invariant_step_external before open segments externals s :
  is_internal s = false → topology_invariant before open segments externals →
  topology_invariant (before ++ [s]) None (close_segment open (length before) segments) (externals ++ [length before]).
Proof.
  intros Hs [He Hi Ho Hseg Hopen]. split.
  - rewrite indices_of_app, <- He. simpl. by rewrite Hs.
  - rewrite indices_of_app, <- Hi, close_ranges. simpl. by rewrite Hs, !app_nil_r.
  - by apply close_ordinals.
  - assert (∃ x, (before ++ [s]) !! length before = Some x ∧ is_internal x = false) as Hend.
    { exists s. split; [|done]. by rewrite lookup_app_r, Nat.sub_diag by lia. }
    intros x Hx. rewrite length_app. simpl. assert (x ∈ segments ∨ ∃ start, open = Some start ∧
      x = mkSegment (length segments) start (length before)) as [Hx'|(start & -> & ->)].
    { destruct open; simpl in Hx; [|by left]. rewrite elem_of_app, list_elem_of_singleton in Hx. naive_solver. }
    + destruct (Hseg x Hx') as (Hl & Hb & (y & Hy & Hyx)). split; [lia|]. split.
      * intros k Hk. destruct (Hb k Hk) as (z & Hz & Hzx). exists z. split; [by apply lookup_app_l_Some|done].
      * exists y. split; [by apply lookup_app_l_Some|done].
    + destruct Hopen as [Hlt Hb]. simpl. split; [lia|]. split; [|done].
      intros k Hk. destruct (Hb k Hk) as (z & Hz & Hzx). exists z. split; [by apply lookup_app_l_Some|done].
  - intros k Hk. rewrite length_app in Hk. simpl in Hk. exists s. split; [|done].
    rewrite lookup_app_r by lia. by replace (k - length before) with 0 by lia.
Qed.

Lemma topology_loop_invariant before open segments externals stages :
  topology_invariant before open segments externals →
  ∃ open' segments', topology_invariant (before ++ stages) open' segments' (topology_loop (length before) open segments externals stages).2 ∧
    (topology_loop (length before) open segments externals stages).1 = close_segment open' (length (before ++ stages)) segments'.
Proof.
  revert before open segments externals. induction stages as [|s stages IH]; intros before open segments externals Hi;
    cbn [topology_loop]; [exists open, segments; by rewrite app_nil_r|].
  rewrite (cons_middle s before stages), app_assoc. rewrite <- (Nat.add_1_r (length before)).
  replace (length before + 1) with (length (before ++ [s])) by (by rewrite length_app).
  destruct (is_internal s) eqn:Hs; apply IH; [by apply invariant_step_internal|by apply invariant_step_external].
Qed.

(** The topology of a mixed plan is its partition.  A plan has one exactly
    when it has internal and external stages; the external indices are those of the
    external stages, in order, the ranges of the segments are those of the internal
    ones, in order, and every segment is a maximal run, numbered by its place. *)
Theorem mixed_topology_exact (p : ExecutionPlan) :
  match mixed_topology p with
  | Some t =>
    external_indices t = indices_of false 0 (plan_stages p) ∧ external_indices t ≠ [] ∧
    mjoin (segment_range <$> internal_segments t) = indices_of true 0 (plan_stages p) ∧ internal_segments t ≠ [] ∧
    ∀ k s, internal_segments t !! k = Some s → segment_ordinal s = k ∧ maximal (plan_stages p) s
  | None => indices_of false 0 (plan_stages p) = [] ∨ indices_of true 0 (plan_stages p) = []
  end.
Proof.
  unfold mixed_topology. destruct (topology_loop_invariant [] None [] [] (plan_stages p)) as (open & segments & Hi & Heq).
  { split; [done|done|by intros ? ? [=]|by intros ? ?%not_elem_of_nil|by intros ? [=]]. }
  cbn [length app] in Hi, Heq. destruct (topology_loop 0 None [] [] (plan_stages p)) as [closed externals].
  cbn [fst snd] in *. subst closed. destruct Hi as [He Hin Ho Hseg Hopen].
  rewrite <- close_ranges in Hin. rewrite <- He, <- Hin.
  assert (∀ s, s ∈ close_segment open (length (plan_stages p)) segments → maximal (plan_stages p) s) as Hmax.
  { intros x Hx. assert (x ∈ segments ∨ ∃ start, open = Some start ∧
      x = mkSegment (length segments) start (length (plan_stages p))) as [Hx'|(start & -> & ->)].
    { destruct open; simpl in Hx; [|by left]. rewrite elem_of_app, list_elem_of_singleton in Hx. naive_solver. }
    - destruct (Hseg x Hx') as (Hl & Hb & (y & Hy & Hyx)). split; [lia|]. split; [done|]. intros z Hz. congruence.
    - destruct Hopen as [Hlt Hb]. split; [simpl; lia|]. split; [done|]. simpl. intros z Hz.
      rewrite lookup_ge_None_2 in Hz by lia. done. }
  pose proof (close_ordinals open (length (plan_stages p)) segments Ho) as Hord.
  destruct (close_segment open (length (plan_stages p)) segments) as [|first rest] eqn:Hclose; [by right|].
  destruct externals as [|e externals]; [by left|]. split_and!; try done.
  intros k s Hk. split; [by apply Hord|]. apply Hmax. by eapply list_elem_of_lookup_2.
Qed.
End Facts.

(** ** Native bytes can be read back *)

Definition unhex (b : u8) : Z := if (b <? 58)%Z then (b - 48)%Z else (b - 87)%Z.

(** Reads rendered bytes up to the closing bracket. *)
Fixpoint unrender (fuel : nat) (s : str) : option (str * str) :=
  match fuel, s with
  | S fuel, b :: rest =>
    let continue byte rest := '(bytes, tail) ← unrender fuel rest; Some (byte :: bytes, tail) in
    if (b =? 93)%Z then Some ([], rest)
    else if (b =? 92)%Z then
      match rest with
      | c :: rest =>
        if (c =? 120)%Z then
          match rest with
          | h :: l :: rest => continue (unhex h * 16 + unhex l)%Z rest
          | _ => None
          end
        else continue c rest
      | [] => None
      end
    else continue b rest
  | _, _ => None
  end.

Lemma unhex_digit d : (0 ≤ d < 16)%Z → unhex (hex_digit d) = d.
Proof.
  intros Hd. unfold hex_digit, unhex. destruct (Z.ltb_spec d 10).
  - destruct (Z.ltb_spec (48 + d) 58); lia.
  - destruct (Z.ltb_spec (87 + d) 58); lia.
Qed.

Lemma unrender_byte fuel b rest :
  is_byte b →
  unrender (S fuel) (render_byte b ++ rest) = '(bytes, tail) ← unrender fuel rest; Some (b :: bytes, tail).
Proof.
  intros Hb. unfold is_byte in Hb. unfold render_byte.
  destruct (Z.eqb_spec b 92) as [->|H92]; [done|]. destruct (Z.eqb_spec b 91) as [->|H91]; [done|].
  destruct (Z.eqb_spec b 93) as [->|H93]; [done|].
  destruct ((32 <=? b) && (b <=? 126))%Z; cbn [app unrender].
  - by rewrite (proj2 (Z.eqb_neq b 93)), (proj2 (Z.eqb_neq b 92)).
  - cbn [Z.eqb Pos.eqb]. pose proof (Z.div_mod b 16 ltac:(lia)).
    rewrite !unhex_digit by (first [apply Z.mod_pos_bound; lia|split; [apply Z.div_pos; lia|apply Z.div_lt_upper_bound; lia]]).
    by replace (b / 16 * 16 + b mod 16)%Z with b by lia.
Qed.

Lemma unrender_bytes bytes rest :
  Forall is_byte bytes → unrender (S (length bytes)) (mjoin (render_byte <$> bytes) ++ 93%Z :: rest) = Some (bytes, rest).
Proof.
  induction 1 as [|b bytes Hb _ IH]; [done|]. rewrite fmap_cons, mjoin_cons, <- app_assoc, unrender_byte by done.
  cbn [length]. by rewrite IH.
Qed.

Lemma unrender_more fuel s r : unrender fuel s = Some r → ∀ fuel', fuel ≤ fuel' → unrender fuel' s = Some r.
Proof.
  revert s r. induction fuel as [|fuel IH]; intros s r Hs [|fuel'] Hf; try done; try lia.
  assert (∀ rest byte r, ('(bytes, tail) ← unrender fuel rest; Some (byte :: bytes, tail)) = Some r →
    ('(bytes, tail) ← unrender fuel' rest; Some (byte :: bytes, tail)) = Some r) as Hmore.
  { intros rest byte r' Hr. destruct (unrender fuel rest) as [[bytes tail]|] eqn:E; [|done].
    by rewrite (IH _ _ E fuel' ltac:(lia)). }
  destruct s as [|b rest]; [done|]. cbn [unrender] in *. destruct (b =? 93)%Z; [done|].
  destruct (b =? 92)%Z; [|by apply Hmore]. destruct rest as [|c rest]; [done|].
  destruct (c =? 120)%Z; [|by apply Hmore]. destruct rest as [|h [|l rest]]; [done..|]. by apply Hmore.
Qed.

(** Distinct native values never render alike: rendered bytes can be read
    back, and even followed by different text, equal renderings are of the same
    bytes (so what a plan renders with them determines them). *)
Theorem render_bytes_injective (a b rest rest' : str) :
  Forall is_byte a → Forall is_byte b →
  render_bytes a ++ rest = render_bytes b ++ rest' → a = b ∧ rest = rest'.
Proof.
  intros Ha Hb Heq. unfold render_bytes in Heq. injection Heq as Heq. rewrite <- !app_assoc in Heq.
  pose proof (unrender_bytes a rest Ha) as Hra. pose proof (unrender_bytes b rest' Hb) as Hrb.
  apply (unrender_more _ _ _) with (fuel' := S (length a) `max` S (length b)) in Hra; [|lia].
  apply (unrender_more _ _ _) with (fuel' := S (length a) `max` S (length b)) in Hrb; [|lia].
  cbn [app] in Heq. rewrite Heq in Hra. by simplify_eq.
Qed.

Lemma render_bytes_injective_witness :
  render_bytes [97; 10; 93; 255]%Z = bs "[a\x0a\]\xff]" ∧
  (render_bytes [97; 10]%Z ++ [32]%Z = render_bytes [97; 10]%Z ++ [32]%Z → [97; 10]%Z = [97; 10]%Z ∧ [32]%Z = [32]%Z).
Proof.
  split; [vm_compute; reflexivity|]. apply (render_bytes_injective [97; 10]%Z [97; 10]%Z [32]%Z [32]%Z);
    repeat constructor; unfold is_byte; lia.
Defined.

(** ** What planning promises *)

Section Planned.
Context {EvalError Scope HelpEntry : Type} {P : Planner EvalError Scope HelpEntry}.
Notation PlannedStage := (@PlannedStage EvalError HelpEntry).
Notation Planned := (@Planned EvalError Scope).

Lemma pbind_ok {A B} (m : Planned A) (k : A → Planned B) s b s' :
  pbind m k s = (Ok b, s') ↔ ∃ a s1, m s = (Ok a, s1) ∧ k a s1 = (Ok b, s').
Proof.
  unfold pbind. destruct (m s) as [[a|e|] s1].
  - split; [intros H; by exists a, s1|]. by intros (a' & s1' & [= -> ->] & H).
  - split; [by intros [=]|by intros (? & ? & [=] & _)].
  - split; [by intros [=]|by intros (? & ? & [=] & _)].
Qed.

(** A computation that leaves the budget as it is. *)
Definition keeps {A} (m : Planned A) : Prop := ∀ s, child_starts (m s).2 = child_starts s.

Lemma keeps_pret {A} (a : A) : keeps (pret a).
Proof. done. Qed.
Lemma keeps_plift {A} (r : res PlanError A) : keeps (plift r).
Proof. done. Qed.
Lemma keeps_pfail {A} kind span : keeps (pfail (A := A) kind span).
Proof. done. Qed.
Lemma keeps_evaluated {A} (m : Scope → res EvalError A * Scope) : keeps (evaluated m).
Proof. intros s. unfold evaluated. by destruct (m (plan_scope s)). Qed.
Lemma keeps_on_clone {A} (m : Planned A) : keeps m → keeps (on_clone m).
Proof. intros H s. unfold on_clone. specialize (H s). by destruct (m s). Qed.
Lemma keeps_pbind {A B} (m : Planned A) (k : A → Planned B) : keeps m → (∀ a, keeps (k a)) → keeps (pbind m k).
Proof.
  intros Hm Hk s. unfold pbind. specialize (Hm s). destruct (m s) as [[a|e|] s1]; simpl in *; [|done..]. by rewrite Hk.
Qed.
#[local] Hint Resolve keeps_pret keeps_plift keeps_pfail keeps_evaluated keeps_on_clone keeps_pbind : keeps.

Lemma keeps_plan_redirection kind c : keeps (plan_redirection kind c).
Proof. destruct kind; simpl; eauto 10 with keeps. Qed.
#[local] Hint Resolve keeps_plan_redirection : keeps.

Lemma keeps_plan_item c r item v : keeps (plan_item c r item v).
Proof. unfold plan_item. destruct (node_kind item); [| |destruct (is_external r)|]; eauto 10 with keeps. Qed.
#[local] Hint Resolve keeps_plan_item : keeps.

Lemma keeps_plan_items c r items v : keeps (plan_items c r items v).
Proof. revert v. induction items as [|item items IH]; intros v; cbn [plan_items]; auto with keeps. Qed.

Lemma keeps_plan_help_items c items v : keeps (plan_help_items c items v).
Proof.
  revert v. induction items as [|item items IH]; intros v; cbn [plan_help_items]; [auto with keeps|].
  apply keeps_pbind; [|done]. unfold plan_help_item. destruct v as [[collected query] query_span].
  destruct (node_kind item) as [word| | |redirection]; unfold help_error; auto with keeps.
  destruct (negb (is_static_word word)); [auto with keeps|]. apply keeps_pbind; [auto with keeps|].
  intros expanded. destruct (to_str (word_value expanded)); auto with keeps.
Qed.

(** The words of a stage are those of its arguments, after its head. *)
Definition words_kept (head : ExpandedWord) (v : @Collected EvalError) : Prop :=
  collected_argv v = head :: omap as_word (collected_arguments v).

Lemma omap_as_word_words (words : list ExpandedWord) : omap as_word (PlannedWord (EvalError := EvalError) <$> words) = words.
Proof. induction words as [|w words IH]; [done|]. simpl. by f_equal. Qed.

Lemma collect_words_kept head words v : words_kept head v → words_kept head (collect_words words v).
Proof. unfold words_kept, collect_words. simpl. intros ->. by rewrite omap_app, omap_as_word_words. Qed.

Definition external_words (r : PlannedResolution) (v : @Collected EvalError) : Prop :=
  is_external r = true → Forall (λ a, as_word a ≠ None) (collected_arguments v).

Lemma plan_item_kept c r item v s v' s' head :
  plan_item c r item v s = (Ok v', s') → words_kept head v → external_words r v →
  words_kept head v' ∧ external_words r v'.
Proof.
  unfold plan_item, external_words. destruct (node_kind item) as [word|expression|closure|redirection].
  - intros (w & s1 & _ & [= <- <-])%pbind_ok Hw He. split; [by apply collect_words_kept|].
    intros Hr. simpl. apply Forall_app. split; [by apply He|by repeat constructor].
  - intros (ws & s1 & _ & [= <- <-])%pbind_ok Hw He. split; [by apply collect_words_kept|].
    intros Hr. simpl. apply Forall_app. split; [by apply He|]. apply Forall_fmap, list.Forall_forall. done.
  - destruct (is_external r); [by intros [=]|]. intros (value & s1 & _ & [= <- <-])%pbind_ok Hw He. split; [|done].
    unfold words_kept in *. simpl. by rewrite omap_app, app_nil_r.
  - by intros (action & s1 & _ & [= <- <-])%pbind_ok Hw He.
Qed.

Lemma plan_items_kept c r items v s v' s' head :
  plan_items c r items v s = (Ok v', s') → words_kept head v → external_words r v →
  words_kept head v' ∧ external_words r v'.
Proof.
  revert v s. induction items as [|item items IH]; intros v s; cbn [plan_items]; [by intros [= <- <-]|].
  intros (v1 & s1 & Hitem & Hrest)%pbind_ok Hw He. destruct (plan_item_kept _ _ _ _ _ _ _ head Hitem Hw He). eauto.
Qed.

(** One stage, as its registry, its probe and its schema ask. *)
Definition internal_arguments (signature : CommandSignature) (args : list PlannedArgument) : Prop :=
  ∃ given : list (@PlannedArgument EvalError), validate (arguments signature) (argument_input <$> given) = Ok [] ∧
    args = match terminator (arguments signature) with
           | TerminatorAccepted => remove_option_terminator given
           | TerminatorLiteral => given
           end.

Definition stage_planned (c : StagePlanningContext) (s : PlannedStage) : Prop :=
  ∃ head, argv s = head :: omap as_word (stage_arguments s) ∧
  match resolution s with
  | PlannedExternal path =>
    resolve_external (context_probe c) (word_value head) (context_cwd c) (context_environment c) = Ok path ∧
    input_carriers s = [CarrierByteStream] ∧ output_carrier s = CarrierByteStream ∧
    Forall (λ a, as_word a ≠ None) (stage_arguments s) ∧ stage_help s = None
  | PlannedInternal source canonical =>
    ∃ signature, lookup_command (context_registry c) canonical = Ok (Some signature) ∧ signature_name signature = canonical ∧
      input_carriers s = inputs signature ∧ output_carrier s = resolve_output (output signature) (input_carrier c) ∧
      match stage_help s with
      | Some _ => source = canonical
      | None =>
        source = word_value head ∧ lookup_command (context_registry c) source = Ok (Some signature) ∧
        (canonical = bs "check" → output signature = SameAsInput → has_upstream c = true) ∧
        internal_arguments signature (stage_arguments s)
      end
  end.

Lemma resolve_planned name forced head c r ins out :
  reachable (context_registry c) → resolve (EvalError := EvalError) name forced head c = Ok (r, ins, out) →
  match r with
  | PlannedExternal path =>
    forced = true ∧ resolve_external (context_probe c) name (context_cwd c) (context_environment c) = Ok path ∧
    ins = [CarrierByteStream] ∧ out = CarrierByteStream
  | PlannedInternal source canonical =>
    forced = false ∧ source = name ∧
    ∃ signature, lookup_command (context_registry c) canonical = Ok (Some signature) ∧ signature_name signature = canonical ∧
      lookup_command (context_registry c) source = Ok (Some signature) ∧
      ins = inputs signature ∧ out = resolve_output (output signature) (input_carrier c) ∧
      (canonical = bs "check" → output signature = SameAsInput → has_upstream c = true)
  end.
Proof.
  intros Hr. unfold resolve, resolve_command. destruct forced.
  - destruct (resolve_external _ _ _ _) as [path|[]|] eqn:Hx; intros [= <- <- <-]. done.
  - unfold to_str. destruct (utf8b name); [|done].
    destruct (resolve_bare name (context_registry c)) as [x|[]|] eqn:Hb; try done.
    destruct (resolve_bare_ok _ _ _ Hr Hb) as (canonical & signature & -> & Hl & Hc & Hn).
    destruct (str_eqb (signature_name signature) (bs "check") && is_same_as_input (output signature) && negb (has_upstream c)) eqn:E;
      intros [= <- <- <-]. split_and!; try done. exists signature. split_and!; try done.
    intros Hcheck Hsame. rewrite Hn, Hcheck, Hsame in E. by destruct (has_upstream c).
Qed.

Lemma on_clone_ok {A} (m : Planned A) s a s' :
  on_clone m s = (Ok a, s') → ∃ s1, m s = (Ok a, s1).
Proof. unfold on_clone. destruct (m s) as [x s1]. intros [= -> <-]. by exists s1. Qed.

Lemma plan_help_items_kept c items v s v' s' head :
  plan_help_items c items v s = (Ok v', s') → words_kept head v.1.1 → words_kept head v'.1.1.
Proof.
  revert v s. induction items as [|item items IH]; intros v s; cbn [plan_help_items]; [by intros [= <- <-]|].
  intros (v1 & s1 & Hitem & Hrest)%pbind_ok Hw. apply (IH _ _ Hrest). clear IH Hrest.
  unfold plan_help_item in Hitem. destruct v as [[collected query] query_span]. cbn [fst] in Hw.
  destruct (node_kind item) as [word| | |redirection]; try discriminate Hitem.
  - destruct (negb (is_static_word word)); [discriminate Hitem|]. apply pbind_ok in Hitem as (w & s2 & _ & Hitem).
    destruct (to_str (word_value w)); [|discriminate Hitem]. injection Hitem as <- <-. by apply collect_words_kept.
  - by apply pbind_ok in Hitem as (action & s2 & _ & [= <- <-]).
Qed.

Lemma plan_help_stage_ok head items span c st s st' :
  reachable (context_registry c) → plan_help_stage head items span c st = (Ok s, st') →
  stage_planned c s ∧ is_internal s = true ∧ child_starts st' = child_starts st.
Proof.
  intros Hr. unfold plan_help_stage. destruct head as [kind head_word head_span].
  pose proof (registry_classified (context_registry c) (bs "help") Hr) as Hc.
  destruct (lookup_command (context_registry c) (bs "help")) as [[signature|]|e|] eqn:Hl; try by intros [=].
  assert (lookup_command (context_registry c) (signature_name signature) = Ok (Some signature)) as Hname.
  { destruct (classify_command (context_registry c) (bs "help")) as [[|s' l|canonical s' l|purpose replacement major]|e|];
      try discriminate Hc; try done.
    - destruct Hc as [[= ->] Hn]. by rewrite Hn.
    - by destruct Hc as ([= ->] & Hn & Hc); rewrite Hn. }
  intros (word & s1 & Hword & Hrest)%pbind_ok.
  assert (child_starts s1 = child_starts st) as Hs1.
  { pose proof (keeps_on_clone _ (keeps_evaluated (expand_word head_word (context_environment c))) st) as Hk. by rewrite Hword in Hk. }
  assert (∀ m, (m = pbind (plan_help_items c items (mkCollected [word] [] [], None, head_span))
    (λ '(collected, query, query_span) s,
        let entries := help_query (context_registry c) (plan_scope s) query in
        match query, entries with
        | Some name, [] =>
          (Err (PlanFailed (StructuredCommand (bs "help") (bs "unknown help name " ++ quoted name)) query_span), s)
        | _, _ =>
          (Ok (mkStage (PlannedInternal (signature_name signature) (signature_name signature)) (inputs signature)
                 (resolve_output (output signature) (input_carrier c)) (collected_argv collected)
                 (collected_arguments collected) (collected_redirections collected)
                 (Some (mkHelp entries (bool_decide (is_Some query)))) span), s)
        end)) → m s1 = (Ok s, st') → stage_planned c s ∧ is_internal s = true ∧ child_starts st' = child_starts st) as Hmain.
  { intros m -> ([[collected query] query_span] & s2 & Hitems & Hend)%pbind_ok.
    assert (child_starts s2 = child_starts s1) as Hs2.
    { pose proof (keeps_plan_help_items c items (mkCollected [word] [] [], None, head_span) s1) as Hk. by rewrite Hitems in Hk. }
    assert (words_kept word collected) as Hwords by (by apply (plan_help_items_kept _ _ _ _ _ _ word Hitems)).
    assert (∃ entries, s = mkStage (PlannedInternal (signature_name signature) (signature_name signature)) (inputs signature)
      (resolve_output (output signature) (input_carrier c)) (collected_argv collected)
      (collected_arguments collected) (collected_redirections collected) (Some entries) span ∧ st' = s2) as (entries & -> & ->).
    { cbn zeta in Hend. destruct query as [name|]; [destruct (help_query _ _ _); [discriminate Hend|]|]; injection Hend as <- <-; eauto. }
    split_and!; [|done|congruence]. exists word. split; [exact Hwords|]. cbn. by exists signature. }
  destruct (filter _ items) as [|first [|second rest]] eqn:Hfilter; [| |discriminate Hrest]; by apply (Hmain _ eq_refl).
Qed.

Lemma finish_arguments_ok registry r words args span words' args' head :
  words = head :: omap as_word args →
  finish_arguments (EvalError := EvalError) registry r words args span = Ok (words', args') →
  words' = head :: omap as_word args' ∧
  match r with
  | PlannedExternal _ => args' = args
  | PlannedInternal _ canonical => ∃ signature, lookup_command registry canonical = Ok (Some signature) ∧
      internal_arguments signature args'
  end.
Proof.
  intros -> Hf. unfold finish_arguments in Hf. destruct r as [source canonical|path]; [|by injection Hf as <- <-].
  destruct (lookup_command registry canonical) as [[signature|]|e|] eqn:Hl; try discriminate Hf.
  unfold finish_internal, validate_planned_arguments in Hf.
  destruct (validate (arguments signature) (argument_input <$> args)) as [[|fault faults]|e|] eqn:Hv; try discriminate Hf.
  cbn [res_bind] in Hf. destruct (terminator (arguments signature)) eqn:Ht; injection Hf as <- <-;
    (split; [done|]); exists signature; (split; [done|]); exists args; rewrite Ht; done.
Qed.

Lemma plan_stage_ok head items span c st s st' :
  reachable (context_registry c) → plan_stage head items span c st = (Ok s, st') →
  stage_planned c s ∧
  reserved_starts (child_starts st') = (reserved_starts (child_starts st) + if is_internal s then 0 else 1)%Z ∧
  (reserved_starts (child_starts st) ≤ MAX_CHILD_STARTS_PER_SUBMISSION →
    reserved_starts (child_starts st') ≤ MAX_CHILD_STARTS_PER_SUBMISSION)%Z.
Proof.
  intros Hr. unfold plan_stage. destruct head as [kind head_word head_span] eqn:Hhead. rewrite <- Hhead.
  destruct (is_help_head head (context_source c)).
  { intros Hs. destruct (plan_help_stage_ok _ _ _ _ _ _ _ Hr Hs) as (? & -> & ->). split_and!; [done|lia|done]. }
  intros (word & s1 & Hword & (u & s2 & Hreserve & ([[r ins] out] & s3 & Hres & Hrest)%pbind_ok)%pbind_ok)%pbind_ok.
  assert (child_starts s1 = child_starts st) as Hs1.
  { pose proof (keeps_evaluated (expand_word head_word (context_environment c)) st) as Hk. by rewrite Hword in Hk. }
  injection Hres as Hres <-. destruct (is_planned_help r) eqn:Hhelp; [discriminate Hrest|].
  apply pbind_ok in Hrest as (v & s4 & Hitems & ([argv args] & s5 & Hfinish & [= <- <-])%pbind_ok).
  injection Hfinish as Hfinish <-.
  assert (child_starts s4 = child_starts s2) as Hs4.
  { pose proof (keeps_plan_items c r items (mkCollected [word] [] []) s2) as Hk. by rewrite Hitems in Hk. }
  destruct (plan_items_kept _ _ _ _ _ _ _ word Hitems) as [Hwords Hext]; [done|intros _; constructor|].
  destruct (finish_arguments_ok _ _ _ _ _ _ _ word Hwords Hfinish) as [Hargv Hargs].
  pose proof (resolve_planned _ _ _ _ _ _ _ Hr Hres) as Hplanned. rewrite Hs4, <- Hs1. destruct r as [source canonical|path].
  - destruct Hplanned as (Hforced & -> & signature & Hl & Hn & Hsrc & -> & -> & Hcheck). rewrite Hforced in Hreserve.
    injection Hreserve as <- <-. split_and!; [|cbn; lia|done]. exists word. split; [exact Hargv|]. cbn.
    exists signature. destruct Hargs as (signature' & Hl' & Hargs). assert (signature' = signature) as -> by congruence. by split_and!.
  - destruct Hplanned as (Hforced & Hx & -> & ->). rewrite Hforced in Hreserve. subst args.
    unfold reserve_start, reserve in Hreserve.
    destruct (Z.leb_spec MAX_CHILD_STARTS_PER_SUBMISSION (reserved_starts (child_starts s1))); [discriminate Hreserve|].
    injection Hreserve as <- <-. cbn. split_and!; [|lia|lia]. exists word. split; [exact Hargv|]. cbn.
    split_and!; try done. by apply Hext.
Qed.

(** The input of each stage is the output of the one before. *)
Definition previous_output (planned : list PlannedStage) : Carrier :=
  match last planned with Some previous => output_carrier previous | None => CarrierEmpty end.

Definition stages_planned (source : SourceFile) (cwd : str) (environment : Environment) (registry : CommandRegistry)
    (probe : str → bool) (planned : list PlannedStage) : Prop :=
  ∀ before s after, planned = before ++ s :: after →
    stage_planned (mkContext source cwd environment registry probe (previous_output before)
      (negb (bool_decide (before = [])))) s.

Lemma externals_snoc (before : list PlannedStage) s :
  Z.of_nat (length (indices_of false 0 (before ++ [s]))) =
  (Z.of_nat (length (indices_of false 0 before)) + if is_internal s then 0 else 1)%Z.
Proof. rewrite indices_of_app, length_app. simpl. destruct (is_internal s); simpl; lia. Qed.

Lemma plan_stages_loop_ok source cwd environment registry probe stages before st planned st' :
  reachable registry →
  plan_stages_loop source cwd environment registry probe stages before st = (Ok planned, st') →
  stages_planned source cwd environment registry probe before →
  length planned = length before + length stages ∧ stages_planned source cwd environment registry probe planned ∧
  (reserved_starts (child_starts st') - Z.of_nat (length (indices_of false 0 planned)) =
   reserved_starts (child_starts st) - Z.of_nat (length (indices_of false 0 before)))%Z ∧
  (reserved_starts (child_starts st) ≤ MAX_CHILD_STARTS_PER_SUBMISSION →
    reserved_starts (child_starts st') ≤ MAX_CHILD_STARTS_PER_SUBMISSION)%Z.
Proof.
  intros Hr. revert before st. induction stages as [|stage stages IH]; intros before st; cbn [plan_stages_loop].
  { intros [= <- <-] Hb. split_and!; [simpl; lia|done|lia|done]. }
  destruct (node_kind stage) as [head items|e]; [|by intros [=]].
  intros (s & s1 & Hs & Hrest)%pbind_ok Hb.
  apply plan_stage_ok in Hs as (Hplanned & Hstarts & Hmax); [|done]. apply IH in Hrest as (Hl & Hp & He & Hm).
  - rewrite externals_snoc in He. rewrite length_app in Hl. simpl in *. split_and!; [lia|done|lia|auto].
  - intros before' s' after Heq. destruct after as [|x after _] using rev_ind.
    + apply app_inj_tail in Heq as [-> ->]. exact Hplanned.
    + rewrite app_comm_cons, app_assoc in Heq. apply app_inj_tail in Heq as [-> _]. by apply (Hb before' s' after).
Qed.

(** C19: A plan that is built is what was asked for.  On a registry the program can
    build, planning succeeds with one planned stage for each stage and one edge for
    each operator; an external stage is what the probe found for its head and has
    only words; an internal stage is the command registered under its name, accepts
    and produces what the signature says of the output before it, and has arguments
    its schema admits, without the option terminator; the child starts committed are
    the external stages, within the limit; and a plan that fails commits none. *)
Theorem plan_pipeline_exact (stages : list Stage) (operators : list (AstNode PipeOperator)) (span : Span) (cwd : str)
    (source : SourceFile) (environment : Environment) (registry : CommandRegistry) (probe : str → bool)
    (options : SessionOptions) (st : PlanState) :
  reachable registry →
  let '(r, st') := plan_pipeline_with_options (mkPipeline stages operators span) cwd source environment registry probe options st in
  match r with
  | Ok p =>
    length (plan_stages p) = length stages ∧ edge_kind <$> edges p = node_kind <$> operators ∧
    plan_cwd p = cwd ∧ plan_environment p = environment ∧ pipefail p = option_pipefail options ∧
    capture_limit p = option_capture_limit options ∧
    stages_planned source cwd environment registry probe (plan_stages p) ∧
    reserved_starts (child_starts st') =
      (reserved_starts (child_starts st) + Z.of_nat (length (indices_of false 0 (plan_stages p))))%Z ∧
    (reserved_starts (child_starts st) ≤ MAX_CHILD_STARTS_PER_SUBMISSION →
      reserved_starts (child_starts st') ≤ MAX_CHILD_STARTS_PER_SUBMISSION)%Z
  | Err _ | Panic => child_starts st' = child_starts st
  end.
Proof.
  intros Hr. cbn [plan_pipeline_with_options].
  destruct (plan_stages_loop source cwd environment registry probe stages [] st) as [[planned|e|] st'] eqn:Hloop; try done.
  destruct (plan_stages_loop_ok _ _ _ _ _ _ _ _ _ _ Hr Hloop) as (Hl & Hp & He & Hm).
  { by intros [|] ? ? ?. }
  cbn. split_and!; try done; [|cbn in He; lia]. rewrite <- list_fmap_compose. by apply list_fmap_ext.
Qed.
End Planned.

(** ** Where the option terminator is not where validation saw it

    Validation skips the values of an option, the removal does not: when the value
    of an option is [--], it is the value that is removed, and the terminator is
    left among the arguments. *)
Definition limit_schema : CommandArgumentSchema :=
  with_options (positional 1 (Some 1)) [with_value_arity (option_flag (bs "--limit")) 1].

Lemma option_value_removed word :
  let given := (λ text, PlannedWord (EvalError := Empty_set) (mkExpanded text word [])) <$> [bs "--limit"; dashes; dashes; bs "x"] in
  validate limit_schema (argument_input <$> given) = Ok [] ∧
  map word_value (omap as_word (remove_option_terminator given)) = [bs "--limit"; dashes; bs "x"].
Proof. split; vm_compute; reflexivity. Qed.

(** ** At a concrete input *)

Definition sample_source : SourceFile := SourceFile_new 0%Z (bs "input") (bs "ls | ^cat x >f").
Definition sample_span (first last : nat) : Span := mkSpan 0%Z first last.

(** An evaluator for words of plain text. *)
#[local] Instance plain_planner : Planner Empty_set unit Empty_set :=
  mkPlanner _ _ _
    (λ '(mkWord _ s) _ scope, (Ok (mkExpanded (sub (source_text sample_source) (span_start s) (span_end s)) s [s]), scope))
    (λ _ _ _ scope, (Ok [], scope)) (λ _ scope, (Panic, scope)) (λ _ _ _, []).

Definition plain_word (first last : nat) : Word := mkWord [] (sample_span first last).

Definition sample_pipeline_stages : list Stage :=
  [node (SCommand (mkHead Bare (plain_word 0 2) (sample_span 0 2)) []) (sample_span 0 2);
   node (SCommand (mkHead ForcedExternal (plain_word 6 9) (sample_span 5 9))
     [node (IWord (plain_word 10 11)) (sample_span 10 11);
      node (IRedirection (node (RFile None Truncate (sample_span 12 13) (plain_word 13 14)) (sample_span 12 14))) (sample_span 12 14)])
     (sample_span 5 14)].

Definition bytes_registry : CommandRegistry :=
  (register registry_new (signature_new (bs "ls") [CarrierEmpty] CarrierByteStream)).2.

Definition sample_environment : Environment := [(bs "PATH", bs "/bin")].

Definition sample_planned : res PlanError ExecutionPlan * PlanState :=
  plan_pipeline_with_options (mkPipeline sample_pipeline_stages [node Stdout (sample_span 3 4)] (sample_span 0 14))
    (bs "/w") sample_source sample_environment bytes_registry (λ path, str_eqb path (bs "/bin/cat")) default_options
    (mkPlanState tt per_submission).

Lemma plan_pipeline_exact_witness :
  match sample_planned.1 with
  | Ok p => resolution <$> plan_stages p = [PlannedInternal (bs "ls") (bs "ls"); PlannedExternal (bs "/bin/cat")] ∧
      reserved_starts (child_starts sample_planned.2) = 1%Z ∧ length (plan_stages p) = 2
  | _ => False
  end.
Proof.
  pose proof (plan_pipeline_exact sample_pipeline_stages [node Stdout (sample_span 3 4)] (sample_span 0 14)
    (bs "/w") sample_source sample_environment bytes_registry (λ path, str_eqb path (bs "/bin/cat")) default_options
    (mkPlanState tt per_submission) ltac:(apply reach_register, reach_new)) as H.
  fold sample_planned in H. destruct sample_planned as [r st] eqn:E. cbn [fst snd] in *.
  assert (sample_planned.1 = r ∧ sample_planned.2 = st) as [<- <-] by (rewrite E; split; reflexivity).
  destruct (sample_planned.1) as [p|e|] eqn:Ep; [|vm_compute in Ep; discriminate Ep..].
  split; [|split; [vm_compute; reflexivity|exact (proj1 H)]].
  vm_compute in Ep. injection Ep as <-. vm_compute. reflexivity.
Defined.

Definition sample_plan : ExecutionPlan (EvalError := Empty_set) (HelpEntry := Empty_set) :=
  match sample_planned.1 with Ok p => p | _ => mkPlan [] [] [] [] false 0 None false (sample_span 0 0) end.

Lemma preflight_exact_witness : runnable sample_plan.
Proof.
  pose proof (preflight_exact sample_plan) as H.
  assert (plan_stages sample_plan ≠ []) as Hne by (vm_compute; discriminate).
  assert (length (edges sample_plan) = length (plan_stages sample_plan) - 1) as Hl by (vm_compute; reflexivity).
  specialize (H Hne Hl). assert (preflight sample_plan = Ok tt) as Hp by (vm_compute; reflexivity).
  rewrite Hp in H. exact H.
Defined.
