(* ===== verification/Builtin.v ===== *)
(** * Standard internal commands ([opaal-runtime/src/builtin.rs])

    The registry of the standard namespace, and the five commands that run
    without a process: [cd], [pwd], [which], [exit] and [check]. *)
From S2P Require Import Prelude Decimal Source Order Path Status Value.
From S2P Require Import Lifetime Environment Command Carrier Resolve Plan.

Local Open Scope res_scope.

(** ** The session *)

Record SessionState := mkSession {
  cwd : str;
  session_environment : Environment;
  current_status : option Status
}.

Definition session_new (cwd : str) (environment : Environment) : SessionState := mkSession cwd environment None.
Definition set_current_status (s : SessionState) (status : option Status) : SessionState :=
  mkSession (cwd s) (session_environment s) status.

(** [PartialEq] of [PathBuf] compares components. *)
Definition session_apply_delta (self base updated : SessionState) : SessionState :=
  mkSession
    (if path_eqb (cwd base) (cwd updated) then cwd self else cwd updated)
    (apply_delta (session_environment self) (session_environment base) (session_environment updated))
    (match current_status base, current_status updated with
     | None, None => current_status self
     | Some a, Some b => if Status_eqb a b then current_status self else current_status updated
     | _, _ => current_status updated
     end).

(** ** The standard registry *)

Definition words (s : CommandSignature) (minimum : nat) (maximum : option nat) : CommandSignature :=
  with_arguments s (positional minimum maximum).

Definition documented (s : CommandSignature) (invocation summary : str) : CommandNamespaceEntry :=
  EntryCore (with_documentation s (mkDocumentation invocation summary)) (introduced OPAAL_TOOLCHAIN_MAJOR).

Definition kill_signals : list str :=
  bs <$> ["--hangup"; "--interrupt"; "--terminate"; "--kill"; "--stop"; "--continue"]%string.

Definition kill_signal_options : list CommandOptionSchema :=
  (λ name, conflicts_with (option_flag name) (filter (λ other, other ≠ name) kill_signals)) <$> kill_signals.

Definition stream : Carrier := CarrierValueStream.
Definition signature (name : String.string) (inputs : list Carrier) (output : Carrier) : CommandSignature :=
  signature_new (bs name) inputs output.

(** The session, and the boundary of bytes and values. *)
Definition session_entries : list CommandNamespaceEntry :=
  [documented (words (signature "cd" [CarrierEmpty] CarrierEmpty) 0 (Some 1))
     (bs "cd [PATH]") (bs "Change the logical working directory.");
   documented (words (signature "pwd" [CarrierEmpty] CarrierValue) 0 (Some 0))
     (bs "pwd") (bs "Return the logical working directory.");
   documented (words (signature "which" [CarrierEmpty] stream) 1 None)
     (bs "which NAME...") (bs "Resolve command names without executing them.");
   documented (words (signature "exit" [CarrierEmpty] CarrierEmpty) 0 (Some 1))
     (bs "exit [CODE]") (bs "End the current session.");
   documented (words (passthrough (bs "check") [CarrierEmpty; CarrierByteStream; CarrierValue; stream]) 0 (Some 0))
     (bs "check") (bs "Raise a catchable error unless the upstream stage succeeded.");
   documented (words (signature "decode" [CarrierByteStream] stream) 1 (Some 1))
     (bs "decode CODEC") (bs "Decode bytes into structured values.");
   documented (words (signature "from" [CarrierByteStream] stream) 1 (Some 2))
     (bs "from FORMAT [MODE]") (bs "Parse formatted bytes into structured values.");
   documented (words (signature "encode" [CarrierValue; stream] CarrierByteStream) 1 (Some 1))
     (bs "encode CODEC") (bs "Encode structured values as bytes.");
   documented (words (signature "to" [CarrierValue; stream] CarrierByteStream) 1 (Some 1))
     (bs "to FORMAT") (bs "Serialize structured values in a named format.")].

(** The structured commands. *)
Definition structured_entries : list CommandNamespaceEntry :=
  [documented (words (signature "first" [stream] stream) 0 (Some 1))
     (bs "first [COUNT]") (bs "Keep the first values from a stream.");
   documented (words (signature "last" [stream] stream) 0 (Some 1))
     (bs "last [COUNT]") (bs "Keep the last values from a stream.");
   documented (words (signature "collect" [stream] CarrierValue) 0 (Some 0))
     (bs "collect") (bs "Collect a value stream into one list.");
   documented (words (signature "length" [stream] CarrierValue) 0 (Some 0))
     (bs "length") (bs "Count values in a stream.");
   documented (words (signature "lines" [stream] stream) 0 (Some 0))
     (bs "lines") (bs "Split textual values into lines.");
   documented (with_arguments (signature "each" [stream] stream) (with_positional_kinds (positional 1 (Some 1)) [KindClosure]))
     (bs "each { |VALUE| EXPRESSION }") (bs "Transform each value with a closure.");
   documented (with_arguments (signature "where" [stream] stream) (with_positional_kinds (positional 1 (Some 1)) [KindClosure]))
     (bs "where { |VALUE| PREDICATE }") (bs "Keep values accepted by a predicate closure.");
   documented (words (signature "select" [stream] stream) 1 None)
     (bs "select FIELD...") (bs "Project named fields from records.");
   documented (words (signature "get" [stream] stream) 1 (Some 1))
     (bs "get FIELD") (bs "Extract one named field from each record.");
   documented (with_arguments (signature "update" [stream] stream)
                 (with_positional_kinds (positional 2 (Some 2)) [KindWord; KindAny]))
     (bs "update FIELD VALUE") (bs "Replace a field in each record.");
   documented (words (signature "sort" [stream] stream) 0 (Some 1))
     (bs "sort [FIELD]") (bs "Sort values or records by a field.")].

(** Files, jobs and help. *)
Definition host_entries : list CommandNamespaceEntry :=
  [documented (words (signature "ls" [CarrierEmpty] stream) 0 (Some 1))
     (bs "ls [PATH]") (bs "List directory entries as records.");
   documented (words (signature "open" [CarrierEmpty] CarrierByteStream) 1 (Some 1))
     (bs "open PATH") (bs "Read a file as bytes.");
   documented (words (signature "save" [CarrierByteStream] CarrierEmpty) 1 (Some 1))
     (bs "save PATH") (bs "Write pipeline bytes to a file.");
   documented (words (signature "jobs" [CarrierEmpty] stream) 0 (Some 0))
     (bs "jobs") (bs "List addressable background jobs.");
   documented (words (signature "fg" [CarrierEmpty] CarrierEmpty) 0 (Some 1))
     (bs "fg [%JOB]") (bs "Resume a job in the foreground.");
   documented (words (signature "bg" [CarrierEmpty] CarrierEmpty) 0 (Some 1))
     (bs "bg [%JOB]") (bs "Resume a stopped job in the background.");
   documented (words (signature "wait" [CarrierEmpty] CarrierEmpty) 0 None)
     (bs "wait [%JOB...]") (bs "Wait for one job or all jobs.");
   documented (with_arguments (signature "kill" [CarrierEmpty] CarrierEmpty)
                 (options_before_positionals (with_options (positional 1 None) kill_signal_options)))
     (bs "kill [SIGNAL] %JOB...") (bs "Send a signal to an addressable job.");
   documented (words (signature "help" [CarrierEmpty] CarrierByteStream) 0 (Some 1))
     (bs "help [NAME]") (bs "Inspect built-in and visible function metadata without execution.")].

Definition standard_entries : list CommandNamespaceEntry := session_entries ++ structured_entries ++ host_entries.

(** The [expect] is [Panic]. *)
Definition standard_registry : res Empty_set CommandRegistry :=
  expect (try_from_entries OPAAL_TOOLCHAIN_MAJOR standard_entries).

(** ** Outcomes *)

Section Builtins.
Context {EvalError HelpEntry WorkingDirectoryError : Type}.

Notation Value := (Value EvalError).
Notation PlannedStage := (@PlannedStage EvalError HelpEntry).
Notation PlannedArgument := (@PlannedArgument EvalError).

Inductive BuiltinOutput :=
| BuiltinEmpty
| BuiltinValue (v : Value)
| BuiltinValueStream (vs : list Value)
| ForwardInput (c : Carrier).

Record BuiltinCompletion := mkCompletion { completion_output : BuiltinOutput; completion_status : Status }.

Inductive BuiltinOutcome :=
| BuiltinCompleted (c : BuiltinCompletion)
| BuiltinExit (exit_code : Z).

Inductive BuiltinErrorKind :=
| BuiltinUnsupported (feature : str)
| BuiltinInputCarrier (command : str) (input : Carrier)
| MissingHome
| WorkingDirectory (e : WorkingDirectoryError)
| BuiltinSearchLimit (kind : PathSearchLimitKind) (limit : Z)
| InvalidExitCode
| BuiltinRequiresUpstream
| UnsuccessfulStatus (status : Status)
| WrongArity (command : str) (minimum : nat) (maximum : option nat) (actual : nat)
| WrongArgument (command message : str).

Record BuiltinError := mkBuiltinError { builtin_error : BuiltinErrorKind; builtin_error_span : Span }.

Definition builtin_fail {A} (kind : BuiltinErrorKind) (span : Span) : res BuiltinError A := Err (mkBuiltinError kind span).

(** What a built-in asks of the platform. *)
Context (resolve_working_directory : str → str → str + WorkingDirectoryError) (is_executable : str → bool).

(** ** The commands *)

Definition expect_arity (s : PlannedStage) (command : str) (minimum : nat) (maximum : option nat) : res BuiltinError unit :=
  let actual := length (stage_arguments s) in
  if (actual <? minimum) || match maximum with Some maximum => maximum <? actual | None => false end
  then builtin_fail (WrongArity command minimum maximum actual) (stage_span s) else Ok tt.

Definition word_argument (command : str) (a : PlannedArgument) : res BuiltinError ExpandedWord :=
  match as_word a with
  | Some word => Ok word
  | None => builtin_fail (WrongArgument command (bs "expected a word argument, found a typed value")) (argument_span a)
  end.

(** The status is [expect]ed. *)
Definition completed (s : SessionState) (out : BuiltinOutput) (exit_code : Z)
    : res BuiltinError BuiltinOutcome * SessionState :=
  match Status_exit exit_code 0%Z with
  | Ok status => (Ok (BuiltinCompleted (mkCompletion out status)), set_current_status s (Some status))
  | Err _ | Panic => (Panic, s)
  end.

Definition parse_exit_code (value : str) : option Z :=
  if bool_decide (value = []) || negb (forallb is_digit value) then None
  else match to_str value with Some value => parse_unsigned 255 value | None => None end.

Definition default_exit_code (status : option Status) : Z :=
  match status with
  | None => 0%Z
  | Some status =>
    match code status with
    | Some c => if ((0 <=? c) && (c <=? 255))%Z then c else 1%Z
    | None => 1%Z
    end
  end.

Definition BuiltinM (A : Type) : Type := SessionState → res BuiltinError A * SessionState.

(** An early error leaves the session as it is. *)
Definition after {A B} (m : res BuiltinError A) (k : A → BuiltinM B) : BuiltinM B :=
  λ s, match m with Ok a => k a s | Err e => (Err e, s) | Panic => (Panic, s) end.

Local Notation "'do*' x := m 'in' k" := (after m (fun x => k))
  (at level 10, x name, m at level 100, k at level 200).
Local Notation "'do*' ' p := m 'in' k" := (after m (fun p => k))
  (at level 10, p strict pattern, m at level 100, k at level 200).

Definition cd_target (stage : PlannedStage) (s : SessionState) : res BuiltinError (str * Span) :=
  match stage_arguments stage with
  | argument :: _ =>
    let* word := word_argument (bs "cd") argument in
    Ok (word_value word, expanded_span word)
  | [] =>
    match environment_get (session_environment s) (bs "HOME") with
    | Some home => Ok (home, stage_span stage)
    | None => builtin_fail MissingHome (stage_span stage)
    end
  end.

Definition execute_cd (stage : PlannedStage) : BuiltinM BuiltinOutcome :=
  λ s,
    (do* _ := expect_arity stage (bs "cd") 0 (Some 1) in
     do* ' (target, span) := cd_target stage s in
     do* resolved := match resolve_working_directory target (cwd s) with
                     | inl resolved => Ok resolved
                     | inr e => builtin_fail (WorkingDirectory e) span
                     end in
     λ s,
       let environment := environment_set (session_environment s) (bs "OLDPWD") (cwd s) in
       let environment := environment_set environment (bs "PWD") resolved in
       completed (mkSession resolved environment (current_status s)) BuiltinEmpty 0%Z) s.

Definition execute_pwd (stage : PlannedStage) : BuiltinM BuiltinOutcome :=
  do* _ := expect_arity stage (bs "pwd") 0 (Some 0) in
  λ s, completed s (BuiltinValue (VPath (cwd s))) 0%Z.

(** [registry.classify], for a UTF-8 name. *)
Definition which_classification (registry : CommandRegistry) (name : str) : res BuiltinError (option CommandClassification) :=
  match to_str name with
  | None => Ok None
  | Some name => match classify_command registry name with Ok c => Ok (Some c) | Err _ | Panic => Panic end
  end.

(** One name: its kind, target and path, and whether it is missing. *)
Definition which_name (stage : PlannedStage) (s : SessionState) (registry : CommandRegistry) (name : str)
    : res BuiltinError (str * Value * Value * bool) :=
  let* classification := which_classification registry name in
  match classification with
  | Some (ClassCore _ _) => Ok (bs "internal", VNull, VNull, false)
  | Some (ClassAlias canonical_name _ _) => Ok (bs "alias", VString canonical_name, VNull, false)
  | Some (ClassReserved _ replacement _) =>
    Ok (bs "reserved", match replacement with Some r => VString r | None => VNull end, VNull, true)
  | Some ClassUnknown | None =>
    match resolve_external is_executable name (cwd s) (session_environment s) with
    | Ok path => Ok (bs "external", VNull, VPath path, false)
    | Err (ResolutionNotFound _) => Ok (bs "missing", VNull, VNull, true)
    | Err (PathSearchLimitExceeded kind limit) => builtin_fail (BuiltinSearchLimit kind limit) (stage_span stage)
    | Err (ResolutionReserved _ _ _) => Panic
    | Panic => Panic
    end
  end.

Fixpoint which_loop (stage : PlannedStage) (s : SessionState) (registry : CommandRegistry) (args : list PlannedArgument)
    (missing : bool) (out : list Value) : res BuiltinError (bool * list Value) :=
  match args with
  | [] => Ok (missing, out)
  | argument :: args =>
    let* word := word_argument (bs "which") argument in
    let name := word_value word in
    let* ' (kind, target, path, absent) := which_name stage s registry name in
    let* record := expect (Record_new [(bs "name", VPath name); (bs "kind", VString kind); (bs "target", target); (bs "path", path)]) in
    which_loop stage s registry args (missing || absent) (out ++ [VRecord record])
  end.

Definition execute_which (stage : PlannedStage) (registry : CommandRegistry) : BuiltinM BuiltinOutcome :=
  λ s,
    (do* _ := expect_arity stage (bs "which") 1 None in
     do* ' (missing, out) := which_loop stage s registry (stage_arguments stage) false [] in
     λ s, completed s (BuiltinValueStream out) (if missing then 1%Z else 0%Z)) s.

Definition exit_code_argument (stage : PlannedStage) (s : SessionState) : res BuiltinError Z :=
  match stage_arguments stage with
  | argument :: _ =>
    let* word := word_argument (bs "exit") argument in
    match parse_exit_code (word_value word) with
    | Some exit_code => Ok exit_code
    | None => builtin_fail InvalidExitCode (expanded_span word)
    end
  | [] => Ok (default_exit_code (current_status s))
  end.

Definition execute_exit (stage : PlannedStage) : BuiltinM BuiltinOutcome :=
  λ s,
    (do* _ := expect_arity stage (bs "exit") 0 (Some 1) in
     do* exit_code := exit_code_argument stage s in
     λ s, (Ok (BuiltinExit exit_code), s)) s.

Definition execute_check (stage : PlannedStage) (input : Carrier) (upstream_status : option Status)
    : BuiltinM BuiltinOutcome :=
  do* _ := expect_arity stage (bs "check") 0 (Some 0) in
  do* upstream := match upstream_status with
                  | Some upstream => Ok upstream
                  | None => builtin_fail BuiltinRequiresUpstream (stage_span stage)
                  end in
  if negb (Status_is_ok upstream) then λ s, (builtin_fail (UnsuccessfulStatus upstream) (stage_span stage), s)
  else λ s, completed s (ForwardInput input) 0%Z.

Definition standard_name (name : str) : option str :=
  if bool_decide (name ∈ bs <$> ["cd"; "pwd"; "which"; "exit"; "check"]%string) then Some name else None.

Definition run_builtin (command : str) (stage : PlannedStage) (input : Carrier) (upstream_status : option Status)
    (registry : CommandRegistry) : BuiltinM BuiltinOutcome :=
  if str_eqb command (bs "cd") then execute_cd stage
  else if str_eqb command (bs "pwd") then execute_pwd stage
  else if str_eqb command (bs "which") then execute_which stage registry
  else if str_eqb command (bs "exit") then execute_exit stage
  else if str_eqb command (bs "check") then execute_check stage input upstream_status
  else λ s, (Panic, s).

Definition execute_builtin (stage : PlannedStage) (input : Carrier) (upstream_status : option Status)
    (registry : CommandRegistry) : BuiltinM BuiltinOutcome :=
  match resolution stage with
  | PlannedExternal _ =>
    λ s, (builtin_fail (BuiltinUnsupported (bs "executing an external stage as a built-in")) (stage_span stage), s)
  | PlannedInternal _ canonical_name =>
    match lookup_command registry canonical_name with
    | Ok None =>
      λ s, (builtin_fail (BuiltinUnsupported (bs "an unregistered internal command")) (stage_span stage), s)
    | Ok (Some signature) =>
      match standard_name canonical_name with
      | None => λ s, (builtin_fail (BuiltinUnsupported (bs "a non-standard internal command")) (stage_span stage), s)
      | Some command =>
        if negb (accepts_carrier signature input)
        then λ s, (builtin_fail (BuiltinInputCarrier command input) (stage_span stage), s)
        else run_builtin command stage input upstream_status registry
      end
    | Err _ | Panic => λ s, (Panic, s)
    end
  end.
End Builtins.
