(* ===== verification/BuiltinFacts.v ===== *)
(** * Built-ins: what planning guarantees them, and what they do to a session

    The standard manifest is a valid registry; a planned stage of it never fails
    on its arguments; and every built-in keeps its contract with the session. *)
From S2P Require Import Prelude Decimal Source Order Path Status Value Utf8.
From S2P Require Import Lifetime Environment Command CommandFacts Carrier Resolve Plan PlanFacts Builtin.

Local Open Scope res_scope.

(** ** The standard registry *)

Definition standard : CommandRegistry :=
  match standard_registry with Ok r => r | _ => registry_new end.

Lemma unwrapped {E A} (r : res E A) (fallback : A) :
  is_ok r = true → r = Ok (match r with Ok a => a | Err _ | Panic => fallback end).
Proof. by destruct r. Qed.

Lemma expect_ok {E F A} (r : res E A) (a : A) : expect (F := F) r = Ok a → r = Ok a.
Proof. destruct r; simpl; congruence. Qed.

Lemma standard_registry_ok : standard_registry = Ok standard.
Proof. apply unwrapped. vm_compute. reflexivity. Qed.

#[local] Opaque standard.

Lemma standard_reachable : reachable standard.
Proof.
  apply (reach_manifest OPAAL_TOOLCHAIN_MAJOR standard_entries); [unfold OPAAL_TOOLCHAIN_MAJOR; lia|].
  apply (expect_ok (F := Empty_set)), standard_registry_ok.
Qed.

(** The names planning reports faults under are those of the manifest. *)
Lemma standard_names_registered :
  forallb (λ name, bool_decide (name ∈ standard_names)) (core_names standard) &&
  forallb (λ name, bool_decide (name ∈ core_names standard)) standard_names && (length (core_names standard) =? length standard_names) = true.
Proof. vm_compute. reflexivity. Qed.

(** The five commands that run without a process, with their schemas and carriers. *)
Definition builtin_schema (name : str) : option (nat * option nat) :=
  if str_eqb name (bs "cd") then Some (0, Some 1)
  else if str_eqb name (bs "pwd") then Some (0, Some 0)
  else if str_eqb name (bs "which") then Some (1, None)
  else if str_eqb name (bs "exit") then Some (0, Some 1)
  else if str_eqb name (bs "check") then Some (0, Some 0)
  else None.

Lemma standard_name_cases name command :
  standard_name name = Some command →
  command = name ∧ (name = bs "cd" ∨ name = bs "pwd" ∨ name = bs "which" ∨ name = bs "exit" ∨ name = bs "check").
Proof.
  unfold standard_name. case_bool_decide as Hin; [|done]. intros [= <-]. split; [done|].
  cbn [fmap list_fmap] in Hin. rewrite !elem_of_cons in Hin. by destruct Hin as [|[|[|[|[|?%not_elem_of_nil]]]]]; auto 10.
Qed.

Lemma standard_lookup name command :
  standard_name name = Some command →
  ∃ signature minimum maximum, lookup_command standard name = Ok (Some signature) ∧
    builtin_schema name = Some (minimum, maximum) ∧ arguments signature = positional minimum maximum.
Proof.
  intros [_ Hcases]%standard_name_cases.
  assert (∀ n, match lookup_command standard n, builtin_schema n with
    | Ok (Some signature), Some (minimum, maximum) => arguments signature = positional minimum maximum
    | _, _ => False end → ∃ signature minimum maximum, lookup_command standard n = Ok (Some signature) ∧
    builtin_schema n = Some (minimum, maximum) ∧ arguments signature = positional minimum maximum) as Hfind.
  { intros n H. destruct (lookup_command standard n) as [[signature|]| |]; try done.
    destruct (builtin_schema n) as [[minimum maximum]|]; [|done]. by exists signature, minimum, maximum. }
  destruct Hcases as [-> |[-> |[-> |[-> | ->]]]]; apply Hfind; vm_compute; reflexivity.
Qed.

Lemma looked_up {E} (r : res E (option CommandSignature)) (s t : CommandSignature) : r = Ok (Some s) → r = Ok (Some t) → s = t.
Proof. intros -> [= ->]. done. Qed.

(** ** What planning leaves of the arguments *)

Section Facts.
Context {EvalError HelpEntry WorkingDirectoryError : Type}.
Notation PlannedArgument := (@PlannedArgument EvalError).
Notation PlannedStage := (@PlannedStage EvalError HelpEntry).
Notation BuiltinOutput := (@BuiltinOutput EvalError).
Notation BuiltinOutcome := (@BuiltinOutcome EvalError).
Notation BuiltinError := (@BuiltinError WorkingDirectoryError).

Definition is_word (a : PlannedArgument) : Prop := as_word a ≠ None.

Lemma argument_known (a : PlannedArgument) : known_input (argument_input a).
Proof. by destruct a. Qed.

Lemma positional_word least most n a :
  positional_kind (positional least most) n = KindAny ∨ positional_kind (positional least most) n = input_kind (argument_input a) →
  is_word a.
Proof. unfold positional_kind. cbn. rewrite lookup_nil. cbn. by destruct a as [w|v sp]; intros [|]. Qed.

Lemma conforms_inactive least most started n names (given : list PlannedArgument) m :
  conforms (positional least most) false started n names (argument_input <$> given) m →
  m = n + length given ∧ Forall is_word given.
Proof.
  revert started n. induction given as [|a given IH]; intros started n Hc; cbn [fmap list_fmap] in Hc.
  - inversion Hc; subst. by rewrite Nat.add_0_r.
  - apply conforms_positional_inv in Hc as [Hk Hc]; [|done|apply argument_known].
    apply IH in Hc as [-> Hw]. split; [simpl; lia|]. constructor; [by eapply positional_word|done].
Qed.

Lemma conforms_active least most started n names (given : list PlannedArgument) m :
  conforms (positional least most) true started n names (argument_input <$> given) m →
  m = n + length (remove_option_terminator given) ∧ Forall is_word (remove_option_terminator given).
Proof.
  revert started n. induction given as [|a given IH]; intros started n Hc; cbn [fmap list_fmap remove_option_terminator] in *.
  - inversion Hc; subst. by rewrite Nat.add_0_r.
  - destruct (is_terminator a) eqn:Ht.
    + destruct a as [w|v sp]; [|done]. cbn [argument_input] in Hc. apply is_dashes_spec in Ht as Heq. rewrite Heq in Hc.
      apply conforms_dashes_inv in Hc; [|done]. by apply conforms_inactive in Hc.
    + assert (¬ option_like (positional least most) (argument_input a) →
        m = n + length (a :: remove_option_terminator given) ∧ Forall is_word (a :: remove_option_terminator given)) as Hpos.
      { intros Ho. apply conforms_positional_inv in Hc as [Hk Hc]; [|done|apply argument_known].
        apply IH in Hc as [-> Hw]. split; [simpl; lia|]. constructor; [by eapply positional_word|done]. }
      destruct a as [w|v sp]; [|apply Hpos; intros []]. cbn [argument_input option_like] in *.
      destruct (decide (dashes `prefix_of` word_value w)) as [Hp|Hp]; [|apply Hpos; by intros []].
      apply conforms_option_inv in Hc as (o & Ho & _); [done|done|]. intros Heq. apply is_dashes_spec in Heq. cbn in Ht. congruence.
Qed.

Lemma planned_words least most (given : list PlannedArgument) :
  validate (positional least most) (argument_input <$> given) = Ok [] →
  Forall is_word (remove_option_terminator given) ∧ least ≤ length (remove_option_terminator given) ∧
  ∀ k, most = Some k → length (remove_option_terminator given) ≤ k.
Proof.
  intros Hv. apply validate_conforms in Hv as (m & Hc & Hmin & Hmax); [|by apply Forall_fmap, list.Forall_forall; intros; apply argument_known].
  by apply conforms_active in Hc as [-> Hw].
Qed.

(** A stage of the standard registry as planning leaves it. *)
Definition planned_builtin (s : PlannedStage) (command : str) : Prop :=
  (∃ source, resolution s = PlannedInternal source command) ∧
  ∃ signature, lookup_command standard command = Ok (Some signature) ∧ input_carriers s = inputs signature ∧
    internal_arguments signature (stage_arguments s).

Lemma planned_arity (s : PlannedStage) name command :
  standard_name name = Some command → planned_builtin s name →
  ∃ least most, builtin_schema name = Some (least, most) ∧ Forall is_word (stage_arguments s) ∧
    least ≤ length (stage_arguments s) ∧ ∀ k, most = Some k → length (stage_arguments s) ≤ k.
Proof.
  intros Hn (_ & signature & Hl & _ & given & Hv & Hargs).
  destruct (standard_lookup name command Hn) as (signature' & least & most & Hl' & Hschema & Harg).
  pose proof (looked_up _ _ _ Hl' Hl) as Heq. clear Hl Hl'. subst signature'.
  rewrite Harg in Hv, Hargs. cbn [terminator positional] in Hargs. rewrite Hargs.
  destruct (planned_words least most given Hv). by exists least, most.
Qed.

Lemma expect_arity_ok (s : PlannedStage) command least most :
  least ≤ length (stage_arguments s) → (∀ k, most = Some k → length (stage_arguments s) ≤ k) →
  expect_arity (WorkingDirectoryError := WorkingDirectoryError) s command least most = Ok tt.
Proof.
  intros Hl Hm. unfold expect_arity. destruct (Nat.ltb_spec (length (stage_arguments s)) least); [lia|].
  destruct most as [k|]; [|done]. specialize (Hm k eq_refl). destruct (Nat.ltb_spec k (length (stage_arguments s))); [lia|done].
Qed.

Lemma word_argument_ok command (a : PlannedArgument) :
  is_word a → ∃ word, word_argument (WorkingDirectoryError := WorkingDirectoryError) command a = Ok word ∧ as_word a = Some word.
Proof. unfold is_word, word_argument. destruct (as_word a) as [word|]; [by exists word|done]. Qed.

(** ** What a built-in does *)

Context (resolve_working_directory : str → str → str + WorkingDirectoryError) (is_executable : str → bool).

Lemma completed_ok (s : SessionState) (out : BuiltinOutput) exit_code :
  completed (WorkingDirectoryError := WorkingDirectoryError) (EvalError := EvalError) s out exit_code =
    (Ok (BuiltinCompleted (mkCompletion out (mkStatus (Some exit_code) None [] 0%Z))),
     set_current_status s (Some (mkStatus (Some exit_code) None [] 0%Z))).
Proof. done. Qed.

Definition search_error (e : BuiltinError) : Prop := ∃ kind limit, builtin_error e = BuiltinSearchLimit kind limit.

Lemma which_name_answers stage s registry name :
  reachable registry →
  match which_name (EvalError := EvalError) (HelpEntry := HelpEntry) (WorkingDirectoryError := WorkingDirectoryError)
    is_executable stage s registry name with Ok _ => True | Err e => search_error e | Panic => False end.
Proof.
  intros Hr. unfold which_name, which_classification, search_error.
  pose proof (resolve_external_answers is_executable name (cwd s) (session_environment s)) as Hx.
  assert (∀ n, ∃ c, classify_command registry n = Ok c) as Hc.
  { intros n. pose proof (registry_classified registry n Hr) as Hn. destruct (classify_command registry n); [by eexists|done..]. }
  destruct (to_str name) as [n|]; simpl.
  - destruct (Hc n) as [[| | |] ->]; simpl; try done. destruct (resolve_external _ _ _ _) as [|[]|]; simpl; eauto.
  - destruct (resolve_external _ _ _ _) as [|[]|]; simpl; eauto.
Qed.

Lemma which_record name kind target path :
  ∃ record, Record_new (RuntimeError := EvalError) [(bs "name", VPath name); (bs "kind", VString kind); (bs "target", target); (bs "path", path)] = Ok record.
Proof. by eexists. Qed.

Lemma which_loop_answers stage s registry args missing out :
  reachable registry →
  match which_loop (EvalError := EvalError) (HelpEntry := HelpEntry) (WorkingDirectoryError := WorkingDirectoryError)
    is_executable stage s registry args missing out with
  | Ok (_, out') => length out' = length out + length args
  | Err e => search_error e ∨ (∃ message, builtin_error e = WrongArgument (bs "which") message) ∧ ¬ Forall is_word args
  | Panic => False
  end.
Proof.
  intros Hr. revert missing out. induction args as [|a args IH]; intros missing out; cbn [which_loop]; [simpl; lia|].
  unfold word_argument. destruct (as_word a) as [word|] eqn:Ha; cbn [res_bind].
  2: { right. split; [by eexists|]. rewrite Forall_cons. unfold is_word. intros [Hw _]. done. }
  pose proof (which_name_answers stage s registry (word_value word) Hr) as Hn.
  destruct (which_name _ _ _ _ _) as [[[[kind target] path] absent]|e|]; cbn [res_bind]; [|by left|done].
  destruct (which_record (word_value word) kind target path) as [record ->]. cbn [expect res_bind].
  specialize (IH (missing || absent) (out ++ [VRecord record])). destruct (which_loop _ _ _ _ _ _) as [[missing' out']|e|]; [| |done].
  - rewrite length_app in IH. simpl in IH |- *. lia.
  - rewrite Forall_cons. destruct IH as [|[? ?]]; [by left|right]. tauto.
Qed.

(** The environment after [cd]. *)
Definition cd_environment (s s' : SessionState) : Prop :=
  environment_get (session_environment s') (bs "PWD") = Some (cwd s') ∧
  environment_get (session_environment s') (bs "OLDPWD") = Some (cwd s) ∧
  ∀ name, name ≠ bs "PWD" → name ≠ bs "OLDPWD" →
    environment_get (session_environment s') name = environment_get (session_environment s) name.

(** What a completed command leaves, by its name. *)
Definition completion_of (name : str) (stage : PlannedStage) (input : Carrier) (upstream : option Status) (s s' : SessionState)
    (out : BuiltinOutput) (exit_code : Z) : Prop :=
  if str_eqb name (bs "cd") then
    out = BuiltinEmpty ∧ exit_code = 0%Z ∧ cd_environment s s' ∧
    ∃ target, resolve_working_directory target (cwd s) = inl (cwd s')
  else
    cwd s' = cwd s ∧ session_environment s' = session_environment s ∧
    if str_eqb name (bs "pwd") then out = BuiltinValue (VPath (cwd s)) ∧ exit_code = 0%Z
    else if str_eqb name (bs "which") then
      ∃ values, out = BuiltinValueStream values ∧ length values = length (stage_arguments stage) ∧ (exit_code = 0 ∨ exit_code = 1)%Z
    else
      name = bs "check" ∧ out = ForwardInput input ∧ exit_code = 0%Z ∧ ∃ status, upstream = Some status ∧ code status = Some 0%Z.

(** What a run of a command by its name may give. *)
Definition contract (name : str) (stage : PlannedStage) (input : Carrier) (upstream : option Status) (s : SessionState)
    (r : res BuiltinError BuiltinOutcome * SessionState) : Prop :=
  match r with
  | (Ok (BuiltinCompleted c), s') =>
    ∃ exit_code, completion_status c = mkStatus (Some exit_code) None [] 0%Z ∧ current_status s' = Some (completion_status c) ∧
      completion_of name stage input upstream s s' (completion_output c) exit_code
  | (Ok (BuiltinExit exit_code), s') => s' = s ∧ name = bs "exit" ∧ (0 ≤ exit_code ≤ 255)%Z
  | (Err (mkBuiltinError (UnsuccessfulStatus status) _), s') => s' = s ∧ name = bs "check" ∧ upstream = Some status ∧ Status_is_ok status = false
  | (Err _, s') => s' = s
  | (Panic, _) => False
  end.

Lemma arity_contract name stage input upstream s command least most (k : unit → _) :
  contract name stage input upstream s (k tt s) →
  contract name stage input upstream s (after (expect_arity (WorkingDirectoryError := WorkingDirectoryError) stage command least most) k s).
Proof. intros Hk. unfold after, expect_arity. by destruct (_ || _). Qed.

Lemma cd_contract stage input upstream s :
  contract (bs "cd") stage input upstream s (execute_cd resolve_working_directory stage s).
Proof.
  apply arity_contract. unfold after. assert (cd_target (WorkingDirectoryError := WorkingDirectoryError) stage s ≠ Panic ∧
    ∀ status span, cd_target (WorkingDirectoryError := WorkingDirectoryError) stage s ≠ Err (mkBuiltinError (UnsuccessfulStatus status) span)) as [Hp Hu].
  { unfold cd_target, word_argument. destruct (stage_arguments stage) as [|a args]; [by destruct (environment_get _ _)|by destruct (as_word a)]. }
  destruct (cd_target stage s) as [[target span]|[[] ?]|]; try done; [|by destruct (Hu status builtin_error_span)].
  destruct (resolve_working_directory target (cwd s)) as [resolved|e] eqn:Hd; [|done]. rewrite completed_ok.
  exists 0%Z. split_and!; [done..|]. unfold completion_of. cbn. split_and!; [done|done| |by exists target].
  unfold cd_environment, environment_get, environment_set. cbn. split_and!.
  - by rewrite map_get_insert.
  - by rewrite !map_get_insert.
  - intros name H1 H2. rewrite !map_get_insert.
    unfold str_eqb. by rewrite (bool_decide_false (_ = name) (λ H, H1 (eq_sym H))), (bool_decide_false (_ = name) (λ H, H2 (eq_sym H))).
Qed.

Lemma pwd_contract stage input upstream s : contract (bs "pwd") stage input upstream s (execute_pwd stage s).
Proof. apply arity_contract. rewrite completed_ok. by exists 0%Z. Qed.

Lemma which_contract stage input upstream registry s :
  reachable registry → contract (bs "which") stage input upstream s (execute_which is_executable stage registry s).
Proof.
  intros Hr. apply arity_contract. unfold after.
  pose proof (which_loop_answers stage s registry (stage_arguments stage) false [] Hr) as Hl.
  destruct (which_loop _ _ _ _ _ _ _) as [[missing out]|e|] eqn:Hw; [| |done].
  - rewrite completed_ok. exists (if missing then 1 else 0)%Z. split_and!; [done..|]. unfold completion_of. cbn. split_and!; [done..|].
    exists out. split_and!; [done..|]. destruct missing; auto.
  - destruct e as [[] ?]; try done. destruct Hl as [(? & ? & [=])|[(? & [=]) _]].
Qed.

Lemma exit_contract stage input upstream s : contract (bs "exit") stage input upstream s (execute_exit stage s).
Proof.
  apply arity_contract. unfold after.
  assert (match exit_code_argument (WorkingDirectoryError := WorkingDirectoryError) stage s with
    | Ok exit_code => (0 ≤ exit_code ≤ 255)%Z
    | Err e => ∀ status, builtin_error e ≠ UnsuccessfulStatus status
    | Panic => False end) as He.
  { unfold exit_code_argument, word_argument. destruct (stage_arguments stage) as [|a args].
    - unfold default_exit_code. destruct (current_status s) as [status|]; [|lia]. destruct (code status) as [c|]; [|lia].
      destruct ((0 <=? c) && (c <=? 255))%Z eqn:Hc; lia.
    - destruct (as_word a) as [word|]; cbn [res_bind]; [|done]. unfold parse_exit_code.
      destruct (_ || _); [done|]. destruct (to_str _) as [value|]; [|done].
      destruct (parse_unsigned 255 value) eqn:Hp; [|done]. by apply parse_unsigned_bounds in Hp. }
  destruct (exit_code_argument stage s) as [exit_code|[[] ?]|]; try done. by destruct (He status).
Qed.

Lemma check_contract stage input upstream s :
  contract (bs "check") stage input upstream s (execute_check stage input upstream s).
Proof.
  apply arity_contract. unfold after. destruct upstream as [status|]; [|done].
  destruct (Status_is_ok status) eqn:Hok; cbn [negb]; [|done]. rewrite completed_ok. exists 0%Z. split_and!; [done..|].
  unfold completion_of. change (str_eqb (bs "check") (bs "cd")) with false. change (str_eqb (bs "check") (bs "pwd")) with false.
  change (str_eqb (bs "check") (bs "which")) with false. split_and!; [done..|]. exists status. split; [done|]. by apply (bool_decide_unpack _), Is_true_true.
Qed.

Lemma run_contract name command stage input upstream registry s :
  reachable registry → standard_name name = Some command →
  contract name stage input upstream s
    (run_builtin resolve_working_directory is_executable command stage input upstream registry s).
Proof.
  intros Hr [-> Hcases]%standard_name_cases. unfold run_builtin.
  destruct Hcases as [-> |[-> |[-> |[-> | ->]]]];
    [apply cd_contract|apply pwd_contract|by apply which_contract|apply exit_contract|apply check_contract].
Qed.

(** C22: Built-ins keep their contract with the session.  On a registry the program
    can build a built-in never panics; a failure or an exit leaves the session as it
    is, an exit code fits a byte, and [check] fails on a status exactly when that of
    the upstream stage is not a success; a completion stores its status as the
    current one, and only [cd] changes anything else: the working directory becomes
    what the platform resolved, [PWD] names it and [OLDPWD] the one before. *)
Theorem execute_builtin_contract (stage : PlannedStage) (input : Carrier) (upstream : option Status)
    (registry : CommandRegistry) (s : SessionState) :
  reachable registry →
  match resolution stage with
  | PlannedInternal _ name =>
    contract name stage input upstream s
      (execute_builtin resolve_working_directory is_executable stage input upstream registry s)
  | PlannedExternal _ =>
    ∃ e, execute_builtin resolve_working_directory is_executable stage input upstream registry s = (Err e, s)
  end.
Proof.
  intros Hr. unfold execute_builtin. destruct (resolution stage) as [source name|path]; [|by eexists].
  pose proof (registry_classified registry name Hr) as Hc.
  assert (∃ found, lookup_command registry name = Ok found) as [[signature|] ->]; [| |done].
  { destruct (classify_command registry name) as [[| | |]|e|]; try done; destruct_and?; eauto. }
  destruct (standard_name name) as [command|] eqn:Hn; [|done].
  destruct (negb (accepts_carrier signature input)); [done|]. by apply run_contract.
Qed.

(** An error of a built-in that is not about its arguments. *)
Definition argument_free (e : BuiltinError) : Prop :=
  match builtin_error e with
  | WrongArity _ _ _ _ | WrongArgument _ _ | BuiltinUnsupported _ => False
  | _ => True
  end.

Definition errors_free (r : res BuiltinError BuiltinOutcome * SessionState) : Prop :=
  match r.1 with Err e => argument_free e | _ => True end.

Lemma cd_free (stage : PlannedStage) s :
  Forall is_word (stage_arguments stage) → length (stage_arguments stage) ≤ 1 →
  errors_free (execute_cd (WorkingDirectoryError := WorkingDirectoryError) resolve_working_directory stage s).
Proof.
  intros Hw Hl. unfold execute_cd, after. rewrite expect_arity_ok; [|lia|by intros k [= <-]].
  unfold cd_target, word_argument. destruct Hw as [|a args Ha Hw].
  - destruct (environment_get _ _); [|done]. by destruct (resolve_working_directory _ _).
  - unfold is_word in Ha. destruct (as_word a); [|done]. cbn [res_bind]. by destruct (resolve_working_directory _ _).
Qed.

Lemma which_free (stage : PlannedStage) registry s :
  reachable registry → Forall is_word (stage_arguments stage) → 1 ≤ length (stage_arguments stage) →
  errors_free (execute_which (WorkingDirectoryError := WorkingDirectoryError) is_executable stage registry s).
Proof.
  intros Hr Hw Hl. unfold execute_which, after. rewrite expect_arity_ok; [|done|by intros k [=]].
  pose proof (which_loop_answers stage s registry (stage_arguments stage) false [] Hr) as Hloop.
  destruct (which_loop _ _ _ _ _ _ _) as [[missing out]|e|]; [by rewrite completed_ok| |done].
  unfold errors_free, argument_free. cbn. by destruct Hloop as [(kind & limit & ->)|[_ ?]].
Qed.

Lemma exit_free (stage : PlannedStage) s :
  Forall is_word (stage_arguments stage) → length (stage_arguments stage) ≤ 1 →
  errors_free (execute_exit (WorkingDirectoryError := WorkingDirectoryError) stage s).
Proof.
  intros Hw Hl. unfold execute_exit, after. rewrite expect_arity_ok; [|lia|by intros k [= <-]].
  unfold exit_code_argument, word_argument. destruct Hw as [|a args Ha Hw]; [done|].
  unfold is_word in Ha. destruct (as_word a); [|done]. cbn [res_bind]. by destruct (parse_exit_code _).
Qed.

(** A stage of a plan is one. *)
Lemma stage_planned_builtin (c : StagePlanningContext) (s : PlannedStage) source name :
  context_registry c = standard → stage_planned c s → resolution s = PlannedInternal source name → stage_help s = None →
  planned_builtin s name.
Proof.
  intros Hc (head & _ & Hs) Hr Hh. rewrite Hr, Hh, Hc in Hs. destruct Hs as (signature & Hl & _ & Hin & _ & _ & _ & _ & Ha).
  split; [by exists source|]. exists signature. split; [exact Hl|split; [exact Hin|exact Ha]].
Qed.

(** C21: What planning admits, a standard built-in can run.  On the standard
    registry, a stage of a plan that names [cd], [pwd], [which], [exit] or [check]
    never fails in its executor over the number of its arguments or their kind,
    words or values, nor as unsupported or unregistered: the schemas of the
    manifest and the executors agree.  What a word says may still be refused, as
    an exit code that is no number. *)
Theorem planned_builtin_runs (c : StagePlanningContext) (stage : PlannedStage) (source name command : str)
    (input : Carrier) (upstream : option Status) (s : SessionState) :
  context_registry c = standard → stage_planned c stage →
  resolution stage = PlannedInternal source name → stage_help stage = None → standard_name name = Some command →
  errors_free (execute_builtin resolve_working_directory is_executable stage input upstream standard s).
Proof.
  intros Hc Hs Hres Hh Hn. pose proof (stage_planned_builtin c stage source name Hc Hs Hres Hh) as Hp. clear c Hc Hs Hh.
  destruct (planned_arity stage name command Hn Hp) as (least & most & Hschema & Hw & Hmin & Hmax).
  destruct Hp as [_ (signature & Hl & _)]. unfold execute_builtin. rewrite Hres, Hl, Hn. clear Hl.
  destruct (negb (accepts_carrier signature input)); [done|]. clear signature Hres.
  pose proof standard_reachable as Hr. revert Hr. generalize standard. intros registry Hr.
  apply standard_name_cases in Hn as [-> Hcases]. unfold run_builtin.
  destruct Hcases as [-> |[-> |[-> |[-> | ->]]]]; cbn in Hschema; injection Hschema as <- <-.
  - apply cd_free; [done|]. by apply Hmax.
  - unfold execute_pwd, after. rewrite expect_arity_ok by done. done.
  - by apply which_free.
  - apply exit_free; [done|]. by apply Hmax.
  - unfold execute_check, after. rewrite expect_arity_ok by done. destruct upstream as [status|]; [|done].
    by destruct (Status_is_ok status).
Qed.
End Facts.

(** ** At a concrete input *)

Definition sample_word (text : str) : ExpandedWord := mkExpanded text (mkSpan 0%Z 0 0) [].

Definition cd_stage : PlannedStage (EvalError := Empty_set) (HelpEntry := Empty_set) :=
  mkStage (PlannedInternal (bs "cd") (bs "cd")) [CarrierEmpty] CarrierEmpty [sample_word (bs "cd"); sample_word (bs "src")]
    [PlannedWord (sample_word (bs "src"))] [] None (mkSpan 0%Z 0 0).

Definition sample_session : SessionState := session_new (bs "/w") [(bs "HOME", bs "/h")].

(** A platform that joins, and one where nothing is executable. *)
Definition joins (target from : str) : str + Empty_set := inl (push from target).

Lemma execute_builtin_contract_witness :
  contract joins (bs "cd") cd_stage CarrierEmpty None sample_session
    (execute_builtin joins (λ _, false) cd_stage CarrierEmpty None standard sample_session) ∧
  cwd (execute_builtin joins (λ _, false) cd_stage CarrierEmpty None standard sample_session).2 = bs "/w/src".
Proof.
  split; [|vm_compute; reflexivity].
  exact (execute_builtin_contract joins (λ _, false) cd_stage CarrierEmpty None standard sample_session standard_reachable).
Defined.

Definition sample_context : StagePlanningContext :=
  mkContext (SourceFile_new 0%Z [] []) (bs "/w") [] standard (λ _, false) CarrierEmpty false.

Lemma sample_stage_planned : stage_planned sample_context cd_stage.
Proof.
  exists (sample_word (bs "cd")). split; [reflexivity|]. cbn [cd_stage resolution stage_help].
  assert (match lookup_command standard (bs "cd") with
    | Ok (Some signature) => signature_name signature = bs "cd" ∧ inputs signature = [CarrierEmpty] ∧
        output signature = OutputFixed CarrierEmpty ∧ arguments signature = positional 0 (Some 1)
    | _ => False end) as Hsig by (vm_compute; repeat split).
  destruct (lookup_command standard (bs "cd")) as [[signature|]| |] eqn:Hl; [|destruct Hsig..].
  destruct Hsig as (Hn & Hi & Ho & Ha). exists signature. cbn [context_registry sample_context].
  split; [exact Hl|]. split; [exact Hn|]. split; [symmetry; exact Hi|]. rewrite Ho. split; [reflexivity|].
  split; [reflexivity|]. split; [exact Hl|]. split; [intros Hcd; discriminate Hcd|].
  exists [PlannedWord (sample_word (bs "src"))]. rewrite Ha. split; vm_compute; reflexivity.
Qed.

Lemma planned_builtin_runs_witness :
  errors_free (execute_builtin joins (λ _, false) cd_stage CarrierEmpty None standard sample_session).
Proof.
  exact (planned_builtin_runs joins (λ _, false) sample_context cd_stage (bs "cd") (bs "cd") (bs "cd") CarrierEmpty None
    sample_session eq_refl sample_stage_planned eq_refl eq_refl eq_refl).
Defined.
