(* ===== verification/WorkflowText.v ===== *)
(** * The texts of persisted artifacts ([opaal-runtime/src/workflow.rs])

    Errors of artifacts, timestamps with their civil dates, native paths in
    base64url, and the spellings of digests and run ids. *)
From S2P Require Import Prelude Decimal Operation.

Local Open Scope res_scope.
Local Open Scope Z_scope.

(** ** Errors *)

Record WorkflowArtifactError := mkArtifactError { artifact_code : str; artifact_message : str }.

Definition artifact_error (code message : String.string) : WorkflowArtifactError :=
  mkArtifactError (bs code) (bs message).

(** The most common of them, with code [ARTIFACT007]. *)
Definition invalid_artifact {A} (message : String.string) : res WorkflowArtifactError A :=
  Err (artifact_error "ARTIFACT007" message).
Definition journal_limit : WorkflowArtifactError :=
  artifact_error "JOURNAL001" "journal exceeds its line or byte limit".
Definition journal_corrupt (message : String.string) : WorkflowArtifactError := artifact_error "JOURNAL003" message.

(** [ok_or_else]. *)
Definition ok_or {E A} (o : option A) (e : E) : res E A := match o with Some a => Ok a | None => Err e end.

Definition out_of_range {A} : res WorkflowArtifactError A := invalid_artifact "timestamp exceeds the supported range".

(** ** Civil dates

    The divisions of the code truncate towards zero. *)
Definition civil_date (days_since_epoch : Z) : res WorkflowArtifactError (Z * Z * Z) :=
  let* z := ok_or (checked_add days_since_epoch 719468)
              (artifact_error "ARTIFACT007" "timestamp exceeds the supported range") in
  let era := (if 0 <=? z then z else z - 146096) ÷ 146097 in
  let day_of_era := z - era * 146097 in
  let year_of_era := (day_of_era - day_of_era ÷ 1460 + day_of_era ÷ 36524 - day_of_era ÷ 146096) ÷ 365 in
  let year := year_of_era + era * 400 in
  let day_of_year := day_of_era - (365 * year_of_era + year_of_era ÷ 4 - year_of_era ÷ 100) in
  let month_piece := (5 * day_of_year + 2) ÷ 153 in
  let day := day_of_year - (153 * month_piece + 2) ÷ 5 + 1 in
  let month := month_piece + (if month_piece <? 10 then 3 else -9) in
  let year := year + (if month <=? 2 then 1 else 0) in
  if (0 <=? year) && (year <=? 9999) then Ok (year, month, day)
  else invalid_artifact "timestamp exceeds four-digit UTC years".

Definition days_from_civil (year month day : Z) : res WorkflowArtifactError Z :=
  let adjusted_year := year - (if month <=? 2 then 1 else 0) in
  let era := (if 0 <=? adjusted_year then adjusted_year else adjusted_year - 399) ÷ 400 in
  let year_of_era := adjusted_year - era * 400 in
  let adjusted_month := month + (if 2 <? month then -3 else 9) in
  let day_of_year := (153 * adjusted_month + 2) ÷ 5 + day - 1 in
  let day_of_era := year_of_era * 365 + year_of_era ÷ 4 - year_of_era ÷ 100 + day_of_year in
  ok_or (value ← checked_mul era 146097; value ← checked_add value day_of_era; checked_sub value 719468)
    (artifact_error "ARTIFACT007" "timestamp exceeds the supported range").

(** ** Timestamps *)

Definition NANOS : Z := 1000000000.

Definition render_timestamp (year month day hour minute second fraction : Z) : str :=
  pad_zero 4 year ++ bs "-" ++ pad_zero 2 month ++ bs "-" ++ pad_zero 2 day ++ bs "T" ++
  pad_zero 2 hour ++ bs ":" ++ pad_zero 2 minute ++ bs ":" ++ pad_zero 2 second ++ bs "." ++
  pad_zero 9 fraction ++ bs "Z".

Definition timestamp_from_unix_nanos (nanos : Z) : res WorkflowArtifactError str :=
  if nanos <? 0 then invalid_artifact "timestamp precedes the Unix epoch"
  else
    let seconds := nanos / NANOS in
    let fraction := nanos mod NANOS in
    if I64_MAX <? seconds / 86400 then out_of_range
    else
      let day_seconds := seconds mod 86400 in
      let* '(year, month, day) := civil_date (seconds / 86400) in
      Ok (render_timestamp year month day
            (day_seconds / 3600) ((day_seconds mod 3600) / 60) (day_seconds mod 60) fraction).

Record TimestampComponents := mkComponents {
  year : Z; month : Z; day : Z; hour : Z; minute : Z; second : Z; fraction : Z
}.

Definition punctuation : list (nat * u8) :=
  [(4%nat, 45); (7%nat, 45); (10%nat, 84); (13%nat, 58); (16%nat, 58); (19%nat, 46); (29%nat, 90)].
Definition is_punctuation (index : nat) : bool := existsb (λ p, Nat.eqb p.1 index) punctuation.

Definition byte_at (bytes : str) (index : nat) : u8 := default 0 (bytes !! index).

Definition U32_MAX : Z := 2 ^ 32 - 1.
Definition number (bytes : str) (start stop : nat) : option Z := parse_unsigned U32_MAX (sub bytes start stop).

Definition month_days (year month : Z) : Z :=
  if existsb (Z.eqb month) [1; 3; 5; 7; 8; 10; 12] then 31
  else if existsb (Z.eqb month) [4; 6; 9; 11] then 30
  else if (month =? 2) && ((year mod 400 =? 0) || (year mod 4 =? 0) && negb (year mod 100 =? 0)) then 29
  else if month =? 2 then 28
  else 0.

Definition timestamp_components (value : str) : res WorkflowArtifactError TimestampComponents :=
  if negb (length value =? 30)%nat
     || existsb (λ p, negb (byte_at value p.1 =? p.2)) punctuation
     || existsb (λ p, negb (is_punctuation p.1) && negb (is_digit p.2)) (imap pair value)
  then invalid_artifact "timestamp must be RFC 3339 UTC with exactly nanosecond precision"
  else
    match number value 0 4, number value 5 7, number value 8 10, number value 11 13,
          number value 14 16, number value 17 19, number value 20 29 with
    | Some year, Some month, Some day, Some hour, Some minute, Some second, Some fraction =>
      if (day =? 0) || (month_days year month <? day) || (23 <? hour) || (59 <? minute) || (59 <? second)
      then invalid_artifact "timestamp components are out of range"
      else Ok (mkComponents year month day hour minute second fraction)
    | _, _, _, _, _, _, _ => invalid_artifact "timestamp contains an invalid number"
    end.

Definition validate_timestamp (value : str) : res WorkflowArtifactError unit :=
  let* _ := timestamp_components value in Ok tt.

(** [i128] arithmetic. *)
Definition i128 (z : Z) : option Z := if (- 2 ^ 127 <=? z) && (z <? 2 ^ 127) then Some z else None.

Definition unix_nanos_from_timestamp (value : str) : res WorkflowArtifactError Z :=
  let* c := timestamp_components value in
  let* days := days_from_civil (year c) (month c) (day c) in
  let range_error := artifact_error "ARTIFACT007" "timestamp exceeds the supported range" in
  let* seconds :=
    ok_or (value ← i128 (days * 86400); value ← i128 (value + hour c * 3600);
           value ← i128 (value + minute c * 60); i128 (value + second c)) range_error in
  ok_or (value ← i128 (seconds * NANOS); i128 (value + fraction c)) range_error.

(** ** base64url without padding *)

(** [slice::chunks]. *)
Fixpoint slice_chunks_fuel {A} (fuel size : nat) (l : list A) : list (list A) :=
  match fuel, l with
  | S fuel, _ :: _ => take size l :: slice_chunks_fuel fuel size (drop size l)
  | _, _ => []
  end.
Definition slice_chunks {A} (size : nat) (l : list A) : list (list A) := slice_chunks_fuel (length l) size l.

Definition ALPHABET : str := bs "ABCDEFGHIJKLMNOPQRSTUVWXYZabcdefghijklmnopqrstuvwxyz0123456789-_".
Definition alphabet_char (index : Z) : u8 := byte_at ALPHABET (Z.to_nat index).

Definition encode_triple (chunk : str) : str :=
  let first := byte_at chunk 0 in
  let unwrapped o := default 0 o in
  alphabet_char (Z.shiftr first 2)
  :: alphabet_char (Z.lor (Z.shiftl (Z.land first 3) 4) (Z.shiftr (unwrapped (chunk !! 1%nat)) 4))
  :: match chunk !! 1%nat with
     | None => []
     | Some second =>
       alphabet_char (Z.lor (Z.shiftl (Z.land second 15) 2) (Z.shiftr (unwrapped (chunk !! 2%nat)) 6))
       :: match chunk !! 2%nat with None => [] | Some third => [alphabet_char (Z.land third 63)] end
     end.

Definition encode_base64url (bytes : str) : str := mjoin (encode_triple <$> slice_chunks 3 bytes).

Definition base64url_digit (byte : u8) : option Z :=
  if (65 <=? byte) && (byte <=? 90) then Some (byte - 65)
  else if (97 <=? byte) && (byte <=? 122) then Some (byte - 97 + 26)
  else if (48 <=? byte) && (byte <=? 57) then Some (byte - 48 + 52)
  else if byte =? 45 then Some 62
  else if byte =? 95 then Some 63
  else None.

Definition is_base64url_nopad (value : str) : bool :=
  match mapM base64url_digit value with
  | None => false
  | Some digits =>
    match (length digits mod 4)%nat with
    | 0%nat => true
    | 2%nat => match last digits with Some digit => Z.land digit 15 =? 0 | None => false end
    | 3%nat => match last digits with Some digit => Z.land digit 3 =? 0 | None => false end
    | _ => false
    end
  end.

(** [u8] shifts drop the bits that leave the byte. *)
Definition shl8 (b n : Z) : Z := Z.land (Z.shiftl b n) 255.

Definition decode_group (chunk : str) : res WorkflowArtifactError str :=
  match mapM base64url_digit chunk with
  | None => Panic
  | Some digits =>
    let* d0 := expect_some (digits !! 0%nat) in
    let* d1 := expect_some (digits !! 1%nat) in
    Ok (Z.lor (shl8 d0 2) (Z.shiftr d1 4)
        :: match digits !! 2%nat with
           | None => []
           | Some d2 =>
             Z.lor (shl8 d1 4) (Z.shiftr d2 2)
             :: match digits !! 3%nat with None => [] | Some d3 => [Z.lor (shl8 d2 6) d3] end
           end)
  end.

Fixpoint decode_chunks (cs : list str) : res WorkflowArtifactError str :=
  match cs with
  | [] => Ok []
  | c :: cs => let* bytes := decode_group c in let* rest := decode_chunks cs in Ok (bytes ++ rest)
  end.

Definition decode_base64url (value : str) : res WorkflowArtifactError str :=
  if negb (is_base64url_nopad value) then invalid_artifact "native path uses invalid base64url bytes"
  else decode_chunks (slice_chunks 4 value).

(** ** Digests and run ids *)

(** [is_ascii_hexdigit] without the upper case. *)
Definition is_lower_hex (b : u8) : bool := is_digit b || ((97 <=? b) && (b <=? 102)).

Definition strip_prefix (prefix s : str) : option str :=
  if starts_with prefix s then Some (drop (length prefix) s) else None.

Definition is_digest (value : str) : bool :=
  match strip_prefix (bs "sha256:") value with
  | Some hex => (length hex =? 64)%nat && forallb is_lower_hex hex
  | None => false
  end.

Definition validate_digest (value : str) : res WorkflowArtifactError unit :=
  if is_digest value then Ok tt else invalid_artifact "digest must be sha256 plus 64 lowercase hexadecimal digits".

Definition validate_run_id (value : str) : res WorkflowArtifactError unit :=
  if (length value =? 32)%nat && forallb is_lower_hex value then Ok tt
  else Err (artifact_error "JOURNAL002" "run id must be 32 lowercase hexadecimal digits").

(** [allowed.contains]. *)
Definition one_of (value : str) (allowed : list String.string) (context : str) : res WorkflowArtifactError unit :=
  if existsb (λ a, str_eqb (bs a) value) allowed then Ok tt
  else Err (mkArtifactError (bs "ARTIFACT007") (bs "invalid " ++ context)).
