(* ===== verification/WorkflowTextFacts.v ===== *)
(** * Properties of the texts of persisted artifacts

    Timestamps and instants, civil dates and the calendar, native paths and
    base64url: each pair of functions is inverse on exactly the valid texts. *)
From S2P Require Import Prelude Decimal Operation.
From S2P Require Import WorkflowText.

Local Open Scope res_scope.
Local Open Scope Z_scope.

(** ** The calendar *)

Definition valid_date (date : Z * Z * Z) : bool :=
  let '(y, m, d) := date in (1 <=? m) && (m <=? 12) && (1 <=? d) && (d <=? month_days y m).

(** The day after a date of the Gregorian calendar. *)
Definition next_day (date : Z * Z * Z) : Z * Z * Z :=
  let '(y, m, d) := date in
  if d <? month_days y m then (y, m, d + 1)
  else if m <? 12 then (y, m + 1, 1)
  else (y + 1, 1, 1).

(** The functions without their checks, on days counted from 0000-03-01. *)
Definition date_of_day (z : Z) : Z * Z * Z :=
  let era := z / 146097 in
  let day_of_era := z - era * 146097 in
  let year_of_era := (day_of_era - day_of_era / 1460 + day_of_era / 36524 - day_of_era / 146096) / 365 in
  let day_of_year := day_of_era - (365 * year_of_era + year_of_era / 4 - year_of_era / 100) in
  let month_piece := (5 * day_of_year + 2) / 153 in
  let month := month_piece + (if month_piece <? 10 then 3 else -9) in
  (year_of_era + era * 400 + (if month <=? 2 then 1 else 0), month, day_of_year - (153 * month_piece + 2) / 5 + 1).

Definition day_of_date (date : Z * Z * Z) : Z :=
  let '(y, m, d) := date in
  let y' := y - (if m <=? 2 then 1 else 0) in
  let era := y' / 400 in
  let yoe := y' - era * 400 in
  era * 146097 + (yoe * 365 + yoe / 4 - yoe / 100 + ((153 * (m + (if 2 <? m then -3 else 9)) + 2) / 5 + d - 1)).

(** An era has 400 years that begin in March; [year_start] is the first day of one. *)
Definition year_start (y : Z) : Z := y * 365 + y / 4 - y / 100.
Definition scaled (doe : Z) : Z := doe - doe / 1460 + doe / 36524 - doe / 146096.
Definition year_length (y : Z) : Z :=
  365 + (if ((y + 1) mod 4 =? 0) && (negb ((y + 1) mod 100 =? 0) || (y =? 399)) then 1 else 0).

Definition check_year (y : Z) : bool :=
  (scaled (year_start y) / 365 =? y) && (scaled (year_start y + year_length y - 1) / 365 =? y)
  && (year_start y + year_length y =? if y =? 399 then 146097 else year_start (y + 1)).

Lemma years_checked : forallb (λ n, check_year (Z.of_nat n)) (seq 0 400) = true.
Proof. vm_compute. reflexivity. Qed.

Lemma year_checked y : 0 ≤ y < 400 → check_year y = true.
Proof.
  intros Hy. pose proof years_checked as H. rewrite forallb_forall in H.
  specialize (H (Z.to_nat y)). rewrite Z2Nat.id in H by lia. apply H. apply in_seq. lia.
Qed.

Lemma scaled_mono a b : 0 ≤ a → a ≤ b → b < 146097 → scaled a ≤ scaled b.
Proof.
  intros Ha Hab Hb. assert (∀ k, 0 ≤ k → k < 146096 → scaled k ≤ scaled (k + 1)) as Hstep.
  { intros k ? ?. unfold scaled. Z.to_euclidean_division_equations. lia. }
  assert (∀ n : nat, a + Z.of_nat n < 146097 → scaled a ≤ scaled (a + Z.of_nat n)) as Hn.
  { induction n as [|n IH]; intros Hn; [rewrite Z.add_0_r; lia|].
    specialize (IH ltac:(lia)). specialize (Hstep (a + Z.of_nat n) ltac:(lia) ltac:(lia)).
    replace (a + Z.of_nat (S n)) with (a + Z.of_nat n + 1) by lia. lia. }
  specialize (Hn (Z.to_nat (b - a))). rewrite Z2Nat.id in Hn by lia. replace (a + (b - a)) with b in Hn by lia. apply Hn. lia.
Qed.

Lemma year_of_day y d : 0 ≤ y < 400 → 0 ≤ d < year_length y → scaled (year_start y + d) / 365 = y.
Proof.
  intros Hy Hd. pose proof (year_checked y Hy) as Hc. unfold check_year in Hc. bool_to_prop.
  assert (0 ≤ year_start y) by (unfold year_start; Z.to_euclidean_division_equations; lia).
  assert (year_start y + year_length y ≤ 146097).
  { destruct (y =? 399) eqn:E; bool_to_prop; [lia|]. unfold year_start in *. Z.to_euclidean_division_equations. lia. }
  pose proof (scaled_mono (year_start y) (year_start y + d) ltac:(lia) ltac:(lia) ltac:(lia)).
  pose proof (scaled_mono (year_start y + d) (year_start y + year_length y - 1) ltac:(lia) ltac:(lia) ltac:(lia)).
  apply Z.le_antisymm.
  - etrans; [apply Z.div_le_mono; [lia|done]|]. lia.
  - etrans; [|apply Z.div_le_mono; [lia|done]]. lia.
Qed.

Lemma day_has_year doe : 0 ≤ doe < 146097 → ∃ y d, 0 ≤ y < 400 ∧ 0 ≤ d < year_length y ∧ doe = year_start y + d.
Proof.
  intros Hdoe.
  assert (∀ n : nat, (n ≤ 400)%nat → doe < (if (n =? 400)%nat then 146097 else year_start (Z.of_nat n)) →
    ∃ y d, 0 ≤ y < 400 ∧ 0 ≤ d < year_length y ∧ doe = year_start y + d) as Hn.
  { induction n as [|n IH]; intros Hn Hlt; [change (doe < 0) in Hlt; lia|].
    pose proof (year_checked (Z.of_nat n) ltac:(lia)) as Hc. unfold check_year in Hc. bool_to_prop.
    destruct (decide (doe < year_start (Z.of_nat n))) as [Hl|Hl].
    - apply IH; [lia|]. by rewrite (proj2 (Nat.eqb_neq _ _)) by lia.
    - exists (Z.of_nat n), (doe - year_start (Z.of_nat n)). split; [lia|]. split; [|lia].
      replace (Z.of_nat n =? 399) with (S n =? 400)%nat in * by (apply eq_true_iff_eq; rewrite Nat.eqb_eq, Z.eqb_eq; lia).
      replace (Z.of_nat (S n)) with (Z.of_nat n + 1) in Hlt by lia. lia. }
  apply (Hn 400%nat); [lia|]. simpl. lia.
Qed.

Lemma year_length_feb y e : 0 ≤ y < 400 → year_length y = 337 + month_days (y + e * 400 + 1) 2.
Proof.
  intros Hy. unfold year_length, month_days. cbn [existsb Z.eqb Pos.eqb orb andb].
  replace (y + e * 400 + 1) with ((y + 1) + (e * 100) * 4) by lia.
  replace (((y + 1) + (e * 100) * 4) mod 4) with ((y + 1) mod 4) by (by rewrite Z.mod_add).
  replace ((y + 1) + (e * 100) * 4) with ((y + 1) + (e * 4) * 100) by lia. rewrite Z.mod_add by done.
  replace ((y + 1) + (e * 4) * 100) with ((y + 1) + e * 400) by lia. rewrite Z.mod_add by done.
  destruct (Z.eqb_spec ((y + 1) mod 4) 0), (Z.eqb_spec ((y + 1) mod 100) 0), (Z.eqb_spec y 399),
    (Z.eqb_spec ((y + 1) mod 400) 0); cbn [negb andb orb]; try lia; exfalso; Z.to_euclidean_division_equations; lia.
Qed.

(** A day in its era, its year and its month, all counted from March. *)
Definition day_at (era yoe piece day : Z) : Z := era * 146097 + year_start yoe + (153 * piece + 2) / 5 + day - 1.
Definition date_at (era yoe piece day : Z) : Z * Z * Z :=
  (yoe + era * 400 + (if 10 <=? piece then 1 else 0), piece + (if piece <? 10 then 3 else -9), day).
Definition piece_ok (yoe piece day : Z) : Prop :=
  0 ≤ yoe < 400 ∧ 0 ≤ piece < 12 ∧ 1 ≤ day ∧ (153 * piece + 2) / 5 + day - 1 < year_length yoe ∧
  (5 * ((153 * piece + 2) / 5 + day - 1) + 2) / 153 = piece.

Lemma date_of_day_at era yoe piece day :
  piece_ok yoe piece day → date_of_day (day_at era yoe piece day) = date_at era yoe piece day.
Proof.
  intros (Hy & Hp & Hd & Hlen & Hpiece). unfold day_at.
  assert (0 ≤ (153 * piece + 2) / 5) by (Z.to_euclidean_division_equations; lia).
  pose proof (year_of_day yoe ((153 * piece + 2) / 5 + day - 1) Hy ltac:(lia)) as Hyear.
  set (doy := (153 * piece + 2) / 5 + day - 1) in *.
  replace (era * 146097 + year_start yoe + (153 * piece + 2) / 5 + day - 1) with ((year_start yoe + doy) + era * 146097) by lia.
  assert (0 ≤ year_start yoe + doy < 146097) as Hdoe.
  { pose proof (year_checked yoe Hy) as Hc. unfold check_year in Hc. bool_to_prop.
    assert (0 ≤ year_start yoe) by (unfold year_start; Z.to_euclidean_division_equations; lia).
    destruct (yoe =? 399) eqn:E; bool_to_prop; [lia|].
    assert (year_start (yoe + 1) ≤ 146097) by (unfold year_start; Z.to_euclidean_division_equations; lia). lia. }
  unfold date_of_day. rewrite Z.div_add, (Z.div_small _ _ Hdoe) by done. rewrite Z.add_0_l.
  replace (year_start yoe + doy + era * 146097 - era * 146097) with (year_start yoe + doy) by lia.
  fold (scaled (year_start yoe + doy)). rewrite Hyear.
  replace (365 * yoe + yoe / 4 - yoe / 100) with (year_start yoe) by (unfold year_start; lia).
  replace (year_start yoe + doy - year_start yoe) with doy by lia. rewrite Hpiece. unfold date_at.
  destruct (Z.ltb_spec piece 10), (Z.leb_spec 10 piece); try lia; f_equal; [|lia| |lia]; f_equal; case_match; bool_to_prop; lia.
Qed.

Lemma day_of_date_at era yoe piece day :
  piece_ok yoe piece day → day_of_date (date_at era yoe piece day) = day_at era yoe piece day.
Proof.
  intros (Hy & Hp & _). unfold day_of_date, date_at, day_at, year_start.
  destruct (Z.ltb_spec piece 10), (Z.leb_spec 10 piece); try lia.
  - rewrite (proj2 (Z.leb_gt _ _)), (proj2 (Z.ltb_lt _ _)) by lia.
    replace (yoe + era * 400 + 0 - 0) with (yoe + era * 400) by lia. rewrite Z.div_add, (Z.div_small _ _ Hy) by done.
    replace (yoe + era * 400 - (0 + era) * 400) with yoe by lia. replace (piece + 3 + -3) with piece by lia. lia.
  - rewrite (proj2 (Z.leb_le _ _)), (proj2 (Z.ltb_ge _ _)) by lia.
    replace (yoe + era * 400 + 1 - 1) with (yoe + era * 400) by lia. rewrite Z.div_add, (Z.div_small _ _ Hy) by done.
    replace (yoe + era * 400 - (0 + era) * 400) with yoe by lia. replace (piece + -9 + 9) with piece by lia. lia.
Qed.

(** Every day has a place, every valid date has one, and there the day lasts as
    long as its month. *)
Lemma piece_cases piece : 0 ≤ piece < 12 → piece ∈ [0; 1; 2; 3; 4; 5; 6; 7; 8; 9; 10; 11].
Proof. intros. rewrite !elem_of_cons. lia. Qed.

Ltac each_piece H :=
  apply piece_cases in H; rewrite !elem_of_cons in H;
  destruct H as [->|[->|[->|[->|[->|[->|[->|[->|[->|[->|[->|[->|H]]]]]]]]]]]]; [..|by apply not_elem_of_nil in H].

Lemma piece_ok_month era yoe piece day :
  0 ≤ yoe < 400 → 0 ≤ piece < 12 →
  piece_ok yoe piece day ↔ 1 ≤ day ≤ month_days (date_at era yoe piece day).1.1 (date_at era yoe piece day).1.2.
Proof.
  intros Hy Hp. pose proof (year_length_feb yoe era Hy) as Hl. unfold piece_ok.
  assert (year_length yoe = 365 ∨ year_length yoe = 366) as Hor by (unfold year_length; case_match; lia).
  each_piece Hp; unfold date_at; cbn [fst snd].
  12: { change (11 + (if 11 <? 10 then 3 else -9)) with 2. change (if 10 <=? 11 then 1 else 0) with 1.
    split; [intros (_ & _ & H1 & H2 & H3)|intros [H1 H2]; split_and!]; Z.to_euclidean_division_equations; lia. }
  all: clear Hl; match goal with |- context [month_days ?y ?m] =>
    generalize y; let any := fresh in intros any;
    let v := eval vm_compute in (month_days any m) in change (month_days any m) with v end.
  all: split; [intros (_ & _ & H1 & H2 & H3)|intros [H1 H2]; split_and!]; Z.to_euclidean_division_equations; lia.
Qed.

Lemma day_has_place z : ∃ era yoe piece day, piece_ok yoe piece day ∧ z = day_at era yoe piece day.
Proof.
  pose proof (Z.mod_pos_bound z 146097 ltac:(done)) as Hm.
  destruct (day_has_year (z mod 146097) Hm) as (y & d & Hy & Hd & He).
  exists (z / 146097), y, ((5 * d + 2) / 153), (d - (153 * ((5 * d + 2) / 153) + 2) / 5 + 1).
  assert (year_length y ≤ 366) by (unfold year_length; case_match; lia).
  split; [|unfold day_at; rewrite (Z.div_mod z 146097) at 1 by done; rewrite He; lia].
  split_and!; try lia; [Z.to_euclidean_division_equations; lia..|].
  f_equal. f_equal. lia.
Qed.

Lemma date_has_place date : valid_date date = true → ∃ era yoe piece day, piece_ok yoe piece day ∧ date = date_at era yoe piece day.
Proof.
  destruct date as [[y m] d]. unfold valid_date. intros Hv. bool_to_prop.
  set (y' := y - (if m <=? 2 then 1 else 0)). set (piece := m + (if 2 <? m then -3 else 9)).
  pose proof (Z.mod_pos_bound y' 400 ltac:(done)) as Hm.
  assert (0 ≤ piece < 12) as Hp by (subst piece; case_match; bool_to_prop; lia).
  assert (date_at (y' / 400) (y' mod 400) piece d = (y, m, d)) as Hdate.
  { unfold date_at. replace (y' mod 400 + y' / 400 * 400) with y' by (rewrite (Z.div_mod y' 400) at 1 by done; lia).
    subst y' piece. f_equal. f_equal; repeat case_match; bool_to_prop; lia. }
  exists (y' / 400), (y' mod 400), piece, d. split; [|done].
  apply (piece_ok_month (y' / 400)); [done..|]. rewrite Hdate. simpl. lia.
Qed.

Lemma date_of_day_inv z : day_of_date (date_of_day z) = z.
Proof.
  destruct (day_has_place z) as (era & yoe & piece & day & Hok & ->).
  by rewrite date_of_day_at, day_of_date_at.
Qed.

Lemma day_of_date_inv date : valid_date date = true → date_of_day (day_of_date date) = date.
Proof.
  intros (era & yoe & piece & day & Hok & ->)%date_has_place. by rewrite day_of_date_at, date_of_day_at.
Qed.

Lemma date_at_valid era yoe piece day : piece_ok yoe piece day → valid_date (date_at era yoe piece day) = true.
Proof.
  intros Hok. pose proof Hok as (Hy & Hp & _). apply (piece_ok_month era) in Hok; [|done..].
  unfold valid_date. destruct (date_at era yoe piece day) as [[y m] d] eqn:E. cbn [fst snd] in Hok.
  unfold date_at in E. injection E as <- <- <-. rewrite !andb_true_iff, !Z.leb_le. repeat case_match; bool_to_prop; lia.
Qed.

Lemma date_of_day_valid z : valid_date (date_of_day z) = true.
Proof.
  destruct (day_has_place z) as (era & yoe & piece & day & Hok & ->). rewrite date_of_day_at by done. by apply date_at_valid.
Qed.

(** The calendar goes on day by day. *)
Lemma next_day_valid date : valid_date date = true → valid_date (next_day date) = true.
Proof.
  destruct date as [[y m] d]. unfold valid_date, next_day. intros Hv. bool_to_prop.
  destruct (Z.ltb_spec d (month_days y m)); [rewrite !andb_true_iff, !Z.leb_le; lia|].
  assert (∀ y m, 1 ≤ m ≤ 12 → 1 ≤ month_days y m) as Hpos.
  { clear. intros y m Hm. unfold month_days. cbn [existsb]. rewrite !orb_false_r. repeat case_match; bool_to_prop; lia. }
  destruct (Z.ltb_spec m 12); rewrite !andb_true_iff, !Z.leb_le; split_and!; try lia; apply Hpos; lia.
Qed.

(** The day before a year begins is the last of its predecessor. *)
Lemma year_turns y : day_of_date (y, 3, 1) = day_of_date (y, 2, month_days y 2) + 1.
Proof.
  unfold day_of_date. change (if 3 <=? 2 then 1 else 0) with 0. change (if 2 <=? 2 then 1 else 0) with 1.
  change (if 2 <? 3 then -3 else 9) with (-3). change (if 2 <? 2 then -3 else 9) with 9.
  change ((153 * (3 + -3) + 2) / 5) with 0. change ((153 * (2 + 9) + 2) / 5) with 337.
  set (yoe := (y - 1) mod 400). set (era := (y - 1) / 400).
  assert (0 ≤ yoe < 400) as Hy by (by apply Z.mod_pos_bound).
  assert (y = yoe + era * 400 + 1) as Hye by (subst yoe era; pose proof (Z.div_mod (y - 1) 400 ltac:(done)); lia).
  pose proof (year_length_feb yoe era Hy) as Hl. rewrite <- Hye in Hl.
  pose proof (year_checked yoe Hy) as Hc. unfold check_year in Hc. bool_to_prop.
  replace (y - 1 - era * 400) with yoe by lia.
  destruct (Z.eqb_spec yoe 399) as [E|E].
  - replace (y - 0) with y by lia. assert (y / 400 = era + 1) as -> by (symmetry; apply Z.div_unique with 0; lia).
    replace (y - (era + 1) * 400) with 0 by lia. change (0 * 365 + 0 / 4 - 0 / 100) with 0. unfold year_start in *. lia.
  - replace (y - 0) with y by lia. assert (y / 400 = era) as -> by (symmetry; apply Z.div_unique with (yoe + 1); lia).
    replace (y - era * 400) with (yoe + 1) by lia. unfold year_start in *. lia.
Qed.

Ltac closed_ifs :=
  repeat match goal with |- context [if ?b then _ else _] => let v := eval vm_compute in b in change b with v; cbv iota end.

Lemma next_day_number date : valid_date date = true → day_of_date (next_day date) = day_of_date date + 1.
Proof.
  destruct date as [[y m] d]. unfold valid_date, next_day. intros Hv. bool_to_prop.
  destruct (Z.ltb_spec d (month_days y m)) as [Hd|Hd]; [unfold day_of_date; lia|].
  assert (d = month_days y m) as -> by lia.
  destruct (decide (m = 2)) as [->|Hm2]; [apply year_turns|].
  assert (m ∈ [1; 3; 4; 5; 6; 7; 8; 9; 10; 11; 12]) as Hm by (rewrite !elem_of_cons; lia).
  clear -Hm. rewrite !elem_of_cons, elem_of_nil in Hm.
  repeat (destruct Hm as [->|Hm]; [
    match goal with |- context [month_days ?y ?m] =>
      let v := eval vm_compute in (month_days y m) in change (month_days y m) with v end;
    closed_ifs; unfold day_of_date; closed_ifs;
    try replace (y + 1 - 1) with (y - 0) by lia;
    repeat match goal with |- context [(153 * ?p + 2) / 5] =>
      let v := eval vm_compute in ((153 * p + 2) / 5) in change ((153 * p + 2) / 5) with v end; lia|]). done.
Qed.

(** ** The functions of the code are these *)

Lemma era_quot z : (if 0 <=? z then z else z - 146096) ÷ 146097 = z / 146097.
Proof. destruct (Z.leb_spec 0 z); Z.to_euclidean_division_equations; lia. Qed.

Definition year_in_range (date : Z * Z * Z) : bool := (0 <=? date.1.1) && (date.1.1 <=? 9999).

Lemma civil_date_spec days :
  in_i64 (days + 719468) = true →
  civil_date days =
    if year_in_range (date_of_day (days + 719468)) then Ok (date_of_day (days + 719468))
    else invalid_artifact "timestamp exceeds four-digit UTC years".
Proof.
  intros Hin. unfold civil_date, checked_add, checked. rewrite Hin. cbn [ok_or res_bind].
  unfold date_of_day. set (z := days + 719468). rewrite era_quot.
  set (doe := z - z / 146097 * 146097).
  assert (0 ≤ doe < 146097) as Hdoe by (subst doe; Z.to_euclidean_division_equations; lia).
  rewrite !(Z.quot_div_nonneg doe) by lia.
  fold (scaled doe). assert (0 ≤ scaled doe) as Hs by (apply (scaled_mono 0 doe); lia).
  rewrite !(Z.quot_div_nonneg (scaled doe)) by lia. set (yoe := scaled doe / 365).
  assert (0 ≤ yoe) as Hyoe by (by apply Z.div_pos).
  rewrite !(Z.quot_div_nonneg yoe) by lia. set (doy := doe - (365 * yoe + yoe / 4 - yoe / 100)).
  assert (0 ≤ doy) as Hdoy.
  { destruct (day_has_year doe Hdoe) as (y & d & Hy & Hd & He). assert (yoe = y) as E by (subst yoe; rewrite He; by apply year_of_day).
    subst doy. rewrite E. unfold year_start in He. lia. }
  rewrite !(Z.quot_div_nonneg (5 * doy + 2)) by lia. set (piece := (5 * doy + 2) / 153).
  assert (0 ≤ piece) as Hpiece by (apply Z.div_pos; lia).
  rewrite !(Z.quot_div_nonneg (153 * piece + 2)) by lia. done.
Qed.

(** Days that years of four digits can reach. *)
Lemma day_of_date_bounds date :
  valid_date date = true → year_in_range date = true → 60 - 366 ≤ day_of_date date < 3652425.
Proof.
  destruct date as [[y m] d]. unfold valid_date, year_in_range. cbn [fst snd]. intros Hv Hy. bool_to_prop.
  assert (month_days y m ≤ 31) as Hd by (unfold month_days; repeat case_match; lia).
  unfold day_of_date. repeat case_match; bool_to_prop; Z.to_euclidean_division_equations; lia.
Qed.

Lemma days_from_civil_spec y m d :
  valid_date (y, m, d) = true → year_in_range (y, m, d) = true →
  days_from_civil y m d = Ok (day_of_date (y, m, d) - 719468).
Proof.
  intros Hv Hy. pose proof (day_of_date_bounds _ Hv Hy) as Hb. unfold valid_date in Hv. bool_to_prop.
  assert (month_days y m ≤ 31) as Hd by (unfold month_days; repeat case_match; lia).
  unfold year_in_range in Hy. cbn [fst snd] in Hy. bool_to_prop.
  unfold days_from_civil. set (y' := y - (if m <=? 2 then 1 else 0)).
  assert (-1 ≤ y' ≤ 9999) as Hy' by (subst y'; case_match; lia).
  assert ((if 0 <=? y' then y' else y' - 399) ÷ 400 = y' / 400) as ->.
  { destruct (Z.leb_spec 0 y'); Z.to_euclidean_division_equations; lia. }
  set (yoe := y' - y' / 400 * 400). assert (0 ≤ yoe < 400) as Hyoe by (subst yoe; Z.to_euclidean_division_equations; lia).
  assert (0 ≤ m + (if 2 <? m then -3 else 9) < 12) as Hp by (case_match; bool_to_prop; lia).
  rewrite !(Z.quot_div_nonneg yoe) by lia. rewrite (Z.quot_div_nonneg (153 * _ + 2)) by lia.
  unfold day_of_date in *. fold y' in Hb |- *. fold yoe in Hb |- *.
  assert (-1 ≤ y' / 400 < 25) by (Z.to_euclidean_division_equations; lia).
  unfold checked_mul, checked_add, checked_sub, checked.
  assert (∀ z, -10000000 ≤ z ≤ 10000000 → in_i64 z = true) as Hin.
  { intros z Hz. unfold in_i64, I64_MIN, I64_MAX. lia. }
  rewrite (Hin (y' / 400 * 146097)) by lia. cbn [mbind option_bind]. rewrite !Hin by lia. cbn [mbind option_bind].
  rewrite !Hin by lia. done.
Qed.

(** ** The shape of a timestamp *)

Definition digits (n : nat) (s : str) : Prop := length s = n ∧ forallb is_digit s = true.

Definition stamp (y m d h mi s f : str) : str :=
  y ++ bs "-" ++ m ++ bs "-" ++ d ++ bs "T" ++ h ++ bs ":" ++ mi ++ bs ":" ++ s ++ bs "." ++ f ++ bs "Z".

Definition timestamp_malformed (value : str) : bool :=
  negb (length value =? 30)%nat
  || existsb (λ p, negb (byte_at value p.1 =? p.2)) punctuation
  || existsb (λ p, negb (is_punctuation p.1) && negb (is_digit p.2)) (imap pair value).

Ltac explode s H := repeat (destruct s as [|? s]; [discriminate H|]); destruct s; [|discriminate H].

Lemma stamp_shape y m d h mi s f :
  digits 4 y → digits 2 m → digits 2 d → digits 2 h → digits 2 mi → digits 2 s → digits 9 f →
  timestamp_malformed (stamp y m d h mi s f) = false.
Proof.
  intros [Ly Dy] [Lm Dm] [Ld Dd] [Lh Dh] [Li Di] [Ls Ds] [Lf Df].
  explode y Ly. explode m Lm. explode d Ld. explode h Lh. explode mi Li. explode s Ls. explode f Lf.
  cbn [forallb] in *. bool_to_prop. unfold timestamp_malformed, stamp. cbn [app bs].
  cbn [length Nat.eqb negb orb]. apply orb_false_iff. split; [done|].
  cbv -[is_digit]. repeat match goal with H : is_digit _ = true |- _ => rewrite H; clear H end. done.
Qed.

Lemma malformed_shape value :
  timestamp_malformed value = false →
  ∃ y m d h mi s f, digits 4 y ∧ digits 2 m ∧ digits 2 d ∧ digits 2 h ∧ digits 2 mi ∧ digits 2 s ∧ digits 9 f ∧
    value = stamp y m d h mi s f.
Proof.
  unfold timestamp_malformed. intros [[Hl Hp]%orb_false_iff Hd]%orb_false_iff. apply negb_false_iff, Nat.eqb_eq in Hl.
  do 30 (destruct value as [|? value]; [done|]). destruct value; [|done].
  cbv -[is_digit Z.eqb] in Hp, Hd.
  repeat match type of Hp with (if if ?b then _ else _ then _ else _) = _ =>
    destruct b eqn:?; cbn [orb] in Hp; [|discriminate Hp] end.
  repeat match type of Hd with (if if ?b then _ else _ then _ else _) = _ =>
    let E := fresh "Dg" in destruct b eqn:E; [|discriminate Hd] end.
  bool_to_prop. subst.
  match goal with |- context [?l = stamp _ _ _ _ _ _ _] =>
    exists (sub l 0 4), (sub l 5 7), (sub l 8 10), (sub l 11 13), (sub l 14 16), (sub l 17 19), (sub l 20 29) end.
  split_and!; try done; (split; [done|]); cbv -[is_digit];
  repeat match goal with H : is_digit _ = true |- _ => rewrite H; clear H end; done.
Qed.

Lemma number_digits value start stop s :
  sub value start stop = s → s ≠ [] → forallb is_digit s = true → (length s ≤ 9)%nat → number value start stop = Some (digits_value s).
Proof.
  intros Hs Hne Hd Hl. unfold number. rewrite Hs. apply parse_unsigned_digits; [done..|].
  pose proof (digits_value_bound s Hd) as Hb.
  assert (10 ^ Z.of_nat (length s) ≤ 10 ^ 9) by (apply Z.pow_le_mono_r; lia). unfold U32_MAX. lia.
Qed.

Definition components_valid (c : TimestampComponents) : bool :=
  (0 <=? year c) && (year c <=? 9999) && valid_date (year c, month c, day c)
  && (0 <=? hour c) && (hour c <=? 23) && (0 <=? minute c) && (minute c <=? 59)
  && (0 <=? second c) && (second c <=? 59) && (0 <=? fraction c) && (fraction c <? NANOS).

Lemma timestamp_components_shape y m d h mi s f :
  digits 4 y → digits 2 m → digits 2 d → digits 2 h → digits 2 mi → digits 2 s → digits 9 f →
  let c := mkComponents (digits_value y) (digits_value m) (digits_value d) (digits_value h)
             (digits_value mi) (digits_value s) (digits_value f) in
  timestamp_components (stamp y m d h mi s f) =
    if components_valid c then Ok c else invalid_artifact "timestamp components are out of range".
Proof.
  intros Hy Hm Hd Hh Hi Hs Hf c. unfold timestamp_components.
  fold (timestamp_malformed (stamp y m d h mi s f)). rewrite stamp_shape by done.
  assert (∀ n l, digits (S n) l → (S n ≤ 9)%nat → l ≠ [] ∧ forallb is_digit l = true ∧ (length l ≤ 9)%nat) as Hdig.
  { intros n [|b l] [Hl Hall] Hn; [done|]. split_and!; [done|done|lia]. }
  assert (sub (stamp y m d h mi s f) 0 4 = y ∧ sub (stamp y m d h mi s f) 5 7 = m ∧ sub (stamp y m d h mi s f) 8 10 = d ∧
    sub (stamp y m d h mi s f) 11 13 = h ∧ sub (stamp y m d h mi s f) 14 16 = mi ∧ sub (stamp y m d h mi s f) 17 19 = s ∧
    sub (stamp y m d h mi s f) 20 29 = f) as (Ey & Em & Ed & Eh & Ei & Es & Ef).
  { clear c Hdig. destruct Hy as [Hy _], Hm as [Hm _], Hd as [Hd _], Hh as [Hh _], Hi as [Hi _], Hs as [Hs _], Hf as [Hf _].
    explode y Hy. explode m Hm. explode d Hd. explode h Hh. explode mi Hi. explode s Hs. explode f Hf. split_and!; reflexivity. }
  repeat match goal with |- context [number ?v ?a ?b] =>
    match goal with E : sub v a b = ?s, H : digits (S ?n) ?s |- _ =>
      let E' := fresh in destruct (Hdig n s H ltac:(lia)) as (E' & ? & ?); rewrite (number_digits v a b s E) by done; clear E' end end.
  assert (∀ n l, digits n l → 0 ≤ digits_value l < 10 ^ Z.of_nat n) as Hb by (intros n l [<- Hl]; by apply digits_value_bound).
  assert (components_valid c = negb ((digits_value d =? 0) || (month_days (digits_value y) (digits_value m) <? digits_value d)
    || (23 <? digits_value h) || (59 <? digits_value mi) || (59 <? digits_value s))) as ->; [|by destruct (_ || _)].
  unfold components_valid. cbn [year month day hour minute second fraction valid_date].
  pose proof (Hb _ _ Hy). pose proof (Hb _ _ Hm). pose proof (Hb _ _ Hd). pose proof (Hb _ _ Hh).
  pose proof (Hb _ _ Hi). pose proof (Hb _ _ Hs). pose proof (Hb _ _ Hf). cbn in *.
  assert (1 ≤ digits_value d ≤ month_days (digits_value y) (digits_value m) → 1 ≤ digits_value m ≤ 12) as Hmd.
  { intros Hday. unfold month_days in Hday. cbn [existsb] in Hday. repeat case_match; bool_to_prop; lia. }
  unfold NANOS. apply eq_true_iff_eq. rewrite negb_true_iff, !orb_false_iff, !andb_true_iff, !Z.leb_le, !Z.ltb_lt, !Z.ltb_ge, Z.eqb_neq. lia.
Qed.

Definition render_components (c : TimestampComponents) : str :=
  render_timestamp (year c) (month c) (day c) (hour c) (minute c) (second c) (fraction c).

Lemma pad_zero_digits n z : 0 ≤ z < 10 ^ Z.of_nat (S n) → digits (S n) (pad_zero (S n) z) ∧ digits_value (pad_zero (S n) z) = z.
Proof. intros Hz. destruct (pad_zero_spec (S n) z Hz ltac:(lia)) as (H1 & H2 & H3). done. Qed.

Lemma digits_pad n s : digits (S n) s → pad_zero (S n) (digits_value s) = s.
Proof. intros [Hl Hd]. rewrite <- Hl. apply pad_zero_value; [by destruct s|done]. Qed.

Lemma components_bounds c :
  components_valid c = true →
  0 ≤ year c < 10000 ∧ 1 ≤ month c ≤ 12 ∧ 1 ≤ day c ≤ 31 ∧ 0 ≤ hour c < 24 ∧ 0 ≤ minute c < 60 ∧ 0 ≤ second c < 60 ∧
  0 ≤ fraction c < NANOS.
Proof.
  unfold components_valid, valid_date. intros H. bool_to_prop.
  assert (month_days (year c) (month c) ≤ 31) by (unfold month_days; repeat case_match; lia). lia.
Qed.

Lemma timestamp_components_exact s c :
  timestamp_components s = Ok c ↔ components_valid c = true ∧ s = render_components c.
Proof.
  split.
  - intros H. destruct (timestamp_malformed s) eqn:E.
    { unfold timestamp_components in H. fold (timestamp_malformed s) in H. by rewrite E in H. }
    destruct (malformed_shape s E) as (y & m & d & h & mi & se & f & Hy & Hm & Hd & Hh & Hi & Hs & Hf & ->).
    rewrite timestamp_components_shape in H by done. case_match eqn:Hc; [|done]. injection H as <-. split; [done|].
    unfold render_components, render_timestamp, stamp. cbn [year month day hour minute second fraction].
    by rewrite !digits_pad.
  - intros [Hc ->]. pose proof (components_bounds c Hc) as (By & Bm & Bd & Bh & Bi & Bs & Bf). unfold NANOS in Bf.
    destruct (pad_zero_digits 3 (year c)) as [Dy Vy]; [simpl; lia|].
    destruct (pad_zero_digits 1 (month c)) as [Dm Vm]; [simpl; lia|].
    destruct (pad_zero_digits 1 (day c)) as [Dd Vd]; [simpl; lia|].
    destruct (pad_zero_digits 1 (hour c)) as [Dh Vh]; [simpl; lia|].
    destruct (pad_zero_digits 1 (minute c)) as [Di Vi]; [simpl; lia|].
    destruct (pad_zero_digits 1 (second c)) as [Ds Vs]; [simpl; lia|].
    destruct (pad_zero_digits 8 (fraction c)) as [Df Vf]; [simpl; lia|].
    unfold render_components, render_timestamp. fold (stamp (pad_zero 4 (year c)) (pad_zero 2 (month c)) (pad_zero 2 (day c))
      (pad_zero 2 (hour c)) (pad_zero 2 (minute c)) (pad_zero 2 (second c)) (pad_zero 9 (fraction c))).
    rewrite timestamp_components_shape by done. rewrite Vy, Vm, Vd, Vh, Vi, Vs, Vf. destruct c. cbn in *. by rewrite Hc.
Qed.

Definition seconds_of (c : TimestampComponents) : Z :=
  (day_of_date (year c, month c, day c) - 719468) * 86400 + hour c * 3600 + minute c * 60 + second c.

Lemma unix_nanos_exact s n :
  unix_nanos_from_timestamp s = Ok n ↔
  ∃ c, components_valid c = true ∧ s = render_components c ∧ n = seconds_of c * NANOS + fraction c.
Proof.
  assert (∀ c, timestamp_components s = Ok c → components_valid c = true →
    unix_nanos_from_timestamp s = Ok (seconds_of c * NANOS + fraction c)) as Hok.
  { intros c Hs Hc. unfold unix_nanos_from_timestamp. rewrite Hs. cbn [res_bind].
    pose proof (components_bounds c Hc) as (By & Bm & Bd & Bh & Bi & Bs & Bf). unfold NANOS in *.
    unfold components_valid in Hc. bool_to_prop.
    assert (year_in_range (year c, month c, day c) = true) as Hr by (unfold year_in_range; cbn [fst]; lia).
    rewrite days_from_civil_spec by done. pose proof (day_of_date_bounds (year c, month c, day c) ltac:(done) Hr) as Hb.
    unfold seconds_of. generalize dependent (day_of_date (year c, month c, day c)). intros D Hb. cbn [res_bind].
    assert (∀ z, - 10 ^ 30 ≤ z ≤ 10 ^ 30 → i128 z = Some z) as Hi.
    { intros z Hz. unfold i128. by rewrite (proj2 (Z.leb_le _ _)), (proj2 (Z.ltb_lt _ _)) by lia. }
    unfold NANOS. do 4 (rewrite Hi by lia; cbn [mbind option_bind]). cbn [ok_or res_bind].
    do 2 (rewrite Hi by lia; cbn [mbind option_bind]). done. }
  split.
  - intros H. destruct (timestamp_components s) as [c| |] eqn:E; [|unfold unix_nanos_from_timestamp in H; by rewrite E in H..].
    pose proof E as [Hc Hs]%timestamp_components_exact. rewrite (Hok c eq_refl Hc) in H. injection H as <-. eauto.
  - intros (c & Hc & -> & ->). apply Hok; [|done]. by apply timestamp_components_exact.
Qed.

(** ** Timestamps and instants *)

(** Seconds from the epoch to the year 10000. *)
Definition SECONDS : Z := 253402300800.

Definition components_at (nanos : Z) : TimestampComponents :=
  let seconds := nanos / NANOS in
  let date := date_of_day (seconds / 86400 + 719468) in
  mkComponents date.1.1 date.1.2 date.2
    (seconds mod 86400 / 3600) (seconds mod 86400 mod 3600 / 60) (seconds mod 86400 mod 60) (nanos mod NANOS).

Lemma day_of_date_bound date :
  valid_date date = true →
  (date.1.1 < 0 → day_of_date date < 719468) ∧ (day_of_date date < 3652365 ↔ date.1.1 < 10000).
Proof.
  destruct date as [[y m] d]. unfold valid_date. cbn [fst snd]. intros Hv. bool_to_prop.
  set (y' := y - (if m <=? 2 then 1 else 0)). set (p := m + (if 2 <? m then -3 else 9)).
  assert (0 ≤ (153 * p + 2) / 5 + d - 1 ≤ 366 ∧ (m ≤ 2 → 306 ≤ (153 * p + 2) / 5 + d - 1) ∧
    (2 < m → (153 * p + 2) / 5 + d - 1 < 306)) as (Hdoy & Hlow & Hhigh).
  { subst p. assert (month_days y m ≤ if 2 <? m then (153 * (m - 2) + 2) / 5 - (153 * (m - 3) + 2) / 5 else if m =? 2 then 29 else 31) as Hd.
    { assert (m ∈ [1; 2; 3; 4; 5; 6; 7; 8; 9; 10; 11; 12]) as Hm by (rewrite !elem_of_cons; lia).
      rewrite !elem_of_cons, elem_of_nil in Hm. unfold month_days.
      destruct Hm as [->|[->|[->|[->|[->|[->|[->|[->|[->|[->|[->|[->|[]]]]]]]]]]]]];
        try (vm_compute; congruence). cbn [existsb Z.eqb Pos.eqb orb andb]. repeat case_match; vm_compute; congruence. }
    destruct (Z.ltb_spec 2 m), (Z.eqb_spec m 2); Z.to_euclidean_division_equations; lia. }
  unfold day_of_date. fold y' p. generalize dependent ((153 * p + 2) / 5 + d - 1). intros doy Hdoy Hlow Hhigh.
  assert (y = y' + (if m <=? 2 then 1 else 0)) as Ey by lia. clearbody y'. subst y.
  destruct (decide (y' = 9999)) as [->|Hne].
  - change (9999 / 400) with 24. change ((9999 - 24 * 400) / 4) with 99. change ((9999 - 24 * 400) / 100) with 3.
    destruct (Z.leb_spec m 2); lia.
  - destruct (Z.leb_spec m 2); split; try split; Z.to_euclidean_division_equations; lia.
Qed.

Lemma components_at_valid nanos :
  0 ≤ nanos → components_valid (components_at nanos) = bool_decide (nanos < SECONDS * NANOS).
Proof.
  intros Hn. unfold components_at. set (date := date_of_day (nanos / NANOS / 86400 + 719468)).
  pose proof (date_of_day_valid (nanos / NANOS / 86400 + 719468)) as Hv. fold date in Hv.
  destruct (day_of_date_bound date Hv) as [Hlow Hhigh]. unfold date in Hlow, Hhigh. rewrite date_of_day_inv in Hlow, Hhigh.
  fold date in Hlow, Hhigh. unfold components_valid. cbn [year month day hour minute second fraction].
  rewrite <- !surjective_pairing, Hv.
  assert (0 ≤ nanos / NANOS) as Hs by (by apply Z.div_pos).
  assert (0 ≤ nanos / NANOS / 86400) as Hd by (by apply Z.div_pos).
  assert (nanos < SECONDS * NANOS ↔ nanos / NANOS / 86400 + 719468 < 3652365) as Hiff.
  { unfold SECONDS, NANOS in *. Z.to_euclidean_division_equations. lia. }
  rewrite (bool_decide_ext _ _ Hiff), (bool_decide_ext _ _ Hhigh).
  assert (0 ≤ date.1.1) as Hy by lia. clear Hlow Hhigh Hiff Hv Hd Hs. generalize dependent (date.1.1). clear date. intros y Hy.
  rewrite andb_true_r. pose proof (Z.mod_pos_bound nanos NANOS ltac:(done)) as Hf.
  assert (0 ≤ (nanos / NANOS) mod 86400 < 86400) as Ht by (by apply Z.mod_pos_bound).
  generalize dependent ((nanos / NANOS) mod 86400). intros t Ht. apply eq_true_iff_eq.
  rewrite !andb_true_iff, !Z.leb_le, Z.ltb_lt, bool_decide_eq_true. Z.to_euclidean_division_equations. lia.
Qed.

Lemma components_at_nanos nanos : seconds_of (components_at nanos) * NANOS + fraction (components_at nanos) = nanos.
Proof.
  unfold seconds_of, components_at. cbn [year month day hour minute second fraction]. rewrite <- !surjective_pairing, date_of_day_inv.
  unfold NANOS. Z.to_euclidean_division_equations. lia.
Qed.

Lemma components_at_inv c : components_valid c = true → 0 ≤ seconds_of c → components_at (seconds_of c * NANOS + fraction c) = c.
Proof.
  intros Hc Hs. pose proof (components_bounds c Hc) as (_ & _ & _ & Bh & Bi & Bs & Bf).
  unfold components_at. rewrite (Z.add_comm (seconds_of c * NANOS)), Z.div_add, (Z.div_small (fraction c)), Z.mod_add, (Z.mod_small (fraction c)) by done.
  unfold components_valid in Hc. bool_to_prop. unfold seconds_of. rewrite Z.add_0_l.
  set (D := day_of_date (year c, month c, day c)).
  set (t := hour c * 3600 + minute c * 60 + second c). assert (0 ≤ t < 86400) as Ht by lia.
  replace ((D - 719468) * 86400 + hour c * 3600 + minute c * 60 + second c) with (t + (D - 719468) * 86400) by lia.
  rewrite Z.div_add, (Z.div_small t), Z.mod_add, (Z.mod_small t) by done.
  replace (0 + (D - 719468) + 719468) with D by lia. subst D. rewrite day_of_date_inv by done. destruct c as [y m d h mi s f].
  cbn [year month day hour minute second fraction fst snd] in *. f_equal; subst t; Z.to_euclidean_division_equations; lia.
Qed.

Lemma timestamp_from_exact nanos :
  timestamp_from_unix_nanos nanos =
    if nanos <? 0 then invalid_artifact "timestamp precedes the Unix epoch"
    else if SECONDS * NANOS <=? nanos then
      (if (I64_MAX <? nanos / NANOS / 86400) || negb (in_i64 (nanos / NANOS / 86400 + 719468)) then out_of_range
       else invalid_artifact "timestamp exceeds four-digit UTC years")
    else Ok (render_components (components_at nanos)).
Proof.
  unfold timestamp_from_unix_nanos. destruct (Z.ltb_spec nanos 0) as [|Hn]; [done|].
  pose proof (components_at_valid nanos Hn) as Hv.
  assert (0 ≤ nanos / NANOS / 86400) as Hd by (apply Z.div_pos; [apply Z.div_pos|]; done).
  set (days := nanos / NANOS / 86400) in *.
  destruct (Z.ltb_spec I64_MAX days) as [Hmax|Hmax].
  { assert (SECONDS * NANOS <= nanos) as Hbig.
    { subst days. unfold I64_MAX, SECONDS, NANOS in *. Z.to_euclidean_division_equations. lia. }
    by rewrite (proj2 (Z.leb_le _ _) Hbig). }
  cbn [orb]. destruct (in_i64 (days + 719468)) eqn:Hin; cbn [negb].
  - rewrite civil_date_spec by done.
    assert (year_in_range (date_of_day (days + 719468)) = bool_decide (nanos < SECONDS * NANOS)) as ->.
    { rewrite <- Hv. unfold components_at. fold days. unfold components_valid, year_in_range.
      cbn [year month day hour minute second fraction]. rewrite <- !surjective_pairing, date_of_day_valid.
      pose proof (Z.mod_pos_bound nanos NANOS ltac:(done)) as Hf.
      assert (0 ≤ (nanos / NANOS) mod 86400 < 86400) as Ht by (by apply Z.mod_pos_bound).
      generalize dependent ((nanos / NANOS) mod 86400). intros t Ht. rewrite andb_true_r.
      apply eq_true_iff_eq. rewrite !andb_true_iff, !Z.leb_le, Z.ltb_lt. Z.to_euclidean_division_equations. lia. }
    case_bool_decide; destruct (Z.leb_spec (SECONDS * NANOS) nanos); try lia; [|done].
    cbn [res_bind]. unfold render_components, components_at. fold days.
    destruct (date_of_day (days + 719468)) as [[y m] d]. done.
  - assert (SECONDS * NANOS <= nanos) as Hbig.
    { apply Z.nlt_ge. intros Hlt. assert (days < SECONDS) by (subst days; unfold SECONDS, NANOS in *; Z.to_euclidean_division_equations; lia).
      unfold in_i64, I64_MIN, I64_MAX, SECONDS in *. lia. }
    rewrite (proj2 (Z.leb_le _ _) Hbig). unfold civil_date, checked_add, checked. by rewrite Hin.
Qed.

(** C27: on the instants from the epoch to the year 10000 the timestamp of an
    instant is the one text that reads back as that instant; every other number
    of nanoseconds is refused with an error, and neither function panics. *)
Theorem timestamps_exact :
  (∀ nanos s, timestamp_from_unix_nanos nanos = Ok s ↔
     0 ≤ nanos < SECONDS * NANOS ∧ unix_nanos_from_timestamp s = Ok nanos) ∧
  (∀ nanos, ¬ 0 ≤ nanos < SECONDS * NANOS → ∃ e, timestamp_from_unix_nanos nanos = Err e) ∧
  (∀ s, unix_nanos_from_timestamp s ≠ Panic).
Proof.
  split_and!.
  - intros nanos s. rewrite timestamp_from_exact, unix_nanos_exact. split.
    + destruct (Z.ltb_spec nanos 0); [done|]. destruct (Z.leb_spec (SECONDS * NANOS) nanos); [by case_match|].
      intros [= <-]. split; [done|]. exists (components_at nanos).
      rewrite components_at_valid, bool_decide_eq_true by done. split; [done|]. split; [done|]. by rewrite components_at_nanos.
    + intros [[H1 H2] (c & Hc & -> & ->)]. rewrite (proj2 (Z.ltb_ge _ _)), (proj2 (Z.leb_gt _ _)) by done.
      pose proof (components_bounds c Hc) as (_ & _ & _ & _ & _ & _ & Hf). rewrite components_at_inv; [done..|].
      unfold NANOS in *. lia.
  - intros nanos Hn. rewrite timestamp_from_exact. destruct (Z.ltb_spec nanos 0); [by eexists|].
    destruct (Z.leb_spec (SECONDS * NANOS) nanos); [case_match; by eexists|lia].
  - intros s. unfold unix_nanos_from_timestamp. destruct (timestamp_components s) as [c| |] eqn:E; [|done|].
    + apply timestamp_components_exact in E as [Hc ->]. intros H.
      pose proof (proj2 (unix_nanos_exact (render_components c) _) (ex_intro _ c (conj Hc (conj eq_refl eq_refl)))) as Hok.
      unfold unix_nanos_from_timestamp in Hok.
      rewrite (proj2 (timestamp_components_exact (render_components c) c) (conj Hc eq_refl)) in Hok.
      cbn [res_bind] in Hok, H. rewrite Hok in H. done.
    + unfold timestamp_components in E. repeat case_match; done.
Qed.

(** The civil dates are the Gregorian calendar: day zero is 1970-01-01, the
    day after has the next date, and a date of years 0000 to 9999 and its day
    number determine each other. *)
Theorem civil_dates_exact :
  civil_date 0 = Ok (1970, 1, 1) ∧
  (∀ days date, I64_MIN ≤ days ≤ I64_MAX → civil_date days = Ok date →
     valid_date date = true ∧ civil_date (days + 1) =
       if bool_decide ((next_day date).1.1 < 10000) then Ok (next_day date)
       else invalid_artifact "timestamp exceeds four-digit UTC years") ∧
  (∀ days y m d, I64_MIN ≤ days ≤ I64_MAX →
     civil_date days = Ok (y, m, d) ↔ valid_date (y, m, d) = true ∧ 0 ≤ y < 10000 ∧ days_from_civil y m d = Ok days).
Proof.
  assert (∀ days date, I64_MIN ≤ days ≤ I64_MAX → civil_date days = Ok date →
    in_i64 (days + 719468) = true ∧ year_in_range date = true ∧ date_of_day (days + 719468) = date) as Hinv.
  { intros days date _ H. destruct (in_i64 (days + 719468)) eqn:Hin.
    - rewrite civil_date_spec in H by done. case_match eqn:Hr; [|done]. by injection H as <-.
    - unfold civil_date, checked_add, checked in H. by rewrite Hin in H. }
  split_and!; [vm_compute; reflexivity| |].
  - intros days date Hd (Hin & Hr & <-)%Hinv; [|done]. set (date := date_of_day (days + 719468)) in *.
    pose proof (date_of_day_valid (days + 719468)) as Hv. fold date in Hv. split; [done|].
    pose proof (day_of_date_bounds date Hv Hr) as Hb. unfold date in Hb. rewrite date_of_day_inv in Hb. fold date in Hb.
    rewrite civil_date_spec by (unfold in_i64, I64_MIN, I64_MAX in *; lia).
    assert (date_of_day (days + 1 + 719468) = next_day date) as ->.
    { rewrite <- (day_of_date_inv (next_day date)) by (by apply next_day_valid). f_equal. rewrite next_day_number by done.
      subst date. rewrite date_of_day_inv. lia. }
    assert (year_in_range (next_day date) = bool_decide ((next_day date).1.1 < 10000)) as ->; [|by case_bool_decide].
    unfold year_in_range in *. destruct date as [[y m] d]. unfold next_day. cbn [fst snd] in Hr |- *. bool_to_prop.
    apply eq_true_iff_eq. rewrite andb_true_iff, !Z.leb_le, bool_decide_eq_true. repeat case_match; cbn [fst snd]; lia.
  - intros days y m d Hd. split.
    + intros (Hin & Hr & He)%Hinv; [|done]. pose proof (date_of_day_valid (days + 719468)) as Hv. rewrite He in Hv.
      split; [done|]. pose proof Hr as Hr'. unfold year_in_range in Hr'. cbn [fst] in Hr'. bool_to_prop. split; [lia|].
      rewrite days_from_civil_spec by done. rewrite <- He, date_of_day_inv. f_equal. lia.
    + intros (Hv & Hy & H). assert (year_in_range (y, m, d) = true) as Hr by (unfold year_in_range; cbn [fst]; lia).
      rewrite days_from_civil_spec in H by done. assert (days = day_of_date (y, m, d) - 719468) as -> by congruence. clear H. pose proof (day_of_date_bounds _ Hv Hr) as Hb.
      rewrite civil_date_spec by (unfold in_i64, I64_MIN, I64_MAX in *; lia).
      replace (day_of_date (y, m, d) - 719468 + 719468) with (day_of_date (y, m, d)) by lia.
        rewrite day_of_date_inv, Hr by done. done.
Qed.

(** ** base64url *)

Lemma slice_chunks_fuel_enough {A} size (fuel n : nat) (l : list A) :
  (0 < size)%nat → (length l ≤ fuel)%nat → (length l ≤ n)%nat → slice_chunks_fuel fuel size l = slice_chunks_fuel n size l.
Proof.
  intros Hs. revert n l. induction fuel as [|fuel IH]; intros n [|x l] Hf Hn; cbn [length] in *; try lia; [by destruct n..|].
  destruct n as [|n]; [lia|]. cbn [slice_chunks_fuel]. f_equal.
  assert (length (drop size (x :: l)) ≤ length l)%nat by (rewrite length_drop; cbn [length]; lia). apply IH; lia.
Qed.

Lemma slice_chunks_cons {A} size (l : list A) :
  (0 < size)%nat → l ≠ [] → slice_chunks size l = take size l :: slice_chunks size (drop size l).
Proof.
  intros Hs Hl. unfold slice_chunks at 1. destruct l as [|x l]; [done|]. cbn [length slice_chunks_fuel]. f_equal.
  unfold slice_chunks.
  assert (length (drop size (x :: l)) ≤ length l)%nat by (rewrite length_drop; cbn [length]; lia). by apply slice_chunks_fuel_enough.
Qed.

Lemma alphabet_checked : forallb (λ n, bool_decide (base64url_digit (alphabet_char (Z.of_nat n)) = Some (Z.of_nat n))) (seq 0 64) = true.
Proof. vm_compute. reflexivity. Qed.

Lemma alphabet_digit d : 0 ≤ d < 64 → base64url_digit (alphabet_char d) = Some d.
Proof.
  intros Hd. pose proof alphabet_checked as H. rewrite forallb_forall in H. specialize (H (Z.to_nat d)).
  rewrite bool_decide_eq_true, Z2Nat.id in H by lia. apply H. apply in_seq. lia.
Qed.

Lemma digit_alphabet c d : base64url_digit c = Some d → 0 ≤ d < 64 ∧ alphabet_char d = c.
Proof.
  intros H. assert (0 ≤ d < 64) as Hd by (unfold base64url_digit in H; repeat case_match; simplify_eq; bool_to_prop; lia).
  split; [done|]. pose proof (alphabet_digit d Hd) as H'. revert H H'. generalize (alphabet_char d). intros c' H H'.
  unfold base64url_digit in H, H'. repeat case_match; simplify_eq; bool_to_prop; lia.
Qed.

Lemma lor_disjoint k x y : 0 ≤ k → 0 ≤ y < 2 ^ k → Z.lor (x * 2 ^ k) y = x * 2 ^ k + y.
Proof.
  intros Hk Hy. rewrite <- Z.lxor_lor, <- Z.add_nocarry_lxor; [done|..];
    apply Z.bits_inj'; intros i Hi; rewrite Z.land_spec, Z.bits_0;
    (destruct (Z.lt_ge_cases i k); [by rewrite Z.mul_pow2_bits_low|
     rewrite andb_comm, <- (Z.mod_small y (2 ^ k)), Z.mod_pow2_bits_high by lia; done]).
Qed.

Lemma low_bits a k m : Z.ones k = m → 0 ≤ k → Z.land a m = a mod 2 ^ k.
Proof. intros <- Hk. by apply Z.land_ones. Qed.

(** The digits of three bytes and the bytes of four digits. *)
Lemma encode_digits a b c :
  is_byte a → is_byte b → is_byte c →
  Z.shiftr a 2 = a / 4 ∧
  Z.lor (Z.shiftl (Z.land a 3) 4) (Z.shiftr b 4) = a mod 4 * 16 + b / 16 ∧
  Z.lor (Z.shiftl (Z.land b 15) 2) (Z.shiftr c 6) = b mod 16 * 4 + c / 64 ∧
  Z.land c 63 = c mod 64.
Proof.
  unfold is_byte. intros Ha Hb Hc.
  rewrite (low_bits a 2 3), (low_bits b 4 15), (low_bits c 6 63), !Z.shiftl_mul_pow2, !Z.shiftr_div_pow2 by done.
  rewrite !lor_disjoint by (done || (Z.to_euclidean_division_equations; lia)). done.
Qed.

Lemma decode_bytes d0 d1 d2 d3 :
  0 ≤ d0 < 64 → 0 ≤ d1 < 64 → 0 ≤ d2 < 64 → 0 ≤ d3 < 64 →
  Z.lor (shl8 d0 2) (Z.shiftr d1 4) = d0 * 4 + d1 / 16 ∧
  Z.lor (shl8 d1 4) (Z.shiftr d2 2) = d1 mod 16 * 16 + d2 / 4 ∧
  Z.lor (shl8 d2 6) d3 = d2 mod 4 * 64 + d3 ∧ Z.land d1 15 = d1 mod 16 ∧ Z.land d2 3 = d2 mod 4.
Proof.
  intros H0 H1 H2 H3. unfold shl8. rewrite !(low_bits _ 8 255), (low_bits d1 4 15), (low_bits d2 2 3), !Z.shiftl_mul_pow2, !Z.shiftr_div_pow2 by done.
  replace (d0 * 2 ^ 2 mod 2 ^ 8) with (d0 * 2 ^ 2) by (rewrite Z.mod_small; lia).
  replace (d1 * 2 ^ 4 mod 2 ^ 8) with (d1 mod 16 * 2 ^ 4) by (Z.to_euclidean_division_equations; lia).
  replace (d2 * 2 ^ 6 mod 2 ^ 8) with (d2 mod 4 * 2 ^ 6) by (Z.to_euclidean_division_equations; lia).
  rewrite !lor_disjoint by (done || (Z.to_euclidean_division_equations; lia)). done.
Qed.

Lemma encode_three a b c r :
  is_byte a → is_byte b → is_byte c →
  encode_base64url (a :: b :: c :: r) =
    alphabet_char (a / 4) :: alphabet_char (a mod 4 * 16 + b / 16) :: alphabet_char (b mod 16 * 4 + c / 64)
    :: alphabet_char (c mod 64) :: encode_base64url r.
Proof.
  intros Ha Hb Hc. destruct (encode_digits a b c Ha Hb Hc) as (E0 & E1 & E2 & E3).
  unfold encode_base64url. rewrite slice_chunks_cons by (done || lia). rewrite fmap_cons, mjoin_cons.
  unfold encode_triple, byte_at. cbn [take drop lookup list_lookup default from_option id app].
  by rewrite E0, E1, E2, E3.
Qed.

Lemma encode_two a b :
  is_byte a → is_byte b →
  encode_base64url [a; b] = [alphabet_char (a / 4); alphabet_char (a mod 4 * 16 + b / 16); alphabet_char (b mod 16 * 4)].
Proof.
  intros Ha Hb. destruct (encode_digits a b 0 Ha Hb ltac:(unfold is_byte; lia)) as (E0 & E1 & E2 & _).
  unfold encode_base64url, slice_chunks. cbn [length slice_chunks_fuel take drop fmap list_fmap]. rewrite mjoin_cons.
  unfold encode_triple, byte_at. cbn [lookup list_lookup default from_option id app mjoin list_join].
  rewrite E0, E1, E2, (Z.div_small 0 64), Z.add_0_r by lia. done.
Qed.

Lemma encode_one a : is_byte a → encode_base64url [a] = [alphabet_char (a / 4); alphabet_char (a mod 4 * 16)].
Proof.
  intros Ha. destruct (encode_digits a 0 0 Ha ltac:(unfold is_byte; lia) ltac:(unfold is_byte; lia)) as (E0 & E1 & _).
  unfold encode_base64url, slice_chunks. cbn [length slice_chunks_fuel take drop fmap list_fmap]. rewrite mjoin_cons.
  unfold encode_triple, byte_at. cbn [lookup list_lookup default from_option id app mjoin list_join].
  rewrite E0, E1, (Z.div_small 0 16), Z.add_0_r by lia. done.
Qed.

Lemma nopad_step c0 c1 c2 c3 d0 d1 d2 d3 r :
  base64url_digit c0 = Some d0 → base64url_digit c1 = Some d1 → base64url_digit c2 = Some d2 → base64url_digit c3 = Some d3 →
  is_base64url_nopad (c0 :: c1 :: c2 :: c3 :: r) = is_base64url_nopad r.
Proof.
  intros E0 E1 E2 E3. unfold is_base64url_nopad. cbn [mapM]. rewrite E0, E1, E2, E3. cbn [mbind option_bind].
  destruct (mapM base64url_digit r) as [[|d ds]|]; cbn [mbind option_bind mret option_ret]; [done| |done].
  change (length (d0 :: d1 :: d2 :: d3 :: d :: ds)) with (4 + length (d :: ds))%nat.
  replace ((4 + length (d :: ds)) mod 4)%nat with (length (d :: ds) mod 4)%nat
    by (rewrite Nat.add_comm; symmetry; apply (Nat.Div0.mod_add _ 1 4)).
  done.
Qed.

Lemma nopad_quad c0 c1 c2 c3 r :
  is_base64url_nopad (c0 :: c1 :: c2 :: c3 :: r) = true →
  ∃ d0 d1 d2 d3, base64url_digit c0 = Some d0 ∧ base64url_digit c1 = Some d1 ∧ base64url_digit c2 = Some d2 ∧
    base64url_digit c3 = Some d3 ∧ is_base64url_nopad r = true.
Proof.
  intros H. destruct (base64url_digit c0) as [d0|] eqn:E0, (base64url_digit c1) as [d1|] eqn:E1,
    (base64url_digit c2) as [d2|] eqn:E2, (base64url_digit c3) as [d3|] eqn:E3;
    try (unfold is_base64url_nopad in H; cbn [mapM] in H; rewrite E0, ?E1, ?E2, ?E3 in H; done).
  exists d0, d1, d2, d3. by rewrite (nopad_step c0 c1 c2 c3 d0 d1 d2 d3) in H.
Qed.

Lemma decode_quad c0 c1 c2 c3 d0 d1 d2 d3 r :
  base64url_digit c0 = Some d0 → base64url_digit c1 = Some d1 → base64url_digit c2 = Some d2 → base64url_digit c3 = Some d3 →
  decode_chunks (slice_chunks 4 (c0 :: c1 :: c2 :: c3 :: r)) =
    let* rest := decode_chunks (slice_chunks 4 r) in
    Ok ([d0 * 4 + d1 / 16; d1 mod 16 * 16 + d2 / 4; d2 mod 4 * 64 + d3] ++ rest).
Proof.
  intros E0 E1 E2 E3. rewrite slice_chunks_cons by (done || lia). cbn [take drop decode_chunks]. rewrite take_0, drop_0.
  apply digit_alphabet in E0 as E0', E1 as E1', E2 as E2', E3 as E3'.
  destruct (decode_bytes d0 d1 d2 d3) as (B0 & B1 & B2 & _); [tauto..|].
  unfold decode_group. cbn [mapM]. rewrite E0, E1, E2, E3.
  cbn [mbind option_bind mret option_ret lookup list_lookup expect_some res_bind]. by rewrite B0, B1, B2.
Qed.

(** Valid text decodes to bytes it is the encoding of. *)
Lemma decode_valid s :
  is_base64url_nopad s = true →
  ∃ bytes, decode_chunks (slice_chunks 4 s) = Ok bytes ∧ Forall is_byte bytes ∧ encode_base64url bytes = s.
Proof.
  remember (length s) as n eqn:Hn. revert s Hn. induction (lt_wf n) as [n _ IH]. intros s Hn Hs.
  destruct s as [|c0 [|c1 [|c2 [|c3 r]]]].
  - by exists [].
  - unfold is_base64url_nopad in Hs. cbn [mapM] in Hs. by destruct (base64url_digit c0).
  - unfold is_base64url_nopad in Hs. cbn [mapM] in Hs.
    destruct (base64url_digit c0) as [d0|] eqn:E0, (base64url_digit c1) as [d1|] eqn:E1; try done.
    cbn in Hs. apply digit_alphabet in E0 as [R0 A0], E1 as [R1 A1]. apply Z.eqb_eq in Hs.
    destruct (decode_bytes d0 d1 0 0) as (B0 & _ & _ & L1 & _); [done|done|lia|lia|]. rewrite L1 in Hs.
    exists [d0 * 4 + d1 / 16]. subst c0 c1.
    assert (is_byte (d0 * 4 + d1 / 16)) as Hb by (unfold is_byte; Z.to_euclidean_division_equations; lia). split_and!.
    + unfold slice_chunks. cbn [length slice_chunks_fuel take drop decode_chunks]. unfold decode_group. cbn [mapM].
      rewrite !alphabet_digit by done. cbn [mbind option_bind mret option_ret lookup list_lookup expect_some res_bind app]. by rewrite B0.
    + by constructor.
    + rewrite encode_one by done. f_equal; [f_equal|f_equal; f_equal]; Z.to_euclidean_division_equations; lia.
  - unfold is_base64url_nopad in Hs. cbn [mapM] in Hs.
    destruct (base64url_digit c0) as [d0|] eqn:E0, (base64url_digit c1) as [d1|] eqn:E1, (base64url_digit c2) as [d2|] eqn:E2; try done.
    cbn in Hs. apply digit_alphabet in E0 as [R0 A0], E1 as [R1 A1], E2 as [R2 A2]. apply Z.eqb_eq in Hs.
    destruct (decode_bytes d0 d1 d2 0) as (B0 & B1 & _ & _ & L2); [done|done|done|lia|]. rewrite L2 in Hs.
    exists [d0 * 4 + d1 / 16; d1 mod 16 * 16 + d2 / 4]. subst c0 c1 c2.
    assert (is_byte (d0 * 4 + d1 / 16)) as Hb by (unfold is_byte; Z.to_euclidean_division_equations; lia).
    assert (is_byte (d1 mod 16 * 16 + d2 / 4)) as Hb' by (unfold is_byte; Z.to_euclidean_division_equations; lia). split_and!.
    + unfold slice_chunks. cbn [length slice_chunks_fuel take drop decode_chunks]. unfold decode_group. cbn [mapM].
      rewrite !alphabet_digit by done. cbn [mbind option_bind mret option_ret lookup list_lookup expect_some res_bind app]. by rewrite B0, B1.
    + by rewrite !Forall_cons, Forall_nil.
    + rewrite encode_two by done. f_equal; [f_equal|f_equal; [f_equal|f_equal; f_equal]]; Z.to_euclidean_division_equations; lia.
  - destruct (nopad_quad _ _ _ _ _ Hs) as (d0 & d1 & d2 & d3 & E0 & E1 & E2 & E3 & Hr).
    cbn [length] in Hn. destruct (IH (length r) ltac:(lia) r eq_refl Hr) as (bytes & Hd & Hb & He).
    rewrite (decode_quad c0 c1 c2 c3 d0 d1 d2 d3), Hd by done. cbn [res_bind]. eexists. split; [done|].
    apply digit_alphabet in E0 as [R0 <-], E1 as [R1 <-], E2 as [R2 <-], E3 as [R3 <-].
    assert (is_byte (d0 * 4 + d1 / 16)) as H0 by (unfold is_byte; Z.to_euclidean_division_equations; lia).
    assert (is_byte (d1 mod 16 * 16 + d2 / 4)) as H1 by (unfold is_byte; Z.to_euclidean_division_equations; lia).
    assert (is_byte (d2 mod 4 * 64 + d3)) as H2 by (unfold is_byte; Z.to_euclidean_division_equations; lia).
    split; [cbn [app]; by rewrite !Forall_cons|]. cbn [app]. rewrite encode_three, He by done.
    f_equal; [f_equal|f_equal; [f_equal|f_equal; [f_equal|f_equal; f_equal]]]; Z.to_euclidean_division_equations; lia.
Qed.

(** What was encoded is valid and decodes to itself. *)
Lemma encode_valid bytes :
  Forall is_byte bytes →
  is_base64url_nopad (encode_base64url bytes) = true ∧ decode_chunks (slice_chunks 4 (encode_base64url bytes)) = Ok bytes.
Proof.
  remember (length bytes) as n eqn:Hn. revert bytes Hn. induction (lt_wf n) as [n _ IH]. intros bytes Hn Hb.
  destruct bytes as [|a [|b [|c r]]].
  - done.
  - apply Forall_cons_1 in Hb as [Ha _]. rewrite encode_one by done. unfold is_byte in Ha.
    assert (0 ≤ a / 4 < 64) as R0 by (Z.to_euclidean_division_equations; lia).
    assert (0 ≤ a mod 4 * 16 < 64) as R1 by (Z.to_euclidean_division_equations; lia).
    destruct (decode_bytes _ _ 0 0 R0 R1) as (B0 & _ & _ & L1 & _); [lia..|].
    unfold is_base64url_nopad, slice_chunks. cbn [length slice_chunks_fuel take drop decode_chunks]. unfold decode_group. cbn [mapM].
    rewrite !alphabet_digit by done. cbn [mbind option_bind mret option_ret lookup list_lookup expect_some res_bind app]. cbn. rewrite B0, L1.
    split; [apply Z.eqb_eq|do 2 f_equal]; Z.to_euclidean_division_equations; lia.
  - apply Forall_cons_1 in Hb as [Ha [Hb _]%Forall_cons_1]. rewrite encode_two by done. unfold is_byte in Ha, Hb.
    assert (0 ≤ a / 4 < 64) as R0 by (Z.to_euclidean_division_equations; lia).
    assert (0 ≤ a mod 4 * 16 + b / 16 < 64) as R1 by (Z.to_euclidean_division_equations; lia).
    assert (0 ≤ b mod 16 * 4 < 64) as R2 by (Z.to_euclidean_division_equations; lia).
    destruct (decode_bytes _ _ _ 0 R0 R1 R2) as (B0 & B1 & _ & _ & L2); [lia|].
    unfold is_base64url_nopad, slice_chunks. cbn [length slice_chunks_fuel take drop decode_chunks]. unfold decode_group. cbn [mapM].
    rewrite !alphabet_digit by done. cbn [mbind option_bind mret option_ret lookup list_lookup expect_some res_bind app]. cbn. rewrite B0, B1, L2.
    split; [apply Z.eqb_eq|f_equal; f_equal; [|f_equal]]; Z.to_euclidean_division_equations; lia.
  - apply Forall_cons_1 in Hb as [Ha [Hb [Hc Hr]%Forall_cons_1]%Forall_cons_1]. rewrite encode_three by done.
    cbn [length] in Hn. destruct (IH (length r) ltac:(lia) r eq_refl Hr) as [Hv Hd]. unfold is_byte in Ha, Hb, Hc.
    assert (base64url_digit (alphabet_char (a / 4)) = Some (a / 4)) as E0 by (apply alphabet_digit; Z.to_euclidean_division_equations; lia).
    assert (base64url_digit (alphabet_char (a mod 4 * 16 + b / 16)) = Some (a mod 4 * 16 + b / 16)) as E1 by (apply alphabet_digit; Z.to_euclidean_division_equations; lia).
    assert (base64url_digit (alphabet_char (b mod 16 * 4 + c / 64)) = Some (b mod 16 * 4 + c / 64)) as E2 by (apply alphabet_digit; Z.to_euclidean_division_equations; lia).
    assert (base64url_digit (alphabet_char (c mod 64)) = Some (c mod 64)) as E3 by (apply alphabet_digit; Z.to_euclidean_division_equations; lia).
    rewrite (nopad_step _ _ _ _ _ _ _ _ _ E0 E1 E2 E3), (decode_quad _ _ _ _ _ _ _ _ _ E0 E1 E2 E3), Hd. split; [done|].
    cbn [res_bind app]. do 2 f_equal; [|f_equal; [|f_equal]]; Z.to_euclidean_division_equations; lia.
Qed.

(** C28: base64url without padding has one text per byte string: decoding
    succeeds exactly on encodings, with the bytes that were encoded, and any
    other text is refused with an error, never a panic. *)
Theorem base64url_exact s :
  (∀ bytes, decode_base64url s = Ok bytes ↔ Forall is_byte bytes ∧ s = encode_base64url bytes) ∧ decode_base64url s ≠ Panic.
Proof.
  unfold decode_base64url. destruct (is_base64url_nopad s) eqn:Hs; cbn [negb].
  - destruct (decode_valid s Hs) as (bytes & Hd & Hb & He). rewrite Hd. split; [|done]. intros bytes'. split; [by intros [= <-]|].
    intros [Hb' ->]. destruct (encode_valid bytes' Hb') as [_ Hd']. congruence.
  - split; [|done]. intros bytes. split; [done|]. intros [Hb ->]. destruct (encode_valid bytes Hb) as [Hv _]. congruence.
Qed.

(** ** Witnesses *)

Lemma timestamps_exact_witness :
  timestamp_from_unix_nanos 1700000000123456789 = Ok (bs "2023-11-14T22:13:20.123456789Z") ∧
  (∃ e, timestamp_from_unix_nanos (-1) = Err e) ∧
  (∃ e, timestamp_from_unix_nanos (SECONDS * NANOS) = Err e).
Proof.
  split_and!.
  - apply (proj1 timestamps_exact). split; [unfold SECONDS, NANOS; lia|vm_compute; reflexivity].
  - apply (proj1 (proj2 timestamps_exact)). lia.
  - apply (proj1 (proj2 timestamps_exact)). lia.
Defined.

Lemma base64url_exact_witness :
  decode_base64url (bs "aGk_-w") = Ok [104; 105; 63; 251] ∧ decode_base64url (bs "aGk_-x") ≠ Panic.
Proof.
  split.
  - apply (proj1 (base64url_exact (bs "aGk_-w"))). split; [by repeat (constructor; [done|])|vm_compute; reflexivity].
  - apply (proj2 (base64url_exact (bs "aGk_-x"))).
Defined.

Example padding_bits_refused : is_ok (decode_base64url (bs "aGk_-x")) = false.
Proof. reflexivity. Qed.

Example leap_day : civil_date 19782 = Ok (2024, 2, 29).
Proof. vm_compute. reflexivity. Qed.
