(* ===== verification/Lsp.v ===== *)
(** * Language server transport and document URIs

    [opaal-lsp/src/transport.rs] (message framing) and [opaal-lsp/src/uri.rs]
    ([file] URIs and native paths on Unix). *)
From S2P Require Import Prelude Decimal Utf8 Path.

Local Open Scope res_scope.

(** ** ASCII text *)

Definition is_ascii (s : str) : bool := forallb (λ b, (0 <=? b) && (b <? 128))%Z s.

Definition ascii_lowercase (b : u8) : u8 := if ((65 <=? b) && (b <=? 90))%Z then (b + 32)%Z else b.

Definition eq_ignore_ascii_case (a b : str) : bool :=
  str_eqb (ascii_lowercase <$> a) (ascii_lowercase <$> b).

(** [char::is_whitespace] on ASCII. *)
Definition is_space (b : u8) : bool := ((9 <=? b) && (b <=? 13))%Z || (b =? 32)%Z.

Fixpoint trim_start (s : str) : str :=
  match s with
  | b :: s' => if is_space b then trim_start s' else s
  | [] => []
  end.
Definition trim (s : str) : str := reverse (trim_start (reverse (trim_start s))).

(** [str::split_once] and [str::split] at one byte. *)
Fixpoint split_once (sep : u8) (s : str) : option (str * str) :=
  match s with
  | [] => None
  | b :: s =>
    if (b =? sep)%Z then Some ([], s)
    else '(l, r) ← split_once sep s; Some (b :: l, r)
  end.

Fixpoint split_on (sep : u8) (s : str) : list str :=
  match s with
  | [] => [[]]
  | b :: s =>
    if (b =? sep)%Z then [] :: split_on sep s
    else match split_on sep s with
         | piece :: pieces => (b :: piece) :: pieces
         | [] => [[b]]
         end
  end.

(** [str::parse::<usize>] of a non-empty digit string. *)
Definition parse_usize (s : str) : option Z :=
  if (digits_value s <? 2 ^ 64)%Z then Some (digits_value s) else None.

(** ** Framing *)

Inductive FrameError :=
| Io | InvalidHeader | MissingContentLength | DuplicateContentLength | InvalidContentLength
| UnsupportedEncoding | TruncatedHeader | TruncatedBody.

(** A [BufRead]: the bytes to come, and whether reading past them fails
    instead of reporting the end of the input. *)
Record Reader := mkReader { pending : str; broken : bool }.

(** [read_until]: up to and including [delimiter], or what is left. *)
Fixpoint take_until (delimiter : u8) (s : str) : option (str * str) :=
  match s with
  | [] => None
  | b :: s =>
    if (b =? delimiter)%Z then Some ([b], s)
    else '(l, r) ← take_until delimiter s; Some (b :: l, r)
  end.

Definition read_until (r : Reader) (delimiter : u8) : res FrameError (str * Reader) :=
  match take_until delimiter (pending r) with
  | Some (line, rest) => Ok (line, mkReader rest (broken r))
  | None => if broken r then Err Io else Ok (pending r, mkReader [] (broken r))
  end.

(** [vec![0; length]] panics beyond [isize::MAX] bytes, and below it is taken to
    be granted (a failed allocation ends the process); then [read_exact]. *)
Definition read_body (r : Reader) (length : Z) : res FrameError (str * Reader) :=
  if (2 ^ 63 <=? length)%Z then Panic
  else if (length <=? Z.of_nat (List.length (pending r)))%Z then
    Ok (take (Z.to_nat length) (pending r), mkReader (drop (Z.to_nat length) (pending r)) (broken r))
  else if broken r then Err Io else Err TruncatedBody.

Definition content_parameter_ok (parameter : str) : bool :=
  match split_once 61 parameter with
  | None => false
  | Some (name, value) =>
    eq_ignore_ascii_case (trim name) (bs "charset") &&
    (eq_ignore_ascii_case (trim value) (bs "utf-8") || eq_ignore_ascii_case (trim value) (bs "utf8"))
  end.

Definition validate_content_type (value : str) : res FrameError unit :=
  match trim <$> split_on 59 value with
  | media :: parameters =>
    if negb (eq_ignore_ascii_case media (bs "application/vscode-jsonrpc")) then Err UnsupportedEncoding
    else if forallb content_parameter_ok parameters then Ok tt else Err UnsupportedEncoding
  | [] => Err UnsupportedEncoding
  end.

Definition CRLF : str := [13%Z; 10%Z].

Definition ends_with (s suffix : str) : bool :=
  str_eqb (drop (length s - length suffix) s) suffix.

(** One header line without its line end, and the length read so far. *)
Definition read_header (content_length : option Z) (line : str) : res FrameError (option Z) :=
  if negb (is_ascii line) then Err InvalidHeader
  else
    match split_once 58 line with
    | None => Err InvalidHeader
    | Some (name, value) =>
      let value := trim value in
      if eq_ignore_ascii_case name (bs "Content-Length") then
        match content_length with
        | Some _ => Err DuplicateContentLength
        | None =>
          if str_eqb value [] || negb (forallb is_digit value) then Err InvalidContentLength
          else match parse_usize value with
               | Some n => Ok (Some n)
               | None => Err InvalidContentLength
               end
        end
      else if eq_ignore_ascii_case name (bs "Content-Type") then
        let* _ := validate_content_type value in Ok content_length
      else if eq_ignore_ascii_case name (bs "Content-Encoding") &&
              negb (eq_ignore_ascii_case value (bs "identity")) then Err UnsupportedEncoding
      else Ok content_length
    end.

(** [None] is the clean end of the input between frames.  Every line consumes
    a byte: the fuel is the number of pending bytes and one more. *)
Fixpoint header_loop (fuel : nat) (r : Reader) (content_length : option Z) (saw_header : bool)
    : res FrameError (option (option Z) * Reader) :=
  match fuel with
  | 0 => Ok (None, r)
  | S fuel =>
    let* ' (line, r) := read_until r 10 in
    match line with
    | [] => if saw_header then Err TruncatedHeader else Ok (None, r)
    | _ =>
      if negb (ends_with line CRLF) then Err InvalidHeader
      else
        let line := take (length line - 2) line in
        match line with
        | [] => Ok (Some content_length, r)
        | _ =>
          let* content_length := read_header content_length line in
          header_loop fuel r content_length true
        end
    end
  end.

Definition read_frame (r : Reader) : res FrameError (option str * Reader) :=
  let* ' (header, r) := header_loop (S (length (pending r))) r None false in
  match header with
  | None => Ok (None, r)
  | Some None => Err MissingContentLength
  | Some (Some length) =>
    let* ' (body, r) := read_body r length in Ok (Some body, r)
  end.

(** The bytes written to a writer that accepts them. *)
Definition write_frame (body : str) : str :=
  bs "Content-Length: " ++ show_int (Z.of_nat (length body)) ++ CRLF ++ CRLF ++ body.

(** ** Document URIs *)

Inductive FileUriError :=
| UnsupportedScheme | UnsupportedAuthority | RelativePath | InvalidPercentEncoding | QueryOrFragment
| NulByte | NonAsciiUri | InvalidUriCharacter | UnsupportedPlatform.

(** A validated URI, spelled as received. *)
Record DocumentUri := mkUri { as_str : str }.

Definition hex_value (byte : u8) : option Z :=
  if ((48 <=? byte) && (byte <=? 57))%Z then Some (byte - 48)%Z
  else if ((97 <=? byte) && (byte <=? 102))%Z then Some (byte - 97 + 10)%Z
  else if ((65 <=? byte) && (byte <=? 70))%Z then Some (byte - 65 + 10)%Z
  else None.

Definition is_ascii_alphanumeric (b : u8) : bool :=
  is_digit b || ((65 <=? b) && (b <=? 90))%Z || ((97 <=? b) && (b <=? 122))%Z.

Definition is_unreserved (byte : u8) : bool :=
  is_ascii_alphanumeric byte || bool_decide (byte ∈ bs "-._~").

Definition is_path_character (byte : u8) : bool :=
  is_unreserved byte || bool_decide (byte ∈ bs "/!$&'()*+,;=:@").

Definition HEX : str := bs "0123456789ABCDEF".

Definition encode_uri_byte (byte : u8) : str :=
  if is_unreserved byte || (byte =? 47)%Z then [byte]
  else [37; nth (Z.to_nat (Z.shiftr byte 4)) HEX 0; nth (Z.to_nat (Z.land byte 15)) HEX 0]%Z.

Definition from_absolute_path (path : str) : res FileUriError DocumentUri :=
  if negb (is_absolute path) then Err RelativePath
  else if bool_decide (0%Z ∈ path) then Err NulByte
  else Ok (mkUri (bs "file://" ++ mjoin (encode_uri_byte <$> path))).

(** The loop over the encoded path; one iteration consumes one byte or an
    escape of three, so the recursion is on the rest of the list. *)
Fixpoint decode_path (encoded : str) : res FileUriError str :=
  match encoded with
  | [] => Ok []
  | byte :: rest =>
    if (byte =? 37)%Z then
      match rest with
      | h :: rest =>
        match hex_value h with
        | None => Err InvalidPercentEncoding
        | Some high =>
          match rest with
          | l :: rest =>
            match hex_value l with
            | None => Err InvalidPercentEncoding
            | Some low =>
              let* decoded := decode_path rest in
              Ok (Z.lor (Z.shiftl high 4) low :: decoded)
            end
          | [] => Err InvalidPercentEncoding
          end
        end
      | [] => Err InvalidPercentEncoding
      end
    else if negb (is_path_character byte) then Err InvalidUriCharacter
    else let* decoded := decode_path rest in Ok (byte :: decoded)
  end.

Definition decode_file_uri (uri : str) : res FileUriError str :=
  if negb (is_ascii uri) then Err NonAsciiUri
  else
    match split_once 58 uri with
    | None => Err UnsupportedScheme
    | Some (scheme, remainder) =>
      if negb (eq_ignore_ascii_case scheme (bs "file")) then Err UnsupportedScheme
      else if bool_decide (63%Z ∈ remainder) || bool_decide (35%Z ∈ remainder) then Err QueryOrFragment
      else
        let* encoded_path :=
          (if starts_with (bs "//") remainder then
             let authority_and_path := drop 2 remainder in
             if negb (starts_with (bs "/") authority_and_path) then Err UnsupportedAuthority
             else Ok authority_and_path
           else Ok remainder) in
        if negb (starts_with (bs "/") encoded_path) then Err RelativePath
        else
          let* decoded := decode_path encoded_path in
          if bool_decide (0%Z ∈ decoded) then Err NulByte else Ok decoded
    end.

Definition parse_uri (uri : str) : res FileUriError DocumentUri :=
  let* _ := decode_file_uri uri in Ok (mkUri uri).

Definition to_file_path (u : DocumentUri) : res FileUriError str := decode_file_uri (as_str u).
