(* ===== verification/LspFacts.v ===== *)
(** * Properties of the language server transport and document URIs *)
From S2P Require Import Prelude Decimal Utf8 Path Lsp.

Local Open Scope res_scope.

(** ** Lines *)

Lemma take_until_Some d s l rest :
  take_until d s = Some (l, rest) ↔ ∃ l', l = l' ++ [d] ∧ d ∉ l' ∧ s = l' ++ d :: rest.
Proof.
  revert l. induction s as [|b s IH]; intros l; simpl.
  { split; [done|]. intros (l' & _ & _ & H). by destruct l'. }
  destruct (Z.eqb_spec b d) as [->|Hb].
  - split.
    + intros [= <- <-]. exists []. split_and!; [done|by apply not_elem_of_nil|done].
    + intros (l' & -> & Hl & Hs). destruct l' as [|x l']; simplify_eq/=; [done|].
      exfalso. apply Hl. left.
  - destruct (take_until d s) as [[l0 r0]|] eqn:E; simpl.
    + split.
      * intros [= <- <-]. destruct (proj1 (IH l0) eq_refl) as (l' & -> & Hl & ->).
        exists (b :: l'). split_and!; [done| |done]. apply not_elem_of_cons. naive_solver.
      * intros (l' & -> & Hl & Hs). destruct l' as [|x l']; simplify_eq/=.
        apply not_elem_of_cons in Hl as [_ Hl].
        assert (Some (l0, r0) = Some (l' ++ [d], rest)) as [= -> ->]; [|done].
        apply IH. by exists l'.
    + split; [done|]. intros (l' & -> & Hl & Hs). destruct l' as [|x l']; simplify_eq/=.
      apply not_elem_of_cons in Hl as [_ Hl].
      assert (None = Some (l' ++ [d], rest)); [|done]. apply IH. by exists l'.
Qed.

Lemma ends_with_spec s suffix : ends_with s suffix = true ↔ ∃ p, s = p ++ suffix.
Proof.
  unfold ends_with. rewrite str_eqb_eq. split.
  - intros H. exists (take (length s - length suffix) s). rewrite <- H at 2. symmetry. apply take_drop.
  - intros [p ->]. rewrite length_app, Nat.add_sub. by apply drop_app_length.
Qed.

(** ** The header block *)

Definition header_line (l : str) : Prop := l ≠ [] ∧ 10%Z ∉ l.

Fixpoint read_headers (content_length : option Z) (lines : list str) : res FrameError (option Z) :=
  match lines with
  | [] => Ok content_length
  | l :: lines => let* content_length := read_header content_length l in read_headers content_length lines
  end.

Definition render_headers (lines : list str) : str := mjoin ((λ l, l ++ CRLF) <$> lines) ++ CRLF.

Lemma read_line_crlf l rest br :
  10%Z ∉ l → read_until (mkReader (l ++ CRLF ++ rest) br) 10 = Ok (l ++ CRLF, mkReader rest br).
Proof.
  intros Hl. unfold read_until. cbn [pending broken].
  rewrite (proj2 (take_until_Some 10 (l ++ CRLF ++ rest) (l ++ CRLF) rest)); [done|].
  exists (l ++ [13%Z]). rewrite <- !app_assoc. split_and!; try done.
  apply not_elem_of_app. split; [done|]. by intros ?%list_elem_of_singleton.
Qed.

Lemma header_loop_step fuel l rest br acc saw :
  10%Z ∉ l →
  header_loop (S fuel) (mkReader (l ++ CRLF ++ rest) br) acc saw =
    match l with
    | [] => Ok (Some acc, mkReader rest br)
    | _ => let* acc := read_header acc l in header_loop fuel (mkReader rest br) acc true
    end.
Proof.
  intros Hl. cbn [header_loop]. rewrite read_line_crlf by done. cbn [res_bind].
  destruct (l ++ CRLF) as [|b line] eqn:E; [by destruct l|]. rewrite <- E.
  rewrite (proj2 (ends_with_spec (l ++ CRLF) CRLF)) by eauto. cbn [negb].
  rewrite length_app, Nat.add_sub. by rewrite take_app_length.
Qed.

Lemma header_loop_complete fuel lines rest br acc saw acc' :
  Forall header_line lines → length lines < fuel → read_headers acc lines = Ok acc' →
  header_loop fuel (mkReader (render_headers lines ++ rest) br) acc saw =
    Ok (Some acc', mkReader rest br).
Proof.
  intros Hl. revert fuel acc saw. induction Hl as [|l lines [Hne Hl] _ IH]; intros fuel acc saw Hf Hr.
  - destruct fuel; [lia|]. injection Hr as ->.
    exact (header_loop_step fuel [] rest br acc' saw (not_elem_of_nil 10%Z)).
  - destruct fuel as [|fuel]; [lia|]. unfold render_headers.
    rewrite fmap_cons, mjoin_cons, <- !app_assoc, header_loop_step by done.
    destruct l as [|b l]; [done|]. simpl in Hr. destruct (read_header acc (b :: l)) as [acc1| |]; try done.
    cbn [res_bind] in *. rewrite app_assoc. apply IH; [simpl in *; lia|done].
Qed.

Lemma read_header_no_panic acc l : read_header acc l ≠ Panic.
Proof.
  unfold read_header, validate_content_type.
  repeat first [done|case_match; simplify_eq/=].
Qed.

Lemma header_loop_sound fuel r acc saw :
  length (pending r) < fuel →
  match header_loop fuel r acc saw with
  | Ok (Some acc', r') => ∃ lines, Forall header_line lines ∧ read_headers acc lines = Ok acc' ∧
      pending r = render_headers lines ++ pending r' ∧ broken r' = broken r
  | Ok (None, r') => r' = r ∧ pending r = [] ∧ broken r = false ∧ saw = false
  | Err _ => True
  | Panic => False
  end.
Proof.
  revert r acc saw. induction fuel as [|fuel IH]; intros [s br] acc saw Hf; [lia|]. simpl in Hf.
  cbn [header_loop]. unfold read_until. cbn [pending broken].
  destruct (take_until 10 s) as [[line rest]|] eqn:Ht.
  - apply take_until_Some in Ht as (l & -> & Hl & ->). cbn [res_bind].
    destruct (l ++ [10%Z]) as [|b line] eqn:E; [by destruct l|]. rewrite <- E. clear E b line.
    destruct (ends_with (l ++ [10%Z]) CRLF) eqn:He; [|done]. cbn [negb].
    apply ends_with_spec in He as [p Hp].
    rewrite (app_assoc p [13%Z] [10%Z] : p ++ CRLF = _) in Hp. apply app_inj_2 in Hp as [-> _]; [|done].
    replace (take _ _) with p.
    2: { rewrite <- app_assoc, length_app, Nat.add_sub. by rewrite take_app_length. }
    assert (10%Z ∉ p) as Hp by (intros ?; apply Hl, elem_of_app; by left).
    destruct p as [|b p].
    + exists []. unfold render_headers. simpl. split_and!; by try constructor.
    + destruct (read_header acc (b :: p)) as [acc1|e|] eqn:Hr;
        [|done|by apply read_header_no_panic in Hr]. cbn [res_bind].
      specialize (IH (mkReader rest br) acc1 true). cbn [pending broken] in IH.
      destruct (header_loop fuel (mkReader rest br) acc1 true) as [[[acc'|] r']|e|]; [| |done|].
      * destruct IH as (lines & Hls & Hrd & Hrest & Hb); [rewrite !length_app in Hf; simpl in Hf; lia|].
        exists ((b :: p) :: lines). split_and!; [by constructor|cbn [read_headers]; by rewrite Hr| |done].
        unfold render_headers in *. rewrite fmap_cons, mjoin_cons, Hrest, <- !app_assoc. done.
      * destruct IH as (_ & _ & _ & ?); [rewrite !length_app in Hf; simpl in Hf; lia|done].
      * apply IH. rewrite !length_app in Hf. simpl in Hf. lia.
  - destruct br; [done|]. cbn [res_bind]. destruct s as [|b s]; [by destruct saw|].
    destruct (ends_with (b :: s) CRLF) eqn:He; [|done]. exfalso.
    apply ends_with_spec in He as [p Hp]. rewrite Hp in Ht.
    destruct (take_until 10 (p ++ CRLF)) eqn:Hn; [done|].
    assert (∀ q : str, take_until 10 (q ++ [10%Z]) ≠ None) as Hq.
    { induction q as [|x q IHq]; [done|]. simpl. case_match; [done|].
      destruct (take_until 10 (q ++ [10%Z])) as [[]|]; naive_solver. }
    apply (Hq (p ++ [13%Z])). by rewrite <- app_assoc.
Qed.

(** ** Frames *)

Lemma header_loop_frame lines rest br :
  Forall header_line lines → ∀ acc', read_headers None lines = Ok acc' →
  header_loop (S (length (render_headers lines ++ rest))) (mkReader (render_headers lines ++ rest) br)
    None false = Ok (Some acc', mkReader rest br).
Proof.
  intros Hl acc' Hr. apply header_loop_complete; [done| |done].
  assert (length lines ≤ length (render_headers lines)); [|rewrite length_app; lia].
  unfold render_headers. rewrite length_app. clear. induction lines as [|l lines IH]; [simpl; lia|].
  rewrite fmap_cons, mjoin_cons, !length_app. change (length CRLF) with 2 in *. cbn [length]. lia.
Qed.

(** *** The header grammar

    What a header block is, without reference to the reader. *)

Definition space (b : u8) : Prop := (9 ≤ b ≤ 13 ∨ b = 32)%Z.

(** [v] is [s] without the white space around it. *)
Definition trimmed (s v : str) : Prop :=
  ∃ l r, s = l ++ v ++ r ∧ Forall space l ∧ Forall space r ∧
    (∀ b v', v = b :: v' → ¬ space b) ∧ (∀ b v', v = v' ++ [b] → ¬ space b).

(** The same text up to the case of ASCII letters. *)
Definition same_letter (x y : u8) : Prop :=
  (x = y ∨ 65 ≤ x ≤ 90 ∧ y = x + 32 ∨ 65 ≤ y ≤ 90 ∧ x = y + 32)%Z.
Definition same_letters : str → str → Prop := Forall2 same_letter.

(** A non-empty string of decimal digits and its value. *)
Inductive decimal : str → Z → Prop :=
| decimal_digit b : (48 ≤ b ≤ 57)%Z → decimal [b] (b - 48)
| decimal_snoc s n b : decimal s n → (48 ≤ b ≤ 57)%Z → decimal (s ++ [b]) (10 * n + (b - 48)).

(** [name], the first [sep], [value]. *)
Definition divided (sep : u8) (s name value : str) : Prop := s = name ++ sep :: value ∧ sep ∉ name.

Fixpoint joined (sep : u8) (p : str) (ps : list str) : str :=
  match ps with
  | [] => p
  | q :: ps => p ++ sep :: joined sep q ps
  end.

Definition charset_parameter (parameter : str) : Prop :=
  ∃ p name value n v, trimmed parameter p ∧ divided 61 p name value ∧ trimmed name n ∧ trimmed value v ∧
    same_letters n (bs "charset") ∧ (same_letters v (bs "utf-8") ∨ same_letters v (bs "utf8")).

(** The media type of the protocol, then its parameters after semicolons. *)
Definition jsonrpc_content_type (value : str) : Prop :=
  ∃ media parameters m, value = joined 59 media parameters ∧ Forall (λ p, 59%Z ∉ p) (media :: parameters) ∧
    trimmed media m ∧ same_letters m (bs "application/vscode-jsonrpc") ∧
    Forall charset_parameter parameters.

Definition header_field (line name value : str) : Prop :=
  Forall (λ b, 0 ≤ b < 128)%Z line ∧ ∃ raw, divided 58 line name raw ∧ trimmed raw value.

Definition length_field (n : Z) (line : str) : Prop :=
  ∃ name value, header_field line name value ∧ same_letters name (bs "Content-Length") ∧
    decimal value n ∧ (n < 2 ^ 64)%Z.

Definition other_field (line : str) : Prop :=
  ∃ name value, header_field line name value ∧ ¬ same_letters name (bs "Content-Length") ∧
    (same_letters name (bs "Content-Type") → jsonrpc_content_type value) ∧
    (same_letters name (bs "Content-Encoding") → same_letters value (bs "identity")).

(** A header block that declares [n] bytes: exactly one [Content-Length], every
    other field acceptable. *)
Definition declares (lines : list str) (n : Z) : Prop :=
  Forall header_line lines ∧
  ∃ before line after, lines = before ++ line :: after ∧ length_field n line ∧
    Forall other_field before ∧ Forall other_field after.

(** *** The reader reads that grammar *)

Lemma is_space_space b : is_space b = true ↔ space b.
Proof. unfold is_space, space. rewrite orb_true_iff, andb_true_iff. lia. Qed.

Lemma same_letters_spec a b : eq_ignore_ascii_case a b = true ↔ same_letters a b.
Proof.
  assert (∀ x y, ascii_lowercase x = ascii_lowercase y ↔ same_letter x y) as Hxy.
  { intros x y. unfold ascii_lowercase, same_letter.
    destruct (Z.leb_spec 65 x), (Z.leb_spec x 90), (Z.leb_spec 65 y), (Z.leb_spec y 90); simpl; lia. }
  unfold eq_ignore_ascii_case, same_letters. rewrite str_eqb_eq. revert b.
  induction a as [|x a IH]; intros [|y b]; simpl.
  - split; [constructor|done].
  - split; [done|by intros ?%Forall2_nil_cons_inv].
  - split; [done|by intros ?%Forall2_cons_nil_inv].
  - rewrite Forall2_cons, <- IH, <- Hxy. split; [by intros [= ? ?]|intros [? ?]; by f_equal].
Qed.

Lemma same_letters_false a b : eq_ignore_ascii_case a b = false ↔ ¬ same_letters a b.
Proof. by rewrite <- same_letters_spec, not_true_iff_false. Qed.

Lemma trim_start_split s : ∃ l, s = l ++ trim_start s ∧ Forall space l ∧ (∀ b v', trim_start s = b :: v' → ¬ space b).
Proof.
  induction s as [|b s (l & Hs & Hl & Hb)]; [by exists []|]. simpl. destruct (is_space b) eqn:E.
  - exists (b :: l). split_and!; [simpl; by rewrite <- Hs| |done]. constructor; [by apply is_space_space|done].
  - exists []. split_and!; [done..|]. intros ? ? [= <- <-]. by rewrite <- is_space_space, E.
Qed.

Lemma trim_start_spaces l s : Forall space l → trim_start (l ++ s) = trim_start s.
Proof. induction 1 as [|b l Hb%is_space_space _ IH]; [done|]. simpl. by rewrite Hb. Qed.

Lemma trim_start_id s : (∀ b v', s = b :: v' → ¬ space b) → trim_start s = s.
Proof.
  destruct s as [|b s]; [done|]. intros H. simpl. destruct (is_space b) eqn:E; [|done].
  by apply is_space_space, (H b s) in E.
Qed.

Lemma trim_trimmed s : trimmed s (trim s).
Proof.
  destruct (trim_start_split s) as (l & Hs & Hl & Hb).
  destruct (trim_start_split (reverse (trim_start s))) as (r & Hr & Hrs & Hrb).
  unfold trim. set (v := reverse (trim_start (reverse (trim_start s)))).
  assert (trim_start s = v ++ reverse r) as Hv.
  { apply (inj reverse). rewrite reverse_app, reverse_involutive. unfold v. by rewrite reverse_involutive. }
  exists l, (reverse r). split_and!; [by rewrite <- Hv|done|by rewrite Forall_reverse| |].
  - intros b v' Hv'. rewrite Hv' in Hv. by apply (Hb b (v' ++ reverse r)).
  - intros b v' Hv'. apply (Hrb b (reverse v')). apply (inj reverse).
    rewrite reverse_cons, reverse_involutive. by rewrite <- Hv'.
Qed.

Lemma trimmed_trim s v : trimmed s v → trim s = v.
Proof.
  intros (l & r & -> & Hl & Hr & Hb & He). unfold trim. rewrite trim_start_spaces by done.
  destruct v as [|b v].
  { simpl. rewrite <- (app_nil_r r), trim_start_spaces by done. done. }
  rewrite (trim_start_id ((b :: v) ++ r)) by (intros ? ? [= <- _]; by apply (Hb b v)).
  rewrite reverse_app, trim_start_spaces by (by rewrite Forall_reverse).
  rewrite trim_start_id, reverse_involutive; [done|]. intros c w Hw. apply (He c (reverse w)).
  apply (inj reverse). by rewrite reverse_snoc, reverse_involutive.
Qed.

Lemma trimmed_spec s v : trimmed s v ↔ trim s = v.
Proof. split; [apply trimmed_trim|intros <-; apply trim_trimmed]. Qed.

Lemma split_once_Some sep s name value : split_once sep s = Some (name, value) ↔ divided sep s name value.
Proof.
  unfold divided. revert name. induction s as [|b s IH]; intros name; simpl.
  { split; [done|]. intros [H _]. by destruct name. }
  destruct (Z.eqb_spec b sep) as [->|Hb].
  - split; [intros [= <- <-]; split; [done|by apply not_elem_of_nil]|].
    intros [H Hn]. destruct name as [|c name]; simplify_eq/=; [done|]. exfalso. apply Hn. left.
  - destruct name as [|c name].
    { split; [destruct (split_once sep s) as [[]|]; naive_solver|naive_solver]. }
    rewrite not_elem_of_cons. trans (c = b ∧ split_once sep s = Some (name, value)).
    + destruct (split_once sep s) as [[]|]; naive_solver.
    + rewrite IH. naive_solver.
Qed.

Lemma joined_cons sep b p ps : joined sep (b :: p) ps = b :: joined sep p ps.
Proof. by destruct ps. Qed.

Lemma split_on_joined sep s :
  ∃ p ps, split_on sep s = p :: ps ∧ s = joined sep p ps ∧ Forall (λ p, sep ∉ p) (p :: ps).
Proof.
  induction s as [|b s (p & ps & Hs & Hj & Hp)]; simpl.
  { exists [], []. split_and!; [done..|]. repeat constructor. by apply not_elem_of_nil. }
  rewrite Hs. destruct (Z.eqb_spec b sep) as [->|Hb].
  - exists [], (p :: ps). split_and!; [done|simpl; by rewrite <- Hj|].
    constructor; [by apply not_elem_of_nil|done].
  - exists (b :: p), ps. split_and!; [done|by rewrite joined_cons, <- Hj|].
    inv Hp. constructor; [by apply not_elem_of_cons|done].
Qed.

Lemma split_on_piece sep p s :
  sep ∉ p → split_on sep (p ++ sep :: s) = p :: split_on sep s.
Proof.
  induction p as [|b p IH]; simpl; [by rewrite Z.eqb_refl|]. intros [Hb Hp]%not_elem_of_cons.
  rewrite (proj2 (Z.eqb_neq b sep)) by done. by rewrite IH.
Qed.

Lemma split_on_plain sep p : sep ∉ p → split_on sep p = [p].
Proof.
  induction p as [|b p IH]; [done|]. intros [Hb Hp]%not_elem_of_cons. simpl.
  rewrite (proj2 (Z.eqb_neq b sep)) by done. by rewrite IH.
Qed.

Lemma split_on_spec sep s p ps :
  split_on sep s = p :: ps ↔ s = joined sep p ps ∧ Forall (λ p, sep ∉ p) (p :: ps).
Proof.
  split.
  - intros H. destruct (split_on_joined sep s) as (q & qs & Hq & Hs & Hf). rewrite H in Hq. by injection Hq as -> ->.
  - intros [-> Hf]. revert p Hf. induction ps as [|q ps IH]; intros p Hf; inv Hf; simpl.
    + by apply split_on_plain.
    + by rewrite split_on_piece, IH.
Qed.

Lemma content_parameter_spec parameter :
  content_parameter_ok (trim parameter) = true ↔ charset_parameter parameter.
Proof.
  unfold content_parameter_ok, charset_parameter.
  destruct (split_once 61 (trim parameter)) as [[name value]|] eqn:E.
  - rewrite andb_true_iff, orb_true_iff, !same_letters_spec. split.
    + intros [Hn Hv]. exists (trim parameter), name, value, (trim name), (trim value).
      rewrite !trimmed_spec, <- split_once_Some. done.
    + intros (p & name' & value' & n & v & Hp & Hd & Hn & Hv & H).
      rewrite trimmed_spec in Hp, Hn, Hv. apply split_once_Some in Hd. by simplify_eq.
  - split; [done|]. intros (p & name' & value' & n & v & Hp & Hd & _).
    rewrite trimmed_spec in Hp. apply split_once_Some in Hd. by simplify_eq.
Qed.

Lemma validate_content_type_spec value :
  validate_content_type value = Ok tt ↔ jsonrpc_content_type value.
Proof.
  unfold validate_content_type, jsonrpc_content_type.
  destruct (split_on_joined 59 value) as (media & parameters & Hs & Hv). rewrite Hs. cbn [fmap list_fmap].
  assert (forallb content_parameter_ok (trim <$> parameters) = true ↔ Forall charset_parameter parameters) as Hps.
  { rewrite forallb_forall, list.Forall_forall. setoid_rewrite <- content_parameter_spec.
    split; intros H x; [intros Hx; apply H, list_elem_of_In, list_elem_of_fmap; by exists x|].
    intros (y & -> & Hy)%list_elem_of_In%list_elem_of_fmap. by apply H. }
  trans (same_letters (trim media) (bs "application/vscode-jsonrpc") ∧ Forall charset_parameter parameters).
  - rewrite <- Hps, <- same_letters_spec. destruct (eq_ignore_ascii_case _ _), (forallb _ _); simpl; naive_solver.
  - split.
    + intros [Hm Hp]. exists media, parameters, (trim media). rewrite trimmed_spec. naive_solver.
    + intros (m' & ps' & m & Hj & Hf & Hm & Hl & Hp). rewrite trimmed_spec in Hm.
      assert (media :: parameters = m' :: ps') as [= -> ->].
      { rewrite <- Hs. by apply split_on_spec. }
      by subst m.
Qed.

Lemma decimal_spec s n : decimal s n ↔ s ≠ [] ∧ forallb is_digit s = true ∧ digits_value s = n.
Proof.
  split.
  - induction 1 as [b Hb|s n b _ (Hs & Hd & Hv) Hb].
    + split_and!; [done| |done]. simpl. unfold is_digit. lia.
    + split_and!; [by destruct s| |].
      * rewrite forallb_app, Hd. simpl. unfold is_digit. lia.
      * rewrite digits_value_app, Hv. unfold digits_value. simpl. lia.
  - intros (Hs & Hd & <-). induction s as [|b s IH] using rev_ind; [done|]. clear Hs.
    rewrite forallb_app in Hd. simpl in Hd. bool_to_prop.
    assert (48 ≤ b ≤ 57)%Z as Hb by (unfold is_digit in *; lia).
    destruct s as [|c s]; [by apply decimal_digit|].
    replace (digits_value ((c :: s) ++ [b])) with (10 * digits_value (c :: s) + (b - 48))%Z.
    + apply decimal_snoc; [by apply IH|done].
    + rewrite digits_value_app. unfold digits_value at 3. simpl length. simpl foldl. lia.
Qed.

Lemma decimal_nonneg s n : decimal s n → (0 ≤ n)%Z.
Proof. intros H. induction H; lia. Qed.

Lemma header_field_spec line name value :
  header_field line name value ↔
    is_ascii line = true ∧ ∃ raw, split_once 58 line = Some (name, raw) ∧ trim raw = value.
Proof.
  unfold header_field, is_ascii. rewrite forallb_forall, list.Forall_forall.
  setoid_rewrite split_once_Some. setoid_rewrite trimmed_spec. apply and_iff_compat_r.
  split; intros H x Hx; [apply list_elem_of_In, H in Hx; lia|].
  apply list_elem_of_In, H in Hx. lia.
Qed.

(** One header line: a length where none was read, or another field. *)
Lemma read_header_spec acc line acc' :
  read_header acc line = Ok acc' ↔
    other_field line ∧ acc' = acc ∨ acc = None ∧ ∃ n, length_field n line ∧ acc' = Some n.
Proof.
  unfold other_field, length_field. setoid_rewrite header_field_spec. unfold read_header.
  destruct (is_ascii line); [|naive_solver]. cbn [negb].
  destruct (split_once 58 line) as [[name raw]|]; [|naive_solver].
  destruct (eq_ignore_ascii_case name (bs "Content-Length")) eqn:El.
  - apply same_letters_spec in El. trans (acc = None ∧ ∃ n, decimal (trim raw) n ∧ (n < 2 ^ 64)%Z ∧ acc' = Some n).
    + setoid_rewrite decimal_spec. unfold str_eqb, parse_usize.
      destruct acc as [m|]; [naive_solver|]. case_bool_decide as Hr; cbn [orb]; [naive_solver|].
      destruct (forallb is_digit (trim raw)); cbn [negb]; [|naive_solver].
      destruct (Z.ltb_spec (digits_value (trim raw)) (2 ^ 64)) as [Hl|Hl]; [naive_solver|].
      split; [done|]. intros (_ & n & (_ & _ & <-) & H & _). lia.
    + naive_solver.
  - apply same_letters_false in El.
    trans (((same_letters name (bs "Content-Type") → jsonrpc_content_type (trim raw)) ∧
      (same_letters name (bs "Content-Encoding") → same_letters (trim raw) (bs "identity"))) ∧ acc' = acc);
      [|naive_solver].
    destruct (eq_ignore_ascii_case name (bs "Content-Type")) eqn:Et.
    + apply same_letters_spec in Et. assert (¬ same_letters name (bs "Content-Encoding")) as He.
      { intros He. apply Forall2_length in Et, He. rewrite Et in He. by vm_compute in He. }
      rewrite <- validate_content_type_spec.
      destruct (validate_content_type (trim raw)) as [[]| |]; cbn [res_bind]; naive_solver.
    + apply same_letters_false in Et. rewrite <- !same_letters_spec.
      destruct (eq_ignore_ascii_case name (bs "Content-Encoding")),
        (eq_ignore_ascii_case (trim raw) (bs "identity")); cbn [andb negb];
        rewrite same_letters_spec; naive_solver.
Qed.

Lemma read_headers_others lines acc n :
  read_headers (Some acc) lines = Ok (Some n) ↔ n = acc ∧ Forall other_field lines.
Proof.
  induction lines as [|l lines IH]; cbn [read_headers]; [split; [by intros [= ->]|by intros [-> _]]|].
  rewrite Forall_cons, <- (and_comm (Forall _ _)), (and_assoc (n = acc)), <- IH.
  split.
  - intros (acc' & [[Ho ->]|[? _]]%read_header_spec & Hr)%res_bind_ok; [|done]. done.
  - intros [Hr Ho]. assert (read_header (Some acc) l = Ok (Some acc)) as -> by (apply read_header_spec; by left).
    done.
Qed.

Lemma read_headers_length lines n :
  read_headers None lines = Ok (Some n) ↔
    ∃ before line after, lines = before ++ line :: after ∧ length_field n line ∧
      Forall other_field before ∧ Forall other_field after.
Proof.
  induction lines as [|l lines IH]; cbn [read_headers].
  { split; [done|]. by intros ([|??] & ? & ? & ? & _). }
  split.
  - intros (acc & [[Ho ->]|(_ & m & Hm & ->)]%read_header_spec & Hr)%res_bind_ok.
    + apply IH in Hr as (before & line & after & -> & H & Hb & Ha).
      exists (l :: before), line, after. split_and!; try done. by constructor.
    + apply read_headers_others in Hr as [-> Ho]. by exists [], l, lines.
  - intros ([|b before] & line & after & E & H & Hb & Ha); simplify_eq/=.
    + assert (read_header None line = Ok (Some n)) as -> by (apply read_header_spec; naive_solver).
      by apply read_headers_others.
    + inv Hb. assert (read_header None b = Ok None) as -> by (apply read_header_spec; naive_solver).
      apply IH. naive_solver.
Qed.

Lemma declares_reads lines n :
  declares lines n ↔ Forall header_line lines ∧ read_headers None lines = Ok (Some n).
Proof. unfold declares. by rewrite read_headers_length. Qed.

Lemma declares_nonneg lines n : declares lines n → (0 ≤ n)%Z.
Proof. intros (_ & ? & ? & ? & _ & (? & ? & _ & _ & H & _) & _). by apply decimal_nonneg in H. Qed.

Lemma read_frame_declared lines n rest br :
  declares lines n →
  read_frame (mkReader (render_headers lines ++ rest) br) =
    let* ' (body, r) := read_body (mkReader rest br) n in Ok (Some body, r).
Proof.
  intros [Hl Hr]%declares_reads. unfold read_frame. cbn [pending].
  by rewrite (header_loop_frame lines rest br Hl _ Hr).
Qed.

Lemma read_frame_cases r :
  match read_frame r with
  | Ok (None, r') => r' = r ∧ pending r = [] ∧ broken r = false
  | Ok (Some body, r') =>
      ∃ lines, declares lines (Z.of_nat (length body)) ∧ (Z.of_nat (length body) < 2 ^ 63)%Z ∧
        pending r = render_headers lines ++ body ++ pending r' ∧ broken r' = broken r
  | Panic => ∃ lines n rest, declares lines n ∧ (2 ^ 63 ≤ n)%Z ∧ pending r = render_headers lines ++ rest
  | Err _ => True
  end.
Proof.
  unfold read_frame. pose proof (header_loop_sound (S (length (pending r))) r None false) as H.
  destruct (header_loop _ r None false) as [[[[n|]|] r1]| |]; cbn [res_bind]; try done.
  - destruct H as (lines & Hl & Hr & Hp & Hb); [lia|]. unfold read_body.
    assert (declares lines n) as Hd by (by apply declares_reads).
    destruct (Z.leb_spec (2 ^ 63) n) as [Hn|Hn]; [by exists lines, n, (pending r1)|].
    destruct (Z.leb_spec n (Z.of_nat (length (pending r1)))) as [Hle|Hle]; cbn [res_bind];
      [|by destruct (broken r1)].
    assert (0 ≤ n)%Z as H0 by (by eapply declares_nonneg).
    exists lines. cbn [pending broken].
    assert (Z.of_nat (length (take (Z.to_nat n) (pending r1))) = n) as ->
      by (rewrite length_take; lia).
    rewrite take_drop. by split_and!.
  - destruct H as (? & ? & ? & ?); [lia|done].
  - exfalso. apply H. lia.
Qed.

(** The block [write_frame] writes. *)
Definition length_line (n : Z) : str := bs "Content-Length: " ++ show_int n.

Lemma trim_start_keep b s : is_space b = false → trim_start (b :: s) = b :: s.
Proof. simpl. by intros ->. Qed.

Lemma trim_digits s : s ≠ [] → forallb is_digit s = true → trim (32%Z :: s) = s.
Proof.
  intros Hn Hd. assert (∀ x, x ∈ s → is_space x = false) as Hsp.
  { intros x Hx. rewrite forallb_forall in Hd. apply list_elem_of_In, Hd in Hx.
    unfold is_digit, is_space in *. lia. }
  unfold trim. cbn [trim_start]. destruct (is_space 32) eqn:E; [|done].
  assert (trim_start s = s) as ->.
  { destruct s as [|b s]; [done|]. apply trim_start_keep, Hsp. left. }
  destruct s as [|b s _] using rev_ind; [done|]. rewrite reverse_snoc, trim_start_keep.
  - by rewrite <- reverse_snoc, reverse_involutive.
  - apply Hsp, elem_of_app. right. left.
Qed.

Lemma digits_ascii s : forallb is_digit s = true → is_ascii s = true.
Proof.
  unfold is_ascii. rewrite !forallb_forall. intros H x Hx. apply H in Hx. unfold is_digit in Hx. lia.
Qed.

Lemma length_line_declares n : (0 ≤ n < 2 ^ 64)%Z → declares [length_line n] n.
Proof.
  intros Hn. apply declares_reads. destruct (show_int_digits n) as (Hne & Hd & Hv); [lia|]. split.
  - apply Forall_cons_2; [|constructor]. split; [done|]. unfold length_line.
    apply not_elem_of_app. split; [apply (bool_decide_unpack _); by vm_compute|].
    intros Hx. rewrite forallb_forall in Hd. apply list_elem_of_In, Hd in Hx. done.
  - cbn [read_headers]. unfold read_header, length_line.
    assert (is_ascii (bs "Content-Length: " ++ show_int n) = true) as ->.
    { unfold is_ascii. rewrite forallb_app. apply andb_true_iff. split; [done|by apply digits_ascii]. }
    cbn [negb]. change (bs "Content-Length: ") with (bs "Content-Length" ++ [58%Z; 32%Z]).
    assert (∀ v, split_once 58 ((bs "Content-Length" ++ [58%Z; 32%Z]) ++ v) =
      Some (bs "Content-Length", 32%Z :: v)) as -> by done.
    rewrite (trim_digits _ Hne Hd).
    change (eq_ignore_ascii_case (bs "Content-Length") (bs "Content-Length")) with true.
    cbn [negb]. rewrite Hd. unfold str_eqb. rewrite bool_decide_eq_false_2 by done. cbn [orb negb].
    unfold parse_usize. rewrite Hv. by rewrite (proj2 (Z.ltb_lt _ _)) by lia.
Qed.

Lemma write_frame_headers body :
  write_frame body = render_headers [length_line (Z.of_nat (length body))] ++ body.
Proof. unfold write_frame, render_headers, length_line. simpl. by rewrite <- !app_assoc. Qed.

(** ** Document URIs *)

Lemma hex_digit k : (0 ≤ k < 16)%Z →
  hex_value (nth (Z.to_nat k) HEX 0%Z) = Some k ∧ is_ascii [nth (Z.to_nat k) HEX 0%Z] = true ∧
  nth (Z.to_nat k) HEX 0%Z ≠ 63%Z ∧ nth (Z.to_nat k) HEX 0%Z ≠ 35%Z.
Proof.
  intros Hk. assert (k ∈ seqZ 0 16) as Hin by (apply elem_of_seqZ; lia).
  revert k Hk Hin. intros k _. revert k. apply list.Forall_forall.
  apply (bool_decide_unpack _). by vm_compute.
Qed.

(** Every property of one encoded byte the decoder relies on. *)
Definition encoded_ok (b : u8) : bool :=
  is_ascii (encode_uri_byte b) && negb (bool_decide (63%Z ∈ encode_uri_byte b)) &&
  negb (bool_decide (35%Z ∈ encode_uri_byte b)) &&
  match encode_uri_byte b with
  | [c] => (c =? b)%Z && negb (c =? 37)%Z && is_path_character c
  | [c; h; l] => (c =? 37)%Z &&
      match hex_value h, hex_value l with
      | Some high, Some low => (Z.lor (Z.shiftl high 4) low =? b)%Z
      | _, _ => false
      end
  | _ => false
  end.

Lemma encoded_ok_byte b : is_byte b → encoded_ok b = true.
Proof.
  intros Hb. assert (b ∈ seqZ 0 256) as Hin by (apply elem_of_seqZ; unfold is_byte in Hb; lia).
  revert b Hb Hin. intros b _. revert b. apply list.Forall_forall.
  apply (bool_decide_unpack _). by vm_compute.
Qed.

Lemma decode_encoded_byte b rest :
  is_byte b → decode_path (encode_uri_byte b ++ rest) = (let* d := decode_path rest in Ok (b :: d)).
Proof.
  intros Hb%encoded_ok_byte. unfold encoded_ok in Hb. apply andb_true_iff in Hb as [_ Hb].
  destruct (encode_uri_byte b) as [|c [|h [|l [|? ?]]]]; try done; cbn [app decode_path].
  - bool_to_prop. subst c. rewrite (proj2 (Z.eqb_neq _ _)) by done.
    by match goal with H : is_path_character b = true |- _ => rewrite H end.
  - bool_to_prop. subst c. rewrite Z.eqb_refl.
    destruct (hex_value h) as [high|]; [|done]. destruct (hex_value l) as [low|]; [|done].
    bool_to_prop. by subst b.
Qed.

Lemma decode_encoded path : Forall is_byte path → decode_path (mjoin (encode_uri_byte <$> path)) = Ok path.
Proof.
  induction 1 as [|b path Hb _ IH]; [done|].
  by rewrite fmap_cons, mjoin_cons, decode_encoded_byte, IH by done.
Qed.

Lemma encoded_plain path : Forall is_byte path →
  let s := mjoin (encode_uri_byte <$> path) in is_ascii s = true ∧ 63%Z ∉ s ∧ 35%Z ∉ s.
Proof.
  induction 1 as [|b path Hb _ (IH1 & IH2 & IH3)]; cbn zeta in *.
  { split_and!; [done|by apply not_elem_of_nil..]. }
  apply encoded_ok_byte in Hb. unfold encoded_ok in Hb. bool_to_prop.
  repeat match goal with H : bool_decide _ = false |- _ => apply bool_decide_eq_false in H end.
  rewrite fmap_cons, mjoin_cons. split_and!.
  - unfold is_ascii in *. by rewrite forallb_app, IH1, andb_true_r.
  - by apply not_elem_of_app.
  - by apply not_elem_of_app.
Qed.

Lemma decode_file_uri_encoded path :
  is_absolute path = true → Forall is_byte path → 0%Z ∉ path →
  decode_file_uri (bs "file://" ++ mjoin (encode_uri_byte <$> path)) = Ok path.
Proof.
  intros Ha Hb Hz. destruct (encoded_plain path Hb) as (Hasc & Hq & Hh).
  unfold decode_file_uri.
  assert (is_ascii (bs "file://" ++ mjoin (encode_uri_byte <$> path)) = true) as ->.
  { unfold is_ascii in *. by rewrite forallb_app, Hasc. }
  cbn [negb]. change (bs "file://") with (bs "file" ++ 58%Z :: bs "//").
  assert (∀ v, split_once 58 ((bs "file" ++ 58%Z :: bs "//") ++ v) = Some (bs "file", bs "//" ++ v)) as -> by done.
  cbn [negb eq_ignore_ascii_case].
  change (eq_ignore_ascii_case (bs "file") (bs "file")) with true. cbn [negb].
  rewrite !bool_decide_eq_false_2.
  2,3: apply not_elem_of_app; split; [apply (bool_decide_unpack _); by vm_compute|done].
  cbn [orb]. assert (∀ v, starts_with (bs "//") (bs "//" ++ v) = true) as -> by done.
  assert (∀ v, drop 2 (bs "//" ++ v) = v) as -> by done.
  assert (starts_with (bs "/") (mjoin (encode_uri_byte <$> path)) = true) as Hs.
  { destruct path as [|b path]; [done|]. simpl in Ha. bool_to_prop. subst b. done. }
  rewrite Hs. cbn [negb res_bind]. rewrite Hs. cbn [negb]. rewrite decode_encoded by done.
  cbn [res_bind]. by rewrite bool_decide_eq_false_2.
Qed.

Lemma is_path_character_byte b : is_path_character b = true → is_byte b ∧ b ≠ 0%Z.
Proof.
  unfold is_path_character, is_unreserved, is_ascii_alphanumeric, is_digit, is_byte.
  rewrite !orb_true_iff, !bool_decide_eq_true. intros [[?|H]|H]; [lia| |];
    simpl in H; repeat (apply elem_of_cons in H as [->|H]; [unfold ascii_byte; simpl; lia|]);
    by apply not_elem_of_nil in H.
Qed.

Lemma hex_value_range b k : hex_value b = Some k → (0 ≤ k < 16)%Z.
Proof. unfold hex_value. intros H. repeat case_match; simplify_eq/=; lia. Qed.

Lemma hex_byte h l : (0 ≤ h < 16)%Z → (0 ≤ l < 16)%Z → is_byte (Z.lor (Z.shiftl h 4) l).
Proof.
  intros Hh Hl. assert (h ∈ seqZ 0 16) as H1 by (apply elem_of_seqZ; lia).
  assert (l ∈ seqZ 0 16) as H2 by (apply elem_of_seqZ; lia). revert l Hl H2. intros l _. revert l.
  apply list.Forall_forall. revert h Hh H1. intros h _. revert h. apply list.Forall_forall.
  apply (bool_decide_unpack _). by vm_compute.
Qed.

Lemma decode_path_sound encoded decoded :
  decode_path encoded = Ok decoded →
  Forall is_byte decoded ∧ (starts_with (bs "/") encoded = true → is_absolute decoded = true).
Proof.
  revert decoded. induction encoded as [encoded IH] using (well_founded_induction
    (Wf_nat.well_founded_ltof _ (@length Z))). unfold Wf_nat.ltof in IH. intros decoded.
  destruct encoded as [|b rest]; [by intros [= <-]|]. cbn [decode_path].
  destruct (Z.eqb_spec b 37) as [->|Hb].
  - destruct rest as [|h [|l rest]]; [done|by destruct (hex_value h)|].
    destruct (hex_value h) as [high|] eqn:Hh; [|done]. destruct (hex_value l) as [low|] eqn:Hl; [|done].
    intros (d & Hd & [= <-])%res_bind_ok. destruct (IH rest ltac:(simpl; lia) d Hd) as [Hf _].
    split; [|done]. apply Forall_cons_2; [|done]. by eapply hex_byte; eapply hex_value_range.
  - destruct (is_path_character b) eqn:Hc; [|done]. cbn [negb].
    intros (d & Hd & [= <-])%res_bind_ok. destruct (IH rest ltac:(simpl; lia) d Hd) as [Hf _].
    split; [apply Forall_cons_2; [by apply is_path_character_byte|done]|].
    cbn [bs starts_with]. intros [<-%Z.eqb_eq _]%andb_true_iff. done.
Qed.

Lemma decode_file_uri_sound uri path :
  decode_file_uri uri = Ok path → is_absolute path = true ∧ Forall is_byte path ∧ 0%Z ∉ path.
Proof.
  unfold decode_file_uri. destruct (is_ascii uri); [|done]. cbn [negb].
  destruct (split_once 58 uri) as [[scheme remainder]|]; [|done].
  destruct (eq_ignore_ascii_case scheme (bs "file")); [|done]. cbn [negb].
  case_match; [done|]. intros (enc & _ & H2)%res_bind_ok.
  destruct (starts_with (bs "/") enc) eqn:Hs; [|done]. cbn [negb] in H2.
  apply res_bind_ok in H2 as (d & Hd & H2). case_bool_decide; [done|]. injection H2 as <-.
  destruct (decode_path_sound _ _ Hd) as [Hf Ha]. split_and!; auto.
Qed.

(** ** Theorems *)

(** A written frame reads back as its body, and the reader is left at the
    first byte after the frame, whatever follows. *)
Theorem frame_roundtrip (body rest : str) (br : bool) :
  (Z.of_nat (length body) < 2 ^ 63)%Z →
  read_frame (mkReader (write_frame body ++ rest) br) = Ok (Some body, mkReader rest br).
Proof.
  intros Hb. rewrite write_frame_headers, <- app_assoc.
  rewrite (read_frame_declared _ (Z.of_nat (length body))) by (apply length_line_declares; lia).
  unfold read_body. cbn [pending broken]. rewrite (proj2 (Z.leb_gt _ _)) by done.
  rewrite (proj2 (Z.leb_le _ _)) by (rewrite length_app; lia). rewrite Nat2Z.id.
  cbn [res_bind]. by rewrite take_app_length, drop_app_length.
Qed.

(** C40: Reading a frame, on any input: a body is returned exactly when the input
    begins with a block of the header grammar that declares the body's length
    (one [Content-Length] of decimal digits below [2 ^ 64], and otherwise only
    fields that are accepted, a content type and an encoding being the ones of
    the protocol), and then exactly the frame is consumed; no body is returned
    exactly at a clean end of the input; and the call panics exactly when the
    declared length exceeds what an allocation may have. *)
Theorem read_frame_exact (r : Reader) :
  (∀ body r', read_frame r = Ok (Some body, r') ↔
    broken r' = broken r ∧ (Z.of_nat (length body) < 2 ^ 63)%Z ∧
    ∃ lines, declares lines (Z.of_nat (length body)) ∧
      pending r = render_headers lines ++ body ++ pending r') ∧
  (∀ r', read_frame r = Ok (None, r') ↔ r' = r ∧ pending r = [] ∧ broken r = false) ∧
  (read_frame r = Panic ↔
    ∃ lines n rest, declares lines n ∧ (2 ^ 63 ≤ n)%Z ∧ pending r = render_headers lines ++ rest).
Proof.
  pose proof (read_frame_cases r) as H. split_and!.
  - intros body r'. split.
    + intros E. rewrite E in H. naive_solver.
    + intros (Hbr & Hlen & lines & Hd & Hp). destruct r as [s br], r' as [rest br']. simpl in *. subst.
      rewrite (read_frame_declared _ _ _ _ Hd). unfold read_body. cbn [pending broken].
      rewrite (proj2 (Z.leb_gt _ _)) by done.
      rewrite (proj2 (Z.leb_le _ _)) by (rewrite length_app; lia). rewrite Nat2Z.id.
      cbn [res_bind]. by rewrite take_app_length, drop_app_length.
  - intros r'. split; [intros E; by rewrite E in H|].
    intros (-> & Hp & Hb). destruct r as [s br]. simpl in *. by subst.
  - split; [intros E; by rewrite E in H|].
    intros (lines & n & rest & Hd & Hn & Hp). destruct r as [s br]. simpl in *. subst.
    rewrite (read_frame_declared _ _ _ _ Hd). unfold read_body.
    by rewrite (proj2 (Z.leb_le _ _)).
Qed.

(** An absolute path without NUL bytes, text or not, becomes a URI that
    parses and denotes exactly the same path; every other path is refused
    with its reason. *)
Theorem uri_roundtrip (path : str) :
  Forall is_byte path →
  if is_absolute path then
    if bool_decide (0%Z ∈ path) then from_absolute_path path = Err NulByte
    else ∃ u, from_absolute_path path = Ok u ∧ to_file_path u = Ok path ∧ parse_uri (as_str u) = Ok u
  else from_absolute_path path = Err RelativePath.
Proof.
  intros Hb. unfold from_absolute_path. destruct (is_absolute path) eqn:Ha; [|done]. cbn [negb].
  case_bool_decide as Hz; [done|]. eexists. split; [done|].
  unfold to_file_path, parse_uri. cbn [as_str]. by rewrite decode_file_uri_encoded.
Qed.

(** A URI that parses is kept as spelled, converting it to a path never
    fails, the path is absolute and without NUL bytes, and re-encoding the
    path gives a URI for the same path. *)
Theorem parsed_uri_denotes_path (uri : str) (u : DocumentUri) :
  parse_uri uri = Ok u →
  as_str u = uri ∧
  ∃ path, to_file_path u = Ok path ∧ is_absolute path = true ∧ 0%Z ∉ path ∧
    ∃ u', from_absolute_path path = Ok u' ∧ to_file_path u' = Ok path.
Proof.
  unfold parse_uri. intros (path & Hd & [= <-])%res_bind_ok. split; [done|].
  destruct (decode_file_uri_sound _ _ Hd) as (Ha & Hb & Hz). exists path.
  split_and!; try done. unfold from_absolute_path. rewrite Ha. cbn [negb].
  rewrite bool_decide_eq_false_2 by done. eexists. split; [done|]. by apply decode_file_uri_encoded.
Qed.

(** ** Witnesses *)

Lemma frame_roundtrip_witness :
  read_frame (mkReader (write_frame (bs "{}") ++ bs "next") false) = Ok (Some (bs "{}"), mkReader (bs "next") false).
Proof. apply (frame_roundtrip (bs "{}") (bs "next") false). by vm_compute. Defined.

Lemma uri_roundtrip_witness :
  ∃ u, from_absolute_path (bs "/a b/" ++ [255%Z]) = Ok u ∧ to_file_path u = Ok (bs "/a b/" ++ [255%Z]) ∧
    parse_uri (as_str u) = Ok u.
Proof. apply (uri_roundtrip (bs "/a b/" ++ [255%Z])). apply (bool_decide_unpack _). by vm_compute. Defined.

Lemma parsed_uri_denotes_path_witness :
  ∃ path, to_file_path (mkUri (bs "FILE:/a%2fb")) = Ok path ∧ is_absolute path = true ∧ 0%Z ∉ path ∧
    ∃ u', from_absolute_path path = Ok u' ∧ to_file_path u' = Ok path.
Proof. apply (parsed_uri_denotes_path (bs "FILE:/a%2fb") (mkUri (bs "FILE:/a%2fb"))). by vm_compute. Defined.
